(* ===== verification/_CoqProject ===== *)
-Q . S2P
Prelude.v
Text.v
JoshMessage.v
JoshScalars.v
JoshPayload.v
JoshTracker.v
JoshFraming.v
VmTime.v
Bytecode.v
VmBudget.v
VmValue.v
VmOps.v
VerifierTypes.v
VerifierRules.v
Verifier.v
VerifierEnums.v
VerifierFlow.v
VerifierLoops.v
VerifierOwnership.v
VerifierModule.v
VmStep.v
VmSound.v
VmMeter.v
VmSafety.v
VmTask.v
ArtifactBytes.v
ArtifactModel.v
ArtifactCodec.v
ArtifactFormat.v
ArtifactSections.v
ArtifactTables.v
ArtifactNames.v
ArtifactDigest.v
ArtifactGraph.v
ArtifactChecks.v
Artifact.v
ArtifactSample.v
ArtifactAcyclic.v
ArtifactRoundtrip.v
ArtifactCorrect.v
ArtifactTotal.v
ArtifactSafety.v
VmCanonical.v
VmCanonicalCorrect.v
VmCanonicalRoundtrip.v
VmCanonicalStrict.v
VmJson.v
VmJsonSound.v
RuntimeJson.v
RuntimeJsonCorrect.v
RuntimeInvariants.v
RuntimeInvariantsCorrect.v
SchemaJson.v
SchemaModel.v
SchemaLower.v
SchemaValidate.v
SchemaCatalog.v
SchemaCanonical.v
SchemaUsage.v
SchemaLowerCorrect.v
SchemaValidateCorrect.v
SchemaNamesCorrect.v
HostContracts.v
SyntaxSource.v
SyntaxLexer.v
SyntaxGrammar.v
SyntaxLexerCorrect.v
HttpPolicy.v
HttpBroker.v
HttpConfined.v
HttpBody.v
HttpFraming.v
ExecPolicy.v
HostGrants.v
