(* ===== verification/Prelude.v ===== *)
(** * A verification library for Josh and Allen

    Allen is a language for agent programs; Josh hosts it.  A program is compiled to
    bytecode, the bytecode is verified, and a virtual machine with budgets executes
    it in a runtime process, which talks to the host process over a framed JSON
    protocol.  Tools reach a program through a catalog of JSON schemas that the host
    freezes and both sides identify by digests.  This library models the parts that
    have to be trusted: the protocol crate ([src/crates/josh-protocol]), the bytecode
    model, its artifact codec, its verifier and the machine
    ([src/crates/allen-bytecode], [src/crates/allen-vm]), the schema crate
    ([src/crates/allen-schema]), the entry boundary of the runtime
    ([src/crates/allen-runtime]), the admission of a program by the host
    ([src/crates/josh-host]), the lexer of the source language
    ([src/crates/allen-syntax]) and the broker through which programs reach the network
    ([src/crates/allen-http-get]).

    ** The files and the code they model

    - [Prelude]: [Result] with the [?] operator, panics, machine integers, list
      lemmas, tactics and hints.  [Text]: strings as UTF-8 bytes and the string
      functions of the standard library that the code uses.
    - [JoshMessage], [JoshScalars], [JoshPayload]: [message.rs], [strict_json.rs],
      [payload.rs], [handshake.rs], [version.rs].  Envelopes, strict JSON, and one
      validation per payload type.  [serde_json], [semver], [url] and [base64] are
      interfaces (type classes with their documented laws).
    - [JoshTracker]: [state.rs], the state machine of a connection for both roles.
    - [JoshFraming]: [framing.rs], the reader on a stream of read events and the
      writer's threads as a step relation.
    - [Bytecode]: [model.rs], types, constants, instructions, modules and the types
      of prompts, responses and tool errors.
    - [VmBudget], [VmValue], [VmTime], [VmOps]: the parts of [allen-vm/src/lib.rs]
      that an instruction uses: budgets, values with equality and the run-time type
      test, calendar and text conversions, collection and string operations.
    - [VerifierTypes], [VerifierRules], [Verifier]: [verifier.rs], the types, the rule
      of every instruction, layouts, and definite initialization
      ([verify_cfg_function]'s first pass).  [VerifierEnums]: [verify_enum_types].
      [VerifierFlow]: [verify_sub_agent_cfg] and [verify_affine_cfg].
      [VerifierLoops]: [verify_structured_back_edges].  [VerifierOwnership]: what
      accepted code keeps of these passes.  [VerifierModule]: [verify_internal].
    - [VmStep]: the machine's [step] on the frames of one task.  [VmSound]: values
      that have their types and operations that keep them.  [VmMeter]: the
      instruction meter.  [VmSafety], [VmTask]: from the rules of the instructions
      to the safety of a task.
    - The artifact codec, [artifact.rs]: [ArtifactBytes] (little-endian bytes and
      SHA-256), [ArtifactModel] (the data, limits, errors, output and [Reader]),
      [ArtifactCodec] (types and instructions), [ArtifactSections] (the tables and the
      twelve sections), [ArtifactNames] (canonical names; the semver crate is the
      class [Semver]), [ArtifactDigest] (the digests of schemas, entries, templates
      and tools), [ArtifactGraph] (the package graph), [ArtifactChecks]
      ([validate_encode_model] and the other checks), [Artifact] ([encode],
      [decode], [decode_and_verify]).  Their theorems: [ArtifactFormat] and
      [ArtifactRoundtrip] (what is written is read back, per type, instruction and
      section), [ArtifactTables] (sorted tables), [ArtifactAcyclic] (the package
      graph), [ArtifactCorrect], [ArtifactTotal], [ArtifactSafety]; [ArtifactSample]
      is an artifact for their witnesses.
    - [VmCanonical]: [allen-vm/src/canonical.rs], the canonical encoding of values and
      its strict decoder; the theorems are in [VmCanonicalCorrect],
      [VmCanonicalRoundtrip] and [VmCanonicalStrict].  [VmJson]:
      [allen-vm/src/json.rs], reading JSON into a typed value; [VmJsonSound].
    - The entry boundary of [allen-runtime/src/lib.rs]: [RuntimeJson] (inputs and
      outputs as JSON) with [RuntimeJsonCorrect], [RuntimeInvariants] (the record
      invariants of an entry) with [RuntimeInvariantsCorrect].
    - The schema crate: [SchemaJson] ([canonical.rs], [json.rs], [version.rs]),
      [SchemaModel] (the descriptors of [schema.rs], their canonical JSON and their
      usage), [SchemaLower] (reading a schema), [SchemaValidate] ([validate]),
      [SchemaCatalog] ([name.rs], [catalog.rs]).  The theorems: [SchemaCanonical]
      (identity), [SchemaUsage] and [SchemaLowerCorrect] (canonical form and limits),
      [SchemaValidateCorrect], [SchemaNamesCorrect] (generated names and effects).
    - [HostContracts]: [validate_catalog_contracts] of [josh-host/src/session.rs], where
      the catalog and the artifact meet.
    - The syntax crate: [SyntaxSource] ([generated/kinds.rs], [source.rs],
      [diagnostic.rs]) and [SyntaxLexer] ([lexer.rs]); [SyntaxGrammar] is the lexical
      grammar of the language specification, [SyntaxLexerCorrect] has the theorems.
    - The network broker, [allen-http-get/src/broker.rs]: [HttpPolicy] (limits, errors,
      denied addresses, URLs and origins), [HttpBroker] ([HttpBroker::get] over an
      environment of clock, resolver and transport) with [HttpConfined], [HttpBody]
      (the framing of bodies) with [HttpFraming].  The url and flate2 crates are the
      classes [UrlCrate] and [Gzip].
    - [ExecPolicy]: the command patterns of [allen-exec/src/lib.rs], the requests for
      them in [allen-package/src/manifest.rs] and the grants they allow.
    - [HostGrants]: the registry of external grants, [josh-host/src/grants.rs], with
      [refresh_external_state] and the issue of a capability in the runtime.

    ** Conventions

    A fallible function returns [result]; where the code can panic (an index out of
    range, [expect], [unreachable!]) the model returns an [option], [None] being the
    panic, so that a theorem that a function answers is a theorem that it does not
    panic.  State that the code mutates is passed explicitly; the machine's budget
    goes through the state monad [M].  Integers are [Z] with the checks of their
    width; register, function and instruction indices are [nat].  Floats are bit
    patterns with the arithmetic of [SpecFloat].

    Loops without a structural measure take fuel.  The fuel of the worklist of
    definite initialization is one unit per entry and per register that can still be
    cleared ([cfg_fuel]), and suffices by [cfg_analysis_terminates]; the enum walk has
    one unit per level of nesting ([nesting_fuel], [enum_checks_answer]); the flow
    passes record each state once; the machine's loop is bounded by its instruction
    budget ([metered_execution_terminates]).  The codec's walks over types, enums and
    the package graph have one unit per node ([codec_answers]).  Reading a schema has
    one level per unit of its depth limit and one more: the code refuses deeper
    schemas before it goes down.  The loops of the lexer have one unit per byte and one
    more, since each round consumes a byte ([lexing_lossless]); the loop over redirects
    has two units more than the redirects that may be charged ([http_get_confined]); the
    readers of bodies have one unit per byte that is still to come and one more, and the
    reader of a line as many as the longest line has bytes ([framed_body_exact]).

    ** What the theorems show

    - The verifier is sound for the machine: [verified_execution_safe] (a verified
      task never meets an internal error and completes with a value of its type),
      from definite initialization ([definite_initialization_sound], exact by
      [definite_initialization_exact]), the typing rules and the nesting of values.
    - Ownership and structure of accepted code: futures are used once and consumed
      on every path ([affine_used_once], [started_effects_consumed]), task scopes are
      bracketed, sub-agents stay in their scope, loops have one entry
      ([back_edges_dominate]), enums are not recursive.
    - Every task stops ([metered_execution_terminates]), usage is accounted exactly
      ([budget_accounting_exact]), and operations compute what they should: integers,
      maps, strings, the calendar, cached equality and the cached type test.
    - The codec: an encoded artifact decodes to itself ([artifact_roundtrip]), bytes
      that decode are canonical ([decoded_canonical]), both functions answer on every
      input ([codec_answers]), the package graph is accepted exactly when it is acyclic
      and reachable, and a task of bytes that [decode_and_verify] accepts is safe
      ([accepted_bytes_run_safely]).
    - The protocol: every reachable connection satisfies its invariant, phases advance
      in order, requests are bound to their session, the tables of the peers mirror
      each other; frames and messages round-trip, also with concurrent writers;
      permission decisions never widen; event streams are ordered.
    - Values at the boundaries: a value has one canonical encoding, which is read back
      to its canonical form ([canonical_roundtrip], [decoding_is_strict]) and has the
      reserved length ([encoder_fills_reservation]); JSON is read into well-typed
      values ([decode_json_type_safe]) and entry values survive it
      ([entry_json_lossless]); the entry invariants decide what the language computes
      ([entry_invariants_decided]).
    - Schemas and tools: a schema that is read is canonical and within its limits
      ([lowered_schema_canonical]), its bytes identify it ([schema_identity_exact]),
      validation decides conformance ([validation_exact]), an accepted catalog has
      distinct names ([generated_names_distinct]), and the host admits exactly the
      programs whose tools the catalog provides ([host_admission_exact]).
    - The lexer answers on every source, loses nothing and keeps its limits
      ([lexing_lossless]), and its tokens are spelled as the specification says
      ([tokens_follow_grammar]).
    - The network broker reaches only allowed origins at globally reachable addresses,
      stays within its limits and ends, whatever the network answers
      ([http_get_confined]); bodies are framed exactly ([framed_body_exact]).
    - Grants never exceed what was requested or outlive a revocation: a command grant is
      allowed exactly when a request includes it ([exec_grants_confined]), and revoked
      external grants lose their capabilities in every order of events
      ([revocations_reach_capabilities]).
    - Defects: the handshake's range test misses the current language version
      ([range_test_misses_current_version]); the verifier panics on a call of a
      function whose layout it has not checked
      ([verifier_panics_on_unchecked_callee]); enums with record payloads nested 65
      deep are written and not read back ([nested_enum_not_read_back]); accepted
      invariants can end in the panic code ([accepted_invariants_can_panic]); tools
      whose names have segments that start with an upper-case letter or a digit are
      catalogued and can never be required ([generated_effect_accepted]); a quoted
      literal does not keep its left boundary, on which the incremental parser relies
      ([string_boundary_depends_on_left]); sizes of chunks may have a sign
      ([signed_chunk_size]).

    ** Not modelled

    The scheduler of the machine (spawned tasks, scopes, sequences, the host side of
    effects) and its templates; the parser with its generated tree accessors and the
    compiler, which are checked here through what the verifier accepts of their output;
    the orchestration of the runtime; the TLS transport and the reading of response heads
    under the network broker; the lockfile and the loading of packages, the file broker
    and the running of processes, command line, test kit and the rest of the host, which
    are file, process, thread and network access around the modelled crates. *)

From Stdlib Require Export ZArith Lia Sorted Ascii String.
From stdpp Require Export base tactics numbers option strings gmap list sorting.

#[export] Set Default Proof Using "Type".

(** ** Fallible computations: Rust's [Result] and the [?] operator. *)

Inductive result (E A : Type) : Type :=
| Ok (a : A)
| Err (e : E).
Arguments Ok {E A} a.
Arguments Err {E A} e.

Declare Scope rust_scope.
Delimit Scope rust_scope with rust.
Open Scope rust_scope.

(** [let? x := e in k] is [let x = e?; k]: an error returns early. *)
Notation "'let?' x := e 'in' k" :=
  (match e with Ok x => k | Err er => Err er end)
  (at level 10, x name, e at level 200, k at level 200) : rust_scope.
Notation "'let?' ' p := e 'in' k" :=
  (match e with Ok p => k | Err er => Err er end)
  (at level 10, p pattern, e at level 200, k at level 200) : rust_scope.
(** [try? e in k] is [e?; k] for an [e] whose success value is unit. *)
Notation "'try?' e 'in' k" :=
  (match e with Ok _ => k | Err er => Err er end)
  (at level 10, e at level 200, k at level 200) : rust_scope.

(** [let* x := m in k] and [try* m in k] are the same for a computation that may
    panic ([None]). *)
Notation "'let*' x := m 'in' k" :=
  (match m with
   | None => None
   | Some (Err er) => Some (Err er)
   | Some (Ok x) => k
   end) (at level 10, x binder, m at level 200, k at level 200) : rust_scope.
Notation "'try*' m 'in' k" :=
  (match m with
   | None => None
   | Some (Err er) => Some (Err er)
   | Some (Ok _) => k
   end) (at level 10, m at level 200, k at level 200) : rust_scope.

Definition is_ok {E A} (r : result E A) : bool :=
  match r with Ok _ => true | Err _ => false end.

(** [ok_or(e)] on an [Option]. *)
Definition ok_or {E A} (o : option A) (e : E) : result E A :=
  match o with Some a => Ok a | None => Err e end.

(** [map_err(f)]. *)
Definition map_err {E F A} (f : E → F) (r : result E A) : result F A :=
  match r with Ok a => Ok a | Err e => Err (f e) end.

(** [for x in l { f(x)?; }]: the first error returns. *)
Fixpoint for_each {E A} (f : A → result E unit) (l : list A) : result E unit :=
  match l with
  | [] => Ok tt
  | x :: l' => try? f x in for_each f l'
  end.

(** [l.iter().map(f).collect::<Result<Vec<_>, _>>()]. *)
Fixpoint collect {E A B} (f : A → result E B) (l : list A) : result E (list B) :=
  match l with
  | [] => Ok []
  | x :: l' => let? y := f x in let? ys := collect f l' in Ok (y :: ys)
  end.

(** [try_fold]. *)
Fixpoint try_fold {E A S} (f : S → A → result E S) (s : S) (l : list A) : result E S :=
  match l with
  | [] => Ok s
  | x :: l' => let? s' := f s x in try_fold f s' l'
  end.

(** [l.windows(2).any(|p| r(p[0], p[1]))]. *)
Fixpoint windows2_any {A} (r : A → A → bool) (l : list A) : bool :=
  match l with
  | x :: ((y :: _) as l') => r x y || windows2_any r l'
  | _ => false
  end.

(** ** Machine integers: a width's range, and the checked operations. *)

Definition u8_max : Z := 255.
Definition u16_max : Z := 65535.
Definition u32_max : Z := 4294967295.
Definition u64_max : Z := 18446744073709551615.
Definition i64_min : Z := -9223372036854775808.
Definition i64_max : Z := 9223372036854775807.
(** [usize] on the 64-bit targets the repository ships for. *)
Definition usize_max : Z := u64_max.

Definition in_i64 (z : Z) : bool := (i64_min <=? z)%Z && (z <=? i64_max)%Z.
Definition in_unsigned (max z : Z) : bool := (0 <=? z)%Z && (z <=? max)%Z.

Definition checked (range : Z → bool) (z : Z) : option Z :=
  if range z then Some z else None.

Definition i64_checked_add (a b : Z) : option Z := checked in_i64 (a + b)%Z.
Definition i64_checked_sub (a b : Z) : option Z := checked in_i64 (a - b)%Z.
Definition i64_checked_mul (a b : Z) : option Z := checked in_i64 (a * b)%Z.
Definition i64_checked_neg (a : Z) : option Z := checked in_i64 (- a)%Z.
(** Rust's [/] and [%] on signed integers truncate toward zero. *)
Definition i64_checked_div (a b : Z) : option Z :=
  if (b =? 0)%Z then None else checked in_i64 (Z.quot a b).
(** [i64::MIN % -1] overflows in Rust's [checked_rem]. *)
Definition i64_checked_rem (a b : Z) : option Z :=
  if (b =? 0)%Z then None
  else if (a =? i64_min)%Z && (b =? -1)%Z then None
  else Some (Z.rem a b).

Definition u64_checked_add (a b : Z) : option Z := checked (in_unsigned u64_max) (a + b)%Z.
Definition u64_checked_mul (a b : Z) : option Z := checked (in_unsigned u64_max) (a * b)%Z.
Definition u32_checked_add (a b : Z) : option Z := checked (in_unsigned u32_max) (a + b)%Z.
Definition u32_checked_sub (a b : Z) : option Z := checked (in_unsigned u32_max) (a - b)%Z.

(** ** Automation *)

Create HintDb josh discriminated.
#[export] Hint Constants Opaque : josh.
#[export] Hint Variables Opaque : josh.

(** Splits every [match] of the goal and the hypotheses that blocks it. *)
Ltac split_matches :=
  repeat (first [ progress simplify_eq/= | case_match ]).

(** Walks through the [try?], [let?] and guards of a successful computation [H],
    keeping one equation per step. *)
Ltac ok_inv H :=
  repeat match type of H with
  | context [match ?x with _ => _ end] => destruct x eqn:?; try discriminate H
  end.

(** Turns boolean facts in hypotheses into propositions. *)
Ltac boolify :=
  repeat match goal with
  | H : (_ && _) = true |- _ => apply andb_true_iff in H; destruct H
  | H : (_ || _) = false |- _ => apply orb_false_iff in H; destruct H
  | H : negb _ = true |- _ => apply negb_true_iff in H
  | H : negb _ = false |- _ => apply negb_false_iff in H
  | H : bool_decide _ = true |- _ => apply bool_decide_eq_true in H
  | H : bool_decide _ = false |- _ => apply bool_decide_eq_false in H
  | H : (_ =? _)%Z = true |- _ => apply Z.eqb_eq in H
  | H : (_ =? _)%Z = false |- _ => apply Z.eqb_neq in H
  | H : (_ <=? _)%Z = true |- _ => apply Z.leb_le in H
  | H : (_ <=? _)%Z = false |- _ => apply Z.leb_gt in H
  | H : (_ <? _)%Z = true |- _ => apply Z.ltb_lt in H
  | H : (_ <? _)%Z = false |- _ => apply Z.ltb_ge in H
  end.

(** ** Lemmas on results and integers *)

Lemma for_each_ok {E A} (f : A → result E unit) l :
  for_each f l = Ok tt ↔ Forall (λ x, f x = Ok tt) l.
Proof.
  induction l as [|x l IH]; simpl; [by split; auto|].
  rewrite Forall_cons. destruct (f x) as [[]|e]; rewrite ?IH; naive_solver.
Qed.

Lemma collect_ok {E A B} (f : A → result E B) l ys :
  collect f l = Ok ys ↔ Forall2 (λ x y, f x = Ok y) l ys.
Proof.
  revert ys. induction l as [|x l IH]; intros ys; simpl.
  - split; [intros [= <-]; constructor | inversion 1; done].
  - split.
    + destruct (f x) eqn:Hx; [|done]. destruct (collect f l) eqn:Hl; [|done].
      intros [= <-]. constructor; [done|]. by apply IH.
    + inversion 1 as [|? y ? ys' Hx Hl]; subst. rewrite Hx.
      apply IH in Hl. by rewrite Hl.
Qed.

Lemma collect_length {E A B} (f : A → result E B) l ys :
  collect f l = Ok ys → length ys = length l.
Proof. intros H%collect_ok%Forall2_length. done. Qed.

Lemma checked_Some range z r : checked range z = Some r ↔ range z = true ∧ r = z.
Proof. unfold checked. destruct (range z); naive_solver. Qed.

Lemma checked_None range z : checked range z = None ↔ range z = false.
Proof. unfold checked. destruct (range z); naive_solver. Qed.

Lemma in_i64_spec z : in_i64 z = true ↔ (i64_min <= z <= i64_max)%Z.
Proof. unfold in_i64. rewrite andb_true_iff, !Z.leb_le. done. Qed.

Lemma in_unsigned_spec max z : in_unsigned max z = true ↔ (0 <= z <= max)%Z.
Proof. unfold in_unsigned. rewrite andb_true_iff, !Z.leb_le. done. Qed.

(** Truncating division and remainder stay in range, the one overflow apart. *)
Lemma i64_rem_range a b :
  in_i64 a = true → b ≠ 0%Z → in_i64 (Z.rem a b) = true.
Proof.
  rewrite !in_i64_spec. intros Ha Hb.
  assert (Z.abs (Z.rem a b) <= Z.abs a)%Z as Habs.
  { rewrite <- Z.rem_abs by done. apply Z.rem_le; lia. }
  destruct (Z.le_gt_cases 0 a) as [Hp|Hn]; [unfold i64_min, i64_max in *; lia|].
  pose proof (Z.rem_nonpos a b Hb). unfold i64_min, i64_max in *. lia.
Qed.

Lemma i64_quot_range a b :
  in_i64 a = true → b ≠ 0%Z → ¬ (a = i64_min ∧ b = (-1)%Z) →
  in_i64 (Z.quot a b) = true.
Proof.
  rewrite !in_i64_spec. intros Ha Hb Hov.
  assert (Z.abs (Z.quot a b) <= Z.abs a)%Z as Habs.
  { rewrite <- Z.quot_abs by done. rewrite Z.quot_div_nonneg by lia.
    apply Z.div_le_upper_bound; [lia|]. nia. }
  destruct (decide (a = i64_min)) as [->|]; [|unfold i64_min, i64_max in *; lia].
  destruct (decide (b = 1%Z)) as [->|]; [rewrite Z.quot_1_r; unfold i64_min, i64_max; lia|].
  assert (Z.abs (Z.quot i64_min b) < Z.abs i64_min)%Z as Hlt; [|unfold i64_min, i64_max in *; lia].
  rewrite <- Z.quot_abs by done. rewrite Z.quot_div_nonneg by lia.
  apply Z.div_lt; unfold i64_min in *; lia.
Qed.

(** [windows(2).any] over a decidable relation is the negation of sortedness. *)
Lemma windows2_any_false {A} (r : A → A → bool) l :
  windows2_any r l = false ↔ (∀ i x y, l !! i = Some x → l !! S i = Some y → r x y = false).
Proof.
  induction l as [|x [|y l] IH]; simpl.
  - split; [intros _ i ?? H; by rewrite lookup_nil in H | done].
  - split; [intros _ [|i] ?? ? H; by simplify_list_eq | done].
  - rewrite orb_false_iff. simpl in IH. rewrite IH. split.
    + intros [Hxy Hl] [|i] a b Ha Hb; simplify_list_eq; [done|]. by eapply (Hl i).
    + intros H. split; [by apply (H 0 x y)|]. intros i a b Ha Hb. by apply (H (S i)).
Qed.
