(* ===== verification/Text.v ===== *)
(** * Text: the parts of Rust's [str], [u8] and [char] the sources use

    A Rust [str] is a [string], the sequence of its UTF-8 bytes (so
    [String.length] is [str::len]); a byte is a [Z] between 0 and 255; a [char]
    is the [Z] of its code point.  The definitions here follow the documented
    behaviour of the standard library: ASCII classes, prefix and suffix tests,
    [split], [split_once], lexicographic order, UTF-8 scanning, and decimal
    formatting and parsing.  The lemmas are the facts the components share. *)

From S2P Require Import Prelude.
Open Scope string_scope.
Open Scope Z_scope.

(** ** Bytes *)

Definition byte_of (c : ascii) : Z := Z.of_N (N_of_ascii c).
Definition ascii_of_byte (b : Z) : ascii := ascii_of_N (Z.to_N b).

Definition is_byte (b : Z) : bool := in_unsigned u8_max b.

Fixpoint bytes (s : string) : list Z :=
  match s with
  | EmptyString => []
  | String c s' => byte_of c :: bytes s'
  end.

Fixpoint string_of_bytes (bs : list Z) : string :=
  match bs with
  | [] => EmptyString
  | b :: bs' => String (ascii_of_byte b) (string_of_bytes bs')
  end.

(** [str::len]. *)
Definition str_len (s : string) : Z := Z.of_nat (String.length s).

Definition str_is_empty (s : string) : bool := str_len s =? 0.

Definition between (lo hi b : Z) : bool := (lo <=? b) && (b <=? hi).

Definition is_ascii_digit (b : Z) : bool := between 48 57 b.
Definition is_ascii_lowercase (b : Z) : bool := between 97 122 b.
Definition is_ascii_uppercase (b : Z) : bool := between 65 90 b.
Definition is_ascii_alphabetic (b : Z) : bool := is_ascii_lowercase b || is_ascii_uppercase b.
Definition is_ascii_alphanumeric (b : Z) : bool := is_ascii_alphabetic b || is_ascii_digit b.
(** [u8::is_ascii_graphic]: U+0021 to U+007E. *)
Definition is_ascii_graphic (b : Z) : bool := between 33 126 b.

Definition to_ascii_lowercase (b : Z) : Z := if is_ascii_uppercase b then b + 32 else b.

(** [str::eq_ignore_ascii_case]. *)
Definition eq_ignore_ascii_case (s t : string) : bool :=
  bool_decide (map to_ascii_lowercase (bytes s) = map to_ascii_lowercase (bytes t)).

(** ** UTF-8 *)

Definition is_cont (b : Z) : bool := between 128 191 b.

(** One item per scalar value, with its width in bytes; a byte that starts no
    valid sequence is an item [None] of width one.  A Rust [str] has only
    [Some] items. *)
Fixpoint utf8_scan (bs : list Z) : list (option Z * nat) :=
  match bs with
  | [] => []
  | b0 :: r0 =>
    let bad (_ : unit) := (None, 1%nat) :: utf8_scan r0 in
    if b0 <? 128 then (Some b0, 1%nat) :: utf8_scan r0
    else if between 194 223 b0 then
      match r0 with
      | b1 :: r1 =>
        if is_cont b1
        then (Some ((b0 - 192) * 64 + (b1 - 128)), 2%nat) :: utf8_scan r1
        else bad tt
      | [] => bad tt
      end
    else if between 224 239 b0 then
      match r0 with
      | b1 :: b2 :: r2 =>
        if (if b0 =? 224 then between 160 191 b1
            else if b0 =? 237 then between 128 159 b1 else is_cont b1) && is_cont b2
        then (Some ((b0 - 224) * 4096 + (b1 - 128) * 64 + (b2 - 128)), 3%nat) :: utf8_scan r2
        else bad tt
      | _ => bad tt
      end
    else if between 240 244 b0 then
      match r0 with
      | b1 :: b2 :: b3 :: r3 =>
        if (if b0 =? 240 then between 144 191 b1
            else if b0 =? 244 then between 128 143 b1 else is_cont b1)
           && is_cont b2 && is_cont b3
        then (Some ((b0 - 240) * 262144 + (b1 - 128) * 4096 + (b2 - 128) * 64 + (b3 - 128)), 4%nat)
             :: utf8_scan r3
        else bad tt
      | _ => bad tt
      end
    else bad tt
  end.

(** [std::str::from_utf8(bs).is_ok()]. *)
Definition utf8_valid (bs : list Z) : bool :=
  forallb (λ it : option Z * nat, match it.1 with Some _ => true | None => false end) (utf8_scan bs).

(** [str::chars]; the replacement character stands for a byte of no scalar. *)
Definition chars (s : string) : list Z :=
  map (λ it : option Z * nat, default 65533 it.1) (utf8_scan (bytes s)).

(** [char::is_control]: the Unicode category Cc. *)
Definition is_control (c : Z) : bool := between 0 31 c || between 127 159 c.

(** [char::is_whitespace]: the Unicode property White_Space. *)
Definition is_whitespace (c : Z) : bool :=
  between 9 13 c || (c =? 32) || (c =? 133) || (c =? 160) || (c =? 5760)
  || between 8192 8202 c || (c =? 8232) || (c =? 8233) || (c =? 8239) || (c =? 8287)
  || (c =? 12288).

(** A scalar value: a code point that is not a surrogate. *)
Definition is_scalar (c : Z) : bool := between 0 55295 c || between 57344 1114111 c.

(** [char::encode_utf8]. *)
Definition utf8_encode (c : Z) : list Z :=
  if c <? 128 then [c]
  else if c <? 2048 then [192 + c / 64; 128 + c mod 64]
  else if c <? 65536 then [224 + c / 4096; 128 + (c / 64) mod 64; 128 + c mod 64]
  else [240 + c / 262144; 128 + (c / 4096) mod 64; 128 + (c / 64) mod 64; 128 + c mod 64].

(** ** Searching and splitting *)

Fixpoint strip_prefix (p s : string) : option string :=
  match p, s with
  | EmptyString, _ => Some s
  | String a p', String b s' => if Ascii.eqb a b then strip_prefix p' s' else None
  | String _ _, EmptyString => None
  end.

Definition starts_with (p s : string) : bool :=
  match strip_prefix p s with Some _ => true | None => false end.

Fixpoint str_drop (n : nat) (s : string) : string :=
  match n, s with
  | O, _ => s
  | S n', String _ s' => str_drop n' s'
  | S _, EmptyString => EmptyString
  end.

Definition ends_with (p s : string) : bool :=
  (String.length p <=? String.length s)%nat
  && bool_decide (str_drop (String.length s - String.length p) s = p).

(** [s.split_once(p)]: the text before and after the first occurrence. *)
Fixpoint split_once (p s : string) : option (string * string) :=
  match strip_prefix p s with
  | Some rest => Some (EmptyString, rest)
  | None =>
    match s with
    | EmptyString => None
    | String c s' =>
      match split_once p s' with
      | Some (before, after) => Some (String c before, after)
      | None => None
      end
    end
  end.

Definition str_contains (p s : string) : bool :=
  match split_once p s with Some _ => true | None => false end.

(** [s.split(c)] for a [char] separator: never empty. *)
Fixpoint split_char (c : ascii) (s : string) : list string :=
  match s with
  | EmptyString => [EmptyString]
  | String a s' =>
    if Ascii.eqb a c then EmptyString :: split_char c s'
    else
      match split_char c s' with
      | h :: t => String a h :: t
      | [] => [String a EmptyString]
      end
  end.

(** [str]'s [Ord]: lexicographic on bytes. *)
Fixpoint bytes_compare (s t : list Z) : comparison :=
  match s, t with
  | [], [] => Eq
  | [], _ :: _ => Lt
  | _ :: _, [] => Gt
  | a :: s', b :: t' =>
    match a ?= b with
    | Eq => bytes_compare s' t'
    | c => c
    end
  end.

Definition str_compare (s t : string) : comparison := bytes_compare (bytes s) (bytes t).
Definition str_ltb (s t : string) : bool :=
  match str_compare s t with Lt => true | _ => false end.
Definition str_geb (s t : string) : bool := negb (str_ltb s t).

(** ** Decimal text *)

(** The value of a run of ASCII digits. *)
Definition digits_value (ds : list Z) : Z :=
  fold_left (λ v d, v * 10 + (d - 48)) ds 0.

(** [bytes.parse::<T>()] for an unsigned type of maximum [max], on a non-empty
    run of ASCII digits. *)
Definition parse_unsigned (max : Z) (ds : list Z) : option Z :=
  let v := digits_value ds in if v <=? max then Some v else None.

(** [format!("{n}")] for [0 <= n]: the fuel bounds the number of digits. *)
Fixpoint decimal_aux (fuel : nat) (n : Z) (acc : list Z) : list Z :=
  match fuel with
  | O => acc
  | S fuel' =>
    let acc' := (48 + n mod 10) :: acc in
    if n / 10 =? 0 then acc' else decimal_aux fuel' (n / 10) acc'
  end.

Definition decimal_bytes (n : Z) : list Z := decimal_aux (S (Z.to_nat (Z.log2 n))) n [].

(** [format!("{n:0w$}")] for [0 <= n]. *)
Definition decimal_padded (w : nat) (n : Z) : list Z :=
  let ds := decimal_bytes n in replicate (w - length ds) 48 ++ ds.

Definition bytes_eqb (s t : list Z) : bool := bool_decide (s = t).

(** ** Lemmas: bytes and strings *)

Lemma byte_of_range c : 0 <= byte_of c <= 255.
Proof.
  unfold byte_of. pose proof (N_ascii_bounded c). lia.
Qed.

Lemma ascii_of_byte_of c : ascii_of_byte (byte_of c) = c.
Proof. unfold ascii_of_byte, byte_of. rewrite N2Z.id. apply ascii_N_embedding. Qed.

Lemma byte_of_ascii_of b : is_byte b = true → byte_of (ascii_of_byte b) = b.
Proof.
  intros H%in_unsigned_spec. unfold u8_max in H. unfold ascii_of_byte, byte_of.
  rewrite N_ascii_embedding; lia.
Qed.

Lemma length_bytes s : length (bytes s) = String.length s.
Proof. induction s; simpl; auto. Qed.

Lemma bytes_are_bytes s : Forall (λ b, is_byte b = true) (bytes s).
Proof.
  induction s as [|c s IH]; simpl; constructor; [|done].
  apply in_unsigned_spec. apply byte_of_range.
Qed.

Lemma string_of_bytes_bytes s : string_of_bytes (bytes s) = s.
Proof. induction s; simpl; [done|]. by rewrite ascii_of_byte_of, IHs. Qed.

Lemma bytes_string_of_bytes bs :
  Forall (λ b, is_byte b = true) bs → bytes (string_of_bytes bs) = bs.
Proof. induction 1; simpl; [done|]. by rewrite byte_of_ascii_of, IHForall. Qed.

#[export] Instance bytes_inj : Inj (=) (=) bytes.
Proof. intros s t H. by rewrite <- (string_of_bytes_bytes s), H, string_of_bytes_bytes. Qed.

Lemma bytes_app s t : bytes (s ++ t)%string = (bytes s ++ bytes t)%list.
Proof. induction s; simpl; [done|]. by f_equal. Qed.

Lemma bytes_eq_iff s t : bytes s = bytes t ↔ s = t.
Proof. split; [apply (inj bytes)|congruence]. Qed.

Lemma strip_prefix_Some p s r : strip_prefix p s = Some r ↔ s = (p ++ r)%string.
Proof.
  revert s. induction p as [|a p IH]; intros s; simpl.
  { split; [by intros [= <-]|by intros ->]. }
  change (String a p ++ r)%string with (String a (p ++ r)).
  destruct s as [|b s]; [done|].
  destruct (Ascii.eqb_spec a b) as [->|]; [rewrite IH|];
    split; [by intros ->|by intros [= ->]|done|by intros [= ->]].
Qed.

Lemma split_once_Some p s b a : split_once p s = Some (b, a) → s = (b ++ p ++ a)%string.
Proof.
  revert b a. induction s as [|c s IH]; intros b a; simpl.
  - case_match eqn:E; [|done]. intros [= <- <-]. by apply strip_prefix_Some in E.
  - case_match eqn:E.
    + intros [= <- <-]. by apply strip_prefix_Some in E.
    + destruct (split_once p s) as [[b' a']|]; [|done]. intros [= <- <-].
      change (String c b' ++ p ++ a')%string with (String c (b' ++ p ++ a')).
      f_equal. by apply IH.
Qed.

Lemma split_char_nonempty c s : split_char c s ≠ [].
Proof. destruct s as [|a s]; simpl; [done|]. destruct (Ascii.eqb a c); [done|]. by case_match. Qed.

(** [s.split(c)] and joining with [c] are inverse. *)
Fixpoint join_char (c : ascii) (l : list string) : string :=
  match l with
  | [] => EmptyString
  | [x] => x
  | x :: l' => (x ++ String c (join_char c l'))%string
  end.

Lemma join_split_char c s : join_char c (split_char c s) = s.
Proof.
  induction s as [|a s IH]; simpl; [done|].
  pose proof (split_char_nonempty c s) as Hne.
  destruct (Ascii.eqb_spec a c) as [Hac|Hac].
  - subst a. destruct (split_char c s) eqn:E; [done|]. simpl in *. by rewrite IH.
  - destruct (split_char c s) as [|h [|h' t]] eqn:E; [done| |]; rewrite <- IH; reflexivity.
Qed.

Fixpoint str_mem (c : ascii) (s : string) : bool :=
  match s with
  | EmptyString => false
  | String a s' => Ascii.eqb a c || str_mem c s'
  end.

Lemma split_char_no_sep c s x : x ∈ split_char c s → str_mem c x = false.
Proof.
  revert x. induction s as [|a s IH]; simpl; intros x Hx.
  - apply list_elem_of_singleton in Hx. by subst.
  - destruct (Ascii.eqb_spec a c) as [Hac|Hac].
    + apply elem_of_cons in Hx as [->|Hx]; [done|]. by apply IH.
    + destruct (split_char c s) as [|h t] eqn:E.
      * apply list_elem_of_singleton in Hx as ->. simpl. by rewrite (proj2 (Ascii.eqb_neq _ _) Hac).
      * apply elem_of_cons in Hx as [->|Hx].
        -- simpl. rewrite (proj2 (Ascii.eqb_neq _ _) Hac). apply IH. by left.
        -- apply IH. by right.
Qed.

(** ** Lemmas: order *)

Lemma bytes_compare_eq s t : bytes_compare s t = Eq ↔ s = t.
Proof.
  revert t. induction s as [|a s IH]; intros [|b t]; simpl; try naive_solver.
  destruct (Z.compare_spec a b); rewrite ?IH; naive_solver lia.
Qed.

Lemma bytes_compare_antisym s t : bytes_compare t s = CompOpp (bytes_compare s t).
Proof.
  revert t. induction s as [|a s IH]; intros [|b t]; simpl; try done.
  rewrite (Z.compare_antisym a b). destruct (a ?= b); simpl; auto.
Qed.

Lemma bytes_compare_lt_trans s t u :
  bytes_compare s t = Lt → bytes_compare t u = Lt → bytes_compare s u = Lt.
Proof.
  revert t u. induction s as [|a s IH]; intros [|b t] [|c u]; simpl; try done.
  destruct (Z.compare_spec a b), (Z.compare_spec b c); try done; subst;
    repeat match goal with |- context [?x ?= ?y] => destruct (Z.compare_spec x y) end;
    try lia; try done. by apply IH.
Qed.

#[export] Instance str_ltb_trans : Transitive (λ s t, str_ltb s t = true).
Proof.
  intros s t u. unfold str_ltb, str_compare.
  destruct (bytes_compare (bytes s) (bytes t)) eqn:E1; try done.
  destruct (bytes_compare (bytes t) (bytes u)) eqn:E2; try done.
  by rewrite (bytes_compare_lt_trans _ _ _ E1 E2).
Qed.

Lemma str_ltb_irrefl s : str_ltb s s = false.
Proof.
  unfold str_ltb, str_compare. by rewrite (proj2 (bytes_compare_eq _ _) eq_refl).
Qed.

Lemma str_compare_Lt s t : str_compare s t = Lt ↔ str_ltb s t = true.
Proof. unfold str_ltb. destruct (str_compare s t); naive_solver. Qed.

Lemma str_compare_Gt s t : str_compare s t = Gt ↔ str_ltb t s = true.
Proof.
  rewrite <- str_compare_Lt. unfold str_compare. rewrite (bytes_compare_antisym (bytes t) (bytes s)).
  destruct (bytes_compare (bytes t) (bytes s)); naive_solver.
Qed.

Lemma str_compare_Eq s t : str_compare s t = Eq ↔ s = t.
Proof. unfold str_compare. by rewrite bytes_compare_eq, bytes_eq_iff. Qed.

(** The check [windows(2).any(|p| p[0] >= p[1])] the validators use. *)
Definition unsorted (l : list string) : bool := windows2_any str_geb l.

Lemma unsorted_false l :
  unsorted l = false → StronglySorted (λ s t, str_ltb s t = true) l ∧ NoDup l.
Proof.
  intros H. assert (StronglySorted (λ s t, str_ltb s t = true) l) as Hs.
  { apply Sorted_StronglySorted; [exact str_ltb_trans|].
    unfold unsorted in H. induction l as [|x [|y l] IH]; [constructor|by repeat constructor|].
    simpl in H. apply orb_false_iff in H as [Hxy Hl].
    constructor; [by apply IH|]. constructor. unfold str_geb in Hxy.
    by apply negb_false_iff in Hxy. }
  split; [done|]. clear H. induction Hs as [|x l Hl IH Hx]; [constructor|].
  constructor; [|done]. intros Hin. rewrite Forall_forall in Hx.
  specialize (Hx x Hin). simpl in Hx. by rewrite str_ltb_irrefl in Hx.
Qed.

(** ** Lemmas: decimal text *)

Lemma digits_value_snoc ds d : digits_value (ds ++ [d])%list = digits_value ds * 10 + (d - 48).
Proof. unfold digits_value. by rewrite fold_left_app. Qed.

Lemma digits_value_fold ds v :
  fold_left (λ v d, v * 10 + (d - 48)) ds v = v * 10 ^ Z.of_nat (length ds) + digits_value ds.
Proof.
  revert v. induction ds as [|d ds IH] using rev_ind; intros v; [cbn; lia|].
  rewrite fold_left_app, digits_value_snoc, length_app. simpl.
  rewrite IH, Nat2Z.inj_add, Z.pow_add_r by lia. simpl. lia.
Qed.

Lemma decimal_aux_value fuel n acc :
  0 <= n < 2 ^ Z.of_nat fuel →
  digits_value (decimal_aux fuel n acc)
  = n * 10 ^ Z.of_nat (length acc) + digits_value acc.
Proof.
  revert n acc. induction fuel as [|fuel IH]; intros n acc Hn.
  { assert (n = 0) as -> by lia. simpl. lia. }
  assert (0 <= n / 10 < 2 ^ Z.of_nat fuel) as Hq.
  { rewrite Nat2Z.inj_succ, Z.pow_succ_r in Hn by lia.
    split; [apply Z.div_pos; lia|]. apply Z.div_lt_upper_bound; lia. }
  assert (digits_value ((48 + n mod 10) :: acc)
          = (n mod 10) * 10 ^ Z.of_nat (length acc) + digits_value acc) as Hd.
  { unfold digits_value at 1. simpl fold_left. rewrite digits_value_fold. lia. }
  cbn [decimal_aux].
  pose proof (Z.div_mod n 10). destruct (Z.eqb_spec (n / 10) 0) as [E|E].
  - rewrite Hd. assert (n mod 10 = n) by lia. lia.
  - rewrite IH, Hd by done. cbn [length].
    rewrite Nat2Z.inj_succ, Z.pow_succ_r by lia. nia.
Qed.

(** A decimal digit run: every byte is an ASCII digit. *)
Definition all_digits (ds : list Z) : bool := forallb is_ascii_digit ds.

Lemma digits_value_bound ds :
  all_digits ds = true → 0 <= digits_value ds < 10 ^ Z.of_nat (length ds).
Proof.
  induction ds as [|d ds IH] using rev_ind; intros H; [done|].
  unfold all_digits in H. rewrite forallb_app in H. simpl in H. boolify.
  unfold is_ascii_digit, between in *. boolify.
  rewrite digits_value_snoc, length_app, Nat2Z.inj_add, Z.pow_add_r by lia.
  simpl. specialize (IH ltac:(done)). lia.
Qed.

Lemma decimal_aux_digits fuel n acc :
  all_digits acc = true → all_digits (decimal_aux fuel n acc) = true.
Proof.
  revert n acc. induction fuel as [|fuel IH]; intros n acc Hacc; [done|]. cbn [decimal_aux].
  assert (all_digits ((48 + n mod 10) :: acc) = true).
  { simpl. rewrite Hacc, andb_true_r. unfold is_ascii_digit, between.
    pose proof (Z.mod_pos_bound n 10). rewrite andb_true_iff, !Z.leb_le. lia. }
  case_match; [done|]. by apply IH.
Qed.

(** The first digit of the printed number is zero only for zero itself. *)
Lemma decimal_aux_head fuel n acc :
  0 <= n < 2 ^ Z.of_nat fuel → (0 < fuel)%nat →
  ∃ d ds, decimal_aux fuel n acc = d :: ds ∧ (d = 48 → n = 0 ∧ ds = acc).
Proof.
  revert n acc. induction fuel as [|fuel IH]; intros n acc Hn Hf; [lia|]. cbn [decimal_aux].
  pose proof (Z.div_mod n 10). destruct (Z.eqb_spec (n / 10) 0) as [E|E].
  - eexists _, _. split; [done|]. intros. split; [lia|done].
  - assert (0 <= n / 10 < 2 ^ Z.of_nat fuel) as Hq.
    { rewrite Nat2Z.inj_succ, Z.pow_succ_r in Hn by lia.
      split; [apply Z.div_pos; lia|]. apply Z.div_lt_upper_bound; lia. }
    destruct fuel as [|fuel]; [simpl in Hq; lia|].
    destruct (IH (n / 10) ((48 + n mod 10) :: acc) Hq ltac:(lia)) as (d & ds & -> & Hz).
    eexists _, _. split; [done|]. intros Hd. destruct (Hz Hd). lia.
Qed.

Lemma decimal_fuel n : 0 <= n → 0 <= n < 2 ^ Z.of_nat (S (Z.to_nat (Z.log2 n))).
Proof.
  intros Hn. split; [done|]. destruct (decide (n = 0)) as [->|]; [done|].
  pose proof (Z.log2_spec n ltac:(lia)). pose proof (Z.log2_nonneg n).
  rewrite Nat2Z.inj_succ, Z2Nat.id by lia. lia.
Qed.

(** Printing then reading a natural number gives it back. *)
Lemma digits_value_decimal n : 0 <= n → digits_value (decimal_bytes n) = n.
Proof.
  intros Hn. unfold decimal_bytes.
  rewrite decimal_aux_value by (by apply decimal_fuel). simpl. unfold digits_value. simpl. lia.
Qed.

Lemma decimal_bytes_digits n : all_digits (decimal_bytes n) = true.
Proof. by apply decimal_aux_digits. Qed.

Lemma decimal_bytes_head n :
  0 <= n → ∃ d ds, decimal_bytes n = d :: ds ∧ (d = 48 → n = 0 ∧ ds = []).
Proof. intros Hn. apply decimal_aux_head; [by apply decimal_fuel|lia]. Qed.

Lemma parse_decimal_bytes max n :
  0 <= n <= max → parse_unsigned max (decimal_bytes n) = Some n.
Proof.
  intros Hn. unfold parse_unsigned. rewrite digits_value_decimal by lia.
  rewrite (proj2 (Z.leb_le n max)) by lia. done.
Qed.

Lemma digits_value_zeros k ds : digits_value (replicate k 48 ++ ds)%list = digits_value ds.
Proof.
  induction k as [|k IH]; [done|]. rewrite <- IH. unfold digits_value. simpl. done.
Qed.

Lemma digits_value_padded w n : 0 <= n → digits_value (decimal_padded w n) = n.
Proof. intros. unfold decimal_padded. by rewrite digits_value_zeros, digits_value_decimal. Qed.

Lemma decimal_padded_digits w n : all_digits (decimal_padded w n) = true.
Proof.
  unfold decimal_padded, all_digits. rewrite forallb_app. apply andb_true_iff. split.
  - induction (w - length (decimal_bytes n))%nat; simpl; [done|]. by rewrite IHn0.
  - apply decimal_bytes_digits.
Qed.

Lemma decimal_aux_length fuel n acc w :
  0 <= n < 10 ^ Z.of_nat w → (0 < w)%nat →
  (length (decimal_aux fuel n acc) <= w + length acc)%nat.
Proof.
  revert n acc w. induction fuel as [|fuel IH]; intros n acc w Hn Hw; cbn [decimal_aux]; [lia|].
  destruct (Z.eqb_spec (n / 10) 0) as [E|E]; [simpl; lia|].
  destruct w as [|[|w]]; [lia| |].
  - simpl in Hn. rewrite Z.div_small in E; lia.
  - etrans; [apply (IH _ _ (S w)); [|lia]|simpl; lia].
    rewrite Nat2Z.inj_succ, Z.pow_succ_r in Hn by lia.
    split; [apply Z.div_pos; lia|apply Z.div_lt_upper_bound; lia].
Qed.

(** A number of at most [w] digits is printed with exactly [w] characters. *)
Lemma decimal_padded_length w n :
  0 <= n < 10 ^ Z.of_nat w → (0 < w)%nat → length (decimal_padded w n) = w.
Proof.
  intros Hn Hw. unfold decimal_padded. rewrite length_app, length_replicate.
  pose proof (decimal_aux_length (S (Z.to_nat (Z.log2 n))) n [] w Hn Hw) as H.
  unfold decimal_bytes. simpl length in H at 2. lia.
Qed.

(** ** Lemmas: UTF-8 *)

Lemma between_spec lo hi b : between lo hi b = true ↔ lo <= b <= hi.
Proof. unfold between. by rewrite andb_true_iff, !Z.leb_le. Qed.

Lemma between_false lo hi b : b < lo ∨ hi < b → between lo hi b = false.
Proof. intros H. apply not_true_is_false. rewrite between_spec. lia. Qed.

Lemma utf8_scan_2 b0 b1 r :
  between 194 223 b0 = true → is_cont b1 = true →
  utf8_scan (b0 :: b1 :: r) = (Some ((b0 - 192) * 64 + (b1 - 128)), 2%nat) :: utf8_scan r.
Proof.
  intros H0 H1. cbn [utf8_scan]. rewrite H0, H1. apply between_spec in H0.
  by rewrite (proj2 (Z.ltb_ge b0 128)) by lia.
Qed.

Lemma utf8_scan_3 b0 b1 b2 r :
  between 224 239 b0 = true →
  (if b0 =? 224 then between 160 191 b1
   else if b0 =? 237 then between 128 159 b1 else is_cont b1) = true →
  is_cont b2 = true →
  utf8_scan (b0 :: b1 :: b2 :: r)
  = (Some ((b0 - 224) * 4096 + (b1 - 128) * 64 + (b2 - 128)), 3%nat) :: utf8_scan r.
Proof.
  intros H0 H1 H2. cbn [utf8_scan]. rewrite H0, H1, H2. apply between_spec in H0.
  rewrite (between_false 194 223 b0) by lia.
  by rewrite (proj2 (Z.ltb_ge b0 128)) by lia.
Qed.

Lemma utf8_scan_4 b0 b1 b2 b3 r :
  between 240 244 b0 = true →
  (if b0 =? 240 then between 144 191 b1
   else if b0 =? 244 then between 128 143 b1 else is_cont b1) = true →
  is_cont b2 = true → is_cont b3 = true →
  utf8_scan (b0 :: b1 :: b2 :: b3 :: r)
  = (Some ((b0 - 240) * 262144 + (b1 - 128) * 4096 + (b2 - 128) * 64 + (b3 - 128)), 4%nat)
    :: utf8_scan r.
Proof.
  intros H0 H1 H2 H3. cbn [utf8_scan]. rewrite H0, H1, H2, H3. apply between_spec in H0.
  rewrite (between_false 194 223 b0), (between_false 224 239 b0) by lia.
  by rewrite (proj2 (Z.ltb_ge b0 128)) by lia.
Qed.

(** Scanning the encoding of a scalar value gives that value and its width. *)
Lemma utf8_scan_encode c rest :
  is_scalar c = true →
  utf8_scan (utf8_encode c ++ rest)%list
  = (Some c, length (utf8_encode c)) :: utf8_scan rest.
Proof.
  intros Hs. unfold is_scalar, between in Hs.
  apply orb_true_iff in Hs. rewrite !andb_true_iff, !Z.leb_le in Hs.
  unfold utf8_encode.
  pose proof (Z.mod_pos_bound c 64 ltac:(lia)) as B0.
  pose proof (Z.mod_pos_bound (c / 64) 64 ltac:(lia)) as B1.
  pose proof (Z.mod_pos_bound (c / 4096) 64 ltac:(lia)) as B2.
  pose proof (Z.div_mod c 64 ltac:(lia)) as D0.
  pose proof (Z.div_mod (c / 64) 64 ltac:(lia)) as D1.
  pose proof (Z.div_mod (c / 4096) 64 ltac:(lia)) as D2.
  rewrite Z.div_div in D1, D2 by lia. change (64 * 64) with 4096 in D1.
  change (4096 * 64) with 262144 in D2.
  generalize dependent (c mod 64). generalize dependent ((c / 64) mod 64).
  generalize dependent ((c / 4096) mod 64). generalize (c / 262144).
  generalize (c / 4096). generalize (c / 64). intros y1 y2 y3 x2 B2 D2 x1 B1 D1 x0 B0 D0.
  destruct (Z.ltb_spec c 128); [simpl; by rewrite (proj2 (Z.ltb_lt c 128))|].
  unfold is_cont in *.
  destruct (Z.ltb_spec c 2048); [|destruct (Z.ltb_spec c 65536)]; cbn [app length].
  - rewrite utf8_scan_2 by (apply between_spec; lia). repeat f_equal; lia.
  - rewrite utf8_scan_3.
    + repeat f_equal; lia.
    + apply between_spec; lia.
    + repeat case_match; boolify; apply between_spec; lia.
    + apply between_spec; lia.
  - rewrite utf8_scan_4.
    + repeat f_equal; lia.
    + apply between_spec; lia.
    + repeat case_match; boolify; apply between_spec; lia.
    + apply between_spec; lia.
    + apply between_spec; lia.
Qed.

(** A sequence of encoded scalar values is valid UTF-8 and decodes to itself. *)
Lemma utf8_roundtrip cs :
  Forall (λ c, is_scalar c = true) cs →
  map fst (utf8_scan (concat (map utf8_encode cs))) = map Some cs
  ∧ utf8_valid (concat (map utf8_encode cs)) = true.
Proof.
  induction 1 as [|c cs Hc _ [IH1 IH2]]; [done|]. simpl concat.
  unfold utf8_valid in *. rewrite utf8_scan_encode by done. simpl. by rewrite IH1, IH2.
Qed.

(** ** Canonical decimal text *)

(** [digits.len() > 1 && digits[0] == b'0'] *)
Definition leading_zero (digits : list Z) : bool :=
  match digits with 48 :: _ :: _ => true | _ => false end.

(** The canonical decimal forms: digits, no leading zero. *)
Definition canonical_digits (ds : list Z) : Prop :=
  ds ≠ [] ∧ leading_zero ds = false ∧ forallb is_ascii_digit ds = true.

Lemma decimal_canonical n : 0 <= n → canonical_digits (decimal_bytes n).
Proof.
  intros Hn. destruct (decimal_bytes_head n Hn) as (d & ds & Hd & Hz).
  pose proof (decimal_bytes_digits n) as Hall. rewrite Hd in *. split_and!; [done| |done].
  unfold leading_zero. destruct (Z.eq_dec d 48) as [->|Hne]; [by destruct (Hz eq_refl) as [_ ->]|].
  destruct d as [|p|p]; try done. do 7 (destruct p as [p|p|]; try done).
Qed.

Lemma canonical_prefix ds d :
  canonical_digits (ds ++ [d]) → ds ≠ [] → canonical_digits ds ∧ 0 < digits_value ds.
Proof.
  intros (_ & Hz & Hall) Hne. rewrite forallb_app in Hall. apply andb_true_iff in Hall as [Hall _].
  destruct ds as [|x ds]; [done|].
  assert (x ≠ 48) as Hx.
  { intros ->. by destruct ds. }
  split.
  - split_and!; try done. unfold leading_zero. destruct x as [|p|p]; try done.
    do 7 (destruct p as [p|p|]; try done).
  - simpl in Hall. apply andb_true_iff in Hall as [Hd Hall].
    unfold is_ascii_digit in Hd. apply between_spec in Hd.
    pose proof (digits_value_bound ds Hall) as Hb.
    unfold digits_value at 1. cbn [fold_left]. rewrite digits_value_fold.
    pose proof (Z.pow_pos_nonneg 10 (Z.of_nat (length ds))). nia.
Qed.

Lemma canonical_unique ds es :
  canonical_digits ds → canonical_digits es → digits_value ds = digits_value es → ds = es.
Proof.
  assert (∀ ds d, canonical_digits (ds ++ [d]) → 48 <= d <= 57) as Hdig.
  { intros xs d (_ & _ & Hall). rewrite forallb_app in Hall.
    apply andb_true_iff in Hall as [_ Hd]. simpl in Hd. rewrite andb_true_r in Hd.
    by apply between_spec in Hd. }
  assert (∀ xs, canonical_digits xs → ∃ ys y, xs = (ys ++ [y])%list) as Hsnoc.
  { intros xs (Hne & _). destruct (exists_last Hne) as (ys & y & ->). eauto. }
  revert es. induction ds as [|d ds IH] using rev_ind; intros es Hds Hes Hv.
  { by destruct Hds as [? _]. }
  destruct (Hsnoc es Hes) as (es' & e & ->).
  rewrite !digits_value_snoc in Hv. pose proof (Hdig _ _ Hds). pose proof (Hdig _ _ Hes).
  assert (d = e) as -> by lia. f_equal.
  destruct ds as [|x ds], es' as [|y es']; [done| | |].
  - destruct (canonical_prefix _ _ Hes) as [_ ?]; [done|]. unfold digits_value in *. simpl in *. lia.
  - destruct (canonical_prefix _ _ Hds) as [_ ?]; [done|]. unfold digits_value in *. simpl in *. lia.
  - apply IH; [by eapply canonical_prefix|by eapply canonical_prefix|lia].
Qed.
