(* ===== verification/JoshMessage.v ===== *)
(** * JOSH wire messages ([crates/josh-protocol/src/message.rs], [strict_json.rs])

    The envelope of the protocol: [WireMessage] with its four kinds, the wire
    errors, the scalar validators, the strict JSON visitor that rejects duplicate
    object keys, and [decode_message].  The JSON tokenizer and serde's generated
    deserializers are not part of the repository: they are the fields of the
    class [SerdeJson]. *)

From S2P Require Import Prelude Text.
Open Scope string_scope.
Open Scope Z_scope.

(** ** [BTreeMap<String, _>]: association lists in key order *)

Fixpoint btree_get {V} (k : string) (m : list (string * V)) : option V :=
  match m with
  | [] => None
  | (k', v) :: m' => if String.eqb k k' then Some v else btree_get k m'
  end.

Definition btree_contains {V} (k : string) (m : list (string * V)) : bool :=
  match btree_get k m with Some _ => true | None => false end.

Fixpoint btree_insert {V} (k : string) (v : V) (m : list (string * V)) : list (string * V) :=
  match m with
  | [] => [(k, v)]
  | (k', v') :: m' =>
    match str_compare k k' with
    | Lt => (k, v) :: (k', v') :: m'
    | Eq => (k, v) :: m'
    | Gt => (k', v') :: btree_insert k v m'
    end
  end.

(** ** JSON values *)

(** [serde_json::Number]: an unsigned, a negative or a floating-point number. *)
Inductive JsonNumber :=
| NPosInt (n : Z)
| NNegInt (n : Z)
| NFloat (bits : Z).

(** [serde_json::Value]. *)
Inductive Json :=
| JNull
| JBool (b : bool)
| JNumber (n : JsonNumber)
| JString (s : string)
| JArray (l : list Json)
| JObject (m : list (string * Json)).

Definition as_str (v : Json) : option string :=
  match v with JString s => Some s | _ => None end.
Definition as_u64 (v : Json) : option Z :=
  match v with JNumber (NPosInt n) => Some n | _ => None end.
Definition as_object (v : Json) : option (list (string * Json)) :=
  match v with JObject m => Some m | _ => None end.
Definition is_object (v : Json) : bool :=
  match v with JObject _ => true | _ => false end.

(** ** Errors *)

Inductive ProtocolError :=
| Io (text : string)
| UnexpectedEof
| HeaderLineTooLong
| InvalidHeader
| InvalidLength
| FrameTooLarge
| InvalidUtf8
| InvalidJson (text : string)
| InvalidMessage (text : string).

Definition invalid (message : string) : ProtocolError := InvalidMessage message.

Inductive WireErrorCode :=
| RequestInvalid | RequestMethodNotFound | RequestInvalidState | RequestLimit
| RequestCancelled | ProjectionInvalid | ProjectionMismatch | CatalogInvalid
| CatalogMismatch | ProgramInvalid | ProgramUnsatisfied | ExecutionDuplicate
| ExecutionFailed | ToolDenied | ToolUnavailable | AgentDenied | AgentUnavailable
| ModelDenied | ModelUnavailable | UserDenied | UserUnavailable | SubAgentDenied
| SubAgentUnavailable | ReplayDiverged | PermissionUnavailable | ProtocolViolation.

#[export] Instance WireErrorCode_eq_dec : EqDecision WireErrorCode.
Proof. solve_decision. Defined.

Record WireError := {
  we_code : WireErrorCode;
  we_message : string;
  we_data : option Json
}.

Definition WireError_validate (e : WireError) : result ProtocolError unit :=
  if 1024 <? str_len (we_message e)
  then Err (invalid "wire error message exceeds 1,024 UTF-8 bytes")
  else Ok tt.

(** ** Messages *)

Inductive WireMessage :=
| Request (id method : string) (params : Json)
| Response (id : string) (res : option Json) (error : option WireError)
| Notification (method : string) (params : Json)
| Cancel (id : string) (reason : option string).

Definition validate_id (id : string) : result ProtocolError unit :=
  if negb (between 1 64 (str_len id)) || negb (forallb is_ascii_graphic (bytes id))
  then Err (invalid "ID must be 1 through 64 non-whitespace printable ASCII bytes")
  else Ok tt.

Definition method_byte (b : Z) : bool :=
  is_ascii_lowercase b || is_ascii_digit b || (b =? 95) || (b =? 47).

Definition validate_method (method : string) : result ProtocolError unit :=
  if negb (between 1 64 (str_len method))
     || starts_with "/" method
     || ends_with "/" method
     || existsb str_is_empty (split_char "/" method)
     || negb (forallb method_byte (bytes method))
  then Err (invalid "method is not canonical lower-case ASCII")
  else Ok tt.

Definition validate_reason (reason : string) : result ProtocolError unit :=
  if 1024 <? str_len reason
  then Err (invalid "reason exceeds 1,024 UTF-8 bytes")
  else Ok tt.

Definition WireMessage_validate (m : WireMessage) : result ProtocolError unit :=
  match m with
  | Request id method _ => try? validate_id id in validate_method method
  | Response id res error =>
    try? validate_id id in
    if Bool.eqb (bool_decide (is_Some res)) (bool_decide (is_Some error))
    then Err (invalid "response must contain exactly one of result or error")
    else match error with Some e => WireError_validate e | None => Ok tt end
  | Notification method _ => validate_method method
  | Cancel id reason =>
    try? validate_id id in
    match reason with Some r => validate_reason r | None => Ok tt end
  end.

Definition message_id (m : WireMessage) : option string :=
  match m with
  | Request id _ _ | Response id _ _ | Cancel id _ => Some id
  | Notification _ _ => None
  end.

Definition WIRE_PROTOCOL : string := "josh/1".

Definition check_protocol (protocol : string) : result ProtocolError unit :=
  if String.eqb protocol WIRE_PROTOCOL then Ok tt
  else Err (invalid "protocol must be josh/1").

(** ** The strict JSON visitor

    [RawJson] is the token structure the JSON tokenizer feeds to the visitor: an
    object is its key-value pairs in source order, repeated keys included. *)
Inductive RawJson :=
| RNull
| RBool (b : bool)
| RNumber (n : JsonNumber)
| RNonFinite
| RString (s : string)
| RSeq (l : list RawJson)
| RMap (m : list (string * RawJson)).

(** [ValueVisitor]: [visit_f64] refuses a non-finite number, [visit_map] refuses
    a repeated key before it reads the value. *)
Fixpoint visit (r : RawJson) : result string Json :=
  match r with
  | RNull => Ok JNull
  | RBool b => Ok (JBool b)
  | RNumber n => Ok (JNumber n)
  | RNonFinite => Err "non-finite JSON number"
  | RString s => Ok (JString s)
  | RSeq l =>
    let fix visit_seq (l : list RawJson) : result string (list Json) :=
      match l with
      | [] => Ok []
      | x :: l' => let? v := visit x in let? vs := visit_seq l' in Ok (v :: vs)
      end in
    let? vs := visit_seq l in Ok (JArray vs)
  | RMap m =>
    let fix visit_map (values : list (string * Json)) (m : list (string * RawJson))
        : result string (list (string * Json)) :=
      match m with
      | [] => Ok values
      | (k, x) :: m' =>
        if btree_contains k values
        then Err ("duplicate JSON key '" ++ k ++ "'")%string
        else let? v := visit x in visit_map (btree_insert k v values) m'
      end in
    let? values := visit_map [] m in Ok (JObject values)
  end.

(** ** Decoding *)

Record RequestEnvelope := {
  req_protocol : string; req_id : string; req_method : string; req_params : Json }.
Record ResultEnvelope := {
  res_protocol : string; res_id : string; res_result : Json }.
Record ErrorEnvelope := {
  err_protocol : string; err_id : string; err_error : WireError }.
Record NotificationEnvelope := {
  not_protocol : string; not_method : string; not_params : Json }.
Record CancelEnvelope := {
  can_protocol : string; can_id : string; can_reason : option string }.

(** The third-party code under the decoder: the JSON tokenizer run to the end of
    the text, and the deserializers serde derives for the five envelopes. *)
Class SerdeJson := {
  tokenize : string → result string RawJson;
  from_value_request : Json → result string RequestEnvelope;
  from_value_result : Json → result string ResultEnvelope;
  from_value_error : Json → result string ErrorEnvelope;
  from_value_notification : Json → result string NotificationEnvelope;
  from_value_cancel : Json → result string CancelEnvelope
}.

Section Decode.
Context `{SerdeJson}.

(** [strict_json::parse] *)
Definition strict_parse (input : list Z) : result ProtocolError Json :=
if negb (utf8_valid input) then Err InvalidUtf8
else
map_err InvalidJson
  (let? raw := tokenize (string_of_bytes input) in visit raw).

Definition decode_value (input : list Z) : result ProtocolError Json := strict_parse input.

Definition decode_envelope (kind : string) (object : list (string * Json)) (value : Json)
: result ProtocolError WireMessage :=
let has_result := btree_contains "result" object in
let has_error := btree_contains "error" object in
if String.eqb kind "request" then
let? e := map_err invalid (from_value_request value) in
try? check_protocol (req_protocol e) in
Ok (Request (req_id e) (req_method e) (req_params e))
else if String.eqb kind "response" then
if has_result && negb has_error then
  let? e := map_err invalid (from_value_result value) in
  try? check_protocol (res_protocol e) in
  Ok (Response (res_id e) (Some (res_result e)) None)
else if has_error && negb has_result then
  let? e := map_err invalid (from_value_error value) in
  try? check_protocol (err_protocol e) in
  Ok (Response (err_id e) None (Some (err_error e)))
else Err (invalid "response must contain exactly one of result or error")
else if String.eqb kind "notification" then
let? e := map_err invalid (from_value_notification value) in
try? check_protocol (not_protocol e) in
Ok (Notification (not_method e) (not_params e))
else if String.eqb kind "cancel" then
let? e := map_err invalid (from_value_cancel value) in
try? check_protocol (can_protocol e) in
Ok (Cancel (can_id e) (can_reason e))
else Err (invalid "message kind is unknown").

Definition decode_message (input : list Z) : result ProtocolError WireMessage :=
let? value := decode_value input in
match as_object value with
| None => Err (invalid "message must be a JSON object")
| Some object =>
match (v ← btree_get "kind" object; as_str v) with
| None => Err (invalid "message kind is missing or invalid")
| Some kind =>
  let? message := decode_envelope kind object value in
  try? WireMessage_validate message in Ok message
end
end.
End Decode.

(** ** Lemmas: validators *)

Lemma validate_id_ok id :
  validate_id id = Ok tt ↔
  1 <= str_len id <= 64 ∧ Forall (λ b, is_ascii_graphic b = true) (bytes id).
Proof.
  unfold validate_id. rewrite <- between_spec.
  destruct (between 1 64 (str_len id)); simpl; [|naive_solver].
  destruct (forallb is_ascii_graphic (bytes id)) eqn:E; simpl.
  - rewrite forallb_forall in E. split; [|done]. intros _. split; [done|]. apply Forall_forall. intros x Hx.
    apply E. by apply list_elem_of_In.
  - split; [done|]. intros [_ Hf]. exfalso. apply not_true_iff_false in E. apply E.
    apply forallb_forall. intros x Hx. rewrite Forall_forall in Hf. apply Hf.
    by apply list_elem_of_In.
Qed.

(** ** Lemmas: the visitor *)

(** No object at any depth repeats a key. *)
Fixpoint json_unique (v : Json) : Prop :=
  match v with
  | JArray l => (fix go l := match l with [] => True | x :: l' => json_unique x ∧ go l' end) l
  | JObject m =>
    StronglySorted (λ s t, str_ltb s t = true) (map fst m)
    ∧ (fix go (m : list (string * Json)) :=
         match m with [] => True | (_, x) :: m' => json_unique x ∧ go m' end) m
  | _ => True
  end.

Section BTree.
Context {V : Type}.
Implicit Types (m : list (string * V)) (k : string).

Definition btree_sorted (m : list (string * V)) : Prop :=
StronglySorted (λ s t, str_ltb s t = true) (map fst m).

Lemma btree_insert_keys k v m x :
x ∈ map fst (btree_insert k v m) → x = k ∨ x ∈ map fst m.
Proof.
induction m as [|[k' v'] m IH]; simpl.
- rewrite list_elem_of_singleton. auto.
- destruct (str_compare k k'); simpl; rewrite !elem_of_cons; naive_solver.
Qed.

Lemma btree_insert_sorted k v m : btree_sorted m → btree_sorted (btree_insert k v m).
Proof.
unfold btree_sorted. induction m as [|[k' v'] m IH]; simpl; intros Hs.
{ by repeat constructor. }
inversion Hs as [|? ? Hs' Hall]; subst.
destruct (str_compare k k') eqn:E; simpl.
- apply str_compare_Eq in E. subst. by constructor.
- apply str_compare_Lt in E. constructor; [done|]. constructor; [done|].
eapply Forall_impl; [exact Hall|]. simpl. intros x Hx. exact (str_ltb_trans _ _ _ E Hx).
- apply str_compare_Gt in E. constructor; [by apply IH|].
apply Forall_forall. intros x [->|Hx]%btree_insert_keys; [done|].
rewrite Forall_forall in Hall. by apply Hall.
Qed.

Lemma btree_get_insert k k' v m :
btree_sorted m →
btree_get k (btree_insert k' v m) = if String.eqb k k' then Some v else btree_get k m.
Proof.
unfold btree_sorted. induction m as [|[k0 v0] m IH]; simpl; intros Hs.
{ by destruct (String.eqb k k'). }
inversion Hs as [|? ? Hs' Hall]; subst.
destruct (str_compare k' k0) eqn:E; simpl; [|done|].
- apply str_compare_Eq in E. subst. by destruct (String.eqb k k0).
- apply str_compare_Gt in E. rewrite IH by done.
destruct (String.eqb_spec k k0), (String.eqb_spec k k'); subst; try done.
by rewrite str_ltb_irrefl in E.
Qed.
End BTree.

Fixpoint RawJson_rect' (P : RawJson → Prop)
  (Hnull : P RNull) (Hbool : ∀ b, P (RBool b)) (Hnum : ∀ n, P (RNumber n))
  (Hnf : P RNonFinite) (Hstr : ∀ s, P (RString s))
  (Hseq : ∀ l, Forall P l → P (RSeq l))
  (Hmap : ∀ m, Forall (λ kv, P kv.2) m → P (RMap m)) (r : RawJson) : P r :=
  let rec := RawJson_rect' P Hnull Hbool Hnum Hnf Hstr Hseq Hmap in
  match r with
  | RNull => Hnull
  | RBool b => Hbool b
  | RNumber n => Hnum n
  | RNonFinite => Hnf
  | RString s => Hstr s
  | RSeq l =>
    Hseq l ((fix go (l : list RawJson) : Forall P l :=
      match l with
      | [] => List.Forall_nil _
      | x :: l' => List.Forall_cons _ x l' (rec x) (go l')
      end) l)
  | RMap m =>
    Hmap m ((fix go (m : list (string * RawJson)) : Forall (λ kv, P kv.2) m :=
      match m with
      | [] => List.Forall_nil _
      | (k, x) :: m' => List.Forall_cons _ (k, x) m' (rec x) (go m')
      end) m)
  end.

Definition values_unique (m : list (string * Json)) : Prop :=
  Forall (λ kv, json_unique kv.2) m.

Lemma json_unique_object m : json_unique (JObject m) ↔ btree_sorted m ∧ values_unique m.
Proof.
  simpl. unfold btree_sorted. apply and_iff_compat_l. unfold values_unique.
  induction m as [|[k x] m IH]; [by split; auto|]. rewrite Forall_cons, IH. done.
Qed.

Lemma btree_insert_unique k v m :
  json_unique v → values_unique m → values_unique (btree_insert k v m).
Proof.
  unfold values_unique. intros Hv. induction 1 as [|[k' v'] m Hx Hm IH]; simpl; [by repeat constructor|].
  destruct (str_compare k k'); repeat constructor; auto.
Qed.

Lemma visit_unique r v : visit r = Ok v → json_unique v.
Proof.
  revert v. induction r as [| | | | |l IH|m IH] using RawJson_rect'; intros v; simpl;
    try done; try (intros [= <-]; exact I).
  - case_match eqn:E; [|done]. intros [= <-]. revert a E. simpl.
    induction IH as [|x l Hx _ IHl]; intros vs E; [by simplify_eq|].
    destruct (visit x) eqn:Ex; [|done]. case_match eqn:El; simplify_eq.
    split; [by apply Hx|]. by apply IHl.
  - case_match eqn:E; [|done]. intros [= <-]. apply json_unique_object. revert E.
    assert (btree_sorted (@nil (string * Json))) as Hs by constructor.
    assert (values_unique []) as Hv by constructor.
    revert Hs Hv. generalize (@nil (string * Json)) as acc.
    induction IH as [|[k x] m Hx _ IHm]; intros acc Hs Hv E; [by simplify_eq|].
    case_match; [done|]. destruct (visit x) as [y|] eqn:Ex; [|done].
    eapply IHm; [by apply btree_insert_sorted| |exact E].
    apply btree_insert_unique; [by apply Hx|done].
Qed.

(** ** Properties *)

(** Whatever byte sequence is decoded, an accepted wire message comes from
    a JSON document with no repeated object key at any depth and satisfies the
    message validator: bounded printable IDs, a canonical method, exactly one of
    result and error in a response. *)
Theorem decode_message_sound `{SerdeJson} (input : list Z) (m : WireMessage) :
  decode_message input = Ok m →
  WireMessage_validate m = Ok tt ∧
  ∃ object, decode_value input = Ok (JObject object) ∧ json_unique (JObject object).
Proof.
  unfold decode_message. destruct (decode_value input) as [v|] eqn:Ev; [|done].
  destruct v as [| | | | |object]; try done. cbn [as_object].
  case_match; [|done]. case_match; [|done]. case_match eqn:Hval; [|done].
  intros [= <-]. destruct a0. split; [done|]. eexists. split; [done|].
  unfold decode_value, strict_parse in Ev. case_match; [done|].
  destruct (tokenize _); [|done]. simpl in Ev.
  destruct (visit a0) eqn:Hv; simplify_eq/=. by eapply visit_unique in Hv.
Qed.

(** A tokenizer and deserializers that know one cancel message. *)
Definition cancel_serde : SerdeJson := {|
  tokenize _ := Ok (RMap [("protocol", RString "josh/1"); ("kind", RString "cancel");
                          ("id", RString "r1")]);
  from_value_request _ := Err "unused";
  from_value_result _ := Err "unused";
  from_value_error _ := Err "unused";
  from_value_notification _ := Err "unused";
  from_value_cancel v :=
    match as_object v with
    | Some o =>
      match (p ← btree_get "protocol" o; as_str p), (i ← btree_get "id" o; as_str i) with
      | Some p, Some i => Ok {| can_protocol := p; can_id := i; can_reason := None |}
      | _, _ => Err "missing field"
      end
    | None => Err "invalid type"
    end
|}.

Lemma decode_message_sound_witness :
  @decode_message cancel_serde [123; 125] = Ok (Cancel "r1" None)
  ∧ WireMessage_validate (Cancel "r1" None) = Ok tt.
Proof.
  assert (@decode_message cancel_serde [123; 125] = Ok (Cancel "r1" None)) as Hd
    by (vm_compute; reflexivity).
  split; [exact Hd|]. exact (proj1 (@decode_message_sound cancel_serde _ _ Hd)).
Defined.
