(* ===== verification/JoshScalars.v ===== *)
(** * JOSH scalar validators ([crates/josh-protocol/src/payload.rs], lower half)

    The text validators that every payload uses: opaque identifiers, digests,
    semantic versions and language ranges, sorted lists, tool names, exec
    patterns, source paths, permission paths, RFC 3339 timestamps.  The semver,
    base64 and url crates are the fields of [PayloadDeps]; [std::path::Path] on
    Unix is modelled by [path_components]. *)

From S2P Require Import Prelude Text JoshMessage.
Open Scope string_scope.
Open Scope Z_scope.

(** [if c { return Err(invalid(msg)); } k] *)
Notation "'reject?' c 'with' msg 'in' k" :=
  (if c then Err (invalid msg) else k)
  (at level 10, c at level 200, msg at level 200, k at level 200) : rust_scope.

(** ** Third-party crates *)

(** [semver::Version] *)
Record Version := {
  v_major : Z; v_minor : Z; v_patch : Z; v_pre : string; v_build : string }.

(** The accessors of [url::Url] that are read here. *)
Record Url := {
  url_scheme : string; url_username : string; url_password : option string;
  url_path : string; url_query : option string; url_fragment : option string;
  url_origin : string }.

Class PayloadDeps := {
  Version_parse : string → option Version;
  Version_to_string : Version → string;
  Version_compare : Version → Version → comparison;
  base64_decode : string → option (list Z);
  base64_encode : list Z → string;
  Url_parse : string → option Url
}.

(** [Version::new] *)
Definition Version_new (a b c : Z) : Version :=
  {| v_major := a; v_minor := b; v_patch := c; v_pre := ""; v_build := "" |}.

(** Precedence of release versions, as semantic versioning defines it. *)
Definition release_compare (v w : Version) : comparison :=
  match v_major v ?= v_major w with
  | Eq => match v_minor v ?= v_minor w with Eq => v_patch v ?= v_patch w | c => c end
  | c => c
  end.

(** ** [std::path::Path] on Unix *)

Inductive Component := RootDir | CurDir | ParentDir | Normal (name : string).

#[export] Instance Component_eq_dec : EqDecision Component.
Proof. solve_decision. Defined.

(** Empty parts vanish; a ["."] part is kept only at the start of a relative path. *)
Fixpoint components_of (first : bool) (parts : list string) : list Component :=
  match parts with
  | [] => []
  | p :: parts' =>
    let rest := components_of false parts' in
    if String.eqb p "" then components_of first parts'
    else if String.eqb p "." then if first then CurDir :: rest else rest
    else if String.eqb p ".." then ParentDir :: rest
    else Normal p :: rest
  end.

Definition is_absolute (path : string) : bool := starts_with "/" path.

Definition path_components (path : string) : list Component :=
  if is_absolute path then RootDir :: components_of false (split_char "/" path)
  else components_of true (split_char "/" path).

(** [Path::starts_with]: whole components. *)
Definition path_starts_with (path base : string) : bool :=
  bool_decide (path_components base `prefix_of` path_components path).

(** ** Validators *)

Definition has_control (s : string) : bool := existsb is_control (chars s).

Definition validate_opaque (value name : string) : result ProtocolError unit :=
  reject? str_is_empty value || (128 <? str_len value) || has_control value
    with (name ++ " is invalid")%string in Ok tt.

Definition validate_session_id (value : string) : result ProtocolError unit :=
  reject? str_is_empty value || (256 <? str_len value) || has_control value
    with "invoking session ID is invalid" in Ok tt.

Definition validate_ascii_id (value name : string) (maximum : Z) : result ProtocolError unit :=
  reject? str_is_empty value || (maximum <? str_len value)
          || negb (forallb is_ascii_graphic (bytes value))
    with (name ++ " is invalid")%string in Ok tt.

Definition validate_transcript_text (value name : string) (allow_empty : bool)
    : result ProtocolError unit :=
  reject? (negb allow_empty && str_is_empty value) || (1024 <? str_len value)
          || has_control value
    with (name ++ " is invalid")%string in Ok tt.

Definition validate_safe_code (value name : string) : result ProtocolError unit :=
  validate_transcript_text value name false.

Definition is_lower_hex (b : Z) : bool := is_ascii_digit b || between 97 102 b.

Definition validate_digest (digest : string) : result ProtocolError unit :=
  match strip_prefix "sha256:" digest with
  | None => Err (invalid "digest must use sha256 text")
  | Some hex =>
    reject? negb (str_len hex =? 64) || negb (forallb is_lower_hex (bytes hex))
      with "digest must contain 64 lower-case hexadecimal digits" in Ok tt
  end.

Definition validate_sorted_unique (values : list string) (name : string)
    : result ProtocolError unit :=
  reject? unsorted values with (name ++ " must be sorted and unique")%string in Ok tt.

Definition validate_tool_name (name : string) : result ProtocolError unit :=
  reject? str_is_empty name || (255 <? str_len name)
          || existsb str_is_empty (split_char "." name)
          || existsb is_whitespace (chars name)
          || has_control name
    with "tool name is not canonical" in Ok tt.

Definition effect_byte (b : Z) : bool :=
  is_ascii_lowercase b || is_ascii_digit b || (b =? 46) || (b =? 95).

Definition validate_effect (effect : string) : result ProtocolError unit :=
  reject? str_is_empty effect || (128 <? str_len effect)
          || existsb str_is_empty (split_char "." effect)
          || negb (forallb effect_byte (bytes effect))
    with "tool effect ID is not canonical" in Ok tt.

Definition validate_description (description : string) : result ProtocolError unit :=
  reject? (4096 <? str_len description) || existsb (λ b, b =? 0) (bytes description)
    with "tool description is invalid" in Ok tt.

(** One token of an exec pattern; [index] counts from the executable. *)
Definition exec_token_bad (tokens : list string) (index : nat) (token : string) : bool :=
  let final_wildcard := String.eqb token "*" && (S index =? length tokens)%nat in
  str_is_empty token
  || (str_contains "*" token && negb final_wildcard)
  || (negb final_wildcard
      && existsb (λ b, negb (is_ascii_graphic b) || (b =? 39) || (b =? 34) || (b =? 92))
           (bytes token)).

Definition validate_exec_pattern (pattern : string) : result ProtocolError unit :=
  reject? str_is_empty pattern || starts_with " " pattern || ends_with " " pattern
          || str_contains "  " pattern
    with "exec command pattern is not canonical" in
  let tokens := split_char " " pattern in
  match head tokens with
  | None => Err (invalid "exec command pattern is not canonical")
  | Some executable =>
    reject? str_contains "/" executable || String.eqb executable "*"
            || existsb (λ p : nat * string, exec_token_bad tokens p.1 p.2)
                 (imap (λ i t, (i, t)) tokens)
      with "exec command pattern is not canonical" in Ok tt
  end.

Definition validate_exec_environment_name (name : string) : result ProtocolError unit :=
  let ok :=
    match bytes name with
    | [] => false
    | first :: rest =>
      (is_ascii_alphabetic first || (first =? 95))
      && forallb (λ b, is_ascii_alphanumeric b || (b =? 95)) rest
      && negb (eq_ignore_ascii_case name "LC_ALL")
      && negb (eq_ignore_ascii_case name "TZ")
    end in
  reject? negb ok with "exec environment name is not canonical" in Ok tt.

(** ** Source and permission paths *)

Definition validate_path (path : string) : result ProtocolError unit :=
  let parts := split_char "/" path in
  reject? str_is_empty path || (4096 <? str_len path)
          || starts_with "/" path || ends_with "/" path
          || existsb (λ b, b =? 92) (bytes path)
          || has_control path
          || match head parts with Some part => ends_with ":" part | None => false end
          || existsb (λ p, str_is_empty p || String.eqb p "." || String.eqb p "..") parts
    with "source path is not normalized and package-relative" in Ok tt.

Inductive PermissionRight := RRead | RWrite | RList.

#[export] Instance PermissionRight_eq_dec : EqDecision PermissionRight.
Proof. solve_decision. Defined.

(** The derived [Ord]: declaration order. *)
Definition right_rank (r : PermissionRight) : Z :=
  match r with RRead => 0 | RWrite => 1 | RList => 2 end.

Inductive PermissionTargetKind := File | Directory.

#[export] Instance PermissionTargetKind_eq_dec : EqDecision PermissionTargetKind.
Proof. solve_decision. Defined.

Definition is_dot_component (c : Component) : bool :=
  match c with CurDir | ParentDir => true | _ => false end.

Definition validate_permission_values (path : string) (rights : list PermissionRight)
    (max_bytes : Z) : result ProtocolError unit :=
  reject? str_is_empty path || (4096 <? str_len path) || has_control path
          || negb (is_absolute path) || str_contains "//" path
          || ((1 <? str_len path) && ends_with "/" path)
          || existsb is_dot_component (path_components path)
    with "permission path is not an absolute canonical target" in
  reject? match rights with [] => true | _ => false end
          || windows2_any (λ a b, right_rank b <=? right_rank a) rights
    with "permission rights must be sorted and unique" in
  reject? max_bytes =? 0 with "permission byte limit must be positive" in Ok tt.

Definition validate_permission_scope (path : string) (rights : list PermissionRight)
    (recursive : bool) (max_bytes : Z) (kind : PermissionTargetKind)
    : result ProtocolError unit :=
  try? validate_permission_values path rights max_bytes in
  reject? bool_decide (kind = File) && (recursive || bool_decide (RList ∈ rights))
    with "file permission request has directory authority" in Ok tt.

(** ** Timestamps *)

Record TimestampKey := {
  tk_year : Z; tk_month : Z; tk_day : Z; tk_hour : Z; tk_minute : Z; tk_second : Z;
  tk_nanos : Z }.

(** The derived [Ord]: lexicographic in field order. *)
Definition TimestampKey_fields (k : TimestampKey) : list Z :=
  [tk_year k; tk_month k; tk_day k; tk_hour k; tk_minute k; tk_second k; tk_nanos k].
Definition TimestampKey_gtb (a b : TimestampKey) : bool :=
  match bytes_compare (TimestampKey_fields a) (TimestampKey_fields b) with
  | Gt => true | _ => false end.

(** [&bytes[a..b]] for [a <= b <= len]. *)
Definition slice {A} (a b : nat) (l : list A) : list A := take (b - a) (drop a l).

(** [bytes[i]] inside the checked length. *)
Definition byte_at (bs : list Z) (i : nat) : Z := nth i bs 0.

Definition parse_decimal (max : Z) (bs : list Z) : result ProtocolError Z :=
  reject? match bs with [] => true | _ => false end || negb (all_digits bs)
    with "timestamp contains invalid decimal text" in
  ok_or (parse_unsigned max bs) (invalid "timestamp decimal value is out of range").

Definition is_leap (year : Z) : bool :=
  (year mod 4 =? 0) && (negb (year mod 100 =? 0) || (year mod 400 =? 0)).

Definition maximum_day (year month : Z) : Z :=
  if existsb (Z.eqb month) [1; 3; 5; 7; 8; 10; 12] then 31
  else if existsb (Z.eqb month) [4; 6; 9; 11] then 30
  else if month =? 2 then if is_leap year then 29 else 28
  else 0.

(** The [match bytes.len()] that reads the optional fraction. *)
Definition timestamp_nanos (bs : list Z) : result ProtocolError Z :=
  let len := Z.of_nat (length bs) in
  if len =? 20 then Ok 0
  else if between 22 30 len && (byte_at bs 19 =? 46) then
    let fraction := slice 20 (length bs - 1) bs in
    let? v := parse_decimal u32_max fraction in
    Ok (v * 10 ^ (9 - Z.of_nat (length fraction)))
  else Err (invalid "timestamp is not canonical RFC 3339 UTC text").

Definition timestamp_key (value : string) : result ProtocolError TimestampKey :=
  let bs := bytes value in
  let len := Z.of_nat (length bs) in
  reject? (len <? 20) || negb (byte_at bs 4 =? 45) || negb (byte_at bs 7 =? 45)
          || negb (byte_at bs 10 =? 84) || negb (byte_at bs 13 =? 58)
          || negb (byte_at bs 16 =? 58) || negb (byte_at bs (length bs - 1) =? 90)
    with "timestamp is not canonical RFC 3339 UTC text" in
  let? year := parse_decimal u16_max (slice 0 4 bs) in
  let? month := parse_decimal u8_max (slice 5 7 bs) in
  let? day := parse_decimal u8_max (slice 8 10 bs) in
  let? hour := parse_decimal u8_max (slice 11 13 bs) in
  let? minute := parse_decimal u8_max (slice 14 16 bs) in
  let? second := parse_decimal u8_max (slice 17 19 bs) in
  let? nanos := timestamp_nanos bs in
  reject? (year =? 0) || (day =? 0) || (maximum_day year month <? day) || (23 <? hour)
          || (59 <? minute) || (59 <? second)
    with "timestamp has an invalid calendar value" in
  Ok {| tk_year := year; tk_month := month; tk_day := day; tk_hour := hour;
        tk_minute := minute; tk_second := second; tk_nanos := nanos |}.

Definition validate_timestamp (value : string) : result ProtocolError unit :=
  let? _k := timestamp_key value in Ok tt.

(** ** Versions, ranges, base64 and origins *)

Definition LANGUAGE_VERSION : string := "0.1.1".

Section Deps.
Context `{PayloadDeps}.

Definition validate_semver (version : string) : result ProtocolError unit :=
match Version_parse version with
| None => Err (invalid "version is not semantic version text")
| Some parsed =>
reject? negb (str_is_empty (v_pre parsed)) || negb (str_is_empty (v_build parsed))
        || negb (String.eqb (Version_to_string parsed) version)
  with "version is not a canonical exact semantic version" in Ok tt
end.

Definition validate_language_range (range : string) : result ProtocolError unit :=
match split_once ", " range with
| None => Err (invalid "language range must have one lower and one upper bound")
| Some (lower, upper) =>
match strip_prefix ">=" lower with
| None => Err (invalid "language range lower bound is invalid")
| Some lower =>
  match strip_prefix "<" upper with
  | None => Err (invalid "language range upper bound is invalid")
  | Some upper =>
    try? validate_semver lower in
    try? validate_semver upper in
    let? l := ok_or (Version_parse lower) (invalid "language range is invalid") in
    let? u := ok_or (Version_parse upper) (invalid "language range is invalid") in
    reject? match Version_compare l u with Lt => false | _ => true end
      with "language range is empty" in Ok tt
  end
end
end.

Definition range_contains_language (range : string) : bool :=
match split_once ", " range with
| None => false
| Some (lower, upper) =>
match strip_prefix ">=" lower, strip_prefix "<" upper with
| Some lower, Some upper =>
  match Version_parse lower, Version_parse upper with
  | Some lower, Some upper =>
    let current := Version_new 0 1 0 in
    match Version_compare lower current, Version_compare current upper with
    | (Lt | Eq), Lt => true
    | _, _ => false
    end
  | _, _ => false
  end
| _, _ => false
end
end.

Definition validate_base64 (value : string) : result ProtocolError unit :=
match base64_decode value with
| None => Err (invalid "base64 is not canonical RFC 4648 standard base64")
| Some decoded =>
reject? negb (String.eqb (base64_encode decoded) value)
  with "base64 is not canonical RFC 4648 standard base64" in Ok tt
end.

Definition validate_https_origin (origin : string) : result ProtocolError unit :=
match Url_parse origin with
| None => Err (invalid "HTTP origin is invalid")
| Some parsed =>
reject? negb (String.eqb (url_scheme parsed) "https")
        || negb (str_is_empty (url_username parsed))
        || bool_decide (is_Some (url_password parsed))
        || negb (String.eqb (url_path parsed) "/")
        || bool_decide (is_Some (url_query parsed))
        || bool_decide (is_Some (url_fragment parsed))
        || negb (String.eqb (url_origin parsed) origin)
  with "HTTP origin is not canonical HTTPS origin text" in Ok tt
end.
End Deps.

(** ** Lemmas *)

(** What a successful [validate_sorted_unique] means. *)
Lemma validate_sorted_unique_ok l name :
  validate_sorted_unique l name = Ok tt →
  StronglySorted (λ s t, str_ltb s t = true) l ∧ NoDup l.
Proof.
  unfold validate_sorted_unique. destruct (unsorted l) eqn:E; [done|]. intros _.
  by apply unsorted_false.
Qed.

Lemma existsb_false {A} (f : A → bool) l :
  existsb f l = false ↔ Forall (λ x, f x = false) l.
Proof.
  induction l as [|x l IH]; simpl; [by split; auto|].
  by rewrite orb_false_iff, Forall_cons, IH.
Qed.

Lemma components_of_normal first parts :
  Forall (λ p, (str_is_empty p || String.eqb p "." || String.eqb p "..") = false) parts →
  components_of first parts = map Normal parts.
Proof.
  intros H. revert first. induction H as [|p parts Hp _ IH]; intros first; [done|].
  apply orb_false_iff in Hp as [[He Hd]%orb_false_iff Hdd]. simpl.
  destruct (String.eqb_spec p "") as [->|]; [done|]. by rewrite Hd, Hdd, IH.
Qed.

(** Only [".."] parts give a [ParentDir] component. *)
Lemma components_of_parent first parts :
  ParentDir ∈ components_of first parts → ".." ∈ parts.
Proof.
  revert first. induction parts as [|p parts IH]; intros first; simpl.
  { by intros ?%not_elem_of_nil. }
  rewrite elem_of_cons.
  destruct (String.eqb_spec p ""); [naive_solver|].
  destruct (String.eqb_spec p "."); [destruct first; [rewrite elem_of_cons|]; naive_solver|].
  destruct (String.eqb_spec p ".."); [naive_solver|]. rewrite elem_of_cons. naive_solver.
Qed.

(** A [CurDir] component appears only as the first one. *)
Lemma components_of_no_curdir parts : CurDir ∉ components_of false parts.
Proof.
  induction parts as [|p parts IH]; simpl; [apply not_elem_of_nil|].
  destruct (String.eqb_spec p ""); [done|]. destruct (String.eqb_spec p "."); [done|].
  destruct (String.eqb_spec p ".."); rewrite not_elem_of_cons; naive_solver.
Qed.

Lemma maximum_day_month y m : 1 <= maximum_day y m → 1 <= m <= 12.
Proof.
  unfold maximum_day. simpl.
  repeat match goal with |- context [?a =? ?b] => destruct (Z.eqb_spec a b); [lia|] end.
  simpl. lia.
Qed.

Lemma parse_decimal_ok max bs v :
  parse_decimal max bs = Ok v →
  (bs ≠ [] ∧ all_digits bs = true ∧ v = digits_value bs)
  ∧ 0 <= v ∧ v <= max ∧ v < 10 ^ Z.of_nat (length bs).
Proof.
  unfold parse_decimal, parse_unsigned. case_match eqn:E; [done|]. boolify.
  destruct (Z.leb_spec (digits_value bs) max); [|done]. intros [= <-].
  pose proof (digits_value_bound bs). split; [|naive_solver lia]. destruct bs; naive_solver.
Qed.

Lemma timestamp_nanos_range bs n : timestamp_nanos bs = Ok n → 0 <= n < 10 ^ 9.
Proof.
  unfold timestamp_nanos. case_match; [intros [= <-]; lia|]. case_match eqn:Hlen; [|done].
  apply andb_true_iff in Hlen as [Hlen%between_spec _].
  destruct (parse_decimal _ _) as [v|] eqn:Hp; [|done]. intros [= <-].
  apply parse_decimal_ok in Hp as (_ & Hv0 & _ & Hv).
  set (k := Z.of_nat (length (slice 20 (length bs - 1) bs))) in *.
  assert (0 <= k <= 9). { subst k. unfold slice. rewrite length_take, length_drop. lia. }
  assert (10 ^ k * 10 ^ (9 - k) = 10 ^ 9) as <-.
  { rewrite <- Z.pow_add_r by lia. f_equal. lia. }
  pose proof (Z.pow_pos_nonneg 10 (9 - k)). nia.
Qed.

(** A grantable permission path is absolute and climbs nowhere: its
    components are the root followed by components other than [".."]. *)
Lemma permission_components (path : string) (rights : list PermissionRight)
    (max_bytes : Z) :
  validate_permission_values path rights max_bytes = Ok tt →
  ∃ rest, path_components path = (RootDir :: rest) ∧ (ParentDir ∉ rest) ∧ (CurDir ∉ rest).
Proof.
  unfold validate_permission_values. intros H. ok_inv H. boolify.
  unfold path_components. match goal with H : is_absolute path = true |- _ => rewrite H end.
  eexists. split; [done|]. split; [|apply components_of_no_curdir].
  match goal with Hd : existsb is_dot_component (path_components path) = false,
                  Ha : is_absolute path = true |- _ =>
    apply existsb_false in Hd; unfold path_components in Hd; rewrite Ha in Hd;
    apply Forall_cons in Hd as [_ Hd]; rewrite Forall_forall in Hd;
    intros Hin; by apply Hd in Hin
  end.
Qed.

(** ** Properties *)

(** An accepted source-bundle path names a file inside the package: it is
    relative, no longer than 4096 bytes, and every component the standard
    library's [Path] sees is a plain name, so no [".."], ["."], empty part,
    backslash or control character can redirect it. *)
Theorem validate_path_confined (path : string) :
  validate_path path = Ok tt →
  is_absolute path = false ∧ 1 <= str_len path <= 4096 ∧
  path_components path = map Normal (split_char "/" path) ∧
  Forall (λ b, b ≠ 92) (bytes path) ∧
  Forall (λ c, is_control c = false) (chars path).
Proof.
  unfold validate_path, has_control. case_match eqn:E; [done|]. intros _. boolify.
  repeat match goal with H : existsb _ _ = false |- _ => apply existsb_false in H end.
  unfold path_components, is_absolute.
  match goal with H : starts_with "/" path = false |- _ => rewrite H end.
  split; [done|]. split.
  { unfold str_is_empty in *. boolify. unfold str_len in *. lia. }
  split; [by apply components_of_normal|]. split; [|done].
  eapply Forall_impl; [eassumption|]. simpl. intros x Hx. by apply Z.eqb_neq.
Qed.

Lemma validate_path_confined_witness :
  validate_path "src/main.allen" = Ok tt ∧
  path_components "src/main.allen" = [Normal "src"; Normal "main.allen"].
Proof.
  assert (validate_path "src/main.allen" = Ok tt) as Hv by (vm_compute; reflexivity).
  split; [exact Hv|].
  destruct (validate_path_confined _ Hv) as (_ & _ & -> & _). vm_compute. reflexivity.
Defined.

(** The canonical-target check does not see ["."] parts: the standard
    library drops them from an absolute path before the check looks for them, so
    ["/srv/./data"], which is not a canonical path, passes. *)
Theorem permission_dot_path_accepted (rights : list PermissionRight) (max_bytes : Z) :
  rights ≠ [] → windows2_any (λ a b, right_rank b <=? right_rank a) rights = false →
  max_bytes ≠ 0 →
  validate_permission_values "/srv/./data" rights max_bytes = Ok tt ∧
  "." ∈ split_char "/" "/srv/./data" ∧
  path_components "/srv/./data" = path_components "/srv/data".
Proof.
  intros Hr Hw Hm. split; [|split; [|by vm_compute]].
  - unfold validate_permission_values.
    assert ((max_bytes =? 0) = false) as -> by by apply Z.eqb_neq.
    rewrite Hw. destruct rights; [done|]. vm_compute. reflexivity.
  - vm_compute. right. right. left.
Qed.

Lemma permission_dot_path_accepted_witness :
  validate_permission_values "/srv/./data" [RRead; RWrite] 10 = Ok tt.
Proof. apply (permission_dot_path_accepted [RRead; RWrite] 10); [done|vm_compute; reflexivity|done]. Defined.

(** An accepted timestamp denotes a real instant of the proleptic Gregorian
    calendar: every field is in its range, the day exists in its month, and the
    fraction is less than a second. *)
Theorem timestamp_key_valid (value : string) (k : TimestampKey) :
  timestamp_key value = Ok k →
  1 <= tk_year k <= 9999 ∧ 1 <= tk_month k <= 12 ∧
  1 <= tk_day k <= maximum_day (tk_year k) (tk_month k) ∧
  0 <= tk_hour k <= 23 ∧ 0 <= tk_minute k <= 59 ∧ 0 <= tk_second k <= 59 ∧
  0 <= tk_nanos k < 10 ^ 9.
Proof.
  unfold timestamp_key. intros H. ok_inv H. injection H as <-. boolify. simpl.
  repeat match goal with
  | Hp : parse_decimal _ (slice _ _ (bytes value)) = Ok _ |- _ => apply parse_decimal_ok in Hp
  end.
  assert (∀ a b : nat, (a <= b)%nat → (length (slice a b (bytes value)) <= b - a)%nat) as Hl.
  { intros a' b' _. unfold slice. rewrite length_take. lia. }
  assert (∀ a b : nat, ∀ z, z < 10 ^ Z.of_nat (length (slice a b (bytes value))) →
          z < 10 ^ Z.of_nat (b - a)) as Hpow.
  { intros a' b' z Hz. eapply Z.lt_le_trans; [exact Hz|].
    apply Z.pow_le_mono_r; [lia|]. unfold slice. rewrite length_take. lia. }
  match goal with Hn : timestamp_nanos _ = Ok _ |- _ => apply timestamp_nanos_range in Hn end.
  destruct_and!.
  repeat match goal with Hz : _ < 10 ^ Z.of_nat _ |- _ => apply Hpow in Hz; simpl in Hz end.
  match goal with Hd : _ <= maximum_day ?y ?m |- _ =>
    assert (1 <= m <= 12) by (apply (maximum_day_month y m); lia) end.
  repeat split; try lia.
Qed.

Lemma timestamp_key_valid_witness :
  ∃ k, timestamp_key "2024-02-29T23:59:59.25Z" = Ok k ∧ tk_day k <= 29 ∧ tk_nanos k = 250000000.
Proof.
  eexists. split; [vm_compute; reflexivity|].
  assert (timestamp_key "2024-02-29T23:59:59.25Z" = Ok (Build_TimestampKey 2024 2 29 23 59 59 250000000))
    as Hk by (vm_compute; reflexivity).
  destruct (timestamp_key_valid _ _ Hk) as (_ & _ & Hd & _). split; [|reflexivity].
  vm_compute in Hd. simpl. lia.
Defined.

(** The handshake's range test is made against version 0.1.0 although the
    current language version is 0.1.1: it refuses the valid range that starts at
    the current version and accepts the valid range that ends just before it. *)
Theorem range_test_misses_current_version `{PayloadDeps} :
  (∀ a b c, 0 <= a → 0 <= b → 0 <= c → a < 10 → b < 10 → c < 10 →
    Version_parse (string_of_bytes [48 + a; 46; 48 + b; 46; 48 + c]) = Some (Version_new a b c)) →
  (∀ a b c, 0 <= a → 0 <= b → 0 <= c → a < 10 → b < 10 → c < 10 →
    Version_to_string (Version_new a b c) = string_of_bytes [48 + a; 46; 48 + b; 46; 48 + c]) →
  (∀ a b c a' b' c', Version_compare (Version_new a b c) (Version_new a' b' c')
    = release_compare (Version_new a b c) (Version_new a' b' c')) →
  LANGUAGE_VERSION = "0.1.1" ∧
  validate_language_range ">=0.1.1, <0.2.0" = Ok tt ∧
  range_contains_language ">=0.1.1, <0.2.0" = false ∧
  validate_language_range ">=0.1.0, <0.1.1" = Ok tt ∧
  range_contains_language ">=0.1.0, <0.1.1" = true.
Proof.
  intros Hparse Hprint Hcmp.
  pose proof (Hparse 0 1 0) as P010. pose proof (Hparse 0 1 1) as P011.
  pose proof (Hparse 0 2 0) as P020. pose proof (Hprint 0 1 0) as Q010.
  pose proof (Hprint 0 1 1) as Q011. pose proof (Hprint 0 2 0) as Q020.
  change (string_of_bytes [48 + 0; 46; 48 + 1; 46; 48 + 0]) with "0.1.0" in P010, Q010.
  change (string_of_bytes [48 + 0; 46; 48 + 1; 46; 48 + 1]) with "0.1.1" in P011, Q011.
  change (string_of_bytes [48 + 0; 46; 48 + 2; 46; 48 + 0]) with "0.2.0" in P020, Q020.
  assert (split_once ", " ">=0.1.1, <0.2.0" = Some (">=0.1.1", "<0.2.0")) as E1 by done.
  assert (split_once ", " ">=0.1.0, <0.1.1" = Some (">=0.1.0", "<0.1.1")) as E2 by done.
  unfold validate_language_range, range_contains_language, validate_semver.
  rewrite E1, E2. simpl strip_prefix. cbv iota.
  rewrite P010, P011, P020 by lia. simpl. rewrite Q010, Q011, Q020 by lia.
  rewrite !Hcmp. by vm_compute.
Qed.

(** Single-digit release versions are enough for a concrete instance. *)
Definition tiny_semver : PayloadDeps := {|
  Version_parse s :=
    match bytes s with
    | [a; d1; b; d2; c] => Some (Version_new (a - 48) (b - 48) (c - 48))
    | _ => None
    end;
  Version_to_string v := string_of_bytes [48 + v_major v; 46; 48 + v_minor v; 46; 48 + v_patch v];
  Version_compare := release_compare;
  base64_decode _ := None;
  base64_encode _ := "";
  Url_parse _ := None
|}.

Lemma range_test_misses_current_version_witness :
  @range_contains_language tiny_semver ">=0.1.1, <0.2.0" = false.
Proof.
  apply (@range_test_misses_current_version tiny_semver).
  - intros a b c Ha Hb Hc Ha' Hb' Hc'. unfold Version_parse, tiny_semver.
    rewrite bytes_string_of_bytes.
    + f_equal. f_equal; lia.
    + repeat constructor; apply in_unsigned_spec; unfold u8_max; lia.
  - reflexivity.
  - reflexivity.
Defined.
