(* ===== verification/JoshPayload.v ===== *)
(** * JOSH payloads ([crates/josh-protocol/src/payload.rs], [handshake.rs])

    Every parameter and result structure of the protocol as a record or an
    inductive type with the source's fields, and its [Validate::validate] as a
    function [T_validate] with the same checks in the same order.  The event
    stream tracker and the request-scoped [validate_for] checks are here too. *)

From S2P Require Import Prelude Text JoshMessage JoshScalars.
Open Scope string_scope.
Open Scope Z_scope.

Definition PROTOCOL_VERSION : string := "josh/1.6".
Definition SCHEMA_DIALECT : string := "https://json-schema.org/draft/2020-12/schema".
Definition SCHEMA_PROFILE : string := "allen.tool-schema/0.1".
Definition HOST_PROJECTION_PROFILE : string := "josh.host-projection/0.1".

Definition FEATURES : list string :=
  ["agent"; "catalog-provenance"; "exec-run"; "external-fs-grants"; "host-projection";
   "model"; "record-replay"; "structured-prompts"; "structured-transcript"; "sub-agents";
   "typed-responses"; "typed-tools"; "user-interaction"].

Definition EXECUTION_LIMITS : list string :=
  ["call_depth"; "cleanup_instructions"; "concurrent_effects"; "effects"; "fs_entries";
   "fs_file_bytes"; "fs_operations"; "fs_read_bytes"; "fs_write_bytes"; "heap_bytes";
   "http_compressed_bytes"; "http_connect_ms"; "http_decoded_bytes";
   "http_decompression_ratio"; "http_dns_addresses"; "http_first_byte_ms"; "http_idle_ms";
   "http_redirects"; "http_requests"; "http_response_header_bytes";
   "http_response_headers"; "http_total_ms"; "input_bytes"; "instructions";
   "maximum_allocation_bytes"; "output_bytes"; "tasks"; "wall_ms"].

Definition str_in (s : string) (l : list string) : bool := existsb (String.eqb s) l.

Definition standard_capability (c : string) : bool :=
  str_in c ["fs.read"; "fs.write"; "net.http_get"; "permission.request_external_fs"].

(** [for (name, value) in &limits { if unknown || zero { Err(msg) } }] *)
Definition limits_check (limits : list (string * Z)) (msg : string)
    : result ProtocolError unit :=
  for_each (λ nv : string * Z,
    reject? negb (str_in nv.1 EXECUTION_LIMITS) || (nv.2 =? 0) with msg in Ok tt) limits.

Definition capabilities_check (caps : list string) (msg : string)
    : result ProtocolError unit :=
  for_each (λ c, reject? negb (standard_capability c) with msg in Ok tt) caps.

(** ** Handshake *)

Record PeerInfo := { peer_name : string; peer_version : string }.

Record ProtocolLimits := {
  max_frame_bytes : Z; max_active_requests : Z; max_loaded_programs : Z;
  max_total_executions : Z; max_catalog_tools : Z; max_catalog_bytes : Z }.

Definition ProtocolLimits_validate (l : ProtocolLimits) : result ProtocolError unit :=
  reject? existsb (Z.eqb 0)
      [max_frame_bytes l; max_active_requests l; max_loaded_programs l;
       max_total_executions l; max_catalog_tools l; max_catalog_bytes l]
    with "protocol limits must be positive integers" in Ok tt.

Inductive ExecutionMode := Unattended | Attached.

#[export] Instance ExecutionMode_eq_dec : EqDecision ExecutionMode.
Proof. solve_decision. Defined.

Inductive InvokingSessionId := SessionNull | SessionId (id : string).

Record RuntimeReadyParams := { rrp_runtime : PeerInfo }.

Record InitializeParams := {
  ip_host : PeerInfo;
  ip_protocol_versions : list string;
  ip_language_versions : list string;
  ip_execution_mode : ExecutionMode;
  ip_invoking_session_id : InvokingSessionId;
  ip_standard_capabilities : list string;
  ip_limits : ProtocolLimits;
  ip_extensions : list string }.

Definition bound_session_id (p : InitializeParams) : option string :=
  match ip_invoking_session_id p with SessionId id => Some id | SessionNull => None end.

Definition validate_protocol_version (p : InitializeParams) : result ProtocolError unit :=
  match ip_protocol_versions p with
  | [version] =>
    if String.eqb version PROTOCOL_VERSION then Ok tt
    else Err (invalid "protocol_versions must contain exactly the current protocol version")
  | _ => Err (invalid "protocol_versions must contain exactly the current protocol version")
  end.

Record InitializeResult := {
  ir_protocol_version : string; ir_runtime : PeerInfo; ir_language_version : string;
  ir_features : list string; ir_limits : ProtocolLimits }.

Section Handshake.
Context `{PayloadDeps}.

Definition PeerInfo_validate (p : PeerInfo) : result ProtocolError unit :=
reject? negb (between 1 128 (str_len (peer_name p)))
with "peer name must be 1 through 128 UTF-8 bytes" in
validate_semver (peer_version p).

Definition RuntimeReadyParams_validate (p : RuntimeReadyParams) : result ProtocolError unit :=
PeerInfo_validate (rrp_runtime p).

Definition InitializeParams_validate (p : InitializeParams) : result ProtocolError unit :=
try? PeerInfo_validate (ip_host p) in
try? validate_protocol_version p in
reject? match ip_language_versions p with [] => true | _ => false end
      || negb (existsb (λ range, is_ok (validate_language_range range)
                                 && range_contains_language range)
                 (ip_language_versions p))
with "language_versions must contain 0.1.1" in
try? for_each validate_language_range (ip_language_versions p) in
try? validate_sorted_unique (ip_standard_capabilities p) "standard_capabilities" in
try? capabilities_check (ip_standard_capabilities p)
     "standard capability is not implemented" in
try? ProtocolLimits_validate (ip_limits p) in
reject? match ip_extensions p with [] => false | _ => true end
with "extensions must be empty" in
match ip_execution_mode p, ip_invoking_session_id p with
| Unattended, SessionNull => Ok tt
| Attached, SessionId session_id => validate_session_id session_id
| _, _ => Err (invalid "josh/1.6 invoking_session_id does not match execution_mode")
end.

Definition InitializeResult_validate (r : InitializeResult) : result ProtocolError unit :=
reject? negb (String.eqb (ir_protocol_version r) PROTOCOL_VERSION)
      || negb (String.eqb (ir_language_version r) LANGUAGE_VERSION)
with "initialize result selected an unsupported version" in
try? PeerInfo_validate (ir_runtime r) in
reject? negb (bool_decide (ir_features r = FEATURES))
with "initialize result features do not match the current protocol" in
ProtocolLimits_validate (ir_limits r).
End Handshake.

(** ** Projection and catalog *)

Inductive Idempotency := IdemUnknown | Idempotent | NonIdempotent.
Inductive CatalogFreshness := Current | Cached.

Inductive ProjectionSectionKind :=
| Tools | Resources | Attachments | Transcript | Models
| UserInteraction | Agents | Roots | Permissions | Telemetry.

#[export] Instance ProjectionSectionKind_eq_dec : EqDecision ProjectionSectionKind.
Proof. solve_decision. Defined.

Definition ALL_SECTIONS : list ProjectionSectionKind :=
  [Tools; Resources; Attachments; Transcript; Models;
   UserInteraction; Agents; Roots; Permissions; Telemetry].

Inductive SessionBindingLevel := BindingNone | PromptAssisted | Authenticated.

Record ProjectionSection := {
  ps_kind : ProjectionSectionKind; ps_source : string; ps_source_revision : string;
  ps_observed_at_unix_ms : Z; ps_freshness : CatalogFreshness; ps_complete : bool;
  ps_item_count : Z }.

Definition ProjectionSection_validate (s : ProjectionSection) : result ProtocolError unit :=
  try? validate_opaque (ps_source s) "projection section source" in
  try? validate_opaque (ps_source_revision s) "projection section source revision" in
  reject? ps_observed_at_unix_ms s =? 0
    with "projection section observation time is zero" in
  reject? 1048576 <? ps_item_count s
    with "projection section item count exceeds the limit" in Ok tt.

Record HostProjectionSetParams := {
  hp_profile : string; hp_projection_id : string; hp_host : PeerInfo;
  hp_session_binding : SessionBindingLevel; hp_sections : list ProjectionSection }.

Record HostProjectionSetResult := {
  hpr_projection_digest : string; hpr_projection : HostProjectionSetParams }.

Record CatalogMetadata := {
  cm_source : string; cm_source_revision : string; cm_observed_at_unix_ms : Z;
  cm_freshness : CatalogFreshness; cm_complete : bool }.

Definition CatalogMetadata_validate (m : CatalogMetadata) : result ProtocolError unit :=
  try? validate_opaque (cm_source m) "catalog source" in
  try? validate_opaque (cm_source_revision m) "catalog source revision" in
  reject? cm_observed_at_unix_ms m =? 0 with "catalog observation time is zero" in Ok tt.

Definition CatalogMetadata_complete (source source_revision : string) (observed : Z)
    : CatalogMetadata :=
  {| cm_source := source; cm_source_revision := source_revision;
     cm_observed_at_unix_ms := observed; cm_freshness := Current; cm_complete := true |}.

Record CatalogTool := {
  ct_name : string; ct_version : string; ct_description : string;
  ct_input_schema : Json; ct_output_schema : Json; ct_error_schema : Json;
  ct_effects : list string; ct_idempotency : Idempotency }.

Record CatalogSetParams := {
  cs_schema_dialect : string; cs_metadata : CatalogMetadata; cs_tools : list CatalogTool }.

Record CatalogToolSummary := { cts_name : string; cts_version : string; cts_description : string }.

Record CatalogSetResult := {
  csr_catalog_digest : string; csr_schema_profile : string; csr_tool_count : Z;
  csr_metadata : CatalogMetadata; csr_tools : list CatalogToolSummary }.

(** [section]: the first section of a kind; [None] is the [expect] panic. *)
Definition hp_section (p : HostProjectionSetParams) (kind : ProjectionSectionKind)
    : option ProjectionSection :=
  List.find (λ s, bool_decide (ps_kind s = kind)) (hp_sections p).

Definition complete_for_catalog (projection_id : string) (host : PeerInfo)
    (binding : SessionBindingLevel) (catalog : CatalogSetParams) : HostProjectionSetParams :=
  {| hp_profile := HOST_PROJECTION_PROFILE;
     hp_projection_id := projection_id;
     hp_host := host;
     hp_session_binding := binding;
     hp_sections :=
       map (λ kind,
         {| ps_kind := kind;
            ps_source := cm_source (cs_metadata catalog);
            ps_source_revision := cm_source_revision (cs_metadata catalog);
            ps_observed_at_unix_ms := cm_observed_at_unix_ms (cs_metadata catalog);
            ps_freshness := cm_freshness (cs_metadata catalog);
            ps_complete := true;
            ps_item_count :=
              if bool_decide (kind = Tools)
              then Z.min (Z.of_nat (length (cs_tools catalog))) u64_max else 0 |}) ALL_SECTIONS |}.

Section Catalog.
Context `{PayloadDeps}.

Definition section_check (se : ProjectionSection * ProjectionSectionKind)
: result ProtocolError unit :=
reject? negb (bool_decide (ps_kind se.1 = se.2))
with "host projection sections are not in canonical order" in
try? ProjectionSection_validate se.1 in
reject? negb (ps_complete se.1) with "host projection section is incomplete" in Ok tt.

Definition HostProjectionSetParams_validate (p : HostProjectionSetParams)
: result ProtocolError unit :=
reject? negb (String.eqb (hp_profile p) HOST_PROJECTION_PROFILE)
with "host projection profile is invalid" in
try? validate_opaque (hp_projection_id p) "projection ID" in
try? PeerInfo_validate (hp_host p) in
reject? negb (length (hp_sections p) =? length ALL_SECTIONS)%nat
with "host projection must contain every canonical section" in
for_each section_check (zip (hp_sections p) ALL_SECTIONS).

Definition HostProjectionSetResult_validate (r : HostProjectionSetResult)
: result ProtocolError unit :=
try? validate_digest (hpr_projection_digest r) in
HostProjectionSetParams_validate (hpr_projection r).

Definition CatalogTool_validate (t : CatalogTool) : result ProtocolError unit :=
try? validate_tool_name (ct_name t) in
try? validate_semver (ct_version t) in
try? validate_description (ct_description t) in
reject? (32 <? length (ct_effects t))%nat with "tool has more than 32 effects" in
try? validate_sorted_unique (ct_effects t) "tool effects" in
for_each validate_effect (ct_effects t).

Definition CatalogSetParams_validate (p : CatalogSetParams) : result ProtocolError unit :=
reject? negb (String.eqb (cs_schema_dialect p) SCHEMA_DIALECT)
with "catalog schema dialect is invalid" in
try? CatalogMetadata_validate (cs_metadata p) in
try? validate_sorted_unique (map ct_name (cs_tools p)) "catalog tools" in
for_each CatalogTool_validate (cs_tools p).

Definition CatalogToolSummary_validate (t : CatalogToolSummary) : result ProtocolError unit :=
try? validate_tool_name (cts_name t) in
try? validate_semver (cts_version t) in
validate_description (cts_description t).

Definition CatalogSetResult_validate (r : CatalogSetResult) : result ProtocolError unit :=
try? validate_digest (csr_catalog_digest r) in
reject? negb (String.eqb (csr_schema_profile r) SCHEMA_PROFILE)
with "catalog result schema profile is invalid" in
try? CatalogMetadata_validate (csr_metadata r) in
reject? negb (cm_complete (csr_metadata r)) with "successful catalog result is incomplete" in
reject? negb (csr_tool_count r =? Z.of_nat (length (csr_tools r)))
with "catalog result tool count does not match tools" in
try? validate_sorted_unique (map cts_name (csr_tools r)) "catalog result tools" in
for_each CatalogToolSummary_validate (csr_tools r).
End Catalog.

(** ** Programs and executions *)

Inductive FileEncoding := Utf8 | Base64.
Record SourceFile := { sf_path : string; sf_encoding : FileEncoding; sf_content : string }.

Inductive ProgramLoadParams :=
| SourceBundle (files : list SourceFile)
| Bytecode (artifact : string).

Record EntryContract := {
  ec_name : string; ec_input_schema : string; ec_output_schema : string;
  ec_input_contract_digest : string; ec_output_contract_digest : string }.

Definition EntryContract_validate (e : EntryContract) : result ProtocolError unit :=
  reject? str_is_empty (ec_name e) with "entry name is empty" in
  try? validate_digest (ec_input_schema e) in
  try? validate_digest (ec_output_schema e) in
  try? validate_digest (ec_input_contract_digest e) in
  validate_digest (ec_output_contract_digest e).

Record DiagnosticSpan := { ds_uri : string; ds_start : Z; ds_end : Z }.
Record DiagnosticLabelSpan := { dls_start : Z; dls_end : Z }.
Record DiagnosticLabel := { dl_span : DiagnosticLabelSpan; dl_message : string }.
Inductive DiagnosticSeverity := SevError | SevWarning.
Record CompilerDiagnostic := {
  cd_code : string; cd_severity : DiagnosticSeverity; cd_message : string;
  cd_primary : DiagnosticSpan; cd_labels : list DiagnosticLabel; cd_notes : list string;
  cd_help : option string }.

Record ProgramLoadResult := {
  pl_program_id : string; pl_artifact_digest : string; pl_tool_contract_digest : string;
  pl_diagnostics : list CompilerDiagnostic; pl_entries : list EntryContract;
  pl_required_tools : list string; pl_exec_commands : list string;
  pl_exec_environment : list string }.

Definition ProgramLoadResult_validate (r : ProgramLoadResult) : result ProtocolError unit :=
  reject? str_is_empty (pl_program_id r) || (64 <? str_len (pl_program_id r))
    with "program_id is invalid" in
  try? validate_digest (pl_artifact_digest r) in
  try? validate_digest (pl_tool_contract_digest r) in
  reject? match pl_diagnostics r with [] => false | _ => true end
    with "successful load diagnostics must be empty" in
  try? validate_sorted_unique (map ec_name (pl_entries r)) "entries" in
  try? for_each EntryContract_validate (pl_entries r) in
  try? validate_sorted_unique (pl_required_tools r) "required_tools" in
  try? for_each validate_tool_name (pl_required_tools r) in
  try? validate_sorted_unique (pl_exec_commands r) "exec_commands" in
  try? for_each validate_exec_pattern (pl_exec_commands r) in
  try? validate_sorted_unique (pl_exec_environment r) "exec_environment" in
  for_each validate_exec_environment_name (pl_exec_environment r).

Record ExecutionStartParams := {
  es_execution_id : string; es_program_id : string; es_artifact_digest : string;
  es_entry : string; es_input : Json; es_working_directory : option string;
  es_granted_capabilities : list string; es_granted_tools : list string;
  es_allowed_http_origins : list string; es_granted_exec : list string;
  es_granted_exec_environment : list string; es_limits : list (string * Z) }.

Record ProtocolRuntimeError := {
  pre_code : string; pre_message : string; pre_category : string; pre_retryable : bool;
  pre_span : option Json; pre_operation_id : option string;
  pre_metadata : list (string * Json); pre_causes : list Json }.

Definition ProtocolRuntimeError_validate (e : ProtocolRuntimeError) : result ProtocolError unit :=
  reject? str_is_empty (pre_code e) || (1024 <? str_len (pre_message e))
    with "runtime error has invalid safe text" in Ok tt.

Inductive ExecutionResult :=
| ExCompleted (output : Json)
| ExStopped (reason : option string)
| ExFailed (error : ProtocolRuntimeError)
| ExCancelled (reason : option string).

Definition ExecutionResult_validate (r : ExecutionResult) : result ProtocolError unit :=
  match r with
  | ExStopped reason | ExCancelled reason =>
    match reason with Some reason => validate_reason reason | None => Ok tt end
  | ExFailed error => ProtocolRuntimeError_validate error
  | ExCompleted _ => Ok tt
  end.

Record ToolInvokeParams := {
  ti_execution_id : string; ti_operation_id : string; ti_tool : string;
  ti_tool_version : string; ti_catalog_digest : string; ti_input_schema : string;
  ti_output_schema : string; ti_error_schema : string; ti_input : Json; ti_deadline_ms : Z }.

Inductive ToolInvokeResult := ToolOk (value : Json) | ToolError (error : Json).

Section Programs.
Context `{PayloadDeps}.

Definition source_file_check (file : SourceFile) : result ProtocolError unit :=
try? validate_path (sf_path file) in
let must_be_utf8 :=
String.eqb (sf_path file) "allen.toml" || String.eqb (sf_path file) "allen.lock"
|| ends_with ".allen" (sf_path file) in
match sf_encoding file with
| Utf8 => if must_be_utf8 then Ok tt
        else Err (invalid "source file encoding does not match its path")
| Base64 => if must_be_utf8
          then Err (invalid "source file encoding does not match its path")
          else validate_base64 (sf_content file)
end.

Definition validate_source_files (files : list SourceFile) : result ProtocolError unit :=
reject? negb (between 1 1024 (Z.of_nat (length files)))
with "source bundle file count is invalid" in
let paths := map sf_path files in
try? validate_sorted_unique paths "source bundle paths" in
let loose_source := bool_decide (paths = ["src/main.allen"]) in
let manifest_count := length (List.filter (λ p, String.eqb p "allen.toml") paths) in
reject? negb loose_source && negb (manifest_count =? 1)%nat
with "source bundle must contain one root allen.toml or one loose src/main.allen" in
for_each source_file_check files.

Definition ProgramLoadParams_validate (p : ProgramLoadParams) : result ProtocolError unit :=
match p with
| SourceBundle files => validate_source_files files
| Bytecode artifact => validate_base64 artifact
end.

Definition ExecutionStartParams_validate (p : ExecutionStartParams)
: result ProtocolError unit :=
try? validate_opaque (es_execution_id p) "execution_id" in
try? validate_opaque (es_program_id p) "program_id" in
try? validate_digest (es_artifact_digest p) in
reject? str_is_empty (es_entry p) with "execution entry is empty" in
reject? match es_working_directory p with Some d => str_is_empty d | None => false end
with "working_directory cannot be empty" in
try? validate_sorted_unique (es_granted_capabilities p) "granted_capabilities" in
try? capabilities_check (es_granted_capabilities p)
     "granted capability is not implemented" in
try? validate_sorted_unique (es_granted_tools p) "granted_tools" in
try? for_each validate_tool_name (es_granted_tools p) in
try? validate_sorted_unique (es_allowed_http_origins p) "allowed_http_origins" in
try? for_each validate_https_origin (es_allowed_http_origins p) in
try? validate_sorted_unique (es_granted_exec p) "granted_exec" in
try? for_each validate_exec_pattern (es_granted_exec p) in
try? validate_sorted_unique (es_granted_exec_environment p) "granted_exec_environment" in
try? for_each validate_exec_environment_name (es_granted_exec_environment p) in
limits_check (es_limits p) "execution limit is unknown or zero".

Definition ToolInvokeParams_validate (p : ToolInvokeParams) : result ProtocolError unit :=
try? validate_opaque (ti_execution_id p) "execution_id" in
try? validate_opaque (ti_operation_id p) "operation_id" in
try? validate_tool_name (ti_tool p) in
try? validate_semver (ti_tool_version p) in
try? validate_digest (ti_catalog_digest p) in
try? validate_digest (ti_input_schema p) in
try? validate_digest (ti_output_schema p) in
try? validate_digest (ti_error_schema p) in
reject? ti_deadline_ms p =? 0 with "tool deadline must be positive" in Ok tt.
End Programs.

(** ** Agent, model, user and sub-agent operations *)

Definition validate_unbound_operation (execution_id operation_id : string) (deadline_ms : Z)
    : result ProtocolError unit :=
  try? validate_opaque execution_id "execution_id" in
  try? validate_opaque operation_id "operation_id" in
  reject? deadline_ms =? 0 with "operation deadline must be positive" in Ok tt.

Definition validate_bound_operation (execution_id operation_id session_id : string)
    (deadline_ms : Z) : result ProtocolError unit :=
  try? validate_opaque execution_id "execution_id" in
  try? validate_opaque operation_id "operation_id" in
  try? validate_session_id session_id in
  reject? deadline_ms =? 0 with "operation deadline must be positive" in Ok tt.

Record AgentMessageParams := {
  am_execution_id : string; am_operation_id : string; am_session_id : string;
  am_message : string; am_deadline_ms : Z }.

Definition AgentMessageParams_validate (p : AgentMessageParams) : result ProtocolError unit :=
  validate_bound_operation (am_execution_id p) (am_operation_id p) (am_session_id p)
    (am_deadline_ms p).

Record AgentMessageResult := { amr_accepted : bool }.

Definition AgentMessageResult_validate (r : AgentMessageResult) : result ProtocolError unit :=
  reject? negb (amr_accepted r)
    with "agent message result must acknowledge acceptance" in Ok tt.

Inductive PromptSegmentPayload := SegNone | SegSome (value : Json).

Definition PromptSegment_from_option (v : option Json) : PromptSegmentPayload :=
  match v with None => SegNone | Some v => SegSome v end.
Definition PromptSegment_as_option (p : PromptSegmentPayload) : option Json :=
  match p with SegNone => None | SegSome v => Some v end.

Record PromptPolicy := { pp_max_attempts : Z }.

Definition PromptPolicy_validate (p : PromptPolicy) : result ProtocolError unit :=
  reject? negb (between 1 3 (pp_max_attempts p))
    with "prompt max_attempts must be 1 through 3" in Ok tt.

Record StructuredPromptPayload := {
  sp_system : string; sp_context : PromptSegmentPayload; sp_data : PromptSegmentPayload;
  sp_policy : PromptPolicy }.

Definition StructuredPromptPayload_validate (p : StructuredPromptPayload)
    : result ProtocolError unit :=
  reject? str_is_empty (sp_system p) || (65536 <? str_len (sp_system p))
    with "prompt system must be 1 through 65536 UTF-8 bytes" in
  PromptPolicy_validate (sp_policy p).

Record ResponseSchemaPayload := { rs_digest : string; rs_descriptor : Json }.

Definition ResponseSchemaPayload_validate (p : ResponseSchemaPayload)
    : result ProtocolError unit :=
  try? validate_digest (rs_digest p) in
  reject? negb (is_object (rs_descriptor p))
    with "response schema descriptor must be an object" in Ok tt.

Record ValidationIssuePayload := { vi_path : string; vi_code : string }.

Definition ValidationIssuePayload_validate (p : ValidationIssuePayload)
    : result ProtocolError unit :=
  reject? (1024 <? str_len (vi_path p))
          || (negb (starts_with "/" (vi_path p)) && negb (str_is_empty (vi_path p)))
    with "validation issue path is invalid" in
  reject? str_is_empty (vi_code p) || (128 <? str_len (vi_code p)) || has_control (vi_code p)
    with "validation issue code is invalid" in Ok tt.

Definition validate_typed_response_request (interaction_id : string)
    (prompt : StructuredPromptPayload) (response_schema : ResponseSchemaPayload)
    (attempt : Z) (validation_issues : list ValidationIssuePayload)
    : result ProtocolError unit :=
  try? validate_opaque interaction_id "interaction_id" in
  try? StructuredPromptPayload_validate prompt in
  try? ResponseSchemaPayload_validate response_schema in
  reject? (attempt =? 0) || (pp_max_attempts (sp_policy prompt) <? attempt)
    with "response attempt exceeds prompt policy" in
  reject? (16 <? length validation_issues)%nat
          || ((attempt =? 1) && match validation_issues with [] => false | _ => true end)
    with "response validation issues do not match attempt" in
  for_each ValidationIssuePayload_validate validation_issues.

Record AgentAskParams := {
  aa_execution_id : string; aa_operation_id : string; aa_session_id : string;
  aa_interaction_id : string; aa_prompt : StructuredPromptPayload;
  aa_response_schema : ResponseSchemaPayload; aa_attempt : Z;
  aa_validation_issues : list ValidationIssuePayload; aa_deadline_ms : Z }.

Definition AgentAskParams_validate (p : AgentAskParams) : result ProtocolError unit :=
  try? validate_bound_operation (aa_execution_id p) (aa_operation_id p) (aa_session_id p)
         (aa_deadline_ms p) in
  validate_typed_response_request (aa_interaction_id p) (aa_prompt p) (aa_response_schema p)
    (aa_attempt p) (aa_validation_issues p).

Record ModelRequestParams := {
  mr_execution_id : string; mr_operation_id : string; mr_interaction_id : string;
  mr_prompt : StructuredPromptPayload; mr_response_schema : ResponseSchemaPayload;
  mr_attempt : Z; mr_validation_issues : list ValidationIssuePayload; mr_deadline_ms : Z }.

Definition ModelRequestParams_validate (p : ModelRequestParams) : result ProtocolError unit :=
  try? validate_unbound_operation (mr_execution_id p) (mr_operation_id p) (mr_deadline_ms p) in
  validate_typed_response_request (mr_interaction_id p) (mr_prompt p) (mr_response_schema p)
    (mr_attempt p) (mr_validation_issues p).

Record UserAskParams := {
  ua_execution_id : string; ua_operation_id : string; ua_interaction_id : string;
  ua_prompt : StructuredPromptPayload; ua_response_schema : ResponseSchemaPayload;
  ua_attempt : Z; ua_validation_issues : list ValidationIssuePayload; ua_deadline_ms : Z }.

Definition UserAskParams_validate (p : UserAskParams) : result ProtocolError unit :=
  try? validate_unbound_operation (ua_execution_id p) (ua_operation_id p) (ua_deadline_ms p) in
  validate_typed_response_request (ua_interaction_id p) (ua_prompt p) (ua_response_schema p)
    (ua_attempt p) (ua_validation_issues p).

Record SubAgentProjectionPayload := {
  sap_capabilities : list string; sap_limits : list (string * Z); sap_tools : list string }.

Definition SubAgentProjectionPayload_validate (p : SubAgentProjectionPayload)
    : result ProtocolError unit :=
  try? validate_sorted_unique (sap_capabilities p) "sub-agent capabilities" in
  try? capabilities_check (sap_capabilities p) "sub-agent capability is not implemented" in
  try? limits_check (sap_limits p) "sub-agent limit is unknown or zero" in
  try? validate_sorted_unique (sap_tools p) "sub-agent tools" in
  for_each validate_tool_name (sap_tools p).

Record SubAgentCreateParams := {
  sac_execution_id : string; sac_operation_id : string; sac_prompt : StructuredPromptPayload;
  sac_projection : SubAgentProjectionPayload; sac_deadline_ms : Z }.

Definition SubAgentCreateParams_validate (p : SubAgentCreateParams) : result ProtocolError unit :=
  try? validate_unbound_operation (sac_execution_id p) (sac_operation_id p)
         (sac_deadline_ms p) in
  try? StructuredPromptPayload_validate (sac_prompt p) in
  SubAgentProjectionPayload_validate (sac_projection p).

Record SubAgentRunParams := {
  sar_execution_id : string; sar_operation_id : string; sar_interaction_id : string;
  sar_prompt : StructuredPromptPayload; sar_projection : SubAgentProjectionPayload;
  sar_response_schema : ResponseSchemaPayload; sar_attempt : Z;
  sar_validation_issues : list ValidationIssuePayload; sar_deadline_ms : Z }.

Definition SubAgentRunParams_validate (p : SubAgentRunParams) : result ProtocolError unit :=
  try? validate_unbound_operation (sar_execution_id p) (sar_operation_id p)
         (sar_deadline_ms p) in
  try? SubAgentProjectionPayload_validate (sar_projection p) in
  validate_typed_response_request (sar_interaction_id p) (sar_prompt p)
    (sar_response_schema p) (sar_attempt p) (sar_validation_issues p).

Record SubAgentMessageParams := {
  sam_execution_id : string; sam_operation_id : string; sam_sub_agent_id : string;
  sam_message : string; sam_deadline_ms : Z }.

Definition SubAgentMessageParams_validate (p : SubAgentMessageParams)
    : result ProtocolError unit :=
  try? validate_unbound_operation (sam_execution_id p) (sam_operation_id p)
         (sam_deadline_ms p) in
  try? validate_ascii_id (sam_sub_agent_id p) "sub_agent_id" 128 in
  reject? 1048576 <? str_len (sam_message p)
    with "sub-agent message exceeds its byte limit" in Ok tt.

Record SubAgentAskParams := {
  saa_execution_id : string; saa_operation_id : string; saa_sub_agent_id : string;
  saa_interaction_id : string; saa_prompt : StructuredPromptPayload;
  saa_response_schema : ResponseSchemaPayload; saa_attempt : Z;
  saa_validation_issues : list ValidationIssuePayload; saa_deadline_ms : Z }.

Definition SubAgentAskParams_validate (p : SubAgentAskParams) : result ProtocolError unit :=
  try? validate_unbound_operation (saa_execution_id p) (saa_operation_id p)
         (saa_deadline_ms p) in
  try? validate_ascii_id (saa_sub_agent_id p) "sub_agent_id" 128 in
  validate_typed_response_request (saa_interaction_id p) (saa_prompt p)
    (saa_response_schema p) (saa_attempt p) (saa_validation_issues p).

Record SubAgentCreateResult := { sacr_sub_agent_id : string }.

Definition SubAgentCreateResult_validate (r : SubAgentCreateResult) : result ProtocolError unit :=
  validate_ascii_id (sacr_sub_agent_id r) "sub_agent_id" 128.

(** ** Transcripts *)

Record AgentTranscriptParams := {
  at_execution_id : string; at_operation_id : string; at_session_id : string;
  at_limit : Z; at_deadline_ms : Z }.

Definition AgentTranscriptParams_validate (p : AgentTranscriptParams)
    : result ProtocolError unit :=
  try? validate_bound_operation (at_execution_id p) (at_operation_id p) (at_session_id p)
         (at_deadline_ms p) in
  reject? negb (between 1 100 (at_limit p))
    with "transcript limit must be 1 through 100" in Ok tt.

Inductive TranscriptRole := RoleUser | RoleAssistant | RoleSystemVisible | RoleTool.

Inductive TranscriptPart :=
| PartText (text : string)
| PartJson (value : Json)
| PartToolCall (name call_id : string) (input : option Json)
| PartToolResult (call_id : string) (output : option Json) (is_error : bool)
| PartAttachment (media_type : string) (name content_ref : option string)
| PartRedacted (reason_code : string)
| PartOmitted (content_kind : string) (count : Z).

Definition optional_check {A} (f : A → result ProtocolError unit) (o : option A)
    : result ProtocolError unit :=
  match o with Some a => f a | None => Ok tt end.

Definition TranscriptPart_validate (p : TranscriptPart) : result ProtocolError unit :=
  match p with
  | PartText _ | PartJson _ => Ok tt
  | PartToolCall name call_id _ =>
    try? validate_transcript_text name "tool name" false in
    validate_transcript_text call_id "tool call ID" false
  | PartToolResult call_id _ _ => validate_transcript_text call_id "tool call ID" false
  | PartAttachment media_type name content_ref =>
    try? validate_transcript_text media_type "attachment media type" false in
    try? optional_check (λ n, validate_transcript_text n "attachment name" true) name in
    optional_check (λ r, validate_transcript_text r "attachment content reference" true)
      content_ref
  | PartRedacted reason_code => validate_safe_code reason_code "redaction reason code"
  | PartOmitted content_kind count =>
    try? validate_safe_code content_kind "omitted content kind" in
    reject? count =? 0 with "omitted content count must be positive" in Ok tt
  end.

Record TranscriptMessage := {
  tm_id : option string; tm_role : TranscriptRole; tm_time : option string;
  tm_content : list TranscriptPart }.

Definition TranscriptMessage_validate (m : TranscriptMessage) : result ProtocolError unit :=
  try? optional_check (λ i, validate_transcript_text i "transcript message id" false)
         (tm_id m) in
  try? optional_check validate_timestamp (tm_time m) in
  for_each TranscriptPart_validate (tm_content m).

Record TranscriptSnapshot := {
  tsn_snapshot_id : string; tsn_session_id : string; tsn_policy_version : string;
  tsn_captured_at : string; tsn_truncated : bool; tsn_messages : list TranscriptMessage }.

(** One iteration of the message loop; [previous] is [previous_time]. *)
Definition snapshot_message (previous : option TimestampKey) (m : TranscriptMessage)
    : result ProtocolError (option TimestampKey) :=
  try? TranscriptMessage_validate m in
  match tm_time m with
  | None => Ok previous
  | Some time =>
    let? key := timestamp_key time in
    reject? match previous with Some p => TimestampKey_gtb p key | None => false end
      with "transcript messages are not oldest first" in Ok (Some key)
  end.

Definition TranscriptSnapshot_validate (s : TranscriptSnapshot) : result ProtocolError unit :=
  try? validate_transcript_text (tsn_snapshot_id s) "snapshot_id" false in
  try? validate_session_id (tsn_session_id s) in
  try? validate_transcript_text (tsn_policy_version s) "policy_version" false in
  try? validate_timestamp (tsn_captured_at s) in
  reject? (100 <? length (tsn_messages s))%nat
    with "transcript has more than 100 messages" in
  let? _last := try_fold snapshot_message None (tsn_messages s) in Ok tt.

Record AgentTranscriptResult := { atr_snapshot : TranscriptSnapshot }.

Definition AgentTranscriptResult_validate (r : AgentTranscriptResult)
    : result ProtocolError unit := TranscriptSnapshot_validate (atr_snapshot r).

Definition AgentTranscriptResult_validate_for (r : AgentTranscriptResult)
    (session_id : string) (limit : Z) : result ProtocolError unit :=
  try? AgentTranscriptResult_validate r in
  reject? negb (String.eqb (tsn_session_id (atr_snapshot r)) session_id)
          || (limit <? Z.of_nat (length (tsn_messages (atr_snapshot r))))
    with "transcript snapshot does not match its bound request" in Ok tt.

(** ** Permissions *)

Inductive GrantDuration := GrantExecution.

#[export] Instance GrantDuration_eq_dec : EqDecision GrantDuration.
Proof. solve_decision. Defined.

Record PermissionRequestParams := {
  pr_execution_id : string; pr_operation_id : string; pr_session_id : string;
  pr_pending_target_id : string; pr_kind : PermissionTargetKind; pr_path : string;
  pr_rights : list PermissionRight; pr_recursive : bool; pr_max_bytes : Z;
  pr_duration : GrantDuration; pr_reason : string }.

Definition PermissionRequestParams_validate (p : PermissionRequestParams)
    : result ProtocolError unit :=
  try? validate_opaque (pr_execution_id p) "execution_id" in
  try? validate_opaque (pr_operation_id p) "operation_id" in
  try? validate_session_id (pr_session_id p) in
  try? validate_opaque (pr_pending_target_id p) "pending_target_id" in
  try? validate_permission_scope (pr_path p) (pr_rights p) (pr_recursive p) (pr_max_bytes p)
         (pr_kind p) in
  reject? (1024 <? str_len (pr_reason p)) || has_control (pr_reason p)
    with "permission reason is invalid" in Ok tt.

Inductive PermissionRequestResult :=
| Allow (grant_id path : string) (rights : list PermissionRight) (recursive : bool)
        (max_bytes : Z) (duration : GrantDuration)
| Deny (reason_code : string).

Definition PermissionRequestResult_validate (r : PermissionRequestResult)
    : result ProtocolError unit :=
  match r with
  | Allow grant_id path rights _ max_bytes _ =>
    try? validate_ascii_id grant_id "grant_id" 128 in
    validate_permission_values path rights max_bytes
  | Deny reason_code => validate_safe_code reason_code "permission denial reason code"
  end.

Definition PermissionRequestResult_validate_for (r : PermissionRequestResult)
    (request : PermissionRequestParams) : result ProtocolError unit :=
  try? PermissionRequestResult_validate r in
  match r with
  | Deny _ => Ok tt
  | Allow _ path rights recursive max_bytes duration =>
    let path_is_allowed :=
      match pr_kind request with
      | File => String.eqb path (pr_path request)
      | Directory => path_starts_with path (pr_path request)
      end in
    reject? negb path_is_allowed
            || existsb (λ right, negb (bool_decide (right ∈ pr_rights request))) rights
            || (recursive && negb (pr_recursive request))
            || (pr_max_bytes request <? max_bytes)
            || negb (bool_decide (duration = pr_duration request))
            || (bool_decide (pr_kind request = File)
                && (recursive || bool_decide (RList ∈ rights)))
      with "permission decision broadens the retained request" in Ok tt
  end.

Record PermissionRevokeParams := {
  prv_execution_id : string; prv_session_id : string; prv_grant_id : string }.

Definition PermissionRevokeParams_validate (p : PermissionRevokeParams)
    : result ProtocolError unit :=
  try? validate_opaque (prv_execution_id p) "execution_id" in
  try? validate_session_id (prv_session_id p) in
  validate_ascii_id (prv_grant_id p) "grant_id" 128.

(** ** Execution events *)

Inductive EventKind :=
| Accepted | Started | EffectStarted | EffectCompleted | EffectFailed | TaskStarted
| TaskCancelled | BudgetWarning | PermissionDecision | Stopped | Completed | Failed
| Cancelled.

#[export] Instance EventKind_eq_dec : EqDecision EventKind.
Proof. solve_decision. Defined.

Definition EventKind_is_terminal (k : EventKind) : bool :=
  match k with Stopped | Completed | Failed | Cancelled => true | _ => false end.

Definition field_names (k : EventKind) : list string :=
  match k with
  | Accepted => ["artifact_digest"; "catalog_digest"; "entry"; "program_id"]
  | EffectStarted | EffectCompleted | EffectFailed => ["effect"; "operation_id"; "schema_digest"]
  | TaskStarted | TaskCancelled => ["owner_task_id"; "task_id"]
  | BudgetWarning => ["limit"; "resource"; "used"]
  | PermissionDecision => ["decision"; "operation_id"; "reason_code"]
  | Started | Stopped | Completed | Failed | Cancelled => []
  end.

Record ExecutionEventParams := {
  ee_execution_id : string; ee_sequence : Z; ee_elapsed_ms : Z; ee_kind : EventKind;
  ee_replayed : bool; ee_fields : list (string * Json) }.

(** The loop body for one expected field; [self.fields[field]] is total because
    the keys were compared with the expected list first. *)
Definition event_field_check (fields : list (string * Json)) (field : string)
    : result ProtocolError unit :=
  match btree_get field fields with
  | None => Err (Io "panic: no entry found for key")
  | Some value =>
    let valid :=
      if str_in field ["task_id"; "owner_task_id"; "used"; "limit"]
      then bool_decide (is_Some (as_u64 value)) else bool_decide (is_Some (as_str value)) in
    let text := default "" (as_str value) in
    reject? negb valid with "event field has the wrong type" in
    try? (if str_in field ["artifact_digest"; "catalog_digest"; "schema_digest"]
          then validate_digest text else Ok tt) in
    reject? String.eqb field "decision"
            && negb (String.eqb text "allow" || String.eqb text "deny")
      with "permission decision is invalid" in
    if String.eqb field "reason_code"
    then validate_safe_code text "permission decision reason code" else Ok tt
  end.

Definition ExecutionEventParams_validate (e : ExecutionEventParams) : result ProtocolError unit :=
  try? validate_opaque (ee_execution_id e) "execution_id" in
  reject? ee_sequence e =? 0 with "event sequence must be positive" in
  let expected := field_names (ee_kind e) in
  reject? negb (length (ee_fields e) =? length expected)%nat
          || negb (bool_decide (map fst (ee_fields e) = expected))
    with "event fields do not match the event kind" in
  for_each (event_field_check (ee_fields e)) expected.

Record EventSequenceTracker := {
  est_execution_id : string; est_next_sequence : Z; est_last_elapsed_ms : Z;
  est_terminal : bool }.

Definition EventSequenceTracker_new (execution_id : string) : EventSequenceTracker :=
  {| est_execution_id := execution_id; est_next_sequence := 1; est_last_elapsed_ms := 0;
     est_terminal := false |}.

(** [record]: an error leaves the tracker as it was. *)
Definition EventSequenceTracker_record (t : EventSequenceTracker) (e : ExecutionEventParams)
    : result ProtocolError EventSequenceTracker :=
  try? ExecutionEventParams_validate e in
  reject? est_terminal t || negb (String.eqb (ee_execution_id e) (est_execution_id t))
          || negb (ee_sequence e =? est_next_sequence t)
          || (ee_elapsed_ms e <? est_last_elapsed_ms t)
    with "event stream ordering is invalid" in
  let? next := ok_or (u64_checked_add (est_next_sequence t) 1)
                 (invalid "event sequence overflowed") in
  Ok {| est_execution_id := est_execution_id t; est_next_sequence := next;
        est_last_elapsed_ms := ee_elapsed_ms e;
        est_terminal := EventKind_is_terminal (ee_kind e) |}.

(** ** Typed extraction *)

(** serde's deserializer for [T], outside the repository. *)
Class FromValue (T : Type) := from_value : Json → result string T.
(** The [Validate] trait. *)
Class Validate (T : Type) := validate : T → result ProtocolError unit.

Section Extract.
Context {T : Type} `{FromValue T, Validate T}.

Definition checked_value (v : Json) : result ProtocolError T :=
let? params := map_err invalid (from_value v) in
try? validate params in Ok params.

Definition request_params (m : WireMessage) (expected_method : string)
: result ProtocolError T :=
match m with
| Request _ method params =>
reject? negb (String.eqb method expected_method)
  with ("expected method '" ++ expected_method ++ "'")%string in
checked_value params
| _ => Err (invalid "expected a request")
end.

Definition notification_params (m : WireMessage) (expected_method : string)
: result ProtocolError T :=
match m with
| Notification method params =>
reject? negb (String.eqb method expected_method)
  with ("expected method '" ++ expected_method ++ "'")%string in
checked_value params
| _ => Err (invalid "expected a notification")
end.

Definition response_result (m : WireMessage) : result ProtocolError T :=
match m with
| Response _ (Some res) None => checked_value res
| _ => Err (invalid "expected a successful response")
end.
End Extract.

#[export] Instance AgentMessageParams_Validate : Validate AgentMessageParams :=
  AgentMessageParams_validate.
#[export] Instance AgentAskParams_Validate : Validate AgentAskParams := AgentAskParams_validate.
#[export] Instance AgentTranscriptParams_Validate : Validate AgentTranscriptParams :=
  AgentTranscriptParams_validate.
#[export] Instance PermissionRequestParams_Validate : Validate PermissionRequestParams :=
  PermissionRequestParams_validate.
#[export] Instance ModelRequestParams_Validate : Validate ModelRequestParams :=
  ModelRequestParams_validate.
#[export] Instance UserAskParams_Validate : Validate UserAskParams := UserAskParams_validate.
#[export] Instance SubAgentCreateParams_Validate : Validate SubAgentCreateParams :=
  SubAgentCreateParams_validate.
#[export] Instance SubAgentRunParams_Validate : Validate SubAgentRunParams :=
  SubAgentRunParams_validate.
#[export] Instance SubAgentMessageParams_Validate : Validate SubAgentMessageParams :=
  SubAgentMessageParams_validate.
#[export] Instance SubAgentAskParams_Validate : Validate SubAgentAskParams :=
  SubAgentAskParams_validate.
#[export] Instance PermissionRevokeParams_Validate : Validate PermissionRevokeParams :=
  PermissionRevokeParams_validate.
#[export] Instance ExecutionEventParams_Validate : Validate ExecutionEventParams :=
  ExecutionEventParams_validate.

(** ** Lemmas *)

Lemma TimestampKey_gtb_trans a b c :
  TimestampKey_gtb a b = false → TimestampKey_gtb b c = false → TimestampKey_gtb a c = false.
Proof.
  unfold TimestampKey_gtb.
  set (x := TimestampKey_fields a). set (y := TimestampKey_fields b).
  set (z := TimestampKey_fields c).
  destruct (bytes_compare x y) eqn:Exy; try done; intros _;
    destruct (bytes_compare y z) eqn:Eyz; try done; intros _.
  - apply bytes_compare_eq in Exy, Eyz. subst x y. rewrite Exy, Eyz.
    by rewrite (proj2 (bytes_compare_eq _ _) eq_refl).
  - apply bytes_compare_eq in Exy. rewrite Exy. by rewrite Eyz.
  - apply bytes_compare_eq in Eyz. rewrite <- Eyz. by rewrite Exy.
  - by rewrite (bytes_compare_lt_trans _ _ _ Exy Eyz).
Qed.

(** The keys of the timed messages of a transcript, in order. *)
Definition message_keys (ms : list TranscriptMessage) : list TimestampKey :=
  omap (λ m, t ← tm_time m; match timestamp_key t with Ok k => Some k | Err _ => None end) ms.

Definition not_after (a b : TimestampKey) : Prop := TimestampKey_gtb a b = false.

Lemma snapshot_fold_sorted ms prev last :
  try_fold snapshot_message prev ms = Ok last →
  StronglySorted not_after (message_keys ms)
  ∧ (∀ p, prev = Some p → Forall (not_after p) (message_keys ms)).
Proof.
  revert prev. induction ms as [|m ms IH]; intros prev H; simpl.
  { split; [constructor|]. intros p _. constructor. }
  simpl in H. unfold snapshot_message in H at 1.
  destruct (TranscriptMessage_validate m) as [[]|]; [|done].
  destruct (tm_time m) as [t|]; simpl; [|by apply IH].
  destruct (timestamp_key t) as [key|]; [|done]. simpl.
  destruct (match prev with Some p => TimestampKey_gtb p key | None => false end) eqn:Hgt;
    [done|].
  apply IH in H as [Hs Hp]. specialize (Hp key eq_refl). split; [by constructor|].
  intros p ->. simpl in Hgt. constructor; [done|].
  eapply Forall_impl; [exact Hp|]. intros k Hk. by eapply TimestampKey_gtb_trans.
Qed.

(** ** Properties *)

(** C40. A permission decision accepted for a request never widens it: the granted
    path is the requested one or lies under it component-wise, without climbing;
    the rights, the recursion flag and the byte limit are no larger; and a file
    request yields exactly its path, no listing right and no recursion. *)
Theorem permission_decision_never_broadens (grant_id path : string)
    (rights : list PermissionRight) (recursive : bool) (max_bytes : Z)
    (duration : GrantDuration) (request : PermissionRequestParams) :
  PermissionRequestResult_validate_for
    (Allow grant_id path rights recursive max_bytes duration) request = Ok tt →
  path_components (pr_path request) `prefix_of` path_components path
  ∧ (ParentDir ∉ path_components path)
  ∧ Forall (λ r, r ∈ pr_rights request) rights
  ∧ (recursive = true → pr_recursive request = true)
  ∧ max_bytes <= pr_max_bytes request
  ∧ duration = pr_duration request
  ∧ (pr_kind request = File →
     path = pr_path request ∧ recursive = false ∧ (RList ∉ rights)).
Proof.
  unfold PermissionRequestResult_validate_for, PermissionRequestResult_validate.
  destruct (validate_ascii_id _ _ _) as [[]|]; [|done].
  destruct (validate_permission_values path rights max_bytes) as [[]|] eqn:Hv; [|done].
  apply permission_components in Hv as (rest & Hc & Hp & _).
  case_match eqn:Hg; [done|]. intros _. boolify.
  split.
  { destruct (pr_kind request).
    - match goal with H : String.eqb path _ = true |- _ => apply String.eqb_eq in H as -> end. done.
    - unfold path_starts_with in *. by boolify. }
  split; [by rewrite Hc, not_elem_of_cons|]. split.
  { match goal with H : existsb _ rights = false |- _ => apply existsb_false in H; rename H into Hr end.
    eapply Forall_impl; [exact Hr|]. simpl. intros r Hx. by boolify. }
  split; [intros ->; by destruct (pr_recursive request)|].
  split; [done|]. split; [done|]. intros Hk. rewrite Hk in *.
  rewrite bool_decide_eq_true_2 in * by done. simpl in *. boolify.
  repeat split; [by apply String.eqb_eq|by destruct recursive|done].
Qed.

Definition demo_request : PermissionRequestParams := {|
  pr_execution_id := "e"; pr_operation_id := "o"; pr_session_id := "s";
  pr_pending_target_id := "t"; pr_kind := Directory; pr_path := "/srv/data";
  pr_rights := [RRead; RList]; pr_recursive := true; pr_max_bytes := 100;
  pr_duration := GrantExecution; pr_reason := "read" |}.

Lemma permission_decision_never_broadens_witness :
  path_components "/srv/data" `prefix_of` path_components "/srv/data/logs".
Proof.
  apply (permission_decision_never_broadens "g1" "/srv/data/logs" [RRead] false 50
           GrantExecution demo_request).
  vm_compute. reflexivity.
Defined.

(** An accepted transcript snapshot is bounded and chronological: it has at
    most one hundred messages and the instants of its timed messages never
    decrease, untimed messages in between included. *)
Theorem transcript_oldest_first (s : TranscriptSnapshot) :
  TranscriptSnapshot_validate s = Ok tt →
  (length (tsn_messages s) <= 100)%nat ∧
  StronglySorted not_after (message_keys (tsn_messages s)).
Proof.
  unfold TranscriptSnapshot_validate. intros H. ok_inv H.
  match goal with Hl : (100 <? _)%nat = false |- _ => apply Nat.ltb_ge in Hl end.
  match goal with Hf : try_fold _ _ _ = Ok _ |- _ =>
    apply snapshot_fold_sorted in Hf as [Hs _] end.
  done.
Qed.

Definition demo_message (t : option string) : TranscriptMessage :=
  {| tm_id := None; tm_role := RoleUser; tm_time := t; tm_content := [] |}.

Lemma transcript_oldest_first_witness :
  (length (message_keys [demo_message (Some "2024-01-01T00:00:00Z"); demo_message None;
                         demo_message (Some "2024-01-01T00:00:01Z")]) = 2)%nat ∧
  StronglySorted not_after
    (message_keys [demo_message (Some "2024-01-01T00:00:00Z"); demo_message None;
                   demo_message (Some "2024-01-01T00:00:01Z")]).
Proof.
  split; [vm_compute; reflexivity|].
  apply (transcript_oldest_first
    {| tsn_snapshot_id := "a"; tsn_session_id := "s"; tsn_policy_version := "1";
       tsn_captured_at := "2024-01-02T00:00:00Z"; tsn_truncated := false;
       tsn_messages := [demo_message (Some "2024-01-01T00:00:00Z"); demo_message None;
                        demo_message (Some "2024-01-01T00:00:01Z")] |}).
  vm_compute. reflexivity.
Defined.

(** The stream of events a tracker accepts one after the other. *)
Fixpoint record_all (t : EventSequenceTracker) (es : list ExecutionEventParams)
    : result ProtocolError EventSequenceTracker :=
  match es with
  | [] => Ok t
  | e :: es' => let? t' := EventSequenceTracker_record t e in record_all t' es'
  end.

Lemma record_all_spec es t t' :
  record_all t es = Ok t' →
  (∀ i e, es !! i = Some e →
    ee_execution_id e = est_execution_id t ∧
    ee_sequence e = est_next_sequence t + Z.of_nat i ∧
    est_last_elapsed_ms t <= ee_elapsed_ms e ∧
    (EventKind_is_terminal (ee_kind e) = true → S i = length es)) ∧
  (∀ i j e f, (i < j)%nat → es !! i = Some e → es !! j = Some f →
    ee_elapsed_ms e <= ee_elapsed_ms f) ∧
  (est_terminal t = true → es = []).
Proof.
  revert t. induction es as [|e es IH]; intros t H; simpl in H.
  { split; [intros i e H'; by rewrite lookup_nil in H'|]. split; [|done].
    intros i j e f _ H'; by rewrite lookup_nil in H'. }
  destruct (EventSequenceTracker_record t e) as [t1|] eqn:Hr; [|done].
  apply IH in H as (IH1 & IH2 & IH3). clear IH. unfold EventSequenceTracker_record in Hr.
  destruct (ExecutionEventParams_validate e) as [[]|]; [|done].
  case_match eqn:Hg; [done|]. destruct (u64_checked_add _ _) as [n|] eqn:Hn; [|done].
  simpl in Hr. injection Hr as <-. simpl in *. boolify.
  apply checked_Some in Hn as [_ ->].
  match goal with He : String.eqb _ _ = true |- _ => apply String.eqb_eq in He end.
  split; [|split].
  - intros [|i] x Hx; simplify_list_eq.
    + split; [done|]. split; [lia|]. split; [lia|]. intros Ht. by rewrite (IH3 Ht).
    + destruct (IH1 i x Hx) as (? & ? & ? & Hlast). split; [congruence|].
      split; [lia|]. split; [lia|]. intros Ht. f_equal. by apply Hlast.
  - intros [|i] [|j] x y Hij Hx Hy; simplify_list_eq; try lia.
    + destruct (IH1 j y Hy) as (_ & _ & ? & _). lia.
    + by eapply (IH2 i j); [lia|..].
  - intros Ht. congruence.
Qed.

(** The event streams a tracker accepts are exactly ordered: every event
    carries the tracker's execution ID, sequence numbers are 1, 2, 3, ... with
    no gap or repetition, elapsed times never decrease, and a terminal event can
    only be the last one. *)
Theorem event_stream_ordered (execution_id : string) (es : list ExecutionEventParams)
    (t : EventSequenceTracker) :
  record_all (EventSequenceTracker_new execution_id) es = Ok t →
  (∀ i e, es !! i = Some e →
    ee_execution_id e = execution_id ∧ ee_sequence e = 1 + Z.of_nat i ∧
    (EventKind_is_terminal (ee_kind e) = true → S i = length es)) ∧
  (∀ i j e f, (i < j)%nat → es !! i = Some e → es !! j = Some f →
    ee_elapsed_ms e <= ee_elapsed_ms f).
Proof.
  intros H. apply record_all_spec in H as (H1 & H2 & _). split; [|done].
  intros i e He. destruct (H1 i e He) as (? & ? & _ & ?). done.
Qed.

Definition demo_event (n ms : Z) (k : EventKind) : ExecutionEventParams :=
  {| ee_execution_id := "x"; ee_sequence := n; ee_elapsed_ms := ms; ee_kind := k;
     ee_replayed := false; ee_fields := [] |}.

Lemma event_stream_ordered_witness :
  ∃ t, record_all (EventSequenceTracker_new "x")
         [demo_event 1 0 Started; demo_event 2 7 Completed] = Ok t
       ∧ est_terminal t = true ∧ (0 <= 7).
Proof.
  eexists. split; [vm_compute; reflexivity|]. split; [reflexivity|].
  assert (record_all (EventSequenceTracker_new "x")
            [demo_event 1 0 Started; demo_event 2 7 Completed]
          = Ok (Build_EventSequenceTracker "x" 3 7 true)) as Hr by (vm_compute; reflexivity).
  exact (proj2 (event_stream_ordered "x" _ _ Hr) 0%nat 1%nat _ _ (le_n 1) eq_refl eq_refl).
Defined.

(** A validated host projection holds every section exactly once: looking a
    section up by kind always succeeds (the [expect] in the accessor cannot
    fail), and the section found is complete and valid. *)
Theorem projection_section_total `{PayloadDeps} (p : HostProjectionSetParams)
    (kind : ProjectionSectionKind) :
  HostProjectionSetParams_validate p = Ok tt →
  ∃ s, hp_section p kind = Some s ∧ ps_kind s = kind ∧ ps_complete s = true
       ∧ ProjectionSection_validate s = Ok tt
       ∧ map ps_kind (hp_sections p) = ALL_SECTIONS.
Proof.
  unfold HostProjectionSetParams_validate. intros Hv. ok_inv Hv. boolify.
  match goal with Hl : (_ =? _)%nat = true |- _ => apply Nat.eqb_eq in Hl end.
  apply for_each_ok in Hv.
  assert (Forall2 (λ s k, section_check (s, k) = Ok tt) (hp_sections p) ALL_SECTIONS) as Hf.
  { revert Hv. match goal with Hl : length _ = length _ |- _ => revert Hl end.
    generalize ALL_SECTIONS as ks. generalize (hp_sections p) as ss.
    induction ss as [|s ss IH]; intros [|k ks] Hl Hv; try discriminate; [constructor|].
    simpl in Hv. apply Forall_cons in Hv as [? ?]. constructor; [done|]. apply IH; [|done].
    simpl in Hl. lia. }
  assert (Forall2 (λ s k, ps_kind s = k ∧ ps_complete s = true
            ∧ ProjectionSection_validate s = Ok tt) (hp_sections p) ALL_SECTIONS) as Hg.
  { eapply Forall2_impl; [exact Hf|]. unfold section_check. simpl. intros s k Hs.
    ok_inv Hs. boolify. split_and!; [done|done|].
    match goal with u : unit |- _ => by destruct u end. }
  assert (map ps_kind (hp_sections p) = ALL_SECTIONS) as Hmap.
  { clear -Hg. induction Hg as [|s k ss ks (<- & _) _ IH]; simpl; congruence. }
  assert (kind ∈ ALL_SECTIONS) as Hin by (destruct kind; vm_compute; set_solver).
  destruct (List.find (λ s, bool_decide (ps_kind s = kind)) (hp_sections p)) as [s|] eqn:Hfind.
  - pose proof (find_some _ _ Hfind) as [Hs Hk]. boolify. exists s. split; [done|].
    apply list_elem_of_In, list_elem_of_lookup in Hs as [i Hi].
    destruct (Forall2_lookup_l _ _ _ _ _ Hg Hi) as (k & _ & ? & ? & ?). done.
  - rewrite <- Hmap in Hin. apply list_elem_of_fmap in Hin as (s & -> & Hs).
    apply list_elem_of_In in Hs. pose proof (find_none _ _ Hfind s Hs) as Hn. simpl in Hn.
    by rewrite bool_decide_eq_true_2 in Hn.
Qed.

Definition demo_catalog : CatalogSetParams :=
  {| cs_schema_dialect := SCHEMA_DIALECT;
     cs_metadata := CatalogMetadata_complete "host" "r1" 5; cs_tools := [] |}.

Lemma projection_section_total_witness :
  ∃ s, hp_section (complete_for_catalog "p" {| peer_name := "h"; peer_version := "1.2.3" |}
                     BindingNone demo_catalog) Roots = Some s ∧ ps_complete s = true.
Proof.
  destruct (@projection_section_total tiny_semver
    (complete_for_catalog "p" {| peer_name := "h"; peer_version := "1.2.3" |}
       BindingNone demo_catalog) Roots) as (s & Hs & _ & Hc & _).
  - vm_compute. reflexivity.
  - exists s. split; [exact Hs|exact Hc].
Defined.
