(* ===== verification/JoshTracker.v ===== *)
(** * The JOSH connection tracker ([crates/josh-protocol/src/state.rs])

    [ProtocolTracker] keeps, per peer, the connection phase, the active request
    IDs of each direction, the cancelled and the late IDs, and the identities of
    the running execution.  Every method of the source is one definition; a
    method that can fail returns its result and the tracker it leaves behind, so
    that what an error leaves unchanged is a theorem and not an assumption. *)

From S2P Require Import Prelude Text JoshMessage JoshScalars JoshPayload.
Open Scope string_scope.
Open Scope Z_scope.

(** [Display for ProtocolError] *)
Definition ProtocolError_display (e : ProtocolError) : string :=
  match e with
  | Io error => ("protocol I/O failed: " ++ error)%string
  | UnexpectedEof => "protocol frame ended early"
  | HeaderLineTooLong => "protocol header line is too long"
  | InvalidHeader => "protocol frame header is invalid"
  | InvalidLength => "protocol content length is invalid"
  | FrameTooLarge => "protocol frame exceeds its limit"
  | InvalidUtf8 => "protocol body is not UTF-8"
  | InvalidJson error => ("protocol body is not strict JSON: " ++ error)%string
  | InvalidMessage error => ("protocol message is invalid: " ++ error)%string
  end.

Inductive PeerRole := Host | Runtime.

#[export] Instance PeerRole_eq_dec : EqDecision PeerRole.
Proof. solve_decision. Defined.

Inductive ConnectionState :=
| New | Initialized | Projected | CatalogFrozen | ProgramLoaded | Disconnected.

#[export] Instance ConnectionState_eq_dec : EqDecision ConnectionState.
Proof. solve_decision. Defined.

Inductive ReceiveAction :=
| RequestAccepted
| ResponseAccepted (method : string)
| NotificationAccepted
| CancelObserved (active first : bool).

Record RequestStateError := {
  rse_code : WireErrorCode; rse_fatal : bool; rse_message : string }.

Definition fatal (message : string) : RequestStateError :=
  {| rse_code := ProtocolViolation; rse_fatal := true; rse_message := message |}.
Definition request_error (code : WireErrorCode) (message : string) : RequestStateError :=
  {| rse_code := code; rse_fatal := false; rse_message := message |}.

Record ProtocolTracker := {
  role : PeerRole;
  state : ConnectionState;
  max_active : nat;
  incoming : gmap string string;
  outgoing : gmap string string;
  cancelled_incoming : gset string;
  late_outgoing : gset string;
  late_order : list string;
  late_limit : nat;
  active_execution : bool;
  active_execution_id : option string;
  execution_mode : option ExecutionMode;
  invoking_session_id : option string }.

(** ** Field updates *)

Definition set_state (t : ProtocolTracker) (s : ConnectionState) : ProtocolTracker :=
  {| role := role t; state := s; max_active := max_active t; incoming := incoming t;
     outgoing := outgoing t; cancelled_incoming := cancelled_incoming t;
     late_outgoing := late_outgoing t; late_order := late_order t; late_limit := late_limit t;
     active_execution := active_execution t; active_execution_id := active_execution_id t;
     execution_mode := execution_mode t; invoking_session_id := invoking_session_id t |}.

Definition set_limits (t : ProtocolTracker) (max late : nat) : ProtocolTracker :=
  {| role := role t; state := state t; max_active := max; incoming := incoming t;
     outgoing := outgoing t; cancelled_incoming := cancelled_incoming t;
     late_outgoing := late_outgoing t; late_order := late_order t; late_limit := late;
     active_execution := active_execution t; active_execution_id := active_execution_id t;
     execution_mode := execution_mode t; invoking_session_id := invoking_session_id t |}.

Definition set_incoming (t : ProtocolTracker) (m : gmap string string) (c : gset string)
    : ProtocolTracker :=
  {| role := role t; state := state t; max_active := max_active t; incoming := m;
     outgoing := outgoing t; cancelled_incoming := c;
     late_outgoing := late_outgoing t; late_order := late_order t; late_limit := late_limit t;
     active_execution := active_execution t; active_execution_id := active_execution_id t;
     execution_mode := execution_mode t; invoking_session_id := invoking_session_id t |}.

Definition set_outgoing (t : ProtocolTracker) (m : gmap string string) (l : gset string)
    (o : list string) : ProtocolTracker :=
  {| role := role t; state := state t; max_active := max_active t; incoming := incoming t;
     outgoing := m; cancelled_incoming := cancelled_incoming t;
     late_outgoing := l; late_order := o; late_limit := late_limit t;
     active_execution := active_execution t; active_execution_id := active_execution_id t;
     execution_mode := execution_mode t; invoking_session_id := invoking_session_id t |}.

Definition set_execution (t : ProtocolTracker) (active : bool) (id : option string)
    : ProtocolTracker :=
  {| role := role t; state := state t; max_active := max_active t; incoming := incoming t;
     outgoing := outgoing t; cancelled_incoming := cancelled_incoming t;
     late_outgoing := late_outgoing t; late_order := late_order t; late_limit := late_limit t;
     active_execution := active; active_execution_id := id;
     execution_mode := execution_mode t; invoking_session_id := invoking_session_id t |}.

Definition set_binding (t : ProtocolTracker) (s : ConnectionState) (mode : option ExecutionMode)
    (session : option string) : ProtocolTracker :=
  {| role := role t; state := s; max_active := max_active t; incoming := incoming t;
     outgoing := outgoing t; cancelled_incoming := cancelled_incoming t;
     late_outgoing := late_outgoing t; late_order := late_order t; late_limit := late_limit t;
     active_execution := active_execution t; active_execution_id := active_execution_id t;
     execution_mode := mode; invoking_session_id := session |}.

(** ** Construction and limits *)

Definition tracker_new (r : PeerRole) (max : nat) : ProtocolTracker :=
  {| role := r; state := New; max_active := max; incoming := ∅; outgoing := ∅;
     cancelled_incoming := ∅; late_outgoing := ∅; late_order := [];
     late_limit := Nat.max max 1; active_execution := false; active_execution_id := None;
     execution_mode := None; invoking_session_id := None |}.

Definition active_incoming (t : ProtocolTracker) : nat := size (incoming t).
Definition active_outgoing (t : ProtocolTracker) : nat := size (outgoing t).

Definition set_max_active_requests (t : ProtocolTracker) (limit : nat) : ProtocolTracker :=
  set_limits t limit (Nat.max limit 1).

(** ** Method and notification tables *)

Definition HOST_METHODS : list string :=
  ["initialize"; "host/project"; "catalog/set"; "program/load"; "execution/start"].

Definition ATTACHED_METHODS : list string :=
  ["agent/message"; "agent/ask"; "agent/transcript"; "permission/request"].

Definition EXECUTION_METHODS : list string :=
  ["model/request"; "user/ask"; "sub_agent/create"; "sub_agent/run"; "sub_agent/message";
   "sub_agent/ask"].

Definition RUNTIME_METHODS : list string :=
  "tool/invoke" :: ATTACHED_METHODS ++ EXECUTION_METHODS.

Definition is_bound_request (method : string) : bool :=
  str_in method (ATTACHED_METHODS ++ EXECUTION_METHODS).

(** Who sends a message this tracker sees in the given direction. *)
Definition sender (t : ProtocolTracker) (inc : bool) : PeerRole :=
  match role t, inc with
  | Host, true | Runtime, false => Runtime
  | Host, false | Runtime, true => Host
  end.

Definition defined_sender (method : string) : option PeerRole :=
  if str_in method HOST_METHODS then Some Host
  else if str_in method RUNTIME_METHODS then Some Runtime
  else None.

Definition attached_ready (t : ProtocolTracker) : bool :=
  bool_decide (state t = ProgramLoaded) && active_execution t
  && bool_decide (execution_mode t = Some Attached)
  && bool_decide (is_Some (invoking_session_id t))
  && bool_decide (is_Some (active_execution_id t)).

Definition valid_state (t : ProtocolTracker) (method : string) : bool :=
  if String.eqb method "initialize" then bool_decide (state t = New)
  else if String.eqb method "host/project" then bool_decide (state t = Initialized)
  else if String.eqb method "catalog/set" then bool_decide (state t = Projected)
  else if String.eqb method "program/load" then
    bool_decide (state t = CatalogFrozen) || bool_decide (state t = ProgramLoaded)
  else if String.eqb method "execution/start" then
    bool_decide (state t = ProgramLoaded) && negb (active_execution t)
  else if String.eqb method "tool/invoke" then
    bool_decide (state t = ProgramLoaded) && active_execution t
  else if str_in method ATTACHED_METHODS then attached_ready t
  else if str_in method EXECUTION_METHODS then
    bool_decide (state t = ProgramLoaded) && active_execution t
    && bool_decide (is_Some (active_execution_id t))
  else false.

Definition check_method (t : ProtocolTracker) (method : string) (inc : bool)
    : result RequestStateError unit :=
  match defined_sender method with
  | None => Err (request_error RequestMethodNotFound "request method is unknown")
  | Some s =>
    if negb (bool_decide (s = sender t inc))
    then Err (request_error RequestMethodNotFound "request method has the wrong direction")
    else if negb (valid_state t method)
    then Err (request_error RequestInvalidState "request method is invalid in the current state")
    else Ok tt
  end.

Definition check_notification (t : ProtocolTracker) (method : string) (inc : bool)
    : result RequestStateError unit :=
  let s := sender t inc in
  if String.eqb method "runtime/ready" && bool_decide (s = Runtime)
     && bool_decide (state t = New) then Ok tt
  else if String.eqb method "execution/event" && bool_decide (s = Runtime)
     && bool_decide (state t = ProgramLoaded) && active_execution t then Ok tt
  else if String.eqb method "permission/revoke" && bool_decide (s = Host) && attached_ready t
  then Ok tt
  else if str_in method ["runtime/ready"; "execution/event"; "permission/revoke"]
  then Err (fatal "notification is invalid in the current state or direction")
  else Err (fatal "notification method is unknown").

(** ** Identity binding *)

Definition ensure_bound_identities (t : ProtocolTracker) (execution_id session_id : string)
    : result RequestStateError unit :=
  if negb (bool_decide (active_execution_id t = Some execution_id))
     || negb (bool_decide (invoking_session_id t = Some session_id))
  then Err (fatal "message identities do not match the active attached binding")
  else Ok tt.

Definition ensure_active_execution (t : ProtocolTracker) (execution_id : string)
    : result RequestStateError unit :=
  if negb (bool_decide (active_execution_id t = Some execution_id))
  then Err (fatal "message execution identity does not match the active execution")
  else Ok tt.

(** The deserializers serde derives for the bound payloads. *)
Class TrackerSerde := {
  ts_agent_message :: FromValue AgentMessageParams;
  ts_agent_ask :: FromValue AgentAskParams;
  ts_agent_transcript :: FromValue AgentTranscriptParams;
  ts_permission_request :: FromValue PermissionRequestParams;
  ts_model_request :: FromValue ModelRequestParams;
  ts_user_ask :: FromValue UserAskParams;
  ts_sub_agent_create :: FromValue SubAgentCreateParams;
  ts_sub_agent_run :: FromValue SubAgentRunParams;
  ts_sub_agent_message :: FromValue SubAgentMessageParams;
  ts_sub_agent_ask :: FromValue SubAgentAskParams;
  ts_permission_revoke :: FromValue PermissionRevokeParams;
  ts_execution_event :: FromValue ExecutionEventParams
}.

Section Tracker.
Context `{TrackerSerde}.

Definition parse_request (T : Type) `{FromValue T, Validate T} (m : WireMessage)
(method : string) : result RequestStateError T :=
map_err (λ e, request_error RequestInvalid
              (method ++ " params are invalid: " ++ ProtocolError_display e)%string)
(request_params m method).

(** The [binding] of [validate_request_binding]: an attached method must match
both identities, an execution method the execution only. *)
Definition validate_request_binding (t : ProtocolTracker) (m : WireMessage)
: result RequestStateError unit :=
match m with
| Request _ method _ =>
if String.eqb method "agent/message" then
  let? p := parse_request AgentMessageParams m method in
  ensure_bound_identities t (am_execution_id p) (am_session_id p)
else if String.eqb method "agent/ask" then
  let? p := parse_request AgentAskParams m method in
  ensure_bound_identities t (aa_execution_id p) (aa_session_id p)
else if String.eqb method "agent/transcript" then
  let? p := parse_request AgentTranscriptParams m method in
  ensure_bound_identities t (at_execution_id p) (at_session_id p)
else if String.eqb method "permission/request" then
  let? p := parse_request PermissionRequestParams m method in
  ensure_bound_identities t (pr_execution_id p) (pr_session_id p)
else if String.eqb method "model/request" then
  let? p := parse_request ModelRequestParams m method in
  ensure_active_execution t (mr_execution_id p)
else if String.eqb method "user/ask" then
  let? p := parse_request UserAskParams m method in
  ensure_active_execution t (ua_execution_id p)
else if String.eqb method "sub_agent/create" then
  let? p := parse_request SubAgentCreateParams m method in
  ensure_active_execution t (sac_execution_id p)
else if String.eqb method "sub_agent/run" then
  let? p := parse_request SubAgentRunParams m method in
  ensure_active_execution t (sar_execution_id p)
else if String.eqb method "sub_agent/message" then
  let? p := parse_request SubAgentMessageParams m method in
  ensure_active_execution t (sam_execution_id p)
else if String.eqb method "sub_agent/ask" then
  let? p := parse_request SubAgentAskParams m method in
  ensure_active_execution t (saa_execution_id p)
else Ok tt
| _ => Err (request_error RequestInvalid "expected request message")
end.

Definition validate_notification_binding (t : ProtocolTracker) (m : WireMessage)
: result RequestStateError unit :=
match m with
| Notification method _ =>
if String.eqb method "permission/revoke" then
  let? p := map_err (λ e, fatal ("permission revocation is malformed: "
                                 ++ ProtocolError_display e)%string)
              (@notification_params PermissionRevokeParams _ _ m method) in
  ensure_bound_identities t (prv_execution_id p) (prv_session_id p)
else if String.eqb method "execution/event" then
  let? p := map_err (λ e, fatal ("execution event is malformed: "
                                 ++ ProtocolError_display e)%string)
              (@notification_params ExecutionEventParams _ _ m method) in
  if match active_execution_id t with
     | Some id => negb (String.eqb id (ee_execution_id p)) | None => false end
  then Err (fatal "execution event does not match the active execution")
  else if bool_decide (ee_kind p = PermissionDecision)
          && bool_decide (active_execution_id t = None)
  then Err (fatal "permission decision event requires an active execution")
  else Ok tt
else Ok tt
| _ => Err (fatal "expected notification message")
end.

(** ** Outgoing requests *)

Definition insert_outgoing (t : ProtocolTracker) (id method : string)
: result RequestStateError unit * ProtocolTracker :=
if bool_decide (is_Some (outgoing t !! id))
then (Err (fatal "duplicate active outgoing request ID"), t)
else if bool_decide (max_active t <= size (outgoing t))%nat
then (Err (request_error RequestLimit "outgoing active request limit reached"), t)
else (Ok tt, set_outgoing t (<[id := method]> (outgoing t)) (late_outgoing t) (late_order t)).

Definition register_outgoing_request (t : ProtocolTracker) (id method : string)
: result RequestStateError unit * ProtocolTracker :=
if is_bound_request method
then (Err (request_error RequestInvalid
           "bound requests must be registered with their complete message"), t)
else
match check_method t method false with
| Err e => (Err e, t)
| Ok _ => insert_outgoing t id method
end.

Definition register_outgoing_message (t : ProtocolTracker) (m : WireMessage)
: result RequestStateError unit * ProtocolTracker :=
match m with
| Request id method _ =>
match (try? check_method t method false in validate_request_binding t m) with
| Err e => (Err e, t)
| Ok _ => insert_outgoing t id method
end
| _ => (Err (request_error RequestInvalid "outgoing message is not a request"), t)
end.

Definition validate_outgoing_notification (t : ProtocolTracker) (m : WireMessage)
: result RequestStateError unit :=
match m with
| Notification method _ =>
try? check_notification t method false in validate_notification_binding t m
| _ => Err (fatal "outgoing message is not a notification")
end.

(** The loop that expires the oldest late IDs. *)
Fixpoint expire_late (limit : nat) (order : list string) (late : gset string)
: list string * gset string :=
match order with
| [] => ([], late)
| expired :: order' =>
if bool_decide (limit < length order)%nat
then expire_late limit order' (late ∖ {[expired]})
else (order, late)
end.

Definition cancel_outgoing (t : ProtocolTracker) (id : string) : bool * ProtocolTracker :=
if bool_decide (outgoing t !! id = None) then (false, t)
else
let order := if bool_decide (id ∈ late_outgoing t) then late_order t
             else (late_order t ++ [id])%list in
let '(order', late') :=
  expire_late (late_limit t) order ({[id]} ∪ late_outgoing t) in
(true, set_outgoing t (delete id (outgoing t)) late' order').

(** ** Incoming messages *)

Definition singleton_method (method : string) : bool :=
str_in method ["initialize"; "host/project"; "catalog/set"].

Definition method_active (t : ProtocolTracker) (method : string) : bool :=
existsb (λ p : string * string, String.eqb p.2 method)
(map_to_list (incoming t) ++ map_to_list (outgoing t)).

Definition receive_request (t : ProtocolTracker) (m : WireMessage)
: result RequestStateError ReceiveAction * ProtocolTracker :=
match m with
| Request id method _ =>
if bool_decide (is_Some (incoming t !! id))
then (Err (fatal "duplicate active incoming request ID"), t)
else
  match (try? check_method t method true in validate_request_binding t m) with
  | Err e => (Err e, t)
  | Ok _ =>
    if singleton_method method && method_active t method
    then (Err (request_error RequestInvalidState
                 "singleton request method is already active"), t)
    else if bool_decide (max_active t <= size (incoming t))%nat
    then (Err (request_error RequestLimit "incoming active request limit reached"), t)
    else (Ok RequestAccepted,
          set_incoming t (<[id := method]> (incoming t)) (cancelled_incoming t))
  end
| _ => (Err (fatal "unreachable"), t)
end.

Definition receive_response (t : ProtocolTracker) (id : string)
: result RequestStateError ReceiveAction * ProtocolTracker :=
match outgoing t !! id with
| Some method =>
(Ok (ResponseAccepted method),
 set_outgoing t (delete id (outgoing t)) (late_outgoing t) (late_order t))
| None =>
if bool_decide (id ∈ late_outgoing t)
then (Err (fatal "response arrived after its outgoing request was cancelled"),
      set_outgoing t (outgoing t) (late_outgoing t ∖ {[id]})
        (filter (λ c, c ≠ id) (late_order t)))
else (Err (fatal "response has an unknown or terminal request ID"), t)
end.

Definition receive (t : ProtocolTracker) (m : WireMessage)
: result RequestStateError ReceiveAction * ProtocolTracker :=
match m with
| Request _ _ _ => receive_request t m
| Response id _ _ => receive_response t id
| Notification method _ =>
match (try? check_notification t method true in validate_notification_binding t m) with
| Err e => (Err e, t)
| Ok _ => (Ok NotificationAccepted, t)
end
| Cancel id _ =>
let active := bool_decide (is_Some (incoming t !! id)) in
if active then
  (Ok (CancelObserved true (negb (bool_decide (id ∈ cancelled_incoming t)))),
   set_incoming t (incoming t) ({[id]} ∪ cancelled_incoming t))
else (Ok (CancelObserved false false), t)
end.

Definition commit_response (t : ProtocolTracker) (id : string)
: result RequestStateError string * ProtocolTracker :=
match incoming t !! id with
| None => (Err (fatal "response commits an unknown incoming ID"), t)
| Some method =>
(Ok method, set_incoming t (delete id (incoming t)) (cancelled_incoming t ∖ {[id]}))
end.

Definition is_cancelled (t : ProtocolTracker) (id : string) : bool :=
bool_decide (id ∈ cancelled_incoming t).

(** ** Phase transitions *)

Definition initialize_binding (t : ProtocolTracker) (mode : ExecutionMode)
(session : option string) : result RequestStateError unit * ProtocolTracker :=
if negb (bool_decide (state t = New))
then (Err (fatal "initialize state transition is invalid"), t)
else (Ok tt, set_binding t Initialized (Some mode) session).

Definition initialize_succeeded (t : ProtocolTracker)
: result RequestStateError unit * ProtocolTracker :=
initialize_binding t Unattended None.

Definition initialize_succeeded_with `{PayloadDeps} (t : ProtocolTracker)
(params : InitializeParams) : result RequestStateError unit * ProtocolTracker :=
match InitializeParams_validate params with
| Err e => (Err (request_error RequestInvalid (ProtocolError_display e)), t)
| Ok _ => initialize_binding t (ip_execution_mode params) (bound_session_id params)
end.

Definition projection_succeeded (t : ProtocolTracker)
: result RequestStateError unit * ProtocolTracker :=
if negb (bool_decide (state t = Initialized))
then (Err (fatal "host projection state transition is invalid"), t)
else (Ok tt, set_state t Projected).

Definition catalog_succeeded (t : ProtocolTracker)
: result RequestStateError unit * ProtocolTracker :=
if negb (bool_decide (state t = Projected))
then (Err (fatal "catalog state transition is invalid"), t)
else (Ok tt, set_state t CatalogFrozen).

Definition program_loaded (t : ProtocolTracker)
: result RequestStateError unit * ProtocolTracker :=
if negb (bool_decide (state t = CatalogFrozen) || bool_decide (state t = ProgramLoaded))
then (Err (fatal "program state transition is invalid"), t)
else (Ok tt, set_state t ProgramLoaded).

Definition execution_started_binding (t : ProtocolTracker) (id : option string)
: result RequestStateError unit * ProtocolTracker :=
if negb (bool_decide (state t = ProgramLoaded)) || active_execution t
then (Err (request_error RequestInvalidState
           "execution cannot start in the current state"), t)
else (Ok tt, set_execution t true id).

Definition execution_started (t : ProtocolTracker)
: result RequestStateError unit * ProtocolTracker := execution_started_binding t None.

Definition execution_started_with (t : ProtocolTracker) (id : string)
: result RequestStateError unit * ProtocolTracker :=
if str_is_empty id || (128 <? str_len id) || has_control id
then (Err (request_error RequestInvalid "execution ID is invalid"), t)
else execution_started_binding t (Some id).

Definition execution_finished (t : ProtocolTracker) : ProtocolTracker :=
set_execution t false None.

Definition disconnect (t : ProtocolTracker) : ProtocolTracker :=
{| role := role t; state := Disconnected; max_active := max_active t; incoming := ∅;
 outgoing := ∅; cancelled_incoming := ∅; late_outgoing := ∅; late_order := [];
 late_limit := late_limit t; active_execution := false; active_execution_id := None;
 execution_mode := None; invoking_session_id := None |}.
End Tracker.

(** ** Traces of operations *)

(** Every public method that can change a tracker. *)
Inductive TrackerOp :=
| OpSetMax (limit : nat)
| OpRegisterRequest (id method : string)
| OpRegisterMessage (m : WireMessage)
| OpReceive (m : WireMessage)
| OpCommit (id : string)
| OpCancelOutgoing (id : string)
| OpInitialize
| OpInitializeWith (params : InitializeParams)
| OpProjection
| OpCatalog
| OpProgramLoaded
| OpExecutionStarted
| OpExecutionStartedWith (id : string)
| OpExecutionFinished
| OpDisconnect.

Section Traces.
Context `{TrackerSerde, PayloadDeps}.

(** The tracker an operation leaves behind, and whether it succeeded. *)
Definition apply_op (t : ProtocolTracker) (op : TrackerOp) : bool * ProtocolTracker :=
let keep {A} (r : result RequestStateError A * ProtocolTracker) := (is_ok r.1, r.2) in
match op with
| OpSetMax limit => (true, set_max_active_requests t limit)
| OpRegisterRequest id method => keep (register_outgoing_request t id method)
| OpRegisterMessage m => keep (register_outgoing_message t m)
| OpReceive m => keep (receive t m)
| OpCommit id => keep (commit_response t id)
| OpCancelOutgoing id => cancel_outgoing t id
| OpInitialize => keep (initialize_succeeded t)
| OpInitializeWith params => keep (initialize_succeeded_with t params)
| OpProjection => keep (projection_succeeded t)
| OpCatalog => keep (catalog_succeeded t)
| OpProgramLoaded => keep (program_loaded t)
| OpExecutionStarted => keep (execution_started t)
| OpExecutionStartedWith id => keep (execution_started_with t id)
| OpExecutionFinished => (true, execution_finished t)
| OpDisconnect => (true, disconnect t)
end.

Definition step (t : ProtocolTracker) (op : TrackerOp) : ProtocolTracker := (apply_op t op).2.

Inductive reachable (r : PeerRole) (max : nat) : ProtocolTracker → Prop :=
| reachable_new : reachable r max (tracker_new r max)
| reachable_step t op : reachable r max t → reachable r max (step t op).

(** ** The tracker invariant *)

Record tracker_inv (t : ProtocolTracker) : Prop := {
inv_cancelled : cancelled_incoming t ⊆ dom (incoming t);
inv_late_set : late_outgoing t = list_to_set (late_order t);
inv_late_nodup : NoDup (late_order t);
inv_limit : late_limit t = Nat.max (max_active t) 1;
inv_active : active_execution t = true → state t = ProgramLoaded;
inv_active_id : is_Some (active_execution_id t) → active_execution t = true;
inv_mode : execution_mode t = None ↔ state t = New ∨ state t = Disconnected;
inv_session : is_Some (invoking_session_id t) ↔ execution_mode t = Some Attached }.

Lemma expire_late_spec limit order late order' late' :
expire_late limit order late = (order', late') →
NoDup order → late = list_to_set order →
NoDup order' ∧ late' = list_to_set order' ∧ (length order' <= limit)%nat
∧ order' `suffix_of` order.
Proof.
revert late. induction order as [|x order IH]; intros late; simpl.
- intros [= <- <-] Hn Hl. repeat split; [done|done|simpl; lia|done].
- case_bool_decide as Hlen; intros Heq Hn Hl.
+ apply NoDup_cons in Hn as [Hx Hn].
  destruct (IH _ Heq Hn) as (? & ? & ? & ?).
  { subst late. apply leibniz_equiv. set_solver. }
  repeat split; try done. by apply suffix_cons_r.
+ injection Heq as <- <-. repeat split; [done|done|simpl; lia|done].
Qed.

Lemma insert_outgoing_inv t id method :
tracker_inv t → tracker_inv (insert_outgoing t id method).2.
Proof.
intros []. unfold insert_outgoing. repeat case_bool_decide; try (by constructor).
Qed.

Lemma receive_request_inv t m : tracker_inv t → tracker_inv (receive_request t m).2.
Proof.
intros Ht. pose proof Ht as []. unfold receive_request.
destruct m; try done. repeat case_match; try done.
constructor; simpl; try done. rewrite dom_insert_L. set_solver.
Qed.

Lemma receive_response_inv t id : tracker_inv t → tracker_inv (receive_response t id).2.
Proof.
intros Ht. pose proof Ht as []. unfold receive_response.
repeat case_match; try done; constructor; simpl; try done.
- rewrite inv_late_set0. apply leibniz_equiv. intros x.
rewrite elem_of_difference, !elem_of_list_to_set, elem_of_singleton, list_elem_of_filter.
naive_solver.
- by apply NoDup_filter.
Qed.

Lemma cancel_outgoing_inv t id : tracker_inv t → tracker_inv (cancel_outgoing t id).2.
Proof.
intros Ht. pose proof Ht as []. unfold cancel_outgoing. case_bool_decide; [done|].
destruct (expire_late _ _ _) as [order' late'] eqn:He.
apply expire_late_spec in He as (Hn & Hl & _).
- by constructor.
- case_bool_decide as Hin; [done|]. rewrite NoDup_app. split_and!; [done| |apply NoDup_singleton].
rewrite inv_late_set0, elem_of_list_to_set in Hin. set_solver.
- rewrite inv_late_set0 in *. apply leibniz_equiv.
case_bool_decide as Hin; [set_solver|]. rewrite list_to_set_app. set_solver.
Qed.

Lemma initialize_with_session params :
InitializeParams_validate params = Ok tt →
is_Some (bound_session_id params) ↔ ip_execution_mode params = Attached.
Proof.
unfold InitializeParams_validate, bound_session_id. intros Hv.
destruct (ip_invoking_session_id params), (ip_execution_mode params);
ok_inv Hv; split; try done; eauto; by intros [].
Qed.

(** The fields a phase transition changes: the state, the mode, the session. *)
Ltac phase_inv :=
constructor; simpl; try done;
try match goal with
| Ha : active_execution ?t = true → state ?t = _ |- active_execution ?t = true → _ =>
intros ?%Ha; first [congruence | intuition congruence]
| |- _ = None ↔ _ => intuition congruence
| |- is_Some None ↔ _ => split; [by intros []|congruence]
| Hv : is_Some _ ↔ _ = Attached |- _ => rewrite Hv; split; congruence
end.

(** The invariant is inductive: every operation keeps it. *)
Lemma step_inv t op : tracker_inv t → tracker_inv (step t op).
Proof.
intros Ht. pose proof Ht as Hi. destruct Hi. unfold step, apply_op.
destruct op; simpl.
- by constructor.
- unfold register_outgoing_request. repeat case_match; try done. by apply insert_outgoing_inv.
- unfold register_outgoing_message. repeat case_match; try done; by apply insert_outgoing_inv.
- unfold receive. destruct m.
+ by apply receive_request_inv.
+ by apply receive_response_inv.
+ by case_match.
+ case_bool_decide as Hid; [|done]. constructor; simpl; try done.
  apply elem_of_dom in Hid. set_solver.
- unfold commit_response. case_match; [|done]. constructor; simpl; try done.
rewrite dom_delete_L. set_solver.
- by apply cancel_outgoing_inv.
- unfold initialize_succeeded, initialize_binding. case_bool_decide as Hs; [|done].
phase_inv.
- unfold initialize_succeeded_with, initialize_binding.
destruct (InitializeParams_validate params) as [[]|] eqn:Hv; [|done].
apply initialize_with_session in Hv. case_bool_decide as Hs; [|done]. phase_inv.
- unfold projection_succeeded. case_bool_decide as Hs; [|done]. phase_inv.
- unfold catalog_succeeded. case_bool_decide as Hs; [|done]. phase_inv.
- unfold program_loaded. case_match eqn:Hs; [done|]. apply negb_false_iff, orb_true_iff in Hs.
rewrite !bool_decide_eq_true in Hs. phase_inv.
- unfold execution_started, execution_started_binding. case_match eqn:Hs; [done|]. boolify.
constructor; simpl; try done.
- unfold execution_started_with, execution_started_binding. case_match; [done|].
case_match eqn:Hs; [done|]. boolify. constructor; simpl; try done.
- constructor; simpl; try done; by intros [].
- phase_inv; first [apply NoDup_nil_2 | by intros [] | tauto].
Qed.

Lemma reachable_inv r max t : reachable r max t → tracker_inv t.
Proof.
induction 1; [|by apply step_inv].
phase_inv; first [apply NoDup_nil_2 | by intros [] | tauto].
Qed.
End Traces.

(** ** Properties *)

Definition phase (s : ConnectionState) : nat :=
  match s with
  | New => 0 | Initialized => 1 | Projected => 2 | CatalogFrozen => 3 | ProgramLoaded => 4
  | Disconnected => 5
  end.

Ltac open_op :=
  unfold step, apply_op, register_outgoing_request, register_outgoing_message, insert_outgoing,
    receive, receive_request, receive_response, commit_response, cancel_outgoing,
    initialize_succeeded, initialize_succeeded_with, initialize_binding, projection_succeeded,
    catalog_succeeded, program_loaded, execution_started, execution_started_with,
    execution_started_binding in *.

Section Properties.
Context `{TrackerSerde, PayloadDeps}.

(** Nothing but a transition touches the phase. *)
Lemma step_state t op :
state (step t op) = state t
∨ phase (state (step t op)) = S (phase (state t)) ∧ state (step t op) ≠ Disconnected
∨ op = OpDisconnect ∧ state (step t op) = Disconnected.
Proof.
destruct op; open_op; simpl; try (by left); try (by right; right);
repeat first [case_bool_decide | case_match]; simpl; try (by left); boolify;
try (right; left; split; [|done]; by match goal with Hs : state t = _ |- _ => rewrite Hs end).
Qed.


(** The handshake cannot be skipped or undone: an operation leaves the phase
alone, advances it by exactly one step of new, initialized, projected,
catalog-frozen, program-loaded, or disconnects; and once disconnected every
later operation leaves the connection disconnected. *)
Theorem phase_advances_in_order (t : ProtocolTracker) (op : TrackerOp) :
(state (step t op) = state t
∨ phase (state (step t op)) = S (phase (state t)) ∧ state (step t op) ≠ Disconnected
∨ op = OpDisconnect ∧ state (step t op) = Disconnected)
∧ (state t = Disconnected → state (step t op) = Disconnected).
Proof.
split; [apply step_state|]. intros Hd.
destruct (step_state t op) as [Hs|[[Hs Hn]|[_ Hs]]]; [congruence| |done].
rewrite Hd in Hs. by destruct (state (step t op)).
Qed.

(** Failing operations are atomic: an operation that reports an error leaves
the tracker exactly as it was, except that a response to a cancelled
request forgets that late ID. *)
Theorem failed_operation_atomic (t : ProtocolTracker) (op : TrackerOp) :
(apply_op t op).1 = false →
step t op = t
∨ ∃ id r e, op = OpReceive (Response id r e) ∧ id ∈ late_outgoing t
  ∧ step t op = set_outgoing t (outgoing t) (late_outgoing t ∖ {[id]})
                  (filter (λ c, c ≠ id) (late_order t)).
Proof.
destruct op; open_op; simpl; try done;
repeat first [case_bool_decide | case_match]; simpl; try done; try (by left).
all: intros _; right; exists id, res, error; repeat split; by try case_bool_decide.
Qed.


(** The identity binding of an attached execution cannot be bypassed: an
accepted permission request is a well-formed payload whose execution and
session IDs are those of the running attached execution. *)
Theorem accepted_permission_bound (t t' : ProtocolTracker) (id : string) (params : Json)
(a : ReceiveAction) :
receive t (Request id "permission/request" params) = (Ok a, t') →
∃ p : PermissionRequestParams,
from_value params = Ok p ∧ PermissionRequestParams_validate p = Ok tt
∧ active_execution_id t = Some (pr_execution_id p)
∧ invoking_session_id t = Some (pr_session_id p)
∧ execution_mode t = Some Attached ∧ active_execution t = true
∧ state t = ProgramLoaded ∧ role t = Host.
Proof.
unfold receive, receive_request. case_bool_decide; [done|].
destruct (check_method t "permission/request" true) as [[]|] eqn:Hc; [|done].
unfold validate_request_binding. simpl.
unfold parse_request, request_params, checked_value. simpl.
destruct (from_value params) as [p|] eqn:Hp; [|done]. simpl.
destruct (validate p) as [[]|] eqn:Hv; [|done]. simpl.
destruct (ensure_bound_identities _ _ _) as [[]|] eqn:He; [|done]. intros _.
exists p. unfold ensure_bound_identities in He. case_match eqn:Hid; [done|]. boolify.
unfold check_method in Hc. cbn in Hc. case_match eqn:Hs; [done|].
destruct (attached_ready t) eqn:Hr; [|done]. unfold attached_ready in Hr. boolify.
split_and!; try done. unfold sender in Hs. by destruct (role t).
Qed.

(** Each accepted request gets exactly one terminal response: committing an
active ID returns its method, frees the ID and its cancellation mark, and a
second commit of the same ID is a fatal protocol violation. *)
Theorem response_committed_once (t t' : ProtocolTracker) (id method : string) :
commit_response t id = (Ok method, t') →
incoming t !! id = Some method
∧ incoming t' = delete id (incoming t)
∧ is_cancelled t' id = false
∧ (commit_response t' id).1 = Err (fatal "response commits an unknown incoming ID")
∧ ∀ id', id' ≠ id → incoming t' !! id' = incoming t !! id'
                  ∧ is_cancelled t' id' = is_cancelled t id'.
Proof.
unfold commit_response. case_match eqn:Hid; [|done]. intros [= <- <-]. simpl.
rewrite lookup_delete_eq. unfold is_cancelled. simpl. split_and!; try done.
- apply bool_decide_eq_false. set_solver.
- intros id' Hne. rewrite lookup_delete_ne by done. split; [done|].
apply bool_decide_ext. set_solver.
Qed.

Lemma expire_late_keeps_last limit order late x order' late' :
(0 < limit)%nat → expire_late limit (order ++ [x]) late = (order', late') →
x ∈ order'.
Proof.
intros Hl. revert late. induction order as [|y order IH]; intros late; simpl.
- case_bool_decide; [lia|]. intros [= <- <-]. set_solver.
- case_bool_decide as Hlen; [apply IH|]. intros [= <- <-]. set_solver.
Qed.

(** Cancelling an outgoing request frees its slot and remembers its ID, in a
queue of bounded length, so that a response that crosses the cancellation
on the wire is recognized as late (once) and not as an unknown ID. *)
Theorem late_response_recognized (t t' : ProtocolTracker) (id : string)
(res : option Json) (error : option WireError) :
tracker_inv t → id ∉ late_outgoing t → cancel_outgoing t id = (true, t') →
outgoing t' !! id = None
∧ (length (late_order t') <= late_limit t')%nat
∧ (receive t' (Response id res error)).1
= Err (fatal "response arrived after its outgoing request was cancelled")
∧ (receive (receive t' (Response id res error)).2 (Response id res error)).1
= Err (fatal "response has an unknown or terminal request ID").
Proof.
intros Ht Hin. destruct Ht. unfold cancel_outgoing. case_bool_decide; [done|].
rewrite (bool_decide_eq_false_2 _ Hin).
destruct (expire_late _ _ _) as [order' late'] eqn:He. intros [= <-]. simpl.
pose proof He as Hlast. apply expire_late_keeps_last in Hlast; [|lia].
rewrite inv_late_set0 in *. rewrite elem_of_list_to_set in Hin.
apply expire_late_spec in He as (_ & -> & Hlen & _).
- unfold receive_response. simpl. rewrite lookup_delete_eq.
rewrite bool_decide_eq_true_2 by set_solver. simpl. rewrite lookup_delete_eq.
rewrite bool_decide_eq_false_2 by set_solver. done.
- apply NoDup_app. split_and!; [done|set_solver|apply NoDup_singleton].
- apply leibniz_equiv. rewrite list_to_set_app. set_solver.
Qed.
(** A disconnected connection is closed for good: whatever the roles, no
request, response or notification is accepted in either direction, and
the only thing a peer can still observe is a cancellation of nothing. *)
Theorem disconnected_rejects_everything (t : ProtocolTracker) (m : WireMessage) :
receive (disconnect t) m
= match m with
| Cancel _ _ => (Ok (CancelObserved false false), disconnect t)
| _ => ((receive (disconnect t) m).1, disconnect t)
end
∧ match m with
| Cancel _ _ => True
| _ => is_ok (receive (disconnect t) m).1 = false
end
∧ is_ok (register_outgoing_message (disconnect t) m).1 = false
∧ is_ok (validate_outgoing_notification (disconnect t) m) = false.
Proof.
assert (∀ method inc, is_ok (check_method (disconnect t) method inc) = false) as Hm.
{ intros method inc. unfold check_method. repeat case_match; try done.
unfold valid_state, attached_ready in *. simpl in *. repeat case_match; done. }
assert (∀ method inc, is_ok (check_notification (disconnect t) method inc) = false) as Hn.
{ intros method inc. unfold check_notification, attached_ready. simpl.
rewrite !andb_false_r. by case_match. }
unfold register_outgoing_message, validate_outgoing_notification, receive, receive_request,
receive_response.
destruct m as [id method params|id res error|method params|id reason]; simpl;
rewrite ?lookup_empty; simpl; try done.
- specialize (Hm method) as Hm'. pose proof (Hm' true). pose proof (Hm' false).
by destruct (check_method _ _ true), (check_method _ _ false).
- pose proof (Hn method true). pose proof (Hn method false).
by destruct (check_notification _ _ true), (check_notification _ _ false).
Qed.

(** Two peers of one connection, with no message in flight: opposite roles, the
same phase and binding, and each one's outgoing requests are the other's
incoming requests. *)
Record mirrored (a b : ProtocolTracker) : Prop := {
mir_role : role a ≠ role b;
mir_state : state a = state b;
mir_max : max_active a = max_active b;
mir_out : outgoing a = incoming b;
mir_in : incoming a = outgoing b;
mir_active : active_execution a = active_execution b;
mir_active_id : active_execution_id a = active_execution_id b;
mir_mode : execution_mode a = execution_mode b;
mir_session : invoking_session_id a = invoking_session_id b }.

Lemma mirrored_sender a b inc : mirrored a b → sender a inc = sender b (negb inc).
Proof. intros [Hr _ _ _ _ _ _ _ _]. unfold sender. by destruct (role a), (role b), inc. Qed.

Lemma mirrored_check_method a b method :
mirrored a b → check_method a method false = check_method b method true.
Proof.
intros Hm. unfold check_method. rewrite (mirrored_sender a b false Hm). simpl.
assert (valid_state a method = valid_state b method) as ->; [|done].
destruct Hm. unfold valid_state, attached_ready.
by rewrite mir_state0, mir_active0, mir_active_id0, mir_mode0, mir_session0.
Qed.

Lemma mirrored_binding a b m :
mirrored a b → validate_request_binding a m = validate_request_binding b m.
Proof.
intros []. unfold validate_request_binding, ensure_bound_identities, ensure_active_execution.
destruct m; [|done..]. by rewrite mir_active_id0, mir_session0.
Qed.

(** The two sides of a connection agree on every request: a request that one
peer registers as outgoing is accepted by its mirrored peer (singleton
requests excepted while one of that method is already active), and the peers are mirrored
again afterwards; when the other peer later commits the response, the
sender accepts it for the same method and both have freed the request. *)
Theorem peers_stay_mirrored (a b a' : ProtocolTracker) (id method : string) (params : Json) :
mirrored a b →
register_outgoing_message a (Request id method params) = (Ok tt, a') →
singleton_method method && method_active b method = false →
∃ b', receive b (Request id method params) = (Ok RequestAccepted, b')
∧ mirrored a' b'
∧ (commit_response b' id).1 = Ok method
∧ ∀ res error,
    (receive a' (Response id res error)).1 = Ok (ResponseAccepted method)
    ∧ mirrored (receive a' (Response id res error)).2 (commit_response b' id).2
    ∧ incoming (commit_response b' id).2 = incoming b.
Proof.
intros Hm. unfold register_outgoing_message, receive, receive_request.
rewrite (mirrored_check_method a b) by done. rewrite (mirrored_binding a b) by done.
case_match; [|done]. unfold insert_outgoing. destruct Hm.
rewrite mir_out0, mir_max0. repeat (case_bool_decide; [done|]). intros [= <-] ->.
eexists. split; [done|]. split; [constructor; simpl; first [done | congruence]|].
unfold commit_response, receive_response. simpl. rewrite !lookup_insert_eq. simpl.
split; [done|]. intros _ _. split; [done|]. split.
- constructor; simpl; first [done | congruence].
- apply delete_insert_id. by apply eq_None_not_Some.
Qed.
End Properties.

(** ** Witnesses *)

(** Deserializers that know one permission request. *)
Definition demo_serde : TrackerSerde := {|
  ts_agent_message _ := Err "unused"; ts_agent_ask _ := Err "unused";
  ts_agent_transcript _ := Err "unused"; ts_permission_request _ := Ok demo_request;
  ts_model_request _ := Err "unused"; ts_user_ask _ := Err "unused";
  ts_sub_agent_create _ := Err "unused"; ts_sub_agent_run _ := Err "unused";
  ts_sub_agent_message _ := Err "unused"; ts_sub_agent_ask _ := Err "unused";
  ts_permission_revoke _ := Err "unused"; ts_execution_event _ := Err "unused" |}.

(** A host in an attached execution whose identities are those of [demo_request]. *)
Definition demo_attached (r : PeerRole) : ProtocolTracker :=
  {| role := r; state := ProgramLoaded; max_active := 4; incoming := ∅; outgoing := ∅;
     cancelled_incoming := ∅; late_outgoing := ∅; late_order := []; late_limit := 4;
     active_execution := true; active_execution_id := Some (pr_execution_id demo_request);
     execution_mode := Some Attached; invoking_session_id := Some (pr_session_id demo_request) |}.

Definition permission_message : WireMessage := Request "p1" "permission/request" JNull.

(** The runtime after it sent an unrelated tool invocation. *)
Definition demo_runtime : ProtocolTracker :=
  (@register_outgoing_request (demo_attached Runtime) "t1" "tool/invoke").2.


Lemma phase_advances_in_order_witness :
  state (@step demo_serde tiny_semver (disconnect (tracker_new Host 2)) OpInitialize)
  = Disconnected.
Proof.
  apply (proj2 (@phase_advances_in_order demo_serde tiny_semver (disconnect (tracker_new Host 2))
                  OpInitialize)).
  reflexivity.
Defined.

Lemma failed_operation_atomic_witness :
  @step demo_serde tiny_semver (tracker_new Host 2) OpCatalog = tracker_new Host 2.
Proof.
  destruct (@failed_operation_atomic demo_serde tiny_semver (tracker_new Host 2) OpCatalog)
    as [Hs|(id & r & e & Hop & _)]; [vm_compute; reflexivity|exact Hs|discriminate Hop].
Defined.


Lemma accepted_permission_bound_witness :
  ∃ p : PermissionRequestParams, PermissionRequestParams_validate p = Ok tt
    ∧ active_execution_id (demo_attached Host) = Some (pr_execution_id p).
Proof.
  destruct (@accepted_permission_bound demo_serde (demo_attached Host)
    (@receive demo_serde (demo_attached Host) permission_message).2 "p1" JNull RequestAccepted)
    as (p & _ & Hv & Hid & _); [vm_compute; reflexivity|].
  exists p. split; [exact Hv|exact Hid].
Defined.

Lemma response_committed_once_witness :
  let t := (@receive demo_serde (demo_attached Host) permission_message).2 in
  (commit_response (commit_response t "p1").2 "p1").1
  = Err (fatal "response commits an unknown incoming ID").
Proof.
  intros t.
  apply (response_committed_once t (commit_response t "p1").2 "p1" "permission/request").
  vm_compute. reflexivity.
Defined.

Lemma late_response_recognized_witness :
  (@receive demo_serde (cancel_outgoing demo_runtime "t1").2 (Response "t1" None None)).1
  = Err (fatal "response arrived after its outgoing request was cancelled").
Proof.
  eapply (@late_response_recognized demo_serde demo_runtime _ "t1").
  - constructor; try (vm_compute; reflexivity); try done; try apply NoDup_nil_2.
    split; [done|]. by intros [|].
  - vm_compute. by intros ?.
  - vm_compute. reflexivity.
Defined.

Lemma peers_stay_mirrored_witness :
  ∃ b', @receive demo_serde (demo_attached Host) permission_message = (Ok RequestAccepted, b')
        ∧ (commit_response b' "p1").1 = Ok "permission/request".
Proof.
  destruct (@peers_stay_mirrored demo_serde (demo_attached Runtime) (demo_attached Host)
    (@register_outgoing_message demo_serde (demo_attached Runtime) permission_message).2
    "p1" "permission/request" JNull) as (b' & Hr & _ & Hc & _).
  - by constructor.
  - vm_compute. reflexivity.
  - vm_compute. reflexivity.
  - exists b'. split; [exact Hr|exact Hc].
Defined.
