(* ===== verification/JoshFraming.v ===== *)
(** * JOSH framing ([crates/josh-protocol/src/framing.rs], the serializer of [message.rs])

    The reader side turns a byte stream into message bodies, with its exact
    error for every malformed prefix; the writer side encodes a message into a
    frame and commits frames in ticket order.  The stream a reader sees is the
    sequence of outcomes of its one-byte reads, so that interrupted and failed
    reads are inputs of the model. *)

From S2P Require Import Prelude Text JoshMessage.
Open Scope string_scope.
Open Scope Z_scope.

Definition DEFAULT_MAX_FRAME_BYTES : Z := 4194304.
Definition MAX_HEADER_LINE_BYTES : Z := 1024.
Definition CONTENT_TYPE_LINE : list Z :=
  bytes "Content-Type: application/josh+json; charset=utf-8".
Definition CRLF : list Z := [13; 10].

(** ** The reader *)

(** One outcome of [Read::read]; the end of the list is the end of the file. *)
Inductive ReadEvent :=
| Byte (b : Z)
| Interrupted
| Failed (error : string).

(** [line] is kept reversed: its head is [line.last()]. *)
Fixpoint read_crlf_loop (clean_eof : bool) (line : list Z) (input : list ReadEvent)
    : result ProtocolError (option (list Z)) * list ReadEvent :=
  match input with
  | [] =>
    match line with
    | [] => if clean_eof then (Ok None, []) else (Err UnexpectedEof, [])
    | _ => (Err UnexpectedEof, [])
    end
  | Interrupted :: input' => read_crlf_loop clean_eof line input'
  | Failed error :: input' => (Err (Io error), input')
  | Byte b :: input' =>
    if b =? 10 then
      match line with
      | 13 :: line' => (Ok (Some (rev line')), input')
      | _ => (Err InvalidHeader, input')
      end
    else if MAX_HEADER_LINE_BYTES + 1 <? Z.of_nat (length (b :: line))
    then (Err HeaderLineTooLong, input')
    else read_crlf_loop clean_eof (b :: line) input'
  end.

Definition read_crlf_line (input : list ReadEvent) (clean_eof : bool)
    : result ProtocolError (option (list Z)) * list ReadEvent :=
  read_crlf_loop clean_eof [] input.

(** [Read::read_exact] with [map_body_read_error]. *)
Fixpoint read_exact (length : nat) (input : list ReadEvent)
    : result ProtocolError (list Z) * list ReadEvent :=
  match length with
  | O => (Ok [], input)
  | S n =>
    (fix next (input : list ReadEvent) :=
       match input with
       | [] => (Err UnexpectedEof, [])
       | Interrupted :: input' => next input'
       | Failed error :: input' => (Err (Io error), input')
       | Byte b :: input' =>
         match read_exact n input' with
         | (Ok body, rest) => (Ok (b :: body), rest)
         | (Err e, rest) => (Err e, rest)
         end
       end) input
  end.

(** [<[u8]>::strip_prefix] *)
Fixpoint strip_bytes (p s : list Z) : option (list Z) :=
  match p, s with
  | [], _ => Some s
  | x :: p', y :: s' => if x =? y then strip_bytes p' s' else None
  | _ :: _, [] => None
  end.

(** The header part of [read_body] up to the length check. *)
Definition content_length (max_frame_bytes : Z) (first : list Z) : result ProtocolError Z :=
  match strip_bytes (bytes "Content-Length: ") first with
  | None => Err InvalidHeader
  | Some digits =>
    if bool_decide (digits = []) || leading_zero digits || negb (forallb is_ascii_digit digits)
    then Err InvalidLength
    else
      match parse_unsigned usize_max digits with
      | Some length =>
        if negb (0 <? length) then Err InvalidLength
        else if max_frame_bytes <? length then Err FrameTooLarge
        else Ok length
      | None => Err InvalidLength
      end
  end.

(** [read_crlf_line(..)?.ok_or(UnexpectedEof)?] followed by the comparison with
    the one accepted line. *)
Definition expect_line (expected : list Z) (input : list ReadEvent)
    : result ProtocolError unit * list ReadEvent :=
  match read_crlf_line input false with
  | (Err e, rest) => (Err e, rest)
  | (Ok None, rest) => (Err UnexpectedEof, rest)
  | (Ok (Some line), rest) =>
    if bytes_eqb line expected then (Ok tt, rest) else (Err InvalidHeader, rest)
  end.

Definition read_body (max_frame_bytes : Z) (input : list ReadEvent)
    : result ProtocolError (option (list Z)) * list ReadEvent :=
  match read_crlf_line input true with
  | (Err e, rest) => (Err e, rest)
  | (Ok None, rest) => (Ok None, rest)
  | (Ok (Some first), rest) =>
    match content_length max_frame_bytes first with
    | Err e => (Err e, rest)
    | Ok length =>
      match expect_line CONTENT_TYPE_LINE rest with
      | (Err e, rest) => (Err e, rest)
      | (Ok _, rest) =>
        match expect_line [] rest with
        | (Err e, rest) => (Err e, rest)
        | (Ok _, rest) =>
          match read_exact (Z.to_nat length) rest with
          | (Err e, rest) => (Err e, rest)
          | (Ok body, rest) => (Ok (Some body), rest)
          end
        end
      end
    end
  end.

(** [FrameReader]: the negotiated bound and the unread input. *)
Record FrameReader := { fr_max : Z; fr_input : list ReadEvent }.

Definition FrameReader_new (input : list ReadEvent) (max_frame_bytes : Z) : FrameReader :=
  {| fr_max := max_frame_bytes; fr_input := input |}.
Definition FrameReader_set_max_frame_bytes (r : FrameReader) (max_frame_bytes : Z) : FrameReader :=
  {| fr_max := max_frame_bytes; fr_input := fr_input r |}.

(** [self.read_body()?.map(decode).transpose()] *)
Definition read_with {A} (decode : list Z → result ProtocolError A) (r : FrameReader)
    : result ProtocolError (option A) * FrameReader :=
  let '(body, rest) := read_body (fr_max r) (fr_input r) in
  let r' := {| fr_max := fr_max r; fr_input := rest |} in
  match body with
  | Err e => (Err e, r')
  | Ok None => (Ok None, r')
  | Ok (Some b) => (let? m := decode b in Ok (Some m), r')
  end.

Definition read_message `{SerdeJson} (r : FrameReader)
    : result ProtocolError (option WireMessage) * FrameReader := read_with decode_message r.
Definition read_value `{SerdeJson} (r : FrameReader)
    : result ProtocolError (option Json) * FrameReader := read_with decode_value r.

(** ** The serializer of messages *)

(** The JSON serde derives for [WireError], and [serde_json::to_vec] on the
    fields [serialize] emits, in the order it emits them. *)
Class SerdeWrite := {
  wire_error_value : WireError → Json;
  to_vec : list (string * Json) → result string (list Z)
}.

Section Write.
Context `{SerdeWrite}.

Definition serialize (m : WireMessage) : list (string * Json) :=
match m with
| Request id method params =>
[("protocol", JString WIRE_PROTOCOL); ("kind", JString "request"); ("id", JString id);
 ("method", JString method); ("params", params)]
| Response id res error =>
[("protocol", JString WIRE_PROTOCOL); ("kind", JString "response"); ("id", JString id)]
++ match res, error with
   | Some r, _ => [("result", r)]
   | None, Some e => [("error", wire_error_value e)]
   | None, None => []
   end
| Notification method params =>
[("protocol", JString WIRE_PROTOCOL); ("kind", JString "notification");
 ("method", JString method); ("params", params)]
| Cancel id reason =>
[("protocol", JString WIRE_PROTOCOL); ("kind", JString "cancel"); ("id", JString id)]
++ match reason with Some r => [("reason", JString r)] | None => [] end
end%list.

Definition encode_message (m : WireMessage) : result ProtocolError (list Z) :=
try? WireMessage_validate m in map_err InvalidJson (to_vec (serialize m)).

Definition frame_bytes (body : list Z) : list Z :=
(bytes "Content-Length: " ++ decimal_bytes (Z.of_nat (length body)) ++ CRLF
++ CONTENT_TYPE_LINE ++ CRLF ++ CRLF ++ body)%list.

Definition encode_frame (m : WireMessage) (max_frame_bytes : Z)
: result ProtocolError (list Z) :=
let? body := encode_message m in
if bool_decide (body = []) || (max_frame_bytes <? Z.of_nat (length body))
then Err FrameTooLarge
else Ok (frame_bytes body).
End Write.

(** ** The ticketed writer

    [SerializedWriter::write_frame] takes a ticket, waits until [serving] reaches
    it, writes and flushes under the lock, and advances [serving] whether or not
    the write succeeded.  Threads interleave between the two atomic parts: a
    state holds the frames of the threads that have a ticket and have not
    written yet. *)
Record SerializedWriter := {
  next_ticket : Z;
  serving : Z;
  written : list Z;
  waiting : gmap nat (Z * list Z);
  sw_max : Z
}.

Definition SerializedWriter_new (max_frame_bytes : Z) : SerializedWriter :=
  {| next_ticket := 0; serving := 0; written := []; waiting := ∅; sw_max := max_frame_bytes |}.

Definition SerializedWriter_set_max_frame_bytes (w : SerializedWriter) (max_frame_bytes : Z)
    : SerializedWriter :=
  {| next_ticket := next_ticket w; serving := serving w; written := written w;
     waiting := waiting w; sw_max := max_frame_bytes |}.

(** [fetch_add] and [wrapping_add] on [u64]. *)
Definition u64_wrapping_succ (n : Z) : Z := (n + 1) mod (u64_max + 1).

(** [next_ticket.fetch_add(1)]: thread [tid] starts to wait with [frame]. *)
Definition take_ticket (w : SerializedWriter) (tid : nat) (frame : list Z) : SerializedWriter :=
  {| next_ticket := u64_wrapping_succ (next_ticket w); serving := serving w;
     written := written w; waiting := <[tid := (next_ticket w, frame)]> (waiting w);
     sw_max := sw_max w |}.

(** The critical section of the thread that is served: it wrote [count] bytes of
    its frame (all of them when the write succeeds), advances and leaves. *)
Definition serve (w : SerializedWriter) (tid : nat) (frame : list Z) (count : nat)
    : SerializedWriter :=
  {| next_ticket := next_ticket w; serving := u64_wrapping_succ (serving w);
     written := (written w ++ take count frame)%list; waiting := delete tid (waiting w);
     sw_max := sw_max w |}.

Inductive writer_event :=
| TakeTicket (tid : nat) (frame : list Z)
| WriteAll (tid : nat) (frame : list Z)
| WriteFailed (tid : nat) (frame : list Z) (count : nat)
| SetMax (max_frame_bytes : Z).

Inductive writer_step : SerializedWriter → writer_event → SerializedWriter → Prop :=
| step_take w tid frame :
    waiting w !! tid = None → writer_step w (TakeTicket tid frame) (take_ticket w tid frame)
| step_write w tid frame :
    waiting w !! tid = Some (serving w, frame) →
    writer_step w (WriteAll tid frame) (serve w tid frame (length frame))
| step_failed w tid frame count :
    waiting w !! tid = Some (serving w, frame) → (count <= length frame)%nat →
    writer_step w (WriteFailed tid frame count) (serve w tid frame count)
| step_set_max w max :
    writer_step w (SetMax max) (SerializedWriter_set_max_frame_bytes w max).

Inductive writer_trace (max : Z) : list writer_event → SerializedWriter → Prop :=
| trace_nil : writer_trace max [] (SerializedWriter_new max)
| trace_snoc tr w e w' :
    writer_trace max tr w → writer_step w e w' → writer_trace max (tr ++ [e])%list w'.

(** The frames in the order their callers took tickets, and what each served
    write put on the stream, in the order of the writes. *)
Fixpoint taken (tr : list writer_event) : list (list Z) :=
  match tr with
  | [] => []
  | TakeTicket _ frame :: tr' => frame :: taken tr'
  | _ :: tr' => taken tr'
  end.

Fixpoint served (tr : list writer_event) : list (list Z * nat) :=
  match tr with
  | [] => []
  | WriteAll _ frame :: tr' => (frame, length frame) :: served tr'
  | WriteFailed _ frame count :: tr' => (frame, count) :: served tr'
  | _ :: tr' => served tr'
  end.

Lemma taken_app tr tr' : taken (tr ++ tr') = (taken tr ++ taken tr')%list.
Proof. induction tr as [|[] tr IH]; simpl; by rewrite ?IH. Qed.

Lemma served_app tr tr' : served (tr ++ tr') = (served tr ++ served tr')%list.
Proof. induction tr as [|[] tr IH]; simpl; by rewrite ?IH. Qed.

(** ** Lemmas: lines *)

Definition no_newline (line : list Z) : Prop := Forall (λ b, b ≠ 10) line.

Lemma read_crlf_loop_line ce acc line rest :
  no_newline line → (length acc + length line <= 1024)%nat →
  read_crlf_loop ce acc (map Byte (line ++ CRLF) ++ rest)
  = (Ok (Some (rev acc ++ line)%list), rest).
Proof.
  intros Hn. revert acc. induction Hn as [|b line Hb Hn IH]; intros acc Hlen.
  - simpl in *. unfold MAX_HEADER_LINE_BYTES.
    rewrite (proj2 (Z.ltb_ge _ _)) by lia. by rewrite app_nil_r.
  - cbn [app map read_crlf_loop]. simpl in Hlen.
    rewrite (proj2 (Z.eqb_neq b 10)) by done. unfold MAX_HEADER_LINE_BYTES.
    rewrite (proj2 (Z.ltb_ge _ _)) by (simpl; lia).
    rewrite IH by (simpl; lia). simpl. by rewrite <- (assoc (++)%list).
Qed.

Lemma read_crlf_line_ok ce line rest :
  no_newline line → (length line <= 1024)%nat →
  read_crlf_line (map Byte (line ++ CRLF) ++ rest) ce = (Ok (Some line), rest).
Proof. intros. unfold read_crlf_line. rewrite read_crlf_loop_line; [done..|]. simpl; lia. Qed.

Lemma no_newline_bytes s : forallb (λ b, negb (b =? 10)) (bytes s) = true → no_newline (bytes s).
Proof.
  rewrite forallb_forall. intros Hf. apply Forall_forall. intros b Hb.
  apply list_elem_of_In, Hf in Hb. boolify. done.
Qed.

Lemma digits_no_newline ds : all_digits ds = true → no_newline ds.
Proof.
  unfold all_digits. rewrite forallb_forall. intros Hf. apply Forall_forall. intros b Hb.
  apply list_elem_of_In, Hf in Hb. unfold is_ascii_digit in Hb. apply between_spec in Hb. lia.
Qed.

Lemma strip_bytes_Some p s r : strip_bytes p s = Some r ↔ s = (p ++ r)%list.
Proof.
  revert s. induction p as [|x p IH]; intros s; simpl; [naive_solver|].
  destruct s as [|y s]; [naive_solver|]. destruct (Z.eqb_spec x y) as [->|Hne].
  - rewrite IH. naive_solver.
  - naive_solver.
Qed.

Lemma read_exact_bytes body rest :
  read_exact (length body) (map Byte body ++ rest) = (Ok body, rest).
Proof. induction body as [|b body IH]; simpl; [done|]. by rewrite IH. Qed.

(** The shortest decimal form of a length has at most twenty digits. *)
Lemma decimal_bytes_short n : 0 <= n <= usize_max → (length (decimal_bytes n) <= 20)%nat.
Proof.
  intros Hn. pose proof (decimal_padded_length 20 n) as Hl. unfold decimal_padded in Hl.
  rewrite length_app, length_replicate in Hl. unfold usize_max, u64_max in Hn. lia.
Qed.

(** ** Lemmas: canonical lengths *)

Lemma content_length_ok max first n :
  content_length max first = Ok n →
  0 < n <= max ∧ first = (bytes "Content-Length: " ++ decimal_bytes n)%list.
Proof.
  unfold content_length. destruct (strip_bytes _ first) as [ds|] eqn:Hs; [|done].
  case_match eqn:Hc; [done|]. destruct (parse_unsigned _ _) as [v|] eqn:Hp; [|done].
  case_match; [done|]. case_match; [done|]. intros [= <-]. boolify.
  split; [lia|]. apply strip_bytes_Some in Hs. rewrite Hs. f_equal.
  unfold parse_unsigned in Hp. case_match; [|done]. injection Hp as <-.
  apply canonical_unique; [done|apply decimal_canonical; lia|].
  rewrite digits_value_decimal; [done|lia].
Qed.

Lemma content_length_decimal max n :
  0 < n <= max → max <= usize_max →
  content_length max (bytes "Content-Length: " ++ decimal_bytes n) = Ok n.
Proof.
  intros Hn Hm. unfold content_length.
  rewrite (proj2 (strip_bytes_Some _ _ (decimal_bytes n))) by done.
  destruct (decimal_canonical n) as (Hne & Hz & Hall); [lia|].
  rewrite Hz, Hall, bool_decide_eq_false_2 by done. simpl.
  rewrite parse_decimal_bytes by lia. rewrite (proj2 (Z.ltb_lt 0 n)) by lia. simpl.
  by rewrite (proj2 (Z.ltb_ge max n)) by lia.
Qed.

(** ** Lemmas: what the reader consumed *)

(** The bytes of a stream of outcomes, when nothing failed. *)
Fixpoint payload (input : list ReadEvent) : list Z :=
  match input with
  | [] => []
  | Byte b :: input' => b :: payload input'
  | _ :: input' => payload input'
  end.

Definition quiet (e : ReadEvent) : bool := match e with Failed _ => false | _ => true end.

Lemma read_crlf_loop_inv ce acc input line rest :
  read_crlf_loop ce acc input = (Ok (Some line), rest) →
  ∃ used, input = (used ++ rest)%list ∧ forallb quiet used = true
    ∧ (rev acc ++ payload used)%list = (line ++ CRLF)%list.
Proof.
  revert acc. induction input as [|ev input IH]; intros acc Hr; simpl in Hr.
  { destruct acc, ce; discriminate. }
  destruct ev as [b| |err]; [|apply IH in Hr as (used & -> & ? & ?);
                               by exists (Interrupted :: used)|done].
  destruct (Z.eqb_spec b 10) as [->|Hb].
  - destruct acc as [|x acc]; [done|].
    destruct (Z.eq_dec x 13) as [->|Hx].
    + injection Hr as <- <-. exists [Byte 10]. split_and!; try done.
      simpl. by rewrite <- (assoc (++)%list).
    + exfalso. destruct x as [|p|p]; try done. do 5 (destruct p as [p|p|]; try done).
  - case_match; [done|]. apply IH in Hr as (used & -> & Hq & Hp). exists (Byte b :: used).
    split_and!; try done. simpl in *. by rewrite <- (assoc (++)%list) in Hp.
Qed.

Lemma read_exact_inv n input body rest :
  read_exact n input = (Ok body, rest) →
  ∃ used, input = (used ++ rest)%list ∧ forallb quiet used = true
    ∧ payload used = body ∧ length body = n.
Proof.
  revert input body. induction n as [|n IH]; intros input body; simpl.
  { intros [= <- <-]. by exists []. }
  induction input as [|ev input IHi]; intros Hr; [done|].
  destruct ev as [b| |err]; [|apply IHi in Hr as (used & -> & ? & ? & ?);
                               by exists (Interrupted :: used)|done].
  destruct (read_exact n input) as [[bs|] r] eqn:He; [|done]. injection Hr as <- <-.
  apply IH in He as (used & -> & ? & <- & ?). exists (Byte b :: used). simpl. auto.
Qed.

Lemma expect_line_inv expected input rest :
  expect_line expected input = (Ok tt, rest) →
  ∃ used, input = (used ++ rest)%list ∧ forallb quiet used = true
    ∧ payload used = (expected ++ CRLF)%list.
Proof.
  unfold expect_line, read_crlf_line.
  destruct (read_crlf_loop _ _ _) as [[[line|]|] r] eqn:Hl; try done.
  unfold bytes_eqb. case_bool_decide; [|done]. intros [= <-]. subst.
  apply read_crlf_loop_inv in Hl as (used & -> & ? & ?). by exists used.
Qed.

Lemma payload_app a b : payload (a ++ b) = (payload a ++ payload b)%list.
Proof. induction a as [|[] a IH]; simpl; by rewrite ?IH. Qed.

Lemma frame_bytes_lines body :
  frame_bytes body
  = (((bytes "Content-Length: " ++ decimal_bytes (Z.of_nat (length body))) ++ CRLF)
     ++ (CONTENT_TYPE_LINE ++ CRLF) ++ ([] ++ CRLF) ++ body)%list.
Proof. unfold frame_bytes. by rewrite <- !(assoc (++)%list). Qed.

Lemma map_Byte_app a b rest :
  (map Byte (a ++ b) ++ rest)%list = (map Byte a ++ (map Byte b ++ rest))%list.
Proof. by rewrite map_app, (assoc (++)%list). Qed.

Lemma read_body_frame max body rest :
  0 < Z.of_nat (length body) <= max → max <= usize_max →
  read_body max (map Byte (frame_bytes body) ++ rest) = (Ok (Some body), rest).
Proof.
  intros Hl Hm. rewrite frame_bytes_lines. unfold read_body.
  rewrite (map_Byte_app ((_ ++ _) ++ CRLF) ((CONTENT_TYPE_LINE ++ CRLF) ++ _)),
    (map_Byte_app (CONTENT_TYPE_LINE ++ CRLF) (([] ++ CRLF) ++ _)), (map_Byte_app ([] ++ CRLF)).
  rewrite read_crlf_line_ok; first last.
  { rewrite length_app. pose proof (decimal_bytes_short (Z.of_nat (length body))).
    change (length (bytes "Content-Length: ")) with 16%nat. unfold usize_max in *. lia. }
  { apply Forall_app. split; [by apply no_newline_bytes|].
    apply digits_no_newline, decimal_bytes_digits. }
  rewrite content_length_decimal by done. unfold expect_line.
  rewrite read_crlf_line_ok; [|by apply no_newline_bytes|vm_compute; lia].
  unfold bytes_eqb. rewrite bool_decide_eq_true_2 by done.
  rewrite read_crlf_line_ok; [|by constructor|simpl; lia].
  rewrite bool_decide_eq_true_2 by done. by rewrite Nat2Z.id, read_exact_bytes.
Qed.

Lemma read_crlf_loop_consumes ce acc input r rest :
  (length acc <= 1025)%nat →
  read_crlf_loop ce acc input = (r, rest) →
  ∃ used, input = (used ++ rest)%list ∧ (length acc + length (payload used) <= 1026)%nat.
Proof.
  revert acc. induction input as [|ev input IH]; intros acc Ha Hr; simpl in Hr.
  { exists []. assert (rest = []) as -> by (destruct acc, ce; simplify_eq; done).
    simpl. split; [done|lia]. }
  destruct ev as [b| |err].
  - case_match.
    + exists [Byte b]. assert (input = rest) as -> by (repeat case_match; simplify_eq; done).
      simpl. split; [done|lia].
    + case_match eqn:Hlen.
      * exists [Byte b]. simplify_eq. simpl. split; [done|lia].
      * apply Z.ltb_ge in Hlen. unfold MAX_HEADER_LINE_BYTES in Hlen. cbn [length] in Hlen.
        apply IH in Hr as (used & -> & ?); [|cbn [length]; lia]. exists (Byte b :: used). simpl in *.
        split; [done|lia].
  - apply IH in Hr as (used & -> & ?); [|done]. by exists (Interrupted :: used).
  - exists [Failed err]. simplify_eq. simpl. split; [done|lia].
Qed.

Lemma read_exact_consumes n input r rest :
  read_exact n input = (r, rest) →
  ∃ used, input = (used ++ rest)%list ∧ (length (payload used) <= n)%nat.
Proof.
  revert input r. induction n as [|n IH]; intros input r; simpl.
  { intros [= <- <-]. by exists []. }
  induction input as [|ev input IHi]; intros Hr; [exists []; simplify_eq; simpl; split; [done|lia]|].
  destruct ev as [b| |err].
  - destruct (read_exact n input) as [[bs|] r'] eqn:He; simplify_eq;
      apply IH in He as (used & -> & ?); exists (Byte b :: used); simpl; split; by try lia.
  - apply IHi in Hr as (used & -> & ?). by exists (Interrupted :: used).
  - exists [Failed err]. simplify_eq. simpl. split; [done|lia].
Qed.

Lemma expect_line_consumes expected input r rest :
  expect_line expected input = (r, rest) →
  ∃ used, input = (used ++ rest)%list ∧ (length (payload used) <= 1026)%nat.
Proof.
  unfold expect_line. destruct (read_crlf_line input false) as [o r'] eqn:Hl. intros Hr.
  assert (r' = rest) as -> by (repeat case_match; simplify_eq; done).
  unfold read_crlf_line in Hl. apply read_crlf_loop_consumes in Hl; [|simpl; lia]. done.
Qed.

(** ** Properties: the reader *)

(** Framing round trip: a non-empty body within the negotiated limit, framed
    by the encoder and followed by anything, is read back exactly, and the reader
    stops at the first byte after the frame. *)
Theorem frame_roundtrip `{SerdeWrite} (max : Z) (m : WireMessage) (frame : list Z)
    (rest : list ReadEvent) :
  max <= usize_max → encode_frame m max = Ok frame →
  ∃ body, encode_message m = Ok body ∧ frame = frame_bytes body
    ∧ read_body max (map Byte frame ++ rest) = (Ok (Some body), rest).
Proof.
  intros Hm. unfold encode_frame. destruct (encode_message m) as [body|] eqn:He; [|done].
  case_match eqn:Hc; [done|]. intros [= <-]. boolify. exists body. split_and!; [done..|].
  apply read_body_frame; [|done]. destruct body; [done|]. simpl in *. lia.
Qed.

(** The reader accepts canonical frames only: whenever it returns a body, the
    bytes it consumed are exactly the encoder's frame of that body (no other
    header spelling, length spelling, header order or line ending is accepted),
    the body is within the limit, and no read failed on the way. *)
Theorem read_body_canonical (max : Z) (input rest : list ReadEvent) (body : list Z) :
  read_body max input = (Ok (Some body), rest) →
  0 < Z.of_nat (length body) <= max
  ∧ ∃ used, input = (used ++ rest)%list ∧ forallb quiet used = true
      ∧ payload used = frame_bytes body.
Proof.
  unfold read_body. destruct (read_crlf_line input true) as [[[first|]|] r1] eqn:H1; try done.
  destruct (content_length max first) as [n|] eqn:Hc; [|done].
  destruct (expect_line CONTENT_TYPE_LINE r1) as [[[]|] r2] eqn:H2; [|done].
  destruct (expect_line [] r2) as [[[]|] r3] eqn:H3; [|done].
  destruct (read_exact (Z.to_nat n) r3) as [[b|] r4] eqn:H4; [|done]. intros [= <- <-].
  apply content_length_ok in Hc as [Hn ->].
  unfold read_crlf_line in H1. apply read_crlf_loop_inv in H1 as (u1 & -> & Q1 & P1).
  apply expect_line_inv in H2 as (u2 & -> & Q2 & P2).
  apply expect_line_inv in H3 as (u3 & -> & Q3 & P3).
  apply read_exact_inv in H4 as (u4 & -> & Q4 & P4 & L4).
  split; [lia|]. exists (u1 ++ u2 ++ u3 ++ u4)%list. split_and!.
  - by rewrite <- !(assoc (++)%list).
  - by rewrite !forallb_app, Q1, Q2, Q3, Q4.
  - rewrite !payload_app, P2, P3, P4, frame_bytes_lines. simpl in P1. rewrite P1, L4.
    by rewrite Z2Nat.id by lia.
Qed.

(** A peer cannot make the reader buffer without bound: whatever the stream
    and whatever the outcome, one frame read consumes at most three header lines
    of 1,026 bytes and a body of the negotiated limit. *)
Theorem read_body_bounded (max : Z) (input rest : list ReadEvent)
    (r : result ProtocolError (option (list Z))) :
  read_body max input = (r, rest) →
  ∃ used, input = (used ++ rest)%list
    ∧ Z.of_nat (length (payload used)) <= 3 * 1026 + Z.max 0 max.
Proof.
  unfold read_body, read_crlf_line. destruct (read_crlf_loop true [] input) as [o r1] eqn:H1.
  apply read_crlf_loop_consumes in H1 as (u1 & -> & L1); [|simpl; lia]. simpl in L1.
  destruct o as [[first|]|]; [|intros [= _ <-]; exists u1; split; [done|lia]..].
  destruct (content_length max first) as [n|] eqn:Hc;
    [|intros [= _ <-]; exists u1; split; [done|lia]].
  apply content_length_ok in Hc as [Hn _].
  destruct (expect_line CONTENT_TYPE_LINE r1) as [o2 r2] eqn:H2.
  apply expect_line_consumes in H2 as (u2 & -> & L2).
  destruct o2 as [[]|]; [|intros [= _ <-]; exists (u1 ++ u2)%list;
    rewrite payload_app, length_app, <- (assoc (++)%list); split; [done|lia]].
  destruct (expect_line [] r2) as [o3 r3] eqn:H3.
  apply expect_line_consumes in H3 as (u3 & -> & L3).
  destruct o3 as [[]|]; [|intros [= _ <-]; exists (u1 ++ u2 ++ u3)%list;
    rewrite !payload_app, !length_app, <- !(assoc (++)%list); split; [done|lia]].
  destruct (read_exact (Z.to_nat n) r3) as [o4 r4] eqn:H4.
  apply read_exact_consumes in H4 as (u4 & -> & L4). intros Hr.
  assert (rest = r4) as -> by (destruct o4; simplify_eq; done).
  exists (u1 ++ u2 ++ u3 ++ u4)%list.
  rewrite !payload_app, !length_app, <- !(assoc (++)%list). split; [done|lia].
Qed.

(** ** Lemmas: the writer *)

(** What a trace fixes about the state it leads to, as long as the ticket counter
    has not wrapped around. *)
Record writer_inv (tr : list writer_event) (w : SerializedWriter) : Prop := {
  wi_next : next_ticket w = Z.of_nat (length (taken tr));
  wi_serving : serving w = Z.of_nat (length (served tr));
  wi_le : (length (served tr) <= length (taken tr))%nat;
  wi_order : map fst (served tr) = take (length (served tr)) (taken tr);
  wi_written : written w = concat (map (λ p, take p.2 p.1) (served tr));
  wi_waiting tid ticket frame :
    waiting w !! tid = Some (ticket, frame) →
    ∃ k, ticket = Z.of_nat k ∧ (length (served tr) <= k)%nat ∧ taken tr !! k = Some frame;
  wi_unique tid tid' p p' :
    waiting w !! tid = Some p → waiting w !! tid' = Some p' → p.1 = p'.1 → tid = tid';
  wi_covered k :
    (length (served tr) <= k < length (taken tr))%nat →
    ∃ tid frame, waiting w !! tid = Some (Z.of_nat k, frame)
}.

Lemma wrapping_succ_small n : (Z.of_nat n < u64_max) → u64_wrapping_succ (Z.of_nat n) = Z.of_nat (S n).
Proof. intros Hn. unfold u64_wrapping_succ. rewrite Z.mod_small; lia. Qed.

Lemma take_ticket_inv tr w tid frame :
  writer_inv tr w → waiting w !! tid = None →
  Z.of_nat (length (taken tr)) < u64_max →
  writer_inv (tr ++ [TakeTicket tid frame]) (take_ticket w tid frame).
Proof.
  intros [] Hnone Hlt.
  assert (taken (tr ++ [TakeTicket tid frame]) = taken tr ++ [frame])%list as Ht
    by (by rewrite taken_app).
  assert (served (tr ++ [TakeTicket tid frame]) = served tr) as Hs
    by (rewrite served_app; simpl; by rewrite app_nil_r).
  constructor; simpl; rewrite ?Ht, ?Hs, ?length_app; simpl; try done.
  - rewrite wi_next0, wrapping_succ_small by done. lia.
  - lia.
  - by rewrite take_app_le by done.
  - intros tid' ticket f Hl. destruct (decide (tid' = tid)) as [->|Hne].
    + rewrite lookup_insert_eq in Hl. injection Hl as <- <-. exists (length (taken tr)).
      split_and!; [done..|]. by rewrite lookup_app_r, Nat.sub_diag by done.
    + rewrite lookup_insert_ne in Hl by done. apply wi_waiting0 in Hl as (k & -> & ? & Hk).
      exists k. split_and!; [done..|]. by apply lookup_app_l_Some.
  - intros t1 t2 p1 p2 H1 H2 Hp.
    assert (∀ t p, waiting w !! t = Some p → p.1 ≠ next_ticket w) as Hfresh.
    { intros t [tk f] Hl. apply wi_waiting0 in Hl as (k & -> & _ & Hk).
      apply lookup_lt_Some in Hk. simpl. lia. }
    destruct (decide (t1 = tid)) as [->|N1], (decide (t2 = tid)) as [->|N2]; [done| | |].
    + rewrite lookup_insert_eq in H1. rewrite lookup_insert_ne in H2 by done.
      injection H1 as <-. by apply Hfresh in H2.
    + rewrite lookup_insert_eq in H2. rewrite lookup_insert_ne in H1 by done.
      injection H2 as <-. by apply Hfresh in H1.
    + rewrite lookup_insert_ne in H1, H2 by done. eauto.
  - intros k Hk. destruct (decide (k = length (taken tr))) as [->|Hne].
    + exists tid, frame. rewrite lookup_insert_eq. by rewrite wi_next0.
    + destruct (wi_covered0 k) as (t & f & Hl); [lia|]. exists t, f.
      rewrite lookup_insert_ne; [done|]. congruence.
Qed.

Lemma serve_inv tr w tid frame count e :
  writer_inv tr w → waiting w !! tid = Some (serving w, frame) →
  Z.of_nat (length (taken tr)) <= u64_max →
  taken [e] = [] → served [e] = [(frame, count)] →
  writer_inv (tr ++ [e]) (serve w tid frame count).
Proof.
  intros [] Hl Hlt He1 He2.
  destruct (wi_waiting0 _ _ _ Hl) as (k & Hk & Hge & Hf).
  assert (k = length (served tr)) as -> by lia. pose proof (lookup_lt_Some _ _ _ Hf).
  constructor; simpl; rewrite ?taken_app, ?served_app, ?He1, ?He2, ?app_nil_r, ?length_app;
    simpl; try done.
  - rewrite wi_serving0, wrapping_succ_small by lia. lia.
  - lia.
  - rewrite map_app, wi_order0. simpl. rewrite Nat.add_1_r. by erewrite take_S_r.
  - rewrite map_app, concat_app, wi_written0. simpl. by rewrite app_nil_r.
  - intros t tk f Ht. rewrite lookup_delete_Some in Ht. destruct Ht as [Hne Ht].
    destruct (wi_waiting0 _ _ _ Ht) as (j & -> & Hj & Hjf). exists j. split_and!; try done.
    destruct (decide (j = length (served tr))) as [->|]; [|lia].
    destruct Hne. eapply wi_unique0; [exact Hl|exact Ht|]. simpl. lia.
  - intros t1 t2 p1 p2 H1 H2. rewrite lookup_delete_Some in H1, H2.
    destruct H1, H2. by apply wi_unique0.
  - intros j Hj. destruct (wi_covered0 j) as (t & f & Ht); [lia|]. exists t, f.
    rewrite lookup_delete_ne; [done|]. intros ->. rewrite Hl in Ht. injection Ht as ? _. lia.
Qed.

Lemma set_max_inv tr w max :
  writer_inv tr w →
  writer_inv (tr ++ [SetMax max]) (SerializedWriter_set_max_frame_bytes w max).
Proof.
  intros []. constructor; simpl; rewrite ?taken_app, ?served_app, ?app_nil_r; by auto.
Qed.

Lemma writer_trace_inv max tr w :
  writer_trace max tr w → Z.of_nat (length (taken tr)) <= u64_max → writer_inv tr w.
Proof.
  induction 1 as [|tr w e w' Htr IH Hs]; intros Hlen.
  { constructor; simpl; try done. intros k Hk. simpl in Hk. lia. }
  rewrite taken_app, length_app in Hlen.
  specialize (IH ltac:(lia)).
  inversion Hs; subst; simpl in Hlen.
  - apply take_ticket_inv; [done..|lia].
  - eapply serve_inv; [done..|lia|done|done].
  - eapply serve_inv; [done..|lia|done|done].
  - by apply set_max_inv.
Qed.

(** ** Properties: the writer *)

(** Frames reach the stream in the order in which their callers took tickets,
    each one contiguous (a failed write leaves a prefix of its own frame, never
    an interleaving), and no caller waits forever: while any thread waits, the
    one holding the served ticket waits too and can write. *)
Theorem writer_commits_in_ticket_order (max : Z) (tr : list writer_event) (w : SerializedWriter) :
  writer_trace max tr w → Z.of_nat (length (taken tr)) <= u64_max →
  map fst (served tr) = take (length (served tr)) (taken tr)
  ∧ written w = concat (map (λ p, take p.2 p.1) (served tr))
  ∧ (waiting w = ∅ → map fst (served tr) = taken tr)
  ∧ (waiting w ≠ ∅ → ∃ tid frame w',
       waiting w !! tid = Some (serving w, frame) ∧ writer_step w (WriteAll tid frame) w').
Proof.
  intros Htr Hlen. destruct (writer_trace_inv _ _ _ Htr Hlen). split_and!; [done..| |].
  - intros He. rewrite wi_order0. apply take_ge.
    destruct (decide (length (taken tr) <= length (served tr))%nat) as [|Hn]; [done|].
    destruct (wi_covered0 (length (served tr))) as (tid & f & Hl); [lia|].
    by rewrite He, lookup_empty in Hl.
  - intros [tid [[ticket f] Hl]]%map_choose.
    destruct (wi_waiting0 _ _ _ Hl) as (k & -> & Hk & Hf). apply lookup_lt_Some in Hf.
    destruct (wi_covered0 (length (served tr))) as (tid' & f' & Hl'); [lia|].
    rewrite <- wi_serving0 in Hl'. exists tid', f'. eexists. split; [done|]. by constructor.
Qed.

(** The bodies a reader gets from a stream until it ends or errs. *)
Fixpoint read_bodies (fuel : nat) (max : Z) (input : list ReadEvent)
    : list (list Z) * result ProtocolError (option (list Z)) :=
  match fuel with
  | O => ([], Ok None)
  | S fuel' =>
    match read_body max input with
    | (Ok (Some body), rest) =>
      let '(bodies, e) := read_bodies fuel' max rest in (body :: bodies, e)
    | (r, _) => ([], r)
    end
  end.

Lemma read_bodies_frames max bodies :
  max <= usize_max → Forall (λ b, 0 < Z.of_nat (length b) <= max) bodies →
  read_bodies (S (length bodies)) max (map Byte (concat (map frame_bytes bodies)))
  = (bodies, Ok None).
Proof.
  intros Hm. induction 1 as [|b bodies Hb _ IH]; [done|].
  cbn [concat map length]. rewrite map_app.
  change (read_bodies (S (S (length bodies))) max ?i) with
    (match read_body max i with
     | (Ok (Some body), rest) =>
       let '(bs, e) := read_bodies (S (length bodies)) max rest in (body :: bs, e)
     | (r, _) => ([], r)
     end).
  rewrite read_body_frame by done. by rewrite IH.
Qed.

(** C39. End to end, whatever the interleaving of the writing threads: once every
    caller has returned and no write failed, a peer that reads the stream gets
    the bodies in ticket order and then a clean end of file. *)
Theorem writer_reader_agree (max : Z) (tr : list writer_event) (w : SerializedWriter)
    (bodies : list (list Z)) :
  writer_trace max tr w → Z.of_nat (length (taken tr)) <= u64_max →
  waiting w = ∅ → max <= usize_max →
  taken tr = map frame_bytes bodies →
  Forall (λ p, p.2 = length p.1) (served tr) →
  Forall (λ b, 0 < Z.of_nat (length b) <= max) bodies →
  read_bodies (S (length bodies)) max (map Byte (written w)) = (bodies, Ok None).
Proof.
  intros Htr Hlen He Hm Ht Hok Hb. destruct (writer_trace_inv _ _ _ Htr Hlen).
  rewrite wi_written0.
  assert (map (λ p : list Z * nat, take p.2 p.1) (served tr) = map fst (served tr)) as ->.
  { clear -Hok. induction Hok as [|[f n] l Hp _ IH]; simpl; [done|]. simpl in Hp. subst.
    by rewrite firstn_all, IH. }
  rewrite wi_order0, take_ge.
  - rewrite Ht. by apply read_bodies_frames.
  - destruct (decide (length (taken tr) <= length (served tr))%nat) as [|Hn]; [done|].
    destruct (wi_covered0 (length (served tr))) as (tid & f & Hl); [lia|].
    by rewrite He, lookup_empty in Hl.
Qed.

(** ** Messages on the wire *)

(** The tokens of a printed value. *)
Fixpoint raw_of (v : Json) : RawJson :=
  match v with
  | JNull => RNull
  | JBool b => RBool b
  | JNumber n => RNumber n
  | JString s => RString s
  | JArray l => RSeq (map raw_of l)
  | JObject m => RMap (map (λ p, (p.1, raw_of p.2)) m)
  end.

Fixpoint Json_rect' (P : Json → Prop)
  (Hnull : P JNull) (Hbool : ∀ b, P (JBool b)) (Hnum : ∀ n, P (JNumber n))
  (Hstr : ∀ s, P (JString s)) (Harr : ∀ l, Forall P l → P (JArray l))
  (Hobj : ∀ m, Forall (λ kv, P kv.2) m → P (JObject m)) (v : Json) : P v :=
  let rec := Json_rect' P Hnull Hbool Hnum Hstr Harr Hobj in
  match v with
  | JNull => Hnull
  | JBool b => Hbool b
  | JNumber n => Hnum n
  | JString s => Hstr s
  | JArray l =>
    Harr l ((fix go (l : list Json) : Forall P l :=
      match l with
      | [] => List.Forall_nil _
      | x :: l' => List.Forall_cons _ x l' (rec x) (go l')
      end) l)
  | JObject m =>
    Hobj m ((fix go (m : list (string * Json)) : Forall (λ kv, P kv.2) m :=
      match m with
      | [] => List.Forall_nil _
      | (k, x) :: m' => List.Forall_cons _ (k, x) m' (rec x) (go m')
      end) m)
  end.

Lemma btree_get_none {V} k (m : list (string * V)) : (k ∉ map fst m) → btree_get k m = None.
Proof.
  induction m as [|[k' v] m IH]; simpl; [done|]. rewrite not_elem_of_cons. intros [Hne Hn].
  rewrite (proj2 (String.eqb_neq k k')) by done. by apply IH.
Qed.

Lemma btree_insert_last {V} k (v : V) m :
  Forall (λ k', str_ltb k' k = true) (map fst m) → btree_insert k v m = (m ++ [(k, v)])%list.
Proof.
  induction m as [|[k' v'] m IH]; simpl; [done|]. rewrite Forall_cons. intros [Hk Hm].
  rewrite (proj2 (str_compare_Gt k k') Hk). by rewrite IH.
Qed.

(** The visitor of one object, as a function of the values read so far. *)
Fixpoint visit_map (values : list (string * Json)) (m : list (string * RawJson))
    : result string (list (string * Json)) :=
  match m with
  | [] => Ok values
  | (k, x) :: m' =>
    if btree_contains k values
    then Err ("duplicate JSON key '" ++ k ++ "'")%string
    else let? v := visit x in visit_map (btree_insert k v values) m'
  end.

Lemma visit_RMap m : visit (RMap m) = let? values := visit_map [] m in Ok (JObject values).
Proof.
  simpl. generalize (@nil (string * Json)) as acc. induction m as [|[k x] m IH]; intros acc; [done|].
  simpl. destruct (btree_contains k acc); [done|]. destruct (visit x); [|done]. apply IH.
Qed.

Lemma visit_map_sorted acc m :
  btree_sorted (acc ++ m) → Forall (λ kv, visit (raw_of kv.2) = Ok kv.2) m →
  visit_map acc (map (λ p, (p.1, raw_of p.2)) m) = Ok (acc ++ m)%list.
Proof.
  revert acc. induction m as [|[k v] m IH]; intros acc Hs Hv; simpl; [by rewrite app_nil_r|].
  apply Forall_cons in Hv as [Hv Hm]. simpl in Hv. rewrite Hv.
  assert (Forall (λ k', str_ltb k' k = true) (map fst acc)) as Hlt.
  { unfold btree_sorted in Hs. rewrite map_app in Hs. simpl in Hs.
    clear -Hs. induction (map fst acc) as [|y l IHl]; [constructor|].
    simpl in Hs. inversion Hs as [|? ? Hs' Hall]; subst. constructor; [|by apply IHl].
    apply Forall_app in Hall as [_ Hall]. by apply Forall_cons in Hall as [? _]. }
  unfold btree_contains. rewrite btree_get_none.
  - rewrite btree_insert_last by done. rewrite IH; [by rewrite <- (assoc (++)%list)| |done].
    by rewrite <- (assoc (++)%list).
  - intros Hin. rewrite Forall_forall in Hlt. apply Hlt in Hin. by rewrite str_ltb_irrefl in Hin.
Qed.

Lemma visit_RSeq l : visit (RSeq l) = let? vs := collect visit l in Ok (JArray vs).
Proof.
  induction l as [|x l IH]; simpl; [done|]. destruct (visit x); [|done].
  revert IH. simpl. destruct (collect visit l); simpl; repeat case_match; congruence.
Qed.

(** Reading back a printed value gives the value. *)
Lemma visit_raw v : json_unique v → visit (raw_of v) = Ok v.
Proof.
  induction v as [| | | |l IH|m IH] using Json_rect'; intros Hu; try done.
  - simpl raw_of. rewrite visit_RSeq.
    assert (collect visit (map raw_of l) = Ok l) as ->; [|done].
    simpl in Hu. induction IH as [|x l Hx _ IHl]; [done|]. destruct Hu as [Hux Hul].
    simpl. by rewrite Hx, IHl.
  - apply json_unique_object in Hu as [Hs Hv]. simpl raw_of. rewrite visit_RMap.
    rewrite visit_map_sorted; [done|done|].
    clear Hs. induction IH as [|[k x] m Hx _ IHm]; [constructor|].
    inversion Hv; subst. constructor; auto.
Qed.

(** Reading printed fields in any order gives the object with those fields. *)
Lemma visit_map_fields acc m :
  btree_sorted acc → NoDup (map fst m) → Forall (λ k, btree_get k acc = None) (map fst m) →
  Forall (λ kv, json_unique kv.2) m →
  ∃ object, visit_map acc (map (λ p, (p.1, raw_of p.2)) m) = Ok object
    ∧ ∀ k, btree_get k object
           = match btree_get k m with Some v => Some v | None => btree_get k acc end.
Proof.
  revert acc. induction m as [|[k v] m IH]; intros acc Hs Hn Hd Hu; simpl.
  { exists acc. done. }
  simpl in *. apply NoDup_cons in Hn as [Hk Hn]. apply Forall_cons in Hd as [Hka Hd].
  apply Forall_cons in Hu as [Huv Hu]. simpl in Huv.
  unfold btree_contains. rewrite Hka, visit_raw by done.
  destruct (IH (btree_insert k v acc)) as (object & Ho & Hget).
  - by apply btree_insert_sorted.
  - done.
  - rewrite Forall_forall in *. intros k' Hk'. rewrite btree_get_insert by done.
    rewrite (proj2 (String.eqb_neq k' k)); [by apply Hd|]. by intros ->.
  - done.
  - exists object. split; [done|]. intros k'. rewrite Hget, btree_get_insert by done.
    destruct (String.eqb_spec k' k) as [->|Hne]; [|done].
    by rewrite (btree_get_none k m).
Qed.

Section Roundtrip.
Context `{SerdeJson, SerdeWrite}.

(** What serde's derived deserializers return for an object with exactly the
fields the serializer of [m] emitted. *)
Definition derived (m : WireMessage) (v : Json) : Prop :=
match m with
| Request id method params =>
from_value_request v
= Ok {| req_protocol := WIRE_PROTOCOL; req_id := id; req_method := method;
        req_params := params |}
| Response id (Some res) _ =>
from_value_result v
= Ok {| res_protocol := WIRE_PROTOCOL; res_id := id; res_result := res |}
| Response id None (Some e) =>
from_value_error v
= Ok {| err_protocol := WIRE_PROTOCOL; err_id := id; err_error := e |}
| Response _ None None => True
| Notification method params =>
from_value_notification v
= Ok {| not_protocol := WIRE_PROTOCOL; not_method := method; not_params := params |}
| Cancel id reason =>
from_value_cancel v
= Ok {| can_protocol := WIRE_PROTOCOL; can_id := id; can_reason := reason |}
end.

(** serde_json prints the fields of [m] as UTF-8 text that tokenizes to those
fields, and the derived deserializers find fields by name. *)
Record serde_faithful (m : WireMessage) (body : list Z) : Prop := {
sf_utf8 : utf8_valid body = true;
sf_tokens : tokenize (string_of_bytes body)
          = Ok (RMap (map (λ p, (p.1, raw_of p.2)) (serialize m)));
sf_unique : Forall (λ kv, json_unique kv.2) (serialize m);
sf_derive object :
(∀ k, btree_get k object = btree_get k (serialize m)) → derived m (JObject object)
}.

End Roundtrip.

(** ** Witnesses *)

(** A printer that knows one cancel message. *)
Definition cancel_write : SerdeWrite := {|
  wire_error_value _ := JNull;
  to_vec _ := Ok [123; 125]
|}.


Lemma frame_roundtrip_witness :
  ∃ frame, @encode_frame cancel_write (Cancel "r1" None) 16 = Ok frame
    ∧ read_body 16 (map Byte frame ++ [Byte 67; Failed "reset"])
      = (Ok (Some [123; 125]), [Byte 67; Failed "reset"]).
Proof.
  eexists. split; [vm_compute; reflexivity|].
  destruct (@frame_roundtrip cancel_write 16 (Cancel "r1" None)
              (frame_bytes [123; 125]) [Byte 67; Failed "reset"]) as (body & Hb & _ & Hr).
  - vm_compute. discriminate.
  - vm_compute. reflexivity.
  - injection Hb as <-. exact Hr.
Defined.

Lemma read_body_canonical_witness :
  ∃ used, payload used = frame_bytes [123; 125] ∧ forallb quiet used = true.
Proof.
  destruct (read_body_canonical 16 (Interrupted :: map Byte (frame_bytes [123; 125])) [] [123; 125])
    as (_ & used & _ & Hq & Hp); [vm_compute; reflexivity|].
  exists used. split; [exact Hp|exact Hq].
Defined.

Lemma read_body_bounded_witness :
  ∃ used, (map Byte (bytes "Content-Length: 99") ++ map Byte CRLF)%list = (used ++ [])%list
    ∧ Z.of_nat (length (payload used)) <= 3 * 1026 + Z.max 0 16.
Proof.
  apply (read_body_bounded 16 _ [] (Err FrameTooLarge)). vm_compute. reflexivity.
Defined.

(** Two threads: the second takes its ticket later and writes later. *)
Definition demo_trace : list writer_event :=
  [TakeTicket 0 (frame_bytes [123]); TakeTicket 1 (frame_bytes [125]);
   WriteAll 0 (frame_bytes [123]); WriteAll 1 (frame_bytes [125])].

Lemma demo_trace_runs :
  ∃ w, writer_trace 16 demo_trace w ∧ waiting w = ∅
       ∧ written w = (frame_bytes [123] ++ frame_bytes [125])%list.
Proof.
  eexists. split; [|split].
  - change demo_trace with (((([] ++ [TakeTicket 0 (frame_bytes [123])])
      ++ [TakeTicket 1 (frame_bytes [125])]) ++ [WriteAll 0 (frame_bytes [123])])
      ++ [WriteAll 1 (frame_bytes [125])])%list.
    eapply trace_snoc; [eapply trace_snoc; [eapply trace_snoc; [eapply trace_snoc|]|]|];
      econstructor; vm_compute; reflexivity.
  - vm_compute. reflexivity.
  - vm_compute. reflexivity.
Defined.

Lemma writer_commits_in_ticket_order_witness :
  map fst (served demo_trace) = taken demo_trace.
Proof.
  destruct demo_trace_runs as (w & Hw & He & _).
  apply (writer_commits_in_ticket_order 16 demo_trace w Hw); [vm_compute; discriminate|exact He].
Defined.

Lemma writer_reader_agree_witness :
  read_bodies 3 16 (map Byte (frame_bytes [123] ++ frame_bytes [125]))
  = ([[123]; [125]], Ok None).
Proof.
  destruct demo_trace_runs as (w & Hw & He & <-).
  apply (writer_reader_agree 16 demo_trace w [[123]; [125]] Hw).
  - vm_compute. discriminate.
  - exact He.
  - vm_compute. discriminate.
  - reflexivity.
  - repeat constructor.
  - repeat constructor; vm_compute; congruence.
Defined.
