(* ===== verification/VmTime.v ===== *)
(** * Calendar and integer text of the VM ([crates/allen-vm/src/lib.rs])

    [format_utc], [parse_utc], the civil-date conversions they use, the bucket
    arithmetic and [parse_int].  All arithmetic of the source is on [i64]; the
    inputs of the conversions are bounded by the supported UTC range, and the
    operations the source checks are checked here.  The conversions are proved
    against an independent calendar: the successor of a date. *)

From S2P Require Import Prelude Text.
Open Scope string_scope.
Open Scope Z_scope.

Definition UTC_MIN_SECONDS : Z := -62135596800.
Definition UTC_MAX_SECONDS : Z := 253402300799.
Definition SECONDS_PER_DAY : Z := 86400.

Definition in_utc_range (seconds : Z) : bool := between UTC_MIN_SECONDS UTC_MAX_SECONDS seconds.

(** ** Civil dates *)

Definition b2z (b : bool) : Z := if b then 1 else 0.

(** For a positive divisor, [div_euclid] and [rem_euclid] are [Z.div] and
    [Z.modulo]; [/] on the non-negative operands below is [Z.quot] = [Z.div]. *)
Definition days_from_civil (year month day : Z) : Z :=
  let year := year - b2z (month <=? 2) in
  let era := year / 400 in
  let year_of_era := year - era * 400 in
  let month_from_march := month + (if 2 <? month then -3 else 9) in
  let day_of_year := Z.quot (153 * month_from_march + 2) 5 + day - 1 in
  let day_of_era :=
    year_of_era * 365 + Z.quot year_of_era 4 - Z.quot year_of_era 100 + day_of_year in
  era * 146097 + day_of_era - 719468.

Definition civil_from_days (days : Z) : Z * Z * Z :=
  let days := days + 719468 in
  let era := days / 146097 in
  let day_of_era := days - era * 146097 in
  let year_of_era :=
    Z.quot (day_of_era - Z.quot day_of_era 1460 + Z.quot day_of_era 36524
            - Z.quot day_of_era 146096) 365 in
  let year := year_of_era + era * 400 in
  let day_of_year :=
    day_of_era - (365 * year_of_era + Z.quot year_of_era 4 - Z.quot year_of_era 100) in
  let month_from_march := Z.quot (5 * day_of_year + 2) 153 in
  let day := day_of_year - Z.quot (153 * month_from_march + 2) 5 + 1 in
  let month := month_from_march + (if month_from_march <? 10 then 3 else -9) in
  let year := year + b2z (month <=? 2) in
  (year, month, day).

Definition leap (year : Z) : bool :=
  (Z.rem year 4 =? 0) && (negb (Z.rem year 100 =? 0) || (Z.rem year 400 =? 0)).

Definition days_in_month (year month : Z) : Z :=
  match month with
  | 1 | 3 | 5 | 7 | 8 | 10 | 12 => 31
  | 4 | 6 | 9 | 11 => 30
  | 2 => if leap year then 29 else 28
  | _ => 0 (* unreachable: the month is validated *)
  end.

(** ** UTC text *)

Definition format_utc (seconds : Z) : string :=
  let days := seconds / SECONDS_PER_DAY in
  let day_seconds := seconds mod SECONDS_PER_DAY in
  let '(year, month, day) := civil_from_days days in
  let hour := Z.quot day_seconds 3600 in
  let minute := Z.quot (Z.rem day_seconds 3600) 60 in
  let second := Z.rem day_seconds 60 in
  string_of_bytes
    (decimal_padded 4 year ++ [45] ++ decimal_padded 2 month ++ [45] ++ decimal_padded 2 day
     ++ [84] ++ decimal_padded 2 hour ++ [58] ++ decimal_padded 2 minute ++ [58]
     ++ decimal_padded 2 second ++ [90])%list.

Inductive UtcParseError := InvalidFormat | OutOfRange.

(** [decimal_field(bytes, start, width)] on the slice [bytes[start..start + width]]. *)
Definition decimal_field (field : list Z) : result UtcParseError Z :=
  try_fold (λ value byte,
    if negb (is_ascii_digit byte) then Err InvalidFormat else Ok (value * 10 + (byte - 48)))
    0 field.

Definition slice (start width : nat) (bs : list Z) : list Z := take width (drop start bs).

Definition parse_utc (text : string) : result UtcParseError Z :=
  let bs := bytes text in
  let at_ i := nth i bs 0 in
  if negb (Nat.eqb (length bs) 20)
     || negb (at_ 4%nat =? 45) || negb (at_ 7%nat =? 45) || negb (at_ 10%nat =? 84)
     || negb (at_ 13%nat =? 58) || negb (at_ 16%nat =? 58) || negb (at_ 19%nat =? 90)
  then Err InvalidFormat
  else
    let? year := decimal_field (slice 0 4 bs) in
    let? month := decimal_field (slice 5 2 bs) in
    let? day := decimal_field (slice 8 2 bs) in
    let? hour := decimal_field (slice 11 2 bs) in
    let? minute := decimal_field (slice 14 2 bs) in
    let? second := decimal_field (slice 17 2 bs) in
    if negb (between 1 9999 year) then Err OutOfRange
    else if negb (between 1 12 month) || (day =? 0) || (days_in_month year month <? day)
            || (23 <? hour) || (59 <? minute) || (59 <? second)
    then Err InvalidFormat
    else
      let days := days_from_civil year month day in
      match (s ← i64_checked_mul days SECONDS_PER_DAY;
             i64_checked_add s (hour * 3600 + minute * 60 + second)) with
      | None => Err OutOfRange
      | Some seconds => if in_utc_range seconds then Ok seconds else Err OutOfRange
      end.

(** The arithmetic of [standard_time_bucket]: [None] is the invariant error. *)
Definition time_bucket (seconds width : Z) : option Z :=
  i64_checked_mul (seconds / width) width.

(** ** Integer text *)

Inductive IntParseError := IntInvalid | IntOverflow.

Definition parse_int_digits (negative : bool) (digits : list Z) : result IntParseError Z :=
  try_fold (λ value d,
    let digit := d - 48 in
    ok_or (v ← i64_checked_mul value 10;
           if negative : bool then i64_checked_sub v digit else i64_checked_add v digit)
          IntOverflow) 0 digits.

Definition parse_int (text : string) : result IntParseError Z :=
  let '(negative, digits) :=
    match bytes text with 45 :: digits => (true, digits) | digits => (false, digits) end in
  if bool_decide (digits = []) || negb (forallb is_ascii_digit digits)
     || leading_zero digits
     || (negative && bytes_eqb digits [48])
  then Err IntInvalid
  else parse_int_digits negative digits.

(** ** The reference calendar *)

Definition valid_date (year month day : Z) : Prop :=
  1 <= month <= 12 ∧ 1 <= day <= days_in_month year month.

Definition next_date (date : Z * Z * Z) : Z * Z * Z :=
  let '(year, month, day) := date in
  if day <? days_in_month year month then (year, month, day + 1)
  else if month <? 12 then (year, month + 1, 1)
  else (year + 1, 1, 1).

(** ** Lemmas: civil dates *)

Ltac quot_to_div := rewrite !Z.quot_div_nonneg by lia.

(** [lia] with the equations of the divisions in sight. *)
Ltac div_lia := Z.to_euclidean_division_equations; lia.

(** The days before year-of-era [y], with years that start in March. *)
Definition days_before (y : Z) : Z := 365 * y + y / 4 - y / 100.

(** The last day of a March year is 364, or 365 when its February has 29 days. *)
Definition march_leap (y : Z) : bool := leap (y + 1).

Lemma leap_spec y :
  leap y = true ↔ y mod 4 = 0 ∧ (y mod 100 ≠ 0 ∨ y mod 400 = 0).
Proof.
  assert (∀ k, 0 < k → Z.rem y k = 0 ↔ y mod k = 0) as Hk.
  { intros k Hk. rewrite Z.rem_divide, Z.mod_divide by lia. done. }
  unfold leap. rewrite andb_true_iff, orb_true_iff, negb_true_iff, Z.eqb_neq, !Z.eqb_eq.
  rewrite !Hk by lia. done.
Qed.

Lemma leap_period y k : leap (y + k * 400) = leap y.
Proof.
  apply eq_true_iff_eq. rewrite !leap_spec.
  replace (y + k * 400) with (y + (k * 100) * 4) at 1 by lia. rewrite Z.mod_add by lia.
  replace (y + k * 400) with (y + (k * 4) * 100) at 1 by lia. rewrite Z.mod_add by lia.
  rewrite Z.mod_add by lia. done.
Qed.

Lemma year_of_era_spec y doy :
  0 <= y <= 399 → 0 <= doy <= 364 + b2z (march_leap y) →
  let doe := days_before y + doy in
  (doe - doe / 1460 + doe / 36524 - doe / 146096) / 365 = y.
Proof.
  intros Hy Hd doe. unfold march_leap in Hd.
  assert (0 <= doy <= 365 ∧ (doy = 365 → y mod 4 = 3 ∧ (y mod 100 ≠ 99 ∨ y = 399))) as [Hd1 Hd2].
  { destruct (leap (y + 1)) eqn:El; unfold b2z in Hd; [|lia].
    apply leap_spec in El. clear -Hy Hd El. split; [lia|]. intros _.
    destruct El as [E1 E2]. split; [div_lia|]. destruct E2; [left|right]; div_lia. }
  clear Hd. set (c := y / 100). set (q := (y mod 100) / 4). set (r := y mod 4).
  assert (y = 100 * c + 4 * q + r ∧ 0 <= c <= 3 ∧ 0 <= q <= 24 ∧ 0 <= r <= 3
          ∧ y / 4 = 25 * c + q) as (Ey & Hc & Hq & Hr & Ey4) by (subst c q r; div_lia).
  assert (doe = 36524 * c + 1461 * q + 365 * r + doy) as Ed.
  { subst doe. unfold days_before. fold c. lia. }
  assert (doy = 365 → r = 3 ∧ (q ≠ 24 ∨ c = 3)) as Hlast.
  { intros E. destruct (Hd2 E) as [? Hor]. split; [done|].
    destruct Hor as [Hn|?]; [left|right; div_lia].
    intros Hq24. apply Hn. subst r q c. div_lia. }
  clearbody c q r doe. clear Hd2 Ey4.
  assert (doe = 146096 ∨ doe < 146096) as [E|E] by lia.
  - subst doe. rewrite E. assert (c = 3 ∧ q = 24 ∧ r = 3) by lia. vm_compute (_ / 365). lia.
  - assert (doe / 36524 = c) as -> by div_lia. rewrite (Z.div_small doe 146096) by lia.
    assert (∃ δ, doe / 1460 = 25 * c + q + δ
                 ∧ ((δ = 0 ∧ 24 * c + q + 365 * r + doy < 1460)
                    ∨ (δ = 1 ∧ 1460 <= 24 * c + q + 365 * r + doy))) as (δ & -> & Hδ).
    { exists ((24 * c + q + 365 * r + doy) / 1460). split; div_lia. }
    symmetry. apply (Z.div_unique _ _ _ (doy - δ)); lia.
Qed.

(** Every day of a 400-year era is a day of exactly one March year. *)
Lemma day_of_era_split doe :
  0 <= doe <= 146096 →
  ∃ y doy, 0 <= y <= 399 ∧ 0 <= doy <= 364 + b2z (march_leap y) ∧ doe = days_before y + doy.
Proof.
  intros Hd. set (c := Z.min 3 (doe / 36524)). set (s := doe - 36524 * c).
  set (q := s / 1461). set (u := s - 1461 * q). set (r := Z.min 3 (u / 365)).
  assert (0 <= c <= 3 ∧ 0 <= s <= 36524 ∧ (s = 36524 → c = 3)) as (Hc & Hs & Hs3)
    by (subst c s; div_lia).
  assert (0 <= q <= 24 ∧ 0 <= u <= 1460 ∧ (q = 24 → u <= 1460 ∧ (u = 1460 → c = 3)))
    as (Hq & Hu & Hu24) by (subst q u; div_lia).
  assert (0 <= r <= 3 ∧ 0 <= u - 365 * r <= 365 ∧ (u - 365 * r = 365 → r = 3))
    as (Hr & Hv & Hv3) by (subst r; div_lia).
  exists (100 * c + 4 * q + r), (u - 365 * r).
  assert (days_before (100 * c + 4 * q + r) = 36524 * c + 1461 * q + 365 * r) as Eb.
  { unfold days_before. clear -Hc Hq Hr. div_lia. }
  split; [lia|]. split; [|lia]. split; [lia|].
  destruct (Z.eq_dec (u - 365 * r) 365) as [E|]; [|unfold b2z; case_match; lia].
  assert (march_leap (100 * c + 4 * q + r) = true) as ->; [|simpl; lia].
  unfold march_leap. apply leap_spec. specialize (Hv3 E). rewrite Hv3. clear -Hc Hq Hu24 E Hv3 Hu.
  split; [div_lia|]. destruct (Z.eq_dec q 24) as [->|].
  - right. assert (c = 3) as -> by lia. reflexivity.
  - left. div_lia.
Qed.

(** The length of the months of a March year, and the days before them. *)
Definition march_month_length (y mp : Z) : Z :=
  match mp with
  | 0 | 2 | 4 | 5 | 7 | 9 | 10 => 31
  | 1 | 3 | 6 | 8 => 30
  | _ => 28 + b2z (march_leap y)
  end.

Ltac each_month mp :=
  assert (mp = 0 ∨ mp = 1 ∨ mp = 2 ∨ mp = 3 ∨ mp = 4 ∨ mp = 5 ∨ mp = 6 ∨ mp = 7 ∨ mp = 8
          ∨ mp = 9 ∨ mp = 10 ∨ mp = 11) as [->|[->|[->|[->|[->|[->|[->|[->|[->|[->|[->| ->]]]]]]]]]]]
    by lia; cbn [march_month_length] in *.

Lemma month_of_day y mp d :
  0 <= mp <= 11 → 1 <= d <= march_month_length y mp →
  let doy := (153 * mp + 2) / 5 + d - 1 in
  (5 * doy + 2) / 153 = mp ∧ 0 <= doy <= 364 + b2z (march_leap y).
Proof.
  intros Hm Hd doy. subst doy.
  each_month mp; unfold b2z in *; destruct (march_leap y); div_lia.
Qed.

Lemma day_of_year_split y doy :
  0 <= doy <= 364 + b2z (march_leap y) →
  ∃ mp d, 0 <= mp <= 11 ∧ 1 <= d <= march_month_length y mp ∧ doy = (153 * mp + 2) / 5 + d - 1.
Proof.
  intros Hd. set (mp := (5 * doy + 2) / 153).
  assert (0 <= mp <= 11 ∧ 153 * mp <= 5 * doy + 2 < 153 * mp + 153) as [Hm Hb].
  { subst mp. unfold b2z in Hd. destruct (march_leap y); div_lia. }
  exists mp, (doy - (153 * mp + 2) / 5 + 1). split; [done|]. split; [|lia].
  clearbody mp. each_month mp; unfold b2z in *; destruct (march_leap y); div_lia.
Qed.

(** March years and calendar years: the month and the year that [month] and [mp]
    denote, in both directions. *)
Lemma month_length_march y month :
  1 <= month <= 12 →
  days_in_month y month
  = march_month_length (y - b2z (month <=? 2)) (month + (if 2 <? month then -3 else 9)).
Proof.
  intros Hm. assert (month = 1 ∨ month = 2 ∨ 3 <= month) as [->|[->|H3]] by lia.
  - reflexivity.
  - simpl. unfold march_leap. replace (y - 1 + 1) with y by lia. unfold b2z. by destruct (leap y).
  - assert ((month <=? 2) = false) as -> by lia. assert ((2 <? month) = true) as -> by lia.
    assert (month = 3 ∨ month = 4 ∨ month = 5 ∨ month = 6 ∨ month = 7 ∨ month = 8 ∨ month = 9
            ∨ month = 10 ∨ month = 11 ∨ month = 12)
      as [->|[->|[->|[->|[->|[->|[->|[->|[->| ->]]]]]]]]] by lia; reflexivity.
Qed.

Lemma march_leap_period y k : march_leap (y + k * 400) = march_leap y.
Proof.
  unfold march_leap. replace (y + k * 400 + 1) with (y + 1 + k * 400) by lia. apply leap_period.
Qed.

Lemma march_month_length_period y k mp :
  march_month_length (y + k * 400) mp = march_month_length y mp.
Proof. unfold march_month_length. by rewrite march_leap_period. Qed.

(** [civil_from_days] on the decomposition of a day. *)
Lemma civil_from_days_at era y mp d :
  0 <= y <= 399 → 0 <= mp <= 11 → 1 <= d <= march_month_length y mp →
  civil_from_days (era * 146097 + (days_before y + ((153 * mp + 2) / 5 + d - 1)) - 719468)
  = (let month := mp + (if mp <? 10 then 3 else -9) in
     (y + era * 400 + b2z (month <=? 2), month, d)).
Proof.
  intros Hy Hm Hd. destruct (month_of_day y mp d Hm Hd) as [Emp Hdoy].
  set (doy := (153 * mp + 2) / 5 + d - 1) in *. cbv zeta in Emp, Hdoy.
  set (doe := days_before y + doy).
  pose proof (year_of_era_spec y doy Hy Hdoy) as Ey. cbv zeta in Ey. fold doe in Ey.
  assert (0 <= doe <= 146096) as Hdoe.
  { subst doe. unfold days_before. pose proof Hdoy as Hd'. unfold march_leap, b2z in Hd'.
    clear -Hy Hd'. destruct (leap (y + 1)) eqn:El.
    - div_lia.
    - assert (y ≠ 399) by (intros ->; vm_compute in El; done). div_lia. }
  unfold civil_from_days. cbv zeta.
  replace (era * 146097 + doe - 719468 + 719468) with (doe + era * 146097) by lia.
  rewrite Z.div_add, (Z.div_small doe) by lia. rewrite Z.add_0_l.
  replace (doe + era * 146097 - era * 146097) with doe by lia.
  rewrite (Z.quot_div_nonneg doe 1460), (Z.quot_div_nonneg doe 36524),
    (Z.quot_div_nonneg doe 146096) by lia.
  assert (0 <= doe - doe / 1460 + doe / 36524 - doe / 146096) by (clear -Hdoe; div_lia).
  rewrite (Z.quot_div_nonneg _ 365), Ey by lia.
  rewrite (Z.quot_div_nonneg y 4), (Z.quot_div_nonneg y 100) by lia.
  replace (doe - (365 * y + y / 4 - y / 100)) with doy
    by (subst doe; unfold days_before; lia).
  rewrite (Z.quot_div_nonneg (5 * doy + 2) 153), Emp by lia.
  rewrite (Z.quot_div_nonneg _ 5) by lia.
  f_equal. subst doy. lia.
Qed.

(** [days_from_civil] in terms of the era decomposition. *)
Lemma days_from_civil_at year month day :
  valid_date year month day →
  let my := year - b2z (month <=? 2) in
  let mp := month + (if 2 <? month then -3 else 9) in
  let y := my mod 400 in
  0 <= y <= 399 ∧ 0 <= mp <= 11 ∧ 1 <= day <= march_month_length y mp
  ∧ days_from_civil year month day
    = (my / 400) * 146097 + (days_before y + ((153 * mp + 2) / 5 + day - 1)) - 719468.
Proof.
  intros [Hm Hd] my mp y. rewrite month_length_march in Hd by done. fold my mp in Hd.
  assert (0 <= mp <= 11) as Hmp by (subst mp; case_match; lia).
  assert (0 <= y <= 399) as Hy by (subst y; pose proof (Z.mod_pos_bound my 400); lia).
  assert (my = y + (my / 400) * 400) as Emy by (subst y; pose proof (Z.div_mod my 400); lia).
  split; [done|]. split; [done|]. split.
  { by rewrite Emy, march_month_length_period in Hd. }
  unfold days_from_civil. cbv zeta. fold my. fold mp.
  replace (my - my / 400 * 400) with y by lia.
  rewrite (Z.quot_div_nonneg y 4), (Z.quot_div_nonneg y 100), (Z.quot_div_nonneg _ 5) by lia.
  unfold days_before. lia.
Qed.

Lemma civil_roundtrip year month day :
  valid_date year month day →
  civil_from_days (days_from_civil year month day) = (year, month, day).
Proof.
  intros Hv. destruct (days_from_civil_at _ _ _ Hv) as (Hy & Hm & Hd & ->). cbv zeta in *.
  rewrite civil_from_days_at by done. destruct Hv as [Hmonth _]. cbv zeta.
  assert (month + (if 2 <? month then -3 else 9)
          + (if month + (if 2 <? month then -3 else 9) <? 10 then 3 else -9) = month) as ->.
  { destruct (Z.ltb_spec 2 month); case_match eqn:E; lia. }
  f_equal. f_equal. pose proof (Z.div_mod (year - b2z (month <=? 2)) 400). lia.
Qed.

Lemma days_roundtrip days :
  let '(year, month, day) := civil_from_days days in
  valid_date year month day ∧ days_from_civil year month day = days.
Proof.
  set (era := (days + 719468) / 146097). set (doe := (days + 719468) mod 146097).
  assert (0 <= doe <= 146096) as Hdoe
    by (subst doe; pose proof (Z.mod_pos_bound (days + 719468) 146097); lia).
  assert (days = era * 146097 + doe - 719468) as Ed
    by (subst era doe; pose proof (Z.div_mod (days + 719468) 146097); lia).
  clearbody era doe. subst days.
  destruct (day_of_era_split doe Hdoe) as (y & doy & Hy & Hdoy & ->).
  destruct (day_of_year_split y doy Hdoy) as (mp & d & Hm & Hd & ->).
  rewrite civil_from_days_at by done. cbv zeta.
  set (month := mp + (if mp <? 10 then 3 else -9)).
  assert (1 <= month <= 12 ∧ month + (if 2 <? month then -3 else 9) = mp) as [Hmon Emp].
  { subst month. clear -Hm. each_month mp; split; vm_compute; split; congruence. }
  assert (valid_date (y + era * 400 + b2z (month <=? 2)) month d) as Hv.
  { split; [done|]. rewrite month_length_march, Emp by done.
    replace (y + era * 400 + b2z (month <=? 2) - b2z (month <=? 2)) with (y + era * 400) by lia.
    by rewrite march_month_length_period. }
  split; [done|]. destruct (days_from_civil_at _ _ _ Hv) as (_ & _ & _ & ->). cbv zeta.
  rewrite Emp.
  replace (y + era * 400 + b2z (month <=? 2) - b2z (month <=? 2)) with (y + era * 400) by lia.
  rewrite Z.div_add, Z.mod_add, (Z.div_small y), (Z.mod_small y) by lia. lia.
Qed.

Lemma days_before_succ my :
  (my + 1) / 400 * 146097 + days_before ((my + 1) mod 400)
  = my / 400 * 146097 + days_before (my mod 400) + 365 + b2z (march_leap my).
Proof.
  set (y := my mod 400). set (e := my / 400).
  assert (my = y + e * 400 ∧ 0 <= y <= 399) as [Emy Hy].
  { subst y e. pose proof (Z.div_mod my 400). pose proof (Z.mod_pos_bound my 400). lia. }
  clearbody y e. subst my. rewrite march_leap_period.
  destruct (Z.eq_dec y 399) as [->|].
  - replace (399 + e * 400 + 1) with (0 + (e + 1) * 400) by lia.
    rewrite Z.div_add, Z.mod_add by lia. vm_compute (march_leap 399). vm_compute (0 mod 400).
    vm_compute (0 / 400). vm_compute (days_before 0). vm_compute (days_before 399). simpl. lia.
  - replace (y + e * 400 + 1) with (y + 1 + e * 400) by lia.
    rewrite Z.div_add, Z.mod_add, (Z.div_small (y + 1)), (Z.mod_small (y + 1)) by lia.
    unfold days_before, march_leap.
    destruct (leap (y + 1)) eqn:El; [apply leap_spec in El|].
    + unfold b2z. clear -Hy El n. destruct El as [? [?|?]]; div_lia.
    + unfold b2z. assert (¬ ((y + 1) mod 4 = 0 ∧ ((y + 1) mod 100 ≠ 0 ∨ (y + 1) mod 400 = 0))) as Hn
        by (rewrite <- leap_spec, El; done).
      clear -Hy Hn. destruct (Z.eq_dec ((y + 1) mod 4) 0); [|div_lia].
      destruct (Z.eq_dec ((y + 1) mod 100) 0); [div_lia|]. exfalso. tauto.
Qed.

Lemma next_date_valid year month day :
  valid_date year month day →
  let '(y, m, d) := next_date (year, month, day) in valid_date y m d.
Proof.
  intros [Hm Hd]. unfold next_date, valid_date.
  assert (∀ y m, 1 <= m <= 12 → 1 <= days_in_month y m) as Hpos.
  { intros y m Hr. rewrite month_length_march by done.
    set (mp := m + _). assert (0 <= mp <= 11) by (subst mp; case_match; lia). clearbody mp.
    each_month mp; unfold b2z; try lia; case_match; lia. }
  destruct (Z.ltb_spec day (days_in_month year month)); [lia|].
  destruct (Z.ltb_spec month 12); (split; [lia|]); (split; [lia|]); apply Hpos; lia.
Qed.

(** The day number of a March date, and its successor across months and years. *)
Definition march_day (my mp d : Z) : Z :=
  my / 400 * 146097 + (days_before (my mod 400) + ((153 * mp + 2) / 5 + d - 1)) - 719468.

Lemma march_day_next my mp :
  0 <= mp <= 11 →
  march_day my mp (march_month_length my mp) + 1
  = if mp =? 11 then march_day (my + 1) 0 1 else march_day my (mp + 1) 1.
Proof.
  intros Hm. unfold march_day. pose proof (days_before_succ my).
  each_month mp; simpl Z.eqb; cbv iota;
    repeat match goal with |- context [(153 * ?k + 2) / 5] =>
      let v := eval vm_compute in ((153 * k + 2) / 5) in change ((153 * k + 2) / 5) with v end;
    lia.
Qed.

Lemma days_of_next_date year month day :
  valid_date year month day →
  let '(y, m, d) := next_date (year, month, day) in
  days_from_civil y m d = days_from_civil year month day + 1.
Proof.
  intros Hv. pose proof (next_date_valid _ _ _ Hv) as Hn. unfold next_date in *.
  destruct (days_from_civil_at _ _ _ Hv) as (_ & Hmp & _ & ->). cbv zeta in *.
  destruct Hv as [Hm Hd]. rewrite month_length_march in * by done.
  set (my := year - b2z (month <=? 2)) in *.
  set (mp := month + (if 2 <? month then -3 else 9)) in *.
  fold (march_day my mp day).
  destruct (Z.ltb_spec day (march_month_length my mp)) as [Hlt|Hge].
  - destruct (days_from_civil_at _ _ _ Hn) as (_ & _ & _ & ->). cbv zeta. fold my mp.
    unfold march_day. lia.
  - assert (day = march_month_length my mp) as -> by lia. rewrite march_day_next by done.
    destruct (Z.ltb_spec month 12);
      destruct (days_from_civil_at _ _ _ Hn) as (_ & _ & _ & ->); cbv zeta.
    + destruct (Z.eqb_spec mp 11) as [E|E].
      * assert (month = 2) as -> by (subst mp; destruct (Z.ltb_spec 2 month); lia).
        unfold march_day. subst my. simpl b2z. replace (year - 1 + 1) with (year - 0) by lia. done.
      * assert (year - b2z (month + 1 <=? 2) = my
                ∧ month + 1 + (if 2 <? month + 1 then -3 else 9) = mp + 1) as [-> ->]; [|done].
        subst my mp. destruct (Z.leb_spec month 2), (Z.leb_spec (month + 1) 2),
          (Z.ltb_spec 2 month), (Z.ltb_spec 2 (month + 1)); simpl b2z; lia.
    + assert (month = 12) as -> by lia. subst my mp. unfold march_day. simpl.
      replace (year + 1 - 1) with (year - 0) by lia. done.
Qed.

(** The supported days are those of the years 1 to 9999. *)
Lemma year_range year month day :
  valid_date year month day → -719162 <= days_from_civil year month day <= 2932896 ↔
  1 <= year <= 9999.
Proof.
  intros Hv. destruct (days_from_civil_at _ _ _ Hv) as (Hy & Hmp & Hd & ->). cbv zeta in *.
  destruct Hv as [Hm _].
  set (my := year - b2z (month <=? 2)) in *. set (y := my mod 400) in *.
  set (mp := month + (if 2 <? month then -3 else 9)) in *.
  destruct (month_of_day y mp day Hmp Hd) as [_ Hdoy]. cbv zeta in Hdoy.
  assert (my = 400 * (my / 400) + y) as Emy by (subst y; pose proof (Z.div_mod my 400); lia).
  set (era := my / 400) in *. clearbody era y.
  assert (0 <= days_before y + ((153 * mp + 2) / 5 + day - 1) <= 146096) as Hdoe.
  { unfold days_before, march_leap, b2z in *. destruct (leap (y + 1)) eqn:El; [clear El; div_lia|].
    assert (y ≠ 399) by (intros ->; vm_compute in El; done). clear El. div_lia. }
  assert (days_before 0 = 0 ∧ days_before 399 = 145731) as [D0 D399] by (split; reflexivity).
  assert (month <= 2 ∧ my = year - 1 ∧ 306 <= (153 * mp + 2) / 5 + day - 1
          ∨ 3 <= month ∧ my = year ∧ (153 * mp + 2) / 5 + day - 1 <= 305) as Hcase.
  { assert (march_month_length y mp <= 31).
    { assert (b2z (march_leap y) <= 1) by (by destruct (march_leap y)). clear -Hmp H.
      each_month mp; lia. }
    clear Hdoy Hdoe. subst mp my.
    destruct (Z.leb_spec month 2), (Z.ltb_spec 2 month); simpl b2z in *; try lia;
      [left|right]; clear Hy Hmp Emy; div_lia. }
  assert (365 <= days_before y ∨ y = 0) as Hlow by (clear -Hy; unfold days_before; div_lia).
  assert (days_before y <= 145366 ∨ y = 399) as Hhigh by (clear -Hy; unfold days_before; div_lia).
  unfold b2z in Hdoy. assert (0 <= (153 * mp + 2) / 5 + day - 1 <= 365) by (case_match; lia).
  clear Hdoy. clearbody my mp. split; intros Hr.
  - assert (y = 0 → days_before y = 0) by congruence.
    assert (y = 399 → days_before y = 145731) by congruence. lia.
  - assert (y = 0 → days_before y = 0) by congruence.
    assert (y = 399 → days_before y = 145731) by congruence. lia.
Qed.

(** ** Lemmas: decimal fields *)

Lemma decimal_field_fold v ds :
  all_digits ds = true →
  try_fold (λ value byte,
    if negb (is_ascii_digit byte) then Err InvalidFormat else Ok (value * 10 + (byte - 48))) v ds
  = Ok (fold_left (λ v d, v * 10 + (d - 48)) ds v).
Proof.
  unfold all_digits. revert v. induction ds as [|d ds IH]; intros v H; [done|].
  simpl in *. apply andb_true_iff in H as [-> H]. simpl. by apply IH.
Qed.

Lemma decimal_field_digits ds : all_digits ds = true → decimal_field ds = Ok (digits_value ds).
Proof. apply decimal_field_fold. Qed.

Lemma decimal_field_ok ds v :
  decimal_field ds = Ok v → all_digits ds = true ∧ v = digits_value ds.
Proof.
  intros H. assert (all_digits ds = true) as Hd; [|by rewrite decimal_field_digits in H; simplify_eq].
  revert H. unfold decimal_field, all_digits. generalize 0 as u.
  induction ds as [|d ds IH]; intros u; simpl; [done|]. destruct (is_ascii_digit d); simpl; [|done].
  apply IH.
Qed.

Lemma digits_unique ds es :
  length ds = length es → all_digits ds = true → all_digits es = true →
  digits_value ds = digits_value es → ds = es.
Proof.
  unfold all_digits. revert es.
  induction ds as [|d ds IH] using rev_ind; intros es Hl Hd He Hv.
  { by destruct es. }
  destruct es as [|e es _] using rev_ind; [rewrite length_app in Hl; simpl in Hl; lia|].
  rewrite !length_app in Hl. rewrite forallb_app in Hd, He. simpl in *. boolify.
  rewrite !digits_value_snoc in Hv. unfold is_ascii_digit in *.
  rewrite between_spec in *. assert (d = e) as -> by lia. f_equal. apply IH; [lia|done|done|lia].
Qed.

Lemma decimal_padded_value w ds :
  length ds = w → (0 < w)%nat → all_digits ds = true → decimal_padded w (digits_value ds) = ds.
Proof.
  intros Hl Hw Hd. pose proof (digits_value_bound ds Hd) as Hb. rewrite Hl in Hb.
  apply digits_unique; [|apply decimal_padded_digits|done|].
  - by rewrite decimal_padded_length, Hl by done.
  - apply digits_value_padded. lia.
Qed.

(** ** Lemmas: UTC text *)

(** A broken-down instant: the fields of the text. *)
Definition utc_bytes (year month day hour minute second : Z) : list Z :=
  (decimal_padded 4 year ++ [45] ++ decimal_padded 2 month ++ [45] ++ decimal_padded 2 day
   ++ [84] ++ decimal_padded 2 hour ++ [58] ++ decimal_padded 2 minute ++ [58]
   ++ decimal_padded 2 second ++ [90])%list.

Definition valid_fields (year month day hour minute second : Z) : Prop :=
  1 <= year <= 9999 ∧ valid_date year month day ∧ 0 <= hour <= 23 ∧ 0 <= minute <= 59
  ∧ 0 <= second <= 59.

Definition utc_seconds (year month day hour minute second : Z) : Z :=
  days_from_civil year month day * 86400 + (hour * 3600 + minute * 60 + second).

Lemma days_in_month_le year month : days_in_month year month <= 31.
Proof. unfold days_in_month. repeat case_match; lia. Qed.

Lemma digits_are_bytes ds : all_digits ds = true → Forall (λ b, is_byte b = true) ds.
Proof.
  unfold all_digits. rewrite forallb_forall. intros Hf. apply Forall_forall. intros b Hb.
  apply list_elem_of_In, Hf in Hb. unfold is_ascii_digit in Hb. apply between_spec in Hb.
  apply in_unsigned_spec. unfold u8_max. lia.
Qed.

Lemma utc_bytes_are_bytes year month day hour minute second :
  Forall (λ b, is_byte b = true) (utc_bytes year month day hour minute second).
Proof.
  unfold utc_bytes. rewrite !Forall_app. split_and!;
    first [apply digits_are_bytes, decimal_padded_digits | by repeat constructor].
Qed.

Lemma decimal_padded_2 n :
  0 <= n < 100 → ∃ a b, decimal_padded 2 n = [a; b] ∧ decimal_field [a; b] = Ok n.
Proof.
  intros Hn. pose proof (decimal_padded_length 2 n) as Hl.
  destruct (decimal_padded 2 n) as [|a [|b [|]]] eqn:E;
    try (simpl in Hl; lia).
  exists a, b. split; [done|]. rewrite <- E, decimal_field_digits by apply decimal_padded_digits.
  by rewrite digits_value_padded by lia.
Qed.

Lemma decimal_padded_4 n :
  0 <= n < 10000 →
  ∃ a b c d, decimal_padded 4 n = [a; b; c; d] ∧ decimal_field [a; b; c; d] = Ok n.
Proof.
  intros Hn. pose proof (decimal_padded_length 4 n) as Hl.
  destruct (decimal_padded 4 n) as [|a [|b [|c [|d [|]]]]] eqn:E; try (simpl in Hl; lia).
  exists a, b, c, d. split; [done|].
  rewrite <- E, decimal_field_digits by apply decimal_padded_digits.
  by rewrite digits_value_padded by lia.
Qed.

Lemma utc_seconds_range year month day hour minute second :
  valid_fields year month day hour minute second →
  UTC_MIN_SECONDS <= utc_seconds year month day hour minute second <= UTC_MAX_SECONDS.
Proof.
  intros (Hy & Hv & Hh & Hm & Hs). apply (year_range _ _ _ Hv) in Hy.
  unfold utc_seconds, UTC_MIN_SECONDS, UTC_MAX_SECONDS. lia.
Qed.

(** The parser on well-formed text. *)
Lemma parse_utc_fields year month day hour minute second :
  valid_fields year month day hour minute second →
  parse_utc (string_of_bytes (utc_bytes year month day hour minute second))
  = Ok (utc_seconds year month day hour minute second).
Proof.
  intros Hf. pose proof (utc_seconds_range _ _ _ _ _ _ Hf) as Hr.
  destruct Hf as (Hy & Hv & Hh & Hm & Hs). pose proof Hv as [Hmo Hd].
  pose proof (days_in_month_le year month).
  unfold parse_utc. rewrite bytes_string_of_bytes by apply utc_bytes_are_bytes. unfold utc_bytes.
  destruct (decimal_padded_4 year) as (y1 & y2 & y3 & y4 & -> & Ey); [lia|].
  destruct (decimal_padded_2 month) as (m1 & m2 & -> & Em); [lia|].
  destruct (decimal_padded_2 day) as (d1 & d2 & -> & Ed); [lia|].
  destruct (decimal_padded_2 hour) as (h1 & h2 & -> & Eh); [lia|].
  destruct (decimal_padded_2 minute) as (n1 & n2 & -> & En); [lia|].
  destruct (decimal_padded_2 second) as (s1 & s2 & -> & Es); [lia|].
  cbn [app length nth Nat.eqb Z.eqb Pos.eqb negb orb slice take drop].
  unfold slice. cbn [take drop]. rewrite Ey, Em, Ed, Eh, En, Es.
  rewrite (proj2 (between_spec 1 9999 year)), (proj2 (between_spec 1 12 month)) by done.
  rewrite (proj2 (Z.eqb_neq day 0)), (proj2 (Z.ltb_ge (days_in_month year month) day)),
    (proj2 (Z.ltb_ge 23 hour)), (proj2 (Z.ltb_ge 59 minute)), (proj2 (Z.ltb_ge 59 second)) by lia.
  cbn [negb orb]. unfold i64_checked_mul, i64_checked_add, checked, SECONDS_PER_DAY.
  unfold utc_seconds, UTC_MIN_SECONDS, UTC_MAX_SECONDS in *.
  rewrite (proj2 (in_i64_spec _)) by (unfold i64_min, i64_max; lia). simpl.
  rewrite (proj2 (in_i64_spec _)) by (unfold i64_min, i64_max; lia).
  unfold in_utc_range. by rewrite (proj2 (between_spec _ _ _)).
Qed.

(** The fields the formatter prints, and that they denote the same instant. *)
Lemma format_utc_fields seconds :
  in_utc_range seconds = true →
  ∃ year month day hour minute second,
    format_utc seconds = string_of_bytes (utc_bytes year month day hour minute second)
    ∧ valid_fields year month day hour minute second
    ∧ utc_seconds year month day hour minute second = seconds.
Proof.
  intros Hr. apply between_spec in Hr. unfold format_utc, SECONDS_PER_DAY.
  pose proof (days_roundtrip (seconds / 86400)) as Hc.
  destruct (civil_from_days (seconds / 86400)) as [[year month] day]. destruct Hc as [Hv Ed].
  set (ds := seconds mod 86400). assert (0 <= ds < 86400) as Hds by (subst ds; div_lia).
  assert (seconds = 86400 * (seconds / 86400) + ds) as Es by (apply Z.div_mod; lia).
  do 6 eexists. split; [reflexivity|]. split.
  - split_and!; try done.
    1,2: apply (year_range _ _ _ Hv); rewrite Ed; unfold UTC_MIN_SECONDS, UTC_MAX_SECONDS in Hr; lia.
    all: clear -Hds; div_lia.
  - unfold utc_seconds. rewrite Ed. clear -Hds Es. clearbody ds. div_lia.
Qed.

Lemma list_20 {A} (l : list A) :
  length l = 20%nat →
  ∃ a0 a1 a2 a3 a4 a5 a6 a7 a8 a9 b0 b1 b2 b3 b4 b5 b6 b7 b8 b9,
    l = [a0; a1; a2; a3; a4; a5; a6; a7; a8; a9; b0; b1; b2; b3; b4; b5; b6; b7; b8; b9].
Proof.
  intros Hl. do 20 (destruct l as [|? l]; [discriminate|]). destruct l; [|discriminate].
  do 20 eexists. reflexivity.
Qed.

(** The parser accepts nothing but well-formed text. *)
Lemma parse_utc_ok text seconds :
  parse_utc text = Ok seconds →
  ∃ year month day hour minute second,
    bytes text = utc_bytes year month day hour minute second
    ∧ valid_fields year month day hour minute second
    ∧ seconds = utc_seconds year month day hour minute second.
Proof.
  unfold parse_utc. case_match eqn:Hshape; [done|]. boolify.
  match goal with Hl : Nat.eqb _ _ = true |- _ => apply Nat.eqb_eq in Hl; rename Hl into Hlen end.
  destruct (list_20 _ Hlen) as (a0 & a1 & a2 & a3 & a4 & a5 & a6 & a7 & a8 & a9 & b0 & b1 & b2 & b3
    & b4 & b5 & b6 & b7 & b8 & b9 & Eb).
  rewrite Eb in *. unfold slice. cbn [take drop nth] in *. subst.
  destruct (decimal_field [a0; a1; a2; a3]) as [year|] eqn:Ey; [|done].
  destruct (decimal_field [a5; a6]) as [month|] eqn:Em; [|done].
  destruct (decimal_field [a8; a9]) as [day|] eqn:Ed; [|done].
  destruct (decimal_field [b1; b2]) as [hour|] eqn:Eh; [|done].
  destruct (decimal_field [b4; b5]) as [minute|] eqn:En; [|done].
  destruct (decimal_field [b7; b8]) as [second|] eqn:Es; [|done].
  apply decimal_field_ok in Ey as [Dy ->], Em as [Dm ->], Ed as [Dd ->], Eh as [Dh ->],
    En as [Dn ->], Es as [Ds ->].
  case_match eqn:Hyear; [done|]. case_match eqn:Hf; [done|]. boolify.
  rewrite between_spec in *.
  unfold i64_checked_mul, i64_checked_add, checked, SECONDS_PER_DAY.
  destruct (in_i64 (days_from_civil _ _ _ * 86400)); [|done]. simpl.
  destruct (in_i64 _); [|done]. destruct (in_utc_range _); [|done]. intros [= <-].
  pose proof (digits_value_bound _ Dd). pose proof (digits_value_bound _ Dh).
  pose proof (digits_value_bound _ Dn). pose proof (digits_value_bound _ Ds).
  do 6 eexists. split; [|split; [|reflexivity]].
  - unfold utc_bytes. rewrite !decimal_padded_value by (done || simpl; lia). reflexivity.
  - unfold valid_fields, valid_date. lia.
Qed.

(** ** Lemmas: integer text *)

(** The canonical base-10 form. *)
Definition int_text (z : Z) : string :=
  string_of_bytes (if z <? 0 then 45 :: decimal_bytes (- z) else decimal_bytes z).

Lemma parse_int_digits_spec (neg : bool) v ds :
  all_digits ds = true → in_i64 v = true → (if neg then v <= 0 else 0 <= v) →
  try_fold (λ value d,
    let digit := d - 48 in
    ok_or (u ← i64_checked_mul value 10;
           if neg : bool then i64_checked_sub u digit else i64_checked_add u digit)
          IntOverflow) v ds
  = let r := (if neg then - fold_left (λ v d, v * 10 + (d - 48)) ds (- v)
              else fold_left (λ v d, v * 10 + (d - 48)) ds v) in
    if in_i64 r then Ok r else Err IntOverflow.
Proof.
  unfold all_digits. revert v. induction ds as [|d ds IH]; intros v Hd Hv Hs.
  { cbn. destruct neg; [rewrite Z.opp_involutive|]; by rewrite Hv. }
  cbn [forallb] in Hd. apply andb_true_iff in Hd as [Hd0 Hd].
  unfold is_ascii_digit in Hd0. apply between_spec in Hd0. apply in_i64_spec in Hv.
  set (w := if neg then v * 10 - (d - 48) else v * 10 + (d - 48)).
  assert (∀ ds v u, forallb is_ascii_digit ds = true → 0 <= u <= v →
            u <= fold_left (λ v d, v * 10 + (d - 48)) ds v) as Hmono.
  { clear. induction ds as [|d ds IH]; intros v u Hd Hu; [simpl; lia|].
    cbn [forallb] in Hd. apply andb_true_iff in Hd as [Hd0 Hd]. unfold is_ascii_digit in Hd0.
    apply between_spec in Hd0. cbn [fold_left]. apply IH; [done|lia]. }
  destruct (in_i64 w) eqn:Hw.
  - assert (in_i64 (v * 10) = true) as H10.
    { apply in_i64_spec in Hw. apply in_i64_spec. subst w. unfold i64_min, i64_max in *.
      destruct neg; lia. }
    cbn [try_fold fold_left].
    assert ((u ← i64_checked_mul v 10;
             if neg : bool then i64_checked_sub u (d - 48) else i64_checked_add u (d - 48))
            = Some w) as ->.
    { unfold i64_checked_mul, i64_checked_sub, i64_checked_add, checked. rewrite H10. simpl.
      subst w. destruct neg; by rewrite Hw. }
    cbn [ok_or]. rewrite IH; [|done|done|subst w; destruct neg; lia].
    subst w. destruct neg; [|done].
    by replace (- (v * 10 - (d - 48))) with (- v * 10 + (d - 48)) by lia.
  - cbn [try_fold fold_left].
    assert ((u ← i64_checked_mul v 10;
             if neg : bool then i64_checked_sub u (d - 48) else i64_checked_add u (d - 48))
            = None) as ->.
    { unfold i64_checked_mul, i64_checked_sub, i64_checked_add, checked.
      destruct (in_i64 (v * 10)); [|done]. simpl. subst w. destruct neg; by rewrite Hw. }
    cbn [ok_or]. cbv zeta.
    assert (¬ (i64_min <= w <= i64_max)) as Hout by (rewrite <- in_i64_spec, Hw; done).
    match goal with |- context [in_i64 ?r] => destruct (in_i64 r) eqn:Hr; [|done] end. exfalso. apply in_i64_spec in Hr. apply Hout.
    subst w. destruct neg.
    + specialize (Hmono ds (- v * 10 + (d - 48)) (- v * 10 + (d - 48)) Hd).
      unfold i64_min, i64_max in *. lia.
    + specialize (Hmono ds (v * 10 + (d - 48)) (v * 10 + (d - 48)) Hd).
      unfold i64_min, i64_max in *. lia.
Qed.

Lemma parse_int_digits_value neg ds :
  all_digits ds = true →
  parse_int_digits neg ds
  = let r := (if neg : bool then - digits_value ds else digits_value ds) in
    if in_i64 r then Ok r else Err IntOverflow.
Proof.
  intros Hd. unfold parse_int_digits. rewrite parse_int_digits_spec; [|done|done|by destruct neg].
  by destruct neg.
Qed.

Lemma parse_int_canonical neg ds :
  canonical_digits ds → (neg = true → ds ≠ [48]) →
  parse_int (string_of_bytes (if neg : bool then 45 :: ds else ds)) = parse_int_digits neg ds.
Proof.
  intros (Hne & Hz & Hd) Hneg. unfold parse_int.
  rewrite bytes_string_of_bytes; first last.
  { pose proof (digits_are_bytes ds Hd) as Hb. destruct neg; [by constructor|done]. }
  assert (match (if neg then 45 :: ds else ds) with
          | 45 :: digits => (true, digits) | digits => (false, digits) end = (neg, ds)) as ->.
  { destruct neg; [done|]. destruct ds as [|d ds]; [done|]. simpl in Hd.
    apply andb_true_iff in Hd as [Hd _]. unfold is_ascii_digit in Hd. apply between_spec in Hd.
    destruct d as [|p|p]; try done. do 6 (destruct p as [p|p|]; try done; try lia). }
  rewrite Hz, Hd, bool_decide_eq_false_2 by done. simpl.
  destruct neg; [|done]. unfold bytes_eqb. by rewrite bool_decide_eq_false_2 by auto.
Qed.

(** ** Properties *)

(** The civil-date conversions implement the proleptic Gregorian calendar for
    all integers: 1970-01-01 is day 0, the next calendar date (month lengths and
    leap years included) is the next day number, and the two conversions are
    inverse to each other in both directions. *)
Theorem civil_calendar_correct (days year month day : Z) :
  days_from_civil 1970 1 1 = 0
  ∧ (valid_date year month day →
     civil_from_days (days_from_civil year month day) = (year, month, day)
     ∧ let '(y, m, d) := next_date (year, month, day) in
       valid_date y m d ∧ days_from_civil y m d = days_from_civil year month day + 1)
  ∧ let '(y, m, d) := civil_from_days days in
    valid_date y m d ∧ days_from_civil y m d = days.
Proof.
  split; [reflexivity|]. split; [|apply days_roundtrip]. intros Hv.
  split; [by apply civil_roundtrip|].
  pose proof (next_date_valid _ _ _ Hv). pose proof (days_of_next_date _ _ _ Hv).
  by destruct (next_date (year, month, day)) as [[? ?] ?].
Qed.

Lemma civil_calendar_correct_witness :
  civil_from_days (days_from_civil 2024 2 29) = (2024, 2, 29)
  ∧ days_from_civil 2024 3 1 = days_from_civil 2024 2 29 + 1.
Proof.
  destruct (civil_calendar_correct 0 2024 2 29) as (_ & Hd & _).
  destruct Hd as [Hr Hn]; [split; vm_compute; split; discriminate|].
  split; [exact Hr|]. exact (proj2 Hn).
Defined.

(** UTC text and epoch seconds correspond one to one on the supported range:
    formatting a second and parsing it back gives that second, and every text the
    parser accepts is in range and is exactly what the formatter prints for its
    second. *)
Theorem utc_text_roundtrip (seconds : Z) (text : string) :
  (in_utc_range seconds = true → parse_utc (format_utc seconds) = Ok seconds)
  ∧ (parse_utc text = Ok seconds → in_utc_range seconds = true ∧ format_utc seconds = text).
Proof.
  split.
  - intros Hr. destruct (format_utc_fields seconds Hr) as (y & mo & d & h & mi & s & -> & Hv & <-).
    by apply parse_utc_fields.
  - intros Hp. apply parse_utc_ok in Hp as (y & mo & d & h & mi & s & Hb & Hv & ->).
    pose proof (utc_seconds_range _ _ _ _ _ _ Hv) as Hr. split; [by apply between_spec|].
    apply bytes_eq_iff. rewrite Hb. destruct Hv as (Hy & Hv & Hh & Hm & Hs).
    unfold format_utc, utc_seconds, SECONDS_PER_DAY.
    set (ds := h * 3600 + mi * 60 + s). assert (0 <= ds < 86400) as Hds by (subst ds; lia).
    rewrite Z.div_add_l, (Z.div_small ds) by lia. rewrite Z.add_0_r, civil_roundtrip by done.
    rewrite (Z.add_comm _ ds), Z.mod_add, (Z.mod_small ds) by lia.
    rewrite bytes_string_of_bytes by apply utc_bytes_are_bytes.
    assert (Z.quot ds 3600 = h ∧ Z.quot (Z.rem ds 3600) 60 = mi ∧ Z.rem ds 60 = s)
      as (-> & -> & ->) by (subst ds; clear -Hh Hm Hs; div_lia).
    reflexivity.
Qed.

Lemma utc_text_roundtrip_witness :
  parse_utc (format_utc 951782399) = Ok 951782399
  ∧ format_utc 951782399 = "2000-02-28T23:59:59Z".
Proof.
  split.
  - apply (utc_text_roundtrip 951782399 ""). reflexivity.
  - apply (utc_text_roundtrip 951782399 "2000-02-28T23:59:59Z"). vm_compute. reflexivity.
Defined.

Lemma time_bucket_value seconds width :
  in_utc_range seconds = true → 0 < width <= i64_max →
  time_bucket seconds width = Some (seconds / width * width).
Proof.
  intros Hr Hw. apply between_spec in Hr. unfold UTC_MIN_SECONDS, UTC_MAX_SECONDS in Hr.
  pose proof (Z.div_mod seconds width) as Hd. pose proof (Z.mod_pos_bound seconds width) as Hm.
  unfold time_bucket, i64_checked_mul, checked. rewrite (proj2 (in_i64_spec _)); [done|].
  unfold i64_min, i64_max in *. destruct (Z.le_gt_cases width 300000000000); [lia|].
  assert (seconds / width = -1 ∨ seconds / width = 0) as [-> | ->]; [|lia..].
  destruct (Z.le_gt_cases 0 seconds); [right; apply Z.div_small; lia|left].
  symmetry. apply (Z.div_unique _ _ _ (seconds + width)); lia.
Qed.

(** A time bucket never overflows: on the supported range and for every
    positive [Int] width the checked product succeeds, and the bucket is the
    multiple of the width that starts at or before the instant and ends after
    it. *)
Theorem time_bucket_floor (seconds width : Z) :
  in_utc_range seconds = true → 0 < width <= i64_max →
  ∃ bucket, time_bucket seconds width = Some bucket
    ∧ bucket <= seconds < bucket + width ∧ (width | bucket).
Proof.
  intros Hr Hw. exists (seconds / width * width). split; [by apply time_bucket_value|].
  pose proof (Z.div_mod seconds width). pose proof (Z.mod_pos_bound seconds width).
  split; [lia|]. by exists (seconds / width).
Qed.

Lemma time_bucket_floor_witness :
  ∃ bucket, time_bucket (-1) 3600 = Some bucket ∧ bucket <= -1 < bucket + 3600
            ∧ (3600 | bucket).
Proof. apply (time_bucket_floor (-1) 3600); vm_compute; [reflexivity|split; congruence]. Defined.

(** [to_int] parses exactly the canonical base-10 integers: the canonical
    text of any integer parses to it when it fits [Int], the minimum included, and
    is an overflow otherwise; and whatever the text, a result is in range and the
    text is its canonical form. *)
Theorem parse_int_exact (z v : Z) (text : string) :
  parse_int (int_text z) = (if in_i64 z then Ok z else Err IntOverflow)
  ∧ (parse_int text = Ok v → text = int_text v ∧ in_i64 v = true).
Proof.
  split.
  - unfold int_text. destruct (Z.ltb_spec z 0) as [Hz|Hz].
    + rewrite (parse_int_canonical true);
        [|apply decimal_canonical; lia|].
      * rewrite parse_int_digits_value by apply decimal_bytes_digits. cbv zeta.
        rewrite digits_value_decimal by lia. by replace (- - z) with z by lia.
      * intros _ E. pose proof (digits_value_decimal (- z)) as Hv. rewrite E in Hv.
        change (digits_value [48]) with 0 in Hv. lia.
    + rewrite (parse_int_canonical false); [|apply decimal_canonical; lia|done].
      rewrite parse_int_digits_value by apply decimal_bytes_digits. cbv zeta.
      by rewrite digits_value_decimal by lia.
  - unfold parse_int.
    destruct (match bytes text with 45 :: digits => (true, digits) | digits => (false, digits) end)
      as [neg ds] eqn:Es.
    assert (bytes text = if neg then 45 :: ds else ds) as Hb.
    { destruct (bytes text) as [|b l]; [by simplify_eq|]. destruct b as [|p|p]; try by simplify_eq.
      do 6 (destruct p as [p|p|]; try by simplify_eq). }
    destruct (_ || _) eqn:Hc; [done|]. boolify.
    rewrite parse_int_digits_value by done. cbv zeta.
    destruct (in_i64 _) eqn:Hr; [|done]. intros [= <-]. split; [|done].
    apply bytes_eq_iff. rewrite Hb. unfold int_text.
    assert (canonical_digits ds) as Hcan by done.
    pose proof (digits_value_bound ds) as Hbound. destruct neg.
    + assert (0 < digits_value ds) as Hpos.
      { destruct (Z.eq_dec (digits_value ds) 0) as [E0|]; [|specialize (Hbound ltac:(done)); lia].
        assert (ds = [48]) as ->; [|done].
        apply canonical_unique; [done|by split_and!|by rewrite E0]. }
      rewrite (proj2 (Z.ltb_lt _ _)) by lia. rewrite Z.opp_involutive.
      rewrite bytes_string_of_bytes.
      * f_equal. apply canonical_unique; [done|apply decimal_canonical; lia|].
        by rewrite digits_value_decimal by lia.
      * constructor; [done|]. apply digits_are_bytes, decimal_bytes_digits.
    + specialize (Hbound ltac:(done)). rewrite (proj2 (Z.ltb_ge _ _)) by lia.
      rewrite bytes_string_of_bytes by (apply digits_are_bytes, decimal_bytes_digits).
      apply canonical_unique; [done|apply decimal_canonical; lia|].
      by rewrite digits_value_decimal by lia.
Qed.

Lemma parse_int_exact_witness :
  parse_int "-9223372036854775808" = Ok i64_min
  ∧ int_text i64_min = "-9223372036854775808".
Proof.
  assert (parse_int "-9223372036854775808" = Ok i64_min) as Hp by (vm_compute; reflexivity).
  split; [exact Hp|]. symmetry. exact (proj1 (proj2 (parse_int_exact 0 _ _) Hp)).
Defined.
