(* ===== verification/Bytecode.v ===== *)
(** * The bytecode model ([crates/allen-bytecode/src/model.rs])

    Value types, constants, the operation enums, instructions, functions and
    modules, with the predicates on types that the verifier and the VM share,
    the result types of effects, the structural representation of prompts and
    the nominal wrapper of tool errors.  Registers, indices and identifiers are
    natural numbers; 64-bit patterns are integers. *)

From S2P Require Import Prelude Text.
Open Scope string_scope.
Open Scope Z_scope.

Abbreviation Register := nat (only parsing).
Abbreviation EnumTypeId := nat (only parsing).
Abbreviation FunctionId := nat (only parsing).
Abbreviation EffectSetId := nat (only parsing).

(** ** Floating-point bit patterns *)

Definition CANONICAL_NAN_BITS : Z := 0x7ff8000000000000.
Definition MAX_VALUE_NESTING : nat := 128.
Definition EXPONENT_MASK : Z := 0x7ff0000000000000.
Definition FRACTION_MASK : Z := 0x000fffffffffffff.

Definition is_nan_bits (bits : Z) : bool :=
  let exponent := Z.land bits EXPONENT_MASK in
  let fraction := Z.land bits FRACTION_MASK in
  (exponent =? EXPONENT_MASK) && negb (fraction =? 0).

Definition canonical_float_bits (bits : Z) : Z :=
  if is_nan_bits bits then CANONICAL_NAN_BITS else bits.

Definition normalize_float_bits (bits : Z) : Z := canonical_float_bits bits.

(** ** Value types *)

(** A [RecordField] is a pair of its name and its type. *)
Inductive ValueType :=
| TInt | TBool | TFloat | TString | TBytes | TRange | TUnit | TNever
| TList (element : ValueType)
| TMap (key value : ValueType)
| TTuple (elements : list ValueType)
| TRecord (fields : list (string * ValueType))
| TEnum (id : EnumTypeId)
| TNewtype (name : string) (underlying : ValueType)
| TOption (value : ValueType)
| TResult (ok error : ValueType)
| TFuture (value : ValueType)
| TTask (value : ValueType)
| TSequence (value : ValueType)
| TWorkspace | TExternalFsAccess | TSubAgent
| TFunction (parameters : list ValueType) (return_type : ValueType) (effects : EffectSetId)
| TUnknown.

Definition RecordField : Type := string * ValueType.

Inductive EnumPayloadType :=
| PTUnit
| PTTuple (types : list ValueType)
| PTRecord (fields : list RecordField).

Record EnumVariant := { ev_name : string; ev_payload : EnumPayloadType }.
Record EnumType := { et_name : string; et_variants : list EnumVariant }.

(** ** Constants and operations *)

Inductive ExternalFsAccess := AccessRead | AccessWrite | AccessReadWrite.

#[export] Instance ExternalFsAccess_eq_dec : EqDecision ExternalFsAccess.
Proof. solve_decision. Defined.

Inductive Constant :=
| CInt (value : Z)
| CBool (value : bool)
| CFloat (bits : Z)
| CString (value : string)
| CBytes (value : list Z)
| CUnit
| CExternalFsAccess (value : ExternalFsAccess).

Definition Constant_float_bits (bits : Z) : Constant := CFloat (canonical_float_bits bits).

Definition Constant_value_type (c : Constant) : ValueType :=
  match c with
  | CInt _ => TInt
  | CBool _ => TBool
  | CFloat _ => TFloat
  | CString _ => TString
  | CBytes _ => TBytes
  | CUnit => TUnit
  | CExternalFsAccess _ => TExternalFsAccess
  end.

Inductive NumericBinaryOp := Add | Subtract | Multiply | Divide.
Inductive CompareOp := Equal | NotEqual | Less | LessEqual | Greater | GreaterEqual.
Inductive BoolBinaryOp := And | Or.
Inductive Conversion := IntToFloat | ToString | StringToBytes.
Inductive StringOperation :=
| ByteLength | Concat | StrGet | StrSlice | StrFind | Contains | StartsWith | EndsWith | Split
| Join | TrimAscii | FromUtf8 | Replace | TemplateConcat.
Inductive StandardOperation := ToInt | FloatFormat | TimeFormatUtc | TimeParseUtc | TimeBucket.
Inductive CapabilityOperation := IsGranted | Granted.
Inductive SafeCollectionOperation :=
| ListGet | ListTrySet | BytesGet | MapGet | MapInsert | MapRemove | MapKeys.
Inductive CollectionOperation := Zip | ListMin | ListMax | ListSumInt | ListSumFloat.
Inductive ListCombinator :=
| LMap | LFilter | LFlatMap | LFilterMap | LFind | LAny | LAll | LPartition | LScan.
Inductive CheckedIntOperation :=
| CheckedAdd | CheckedSubtract | CheckedMultiply | CheckedDivide | CheckedRemainder
| CheckedNegate.
Inductive EffectOperation :=
| ReadText | ReadBytes | WriteText | WriteBytes | List_ | HttpGet | PermissionRequestFile
| PermissionRequestDirectory | AgentMessage | AgentAsk | AgentTranscript | ModelRequest | UserAsk
| SubAgentCreate | SubAgentRun | SubAgentMessage | SubAgentAsk | Search_ | ExecRun.

#[export] Instance EffectOperation_eq_dec : EqDecision EffectOperation.
Proof. solve_decision. Defined.

(** ** Instructions *)

Record EnumSwitchArm := { arm_variant : nat; arm_target : nat; arm_bindings : list Register }.

Inductive ListLiteralItem := LElement (r : Register) | LSpread (r : Register).
Inductive MapLiteralItem := MEntry (key value : Register) | MSpread (r : Register).

Inductive Instruction :=
| Const (destination : Register) (constant : nat)
| Move (destination source : Register)
| IntBinary (destination left right : Register) (operation : NumericBinaryOp)
| IntRemainder (destination left right : Register)
| FloatBinary (destination left right : Register) (operation : NumericBinaryOp)
| IntNegate (destination source : Register)
| FloatNegate (destination source : Register)
| Compare (destination left right : Register) (operation : CompareOp)
| BoolNot (destination source : Register)
| BoolBinary (destination left right : Register) (operation : BoolBinaryOp)
| ListNew (destination : Register) (elements : list Register)
| ListLiteralBuild (destination : Register) (items : list ListLiteralItem)
| RangeNew (destination start end_ : Register) (inclusive : bool)
| RangeStart (destination range : Register)
| RangeEnd (destination range : Register)
| RangeInclusive (destination range : Register)
| Length (destination collection : Register)
| ListAppend (destination values value : Register)
| ListSet (destination values index value : Register)
| MapNew (destination : Register) (entries : list (Register * Register))
| MapLiteralBuild (destination : Register) (items : list MapLiteralItem)
| TupleNew (destination : Register) (elements : list Register)
| IndexGet (destination collection index : Register)
| SliceGet (destination collection start end_ : Register)
| MapEntryAt (destination map index : Register)
| TupleGet (destination tuple : Register) (index : nat)
| Convert (destination source : Register) (conversion : Conversion)
| RecordNew (destination : Register) (fields : list (nat * Register))
| FieldGet (destination record : Register) (field : nat)
| NewtypeWrap (destination source : Register)
| NewtypeUnwrap (destination source : Register)
| EnumNew (destination : Register) (variant : nat) (payload : list Register)
| BranchBool (condition : Register) (true_target false_target : nat)
| SwitchEnum (source : Register) (arms : list EnumSwitchArm)
| Jump (target : nat)
| TryResult (destination source : Register)
| TryOption (destination source : Register)
| ToUnknown (destination source : Register)
| Narrow (destination source : Register) (target : ValueType)
| Decode (destination source : Register) (target : ValueType)
| DirectCall (destination : Register) (function : FunctionId) (arguments : list Register)
| ClosureNew (destination : Register) (function : FunctionId) (captures : list Register)
| ClosureCall (destination closure : Register) (arguments : list Register)
| AsyncCall (destination : Register) (function : FunctionId) (arguments : list Register)
| Spawn (destination future : Register) (scope : nat)
| Await (destination source : Register)
| TaskSnapshot (destination source : Register)
| WorkspaceGet (destination : Register)
| EffectCall (destination : Register) (operation : EffectOperation) (arguments : list Register)
| StringCall (destination : Register) (operation : StringOperation) (arguments : list Register)
| StandardCall (destination : Register) (operation : StandardOperation) (arguments : list Register)
| CapabilityInspect (destination : Register) (operation : CapabilityOperation)
    (arguments : list Register)
| SafeCollectionCall (destination : Register) (operation : SafeCollectionOperation)
    (arguments : list Register)
| CheckedIntCall (destination : Register) (operation : CheckedIntOperation)
    (arguments : list Register)
| CollectionCall (destination : Register) (operation : CollectionOperation)
    (arguments : list Register)
| ListFold (destination values initial callback : Register)
| ListCombinator_ (destination : Register) (operation : ListCombinator) (values : Register)
    (initial : option Register) (callback callback_result : Register)
| SequenceFromList (destination values : Register)
| SequenceMap (destination sequence callback : Register)
| SequenceFilter (destination sequence callback : Register)
| SequenceTake (destination sequence count : Register)
| SequenceFind (destination sequence callback : Register)
| SequenceAny (destination sequence callback : Register)
| SequenceAll (destination sequence callback : Register)
| SequenceFold (destination sequence initial callback : Register)
| SequenceToList (destination sequence : Register)
| ToolInvoke (destination : Register) (tool : nat) (input : Register)
| TemplateRender (destination : Register) (template : nat) (arguments : list Register)
| TaskScopeEnter (scope : nat)
| TaskScopeExit (scope : nat)
| Stop (reason : Register)
| Fail_ (reason : Register)
| Return_ (source : Register).

Record Function := {
  fn_name : string;
  fn_parameters : list Register;
  fn_parameter_names : list string;
  fn_parameter_default_digests : list (option (list Z));
  fn_captures : list Register;
  fn_registers : list ValueType;
  fn_return_type : ValueType;
  fn_effects : EffectSetId;
  fn_code : list Instruction
}.

Record Module_ := {
  constants : list Constant;
  enum_types : list EnumType;
  effect_sets : list (list string);
  functions : list Function;
  async_functions : list FunctionId;
  entry : nat
}.

Record ToolVerificationContract := {
  tvc_tool_name : string; tvc_input : ValueType; tvc_output : ValueType;
  tvc_declared_error : ValueType }.

Record TemplateHole := { th_name : string; th_value_type : ValueType }.
Record TemplateMarker := { tm_start : Z; tm_end : Z; tm_hole : nat }.
Record TemplateResource := {
  tr_identity : string; tr_content : string; tr_digest : list Z;
  tr_holes : list TemplateHole; tr_markers : list TemplateMarker }.

(** ** Induction and decidable equality on types *)

(** The types without components. *)
Definition base_type (t : ValueType) : bool :=
  match t with
  | TInt | TBool | TFloat | TString | TBytes | TRange | TUnit | TNever | TEnum _
  | TWorkspace | TExternalFsAccess | TSubAgent | TUnknown => true
  | _ => false
  end.

Fixpoint ValueType_ind' (P : ValueType → Prop)
  (Hbase : ∀ t, base_type t = true → P t)
  (Hlist : ∀ e, P e → P (TList e))
  (Hmap : ∀ k v, P k → P v → P (TMap k v))
  (Htuple : ∀ l, Forall P l → P (TTuple l))
  (Hrecord : ∀ fs, Forall (λ f, P f.2) fs → P (TRecord fs))
  (Hnewtype : ∀ n u, P u → P (TNewtype n u))
  (Hoption : ∀ v, P v → P (TOption v))
  (Hresult : ∀ o e, P o → P e → P (TResult o e))
  (Hfuture : ∀ v, P v → P (TFuture v))
  (Htask : ∀ v, P v → P (TTask v))
  (Hsequence : ∀ v, P v → P (TSequence v))
  (Hfunction : ∀ ps r e, Forall P ps → P r → P (TFunction ps r e)) (t : ValueType) : P t :=
  let rec := ValueType_ind' P Hbase Hlist Hmap Htuple Hrecord Hnewtype Hoption Hresult Hfuture
               Htask Hsequence Hfunction in
  let all := fix all (l : list ValueType) : Forall P l :=
    match l with [] => List.Forall_nil _ | x :: l' => List.Forall_cons _ x l' (rec x) (all l') end in
  match t with
  | TList e => Hlist e (rec e)
  | TMap k v => Hmap k v (rec k) (rec v)
  | TTuple l => Htuple l (all l)
  | TRecord fs =>
    Hrecord fs ((fix fields (l : list (string * ValueType)) : Forall (λ f, P f.2) l :=
      match l with
      | [] => List.Forall_nil _
      | (n, x) :: l' => List.Forall_cons _ (n, x) l' (rec x) (fields l')
      end) fs)
  | TNewtype n u => Hnewtype n u (rec u)
  | TOption v => Hoption v (rec v)
  | TResult o e => Hresult o e (rec o) (rec e)
  | TFuture v => Hfuture v (rec v)
  | TTask v => Htask v (rec v)
  | TSequence v => Hsequence v (rec v)
  | TFunction ps r e => Hfunction ps r e (all ps) (rec r)
  | TInt => Hbase TInt eq_refl | TBool => Hbase TBool eq_refl | TFloat => Hbase TFloat eq_refl
  | TString => Hbase TString eq_refl | TBytes => Hbase TBytes eq_refl
  | TRange => Hbase TRange eq_refl | TUnit => Hbase TUnit eq_refl | TNever => Hbase TNever eq_refl
  | TEnum i => Hbase (TEnum i) eq_refl | TWorkspace => Hbase TWorkspace eq_refl
  | TExternalFsAccess => Hbase TExternalFsAccess eq_refl | TSubAgent => Hbase TSubAgent eq_refl
  | TUnknown => Hbase TUnknown eq_refl
  end.

(** [l.len() == r.len() && l.iter().zip(r).all(f)] *)
Section All2.
Context {A B : Type} (f : A → B → bool).
Fixpoint all2 (l : list A) (r : list B) : bool :=
match l, r with
| [], [] => true
| x :: l', y :: r' => f x y && all2 l' r'
| _, _ => false
end.
End All2.

Fixpoint ValueType_eqb (s t : ValueType) : bool :=
  match s, t with
  | TInt, TInt | TBool, TBool | TFloat, TFloat | TString, TString | TBytes, TBytes
  | TRange, TRange | TUnit, TUnit | TNever, TNever | TWorkspace, TWorkspace
  | TExternalFsAccess, TExternalFsAccess | TSubAgent, TSubAgent | TUnknown, TUnknown => true
  | TList a, TList b | TOption a, TOption b | TFuture a, TFuture b | TTask a, TTask b
  | TSequence a, TSequence b => ValueType_eqb a b
  | TMap a b, TMap c d | TResult a b, TResult c d => ValueType_eqb a c && ValueType_eqb b d
  | TTuple l, TTuple r => all2 ValueType_eqb l r
  | TRecord l, TRecord r =>
    all2 (λ f g : string * ValueType, String.eqb f.1 g.1 && ValueType_eqb f.2 g.2) l r
  | TEnum i, TEnum j => Nat.eqb i j
  | TNewtype n u, TNewtype m v => String.eqb n m && ValueType_eqb u v
  | TFunction ps r e, TFunction qs s f =>
    all2 ValueType_eqb ps qs && ValueType_eqb r s && Nat.eqb e f
  | _, _ => false
  end.

Lemma all2_eq {A} (f : A → A → bool) l r :
  Forall (λ x, ∀ y, f x y = true ↔ x = y) l → all2 f l r = true ↔ l = r.
Proof.
  intros Hf. revert r. induction Hf as [|x l Hx _ IH]; intros [|y r]; simpl; try by split.
  rewrite andb_true_iff, Hx, IH. naive_solver.
Qed.

Lemma ValueType_eqb_eq s t : ValueType_eqb s t = true ↔ s = t.
Proof.
  revert t. induction s as [s Hb|s IHs|s1 s2 IHs1 IHs2|l IH|fs IH|n s IHs|s IHs|s1 s2 IHs1 IHs2|s IHs|s IHs|s IHs
    |ps r e IH IHr] using ValueType_ind'.
  - destruct s; try discriminate; clear Hb; intros t; destruct t; simpl; rewrite ?Nat.eqb_eq;
      split; congruence.
  - intros []; simpl; try (split; congruence). rewrite IHs. naive_solver.
  - intros []; simpl; try (split; congruence). rewrite andb_true_iff, IHs1, IHs2. naive_solver.
  - intros []; simpl; try (split; congruence). rewrite all2_eq by done. naive_solver.
  - intros []; simpl; try (split; congruence). rewrite all2_eq; [naive_solver|].
    eapply Forall_impl; [exact IH|]. intros [n x] Hx [m y]. simpl in *.
    rewrite andb_true_iff, String.eqb_eq, Hx. naive_solver.
  - intros []; simpl; try (split; congruence). rewrite andb_true_iff, String.eqb_eq, IHs. naive_solver.
  - intros []; simpl; try (split; congruence). rewrite IHs. naive_solver.
  - intros []; simpl; try (split; congruence). rewrite andb_true_iff, IHs1, IHs2. naive_solver.
  - intros []; simpl; try (split; congruence). rewrite IHs. naive_solver.
  - intros []; simpl; try (split; congruence). rewrite IHs. naive_solver.
  - intros []; simpl; try (split; congruence). rewrite IHs. naive_solver.
  - intros []; simpl; try (split; congruence). rewrite !andb_true_iff, all2_eq, IHr, Nat.eqb_eq by done.
    naive_solver.
Qed.

#[export] Instance ValueType_eq_dec : EqDecision ValueType.
Proof.
  intros s t. destruct (ValueType_eqb s t) eqn:E.
  - left. by apply ValueType_eqb_eq.
  - right. intros ->. by rewrite (proj2 (ValueType_eqb_eq t t)) in E.
Defined.

#[export] Instance EnumPayloadType_eq_dec : EqDecision EnumPayloadType.
Proof. solve_decision. Defined.
#[export] Instance EnumVariant_eq_dec : EqDecision EnumVariant.
Proof. solve_decision. Defined.
#[export] Instance EnumType_eq_dec : EqDecision EnumType.
Proof. solve_decision. Defined.

(** ** Predicates on types *)

Fixpoint is_map_key (t : ValueType) : bool :=
  match t with
  | TBool | TInt | TString | TBytes => true
  | TNewtype _ underlying => is_map_key underlying
  | _ => false
  end.

Fixpoint is_equatable (t : ValueType) : bool :=
  match t with
  | TInt | TBool | TFloat | TString | TBytes | TRange | TUnit | TExternalFsAccess | TEnum _
  | TNever => true
  | TList element => is_equatable element
  | TMap key value => is_equatable key && is_equatable value
  | TTuple elements => forallb is_equatable elements
  | TRecord fields => forallb (λ field, is_equatable field.2) fields
  | TOption value => is_equatable value
  | TResult ok error => is_equatable ok && is_equatable error
  | TNewtype _ underlying => is_equatable underlying
  | TFunction _ _ _ | TFuture _ | TTask _ | TSequence _ | TWorkspace | TSubAgent | TUnknown => false
  end.

Fixpoint is_ordered (t : ValueType) : bool :=
  match t with
  | TInt | TFloat | TString | TBytes => true
  | TNewtype _ underlying => is_ordered underlying
  | _ => false
  end.

Fixpoint is_strict_schema_type (t : ValueType) : bool :=
  match t with
  | TFunction _ _ _ | TFuture _ | TTask _ | TWorkspace | TExternalFsAccess | TSubAgent | TRange
  | TSequence _ | TUnknown | TNever => false
  | TList value | TOption value => is_strict_schema_type value
  | TNewtype _ underlying => is_strict_schema_type underlying
  | TMap key value | TResult key value => is_strict_schema_type key && is_strict_schema_type value
  | TTuple values => forallb is_strict_schema_type values
  | TRecord fields => forallb (λ field, is_strict_schema_type field.2) fields
  | TInt | TBool | TFloat | TString | TBytes | TUnit | TEnum _ => true
  end.

(** ** The exact structural types of the standard library *)

Definition task_snapshot_type : ValueType :=
  TRecord [("function", TString); ("id", TInt); ("location", TOption TString);
           ("owner_id", TInt); ("state", TString)].

Definition file_error_type : ValueType := TRecord [("code", TString); ("message", TString)].
Definition network_error_type : ValueType := file_error_type.
Definition standard_error_type : ValueType := file_error_type.
Definition agent_error_type : ValueType := standard_error_type.
Definition user_error_type : ValueType := standard_error_type.
Definition sub_agent_error_type : ValueType := standard_error_type.
Definition model_error_type : ValueType := standard_error_type.
Definition permission_error_type : ValueType := standard_error_type.
Definition time_error_type : ValueType := standard_error_type.
Definition parse_error_type : ValueType := standard_error_type.
Definition format_error_type : ValueType := standard_error_type.
Definition decode_error_type : ValueType := standard_error_type.
Definition exec_error_type : ValueType := standard_error_type.

Definition exec_response_type : ValueType :=
  TRecord [("status", TInt); ("stderr", TBytes); ("stdout", TBytes)].

Definition http_response_type : ValueType :=
  TRecord [("body", TBytes); ("final_url", TString); ("headers", TMap TString (TList TString));
           ("status", TInt)].

Definition search_match_type : ValueType :=
  TRecord [("column", TInt); ("line", TInt); ("path", TString); ("text", TString)].

Definition external_file_request_type : ValueType :=
  TRecord [("access", TExternalFsAccess); ("path", TString); ("reason", TString)].

Definition external_directory_request_type : ValueType :=
  match external_file_request_type with
  | TRecord fields => TRecord (fields ++ [("recursive", TBool)])
  | t => t (* unreachable: the file request type is a record *)
  end.

Definition transcript_query_type : ValueType := TRecord [("limit", TInt)].

Definition TRANSCRIPT_PART_ENUM_NAME : string :=
  "pkg://allen@0.1.1/src/standard.allen::TranscriptPart".

Definition transcript_part_enum_type : EnumType :=
  let variant name fields := {| ev_name := name; ev_payload := PTRecord fields |} in
  {| et_name := TRANSCRIPT_PART_ENUM_NAME;
     et_variants :=
       [variant "Text" [("text", TString)];
        variant "Json" [("value", TUnknown)];
        variant "ToolCall" [("call_id", TString); ("input", TOption TUnknown); ("name", TString)];
        variant "ToolResult" [("call_id", TString); ("is_error", TBool);
                              ("output", TOption TUnknown)];
        variant "Attachment" [("content_ref", TOption TString); ("media_type", TString);
                              ("name", TOption TString)];
        variant "Redacted" [("reason_code", TString)];
        variant "Omitted" [("content_kind", TString); ("count", TInt)]] |}.

Definition transcript_message_type (transcript_part : EnumTypeId) : ValueType :=
  TRecord [("content", TList (TEnum transcript_part)); ("id", TOption TString);
           ("role", TString); ("time", TOption TString)].

Definition transcript_snapshot_type (transcript_part : EnumTypeId) : ValueType :=
  TRecord [("captured_at", TString); ("messages", TList (transcript_message_type transcript_part));
           ("policy_version", TString); ("session_id", TString); ("snapshot_id", TString);
           ("truncated", TBool)].

(** [enum_types.iter().position(..)], then [u32::try_from]. *)
Fixpoint position {A} (f : A → bool) (l : list A) : option nat :=
  match l with
  | [] => None
  | x :: l' => if f x then Some 0%nat else S <$> position f l'
  end.

Definition transcript_part_enum_id (module : Module_) : option EnumTypeId :=
  index ← position (λ t, bool_decide (t = transcript_part_enum_type)) (enum_types module);
  if Z.of_nat index <=? u32_max then Some index else None.

(** ** Effects *)

Definition required_effect (operation : EffectOperation) : string :=
  match operation with
  | ReadText | ReadBytes | List_ | Search_ => "fs.read"
  | WriteText | WriteBytes => "fs.write"
  | HttpGet => "net.http_get"
  | PermissionRequestFile | PermissionRequestDirectory => "permission.request_external_fs"
  | AgentMessage => "agent.message"
  | AgentAsk => "agent.ask"
  | AgentTranscript => "agent.transcript"
  | ModelRequest => "model.request"
  | UserAsk => "user.ask"
  | SubAgentCreate => "sub_agent.create"
  | SubAgentRun => "sub_agent.run"
  | SubAgentMessage => "sub_agent.message"
  | SubAgentAsk => "sub_agent.ask"
  | ExecRun => "exec.run"
  end.

Definition effect_result_type (operation : EffectOperation) (transcript_part : option EnumTypeId)
    : option ValueType :=
  let res ok error := Some (TResult ok error) in
  match operation with
  | ReadText => res TString file_error_type
  | ReadBytes => res TBytes file_error_type
  | WriteText | WriteBytes => res TUnit file_error_type
  | List_ => res (TList TString) file_error_type
  | Search_ => res (TList search_match_type) file_error_type
  | HttpGet => res http_response_type network_error_type
  | ExecRun => res exec_response_type exec_error_type
  | PermissionRequestFile | PermissionRequestDirectory => res TWorkspace permission_error_type
  | AgentMessage => res TUnit agent_error_type
  | AgentAsk => res TString agent_error_type
  | AgentTranscript =>
    part ← transcript_part; res (transcript_snapshot_type part) agent_error_type
  | SubAgentCreate => res TSubAgent sub_agent_error_type
  | SubAgentMessage => res TUnit sub_agent_error_type
  | SubAgentRun | SubAgentAsk | ModelRequest | UserAsk => None
  end.

(** ** Prompts *)

Definition PROMPT_SYSTEM_FIELD : string := "$prompt_0_system".
Definition PROMPT_CONTEXT_FIELD : string := "$prompt_1_context".
Definition PROMPT_DATA_FIELD : string := "$prompt_2_data".
Definition PROMPT_OUTPUT_FIELD : string := "$prompt_3_output".
Definition PROMPT_ATTEMPTS_FIELD : string := "$prompt_4_max_attempts".

Definition prompt_type (output : ValueType) : ValueType :=
  TRecord [(PROMPT_SYSTEM_FIELD, TString); (PROMPT_CONTEXT_FIELD, TOption TUnknown);
           (PROMPT_DATA_FIELD, TOption TUnknown); (PROMPT_OUTPUT_FIELD, TOption output);
           (PROMPT_ATTEMPTS_FIELD, TInt)].

Definition prompt_output_type (t : ValueType) : option ValueType :=
  match t with
  | TRecord [f0; f1; f2; f3; f4] =>
    if negb (String.eqb f0.1 PROMPT_SYSTEM_FIELD)
       || negb (bool_decide (f0.2 = TString))
       || negb (String.eqb f1.1 PROMPT_CONTEXT_FIELD)
       || negb (bool_decide (f1.2 = TOption TUnknown))
       || negb (String.eqb f2.1 PROMPT_DATA_FIELD)
       || negb (bool_decide (f2.2 = TOption TUnknown))
       || negb (String.eqb f3.1 PROMPT_OUTPUT_FIELD)
       || negb (String.eqb f4.1 PROMPT_ATTEMPTS_FIELD)
       || negb (bool_decide (f4.2 = TInt))
    then None
    else match f3.2 with TOption output => Some output | _ => None end
  | _ => None
  end.

Definition sub_agent_projection_type : ValueType :=
  TRecord [("capabilities", TList TString); ("limits", TMap TString TInt); ("tools", TList TString)].

Definition typed_response_error_type (operation : EffectOperation) : option ValueType :=
  match operation with
  | AgentAsk => Some agent_error_type
  | ModelRequest => Some model_error_type
  | UserAsk => Some user_error_type
  | SubAgentRun | SubAgentAsk => Some sub_agent_error_type
  | _ => None
  end.

Definition typed_response_output_type (function : Function) (i : Instruction) : option ValueType :=
  match i with
  | EffectCall destination operation arguments =>
    request_index ← match operation with
                    | ModelRequest | UserAsk | SubAgentRun | AgentAsk => Some 0%nat
                    | SubAgentAsk => Some 1%nat
                    | _ => None
                    end;
    argument ← arguments !! request_index;
    argument_type ← fn_registers function !! argument;
    requested_output ← prompt_output_type argument_type;
    match fn_registers function !! destination with
    | Some (TFuture (TResult ok error)) =>
      (* [&&] does not evaluate the error type when the first comparison fails *)
      if bool_decide (ok = requested_output) then
        expected ← typed_response_error_type operation;
        if bool_decide (error = expected) then Some requested_output else None
      else None
    | _ => None
    end
  | _ => None
  end.

(** ** Tool error wrappers *)

Definition hex_digit (n : Z) : Z := if n <? 10 then 48 + n else 55 + n.

(** One byte of [tool_error_wrapper_type_name]: kept, or [_xNN_]. *)
Definition mangle_byte (byte : Z) : list Z :=
  if is_ascii_alphanumeric byte || (byte =? 95) then [byte]
  else [95; 120; hex_digit (byte / 16); hex_digit (byte mod 16); 95].

Definition mangle (name : string) : string := string_of_bytes (flat_map mangle_byte (bytes name)).

Definition tool_error_wrapper_type_name (tool_name : string) : string :=
  ("_tool_" ++ mangle ("tools." ++ tool_name ++ "::Error"))%string.

(** [name.rsplit_once("::")]: the parts around the last separator. *)
Fixpoint rsplit_once (p s : string) : option (string * string) :=
  match s with
  | EmptyString => if String.eqb p "" then Some ("", "") else None
  | String c s' =>
    match rsplit_once p s' with
    | Some (b, a) => Some (String c b, a)
    | None => match strip_prefix p s with Some a => Some ("", a) | None => None end
    end
  end.

Definition tool_declared_error_type (module : Module_) (t : ValueType) (tool_name : string)
    : option ValueType :=
  match t with
  | TEnum id =>
    wrapper ← enum_types module !! id;
    match et_variants wrapper with
    | [declared; unavailable; schema] =>
      match ev_payload declared with
      | PTTuple [declared_error] =>
        match standard_error_type with
        | TRecord standard_fields =>
          let standard_payload := PTRecord standard_fields in
          parts ← rsplit_once "::" (et_name wrapper);
          if String.eqb parts.2 (tool_error_wrapper_type_name tool_name)
             && String.eqb (ev_name declared) "Declared"
             && String.eqb (ev_name unavailable) "Unavailable"
             && bool_decide (ev_payload unavailable = standard_payload)
             && String.eqb (ev_name schema) "Schema"
             && bool_decide (ev_payload schema = standard_payload)
          then Some declared_error else None
        | _ => None (* unreachable *)
        end
      | _ => None
      end
    | _ => None
    end
  | _ => None
  end.

(** ** Lemmas *)

Lemma canonical_float_bits_idem bits :
  canonical_float_bits (canonical_float_bits bits) = canonical_float_bits bits.
Proof. unfold canonical_float_bits. destruct (is_nan_bits bits) eqn:E; [done|]. by rewrite E. Qed.

Lemma is_nan_canonical bits : is_nan_bits (canonical_float_bits bits) = is_nan_bits bits.
Proof. unfold canonical_float_bits. by destruct (is_nan_bits bits) eqn:E. Qed.

Lemma forallb_impl {A} (f g : A → bool) l :
  Forall (λ x, f x = true → g x = true) l → forallb f l = true → forallb g l = true.
Proof.
  induction 1 as [|x l Hx _ IH]; simpl; [done|]. rewrite !andb_true_iff. intros [? ?]. auto.
Qed.

Lemma map_key_strict t : is_map_key t = true → is_strict_schema_type t = true.
Proof. induction t; simpl; try done. Qed.

Lemma ordered_strict t : is_ordered t = true → is_strict_schema_type t = true.
Proof. induction t; simpl; try done. Qed.

Lemma strict_equatable t : is_strict_schema_type t = true → is_equatable t = true.
Proof.
  induction t as [t Hb|t IH|t1 t2 IH1 IH2|l IH|fs IH|n t IH|t IH|t1 t2 IH1 IH2|t IH|t IH|t IH
    |ps r e IH IHr] using ValueType_ind'; simpl; try done.
  - by destruct t.
  - rewrite !andb_true_iff. intros [? ?]. auto.
  - by apply forallb_impl.
  - by apply forallb_impl.
  - rewrite !andb_true_iff. intros [? ?]. auto.
Qed.

(** A byte a tool name may contain: [tool_name] of the protocol allows lower-case
    ASCII, digits, underscores and the separator dot. *)
Definition tool_name_byte (b : Z) : bool :=
  is_ascii_lowercase b || is_ascii_digit b || (b =? 95) || (b =? 46).

Lemma mangle_byte_cases b :
  tool_name_byte b = true →
  (mangle_byte b = [b] ∧ b ≠ 46 ∧ b ≠ 69) ∨ (mangle_byte b = [95; 120; 50; 69; 95] ∧ b = 46).
Proof.
  unfold tool_name_byte, mangle_byte, is_ascii_alphanumeric, is_ascii_alphabetic,
    is_ascii_uppercase, is_ascii_lowercase, is_ascii_digit, between.
  intros H. destruct (Z.eq_dec b 46) as [->|Hne]; [right; done|left].
  assert (b ≠ 69) by (intros ->; done).
  split; [|done]. rewrite !orb_true_iff, !andb_true_iff, !Z.leb_le, !Z.eqb_eq in H.
  destruct ((97 <=? b) && (b <=? 122)) eqn:E1; [done|].
  destruct ((48 <=? b) && (b <=? 57)) eqn:E2; [by rewrite orb_true_r|].
  destruct (Z.eqb_spec b 95); [by rewrite orb_true_r|].
  apply andb_false_iff in E1, E2. rewrite !Z.leb_gt in E1, E2. lia.
Qed.

Lemma flat_map_cons_eq {A B} (f : A → list B) x l : flat_map f (x :: l) = (f x ++ flat_map f l)%list.
Proof. done. Qed.

(** An unescaped name never continues with the rest of an escape. *)
Lemma mangle_not_escape s t :
  forallb tool_name_byte s = true → flat_map mangle_byte s ≠ (120 :: 50 :: 69 :: t)%list.
Proof.
  assert (∀ y s r, y ≠ 95 → forallb tool_name_byte s = true →
            flat_map mangle_byte s = (y :: r)%list →
            ∃ s', s = (y :: s')%list ∧ y ≠ 69 ∧ flat_map mangle_byte s' = r
                  ∧ forallb tool_name_byte s' = true) as Hstep.
  { intros y l r Hy Hl E. destruct l as [|a l]; [done|].
    simpl in Hl. apply andb_true_iff in Hl as [Ha Hl]. rewrite flat_map_cons_eq in E.
    destruct (mangle_byte_cases a Ha) as [(Em & _ & Hn)|(Em & _)]; rewrite Em in E;
      injection E as <- E; [by exists l|by destruct Hy]. }
  intros Hs E.
  destruct (Hstep 120 _ _ ltac:(done) Hs E) as (s1 & -> & _ & E1 & Hs1).
  destruct (Hstep 50 _ _ ltac:(done) Hs1 E1) as (s2 & -> & _ & E2 & Hs2).
  by destruct (Hstep 69 _ _ ltac:(done) Hs2 E2) as (s3 & _ & Hn & _).
Qed.

Lemma mangle_inj s t :
  forallb tool_name_byte s = true → forallb tool_name_byte t = true →
  flat_map mangle_byte s = flat_map mangle_byte t → s = t.
Proof.
  assert (∀ x l, flat_map mangle_byte (x :: l) ≠ []) as Hnil.
  { intros x l. rewrite flat_map_cons_eq. unfold mangle_byte. by destruct (_ || _). }
  revert t. induction s as [|a s IH]; intros [|b t] Hs Ht E; [done| | |].
  { symmetry in E. by apply Hnil in E. }
  { by apply Hnil in E. }
  simpl in Hs, Ht. apply andb_true_iff in Hs as [Ha Hs], Ht as [Hb Ht].
  rewrite !flat_map_cons_eq in E.
  destruct (mangle_byte_cases a Ha) as [(Ea & Na & _)|(Ea & Na)],
    (mangle_byte_cases b Hb) as [(Eb & Nb & _)|(Eb & Nb)]; rewrite Ea, Eb in E; simpl in E;
    injection E as E1; subst.
  - f_equal. by apply IH.
  - exfalso. eapply mangle_not_escape; [exact Hs|done].
  - exfalso. eapply mangle_not_escape; [exact Ht|done].
  - f_equal. by apply IH.
Qed.

Lemma mangle_bytes_are_bytes s :
  Forall (λ b, is_byte b = true) s → Forall (λ b, is_byte b = true) (flat_map mangle_byte s).
Proof.
  induction 1 as [|b s Hb _ IH]; [constructor|]. rewrite flat_map_cons_eq.
  apply Forall_app. split; [|done]. unfold mangle_byte. case_match; [by repeat constructor|].
  unfold is_byte in *. rewrite !in_unsigned_spec in *. unfold u8_max in *.
  pose proof (Z.mod_pos_bound b 16). assert (0 <= b / 16 < 16).
  { split; [apply Z.div_pos; lia|apply Z.div_lt_upper_bound; lia]. }
  repeat constructor; apply in_unsigned_spec; unfold hex_digit, u8_max; try case_match; lia.
Qed.

Lemma wrapper_name_inj name name' :
  forallb tool_name_byte (bytes name) = true → forallb tool_name_byte (bytes name') = true →
  tool_error_wrapper_type_name name = tool_error_wrapper_type_name name' → name = name'.
Proof.
  intros Hn Hn' E. apply bytes_eq_iff. apply mangle_inj; [done..|].
  apply bytes_eq_iff in E. unfold tool_error_wrapper_type_name in E. rewrite !bytes_app in E.
  apply app_inv_head in E. unfold mangle in E.
  rewrite !bytes_string_of_bytes in E by apply mangle_bytes_are_bytes, bytes_are_bytes.
  rewrite !bytes_app, !flat_map_app in E. apply app_inv_head, app_inv_tail in E. done.
Qed.

Lemma prompt_output_prompt t output : prompt_output_type t = Some output → t = prompt_type output.
Proof.
  unfold prompt_output_type.
  destruct t as [| | | | | | | | | | |[|[n0 t0] [|[n1 t1] [|[n2 t2] [|[n3 t3] [|[n4 t4] [|]]]]]]
    | | | | | | | | | | | |]; try done.
  case_match eqn:Hc; [done|]. simpl in *. boolify. rewrite !String.eqb_eq in *. subst.
  destruct t3; try done. intros [= ->]. reflexivity.
Qed.

(** ** Properties *)

(** The classes of types nest as the verifier assumes: map-key types and
    ordered types can cross an external boundary, and every type that can cross
    an external boundary has language equality. *)
Theorem type_classes_nested (t : ValueType) :
  (is_map_key t = true ∨ is_ordered t = true → is_strict_schema_type t = true)
  ∧ (is_strict_schema_type t = true → is_equatable t = true).
Proof.
  split; [|apply strict_equatable]. intros [Hk|Ho]; [by apply map_key_strict|by apply ordered_strict].
Qed.

Lemma type_classes_nested_witness :
  is_strict_schema_type (TNewtype "Id" TString) = true
  ∧ is_equatable (TMap (TNewtype "Id" TString) (TList TFloat)) = true.
Proof.
  split.
  - apply (proj1 (type_classes_nested (TNewtype "Id" TString))). left. reflexivity.
  - apply (proj2 (type_classes_nested (TMap (TNewtype "Id" TString) (TList TFloat)))). reflexivity.
Defined.

(** The structural prompt shape is exact: a type is recognized as a prompt
    for [output] precisely when it is the prompt type of [output]. *)
Theorem prompt_shape_exact (t output : ValueType) :
  prompt_output_type t = Some output ↔ t = prompt_type output.
Proof.
  split; [apply prompt_output_prompt|by intros ->].
Qed.

(** A typed response is what the program asked for: when a response type is
    derived for an instruction, the request operand is a prompt for exactly that
    type and the destination is a future of a result of that type and of the
    operation's own error type. *)
Theorem typed_response_sound (f : Function) (destination : Register)
    (operation : EffectOperation) (arguments : list Register) (output : ValueType) :
  typed_response_output_type f (EffectCall destination operation arguments) = Some output →
  ∃ error argument,
    typed_response_error_type operation = Some error
    ∧ argument ∈ arguments
    ∧ fn_registers f !! argument = Some (prompt_type output)
    ∧ fn_registers f !! destination = Some (TFuture (TResult output error)).
Proof.
  unfold typed_response_output_type. intros H.
  apply bind_Some in H as (index & Hop & H). apply bind_Some in H as (argument & Harg & H).
  apply bind_Some in H as (at_ & Hat & H). apply bind_Some in H as (req & Hreq & H).
  destruct (fn_registers f !! destination) as [[]|] eqn:Hd; try done.
  destruct value; try done. case_bool_decide; [|done]. subst.
  apply bind_Some in H as (expected & He & H). case_bool_decide; [|done]. simplify_eq.
  exists expected, argument. split; [done|]. split; [by eapply list_elem_of_lookup_2|].
  split; [|done]. by rewrite Hat, (prompt_output_prompt _ _ Hreq).
Qed.

Lemma typed_response_sound_witness :
  let f := {| fn_name := "f"; fn_parameters := []; fn_parameter_names := [];
              fn_parameter_default_digests := []; fn_captures := [];
              fn_registers := [prompt_type TInt; TFuture (TResult TInt model_error_type)];
              fn_return_type := TUnit; fn_effects := 0; fn_code := [] |} in
  ∃ error argument, typed_response_error_type ModelRequest = Some error ∧ argument ∈ [0%nat]
    ∧ fn_registers f !! argument = Some (prompt_type TInt)
    ∧ fn_registers f !! 1%nat = Some (TFuture (TResult TInt error)).
Proof. intros f. apply (typed_response_sound f 1 ModelRequest [0%nat] TInt). reflexivity. Defined.

(** Distinct tools have distinct nominal error wrappers: on the names the
    protocol accepts, the mangled wrapper name determines the tool name, so a
    wrapper type of one tool is never accepted for another. *)
Theorem tool_wrapper_names_distinct (module : Module_) (t e e' : ValueType) (name name' : string) :
  forallb tool_name_byte (bytes name) = true → forallb tool_name_byte (bytes name') = true →
  tool_declared_error_type module t name = Some e →
  tool_declared_error_type module t name' = Some e' →
  name = name' ∧ e = e'.
Proof.
  intros Hn Hn' H H'. unfold tool_declared_error_type in *.
  destruct t; try done. apply bind_Some in H as (w & Hw & H), H' as (w' & Hw' & H').
  simplify_eq.
  destruct (et_variants w) as [|declared [|unavailable [|schema [|]]]]; try done.
  destruct (ev_payload declared) as [|[|d [|]]|]; try done. cbn in H, H'.
  destruct (rsplit_once "::" (et_name w)) as [parts|]; [|done]. cbn in H, H'.
  destruct (String.eqb_spec parts.2 (tool_error_wrapper_type_name name)) as [E|]; [|done].
  destruct (String.eqb_spec parts.2 (tool_error_wrapper_type_name name')) as [E'|]; [|done].
  rewrite E in E'. apply wrapper_name_inj in E'; [|done..]. split; [done|].
  cbn in H, H'. repeat case_match; by simplify_eq.
Qed.

(** A module whose first enum is the wrapper of the tool [fs.stat]. *)
Definition demo_wrapper_module : Module_ := {|
  constants := []; effect_sets := []; functions := []; async_functions := []; entry := 0;
  enum_types := [{| et_name := "pkg::" ++ tool_error_wrapper_type_name "fs.stat";
    et_variants :=
      [{| ev_name := "Declared"; ev_payload := PTTuple [TInt] |};
       {| ev_name := "Unavailable"; ev_payload := PTRecord [("code", TString); ("message", TString)] |};
       {| ev_name := "Schema"; ev_payload := PTRecord [("code", TString); ("message", TString)] |}] |}]
|}.

Lemma tool_wrapper_names_distinct_witness :
  tool_declared_error_type demo_wrapper_module (TEnum 0) "fs.stat" = Some TInt
  ∧ ("fs.stat" = "fs.stat" ∧ TInt = TInt).
Proof.
  split; [vm_compute; reflexivity|].
  apply (tool_wrapper_names_distinct demo_wrapper_module (TEnum 0)); vm_compute; reflexivity.
Defined.
