(* ===== verification/VmBudget.v ===== *)
(** * Execution budgets of the VM ([crates/allen-vm/src/lib.rs])

    The VM errors, the logical sizes of values, the concurrent-effect counter and
    the budget every instruction and allocation is charged to.  An operation on
    the budget returns its result together with the budget it leaves behind, so
    that what a refused charge leaves unchanged is provable.  The monotonic clock
    and the cancellation source are the two functions of the class [Env], indexed
    by how often they have been asked; the observer is the log of what it was
    told. *)

From S2P Require Import Prelude Text.
Open Scope string_scope.
Open Scope Z_scope.

(** ** Errors *)

Inductive VmError :=
| ArithmeticOverflow | DivisionByZero | IndexOutOfBounds | ListLengthMismatch | MapKeyNotFound
| DuplicateMapKey
| ResourceLimit (resource : string)
| Timeout_ (resource : string)
| Cancelled | CapabilityMissing | AgentUnavailable | AgentResponseSchema | ModelUnavailable
| ModelValidationError | UserUnavailable | SubAgentUnavailable | SubAgentResponseSchema
| ReplayDiverged | ReplayRuntimeDiverged | ResponseValidationError | ToolUnavailable
| ToolSchemaError | ProtocolViolation
| ProgramFailed (reason : string)
| Stopped (reason : string)
| Invariant_ (message : string).

Definition code (e : VmError) : string :=
  match e with
  | ArithmeticOverflow => "arithmetic.overflow"
  | DivisionByZero => "arithmetic.division_by_zero"
  | IndexOutOfBounds => "index.out_of_bounds"
  | ListLengthMismatch => "list.length_mismatch"
  | MapKeyNotFound => "map.key_not_found"
  | DuplicateMapKey => "map.duplicate_key"
  | ResourceLimit _ => "resource.limit"
  | Timeout_ _ => "runtime.timeout"
  | Cancelled => "runtime.cancelled"
  | CapabilityMissing | ProtocolViolation => "protocol.violation"
  | AgentUnavailable => "agent.unavailable"
  | AgentResponseSchema => "agent.validation_failed"
  | ModelUnavailable => "model.unavailable"
  | ModelValidationError => "model.validation_failed"
  | UserUnavailable => "user.unavailable"
  | SubAgentUnavailable => "sub_agent.unavailable"
  | SubAgentResponseSchema => "sub_agent.validation_failed"
  | ReplayDiverged => "replay.diverged"
  | ReplayRuntimeDiverged => "replay.runtime_diverged"
  | ResponseValidationError => "user.validation_failed"
  | ToolUnavailable => "tool.unavailable"
  | ToolSchemaError => "tool.schema"
  | ProgramFailed _ => "program.failed"
  | Stopped _ => "stopped"
  | Invariant_ _ => "runtime.panic"
  end.

(** ** Constants *)

Definition FRAME_BASE_BYTES : Z := 32.
Definition REGISTER_BYTES : Z := 16.
Definition COLLECTION_BASE_BYTES : Z := 8.
Definition VALUE_SLOT_BYTES : Z := 16.
Definition MAP_ENTRY_BYTES : Z := 32.
Definition FUTURE_BASE_BYTES : Z := 16.
Definition TASK_HANDLE_BYTES : Z := 16.
Definition SCHEDULER_TASK_BYTES : Z := 64.

Definition RESOURCE_INSTRUCTIONS : string := "instructions".
Definition RESOURCE_ALLOCATION_BYTES : string := "allocation_bytes".
Definition RESOURCE_MAXIMUM_ALLOCATION_BYTES : string := "maximum_allocation_bytes".
Definition RESOURCE_CALL_DEPTH : string := "call_depth".
Definition RESOURCE_WALL_TIME : string := "wall_time".
Definition RESOURCE_TASKS : string := "tasks".
Definition RESOURCE_CONCURRENT_EFFECTS : string := "concurrent_effects".

(** ** Logical sizes *)

Definition allocation_error : VmError := ResourceLimit RESOURCE_ALLOCATION_BYTES.

(** [count] is the length of a collection. *)
Definition logical_size (base : Z) (count : nat) (item_size : Z) : result VmError Z :=
  if u64_max <? Z.of_nat count then Err allocation_error
  else
    ok_or (items ← u64_checked_mul (Z.of_nat count) item_size; u64_checked_add base items)
      allocation_error.

Definition frame_size (registers : nat) : result VmError Z :=
  logical_size FRAME_BASE_BYTES registers REGISTER_BYTES.
Definition collection_size (length : nat) (slot_bytes : Z) : result VmError Z :=
  logical_size COLLECTION_BASE_BYTES length slot_bytes.
Definition record_size (length : nat) : result VmError Z :=
  logical_size COLLECTION_BASE_BYTES length VALUE_SLOT_BYTES.
Definition newtype_size (identity_bytes : nat) : result VmError Z :=
  logical_size VALUE_SLOT_BYTES identity_bytes 1.
Definition enum_size (payload_length : nat) : result VmError Z :=
  logical_size COLLECTION_BASE_BYTES payload_length VALUE_SLOT_BYTES.
Definition string_size_bytes (bytes : nat) : result VmError Z := logical_size 8 bytes 1.
Definition string_size (value : string) : result VmError Z :=
  string_size_bytes (String.length value).
Definition checked_allocation_add (left right : Z) : result VmError Z :=
  ok_or (u64_checked_add left right) allocation_error.

(** ** The concurrent-effect counter *)

Record ConcurrentEffectCounter := { cec_limit : Z; cec_active : Z; cec_maximum : Z }.

Definition ConcurrentEffectCounter_new (limit : Z) : ConcurrentEffectCounter :=
  {| cec_limit := limit; cec_active := 0; cec_maximum := 0 |}.

Definition cec_start (c : ConcurrentEffectCounter)
    : result VmError unit * ConcurrentEffectCounter :=
  match u32_checked_add (cec_active c) 1 with
  | None => (Err (ResourceLimit RESOURCE_CONCURRENT_EFFECTS), c)
  | Some next =>
    if cec_limit c <? next then (Err (ResourceLimit RESOURCE_CONCURRENT_EFFECTS), c)
    else (Ok tt, {| cec_limit := cec_limit c; cec_active := next;
                    cec_maximum := Z.max (cec_maximum c) next |})
  end.

Definition cec_complete (c : ConcurrentEffectCounter)
    : result VmError unit * ConcurrentEffectCounter :=
  match u32_checked_sub (cec_active c) 1 with
  | None => (Err (Invariant_ "effect counter is already empty"), c)
  | Some active =>
    (Ok tt, {| cec_limit := cec_limit c; cec_active := active; cec_maximum := cec_maximum c |})
  end.

(** ** Limits, usage and the budget *)

(** Durations are in nanoseconds. *)
Definition DURATION_MAX : Z := u64_max * 1000000000 + 999999999.

Record ExecutionLimits := {
  lim_instructions : Z; lim_allocation_bytes : Z; lim_maximum_allocation_bytes : Z;
  lim_call_depth : Z; lim_wall_time : Z; lim_tasks : Z; lim_concurrent_effects : Z;
  lim_cleanup_instructions : Z }.

Definition ExecutionLimits_default : ExecutionLimits := {|
  lim_instructions := u64_max; lim_allocation_bytes := u64_max;
  lim_maximum_allocation_bytes := u64_max; lim_call_depth := u32_max;
  lim_wall_time := DURATION_MAX; lim_tasks := u32_max; lim_concurrent_effects := u32_max;
  lim_cleanup_instructions := u64_max |}.

Record ExecutionUsage := {
  us_instructions : Z; us_allocation_bytes : Z; us_maximum_call_depth : Z; us_tasks_started : Z;
  us_maximum_live_tasks : Z; us_maximum_concurrent_effects : Z }.

Record Checkpoint := { cp_function : nat; cp_instruction : nat }.
Record BudgetWarning := { bw_resource : string; bw_used : Z; bw_limit : Z }.

(** What the observer was told, oldest first. *)
Inductive Observation :=
| ObsCheckpoint (c : Checkpoint)
| ObsWarning (w : BudgetWarning).

Record Budget := {
  limits : ExecutionLimits;
  usage : ExecutionUsage;
  started : Z;
  clock_calls : nat;
  cancellation_calls : nat;
  observed : list Observation;
  effects : ConcurrentEffectCounter;
  warned_resources : Z;
  decode_input_bytes : Z
}.

(** [MonotonicClock::now] and [CancellationSource::is_cancelled]. *)
Class Env := { clock_now : nat → Z; is_cancelled : nat → bool }.

Definition with_usage (b : Budget) (u : ExecutionUsage) : Budget :=
  {| limits := limits b; usage := u; started := started b; clock_calls := clock_calls b;
     cancellation_calls := cancellation_calls b; observed := observed b; effects := effects b;
     warned_resources := warned_resources b; decode_input_bytes := decode_input_bytes b |}.
Definition with_effects (b : Budget) (e : ConcurrentEffectCounter) : Budget :=
  {| limits := limits b; usage := usage b; started := started b; clock_calls := clock_calls b;
     cancellation_calls := cancellation_calls b; observed := observed b; effects := e;
     warned_resources := warned_resources b; decode_input_bytes := decode_input_bytes b |}.
Definition with_observed (b : Budget) (o : list Observation) (warned : Z) : Budget :=
  {| limits := limits b; usage := usage b; started := started b; clock_calls := clock_calls b;
     cancellation_calls := cancellation_calls b; observed := o; effects := effects b;
     warned_resources := warned; decode_input_bytes := decode_input_bytes b |}.
Definition with_calls (b : Budget) (clock cancellation : nat) : Budget :=
  {| limits := limits b; usage := usage b; started := started b; clock_calls := clock;
     cancellation_calls := cancellation; observed := observed b; effects := effects b;
     warned_resources := warned_resources b; decode_input_bytes := decode_input_bytes b |}.

Definition set_instructions (u : ExecutionUsage) (n : Z) : ExecutionUsage :=
  {| us_instructions := n; us_allocation_bytes := us_allocation_bytes u;
     us_maximum_call_depth := us_maximum_call_depth u; us_tasks_started := us_tasks_started u;
     us_maximum_live_tasks := us_maximum_live_tasks u;
     us_maximum_concurrent_effects := us_maximum_concurrent_effects u |}.
Definition set_allocation_bytes (u : ExecutionUsage) (n : Z) : ExecutionUsage :=
  {| us_instructions := us_instructions u; us_allocation_bytes := n;
     us_maximum_call_depth := us_maximum_call_depth u; us_tasks_started := us_tasks_started u;
     us_maximum_live_tasks := us_maximum_live_tasks u;
     us_maximum_concurrent_effects := us_maximum_concurrent_effects u |}.
Definition set_maximum_call_depth (u : ExecutionUsage) (n : Z) : ExecutionUsage :=
  {| us_instructions := us_instructions u; us_allocation_bytes := us_allocation_bytes u;
     us_maximum_call_depth := n; us_tasks_started := us_tasks_started u;
     us_maximum_live_tasks := us_maximum_live_tasks u;
     us_maximum_concurrent_effects := us_maximum_concurrent_effects u |}.
Definition set_maximum_concurrent_effects (u : ExecutionUsage) (n : Z) : ExecutionUsage :=
  {| us_instructions := us_instructions u; us_allocation_bytes := us_allocation_bytes u;
     us_maximum_call_depth := us_maximum_call_depth u; us_tasks_started := us_tasks_started u;
     us_maximum_live_tasks := us_maximum_live_tasks u; us_maximum_concurrent_effects := n |}.

(** ** Warnings *)

Definition WARNING_INSTRUCTIONS : Z := Z.shiftl 1 0.
Definition WARNING_ALLOCATION_BYTES : Z := Z.shiftl 1 1.
Definition WARNING_MAXIMUM_ALLOCATION_BYTES : Z := Z.shiftl 1 2.
Definition WARNING_CALL_DEPTH : Z := Z.shiftl 1 3.
Definition WARNING_WALL_TIME : Z := Z.shiftl 1 4.
Definition WARNING_TASKS : Z := Z.shiftl 1 5.
Definition WARNING_CONCURRENT_EFFECTS : Z := Z.shiftl 1 6.

(** [limit.saturating_sub((limit / 10).max(1))] *)
Definition warning_threshold (limit : Z) : Z := Z.max 0 (limit - Z.max (limit / 10) 1).

Definition warn_once (b : Budget) (bit : Z) (resource : string) (used limit : Z) : Budget :=
  if (limit =? u64_max) || negb (Z.land (warned_resources b) bit =? 0)
     || (used <? warning_threshold limit)
  then b
  else with_observed b
         (observed b ++ [ObsWarning {| bw_resource := resource; bw_used := used;
                                       bw_limit := limit |}])
         (Z.lor (warned_resources b) bit).

(** ** Operations *)

Section Operations.
Context `{Env}.

Definition Budget_new (limits_ : ExecutionLimits) : Budget :=
{| limits := limits_;
 usage := {| us_instructions := 0; us_allocation_bytes := 0; us_maximum_call_depth := 0;
             us_tasks_started := 0; us_maximum_live_tasks := 0;
             us_maximum_concurrent_effects := 0 |};
 started := clock_now 0; clock_calls := 1; cancellation_calls := 0; observed := [];
 effects := ConcurrentEffectCounter_new (lim_concurrent_effects limits_);
 warned_resources := 0; decode_input_bytes := 0 |}.

Definition enter_frame (b : Budget) (depth : Z) : result VmError unit * Budget :=
if lim_call_depth (limits b) <? depth then (Err (ResourceLimit RESOURCE_CALL_DEPTH), b)
else
let b := with_usage b (set_maximum_call_depth (usage b)
                         (Z.max (us_maximum_call_depth (usage b)) depth)) in
(Ok tt,
 if lim_call_depth (limits b) =? u32_max then b
 else warn_once b WARNING_CALL_DEPTH RESOURCE_CALL_DEPTH depth (lim_call_depth (limits b))).

Definition millis (ns : Z) : Z := let ms := ns / 1000000 in if ms <=? u64_max then ms else u64_max.

Definition check_interruption (b : Budget) : result VmError unit * Budget :=
let cancelled := is_cancelled (cancellation_calls b) in
let b := with_calls b (clock_calls b) (S (cancellation_calls b)) in
if cancelled then (Err Cancelled, b)
else
let now := clock_now (clock_calls b) in
let b := with_calls b (S (clock_calls b)) (cancellation_calls b) in
if now <? started b then (Err (Invariant_ "monotonic clock moved backwards"), b)
else
  let elapsed := now - started b in
  if lim_wall_time (limits b) <=? elapsed then (Err (Timeout_ RESOURCE_WALL_TIME), b)
  else
    (Ok tt,
     if lim_wall_time (limits b) =? DURATION_MAX then b
     else warn_once b WARNING_WALL_TIME RESOURCE_WALL_TIME (millis elapsed)
            (millis (lim_wall_time (limits b)))).

Definition charge_instruction (b : Budget) (checkpoint : Checkpoint)
: result VmError unit * Budget :=
let b := with_observed b (observed b ++ [ObsCheckpoint checkpoint]) (warned_resources b) in
match check_interruption b with
| (Err e, b) => (Err e, b)
| (Ok _, b) =>
match u64_checked_add (us_instructions (usage b)) 1 with
| None => (Err (ResourceLimit RESOURCE_INSTRUCTIONS), b)
| Some next =>
  if lim_instructions (limits b) <? next
  then (Err (ResourceLimit RESOURCE_INSTRUCTIONS), b)
  else
    (Ok tt,
     warn_once (with_usage b (set_instructions (usage b) next)) WARNING_INSTRUCTIONS
       RESOURCE_INSTRUCTIONS next (lim_instructions (limits b)))
end
end.

Definition charge_allocation (b : Budget) (bytes : Z) : result VmError unit * Budget :=
if lim_maximum_allocation_bytes (limits b) <? bytes
then (Err (ResourceLimit RESOURCE_MAXIMUM_ALLOCATION_BYTES), b)
else
let b := warn_once b WARNING_MAXIMUM_ALLOCATION_BYTES RESOURCE_MAXIMUM_ALLOCATION_BYTES
           bytes (lim_maximum_allocation_bytes (limits b)) in
match u64_checked_add (us_allocation_bytes (usage b)) bytes with
| None => (Err allocation_error, b)
| Some next =>
  if lim_allocation_bytes (limits b) <? next then (Err allocation_error, b)
  else
    (Ok tt,
     warn_once (with_usage b (set_allocation_bytes (usage b) next)) WARNING_ALLOCATION_BYTES
       RESOURCE_ALLOCATION_BYTES next (lim_allocation_bytes (limits b)))
end.

Definition start_effect (b : Budget) : result VmError unit * Budget :=
match cec_start (effects b) with
| (Err e, c) => (Err e, with_effects b c)
| (Ok _, c) =>
let b := with_effects b c in
let b := with_usage b (set_maximum_concurrent_effects (usage b) (cec_maximum c)) in
(Ok tt,
 if lim_concurrent_effects (limits b) =? u32_max then b
 else warn_once b WARNING_CONCURRENT_EFFECTS RESOURCE_CONCURRENT_EFFECTS (cec_active c)
        (lim_concurrent_effects (limits b)))
end.

Definition record_task_started (b : Budget) (live : Z) : Budget :=
if lim_tasks (limits b) =? u32_max then b
else warn_once b WARNING_TASKS RESOURCE_TASKS live (lim_tasks (limits b)).

Definition complete_effect (b : Budget) : result VmError unit * Budget :=
let '(r, c) := cec_complete (effects b) in (r, with_effects b c).
End Operations.

(** ** Computations that charge the budget *)

Definition M (A : Type) : Type := Budget → result VmError A * Budget.

Definition ret {A} (x : A) : M A := λ b, (Ok x, b).
Definition throw {A} (e : VmError) : M A := λ b, (Err e, b).
Definition bind {A B} (m : M A) (k : A → M B) : M B :=
  λ b, match m b with (Ok x, b') => k x b' | (Err e, b') => (Err e, b') end.
Definition lift {A} (r : result VmError A) : M A := λ b, (r, b).
Definition charge (bytes : Z) : M unit := λ b, charge_allocation b bytes.

Notation "'let!' x := m 'in' k" := (bind m (λ x, k))
  (at level 10, x pattern, m at level 200, k at level 200).
Notation "'do!' m 'in' k" := (bind m (λ _, k))
  (at level 10, m at level 200, k at level 200).

(** [budget.charge_allocation(size?)?] *)
Definition charge_size (size : result VmError Z) : M unit := let! n := lift size in charge n.

(** ** Traces of budget operations *)

Inductive BudgetOp :=
| EnterFrame (depth : Z)
| CheckInterruption
| ChargeInstruction (checkpoint : Checkpoint)
| ChargeAllocation (bytes : Z)
| StartEffect
| CompleteEffect
| RecordTaskStarted (live : Z).

Section Traces.
Context `{Env}.

Definition apply_budget (b : Budget) (op : BudgetOp) : result VmError unit * Budget :=
match op with
| EnterFrame depth => enter_frame b depth
| CheckInterruption => check_interruption b
| ChargeInstruction checkpoint => charge_instruction b checkpoint
| ChargeAllocation bytes => charge_allocation b bytes
| StartEffect => start_effect b
| CompleteEffect => complete_effect b
| RecordTaskStarted live => (Ok tt, record_task_started b live)
end.

(** The budget after a sequence of operations and the operations it accepted. *)
Fixpoint run_budget (b : Budget) (ops : list BudgetOp) : list BudgetOp * Budget :=
match ops with
| [] => ([], b)
| op :: ops' =>
let '(r, b') := apply_budget b op in
let '(accepted, b'') := run_budget b' ops' in
((if is_ok r then [op] else []) ++ accepted, b'')%list
end.
End Traces.

(** The arguments the VM passes: unsigned, and never more live tasks than the
    limit (the spawn check precedes the record). *)
Definition valid_op (l : ExecutionLimits) (op : BudgetOp) : Prop :=
  match op with
  | EnterFrame depth => 0 <= depth
  | ChargeAllocation bytes => 0 <= bytes
  | RecordTaskStarted live => 0 <= live <= lim_tasks l
  | _ => True
  end.

Definition valid_limits (l : ExecutionLimits) : Prop :=
  0 <= lim_instructions l <= u64_max ∧ 0 <= lim_allocation_bytes l <= u64_max
  ∧ 0 <= lim_maximum_allocation_bytes l <= u64_max ∧ 0 <= lim_call_depth l <= u32_max
  ∧ 0 <= lim_wall_time l <= DURATION_MAX ∧ 0 <= lim_tasks l <= u32_max
  ∧ 0 <= lim_concurrent_effects l <= u32_max.

Definition allocated (ops : list BudgetOp) : Z :=
  foldr (λ op n, match op with ChargeAllocation bytes => bytes + n | _ => n end) 0 ops.
Definition executed (ops : list BudgetOp) : Z :=
  foldr (λ op n, match op with ChargeInstruction _ => 1 + n | _ => n end) 0 ops.
Definition in_flight (ops : list BudgetOp) : Z :=
  foldr (λ op n, match op with StartEffect => 1 + n | CompleteEffect => n - 1 | _ => n end) 0 ops.

Definition warnings (b : Budget) : list BudgetWarning :=
  omap (λ o, match o with ObsWarning w => Some w | ObsCheckpoint _ => None end) (observed b).

(** The flag of each resource. *)
Definition resource_bit (resource : string) : Z :=
  if String.eqb resource RESOURCE_INSTRUCTIONS then WARNING_INSTRUCTIONS
  else if String.eqb resource RESOURCE_ALLOCATION_BYTES then WARNING_ALLOCATION_BYTES
  else if String.eqb resource RESOURCE_MAXIMUM_ALLOCATION_BYTES
  then WARNING_MAXIMUM_ALLOCATION_BYTES
  else if String.eqb resource RESOURCE_CALL_DEPTH then WARNING_CALL_DEPTH
  else if String.eqb resource RESOURCE_WALL_TIME then WARNING_WALL_TIME
  else if String.eqb resource RESOURCE_TASKS then WARNING_TASKS
  else WARNING_CONCURRENT_EFFECTS.

(** ** Invariants *)

Record warn_inv (b : Budget) : Prop := {
  wn_once : NoDup (map bw_resource (warnings b));
  wn_flag w : w ∈ warnings b → Z.land (warned_resources b) (resource_bit (bw_resource w)) ≠ 0;
  wn_near w : w ∈ warnings b →
    bw_limit w ≠ u64_max ∧ warning_threshold (bw_limit w) <= bw_used w <= bw_limit w
}.

Record usage_inv (b : Budget) : Prop := {
  ui_instructions : 0 <= us_instructions (usage b) <= lim_instructions (limits b);
  ui_allocation : 0 <= us_allocation_bytes (usage b) <= lim_allocation_bytes (limits b);
  ui_depth : 0 <= us_maximum_call_depth (usage b) <= lim_call_depth (limits b);
  ui_counter_limit : cec_limit (effects b) = lim_concurrent_effects (limits b);
  ui_active : 0 <= cec_active (effects b) <= cec_maximum (effects b);
  ui_maximum : cec_maximum (effects b) <= lim_concurrent_effects (limits b);
  ui_reported : us_maximum_concurrent_effects (usage b) = cec_maximum (effects b)
}.

Lemma warn_once_usage b bit resource used limit :
  usage (warn_once b bit resource used limit) = usage b.
Proof. unfold warn_once. by case_match. Qed.

Lemma warn_once_limits b bit resource used limit :
  limits (warn_once b bit resource used limit) = limits b.
Proof. unfold warn_once. by case_match. Qed.

Lemma warn_once_effects b bit resource used limit :
  effects (warn_once b bit resource used limit) = effects b.
Proof. unfold warn_once. by case_match. Qed.

(** Warnings change nothing but the log and the flags. *)
Create Rewrite HintDb budget.
#[export] Hint Rewrite warn_once_usage warn_once_limits warn_once_effects : budget.
Ltac budget_simpl := repeat (progress (simpl in *; autorewrite with budget in *)).

Lemma warn_inv_ext b b' :
  warn_inv b → warnings b' = warnings b → warned_resources b' = warned_resources b → warn_inv b'.
Proof. intros [] Hw Hr. constructor; rewrite ?Hw, ?Hr; done. Qed.

Lemma warn_once_inv b resource used limit :
  warn_inv b → used <= limit →
  warn_inv (warn_once b (resource_bit resource) resource used limit).
Proof.
  intros Hb Hu. pose proof Hb as []. unfold warn_once. case_match eqn:Hc; [done|]. boolify.
  set (w := {| bw_resource := resource; bw_used := used; bw_limit := limit |}).
  assert (warnings (with_observed b (observed b ++ [ObsWarning w])
                      (Z.lor (warned_resources b) (resource_bit resource)))
          = warnings b ++ [w])%list as Hw by (unfold warnings; simpl; by rewrite omap_app).
  constructor; rewrite Hw.
  - rewrite map_app, NoDup_app. split_and!; [done| |apply NoDup_singleton].
    intros r Hr ->%list_elem_of_singleton. apply list_elem_of_fmap in Hr as (w' & Hr & Hw').
    simpl in Hr. destruct (wn_flag0 w' Hw'). by rewrite <- Hr.
  - intros w' Hw'. simpl. rewrite Z.land_lor_distr_l, Z.lor_eq_0_iff.
    apply elem_of_app in Hw' as [Hw'|Hw'].
    + intros [? _]. by destruct (wn_flag0 w' Hw').
    + apply list_elem_of_singleton in Hw' as ->. intros [_ Hz]. simpl in Hz. rewrite Z.land_diag in Hz. revert Hz. unfold resource_bit.
      repeat case_match; done.
  - intros w' [Hw'|Hw']%elem_of_app; [by apply wn_near0|].
    apply list_elem_of_singleton in Hw' as ->. simpl. lia.
Qed.

Lemma u64_add_Some a c r :
  u64_checked_add a c = Some r → r = a + c ∧ 0 <= r <= u64_max.
Proof.
  unfold u64_checked_add. rewrite checked_Some, in_unsigned_spec. intros [? ->]. done.
Qed.

Section Steps.
Context `{Env}.

Lemma check_interruption_frame b :
usage (check_interruption b).2 = usage b ∧ limits (check_interruption b).2 = limits b
∧ effects (check_interruption b).2 = effects b.
Proof. unfold check_interruption. repeat case_match; by budget_simpl. Qed.

Lemma millis_mono a c : a <= c → millis a <= millis c.
Proof.
intros Hac. unfold millis. assert (a / 1000000 <= c / 1000000) by (apply Z.div_le_mono; lia).
repeat case_match; boolify; lia.
Qed.

Lemma check_interruption_warn b : warn_inv b → warn_inv (check_interruption b).2.
Proof.
intros Hb. unfold check_interruption.
repeat (case_match; simpl; try (by eapply warn_inv_ext)).
apply (warn_once_inv _ RESOURCE_WALL_TIME); [by eapply warn_inv_ext|].
apply millis_mono. boolify. simpl in *. lia.
Qed.

Lemma apply_limits b op : limits (apply_budget b op).2 = limits b.
Proof.
destruct op; simpl.
- unfold enter_frame. repeat case_match; by budget_simpl.
- apply check_interruption_frame.
- unfold charge_instruction. set (b' := with_observed _ _ _).
destruct (check_interruption_frame b') as (_ & Hl & _).
destruct (check_interruption b') as [[?|?] b'']; repeat case_match; by budget_simpl.
- unfold charge_allocation. repeat case_match; by budget_simpl.
- unfold start_effect. repeat case_match; by budget_simpl.
- unfold complete_effect. by case_match.
- unfold record_task_started. case_match; by budget_simpl.
Qed.

Lemma apply_warn b op :
warn_inv b → usage_inv b → valid_op (limits b) op → warn_inv (apply_budget b op).2.
Proof.
intros Hb Hu Hv. destruct op as [depth| |cp|n| | |live]; simpl in *.
- unfold enter_frame. repeat (case_match; simpl; try (by eapply warn_inv_ext)).
apply (warn_once_inv _ RESOURCE_CALL_DEPTH); [by eapply warn_inv_ext|]. boolify. simpl. lia.
- by apply check_interruption_warn.
- unfold charge_instruction. set (b' := with_observed _ _ _).
assert (warn_inv b') as Hb'.
{ eapply warn_inv_ext; [exact Hb| |done]. subst b'. unfold warnings. simpl.
  rewrite omap_app. simpl. by rewrite app_nil_r. }
pose proof (check_interruption_warn b' Hb') as Hw. clear Hb'. clearbody b'.
destruct (check_interruption b') as [[?|?] b'']; simpl in *; [|done].
destruct (u64_checked_add _ _) as [next|]; [|done]. case_match; [done|]. simpl.
apply (warn_once_inv _ RESOURCE_INSTRUCTIONS); [by eapply warn_inv_ext|]. boolify. lia.
- unfold charge_allocation. case_match; [done|]. boolify.
set (b' := warn_once b _ _ _ _).
assert (warn_inv b') as Hb' by (by apply (warn_once_inv _ RESOURCE_MAXIMUM_ALLOCATION_BYTES)).
destruct (u64_checked_add _ _) as [next|]; [|done]. case_match; [done|]. simpl.
apply (warn_once_inv _ RESOURCE_ALLOCATION_BYTES); [by eapply warn_inv_ext|]. boolify. lia.
- unfold start_effect. destruct (cec_start (effects b)) as [[?|?] c] eqn:Hc;
  [|by eapply warn_inv_ext].
simpl. case_match; [by eapply warn_inv_ext|].
apply (warn_once_inv _ RESOURCE_CONCURRENT_EFFECTS); [by eapply warn_inv_ext|].
unfold cec_start in Hc. destruct Hu. repeat case_match; simplify_eq; boolify; simpl. lia.
- unfold complete_effect. destruct (cec_complete (effects b)). by eapply warn_inv_ext.
- unfold record_task_started. case_match; [done|].
apply (warn_once_inv _ RESOURCE_TASKS); [done|]. lia.
Qed.

(** The usage counters after one operation. *)
Lemma apply_usage b op :
usage_inv b → valid_op (limits b) op →
let '(r, b') := apply_budget b op in
usage_inv b'
∧ us_instructions (usage b')
= us_instructions (usage b) + executed (if is_ok r then [op] else [])
∧ us_allocation_bytes (usage b')
= us_allocation_bytes (usage b) + allocated (if is_ok r then [op] else [])
∧ cec_active (effects b')
= cec_active (effects b) + in_flight (if is_ok r then [op] else []).
Proof.
intros Hu Hv. pose proof Hu as []. destruct op as [depth| |cp|n| | |live]; simpl in *.
- unfold enter_frame. destruct (_ <? _) eqn:Hd; simpl; [split; [done|lia]|]. boolify.
destruct (_ =? _); budget_simpl; (split; [constructor; budget_simpl; lia|lia]).
- destruct (check_interruption_frame b) as (E1 & E2 & E3).
destruct (check_interruption b) as [r b']. simpl in *.
split; [constructor; rewrite ?E1, ?E2, ?E3; done|]. rewrite ?E1, ?E3. destruct r; simpl; lia.
- unfold charge_instruction. set (b1 := with_observed _ _ _).
destruct (check_interruption_frame b1) as (E1 & E2 & E3).
destruct (check_interruption b1) as [[?|?] b']; simpl in *.
+ rewrite E1. destruct (u64_checked_add _ _) as [next|] eqn:Hn.
  * apply u64_add_Some in Hn. rewrite E2. destruct (_ <? _) eqn:Hd; boolify; budget_simpl.
    -- rewrite ?E1, ?E3. split; [constructor; rewrite ?E1, ?E2, ?E3; done|lia].
    -- split; [constructor; budget_simpl; rewrite ?E1, ?E2, ?E3; simpl; lia|].
       rewrite ?E1, ?E3. lia.
  * simpl. rewrite ?E1, ?E3. split; [constructor; rewrite ?E1, ?E2, ?E3; done|lia].
+ rewrite ?E1, ?E3. split; [constructor; rewrite ?E1, ?E2, ?E3; done|lia].
- unfold charge_allocation. destruct (_ <? _) eqn:Hd; boolify; simpl; [split; [done|lia]|].
rewrite warn_once_usage, warn_once_limits.
destruct (u64_checked_add _ _) as [next|] eqn:Hn.
+ apply u64_add_Some in Hn. destruct (_ <? _) eqn:Hd'; boolify; budget_simpl;
    (split; [constructor; budget_simpl; lia|lia]).
+ budget_simpl. split; [constructor; budget_simpl; lia|lia].
- unfold start_effect. destruct (cec_start (effects b)) as [[?|?] c] eqn:Hc.
+ unfold cec_start, u32_checked_add, checked in Hc. destruct (in_unsigned _ _); [|done].
  destruct (_ <? _) eqn:Hd; [done|]. simplify_eq. boolify. simpl.
  destruct (_ =? _); budget_simpl; (split; [constructor; budget_simpl; lia|lia]).
+ assert (c = effects b) as ->.
  { unfold cec_start in Hc. repeat case_match; by simplify_eq. }
  simpl. split; [by constructor|lia].
- unfold complete_effect. destruct (cec_complete (effects b)) as [[?|?] c] eqn:Hc.
+ unfold cec_complete, u32_checked_sub in Hc.
  destruct (checked _ _) as [active|] eqn:Ha; [|done]. simplify_eq.
  apply checked_Some in Ha as [Ha ->]. apply in_unsigned_spec in Ha. simpl.
  split; [constructor; simpl; lia|lia].
+ assert (c = effects b) as ->.
  { unfold cec_complete in Hc. repeat case_match; by simplify_eq. }
  simpl. split; [by constructor|lia].
- unfold record_task_started. destruct (_ =? _); budget_simpl;
  (split; [constructor; budget_simpl; done|lia]).
Qed.
End Steps.

Section Properties.
Context `{Env}.

Lemma Budget_new_inv l : valid_limits l → usage_inv (Budget_new l) ∧ warn_inv (Budget_new l).
Proof.
intros (? & ? & ? & ? & ? & ? & ?). split; constructor; simpl; try lia.
- apply NoDup_nil_2.
- intros w Hw. by apply elem_of_nil in Hw.
- intros w Hw. by apply elem_of_nil in Hw.
Qed.

Lemma accepted_sums (op : BudgetOp) (acc : bool) ops :
executed ((if acc then [op] else []) ++ ops)
= executed (if acc then [op] else []) + executed ops
∧ allocated ((if acc then [op] else []) ++ ops)
= allocated (if acc then [op] else []) + allocated ops
∧ in_flight ((if acc then [op] else []) ++ ops)
= in_flight (if acc then [op] else []) + in_flight ops.
Proof. destruct acc, op; simpl; lia. Qed.

Lemma run_budget_inv b ops :
usage_inv b → warn_inv b → Forall (valid_op (limits b)) ops →
let '(accepted, b') := run_budget b ops in
usage_inv b' ∧ warn_inv b' ∧ limits b' = limits b
∧ us_instructions (usage b') = us_instructions (usage b) + executed accepted
∧ us_allocation_bytes (usage b') = us_allocation_bytes (usage b) + allocated accepted
∧ cec_active (effects b') = cec_active (effects b) + in_flight accepted.
Proof.
revert b. induction ops as [|op ops IH]; intros b Hu Hw Hv; simpl; [split_and!; try done; lia|].
apply Forall_cons in Hv as [Hop Hv].
pose proof (apply_usage b op Hu Hop) as Ha. pose proof (apply_warn b op Hw Hu Hop) as Hw'.
pose proof (apply_limits b op) as Hl.
destruct (apply_budget b op) as [r b']. simpl in *. destruct Ha as (Hu' & E1 & E2 & E3).
rewrite <- Hl in Hv. specialize (IH b' Hu' Hw' Hv).
destruct (run_budget b' ops) as [accepted b'']. destruct IH as (? & ? & ? & ? & ? & ?).
destruct (accepted_sums op (is_ok r) accepted) as (-> & -> & ->).
split_and!; try done; [congruence|lia|lia|lia].
Qed.


(** Each finite resource warns at most once, only when it is near its limit
(within a tenth, and at least within one unit) and never beyond it, and an
unlimited resource never warns. *)
Theorem budget_warns_once (l : ExecutionLimits) (ops : list BudgetOp) :
valid_limits l → Forall (valid_op l) ops →
let b := (run_budget (Budget_new l) ops).2 in
NoDup (map bw_resource (warnings b))
∧ ∀ w, w ∈ warnings b →
  bw_limit w ≠ u64_max ∧ warning_threshold (bw_limit w) <= bw_used w <= bw_limit w.
Proof.
intros Hl Hops. destruct (Budget_new_inv l Hl) as [Hu Hw].
pose proof (run_budget_inv (Budget_new l) ops Hu Hw Hops) as Hr.
destruct (run_budget (Budget_new l) ops) as [accepted b]. simpl.
destruct Hr as (_ & [] & _). done.
Qed.

(** An allocation is charged before it happens and refused as a whole: a
charge succeeds exactly when it is within both the single-allocation and
the cumulative limit, a success adds exactly its size, and a refusal names
the exhausted resource and leaves the usage unchanged. *)
Theorem charge_allocation_exact (b : Budget) (bytes : Z) :
usage_inv b → valid_limits (limits b) → 0 <= bytes →
match charge_allocation b bytes with
| (Ok _, b') =>
bytes <= lim_maximum_allocation_bytes (limits b)
∧ us_allocation_bytes (usage b) + bytes <= lim_allocation_bytes (limits b)
∧ usage b' = set_allocation_bytes (usage b) (us_allocation_bytes (usage b) + bytes)
| (Err e, b') =>
usage b' = usage b
∧ ((e = ResourceLimit RESOURCE_MAXIMUM_ALLOCATION_BYTES
    ∧ lim_maximum_allocation_bytes (limits b) < bytes)
   ∨ (e = ResourceLimit RESOURCE_ALLOCATION_BYTES
      ∧ lim_allocation_bytes (limits b) < us_allocation_bytes (usage b) + bytes))
end.
Proof.
intros [] (_ & Hl & _) Hb. unfold charge_allocation. destruct (_ <? _) eqn:Hm; boolify.
{ split; [done|]. by left. }
rewrite warn_once_usage, warn_once_limits.
destruct (u64_checked_add _ _) as [next|] eqn:Hn.
- apply u64_add_Some in Hn as [-> Hr]. destruct (_ <? _) eqn:Hd; boolify; budget_simpl.
+ split; [done|]. by right.
+ done.
- budget_simpl. split; [done|]. right. split; [done|].
apply checked_None in Hn. apply not_true_iff_false in Hn. rewrite in_unsigned_spec in Hn. lia.
Qed.
End Properties.

(** ** Witnesses *)

(** A clock that stands still and nobody cancels. *)
Definition calm : Env := {| clock_now _ := 0; is_cancelled _ := false |}.

Definition small_limits : ExecutionLimits := {|
  lim_instructions := 2; lim_allocation_bytes := 100; lim_maximum_allocation_bytes := 60;
  lim_call_depth := 8; lim_wall_time := 1000000000; lim_tasks := 4; lim_concurrent_effects := 1;
  lim_cleanup_instructions := 10 |}.

Definition demo_checkpoint : Checkpoint := {| cp_function := 0; cp_instruction := 0 |}.

Definition demo_ops : list BudgetOp :=
  [ChargeInstruction demo_checkpoint; ChargeAllocation 60; ChargeAllocation 41; StartEffect;
   StartEffect; ChargeInstruction demo_checkpoint; ChargeInstruction demo_checkpoint].

Lemma small_limits_valid : valid_limits small_limits.
Proof. repeat split; vm_compute; discriminate. Qed.

Lemma demo_ops_valid : Forall (valid_op small_limits) demo_ops.
Proof. repeat constructor; vm_compute; discriminate. Qed.


Lemma budget_warns_once_witness :
  let b := (@run_budget calm (@Budget_new calm small_limits) demo_ops).2 in
  (length (warnings b) = 3)%nat ∧ NoDup (map bw_resource (warnings b)).
Proof.
  split; [vm_compute; reflexivity|].
  apply (@budget_warns_once calm small_limits demo_ops small_limits_valid demo_ops_valid).
Defined.

Lemma charge_allocation_exact_witness :
  let b := @Budget_new calm small_limits in
  usage (charge_allocation b 61).2 = usage b ∧ is_ok (charge_allocation b 61).1 = false.
Proof.
  intros b. split; [|vm_compute; reflexivity].
  pose proof (charge_allocation_exact b 61 (proj1 (@Budget_new_inv calm _ small_limits_valid))
                small_limits_valid) as Hc.
  vm_compute (charge_allocation b 61) in Hc. apply Hc. lia.
Defined.
