(* ===== verification/VmValue.v ===== *)
(** * Values of the VM ([crates/allen-vm/src/lib.rs])

    Runtime values, language equality and order, the canonical order of map keys
    and the run-time type test.  The source compares shared values with a cache
    keyed by the address of the shared allocation; the model has the cache and
    takes the address of an aggregate as a function, with the one fact the cache
    relies on: live immutable aggregates of one kind at one address are one
    value. *)

From S2P Require Import Prelude Text Bytecode VmBudget.
Open Scope string_scope.
Open Scope Z_scope.

(** ** Floating-point comparison *)

(** A non-NaN pattern orders as its sign and magnitude; both zeros have key 0. *)
Definition float_key (bits : Z) : Z :=
  let magnitude := Z.land bits 0x7fffffffffffffff in
  if Z.testbit bits 63 then - magnitude else magnitude.

(** [f64::partial_cmp] *)
Definition f64_partial_cmp (a b : Z) : option comparison :=
  if is_nan_bits a || is_nan_bits b then None else Some (float_key a ?= float_key b).

(** [f64::eq] *)
Definition f64_eqb (a b : Z) : bool :=
  match f64_partial_cmp a b with Some Eq => true | _ => false end.

(** [FloatValue::from_canonical_bits] *)
Definition FloatValue_from_canonical_bits (bits : Z) : Z := canonical_float_bits bits.

(** ** Values *)

Inductive EnumIdentity := User (id : EnumTypeId) | OptionId | ResultId.

#[export] Instance EnumIdentity_eq_dec : EqDecision EnumIdentity.
Proof. solve_decision. Defined.

Record RangeValue := { rv_start : Z; rv_end : Z; rv_inclusive : bool }.

#[export] Instance RangeValue_eq_dec : EqDecision RangeValue.
Proof. solve_decision. Defined.

(** [WorkspaceValue] and [SubAgentValue]: opaque handles. *)
Record HandleValue := { hv_generation : Z; hv_index : Z; hv_nonce : Z }.

Inductive EnumPayload (V : Type) :=
| PUnit
| PTuple (values : list V)
| PRecord (fields : list (string * V)).
Arguments PUnit {V}.
Arguments PTuple {V} values.
Arguments PRecord {V} fields.

Inductive FutureValue (V : Type) :=
| FutureFunction (function : FunctionId) (arguments : list V)
| FutureEffect (operation : EffectOperation) (arguments : list V)
| FutureTool (tool : nat) (input : V) (result_type : ValueType)
| FutureAgent (operation : EffectOperation) (arguments : list V) (result_type : ValueType).
Arguments FutureFunction {V} function arguments.
Arguments FutureEffect {V} operation arguments.
Arguments FutureTool {V} tool input result_type.
Arguments FutureAgent {V} operation arguments result_type.

(** A sequence is a shared mutable cell: the value is its location. *)
Inductive Value :=
| VInt (value : Z)
| VBool (value : bool)
| VFloat (bits : Z)
| VString (value : string)
| VBytes (value : list Z)
| VRange (value : RangeValue)
| VExternalFsAccess (value : ExternalFsAccess)
| VUnit
| VList (values : list Value)
| VMap (entries : list (Value * Value))
| VTuple (values : list Value)
| VRecord (fields : list (string * Value))
| VEnum (identity : EnumIdentity) (type_name : string) (variant : nat) (variant_name : string)
    (payload : EnumPayload Value)
| VNewtype (identity : string) (value : Value)
| VClosure (function : FunctionId) (captures : list Value)
| VFuture (future : FutureValue Value)
| VTask (id : Z)
| VWorkspace (handle : HandleValue)
| VSubAgent (handle : HandleValue)
| VSequence (location : nat)
| VUnknown (value : Value).

(** ** Aggregate identity *)

Definition aggregate_kind (v : Value) : option Z :=
  match v with
  | VList _ => Some 0 | VMap _ => Some 1 | VTuple _ => Some 2 | VRecord _ => Some 3
  | VEnum _ _ _ _ _ => Some 4 | VUnknown _ => Some 5 | VNewtype _ _ => Some 6
  | _ => None
  end.

Section Identity.
(** [Rc::as_ptr(..) as usize] of an aggregate: all that is used of an address is
that it can be compared. *)
Context {A : Type} `{EqDecision A} (address : Value → A).

Definition aggregate_identity (v : Value) : option (Z * A) :=
kind ← aggregate_kind v; Some (kind, address v).

(** ** Language equality with its cache *)

Definition EqualCache : Type := list ((Z * A * A) * bool).

Definition cache_get {K} `{EqDecision K} (k : K) (c : list (K * bool)) : option bool :=
p ← list_find (λ p, p.1 = k) c; Some p.2.2.

(** [.zip(..).all(..)] with the cache threaded through, on lists of equal length. *)
Section Zip.
Context {X Y S : Type} (f : X → Y → S → bool * S).
Fixpoint zip_all (l : list X) (r : list Y) (s : S) : bool * S :=
match l, r with
| x :: l', y :: r' =>
let '(e, s) := f x y s in if e : bool then zip_all l' r' s else (false, s)
| _, _ => (true, s)
end.
End Zip.

Definition same_length {X Y} (l : list X) (r : list Y) : bool := Nat.eqb (length l) (length r).

(** [a && b] where both thread the cache. *)
Definition and_then {S} (r : bool * S) (k : S → bool * S) : bool * S :=
let '(e, s) := r in if e : bool then k s else (false, s).

Definition equal_key (left right : Value) : option (Z * A * A) :=
'(kind, l) ← aggregate_identity left;
'(right_kind, r) ← aggregate_identity right;
if right_kind =? kind then Some (kind, l, r) else None.

Fixpoint language_equal_with_cache (left right : Value) (cache : EqualCache)
: bool * EqualCache :=
let key := equal_key left right in
match (k ← key; cache_get k cache) with
| Some equal => (equal, cache)
| None =>
let values l r cache :=
  if same_length l r then zip_all language_equal_with_cache l r cache else (false, cache) in
let fields (l r : list (string * Value)) cache :=
  if same_length l r
  then zip_all (λ x y c,
         if String.eqb x.1 y.1 then language_equal_with_cache x.2 y.2 c else (false, c))
         l r cache
  else (false, cache) in
let '(equal, cache) :=
  match left, right with
  | VInt l, VInt r => (l =? r, cache)
  | VBool l, VBool r => (Bool.eqb l r, cache)
  | VFloat l, VFloat r => (f64_eqb l r, cache)
  | VString l, VString r => (String.eqb l r, cache)
  | VBytes l, VBytes r => (bytes_eqb l r, cache)
  | VRange l, VRange r => (bool_decide (l = r), cache)
  | VExternalFsAccess l, VExternalFsAccess r => (bool_decide (l = r), cache)
  | VUnit, VUnit => (true, cache)
  | VList l, VList r | VTuple l, VTuple r => values l r cache
  | VMap l, VMap r =>
    if same_length l r
    then zip_all (λ x y c,
           and_then (language_equal_with_cache x.1 y.1 c)
             (λ c, language_equal_with_cache x.2 y.2 c)) l r cache
    else (false, cache)
  | VRecord l, VRecord r => fields l r cache
  | VEnum i _ v _ p, VEnum j _ w _ q =>
    if negb (bool_decide (i = j)) then (false, cache)
    else if negb (Nat.eqb v w) then (false, cache)
    else
      match p, q with
      | PUnit, PUnit => (true, cache)
      | PTuple l, PTuple r => values l r cache
      | PRecord l, PRecord r => fields l r cache
      | _, _ => (false, cache)
      end
  | VNewtype i l, VNewtype j r =>
    if String.eqb i j then language_equal_with_cache l r cache else (false, cache)
  | VUnknown l, VUnknown r => language_equal_with_cache l r cache
  | _, _ => (false, cache)
  end in
(equal, match key with Some k => (k, equal) :: cache | None => cache end)
end.

Definition language_equal_cached (left right : Value) : bool :=
(language_equal_with_cache left right []).1.
End Identity.

(** ** Language equality without the cache: the reference *)

Fixpoint language_equal (left right : Value) : bool :=
  let fields := all2 (λ x y : string * Value, String.eqb x.1 y.1 && language_equal x.2 y.2) in
  match left, right with
  | VInt l, VInt r => l =? r
  | VBool l, VBool r => Bool.eqb l r
  | VFloat l, VFloat r => f64_eqb l r
  | VString l, VString r => String.eqb l r
  | VBytes l, VBytes r => bytes_eqb l r
  | VRange l, VRange r => bool_decide (l = r)
  | VExternalFsAccess l, VExternalFsAccess r => bool_decide (l = r)
  | VUnit, VUnit => true
  | VList l, VList r | VTuple l, VTuple r => all2 language_equal l r
  | VMap l, VMap r =>
    all2 (λ x y : Value * Value, language_equal x.1 y.1 && language_equal x.2 y.2) l r
  | VRecord l, VRecord r => fields l r
  | VEnum i _ v _ p, VEnum j _ w _ q =>
    bool_decide (i = j) && Nat.eqb v w
    && match p, q with
       | PUnit, PUnit => true
       | PTuple l, PTuple r => all2 language_equal l r
       | PRecord l, PRecord r => fields l r
       | _, _ => false
       end
  | VNewtype i l, VNewtype j r => String.eqb i j && language_equal l r
  | VUnknown l, VUnknown r => language_equal l r
  | _, _ => false
  end.

(** ** Order *)

Fixpoint language_order (left right : Value) : result VmError (option comparison) :=
  match left, right with
  | VInt l, VInt r => Ok (Some (l ?= r))
  | VFloat l, VFloat r => Ok (f64_partial_cmp l r)
  | VString l, VString r => Ok (Some (str_compare l r))
  | VBytes l, VBytes r => Ok (Some (bytes_compare l r))
  | VNewtype i l, VNewtype j r =>
    if String.eqb i j then language_order l r
    else Err (Invariant_ "ordered comparison contains unsupported values")
  | _, _ => Err (Invariant_ "ordered comparison contains unsupported values")
  end.

Definition bool_compare (a b : bool) : comparison :=
  match a, b with true, false => Gt | false, true => Lt | _, _ => Eq end.

Definition then_with (c d : comparison) : comparison := match c with Eq => d | _ => c end.

Fixpoint compare_map_keys (left right : Value) : comparison :=
  match left, right with
  | VBool l, VBool r => bool_compare l r
  | VInt l, VInt r => l ?= r
  | VString l, VString r => str_compare l r
  | VBytes l, VBytes r => bytes_compare l r
  | VNewtype i l, VNewtype j r => then_with (str_compare i j) (compare_map_keys l r)
  | _, _ => Eq
  end.

Definition is_lt (c : comparison) : bool := match c with Lt => true | _ => false end.
Definition is_gt (c : comparison) : bool := match c with Gt => true | _ => false end.

Definition compare (operation : CompareOp) (left right : Value) : result VmError bool :=
  match operation with
  | Equal => Ok (language_equal left right)
  | NotEqual => Ok (negb (language_equal left right))
  | _ =>
    let? ordering := language_order left right in
    Ok (match ordering with
        | None => false
        | Some o =>
          match operation with
          | Less => is_lt o
          | LessEqual => negb (is_gt o)
          | Greater => is_gt o
          | GreaterEqual => negb (is_lt o)
          | Equal | NotEqual => false (* unreachable *)
          end
        end)
  end.

(** ** The run-time type test *)

Section Matches.
Context {A : Type} `{EqDecision A} (address : Value → A) (module : Module_).

Definition MatchCache : Type := list ((Z * A * ValueType) * bool).

(** A test that threads the cache; an error ends it. *)
Definition Test : Type := MatchCache → result VmError bool * MatchCache.

Definition answer (b : bool) : Test := λ c, (Ok b, c).

(** [Ok(matches && test?)] with short-circuit. *)
Definition and_test (t u : Test) : Test := λ c,
match t c with
| (Ok true, c) => u c
| r => r
end.

Section Folds.
Context {X : Type} (f : X → Test).
(** [iter().try_fold(true, |matches, x| Ok(matches && f(x)?))]: after the first
[false] the elements that remain are not tested. *)
Fixpoint try_all (l : list X) : Test :=
match l with
| [] => answer true
| x :: l' => and_test (f x) (try_all l')
end.
End Folds.

Section Folds2.
Context {X Y : Type} (f : X → Y → Test).
Fixpoint try_all2 (l : list X) (r : list Y) : Test :=
match l, r with
| x :: l', y :: r' => and_test (f x y) (try_all2 l' r')
| _, _ => answer true
end.
End Folds2.

Definition variant_payload (id : EnumTypeId) (variant : nat) : result VmError EnumPayloadType :=
let? enum_type := ok_or (enum_types module !! id) (Invariant_ "enum type is missing") in
let? v := ok_or (et_variants enum_type !! variant) (Invariant_ "enum variant is missing") in
Ok (ev_payload v).

Definition unsorted_entries (entries : list (Value * Value)) : bool :=
windows2_any (λ p q, negb (is_lt (compare_map_keys p.1 q.1))) entries.

Fixpoint value_matches_type (value : Value) (t : ValueType) (depth : nat) : Test := λ cache,
if Nat.ltb MAX_VALUE_NESTING depth then (Ok false, cache)
else
let key := '(kind, id) ← aggregate_identity address value; Some (kind, id, t) in
match (k ← key; cache_get k cache) with
| Some matches_ => (Ok matches_, cache)
| None =>
  let tuple (values : list Value) (types : list ValueType) :=
    if same_length values types
    then try_all2 (λ v t, value_matches_type v t (S depth)) values types
    else answer false in
  let record (values : list (string * Value)) (fields : list (string * ValueType)) :=
    if same_length values fields
    then try_all2 (λ v f,
           if String.eqb v.1 f.1 then value_matches_type v.2 f.2 (S depth)
           else answer false) values fields
    else answer false in
  (* a length mismatch of a top-level tuple, or a wrong identity, returns
     before the cache is written *)
  let early := match value, t with
    | VTuple values, TTuple types => negb (same_length values types)
    | VEnum ident _ _ _ _, TEnum id => negb (bool_decide (ident = User id))
    | VEnum ident _ _ _ _, TOption _ => negb (bool_decide (ident = OptionId))
    | VEnum ident _ _ _ _, TResult _ _ => negb (bool_decide (ident = ResultId))
    | _, _ => false
    end in
  if early then (Ok false, cache)
  else
    let '(matches_, cache) :=
      match value, t with
      | VInt _, TInt | VBool _, TBool | VFloat _, TFloat | VString _, TString
      | VBytes _, TBytes | VRange _, TRange | VSequence _, TSequence _
      | VExternalFsAccess _, TExternalFsAccess | VUnit, TUnit | VUnknown _, TUnknown
      | VClosure _ _, TFunction _ _ _ | VFuture _, TFuture _ | VTask _, TTask _
      | VWorkspace _, TWorkspace | VSubAgent _, TSubAgent => (Ok true, cache)
      | VList values, TList element =>
        try_all (λ v, value_matches_type v element (S depth)) values cache
      | VMap entries, TMap key_type value_type =>
        if unsorted_entries entries then (Ok false, cache)
        else
          try_all (λ e, and_test (value_matches_type e.1 key_type (S depth))
                          (value_matches_type e.2 value_type (S depth))) entries cache
      | VTuple values, TTuple types => tuple values types cache
      | VRecord values, TRecord fields => record values fields cache
      | VNewtype ident v, TNewtype name underlying =>
        if String.eqb ident name then value_matches_type v underlying (S depth) cache
        else (Ok false, cache)
      | VEnum _ _ variant _ payload, TEnum id =>
        match variant_payload id variant with
        | Err e => (Err e, cache)
        | Ok payload_type =>
          match payload, payload_type with
          | PUnit, PTUnit => (Ok true, cache)
          | PTuple values, PTTuple types => tuple values types cache
          | PRecord values, PTRecord fields => record values fields cache
          | _, _ => (Ok false, cache)
          end
        end
      | VEnum _ _ variant _ payload, TOption element =>
        match variant, payload with
        | 0%nat, PUnit => (Ok true, cache)
        | 1%nat, PTuple [v] => value_matches_type v element (S depth) cache
        | _, _ => (Ok false, cache)
        end
      | VEnum _ _ variant _ payload, TResult ok error =>
        match variant, payload with
        | 0%nat, PTuple [v] => value_matches_type v ok (S depth) cache
        | 1%nat, PTuple [v] => value_matches_type v error (S depth) cache
        | _, _ => (Ok false, cache)
        end
      | _, _ => (Ok false, cache)
      end in
    match matches_ with
    | Err e => (Err e, cache)
    | Ok m => (Ok m, match key with Some k => (k, m) :: cache | None => cache end)
    end
end.

Definition matches_type (value : Value) (t : ValueType) : result VmError bool :=
(value_matches_type value t 0 []).1.
End Matches.

(** ** Induction on values *)

Definition payload_forall (P : Value → Prop) (p : EnumPayload Value) : Prop :=
  match p with
  | PUnit => True
  | PTuple values => Forall P values
  | PRecord fields => Forall (λ f, P f.2) fields
  end.

(** The values without components. *)
Definition leaf_value (v : Value) : bool :=
  match v with
  | VList _ | VMap _ | VTuple _ | VRecord _ | VEnum _ _ _ _ _ | VNewtype _ _ | VUnknown _
  | VClosure _ _ | VFuture _ => false
  | _ => true
  end.

Definition future_forall (P : Value → Prop) (f : FutureValue Value) : Prop :=
  match f with
  | FutureFunction _ arguments | FutureEffect _ arguments | FutureAgent _ arguments _ =>
    Forall P arguments
  | FutureTool _ input _ => P input
  end.

Fixpoint Value_ind' (P : Value → Prop)
  (Hleaf : ∀ v, leaf_value v = true → P v)
  (Hlist : ∀ l, Forall P l → P (VList l))
  (Hmap : ∀ m, Forall (λ e, P e.1 ∧ P e.2) m → P (VMap m))
  (Htuple : ∀ l, Forall P l → P (VTuple l))
  (Hrecord : ∀ fs, Forall (λ f, P f.2) fs → P (VRecord fs))
  (Henum : ∀ i tn v vn p, payload_forall P p → P (VEnum i tn v vn p))
  (Hnewtype : ∀ i v, P v → P (VNewtype i v))
  (Hunknown : ∀ v, P v → P (VUnknown v))
  (Hclosure : ∀ f l, Forall P l → P (VClosure f l))
  (Hfuture : ∀ f, future_forall P f → P (VFuture f)) (v : Value) : P v :=
  let rec := Value_ind' P Hleaf Hlist Hmap Htuple Hrecord Henum Hnewtype Hunknown Hclosure
               Hfuture in
  let all := fix all (l : list Value) : Forall P l :=
    match l with [] => List.Forall_nil _ | x :: l' => List.Forall_cons _ x l' (rec x) (all l') end in
  let fields := fix fields (l : list (string * Value)) : Forall (λ f, P f.2) l :=
    match l with
    | [] => List.Forall_nil _
    | (n, x) :: l' => List.Forall_cons _ (n, x) l' (rec x) (fields l')
    end in
  match v with
  | VList l => Hlist l (all l)
  | VMap m =>
    Hmap m ((fix entries (l : list (Value * Value)) : Forall (λ e, P e.1 ∧ P e.2) l :=
      match l with
      | [] => List.Forall_nil _
      | (k, x) :: l' => List.Forall_cons _ (k, x) l' (conj (rec k) (rec x)) (entries l')
      end) m)
  | VTuple l => Htuple l (all l)
  | VRecord fs => Hrecord fs (fields fs)
  | VEnum i tn n vn p =>
    Henum i tn n vn p
      (match p return payload_forall P p with
       | PUnit => I
       | PTuple l => all l
       | PRecord fs => fields fs
       end)
  | VNewtype i x => Hnewtype i x (rec x)
  | VUnknown x => Hunknown x (rec x)
  | VInt z => Hleaf (VInt z) eq_refl | VBool b => Hleaf (VBool b) eq_refl
  | VFloat b => Hleaf (VFloat b) eq_refl | VString s => Hleaf (VString s) eq_refl
  | VBytes b => Hleaf (VBytes b) eq_refl | VRange r => Hleaf (VRange r) eq_refl
  | VExternalFsAccess a => Hleaf (VExternalFsAccess a) eq_refl | VUnit => Hleaf VUnit eq_refl
  | VClosure f l => Hclosure f l (all l)
  | VFuture f =>
    Hfuture f (match f return future_forall P f with
               | FutureFunction _ l => all l
               | FutureEffect _ l => all l
               | FutureTool _ x _ => rec x
               | FutureAgent _ l _ => all l
               end)
  | VTask t => Hleaf (VTask t) eq_refl | VWorkspace h => Hleaf (VWorkspace h) eq_refl
  | VSubAgent h => Hleaf (VSubAgent h) eq_refl | VSequence l => Hleaf (VSequence l) eq_refl
  end.

(** ** Lemmas: the equality cache *)

Section CacheLemmas.
Context {A : Type} `{EqDecision A} (address : Value → A).

(** Aggregates of one kind at one address are one value. *)
Definition address_sound : Prop :=
∀ v w, aggregate_kind v = aggregate_kind w → is_Some (aggregate_kind v) →
     address v = address w → v = w.

Hypothesis Haddress : address_sound.

Lemma aggregate_identity_inj v w k :
aggregate_identity address v = Some k → aggregate_identity address w = Some k → v = w.
Proof using Haddress.
unfold aggregate_identity. intros Hv Hw.
apply bind_Some in Hv as (kv & Ekv & Hv), Hw as (kw & Ekw & Hw). simplify_eq.
apply Haddress; [congruence|by rewrite Ekv|congruence].
Qed.

Definition cache_sound (c : @EqualCache A) : Prop :=
∀ l r k e, equal_key address l r = Some k → cache_get k c = Some e → e = language_equal l r.

Lemma equal_key_inj l r l' r' k :
equal_key address l r = Some k → equal_key address l' r' = Some k → l = l' ∧ r = r'.
Proof using Haddress.
unfold equal_key. intros H1 H2.
apply bind_Some in H1 as ([k1 a1] & E1 & H1), H2 as ([k2 a2] & E2 & H2).
apply bind_Some in H1 as ([k3 a3] & E3 & H1), H2 as ([k4 a4] & E4 & H2).
repeat case_match; simplify_eq. boolify. subst.
split; by eapply aggregate_identity_inj.
Qed.

Lemma cache_get_cons {K} `{EqDecision K} (k k' : K) e c :
cache_get k ((k', e) :: c) = if decide (k' = k) then Some e else cache_get k c.
Proof.
unfold cache_get. simpl. destruct (decide (k' = k)); [done|].
destruct (list_find _ c) as [[i p]|]; done.
Qed.

Lemma cache_insert_sound c l r k :
cache_sound c → equal_key address l r = Some k → cache_sound ((k, language_equal l r) :: c).
Proof using Haddress.
intros Hc Hk l' r' k' e Hk' Hg. rewrite cache_get_cons in Hg.
destruct (decide (k = k')) as [->|]; [|by eapply Hc].
destruct (equal_key_inj _ _ _ _ _ Hk Hk') as [-> ->]. by simplify_eq.
Qed.

(** A cached comparison of [l] gives the reference answer and keeps the cache
sound. *)
Definition cached_correct (l : Value) : Prop :=
∀ r c, cache_sound c →
(language_equal_with_cache address l r c).1 = language_equal l r
∧ cache_sound (language_equal_with_cache address l r c).2.

Lemma zip_all_correct {X Y} (f : X → Y → @EqualCache A → bool * @EqualCache A) (g : X → Y → bool) l r c :
Forall (λ x, ∀ y c, cache_sound c → (f x y c).1 = g x y ∧ cache_sound (f x y c).2) l →
same_length l r = true → cache_sound c →
(zip_all f l r c).1 = all2 g l r ∧ cache_sound (zip_all f l r c).2.
Proof.
unfold same_length. intros Hf. revert r c.
induction Hf as [|x l Hx _ IH]; intros [|y r] c Hl Hc; simpl in *; try done.
destruct (Hx y c Hc) as [E1 E2]. destruct (f x y c) as [e c'] eqn:E. simpl in *. subst e.
destruct (g x y); simpl; [by apply IH|done].
Qed.

Lemma same_length_false {X Y} (g : X → Y → bool) l r :
same_length l r = false → all2 g l r = false.
Proof.
unfold same_length. revert r. induction l as [|x l IH]; intros [|y r]; simpl; try done.
intros Hl. rewrite IH by done. apply andb_false_r.
Qed.

Lemma zip_case {X Y} (f : X → Y → @EqualCache A → bool * @EqualCache A) (g : X → Y → bool) l r c :
Forall (λ x, ∀ y c, cache_sound c → (f x y c).1 = g x y ∧ cache_sound (f x y c).2) l →
cache_sound c →
(if same_length l r then zip_all f l r c else (false, c)).1 = all2 g l r
∧ cache_sound (if same_length l r then zip_all f l r c else (false, c)).2.
Proof.
intros Hf Hc. destruct (same_length l r) eqn:Hl; [by apply zip_all_correct|].
by rewrite same_length_false.
Qed.

Lemma fields_case l r c :
Forall (λ f : string * Value, cached_correct f.2) l → cache_sound c →
let z := (if same_length l r
        then zip_all (λ (x y : string * Value) c,
          if String.eqb x.1 y.1 then language_equal_with_cache address x.2 y.2 c
          else (false, c)) l r c
        else (false, c)) in
z.1 = all2 (λ x y : string * Value, String.eqb x.1 y.1 && language_equal x.2 y.2) l r
∧ cache_sound z.2.
Proof.
intros Hf Hc. apply zip_case; [|done]. eapply Forall_impl; [exact Hf|].
intros x Hx y c' Hc'. destruct (String.eqb x.1 y.1); [by apply Hx|done].
Qed.

(** What the cache lookup and the final insertion preserve. *)
Lemma cached_wrap l r c (inner : bool * @EqualCache A) :
cache_sound c → inner.1 = language_equal l r → cache_sound inner.2 →
let res := match (k ← equal_key address l r; cache_get k c) with
         | Some equal => (equal, c)
         | None =>
           let '(equal, cache) := inner in
           (equal, match equal_key address l r with
                   | Some k => (k, equal) :: cache | None => cache end)
         end in
res.1 = language_equal l r ∧ cache_sound res.2.
Proof using Haddress.
intros Hc He Hs. destruct inner as [e c']. simpl in *. subst e.
destruct (equal_key address l r) as [k|] eqn:Hk; simpl; [|done].
destruct (cache_get k c) as [e|] eqn:Hg; [split; [by eapply Hc|done]|].
split; [done|]. by apply cache_insert_sound.
Qed.

Lemma language_equal_with_cache_correct l : cached_correct l.
Proof using Haddress.
induction l as [v Hv|l IH|m IH|l IH|fs IH|i tn v vn p IH|i v IH|v IH|f l IH|f IH] using Value_ind';
intros r c Hc.
- destruct v; try discriminate; destruct r; done.
- cbn [language_equal_with_cache]. apply cached_wrap; [done|..]; destruct r; try done;
  by apply (zip_case (language_equal_with_cache address) language_equal).
- cbn [language_equal_with_cache]. assert (Forall (λ x : Value * Value, ∀ (y : Value * Value) c, cache_sound c →
  (and_then (language_equal_with_cache address x.1 y.1 c)
     (λ c, language_equal_with_cache address x.2 y.2 c)).1
  = language_equal x.1 y.1 && language_equal x.2 y.2
  ∧ cache_sound (and_then (language_equal_with_cache address x.1 y.1 c)
     (λ c, language_equal_with_cache address x.2 y.2 c)).2) m) as Hm.
{ eapply Forall_impl; [exact IH|]. intros x [Hx1 Hx2] y c' Hc'.
  destruct (Hx1 y.1 c' Hc') as [E1 E2]. unfold and_then.
  destruct (language_equal_with_cache address x.1 y.1 c') as [e c'']. simpl in *. subst e.
  destruct (language_equal x.1 y.1); [by apply Hx2|done]. }
apply cached_wrap; [done|..]; destruct r; try done; by apply (zip_case _ _ _ _ _ Hm).
- cbn [language_equal_with_cache]. apply cached_wrap; [done|..]; destruct r; try done;
  by apply (zip_case (language_equal_with_cache address) language_equal).
- cbn [language_equal_with_cache]. apply cached_wrap; [done|..]; destruct r; try done; by apply fields_case.
- cbn [language_equal_with_cache]. apply cached_wrap; [done|..]; destruct r as [| | | | | | | | | | | |j tn' w vn' q| | | | | | | |];
  cbn [language_equal]; try done; destruct (bool_decide (i = j)); try done; destruct (Nat.eqb v w); try done;
  simpl in *; destruct p as [|l|fs], q as [|l'|fs']; try done; simpl in IH.
1,3: by apply (zip_case (language_equal_with_cache address) language_equal).
all: by apply fields_case.
- cbn [language_equal_with_cache]. apply cached_wrap; [done|..]; destruct r; cbn [language_equal];
  try done; destruct (String.eqb _ _); try done; by apply IH.
- cbn [language_equal_with_cache]. apply cached_wrap; [done|..]; destruct r; try done; by apply IH.
- by destruct r.
- by destruct r.
Qed.
End CacheLemmas.

(** ** Decidable identity of values *)

Definition future_eqb (eqb : Value → Value → bool) (f g : FutureValue Value) : bool :=
  match f, g with
  | FutureFunction i l, FutureFunction j r => Nat.eqb i j && all2 eqb l r
  | FutureEffect o l, FutureEffect p r => bool_decide (o = p) && all2 eqb l r
  | FutureTool i x t, FutureTool j y u => Nat.eqb i j && eqb x y && ValueType_eqb t u
  | FutureAgent o l t, FutureAgent p r u =>
    bool_decide (o = p) && all2 eqb l r && ValueType_eqb t u
  | _, _ => false
  end.

#[export] Instance HandleValue_eq_dec : EqDecision HandleValue.
Proof. solve_decision. Defined.

Fixpoint Value_eqb (v w : Value) : bool :=
  let fields := all2 (λ x y : string * Value, String.eqb x.1 y.1 && Value_eqb x.2 y.2) in
  match v, w with
  | VInt a, VInt b | VFloat a, VFloat b | VTask a, VTask b => a =? b
  | VBool a, VBool b => Bool.eqb a b
  | VString a, VString b => String.eqb a b
  | VBytes a, VBytes b => bytes_eqb a b
  | VRange a, VRange b => bool_decide (a = b)
  | VExternalFsAccess a, VExternalFsAccess b => bool_decide (a = b)
  | VUnit, VUnit => true
  | VList l, VList r | VTuple l, VTuple r => all2 Value_eqb l r
  | VMap l, VMap r => all2 (λ x y : Value * Value, Value_eqb x.1 y.1 && Value_eqb x.2 y.2) l r
  | VRecord l, VRecord r => fields l r
  | VEnum i tn n vn p, VEnum j tm m vm q =>
    bool_decide (i = j) && String.eqb tn tm && Nat.eqb n m && String.eqb vn vm
    && match p, q with
       | PUnit, PUnit => true
       | PTuple l, PTuple r => all2 Value_eqb l r
       | PRecord l, PRecord r => fields l r
       | _, _ => false
       end
  | VNewtype i x, VNewtype j y => String.eqb i j && Value_eqb x y
  | VClosure f l, VClosure g r => Nat.eqb f g && all2 Value_eqb l r
  | VFuture f, VFuture g => future_eqb Value_eqb f g
  | VWorkspace a, VWorkspace b | VSubAgent a, VSubAgent b => bool_decide (a = b)
  | VSequence a, VSequence b => Nat.eqb a b
  | VUnknown x, VUnknown y => Value_eqb x y
  | _, _ => false
  end.

Lemma fields_eq (eqb : Value → Value → bool) (l r : list (string * Value)) :
  Forall (λ f, ∀ y, eqb f.2 y = true ↔ f.2 = y) l →
  all2 (λ x y : string * Value, String.eqb x.1 y.1 && eqb x.2 y.2) l r = true ↔ l = r.
Proof.
  intros Hf. apply all2_eq. eapply Forall_impl; [exact Hf|]. intros [n x] Hx [m y]. simpl in *.
  rewrite andb_true_iff, String.eqb_eq, Hx. naive_solver.
Qed.

Lemma Value_eqb_eq v w : Value_eqb v w = true ↔ v = w.
Proof.
  revert w. induction v as [v Hv|l IH|m IH|l IH|fs IH|i tn v vn p IH|i v IH|v IH|f l IH|f IH]
    using Value_ind'; intros w.
  - destruct v; try discriminate; destruct w; simpl; try (split; congruence);
      rewrite ?Z.eqb_eq, ?String.eqb_eq, ?Nat.eqb_eq, ?Bool.eqb_true_iff, ?bool_decide_eq_true;
      unfold bytes_eqb; rewrite ?bool_decide_eq_true; split; congruence.
  - destruct w; simpl; try (split; congruence). rewrite all2_eq by done. split; congruence.
  - destruct w; simpl; try (split; congruence). rewrite all2_eq; [split; congruence|].
    eapply Forall_impl; [exact IH|]. intros [a b] [Ha Hb] [c d]. simpl in *.
    rewrite andb_true_iff, Ha, Hb. split; [by intros [-> ->]|by intros [= -> ->]].
  - destruct w; simpl; try (split; congruence). rewrite all2_eq by done. split; congruence.
  - destruct w; simpl; try (split; congruence). rewrite fields_eq by done. split; congruence.
  - destruct w; simpl; try (split; congruence).
    rewrite !andb_true_iff, bool_decide_eq_true, !String.eqb_eq, Nat.eqb_eq.
    destruct p as [|l|fs], payload as [|l'|fs']; simpl in IH;
      rewrite ?all2_eq, ?fields_eq by done;
      (split; [intros; destruct_and?; congruence|intros Heq; inversion Heq; subst; done]).
  - destruct w; simpl; try (split; congruence). rewrite andb_true_iff, String.eqb_eq, IH.
    split; [by intros [-> ->]|by intros [= -> ->]].
  - destruct w; simpl; try (split; congruence). rewrite IH. split; congruence.
  - destruct w; simpl; try (split; congruence). rewrite andb_true_iff, Nat.eqb_eq, all2_eq by done.
    split; [by intros [-> ->]|by intros [= -> ->]].
  - destruct w as [| | | | | | | | | | | | | | |g| | | | |]; simpl; try (split; congruence).
    destruct f, g; simpl in *; try (split; congruence);
      rewrite ?andb_true_iff, ?Nat.eqb_eq, ?bool_decide_eq_true, ?ValueType_eqb_eq, ?IH,
        ?all2_eq by done; naive_solver.
Qed.

#[export] Instance Value_eq_dec : EqDecision Value.
Proof.
  intros v w. destruct (Value_eqb v w) eqn:E.
  - left. by apply Value_eqb_eq.
  - right. intros ->. by rewrite (proj2 (Value_eqb_eq w w)) in E.
Defined.

(** ** Lemmas: language equality is a partial equivalence *)

Lemma f64_eqb_sym a b : f64_eqb a b = f64_eqb b a.
Proof.
  unfold f64_eqb, f64_partial_cmp. rewrite (orb_comm (is_nan_bits a)).
  destruct (is_nan_bits b || is_nan_bits a); [done|].
  rewrite (Z.compare_antisym (float_key b)). by destruct (float_key b ?= float_key a).
Qed.

Lemma f64_eqb_true a b :
  f64_eqb a b = true ↔ is_nan_bits a = false ∧ is_nan_bits b = false ∧ float_key a = float_key b.
Proof.
  unfold f64_eqb, f64_partial_cmp.
  destruct (is_nan_bits a), (is_nan_bits b); simpl; try (by split; [|intros (? & ? & ?)]).
  destruct (Z.compare_spec (float_key a) (float_key b)); split; try done; intros; destruct_and?; lia.
Qed.

Lemma all2_sym {X} (f : X → X → bool) l r :
  Forall (λ x, ∀ y, f x y = f y x) l → all2 f l r = all2 f r l.
Proof.
  intros Hf. revert r. induction Hf as [|x l Hx _ IH]; intros [|y r]; simpl; try done.
  by rewrite Hx, IH.
Qed.

Lemma all2_trans {X} (f : X → X → bool) l r s :
  Forall (λ x, ∀ y z, f x y = true → f y z = true → f x z = true) l →
  all2 f l r = true → all2 f r s = true → all2 f l s = true.
Proof.
  intros Hf. revert r s. induction Hf as [|x l Hx _ IH]; intros [|y r] [|z s]; simpl; try done.
  rewrite !andb_true_iff. intros [? ?] [? ?]. split; [by eapply Hx|by eapply IH].
Qed.

Definition field_equal (x y : string * Value) : bool :=
  String.eqb x.1 y.1 && language_equal x.2 y.2.
Definition entry_equal (x y : Value * Value) : bool :=
  language_equal x.1 y.1 && language_equal x.2 y.2.

Lemma bool_decide_sym {X} `{EqDecision X} (x y : X) : bool_decide (x = y) = bool_decide (y = x).
Proof. apply bool_decide_ext. by split. Qed.

Lemma field_equal_sym l r :
  Forall (λ f : string * Value, ∀ y, language_equal f.2 y = language_equal y f.2) l →
  all2 field_equal l r = all2 field_equal r l.
Proof.
  intros Hf. apply all2_sym. eapply Forall_impl; [exact Hf|]. intros x Hx y.
  unfold field_equal. by rewrite Hx, String.eqb_sym.
Qed.

Lemma language_equal_sym l r : language_equal l r = language_equal r l.
Proof.
  revert r. induction l as [v Hv|l IH|m IH|l IH|fs IH|i tn v vn p IH|i v IH|v IH|f l IH|f IH]
    using Value_ind'; intros r.
  - destruct v; try discriminate; destruct r; simpl; try done;
      first [apply Z.eqb_sym | by destruct value, value0 | apply f64_eqb_sym | apply String.eqb_sym
            | apply bool_decide_sym].
  - destruct r; simpl; try done. by apply all2_sym.
  - destruct r; simpl; try done. apply all2_sym. eapply Forall_impl; [exact IH|].
    intros x [H1 H2] y. by rewrite H1, H2.
  - destruct r; simpl; try done. by apply all2_sym.
  - destruct r; simpl; try done. by apply field_equal_sym.
  - destruct r as [| | | | | | | | | | | |j tm w vm q| | | | | | | |]; simpl; try done.
    rewrite (bool_decide_sym i j), (Nat.eqb_sym v w). f_equal.
    destruct p, q; simpl in *; try done; [by apply all2_sym|by apply field_equal_sym].
  - destruct r; simpl; try done. by rewrite IH, String.eqb_sym.
  - destruct r; simpl; try done.
  - by destruct r.
  - by destruct r.
Qed.

Lemma field_equal_trans l r s :
  Forall (λ f : string * Value, ∀ y z, language_equal f.2 y = true → language_equal y z = true →
            language_equal f.2 z = true) l →
  all2 field_equal l r = true → all2 field_equal r s = true → all2 field_equal l s = true.
Proof.
  intros Hf. apply all2_trans. eapply Forall_impl; [exact Hf|]. intros x Hx y z.
  unfold field_equal. rewrite !andb_true_iff, !String.eqb_eq. intros [-> ?] [-> ?].
  split; [done|]. by eapply Hx.
Qed.

Lemma language_equal_trans l r s :
  language_equal l r = true → language_equal r s = true → language_equal l s = true.
Proof.
  revert r s. induction l as [v Hv|l IH|m IH|l IH|fs IH|i tn v vn p IH|i v IH|v IH|f l IH|f IH]
    using Value_ind'; intros r s H1 H2.
  - destruct v; try discriminate; destruct r; try discriminate; destruct s; try discriminate;
      simpl in *; rewrite ?Z.eqb_eq, ?String.eqb_eq, ?Bool.eqb_true_iff, ?f64_eqb_true in *;
      unfold bytes_eqb in *; rewrite ?bool_decide_eq_true in *; try done;
      destruct_and?; split_and?; congruence.
  - destruct r; try discriminate; destruct s; try discriminate. by eapply all2_trans.
  - destruct r as [| | | | | | | | |rm| | | | | | | | | | |]; try discriminate;
      destruct s; try discriminate. eapply (all2_trans entry_equal _ rm); [|done|done].
    eapply Forall_impl; [exact IH|]. intros x [Hx1 Hx2] y z. unfold entry_equal.
    rewrite !andb_true_iff. intros [? ?] [? ?]. split; [by eapply Hx1|by eapply Hx2].
  - destruct r; try discriminate; destruct s; try discriminate. by eapply all2_trans.
  - destruct r as [| | | | | | | | | | |rf| | | | | | | | |]; try discriminate;
      destruct s; try discriminate. by eapply (field_equal_trans _ rf).
  - destruct r as [| | | | | | | | | | | |j tm w vm q| | | | | | | |]; try discriminate;
      destruct s as [| | | | | | | | | | | |k tk u vk o| | | | | | | |]; try discriminate.
    simpl in *. rewrite !andb_true_iff, !bool_decide_eq_true, !Nat.eqb_eq in *.
    destruct H1 as [[-> ->] H1], H2 as [[-> ->] H2]. split; [done|].
    destruct p, q, o; simpl in *; try done; [by eapply all2_trans|].
    by eapply (field_equal_trans _ fields0).
  - destruct r; try discriminate; destruct s; try discriminate. simpl in *.
    rewrite !andb_true_iff, !String.eqb_eq in *. destruct H1 as [-> H1], H2 as [-> H2].
    split; [done|]. by eapply IH.
  - destruct r; try discriminate; destruct s; try discriminate. by eapply IH.
  - by destruct r.
  - by destruct r.
Qed.

(** The values that are equal to themselves: no NaN and no opaque value inside. *)
Fixpoint self_equal (v : Value) : bool :=
  match v with
  | VFloat bits => negb (is_nan_bits bits)
  | VList l | VTuple l => forallb self_equal l
  | VMap m => forallb (λ e, self_equal e.1 && self_equal e.2) m
  | VRecord fs => forallb (λ f, self_equal f.2) fs
  | VEnum _ _ _ _ p =>
    match p with
    | PUnit => true
    | PTuple l => forallb self_equal l
    | PRecord fs => forallb (λ f, self_equal f.2) fs
    end
  | VNewtype _ x | VUnknown x => self_equal x
  | VClosure _ _ | VFuture _ | VTask _ | VWorkspace _ | VSubAgent _ | VSequence _ => false
  | _ => true
  end.

Lemma all2_refl {X} (f : X → X → bool) (g : X → bool) l :
  Forall (λ x, f x x = g x) l → all2 f l l = forallb g l.
Proof. induction 1 as [|x l Hx _ IH]; simpl; [done|]. by rewrite Hx, IH. Qed.

Lemma field_equal_refl (l : list (string * Value)) :
  Forall (λ f, language_equal f.2 f.2 = self_equal f.2) l →
  all2 field_equal l l = forallb (λ f, self_equal f.2) l.
Proof.
  intros Hf. apply all2_refl. eapply Forall_impl; [exact Hf|]. intros x Hx. unfold field_equal.
  by rewrite String.eqb_refl.
Qed.

Lemma language_equal_refl v : language_equal v v = self_equal v.
Proof.
  induction v as [v Hv|l IH|m IH|l IH|fs IH|i tn v vn p IH|i v IH|v IH|f l IH|f IH]
    using Value_ind'.
  - destruct v; try discriminate; simpl; try done;
      rewrite ?Z.eqb_refl, ?String.eqb_refl, ?Bool.eqb_reflx; unfold bytes_eqb;
      rewrite ?bool_decide_eq_true_2 by done; try done.
    unfold f64_eqb, f64_partial_cmp. rewrite orb_diag, Z.compare_refl. by destruct (is_nan_bits bits).
  - by apply all2_refl.
  - simpl. apply all2_refl. eapply Forall_impl; [exact IH|]. intros x [-> ->]. done.
  - by apply all2_refl.
  - by apply field_equal_refl.
  - simpl. rewrite bool_decide_eq_true_2, Nat.eqb_refl by done.
    destruct p; simpl in *; [done|by apply all2_refl|by apply field_equal_refl].
  - simpl. by rewrite String.eqb_refl.
  - done.
  - done.
  - done.
Qed.

(** ** Lemmas: the order of map keys *)

(** A key of a map-key type. *)
Fixpoint key_of_type (t : ValueType) (v : Value) : bool :=
  match t, v with
  | TBool, VBool _ | TInt, VInt _ | TString, VString _ | TBytes, VBytes _ => true
  | TNewtype name underlying, VNewtype ident x => String.eqb ident name && key_of_type underlying x
  | _, _ => false
  end.

Lemma str_compare_refl s : str_compare s s = Eq.
Proof. unfold str_compare. by apply bytes_compare_eq. Qed.

Lemma compare_map_keys_eq t v w :
  key_of_type t v = true → key_of_type t w = true → compare_map_keys v w = Eq ↔ v = w.
Proof.
  revert v w. induction t; intros v w Hv Hw; destruct v; try done; destruct w; try done; simpl in *.
  - rewrite Z.compare_eq_iff. split; congruence.
  - destruct value, value0; simpl; split; congruence.
  - unfold str_compare. rewrite bytes_compare_eq, bytes_eq_iff. split; congruence.
  - rewrite bytes_compare_eq. split; congruence.
  - apply andb_true_iff in Hv as [Hi Hv], Hw as [Hj Hw]. apply String.eqb_eq in Hi, Hj. subst.
    rewrite str_compare_refl. simpl. rewrite IHt by done. split; congruence.
Qed.

Lemma compare_map_keys_equal t v w :
  key_of_type t v = true → key_of_type t w = true → language_equal v w = true ↔ v = w.
Proof.
  revert v w. induction t; intros v w Hv Hw; destruct v; try done; destruct w; try done; simpl in *.
  - rewrite Z.eqb_eq. split; congruence.
  - rewrite Bool.eqb_true_iff. split; congruence.
  - rewrite String.eqb_eq. split; congruence.
  - unfold bytes_eqb. rewrite bool_decide_eq_true. split; congruence.
  - apply andb_true_iff in Hv as [Hi Hv], Hw as [Hj Hw]. apply String.eqb_eq in Hi, Hj. subst.
    rewrite String.eqb_refl. simpl. rewrite IHt by done. split; congruence.
Qed.

Lemma compare_map_keys_antisym v w : compare_map_keys w v = CompOpp (compare_map_keys v w).
Proof.
  revert w. induction v; intros w; destruct w; simpl; try done.
  - apply Z.compare_antisym.
  - by destruct value, value0.
  - unfold str_compare. apply bytes_compare_antisym.
  - apply bytes_compare_antisym.
  - unfold str_compare. rewrite (bytes_compare_antisym (bytes identity0) (bytes identity)), IHv.
    destruct (bytes_compare (bytes identity0) (bytes identity)); simpl; by rewrite ?CompOpp_involutive.
Qed.

Lemma compare_map_keys_trans t u v w :
  key_of_type t u = true → key_of_type t v = true → key_of_type t w = true →
  compare_map_keys u v = Lt → compare_map_keys v w = Lt → compare_map_keys u w = Lt.
Proof.
  revert u v w. induction t; intros u v w Hu Hv Hw; destruct u; try done; destruct v; try done;
    destruct w; try done; simpl in *.
  - rewrite !Z.compare_lt_iff. lia.
  - by destruct value, value0, value1.
  - unfold str_compare. apply bytes_compare_lt_trans.
  - apply bytes_compare_lt_trans.
  - apply andb_true_iff in Hu as [Hi Hu], Hv as [Hj Hv], Hw as [Hk Hw].
    apply String.eqb_eq in Hi, Hj, Hk. subst. rewrite !str_compare_refl. simpl. by apply IHt.
Qed.

(** ** The typing of values: the reference *)

Section Typing.
Variable module : Module_.

Fixpoint has_type (v : Value) (t : ValueType) : bool :=
let fields := all2 (λ (f : string * Value) (g : string * ValueType),
                    String.eqb f.1 g.1 && has_type f.2 g.2) in
match v, t with
| VInt _, TInt | VBool _, TBool | VFloat _, TFloat | VString _, TString
| VBytes _, TBytes | VRange _, TRange | VSequence _, TSequence _
| VExternalFsAccess _, TExternalFsAccess | VUnit, TUnit | VUnknown _, TUnknown
| VClosure _ _, TFunction _ _ _ | VFuture _, TFuture _ | VTask _, TTask _
| VWorkspace _, TWorkspace | VSubAgent _, TSubAgent => true
| VList l, TList e => forallb (λ v, has_type v e) l
| VMap m, TMap k e =>
negb (unsorted_entries m) && forallb (λ p, has_type p.1 k && has_type p.2 e) m
| VTuple l, TTuple ts => all2 has_type l ts
| VRecord fs, TRecord gs => fields fs gs
| VNewtype i v, TNewtype n u => String.eqb i n && has_type v u
| VEnum i _ n _ p, TEnum id =>
bool_decide (i = User id)
&& match variant_payload module id n with
   | Err _ => false
   | Ok pt =>
     match p, pt with
     | PUnit, PTUnit => true
     | PTuple l, PTTuple ts => all2 has_type l ts
     | PRecord fs, PTRecord gs => fields fs gs
     | _, _ => false
     end
   end
| VEnum i _ n _ p, TOption e =>
bool_decide (i = OptionId)
&& match n, p with
   | 0%nat, PUnit => true
   | 1%nat, PTuple [v] => has_type v e
   | _, _ => false
   end
| VEnum i _ n _ p, TResult o e =>
bool_decide (i = ResultId)
&& match n, p with
   | 0%nat, PTuple [v] => has_type v o
   | 1%nat, PTuple [v] => has_type v e
   | _, _ => false
   end
| _, _ => false
end.
End Typing.

(** How deep the type test descends into a value: an unknown value is not
    entered. *)
Fixpoint nesting (v : Value) : nat :=
  let deepest {X} (f : X → nat) (l : list X) := foldr (λ x n, Nat.max (S (f x)) n) 0%nat l in
  match v with
  | VList l | VTuple l => deepest nesting l
  | VMap m => deepest (λ e, Nat.max (nesting e.1) (nesting e.2)) m
  | VRecord fs => deepest (λ f, nesting f.2) fs
  | VEnum _ _ _ _ p =>
    match p with
    | PUnit => 0%nat
    | PTuple l => deepest nesting l
    | PRecord fs => deepest (λ f, nesting f.2) fs
    end
  | VNewtype _ x => S (nesting x)
  | _ => 0%nat
  end.

(** ** Lemmas: the run-time type test *)

Section MatchLemmas.
Context {A : Type} `{EqDecision A} (address : Value → A) (module : Module_).
Hypothesis Haddress : address_sound address.

(** Every cached success is a typing; no failure is cached. *)
Definition successes_typed (c : @MatchCache A) : Prop :=
∀ v t k, aggregate_identity address v = Some k → cache_get (k, t) c = Some true →
       has_type module v t = true.
Definition no_failure (c : @MatchCache A) : Prop :=
∀ k b, cache_get k c = Some b → b = true.

Definition sound_test (T : @Test A) (P : Prop) : Prop :=
∀ c, successes_typed c → successes_typed (T c).2 ∧ ((T c).1 = Ok true → P).
Definition complete_test (T : @Test A) : Prop :=
∀ c, no_failure c → ∃ c', T c = (Ok true, c') ∧ no_failure c'.

Lemma answer_sound b (P : Prop) : (b = true → P) → sound_test (answer b) P.
Proof. intros HP c Hc. split; [done|]. intros [= ->]. auto. Qed.

Lemma and_test_sound T U P Q :
sound_test T P → sound_test U Q → sound_test (and_test T U) (P ∧ Q).
Proof.
intros HT HU c Hc. unfold and_test. destruct (HT c Hc) as [Hc' HP].
destruct (T c) as [[[]|e] c']; simpl in *; try done.
destruct (HU c' Hc') as [Hc'' HQ]. split; [done|]. auto.
Qed.

Lemma sound_test_impl T (P Q : Prop) : (P → Q) → sound_test T P → sound_test T Q.
Proof. intros HPQ HT c Hc. destruct (HT c Hc). auto. Qed.

Lemma try_all_sound {X} (f : X → @Test A) (g : X → bool) l :
Forall (λ x, sound_test (f x) (g x = true)) l →
sound_test (try_all f l) (forallb g l = true).
Proof.
induction 1 as [|x l Hx _ IH]; simpl; [by apply answer_sound|].
eapply sound_test_impl; [|apply and_test_sound; [exact Hx|exact IH]].
intros [-> ->]. done.
Qed.

Lemma try_all2_sound {X Y} (f : X → Y → @Test A) (g : X → Y → bool) l r :
Forall (λ x, ∀ y, sound_test (f x y) (g x y = true)) l →
sound_test (if same_length l r then try_all2 f l r else answer false) (all2 g l r = true).
Proof.
unfold same_length. intros Hf. revert r. induction Hf as [|x l Hx _ IH]; intros [|y r]; simpl;
try (by apply answer_sound).
specialize (IH r). destruct (Nat.eqb (length l) (length r)); [|by apply answer_sound].
eapply sound_test_impl; [|apply and_test_sound; [exact (Hx y)|exact IH]].
intros [-> ->]. done.
Qed.

Lemma and_test_complete T U : complete_test T → complete_test U → complete_test (and_test T U).
Proof.
intros HT HU c Hc. unfold and_test. destruct (HT c Hc) as (c' & -> & Hc'). by apply HU.
Qed.

Lemma try_all_complete {X} (f : X → @Test A) l :
Forall (λ x, complete_test (f x)) l → complete_test (try_all f l).
Proof.
induction 1 as [|x l Hx _ IH]; simpl; [intros c Hc; by exists c|]. by apply and_test_complete.
Qed.

Lemma try_all2_complete {X Y} (f : X → Y → @Test A) (g : X → Y → bool) l r :
Forall (λ x, ∀ y, g x y = true → complete_test (f x y)) l → all2 g l r = true →
complete_test (if same_length l r then try_all2 f l r else answer false).
Proof.
unfold same_length. intros Hf. revert r. induction Hf as [|x l Hx _ IH]; intros [|y r]; simpl;
try done. { intros _ c Hc. by exists c. }
rewrite andb_true_iff. intros [Hy Hr]. specialize (IH r Hr).
assert (Nat.eqb (length l) (length r) = true) as El.
{ clear -Hr. revert r Hr. induction l as [|a l IH]; intros [|b r]; simpl; try done.
rewrite andb_true_iff. intros [_ ?]. by apply IH. }
rewrite El in *. apply and_test_complete; [by apply Hx|done].
Qed.

(** The depth check, the cache and the early return around a test. *)
Definition wrapped (v : Value) (t : ValueType) (depth : nat) (early : bool) (inner : @Test A)
: @Test A := λ cache,
if Nat.ltb MAX_VALUE_NESTING depth then (Ok false, cache)
else
let key := '(kind, id) ← aggregate_identity address v; Some (kind, id, t) in
match (k ← key; cache_get k cache) with
| Some m => (Ok m, cache)
| None =>
  if early then (Ok false, cache)
  else
    let '(m, cache) := inner cache in
    match m with
    | Err e => (Err e, cache)
    | Ok m => (Ok m, match key with Some k => (k, m) :: cache | None => cache end)
    end
end.

Lemma wrapped_sound v t depth early inner :
(early = false → sound_test inner (has_type module v t = true)) →
sound_test (wrapped v t depth early inner) (has_type module v t = true).
Proof using Haddress.
intros Hin c Hc. unfold wrapped. destruct (Nat.ltb _ depth); [done|].
destruct (aggregate_identity address v) as [[kind id]|] eqn:Hid; simpl.
- destruct (cache_get (kind, id, t) c) as [m|] eqn:Hg; simpl.
{ split; [done|]. intros [= ->]. by eapply Hc. }
destruct early; [done|]. destruct (Hin eq_refl c Hc) as [Hc' HP].
destruct (inner c) as [[m|e] c']; simpl in *; [|done]. split; [|done].
intros w u k Hw Hget. rewrite cache_get_cons in Hget.
destruct (decide ((kind, id, t) = (k, u))) as [[= <- <-]|]; [|by eapply Hc'].
rewrite (aggregate_identity_inj address Haddress w v (kind, id)) by done.
simplify_eq. by apply HP.
- destruct early; [done|]. destruct (Hin eq_refl c Hc) as [Hc' HP].
by destruct (inner c) as [[m|e] c'].
Qed.

Lemma wrapped_complete v t depth early inner :
(depth <= MAX_VALUE_NESTING)%nat → early = false → complete_test inner →
complete_test (wrapped v t depth early inner).
Proof.
intros Hd -> Hin c Hc. unfold wrapped. rewrite (proj2 (Nat.ltb_ge _ _)) by done.
set (key := '(kind, id) ← _; _).
destruct (k ← key; cache_get k c) as [m|] eqn:Hg.
{ apply bind_Some in Hg as (k & _ & Hg). apply Hc in Hg as ->. by exists c. }
destruct (Hin c Hc) as (c' & -> & Hc'). eexists. split; [done|].
destruct key as [k|]; [|done]. intros k' b. rewrite cache_get_cons.
destruct (decide (k = k')); [congruence|apply Hc'].
Qed.

(** Soundness: whatever the depth, a success is a typing. *)
Definition test_sound_for (v : Value) : Prop :=
∀ t depth, sound_test (value_matches_type address module v t depth)
           (has_type module v t = true).

Lemma fields_sound (fs : list (string * Value)) (gs : list (string * ValueType)) depth :
Forall (λ f, test_sound_for f.2) fs →
sound_test
(if same_length fs gs
 then try_all2 (λ (v : string * Value) (f : string * ValueType),
        if String.eqb v.1 f.1 then value_matches_type address module v.2 f.2 depth
        else answer false) fs gs
 else answer false)
(all2 (λ (f : string * Value) (g : string * ValueType),
         String.eqb f.1 g.1 && has_type module f.2 g.2) fs gs = true).
Proof.
intros Hf. apply try_all2_sound. eapply Forall_impl; [exact Hf|]. intros x Hx y.
destruct (String.eqb x.1 y.1); [apply Hx|by apply answer_sound].
Qed.

Lemma tuple_sound l ts depth :
Forall test_sound_for l →
sound_test
(if same_length l ts
 then try_all2 (λ v t, value_matches_type address module v t depth) l ts
 else answer false)
(all2 (has_type module) l ts = true).
Proof.
intros Hl. apply try_all2_sound. eapply Forall_impl; [exact Hl|]. intros x Hx y. apply Hx.
Qed.

Lemma match_answer (b : bool) (P : Prop) :
(b = true → P) → sound_test (λ c, (Ok b, c)) P.
Proof. apply answer_sound. Qed.

(** The goal of a test that answers at once. *)
Ltac by_answer := first [apply match_answer; done | intros ? ?; done].

Lemma value_matches_type_sound v : test_sound_for v.
Proof using Haddress.
induction v as [v Hv|l IH|m IH|l IH|fs IH|i tn n vn p IH|i v IH|v IH|f l IH|f IH]
using Value_ind'; intros t depth.
- destruct v; try discriminate; apply wrapped_sound; intros _; destruct t; by_answer.
- apply wrapped_sound. intros _. destruct t; try by_answer.
apply try_all_sound. eapply Forall_impl; [exact IH|]. intros x Hx. apply Hx.
- apply wrapped_sound. intros _. destruct t; try by_answer. cbn [has_type].
destruct (unsorted_entries m); [by_answer|]. apply try_all_sound.
eapply Forall_impl; [exact IH|]. intros x [H1 H2].
eapply sound_test_impl; [|apply and_test_sound; [apply H1|apply H2]]. by intros [-> ->].
- apply wrapped_sound. intros _. destruct t; try by_answer. by apply tuple_sound.
- apply wrapped_sound. intros _. destruct t; try by_answer. by apply fields_sound.
- apply wrapped_sound. destruct t; try (intros _; by_answer); intros Hearly; cbn [has_type];
  apply negb_false_iff in Hearly; rewrite Hearly; cbn [andb].
+ destruct (variant_payload module id n) as [pt|e]; [|by_answer].
  destruct p, pt; try by_answer; [by apply tuple_sound|by apply fields_sound].
+ destruct n as [|[|n]], p as [|[|x [|]]|]; try by_answer. apply Forall_inv in IH. apply IH.
+ destruct n as [|[|n]], p as [|[|x [|]]|]; try by_answer; apply Forall_inv in IH; apply IH.
- apply wrapped_sound. intros _. destruct t; try by_answer. cbn [has_type].
destruct (String.eqb i name); [apply IH|by_answer].
- apply wrapped_sound. intros _. destruct t; by_answer.
- apply wrapped_sound. intros _. destruct t; by_answer.
- apply wrapped_sound. intros _. destruct t; by_answer.
Qed.

(** Completeness: a typed value that is not too deep passes. *)
Definition test_complete_for (v : Value) : Prop :=
∀ t depth, has_type module v t = true → (depth + nesting v <= MAX_VALUE_NESTING)%nat →
complete_test (value_matches_type address module v t depth).

Lemma deepest_le {X} (f : X → nat) (l : list X) x n :
(foldr (λ x n, Nat.max (S (f x)) n) 0 l <= n)%nat → x ∈ l → (S (f x) <= n)%nat.
Proof.
induction l as [|y l IH]; simpl; intros Hn Hx; [by apply elem_of_nil in Hx|].
apply elem_of_cons in Hx as [->|Hx]; [lia|]. apply IH; [lia|done].
Qed.

Lemma fields_complete (fs : list (string * Value)) (gs : list (string * ValueType)) depth :
Forall (λ f, test_complete_for f.2) fs →
all2 (λ (f : string * Value) (g : string * ValueType),
      String.eqb f.1 g.1 && has_type module f.2 g.2) fs gs = true →
(depth + foldr (λ f n, Nat.max (S (nesting f.2)) n) 0 fs <= MAX_VALUE_NESTING)%nat →
complete_test
(if same_length fs gs
 then try_all2 (λ (v : string * Value) (f : string * ValueType),
        if String.eqb v.1 f.1 then value_matches_type address module v.2 f.2 (S depth)
        else answer false) fs gs
 else answer false).
Proof.
intros Hf Hall Hd. eapply try_all2_complete; [|exact Hall]. rewrite Forall_forall in *.
intros x Hx y. rewrite andb_true_iff. intros [-> Ht]. apply (Hf x Hx); [done|].
pose proof (deepest_le (λ f : string * Value, nesting f.2) fs x (MAX_VALUE_NESTING - depth)).
specialize (H ltac:(lia) Hx). lia.
Qed.

Lemma tuple_complete l ts depth :
Forall test_complete_for l → all2 (has_type module) l ts = true →
(depth + foldr (λ x n, Nat.max (S (nesting x)) n) 0 l <= MAX_VALUE_NESTING)%nat →
complete_test
(if same_length l ts
 then try_all2 (λ v t, value_matches_type address module v t (S depth)) l ts
 else answer false).
Proof.
intros Hl Hall Hd. eapply try_all2_complete; [|exact Hall]. rewrite Forall_forall in *.
intros x Hx y Ht. apply (Hl x Hx); [done|].
pose proof (deepest_le nesting l x (MAX_VALUE_NESTING - depth)).
specialize (H ltac:(lia) Hx). lia.
Qed.

Lemma match_true_complete : complete_test (λ c, (Ok true, c)).
Proof. intros c Hc. by exists c. Qed.

Lemma all2_same_length {X Y} (g : X → Y → bool) l r : all2 g l r = true → same_length l r = true.
Proof.
intros Ha. destruct (same_length l r) eqn:E; [done|]. by rewrite (same_length_false g) in Ha.
Qed.

Lemma value_matches_type_complete v : test_complete_for v.
Proof.
induction v as [v Hv|l IH|m IH|l IH|fs IH|i tn n vn p IH|i v IH|v IH|f l IH|f IH]
using Value_ind'; intros t depth Ht Hd; cbn [nesting] in Hd.
- destruct v; try discriminate; destruct t; try discriminate; apply wrapped_complete;
  try done; try lia; apply match_true_complete.
- destruct t; try discriminate. apply wrapped_complete; [lia|done|]. apply try_all_complete.
rewrite Forall_forall in *. cbn [has_type] in Ht. rewrite forallb_forall in Ht.
intros x Hx. apply (IH x Hx); [by apply Ht, list_elem_of_In|].
pose proof (deepest_le nesting l x (MAX_VALUE_NESTING - depth) ltac:(lia) Hx). lia.
- destruct t; try discriminate. apply wrapped_complete; [lia|done|]. cbn [has_type] in Ht.
apply andb_true_iff in Ht as [Hs Ht]. apply negb_true_iff in Hs. rewrite Hs.
apply try_all_complete. rewrite Forall_forall in *. rewrite forallb_forall in Ht.
intros x Hx. destruct (IH x Hx) as [H1 H2].
pose proof (Ht x (proj1 (list_elem_of_In _ _) Hx)) as Hp. apply andb_true_iff in Hp as [Hk Hv].
pose proof (deepest_le (λ e : Value * Value, Nat.max (nesting e.1) (nesting e.2)) m x
              (MAX_VALUE_NESTING - depth) ltac:(lia) Hx) as Hn. cbv beta in Hn.
apply and_test_complete; [apply H1|apply H2]; by try lia.
- destruct t; try discriminate. cbn [has_type] in Ht.
apply wrapped_complete; [lia| |by apply tuple_complete].
by rewrite (all2_same_length _ _ _ Ht).
- destruct t; try discriminate. apply wrapped_complete; [lia|done|by apply fields_complete].
- destruct t; try discriminate; cbn [has_type] in Ht; apply andb_true_iff in Ht as [Hi Ht];
  (apply wrapped_complete; [lia|by rewrite Hi|]).
+ destruct (variant_payload module id n) as [pt|e]; [|done].
  destruct p, pt; try done; [apply match_true_complete|by apply tuple_complete
                            |by apply fields_complete].
+ destruct n as [|[|n]], p as [|[|x [|]]|]; try done; [apply match_true_complete|].
  apply Forall_inv in IH. apply IH; [done|]. simpl in Hd. lia.
+ destruct n as [|[|n]], p as [|[|x [|]]|]; try done; apply Forall_inv in IH;
    (apply IH; [done|simpl in Hd; lia]).
- destruct t; try discriminate. cbn [has_type] in Ht. apply andb_true_iff in Ht as [Hi Ht].
apply wrapped_complete; [lia|done|]. rewrite Hi. apply IH; [done|lia].
- destruct t; try discriminate. apply wrapped_complete; [lia|done|apply match_true_complete].
- destruct t; try discriminate. apply wrapped_complete; [lia|done|apply match_true_complete].
- destruct t; try discriminate. apply wrapped_complete; [lia|done|apply match_true_complete].
Qed.
End MatchLemmas.

(** ** Properties *)

(** The equality cache is transparent: comparing two values with the
    address-keyed cache, whatever they share, gives the answer of the plain
    structural comparison. *)
Theorem equality_cache_transparent {A} `{EqDecision A} (address : Value → A) (l r : Value) :
  address_sound address → language_equal_cached address l r = language_equal l r.
Proof.
  intros Ha. apply (language_equal_with_cache_correct address Ha l r []).
  intros ? ? ? ? _ Hg. discriminate Hg.
Qed.

Lemma equality_cache_transparent_witness :
  let shared := VList [VInt 1; VFloat 0] in
  language_equal_cached (λ v : Value, v) (VTuple [shared; shared]) (VTuple [shared; VList []])
  = language_equal (VTuple [shared; shared]) (VTuple [shared; VList []]).
Proof. intros shared. apply equality_cache_transparent. intros v w _ _ E. exact E. Defined.

(** Language equality is symmetric and transitive on all values, and a value
    is equal to itself exactly when it holds no NaN and no opaque value (closure,
    future, task, handle or sequence) at any depth. *)
Theorem language_equality_per (u v w : Value) :
  language_equal u v = language_equal v u
  ∧ (language_equal u v = true → language_equal v w = true → language_equal u w = true)
  ∧ language_equal v v = self_equal v.
Proof.
  split; [apply language_equal_sym|]. split; [apply language_equal_trans|apply language_equal_refl].
Qed.

Lemma language_equality_per_witness :
  language_equal (VList [VFloat 0]) (VList [VFloat (2 ^ 63)]) = true.
Proof.
  apply (proj1 (proj2 (language_equality_per (VList [VFloat 0]) (VList [VFloat 0])
                         (VList [VFloat (2 ^ 63)])))); vm_compute; reflexivity.
Defined.

(** On the keys of one map-key type the canonical key order is a strict total
    order, and its equivalence is both language equality and identity: sorting a
    map by it is deterministic and lookups cannot confuse two keys. *)
Theorem map_key_order_total (t : ValueType) (u v w : Value) :
  key_of_type t u = true → key_of_type t v = true → key_of_type t w = true →
  (compare_map_keys u v = Eq ↔ u = v)
  ∧ (language_equal u v = true ↔ u = v)
  ∧ compare_map_keys v u = CompOpp (compare_map_keys u v)
  ∧ (compare_map_keys u v = Lt → compare_map_keys v w = Lt → compare_map_keys u w = Lt).
Proof.
  intros Hu Hv Hw. split; [by eapply compare_map_keys_eq|].
  split; [by eapply compare_map_keys_equal|]. split; [apply compare_map_keys_antisym|].
  by eapply compare_map_keys_trans.
Qed.

Lemma map_key_order_total_witness :
  compare_map_keys (VNewtype "Id" (VInt 1)) (VNewtype "Id" (VInt 3)) = Lt.
Proof.
  apply (map_key_order_total (TNewtype "Id" TInt) (VNewtype "Id" (VInt 1)) (VNewtype "Id" (VInt 2))
           (VNewtype "Id" (VInt 3))); vm_compute; reflexivity.
Defined.

(** C37. The run-time type test is exact up to its depth limit: with its cache, it
    accepts only values of the type, and it accepts every value of the type whose
    nesting is within 128. *)
Theorem type_test_exact {A} `{EqDecision A} (address : Value → A) (module : Module_)
    (v : Value) (t : ValueType) :
  address_sound address →
  (matches_type address module v t = Ok true → has_type module v t = true)
  ∧ (has_type module v t = true → (nesting v <= MAX_VALUE_NESTING)%nat →
     matches_type address module v t = Ok true).
Proof.
  intros Ha. split.
  - apply (value_matches_type_sound address module Ha v t 0%nat).
    intros ? ? ? _ Hg. discriminate Hg.
  - intros Ht Hn.
    destruct (value_matches_type_complete address module v t 0%nat Ht Hn []) as (c & Hc & _).
    { intros ? ? Hg. discriminate Hg. }
    unfold matches_type. by rewrite Hc.
Qed.

Definition empty_module : Module_ := {|
  constants := []; enum_types := []; effect_sets := []; functions := []; async_functions := [];
  entry := 0 |}.

Lemma type_test_exact_witness :
  matches_type (λ v : Value, v) empty_module
    (VMap [(VString "a", VEnum OptionId "Option" 1 "Some" (PTuple [VInt 1]));
           (VString "b", VEnum OptionId "Option" 0 "None" PUnit)]) (TMap TString (TOption TInt))
  = Ok true.
Proof.
  apply type_test_exact; [intros v w _ _ E; exact E|vm_compute; reflexivity|vm_compute; lia].
Defined.

(** Ordered comparison never fails on the values of an ordered type: each of
    the four operators has an answer, [<] and [>=] are opposite unless an operand
    is NaN, and then all four are false. *)
Theorem ordered_compare_total (module : Module_) (t : ValueType) (v w : Value) :
  is_ordered t = true → has_type module v t = true → has_type module w t = true →
  ∃ lt le gt ge,
    compare Less v w = Ok lt ∧ compare LessEqual v w = Ok le
    ∧ compare Greater v w = Ok gt ∧ compare GreaterEqual v w = Ok ge
    ∧ ((ge = negb lt ∧ le = negb gt ∧ lt && gt = false)
       ∨ (lt = false ∧ le = false ∧ gt = false ∧ ge = false)).
Proof.
  intros Ho Hv Hw.
  assert (∃ o, language_order v w = Ok o) as [o Eo].
  { revert v w Hv Hw. induction t; try done; intros v w Hv Hw; destruct v; try done; destruct w;
      try done; simpl in *; eauto.
    apply andb_true_iff in Hv as [Hi Hv], Hw as [Hj Hw]. apply String.eqb_eq in Hi, Hj. subst.
    rewrite String.eqb_refl. by apply IHt. }
  unfold compare. rewrite Eo. simpl. do 4 eexists. do 4 (split; [done|]).
  destruct o as [[]|]; simpl; auto.
Qed.

Lemma ordered_compare_total_witness :
  ∃ lt le gt ge,
    compare Less (VFloat 0) (VFloat CANONICAL_NAN_BITS) = Ok lt
    ∧ compare LessEqual (VFloat 0) (VFloat CANONICAL_NAN_BITS) = Ok le
    ∧ compare Greater (VFloat 0) (VFloat CANONICAL_NAN_BITS) = Ok gt
    ∧ compare GreaterEqual (VFloat 0) (VFloat CANONICAL_NAN_BITS) = Ok ge
    ∧ ((ge = negb lt ∧ le = negb gt ∧ lt && gt = false)
       ∨ (lt = false ∧ le = false ∧ gt = false ∧ ge = false)).
Proof. apply (ordered_compare_total empty_module TFloat); vm_compute; reflexivity. Defined.
