(* ===== verification/VmOps.v ===== *)
(** * Pure operations of the VM ([crates/allen-vm/src/lib.rs])

    Registers, integer arithmetic, collections, maps, strings and the standard
    library calls: the operations behind the instructions that neither suspend
    nor call back.  An operation that allocates runs in the budget monad of
    [VmBudget] and charges before it builds, in the order of the source. *)

From Stdlib Require Import SpecFloat.
From S2P Require Import Prelude Text Bytecode VmBudget VmValue VmTime.
Open Scope string_scope.
Open Scope Z_scope.

(** ** Registers *)

Abbreviation Registers := (list (option Value)) (only parsing).

Definition read_register (registers : Registers) (r : Register) : result VmError Value :=
  ok_or (v ← registers !! r; v) (Invariant_ "register has no value").

Definition read_int (registers : Registers) (r : Register) : result VmError Z :=
  let? v := read_register registers r in
  match v with VInt z => Ok z | _ => Err (Invariant_ "integer operand contains another type") end.

Definition read_float (registers : Registers) (r : Register) : result VmError Z :=
  let? v := read_register registers r in
  match v with VFloat z => Ok z | _ => Err (Invariant_ "float operand contains another type") end.

Definition read_bool (registers : Registers) (r : Register) : result VmError bool :=
  let? v := read_register registers r in
  match v with VBool b => Ok b | _ => Err (Invariant_ "Boolean operand contains another type") end.

Definition read_string (registers : Registers) (r : Register) : result VmError string :=
  let? v := read_register registers r in
  match v with VString s => Ok s | _ => Err (Invariant_ "String operation operand is not String") end.

Definition read_string_list (registers : Registers) (r : Register) : result VmError (list Value) :=
  let? v := read_register registers r in
  match v with VList l => Ok l | _ => Err (Invariant_ "String operation operand is not List") end.

Definition write_register (registers : Registers) (r : Register) (v : Value)
    : result VmError Registers :=
  if bool_decide (r < length registers)%nat then Ok (<[r := Some v]> registers)
  else Err (Invariant_ "destination register is missing").

Definition clone_registers (registers : Registers) (sources : list Register)
    : result VmError (list Value) := collect (read_register registers) sources.

(** ** Built-in enums *)

Definition builtin_enum (ident : EnumIdentity) (variant : nat) (payload : EnumPayload Value)
    : Value :=
  let '(type_name, variant_name) :=
    match ident, variant with
    | OptionId, 0%nat => ("Option", "None")
    | OptionId, 1%nat => ("Option", "Some")
    | ResultId, 0%nat => ("Result", "Ok")
    | ResultId, 1%nat => ("Result", "Err")
    | _, _ => ("", "")
    end in
  VEnum ident type_name variant variant_name payload.

Definition option_none : Value := builtin_enum OptionId 0 PUnit.
Definition option_some (v : Value) : Value := builtin_enum OptionId 1 (PTuple [v]).

(** ** Integers *)

Definition int_binary (operation : NumericBinaryOp) (left right : Z) : result VmError Z :=
  match operation with
  | Add => ok_or (i64_checked_add left right) ArithmeticOverflow
  | Subtract => ok_or (i64_checked_sub left right) ArithmeticOverflow
  | Multiply => ok_or (i64_checked_mul left right) ArithmeticOverflow
  | Divide =>
    if right =? 0 then Err DivisionByZero
    else ok_or (i64_checked_div left right) ArithmeticOverflow
  end.

Definition int_remainder (left right : Z) : result VmError Z :=
  if right =? 0 then Err DivisionByZero
  else if (left =? i64_min) && (right =? -1) then Ok 0
  else ok_or (i64_checked_rem left right) ArithmeticOverflow.

Definition checked_int_value (operation : CheckedIntOperation) (left right : Z) : option Z :=
  match operation with
  | CheckedAdd => i64_checked_add left right
  | CheckedSubtract => i64_checked_sub left right
  | CheckedMultiply => i64_checked_mul left right
  | CheckedDivide => i64_checked_div left right
  | CheckedRemainder => if right =? -1 then Some 0 else i64_checked_rem left right
  | CheckedNegate => i64_checked_neg left
  end.

(** [Some] is charged, [None] is free. *)
Definition charged_option (v : option Value) : M Value :=
  match v with
  | Some x => do! charge_size (enum_size 1) in ret (option_some x)
  | None => ret option_none
  end.

Definition checked_int_call (registers : Registers) (operation : CheckedIntOperation)
    (arguments : list Register) : M Value :=
  let! value :=
    match operation, arguments with
    | CheckedNegate, [value] =>
      let! z := lift (read_int registers value) in ret (checked_int_value CheckedNegate z 0)
    | CheckedNegate, _ => throw (Invariant_ "int.checked_neg arity is invalid")
    | _, [a; b] =>
      let! l := lift (read_int registers a) in
      let! r := lift (read_int registers b) in
      ret (checked_int_value operation l r)
    | _, _ => throw (Invariant_ "checked integer operation arity is invalid")
    end in
  charged_option (VInt <$> value).

(** ** Indexing *)

(** [usize::try_from(i64)] *)
Definition usize_of (z : Z) : option nat := if z <? 0 then None else Some (Z.to_nat z).

Definition sequence_index (values : list Value) (index : Z) : result VmError Value :=
  ok_or (i ← usize_of index; values !! i) IndexOutOfBounds.

Definition map_find (entries : list (Value * Value)) (key : Value) : option Value :=
  snd <$> List.find (λ e, language_equal e.1 key) entries.

Definition index_get (collection index : Value) : result VmError Value :=
  match collection, index with
  | VList values, VInt i => sequence_index values i
  | VBytes values, VInt i => ok_or (n ← usize_of i; VInt <$> values !! n) IndexOutOfBounds
  | VMap entries, key => ok_or (map_find entries key) MapKeyNotFound
  | _, _ => Err (Invariant_ "index instruction contains unsupported values")
  end.

Definition collection_length (collection : Value) : result VmError Z :=
  let fits n := if Z.of_nat n <=? i64_max then Ok (Z.of_nat n)
                else Err (Invariant_ "collection length exceeds Int") in
  match collection with
  | VBytes values => fits (length values)
  | VString value => fits (length (chars value))
  | VList values => fits (length values)
  | VMap entries => fits (length entries)
  | _ => Err (Invariant_ "length instruction contains unsupported value")
  end.

(** ** Strings by scalar index *)

(** [value.char_indices()]: the byte offset and byte length of every scalar. *)
Fixpoint char_offsets (offset : nat) (scalars : list (option Z * nat)) : list (nat * nat) :=
  match scalars with
  | [] => []
  | (_, width) :: rest => (offset, width) :: char_offsets (offset + width) rest
  end.
Definition char_indices (value : string) : list (nat * nat) :=
  char_offsets 0 (utf8_scan (bytes value)).

Definition scalar_byte_index (value : string) (index : nat) : option nat :=
  (map fst (char_indices value) ++ [String.length value])%list !! index.

(** [&value[start..end]] *)
Definition str_range (value : string) (start end_ : nat) : string :=
  string_of_bytes (take (end_ - start) (drop start (bytes value))).

Definition allocate_string (value : string) : M Value :=
  do! charge_size (logical_size 8 (String.length value) 1) in ret (VString value).

Definition allocated_some_string (value : string) : M Value :=
  let! e := lift (enum_size 1) in
  let! s := lift (string_size value) in
  let! allocation := lift (checked_allocation_add e s) in
  do! charge allocation in ret (option_some (VString value)).

Definition string_get (value : string) (index : Z) : M Value :=
  match (i ← usize_of index; char_indices value !! i) with
  | None => ret option_none
  | Some (start, width) => allocated_some_string (str_range value start (start + width))
  end.

Definition string_slice (value : string) (start end_ : Z) : M Value :=
  match usize_of start, usize_of end_ with
  | Some start, Some end_ =>
    if bool_decide (end_ < start)%nat then ret option_none
    else
      match scalar_byte_index value start, scalar_byte_index value end_ with
      | Some s, Some e => allocated_some_string (str_range value s e)
      | _, _ => ret option_none
      end
  | _, _ => ret option_none
  end.

Definition slice_get (collection : Value) (start end_ : Z) : M Value :=
  match usize_of start, usize_of end_ with
  | Some start, Some end_ =>
    if bool_decide (end_ < start)%nat then ret option_none
    else
      match collection with
      | VList values =>
        if bool_decide (length values < end_)%nat then ret option_none
        else
          do! charge_size (enum_size 1) in
          do! charge_size (collection_size (end_ - start) VALUE_SLOT_BYTES) in
          ret (option_some (VList (take (end_ - start) (drop start values))))
      | VBytes values =>
        if bool_decide (length values < end_)%nat then ret option_none
        else
          do! charge_size (enum_size 1) in
          do! charge_size (collection_size (end_ - start) 1) in
          ret (option_some (VBytes (take (end_ - start) (drop start values))))
      | VString value =>
        match scalar_byte_index value start, scalar_byte_index value end_ with
        | Some s, Some e => allocated_some_string (str_range value s e)
        | _, _ => ret option_none
        end
      | _ => throw (Invariant_ "slice source is not List, Bytes, or String")
      end
  | _, _ => ret option_none
  end.

(** ** Lists and maps *)

Definition list_append (registers : Registers) (values value : Register) : M Value :=
  let! v := lift (read_register registers values) in
  match v with
  | VList input =>
    do! charge_size (collection_size (S (length input)) VALUE_SLOT_BYTES) in
    let! appended := lift (read_register registers value) in
    ret (VList (input ++ [appended]))
  | _ => throw (Invariant_ "list append operand contains another type")
  end.

Definition list_set (registers : Registers) (values index value : Register) : M Value :=
  let! v := lift (read_register registers values) in
  match v with
  | VList input =>
    let! z := lift (read_int registers index) in
    match usize_of z with
    | Some i =>
      if bool_decide (i < length input)%nat then
        do! charge_size (collection_size (length input) VALUE_SLOT_BYTES) in
        let! replacement := lift (read_register registers value) in
        ret (VList (<[i := replacement]> input))
      else throw IndexOutOfBounds
    | None => throw IndexOutOfBounds
    end
  | _ => throw (Invariant_ "list set operand contains another type")
  end.

Definition map_entry_at (registers : Registers) (map_ index : Register) : M Value :=
  let! v := lift (read_register registers map_) in
  match v with
  | VMap entries =>
    let! z := lift (read_int registers index) in
    match (i ← usize_of z; entries !! i) with
    | Some (key, value) =>
      do! charge_size (collection_size 2 VALUE_SLOT_BYTES) in ret (VTuple [key; value])
    | None => throw IndexOutOfBounds
    end
  | _ => throw (Invariant_ "map entry access operand contains another type")
  end.

(** [map_literal_insert]: replace the first equal key in place, or append. *)
Fixpoint map_literal_insert (entries : list (Value * Value)) (key value : Value)
    : list (Value * Value) :=
  match entries with
  | [] => [(key, value)]
  | (k, v) :: entries' =>
    if language_equal k key then (key, value) :: entries'
    else (k, v) :: map_literal_insert entries' key value
  end.

(** [slice::sort_by], which is stable: an element goes after those that are not
    greater. *)
Fixpoint insert_by {A} (cmp : A → A → comparison) (x : A) (l : list A) : list A :=
  match l with
  | [] => [x]
  | y :: l' => if is_gt (cmp y x) then x :: y :: l' else y :: insert_by cmp x l'
  end.
Definition sort_by {A} (cmp : A → A → comparison) (l : list A) : list A :=
  fold_left (λ acc x, insert_by cmp x acc) l [].

Definition entry_compare (p q : Value * Value) : comparison := compare_map_keys p.1 q.1.

Definition map_without (entries : list (Value * Value)) (key : Value) : list (Value * Value) :=
  List.filter (λ e, negb (language_equal e.1 key)) entries.

Definition map_with (entries : list (Value * Value)) (key value : Value) : list (Value * Value) :=
  sort_by entry_compare (map_without entries key ++ [(key, value)]).

(** [previous.map_or_else(option_none, option_some)] *)
Definition option_value (v : option Value) : Value :=
  match v with Some x => option_some x | None => option_none end.

(** The allocation of a map result with its record and its option. *)
Definition map_result_size (entries : nat) : result VmError Z :=
  let? a := collection_size entries MAP_ENTRY_BYTES in
  let? e := enum_size 1 in
  let? r := collection_size 2 MAP_ENTRY_BYTES in
  let? b := checked_allocation_add e r in
  checked_allocation_add a b.

Definition safe_map_insert (registers : Registers) (arguments : list Register) : M Value :=
  match arguments with
  | [map_; key; replacement] =>
    let! m := lift (read_register registers map_) in
    match m with
    | VMap entries =>
      let! key := lift (read_register registers key) in
      let! replacement := lift (read_register registers replacement) in
      let previous := map_find entries key in
      do! charge_size (map_result_size (S (length entries))) in
      ret (VRecord [("previous", option_value previous);
                    ("values", VMap (map_with entries key replacement))])
    | _ => throw (Invariant_ "map.insert operand is not Map")
    end
  | _ => throw (Invariant_ "map.insert arity is invalid")
  end.

Definition safe_map_remove (registers : Registers) (arguments : list Register) : M Value :=
  match arguments with
  | [map_; key] =>
    let! m := lift (read_register registers map_) in
    match m with
    | VMap entries =>
      let! key := lift (read_register registers key) in
      let removed := map_find entries key in
      do! charge_size (map_result_size (length entries)) in
      ret (VRecord [("removed", option_value removed);
                    ("values", VMap (map_without entries key))])
    | _ => throw (Invariant_ "map.remove operand is not Map")
    end
  | _ => throw (Invariant_ "map.remove arity is invalid")
  end.

Definition safe_collection_call (registers : Registers) (operation : SafeCollectionOperation)
    (arguments : list Register) : M Value :=
  match operation with
  | ListGet =>
    match arguments with
    | [values; index] =>
      let! v := lift (read_register registers values) in
      match v with
      | VList values =>
        let! z := lift (read_int registers index) in
        charged_option (i ← usize_of z; values !! i)
      | _ => throw (Invariant_ "list.get operand is not List")
      end
    | _ => throw (Invariant_ "list.get arity is invalid")
    end
  | BytesGet =>
    match arguments with
    | [values; index] =>
      let! v := lift (read_register registers values) in
      match v with
      | VBytes values =>
        let! z := lift (read_int registers index) in
        charged_option (i ← usize_of z; VInt <$> values !! i)
      | _ => throw (Invariant_ "bytes.get operand is not Bytes")
      end
    | _ => throw (Invariant_ "bytes.get arity is invalid")
    end
  | MapGet =>
    match arguments with
    | [values; key] =>
      let! v := lift (read_register registers values) in
      match v with
      | VMap entries =>
        let! key := lift (read_register registers key) in charged_option (map_find entries key)
      | _ => throw (Invariant_ "map.get operand is not Map")
      end
    | _ => throw (Invariant_ "map.get arity is invalid")
    end
  | MapInsert => safe_map_insert registers arguments
  | MapRemove => safe_map_remove registers arguments
  | MapKeys =>
    match arguments with
    | [map_] =>
      let! m := lift (read_register registers map_) in
      match m with
      | VMap entries =>
        do! charge_size (collection_size (length entries) VALUE_SLOT_BYTES) in
        ret (VList (map fst entries))
      | _ => throw (Invariant_ "map.keys operand is not Map")
      end
    | _ => throw (Invariant_ "map.keys arity is invalid")
    end
  | ListTrySet =>
    match arguments with
    | [values; index; replacement] =>
      let! v := lift (read_register registers values) in
      match v with
      | VList values =>
        let! z := lift (read_int registers index) in
        match usize_of z with
        | Some i =>
          if bool_decide (i < length values)%nat then
            let! a := lift (collection_size (length values) VALUE_SLOT_BYTES) in
            let! e := lift (enum_size 1) in
            do! charge_size (checked_allocation_add a e) in
            let! replacement := lift (read_register registers replacement) in
            ret (option_some (VList (<[i := replacement]> values)))
          else ret option_none
        | None => ret option_none
        end
      | _ => throw (Invariant_ "list.try_set operand is not List")
      end
    | _ => throw (Invariant_ "list.try_set arity is invalid")
    end
  end.

(** ** Floating-point addition *)

(** [f64::from_bits] and [f64::to_bits], a NaN being returned in canonical form. *)
Definition sf_of_bits (bits : Z) : spec_float :=
  let s := Z.testbit bits 63 in
  let e := Z.land (Z.shiftr bits 52) 2047 in
  let f := Z.land bits FRACTION_MASK in
  if e =? 2047 then (if f =? 0 then S754_infinity s else S754_nan)
  else if e =? 0 then
    match f with Zpos m => S754_finite s m (-1074) | _ => S754_zero s end
  else match f + 2 ^ 52 with Zpos m => S754_finite s m (e - 1075) | _ => S754_nan end.

Definition bits_of_sf (x : spec_float) : Z :=
  let sign (s : bool) := if s then 2 ^ 63 else 0 in
  match x with
  | S754_zero s => sign s
  | S754_infinity s => sign s + EXPONENT_MASK
  | S754_nan => CANONICAL_NAN_BITS
  | S754_finite s m e =>
    sign s + (if Zpos m <? 2 ^ 52 then Zpos m
              else Z.shiftl (e + 1075) 52 + (Zpos m - 2 ^ 52))
  end.

Definition f64_add (a b : Z) : Z := bits_of_sf (SFadd 53 1024 (sf_of_bits a) (sf_of_bits b)).

(** ** Collection calls *)

Definition read_list (registers : Registers) (message : string) (r : Register)
    : result VmError (list Value) :=
  let? v := read_register registers r in
  match v with VList l => Ok l | _ => Err (Invariant_ message) end.

(** Row [index] of the lists, which have at least that length. *)
Definition zip_row (lists : list (list Value)) (index : nat) : Value :=
  VTuple (omap (λ l, l !! index) lists).

Definition zip_size (length_ lists : nat) : result VmError Z :=
  let? outer := collection_size length_ VALUE_SLOT_BYTES in
  let? slots := ok_or (u64_checked_mul (Z.of_nat length_) (Z.of_nat lists)) allocation_error in
  let? inner := collection_size (Z.to_nat slots) VALUE_SLOT_BYTES in
  ok_or (u64_checked_add outer inner) allocation_error.

Definition collection_zip (registers : Registers) (arguments : list Register) : M Value :=
  if negb (Nat.leb 2 (length arguments) && Nat.leb (length arguments) 8)
  then throw (Invariant_ "list.zip arity is invalid")
  else
    let! lists := lift (collect (read_list registers "list.zip operand is not List") arguments) in
    let n := match lists with l :: _ => length l | [] => 0%nat end in
    if existsb (λ l, negb (Nat.eqb (length l) n)) lists then throw ListLengthMismatch
    else
      do! charge_size (zip_size n (length lists)) in
      ret (VList (map (zip_row lists) (seq 0 n))).

Definition is_nan_value (v : Value) : bool :=
  match v with VFloat bits => is_nan_bits bits | _ => false end.

Fixpoint extremum_loop (is_min : bool) (best : Value) (values : list Value)
    : result VmError Value :=
  match values with
  | [] => Ok best
  | v :: values' =>
    if is_nan_value best || is_nan_value v
    then Ok (VFloat (canonical_float_bits CANONICAL_NAN_BITS))
    else
      let? o := language_order v best in
      let? order := ok_or o (Invariant_ "list extremum values are not ordered") in
      extremum_loop is_min
        (if (is_min && is_lt order) || (negb is_min && is_gt order) then v else best) values'
  end.

Definition collection_extremum (registers : Registers) (is_min : bool) (arguments : list Register)
    : M Value :=
  match arguments with
  | [values] =>
    let! values := lift (read_list registers "list extremum operand is not List" values) in
    match values with
    | [] => ret option_none
    | first :: rest =>
      let! best := lift (extremum_loop is_min first rest) in
      do! charge_size (enum_size 1) in ret (option_some best)
    end
  | _ => throw (Invariant_ "list extremum arity is invalid")
  end.

(** The loop of [ListSumInt]: [Ok None] is the overflow answer. *)
Fixpoint sum_ints (sum : Z) (values : list Value) : result VmError (option Z) :=
  match values with
  | [] => Ok (Some sum)
  | VInt z :: values' =>
    match i64_checked_add sum z with
    | Some next => sum_ints next values'
    | None => Ok None
    end
  | _ :: _ => Err (Invariant_ "integer list sum received non-Int")
  end.

Fixpoint sum_floats (sum : Z) (values : list Value) : result VmError Z :=
  match values with
  | [] => Ok sum
  | VFloat bits :: values' => sum_floats (f64_add sum bits) values'
  | _ :: _ => Err (Invariant_ "float list sum received non-Float")
  end.

Definition collection_call (registers : Registers) (operation : CollectionOperation)
    (arguments : list Register) : M Value :=
  match operation with
  | Zip => collection_zip registers arguments
  | ListMin => collection_extremum registers true arguments
  | ListMax => collection_extremum registers false arguments
  | ListSumInt =>
    match arguments with
    | [values] =>
      let! values := lift (read_list registers "list sum operand is not List" values) in
      let! sum := lift (sum_ints 0 values) in
      charged_option (VInt <$> sum)
    | _ => throw (Invariant_ "list sum arity is invalid")
    end
  | ListSumFloat =>
    match arguments with
    | [values] =>
      let! values := lift (read_list registers "list sum operand is not List" values) in
      let! sum := lift (sum_floats 0 values) in
      ret (VFloat (canonical_float_bits (canonical_float_bits sum)))
    | _ => throw (Invariant_ "list sum arity is invalid")
    end
  end.

(** ** Strings *)

(** [value.split(separator)] for a non-empty separator. *)
Fixpoint split_aux (fuel : nat) (separator value : string) : list string :=
  match fuel with
  | O => [value]
  | S fuel' =>
    match split_once separator value with
    | None => [value]
    | Some (before, after) => before :: split_aux fuel' separator after
    end
  end.
Definition split_str (separator value : string) : list string :=
  split_aux (S (String.length value)) separator value.

Fixpoint join_str (separator : string) (parts : list string) : string :=
  match parts with
  | [] => ""
  | [p] => p
  | p :: rest => p ++ separator ++ join_str separator rest
  end%string.

Definition string_find (value needle : string) : M Value :=
  match split_once needle value with
  | None => ret option_none
  | Some (before, _) =>
    let n := Z.of_nat (length (chars before)) in
    if i64_max <? n then throw (Invariant_ "String scalar index exceeds Int")
    else do! charge_size (enum_size 1) in ret (option_some (VInt n))
  end.

(** The fields' sizes, added in order. *)
Definition fields_size (base : result VmError Z) (fields : list string) : result VmError Z :=
  let? b := base in
  try_fold (λ total field, let? s := string_size field in checked_allocation_add total s) b fields.

Definition string_split (value separator : string) : M Value :=
  if String.eqb separator "" then ret option_none
  else
    let fields := split_str separator value in
    let! allocation := lift (fields_size (enum_size 1) fields) in
    let! slots := lift (collection_size (length fields) VALUE_SLOT_BYTES) in
    do! charge_size (checked_allocation_add allocation slots) in
    ret (option_some (VList (map VString fields))).

(** The byte lengths of the strings of a list, checked for [usize]. *)
Fixpoint join_bytes (total : Z) (values : list Value) : result VmError Z :=
  match values with
  | [] => Ok total
  | VString s :: values' =>
    let? next := ok_or (u64_checked_add total (str_len s)) allocation_error in
    join_bytes next values'
  | _ :: _ => Err (Invariant_ "String join list element is not String")
  end.

Definition string_texts (values : list Value) : list string :=
  omap (λ v, match v with VString s => Some s | _ => None end) values.

Definition string_join (values : list Value) (separator : string) : M Value :=
  let! bytes_ := lift (join_bytes 0 values) in
  let! separator_bytes := lift (ok_or
    (u64_checked_mul (str_len separator) (Z.of_nat (length values - 1))) allocation_error) in
  let! bytes_ := lift (ok_or (u64_checked_add bytes_ separator_bytes) allocation_error) in
  do! charge_size (string_size_bytes (Z.to_nat bytes_)) in
  ret (VString (join_str separator (string_texts values))).

Definition concatenate_string_registers (registers : Registers) (arguments : list Register)
    : M Value :=
  let! bytes_ := lift (try_fold (λ total r,
    let? s := read_string registers r in
    ok_or (u64_checked_add total (str_len s)) allocation_error) 0 arguments) in
  do! charge_size (string_size_bytes (Z.to_nat bytes_)) in
  let! texts := lift (collect (read_string registers) arguments) in
  ret (VString (String.concat "" texts)).

Definition is_ascii_trim_char (b : Z) : bool :=
  (b =? 32) || (b =? 9) || (b =? 10) || (b =? 13) || (b =? 12) || (b =? 11).

Fixpoint drop_while (f : Z → bool) (l : list Z) : list Z :=
  match l with [] => [] | x :: l' => if f x then drop_while f l' else l end.

(** [trim_matches(is_ascii_trim_char)]: the trimmed scalars are single bytes. *)
Definition trim_ascii (value : string) : string :=
  string_of_bytes (rev (drop_while is_ascii_trim_char
                          (rev (drop_while is_ascii_trim_char (bytes value))))).

Definition string_replace (value needle replacement : string) : M Value :=
  if String.eqb needle "" then allocate_string value
  else
    let matches_ := Z.of_nat (length (split_str needle value) - 1) in
    let! removed := lift (ok_or (u64_checked_mul (str_len needle) matches_) allocation_error) in
    let! added := lift (ok_or (u64_checked_mul (str_len replacement) matches_) allocation_error) in
    let! length_ := lift (ok_or
      (kept ← (if str_len value <? removed then None else Some (str_len value - removed));
       u64_checked_add kept added) allocation_error) in
    do! charge_size (string_size_bytes (Z.to_nat length_)) in
    ret (VString (join_str replacement (split_str needle value))).

Definition arity_error {A} (message : string) : M A := throw (Invariant_ message).

Definition string_call (registers : Registers) (operation : StringOperation)
    (arguments : list Register) : M Value :=
  let str r := lift (read_string registers r) in
  let int r := lift (read_int registers r) in
  match operation, arguments with
  | ByteLength, [value] =>
    let! s := str value in
    if str_len s <=? i64_max then ret (VInt (str_len s))
    else throw (Invariant_ "String byte length exceeds Int")
  | ByteLength, _ => arity_error "String byte_length arity is invalid"
  | Concat, [_; _] => concatenate_string_registers registers arguments
  | Concat, _ => arity_error "String concat arity is invalid"
  | StrGet, [value; index] =>
    let! s := str value in let! i := int index in string_get s i
  | StrGet, _ => arity_error "String get arity is invalid"
  | StrSlice, [value; start; end_] =>
    let! s := str value in let! a := int start in let! b := int end_ in string_slice s a b
  | StrSlice, _ => arity_error "String slice arity is invalid"
  | StrFind, [value; needle] =>
    let! s := str value in let! n := str needle in string_find s n
  | StrFind, _ => arity_error "String find arity is invalid"
  | Contains, [value; needle] =>
    let! s := str value in let! n := str needle in ret (VBool (str_contains n s))
  | Contains, _ => arity_error "String contains arity is invalid"
  | StartsWith, [value; prefix] =>
    let! s := str value in let! p := str prefix in ret (VBool (starts_with p s))
  | StartsWith, _ => arity_error "String starts_with arity is invalid"
  | EndsWith, [value; suffix] =>
    let! s := str value in let! p := str suffix in ret (VBool (ends_with p s))
  | EndsWith, _ => arity_error "String ends_with arity is invalid"
  | Split, [value; separator] =>
    let! s := str value in let! p := str separator in string_split s p
  | Split, _ => arity_error "String split arity is invalid"
  | Join, [values; separator] =>
    let! l := lift (read_string_list registers values) in
    let! p := str separator in string_join l p
  | Join, _ => arity_error "String join arity is invalid"
  | TrimAscii, [value] => let! s := str value in allocate_string (trim_ascii s)
  | TrimAscii, _ => arity_error "String trim_ascii arity is invalid"
  | FromUtf8, [value] =>
    let! v := lift (read_register registers value) in
    match v with
    | VBytes b =>
      if utf8_valid b then allocated_some_string (string_of_bytes b) else ret option_none
    | _ => throw (Invariant_ "String from_utf8 operand is not Bytes")
    end
  | FromUtf8, _ => arity_error "String from_utf8 arity is invalid"
  | Replace, [value; needle; replacement] =>
    let! s := str value in let! n := str needle in let! r := str replacement in
    string_replace s n r
  | Replace, _ => arity_error "String replace arity is invalid"
  | TemplateConcat, [] => arity_error "template concatenation has no String segments"
  | TemplateConcat, _ => concatenate_string_registers registers arguments
  end.

(** ** Standard results *)

Definition standard_result_ok (value : Value) : M Value :=
  do! charge_size (enum_size 1) in ret (builtin_enum ResultId 0 (PTuple [value])).

Definition error_record (code message : string) : Value :=
  VRecord [("code", VString code); ("message", VString message)].

Definition standard_result_error (code message : string) : M Value :=
  let! e := lift (enum_size 1) in
  let! r := lift (record_size 2) in
  let! er := lift (checked_allocation_add e r) in
  let! c := lift (string_size code) in
  let! m := lift (string_size message) in
  let! cm := lift (checked_allocation_add c m) in
  let! allocation := lift (checked_allocation_add er cm) in
  do! charge allocation in ret (builtin_enum ResultId 1 (PTuple [error_record code message])).

Definition standard_to_int (registers : Registers) (arguments : list Register) : M Value :=
  match arguments with
  | [text] =>
    let! s := lift (read_string registers text) in
    match parse_int s with
    | Ok value => standard_result_ok (VInt value)
    | Err IntInvalid =>
      standard_result_error "parse.invalid_int" "expected a canonical base-10 Int"
    | Err IntOverflow =>
      standard_result_error "parse.int_overflow" "integer text is outside the Int range"
    end
  | _ => arity_error "to_int arity is invalid"
  end.

Definition standard_time_format_utc (registers : Registers) (arguments : list Register)
    : M Value :=
  match arguments with
  | [seconds] =>
    let! seconds := lift (read_int registers seconds) in
    if negb (in_utc_range seconds)
    then standard_result_error "time.out_of_range"
           "epoch seconds are outside the supported UTC range"
    else let! value := allocate_string (format_utc seconds) in standard_result_ok value
  | _ => arity_error "Time format_utc arity is invalid"
  end.

Definition standard_time_parse_utc (registers : Registers) (arguments : list Register) : M Value :=
  match arguments with
  | [text] =>
    let! s := lift (read_string registers text) in
    match parse_utc s with
    | Ok seconds => standard_result_ok (VInt seconds)
    | Err InvalidFormat =>
      standard_result_error "time.invalid_format"
        "expected UTC text in YYYY-MM-DDTHH:MM:SSZ format"
    | Err OutOfRange =>
      standard_result_error "time.out_of_range" "UTC text is outside the supported range"
    end
  | _ => arity_error "Time parse_utc arity is invalid"
  end.

Definition standard_time_bucket (registers : Registers) (arguments : list Register) : M Value :=
  match arguments with
  | [seconds; width] =>
    let! seconds := lift (read_int registers seconds) in
    let! width := lift (read_int registers width) in
    if negb (in_utc_range seconds)
    then standard_result_error "time.out_of_range"
           "epoch seconds are outside the supported UTC range"
    else if width <=? 0
    then standard_result_error "time.invalid_bucket" "bucket width must be positive"
    else
      let! bucket := lift (ok_or (time_bucket seconds width)
                             (Invariant_ "Time bucket result does not fit Int")) in
      standard_result_ok (VInt bucket)
  | _ => arity_error "Time bucket arity is invalid"
  end.

(** ** Capabilities *)

Definition is_manifest_grantable_capability (name : string) : bool :=
  existsb (String.eqb name)
    ["fs.read"; "fs.write"; "net.http_get"; "permission.request_external_fs"; "exec.run"].

(** [ExecutionCapabilities]: a [BTreeSet], so its iteration is in byte order. *)
Definition ExecutionCapabilities_new (grants : list string) : list string :=
  sort_by str_compare
    (remove_dups (List.filter is_manifest_grantable_capability grants)).

Definition capability_inspect (registers : Registers) (operation : CapabilityOperation)
    (arguments : list Register) (capabilities : list string) : M Value :=
  match operation, arguments with
  | IsGranted, [name] =>
    let! n := lift (read_string registers name) in
    ret (VBool (existsb (String.eqb n) capabilities))
  | IsGranted, _ => arity_error "capability is_granted arity is invalid"
  | Granted, [] =>
    let! allocation := lift (fields_size (collection_size (length capabilities) VALUE_SLOT_BYTES)
                               capabilities) in
    do! charge allocation in ret (VList (map VString capabilities))
  | Granted, _ => arity_error "capability granted arity is invalid"
  end.

(** ** Constants, records and enums *)

Definition materialize_constant (constant : Constant) : M Value :=
  match constant with
  | CInt value => ret (VInt value)
  | CBool value => ret (VBool value)
  | CFloat bits => ret (VFloat (FloatValue_from_canonical_bits bits))
  | CString value =>
    do! charge_size (logical_size 8 (String.length value) 1) in ret (VString value)
  | CBytes value => do! charge_size (logical_size 8 (length value) 1) in ret (VBytes value)
  | CExternalFsAccess value => ret (VExternalFsAccess value)
  | CUnit => ret VUnit
  end.

(** The loop over the layout of [construct_record]. *)
Fixpoint record_values (registers : Registers) (index : nat) (layout : list RecordField)
    (fields : list (nat * Register)) : result VmError (list (string * Value)) :=
  match layout, fields with
  | [], _ => Ok []
  | _ :: _, [] => Err (Invariant_ "record field is missing")
  | field :: layout', (field_index, source) :: fields' =>
    if negb (Nat.eqb field_index index)
    then Err (Invariant_ "record fields are not in canonical order")
    else
      let? v := read_register registers source in
      let? rest := record_values registers (S index) layout' fields' in
      Ok ((field.1, v) :: rest)
  end.

Definition construct_record (registers : Registers) (layout : list RecordField)
    (fields : list (nat * Register)) : result VmError (list (string * Value)) :=
  if negb (Nat.eqb (length fields) (length layout))
  then Err (Invariant_ "record has the wrong field count")
  else record_values registers 0 layout fields.

Definition construct_payload (payload_type : EnumPayloadType) (registers : Registers)
    (sources : list Register) : result VmError (EnumPayload Value) :=
  match payload_type with
  | PTUnit =>
    match sources with [] => Ok PUnit | _ => Err (Invariant_ "unit variant has a payload") end
  | PTTuple types =>
    if negb (Nat.eqb (length sources) (length types))
    then Err (Invariant_ "tuple variant has the wrong payload count")
    else let? values := clone_registers registers sources in Ok (PTuple values)
  | PTRecord fields =>
    if negb (Nat.eqb (length sources) (length fields))
    then Err (Invariant_ "record variant has the wrong payload count")
    else
      let? values := collect (λ p : RecordField * Register,
        let? v := read_register registers p.2 in Ok (p.1.1, v)) (combine fields sources) in
      Ok (PRecord values)
  end.

Definition construct_enum (module : Module_) (t : ValueType) (variant : nat)
    (registers : Registers) (sources : list Register) : result VmError Value :=
  let builtin ident payload_type :=
    let? payload := construct_payload payload_type registers sources in
    Ok (builtin_enum ident variant payload) in
  match t with
  | TEnum id =>
    let? enum_type := ok_or (enum_types module !! id) (Invariant_ "enum type is missing") in
    let? v := ok_or (et_variants enum_type !! variant) (Invariant_ "enum variant is missing") in
    let? payload := construct_payload (ev_payload v) registers sources in
    Ok (VEnum (User id) (et_name enum_type) variant (ev_name v) payload)
  | TOption element =>
    match variant with
    | 0%nat => builtin OptionId PTUnit
    | 1%nat => builtin OptionId (PTTuple [element])
    | _ => Err (Invariant_ "Option variant is missing")
    end
  | TResult ok error =>
    match variant with
    | 0%nat => builtin ResultId (PTTuple [ok])
    | 1%nat => builtin ResultId (PTTuple [error])
    | _ => Err (Invariant_ "Result variant is missing")
    end
  | _ => Err (Invariant_ "enum destination contains another type")
  end.

(** The writes before a failing one stay: the registers are returned too. *)
Fixpoint write_bindings (registers : Registers) (bindings : list (Value * Register))
    : result VmError unit * Registers :=
  match bindings with
  | [] => (Ok tt, registers)
  | (v, r) :: rest =>
    match write_register registers r v with
    | Ok registers => write_bindings registers rest
    | Err e => (Err e, registers)
    end
  end.

Definition write_switch_bindings (registers : Registers) (payload : EnumPayload Value)
    (bindings : list Register) : result VmError unit * Registers :=
  let values := match payload with
                | PUnit => [] | PTuple values => values | PRecord fields => map snd fields end in
  if negb (Nat.eqb (length values) (length bindings))
  then
    (Err (Invariant_ match payload with
                     | PRecord _ => "record switch binding count is invalid"
                     | _ => "enum switch binding count is invalid"
                     end), registers)
  else write_bindings registers (combine values bindings).

(** ** Lemmas: integers *)

Lemma int_divide_ok l r :
  in_i64 l = true → r ≠ 0 → ¬ (l = i64_min ∧ r = -1) → int_binary Divide l r = Ok (Z.quot l r).
Proof.
  intros Hl Hr Hov. unfold int_binary, i64_checked_div, checked.
  destruct (r =? 0) eqn:E; boolify; [done|]. by rewrite i64_quot_range.
Qed.

Lemma int_remainder_ok l r : r ≠ 0 → int_remainder l r = Ok (Z.rem l r).
Proof.
  intros Hr. unfold int_remainder, i64_checked_rem. destruct (r =? 0) eqn:E; boolify; [done|].
  destruct (_ && _) eqn:Ho; boolify; [by subst|]. done.
Qed.

(** ** Lemmas: maps *)

(** The entries of a map whose keys have the key type [t]: typed keys in strictly
    increasing order. *)
Definition keys_typed (t : ValueType) (m : list (Value * Value)) : Prop :=
  Forall (λ e, key_of_type t e.1 = true) m.
Definition entry_lt (p q : Value * Value) : Prop := entry_compare p q = Lt.
Definition map_ok (t : ValueType) (m : list (Value * Value)) : Prop :=
  keys_typed t m ∧ StronglySorted entry_lt m.

Lemma windows2_any_cons {A} (r : A → A → bool) x y l :
  windows2_any r (x :: y :: l) = r x y || windows2_any r (y :: l).
Proof. done. Qed.

Lemma unsorted_entries_spec t m :
  keys_typed t m → unsorted_entries m = false ↔ StronglySorted entry_lt m.
Proof.
  unfold unsorted_entries. induction 1 as [|p m Hp Hm IH]; [split; [constructor|done]|].
  destruct m as [|q m]; [split; [repeat constructor|done]|].
  apply Forall_cons in Hm as [Hq Hm]. cbn [windows2_any]. rewrite orb_false_iff, IH. split.
  - intros [Hlt Hs]. boolify. apply StronglySorted_inv in Hs as [Hs Hall].
    assert (entry_lt p q) as Hpq.
    { unfold entry_lt, entry_compare. by destruct (compare_map_keys p.1 q.1). }
    constructor; [by constructor|]. constructor; [done|].
    rewrite Forall_forall in *. intros x Hx.
    apply (compare_map_keys_trans t _ q.1); auto. by apply Hall.
  - intros [Hs Hall]%StronglySorted_inv. split; [|done].
    apply Forall_cons in Hall as [Hpq _]. unfold entry_lt, entry_compare in Hpq. by rewrite Hpq.
Qed.

Lemma insert_by_last {A} (cmp : A → A → comparison) x l :
  Forall (λ y, cmp y x = Lt) l → insert_by cmp x l = (l ++ [x])%list.
Proof. induction 1 as [|y l Hy _ IH]; simpl; [done|]. by rewrite Hy, IH. Qed.

Lemma sort_by_sorted {A} (cmp : A → A → comparison) l x :
  StronglySorted (λ y z, cmp y z = Lt) l →
  sort_by cmp (l ++ [x]) = insert_by cmp x l.
Proof.
  intros Hs. unfold sort_by. rewrite fold_left_app. simpl. f_equal.
  assert (∀ acc l, StronglySorted (λ y z, cmp y z = Lt) (acc ++ l) →
            fold_left (λ acc x, insert_by cmp x acc) l acc = acc ++ l)%list as Hg.
  { clear. intros acc l. revert acc. induction l as [|x l IH]; intros acc Hs; simpl.
    - by rewrite app_nil_r.
    - rewrite insert_by_last; [rewrite IH, <- app_assoc; [done|by rewrite <- app_assoc]|].
      apply Forall_forall. intros y Hy. apply StronglySorted_app in Hs as (Hc & _ & _).
      apply Hc; [done|constructor]. }
  apply (Hg []). done.
Qed.

Lemma insert_by_perm {A} (cmp : A → A → comparison) x l : insert_by cmp x l ≡ₚ x :: l.
Proof.
  induction l as [|y l IH]; simpl; [done|]. destruct (is_gt _); [done|]. rewrite IH. constructor.
Qed.

Lemma sort_by_perm {A} (cmp : A → A → comparison) l : sort_by cmp l ≡ₚ l.
Proof.
  unfold sort_by.
  assert (∀ acc, fold_left (λ acc x, insert_by cmp x acc) l acc ≡ₚ l ++ acc) as Hg;
    [|by rewrite Hg, app_nil_r].
  induction l as [|x l IH]; intros acc; simpl; [done|].
  rewrite IH, insert_by_perm. by rewrite Permutation_middle.
Qed.

(** No element of the result is greater than its successor. *)
Lemma insert_by_sorted {A} (cmp : A → A → comparison) x l :
  (∀ y z, cmp z y = CompOpp (cmp y z)) →
  Sorted (λ y z, cmp y z ≠ Gt) l → Sorted (λ y z, cmp y z ≠ Gt) (insert_by cmp x l).
Proof.
  intros Hanti. induction 1 as [|y l Hs IH Hd]; simpl; [by repeat constructor|].
  destruct (cmp y x) eqn:E; simpl.
  1,2: constructor; [done|]; destruct l as [|z l]; simpl; [constructor; congruence|];
    inversion Hd; subst; destruct (is_gt (cmp z x)); constructor; [congruence|done].
  constructor; [by constructor|]. constructor. rewrite Hanti, E. done.
Qed.

Lemma sort_by_sorted_weak {A} (cmp : A → A → comparison) l :
  (∀ y z, cmp z y = CompOpp (cmp y z)) → Sorted (λ y z, cmp y z ≠ Gt) (sort_by cmp l).
Proof.
  intros Hanti. unfold sort_by.
  assert (∀ acc, Sorted (λ y z, cmp y z ≠ Gt) acc →
            Sorted (λ y z, cmp y z ≠ Gt) (fold_left (λ acc x, insert_by cmp x acc) l acc)) as Hg;
    [|apply Hg; constructor].
  induction l as [|x l IH]; intros acc Hacc; simpl; [done|]. apply IH. by apply insert_by_sorted.
Qed.

Lemma filter_sorted {A} (R : A → A → Prop) (f : A → bool) l :
  StronglySorted R l → StronglySorted R (List.filter f l).
Proof.
  induction 1 as [|x l Hs IH Hx]; simpl; [constructor|]. destruct (f x); [|done].
  constructor; [done|]. rewrite Forall_forall in *. intros y [? ?]%list_elem_of_In%filter_In.
  apply Hx. by apply list_elem_of_In.
Qed.

Section MapLemmas.
Context (t : ValueType).

(** Sorting entries with distinct neighbours gives a map. *)
Lemma sorted_distinct_ok m :
keys_typed t m → Sorted (λ y z, entry_compare y z ≠ Gt) m →
windows2_any (λ p q, language_equal p.1 q.1) m = false → map_ok t m.
Proof.
intros Ht Hs Hd. split; [done|]. apply (unsorted_entries_spec t); [done|].
unfold unsorted_entries. revert Ht Hs Hd. induction m as [|p [|q m] IH]; intros Ht Hs Hd; try done.
apply Forall_cons in Ht as [Hp Ht]. pose proof Ht as [Hq _]%Forall_cons.
apply Sorted_inv in Hs as [Hs Hh]. inversion Hh; subst.
rewrite windows2_any_cons in *. apply orb_false_iff in Hd as [Hd1 Hd2].
rewrite IH by done. rewrite orb_false_r. apply negb_false_iff.
unfold entry_compare in *. destruct (compare_map_keys p.1 q.1) eqn:E; try done.
apply (compare_map_keys_eq t) in E; [|done..].
apply (compare_map_keys_equal t) in E; [congruence|done..].
Qed.

Lemma sort_distinct_ok m :
keys_typed t m → windows2_any (λ p q, language_equal p.1 q.1) (sort_by entry_compare m) = false →
map_ok t (sort_by entry_compare m).
Proof.
intros Ht Hd. apply sorted_distinct_ok; [|apply sort_by_sorted_weak|done].
- unfold keys_typed. by rewrite sort_by_perm.
- intros y z. apply compare_map_keys_antisym.
Qed.

Lemma sort_nodup_ok m :
keys_typed t m → NoDup (map fst m) → map_ok t (sort_by entry_compare m).
Proof.
intros Ht Hn. apply sort_distinct_ok; [done|].
assert (NoDup (map fst (sort_by entry_compare m))) as Hn' by (by rewrite sort_by_perm).
assert (keys_typed t (sort_by entry_compare m)) as Ht' by (unfold keys_typed; by rewrite sort_by_perm).
clear Hn Ht. revert Hn' Ht'. generalize (sort_by entry_compare m) as l. clear m.
induction l as [|p [|q l] IH]; intros Hn Ht; try done.
apply Forall_cons in Ht as [Hp Ht]. pose proof Ht as [Hq _]%Forall_cons.
simpl in Hn. apply NoDup_cons in Hn as [Hnp Hn]. rewrite windows2_any_cons.
rewrite IH by done. rewrite orb_false_r. apply not_true_iff_false. intros E.
apply (compare_map_keys_equal t) in E; [|done..]. apply Hnp. rewrite E. constructor.
Qed.

(** Literal insertion keeps keys typed and distinct. *)
Lemma map_literal_insert_ok m key value :
key_of_type t key = true → keys_typed t m → NoDup (map fst m) →
keys_typed t (map_literal_insert m key value) ∧ NoDup (map fst (map_literal_insert m key value))
∧ ∀ e, e ∈ map_literal_insert m key value → e = (key, value) ∨ e ∈ m.
Proof.
intros Hk Ht. revert Ht. induction m as [|[k v] m IH]; intros Ht Hn; simpl.
{ split; [by repeat constructor|]. split; [apply NoDup_singleton|].
intros e ->%list_elem_of_singleton. by left. }
apply Forall_cons in Ht as [Hk' Ht]. simpl in *. apply NoDup_cons in Hn as [Hnk Hn].
destruct (language_equal k key) eqn:E.
- apply (compare_map_keys_equal t) in E as ->; [|done..]. split; [by constructor|].
split; [by constructor|]. intros e [->|He]%elem_of_cons; [by left|right; by right].
- destruct (IH Ht Hn) as (IH1 & IH2 & IH3). split; [by constructor|]. simpl. split.
+ constructor; [|done]. intros Hin. apply list_elem_of_fmap in Hin as (e & -> & He).
  destruct (IH3 e He) as [->|He'].
  * simpl in E. rewrite (proj2 (compare_map_keys_equal t key key Hk Hk) eq_refl) in E. done.
  * apply Hnk. apply list_elem_of_fmap. by exists e.
+ intros e [->|He]%elem_of_cons; [right; constructor|].
  destruct (IH3 e He) as [->|]; [by left|right; by right].
Qed.

Lemma map_without_spec m key :
map_ok t m → map_ok t (map_without m key).
Proof.
intros [Ht Hs]. split; [|by apply filter_sorted]. unfold keys_typed in *.
rewrite Forall_forall in *. intros x [? _]%list_elem_of_In%filter_In.
apply Ht. by apply list_elem_of_In.
Qed.

Lemma map_without_absent m key :
Forall (λ e, language_equal e.1 key = false) (map_without m key).
Proof.
apply Forall_forall. intros x [_ ?]%list_elem_of_In%filter_In. by boolify.
Qed.

Lemma insert_by_ok m e :
map_ok t m → key_of_type t e.1 = true → Forall (λ d, d.1 ≠ e.1) m →
map_ok t (insert_by entry_compare e m).
Proof.
intros [Ht Hs] He. revert Ht. induction Hs as [|y m Hs IH Hy]; intros Ht Hne; simpl.
{ split; repeat constructor; done. }
apply Forall_cons in Ht as [Hty Ht], Hne as [Hney Hne]. specialize (IH Ht Hne) as [IHt IHs].
pose proof (compare_map_keys_antisym y.1 e.1) as Hanti.
unfold entry_compare at 1. destruct (compare_map_keys y.1 e.1) eqn:Hc; simpl in *.
- apply (compare_map_keys_eq t) in Hc; done.
- split; [by constructor|]. constructor; [done|]. apply Forall_forall. intros x Hx.
rewrite insert_by_perm in Hx. apply elem_of_cons in Hx as [->|Hx'].
+ done.
+ rewrite Forall_forall in Hy. by apply Hy.
- split; [by repeat constructor|]. constructor; [by constructor|].
constructor; [done|]. rewrite Forall_forall in *. intros x Hx.
apply (compare_map_keys_trans t _ y.1); auto. by apply Hy.
Qed.

Lemma map_find_insert_by m e key :
key_of_type t e.1 = true → key_of_type t key = true → keys_typed t m →
Forall (λ d, d.1 ≠ e.1) m →
map_find (insert_by entry_compare e m) key
= if language_equal e.1 key then Some e.2 else map_find m key.
Proof.
intros He Hk Ht. induction Ht as [|y m Hy Ht IH]; intros Hne; unfold map_find in *; simpl.
{ by destruct (language_equal e.1 key). }
apply Forall_cons in Hne as [Hney Hne]. specialize (IH Hne).
destruct (is_gt _); simpl.
- by destruct (language_equal e.1 key).
- destruct (language_equal y.1 key) eqn:Ey; [|done].
destruct (language_equal e.1 key) eqn:Ee; [|done].
apply (compare_map_keys_equal t) in Ey, Ee; congruence.
Qed.

Lemma map_find_without m key key' :
key_of_type t key = true → key_of_type t key' = true → keys_typed t m →
map_find (map_without m key) key'
= if language_equal key key' then None else map_find m key'.
Proof.
intros Hk Hk' Ht. unfold map_find, map_without.
induction Ht as [|y m Hy Ht IH]; simpl; [by destruct (language_equal _ _)|].
destruct (language_equal y.1 key) eqn:Ey; simpl.
- apply (compare_map_keys_equal t) in Ey; [|done..]. rewrite IH, Ey.
by destruct (language_equal key key').
- destruct (language_equal y.1 key') eqn:Ey'; [|done].
apply (compare_map_keys_equal t) in Ey'; [|done..]. rewrite language_equal_sym, <- Ey', Ey.
done.
Qed.

Lemma map_without_ne m key :
key_of_type t key = true → Forall (λ d, d.1 ≠ key) (map_without m key).
Proof.
intros Hk. eapply Forall_impl; [apply map_without_absent|]. simpl. intros x Hx Heq.
rewrite Heq in Hx. by rewrite (proj2 (compare_map_keys_equal t key key Hk Hk)) in Hx.
Qed.

Lemma map_with_insert m key value :
map_ok t m → map_with m key value = insert_by entry_compare (key, value) (map_without m key).
Proof. intros Hm. apply sort_by_sorted. by apply map_without_spec. Qed.

Lemma map_with_ok m key value :
map_ok t m → key_of_type t key = true → map_ok t (map_with m key value).
Proof.
intros Hm Hk. rewrite map_with_insert by done.
apply insert_by_ok; [by apply map_without_spec|done|by apply map_without_ne].
Qed.

Lemma map_find_with m key value key' :
map_ok t m → key_of_type t key = true → key_of_type t key' = true →
map_find (map_with m key value) key'
= if language_equal key key' then Some value else map_find m key'.
Proof.
intros Hm Hk Hk'. rewrite map_with_insert by done.
pose proof (map_without_spec m key Hm) as [Ht _].
rewrite map_find_insert_by; [|done..|by apply map_without_ne]. simpl.
rewrite map_find_without by (try done; apply Hm). by destruct (language_equal key key').
Qed.
End MapLemmas.

(** ** Lemmas: splitting and joining *)

Lemma length_app_str s u : String.length (s ++ u) = (String.length s + String.length u)%nat.
Proof. by rewrite <- !length_bytes, bytes_app, length_app. Qed.

Lemma str_len_app s u : str_len (s ++ u) = str_len s + str_len u.
Proof. unfold str_len. rewrite length_app_str. lia. Qed.

Lemma str_app_assoc (s u v : string) : ((s ++ u) ++ v = s ++ (u ++ v))%string.
Proof. apply (inj bytes). by rewrite !bytes_app, app_assoc. Qed.

Lemma split_once_before p s b a :
  p ≠ "" → split_once p s = Some (b, a) → split_once p b = None.
Proof.
  intros Hp. revert b a. induction s as [|c s IH]; intros b a Hs.
  - simpl in Hs. destruct (strip_prefix p "") eqn:E; [|done]. simplify_eq.
    by destruct p.
  - pose proof (split_once_Some _ _ _ _ Hs) as Heq. simpl in Hs.
    destruct (strip_prefix p (String c s)) as [rest|] eqn:E; simplify_eq.
    { simpl. by destruct p. }
    destruct (split_once p s) as [[b' a']|] eqn:Es; [|done]. simplify_eq.
    cbn [split_once]. rewrite (IH b' a eq_refl).
    destruct (strip_prefix p (String c b')) as [rest|] eqn:Eb; [|done].
    apply strip_prefix_Some in Eb. exfalso.
    assert (strip_prefix p (String c s) = Some (rest ++ p ++ a)%string) as Hc; [|congruence].
    apply strip_prefix_Some. rewrite Heq, Eb. apply str_app_assoc.
Qed.

Lemma split_aux_nonempty fuel p s : split_aux fuel p s ≠ [].
Proof. destruct fuel; simpl; [done|]. by destruct (split_once p s) as [[]|]. Qed.

Lemma join_split_aux fuel p s : join_str p (split_aux fuel p s) = s.
Proof.
  revert s. induction fuel as [|fuel IH]; intros s; simpl; [done|].
  destruct (split_once p s) as [[b a]|] eqn:E; [|done].
  apply split_once_Some in E as ->. simpl. pose proof (split_aux_nonempty fuel p a).
  destruct (split_aux fuel p a) as [|x l] eqn:El; [done|]. by rewrite <- El, IH.
Qed.

Lemma split_aux_parts fuel p s :
  p ≠ "" → (String.length s < fuel)%nat → Forall (λ x, str_contains p x = false) (split_aux fuel p s).
Proof.
  intros Hp. revert s. induction fuel as [|fuel IH]; intros s Hf; simpl; [lia|].
  destruct (split_once p s) as [[b a]|] eqn:E.
  - constructor.
    + unfold str_contains. by rewrite (split_once_before p s b a).
    + apply IH. apply split_once_Some in E as ->. rewrite !length_app_str in Hf.
      destruct p; [done|]. simpl in Hf. lia.
  - constructor; [|constructor]. unfold str_contains. by rewrite E.
Qed.

Lemma split_aux_single fuel p s :
  str_contains p s = false → split_aux fuel p s = [s].
Proof.
  unfold str_contains. destruct fuel; simpl; [done|]. by destruct (split_once p s).
Qed.

Lemma str_len_join p l :
  str_len (join_str p l)
  = foldr (λ x n, str_len x + n) 0 l + str_len p * Z.of_nat (length l - 1).
Proof.
  induction l as [|x [|y l] IH]; [simpl; unfold str_len at 1; simpl; lia|simpl; lia|].
  change (join_str p (x :: y :: l)) with (x ++ p ++ join_str p (y :: l))%string.
  rewrite !str_len_app, IH. simpl. rewrite !Nat.sub_0_r. lia.
Qed.

(** ** Lemmas: what a computation charges *)

(** [charges m n Q]: a success of [m] satisfies [Q] and has charged [n] bytes. *)
Definition charges {A} (m : M A) (Q : A → Z → Prop) : Prop :=
  ∀ b x b', m b = (Ok x, b') →
    ∃ n, Q x n ∧ us_allocation_bytes (usage b') = us_allocation_bytes (usage b) + n.

Lemma charges_ret {A} (x : A) (Q : A → Z → Prop) : Q x 0 → charges (ret x) Q.
Proof. intros HQ b y b' [= <- <-]. exists 0. split; [done|lia]. Qed.

Lemma charges_lift {A B} (r : result VmError A) (k : A → M B) Q :
  (∀ x, r = Ok x → charges (k x) Q) → charges (bind (lift r) k) Q.
Proof. intros Hk b y b'. unfold bind, lift. destruct r; [|done]. by apply Hk. Qed.

Lemma charges_throw {A} e (Q : A → Z → Prop) : charges (throw e) Q.
Proof. intros b y b'. done. Qed.

Lemma charges_charge {B} n (k : unit → M B) Q :
  charges (k tt) (λ x c, Q x (n + c)) → charges (bind (charge n) k) Q.
Proof.
  intros Hk b y b'. unfold bind, charge, charge_allocation.
  destruct (_ <? n); [done|]. rewrite warn_once_usage, warn_once_limits.
  destruct (u64_checked_add _ _) as [next|] eqn:Hn; [|done].
  apply u64_add_Some in Hn as [-> _].
  destruct (_ <? _); [done|]. intros Hrun. destruct (Hk _ _ _ Hrun) as (c & HQ & Hc).
  exists (n + c). split; [done|]. rewrite Hc. budget_simpl. lia.
Qed.

Lemma bind_charge_size {B} r (k : unit → M B) b :
  bind (charge_size r) k b = bind (lift r) (λ n, bind (charge n) k) b.
Proof. by destruct r. Qed.

Lemma charges_size {B} r (k : unit → M B) (Q : B → Z → Prop) :
  (∀ n, r = Ok n → charges (k tt) (λ x c, Q x (n + c))) →
  charges (bind (charge_size r) k) Q.
Proof.
  intros Hk b y b'. rewrite bind_charge_size. apply charges_lift. intros n Hn.
  apply charges_charge. by apply Hk.
Qed.

Lemma logical_size_ok base count item n :
  logical_size base count item = Ok n → n = base + Z.of_nat count * item.
Proof.
  unfold logical_size. destruct (_ <? _); [done|].
  destruct (u64_checked_mul _ _) as [m|] eqn:Hm; simpl; [|done].
  apply checked_Some in Hm as [_ ->].
  destruct (u64_checked_add _ _) as [z|] eqn:Hz; simpl; [|done].
  apply u64_add_Some in Hz as [-> _]. intros [= <-]. done.
Qed.

(** The charge for a string result. *)
Definition string_charge (v : Value) (n : Z) : Prop := ∃ s, v = VString s ∧ n = 8 + str_len s.

Lemma charges_string (n : Z) (s : string) (size : result VmError Z) :
  size = string_size_bytes (Z.to_nat n) → n = str_len s →
  charges (do! charge_size size in ret (VString s)) string_charge.
Proof.
  intros -> ->. apply charges_size. intros m Hm. apply charges_ret. exists s. split; [done|].
  apply logical_size_ok in Hm. unfold str_len in *. lia.
Qed.

Lemma charges_allocate s : charges (allocate_string s) string_charge.
Proof.
  apply (charges_string (str_len s)); [|done]. unfold string_size_bytes, str_len.
  by rewrite Nat2Z.id.
Qed.

Lemma ok_or_add a c n :
  ok_or (u64_checked_add a c) allocation_error = Ok n → n = a + c.
Proof.
  destruct (u64_checked_add a c) eqn:E; [|done]. intros [= <-].
  by apply u64_add_Some in E as [-> _].
Qed.

Lemma ok_or_mul a c n :
  ok_or (u64_checked_mul a c) allocation_error = Ok n → n = a * c.
Proof.
  unfold u64_checked_mul. destruct (checked _ _) eqn:E; [|done]. intros [= <-].
  by apply checked_Some in E as [_ ->].
Qed.

Lemma join_bytes_ok total l n :
  join_bytes total l = Ok n →
  n = total + foldr (λ x n, str_len x + n) 0 (string_texts l) ∧ l = map VString (string_texts l).
Proof.
  revert total. induction l as [|v l IH]; intros total; simpl.
  { intros [= <-]. split; [lia|done]. }
  destruct v; try done. destruct (ok_or _ _) as [next|] eqn:E; [|done].
  apply ok_or_add in E as ->. intros [-> Hl]%IH. unfold string_texts in *. simpl.
  split; [lia|]. by f_equal.
Qed.

Lemma charges_join l p : charges (string_join l p) string_charge.
Proof.
  unfold string_join. do 3 (apply charges_lift; intros ? ?).
  eapply charges_string; [done|].
  match goal with H : join_bytes _ _ = _ |- _ => apply join_bytes_ok in H as [-> Hl] end.
  match goal with H : ok_or (u64_checked_mul _ _) _ = _ |- _ => apply ok_or_mul in H as -> end.
  match goal with H : ok_or (u64_checked_add _ _) _ = _ |- _ => apply ok_or_add in H as -> end.
  apply (f_equal length) in Hl. rewrite length_map in Hl. rewrite str_len_join, Hl. lia.
Qed.

Lemma charges_replace s n r : charges (string_replace s n r) string_charge.
Proof.
  unfold string_replace. destruct (String.eqb n ""); [apply charges_allocate|].
  do 3 (apply charges_lift; intros ? ?). eapply charges_string; [done|].
  repeat match goal with
  | H : ok_or (u64_checked_mul _ _) _ = _ |- _ => apply ok_or_mul in H as ->
  end.
  destruct (_ <? _); [done|]. simpl in *.
  match goal with H : ok_or (u64_checked_add _ _) _ = _ |- _ => apply ok_or_add in H as -> end.
  pose proof (str_len_join n (split_str n s)) as Hs. unfold split_str in Hs at 1.
  rewrite join_split_aux in Hs. rewrite str_len_join, Hs. lia.
Qed.

Lemma concat_total registers arguments total n texts :
  try_fold (λ total r, let? s := read_string registers r in
    ok_or (u64_checked_add total (str_len s)) allocation_error) total arguments = Ok n →
  collect (read_string registers) arguments = Ok texts →
  n = total + str_len (String.concat "" texts).
Proof.
  revert total texts. induction arguments as [|r arguments IH]; intros total texts; simpl.
  { intros [= <-] [= <-]. unfold str_len. simpl. lia. }
  destruct (read_string registers r) as [s|]; [|done].
  destruct (ok_or _ _) as [next|] eqn:E; [|done]. apply ok_or_add in E as ->. intros Hf.
  destruct (collect _ _) as [rest|]; [|done]. intros [= <-]. rewrite (IH _ _ Hf eq_refl).
  destruct rest as [|x rest].
  { change (str_len (String.concat "" [])) with 0. change (String.concat "" [s]) with s. lia. }
  change (String.concat "" (s :: x :: rest)) with (s ++ "" ++ String.concat "" (x :: rest))%string.
  rewrite !str_len_app. change (str_len "") with 0. lia.
Qed.

Lemma charges_concat registers arguments :
  charges (concatenate_string_registers registers arguments) string_charge.
Proof.
  unfold concatenate_string_registers. apply charges_lift. intros n Hn. apply charges_size.
  intros m Hm. apply charges_lift. intros texts Ht. apply charges_ret. eexists. split; [done|].
  apply logical_size_ok in Hm. rewrite (concat_total _ _ _ _ _ Hn Ht) in Hm.
  unfold str_len in *. lia.
Qed.

(** ** Properties *)

(** Integer arithmetic is exact or refused: addition, subtraction and
    multiplication return the mathematical result exactly when it fits [i64] and
    report an overflow otherwise; division and remainder by a non-zero divisor
    satisfy [l = q * r + m] with [m] smaller than the divisor and of the sign of
    the dividend; the only division overflow is [i64::MIN / -1], and a remainder
    never overflows. *)
Theorem int_arithmetic_exact (l r : Z) :
  in_i64 l = true → in_i64 r = true →
  (∀ op exact, (op, exact) ∈ [(Add, l + r); (Subtract, l - r); (Multiply, l * r)] →
     int_binary op l r = if in_i64 exact then Ok exact else Err ArithmeticOverflow)
  ∧ (r = 0 → int_binary Divide l r = Err DivisionByZero ∧ int_remainder l r = Err DivisionByZero)
  ∧ (r ≠ 0 → ∃ q m, int_remainder l r = Ok m ∧ l = q * r + m ∧ Z.abs m < Z.abs r
       ∧ (m = 0 ∨ Z.sgn m = Z.sgn l) ∧ in_i64 m = true
       ∧ (int_binary Divide l r = Ok q
          ∨ int_binary Divide l r = Err ArithmeticOverflow ∧ l = i64_min ∧ r = -1)).
Proof.
  intros Hl Hr. split_and!.
  - intros op exact Hin. rewrite !elem_of_cons in Hin.
    destruct Hin as [E|[E|[E|Hin]]]; [..|by apply elem_of_nil in Hin]; injection E as -> ->;
      unfold int_binary, i64_checked_add, i64_checked_sub, i64_checked_mul, checked;
      match goal with |- context [in_i64 ?z] => by destruct (in_i64 z) end.
  - intros ->. done.
  - intros Hz. exists (Z.quot l r), (Z.rem l r). split_and!.
    + by apply int_remainder_ok.
    + pose proof (Z.quot_rem' l r). lia.
    + by apply Z.rem_bound_abs.
    + destruct (decide (Z.rem l r = 0)); [by left|right]. by apply Z.rem_sign_nz.
    + by apply i64_rem_range.
    + destruct (decide (l = i64_min ∧ r = -1)) as [[-> ->]|Hn]; [by right|left].
      by apply int_divide_ok.
Qed.

Lemma int_arithmetic_exact_witness :
  int_binary Divide i64_min (-1) = Err ArithmeticOverflow
  ∧ ∃ q m, int_remainder i64_min (-1) = Ok m ∧ i64_min = q * -1 + m ∧ Z.abs m < Z.abs (-1).
Proof.
  split; [reflexivity|].
  destruct (int_arithmetic_exact i64_min (-1) eq_refl eq_refl) as (_ & _ & H).
  destruct (H ltac:(discriminate)) as (q & m & H1 & H2 & H3 & _). exists q, m. done.
Defined.

(** Map updates obey the laws of finite maps: [map.insert] and [map.remove]
    keep the keys typed and in strictly increasing order without duplicates, they
    report exactly the value that was there before, a lookup after an insertion
    returns the new value for that key and the old answer for every other key,
    and a removed key is absent while the others keep their value. *)
Theorem map_update_laws (t : ValueType) (registers : Registers) (rm rk rv : Register)
    (m : list (Value * Value)) (key value : Value) (b b' b'' : Budget) (inserted removed : Value) :
  map_ok t m → key_of_type t key = true →
  read_register registers rm = Ok (VMap m) → read_register registers rk = Ok key →
  read_register registers rv = Ok value →
  safe_collection_call registers MapInsert [rm; rk; rv] b = (Ok inserted, b') →
  safe_collection_call registers MapRemove [rm; rk] b = (Ok removed, b'') →
  ∃ m1 m2,
    inserted = VRecord [("previous", option_value (map_find m key)); ("values", VMap m1)]
    ∧ removed = VRecord [("removed", option_value (map_find m key)); ("values", VMap m2)]
    ∧ map_ok t m1 ∧ map_ok t m2
    ∧ ∀ key', key_of_type t key' = true →
        map_find m1 key' = (if language_equal key key' then Some value else map_find m key')
        ∧ map_find m2 key' = (if language_equal key key' then None else map_find m key').
Proof.
  intros Hm Hk Em Ek Ev. simpl. unfold safe_map_insert, safe_map_remove, bind, lift.
  rewrite Em, Ek, Ev. unfold charge_size, bind, lift.
  destruct (map_result_size (S _)) as [n1|]; [|done]. destruct (map_result_size _) as [n2|]; [|done].
  destruct (charge n1 b) as [[]]; [|done]. destruct (charge n2 b) as [[]]; [|done].
  intros [= <- _] [= <- _]. eexists _, _. split; [done|]. split; [done|].
  split; [by apply map_with_ok|]. split; [by apply map_without_spec|].
  intros key' Hk'. split; [by apply (map_find_with t)|].
  by apply (map_find_without t); [..|apply Hm].
Qed.

Definition demo_map : list (Value * Value) :=
  [(VString "a", VInt 1); (VString "c", VInt 3)].
Definition demo_registers : Registers :=
  [Some (VMap demo_map); Some (VString "b"); Some (VInt 2)].

Lemma map_update_laws_witness :
  let b := @Budget_new calm ExecutionLimits_default in
  ∃ m1, (safe_collection_call demo_registers MapInsert [0%nat; 1%nat; 2%nat] b).1
        = Ok (VRecord [("previous", option_none); ("values", VMap m1)])
        ∧ map_find m1 (VString "b") = Some (VInt 2) ∧ map_ok TString m1.
Proof.
  intros b.
  assert (map_ok TString demo_map) as Hm.
  { split; [by repeat constructor|]. repeat constructor. }
  destruct (map_update_laws TString demo_registers 0 1 2 demo_map (VString "b") (VInt 2) b
              (safe_collection_call demo_registers MapInsert [0%nat; 1%nat; 2%nat] b).2
              (safe_collection_call demo_registers MapRemove [0%nat; 1%nat] b).2
              (VRecord [("previous", option_none);
                        ("values", VMap (map_with demo_map (VString "b") (VInt 2)))])
              (VRecord [("removed", option_none);
                        ("values", VMap (map_without demo_map (VString "b")))])
              Hm eq_refl eq_refl eq_refl eq_refl)
    as (m1 & m2 & E1 & _ & Hm1 & _ & Hf); [by vm_compute..|].
  exists m1. split; [|split; [|done]].
  - injection E1 as <-. by vm_compute.
  - apply (Hf (VString "b") eq_refl).
Defined.

(** Splitting and joining are inverse: for a non-empty separator the fields
    of a text never contain the separator and joining them with it restores the
    text, and exactly a text without the separator is one field. *)
Theorem split_join_roundtrip (separator value : string) :
  separator ≠ "" →
  join_str separator (split_str separator value) = value
  ∧ Forall (λ field, str_contains separator field = false) (split_str separator value)
  ∧ (str_contains separator value = false ↔ split_str separator value = [value]).
Proof.
  intros Hs. unfold split_str.
  pose proof (split_aux_parts (S (String.length value)) separator value Hs ltac:(lia)) as Hp.
  split; [apply join_split_aux|]. split; [done|]. split; [apply split_aux_single|].
  intros E. rewrite E in Hp. by inversion Hp.
Qed.

Lemma split_join_roundtrip_witness :
  split_str ", " "a, b,, c" = ["a"; "b,"; "c"]
  ∧ join_str ", " (split_str ", " "a, b,, c") = "a, b,, c".
Proof.
  split; [reflexivity|]. apply (split_join_roundtrip ", " "a, b,, c"). discriminate.
Defined.

(** String results are charged what they occupy: the length computed before
    the text is built by [join], [replace], [concat], a template concatenation or
    [trim_ascii] is the length of the text that is then built, so that a success
    has charged exactly eight bytes and the length of its result. *)
Theorem string_results_charged_exactly (registers : Registers) (operation : StringOperation)
    (arguments : list Register) (b b' : Budget) (v : Value) :
  operation ∈ [Concat; Join; TrimAscii; Replace; TemplateConcat] →
  string_call registers operation arguments b = (Ok v, b') →
  ∃ s, v = VString s
       ∧ us_allocation_bytes (usage b') = us_allocation_bytes (usage b) + (8 + str_len s).
Proof.
  intros Hop Hrun.
  assert (charges (string_call registers operation arguments) string_charge) as Hc.
  { rewrite !elem_of_cons, elem_of_nil in Hop. destruct_or! Hop; subst;
      destruct arguments as [|? [|? [|? [|? ?]]]]; simpl; try apply charges_throw;
      repeat first
        [ solve [auto using charges_concat, charges_join, charges_allocate, charges_replace]
        | apply charges_lift; intros ? ? ]. }
  destruct (Hc _ _ _ Hrun) as (n & (s & -> & ->) & Hn). by exists s.
Qed.

Lemma string_results_charged_exactly_witness :
  let registers := [Some (VString "a-b-c"); Some (VString "-"); Some (VString "+++")] in
  let b := @Budget_new calm ExecutionLimits_default in
  let out := string_call registers Replace [0%nat; 1%nat; 2%nat] b in
  out.1 = Ok (VString "a+++b+++c") ∧ us_allocation_bytes (usage out.2) = 17.
Proof.
  intros registers b out. split; [reflexivity|].
  destruct (string_results_charged_exactly registers Replace [0%nat; 1%nat; 2%nat] b out.2
              (VString "a+++b+++c")) as (s & [= <-] & Hu); [set_solver|reflexivity|].
  rewrite Hu. reflexivity.
Defined.
