(* ===== verification/VerifierTypes.v ===== *)
(** * Types of a module ([crates/allen-bytecode/src/verifier.rs])

    The errors of the verifier, the predicates on types, the well-formedness of a
    type in a module, the payloads of enums, and the type predicates that descend
    into the enum table with a cache. *)

From S2P Require Import Prelude Text Bytecode.
Open Scope string_scope.
Open Scope Z_scope.

Record VerifyError := {
  ve_function : option Z; ve_instruction : option Z; ve_message : string }.

Definition VerifyError_module (message : string) : VerifyError :=
  {| ve_function := None; ve_instruction := None; ve_message := message |}.

Definition VerifyError_instruction (function instruction : nat) (message : string) : VerifyError :=
  {| ve_function := Some (Z.min (Z.of_nat function) u32_max);
     ve_instruction := Some (Z.min (Z.of_nat instruction) u32_max);
     ve_message := message |}.

(** ** Predicates on types *)

Fixpoint contains_affine_type (t : ValueType) : bool :=
  match t with
  | TFuture _ | TTask _ | TSequence _ => true
  | TList value | TOption value => contains_affine_type value
  | TNewtype _ underlying => contains_affine_type underlying
  | TMap a b | TResult a b => contains_affine_type a || contains_affine_type b
  | TTuple elements => existsb contains_affine_type elements
  | TRecord fields => existsb (λ field, contains_affine_type field.2) fields
  | _ => false
  end.

Fixpoint contains_sub_agent (t : ValueType) : bool :=
  match t with
  | TSubAgent => true
  | TList value | TOption value | TFuture value | TTask value => contains_sub_agent value
  | TNewtype _ underlying => contains_sub_agent underlying
  | TMap a b | TResult a b => contains_sub_agent a || contains_sub_agent b
  | TTuple values => existsb contains_sub_agent values
  | TRecord fields => existsb (λ field, contains_sub_agent field.2) fields
  | TFunction parameters return_type _ =>
    existsb contains_sub_agent parameters || contains_sub_agent return_type
  | _ => false
  end.

Fixpoint contains_stored_sub_agent (t : ValueType) : bool :=
  match t with
  | TSubAgent => true
  | TList value | TOption value | TFuture value | TTask value => contains_stored_sub_agent value
  | TNewtype _ underlying => contains_stored_sub_agent underlying
  | TMap a b | TResult a b => contains_stored_sub_agent a || contains_stored_sub_agent b
  | TTuple values => existsb contains_stored_sub_agent values
  | TRecord fields => existsb (λ field, contains_stored_sub_agent field.2) fields
  | _ => false
  end.

Fixpoint contains_workspace (t : ValueType) : bool :=
  match t with
  | TWorkspace => true
  | TList value | TOption value | TFuture value | TTask value => contains_workspace value
  | TNewtype _ underlying => contains_workspace underlying
  | TMap a b | TResult a b => contains_workspace a || contains_workspace b
  | TTuple values => existsb contains_workspace values
  | TRecord fields => existsb (λ field, contains_workspace field.2) fields
  | TFunction parameters return_type _ =>
    existsb contains_workspace parameters || contains_workspace return_type
  | _ => false
  end.

Definition is_external_permission_result (t : ValueType) : bool :=
  match t with
  | TResult ok error => ValueType_eqb ok TWorkspace && ValueType_eqb error file_error_type
  | _ => false
  end.

Fixpoint is_affine_type (t : ValueType) : bool :=
  match t with
  | TFuture _ | TTask _ | TSequence _ => true
  | TNewtype _ underlying => is_affine_type underlying
  | _ => false
  end.

Fixpoint valid_newtype_underlying (t : ValueType) : bool :=
  match t with
  | TNever | TUnknown | TFunction _ _ _ | TFuture _ | TTask _ | TSequence _ | TWorkspace
  | TExternalFsAccess | TSubAgent => false
  | TList value | TOption value => valid_newtype_underlying value
  | TMap a b | TResult a b => valid_newtype_underlying a && valid_newtype_underlying b
  | TTuple values => forallb valid_newtype_underlying values
  | TRecord fields => forallb (λ field, valid_newtype_underlying field.2) fields
  | TNewtype _ underlying => valid_newtype_underlying underlying
  | TInt | TBool | TFloat | TString | TBytes | TRange | TUnit | TEnum _ => true
  end.

(** The name of a newtype: an owner without control characters and an identifier. *)
Definition newtype_name_byte (index : nat) (byte : Z) : bool :=
  (byte =? 95) || is_ascii_alphabetic byte || (negb (Nat.eqb index 0) && is_ascii_digit byte).

Definition newtype_name_ok (owner declaration : string) : bool :=
  negb (str_is_empty owner) && negb (existsb is_control (chars owner))
  && negb (str_is_empty declaration)
  && forallb (λ ib, newtype_name_byte ib.1 ib.2)
       (combine (seq 0 (String.length declaration)) (bytes declaration)).

Definition stored_handle (t : ValueType) : bool :=
  contains_affine_type t || contains_workspace t || contains_stored_sub_agent t.

Definition aggregate_error : string := "Future and Task cannot be stored in aggregates".

Section ModuleTypes.
Variable module : Module_.

(** [verify_record_layout] is the local loop over the fields: [previous] is the
name before. *)
Fixpoint verify_module_value_type (t : ValueType) (depth : nat) {struct t} : result string unit :=
let check t depth := verify_module_value_type t depth in
if Nat.ltb MAX_VALUE_NESTING depth then Err "value type nesting exceeds limit"
else
match t with
| TList element | TOption element =>
  if stored_handle element then Err aggregate_error else check element (S depth)
| TSequence element =>
  if stored_handle element then Err "Sequence element type cannot be affine or opaque"
  else check element (S depth)
| TMap key value =>
  if negb (is_map_key key) then Err "map key type is not allowed"
  else if stored_handle key || stored_handle value then Err aggregate_error
  else try? check key (S depth) in check value (S depth)
| TResult ok error =>
  let is_sub_agent_result :=
    ValueType_eqb ok TSubAgent && ValueType_eqb error sub_agent_error_type in
  if contains_affine_type ok || contains_affine_type error
     || ((contains_workspace ok || contains_workspace error)
         && negb (is_external_permission_result t))
     || (contains_stored_sub_agent ok && negb is_sub_agent_result)
     || contains_stored_sub_agent error
  then Err aggregate_error
  else try? check ok (S depth) in check error (S depth)
| TFunction parameters return_type effects =>
  if Nat.leb (length (effect_sets module)) effects
  then Err "function type effect set ID is out of range"
  else
    try? (fix go l :=
            match l with
            | [] => Ok tt
            | x :: l' =>
              if ValueType_eqb x TNever then Err "function parameter cannot have type Never"
              else try? check x (S depth) in go l'
            end) parameters in
    check return_type (S depth)
| TTuple elements =>
  match elements with
  | [] => Err "empty tuple type must use Void"
  | _ :: _ =>
    (fix go l :=
       match l with
       | [] => Ok tt
       | x :: l' =>
         if stored_handle x then Err aggregate_error else try? check x (S depth) in go l'
       end) elements
  end
| TRecord fields =>
  (fix go (previous : option string) l :=
     match l with
     | [] => Ok tt
     | field :: l' =>
       if str_is_empty field.1 then Err "record field name must be nonempty"
       else if match previous with Some p => str_geb p field.1 | None => false end
       then Err "record fields must be unique and sorted by UTF-8 bytes"
       else
         try? check field.2 (S depth) in
         if contains_affine_type field.2 then Err aggregate_error
         else if contains_workspace field.2
         then Err "Workspace cannot be stored in aggregates"
         else if contains_stored_sub_agent field.2
         then Err "SubAgent cannot be stored in aggregates"
         else go (Some field.1) l'
     end) None fields
| TFuture value | TTask value => check value (S depth)
| TInt | TBool | TFloat | TString | TBytes | TRange | TUnit | TNever | TWorkspace
| TExternalFsAccess | TSubAgent | TUnknown => Ok tt
| TNewtype name underlying =>
  match rsplit_once "::" name with
  | None => Err "newtype identity must be fully qualified"
  | Some (owner, declaration) =>
    if negb (newtype_name_ok owner declaration) then Err "newtype identity is not canonical"
    else if negb (valid_newtype_underlying underlying)
    then Err "newtype underlying type is not an inhabited non-affine value type"
    else check underlying (S depth)
  end
| TEnum id =>
  if Nat.ltb id (length (enum_types module)) then Ok tt
  else Err "enum type ID is out of range"
end.

Definition enum_variant_count (t : ValueType) : option nat :=
match t with
| TEnum id => ty ← enum_types module !! id; Some (length (et_variants ty))
| TOption _ | TResult _ _ => Some 2%nat
| _ => None
end.

Definition payload_types (payload : EnumPayloadType) : list ValueType :=
match payload with
| PTUnit => []
| PTTuple elements => elements
| PTRecord fields => map snd fields
end.

Definition enum_payload_types (t : ValueType) (variant : nat) : option (list ValueType) :=
match t with
| TEnum id =>
ty ← enum_types module !! id;
v ← et_variants ty !! variant;
Some (payload_types (ev_payload v))
| TOption value =>
match variant with 0%nat => Some [] | 1%nat => Some [value] | _ => None end
| TResult ok error =>
match variant with 0%nat => Some [ok] | 1%nat => Some [error] | _ => None end
| _ => None
end.

(** *** Types closed under a property, with a cache per enum

[is_concrete_type] and [is_equatable_in_module] descend into the enum table
and remember the answer for each enum.  They differ in the leaf [Never] only.
The enum table of a verified module is acyclic, so that a path through it is
no longer than the table; [fuel] bounds that path. *)
Definition EnumCache : Type := list (option bool).

(** [iter().all(..)] threading the cache; it stops at the first [false]. *)
Definition all_cached {A} (f : A → EnumCache → bool * EnumCache)
: list A → EnumCache → bool * EnumCache :=
fix go l cache :=
match l with
| [] => (true, cache)
| x :: l' =>
  let '(b, cache) := f x cache in
  if b then go l' cache else (false, cache)
end.

Section EnumClosed.
Variable never_allowed : bool.

Fixpoint enum_closed (fuel : nat) : ValueType → EnumCache → bool * EnumCache :=
fix go (t : ValueType) (cache : EnumCache) {struct t} : bool * EnumCache :=
match t with
| TWorkspace | TSubAgent | TUnknown | TFunction _ _ _ | TFuture _ | TTask _ | TSequence _ =>
(false, cache)
| TNever => (never_allowed, cache)
| TList element | TOption element => go element cache
| TNewtype _ underlying => go underlying cache
| TMap a b | TResult a b =>
let '(x, cache) := go a cache in
if x then go b cache else (false, cache)
| TTuple elements => all_cached go elements cache
| TRecord fields => all_cached (λ field, go field.2) fields cache
| TEnum id =>
match mjoin (cache !! id) with
| Some b => (b, cache)
| None =>
match enum_types module !! id, fuel with
| Some ty, S fuel' =>
  let '(b, cache) :=
    all_cached (λ v, all_cached (enum_closed fuel') (payload_types (ev_payload v)))
      (et_variants ty) cache in
  (b, <[id := Some b]> cache)
| _, _ => (false, cache)
end
end
| TInt | TBool | TFloat | TString | TBytes | TRange | TExternalFsAccess | TUnit =>
(true, cache)
end.
End EnumClosed.

Definition enum_fuel : nat := S (length (enum_types module)).
Definition is_concrete_type : ValueType → EnumCache → bool * EnumCache :=
enum_closed false enum_fuel.
Definition is_equatable_in_module : ValueType → EnumCache → bool * EnumCache :=
enum_closed true enum_fuel.
End ModuleTypes.

(** ** Lemmas: the cached type predicates *)

Section Closed.
Context (module : Module_) (never_allowed : bool).

(** The types without handles, functions and unknown values, through the enum
table: what [enum_closed] decides. *)
Inductive closed_type : ValueType → Prop :=
| closed_leaf t :
match t with
| TInt | TBool | TFloat | TString | TBytes | TRange | TExternalFsAccess | TUnit => True
| TNever => never_allowed = true
| _ => False
end → closed_type t
| closed_list t : closed_type t → closed_type (TList t)
| closed_option t : closed_type t → closed_type (TOption t)
| closed_newtype n t : closed_type t → closed_type (TNewtype n t)
| closed_map a b : closed_type a → closed_type b → closed_type (TMap a b)
| closed_result a b : closed_type a → closed_type b → closed_type (TResult a b)
| closed_tuple l : (∀ t, t ∈ l → closed_type t) → closed_type (TTuple l)
| closed_record l : (∀ f, f ∈ l → closed_type f.2) → closed_type (TRecord l)
| closed_enum id ty :
enum_types module !! id = Some ty →
(∀ v t, v ∈ et_variants ty → t ∈ payload_types (ev_payload v) → closed_type t) →
closed_type (TEnum id).

(** The answers [true] of a cache are right. *)
Definition cache_closed (cache : EnumCache) : Prop :=
∀ id, cache !! id = Some (Some true) → closed_type (TEnum id).

(** A test that keeps the cache right and whose [true] means [P]. *)
Definition tests (f : EnumCache → bool * EnumCache) (P : Prop) : Prop :=
∀ cache, cache_closed cache →
cache_closed (f cache).2 ∧ ((f cache).1 = true → P).

Lemma tests_all {A} (f : A → EnumCache → bool * EnumCache) (P : A → Prop) l :
(∀ x, x ∈ l → tests (f x) (P x)) → tests (all_cached f l) (∀ x, x ∈ l → P x).
Proof.
induction l as [|x l IH]; intros Hf cache Hc; simpl.
{ split; [done|]. intros _ x Hx. by apply elem_of_nil in Hx. }
destruct (Hf x ltac:(constructor) cache Hc) as [Hc' Hx].
destruct (f x cache) as [b cache']. simpl in *. destruct b; [|done].
destruct (IH ltac:(intros y Hy; apply Hf; by right) cache' Hc') as [Hc'' Hl].
split; [done|]. intros Ht y [->|Hy]%elem_of_cons; [by apply Hx|by apply Hl].
Qed.

Lemma cache_closed_insert cache id (b : bool) :
cache_closed cache → (b = true → closed_type (TEnum id)) →
cache_closed (<[id := Some b]> cache).
Proof.
intros Hc Hb j [(-> & Hj & _)|[_ Hj]]%list_lookup_insert_Some; [|by apply Hc].
injection Hj as ->. by apply Hb.
Qed.

Abbreviation closed := (enum_closed module never_allowed) (only parsing).

(** The equations of [enum_closed]. *)
Lemma enum_closed_eq fuel t cache :
closed fuel t cache =
match t with
| TWorkspace | TSubAgent | TUnknown | TFunction _ _ _ | TFuture _ | TTask _ | TSequence _ =>
(false, cache)
| TNever => (never_allowed, cache)
| TList t | TOption t | TNewtype _ t => closed fuel t cache
| TMap a b | TResult a b =>
let '(x, cache) := closed fuel a cache in
if x then closed fuel b cache else (false, cache)
| TTuple l => all_cached (closed fuel) l cache
| TRecord l => all_cached (λ f, closed fuel f.2) l cache
| TEnum id =>
match mjoin (cache !! id) with
| Some b => (b, cache)
| None =>
  match enum_types module !! id, fuel with
  | Some ty, S fuel' =>
    let '(b, cache) :=
      all_cached (λ v, all_cached (closed fuel') (payload_types (ev_payload v)))
        (et_variants ty) cache in
    (b, <[id := Some b]> cache)
  | _, _ => (false, cache)
  end
end
| _ => (true, cache)
end.
Proof. by destruct fuel, t. Qed.

(** The types built from others. *)
Lemma tests_types fuel :
(∀ id, tests (closed fuel (TEnum id)) (closed_type (TEnum id))) →
∀ t, tests (closed fuel t) (closed_type t).
Proof.
intros Henum t.
induction t as [t Hb|t IH|a b IHa IHb|l IH|l IH|n t IH|t IH|a b IHa IHb|t _|t _|t _|ps r e _ _]
using ValueType_ind'; intros cache Hc;
try (rewrite enum_closed_eq; split; [done|]; by intros).
- destruct t; try discriminate Hb; try (by apply Henum); rewrite enum_closed_eq; simpl;
  (split; [done|]); intros Ht; try done; by constructor.
- rewrite enum_closed_eq. destruct (IH cache Hc) as [Hc' Ht]. split; [done|].
intros H. by apply closed_list, Ht.
- rewrite enum_closed_eq. destruct (IHa cache Hc) as [Hc' Ha].
destruct (closed fuel a cache) as [x cache']. simpl in *. destruct x; [|done].
destruct (IHb cache' Hc') as [Hc'' Hb]. split; [done|].
intros H. by apply closed_map; [apply Ha|apply Hb].
- rewrite enum_closed_eq. rewrite Forall_forall in IH.
destruct (tests_all (closed fuel) closed_type l IH cache Hc) as [Hc' Hl].
split; [done|]. intros H. apply closed_tuple, Hl, H.
- rewrite enum_closed_eq. rewrite Forall_forall in IH.
destruct (tests_all (λ f : string * ValueType, closed fuel f.2) (λ f, closed_type f.2) l IH
            cache Hc) as [Hc' Hl].
split; [done|]. intros H. apply closed_record, Hl, H.
- rewrite enum_closed_eq. destruct (IH cache Hc) as [Hc' Ht]. split; [done|].
intros H. by apply closed_newtype, Ht.
- rewrite enum_closed_eq. destruct (IH cache Hc) as [Hc' Ht]. split; [done|].
intros H. by apply closed_option, Ht.
- rewrite enum_closed_eq. destruct (IHa cache Hc) as [Hc' Ha].
destruct (closed fuel a cache) as [x cache']. simpl in *. destruct x; [|done].
destruct (IHb cache' Hc') as [Hc'' Hb]. split; [done|].
intros H. by apply closed_result; [apply Ha|apply Hb].
Qed.

(** An answer [true] is right, and the cache stays right. *)
Lemma enum_closed_tests fuel t : tests (closed fuel t) (closed_type t).
Proof.
revert t. induction fuel as [|fuel IHf]; apply tests_types; intros id cache Hc;
rewrite enum_closed_eq; destruct (cache !! id) as [[b|]|] eqn:E; simpl;
try (split; [done|]; intros ->; by apply Hc);
destruct (enum_types module !! id) as [ty|] eqn:Hty; try done.
all: destruct (tests_all (λ v, all_cached (closed fuel) (payload_types (ev_payload v)))
     (λ v, ∀ t, t ∈ payload_types (ev_payload v) → closed_type t) (et_variants ty)) with cache
     as [Hc' Hb]; [intros v _; apply tests_all; intros t _; apply IHf|done|];
destruct (all_cached _ (et_variants ty) cache) as [b cache']; simpl in *;
assert (b = true → closed_type (TEnum id)) as He
  by (intros Ht; eapply closed_enum; [done|]; intros v t Hv; by apply Hb);
(split; [by apply cache_closed_insert|done]).
Qed.
End Closed.
