(* ===== verification/VerifierRules.v ===== *)
(** * Typing rules of the instructions ([verify_instruction_types])

    One definition per instruction of [crates/allen-bytecode/src/verifier.rs]: it
    returns the message of the first violated condition.  The source indexes
    tables without a test in the rules that look at another function or at an
    effect set; these rules answer [None] where the index is out of range and the
    source panics. *)

From S2P Require Import Prelude Text Bytecode VerifierTypes.
Open Scope string_scope.
Open Scope Z_scope.

(** ** Typing rules *)

Section Rules.
Context (module : Module_) (function : Function).

Definition register_type (r : Register) : result string ValueType :=
ok_or (fn_registers function !! r) "register is out of range".

Definition destination_type (destination : Register) : result string ValueType :=
let? t := register_type destination in
if ValueType_eqb t TNever then Err "cannot initialize Never register" else Ok t.

Definition require_type (actual expected : ValueType) (context : string) : result string unit :=
if ValueType_eqb actual expected then Ok tt else Err context.

Variable initialized : list bool.

Definition is_initialized (r : Register) : bool := default false (initialized !! r).

Definition initialized_type (r : Register) : result string ValueType :=
let? t := register_type r in
if is_initialized r then Ok t else Err "register is not initialized".

Definition require_unary_type (destination source : Register) (expected : ValueType)
(operation : string) : result string unit :=
let? d := destination_type destination in
let? s := initialized_type source in
try? require_type d expected operation in require_type s expected operation.

Definition require_binary_type (destination left right : Register) (expected : ValueType)
(operation : string) : result string unit :=
let? d := destination_type destination in
let? l := initialized_type left in
let? r := initialized_type right in
try? require_type d expected operation in
try? require_type l expected operation in
require_type r expected operation.

(** The loop over zipped registers and expected types. *)
Fixpoint require_each (context : string) (sources : list Register) (expected : list ValueType)
: result string unit :=
match sources, expected with
| source :: sources', t :: expected' =>
let? actual := initialized_type source in
try? require_type actual t context in require_each context sources' expected'
| _, _ => Ok tt
end.

Definition verify_call_arguments (arguments : list Register) (expected : list ValueType)
: result string unit :=
if negb (Nat.eqb (length arguments) (length expected)) then Err "call has wrong argument count"
else require_each "call argument" arguments expected.

(** *** Signatures of calls *)

Definition string_operation_signature (operation : StringOperation) (argument_count : nat)
: result string (list ValueType * ValueType) :=
match operation with
| ByteLength => Ok ([TString], TInt)
| Concat => Ok ([TString; TString], TString)
| StrGet => Ok ([TString; TInt], TOption TString)
| StrSlice => Ok ([TString; TInt; TInt], TOption TString)
| StrFind => Ok ([TString; TString], TOption TInt)
| Contains | StartsWith | EndsWith => Ok ([TString; TString], TBool)
| Split => Ok ([TString; TString], TOption (TList TString))
| Join => Ok ([TList TString; TString], TString)
| TrimAscii => Ok ([TString], TString)
| FromUtf8 => Ok ([TBytes], TOption TString)
| Replace => Ok ([TString; TString; TString], TString)
| TemplateConcat =>
if Nat.eqb argument_count 0
then Err "template concatenation requires at least one String segment"
else Ok (replicate argument_count TString, TString)
end.

Definition standard_operation_signature (operation : StandardOperation)
: list ValueType * ValueType :=
match operation with
| ToInt | TimeParseUtc => ([TString], TResult TInt standard_error_type)
| FloatFormat => ([TFloat; TInt], TResult TString standard_error_type)
| TimeFormatUtc => ([TInt], TResult TString standard_error_type)
| TimeBucket => ([TInt; TInt], TResult TInt standard_error_type)
end.

Definition capability_signature (operation : CapabilityOperation)
: list ValueType * ValueType :=
match operation with IsGranted => ([TString], TBool) | Granted => ([], TList TString) end.

Definition map_update_type (field : string) (key value : ValueType) : ValueType :=
TRecord [(field, TOption value); ("values", TMap key value)].

Definition safe_collection_result (operation : SafeCollectionOperation)
(types : list ValueType) : result string ValueType :=
let invalid_ := Err "safe collection operation signature is invalid" in
match operation, types with
| ListGet, [TList item; TInt] => Ok (TOption item)
| ListTrySet, [TList item; TInt; value] =>
if ValueType_eqb item value then Ok (TOption (TList item)) else invalid_
| BytesGet, [TBytes; TInt] => Ok (TOption TInt)
| MapGet, [TMap key value; lookup_] =>
if ValueType_eqb key lookup_ then Ok (TOption value) else invalid_
| MapInsert, [TMap key value; lookup_; replacement] =>
if ValueType_eqb key lookup_ && ValueType_eqb value replacement
then Ok (map_update_type "previous" key value) else invalid_
| MapRemove, [TMap key value; lookup_] =>
if ValueType_eqb key lookup_ then Ok (map_update_type "removed" key value) else invalid_
| MapKeys, [TMap key _] => Ok (TList key)
| _, _ => invalid_
end.

Definition collection_result (operation : CollectionOperation) (types : list ValueType)
: result string ValueType :=
let invalid_ := Err "collection operation signature is invalid" in
match operation, types with
| Zip, values =>
if Nat.leb 2 (length values) && Nat.leb (length values) 8 then
  let? elements := collect (λ v, match v with
                                 | TList element => Ok element
                                 | _ => Err "zip arguments must be Lists"
                                 end) values in
  Ok (TList (TTuple elements))
else invalid_
| (ListMin | ListMax), [TList TInt] => Ok (TOption TInt)
| (ListMin | ListMax), [TList TFloat] => Ok (TOption TFloat)
| ListSumInt, [TList TInt] => Ok (TOption TInt)
| ListSumFloat, [TList TFloat] => Ok TFloat
| _, _ => invalid_
end.

(** The destination of a call has the type of its result. *)
Definition require_result (destination : Register) (result_type : ValueType) (context : string)
: result string unit :=
let? d := destination_type destination in require_type d result_type context.

(** *** Rules by instruction *)

Definition verify_list_literal_item (element : ValueType) (item : ListLiteralItem)
: result string unit :=
match item with
| LElement source =>
let? actual := initialized_type source in require_type actual element "list literal element"
| LSpread source =>
let? actual := initialized_type source in
match actual with
| TList spread => require_type spread element "list literal spread element"
| _ => Err "list literal spread must be List"
end
end.

Definition verify_map_entry (context_key context_value : string) (key_type value_type : ValueType)
(entry : Register * Register) : result string unit :=
let? k := initialized_type entry.1 in
try? require_type k key_type context_key in
let? v := initialized_type entry.2 in
require_type v value_type context_value.

Definition verify_map_literal_item (key_type value_type : ValueType) (item : MapLiteralItem)
: result string unit :=
match item with
| MEntry key value =>
verify_map_entry "map literal key" "map literal value" key_type value_type (key, value)
| MSpread source =>
let? actual := initialized_type source in
match actual with
| TMap k v =>
  try? require_type k key_type "map literal spread key" in
  require_type v value_type "map literal spread value"
| _ => Err "map literal spread must be Map"
end
end.

Fixpoint verify_record_fields (index : nat) (fields : list (nat * Register))
(layout : list RecordField) : result string unit :=
match fields, layout with
| (field, source) :: fields', expected :: layout' =>
if negb (Nat.eqb field index) then Err "record construction fields are not canonical"
else
  let? actual := initialized_type source in
  try? require_type actual expected.2 "record field" in
  verify_record_fields (S index) fields' layout'
| _, _ => Ok tt
end.

(** The bindings of a switch arm: distinct registers of the payload's types. *)
Fixpoint verify_bindings (seen bindings : list Register) (expected : list ValueType)
: result string unit :=
match bindings, expected with
| binding :: bindings', t :: expected' =>
if existsb (Nat.eqb binding) seen
then Err "enum switch arm has duplicate binding registers"
else
  let? actual := destination_type binding in
  try? require_type actual t "enum switch binding" in
  verify_bindings (binding :: seen) bindings' expected'
| _, _ => Ok tt
end.

Fixpoint verify_arms (source_type : ValueType) (variant : nat) (arms : list EnumSwitchArm)
: result string unit :=
match arms with
| [] => Ok tt
| arm :: arms' =>
if negb (Nat.eqb (arm_variant arm) variant) then Err "enum switch arms are not canonical"
else
  let types := default [] (enum_payload_types module source_type (arm_variant arm)) in
  if negb (Nat.eqb (length (arm_bindings arm)) (length types))
  then Err "enum switch arm has wrong binding count"
  else
    try? verify_bindings [] (arm_bindings arm) types in
    verify_arms source_type (S variant) arms'
end.

(** [matches!(source_type, Function | Future | Task | Workspace | SubAgent | Never)] *)
Definition opaque_type (t : ValueType) : bool :=
match t with
| TFunction _ _ _ | TFuture _ | TTask _ | TWorkspace | TSubAgent | TNever => true
| _ => false
end.

(** The caches of [is_concrete_type] and [is_equatable_in_module]. *)
Definition Caches : Type := EnumCache * EnumCache.

Definition verify_const (destination : Register) (constant : nat) : result string unit :=
let? d := destination_type destination in
let? c := ok_or (constants module !! constant) "constant is out of range" in
require_type d (Constant_value_type c) "constant destination".

Definition verify_move (destination source : Register) : result string unit :=
let? d := destination_type destination in
let? s := initialized_type source in require_type d s "move".

Definition verify_int_binary (destination left_ right_ : Register) : result string unit :=
require_binary_type destination left_ right_ TInt "integer binary operation".

Definition verify_int_remainder (destination left_ right_ : Register) : result string unit :=
require_binary_type destination left_ right_ TInt "integer remainder".

Definition verify_float_binary (destination left_ right_ : Register) : result string unit :=
require_binary_type destination left_ right_ TFloat "float binary operation".

Definition verify_int_negate (destination source : Register) : result string unit :=
require_unary_type destination source TInt "integer negation".

Definition verify_float_negate (destination source : Register) : result string unit :=
require_unary_type destination source TFloat "float negation".

Definition verify_compare (destination left_ right_ : Register) (operation : CompareOp)
(caches : Caches) : result string Caches :=
let? d := destination_type destination in
try? require_type d TBool "comparison destination" in
let? l := initialized_type left_ in
let? r := initialized_type right_ in
try? require_type l r "comparison operands" in
let '(supported, caches) :=
match operation with
| Equal | NotEqual =>
  let '(b, equatable) := is_equatable_in_module module l caches.2 in
  (b, (caches.1, equatable))
| _ => (is_ordered l, caches)
end in
if supported then Ok caches else Err "comparison is not supported for operand type".

Definition verify_bool_not (destination source : Register) : result string unit :=
require_unary_type destination source TBool "Boolean negation".

Definition verify_bool_binary (destination left_ right_ : Register) : result string unit :=
require_binary_type destination left_ right_ TBool "Boolean binary operation".

Definition verify_list_new (destination : Register) (elements : list Register)
: result string unit :=
let? d := destination_type destination in
match d with
| TList element =>
require_each "list element" elements (map (λ _, element) elements)
| _ => Err "list construction destination must be List"
end.

Definition verify_list_literal_build (destination : Register) (items : list ListLiteralItem)
: result string unit :=
let? d := destination_type destination in
match d with
| TList element => for_each (verify_list_literal_item element) items
| _ => Err "list literal build destination must be List"
end.

Definition verify_range_new (destination start end_ : Register) : result string unit :=
let? s := initialized_type start in
try? require_type s TInt "range start" in
let? e := initialized_type end_ in
try? require_type e TInt "range end" in
require_result destination TRange "range destination".

Definition verify_range_bound (destination range : Register) : result string unit :=
let? s := initialized_type range in
try? require_type s TRange "range projection source" in
require_result destination TInt "range projection destination".

Definition verify_range_inclusive (destination range : Register) : result string unit :=
let? s := initialized_type range in
try? require_type s TRange "range projection source" in
require_result destination TBool "range projection destination".

Definition verify_length (destination collection : Register) : result string unit :=
let? d := destination_type destination in
try? require_type d TInt "length destination" in
let? c := initialized_type collection in
match c with
| TBytes | TString | TList _ | TMap _ _ => Ok tt
| _ => Err "length collection must be Bytes, String, List, or Map"
end.

Definition verify_list_append (destination values value : Register) : result string unit :=
let? d := destination_type destination in
match d with
| TList element =>
let? v := initialized_type values in
try? require_type v d "list append values" in
let? x := initialized_type value in
require_type x element "list append value"
| _ => Err "list append destination must be List"
end.

Definition verify_list_set (destination values index value : Register) : result string unit :=
let? d := destination_type destination in
match d with
| TList element =>
let? v := initialized_type values in
try? require_type v d "list set values" in
let? n := initialized_type index in
try? require_type n TInt "list set index" in
let? x := initialized_type value in
require_type x element "list set value"
| _ => Err "list set destination must be List"
end.

Definition verify_map_new (destination : Register) (entries : list (Register * Register))
: result string unit :=
let? d := destination_type destination in
match d with
| TMap key_type value_type =>
if negb (is_map_key key_type) then Err "map key type is not allowed"
else for_each (verify_map_entry "map key" "map value" key_type value_type) entries
| _ => Err "map construction destination must be Map"
end.

Definition verify_map_literal_build (destination : Register) (items : list MapLiteralItem)
: result string unit :=
let? d := destination_type destination in
match d with
| TMap key_type value_type =>
if negb (is_map_key key_type) then Err "map key type is not allowed"
else for_each (verify_map_literal_item key_type value_type) items
| _ => Err "map literal build destination must be Map"
end.

Definition verify_tuple_new (destination : Register) (elements : list Register)
: result string unit :=
let? d := destination_type destination in
match d with
| TTuple [] => Err "empty tuple must use Void"
| TTuple types =>
if negb (Nat.eqb (length elements) (length types))
then Err "tuple construction has wrong element count"
else require_each "tuple element" elements types
| _ => Err "tuple construction destination must be Tuple"
end.

Definition verify_index_get (destination collection index : Register) : result string unit :=
let? d := destination_type destination in
let? c := initialized_type collection in
let? n := initialized_type index in
match c with
| TList element =>
try? require_type n TInt "list index" in require_type d element "list index result"
| TBytes =>
try? require_type n TInt "bytes index" in require_type d TInt "bytes index result"
| TMap key_type value_type =>
try? require_type n key_type "map index" in
require_type d value_type "map index result"
| _ => Err "index collection must be List, Map, or Bytes"
end.

Definition verify_slice_get (destination collection start end_ : Register) : result string unit :=
let? source := initialized_type collection in
let? s := initialized_type start in
try? require_type s TInt "slice start" in
let? e := initialized_type end_ in
try? require_type e TInt "slice end" in
let? expected :=
match source with
| TList item => Ok (TOption (TList item))
| TBytes => Ok (TOption TBytes)
| TString => Ok (TOption TString)
| _ => Err "slice source must be List, Bytes, or String"
end in
require_result destination expected "slice destination".

Definition verify_map_entry_at (destination map_ index : Register) : result string unit :=
let? d := destination_type destination in
let? m := initialized_type map_ in
match m with
| TMap key_type value_type =>
let? n := initialized_type index in
try? require_type n TInt "map entry index" in
match d with
| TTuple elements =>
  if all2 ValueType_eqb elements [key_type; value_type] then Ok tt
  else Err "map entry access destination must be exact key-value Tuple"
| _ => Err "map entry access destination must be Tuple"
end
| _ => Err "map entry access source must be Map"
end.

Definition verify_tuple_get (destination tuple : Register) (index : nat) : result string unit :=
let? d := destination_type destination in
let? s := initialized_type tuple in
match s with
| TTuple elements =>
let? element := ok_or (elements !! index) "tuple index is out of range" in
require_type d element "tuple index result"
| _ => Err "tuple access source must be Tuple"
end.

Definition verify_record_new (destination : Register) (fields : list (nat * Register))
: result string unit :=
let? d := destination_type destination in
match d with
| TRecord layout =>
if negb (Nat.eqb (length fields) (length layout))
then Err "record construction has wrong field count"
else verify_record_fields 0 fields layout
| _ => Err "record construction destination must be Record"
end.

Definition verify_field_get (destination record : Register) (field : nat) : result string unit :=
let? d := destination_type destination in
let? s := initialized_type record in
match s with
| TRecord layout =>
let? f := ok_or (layout !! field) "record field is out of range" in
require_type d f.2 "field access result"
| _ => Err "field access source must be Record"
end.

Definition verify_newtype_wrap (destination source : Register) : result string unit :=
let? d := destination_type destination in
match d with
| TNewtype _ underlying =>
let? s := initialized_type source in require_type s underlying "newtype wrap source"
| _ => Err "newtype wrap destination must be Newtype"
end.

Definition verify_newtype_unwrap (destination source : Register) : result string unit :=
let? d := destination_type destination in
let? s := initialized_type source in
match s with
| TNewtype _ underlying => require_type d underlying "newtype unwrap destination"
| _ => Err "newtype unwrap source must be Newtype"
end.

Definition verify_enum_new (destination : Register) (variant : nat) (payload : list Register)
: result string unit :=
let? d := destination_type destination in
let? types := ok_or (enum_payload_types module d variant)
              "enum variant is out of range" in
if negb (Nat.eqb (length payload) (length types))
then Err "enum construction has wrong payload count"
else require_each "enum payload" payload types.

Definition verify_branch_bool (condition : Register) : result string unit :=
let? c := initialized_type condition in
require_type c TBool "Boolean branch condition".

Definition verify_switch_enum (source : Register) (arms : list EnumSwitchArm)
: result string unit :=
let? s := initialized_type source in
let? count := ok_or (enum_variant_count module s)
              "enum switch source must be Enum, Option, or Result" in
if negb (Nat.eqb (length arms) count) then Err "enum switch is not exhaustive"
else verify_arms s 0 arms.

Definition verify_to_unknown (destination source : Register) : result string unit :=
let? d := destination_type destination in
let? s := initialized_type source in
if opaque_type s || contains_workspace s || contains_sub_agent s
 || contains_affine_type s
then Err "to_unknown source cannot be Function, Future, Task, or Never"
else require_type d TUnknown "to_unknown destination".

Definition verify_narrow (destination source : Register) (target : ValueType) (caches : Caches)
: result string Caches :=
try? verify_module_value_type module target 0 in
let '(b, concrete) := is_concrete_type module target caches.1 in
if negb b then Err "narrow target must be concrete"
else
let? d := destination_type destination in
let? s := initialized_type source in
try? require_type s TUnknown "narrow source" in
try? require_type d (TOption target) "narrow destination" in
Ok (concrete, caches.2).

Definition verify_string_call (destination : Register) (operation : StringOperation)
(arguments : list Register) : result string unit :=
let? signature := string_operation_signature operation (length arguments) in
try? verify_call_arguments arguments signature.1 in
require_result destination signature.2 "String operation result".

Definition verify_standard_call (destination : Register) (operation : StandardOperation)
(arguments : list Register) : result string unit :=
let signature := standard_operation_signature operation in
try? verify_call_arguments arguments signature.1 in
require_result destination signature.2 "standard operation result".

Definition verify_safe_collection_call (destination : Register)
(operation : SafeCollectionOperation) (arguments : list Register) : result string unit :=
let? types := collect initialized_type arguments in
let? t := safe_collection_result operation types in
require_result destination t "safe collection operation result".

Definition verify_collection_call (destination : Register) (operation : CollectionOperation)
(arguments : list Register) : result string unit :=
let? types := collect initialized_type arguments in
let? t := collection_result operation types in
require_result destination t "collection operation result".

Definition verify_checked_int_call (destination : Register) (operation : CheckedIntOperation)
(arguments : list Register) : result string unit :=
let arity := match operation with CheckedNegate => 1%nat | _ => 2%nat end in
if negb (Nat.eqb (length arguments) arity)
then Err "checked integer operation arity is invalid"
else
try? verify_call_arguments arguments (replicate arity TInt) in
require_result destination (TOption TInt) "checked integer operation result".

Definition verify_stop (reason : Register) : result string unit :=
let? t := initialized_type reason in require_type t TString "stop reason".

Definition verify_fail (reason : Register) : result string unit :=
let? t := initialized_type reason in require_type t TString "fail reason".

Definition verify_return (source : Register) : result string unit :=
let? t := initialized_type source in
if ValueType_eqb t TNever || ValueType_eqb (fn_return_type function) TNever
then Err "ordinary return cannot return Never"
else require_type t (fn_return_type function) "return".

(** *** Conversions and early returns *)

Definition verify_convert (destination source : Register) (conversion : Conversion)
: result string unit :=
let? d := destination_type destination in
let? s := initialized_type source in
match conversion with
| IntToFloat =>
try? require_type s TInt "IntToFloat source" in
require_type d TFloat "IntToFloat destination"
| ToString =>
match s with
| TBool | TInt | TFloat | TString => require_type d TString "ToString destination"
| _ => Err "ToString source must be Bool, Int, Float, or String"
end
| StringToBytes =>
try? require_type s TString "StringToBytes source" in
require_type d TBytes "StringToBytes destination"
end.

Definition verify_try_result (destination source : Register) : result string unit :=
let? d := destination_type destination in
let? s := initialized_type source in
match s with
| TResult ok_type error_type =>
try? require_type d ok_type "try destination" in
match fn_return_type function with
| TResult _ return_error_type => require_type error_type return_error_type "try error type"
| _ => Err "try requires a Result function return type"
end
| _ => Err "try source must be Result"
end.

Definition verify_try_option (destination source : Register) : result string unit :=
let? d := destination_type destination in
let? s := initialized_type source in
match s with
| TOption value =>
try? require_type d value "try option destination" in
match fn_return_type function with
| TOption _ => Ok tt
| _ => Err "try option requires an Option function return type"
end
| _ => Err "try option source must be Option"
end.

Definition verify_decode (destination source : Register) (target : ValueType) (caches : Caches)
: result string Caches :=
try? verify_module_value_type module target 0 in
let '(b, concrete) := is_concrete_type module target caches.1 in
if negb (b && is_strict_schema_type target)
then Err "decode target must be a concrete entry-boundary value type"
else
let? d := destination_type destination in
let? s := initialized_type source in
try? require_type s TBytes "decode source" in
try? require_type d (TResult target decode_error_type) "decode destination" in
Ok (concrete, caches.2).

(** *** Calls *)

(** [module.effect_sets[id]] *)
Definition effect_set (id : EffectSetId) : option (list string) := effect_sets module !! id.

(** Effect sets are sorted and without duplicates, so that [binary_search] is
membership. *)
Definition has_effect (effect : string) (set : list string) : bool :=
existsb (String.eqb effect) set.

Definition require_effect_subset (required available : EffectSetId) (message : string)
: option (result string unit) :=
required ← effect_set required;
available ← effect_set available;
Some (if forallb (λ effect, has_effect effect available) required
    then Ok tt else Err message).

(** The effect of the function itself, for the rules that need one. *)
Definition require_own_effect (effect message : string) : option (result string unit) :=
set ← effect_set (fn_effects function);
Some (if has_effect effect set then Ok tt else Err message).

(** [callee.registers[register]] for every input, evaluated one at a time. *)
Definition lazy_types (callee : Function) (inputs : list Register) : list (option ValueType) :=
map (λ r, fn_registers callee !! r) inputs.

Fixpoint require_each_lazy (arguments : list Register) (expected : list (option ValueType))
: option (result string unit) :=
match arguments, expected with
| argument :: arguments', t :: expected' =>
t ← t;
let* actual := Some (initialized_type argument) in
try* Some (require_type actual t "call argument") in
require_each_lazy arguments' expected'
| _, _ => Some (Ok tt)
end.

Definition verify_lazy_arguments (arguments : list Register) (expected : list (option ValueType))
: option (result string unit) :=
if negb (Nat.eqb (length arguments) (length expected))
then Some (Err "call has wrong argument count")
else require_each_lazy arguments expected.

(** [async_functions] is sorted: [binary_search] is membership. *)
Definition is_async (id : FunctionId) : bool := existsb (Nat.eqb id) (async_functions module).

Definition verify_direct_call (destination : Register) (callee_id : FunctionId)
(arguments : list Register) : option (result string unit) :=
let* d := Some (destination_type destination) in
let* callee := Some (ok_or (functions module !! callee_id)
                     "direct call function ID is out of range") in
if is_async callee_id then Some (Err "direct call target cannot be async")
else if negb (bool_decide (fn_captures callee = []))
then Some (Err "direct call target requires closure captures")
else
try* verify_lazy_arguments arguments (lazy_types callee (fn_parameters callee)) in
try* Some (require_type d (fn_return_type callee) "direct call result") in
require_effect_subset (fn_effects callee) (fn_effects function)
  "direct call effect set exceeds caller effect set".

Definition function_value_type (f : Function) : option ValueType :=
parameters ← mapM (λ r, fn_registers f !! r) (fn_parameters f);
Some (TFunction parameters (fn_return_type f) (fn_effects f)).

(** The capture registers have been checked when their types are looked at. *)
Definition verify_closure_new (destination : Register) (closure_id : FunctionId)
(captures : list Register) : option (result string unit) :=
let* d := Some (destination_type destination) in
let* closure := Some (ok_or (functions module !! closure_id)
                      "closure function ID is out of range") in
if is_async closure_id then Some (Err "async function cannot be used as a closure")
else
try* verify_lazy_arguments captures (lazy_types closure (fn_captures closure)) in
types ← mapM (λ r, fn_registers function !! r) captures;
if existsb contains_sub_agent types
then Some (Err "closure capture cannot contain SubAgent")
else
  expected ← function_value_type closure;
  try* Some (require_type d expected "closure construction result") in
  require_effect_subset (fn_effects closure) (fn_effects function)
    "closure effect set exceeds caller effect set".

Definition verify_closure_call (destination closure : Register) (arguments : list Register)
: option (result string unit) :=
let* d := Some (destination_type destination) in
let* c := Some (initialized_type closure) in
match c with
| TFunction parameters return_type effects =>
try* Some (verify_call_arguments arguments parameters) in
try* Some (require_type d return_type "closure call result") in
require_effect_subset effects (fn_effects function)
  "closure call effect set exceeds caller effect set"
| _ => Some (Err "closure call source must be a function")
end.

Definition verify_async_call (destination : Register) (callee_id : FunctionId)
(arguments : list Register) : option (result string unit) :=
let* d := Some (destination_type destination) in
let* callee := Some (ok_or (functions module !! callee_id)
                     "async call function ID is out of range") in
if negb (is_async callee_id) then Some (Err "async call target is not declared async")
else if negb (bool_decide (fn_captures callee = []))
then Some (Err "async call target requires closure captures")
else
try* verify_lazy_arguments arguments (lazy_types callee (fn_parameters callee)) in
try* Some (require_type d (TFuture (fn_return_type callee)) "async call result") in
require_effect_subset (fn_effects callee) (fn_effects function)
  "async call effect set exceeds caller effect set".

(** *** Tasks *)

Definition verify_spawn (destination future : Register) : option (result string unit) :=
let* d := Some (destination_type destination) in
let* f := Some (initialized_type future) in
match f with
| TFuture value =>
try* Some (require_type d (TTask value) "spawn result") in
require_own_effect "task.spawn" "spawn requires the task.spawn effect"
| _ => Some (Err "spawn source must be Future")
end.

Definition verify_await (function_id : FunctionId) (destination source : Register)
: result string unit :=
if negb (is_async function_id) then Err "await requires an async function"
else
let? d := destination_type destination in
let? s := initialized_type source in
match s with
| TFuture value | TTask value => require_type d value "await result"
| _ => Err "await source must be Future or Task"
end.

Definition verify_task_snapshot (destination source : Register) : option (result string unit) :=
let* d := Some (destination_type destination) in
let* s := Some (initialized_type source) in
match s with
| TTask _ =>
try* Some (require_type d task_snapshot_type "task snapshot destination") in
require_own_effect "debug.inspect" "task snapshot requires the debug.inspect effect"
| _ => Some (Err "task snapshot source must be Task")
end.

Definition verify_task_scope (function_id : FunctionId) (scope : nat) : result string unit :=
if Nat.eqb scope 0 then Err "explicit task scope ID must be nonzero"
else if negb (is_async function_id) then Err "task scope requires an async function"
else Ok tt.

Definition verify_capability_inspect (destination : Register) (operation : CapabilityOperation)
(arguments : list Register) : option (result string unit) :=
let signature := capability_signature operation in
try* Some (verify_call_arguments arguments signature.1) in
try* Some (require_result destination signature.2 "capability inspection result") in
require_own_effect "capability.inspect"
"capability inspection requires the capability.inspect effect".

(** *** List operations with callbacks *)

(** [parameters.as_slice() != [..]] *)
Definition types_eqb (l r : list ValueType) : bool := all2 ValueType_eqb l r.

Definition verify_list_fold (destination values initial callback : Register)
: option (result string unit) :=
let invalid_ := Some (Err "list fold callback signature is invalid") in
let* v := Some (initialized_type values) in
match v with
| TList item =>
let* initial_type := Some (initialized_type initial) in
let* c := Some (initialized_type callback) in
match c with
| TFunction parameters return_type effects =>
  if negb (types_eqb parameters [initial_type; item]) then invalid_
  else if negb (ValueType_eqb return_type initial_type) then invalid_
  else
    set ← effect_set effects;
    if negb (bool_decide (set = [])) then invalid_
    else Some (require_result destination initial_type "list fold result")
| _ => Some (Err "list fold callback must be Function")
end
| _ => Some (Err "list fold values must be List")
end.

(** The result type of a combinator, from the item, the callback's parameters and
result, and the initial value. *)
Definition list_combinator_result (operation : ListCombinator) (item : ValueType)
(parameters : list ValueType) (return_type : ValueType) (initial : option Register)
: result string ValueType :=
let takes_item := types_eqb parameters [item] in
let predicate_ := takes_item && ValueType_eqb return_type TBool in
match operation with
| LMap =>
if takes_item then Ok (TList return_type) else Err "list map callback signature is invalid"
| LFilter =>
if predicate_ then Ok (TList item) else Err "list filter callback signature is invalid"
| LFlatMap =>
match takes_item, return_type with
| true, TList output => Ok (TList output)
| _, _ => Err "list flat_map callback signature is invalid"
end
| LFilterMap =>
match takes_item, return_type with
| true, TOption output => Ok (TList output)
| _, _ => Err "list filter_map callback signature is invalid"
end
| LFind => if predicate_ then Ok (TOption item) else Err "list find callback signature is invalid"
| LAny | LAll =>
if predicate_ then Ok TBool else Err "list predicate callback signature is invalid"
| LPartition =>
if predicate_ then Ok (TRecord [("matched", TList item); ("rest", TList item)])
else Err "list partition callback signature is invalid"
| LScan =>
match initial with
| None => Err "list scan requires an initial value"
| Some initial =>
  let? initial_type := initialized_type initial in
  if types_eqb parameters [initial_type; item] && ValueType_eqb return_type initial_type
  then Ok (TList initial_type) else Err "list scan callback signature is invalid"
end
end.

Definition verify_list_combinator (destination : Register) (operation : ListCombinator)
(values : Register) (initial : option Register) (callback callback_result : Register)
: option (result string unit) :=
let* v := Some (initialized_type values) in
match v with
| TList item =>
let* c := Some (initialized_type callback) in
match c with
| TFunction parameters return_type effects =>
  set ← effect_set effects;
  if negb (bool_decide (set = [])) then Some (Err "list combinator callback must be pure")
  else Some (
    let? callback_type := destination_type callback_result in
    try? require_type callback_type return_type "list combinator callback result" in
    let? expected := list_combinator_result operation item parameters return_type initial in
    if negb (match operation with LScan => true | _ => false end)
       && match initial with Some _ => true | None => false end
    then Err "only list scan accepts an initial value"
    else require_result destination expected "list combinator result")
| _ => Some (Err "list combinator callback must be Function")
end
| _ => Some (Err "list combinator values must be List")
end.

(** *** Sequences *)

Definition verify_sequence_from_list (destination values : Register) : result string unit :=
let? v := initialized_type values in
match v with
| TList item => require_result destination (TSequence item) "sequence destination"
| _ => Err "sequence source must be List"
end.

(** The five operations that take a callback on the items. *)
Inductive SequenceOperation := SMap | SFilter | SFind | SAny | SAll.

Definition verify_sequence_callback (operation : SequenceOperation)
(destination sequence callback : Register) : option (result string unit) :=
let* s := Some (initialized_type sequence) in
match s with
| TSequence item =>
let* c := Some (initialized_type callback) in
match c with
| TFunction parameters return_type effects =>
  set ← effect_set effects;
  if negb (bool_decide (set = [])) then Some (Err "sequence callback must be pure")
  else if negb (types_eqb parameters [item])
          || (negb (ValueType_eqb return_type TBool)
              && match operation with SMap => false | _ => true end)
  then Some (Err "sequence callback signature is invalid")
  else
    let expected := match operation with
                    | SMap => TSequence return_type
                    | SFilter => TSequence item
                    | SFind => TOption item
                    | SAny | SAll => TBool
                    end in
    Some (require_result destination expected "sequence destination")
| _ => Some (Err "sequence callback must be Function")
end
| _ => Some (Err "sequence operation source must be Sequence")
end.

Definition verify_sequence_take (destination sequence count : Register) : result string unit :=
let? s := initialized_type sequence in
match s with
| TSequence item =>
let? n := initialized_type count in
try? require_type n TInt "sequence count" in
require_result destination (TSequence item) "sequence destination"
| _ => Err "sequence source must be Sequence"
end.

Definition verify_sequence_fold (destination sequence initial callback : Register)
: option (result string unit) :=
let* s := Some (initialized_type sequence) in
match s with
| TSequence item =>
let* initial_type := Some (initialized_type initial) in
let* c := Some (initialized_type callback) in
match c with
| TFunction parameters return_type effects =>
  set ← effect_set effects;
  if negb (bool_decide (set = [])) then Some (Err "sequence callback must be pure")
  else if negb (types_eqb parameters [initial_type; item]
                && ValueType_eqb return_type initial_type)
  then Some (Err "sequence fold callback signature is invalid")
  else Some (require_result destination return_type "sequence fold destination")
| _ => Some (Err "sequence callback must be Function")
end
| _ => Some (Err "sequence source must be Sequence")
end.

Definition verify_sequence_to_list (destination sequence : Register) : result string unit :=
let? s := initialized_type sequence in
match s with
| TSequence item => require_result destination (TList item) "sequence list destination"
| _ => Err "sequence source must be Sequence"
end.

(** *** Effects, tools and templates *)

Definition verify_workspace_get (destination : Register) : result string unit :=
require_result destination TWorkspace "workspace destination".

(** A single prompt argument. *)
Definition prompt_argument (arguments : list Register) (count_message type_message : string)
: result string (list ValueType) :=
match arguments with
| [argument] =>
let? prompt := initialized_type argument in
match prompt_output_type prompt with
| None => Err type_message
| Some _ => Ok [prompt]
end
| _ => Err count_message
end.

(** The parameters of an effect; those that take prompts look at the arguments. *)
Definition effect_parameters (operation : EffectOperation) (arguments : list Register)
: result string (list ValueType) :=
match operation with
| ReadText | ReadBytes | List_ => Ok [TWorkspace; TString]
| WriteText | Search_ => Ok [TWorkspace; TString; TString]
| WriteBytes => Ok [TWorkspace; TString; TBytes]
| HttpGet | AgentMessage => Ok [TString]
| ExecRun => Ok [TList TString; TOption TBytes]
| AgentAsk =>
prompt_argument arguments "agent.ask requires one argument"
  "agent.ask argument must be Prompt<T>"
| PermissionRequestFile => Ok [external_file_request_type]
| PermissionRequestDirectory => Ok [external_directory_request_type]
| AgentTranscript => Ok [transcript_query_type]
| ModelRequest | UserAsk =>
prompt_argument arguments "typed request requires one prompt"
  "typed request argument must be Prompt<T>"
| SubAgentCreate =>
match arguments with
| [prompt; projection] =>
  let? prompt := initialized_type prompt in
  let? projection := initialized_type projection in
  if negb (bool_decide (prompt_output_type prompt = Some TUnit))
     || negb (ValueType_eqb projection sub_agent_projection_type)
  then Err "sub_agent.create signature is invalid" else Ok [prompt; projection]
| _ => Err "sub_agent.create requires prompt and projection"
end
| SubAgentRun =>
match arguments with
| [prompt; projection] =>
  let? prompt := initialized_type prompt in
  let? projection := initialized_type projection in
  if bool_decide (prompt_output_type prompt = None)
     || negb (ValueType_eqb projection sub_agent_projection_type)
  then Err "sub_agent.run signature is invalid" else Ok [prompt; projection]
| _ => Err "sub_agent.run requires prompt and projection"
end
| SubAgentMessage => Ok [TSubAgent; TString]
| SubAgentAsk =>
match arguments with
| [target; prompt] =>
  let? target := initialized_type target in
  let? prompt := initialized_type prompt in
  if negb (ValueType_eqb target TSubAgent) || bool_decide (prompt_output_type prompt = None)
  then Err "sub_agent.ask signature is invalid" else Ok [target; prompt]
| _ => Err "sub_agent.ask requires target and prompt"
end
end.

(** [prompt_output_type(&parameters[index]).expect("checked prompt")]; the
parameters of the operations that use it have been checked. *)
Definition prompt_output (parameters : list ValueType) (index : nat) : option ValueType :=
t ← parameters !! index; prompt_output_type t.

Definition effect_result (operation : EffectOperation) (parameters : list ValueType)
: option (result string ValueType) :=
let typed output error := Some (Ok (TResult output error)) in
match operation with
| AgentAsk => output ← prompt_output parameters 0; typed output agent_error_type
| ModelRequest => output ← prompt_output parameters 0; typed output model_error_type
| UserAsk => output ← prompt_output parameters 0; typed output user_error_type
| SubAgentCreate => typed TSubAgent sub_agent_error_type
| SubAgentRun => output ← prompt_output parameters 0; typed output sub_agent_error_type
| SubAgentMessage => typed TUnit sub_agent_error_type
| SubAgentAsk => output ← prompt_output parameters 1; typed output sub_agent_error_type
| _ => Some (ok_or (effect_result_type operation (transcript_part_enum_id module))
             "effect result type is unavailable")
end.

Definition effect_operation_signature (operation : EffectOperation) (arguments : list Register)
: option (result string (list ValueType * ValueType)) :=
let* parameters := Some (effect_parameters operation arguments) in
let* t := effect_result operation parameters in
Some (Ok (parameters, t)).

Definition is_file_operation (operation : EffectOperation) : bool :=
match operation with
| ReadText | ReadBytes | WriteText | WriteBytes | List_ | Search_ => true
| _ => false
end.

Definition verify_effect_call (destination : Register) (operation : EffectOperation)
(arguments : list Register) : option (result string unit) :=
let* expected := effect_operation_signature operation arguments in
try* Some (verify_call_arguments arguments expected.1) in
try* Some (require_result destination (TFuture expected.2) "effect operation result") in
require_own_effect (required_effect operation)
(if is_file_operation operation then "filesystem operation requires its matching effect"
 else "effect operation requires its matching effect").

Definition verify_tool_invoke (tool_contracts : option (list ToolVerificationContract))
(destination : Register) (tool : nat) (input : Register) : result string unit :=
let bad_destination :=
Err "tool invocation destination must be Future<Result<Output, Error>>" in
match tool_contracts with
| None => Err "tool invocation requires a frozen tool catalog"
| Some contracts =>
let? contract := ok_or (contracts !! tool) "tool invocation contract is out of range" in
let? input_type := initialized_type input in
let? d := destination_type destination in
match d with
| TFuture (TResult output error_type) =>
  let? declared_error :=
    ok_or (tool_declared_error_type module error_type (tvc_tool_name contract))
      "tool invocation error wrapper is invalid" in
  try? require_type input_type (tvc_input contract) "tool invocation input" in
  try? require_type output (tvc_output contract) "tool invocation output" in
  require_type declared_error (tvc_declared_error contract) "tool invocation declared error"
| _ => bad_destination
end
end.

Fixpoint template_scalar_type (t : ValueType) : ValueType :=
match t with TNewtype _ underlying => template_scalar_type underlying | _ => t end.

Fixpoint verify_holes (arguments : list Register) (holes : list TemplateHole)
: result string unit :=
match arguments, holes with
| register :: arguments', hole :: holes' =>
let? actual := initialized_type register in
if ValueType_eqb (template_scalar_type actual) (th_value_type hole)
then verify_holes arguments' holes'
else Err "template render operand type does not match its signature"
| _, _ => Ok tt
end.

Definition verify_template_render (templates : option (list TemplateResource))
(destination : Register) (template : nat) (arguments : list Register) : result string unit :=
let? templates := ok_or templates "template render requires a verified template table" in
let? resource := ok_or (templates !! template) "template render resource is out of range" in
if negb (Nat.eqb (length arguments) (length (tr_holes resource)))
then Err "template render operand count does not match its signature"
else
try? verify_holes arguments (tr_holes resource) in
require_result destination TString "template render destination".

(** One iteration of [verify_instruction_types]: the caches it leaves, or the
message of the error; [None] where the source panics. *)
Definition verify_instruction (tool_contracts : option (list ToolVerificationContract))
(templates : option (list TemplateResource)) (function_id : FunctionId) (i : Instruction)
(caches : Caches) : option (result string Caches) :=
let rule (r : result string unit) : option (result string Caches) :=
Some (let? _ := r in Ok caches) in
let guarded (r : option (result string unit)) : option (result string Caches) :=
try* r in Some (Ok caches) in
match i with
| Const destination constant => rule (verify_const destination constant)
| Move destination source => rule (verify_move destination source)
| IntBinary destination left_ right_ _ => rule (verify_int_binary destination left_ right_)
| IntRemainder destination left_ right_ => rule (verify_int_remainder destination left_ right_)
| FloatBinary destination left_ right_ _ => rule (verify_float_binary destination left_ right_)
| IntNegate destination source => rule (verify_int_negate destination source)
| FloatNegate destination source => rule (verify_float_negate destination source)
| Compare destination left_ right_ operation => Some (verify_compare destination left_ right_ operation caches)
| BoolNot destination source => rule (verify_bool_not destination source)
| BoolBinary destination left_ right_ _ => rule (verify_bool_binary destination left_ right_)
| ListNew destination elements => rule (verify_list_new destination elements)
| ListLiteralBuild destination items => rule (verify_list_literal_build destination items)
| RangeNew destination start end_ _ => rule (verify_range_new destination start end_)
| RangeStart destination range | RangeEnd destination range =>
rule (verify_range_bound destination range)
| RangeInclusive destination range => rule (verify_range_inclusive destination range)
| Length destination collection => rule (verify_length destination collection)
| ListAppend destination values value => rule (verify_list_append destination values value)
| ListSet destination values index value => rule (verify_list_set destination values index value)
| MapNew destination entries => rule (verify_map_new destination entries)
| MapLiteralBuild destination items => rule (verify_map_literal_build destination items)
| TupleNew destination elements => rule (verify_tuple_new destination elements)
| IndexGet destination collection index => rule (verify_index_get destination collection index)
| SliceGet destination collection start end_ =>
rule (verify_slice_get destination collection start end_)
| MapEntryAt destination map_ index => rule (verify_map_entry_at destination map_ index)
| TupleGet destination tuple index => rule (verify_tuple_get destination tuple index)
| RecordNew destination fields => rule (verify_record_new destination fields)
| FieldGet destination record field => rule (verify_field_get destination record field)
| NewtypeWrap destination source => rule (verify_newtype_wrap destination source)
| NewtypeUnwrap destination source => rule (verify_newtype_unwrap destination source)
| EnumNew destination variant payload => rule (verify_enum_new destination variant payload)
| BranchBool condition _ _ => rule (verify_branch_bool condition)
| SwitchEnum source arms => rule (verify_switch_enum source arms)
| Jump _ => rule (Ok tt)
| ToUnknown destination source => rule (verify_to_unknown destination source)
| Narrow destination source target => Some (verify_narrow destination source target caches)
| StringCall destination operation arguments =>
rule (verify_string_call destination operation arguments)
| StandardCall destination operation arguments =>
rule (verify_standard_call destination operation arguments)
| CapabilityInspect destination operation arguments =>
guarded (verify_capability_inspect destination operation arguments)
| SafeCollectionCall destination operation arguments =>
rule (verify_safe_collection_call destination operation arguments)
| CollectionCall destination operation arguments =>
rule (verify_collection_call destination operation arguments)
| CheckedIntCall destination operation arguments =>
rule (verify_checked_int_call destination operation arguments)
| Stop reason => rule (verify_stop reason)
| Fail_ reason => rule (verify_fail reason)
| Return_ source => rule (verify_return source)
| Convert destination source conversion => rule (verify_convert destination source conversion)
| TryResult destination source => rule (verify_try_result destination source)
| TryOption destination source => rule (verify_try_option destination source)
| Decode destination source target => Some (verify_decode destination source target caches)
| DirectCall destination callee arguments =>
guarded (verify_direct_call destination callee arguments)
| ClosureNew destination closure captures =>
guarded (verify_closure_new destination closure captures)
| ClosureCall destination closure arguments =>
guarded (verify_closure_call destination closure arguments)
| AsyncCall destination callee arguments =>
guarded (verify_async_call destination callee arguments)
| Spawn destination future _ => guarded (verify_spawn destination future)
| Await destination source => rule (verify_await function_id destination source)
| TaskSnapshot destination source => guarded (verify_task_snapshot destination source)
| TaskScopeEnter scope | TaskScopeExit scope => rule (verify_task_scope function_id scope)
| ListFold destination values initial callback =>
guarded (verify_list_fold destination values initial callback)
| ListCombinator_ destination operation values initial callback callback_result =>
guarded (verify_list_combinator destination operation values initial callback callback_result)
| SequenceFromList destination values => rule (verify_sequence_from_list destination values)
| SequenceMap destination sequence callback =>
guarded (verify_sequence_callback SMap destination sequence callback)
| SequenceFilter destination sequence callback =>
guarded (verify_sequence_callback SFilter destination sequence callback)
| SequenceFind destination sequence callback =>
guarded (verify_sequence_callback SFind destination sequence callback)
| SequenceAny destination sequence callback =>
guarded (verify_sequence_callback SAny destination sequence callback)
| SequenceAll destination sequence callback =>
guarded (verify_sequence_callback SAll destination sequence callback)
| SequenceTake destination sequence count =>
rule (verify_sequence_take destination sequence count)
| SequenceFold destination sequence initial callback =>
guarded (verify_sequence_fold destination sequence initial callback)
| SequenceToList destination sequence => rule (verify_sequence_to_list destination sequence)
| WorkspaceGet destination => rule (verify_workspace_get destination)
| EffectCall destination operation arguments =>
guarded (verify_effect_call destination operation arguments)
| ToolInvoke destination tool input =>
rule (verify_tool_invoke tool_contracts destination tool input)
| TemplateRender destination template arguments =>
rule (verify_template_render templates destination template arguments)
end.
End Rules.
