(* ===== verification/Verifier.v ===== *)
(** * The verifier of a function ([crates/allen-bytecode/src/verifier.rs])

    The tables of a module, the layout of a function, the loop over its
    instructions, and the analysis of definite initialization over its
    control-flow graph: it terminates, what it accepts holds on every path, and
    what it rejects fails on some path. *)

From S2P Require Import Prelude Text Bytecode VerifierTypes VerifierRules.
Open Scope string_scope.
Open Scope Z_scope.

(** ** Sources and destinations *)

Definition instruction_destination (i : Instruction) : option Register :=
  match i with
  | Const d _ | Move d _ | IntBinary d _ _ _ | IntRemainder d _ _ | FloatBinary d _ _ _
  | IntNegate d _ | FloatNegate d _ | Compare d _ _ _ | BoolNot d _ | BoolBinary d _ _ _
  | ListNew d _ | ListLiteralBuild d _ | RangeNew d _ _ _ | RangeStart d _ | RangeEnd d _
  | RangeInclusive d _ | Length d _ | ListAppend d _ _ | ListSet d _ _ _ | MapNew d _
  | MapLiteralBuild d _ | TupleNew d _ | IndexGet d _ _ | SliceGet d _ _ _ | MapEntryAt d _ _
  | TupleGet d _ _ | Convert d _ _ | RecordNew d _ | FieldGet d _ _ | NewtypeWrap d _
  | NewtypeUnwrap d _ | EnumNew d _ _ | TryResult d _ | TryOption d _ | ToUnknown d _
  | Narrow d _ _ | Decode d _ _ | DirectCall d _ _ | ClosureNew d _ _ | ClosureCall d _ _
  | AsyncCall d _ _ | Spawn d _ _ | Await d _ | TaskSnapshot d _ | WorkspaceGet d
  | EffectCall d _ _ | StringCall d _ _ | StandardCall d _ _ | CapabilityInspect d _ _
  | SafeCollectionCall d _ _ | CheckedIntCall d _ _ | CollectionCall d _ _ | ListFold d _ _ _
  | ListCombinator_ d _ _ _ _ _ | SequenceFromList d _ | SequenceMap d _ _
  | SequenceFilter d _ _ | SequenceTake d _ _ | SequenceFind d _ _ | SequenceAny d _ _
  | SequenceAll d _ _ | SequenceFold d _ _ _ | SequenceToList d _ | ToolInvoke d _ _
  | TemplateRender d _ _ => Some d
  | BranchBool _ _ _ | SwitchEnum _ _ | Jump _ | TaskScopeEnter _ | TaskScopeExit _ | Stop _
  | Fail_ _ | Return_ _ => None
  end.

Definition instruction_sources (i : Instruction) : list Register :=
  match i with
  | Const _ _ | WorkspaceGet _ | Jump _ | TaskScopeEnter _ | TaskScopeExit _ => []
  | Move _ s | IntNegate _ s | FloatNegate _ s | BoolNot _ s | Convert _ s _ | NewtypeWrap _ s
  | NewtypeUnwrap _ s | TryResult _ s | TryOption _ s | ToUnknown _ s | Narrow _ s _
  | Decode _ s _ | Await _ s | TaskSnapshot _ s | ToolInvoke _ _ s | SwitchEnum s _
  | Return_ s | Spawn _ s _ | Stop s | Fail_ s => [s]
  | IntBinary _ l r _ | IntRemainder _ l r | FloatBinary _ l r _ | Compare _ l r _
  | BoolBinary _ l r _ => [l; r]
  | ListNew _ elements | TupleNew _ elements => elements
  | ListLiteralBuild _ items =>
    map (λ item, match item with LElement r | LSpread r => r end) items
  | RangeNew _ start end_ _ => [start; end_]
  | RangeStart _ range | RangeEnd _ range | RangeInclusive _ range => [range]
  | Length _ collection => [collection]
  | ListAppend _ values value => [values; value]
  | ListSet _ values index value => [values; index; value]
  | MapNew _ entries => flat_map (λ e, [e.1; e.2]) entries
  | MapLiteralBuild _ items =>
    flat_map (λ item, match item with MEntry k v => [k; v] | MSpread r => [r] end) items
  | IndexGet _ collection index => [collection; index]
  | SliceGet _ collection start end_ => [collection; start; end_]
  | MapEntryAt _ map_ index => [map_; index]
  | TupleGet _ tuple _ => [tuple]
  | RecordNew _ fields => map snd fields
  | FieldGet _ record _ => [record]
  | EnumNew _ _ payload => payload
  | BranchBool condition _ _ => [condition]
  | DirectCall _ _ arguments | AsyncCall _ _ arguments | EffectCall _ _ arguments
  | StringCall _ _ arguments | StandardCall _ _ arguments | CapabilityInspect _ _ arguments
  | SafeCollectionCall _ _ arguments | CheckedIntCall _ _ arguments
  | CollectionCall _ _ arguments | TemplateRender _ _ arguments => arguments
  | ListFold _ values initial callback => [values; initial; callback]
  | ListCombinator_ _ _ values initial callback _ => [values; callback] ++ option_list initial
  | SequenceFromList _ values => [values]
  | SequenceMap _ sequence callback | SequenceFilter _ sequence callback
  | SequenceFind _ sequence callback | SequenceAny _ sequence callback
  | SequenceAll _ sequence callback => [sequence; callback]
  | SequenceTake _ sequence count => [sequence; count]
  | SequenceFold _ sequence initial callback => [sequence; initial; callback]
  | SequenceToList _ sequence => [sequence]
  | ClosureNew _ _ captures => captures
  | ClosureCall _ closure arguments => closure :: arguments
  end%list.

(** ** Tables of a module *)

Definition verify_constants (constants : list Constant) : result VerifyError unit :=
  for_each (λ c, match c with
                 | CFloat bits =>
                   if is_nan_bits bits && negb (bits =? CANONICAL_NAN_BITS)
                   then Err (VerifyError_module "Float constant has noncanonical NaN bits")
                   else Ok tt
                 | _ => Ok tt
                 end) constants.

Definition effect_segment (segment : string) : bool :=
  match bytes segment with
  | [] => false
  | b :: rest =>
    is_ascii_lowercase b
    && forallb (λ b, is_ascii_lowercase b || is_ascii_digit b || (b =? 95)) rest
  end.

Definition is_canonical_effect_id (effect : string) : bool :=
  let '(name, version) :=
    match rsplit_once "@" effect with Some (n, v) => (n, Some v) | None => (effect, None) end in
  let bad_version :=
    match version with
    | Some v => str_is_empty v || starts_with "0" v || negb (forallb is_ascii_digit (bytes v))
    | None => false
    end in
  if bad_version then false
  else forallb effect_segment (split_char "."%char name).

(** [Vec<String>]'s [Ord]. *)
Fixpoint effect_set_compare (s t : list string) : comparison :=
  match s, t with
  | [], [] => Eq
  | [], _ => Lt
  | _, [] => Gt
  | x :: s', y :: t' => match str_compare x y with Eq => effect_set_compare s' t' | c => c end
  end.

Fixpoint verify_effects (previous : option string) (effects : list string)
    : result VerifyError unit :=
  match effects with
  | [] => Ok tt
  | effect :: rest =>
    if negb (is_canonical_effect_id effect)
    then Err (VerifyError_module "effect ID is not canonical")
    else if match previous with Some p => str_geb p effect | None => false end
    then Err (VerifyError_module "effects must be unique and sorted by UTF-8 bytes")
    else verify_effects (Some effect) rest
  end.

Fixpoint verify_effect_set_list (previous : option (list string)) (sets : list (list string))
    : result VerifyError unit :=
  match sets with
  | [] => Ok tt
  | effects :: rest =>
    if match previous with
       | Some p => match effect_set_compare p effects with Lt => false | _ => true end
       | None => false
       end
    then Err (VerifyError_module "effect sets must be unique and sorted lexicographically")
    else try? verify_effects None effects in verify_effect_set_list (Some effects) rest
  end.

Definition verify_effect_sets (sets : list (list string)) : result VerifyError unit :=
  if u32_max <? Z.of_nat (length sets)
  then Err (VerifyError_module "effect set table is too large")
  else verify_effect_set_list None sets.

(** The loop over the parameters and captures; [seen] is the set [inputs]. *)
Fixpoint verify_inputs (function : Function) (seen inputs : list Register)
    : result VerifyError unit :=
  match inputs with
  | [] => Ok tt
  | r :: rest =>
    if existsb (Nat.eqb r) seen
    then Err (VerifyError_module "function parameter and capture registers must be distinct")
    else
      match fn_registers function !! r with
      | None =>
        Err (VerifyError_module "function parameter or capture register is out of range")
      | Some t =>
        if ValueType_eqb t TNever
        then Err (VerifyError_module "function parameter or capture cannot have type Never")
        else if existsb (Nat.eqb r) (fn_captures function) && is_affine_type t
        then Err (VerifyError_module "closure capture cannot have type Future or Task")
        else verify_inputs function (r :: seen) rest
      end
  end.

Definition verify_function_layout (module : Module_) (function : Function)
    : result VerifyError unit :=
  if str_is_empty (fn_name function) then Err (VerifyError_module "function name must be nonempty")
  else if u16_max + 1 <? Z.of_nat (length (fn_registers function))
  then Err (VerifyError_module "function register table is too large")
  else if Nat.leb (length (effect_sets module)) (fn_effects function)
  then Err (VerifyError_module "function effect set ID is out of range")
  else
    try? verify_inputs function [] (fn_parameters function ++ fn_captures function)%list in
    try? for_each (λ t, map_err VerifyError_module (verify_module_value_type module t 0))
           (fn_registers function) in
    map_err VerifyError_module (verify_module_value_type module (fn_return_type function) 0).

(** ** Instruction types of a function *)

Definition mark (initialized : list bool) (destination : option Register) : list bool :=
  match destination with Some d => <[d := true]> initialized | None => initialized end.

Section InstructionTypes.
Context (tool_contracts : option (list ToolVerificationContract)).
Context (templates : option (list TemplateResource)).

(** The loop of [verify_instruction_types].  It starts with every register
marked: definite initialization is the analysis below.  [None] is a panic. *)
Fixpoint verify_code_types (module : Module_) (function_index : nat) (function : Function)
(initialized : list bool) (caches : Caches) (index : nat) (code : list Instruction)
: option (result VerifyError unit) :=
match code with
| [] => Some (Ok tt)
| i :: rest =>
match verify_instruction module function initialized tool_contracts templates function_index
        i caches with
| None => None
| Some (Err message) =>
  Some (Err (VerifyError_instruction function_index index message))
| Some (Ok caches) =>
  verify_code_types module function_index function
    (mark initialized (instruction_destination i)) caches (S index) rest
end
end.

Definition verify_instruction_types (module : Module_) (function_index : nat)
(function : Function) : option (result VerifyError unit) :=
match
(try? for_each (λ t, map_err VerifyError_module (verify_module_value_type module t 0))
        (fn_registers function) in
 map_err VerifyError_module (verify_module_value_type module (fn_return_type function) 0))
with
| Err e => Some (Err e)
| Ok _ =>
let no_cache := replicate (length (enum_types module)) None in
verify_code_types module function_index function
  (replicate (length (fn_registers function)) true) (no_cache, no_cache) 0 (fn_code function)
end.

End InstructionTypes.

(** ** Definite initialization *)

Abbreviation EntryStates := (list (option (list bool))) (only parsing).

Definition validate_target (target code_len : nat) : result string unit :=
  if Nat.ltb target code_len then Ok tt else Err "control-flow target is out of range".

Definition instruction_targets (i : Instruction) : list nat :=
  match i with
  | BranchBool _ true_target false_target => [true_target; false_target]
  | SwitchEnum _ arms => map arm_target arms
  | Jump target => [target]
  | _ => []
  end.

Fixpoint validate_targets (function_index index code_len : nat) (code : list Instruction)
    : result VerifyError unit :=
  match code with
  | [] => Ok tt
  | i :: rest =>
    try? map_err (VerifyError_instruction function_index index)
           (for_each (λ t, validate_target t code_len) (instruction_targets i)) in
    validate_targets function_index (S index) code_len rest
  end.

(** [current.iter_mut().zip(incoming)]: clear what the incoming edge lacks. *)
Fixpoint meet (current incoming : list bool) : list bool :=
  match current, incoming with
  | a :: current', b :: incoming' => (a && b) :: meet current' incoming'
  | _, _ => current
  end.

(** An index outside the table panics in the source; the targets are validated. *)
Definition merge_edge (states : EntryStates) (worklist : list nat) (target : nat)
    (incoming : list bool) : EntryStates * list nat :=
  match states !! target with
  | Some None => (<[target := Some incoming]> states, worklist ++ [target])%list
  | Some (Some current) =>
    let next := meet current incoming in
    if bool_decide (next = current) then (states, worklist)
    else (<[target := Some next]> states, worklist ++ [target])%list
  | None => (states, worklist)
  end.

(** The edges out of an instruction: the target and the registers bound on it. *)
Definition instruction_edges (index code_len : nat) (i : Instruction)
    : result string (list (nat * list Register)) :=
  match i with
  | Return_ _ | Stop _ | Fail_ _ => Ok []
  | Jump target => Ok [(target, [])]
  | BranchBool _ true_target false_target => Ok [(true_target, []); (false_target, [])]
  | SwitchEnum _ arms => Ok (map (λ arm, (arm_target arm, arm_bindings arm)) arms)
  | _ =>
    if Nat.eqb (S index) code_len then Err "reachable path falls through the function"
    else Ok [(S index, [])]
  end.

Definition mark_all (state : list bool) (registers : list Register) : list bool :=
  fold_left (λ s r, <[r := true]> s) registers state.

Fixpoint merge_edges (states : EntryStates) (worklist : list nat) (state : list bool)
    (edges : list (nat * list Register)) : EntryStates * list nat :=
  match edges with
  | [] => (states, worklist)
  | (target, bindings) :: rest =>
    let '(states, worklist) := merge_edge states worklist target (mark_all state bindings) in
    merge_edges states worklist state rest
  end.

(** One iteration of the loop for the instruction taken from the worklist. *)
Definition cfg_step (code : list Instruction) (states : EntryStates) (worklist : list nat)
    (index : nat) : result string (EntryStates * list nat) :=
  match code !! index, mjoin (states !! index) with
  | Some i, Some state =>
    if existsb (λ r, negb (default false (state !! r))) (instruction_sources i)
    then Err "register is not initialized"
    else
      let state := mark state (instruction_destination i) in
      let? edges := instruction_edges index (length code) i in
      Ok (merge_edges states worklist state edges)
  | _, _ => Ok (states, worklist) (* unreachable: the worklist holds reachable indices *)
  end.

Fixpoint cfg_loop (fuel : nat) (function_index : nat) (code : list Instruction)
    (states : EntryStates) (worklist : list nat) : option (result VerifyError EntryStates) :=
  match worklist with
  | [] => Some (Ok states)
  | index :: worklist =>
    match fuel with
    | O => None
    | S fuel =>
      match cfg_step code states worklist index with
      | Err message => Some (Err (VerifyError_instruction function_index index message))
      | Ok (states, worklist) => cfg_loop fuel function_index code states worklist
      end
    end
  end.

(** Every push lowers a state of the table. *)
Definition cfg_fuel (function : Function) : nat :=
  S (length (fn_code function) * S (length (fn_registers function)))%nat.

Definition initial_states (function : Function) : EntryStates :=
  let initial := mark_all (replicate (length (fn_registers function)) false)
                   (fn_parameters function ++ fn_captures function)%list in
  match replicate (length (fn_code function)) (@None (list bool)) with
  | [] => []
  | _ :: rest => Some initial :: rest
  end.

Section FunctionChecks.
Context (tool_contracts : option (list ToolVerificationContract)).
Context (templates : option (list TemplateResource)).

(** [verify_cfg_function] up to the reachability check; its passes over
sub-agents, back edges and affine ownership come after it. *)
Definition verify_cfg (module : Module_) (function_index : nat) (function : Function)
: option (result VerifyError EntryStates) :=
match verify_instruction_types tool_contracts templates module function_index function with
| None => None
| Some (Err e) => Some (Err e)
| Some (Ok _) =>
match fn_code function with
| [] =>
  Some (Err (VerifyError_instruction function_index 0
               "function has no reachable terminal instruction"))
| _ :: _ =>
  match validate_targets function_index 0 (length (fn_code function)) (fn_code function) with
  | Err e => Some (Err e)
  | Ok _ =>
    match cfg_loop (cfg_fuel function) function_index (fn_code function)
            (initial_states function) [0%nat] with
    | Some (Ok states) =>
      match position (λ s : option (list bool), match s with None => true | _ => false end)
              states with
      | Some unreachable =>
        Some (Err (VerifyError_instruction function_index unreachable
                     "instruction is unreachable"))
      | None => Some (Ok states)
      end
    | other => other
    end
  end
end
end.

(** The checks of [verify_internal] on one function. *)
Definition verify_function (module : Module_) (function_index : nat) (function : Function)
: option (result VerifyError EntryStates) :=
match verify_function_layout module function with
| Err e => Some (Err e)
| Ok _ => verify_cfg module function_index function
end.

End FunctionChecks.

(** ** Lemmas: the analysis terminates *)

(** How far a table can still be lowered. *)
Definition state_potential (registers : nat) (s : option (list bool)) : nat :=
  match s with
  | None => S registers
  | Some s => length (List.filter id s)
  end.
Definition potential (registers : nat) (states : EntryStates) : nat :=
  sum_list_with (state_potential registers) states.

(** Every state of the table covers all registers. *)
Definition states_wf (registers : nat) (states : EntryStates) : Prop :=
  ∀ j s, states !! j = Some (Some s) → length s = registers.

Lemma length_meet s t : length (meet s t) = length s.
Proof. revert t. induction s as [|a s IH]; intros [|b t]; simpl; auto. Qed.

Lemma length_mark s d : length (mark s d) = length s.
Proof. destruct d; simpl; [apply length_insert|done]. Qed.

Lemma length_mark_all s rs : length (mark_all s rs) = length s.
Proof.
  unfold mark_all. revert s. induction rs as [|r rs IH]; intros s; simpl; [done|].
  by rewrite IH, length_insert.
Qed.

Lemma filter_length_le s : (length (List.filter id s) <= length s)%nat.
Proof. apply List.filter_length_le. Qed.

Lemma meet_potential s t :
  meet s t ≠ s → (length (List.filter id (meet s t)) < length (List.filter id s))%nat.
Proof.
  assert (∀ s t, length (List.filter id (meet s t)) <= length (List.filter id s))%nat as Hle.
  { clear. intros s. induction s as [|a s IH]; intros [|b t]; simpl; try lia.
    specialize (IH t). destruct a, b; simpl; lia. }
  revert t. induction s as [|a s IH]; intros [|b t]; simpl; try done. intros Hne.
  destruct a, b; simpl in *.
  - assert (meet s t ≠ s) as H by congruence. specialize (IH t H). lia.
  - specialize (Hle s t). lia.
  - apply IH. congruence.
  - apply IH. congruence.
Qed.

Lemma sum_insert_lt {A} (f : A → nat) (l : list A) i x y :
  l !! i = Some x → (f y < f x)%nat → (sum_list_with f (<[i := y]> l) < sum_list_with f l)%nat.
Proof.
  revert i. induction l as [|z l IH]; intros [|i] Hi Hlt; simplify_eq/=; [lia|].
  specialize (IH i Hi Hlt). lia.
Qed.

Lemma merge_edge_wf registers states worklist target incoming :
  states_wf registers states → length incoming = registers →
  states_wf registers (merge_edge states worklist target incoming).1.
Proof.
  intros Hwf Hl. unfold merge_edge. destruct (states !! target) as [[current|]|] eqn:Ht; [| |done].
  - case_bool_decide; [done|]. intros j s Hj. cbn [fst] in Hj.
    destruct (decide (j = target)) as [->|]; [|rewrite list_lookup_insert_ne in Hj by done; eauto].
    rewrite list_lookup_insert_eq in Hj by (by eapply lookup_lt_Some). simplify_eq.
    rewrite length_meet. eauto.
  - intros j s Hj. cbn [fst] in Hj.
    destruct (decide (j = target)) as [->|]; [|rewrite list_lookup_insert_ne in Hj by done; eauto].
    rewrite list_lookup_insert_eq in Hj by (by eapply lookup_lt_Some). by simplify_eq.
Qed.

Lemma merge_edge_potential registers states worklist target incoming :
  length incoming = registers →
  let '(states', worklist') := merge_edge states worklist target incoming in
  (length worklist' + potential registers states'
   <= length worklist + potential registers states)%nat.
Proof.
  intros Hl. unfold merge_edge. destruct (states !! target) as [[current|]|] eqn:Ht; [| |done].
  - case_bool_decide as Hne; [done|]. rewrite length_app. simpl. unfold potential.
    pose proof (sum_insert_lt (state_potential registers) states target (Some current)
                  (Some (meet current incoming)) Ht (meet_potential _ _ Hne)). lia.
  - rewrite length_app. simpl. unfold potential.
    assert (state_potential registers (Some incoming) < state_potential registers None)%nat as Hlt.
    { simpl. pose proof (filter_length_le incoming). lia. }
    pose proof (sum_insert_lt _ states target None (Some incoming) Ht Hlt). lia.
Qed.

Lemma merge_edges_potential registers states worklist state edges :
  states_wf registers states → length state = registers →
  let '(states', worklist') := merge_edges states worklist state edges in
  states_wf registers states'
  ∧ (length worklist' + potential registers states'
     <= length worklist + potential registers states)%nat.
Proof.
  intros Hwf Hl. revert states worklist Hwf.
  induction edges as [|[target bindings] edges IH]; intros states worklist Hwf; simpl; [done|].
  assert (length (mark_all state bindings) = registers) as Hm by (by rewrite length_mark_all).
  pose proof (merge_edge_wf registers states worklist target _ Hwf Hm) as Hwf'.
  pose proof (merge_edge_potential registers states worklist target _ Hm) as Hp.
  destruct (merge_edge states worklist target _) as [states' worklist']. simpl in Hwf'.
  specialize (IH states' worklist' Hwf'). destruct (merge_edges states' worklist' state edges).
  destruct IH. split; [done|lia].
Qed.

Lemma cfg_step_potential registers code states worklist index states' worklist' :
  states_wf registers states →
  cfg_step code states worklist index = Ok (states', worklist') →
  states_wf registers states'
  ∧ (length worklist' + potential registers states'
     <= length worklist + potential registers states)%nat.
Proof.
  intros Hwf. unfold cfg_step. destruct (code !! index) as [i|]; [|by intros [= <- <-]].
  destruct (states !! index) as [[state|]|] eqn:Hs; simpl; try (by intros [= <- <-]).
  destruct (existsb _ _); [done|]. destruct (instruction_edges _ _ _) as [edges|]; [|done].
  intros [= E].
  pose proof (merge_edges_potential registers states worklist
                (mark state (instruction_destination i)) edges Hwf) as Hm.
  rewrite length_mark in Hm. rewrite E in Hm. apply Hm. by eapply Hwf.
Qed.

Lemma cfg_loop_total registers fuel function_index code states worklist :
  states_wf registers states → (length worklist + potential registers states <= fuel)%nat →
  is_Some (cfg_loop fuel function_index code states worklist).
Proof.
  revert states worklist. induction fuel as [|fuel IH]; intros states [|index worklist] Hwf Hf;
    simpl in *; try (by eexists); [lia|].
  destruct (cfg_step code states worklist index) as [[states' worklist']|] eqn:E; [|by eexists].
  apply (cfg_step_potential registers) in E as [Hwf' Hp]; [|done]. apply IH; [done|lia].
Qed.

Lemma initial_states_wf function :
  states_wf (length (fn_registers function)) (initial_states function).
Proof.
  unfold initial_states. intros j s. destruct (length (fn_code function)) as [|n]; simpl; [done|].
  destruct j as [|j]; simpl.
  - intros [= <-]. by rewrite length_mark_all, length_replicate.
  - intros Hj. apply lookup_replicate in Hj as [? _]. done.
Qed.

Lemma initial_potential function :
  (1 + potential (length (fn_registers function)) (initial_states function)
   <= cfg_fuel function)%nat.
Proof.
  unfold cfg_fuel, initial_states. set (R := length (fn_registers function)).
  set (initial := mark_all _ _).
  assert (∀ n, potential R (replicate n None) = n * S R)%nat as Hr.
  { clear. induction n as [|n IH]; [done|]. unfold potential in *. simpl. rewrite IH. lia. }
  destruct (length (fn_code function)) as [|n]; simpl; [lia|].
  unfold potential. simpl. fold (potential R (replicate n None)). rewrite Hr.
  pose proof (filter_length_le initial) as Hl. subst initial.
  rewrite length_mark_all, length_replicate in Hl. lia.
Qed.

(** ** Lemmas: the analysis is sound *)

(** [s] claims no register that [s'] does not have. *)
Definition le_state (s s' : list bool) : Prop := ∀ r, s !! r = Some true → s' !! r = Some true.

#[export] Instance le_state_preorder : PreOrder le_state.
Proof. split; [intros s r; done|intros s t u Hst Htu r Hr; auto]. Qed.

Lemma meet_le_l s t : le_state (meet s t) s.
Proof.
  revert t. induction s as [|a s IH]; intros [|b t] [|r] Hr; simplify_eq/=; try done.
  - by destruct a, b.
  - by apply (IH t).
Qed.

Lemma meet_le_r s t : length s = length t → le_state (meet s t) t.
Proof.
  revert t. induction s as [|a s IH]; intros [|b t] Hl [|r] Hr; simplify_eq/=; try done.
  - by destruct a, b.
  - by apply IH.
Qed.

(** The edge to [target] is accounted for in the table. *)
Definition edge_ok (states : EntryStates) (state : list bool) (e : nat * list Register) : Prop :=
  ∃ s, states !! e.1 = Some (Some s) ∧ le_state s (mark_all state e.2).

(** The instruction at [index] reads initialized registers only and its edges are
    accounted for. *)
Definition sound_at (code : list Instruction) (states : EntryStates) (index : nat) : Prop :=
  ∀ i s, code !! index = Some i → states !! index = Some (Some s) →
    Forall (λ r, s !! r = Some true) (instruction_sources i)
    ∧ ∃ edges, instruction_edges index (length code) i = Ok edges
               ∧ Forall (edge_ok states (mark s (instruction_destination i))) edges.

(** What merging does to a table. *)
Record lowered (states states' : EntryStates) (worklist worklist' : list nat) : Prop := {
  lo_length : length states' = length states;
  lo_keeps j : j ∈ worklist → j ∈ worklist';
  lo_same j : j ∉ worklist' → states' !! j = states !! j;
  lo_le j s : states !! j = Some (Some s) → ∃ s', states' !! j = Some (Some s') ∧ le_state s' s
}.

Lemma lowered_refl states worklist : lowered states states worklist worklist.
Proof. constructor; try done. intros j s Hj. by exists s. Qed.

Lemma lowered_trans states1 states2 states3 w1 w2 w3 :
  lowered states1 states2 w1 w2 → lowered states2 states3 w2 w3 → lowered states1 states3 w1 w3.
Proof.
  intros [L1 K1 S1 E1] [L2 K2 S2 E2]. constructor.
  - congruence.
  - auto.
  - intros j Hj. rewrite S2 by done. apply S1. auto.
  - intros j s Hj. destruct (E1 j s Hj) as (s' & Hs' & Hle). destruct (E2 j s' Hs') as (s'' & ? & ?).
    exists s''. split; [done|]. by etrans.
Qed.

Lemma lowered_insert states worklist target x s :
  states !! target = Some x → (∀ c, x = Some c → le_state s c) →
  lowered states (<[target := Some s]> states) worklist (worklist ++ [target]).
Proof.
  intros Hx Hle. pose proof (lookup_lt_Some _ _ _ Hx) as Hlt. constructor.
  - apply length_insert.
  - set_solver.
  - intros j Hj. apply list_lookup_insert_ne. set_solver.
  - intros j c Hj. destruct (decide (j = target)) as [->|Hne].
    + exists s. rewrite list_lookup_insert_eq by done. split; [done|]. apply Hle. congruence.
    + exists c. by rewrite list_lookup_insert_ne.
Qed.

Lemma merge_edge_lowered registers states worklist target incoming :
  states_wf registers states → length incoming = registers → (target < length states)%nat →
  let '(states', worklist') := merge_edge states worklist target incoming in
  lowered states states' worklist worklist'
  ∧ ∃ s, states' !! target = Some (Some s) ∧ le_state s incoming.
Proof.
  intros Hwf Hl Hlt. unfold merge_edge.
  destruct (states !! target) as [[current|]|] eqn:Ht; [| |by apply lookup_ge_None in Ht; lia].
  - assert (le_state (meet current incoming) incoming) as Hle.
    { apply meet_le_r. rewrite Hl. by eapply Hwf. }
    case_bool_decide as Hm.
    + split; [apply lowered_refl|]. exists current. rewrite Hm in Hle. done.
    + split.
      * eapply lowered_insert; [done|]. intros c [= <-]. apply meet_le_l.
      * eexists. by rewrite list_lookup_insert_eq.
  - split; [eapply lowered_insert; [done|done]|]. exists incoming.
    rewrite list_lookup_insert_eq by done. done.
Qed.

Lemma edge_ok_lowered states states' worklist worklist' state e :
  lowered states states' worklist worklist' → edge_ok states state e → edge_ok states' state e.
Proof.
  intros [_ _ _ Hle] (s & Hs & Hles). destruct (Hle _ _ Hs) as (s' & Hs' & Hle').
  exists s'. split; [done|]. by etrans.
Qed.

Lemma merge_edges_lowered registers states worklist state edges :
  states_wf registers states → length state = registers →
  Forall (λ e : nat * list Register, (e.1 < length states)%nat) edges →
  let '(states', worklist') := merge_edges states worklist state edges in
  lowered states states' worklist worklist' ∧ Forall (edge_ok states' state) edges.
Proof.
  intros Hwf Hl. revert states worklist Hwf.
  induction edges as [|[target bindings] edges IH]; intros states worklist Hwf Hes; simpl.
  { split; [apply lowered_refl|done]. }
  apply Forall_cons in Hes as [He Hes]. simpl in He.
  assert (length (mark_all state bindings) = registers) as Hm by (by rewrite length_mark_all).
  pose proof (merge_edge_wf registers states worklist target _ Hwf Hm) as Hwf'.
  pose proof (merge_edge_lowered registers states worklist target _ Hwf Hm He) as Hlo.
  destruct (merge_edge states worklist target _) as [states1 worklist1]. simpl in Hwf'.
  destruct Hlo as [Hlo (s & Hs & Hle)].
  specialize (IH states1 worklist1 Hwf'). rewrite (lo_length _ _ _ _ Hlo) in IH. specialize (IH Hes).
  destruct (merge_edges states1 worklist1 state edges) as [states2 worklist2].
  destruct IH as [Hlo2 Hes2]. split; [by eapply lowered_trans|]. constructor; [|done].
  eapply edge_ok_lowered; [exact Hlo2|]. by exists s.
Qed.

Lemma sound_at_lowered code states states' worklist worklist' j :
  lowered states states' worklist worklist' → j ∉ worklist' →
  sound_at code states j → sound_at code states' j.
Proof.
  intros Hlo Hj Hs i s Hi Hst. rewrite (lo_same _ _ _ _ Hlo j Hj) in Hst.
  destruct (Hs i s Hi Hst) as (Hsrc & edges & He & Hall). split; [done|]. exists edges.
  split; [done|]. eapply Forall_impl; [exact Hall|]. intros e. by apply edge_ok_lowered with worklist worklist'.
Qed.

(** The targets of every instruction are inside the code. *)
Definition targets_ok (code : list Instruction) : Prop :=
  ∀ i, i ∈ code → Forall (λ t, (t < length code)%nat) (instruction_targets i).

Lemma edges_in_range code index i edges :
  targets_ok code → code !! index = Some i →
  instruction_edges index (length code) i = Ok edges →
  Forall (λ e : nat * list Register, (e.1 < length code)%nat) edges.
Proof.
  intros Ht Hi He. pose proof (Ht i (list_elem_of_lookup_2 _ _ _ Hi)) as Hti.
  pose proof (lookup_lt_Some _ _ _ Hi) as Hlt.
  destruct i; cbn [instruction_edges instruction_targets] in *;
    try (destruct (Nat.eqb _ _) eqn:E; [done|]; injection He as <-;
         apply Nat.eqb_neq in E; constructor; [simpl; lia|constructor]);
    injection He as <-; try (by constructor).
  - inversion Hti as [|? ? H1 H2]; subst. inversion H2; subst.
    constructor; [done|]. by constructor.
  - apply Forall_fmap in Hti. apply Forall_fmap. exact Hti.
  - inversion Hti; subst. by constructor.
Qed.

Lemma cfg_step_sound registers code states worklist index states' worklist' :
  targets_ok code → length states = length code → states_wf registers states →
  cfg_step code states worklist index = Ok (states', worklist') →
  lowered states states' worklist worklist'
  ∧ (index ∉ worklist' → sound_at code states' index).
Proof.
  intros Ht Hlen Hwf. unfold cfg_step.
  destruct (code !! index) as [i|] eqn:Hi;
    [|intros [= <- <-]; split; [apply lowered_refl|]; intros _ ?? H; by rewrite Hi in H].
  destruct (states !! index) as [[state|]|] eqn:Hs; simpl;
    try (intros [= <- <-]; split; [apply lowered_refl|]; intros _ ?? _ H; by rewrite Hs in H).
  destruct (existsb _ _) eqn:Hsrc; [done|].
  destruct (instruction_edges _ _ _) as [edges|] eqn:He; [|done]. intros [= E].
  pose proof (edges_in_range code index i edges Ht Hi He) as Hr. rewrite <- Hlen in Hr.
  pose proof (merge_edges_lowered registers states worklist
                (mark state (instruction_destination i)) edges Hwf) as Hm.
  rewrite length_mark, E in Hm. specialize (Hm ltac:(by eapply Hwf) Hr) as [Hlo Hall].
  split; [done|]. intros Hni j s Hj Hst. rewrite (lo_same _ _ _ _ Hlo _ Hni), Hs in Hst.
  rewrite Hi in Hj. simplify_eq. split; [|by exists edges].
  apply Forall_forall. intros r Hr'. apply not_true_iff_false in Hsrc.
  rewrite existsb_exists in Hsrc. destruct (s !! r) as [[]|] eqn:Er; [done| |];
    destruct Hsrc; exists r; split; try (by apply list_elem_of_In); by rewrite Er.
Qed.

Lemma cfg_loop_sound registers fuel function_index code states worklist result_ :
  targets_ok code → length states = length code → states_wf registers states →
  (∀ j, j ∉ worklist → sound_at code states j) →
  cfg_loop fuel function_index code states worklist = Some (Ok result_) →
  length result_ = length code ∧ states_wf registers result_
  ∧ (∀ j, sound_at code result_ j)
  ∧ ∀ j s, states !! j = Some (Some s) →
      ∃ s', result_ !! j = Some (Some s') ∧ le_state s' s.
Proof.
  intros Ht. revert states worklist. induction fuel as [|fuel IH];
    intros states [|index worklist] Hlen Hwf Hsound; simpl; try done;
    try (intros [= <-]; split_and!; try done;
         [intros j; apply Hsound; apply not_elem_of_nil|intros j s Hj; by exists s]).
  destruct (cfg_step code states worklist index) as [[states' worklist']|] eqn:E; [|done].
  intros Hrun. pose proof (cfg_step_sound registers _ _ _ _ _ _ Ht Hlen Hwf E) as [Hlo Hidx].
  pose proof (cfg_step_potential registers _ _ _ _ _ _ Hwf E) as [Hwf' _].
  destruct (IH states' worklist') as (H1 & H2 & H3 & H4); try done.
  - rewrite (lo_length _ _ _ _ Hlo). done.
  - intros j Hj. destruct (decide (j = index)) as [->|Hne]; [by apply Hidx|].
    eapply sound_at_lowered; [exact Hlo|done|]. apply Hsound.
    intros [->|Hw]%elem_of_cons; [done|]. by apply Hj, (lo_keeps _ _ _ _ Hlo).
  - split_and!; try done. intros j s Hj. destruct (lo_le _ _ _ _ Hlo j s Hj) as (s1 & Hs1 & Hle).
    destruct (H4 j s1 Hs1) as (s2 & Hs2 & Hle2). exists s2. split; [done|]. by etrans.
Qed.

Lemma validate_targets_ok function_index index code_len code :
  validate_targets function_index index code_len code = Ok tt →
  ∀ i, i ∈ code → Forall (λ t, (t < code_len)%nat) (instruction_targets i).
Proof.
  revert index. induction code as [|i code IH]; intros index; simpl.
  { intros _ i Hi. by apply elem_of_nil in Hi. }
  destruct (for_each _ _) as [[]|] eqn:E; simpl; [|done]. intros Hrest j [->|Hj]%elem_of_cons.
  - apply for_each_ok in E. eapply Forall_impl; [exact E|]. intros t Ht. unfold validate_target in Ht.
    destruct (Nat.ltb_spec t code_len); done.
  - by eapply IH.
Qed.

(** ** What an accepted function satisfies *)

Lemma position_None {X} (f : X → bool) l : position f l = None ↔ Forall (λ x, f x = false) l.
Proof.
  induction l as [|x l IH]; simpl; [done|]. rewrite Forall_cons. destruct (f x); [by split; [|intros []]|].
  rewrite <- IH. destruct (position f l); simpl; split; [done|by intros []|done|done].
Qed.

Section Accepted.
Context (tool_contracts : option (list ToolVerificationContract)).
Context (templates : option (list TemplateResource)).

(** Some run of the rule of an instruction accepted it, with a cache of concrete
enums that is right. *)
Definition accepts (module : Module_) (function : Function) (function_id : FunctionId)
(i : Instruction) : Prop :=
∃ initialized caches caches', cache_closed module false caches.1 ∧
verify_instruction module function initialized tool_contracts templates function_id i caches
= Some (Ok caches').

Lemma verify_instruction_cache module function initialized function_id i caches caches' :
verify_instruction module function initialized tool_contracts templates function_id i caches
= Some (Ok caches') →
cache_closed module false caches.1 → cache_closed module false caches'.1.
Proof.
intros Hv Hc.
assert (∀ t b c, is_concrete_type module t caches.1 = (b, c) → cache_closed module false c) as Ht.
{ intros t b c Ht. pose proof (enum_closed_tests module false (enum_fuel module) t caches.1 Hc)
  as [Hc' _]. unfold is_concrete_type in Ht. by rewrite Ht in Hc'. }
destruct i; cbn [verify_instruction] in Hv;
try (repeat (case_match; try discriminate Hv); by injection Hv as <-).
- unfold verify_compare in Hv. repeat (case_match; try discriminate Hv); simplify_eq/=; done.
- unfold verify_narrow in Hv. repeat (case_match; try discriminate Hv); simplify_eq/=; by eapply Ht.
- unfold verify_decode in Hv. repeat (case_match; try discriminate Hv); simplify_eq/=; by eapply Ht.
Qed.

Lemma verify_code_types_ok module function_index function initialized caches index code j i :
cache_closed module false caches.1 →
verify_code_types tool_contracts templates module function_index function initialized caches
index code = Some (Ok tt) →
code !! j = Some i → accepts module function function_index i.
Proof.
revert initialized caches index j. induction code as [|i' code IH];
intros initialized caches index j Hc Hv Hj; simpl in *; [done|].
destruct (verify_instruction _ _ _ _ _ _ i' caches) as [[caches'|]|] eqn:E; try done.
destruct j as [|j]; simplify_eq/=; [by do 3 eexists|].
eapply IH; [|done..]. by eapply verify_instruction_cache.
Qed.

Lemma map_key_checked module k e depth :
verify_module_value_type module (TMap k e) depth = Ok tt → is_map_key k = true.
Proof.
cbn [verify_module_value_type]. destruct (Nat.ltb _ _); [done|]. by destruct (is_map_key k).
Qed.

(** The facts the checks of a function establish. *)
Record verified (module : Module_) (function_id : FunctionId) (function : Function)
(states : EntryStates) : Prop := {
vf_maps r k e : fn_registers function !! r = Some (TMap k e) → is_map_key k = true;
vf_rules j i : fn_code function !! j = Some i → accepts module function function_id i;
vf_nonempty : fn_code function ≠ [];
vf_targets : targets_ok (fn_code function);
vf_length : length states = length (fn_code function);
vf_reached j : (j < length (fn_code function))%nat → ∃ s, states !! j = Some (Some s);
vf_sound j : sound_at (fn_code function) states j;
vf_entry : ∃ s, states !! 0%nat = Some (Some s)
∧ le_state s (mark_all (replicate (length (fn_registers function)) false)
                (fn_parameters function ++ fn_captures function))
}.

Lemma verify_layout_maps module function r k e :
verify_function_layout module function = Ok tt →
fn_registers function !! r = Some (TMap k e) → is_map_key k = true.
Proof.
unfold verify_function_layout. repeat (case_match; try discriminate). intros _ Hr.
match goal with H : for_each _ _ = Ok ?u |- _ => destruct u; rename H into Hf end.
apply for_each_ok in Hf. rewrite Forall_forall in Hf.
specialize (Hf (TMap k e) (list_elem_of_lookup_2 _ _ _ Hr)). cbn beta in Hf.
destruct (verify_module_value_type module (TMap k e) 0) as [[]|] eqn:E; [|done].
by eapply map_key_checked.
Qed.

Lemma initial_states_length function :
length (initial_states function) = length (fn_code function).
Proof.
unfold initial_states. destruct (length (fn_code function)); simpl; [done|].
by rewrite length_replicate.
Qed.

Lemma verify_cfg_loop module function_index function states :
verify_cfg tool_contracts templates module function_index function = Some (Ok states) →
verify_instruction_types tool_contracts templates module function_index function = Some (Ok tt)
∧ fn_code function ≠ [] ∧ targets_ok (fn_code function)
∧ cfg_loop (cfg_fuel function) function_index (fn_code function) (initial_states function) [0%nat]
= Some (Ok states)
∧ Forall (λ s, is_Some s) states.
Proof.
unfold verify_cfg. destruct (verify_instruction_types _ _ _ _ _) as [[[]|]|]; [|done..].
destruct (fn_code function) as [|i code] eqn:Ec; [done|]. rewrite <- Ec.
destruct (validate_targets _ _ _ _) as [[]|] eqn:Ht; [|done].
destruct (cfg_loop _ _ _ _ _) as [[states'|]|]; [|done..].
destruct (position _ states') eqn:Hp; [done|]. intros [= <-].
split; [done|]. split; [by rewrite Ec|]. split; [|split; [done|]].
- intros i' Hi. by eapply validate_targets_ok.
- apply position_None in Hp. eapply Forall_impl; [exact Hp|]. by intros [s|] H; [eexists|].
Qed.

Lemma initial_sound function j :
j ∉ [0%nat] → sound_at (fn_code function) (initial_states function) j.
Proof.
intros Hj i s _ Hs. unfold initial_states in Hs.
destruct (length (fn_code function)) as [|n]; simpl in Hs; [done|].
destruct j as [|j]; [set_solver|]. simpl in Hs. by apply lookup_replicate in Hs as [? _].
Qed.

Lemma verify_function_verified module function_index function states :
verify_function tool_contracts templates module function_index function = Some (Ok states) →
verified module function_index function states.
Proof.
unfold verify_function. destruct (verify_function_layout module function) as [[]|] eqn:Hl; [|done].
intros (Ht & Hne & Htg & Hloop & Hsome)%verify_cfg_loop.
destruct (cfg_loop_sound (length (fn_registers function)) _ _ _ _ _ _ Htg
          (initial_states_length function) (initial_states_wf function)
          (initial_sound function) Hloop) as (H1 & H2 & H3 & H4).
split; try done.
- intros r k e. by eapply verify_layout_maps.
- intros j i. unfold verify_instruction_types in Ht. repeat (case_match; try discriminate Ht);
  (eapply verify_code_types_ok; [|done]); by intros id [? _]%lookup_replicate.
- intros j Hj. rewrite <- H1 in Hj. apply lookup_lt_is_Some_2 in Hj as [s Hs].
rewrite Forall_forall in Hsome. destruct (Hsome s) as [s' ->]; [by eapply list_elem_of_lookup_2|].
by exists s'.
- apply H4. unfold initial_states. by destruct (fn_code function).
Qed.

End Accepted.

(** ** Paths through a function *)

(** [path function index assigned]: control can reach [index] along edges of the
    code, and [assigned] are the registers written on the way. *)
Inductive path (function : Function) : nat → list Register → Prop :=
| path_entry : path function 0 (fn_parameters function ++ fn_captures function)
| path_edge index assigned i edges e :
    path function index assigned → fn_code function !! index = Some i →
    instruction_edges index (length (fn_code function)) i = Ok edges → e ∈ edges →
    path function e.1 (e.2 ++ option_list (instruction_destination i) ++ assigned).

Lemma mark_all_true s rs r :
  (mark_all s rs) !! r = Some true → r ∈ rs ∨ s !! r = Some true.
Proof.
  unfold mark_all. revert s. induction rs as [|x rs IH]; intros s; simpl; [by right|].
  intros [Hr|Hr]%IH; [left; by right|]. destruct (decide (x = r)) as [->|Hne]; [left; by left|].
  rewrite list_lookup_insert_ne in Hr by done. by right.
Qed.

Lemma mark_true s d r : (mark s d) !! r = Some true → d = Some r ∨ s !! r = Some true.
Proof.
  destruct d as [d|]; simpl; [|by right]. destruct (decide (d = r)) as [->|Hne]; [by left|].
  rewrite list_lookup_insert_ne by done. by right.
Qed.

Lemma replicate_false n r : (replicate n false) !! r ≠ Some true.
Proof. by intros [? _]%lookup_replicate. Qed.

(** What the table claims at [index] holds on every path to it. *)
Lemma path_marked tools templates module id function states index assigned :
  verified tools templates module id function states → path function index assigned →
  ∃ s, states !! index = Some (Some s) ∧ ∀ r, s !! r = Some true → r ∈ assigned.
Proof.
  intros Hv. induction 1 as [|index assigned i edges e _ (s & Hs & Hin) Hi He Hein].
  - destruct (vf_entry _ _ _ _ _ _ Hv) as (s & Hs & Hle). exists s. split; [done|]. intros r Hr.
    apply Hle, mark_all_true in Hr as [|Hr]; [done|]. by apply replicate_false in Hr.
  - destruct (vf_sound _ _ _ _ _ _ Hv index i s Hi Hs) as (_ & edges' & He' & Hall).
    rewrite He in He'. injection He' as <-. rewrite Forall_forall in Hall.
    destruct (Hall e Hein) as (s' & Hs' & Hle). exists s'. split; [done|]. intros r Hr.
    apply Hle, mark_all_true in Hr as [|[->|]%mark_true]; set_solver.
Qed.

(** *** Precision: what the analysis does not claim fails on some path *)

Lemma mark_all_false s rs r :
  (mark_all s rs) !! r = Some false → (r ∉ rs) ∧ s !! r = Some false.
Proof.
  unfold mark_all. revert s. induction rs as [|x rs IH]; intros s; simpl; [set_solver|].
  intros [Hn Hr]%IH. destruct (decide (x = r)) as [->|Hne].
  - by apply list_lookup_insert_Some in Hr as [(_ & ? & _)|[? _]].
  - rewrite list_lookup_insert_ne in Hr by done. set_solver.
Qed.

Lemma mark_false s d r : (mark s d) !! r = Some false → (r ∉ option_list d) ∧ s !! r = Some false.
Proof. destruct d as [d|]; simpl; [apply (mark_all_false s [d])|]. set_solver. Qed.

Lemma meet_false s t r : (meet s t) !! r = Some false → s !! r = Some false ∨ t !! r = Some false.
Proof.
  revert t r. induction s as [|a s IH]; intros [|b t] [|r] Hr; simpl in *; auto.
  destruct a, b; auto.
Qed.

(** Every register a state lacks is unassigned on some path. *)
Definition refuted (function : Function) (states : EntryStates) : Prop :=
  ∀ j s r, states !! j = Some (Some s) → s !! r = Some false →
           ∃ assigned, path function j assigned ∧ r ∉ assigned.

Lemma merge_edge_refuted function states worklist target incoming :
  refuted function states →
  (∀ r, incoming !! r = Some false → ∃ assigned, path function target assigned ∧ r ∉ assigned) →
  refuted function (merge_edge states worklist target incoming).1.
Proof.
  intros Hst Hin j s r. unfold merge_edge. destruct (states !! target) as [[current|]|] eqn:Ht.
  - case_bool_decide; [apply Hst|]. cbn [fst].
    intros [(-> & [= <-] & _)|[_ Hj]]%list_lookup_insert_Some; [|by apply Hst].
    intros [Hr|Hr]%meet_false; [by eapply Hst|by apply Hin].
  - cbn [fst]. intros [(-> & [= <-] & _)|[_ Hj]]%list_lookup_insert_Some; [apply Hin|by apply Hst].
  - apply Hst.
Qed.

Lemma merge_edges_refuted function states worklist state edges :
  refuted function states →
  (∀ e r, e ∈ edges → (mark_all state e.2) !! r = Some false →
     ∃ assigned, path function e.1 assigned ∧ r ∉ assigned) →
  refuted function (merge_edges states worklist state edges).1.
Proof.
  revert states worklist. induction edges as [|[target bindings] edges IH];
    intros states worklist Hst He; simpl; [done|].
  pose proof (merge_edge_refuted function states worklist target (mark_all state bindings) Hst)
    as Hm.
  destruct (merge_edge _ _ _ _) as [states' worklist']. apply IH.
  - apply Hm. intros r Hr. by apply (He (target, bindings)); [constructor|].
  - intros e r Hin. apply He. by constructor.
Qed.

Lemma cfg_step_refuted function states worklist index states' worklist' :
  refuted function states →
  cfg_step (fn_code function) states worklist index = Ok (states', worklist') →
  refuted function states'.
Proof.
  intros Hst. unfold cfg_step. destruct (_ !! index) as [i|] eqn:Hi; [|by intros [= <- <-]].
  destruct (states !! index) as [[s|]|] eqn:Hs; simpl; try (by intros [= <- <-]).
  destruct (existsb _ _); [done|]. destruct (instruction_edges _ _ _) as [edges|] eqn:He; [|done].
  intros [= E]. pose proof (merge_edges_refuted function states worklist
    (mark s (instruction_destination i)) edges Hst) as Hm. rewrite E in Hm. apply Hm.
  intros e r Hin [Hnb [Hnd Hr]%mark_false]%mark_all_false.
  destruct (Hst index s r Hs Hr) as (assigned & Hp & Hna).
  eexists. split; [by eapply path_edge|]. set_solver.
Qed.

Lemma initial_refuted function : refuted function (initial_states function).
Proof.
  intros j s r. unfold initial_states. destruct (length (fn_code function)); simpl; [done|].
  destruct j as [|j]; simpl; [|by intros [? _]%lookup_replicate].
  intros [= <-] [Hn _]%mark_all_false. eexists. split; [apply path_entry|done].
Qed.

(** A loop that stops at a register stops at one that some path leaves unassigned. *)
Lemma cfg_loop_refuted registers fuel function_index function states worklist e :
  refuted function states → states_wf registers states →
  cfg_loop fuel function_index (fn_code function) states worklist = Some (Err e) →
  ve_message e = "register is not initialized" →
  ∃ j i r, e = VerifyError_instruction function_index j "register is not initialized"
    ∧ fn_code function !! j = Some i ∧ r ∈ instruction_sources i
    ∧ ((r < registers)%nat → ∃ assigned, path function j assigned ∧ r ∉ assigned).
Proof.
  revert states worklist. induction fuel as [|fuel IH]; intros states [|j worklist] Hst Hwf;
    simpl; try done.
  destruct (cfg_step _ states worklist j) as [[states' worklist']|m] eqn:E.
  - apply IH; [by eapply cfg_step_refuted|by eapply cfg_step_potential].
  - intros [= <-] Hm. simpl in Hm. subst m. clear IH. unfold cfg_step in E.
    destruct (_ !! j) as [i|] eqn:Hi; [|done].
    destruct (states !! j) as [[s|]|] eqn:Hs; simpl in E; [|done..].
    destruct (existsb _ _) eqn:Hx.
    + apply existsb_exists in Hx as (r & Hr & Hf). exists j, i, r. split; [done|]. split; [done|].
      split; [by apply list_elem_of_In|]. intros Hlt. rewrite <- (Hwf j s Hs) in Hlt.
      apply lookup_lt_is_Some_2 in Hlt as [[] Hb]; rewrite Hb in Hf; [done|]. by eapply Hst.
    + destruct (instruction_edges _ _ i) eqn:He; simplify_eq/=.
      destruct i; simpl in He; repeat case_match; simplify_eq.
Qed.

(** ** Theorems *)

(** The analysis of definite initialization terminates: the model's bound on the
    iterations of the worklist loop, one for every entry of the table and every
    register that can be cleared in it, is never the reason for an answer to be
    missing.  [verify_function] answers on every function whose typing rules do not
    panic. *)
Theorem cfg_analysis_terminates (tools : option (list ToolVerificationContract))
    (templates : option (list TemplateResource)) (module : Module_) (function_index : nat)
    (function : Function) :
  is_Some (verify_instruction_types tools templates module function_index function) →
  is_Some (verify_function tools templates module function_index function).
Proof.
  intros [r Hr]. unfold verify_function. destruct (verify_function_layout _ _); [|by eexists].
  unfold verify_cfg. rewrite Hr. destruct r; [|by eexists].
  destruct (fn_code function) as [|i code] eqn:Ec; [by eexists|]. rewrite <- Ec.
  destruct (validate_targets _ _ _ _); [|by eexists].
  destruct (cfg_loop_total (length (fn_registers function)) (cfg_fuel function) function_index
              (fn_code function) (initial_states function) [0%nat]) as [r Hloop].
  - apply initial_states_wf.
  - apply initial_potential.
  - rewrite Hloop. destruct r; [|by eexists]. destruct (position _ _); by eexists.
Qed.

(** A loop that counts a parameter down to zero; [source] is the register the last
    instruction returns: register 4 is written in the body of the loop only. *)
Definition demo_function (source : Register) : Function := {|
  fn_name := "count"; fn_parameters := [0%nat]; fn_parameter_names := ["n"];
  fn_parameter_default_digests := [None]; fn_captures := [];
  fn_registers := [TInt; TInt; TBool; TInt; TInt]; fn_return_type := TInt; fn_effects := 0%nat;
  fn_code := [ Const 1 0; Const 3 1; Compare 2 0 1 Greater; BranchBool 2 4 7;
               Move 4 0; IntBinary 0 4 3 Subtract; Jump 2; Return_ source ]%nat |}.

Definition demo_module (source : Register) : Module_ := {|
  constants := [CInt 0; CInt 1]; enum_types := []; effect_sets := [[]];
  functions := [demo_function source]; async_functions := []; entry := 0 |}.

Lemma cfg_analysis_terminates_witness :
  is_Some (verify_function None None (demo_module 4) 0 (demo_function 4))
  ∧ is_Some (verify_function None None (demo_module 0) 0 (demo_function 0)).
Proof. split; apply cfg_analysis_terminates; vm_compute; by eexists. Defined.

(** C16. Definite initialization is sound.  In a function the verifier accepts, take any
    path of control-flow edges from the entry: it ends at an instruction of the
    code (control never falls off the end nor jumps outside), which has edges of
    its own, and every register this instruction reads has been assigned on the
    way, by the call, by an instruction or by the arm of a switch. *)
Theorem definite_initialization_sound (tools : option (list ToolVerificationContract))
    (templates : option (list TemplateResource)) (module : Module_) (function_index : nat)
    (function : Function) (states : list (option (list bool))) (index : nat)
    (assigned : list Register) :
  verify_function tools templates module function_index function = Some (Ok states) →
  path function index assigned →
  ∃ i edges, fn_code function !! index = Some i
    ∧ instruction_edges index (length (fn_code function)) i = Ok edges
    ∧ Forall (λ r, r ∈ assigned) (instruction_sources i).
Proof.
  intros Hv%verify_function_verified Hp. destruct (path_marked _ _ _ _ _ _ _ _ Hv Hp) as (s & Hs & Hin).
  assert (is_Some (fn_code function !! index)) as [i Hi].
  { apply lookup_lt_is_Some_2. rewrite <- (vf_length _ _ _ _ _ _ Hv). by eapply lookup_lt_Some. }
  destruct (vf_sound _ _ _ _ _ _ Hv index i s Hi Hs) as (Hsrc & edges & He & _).
  exists i, edges. split; [done|]. split; [done|]. eapply Forall_impl; [exact Hsrc|]. apply Hin.
Qed.

Lemma demo_path source : path (demo_function source) 2 [3; 1; 0]%nat.
Proof.
  refine (path_edge (demo_function source) 1 [1; 0] (Const 3 1) [(2, [])] (2, []) _ _ _ _)%nat;
    [|done|done|constructor].
  refine (path_edge (demo_function source) 0 [0] (Const 1 0) [(1, [])] (1, []) _ _ _ _)%nat;
    [|done|done|constructor].
  apply (path_entry (demo_function source)).
Qed.

Lemma definite_initialization_sound_witness :
  ∃ i edges, fn_code (demo_function 0) !! 2%nat = Some i
    ∧ instruction_edges 2 (length (fn_code (demo_function 0))) i = Ok edges
    ∧ Forall (λ r, r ∈ [3; 1; 0]%nat) (instruction_sources i).
Proof.
  eapply (definite_initialization_sound None None (demo_module 0) 0 (demo_function 0));
    [vm_compute; reflexivity|apply demo_path].
Defined.

(** C19. Definite initialization is exact: when the analysis rejects a function because
    a register is not initialized, the error names an instruction that reads a
    register and a path from the entry to it on which that register (one of the
    function's) is never assigned.  No program that initializes its registers on
    every path is rejected. *)
Theorem definite_initialization_exact (function_index : nat) (function : Function)
    (fuel : nat) (e : VerifyError) :
  cfg_loop fuel function_index (fn_code function) (initial_states function) [0%nat]
  = Some (Err e) →
  ve_message e = "register is not initialized" →
  ∃ j i r, e = VerifyError_instruction function_index j "register is not initialized"
    ∧ fn_code function !! j = Some i ∧ r ∈ instruction_sources i
    ∧ ((r < length (fn_registers function))%nat →
       ∃ assigned, path function j assigned ∧ r ∉ assigned).
Proof.
  apply cfg_loop_refuted; [apply initial_refuted|apply initial_states_wf].
Qed.

Lemma definite_initialization_exact_witness :
  ∃ j i r, VerifyError_instruction 0 7 "register is not initialized"
           = VerifyError_instruction 0 j "register is not initialized"
    ∧ fn_code (demo_function 4) !! j = Some i ∧ r ∈ instruction_sources i
    ∧ ((r < 5)%nat → ∃ assigned, path (demo_function 4) j assigned ∧ r ∉ assigned).
Proof.
  apply (definite_initialization_exact 0 (demo_function 4) (cfg_fuel (demo_function 4)));
    vm_compute; reflexivity.
Defined.
