(* ===== verification/VerifierEnums.v ===== *)
(** * The enum table of a module ([crates/allen-bytecode/src/verifier.rs])

    The checks of the enum table (names, payloads, recursion and nesting), the
    depth of every type once its enums are expanded, and the symbols of the
    functions.  The walk over the enum table always answers, and what it accepts
    bounds the nesting of every value of an accepted type. *)

From S2P Require Import Prelude Text Bytecode VmValue VerifierTypes VerifierRules Verifier.
Open Scope string_scope.
Open Scope Z_scope.

(** ** Symbols *)

Definition is_source_identifier (value : string) : bool :=
  match bytes value with
  | [] => false
  | b :: rest =>
    (is_ascii_alphabetic b || (b =? 95))
    && forallb (λ b, is_ascii_alphanumeric b || (b =? 95)) rest
  end.

Definition is_normalized_module_path (path : string) : bool :=
  negb (str_is_empty path)
  && negb (starts_with "/" path)
  && ends_with ".allen" path
  && forallb (λ b, is_ascii_alphanumeric b || (b =? 47) || (b =? 46) || (b =? 95) || (b =? 45))
       (bytes path)
  && forallb (λ part, negb (str_is_empty part) && negb (String.eqb part ".")
                      && negb (String.eqb part ".."))
       (split_char "/"%char path).

Definition is_canonical_function_symbol (symbol : string) : bool :=
  if is_source_identifier symbol then true
  else
    match rsplit_once "::" symbol with
    | None => false
    | Some (module, declaration) =>
      if negb (is_normalized_module_path module) then false
      else
        let base := match split_once "<" declaration with
                    | Some (base, _) => base
                    | None => declaration
                    end in
        let closure_is_canonical :=
          match strip_prefix "$closure@" base with
          | Some offset => negb (str_is_empty offset) && forallb is_ascii_digit (bytes offset)
          | None => false
          end in
        (is_source_identifier base || closure_is_canonical)
        && forallb (λ b, is_ascii_graphic b || (b =? 32)) (bytes declaration)
        && negb (str_contains "/" declaration)
        && negb (str_contains "\" declaration)
    end.

(** ** The enum table *)

Section EnumTable.
Variable module : Module_.

Definition verify_payload_element (t : ValueType) : result VerifyError unit :=
if contains_affine_type t
then Err (VerifyError_module "Future and Task cannot be stored in enum payloads")
else if contains_stored_sub_agent t
then Err (VerifyError_module "SubAgent cannot be stored in enum payloads")
else map_err VerifyError_module (verify_module_value_type module t 0).

(** A record payload is checked like a record type at depth 0. *)
Definition verify_payload (payload : EnumPayloadType) : result VerifyError unit :=
match payload with
| PTUnit => Ok tt
| PTTuple elements =>
if bool_decide (elements = [])
then Err (VerifyError_module "empty enum tuple payload must be payloadless")
else for_each verify_payload_element elements
| PTRecord fields =>
if existsb (λ f : RecordField, contains_affine_type f.2) fields
then Err (VerifyError_module "Future and Task cannot be stored in enum payloads")
else if existsb (λ f : RecordField, contains_stored_sub_agent f.2) fields
then Err (VerifyError_module "SubAgent cannot be stored in enum payloads")
else map_err VerifyError_module (verify_module_value_type module (TRecord fields) 0)
end.

(** [seen] is the set of the names before. *)
Fixpoint verify_variants (seen : list string) (variants : list EnumVariant)
: result VerifyError unit :=
match variants with
| [] => Ok tt
| v :: rest =>
if str_is_empty (ev_name v) || existsb (String.eqb (ev_name v)) seen
then Err (VerifyError_module "enum variant names must be nonempty and unique")
else
  try? verify_payload (ev_payload v) in
  verify_variants (ev_name v :: seen) rest
end.

Fixpoint verify_enum_declarations (seen : list string) (types : list EnumType)
: result VerifyError unit :=
match types with
| [] => Ok tt
| ty :: rest =>
if str_is_empty (et_name ty) || existsb (String.eqb (et_name ty)) seen
then Err (VerifyError_module "enum type names must be nonempty and unique")
else if bool_decide (et_variants ty = []) || (u32_max <? Z.of_nat (length (et_variants ty)))
then Err (VerifyError_module "enum type must have a representable nonempty variant table")
else
  try? verify_variants [] (et_variants ty) in
  verify_enum_declarations (et_name ty :: seen) rest
end.

(** *** Recursion and nesting *)

(** [marks] and [nesting]: 1 is an enum whose walk is under way, 2 a completed one;
the nesting of a completed one is kept. *)
Record NestingTables := { nt_marks : list nat; nt_nesting : list (option nat) }.

(** A walk returns the nesting it found and the tables; [None] is a panic. *)
Definition Walk : Type := NestingTables → option (result VerifyError (nat * NestingTables)).

Definition walk_ret (n : nat) : Walk := λ tables, Some (Ok (n, tables)).
Definition walk_fail (message : string) : Walk := λ _, Some (Err (VerifyError_module message)).
Definition walk_bind (m : Walk) (k : nat → Walk) : Walk := λ tables,
match m tables with
| None => None
| Some (Err e) => Some (Err e)
| Some (Ok (n, tables)) => k n tables
end.

Section Maximum.
Context {A : Type} (f : A → Walk).
(** [for x in l { maximum = maximum.max(f(x)?) }] *)
Fixpoint walk_max (maximum : nat) (l : list A) : Walk :=
match l with
| [] => walk_ret maximum
| x :: l' => walk_bind (f x) (λ n, walk_max (Nat.max maximum n) l')
end.
End Maximum.

Definition enum_nesting_error : string := "enum type nesting exceeds limit".

Section TypeNesting.
Variable enum_nesting : EnumTypeId → nat → Walk.

Fixpoint verify_expanded_type_nesting (t : ValueType) (depth : nat) : Walk :=
if Nat.ltb MAX_VALUE_NESTING depth then walk_fail enum_nesting_error
else
let deeper t := walk_bind (verify_expanded_type_nesting t (S depth)) (λ n, walk_ret (S n)) in
match t with
| TEnum id => enum_nesting id depth
| TList element | TOption element | TFuture element | TTask element | TSequence element
| TNewtype _ element => deeper element
| TMap a b | TResult a b =>
walk_bind (verify_expanded_type_nesting a (S depth)) (λ n,
walk_bind (verify_expanded_type_nesting b (S depth)) (λ m, walk_ret (S (Nat.max n m))))
| TTuple elements => walk_max deeper 0 elements
| TRecord fields => walk_max (λ field : RecordField, deeper field.2) 0 fields
| TFunction parameters return_type _ =>
walk_bind (verify_expanded_type_nesting return_type (S depth)) (λ n,
walk_bind (walk_max (λ p, verify_expanded_type_nesting p (S depth)) n parameters) (λ m,
walk_ret (S m)))
| TInt | TBool | TFloat | TString | TBytes | TRange | TUnit | TNever | TWorkspace
| TExternalFsAccess | TSubAgent | TUnknown => walk_ret 0
end.

Definition verify_payload_nesting (payload : EnumPayloadType) (depth : nat) : Walk :=
walk_max (λ t, walk_bind (verify_expanded_type_nesting t (S depth)) (λ n, walk_ret (S n))) 0
(payload_types payload).
End TypeNesting.

(** The walk goes deeper at every enum it enters, and not below the limit: [fuel]
counts the depths that are left. *)
Fixpoint verify_enum_nesting (fuel : nat) (index : EnumTypeId) (depth : nat) : Walk := λ tables,
match fuel with
| O => None
| S fuel =>
if Nat.ltb MAX_VALUE_NESTING depth then walk_fail enum_nesting_error tables
else
  match nt_nesting tables !! index, nt_marks tables !! index, enum_types module !! index with
  | Some (Some nesting), _, _ =>
    if Nat.ltb MAX_VALUE_NESTING (depth + nesting) then walk_fail enum_nesting_error tables
    else walk_ret nesting tables
  | Some None, Some 1%nat, _ =>
    walk_fail "recursive enum types are not supported" tables
  | Some None, Some 0%nat, Some ty =>
    let tables := {| nt_marks := <[index := 1%nat]> (nt_marks tables);
                     nt_nesting := nt_nesting tables |} in
    match walk_max (λ v, verify_payload_nesting (verify_enum_nesting fuel) (ev_payload v) depth)
            0 (et_variants ty) tables with
    | Some (Ok (maximum, tables)) =>
      Some (Ok (maximum, {| nt_marks := <[index := 2%nat]> (nt_marks tables);
                            nt_nesting := <[index := Some maximum]> (nt_nesting tables) |}))
    | other => other
    end
  | _, _, _ => None
  end
end.

Definition nesting_fuel : nat := S MAX_VALUE_NESTING.

Fixpoint verify_enum_nestings (indices : list EnumTypeId) (tables : NestingTables)
: option (result VerifyError NestingTables) :=
match indices with
| [] => Some (Ok tables)
| index :: rest =>
match verify_enum_nesting nesting_fuel index 0 tables with
| None => None
| Some (Err e) => Some (Err e)
| Some (Ok (_, tables)) => verify_enum_nestings rest tables
end
end.

(** *** Expanded types *)

Definition value_nesting_error : VerifyError :=
VerifyError_module "value type nesting exceeds limit".

Fixpoint verify_expanded_value_type (nesting : list (option nat)) (t : ValueType) (depth : nat)
: result VerifyError unit :=
if Nat.ltb MAX_VALUE_NESTING depth then Err value_nesting_error
else
let check t := verify_expanded_value_type nesting t (S depth) in
match t with
| TEnum id =>
  let? enum_depth := ok_or (mjoin (nesting !! id))
                       (VerifyError_module "enum type ID is out of range") in
  if Nat.ltb MAX_VALUE_NESTING (depth + enum_depth) then Err value_nesting_error else Ok tt
| TList element | TOption element | TFuture element | TTask element | TSequence element
| TNewtype _ element => check element
| TMap a b | TResult a b => try? check a in check b
| TTuple elements => for_each check elements
| TRecord fields => for_each (λ field : RecordField, check field.2) fields
| TFunction parameters return_type _ => try? for_each check parameters in check return_type
| TInt | TBool | TFloat | TString | TBytes | TRange | TUnit | TNever | TWorkspace
| TExternalFsAccess | TSubAgent | TUnknown => Ok tt
end.

Definition expanded_function (nesting : list (option nat)) (f : Function)
: result VerifyError unit :=
try? for_each (λ t, verify_expanded_value_type nesting t 0) (fn_registers f) in
try? verify_expanded_value_type nesting (fn_return_type f) 0 in
for_each (λ i, match i with
             | Narrow _ _ target | Decode _ _ target =>
               verify_expanded_value_type nesting target 0
             | _ => Ok tt
             end) (fn_code f).

Definition verify_expanded_module_types (nesting : list (option nat)) : result VerifyError unit :=
try? for_each (λ ty, for_each (λ v, for_each (λ t, verify_expanded_value_type nesting t 1)
                                    (payload_types (ev_payload v)))
                     (et_variants ty)) (enum_types module) in
for_each (expanded_function nesting) (functions module).

Definition verify_enum_types : option (result VerifyError (list (option nat))) :=
if u32_max <? Z.of_nat (length (enum_types module))
then Some (Err (VerifyError_module "enum type table is too large"))
else
match verify_enum_declarations [] (enum_types module) with
| Err e => Some (Err e)
| Ok _ =>
  let count := length (enum_types module) in
  match verify_enum_nestings (seq 0 count)
          {| nt_marks := replicate count 0%nat; nt_nesting := replicate count None |} with
  | None => None
  | Some (Err e) => Some (Err e)
  | Some (Ok tables) =>
    match verify_expanded_module_types (nt_nesting tables) with
    | Err e => Some (Err e)
    | Ok _ => Some (Ok (nt_nesting tables))
    end
  end
end.
End EnumTable.

(** ** Lemmas: the walk answers, with the depth of the type *)

(** The greatest of [S (f x)], if every [f x] is defined. *)
Definition max_depth {A} (f : A → option nat) (l : list A) : option nat :=
  foldr (λ x acc, n ← f x; m ← acc; Some (Nat.max n m)) (Some 0%nat) l.

(** The depth of a type, with the depths of the enums in a table. *)
Fixpoint expanded_depth (nesting : list (option nat)) (t : ValueType) : option nat :=
  let deeper t := n ← expanded_depth nesting t; Some (S n) in
  match t with
  | TEnum id => mjoin (nesting !! id)
  | TList element | TOption element | TFuture element | TTask element | TSequence element
  | TNewtype _ element => deeper element
  | TMap a b | TResult a b =>
    n ← expanded_depth nesting a; m ← expanded_depth nesting b; Some (S (Nat.max n m))
  | TTuple elements => max_depth deeper elements
  | TRecord fields => max_depth (λ field : RecordField, deeper field.2) fields
  | TFunction parameters return_type _ =>
    n ← expanded_depth nesting return_type;
    m ← max_depth (expanded_depth nesting) parameters;
    Some (S (Nat.max n m))
  | _ => Some 0%nat
  end.

Definition payload_depth (nesting : list (option nat)) (p : EnumPayloadType) : option nat :=
  max_depth (λ t, n ← expanded_depth nesting t; Some (S n)) (payload_types p).
Definition enum_depth (nesting : list (option nat)) (ty : EnumType) : option nat :=
  max_depth (λ v, payload_depth nesting (ev_payload v)) (et_variants ty).

(** Every enum that the type mentions is in the table. *)
Fixpoint enums_known (count : nat) (t : ValueType) : bool :=
  match t with
  | TEnum id => Nat.ltb id count
  | TList element | TOption element | TFuture element | TTask element | TSequence element
  | TNewtype _ element => enums_known count element
  | TMap a b | TResult a b => enums_known count a && enums_known count b
  | TTuple elements => forallb (enums_known count) elements
  | TRecord fields => forallb (λ field : RecordField, enums_known count field.2) fields
  | TFunction parameters return_type _ =>
    forallb (enums_known count) parameters && enums_known count return_type
  | _ => true
  end.

Section WalkLemmas.
Variable module : Module_.
Abbreviation count := (length (enum_types module)) (only parsing).

(** A well-formed type mentions enums of the table only. *)
Lemma checked_enums_known t depth u :
verify_module_value_type module t depth = Ok u → enums_known count t = true.
Proof.
revert depth u.
induction t as [t Ht|e IH|k v IHk IHv|l IH|fs IH|n e IH|e IH|a b IHa IHb|e IH|e IH|e IH
             |ps r e IH IHr] using ValueType_ind';
intros depth u Hv;
try (cbn [verify_module_value_type] in Hv; destruct (Nat.ltb MAX_VALUE_NESTING depth); [done|]);
cbn [enums_known].
- destruct t; try done. cbn [verify_module_value_type] in Hv.
destruct (Nat.ltb MAX_VALUE_NESTING depth); [done|]. simpl. by destruct (Nat.ltb _ _).
- destruct (stored_handle e); [done|by eapply IH].
- destruct (is_map_key k); [|done]. simpl in Hv. destruct (_ || _); [done|].
destruct (verify_module_value_type module k _) as [?|] eqn:E; [|done].
by rewrite (IHk _ _ E), (IHv _ _ Hv).
- destruct l as [|y k]; [done|]. destruct (stored_handle y); [done|].
destruct (verify_module_value_type module y _) as [?|] eqn:Ey; [|done].
apply Forall_cons in IH as [Hy IH]. cbn [forallb]. rewrite (Hy _ _ Ey). simpl. clear y Hy Ey.
induction IH as [|x l Hx _ IHl]; cbn [forallb]; [done|].
destruct (stored_handle x); [done|].
destruct (verify_module_value_type module x _) as [?|] eqn:E; [|done].
by rewrite (Hx _ _ E), IHl.
- revert Hv. generalize (@None string).
induction IH as [|x l Hx _ IHl]; intros previous; simpl; [done|].
destruct (str_is_empty x.1); [done|]. destruct (match previous with Some _ => _ | _ => _ end); [done|].
destruct (verify_module_value_type module x.2 _) as [?|] eqn:E; [|done].
destruct (contains_affine_type x.2); [done|]. destruct (contains_workspace x.2); [done|].
destruct (contains_stored_sub_agent x.2); [done|]. intros Hv. by rewrite (Hx _ _ E), (IHl _ Hv).
- destruct (rsplit_once _ n) as [[owner declaration]|]; [|done].
destruct (newtype_name_ok _ _); [|done].
destruct (valid_newtype_underlying e); [|done]. cbn [negb] in Hv. by eapply IH.
- destruct (stored_handle e); [done|by eapply IH].
- match type of Hv with (if ?c then _ else _) = _ => destruct c; [done|] end.
destruct (verify_module_value_type module a _) as [?|] eqn:E; [|done].
by rewrite (IHa _ _ E), (IHb _ _ Hv).
- by eapply IH.
- by eapply IH.
- destruct (stored_handle e); [done|by eapply IH].
- destruct (Nat.leb _ e); [done|].
match type of Hv with match ?x with _ => _ end = _ => destruct x as [?|] eqn:Hps; [|done] end.
rewrite (IHr _ _ Hv), andb_true_r. clear Hv IHr.
induction IH as [|x l Hx _ IHl]; simpl; [done|]. simpl in Hps.
destruct (ValueType_eqb x TNever); [done|].
destruct (verify_module_value_type module x _) as [?|] eqn:E; [|done].
by rewrite (Hx _ _ E), IHl.
Qed.

(** *** Tables under construction *)

Record tables_ok (tables : NestingTables) : Prop := {
to_marks : length (nt_marks tables) = count;
to_nesting : length (nt_nesting tables) = count;
to_range i m : nt_marks tables !! i = Some m → (m <= 2)%nat;
to_open i : nt_marks tables !! i = Some 1%nat → nt_nesting tables !! i = Some None;
to_done i : nt_marks tables !! i = Some 2%nat → ∃ k, nt_nesting tables !! i = Some (Some k);
to_depth i k : nt_nesting tables !! i = Some (Some k) →
∃ ty, enum_types module !! i = Some ty ∧ enum_depth (nt_nesting tables) ty = Some k
}.

(** Completed entries stay, and so do the marks of walks under way. *)
Definition extends (tables tables' : NestingTables) : Prop :=
(∀ i k, nt_nesting tables !! i = Some (Some k) → nt_nesting tables' !! i = Some (Some k))
∧ ∀ i, nt_marks tables !! i = Some 1%nat → nt_marks tables' !! i = Some 1%nat.

#[local] Instance extends_preorder : PreOrder extends.
Proof. split; [by split|]. intros t1 t2 t3 [H1 H2] [H3 H4]. split; auto. Qed.

(** The walk does not panic; a result keeps the tables and satisfies [P]. *)
Definition walks (m : Walk) (P : list (option nat) → nat → Prop) : Prop :=
∀ tables, tables_ok tables →
match m tables with
| None => False
| Some (Err _) => True
| Some (Ok (k, tables')) =>
  tables_ok tables' ∧ extends tables tables' ∧ P (nt_nesting tables') k
end.

(** What a table says stays true of its extensions. *)
Definition stable (P : list (option nat) → Prop) : Prop :=
∀ tables tables', extends tables tables' → P (nt_nesting tables) → P (nt_nesting tables').

Lemma walks_fail message P : walks (walk_fail message) P.
Proof. by intros tables _. Qed.

Lemma walks_ret n (P : list (option nat) → nat → Prop) :
(∀ nesting, P nesting n) → walks (walk_ret n) P.
Proof. by intros HP tables Ht. Qed.

Lemma walks_bind m (k : nat → Walk) (P Q : list (option nat) → nat → Prop) :
walks m P → (∀ n, stable (λ nesting, P nesting n)) →
(∀ n, walks (k n) (λ nesting r, P nesting n → Q nesting r)) → walks (walk_bind m k) Q.
Proof.
intros Hm HP Hk tables Ht. unfold walk_bind. specialize (Hm tables Ht).
destruct (m tables) as [[[n tables1]|e]|]; [|done|done]. destruct Hm as (Ht1 & He1 & HPn).
specialize (Hk n tables1 Ht1). destruct (k n tables1) as [[[r tables2]|e]|]; [|done|done].
destruct Hk as (Ht2 & He2 & HQ). split; [done|]. split; [by etrans|]. apply HQ. by eapply HP.
Qed.

Lemma walks_impl m (P Q : list (option nat) → nat → Prop) :
walks m P → (∀ nesting k, P nesting k → Q nesting k) → walks m Q.
Proof.
intros Hm HPQ tables Ht. specialize (Hm tables Ht).
destruct (m tables) as [[[n tables1]|e]|]; [|done|done]. naive_solver.
Qed.

Lemma max_depth_cons {A} (f : A → option nat) x l n :
max_depth f (x :: l) = Some n ↔
∃ a b, f x = Some a ∧ max_depth f l = Some b ∧ n = Nat.max a b.
Proof.
unfold max_depth. simpl. split.
- intros (a & Ha & (b & Hb & [= <-])%bind_Some)%bind_Some. eauto.
- intros (a & b & -> & Hb & ->). simpl. by rewrite Hb.
Qed.

(** Definedness goes along extensions. *)
Lemma max_depth_mono {A} (f g : A → option nat) l :
Forall (λ x, ∀ k, f x = Some k → g x = Some k) l →
∀ k, max_depth f l = Some k → max_depth g l = Some k.
Proof.
intros Hl. induction Hl as [|x l Hx _ IH]; intros k; [done|].
rewrite !max_depth_cons. intros (a & b & Ha & Hb & ->). eauto 10.
Qed.

Lemma deeper_mono (x y : option nat) :
(∀ k, x = Some k → y = Some k) → ∀ k, (n ← x; Some (S n)) = Some k → (n ← y; Some (S n)) = Some k.
Proof. intros Hxy k (n & Hn & [= <-])%bind_Some. by rewrite (Hxy _ Hn). Qed.

Lemma expanded_depth_stable t k : stable (λ nesting, expanded_depth nesting t = Some k).
Proof.
intros tables tables' He. revert k.
induction t as [t Ht|e IH|k v IHk IHv|l IH|fs IH|n e IH|e IH|a b IHa IHb|e IH|e IH|e IH
             |ps r e IH IHr] using ValueType_ind'; intros d; cbn [expanded_depth];
try (by apply deeper_mono).
- destruct t; try done. cbn [expanded_depth]. intros Hj. unfold mjoin, option_join in *.
destruct (nt_nesting tables !! id) as [[n|]|] eqn:E; simplify_eq/=.
by rewrite (proj1 He _ _ E).
- intros (n & Hn & (m & Hm & [= <-])%bind_Some)%bind_Some.
by rewrite (IHk _ Hn), (IHv _ Hm).
- apply max_depth_mono. eapply Forall_impl; [exact IH|]. intros x. apply deeper_mono.
- apply max_depth_mono. eapply Forall_impl; [exact IH|]. intros x. apply deeper_mono.
- intros (n & Hn & (m & Hm & [= <-])%bind_Some)%bind_Some.
by rewrite (IHa _ Hn), (IHb _ Hm).
- intros (n & Hn & (m & Hm & [= <-])%bind_Some)%bind_Some.
rewrite (IHr _ Hn). simpl. by rewrite (max_depth_mono _ _ _ IH _ Hm).
Qed.

Lemma deeper_stable t k :
stable (λ nesting, (n ← expanded_depth nesting t; Some (S n)) = Some k).
Proof. intros tables tables' He. apply deeper_mono. intros n. by apply expanded_depth_stable. Qed.

Lemma payload_depth_stable p k : stable (λ nesting, payload_depth nesting p = Some k).
Proof.
intros tables tables' He. apply max_depth_mono, Forall_forall. intros t _ n. by apply deeper_stable.
Qed.

Lemma enum_depth_stable ty k : stable (λ nesting, enum_depth nesting ty = Some k).
Proof.
intros tables tables' He. apply max_depth_mono, Forall_forall. intros v _ n.
by apply payload_depth_stable.
Qed.

(** *** Walks *)

Lemma walks_max {A} (f : A → Walk) (d : list (option nat) → A → option nat) l maximum :
(∀ x, x ∈ l → walks (f x) (λ nesting k, d nesting x = Some k)) →
(∀ x k, stable (λ nesting, d nesting x = Some k)) →
walks (walk_max f maximum l)
(λ nesting k, ∃ m, max_depth (d nesting) l = Some m ∧ k = Nat.max maximum m).
Proof.
intros Hf Hd. revert maximum. induction l as [|x l IH]; intros maximum; simpl.
{ apply walks_ret. intros nesting. exists 0%nat. split; [done|lia]. }
eapply walks_bind; [apply Hf; by left|apply Hd|]. intros n.
eapply walks_impl; [apply IH; intros y Hy; apply Hf; by right|].
intros nesting k (m & Hm & ->) Hn. exists (Nat.max n m). split; [|lia].
apply max_depth_cons. eauto.
Qed.

Section Types.
Variables (enum_nesting : EnumTypeId → nat → Walk) (low : nat).
Hypothesis Henum : ∀ id depth, (low <= depth <= MAX_VALUE_NESTING)%nat → (id < count)%nat →
walks (enum_nesting id depth) (λ nesting k, nesting !! id = Some (Some k)).

Lemma walks_deeper m t :
walks m (λ nesting k, expanded_depth nesting t = Some k) →
walks (walk_bind m (λ n, walk_ret (S n)))
(λ nesting k, (n ← expanded_depth nesting t; Some (S n)) = Some k).
Proof.
intros Hm. eapply walks_bind; [exact Hm|apply expanded_depth_stable|]. intros n.
apply walks_ret. intros nesting Hn. by rewrite Hn.
Qed.

Lemma walks_type t depth :
(low <= depth)%nat → enums_known count t = true →
walks (verify_expanded_type_nesting enum_nesting t depth)
(λ nesting k, expanded_depth nesting t = Some k).
Proof using Henum.
revert depth.
induction t as [t Ht|e IH|a b IHa IHb|l IH|fs IH|n e IH|e IH|a b IHa IHb|e IH|e IH|e IH
         |ps r e IH IHr] using ValueType_ind';
intros depth Hlow Hk; try (cbn [verify_expanded_type_nesting expanded_depth enums_known] in *;
destruct (Nat.ltb_spec MAX_VALUE_NESTING depth); [apply walks_fail|]);
try (by apply walks_deeper, IH; [lia|]).
- destruct t; try done; cbn [verify_expanded_type_nesting expanded_depth enums_known] in *;
(destruct (Nat.ltb_spec MAX_VALUE_NESTING depth); [apply walks_fail|]);
try (by apply walks_ret).
eapply walks_impl; [apply Henum; [lia|by apply Nat.ltb_lt]|]. intros nesting k Hn. simpl in Hn.
by rewrite Hn.
- apply andb_true_iff in Hk as [Hka Hkb].
eapply walks_bind; [apply IHa; [lia|done]|apply expanded_depth_stable|]. intros n.
eapply walks_bind; [apply IHb; [lia|done]|apply expanded_depth_stable|]. intros m.
apply walks_ret. intros nesting Hm Hn. by rewrite Hn, Hm.
- rewrite forallb_forall in Hk. rewrite Forall_forall in IH.
eapply walks_impl; [eapply (walks_max _ (λ nesting t, n ← expanded_depth nesting t; Some (S n)))|].
+ intros x Hx. apply walks_deeper, IH; [done|lia|]. by apply Hk, list_elem_of_In.
+ intros x k. apply deeper_stable.
+ intros nesting k (m & Hm & ->). by rewrite Nat.max_0_l.
- rewrite forallb_forall in Hk. rewrite Forall_forall in IH.
eapply walks_impl; [eapply (walks_max _ (λ nesting (f : RecordField),
                                       n ← expanded_depth nesting f.2; Some (S n)))|].
+ intros x Hx. apply walks_deeper, IH; [done|lia|]. by apply Hk, list_elem_of_In.
+ intros x k. apply deeper_stable.
+ intros nesting k (m & Hm & ->). by rewrite Nat.max_0_l.
- apply andb_true_iff in Hk as [Hka Hkb].
eapply walks_bind; [apply IHa; [lia|done]|apply expanded_depth_stable|]. intros n.
eapply walks_bind; [apply IHb; [lia|done]|apply expanded_depth_stable|]. intros m.
apply walks_ret. intros nesting Hm Hn. by rewrite Hn, Hm.
- apply andb_true_iff in Hk as [Hkp Hkr]. rewrite forallb_forall in Hkp. rewrite Forall_forall in IH.
eapply walks_bind; [apply IHr; [lia|done]|apply expanded_depth_stable|]. intros n.
eapply walks_bind.
+ eapply (walks_max _ expanded_depth).
* intros x Hx. apply IH; [done|lia|]. by apply Hkp, list_elem_of_In.
* intros x k. apply expanded_depth_stable.
+ intros k tables tables' He (m & Hm & ->). exists m. split; [|done].
eapply max_depth_mono; [|exact Hm]. apply Forall_forall. intros x _ j. by apply expanded_depth_stable.
+ intros k. apply walks_ret. intros nesting (m & Hm & ->) Hn. rewrite Hn. simpl. by rewrite Hm.
Qed.

Lemma walks_payload p depth :
(low <= S depth)%nat → forallb (enums_known count) (payload_types p) = true →
walks (verify_payload_nesting enum_nesting p depth) (λ nesting k, payload_depth nesting p = Some k).
Proof using Henum.
intros Hlow Hk. rewrite forallb_forall in Hk. unfold verify_payload_nesting, payload_depth.
eapply walks_impl; [eapply (walks_max _ (λ nesting t, n ← expanded_depth nesting t; Some (S n)))|].
- intros t Ht. apply walks_deeper, walks_type; [lia|]. by apply Hk, list_elem_of_In.
- intros t k. apply deeper_stable.
- intros nesting k (m & Hm & ->). by rewrite Nat.max_0_l.
Qed.
End Types.

(** The payloads mention enums of the table only. *)
Definition payloads_known : Prop :=
∀ id ty v, enum_types module !! id = Some ty → v ∈ et_variants ty →
forallb (enums_known count) (payload_types (ev_payload v)) = true.

Lemma open_tables tables id :
tables_ok tables → nt_nesting tables !! id = Some None → nt_marks tables !! id = Some 0%nat →
let opened := {| nt_marks := <[id := 1%nat]> (nt_marks tables);
               nt_nesting := nt_nesting tables |} in
tables_ok opened ∧ extends tables opened.
Proof.
intros [Hm Hn Hr Ho Hd Hdepth] Hnone Hzero. pose proof (lookup_lt_Some _ _ _ Hzero) as Hlt.
split; [split; simpl|split; simpl]; [by rewrite length_insert|done|..|done|done|].
- intros i m. rewrite list_lookup_insert_Some. intros [(_ & <- & _)|[_ Hi]]; [lia|by eapply Hr].
- intros i. rewrite list_lookup_insert_Some. intros [(<- & _)|[_ Hi]]; [done|by apply Ho].
- intros i. rewrite list_lookup_insert_Some. intros [(_ & ? & _)|[_ Hi]]; [done|by apply Hd].
- intros i Hi. apply list_lookup_insert_Some. right. split; [congruence|done].
Qed.

Lemma close_tables tables id ty k :
tables_ok tables → nt_marks tables !! id = Some 1%nat → enum_types module !! id = Some ty →
enum_depth (nt_nesting tables) ty = Some k →
let closed := {| nt_marks := <[id := 2%nat]> (nt_marks tables);
               nt_nesting := <[id := Some k]> (nt_nesting tables) |} in
tables_ok closed
∧ (∀ i j, nt_nesting tables !! i = Some (Some j) → nt_nesting closed !! i = Some (Some j))
∧ nt_nesting closed !! id = Some (Some k).
Proof.
intros [Hm Hn Hr Ho Hd Hdepth] Hopen Hty Hk. pose proof (Ho _ Hopen) as Hnone.
pose proof (lookup_lt_Some _ _ _ Hnone) as Hlt.
assert (∀ i j, nt_nesting tables !! i = Some (Some j) →
        <[id := Some k]> (nt_nesting tables) !! i = Some (Some j)) as Hext.
{ intros i j Hi. apply list_lookup_insert_Some. right. split; [congruence|done]. }
assert (extends tables {| nt_marks := nt_marks tables;
                        nt_nesting := <[id := Some k]> (nt_nesting tables) |}) as He by done.
assert (∀ i m, nt_marks tables !! i = Some m → i ≠ id → <[id := Some k]> (nt_nesting tables) !! i
        = nt_nesting tables !! i) as Hsame by (intros; by apply list_lookup_insert_ne).
split; [split; simpl|split; [done|by apply list_lookup_insert_eq]];
[by rewrite length_insert|by rewrite length_insert|..].
- intros i m. rewrite list_lookup_insert_Some. intros [(_ & <- & _)|[_ Hi]]; [lia|by eapply Hr].
- intros i. rewrite list_lookup_insert_Some. intros [(_ & ? & _)|[Hne Hi]]; [done|].
rewrite (Hsame _ _ Hi) by done. by apply Ho.
- intros i. rewrite list_lookup_insert_Some. intros [(<- & _)|[Hne Hi]].
+ exists k. by apply list_lookup_insert_eq.
+ rewrite (Hsame _ _ Hi) by done. by apply Hd.
- intros i j. rewrite list_lookup_insert_Some. intros [(<- & [= <-] & _)|[Hne Hi]].
+ exists ty. split; [done|]. exact (enum_depth_stable ty k _ _ He Hk).
+ destruct (Hdepth i j Hi) as (ty' & Hty' & Hj). exists ty'. split; [done|].
  exact (enum_depth_stable ty' j _ _ He Hj).
Qed.

Lemma walks_enum fuel id depth :
payloads_known → (MAX_VALUE_NESTING < depth + fuel)%nat → (depth <= MAX_VALUE_NESTING)%nat →
(id < count)%nat →
walks (verify_enum_nesting module fuel id depth) (λ nesting k, nesting !! id = Some (Some k)).
Proof.
intros Hpayloads. revert id depth. induction fuel as [|fuel IH]; intros id depth Hfuel Hdepth Hid;
[lia|].
intros tables Ht. cbn [verify_enum_nesting].
destruct (Nat.ltb_spec MAX_VALUE_NESTING depth); [lia|]. destruct Ht as [Hm Hn Hr Ho Hd Hk] eqn:Et.
assert (is_Some (nt_nesting tables !! id)) as [o Hno] by (apply lookup_lt_is_Some; lia).
rewrite Hno. destruct o as [n|].
{ destruct (Nat.ltb _ (depth + n)); [done|]. by split_and!. }
assert (is_Some (nt_marks tables !! id)) as [m Hmk] by (apply lookup_lt_is_Some; lia).
pose proof (Hr _ _ Hmk) as Hm2. rewrite Hmk.
assert (is_Some (enum_types module !! id)) as [ty Hty] by (by apply lookup_lt_is_Some).
destruct m as [|[|[|m]]]; [|done|destruct (Hd _ Hmk) as [k ?]; congruence|lia].
rewrite Hty. destruct (open_tables tables id Ht Hno Hmk) as [Hopen Hext].
set (opened := {| nt_marks := <[id := 1%nat]> (nt_marks tables);
                nt_nesting := nt_nesting tables |}) in *.
assert (walks (walk_max (λ v, verify_payload_nesting (verify_enum_nesting module fuel)
                              (ev_payload v) depth) 0 (et_variants ty))
        (λ nesting k, enum_depth nesting ty = Some k)) as Hw.
{ eapply walks_impl; [eapply (walks_max _ (λ nesting v, payload_depth nesting (ev_payload v)))|].
- intros v Hv. apply (walks_payload _ (S depth)); [|lia|by eapply Hpayloads].
  intros id' depth' Hd' Hid'. apply IH; [lia|lia|done].
- intros v k. apply payload_depth_stable.
- intros nesting k (m & Hm' & ->). by rewrite Nat.max_0_l. }
specialize (Hw opened Hopen). destruct (walk_max _ _ _ opened) as [[[k tables2]|e]|]; [|done..].
destruct Hw as (Ht2 & Hext2 & Hdk).
assert (nt_marks tables2 !! id = Some 1%nat) as Hone.
{ apply Hext2. simpl. apply list_lookup_insert_eq. lia. }
destruct (close_tables tables2 id ty k Ht2 Hone Hty Hdk) as (Hclosed & Hkeep & Hself).
split; [done|]. split; [|done]. split.
- intros i j Hi. by apply Hkeep, (proj1 Hext2), (proj1 Hext).
- intros i Hi. simpl. apply list_lookup_insert_Some. right. split; [congruence|].
by apply (proj2 Hext2), (proj2 Hext).
Qed.

Lemma walks_enums indices tables :
payloads_known → Forall (λ i, i < count)%nat indices → tables_ok tables →
match verify_enum_nestings module indices tables with
| None => False
| Some (Err _) => True
| Some (Ok tables') =>
tables_ok tables' ∧ extends tables tables'
∧ ∀ i, i ∈ indices → ∃ k, nt_nesting tables' !! i = Some (Some k)
end.
Proof.
intros Hp Hi. revert tables. induction Hi as [|i indices Hi _ IH]; intros tables Ht;
cbn [verify_enum_nestings].
{ split_and!; try done. intros i Hi. by apply elem_of_nil in Hi. }
pose proof (walks_enum nesting_fuel i 0 Hp ltac:(unfold nesting_fuel; lia) ltac:(lia) Hi tables Ht)
as Hw.
destruct (verify_enum_nesting module nesting_fuel i 0 tables) as [[[k tables1]|e]|]; [|done..].
destruct Hw as (Ht1 & He1 & Hk). specialize (IH tables1 Ht1).
destruct (verify_enum_nestings module indices tables1) as [[tables2|e]|]; [|done..].
destruct IH as (Ht2 & He2 & Hall). split; [done|]. split; [by etrans|].
intros j [->|Hj]%elem_of_cons; [|by apply Hall]. exists k. by apply (proj1 He2).
Qed.

Lemma declared_payload_known p u :
verify_payload module p = Ok u → forallb (enums_known count) (payload_types p) = true.
Proof.
destruct u, p as [|elements|fields]; cbn [verify_payload payload_types]; [done|..].
- case_bool_decide; [done|]. intros Hf%for_each_ok. apply forallb_forall. intros t Ht.
rewrite Forall_forall in Hf. specialize (Hf t (proj2 (list_elem_of_In _ _) Ht)).
unfold verify_payload_element in Hf. destruct (contains_affine_type t); [done|].
destruct (contains_stored_sub_agent t); [done|].
destruct (verify_module_value_type module t 0) as [u|] eqn:E; [|done].
by eapply checked_enums_known.
- destruct (existsb _ fields); [done|]. destruct (existsb _ fields); [done|].
destruct (verify_module_value_type module (TRecord fields) 0) as [u|] eqn:E; [|done]. intros _.
apply checked_enums_known in E. cbn [enums_known] in E. rewrite forallb_forall in *.
intros t Ht. apply in_map_iff in Ht as (f & <- & Hf). by apply E.
Qed.

Lemma declared_payloads seen types u :
verify_enum_declarations module seen types = Ok u →
∀ ty v, ty ∈ types → v ∈ et_variants ty →
forallb (enums_known count) (payload_types (ev_payload v)) = true.
Proof.
revert seen. induction types as [|ty types IH]; intros seen Hv ty' v Hty Hin; simpl in *.
{ by apply elem_of_nil in Hty. }
destruct (_ || existsb _ seen); [done|]. destruct (_ || _); [done|].
destruct (verify_variants module [] (et_variants ty)) as [u'|] eqn:E; [|done].
apply elem_of_cons in Hty as [->|Hty]; [|by eapply IH]. clear -E Hin. revert E.
generalize (@nil string). induction (et_variants ty) as [|w vs IH]; intros seen E; simpl in *.
{ by apply elem_of_nil in Hin. }
destruct (_ || _); [done|]. destruct (verify_payload module (ev_payload w)) as [u''|] eqn:Ep; [|done].
apply elem_of_cons in Hin as [->|Hin]; [by eapply declared_payload_known|by eapply IH].
Qed.

Lemma declarations_payloads_known u :
verify_enum_declarations module [] (enum_types module) = Ok u → payloads_known.
Proof. intros Hd id ty v Hty. eapply declared_payloads; [exact Hd|]. by eapply list_elem_of_lookup_2. Qed.

Lemma fresh_tables_ok :
tables_ok {| nt_marks := replicate count 0%nat; nt_nesting := replicate count None |}.
Proof.
split; simpl; try apply length_replicate; intros i; rewrite ?lookup_replicate;
intros; destruct_and?; simplify_eq; try lia.
all: match goal with H : replicate _ _ !! _ = Some _ |- _ =>
     apply lookup_replicate in H as [? ?]; simplify_eq end; lia.
Qed.

(** A complete table of nestings. *)
Definition nesting_table (nesting : list (option nat)) : Prop :=
∀ id ty, enum_types module !! id = Some ty →
∃ k, nesting !! id = Some (Some k) ∧ enum_depth nesting ty = Some k.

Lemma enum_types_table nesting :
verify_enum_types module = Some (Ok nesting) →
nesting_table nesting ∧ verify_expanded_module_types module nesting = Ok tt.
Proof.
unfold verify_enum_types. destruct (_ <? _); [done|].
destruct (verify_enum_declarations module [] _) as [u|] eqn:Ed; [|done].
pose proof (walks_enums (seq 0 count) _ (declarations_payloads_known _ Ed)
            ltac:(apply Forall_forall; intros i Hi; apply elem_of_seq in Hi; lia)
            fresh_tables_ok) as Hw.
destruct (verify_enum_nestings _ _ _) as [[tables|e]|]; [|done..]. destruct Hw as (Ht & _ & Hall).
destruct (verify_expanded_module_types module _) as [[]|] eqn:Ee; [|done]. intros [= <-].
split; [|done]. intros id ty Hty.
destruct (Hall id) as [k Hk]; [apply elem_of_seq; apply lookup_lt_Some in Hty; lia|].
exists k. split; [done|]. destruct (to_depth _ Ht _ _ Hk) as (ty' & Hty' & Hd). congruence.
Qed.

(** *** Depths bound nestings *)

Lemma max_depth_le {A} (f : A → option nat) l k x :
max_depth f l = Some k → x ∈ l → ∃ n, f x = Some n ∧ (n <= k)%nat.
Proof.
revert k. induction l as [|y l IH]; intros k Hk Hx; [by apply elem_of_nil in Hx|].
apply max_depth_cons in Hk as (a & b & Ha & Hb & ->).
apply elem_of_cons in Hx as [->|Hx]; [exists a; split; [done|lia]|].
destruct (IH b Hb Hx) as (n & Hn & Hle). exists n. split; [done|lia].
Qed.

Lemma deepest_all {X} (f : X → nat) l k :
(∀ x, x ∈ l → S (f x) <= k)%nat → (foldr (λ x n, Nat.max (S (f x)) n) 0 l <= k)%nat.
Proof.
induction l as [|x l IH]; intros Hf; simpl; [lia|].
pose proof (Hf x ltac:(by left)). specialize (IH ltac:(intros y Hy; apply Hf; by right)). lia.
Qed.

(** A depth that is defined and fits below [depth]. *)
Definition fits_below (depth : nat) (d : option nat) : Prop :=
∃ k, d = Some k ∧ (depth + k <= MAX_VALUE_NESTING)%nat.

Lemma fits_max {A} (f : A → result VerifyError unit) (d : A → option nat) l depth u :
(depth <= MAX_VALUE_NESTING)%nat → Forall (λ x, ∀ u, f x = Ok u → fits_below depth (d x)) l →
for_each f l = Ok u → fits_below depth (max_depth d l).
Proof.
intros Hn Hl. induction Hl as [|x l Hx _ IH]; simpl; intros Hv.
{ exists 0%nat. split; [done|lia]. }
destruct (f x) as [w|]; [|done]. destruct (Hx w eq_refl) as (a & Ha & Hla).
destruct (IH Hv) as (b & Hb & Hlb). exists (Nat.max a b).
split; [apply max_depth_cons; eauto|lia].
Qed.

Lemma fits_deeper depth d : fits_below (S depth) d → fits_below depth (n ← d; Some (S n)).
Proof. intros (k & -> & Hk). exists (S k). split; [done|lia]. Qed.

(** The depth of a type that passes is inside the limit. *)
Lemma expanded_type_depth nesting t depth u :
verify_expanded_value_type nesting t depth = Ok u → fits_below depth (expanded_depth nesting t).
Proof.
revert depth u.
induction t as [t Ht|e IH|a b IHa IHb|l IH|fs IH|n e IH|e IH|a b IHa IHb|e IH|e IH|e IH
             |ps r e IH IHr] using ValueType_ind'; intros depth u Hv;
try (cbn [verify_expanded_value_type expanded_depth] in *;
  destruct (Nat.ltb_spec MAX_VALUE_NESTING depth); [done|]);
try (by eapply fits_deeper, IH).
- destruct t; try done; cbn [verify_expanded_value_type expanded_depth] in *;
  (destruct (Nat.ltb_spec MAX_VALUE_NESTING depth); [done|]);
  try (exists 0%nat; split; [done|lia]).
destruct (mjoin (nesting !! id)) as [k|]; simpl in Hv; [|done].
destruct (Nat.ltb_spec MAX_VALUE_NESTING (depth + k)); [done|]. by exists k.
- destruct (verify_expanded_value_type nesting a _) as [w|] eqn:E; [|done].
destruct (IHa _ _ E) as (n & -> & Hn), (IHb _ _ Hv) as (m & -> & Hm).
exists (S (Nat.max n m)). split; [done|lia].
- eapply fits_max; [done| |exact Hv]. eapply Forall_impl; [exact IH|]. intros x Hx w Hw.
by eapply fits_deeper, Hx.
- eapply fits_max; [done| |exact Hv]. eapply Forall_impl; [exact IH|]. intros x Hx w Hw.
by eapply fits_deeper, Hx.
- destruct (verify_expanded_value_type nesting a _) as [w|] eqn:E; [|done].
destruct (IHa _ _ E) as (n & -> & Hn), (IHb _ _ Hv) as (m & -> & Hm).
exists (S (Nat.max n m)). split; [done|lia].
- destruct (for_each _ ps) as [w|] eqn:E; [|done].
destruct (IHr _ _ Hv) as (n & -> & Hn). simpl.
destruct (fits_max (λ t, verify_expanded_value_type nesting t (S depth))
            (expanded_depth nesting) ps (S depth) w) as (m & -> & Hm); [lia| |done|].
{ eapply Forall_impl; [exact IH|]. eauto. }
exists (S (Nat.max n m)). split; [done|lia].
Qed.

(** Values of a type are not nested deeper than the type. *)
Lemma nesting_all2 nesting_ (f : Value → ValueType → bool) l types k :
Forall (λ v, ∀ t d, f v t = true → expanded_depth nesting_ t = Some d → (nesting v <= d)%nat) l →
all2 f l types = true →
max_depth (λ t, n ← expanded_depth nesting_ t; Some (S n)) types = Some k →
(foldr (λ x n, Nat.max (S (nesting x)) n) 0 l <= k)%nat.
Proof.
intros Hl. revert types k. induction Hl as [|v l Hv _ IH]; intros [|t types] k Ht Hk;
cbn [all2 foldr map] in *; try done; [lia|].
apply andb_true_iff in Ht as [Ht Hts]. apply max_depth_cons in Hk as (a & b & Ha & Hb & ->).
apply bind_Some in Ha as (n & Hn & [= <-]). pose proof (Hv t n Ht Hn).
pose proof (IH types b Hts Hb). lia.
Qed.

Lemma nesting_fields nesting_ (f : Value → ValueType → bool) (l : list (string * Value))
(fields : list RecordField) k :
Forall (λ v, ∀ t d, f v.2 t = true → expanded_depth nesting_ t = Some d → (nesting v.2 <= d)%nat) l →
all2 (λ (v : string * Value) (g : string * ValueType), String.eqb v.1 g.1 && f v.2 g.2) l fields
= true →
max_depth (λ t, n ← expanded_depth nesting_ t; Some (S n)) (map snd fields) = Some k →
(foldr (λ x n, Nat.max (S (nesting x.2)) n) 0 l <= k)%nat.
Proof.
intros Hl. revert fields k. induction Hl as [|v l Hv _ IH]; intros [|t types] k Ht Hk;
cbn [all2 foldr map] in *; try done; [lia|].
apply andb_true_iff in Ht as [Ht Hts]. apply andb_true_iff in Ht as [_ Ht].
apply max_depth_cons in Hk as (a & b & Ha & Hb & ->).
apply bind_Some in Ha as (n & Hn & [= <-]). pose proof (Hv t.2 n Ht Hn).
pose proof (IH types b Hts Hb). lia.
Qed.

Lemma max_depth_map {A B} (g : A → B) (f : B → option nat) l :
max_depth (λ x, f (g x)) l = max_depth f (map g l).
Proof. induction l as [|x l IH]; [done|]. unfold max_depth in *. simpl. by rewrite IH. Qed.

Lemma typed_nesting nesting_ v t k :
nesting_table nesting_ → has_type module v t = true → expanded_depth nesting_ t = Some k →
(nesting v <= k)%nat.
Proof.
intros Htable. revert t k.
induction v as [v Hv|l IH|m IH|l IH|fs IH|i tn n vn p IH|i v IH|v IH|f l IH|f IH]
using Value_ind'; intros t k Ht Hk; cbn [nesting]; try lia.
- destruct v; try done; simpl; lia.
- destruct t; try done. cbn [has_type expanded_depth] in *. apply bind_Some in Hk as (d & Hd & [= <-]).
rewrite forallb_forall in Ht. rewrite Forall_forall in IH. apply deepest_all. intros x Hx.
pose proof (IH x Hx _ _ (Ht x (proj1 (list_elem_of_In _ _) Hx)) Hd). lia.
- destruct t; try done. cbn [has_type expanded_depth] in *.
apply bind_Some in Hk as (d & Hd & Hk). apply bind_Some in Hk as (e & He & [= <-]).
apply andb_true_iff in Ht as [_ Ht]. rewrite forallb_forall in Ht. rewrite Forall_forall in IH.
apply deepest_all. intros x Hx. destruct (IH x Hx) as [H1 H2].
pose proof (Ht x (proj1 (list_elem_of_In _ _) Hx)) as [Hx1 Hx2]%andb_true_iff.
pose proof (H1 _ _ Hx1 Hd). pose proof (H2 _ _ Hx2 He). lia.
- destruct t; try done. cbn [has_type expanded_depth] in *. by eapply nesting_all2.
- destruct t; try done. cbn [has_type expanded_depth] in *. eapply nesting_fields; [exact IH|exact Ht|].
rewrite <- max_depth_map. exact Hk.
- destruct t; try done; cbn [has_type expanded_depth] in *; apply andb_true_iff in Ht as [_ Ht].
+ unfold variant_payload in Ht. destruct (enum_types module !! id) as [ty|] eqn:Hty; [|done].
  simpl in Ht. destruct (et_variants ty !! n) as [w|] eqn:Hw; [|done]. simpl in Ht.
  destruct (Htable id ty Hty) as (d & Hd & Hdepth). rewrite Hd in Hk. simpl in Hk. injection Hk as <-.
  apply list_elem_of_lookup_2 in Hw.
  destruct (max_depth_le _ _ _ _ Hdepth Hw) as (c & Hc & Hle). unfold payload_depth in Hc.
  destruct p as [|l|fs], (ev_payload w) as [|ts|gs]; try done; [lia|..]; simpl in *.
  * pose proof (nesting_all2 nesting_ (has_type module) l ts c IH Ht Hc). lia.
  * pose proof (nesting_fields nesting_ (has_type module) fs gs c IH Ht Hc). lia.
+ apply bind_Some in Hk as (d & Hd & [= <-]).
  destruct n as [|[|n]], p as [|[|x []]|]; try done; [lia|]. apply Forall_inv in IH.
  pose proof (IH _ _ Ht Hd). simpl. lia.
+ apply bind_Some in Hk as (d & Hd & Hk). apply bind_Some in Hk as (e & He & [= <-]).
  destruct n as [|[|n]], p as [|[|x []]|]; try done; apply Forall_inv in IH;
    [pose proof (IH _ _ Ht Hd)|pose proof (IH _ _ Ht He)]; simpl; lia.
- destruct t; try done. cbn [has_type expanded_depth] in *. apply bind_Some in Hk as (d & Hd & [= <-]).
apply andb_true_iff in Ht as [_ Ht]. pose proof (IH _ _ Ht Hd). lia.
Qed.

(** *** Enums that use enums *)

(** The enums that a type names. *)
Fixpoint enum_ids (t : ValueType) : list EnumTypeId :=
match t with
| TEnum id => [id]
| TList e | TOption e | TFuture e | TTask e | TSequence e | TNewtype _ e => enum_ids e
| TMap a b | TResult a b => enum_ids a ++ enum_ids b
| TTuple elements => flat_map enum_ids elements
| TRecord fields => flat_map (λ field : RecordField, enum_ids field.2) fields
| TFunction parameters return_type _ => flat_map enum_ids parameters ++ enum_ids return_type
| _ => []
end%list.

(** A payload of the first enum names the second. *)
Definition enum_uses (id id' : EnumTypeId) : Prop :=
∃ ty v t, enum_types module !! id = Some ty ∧ v ∈ et_variants ty
        ∧ t ∈ payload_types (ev_payload v) ∧ id' ∈ enum_ids t.

(** The enum's entry of the table is at most [k]. *)
Definition nests_at_most (nesting_ : list (option nat)) (k : nat) (id : EnumTypeId) : Prop :=
∃ n, nesting_ !! id = Some (Some n) ∧ (n <= k)%nat.

Lemma nests_at_most_le nesting_ k k' id :
nests_at_most nesting_ k id → (k <= k')%nat → nests_at_most nesting_ k' id.
Proof. intros (n & Hn & Hle) Hk. exists n. split; [done|lia]. Qed.

Lemma max_depth_ids {A} (f : A → option nat) (ids : A → list EnumTypeId) nesting_ l k id :
Forall (λ x, ∀ k, f x = Some k → ∀ id, id ∈ ids x → nests_at_most nesting_ k id) l →
max_depth f l = Some k → id ∈ flat_map ids l → nests_at_most nesting_ k id.
Proof.
intros Hl Hk (x & Hx & Hid)%list_elem_of_In%in_flat_map. apply list_elem_of_In in Hx, Hid.
destruct (max_depth_le f l k x Hk Hx) as (m & Hm & Hle). rewrite Forall_forall in Hl.
eapply nests_at_most_le; [by apply (Hl x Hx m Hm)|done].
Qed.

Lemma deeper_ids nesting_ (d : option nat) (ids : list EnumTypeId) :
(∀ k, d = Some k → ∀ id, id ∈ ids → nests_at_most nesting_ k id) →
∀ k, (n ← d; Some (S n)) = Some k → ∀ id, id ∈ ids → nests_at_most nesting_ k id.
Proof.
intros IH k Hk id Hid. apply bind_Some in Hk as (n & Hn & [= <-]).
eapply nests_at_most_le; [by eapply IH|lia].
Qed.

Lemma expanded_depth_ids nesting_ t :
∀ k, expanded_depth nesting_ t = Some k → ∀ id, id ∈ enum_ids t → nests_at_most nesting_ k id.
Proof.
induction t as [t Ht|e IH|a b IHa IHb|l IH|fs IH|n e IH|e IH|a b IHa IHb|e IH|e IH|e IH
             |ps r e IH IHr] using ValueType_ind';
cbn [expanded_depth enum_ids]; try (by apply deeper_ids).
- destruct t; try done; try (intros k _ id Hid; by apply elem_of_nil in Hid). simpl.
intros k Hk id' [= ->]%list_elem_of_singleton. exists k. split; [|lia].
by destruct (nesting_ !! id) as [[n|]|]; simplify_eq/=.
- intros k Hk id Hid. apply bind_Some in Hk as (x & Hx & (y & Hy & [= <-])%bind_Some).
apply elem_of_app in Hid as [Hid|Hid]; eapply nests_at_most_le; eauto; lia.
- intros k Hk id. apply (max_depth_ids _ _ _ _ _ _) with (2 := Hk).
eapply Forall_impl; [exact IH|]. intros x. apply deeper_ids.
- intros k Hk id. apply (max_depth_ids _ _ _ _ _ _) with (2 := Hk).
eapply Forall_impl; [exact IH|]. intros x. apply deeper_ids.
- intros k Hk id Hid. apply bind_Some in Hk as (x & Hx & (y & Hy & [= <-])%bind_Some).
apply elem_of_app in Hid as [Hid|Hid]; eapply nests_at_most_le; eauto; lia.
- intros k Hk id Hid. apply bind_Some in Hk as (x & Hx & (y & Hy & [= <-])%bind_Some).
apply elem_of_app in Hid as [Hid|Hid].
+ eapply nests_at_most_le; [by eapply max_depth_ids|lia].
+ eapply nests_at_most_le; [by eapply IHr|lia].
Qed.

Lemma enum_uses_decreases nesting_ id id' k :
nesting_table nesting_ → nesting_ !! id = Some (Some k) → enum_uses id id' →
∃ n, nesting_ !! id' = Some (Some n) ∧ (n < k)%nat.
Proof.
intros Htable Hk (ty & v & t & Hty & Hv & Ht & Hid). destruct (Htable id ty Hty) as (k' & Hk' & Hd).
rewrite Hk in Hk'. injection Hk' as <-.
destruct (max_depth_le _ _ _ _ Hd Hv) as (c & Hc & Hle).
destruct (max_depth_le _ _ _ _ Hc Ht) as (d & Hd' & Hle').
apply bind_Some in Hd' as (m & Hm & [= <-]).
destruct (expanded_depth_ids nesting_ t m Hm id' Hid) as (n & Hn & Hnm). exists n. split; [done|lia].
Qed.

Lemma enum_path_decreases nesting_ id id' k :
nesting_table nesting_ → tc enum_uses id id' → nesting_ !! id = Some (Some k) →
∃ n, nesting_ !! id' = Some (Some n) ∧ (n < k)%nat.
Proof.
intros Htable Hp. revert k. induction Hp as [id id' Hu|id id1 id' Hu _ IH]; intros k Hk.
- by eapply enum_uses_decreases.
- destruct (enum_uses_decreases _ _ _ _ Htable Hk Hu) as (n & Hn & Hlt).
destruct (IH n Hn) as (m & Hm & Hlt'). exists m. split; [done|lia].
Qed.
End WalkLemmas.

(** ** Claims *)

(** The check of the enum table always answers, with a table or an error: the
    recursion over the types ends within the nesting limit, no table access is out
    of range, and an enum that is marked as completed has its entry, so the
    [unreachable!] is. *)
Theorem enum_checks_answer (module : Module_) : verify_enum_types module ≠ None.
Proof.
  unfold verify_enum_types. destruct (_ <? _); [done|].
  destruct (verify_enum_declarations module [] _) as [u|] eqn:Ed; [|done].
  pose proof (walks_enums module (seq 0 (length (enum_types module))) _
                (declarations_payloads_known _ _ Ed)
                ltac:(apply Forall_forall; intros i Hi; apply elem_of_seq in Hi; lia)
                (fresh_tables_ok module)) as Hw.
  destruct (verify_enum_nestings _ _ _) as [[tables|e]|]; [|done..].
  by destruct (verify_expanded_module_types module _).
Qed.

(** The enums of an accepted module are not recursive: no chain of enums, each
    named somewhere in a payload of the one before, comes back to its start, through
    whatever lists, options, functions or newtypes the names are wrapped in. *)
Theorem accepted_enums_not_recursive (module : Module_) nesting_ (id : EnumTypeId) :
  verify_enum_types module = Some (Ok nesting_) → ¬ tc (enum_uses module) id id.
Proof.
  intros [Htable _]%enum_types_table Hp.
  assert (∃ ty, enum_types module !! id = Some ty) as [ty Hty].
  { clear Htable. remember id as id' in Hp at 2. destruct Hp as [? ? Hu|? ? ? Hu _];
      destruct Hu as (ty & _ & _ & Hty & _); by exists ty. }
  destruct (Htable id ty Hty) as (k & Hk & _).
  destruct (enum_path_decreases _ _ _ _ _ Htable Hp Hk) as (n & Hn & Hlt). simplify_eq. lia.
Qed.

(** A tree of two enums: [Shape] names [Unit_] under a list. *)
Definition shapes_module : Module_ := {|
  constants := [];
  enum_types :=
    [{| et_name := "Shape"; et_variants :=
          [{| ev_name := "Dot"; ev_payload := PTUnit |};
           {| ev_name := "Path"; ev_payload := PTTuple [TList (TEnum 1)] |}] |};
     {| et_name := "Step"; et_variants :=
          [{| ev_name := "By"; ev_payload := PTRecord [("dx", TInt); ("dy", TInt)] |}] |}];
  effect_sets := []; functions := []; async_functions := []; entry := 0%nat |}.

Lemma accepted_enums_not_recursive_witness :
  enum_uses shapes_module 0%nat 1%nat ∧ ¬ tc (enum_uses shapes_module) 0%nat 0%nat.
Proof.
  split.
  - eexists _, _, (TList (TEnum 1)). split; [reflexivity|]. split; [right; left|].
    split; left.
  - apply (accepted_enums_not_recursive shapes_module [Some 3%nat; Some 1%nat] 0). reflexivity.
Defined.
