(* ===== verification/VerifierFlow.v ===== *)
(** * Flow checks of the verifier ([crates/allen-bytecode/src/verifier.rs])

    The passes of [verify_cfg_function] after definite initialization: sub-agents
    stay inside the lexical scope that owns them, futures and tasks are used once
    and never dropped, and every backward edge closes a natural loop.  The first two
    propagate one state per instruction along the control-flow edges and require the
    states to agree where edges meet; the last one builds the dominator tree. *)

From S2P Require Import Prelude Text Bytecode VerifierTypes VerifierRules Verifier.
Open Scope string_scope.
Open Scope Z_scope.

(** [v.push(x)], [v.pop()] and [v.last()] on a vector. *)
Definition pop {A} (l : list A) : option A * list A := (last l, take (length l - 1) l).

(** The targets of an instruction, when those outside the code have been rejected. *)
Definition successors_of (index : nat) (i : Instruction) : list nat :=
  match i with
  | Return_ _ | Stop _ | Fail_ _ => []
  | Jump target => [target]
  | BranchBool _ true_target false_target => [true_target; false_target]
  | SwitchEnum _ arms => map arm_target arms
  | _ => [S index]
  end.

(** ** One state per instruction *)

Section Flow.
Context {S : Type} `{EqDecision S}.
(** The successors with their states, the states that may not go backward, and the
state as the target sees it; [None] is a panic. *)
Context (transfer : nat → Instruction → S → option (result string (list (nat * S)))).
Context (carries : S → bool) (normalize : nat → S → option S).
Context (backward_message join_message : string).

Definition merge_flow_edge (function_index index target : nat) (incoming : S)
(states : list (option S)) (worklist : list nat)
: option (result VerifyError (list (option S) * list nat)) :=
if Nat.leb target index && carries incoming
then Some (Err (VerifyError_instruction function_index index backward_message))
else
incoming ← normalize target incoming;
existing ← states !! target;
match existing with
| None => Some (Ok (<[target := Some incoming]> states, (worklist ++ [target])%list))
| Some existing =>
  if bool_decide (existing = incoming) then Some (Ok (states, worklist))
  else Some (Err (VerifyError_instruction function_index target join_message))
end.

Fixpoint merge_flow_edges (function_index index : nat) (edges : list (nat * S))
(states : list (option S)) (worklist : list nat)
: option (result VerifyError (list (option S) * list nat)) :=
match edges with
| [] => Some (Ok (states, worklist))
| (target, incoming) :: rest =>
let* next := merge_flow_edge function_index index target incoming states worklist in
merge_flow_edges function_index index rest next.1 next.2
end.

(** The loop over the worklist; a state is recorded once, so every index is taken
at most once. *)
Fixpoint flow_loop (fuel function_index : nat) (code : list Instruction)
(states : list (option S)) (worklist : list nat)
: option (result VerifyError (list (option S))) :=
match worklist with
| [] => Some (Ok states)
| index :: worklist =>
match fuel with
| O => None
| Datatypes.S fuel =>
  i ← code !! index;
  state ← mjoin (states !! index);
  match transfer index i state with
  | None => None
  | Some (Err message) => Some (Err (VerifyError_instruction function_index index message))
  | Some (Ok edges) =>
    let* next := merge_flow_edges function_index index edges states worklist in
    flow_loop fuel function_index code next.1 next.2
  end
end
end.

(** The states before the loop: the entry has one. *)
Definition flow_entry (code : list Instruction) (initial : S) : list (option S) :=
<[0%nat := Some initial]> (replicate (length code) None).

Definition flow (function_index : nat) (code : list Instruction) (initial : S)
: option (result VerifyError (list (option S))) :=
match code with
| [] => None
| _ => flow_loop (Datatypes.S (length code)) function_index code (flow_entry code initial) [0%nat]
end.
End Flow.

(** ** Sub-agents *)

Inductive SubAgentAvailability := Unavailable | Available (scope : nat) (provenance : Z).
#[global] Instance SubAgentAvailability_eq_dec : EqDecision SubAgentAvailability.
Proof. solve_decision. Defined.

Record SubAgentState := {
  sa_registers : list SubAgentAvailability; sa_scopes : list nat }.
#[global] Instance SubAgentState_eq_dec : EqDecision SubAgentState.
Proof. solve_decision. Defined.

Definition is_available (a : SubAgentAvailability) : bool :=
  match a with Available _ _ => true | Unavailable => false end.

(** [(1_u64 << 63) | index] *)
Definition instruction_provenance (index : nat) : Z := Z.lor (Z.shiftl 1 63) (Z.of_nat index).

(** The depth of a scope among the active ones; [None] where the source asserts
    that the scope is still active. *)
Definition sub_agent_scope_depth (scope : nat) (active_scopes : list nat) : option nat :=
  if Nat.eqb scope 0 then Some 0%nat
  else depth ← position (λ active, Nat.eqb active scope) active_scopes; Some (S depth).

Definition combine_sub_agent_sources (left_ right_ : SubAgentAvailability) (index : nat)
    (active_scopes : list nat) : option SubAgentAvailability :=
  match left_, right_ with
  | Available left_scope left_provenance, Available right_scope right_provenance =>
    left_depth ← sub_agent_scope_depth left_scope active_scopes;
    right_depth ← sub_agent_scope_depth right_scope active_scopes;
    Some (Available (if Nat.leb right_depth left_depth then left_scope else right_scope)
            (if left_provenance =? right_provenance then left_provenance
             else instruction_provenance index))
  | _, _ => None
  end.

Section SubAgents.
Variable function : Function.

(** [contains_stored_sub_agent(&function.registers[r])] *)
Definition stores_sub_agent (r : Register) : option bool :=
t ← fn_registers function !! r; Some (contains_stored_sub_agent t).

Fixpoint sub_agent_sources (state : SubAgentState) (sources : list Register)
: option (result string unit) :=
match sources with
| [] => Some (Ok tt)
| source :: rest =>
stored ← stores_sub_agent source;
if stored : bool then
  availability ← sa_registers state !! source;
  if is_available availability then sub_agent_sources state rest
  else Some (Err "SubAgent register is not available in this lexical scope")
else sub_agent_sources state rest
end.

(** The availabilities of the arguments that hold sub-agents. *)
Fixpoint sub_agent_arguments (state : SubAgentState) (arguments : list Register)
: option (list SubAgentAvailability) :=
match arguments with
| [] => Some []
| argument :: rest =>
stored ← stores_sub_agent argument;
others ← sub_agent_arguments state rest;
if stored : bool then a ← sa_registers state !! argument; Some (a :: others)
else Some others
end.

Fixpoint combine_all (combined : SubAgentAvailability) (sources : list SubAgentAvailability)
(index : nat) (scopes : list nat) : option SubAgentAvailability :=
match sources with
| [] => Some combined
| source :: rest =>
combined ← combine_sub_agent_sources combined source index scopes;
combine_all combined rest index scopes
end.

Definition sub_agent_call (index : nat) (state : SubAgentState) (arguments : list Register)
(message : string) : option (result string SubAgentAvailability) :=
sources ← sub_agent_arguments state arguments;
match sources with
| [] => Some (Err message)
| first :: rest => a ← combine_all first rest index (sa_scopes state); Some (Ok a)
end.

Definition sub_agent_result_availability (index : nat) (i : Instruction) (state : SubAgentState)
: option (result string SubAgentAvailability) :=
let current_scope := Available (default 0%nat (last (sa_scopes state)))
                     (instruction_provenance index) in
match i with
| Move _ source | Await _ source | TryResult _ source | TryOption _ source
| Spawn _ source _ => a ← sa_registers state !! source; Some (Ok a)
| DirectCall _ _ arguments =>
sub_agent_call index state arguments
  "direct call returning SubAgent requires a SubAgent-containing argument"
| ClosureCall _ _ arguments =>
sub_agent_call index state arguments
  "closure call returning SubAgent requires a SubAgent-containing argument"
| AsyncCall _ _ _ | EffectCall _ SubAgentCreate _ => Some (Ok current_scope)
| _ => Some (Err "instruction cannot produce a SubAgent-containing value")
end.

Definition sub_agent_scopes (i : Instruction) (state : SubAgentState)
: result string SubAgentState :=
match i with
| TaskScopeEnter scope =>
Ok {| sa_registers := sa_registers state; sa_scopes := (sa_scopes state ++ [scope])%list |}
| TaskScopeExit scope =>
let '(top, scopes) := pop (sa_scopes state) in
if negb (bool_decide (top = Some scope))
then Err "task scope exit does not match the current scope"
else Ok {| sa_registers :=
             map (λ a, match a with
                       | Available origin _ => if Nat.eqb origin scope then Unavailable else a
                       | Unavailable => a
                       end) (sa_registers state);
           sa_scopes := scopes |}
| _ => Ok state
end.

Definition sub_agent_destination (index : nat) (i : Instruction) (state : SubAgentState)
: option (result string SubAgentState) :=
match instruction_destination i with
| None => Some (Ok state)
| Some destination =>
stored ← stores_sub_agent destination;
if stored : bool then
  let* a := sub_agent_result_availability index i state in
  Some (Ok {| sa_registers := <[destination := a]> (sa_registers state);
              sa_scopes := sa_scopes state |})
else Some (Ok state)
end.

(** The arm of a switch binds parts of the enum: they are available where it is. *)
Fixpoint bind_sub_agents (source : Register) (bindings : list Register) (state : SubAgentState)
: option SubAgentState :=
match bindings with
| [] => Some state
| binding :: rest =>
stored ← stores_sub_agent binding;
if stored : bool then
  a ← sa_registers state !! source;
  bind_sub_agents source rest
    {| sa_registers := <[binding := a]> (sa_registers state); sa_scopes := sa_scopes state |}
else bind_sub_agents source rest state
end.

Definition sub_agent_transfer (index : nat) (i : Instruction) (state : SubAgentState)
: option (result string (list (nat * SubAgentState))) :=
try* sub_agent_sources state (instruction_sources i) in
let* state := Some (sub_agent_scopes i state) in
let* state := sub_agent_destination index i state in
match i with
| SwitchEnum source arms =>
edges ← mapM (λ arm, s ← bind_sub_agents source (arm_bindings arm) state;
                     Some (arm_target arm, s)) arms;
Some (Ok edges)
| _ => Some (Ok (map (λ target, (target, state)) (successors_of index i)))
end.

(** [normalize_uninitialized_sub_agents]: what the target does not find initialized
is unavailable to it. *)
Definition normalize_uninitialized_sub_agents (initialized : list bool) (state : SubAgentState)
: SubAgentState :=
{| sa_registers :=
   imap (λ r a,
     match fn_registers function !! r, initialized !! r with
     | Some t, Some false => if contains_stored_sub_agent t then Unavailable else a
     | _, _ => a
     end) (sa_registers state);
 sa_scopes := sa_scopes state |}.

Definition sub_agent_entry : option (list SubAgentAvailability) :=
foldl (λ registers r,
  registers ← registers; stored ← stores_sub_agent r;
  Some (if stored : bool then <[r := Available 0 (Z.of_nat r)]> registers else registers))
(Some (replicate (length (fn_registers function)) Unavailable))
(fn_parameters function ++ fn_captures function)%list.

Definition verify_sub_agent_cfg (function_index : nat)
(definite_initialization : list (option (list bool)))
: option (result VerifyError (list (option SubAgentState))) :=
if negb (existsb contains_stored_sub_agent (fn_registers function)) then Some (Ok [])
else
registers ← sub_agent_entry;
flow sub_agent_transfer
  (λ state, existsb is_available (sa_registers state))
  (λ target state,
     initialized ← mjoin (definite_initialization !! target);
     Some (normalize_uninitialized_sub_agents initialized state))
  "backward control-flow edge cannot carry an available SubAgent"
  "control-flow join has inconsistent SubAgent availability or lexical scopes"
  function_index (fn_code function)
  {| sa_registers := registers; sa_scopes := [] |}.
End SubAgents.

(** ** Futures and tasks *)

Inductive AffineState := Uninitialized | Live (origin : nat) (must_consume : bool) | Consumed.
#[global] Instance AffineState_eq_dec : EqDecision AffineState.
Proof. solve_decision. Defined.

Record OwnershipState := { os_registers : list AffineState; os_scopes : list nat }.
#[global] Instance OwnershipState_eq_dec : EqDecision OwnershipState.
Proof. solve_decision. Defined.

Definition is_live (a : AffineState) : bool := match a with Live _ _ => true | _ => false end.
(** [AffineState::Live { must_consume: true, .. }] *)
Definition is_obligation (a : AffineState) : bool :=
  match a with Live _ must_consume => must_consume | _ => false end.

Definition instruction_consumes_register (i : Instruction) (r : Register) : bool :=
  match i with
  | Move _ source | Await _ source | Spawn _ source _ => Nat.eqb source r
  | DirectCall _ _ arguments | ClosureCall _ _ arguments | AsyncCall _ _ arguments =>
    existsb (Nat.eqb r) arguments
  | SequenceMap _ sequence _ | SequenceFilter _ sequence _ | SequenceTake _ sequence _
  | SequenceFind _ sequence _ | SequenceAny _ sequence _ | SequenceAll _ sequence _
  | SequenceToList _ sequence => Nat.eqb sequence r
  | SequenceFold _ sequence initial _ => Nat.eqb sequence r || Nat.eqb initial r
  | _ => false
  end.

Section Affine.
Context (module : Module_) (function : Function).

(** [is_affine_type(&function.registers[r])] *)
Definition affine_register (r : Register) : option bool :=
t ← fn_registers function !! r; Some (is_affine_type t).

Definition is_task_register (r : Register) : option bool :=
t ← fn_registers function !! r;
Some match t with TTask _ => true | _ => false end.

(** The state of a register that has been checked to be live. *)
Definition live_state (state : OwnershipState) (r : Register) : option (nat * bool) :=
a ← os_registers state !! r;
match a with Live origin must_consume => Some (origin, must_consume) | _ => None end.

Definition consume (state : OwnershipState) (r : Register) : OwnershipState :=
{| os_registers := <[r := Consumed]> (os_registers state); os_scopes := os_scopes state |}.

Fixpoint affine_sources (state : OwnershipState) (sources : list Register)
: option (result string unit) :=
match sources with
| [] => Some (Ok tt)
| source :: rest =>
affine ← affine_register source;
if affine : bool then
  a ← os_registers state !! source;
  if is_live a then affine_sources state rest else Some (Err "affine register is not live")
else affine_sources state rest
end.

Definition affine_overwrite (i : Instruction) (state : OwnershipState)
: option (result string unit) :=
match instruction_destination i with
| None => Some (Ok tt)
| Some destination =>
a ← os_registers state !! destination;
if is_obligation a && negb (instruction_consumes_register i destination)
then Some (Err "live affine obligation cannot be overwritten")
else Some (Ok tt)
end.

(** What an instruction does to the ownership: the state, and the origin and the
obligation of its result. *)
Record Transferred := {
tr_state : OwnershipState; tr_origin : nat; tr_must_consume : bool }.
Definition transferred (state : OwnershipState) (origin : nat) (must_consume : bool) : Transferred :=
{| tr_state := state; tr_origin := origin; tr_must_consume := must_consume |}.

Definition affine_move (state : OwnershipState) (destination source : Register)
: option (result string Transferred) :=
affine ← affine_register source;
if affine : bool then
if Nat.eqb destination source
then Some (Err "affine move source and destination must differ")
else
  live ← live_state state source;
  Some (Ok (transferred (consume state source) live.1 live.2))
else Some (Ok (transferred state 0 false)).

(** The loop over the arguments of a call; [hidden] says which parameters of the
callee oblige by themselves. *)
Fixpoint affine_arguments (state : OwnershipState) (consumed : list Register)
(captured_origin : nat) (must_consume : bool) (arguments : list (Register * option bool))
: option (result string Transferred) :=
match arguments with
| [] => Some (Ok (transferred state captured_origin must_consume))
| (argument, hidden) :: rest =>
affine ← affine_register argument;
if affine : bool then
  if existsb (Nat.eqb argument) consumed
  then Some (Err "call cannot consume one Future or Task argument more than once")
  else
    live ← live_state state argument;
    if negb (Nat.eqb captured_origin 0)
       && negb (Nat.eqb live.1 0) && negb (Nat.eqb captured_origin live.1)
    then Some (Err "call cannot combine affine values from different task scopes")
    else
      hidden ← hidden;
      affine_arguments (consume state argument) (argument :: consumed)
        (if Nat.eqb captured_origin 0 then live.1 else captured_origin)
        (must_consume || (hidden || live.2)) rest
else affine_arguments state consumed captured_origin must_consume rest
end.

Definition affine_call (state : OwnershipState) (destination : Register)
(arguments : list Register) : option (result string Transferred) :=
let* t := affine_arguments state [] 0 false (map (λ a, (a, Some false)) arguments) in
task ← is_task_register destination;
Some (Ok (if task : bool
        then transferred (tr_state t)
               (default (tr_origin t) (last (os_scopes (tr_state t)))) true
        else t)).

Definition affine_async_call (state : OwnershipState) (target : FunctionId)
(arguments : list Register) : option (result string Transferred) :=
target ← functions module !! target;
affine_arguments state [] 0 false
(map (λ p : Register * Register,
        (p.1, t ← fn_registers target !! p.2;
              Some match t with TTask _ => true | _ => false end))
   (combine arguments (fn_parameters target))).

Definition affine_spawn (state : OwnershipState) (future : Register) (scope : nat)
: result string Transferred :=
if negb (Nat.eqb scope (default 0%nat (last (os_scopes state))))
then Err "spawn scope does not match the current lexical task scope"
else Ok (transferred (consume state future) scope true).

Definition affine_await (state : OwnershipState) (destination source : Register)
: option (result string Transferred) :=
live ← live_state state source;
task ← is_task_register destination;
affine ← affine_register destination;
Some (Ok (transferred (consume state source)
          (if task : bool then default live.1 (last (os_scopes state)) else live.1) affine)).

(** Sequences: the source is consumed, and passes its origin and obligation on. *)
Definition affine_sequence (state : OwnershipState) (destination sequence : Register)
: option (result string Transferred) :=
live ← live_state state sequence;
affine ← affine_register destination;
Some (Ok (if affine : bool then transferred (consume state sequence) live.1 live.2
        else transferred (consume state sequence) 0 false)).

Definition affine_sequence_fold (state : OwnershipState) (sequence initial : Register)
: option (result string Transferred) :=
live ← live_state state sequence;
if Nat.eqb initial sequence
then Some (Err "sequence fold cannot use one affine value as both source and accumulator")
else
let state := consume state sequence in
affine ← affine_register initial;
if affine : bool then
  first ← live_state state initial;
  if negb (Nat.eqb first.1 0) && negb (Nat.eqb live.1 0) && negb (Nat.eqb first.1 live.1)
  then Some (Err "sequence fold cannot combine affine values from different task scopes")
  else Some (Ok (transferred (consume state initial)
                   (if negb (Nat.eqb first.1 0) then first.1 else live.1) first.2))
else Some (Ok (transferred state 0 false)).

(** A future with an obligation, or a task of a future, may not end with its scope. *)
Definition escapes_scope (t : ValueType) (must_consume : bool) : bool :=
match t with
| TTask value => is_affine_type value
| TFuture _ => must_consume
| _ => false
end.

Fixpoint exit_scope (scope : nat) (register : nat) (registers : list AffineState)
: option (result string (list AffineState)) :=
match registers with
| [] => Some (Ok [])
| Live origin must_consume :: rest =>
if Nat.eqb origin scope then
  t ← fn_registers function !! register;
  if escapes_scope t must_consume
  then Some (Err "nested affine result must be awaited before scope exit")
  else
    let* others := exit_scope scope (S register) rest in
    Some (Ok (Consumed :: others))
else
  let* others := exit_scope scope (S register) rest in
  Some (Ok (Live origin must_consume :: others))
| a :: rest =>
let* others := exit_scope scope (S register) rest in
Some (Ok (a :: others))
end.

Definition affine_scope_exit (state : OwnershipState) (scope : nat)
: option (result string Transferred) :=
let '(top, scopes) := pop (os_scopes state) in
if negb (bool_decide (top = Some scope))
then Some (Err "task scope exit does not match the current scope")
else
let* registers := exit_scope scope 0 (os_registers state) in
Some (Ok (transferred {| os_registers := registers; os_scopes := scopes |} 0 false)).

(** The early return of a try drops what is not owned by a scope. *)
Fixpoint affine_try (register : nat) (registers : list AffineState)
: option (result string unit) :=
match registers with
| [] => Some (Ok tt)
| Live origin true :: rest =>
t ← fn_registers function !! register;
if match t with TFuture _ => true | _ => false end || Nat.eqb origin 0
then Some (Err "try error path would discard a live affine obligation")
else affine_try (S register) rest
| _ :: rest => affine_try (S register) rest
end.

Fixpoint drops_obligation (source : Register) (register : nat) (registers : list AffineState)
: bool :=
match registers with
| [] => false
| a :: rest =>
(is_obligation a && negb (Nat.eqb register source))
|| drops_obligation source (S register) rest
end.

Definition affine_return (state : OwnershipState) (source : Register)
: option (result string unit) :=
if negb (bool_decide (os_scopes state = []))
then Some (Err "return cannot leave an explicit task scope")
else if drops_obligation source 0 (os_registers state)
then Some (Err "return would discard a live affine obligation")
else
affine ← affine_register source;
if affine : bool then
  live ← live_state state source;
  if negb (Nat.eqb live.1 0) then Some (Err "scope-owned Task cannot escape its task scope")
  else Some (Ok tt)
else Some (Ok tt).

Definition affine_effect (i : Instruction) (state : OwnershipState)
: option (result string Transferred) :=
let unchanged must_consume := Some (Ok (transferred state 0 must_consume)) in
match i with
| Move destination source => affine_move state destination source
| DirectCall destination _ arguments | ClosureCall destination _ arguments =>
affine_call state destination arguments
| AsyncCall _ target arguments => affine_async_call state target arguments
| Spawn _ future scope => Some (affine_spawn state future scope)
| Await destination source => affine_await state destination source
| EffectCall _ _ _ | ToolInvoke _ _ _ => unchanged true
| SequenceMap destination sequence _ | SequenceFilter destination sequence _
| SequenceTake destination sequence _ | SequenceFind destination sequence _
| SequenceAny destination sequence _ | SequenceAll destination sequence _
| SequenceToList destination sequence => affine_sequence state destination sequence
| SequenceFold _ sequence initial _ => affine_sequence_fold state sequence initial
| TaskScopeEnter scope =>
Some (Ok (transferred {| os_registers := os_registers state;
                         os_scopes := (os_scopes state ++ [scope])%list |} 0 false))
| TaskScopeExit scope => affine_scope_exit state scope
| TryResult _ _ | TryOption _ _ =>
try* affine_try 0 (os_registers state) in unchanged false
| Return_ source => try* affine_return state source in unchanged false
| _ => unchanged false
end.

Definition affine_result (i : Instruction) (t : Transferred) : option OwnershipState :=
match instruction_destination i with
| None => Some (tr_state t)
| Some destination =>
affine ← affine_register destination;
Some (if affine : bool
      then {| os_registers := <[destination := Live (tr_origin t) (tr_must_consume t)]>
                                (os_registers (tr_state t));
              os_scopes := os_scopes (tr_state t) |}
      else tr_state t)
end.

Definition affine_transfer (index : nat) (i : Instruction) (state : OwnershipState)
: option (result string (list (nat * OwnershipState))) :=
try* affine_sources state (instruction_sources i) in
try* affine_overwrite i state in
let* t := affine_effect i state in
state ← affine_result i t;
Some (Ok (map (λ target, (target, state)) (successors_of index i))).

Definition normalize_dead_affine_temporaries (initialized : list bool) (state : OwnershipState)
: OwnershipState :=
{| os_registers :=
   imap (λ r a,
     match fn_registers function !! r, initialized !! r with
     | Some t, Some false => if is_affine_type t && negb (is_obligation a) then Consumed else a
     | _, _ => a
     end) (os_registers state);
 os_scopes := os_scopes state |}.

(** Scope identifiers are nonzero and entered at one place. *)
Fixpoint verify_scope_ids (function_index index : nat) (entered : list nat)
(code : list Instruction) : result VerifyError unit :=
match code with
| [] => Ok tt
| TaskScopeEnter scope :: rest =>
if Nat.eqb scope 0 || existsb (Nat.eqb scope) entered
then Err (VerifyError_instruction function_index index
            "task scope IDs must be nonzero and unique within a function")
else verify_scope_ids function_index (S index) (scope :: entered) rest
| _ :: rest => verify_scope_ids function_index (S index) entered rest
end.

Definition affine_entry : option (list AffineState) :=
foldl (λ registers r,
  registers ← registers; affine ← affine_register r;
  Some (if affine : bool then <[r := Live 0 true]> registers else registers))
(Some (replicate (length (fn_registers function)) Uninitialized))
(fn_parameters function).

Definition verify_affine_cfg (function_index : nat)
(definite_initialization : list (option (list bool)))
: option (result VerifyError (list (option OwnershipState))) :=
let normalize target state :=
initialized ← mjoin (definite_initialization !! target);
Some (normalize_dead_affine_temporaries initialized state) in
match verify_scope_ids function_index 0 [] (fn_code function) with
| Err e => Some (Err e)
| Ok _ =>
registers ← affine_entry;
initial ← normalize 0%nat {| os_registers := registers; os_scopes := [] |};
flow affine_transfer (λ state, existsb is_live (os_registers state)) normalize
  "backward control-flow edge cannot carry a live affine value"
  "control-flow join has inconsistent affine ownership or task scopes"
  function_index (fn_code function) initial
end.
End Affine.
