(* ===== verification/VerifierLoops.v ===== *)
(** * Structured loops ([verify_structured_back_edges])

    The verifier admits an edge to an earlier instruction only when its target
    dominates its source.  It numbers the instructions in reverse postorder,
    computes the immediate dominators by iteration, and decides dominance with the
    intervals of a walk over the dominator tree. *)

From S2P Require Import Prelude Text Bytecode VerifierTypes VerifierRules Verifier VerifierFlow.
Open Scope string_scope.
Open Scope Z_scope.

(** The arrays [successors] and [predecessors]. *)
Definition successors (code : list Instruction) : list (list nat) := imap successors_of code.

Definition predecessors (successors : list (list nat)) : list (list nat) :=
  map (λ node, flat_map (λ p : nat * list nat,
                 List.concat (map (λ t, if Nat.eqb t node then [p.1] else []) p.2))
               (combine (seq 0 (length successors)) successors))
    (seq 0 (length successors)).

(** *** Postorder *)

(** The loop over the stack of nodes with their next successor, the top first;
    [None] is a panic. *)
Fixpoint postorder_loop (fuel : nat) (successors : list (list nat)) (visited : list bool)
    (postorder : list nat) (stack : list (nat * nat)) : option (list nat) :=
  match stack with
  | [] => Some postorder
  | (node, next_successor) :: below =>
    match fuel with
    | O => None
    | S fuel =>
      targets ← successors !! node;
      match targets !! next_successor with
      | None => postorder_loop fuel successors visited (postorder ++ [node]) below
      | Some successor =>
        let stack := (node, S next_successor) :: below in
        seen ← visited !! successor;
        if seen : bool then postorder_loop fuel successors visited postorder stack
        else postorder_loop fuel successors (<[successor := true]> visited) postorder
               ((successor, 0%nat) :: stack)
      end
    end
  end%list.

(** Every edge is looked at once and every node is popped once. *)
Definition postorder_fuel (successors : list (list nat)) : nat :=
  S (length successors + sum_list_with length successors).

(** [postorder] reversed: from the entry on. *)
Definition reverse_postorder (successors : list (list nat)) : option (list nat) :=
  let n := length successors in
  postorder ← postorder_loop (postorder_fuel successors) successors
                (<[0%nat := true]> (replicate n false)) [] [(0%nat, 0%nat)];
  Some (reverse postorder).

(** [reverse_postorder[node] = position] *)
Definition positions (n : nat) (order : list nat) : list nat :=
  foldl (λ table p, <[p.2 := p.1]> table) (replicate n 0%nat)
    (combine (seq 0 (length order)) order).

(** *** Immediate dominators *)

Section Dominators.
Context (rank : list nat) (dominators : list (option nat)).

(** [while rank[node] > rank[limit] { node = dominators[node].expect(..) }] *)
Fixpoint climb (fuel : nat) (node limit : nat) : option nat :=
match fuel with
| O => None
| S fuel =>
rank_node ← rank !! node;
rank_limit ← rank !! limit;
if Nat.ltb rank_limit rank_node
then parent ← mjoin (dominators !! node); climb fuel parent limit
else Some node
end.

Fixpoint intersect_dominators (fuel : nat) (left_ right_ : nat) : option nat :=
match fuel with
| O => None
| S fuel =>
if Nat.eqb left_ right_ then Some left_
else
  left_ ← climb (S (length rank)) left_ right_;
  right_ ← climb (S (length rank)) right_ left_;
  intersect_dominators fuel left_ right_
end.

Fixpoint intersect_all (dominator : nat) (nodes : list nat) : option nat :=
match nodes with
| [] => Some dominator
| predecessor :: rest =>
dominator ← intersect_dominators (S (2 * length rank)) predecessor dominator;
intersect_all dominator rest
end.

(** The dominator that the processed predecessors of a node agree on, if any. *)
Definition new_dominator (predecessors : list nat) : option (option nat) :=
match List.filter (λ p, match mjoin (dominators !! p) with Some _ => true | None => false end)
      predecessors with
| [] => Some None
| first :: rest => dominator ← intersect_all first rest; Some (Some dominator)
end.
End Dominators.

(** One pass over the nodes in reverse postorder, without the entry. *)
Fixpoint dominator_pass (rank : list nat) (predecessors : list (list nat))
    (dominators : list (option nat)) (changed : bool) (nodes : list nat)
    : option (list (option nat) * bool) :=
  match nodes with
  | [] => Some (dominators, changed)
  | node :: rest =>
    incoming ← predecessors !! node;
    computed ← new_dominator rank dominators incoming;
    match computed with
    | None => dominator_pass rank predecessors dominators changed rest
    | Some dominator =>
      if bool_decide (dominators !! node = Some (Some dominator))
      then dominator_pass rank predecessors dominators changed rest
      else dominator_pass rank predecessors (<[node := Some dominator]> dominators) true rest
    end
  end.

Fixpoint dominator_loop (fuel : nat) (rank : list nat) (predecessors : list (list nat))
    (nodes : list nat) (dominators : list (option nat)) : option (list (option nat)) :=
  match fuel with
  | O => None
  | S fuel =>
    pass ← dominator_pass rank predecessors dominators false nodes;
    if pass.2 : bool then dominator_loop fuel rank predecessors nodes pass.1 else Some pass.1
  end.

(** *** The dominator tree *)

(** [dominator_children[parent].push(node)] for the nodes after the entry; every
    node must have a dominator. *)
Definition dominator_children (dominators : list (option nat)) : option (list (list nat)) :=
  parents ← mapM id (drop 1 dominators);
  Some (map (λ parent, List.concat (map (λ p : nat * nat, if Nat.eqb p.2 parent then [p.1] else [])
                          (combine (seq 1 (length parents)) parents)))
          (seq 0 (length dominators))).

(** The intervals: [entry_time], [exit_time] and [time]. *)
Record Times := { tm_entry : list nat; tm_exit : list nat; tm_now : nat }.

Fixpoint interval_loop (fuel : nat) (children : list (list nat)) (times : Times)
    (traversal : list (nat * bool)) : option Times :=
  match traversal with
  | [] => Some times
  | (node, exiting) :: rest =>
    match fuel with
    | O => None
    | S fuel =>
      if exiting : bool then
        interval_loop fuel children
          {| tm_entry := tm_entry times; tm_exit := <[node := tm_now times]> (tm_exit times);
             tm_now := tm_now times |} rest
      else
        below ← children !! node;
        interval_loop fuel children
          {| tm_entry := <[node := tm_now times]> (tm_entry times); tm_exit := tm_exit times;
             tm_now := S (tm_now times) |}
          (map (λ child, (child, false)) below ++ ((node, true) :: rest))
    end
  end%list.

Definition intervals (children : list (list nat)) : option Times :=
  let n := length children in
  interval_loop (S (2 * n)) children
    {| tm_entry := replicate n 0%nat; tm_exit := replicate n 0%nat; tm_now := 0 |}
    [(0%nat, false)].

(** [entry[target] <= entry[source] && entry[source] < exit[target]] *)
Definition dominates (times : Times) (target source : nat) : option bool :=
  entry_target ← tm_entry times !! target;
  entry_source ← tm_entry times !! source;
  exit_target ← tm_exit times !! target;
  Some (Nat.leb entry_target entry_source && Nat.ltb entry_source exit_target).

Fixpoint check_targets (times : Times) (source : nat) (targets : list nat) : option bool :=
  match targets with
  | [] => Some true
  | target :: rest =>
    if Nat.leb target source
    then ok ← dominates times target source;
         if ok : bool then check_targets times source rest else Some false
    else check_targets times source rest
  end.

Fixpoint check_back_edges (function_index : nat) (times : Times) (source : nat)
    (successors : list (list nat)) : option (result VerifyError unit) :=
  match successors with
  | [] => Some (Ok tt)
  | targets :: rest =>
    ok ← check_targets times source targets;
    if ok : bool then check_back_edges function_index times (S source) rest
    else Some (Err (VerifyError_instruction function_index source
                      "backward control-flow target must dominate its source"))
  end.

Definition verify_structured_back_edges (function_index : nat) (function : Function)
    : option (result VerifyError unit) :=
  let targets := successors (fn_code function) in
  let n := length targets in
  order ← reverse_postorder targets;
  dominators ← dominator_loop (S (n * S n)) (positions n order) (predecessors targets)
                 (drop 1 order) (<[0%nat := Some 0%nat]> (replicate n None));
  children ← dominator_children dominators;
  times ← intervals children;
  check_back_edges function_index times 0 targets.

(** ** Paths *)

(** A path of control-flow edges from the entry: the node it ends at and the nodes
    it passes. *)
Inductive cfg_path (code : list Instruction) : nat → list nat → Prop :=
| cp_entry : cfg_path code 0 [0%nat]
| cp_step j i k nodes :
    cfg_path code j nodes → code !! j = Some i → k ∈ successors_of j i →
    cfg_path code k (k :: nodes).

Lemma path_from_entry code k nodes : cfg_path code k nodes → 0%nat ∈ nodes.
Proof. induction 1; [by left|by right]. Qed.

(** ** Lemmas: the entry comes first *)

Lemma postorder_entry fuel targets visited postorder stack bottom order :
  visited !! 0%nat = Some true → 0%nat ∉ postorder → Forall (λ p, p.1 ≠ 0%nat) stack →
  postorder_loop fuel targets visited postorder (stack ++ [(0%nat, bottom)])%list = Some order →
  ∃ before, order = (before ++ [0%nat])%list ∧ 0%nat ∉ before.
Proof.
  revert visited postorder stack bottom.
  induction fuel as [|fuel IH]; intros visited postorder stack bottom Hv Hp Hs Hrun.
  { by destruct stack as [|[]]. }
  destruct stack as [|[node next] stack]; cbn [postorder_loop app] in Hrun.
  - destruct (targets !! 0%nat) as [ts|]; [|done]. simpl in Hrun.
    destruct (ts !! bottom) as [k|].
    + destruct (visited !! k) as [[]|] eqn:Hk; simpl in Hrun; [| |done].
      * by eapply (IH _ _ []).
      * assert (k ≠ 0%nat) by (intros ->; congruence).
        apply (IH (<[k := true]> visited) postorder [(k, 0%nat)] (S bottom)); try done.
        { by rewrite list_lookup_insert_ne. } { by repeat constructor. }
    + exists postorder. destruct fuel; simpl in Hrun; by simplify_eq.
  - apply Forall_cons in Hs as [Hne Hs]. simpl in Hne.
    destruct (targets !! node) as [ts|]; [|done]. simpl in Hrun.
    destruct (ts !! next) as [k|].
    + destruct (visited !! k) as [[]|] eqn:Hk; simpl in Hrun; [| |done].
      * apply (IH visited postorder ((node, S next) :: stack) bottom); try done. by constructor.
      * assert (k ≠ 0%nat) by (intros ->; congruence).
        apply (IH (<[k := true]> visited) postorder ((k, 0%nat) :: (node, S next) :: stack) bottom);
          try done; [by rewrite list_lookup_insert_ne|by repeat constructor].
    + apply (IH visited (postorder ++ [node])%list stack bottom); try done.
      rewrite elem_of_app, list_elem_of_singleton. naive_solver.
Qed.

Lemma order_entry targets order :
  (0 < length targets)%nat → reverse_postorder targets = Some order → 0%nat ∉ drop 1 order.
Proof.
  intros Hn. unfold reverse_postorder. intros (p & Hp & [= <-])%bind_Some.
  apply (postorder_entry _ _ _ _ [] 0%nat) in Hp as (before & -> & Hb); try done.
  - rewrite reverse_app. simpl. rewrite drop_0. by rewrite elem_of_reverse.
  - rewrite list_lookup_insert_eq; [done|by rewrite length_replicate].
  - by apply not_elem_of_nil.
Qed.

(** ** Lemmas: dominators *)

(** The ancestors of a node in the tree of immediate dominators. *)
Definition ancestor (dominators : list (option nat)) : nat → nat → Prop :=
  rtc (λ a b, dominators !! a = Some (Some b)).

Section DominatorLemmas.
Context (rank : list nat) (dominators : list (option nat)).
Abbreviation ancestor := (ancestor dominators) (only parsing).

Lemma climb_ancestor fuel node limit a :
climb rank dominators fuel node limit = Some a → ancestor node a.
Proof.
revert node. induction fuel as [|fuel IH]; intros node Hc; simpl in Hc; [done|].
destruct (rank !! node) as [rn|]; [|done]. destruct (rank !! limit) as [rl|]; [|done]. simpl in Hc.
destruct (Nat.ltb rl rn); [|by injection Hc as <-; apply rtc_refl].
destruct (dominators !! node) as [[parent|]|] eqn:Hp; try done. simpl in Hc.
eapply rtc_l; [exact Hp|by apply IH].
Qed.

Lemma intersect_ancestor fuel l r a :
intersect_dominators rank dominators fuel l r = Some a → ancestor l a ∧ ancestor r a.
Proof.
revert l r. induction fuel as [|fuel IH]; intros l r Hi; simpl in Hi; [done|].
destruct (Nat.eqb_spec l r) as [->|]; [injection Hi as <-; split; apply rtc_refl|].
apply bind_Some in Hi as (l' & Hl & Hi). apply bind_Some in Hi as (r' & Hr & Hi).
change (climb rank dominators (S (length rank)) l r = Some l') in Hl.
change (climb rank dominators (S (length rank)) r l' = Some r') in Hr.
destruct (IH _ _ Hi) as [H1 H2].
split; (etrans; [eapply climb_ancestor; eassumption|done]).
Qed.

Lemma intersect_all_ancestor dominator nodes a :
intersect_all rank dominators dominator nodes = Some a →
ancestor dominator a ∧ ∀ q, q ∈ nodes → ancestor q a.
Proof.
revert dominator. induction nodes as [|p nodes IH]; intros dominator Hi; cbn [intersect_all] in Hi.
{ injection Hi as <-. split; [apply rtc_refl|]. intros q Hq. by apply elem_of_nil in Hq. }
apply bind_Some in Hi as (d & Hd & Hi). apply intersect_ancestor in Hd as [Hp Hdom].
destruct (IH _ Hi) as [Ha Hall]. split; [by etrans|].
intros q [->|Hq]%elem_of_cons; [by etrans|by apply Hall].
Qed.

(** The computed dominator is an ancestor of every predecessor. *)
Lemma new_dominator_ancestor incoming a :
(∀ q, q ∈ incoming → is_Some (mjoin (dominators !! q))) →
new_dominator rank dominators incoming = Some (Some a) → ∀ q, q ∈ incoming → ancestor q a.
Proof.
intros Hdef Hn q Hq. unfold new_dominator in Hn.
assert (q ∈ List.filter (λ p, match mjoin (dominators !! p) with Some _ => true | None => false end)
            incoming) as Hin.
{ apply list_elem_of_In, filter_In. split; [by apply list_elem_of_In|].
by destruct (Hdef q Hq) as [x ->]. }
destruct (List.filter _ incoming) as [|first rest]; [done|].
apply bind_Some in Hn as (d & Hd & [= <-]). apply intersect_all_ancestor in Hd as [Hf Hr].
apply elem_of_cons in Hin as [->|Hin]; auto.
Qed.
End DominatorLemmas.

Section PassLemmas.
Context (rank : list nat) (incoming : list (list nat)).

(** Only the nodes of the pass get a dominator. *)
Lemma pass_keeps dominators changed nodes dominators' changed' k :
dominator_pass rank incoming dominators changed nodes = Some (dominators', changed') →
k ∉ nodes → dominators' !! k = dominators !! k.
Proof.
revert dominators changed. induction nodes as [|node nodes IH]; intros dominators changed Hp Hk;
cbn [dominator_pass] in Hp; [by simplify_eq|].
apply not_elem_of_cons in Hk as [Hne Hk].
apply bind_Some in Hp as (ps & _ & Hp). apply bind_Some in Hp as ([d|] & _ & Hp); [|by eapply IH].
case_bool_decide; [by eapply IH|]. rewrite (IH _ _ Hp Hk). by rewrite list_lookup_insert_ne.
Qed.

Lemma pass_length dominators changed nodes dominators' changed' :
dominator_pass rank incoming dominators changed nodes = Some (dominators', changed') →
length dominators' = length dominators.
Proof.
revert dominators changed. induction nodes as [|node nodes IH]; intros dominators changed Hp;
cbn [dominator_pass] in Hp; [by simplify_eq|].
apply bind_Some in Hp as (ps & _ & Hp). apply bind_Some in Hp as ([d|] & _ & Hp); [|by eapply IH].
case_bool_decide; [by eapply IH|]. rewrite (IH _ _ Hp). apply length_insert.
Qed.

(** A pass that changes nothing is a fixed point. *)
Lemma pass_fixed dominators changed nodes dominators' :
dominator_pass rank incoming dominators changed nodes = Some (dominators', false) →
changed = false ∧ dominators' = dominators
∧ ∀ node, node ∈ nodes → ∃ ps computed, incoming !! node = Some ps
  ∧ new_dominator rank dominators ps = Some computed
  ∧ ∀ d, computed = Some d → dominators !! node = Some (Some d).
Proof.
revert dominators changed. induction nodes as [|node nodes IH]; intros dominators changed Hp;
cbn [dominator_pass] in Hp.
{ simplify_eq. split_and!; try done. intros node Hn. by apply elem_of_nil in Hn. }
apply bind_Some in Hp as (ps & Hps & Hp). apply bind_Some in Hp as (computed & Hc & Hp).
destruct computed as [d|].
- case_bool_decide as Hd; [|by apply IH in Hp as (? & _)].
destruct (IH _ _ Hp) as (-> & -> & Hall). split_and!; try done.
intros n [->|Hn]%elem_of_cons; [|by apply Hall]. exists ps, (Some d). split_and!; try done.
by intros ? [= <-].
- destruct (IH _ _ Hp) as (-> & -> & Hall). split_and!; try done.
intros n [->|Hn]%elem_of_cons; [|by apply Hall]. by exists ps, None.
Qed.

Lemma loop_fixed fuel nodes dominators dominators' :
dominator_loop fuel rank incoming nodes dominators = Some dominators' →
length dominators' = length dominators
∧ (∀ k, k ∉ nodes → dominators' !! k = dominators !! k)
∧ ∀ node, node ∈ nodes → ∃ ps computed, incoming !! node = Some ps
  ∧ new_dominator rank dominators' ps = Some computed
  ∧ ∀ d, computed = Some d → dominators' !! node = Some (Some d).
Proof.
revert dominators. induction fuel as [|fuel IH]; intros dominators Hl; cbn [dominator_loop] in Hl;
[done|].
apply bind_Some in Hl as ([dominators1 changed] & Hp & Hl). simpl in Hl. destruct changed.
- destruct (IH _ Hl) as (Hlen & Hkeep & Hall). split_and!; [|..|done].
+ rewrite Hlen. by eapply pass_length.
+ intros k Hk. rewrite (Hkeep k Hk). by eapply pass_keeps.
- injection Hl as <-. destruct (pass_fixed _ _ _ _ Hp) as (_ & -> & Hall). by split_and!.
Qed.
End PassLemmas.

Lemma combine_zip {A B} (l : list A) (k : list B) : combine l k = zip l k.
Proof. revert k. induction l as [|x l IH]; intros [|y k]; simpl; [done..|]. by rewrite IH. Qed.

Lemma predecessors_complete targets node ps q ts :
  predecessors targets !! node = Some ps → targets !! q = Some ts → node ∈ ts → q ∈ ps.
Proof.
  intros Hp Hq Hin. unfold predecessors in Hp. rewrite list_lookup_fmap in Hp.
  destruct (seq 0 (length targets) !! node) as [node'|] eqn:Hn; [|done].
  apply lookup_seq in Hn as [-> Hlt]. injection Hp as <-.
  apply list_elem_of_In, in_flat_map. exists (q, ts). split.
  - apply list_elem_of_In, (list_elem_of_lookup_2 _ q).
    rewrite combine_zip, lookup_zip_with. rewrite lookup_seq_lt by (by eapply lookup_lt_Some). by rewrite Hq.
  - apply in_concat. exists [q]. split; [|by left]. apply in_map_iff. exists node.
    simpl. rewrite Nat.eqb_refl. split; [done|by apply list_elem_of_In].
Qed.

Lemma predecessors_range targets node ps q :
  predecessors targets !! node = Some ps → q ∈ ps → (q < length targets)%nat.
Proof.
  intros Hp Hq. unfold predecessors in Hp. rewrite list_lookup_fmap in Hp.
  destruct (seq 0 (length targets) !! node) as [node'|]; [|done]. injection Hp as <-.
  apply list_elem_of_In, in_flat_map in Hq as ([q' ts] & Hin & Hq).
  apply in_concat in Hq as (l & Hl & Hq). apply in_map_iff in Hl as (t & <- & _). simpl in Hq.
  destruct (Nat.eqb t node'); [|done]. destruct Hq as [->|[]].
  apply in_combine_l, in_seq in Hin. lia.
Qed.

Lemma parents_defined (dominators : list (option nat)) (parents : list nat) (k : nat) :
  mapM id (drop 1 dominators) = Some parents → (1 <= k < length dominators)%nat →
  ∃ p, dominators !! k = Some (Some p).
Proof.
  intros Hm Hk. apply mapM_Some in Hm.
  assert (is_Some (drop 1 dominators !! (k - 1)%nat)) as [o Ho].
  { apply lookup_lt_is_Some. rewrite length_drop. lia. }
  destruct (Forall2_lookup_l _ _ _ _ _ Hm Ho) as (p & _ & Hp). simpl in Hp. subst o.
  exists p. rewrite lookup_drop in Ho. by replace (1 + (k - 1))%nat with k in Ho by lia.
Qed.

(** Ancestors in the tree are on every path. *)
Section OnPaths.
Context (code : list Instruction) (dominators : list (option nat)).
Hypothesis Hroot : dominators !! 0%nat = Some (Some 0%nat).
Hypothesis Hedge : ∀ j i k p, code !! j = Some i → k ∈ successors_of j i → k ≠ 0%nat →
dominators !! k = Some (Some p) → ancestor dominators j p.

Lemma root_ancestor a : ancestor dominators 0 a → a = 0%nat.
Proof using Hroot.
clear Hedge. intros Ha. remember 0%nat as z eqn:Hz. induction Ha as [|x y a Hxy _ IH]; [done|].
subst x. rewrite Hroot in Hxy. injection Hxy as <-. by apply IH.
Qed.

Lemma ancestor_on_path k nodes a :
cfg_path code k nodes → ancestor dominators k a → a ∈ nodes.
Proof using Hroot Hedge.
intros Hp. revert a. induction Hp as [|j i k nodes Hp IH Hi Hk]; intros a Ha.
{ rewrite (root_ancestor a Ha). by left. }
destruct (decide (k = 0%nat)) as [->|Hne]; [rewrite (root_ancestor a Ha); by left|].
inversion Ha as [|x p y Hkp Hpa]; subst; [by left|]. right. apply IH.
etrans; [|exact Hpa]. by eapply Hedge.
Qed.
End OnPaths.

(** ** Lemmas: intervals *)

Section Intervals.
Context (dominators : list (option nat)) (children : list (list nat)).
Abbreviation ancestor := (ancestor dominators) (only parsing).
Hypothesis Hchild : ∀ p cs c, children !! p = Some cs → c ∈ cs →
c ≠ 0%nat ∧ dominators !! c = Some (Some p).
Hypothesis Hnodup : ∀ p cs, children !! p = Some cs → NoDup cs.

(** The nodes on the stack that are still to be entered, and those under way. *)
Definition waiting (stack : list (nat * bool)) : list nat :=
omap (λ p, if p.2 : bool then None else Some p.1) stack.
Definition under_way (stack : list (nat * bool)) : list nat :=
omap (λ p, if p.2 : bool then Some p.1 else None) stack.

(** Below a waiting node of the stack are its ancestors only. *)
Fixpoint layered (stack : list (nat * bool)) : Prop :=
match stack with
| [] => True
| (c, exiting) :: rest =>
(exiting = false → ∀ x, x ∈ under_way rest → ancestor c x) ∧ layered rest
end.

(** The invariant of the walk; [entered] lists the nodes in the order of entry. *)
Record walk_ok (times : Times) (stack : list (nat * bool)) (entered : list nat) : Prop := {
wo_now : tm_now times = length entered;
wo_entry t x : entered !! t = Some x → (x < length (tm_entry times))%nat →
tm_entry times !! x = Some t;
wo_unseen x n : x ∉ entered → (tm_entry times !! x = Some n → n = 0%nat)
∧ (tm_exit times !! x = Some n → n = 0%nat);
wo_first x : entered !! 0%nat = Some x → x = 0%nat;
wo_open t x : x ∈ under_way stack → entered !! t = Some x →
∀ j s, entered !! j = Some s → (t <= j)%nat → ancestor s x;
wo_under x : x ∈ under_way stack → x ∈ entered;
wo_closed t x e : entered !! t = Some x → x ∉ under_way stack → tm_exit times !! x = Some e →
(e <= length entered)%nat
∧ ∀ j s, entered !! j = Some s → (t <= j < e)%nat → ancestor s x;
wo_layered : layered stack;
wo_fresh : NoDup (waiting stack) ∧ NoDup entered ∧ ∀ x, x ∈ waiting stack → x ∉ entered;
wo_parent x : x ∈ waiting stack ∨ x ∈ entered →
x = 0%nat ∨ ∃ p, dominators !! x = Some (Some p) ∧ p ∈ entered;
wo_start : entered = [] → waiting stack = [0%nat] ∧ under_way stack = []
}.

Lemma under_way_app l k : under_way (l ++ k) = (under_way l ++ under_way k)%list.
Proof. apply omap_app. Qed.
Lemma waiting_app l k : waiting (l ++ k) = (waiting l ++ waiting k)%list.
Proof. apply omap_app. Qed.

Lemma children_stack (cs : list nat) :
under_way (map (λ child, (child, false)) cs) = []
∧ waiting (map (λ child, (child, false)) cs) = cs.
Proof. induction cs as [|c cs [IH1 IH2]]; [done|]. split; [done|]. simpl. f_equal. exact IH2. Qed.

Lemma layered_children cs rest :
(∀ c x, c ∈ cs → x ∈ under_way rest → ancestor c x) → layered rest →
layered (map (λ child, (child, false)) cs ++ rest)%list.
Proof.
intros Hc Hr. induction cs as [|c cs IH]; simpl; [done|]. split.
- intros _ x Hx. rewrite under_way_app, (proj1 (children_stack cs)) in Hx.
apply Hc; [by left|done].
- apply IH. intros d x Hd. apply Hc. by right.
Qed.

(** Leaving a node records where its interval ends. *)
Lemma leave_ok times stack entered node :
walk_ok times ((node, true) :: stack) entered →
walk_ok {| tm_entry := tm_entry times; tm_exit := <[node := tm_now times]> (tm_exit times);
         tm_now := tm_now times |} stack entered.
Proof.
intros [Hnow Hentry Hunseen Hfirst Hopen Hunder Hclosed Hlay Hfresh Hparent Hstart].
assert (node ∈ entered) as Hin by (apply Hunder; by left).
split; try done; simpl.
- intros x n Hx. destruct (Hunseen x n Hx) as [H1 H2]. split; [done|].
rewrite list_lookup_insert_ne; [done|congruence].
- intros t x Hx. apply Hopen. by right.
- intros x Hx. apply Hunder. by right.
- intros t x e Ht Hx He. apply list_lookup_insert_Some in He as [(<- & <- & _)|[Hne He]].
+ rewrite Hnow. split; [done|]. intros j s Hj Hle. apply (Hopen t node ltac:(by left) Ht j s Hj). lia.
+ eapply Hclosed; [done| |done]. simpl. intros [->|Hx']%elem_of_cons; done.
- apply Hlay.
- intros ->. by apply elem_of_nil in Hin.
Qed.

(** A node whose parent has not been entered is new. *)
Lemma child_new times stack entered node c :
walk_ok times stack entered → node ∉ entered → c ≠ 0%nat → dominators !! c = Some (Some node) →
(c ∉ waiting stack) ∧ c ∉ entered.
Proof.
intros Hw Hnew Hc Hp.
assert (¬ (c ∈ waiting stack ∨ c ∈ entered)) as Hno; [|by split; intros ?; apply Hno; auto].
intros Hin. destruct (wo_parent _ _ _ Hw c Hin) as [?|(p & Hp' & Hpe)]; [done|].
rewrite Hp in Hp'. by injection Hp' as <-.
Qed.

Lemma lookup_snoc_cases (l : list nat) x t y :
(l ++ [x])%list !! t = Some y → (t < length l ∧ l !! t = Some y)%nat ∨ (t = length l ∧ y = x).
Proof.
intros Ht. destruct (Nat.lt_ge_cases t (length l)) as [Hlt|Hge].
- left. split; [done|]. by rewrite lookup_app_l in Ht.
- right. rewrite lookup_app_r in Ht by done. destruct (t - length l)%nat eqn:E; simplify_eq/=.
split; [lia|done].
Qed.

(** Entering a node starts its interval and puts its children on the stack. *)
Lemma enter_ok times stack entered node cs :
walk_ok times ((node, false) :: stack) entered → children !! node = Some cs →
walk_ok {| tm_entry := <[node := tm_now times]> (tm_entry times); tm_exit := tm_exit times;
         tm_now := S (tm_now times) |}
(map (λ child, (child, false)) cs ++ ((node, true) :: stack))%list (entered ++ [node])%list.
Proof using Hchild Hnodup.
intros Hw Hcs.
pose proof Hw as [Hnow Hentry Hunseen Hfirst Hopen Hunder Hclosed [Hanc Hlay] (Hn1 & Hn2 & Hn3)
                Hparent Hstart].
assert (node ∉ entered) as Hnew by (apply Hn3; by left).
assert (∀ x, x ∈ under_way (map (λ child, (child, false)) cs ++ ((node, true) :: stack))%list ↔
           x = node ∨ x ∈ under_way stack) as Hway.
{ intros x. rewrite under_way_app, (proj1 (children_stack cs)). simpl. apply elem_of_cons. }
assert (∀ x, x ∈ waiting (map (λ child, (child, false)) cs ++ ((node, true) :: stack))%list ↔
           x ∈ cs ∨ x ∈ waiting stack) as Hwait.
{ intros x. rewrite waiting_app, (proj2 (children_stack cs)). apply elem_of_app. }
assert (∀ c, c ∈ cs → ancestor c node) as Hca.
{ intros c Hc. apply rtc_once. by eapply Hchild. }
assert (∀ c, c ∈ cs → (c ∉ waiting ((node, false) :: stack)) ∧ c ∉ entered) as Hcnew.
{ intros c Hc. destruct (Hchild _ _ _ Hcs Hc). by eapply child_new. }
split; simpl.
- rewrite length_app. simpl. lia.
- intros t x Ht. rewrite length_insert. intros Hx.
apply lookup_snoc_cases in Ht as [[Hlt Ht]|[-> ->]].
+ rewrite list_lookup_insert_ne; [by apply Hentry|]. intros ->. by apply list_elem_of_lookup_2 in Ht.
+ rewrite Hnow. by apply list_lookup_insert_eq.
- intros x n. rewrite not_elem_of_app, not_elem_of_cons. intros (Hx & Hne & _).
rewrite list_lookup_insert_ne by done. by apply Hunseen.
- intros x Hx. destruct entered as [|y entered]; [|by apply Hfirst].
destruct (Hstart eq_refl) as [[= ->] _]. by injection Hx as <-.
- intros t x Hx Ht j s Hj Hle. apply Hway in Hx.
apply lookup_snoc_cases in Ht as [[Hlt Ht]|[-> ->]].
+ destruct Hx as [->|Hx]; [by apply list_elem_of_lookup_2 in Ht|].
  apply lookup_snoc_cases in Hj as [[Hj' Hj]|[-> ->]]; [by eapply Hopen|by apply Hanc].
+ apply lookup_snoc_cases in Hj as [[Hj' Hj]|[-> ->]]; [lia|apply rtc_refl].
- intros x [->|Hx]%Hway; apply elem_of_app; [right; by left|left; by apply Hunder].
- intros t x e Ht Hx He. rewrite Hway in Hx. apply lookup_snoc_cases in Ht as [[Hlt Ht]|[-> ->]].
+ destruct (Hclosed t x e Ht) as [Hle Hall]; [by intros ?; apply Hx; right|done|].
  rewrite length_app. split; [lia|]. intros j s Hj Hje.
  apply lookup_snoc_cases in Hj as [[Hj' Hj]|[-> ->]]; [by eapply Hall|lia].
+ destruct Hx. by left.
- apply layered_children; [|by split].
intros c x Hc. simpl. intros [->|Hx]%elem_of_cons; [by apply Hca|].
etrans; [by apply Hca|by apply Hanc].
- rewrite waiting_app, (proj2 (children_stack cs)). simpl. apply NoDup_cons in Hn1 as [Hnw Hn1].
split_and!.
+ apply NoDup_app. split_and!; [by eapply Hnodup| |done]. intros c Hc Hc'.
  destruct (Hcnew c Hc) as [Hn _]. apply Hn. by right.
+ apply NoDup_app. split_and!; [done|set_solver|apply NoDup_singleton].
+ intros x [Hx|Hx]%elem_of_app; rewrite not_elem_of_app, list_elem_of_singleton.
  * destruct (Hcnew x Hx) as [Hx1 Hx2]. split; [done|]. intros ->. apply Hx1. by left.
  * split; [apply Hn3; by right|]. by intros ->.
- intros x Hx. destruct (decide (x ∈ cs)) as [Hc|Hc].
+ right. exists node. split; [by eapply Hchild|]. apply elem_of_app. right. by left.
+ destruct (Hparent x) as [?|(p & Hp & Hpe)]; [|by left|].
  * destruct Hx as [[?|Hx]%Hwait|[Hx|Hx]%elem_of_app]; [done|left; by right|by right|].
    apply list_elem_of_singleton in Hx as ->. left. by left.
  * right. exists p. split; [done|]. apply elem_of_app. by left.
- intros Hnil. by destruct entered.
Qed.

Lemma interval_loop_ok fuel times stack entered times' :
walk_ok times stack entered → interval_loop fuel children times stack = Some times' →
∃ entered', walk_ok times' [] entered'.
Proof using Hchild Hnodup.
revert times stack entered. induction fuel as [|fuel IH]; intros times stack entered Hw Hl;
cbn [interval_loop] in Hl.
{ destruct stack as [|[]]; [|done]. injection Hl as <-. eauto. }
destruct stack as [|[node []] stack]; [injection Hl as <-; eauto|..].
- eapply IH; [|exact Hl]. by apply leave_ok.
- apply bind_Some in Hl as (cs & Hcs & Hl). eapply IH; [|exact Hl]. by apply enter_ok.
Qed.

Lemma walk_start n :
walk_ok {| tm_entry := replicate n 0%nat; tm_exit := replicate n 0%nat; tm_now := 0 |}
[(0%nat, false)] [].
Proof.
clear Hchild Hnodup. split; simpl; try done; try (intros; set_solver).
- intros x k _. split; intros [-> _]%lookup_replicate; done.
- split_and!; [apply NoDup_singleton|constructor|]. intros x _. apply not_elem_of_nil.
Qed.

(** A target whose interval contains the source is an ancestor of it, or the
entry. *)
Lemma dominates_ancestor times target source :
intervals children = Some times → dominates times target source = Some true →
ancestor source target ∨ target = 0%nat.
Proof using Hchild Hnodup.
intros Hi Hd. destruct (interval_loop_ok _ _ _ _ _ (walk_start _) Hi) as (entered & Hw).
unfold dominates in Hd. apply bind_Some in Hd as (et & Het & Hd).
apply bind_Some in Hd as (es & Hes & Hd). apply bind_Some in Hd as (xt & Hxt & [= Hd]).
apply andb_true_iff in Hd as [Hle%Nat.leb_le Hlt%Nat.ltb_lt].
destruct (decide (target ∈ entered)) as [Hin|Hout].
2: { destruct (wo_unseen _ _ _ Hw target xt Hout) as [_ Hz]. specialize (Hz Hxt). lia. }
apply list_elem_of_lookup_1 in Hin as [t Ht].
pose proof (wo_entry _ _ _ Hw t target Ht (lookup_lt_Some _ _ _ Het)) as He. simplify_eq.
destruct (decide (source ∈ entered)) as [Hin|Hout].
- left. apply list_elem_of_lookup_1 in Hin as [j Hj].
pose proof (wo_entry _ _ _ Hw j source Hj (lookup_lt_Some _ _ _ Hes)) as He'. simplify_eq.
destruct (wo_closed _ _ _ Hw et target xt Ht) as [_ Hall]; [by apply not_elem_of_nil|done|].
by eapply Hall.
- right. destruct (wo_unseen _ _ _ Hw source es Hout) as [Hz _]. specialize (Hz Hes). subst es.
assert (et = 0%nat) as -> by lia. by eapply wo_first.
Qed.
End Intervals.

(** ** Backward edges *)

Lemma children_spec dominators children :
  dominator_children dominators = Some children →
  (∀ p cs c, children !! p = Some cs → c ∈ cs → c ≠ 0%nat ∧ dominators !! c = Some (Some p))
  ∧ ∀ p cs, children !! p = Some cs → NoDup cs.
Proof.
  unfold dominator_children. intros (parents & Hm & [= <-])%bind_Some.
  apply mapM_Some in Hm. set (pairs := combine (seq 1 (length parents)) parents).
  assert (∀ p cs, map (λ parent, List.concat (map (λ p : nat * nat,
            if Nat.eqb p.2 parent then [p.1] else []) pairs)) (seq 0 (length dominators)) !! p = Some cs →
          cs = List.concat (map (λ q : nat * nat, if Nat.eqb q.2 p then [q.1] else []) pairs)) as Hcs.
  { intros p cs Hp. rewrite list_lookup_fmap in Hp.
    destruct (seq 0 (length dominators) !! p) as [p'|] eqn:E; [|done].
    apply lookup_seq in E as [-> _]. by injection Hp as <-. }
  split.
  - intros p cs c Hp Hc. rewrite (Hcs _ _ Hp) in Hc. apply list_elem_of_In, in_concat in Hc as (l & Hl & Hc).
    apply in_map_iff in Hl as ([q parent] & <- & Hq). simpl in Hc.
    destruct (Nat.eqb_spec parent p) as [->|]; [|done]. destruct Hc as [->|[]].
    apply list_elem_of_In, list_elem_of_lookup_1 in Hq as [j Hj]. unfold pairs in Hj.
    rewrite combine_zip, lookup_zip_with in Hj.
    destruct (seq 1 (length parents) !! j) as [c'|] eqn:Ec; [|done]. simpl in Hj.
    destruct (parents !! j) as [p'|] eqn:Ep; [|done]. injection Hj as -> ->.
    apply lookup_seq in Ec as [-> _]. split; [lia|].
    destruct (Forall2_lookup_r _ _ _ _ _ Hm Ep) as (o & Ho & Hp'). simpl in Hp'. subst o.
    by rewrite lookup_drop in Ho.
  - intros p cs Hp. rewrite (Hcs _ _ Hp). unfold pairs. rewrite combine_zip. clear.
    assert (∀ k, NoDup (List.concat (map (λ q : nat * nat, if Nat.eqb q.2 p then [q.1] else [])
                          (zip (seq k (length parents)) parents)))
            ∧ ∀ x, x ∈ List.concat (map (λ q : nat * nat, if Nat.eqb q.2 p then [q.1] else [])
                          (zip (seq k (length parents)) parents)) → (k <= x)%nat) as Hall; [|apply Hall].
    induction parents as [|y parents IH]; intros k; simpl.
    { split; [constructor|]. intros x Hx. by apply elem_of_nil in Hx. }
    destruct (IH (S k)) as [Hnd Hle]. destruct (Nat.eqb y p); simpl.
    + split; [constructor; [|done]; intros Hk%Hle; lia|].
      intros x [->|Hx%Hle]%elem_of_cons; lia.
    + split; [done|]. intros x Hx%Hle. lia.
Qed.

Lemma check_targets_ok times source targets target :
  check_targets times source targets = Some true → target ∈ targets → (target <= source)%nat →
  dominates times target source = Some true.
Proof.
  intros Hc Hin Hle. induction targets as [|t targets IH]; [by apply elem_of_nil in Hin|].
  cbn [check_targets] in Hc. destruct (Nat.leb_spec t source).
  - apply bind_Some in Hc as ([] & Hd & Hc); [|done].
    apply elem_of_cons in Hin as [->|Hin]; [done|by apply IH].
  - apply elem_of_cons in Hin as [->|Hin]; [lia|by apply IH].
Qed.

Lemma check_back_edges_ok function_index times first targets u source ts target :
  check_back_edges function_index times first targets = Some (Ok u) →
  targets !! (source - first)%nat = Some ts → (first <= source)%nat → target ∈ ts →
  (target <= source)%nat → dominates times target source = Some true.
Proof.
  revert first. induction targets as [|ts' targets IH]; intros first Hc Hs Hle Hin Hback; [done|].
  cbn [check_back_edges] in Hc. apply bind_Some in Hc as ([] & Ht & Hc); [|done].
  destruct (decide (source = first)) as [->|Hne].
  - rewrite Nat.sub_diag in Hs. injection Hs as ->. by eapply check_targets_ok.
  - replace (source - first)%nat with (S (source - S first)) in Hs by lia. eapply IH; eauto. lia.
Qed.

Lemma successors_lookup code j i :
  code !! j = Some i → successors code !! j = Some (successors_of j i).
Proof. intros Hj. unfold successors. by rewrite list_lookup_imap, Hj. Qed.

(** What the accepted table of dominators says. *)
Lemma dominator_table code order dominators children :
  (∀ j i k, code !! j = Some i → k ∈ successors_of j i → (k < length code)%nat) →
  code ≠ [] → reverse_postorder (successors code) = Some order →
  dominator_loop (S (length (successors code) * S (length (successors code))))
    (positions (length (successors code)) order) (predecessors (successors code)) (drop 1 order)
    (<[0%nat := Some 0%nat]> (replicate (length (successors code)) None)) = Some dominators →
  dominator_children dominators = Some children →
  dominators !! 0%nat = Some (Some 0%nat)
  ∧ ∀ j i k p, code !! j = Some i → k ∈ successors_of j i → k ≠ 0%nat →
      dominators !! k = Some (Some p) → ancestor dominators j p.
Proof.
  intros Htargets Hcode Horder Hloop Hchildren.
  assert (length (successors code) = length code) as Hlen by apply length_imap.
  assert (0 < length code)%nat as Hpos by (destruct code; simpl; [done|lia]).
  destruct (loop_fixed _ _ _ _ _ _ Hloop) as (Hl & Hkeep & Hfix).
  rewrite length_insert, length_replicate, Hlen in Hl.
  assert (0%nat ∉ drop 1 order) as Hentry by (eapply order_entry; [by rewrite Hlen|exact Horder]).
  assert (dominators !! 0%nat = Some (Some 0%nat)) as Hroot.
  { rewrite (Hkeep _ Hentry). apply list_lookup_insert_eq. by rewrite length_replicate, Hlen. }
  split; [done|]. intros j i k p Hj Hk Hne Hp.
  destruct (decide (k ∈ drop 1 order)) as [Hin|Hout].
  2: { rewrite (Hkeep _ Hout), list_lookup_insert_ne in Hp by done.
       by apply lookup_replicate in Hp as [? _]. }
  destruct (Hfix k Hin) as (ps & computed & Hps & Hnew & Hcomp).
  assert (j ∈ ps) as Hjp by (by eapply predecessors_complete; [|apply successors_lookup|]).
  unfold dominator_children in Hchildren. apply bind_Some in Hchildren as (parents & Hm & _).
  assert (∀ q, (q < length code)%nat → is_Some (mjoin (dominators !! q))) as Hdef.
  { intros q Hq. destruct (decide (q = 0%nat)) as [->|]; [by rewrite Hroot; eexists|].
    destruct (parents_defined dominators parents q Hm) as [pq Hpq]; [lia|]. rewrite Hpq. by eexists. }
  assert (∀ q, q ∈ ps → is_Some (mjoin (dominators !! q))) as Hps_def.
  { intros q Hq. apply Hdef. rewrite <- Hlen. by eapply predecessors_range. }
  destruct computed as [d|].
  - specialize (Hcomp d eq_refl). rewrite Hp in Hcomp. injection Hcomp as ->.
    by eapply new_dominator_ancestor.
  - exfalso. unfold new_dominator in Hnew.
    destruct (List.filter _ ps) as [|first rest] eqn:Hf; [|by destruct (intersect_all _ _ _ _)].
    assert (j ∈ @nil nat) as Hnil; [|by apply elem_of_nil in Hnil].
    rewrite <- Hf. apply list_elem_of_In, filter_In. split; [by apply list_elem_of_In|].
    by destruct (Hps_def j Hjp) as [x ->].
Qed.

(** C17. Loops are structured.  In the code that the check accepts, with its targets in
    range, take an edge to an earlier instruction or to itself: every path from the
    entry to the source of the edge passes through its target.  So a loop is entered
    through its header only. *)
Theorem back_edges_dominate (function_index : nat) (function : Function) (u : unit)
    (source : nat) (i : Instruction) (target : nat) (nodes : list nat) :
  verify_structured_back_edges function_index function = Some (Ok u) →
  (∀ j i k, fn_code function !! j = Some i → k ∈ successors_of j i →
            (k < length (fn_code function))%nat) →
  fn_code function !! source = Some i → target ∈ successors_of source i → (target <= source)%nat →
  cfg_path (fn_code function) source nodes → target ∈ nodes.
Proof.
  intros Hv Htargets Hs Hin Hback Hpath. unfold verify_structured_back_edges in Hv.
  apply bind_Some in Hv as (order & Horder & Hv). apply bind_Some in Hv as (dominators & Hloop & Hv).
  apply bind_Some in Hv as (children & Hchildren & Hv). apply bind_Some in Hv as (times & Hi & Hv).
  assert (fn_code function ≠ []) as Hcode by (by intros Hnil; rewrite Hnil in Hs).
  destruct (dominator_table _ _ _ _ Htargets Hcode Horder Hloop Hchildren) as [Hroot Hedge].
  destruct (children_spec _ _ Hchildren) as [Hchild Hnodup].
  assert (dominates times target source = Some true) as Hd.
  { eapply check_back_edges_ok; [exact Hv| |lia|exact Hin|done].
    rewrite Nat.sub_0_r. by apply successors_lookup. }
  destruct (dominates_ancestor dominators children Hchild Hnodup _ _ _ Hi Hd) as [Ha| ->].
  - by eapply ancestor_on_path.
  - by eapply path_from_entry.
Qed.

(** The countdown loops back from its sixth instruction to its header. *)
Lemma back_edges_dominate_witness : 2%nat ∈ [6; 5; 4; 3; 2; 1; 0]%nat.
Proof.
  apply (back_edges_dominate 0 (demo_function 0) tt 6 (Jump 2) 2).
  - vm_compute. reflexivity.
  - intros j i k Hj Hk. do 8 (destruct j as [|j]; [injection Hj as <-; vm_compute in Hk |- *;
      repeat (apply elem_of_cons in Hk as [->|Hk]; [lia|]); by apply elem_of_nil in Hk|]). done.
  - reflexivity.
  - by left.
  - lia.
  - eapply (cp_step _ 5); [|reflexivity|by left]. eapply (cp_step _ 4); [|reflexivity|by left].
    eapply (cp_step _ 3); [|reflexivity|by left]. eapply (cp_step _ 2); [|reflexivity|by left].
    eapply (cp_step _ 1); [|reflexivity|by left]. eapply (cp_step _ 0); [|reflexivity|by left].
    constructor.
Defined.
