(* ===== verification/VerifierOwnership.v ===== *)
(** * Ownership along paths

    What the flow checks of the verifier promise on the paths of a function: the
    states they record are those that the instructions produce, so that a future or
    task is not used after it is consumed, an effect that is started is consumed on
    every path, task scopes are well bracketed, and a sub-agent does not outlive the
    scope that created it. *)

From S2P Require Import Prelude Text Bytecode VerifierTypes VerifierRules Verifier VerifierFlow.
From S2P Require Import VerifierLoops.
Open Scope string_scope.
Open Scope Z_scope.

(** ** Recorded states are consistent *)

Section FlowLemmas.
Context {S : Type} `{EqDecision S}.
Context (transfer : nat → Instruction → S → option (result string (list (nat * S)))).
Context (carries : S → bool) (normalize : nat → S → option S).
Context (backward_message join_message : string) (function_index : nat) (code : list Instruction).

(** An edge from [index] arrives with the recorded state, and goes backward only
with a state that may. *)
Definition edge_agrees (states : list (option S)) (index : nat) (e : nat * S) : Prop :=
((e.1 <= index)%nat → carries e.2 = false)
∧ ∃ s, normalize e.1 e.2 = Some s ∧ states !! e.1 = Some (Some s).

Definition agrees_at (states : list (option S)) (index : nat) : Prop :=
∀ i s, code !! index = Some i → states !! index = Some (Some s) →
∃ edges, transfer index i s = Some (Ok edges) ∧ Forall (edge_agrees states index) edges.

(** Recorded states stay. *)
Definition keeps (states states' : list (option S)) : Prop :=
∀ j s, states !! j = Some (Some s) → states' !! j = Some (Some s).

#[local] Instance keeps_preorder : PreOrder keeps.
Proof. split; [by intros x j s|]. intros x y z Hxy Hyz j s Hj. auto. Qed.

Lemma edge_agrees_keeps states states' index e :
keeps states states' → edge_agrees states index e → edge_agrees states' index e.
Proof. intros Hk (Hb & s & Hs & Hst). split; [done|]. exists s. auto. Qed.

(** What merging does: it keeps the states, and what is new is on the worklist. *)
Definition merged (states states' : list (option S)) (worklist worklist' : list nat) : Prop :=
keeps states states' ∧ (∀ j, j ∈ worklist → j ∈ worklist')
∧ ∀ j s, states' !! j = Some (Some s) → states !! j = Some (Some s) ∨ j ∈ worklist'.

Lemma merge_edge_agrees index target incoming states worklist states' worklist' :
merge_flow_edge carries normalize backward_message join_message function_index index target
incoming states worklist = Some (Ok (states', worklist')) →
merged states states' worklist worklist' ∧ edge_agrees states' index (target, incoming).
Proof.
unfold merge_flow_edge. destruct (Nat.leb _ _ && _) eqn:Hb; [done|].
intros (s & Hn & Hm)%bind_Some. apply bind_Some in Hm as (existing & He & Hm).
assert (∀ states, keeps states states) as Hrefl by (by intros x j).
assert ((target <= index)%nat → carries incoming = false) as Hback.
{ intros Hle. apply andb_false_iff in Hb as [Hb%Nat.leb_gt|Hb]; [lia|done]. }
destruct existing as [existing|].
- case_bool_decide as Heq; [|done]. injection Hm as <- <-. subst existing.
split; [split_and!; [done|done|by left]|]. split; [done|]. by exists s.
- injection Hm as <- <-. pose proof (lookup_lt_Some _ _ _ He) as Hlt. split.
+ split_and!.
  * intros j x Hj. rewrite list_lookup_insert_ne; [done|]. intros <-. congruence.
  * intros j Hj. apply elem_of_app. by left.
  * intros j x Hj. apply list_lookup_insert_Some in Hj as [(<- & _)|[_ Hj]]; [|by left].
    right. apply elem_of_app. right. by left.
+ split; [done|]. exists s. split; [done|]. by apply list_lookup_insert_eq.
Qed.

Lemma merge_edges_agrees index edges states worklist states' worklist' :
merge_flow_edges carries normalize backward_message join_message function_index index edges
states worklist = Some (Ok (states', worklist')) →
merged states states' worklist worklist' ∧ Forall (edge_agrees states' index) edges.
Proof.
revert states worklist. induction edges as [|[target incoming] edges IH]; intros states worklist Hm;
cbn [merge_flow_edges] in Hm.
{ injection Hm as <- <-. split; [|constructor]. split_and!; [by intros j|done|by left]. }
destruct (merge_flow_edge _ _ _ _ _ _ _ _ _ _) as [[[states1 worklist1]|]|] eqn:He; try done.
destruct (merge_edge_agrees _ _ _ _ _ _ _ He) as [(Hk1 & Hw1 & Hn1) Ha].
destruct (IH _ _ Hm) as [(Hk2 & Hw2 & Hn2) Hall]. split.
- split_and!; [by etrans|auto|]. intros j s Hj. destruct (Hn2 j s Hj) as [Hj1|]; [|by right].
destruct (Hn1 j s Hj1); auto.
- constructor; [|done]. by eapply edge_agrees_keeps.
Qed.

Lemma flow_loop_agrees fuel states worklist states' :
(∀ j s, states !! j = Some (Some s) → j ∈ worklist ∨ agrees_at states j) →
flow_loop transfer carries normalize backward_message join_message fuel function_index code
states worklist = Some (Ok states') →
keeps states states' ∧ ∀ j, agrees_at states' j.
Proof.
revert states worklist. induction fuel as [|fuel IH]; intros states worklist Hinv Hl.
all: destruct worklist as [|index worklist]; cbn [flow_loop] in Hl.
1,3: injection Hl as <-; split; [by intros j|]; intros j i s Hi Hs;
   destruct (Hinv j s Hs) as [Hj|Hj]; [by apply elem_of_nil in Hj|by apply Hj].
{ done. }
apply bind_Some in Hl as (i & Hi & Hl). apply bind_Some in Hl as (s & Hs & Hl).
assert (states !! index = Some (Some s)) as Hst.
{ unfold mjoin, option_join in Hs. destruct (states !! index) as [[]|]; simplify_eq/=; done. }
destruct (transfer index i s) as [[edges|]|] eqn:Ht; try done.
destruct (merge_flow_edges _ _ _ _ _ _ _ _ _) as [[[states1 worklist1]|]|] eqn:Hm; try done.
destruct (merge_edges_agrees _ _ _ _ _ _ Hm) as [(Hk & Hw & Hn) Hall].
assert (agrees_at states1 index) as Hindex.
{ intros i' s' Hi' Hs'. pose proof (Hk _ _ Hst). simplify_eq. by exists edges. }
destruct (IH states1 worklist1) as [Hk' Hall'].
- intros j s' Hj. destruct (Hn j s' Hj) as [Hj1|]; [|by left].
destruct (Hinv j s' Hj1) as [[->|Hw1]%elem_of_cons|Ha]; [by right|left; by apply Hw|].
right. intros i' s'' Hi' Hs''. rewrite Hj in Hs''. injection Hs'' as <-.
destruct (Ha i' s' Hi' Hj1) as (es & Hes & Hf). exists es. split; [done|].
eapply Forall_impl; [exact Hf|]. intros e. by apply edge_agrees_keeps.
- exact Hl.
- split; [by etrans|done].
Qed.

(** The states that the analysis records agree with one another on every edge. *)
Lemma flow_agrees initial states :
flow transfer carries normalize backward_message join_message function_index code initial
= Some (Ok states) →
states !! 0%nat = Some (Some initial) ∧ ∀ j, agrees_at states j.
Proof.
intros Hf. assert (0 < length code)%nat as Hpos by (unfold flow in Hf; destruct code; simpl; [done|lia]).
assert (flow_loop transfer carries normalize backward_message join_message
        (Datatypes.S (length code)) function_index code (flow_entry code initial) [0%nat]
      = Some (Ok states)) as Hl by (unfold flow in Hf; by destruct code).
assert (flow_entry code initial !! 0%nat = Some (Some initial)) as Hentry.
{ apply list_lookup_insert_eq. by rewrite length_replicate. }
refine (match flow_loop_agrees _ _ _ _ _ Hl with conj Hk Hall => conj (Hk _ _ Hentry) Hall end).
intros j s Hj. left. apply list_lookup_insert_Some in Hj as [(<- & _)|[_ Hj]]; [by left|].
by apply lookup_replicate in Hj as [? _].
Qed.
End FlowLemmas.

(** ** The checks of a function *)

Section CfgFunction.
Context (tool_contracts : option (list ToolVerificationContract)).
Context (templates : option (list TemplateResource)).

(** [verify_cfg_function]: definite initialization, then the passes over
sub-agents, backward edges and ownership. *)
Definition verify_cfg_function (module : Module_) (function_index : nat) (function : Function)
: option (result VerifyError (list (option (list bool)))) :=
let* states := verify_cfg tool_contracts templates module function_index function in
try* verify_sub_agent_cfg function function_index states in
try* verify_structured_back_edges function_index function in
try* verify_affine_cfg module function function_index states in
Some (Ok states).
End CfgFunction.

(** ** Ownership of futures and tasks *)

Section AffineLemmas.
Context (module : Module_) (function : Function).

Definition live (s : OwnershipState) (r : Register) : Prop :=
∃ origin must_consume, os_registers s !! r = Some (Live origin must_consume).

(** A future that no scope owns and that must be consumed. *)
Definition owed (s : OwnershipState) (r : Register) : Prop :=
os_registers s !! r = Some (Live 0 true).

(** The instruction leaves a register as it is, or consumes it; [P] holds of those
it consumes. *)
Definition consumes_only (P : Register → AffineState → Prop) (s s' : OwnershipState) : Prop :=
∀ r a, os_registers s !! r = Some a →
os_registers s' !! r = Some a ∨ (os_registers s' !! r = Some Consumed ∧ P r a).

Lemma consumes_only_same P s s' : os_registers s' = os_registers s → consumes_only P s s'.
Proof. intros Heq r a Hr. left. by rewrite Heq. Qed.

Lemma consume_only (P : Register → AffineState → Prop) s r :
(∀ a, P r a) → consumes_only P s (consume s r).
Proof.
intros HP r' a Hr. simpl. destruct (decide (r' = r)) as [->|Hne].
- right. split; [|done]. apply list_lookup_insert_eq. by eapply lookup_lt_Some.
- left. by rewrite list_lookup_insert_ne.
Qed.

Lemma consumes_only_trans (P : Register → AffineState → Prop) s1 s2 s3 :
consumes_only P s1 s2 → consumes_only P s2 s3 →
(∀ r a, os_registers s1 !! r = Some a → P r Consumed → P r a) → consumes_only P s1 s3.
Proof.
intros H12 H23 HP r a Hr. destruct (H12 r a Hr) as [Hr2|[Hr2 HPr]].
- by apply H23.
- destruct (H23 r _ Hr2) as [Hr3|[Hr3 _]]; by right.
Qed.

Lemma consume_not_live s r : ¬ live (consume s r) r.
Proof.
intros (o & m & Hr). simpl in Hr. pose proof (lookup_lt_Some _ _ _ Hr) as Hlt.
rewrite length_insert in Hlt. by rewrite list_lookup_insert_eq in Hr.
Qed.

Lemma not_live_only P s s' r :
length (os_registers s') = length (os_registers s) →
consumes_only P s s' → ¬ live s r → ¬ live s' r.
Proof.
intros Hlen Hc Hn (o & m & Hr).
assert (is_Some (os_registers s !! r)) as [a Ha].
{ apply lookup_lt_is_Some. rewrite <- Hlen. by eapply lookup_lt_Some. }
destruct (Hc r a Ha) as [Hr'|[Hr' _]]; simplify_eq. apply Hn. by exists o, m.
Qed.

(** The loop over the arguments consumes the affine ones. *)
Lemma affine_arguments_ok s consumed origin must arguments t :
affine_arguments function s consumed origin must arguments = Some (Ok t) →
length (os_registers (tr_state t)) = length (os_registers s)
∧ os_scopes (tr_state t) = os_scopes s
∧ consumes_only (λ r _, r ∈ map fst arguments) s (tr_state t)
∧ ∀ r, r ∈ map fst arguments → affine_register function r = Some true → ¬ live (tr_state t) r.
Proof.
revert s consumed origin must. induction arguments as [|[a hidden] arguments IH];
intros s consumed origin must Ha; cbn [affine_arguments] in Ha.
{ injection Ha as <-. split_and!; [done..|by apply consumes_only_same|].
intros r Hr. by apply elem_of_nil in Hr. }
apply bind_Some in Ha as (affine & Haff & Ha). destruct affine.
- destruct (existsb _ consumed); [done|]. apply bind_Some in Ha as (live_ & Hlive & Ha).
destruct (_ && _); [done|]. apply bind_Some in Ha as (h & _ & Ha).
destruct (IH _ _ _ _ Ha) as (Hlen & Hsc & Honly & Hall). simpl in Hlen, Hsc.
rewrite length_insert in Hlen. split_and!; [done|done|..].
+ eapply (consumes_only_trans _ _ (consume s a)); [by apply consume_only; left| |done].
  intros r x Hr. destruct (Honly r x Hr) as [|[? ?]]; [by left|right]. split; [done|by right].
+ intros r [->|Hr]%elem_of_cons Hr'; [|by apply Hall].
  eapply not_live_only; [|exact Honly|apply consume_not_live]. simpl. by rewrite length_insert.
- destruct (IH _ _ _ _ Ha) as (Hlen & Hsc & Honly & Hall). split_and!; [done|done|..].
+ intros r x Hr. destruct (Honly r x Hr) as [|[? ?]]; [by left|right]. split; [done|by right].
+ intros r [->|Hr]%elem_of_cons Hr'; [simpl in Hr'; congruence|by apply Hall].
Qed.

(** Leaving a scope consumes what the scope owns. *)
Lemma exit_scope_ok scope first registers registers' :
exit_scope function scope first registers = Some (Ok registers') →
length registers' = length registers
∧ ∀ r a, registers !! r = Some a →
  registers' !! r = Some a
  ∨ (registers' !! r = Some Consumed ∧ ∃ must, a = Live scope must).
Proof.
revert first registers'. induction registers as [|a registers IH]; intros first registers' He;
cbn [exit_scope] in He; [by injection He as <-|].
assert (∀ b, match exit_scope function scope (S first) registers with
           | Some (Ok others) => Some (Ok (b :: others)) | Some (Err e) => Some (Err e)
           | None => None end = Some (Ok registers') →
      (b = a ∨ (b = Consumed ∧ ∃ must, a = Live scope must)) →
      length registers' = length (a :: registers)
      ∧ ∀ r x, (a :: registers) !! r = Some x →
          registers' !! r = Some x
          ∨ (registers' !! r = Some Consumed ∧ ∃ must, x = Live scope must)) as Hcons.
{ intros b Hb Hab. destruct (exit_scope function scope (S first) registers) as [[others|]|] eqn:E;
  try done.
injection Hb as <-. destruct (IH _ _ E) as [Hlen Hall]. simpl. split; [by rewrite Hlen|].
intros [|r] x Hx; simpl in *; [|by apply Hall]. injection Hx as <-.
destruct Hab as [->|[-> ?]]; [by left|by right]. }
destruct a as [|origin must|]; [by apply (Hcons Uninitialized); [|left]| |
                              by apply (Hcons Consumed); [|left]].
destruct (Nat.eqb_spec origin scope) as [->|].
- apply bind_Some in He as (t & _ & He). destruct (escapes_scope t must); [done|].
apply (Hcons Consumed); [done|]. right. eauto.
- apply (Hcons (Live origin must)); [done|by left].
Qed.

(** The scopes after an instruction. *)
Definition scopes_after (i : Instruction) (scopes : list nat) : list nat :=
match i with
| TaskScopeEnter scope => (scopes ++ [scope])%list
| TaskScopeExit _ => (pop scopes).2
| _ => scopes
end.

(** What may be consumed by an instruction. *)
Definition consumable (i : Instruction) (r : Register) (a : AffineState) : Prop :=
instruction_consumes_register i r = true
∨ ∃ scope must, i = TaskScopeExit scope ∧ a = Live scope must.

(** What an instruction does to the ownership of the registers. *)
Record effect_ok (i : Instruction) (s s' : OwnershipState) : Prop := {
eo_length : length (os_registers s') = length (os_registers s);
eo_scopes : os_scopes s' = scopes_after i (os_scopes s);
eo_only : consumes_only (consumable i) s s';
eo_consumed r : instruction_consumes_register i r = true →
affine_register function r = Some true → ¬ live s' r
}.

Lemma effect_ok_same i s :
(∀ r, instruction_consumes_register i r = false) → scopes_after i (os_scopes s) = os_scopes s →
effect_ok i s s.
Proof. intros Hc Hsc. split; [done|done|by apply consumes_only_same|]. intros r Hr. by rewrite Hc in Hr. Qed.

Lemma effect_ok_consume i s r :
(∀ r', instruction_consumes_register i r' = Nat.eqb r r') →
scopes_after i (os_scopes s) = os_scopes s → effect_ok i s (consume s r).
Proof.
intros Hc Hsc. split; simpl; [by rewrite length_insert|by symmetry| |].
- apply consume_only. intros a. left. by rewrite Hc, Nat.eqb_refl.
- intros r' Hr' _. rewrite Hc in Hr'. apply Nat.eqb_eq in Hr' as ->. apply consume_not_live.
Qed.

Lemma effect_ok_arguments i s arguments consumed t origin must :
(∀ r, instruction_consumes_register i r = true → r ∈ map fst arguments) →
(∀ r, r ∈ map fst arguments → instruction_consumes_register i r = true) →
scopes_after i (os_scopes s) = os_scopes s →
affine_arguments function s consumed origin must arguments = Some (Ok t) →
effect_ok i s (tr_state t).
Proof.
intros Hc1 Hc2 Hsc Ha. destruct (affine_arguments_ok _ _ _ _ _ _ Ha) as (Hlen & Hs & Honly & Hall).
split; [done|congruence| |auto].
intros r a Hr. destruct (Honly r a Hr) as [|[? ?]]; [by left|]. right. split; [done|]. left. auto.
Qed.

Lemma existsb_elem r (l : list nat) : existsb (Nat.eqb r) l = true ↔ r ∈ l.
Proof.
rewrite existsb_exists, list_elem_of_In. split; [|intros; exists r; by rewrite Nat.eqb_refl].
by intros (x & Hx & ->%Nat.eqb_eq).
Qed.

Lemma map_fst_pairs {B} (f : nat → B) (l : list nat) : map fst (map (λ a, (a, f a)) l) = l.
Proof. rewrite map_map. apply map_id. Qed.

Lemma affine_call_ok i s destination arguments t :
(∀ r, instruction_consumes_register i r = existsb (Nat.eqb r) arguments) →
scopes_after i (os_scopes s) = os_scopes s →
affine_call function s destination arguments = Some (Ok t) → effect_ok i s (tr_state t).
Proof.
intros Hc Hsc Ha. unfold affine_call in Ha.
destruct (affine_arguments _ _ _ _ _ _) as [[t'|]|] eqn:E; try done.
apply bind_Some in Ha as (task & _ & [= <-]).
assert (effect_ok i s (tr_state t')) as Hok.
{ eapply effect_ok_arguments; [..|exact E]; [| |done]; intros r;
  rewrite (map_fst_pairs (λ _, Some false)), Hc; apply existsb_elem. }
by destruct task.
Qed.

Lemma affine_move_ok s d r t :
affine_move function s d r = Some (Ok t) →
(affine_register function r = Some true ∧ tr_state t = consume s r)
∨ (affine_register function r = Some false ∧ tr_state t = s).
Proof.
unfold affine_move. intros ([] & Ha & Hm)%bind_Some.
- destruct (Nat.eqb d r); [done|]. apply bind_Some in Hm as (l & _ & [= <-]). by left.
- injection Hm as <-. by right.
Qed.

Lemma affine_fold_ok s sequence initial t :
affine_sequence_fold function s sequence initial = Some (Ok t) →
(affine_register function initial = Some true ∧ tr_state t = consume (consume s sequence) initial)
∨ (affine_register function initial = Some false ∧ tr_state t = consume s sequence).
Proof.
unfold affine_sequence_fold. intros (l & _ & Hm)%bind_Some.
destruct (Nat.eqb initial sequence); [done|]. apply bind_Some in Hm as ([] & Ha & Hm).
- apply bind_Some in Hm as (f & _ & Hm). destruct (_ && _); [done|]. injection Hm as <-. by left.
- injection Hm as <-. by right.
Qed.

(** The arguments of an async call and the parameters pair up. *)
Definition arity_ok (i : Instruction) : Prop :=
match i with
| AsyncCall _ target arguments =>
∀ g, functions module !! target = Some g → length arguments = length (fn_parameters g)
| _ => True
end.

Lemma affine_async_ok d target arguments s t :
arity_ok (AsyncCall d target arguments) →
affine_async_call module function s target arguments = Some (Ok t) →
effect_ok (AsyncCall d target arguments) s (tr_state t).
Proof.
intros Harity Ha. unfold affine_async_call in Ha. apply bind_Some in Ha as (g & Hg & Ha).
assert (map fst (map (λ p : Register * Register,
        (p.1, t ← fn_registers g !! p.2; Some match t with TTask _ => true | _ => false end))
        (combine arguments (fn_parameters g))) = arguments) as Hfst.
{ rewrite map_map. simpl. specialize (Harity g Hg). clear -Harity. revert Harity.
generalize (fn_parameters g). induction arguments as [|a arguments IH]; intros [|p ps] Hl;
  simpl in *; try done. f_equal. apply IH. by injection Hl. }
eapply effect_ok_arguments; [..|exact Ha]; [| |done]; intros r; rewrite Hfst; simpl;
apply existsb_elem.
Qed.

Lemma affine_scope_exit_ok s scope t :
affine_scope_exit function s scope = Some (Ok t) →
effect_ok (TaskScopeExit scope) s (tr_state t) ∧ last (os_scopes s) = Some scope.
Proof.
unfold affine_scope_exit, pop. case_bool_decide as Htop; [|done]. simpl.
destruct (exit_scope _ _ _ _) as [[registers|]|] eqn:E; try done. intros [= <-].
destruct (exit_scope_ok _ _ _ _ E) as [Hlen Hall]. split; [|done].
split; simpl; [done|done| |done].
intros r a Hr. destruct (Hall r a Hr) as [|[? [must ->]]]; [by left|].
right. split; [done|]. right. by exists scope, must.
Qed.

Lemma affine_effect_ok i s t :
arity_ok i → affine_effect module function i s = Some (Ok t) → effect_ok i s (tr_state t).
Proof.
intros Harity He.
destruct i; cbn [affine_effect] in He; try (injection He as <-; by apply effect_ok_same);
try (by eapply affine_call_ok);
try (by unfold affine_sequence in He; apply bind_Some in He as (l & _ & He);
     apply bind_Some in He as ([] & _ & [= <-]); apply effect_ok_consume).
- destruct (affine_move_ok _ _ _ _ He) as [[_ ->]|[Ha ->]]; [by apply effect_ok_consume|].
split; [done|done|by apply consumes_only_same|]. simpl. intros r ->%Nat.eqb_eq. congruence.
- destruct (affine_try _ _ _) as [[|]|]; try done. injection He as <-. by apply effect_ok_same.
- destruct (affine_try _ _ _) as [[|]|]; try done. injection He as <-. by apply effect_ok_same.
- by apply affine_async_ok.
- unfold affine_spawn in He. destruct (negb _); [done|]. injection He as <-. by apply effect_ok_consume.
- unfold affine_await in He. apply bind_Some in He as (l & _ & He).
apply bind_Some in He as (task & _ & He). apply bind_Some in He as (affine & _ & [= <-]).
by apply effect_ok_consume.
- destruct (affine_fold_ok _ _ _ _ He) as [[Ha ->]|[Ha ->]].
+ split; simpl; [by rewrite !length_insert|done| |].
  * eapply (consumes_only_trans _ _ (consume s sequence)).
    -- apply consume_only. intros a. left. simpl. by rewrite Nat.eqb_refl.
    -- apply consume_only. intros a. left. simpl. by rewrite Nat.eqb_refl, orb_true_r.
    -- intros r a _ [Hc|(? & ? & ? & ?)]; [by left|done].
  * intros r Hr _. apply orb_true_iff in Hr as [->%Nat.eqb_eq|<-%Nat.eqb_eq]; [|apply consume_not_live].
    eapply (not_live_only (λ _ _, True) (consume s r)); [|by apply consume_only|apply consume_not_live].
    simpl. by rewrite !length_insert.
+ split; simpl; [by rewrite length_insert|done| |].
  * apply consume_only. intros a. left. simpl. by rewrite Nat.eqb_refl.
  * intros r Hr Haff. apply orb_true_iff in Hr as [->%Nat.eqb_eq|<-%Nat.eqb_eq]; [apply consume_not_live|].
    congruence.
- injection He as <-. split; [done|done|by apply consumes_only_same|done].
- by apply affine_scope_exit_ok.
- destruct (affine_return _ _ _) as [[|]|]; try done. injection He as <-. by apply effect_ok_same.
Qed.
End AffineLemmas.

(** ** Accepted functions *)

Section AcceptedFlow.
Context (tools : option (list ToolVerificationContract)) (templates : option (list TemplateResource)).
Context (module : Module_) (function_index : nat) (function : Function).
Context (initialized : list (option (list bool))).
Abbreviation code := (fn_code function) (only parsing).
Hypothesis Hverified :
verify_cfg_function tools templates module function_index function = Some (Ok initialized).

Lemma cfg_accepts j i :
code !! j = Some i → accepts tools templates module function function_index i.
Proof using Hverified.
intros Hj. unfold verify_cfg_function in Hverified.
destruct (verify_cfg _ _ _ _ _) as [[states|]|] eqn:Hcfg; try done. clear Hverified.
apply verify_cfg_loop in Hcfg as (Ht & _). unfold verify_instruction_types in Ht.
repeat (case_match; try discriminate Ht);
(eapply verify_code_types_ok; [|done..]); by intros id [? _]%lookup_replicate.
Qed.

Lemma accepted_arity j i : code !! j = Some i → arity_ok module i.
Proof using Hverified.
intros Hj. destruct i; try done. intros g Hg.
destruct (cfg_accepts _ _ Hj) as (marks & caches & caches' & _ & Hv).
cbn [verify_instruction] in Hv. unfold verify_async_call in Hv. rewrite Hg in Hv. simpl in Hv.
destruct (destination_type _ _); [|done]. destruct (negb (is_async _ _)); [done|].
destruct (negb (bool_decide _)); [done|]. unfold verify_lazy_arguments, lazy_types in Hv.
rewrite length_map in Hv. by destruct (Nat.eqb_spec (length arguments) (length (fn_parameters g))).
Qed.

Lemma accepted_scope j scope : code !! j = Some (TaskScopeExit scope) → scope ≠ 0%nat.
Proof using Hverified.
intros Hj ->. destruct (cfg_accepts _ _ Hj) as (marks & caches & caches' & _ & Hv). done.
Qed.

(** The recorded ownership. *)
Lemma affine_states :
∃ states initial,
states !! 0%nat = Some (Some initial) ∧ os_scopes initial = []
∧ ∀ j, agrees_at (affine_transfer module function)
         (λ state, existsb is_live (os_registers state))
         (λ target state,
            marks ← mjoin (initialized !! target);
            Some (normalize_dead_affine_temporaries function marks state))
         code states j.
Proof using Hverified.
unfold verify_cfg_function in Hverified.
destruct (verify_cfg _ _ _ _ _) as [[states|]|]; try done.
destruct (verify_sub_agent_cfg _ _ _) as [[?|]|]; try done.
destruct (verify_structured_back_edges _ _) as [[?|]|]; try done.
destruct (verify_affine_cfg _ _ _ _) as [[ownership|]|] eqn:Ha; try done.
injection Hverified as <-. unfold verify_affine_cfg in Ha.
destruct (verify_scope_ids _ _ _ _); [|done]. apply bind_Some in Ha as (registers & _ & Ha).
apply bind_Some in Ha as (initial & Hi & Ha). apply flow_agrees in Ha as [H0 Hall].
exists ownership, initial. split; [done|]. split; [|done].
by apply bind_Some in Hi as (marks & _ & [= <-]).
Qed.
End AcceptedFlow.

(** ** Segments of paths *)

(** An edge of the code whose instruction does not assign the register. *)
Definition untouched (code : list Instruction) (r : Register) (j k : nat) : Prop :=
  ∃ i, code !! j = Some i ∧ k ∈ successors_of j i ∧ instruction_destination i ≠ Some r.

(** An edge of the code whose instruction does not consume the register. *)
Definition unconsumed (code : list Instruction) (r : Register) (j k : nat) : Prop :=
  ∃ i, code !! j = Some i ∧ k ∈ successors_of j i ∧ instruction_consumes_register i r = false.

(** An instruction that starts an external effect, and leaves its future in [r]. *)
Definition starts_effect (i : Instruction) (r : Register) : Prop :=
  (∃ operation arguments, i = EffectCall r operation arguments)
  ∨ ∃ tool input, i = ToolInvoke r tool input.

(** ** Steps of the ownership analysis *)

Section AffineSteps.
Context (module : Module_) (function : Function) (initialized : list (option (list bool))).
Context (states : list (option OwnershipState)).
Abbreviation code := (fn_code function) (only parsing).
Hypothesis Hagrees : ∀ j, agrees_at (affine_transfer module function)
(λ state, existsb is_live (os_registers state))
(λ target state, marks ← mjoin (initialized !! target);
 Some (normalize_dead_affine_temporaries function marks state)) code states j.
Hypothesis Harity : ∀ j i, code !! j = Some i → arity_ok module i.

(** The recorded state passes the checks of its instruction. *)
Lemma affine_checked j i s :
code !! j = Some i → states !! j = Some (Some s) →
affine_sources function s (instruction_sources i) = Some (Ok tt)
∧ affine_overwrite i s = Some (Ok tt)
∧ ∃ t s', affine_effect module function i s = Some (Ok t) ∧ affine_result function i t = Some s'
  ∧ ∀ k, k ∈ successors_of j i →
      ((k <= j)%nat → existsb is_live (os_registers s') = false)
      ∧ ∃ marks, states !! k = Some (Some (normalize_dead_affine_temporaries function marks s')).
Proof using Hagrees.
intros Hi Hs. destruct (Hagrees j i s Hi Hs) as (edges & Ht & Hall). unfold affine_transfer in Ht.
destruct (affine_sources _ _ _) as [[[]|]|]; try done.
destruct (affine_overwrite _ _) as [[[]|]|]; try done.
destruct (affine_effect _ _ _ _) as [[t|]|]; try done.
apply bind_Some in Ht as (s' & Hr & [= <-]). split; [done|]. split; [done|].
exists t, s'. split; [done|]. split; [done|]. intros k Hk. rewrite Forall_map, Forall_forall in Hall.
destruct (Hall k Hk) as (Hb & s'' & Hn & Hst). split; [done|].
apply bind_Some in Hn as (marks & _ & [= <-]). by exists marks.
Qed.

Lemma normalize_not_live marks s r :
¬ live s r → ¬ live (normalize_dead_affine_temporaries function marks s) r.
Proof.
intros Hn (o & m & Hr). simpl in Hr. rewrite list_lookup_imap in Hr.
destruct (os_registers s !! r) as [a|] eqn:Ha; [|done]. simpl in Hr. injection Hr as Hr.
apply Hn. exists o, m. rewrite Ha. repeat case_match; simplify_eq; done.
Qed.

Lemma normalize_owed marks s r :
owed s r → owed (normalize_dead_affine_temporaries function marks s) r.
Proof.
unfold owed. intros Hr. simpl. rewrite list_lookup_imap, Hr. simpl. f_equal.
repeat case_match; try done. by rewrite andb_false_r in *.
Qed.

Lemma read_live s sources r :
affine_sources function s sources = Some (Ok tt) → r ∈ sources →
affine_register function r = Some true → live s r.
Proof.
intros Hs Hr Ha. induction sources as [|source sources IH]; [by apply elem_of_nil in Hr|].
cbn [affine_sources] in Hs. apply bind_Some in Hs as (affine & Haff & Hs).
apply elem_of_cons in Hr as [->|Hr].
- rewrite Ha in Haff. injection Haff as <-. apply bind_Some in Hs as (a & Hl & Hs).
destruct a; try done. by exists origin, must_consume.
- destruct affine; [|by apply IH]. apply bind_Some in Hs as (a & Hl & Hs).
destruct (is_live a); [by apply IH|done].
Qed.

(** The register is not live after an instruction that consumes it, or that finds
it not live, unless the instruction assigns it. *)
Lemma step_not_live j i k s s' r :
code !! j = Some i → states !! j = Some (Some s) → k ∈ successors_of j i →
states !! k = Some (Some s') → instruction_destination i ≠ Some r →
affine_register function r = Some true →
instruction_consumes_register i r = true ∨ ¬ live s r → ¬ live s' r.
Proof using Hagrees Harity.
intros Hi Hs Hk Hs' Hd Haff Hcase.
destruct (affine_checked _ _ _ Hi Hs) as (_ & _ & t & post & He & Hres & Hsucc).
destruct (Hsucc k Hk) as (_ & marks & Hst). rewrite Hs' in Hst. injection Hst as ->.
apply normalize_not_live. pose proof (affine_effect_ok _ _ _ _ _ (Harity _ _ Hi) He) as Hok.
assert (¬ live (tr_state t) r) as Hn.
{ destruct Hcase as [Hc|Hn]; [by eapply eo_consumed|].
eapply not_live_only; [apply Hok|apply Hok|done]. }
unfold affine_result in Hres. destruct (instruction_destination i) as [d|]; [|by injection Hres as <-].
apply bind_Some in Hres as (affine & _ & [= <-]). destruct affine; [|done].
intros (o & m & Hr). simpl in Hr. rewrite list_lookup_insert_ne in Hr by congruence.
apply Hn. by exists o, m.
Qed.

(** An obligation stays until an instruction consumes it, and goes forward only. *)
Lemma step_owed j i k s s' r :
code !! j = Some i → states !! j = Some (Some s) → k ∈ successors_of j i →
states !! k = Some (Some s') → (∀ scope, i = TaskScopeExit scope → scope ≠ 0%nat) →
instruction_consumes_register i r = false → owed s r → owed s' r ∧ (j < k)%nat.
Proof using Hagrees Harity.
intros Hi Hs Hk Hs' Hscope Hc Howed.
destruct (affine_checked _ _ _ Hi Hs) as (_ & Hover & t & post & He & Hres & Hsucc).
destruct (Hsucc k Hk) as (Hback & marks & Hst). rewrite Hs' in Hst. injection Hst as ->.
assert (owed post r) as Hpost.
{ pose proof (affine_effect_ok _ _ _ _ _ (Harity _ _ Hi) He) as Hok.
destruct (eo_only _ _ _ _ Hok r _ Howed) as [Hr|[_ [Hr|(sc & must & -> & [= <- <-])]]];
  [|congruence|by destruct (Hscope 0%nat)].
unfold affine_result in Hres. unfold affine_overwrite in Hover.
destruct (instruction_destination i) as [d|]; [|by injection Hres as <-].
assert (d ≠ r) as Hne.
{ intros ->. rewrite Howed in Hover. simpl in Hover. by rewrite Hc in Hover. }
apply bind_Some in Hres as (affine & _ & [= <-]). destruct affine; [|done].
unfold owed. simpl. by rewrite list_lookup_insert_ne. }
split; [by apply normalize_owed|].
destruct (Nat.lt_ge_cases j k) as [|Hle]; [done|]. specialize (Hback Hle).
assert (existsb is_live (os_registers post) = true) as Hlive; [|congruence].
apply existsb_exists. exists (Live 0 true). split; [|done].
apply list_elem_of_In. by eapply list_elem_of_lookup_2.
Qed.

(** Starting an effect creates an obligation. *)
Lemma step_starts j i k s s' r :
code !! j = Some i → states !! j = Some (Some s) → k ∈ successors_of j i →
states !! k = Some (Some s') → affine_register function r = Some true →
starts_effect i r → (r < length (os_registers s))%nat → owed s' r ∧ (j < k)%nat.
Proof using Hagrees.
intros Hi Hs Hk Hs' Haff Hstart Hr.
destruct (affine_checked _ _ _ Hi Hs) as (_ & _ & t & post & He & Hres & Hsucc).
destruct (Hsucc k Hk) as (Hback & marks & Hst). rewrite Hs' in Hst. injection Hst as ->.
assert (owed post r) as Hpost.
{ destruct Hstart as [(operation & arguments & ->)|(tool & input & ->)];
  injection He as <-; unfold affine_result in Hres; simpl in Hres; rewrite Haff in Hres;
  simpl in Hres; injection Hres as <-; unfold owed; simpl; by apply list_lookup_insert_eq. }
split; [by apply normalize_owed|].
destruct Hstart as [(operation & arguments & ->)|(tool & input & ->)];
apply list_elem_of_singleton in Hk as ->; lia.
Qed.

(** Every path has recorded states. *)
Lemma affine_on_path k nodes initial :
states !! 0%nat = Some (Some initial) → cfg_path code k nodes →
∃ s, states !! k = Some (Some s).
Proof using Hagrees.
intros H0. induction 1 as [|j i k nodes _ (s & Hs) Hi Hk]; [by eexists|].
destruct (affine_checked _ _ _ Hi Hs) as (_ & _ & t & post & _ & _ & Hsucc).
destruct (Hsucc k Hk) as (_ & marks & Hst). by eexists.
Qed.

Lemma affine_next j i k s :
code !! j = Some i → k ∈ successors_of j i → states !! j = Some (Some s) →
∃ s', states !! k = Some (Some s').
Proof using Hagrees.
intros Hi Hk Hs. destruct (affine_checked _ _ _ Hi Hs) as (_ & _ & ? & ? & _ & _ & Hsucc).
destruct (Hsucc k Hk) as (_ & marks & Hst). by eexists.
Qed.

Hypothesis Hscope : ∀ j scope, code !! j = Some (TaskScopeExit scope) → scope ≠ 0%nat.

Lemma owed_reaches m k s r :
rtc (unconsumed code r) m k → states !! m = Some (Some s) → owed s r →
∃ s', states !! k = Some (Some s') ∧ owed s' r ∧ (m <= k)%nat.
Proof using Hagrees Harity Hscope.
intros Hmk. revert s. induction Hmk as [m|m n k (i & Hi & Hn & Hc) _ IH]; intros s Hs Ho.
{ by exists s. }
destruct (affine_next _ _ _ _ Hi Hn Hs) as [s1 Hs1].
destruct (step_owed _ _ _ _ _ r Hi Hs Hn Hs1) as [Ho1 Hlt]; [intros scope ->; by eapply Hscope|done..|].
destruct (IH s1 Hs1 Ho1) as (s2 & Hs2 & Ho2 & Hle). exists s2. split_and!; [done|done|lia].
Qed.

Lemma started_reaches j i k s r :
code !! j = Some i → starts_effect i r → affine_register function r = Some true →
states !! j = Some (Some s) → tc (unconsumed code r) j k →
∃ s', states !! k = Some (Some s') ∧ owed s' r ∧ (j < k)%nat.
Proof using Hagrees Harity Hscope.
intros Hi Hstart Haff Hs Hsteps.
assert (r < length (os_registers s))%nat as Hlen.
{ destruct (affine_checked _ _ _ Hi Hs) as (_ & Hover & _). unfold affine_overwrite in Hover.
destruct Hstart as [(? & ? & ->)|(? & ? & ->)]; simpl in Hover;
  apply bind_Some in Hover as (a & Ha & _); by eapply lookup_lt_Some. }
assert (∃ m, unconsumed code r j m ∧ rtc (unconsumed code r) m k) as (m & (x & Hx & Hm & _) & Hrest).
{ inversion Hsteps as [? ? Hjk|? m ? Hjm Hmk]; subst; [exists k; split; [done|apply rtc_refl]|].
exists m. split; [done|by apply tc_rtc]. }
rewrite Hi in Hx. injection Hx as <-. destruct (affine_next _ _ _ _ Hi Hm Hs) as [s1 Hs1].
destruct (step_starts _ _ _ _ _ r Hi Hs Hm Hs1 Haff Hstart Hlen) as [Ho Hlt].
destruct (owed_reaches _ _ _ _ Hrest Hs1 Ho) as (s2 & Hs2 & Ho2 & Hle).
exists s2. split_and!; [done|done|lia].
Qed.
End AffineSteps.

(** C4. A future or task is used once.  Take a function that the verifier accepts, and
    on a path of it an instruction that consumes a future, a task or a sequence in
    a register.  From there on, as long as no instruction assigns the register, no
    instruction reads it. *)
Theorem affine_used_once (tools : option (list ToolVerificationContract))
    (templates : option (list TemplateResource)) (module : Module_) (function_index : nat)
    (function : Function) (initialized : list (option (list bool))) (j k : nat) (nodes : list nat)
    (i i' : Instruction) (r : Register) (t : ValueType) :
  verify_cfg_function tools templates module function_index function = Some (Ok initialized) →
  cfg_path (fn_code function) j nodes → fn_code function !! j = Some i →
  fn_registers function !! r = Some t → is_affine_type t = true →
  instruction_consumes_register i r = true → tc (untouched (fn_code function) r) j k →
  fn_code function !! k = Some i' → r ∉ instruction_sources i'.
Proof.
  intros Hv Hp Hi Hr Ht Hc Hsteps Hi' Hread.
  destruct (affine_states _ _ _ _ _ _ Hv) as (states & initial & H0 & _ & Hall).
  pose proof (accepted_arity _ _ _ _ _ _ Hv) as Harity.
  assert (affine_register function r = Some true) as Haff by (unfold affine_register; by rewrite Hr, <- Ht).
  assert (∀ j k s, untouched (fn_code function) r j k → states !! j = Some (Some s) →
            ∃ s', states !! k = Some (Some s')
              ∧ ((∃ i, fn_code function !! j = Some i ∧ instruction_consumes_register i r = true)
                 ∨ ¬ live s r → ¬ live s' r)) as Hstep.
  { intros j' k' s (x & Hx & Hk & Hd) Hs.
    destruct (affine_checked _ _ _ _ Hall _ _ _ Hx Hs) as (_ & _ & ? & post & _ & _ & Hsucc).
    destruct (Hsucc k' Hk) as (_ & marks & Hst). eexists. split; [exact Hst|]. intros Hcase.
    eapply (step_not_live module function initialized states Hall Harity j' x k'); try done.
    destruct Hcase as [(y & Hy & Hyc)|Hn]; [left; congruence|by right]. }
  destruct (affine_on_path _ _ _ _ Hall _ _ _ H0 Hp) as [s Hs].
  assert (∃ s', states !! k = Some (Some s') ∧ ¬ live s' r) as (s' & Hs' & Hn).
  { assert ((∃ i, fn_code function !! j = Some i ∧ instruction_consumes_register i r = true)
            ∨ ¬ live s r) as Hstart by (left; eauto).
    clear Hp Hi Hi' Hc. revert s Hs Hstart.
    induction Hsteps as [j k Hjk|j m k Hjm _ IH]; intros s Hs Hstart;
      destruct (Hstep _ _ _ Hjk Hs) as (s' & Hs' & Hn) || destruct (Hstep _ _ _ Hjm Hs) as (s' & Hs' & Hn).
    - exists s'. split; [done|by apply Hn].
    - apply (IH s'); [done|]. right. by apply Hn. }
  destruct (affine_checked _ _ _ _ Hall _ _ _ Hi' Hs') as (Hsrc & _).
  apply Hn. by eapply read_live.
Qed.

Lemma affine_return_keeps function s source r :
  affine_return function s source = Some (Ok tt) → owed s r → source = r.
Proof.
  unfold affine_return. destruct (negb _); [done|].
  destruct (drops_obligation source 0 (os_registers s)) eqn:Hd; [done|]. intros _ Ho.
  assert (∀ first registers, drops_obligation source first registers = false →
            ∀ n a, registers !! n = Some a → is_obligation a = true → (first + n)%nat = source) as Hall.
  { intros first registers. revert first. induction registers as [|b registers IH];
      intros first Hf n a Hn Ha; [done|]. simpl in Hf. apply orb_false_iff in Hf as [Hb Hf].
    destruct n as [|n]; simpl in Hn.
    - injection Hn as ->. rewrite Ha in Hb. simpl in Hb. apply negb_false_iff, Nat.eqb_eq in Hb. lia.
    - rewrite <- (IH _ Hf n a Hn Ha). lia. }
  symmetry. exact (Hall 0%nat _ Hd r _ Ho eq_refl).
Qed.

Lemma affine_try_keeps function registers r :
  affine_try function 0 registers = Some (Ok tt) → registers !! r ≠ Some (Live 0 true).
Proof.
  intros Ht Hr.
  assert (∀ first registers n, affine_try function first registers = Some (Ok tt) →
            registers !! n ≠ Some (Live 0 true)) as Hall.
  { clear. intros first registers. revert first.
    induction registers as [|b registers IH]; intros first n Ht Hn; [done|]. cbn [affine_try] in Ht.
    destruct n as [|n]; simpl in Hn.
    - injection Hn as ->. apply bind_Some in Ht as (t & _ & Ht). by rewrite orb_true_r in Ht.
    - destruct b as [|o []|]; try (by eapply IH). apply bind_Some in Ht as (t & _ & Ht).
      destruct (_ || _); [done|by eapply IH]. }
  by eapply Hall.
Qed.


(** ** Task scopes *)

(** A path with the task scopes that are open where it ends, the innermost last. *)
Inductive scoped_path (code : list Instruction) : nat → list nat → Prop :=
| sp_entry : scoped_path code 0 []
| sp_step j i k scopes :
    scoped_path code j scopes → code !! j = Some i → k ∈ successors_of j i →
    scoped_path code k (scopes_after i scopes).

(** The recorded states know the open scopes. *)
Lemma affine_scopes module function (initialized : list (option (list bool))) states initial k scopes :
  (∀ j, agrees_at (affine_transfer module function)
          (λ state, existsb is_live (os_registers state))
          (λ target state, marks ← mjoin (initialized !! target);
             Some (normalize_dead_affine_temporaries function marks state))
          (fn_code function) states j) →
  (∀ j i, fn_code function !! j = Some i → arity_ok module i) →
  states !! 0%nat = Some (Some initial) → os_scopes initial = [] →
  scoped_path (fn_code function) k scopes → ∃ s, states !! k = Some (Some s) ∧ os_scopes s = scopes.
Proof.
  intros Hall Harity H0 Hsc. induction 1 as [|j i k scopes _ (s & Hs & <-) Hi Hk]; [by eexists|].
  destruct (affine_checked _ _ _ _ Hall _ _ _ Hi Hs) as (_ & _ & t & post & He & Hres & Hsucc).
  destruct (Hsucc k Hk) as (_ & marks & Hst). eexists. split; [exact Hst|]. simpl.
  rewrite <- (eo_scopes _ _ _ _ (affine_effect_ok _ _ _ _ _ (Harity _ _ Hi) He)).
  unfold affine_result in Hres. destruct (instruction_destination i); [|by injection Hres as <-].
  apply bind_Some in Hres as ([] & _ & [= <-]); done.
Qed.

(** C20. Task scopes are well bracketed.  On every path of an accepted function a scope
    exit closes the innermost open scope, a spawned task joins the innermost open
    scope (or none, scope 0), and a return finds all scopes closed. *)
Theorem task_scopes_bracketed (tools : option (list ToolVerificationContract))
    (templates : option (list TemplateResource)) (module : Module_) (function_index : nat)
    (function : Function) (initialized : list (option (list bool))) (k : nat) (scopes : list nat)
    (i : Instruction) :
  verify_cfg_function tools templates module function_index function = Some (Ok initialized) →
  scoped_path (fn_code function) k scopes → fn_code function !! k = Some i →
  (∀ scope, i = TaskScopeExit scope → last scopes = Some scope)
  ∧ (∀ destination future scope, i = Spawn destination future scope →
       scope = default 0%nat (last scopes))
  ∧ ∀ source, i = Return_ source → scopes = [].
Proof.
  intros Hv Hp Hi. destruct (affine_states _ _ _ _ _ _ Hv) as (states & initial & H0 & Hsc & Hall).
  destruct (affine_scopes _ _ _ _ _ _ _ Hall (accepted_arity _ _ _ _ _ _ Hv) H0 Hsc Hp)
    as (s & Hs & <-).
  destruct (affine_checked _ _ _ _ Hall _ _ _ Hi Hs) as (_ & _ & t & _ & He & _).
  split_and!.
  - intros scope ->. by apply (affine_scope_exit_ok function) in He as [_ ?].
  - intros d f scope ->. cbn [affine_effect] in He. unfold affine_spawn in He.
    by destruct (Nat.eqb_spec scope (default 0%nat (last (os_scopes s)))).
  - intros source ->. cbn [affine_effect] in He. unfold affine_return in He.
    by case_bool_decide.
Qed.

(** ** Sub-agents *)

(** The edges of an instruction with the registers they bind. *)
Definition binding_edges (index : nat) (i : Instruction) : list (nat * list Register) :=
  match i with
  | SwitchEnum _ arms => map (λ arm, (arm_target arm, arm_bindings arm)) arms
  | _ => map (λ target, (target, [])) (successors_of index i)
  end.

(** An edge on which the register keeps its value. *)
Definition kept (code : list Instruction) (r : Register) (j k : nat) : Prop :=
  ∃ i bindings, code !! j = Some i ∧ (k, bindings) ∈ binding_edges j i ∧ (r ∉ bindings)
    ∧ instruction_destination i ≠ Some r.

Section SubAgentLemmas.
Variable function : Function.

(** The sub-agent in the register, if available, belongs to the scope. *)
Definition confined (scope : nat) (s : SubAgentState) (r : Register) : Prop :=
∀ x p, sa_registers s !! r = Some (Available x p) → x = scope.
Definition withdrawn (s : SubAgentState) (r : Register) : Prop :=
∀ x p, sa_registers s !! r ≠ Some (Available x p).

Lemma bind_keeps source bindings s s' r :
bind_sub_agents function source bindings s = Some s' → r ∉ bindings →
sa_registers s' !! r = sa_registers s !! r ∧ sa_scopes s' = sa_scopes s.
Proof.
revert s. induction bindings as [|b bindings IH]; intros s Hb Hr; cbn [bind_sub_agents] in Hb.
{ by injection Hb as <-. }
apply not_elem_of_cons in Hr as [Hne Hr]. apply bind_Some in Hb as (stored & _ & Hb).
destruct stored; [|by apply IH]. apply bind_Some in Hb as (a & _ & Hb).
destruct (IH _ Hb Hr) as [H1 H2]. simpl in H1, H2. by rewrite list_lookup_insert_ne in H1.
Qed.

(** The scopes part of the transfer: availability only goes away. *)
Lemma scopes_withdraw i s s' r :
sub_agent_scopes i s = Ok s' →
sa_scopes s' = scopes_after i (sa_scopes s)
∧ (∀ x p, sa_registers s' !! r = Some (Available x p) → sa_registers s !! r = Some (Available x p))
∧ ∀ scope, i = TaskScopeExit scope → ∀ x p, sa_registers s' !! r = Some (Available x p) → x ≠ scope.
Proof.
destruct i; try (intros [= <-]; by split_and!).
unfold sub_agent_scopes, pop. case_bool_decide; [|done]. simpl. intros [= <-]. simpl.
assert (∀ x p, map (λ a, match a with
                       | Available origin _ => if Nat.eqb origin scope then Unavailable else a
                       | Unavailable => a end) (sa_registers s) !! r = Some (Available x p) →
        sa_registers s !! r = Some (Available x p) ∧ x ≠ scope) as Hx.
{ intros x p Hr. rewrite list_lookup_fmap in Hr. destruct (sa_registers s !! r) as [a|]; [|done].
simpl in Hr. injection Hr as Hr. destruct a as [|o q]; [done|].
destruct (Nat.eqb_spec o scope); simplify_eq; done. }
split_and!; [done|by intros; eapply Hx|]. intros sc [= <-] x p Hr. by eapply Hx.
Qed.

(** What a kept edge does to the register. *)
Lemma sub_agent_edge j i s edges k bindings r :
sub_agent_transfer function j i s = Some (Ok edges) → (k, bindings) ∈ binding_edges j i →
r ∉ bindings → ∃ s', (k, s') ∈ edges ∧ sa_scopes s' = scopes_after i (sa_scopes s)
∧ (instruction_destination i ≠ Some r →
   (∀ x p, sa_registers s' !! r = Some (Available x p) → sa_registers s !! r = Some (Available x p))
   ∧ ∀ scope, i = TaskScopeExit scope → ∀ x p, sa_registers s' !! r = Some (Available x p) → x ≠ scope).
Proof.
intros Ht Hk Hr. unfold sub_agent_transfer in Ht.
destruct (sub_agent_sources _ _ _) as [[[]|]|]; try done.
destruct (sub_agent_scopes i s) as [s1|] eqn:Hs1; [|done].
destruct (scopes_withdraw _ _ _ r Hs1) as (Hsc & Hw & Hexit).
destruct (sub_agent_destination _ _ _ _) as [[s2|]|] eqn:Hs2; try done.
assert (sa_scopes s2 = scopes_after i (sa_scopes s)
∧ (instruction_destination i ≠ Some r → sa_registers s2 !! r = sa_registers s1 !! r)) as [Hsc2 Hd].
{ unfold sub_agent_destination in Hs2. destruct (instruction_destination i) as [d|];
  [|by injection Hs2 as <-].
apply bind_Some in Hs2 as (stored & _ & Hs2). destruct stored; [|by injection Hs2 as <-].
destruct (sub_agent_result_availability _ _ _ _) as [[a|]|]; try done. injection Hs2 as <-.
split; [done|]. intros Hne. simpl. rewrite list_lookup_insert_ne; [done|congruence]. }
assert (∀ s', sa_registers s' !! r = sa_registers s2 !! r → sa_scopes s' = sa_scopes s2 →
sa_scopes s' = scopes_after i (sa_scopes s)
∧ (instruction_destination i ≠ Some r →
   (∀ x p, sa_registers s' !! r = Some (Available x p) → sa_registers s !! r = Some (Available x p))
   ∧ ∀ scope, i = TaskScopeExit scope → ∀ x p, sa_registers s' !! r = Some (Available x p) → x ≠ scope))
as Hsame.
{ intros s' Hs' Hss'. split; [congruence|]. intros Hne. rewrite Hs', (Hd Hne). by split. }
destruct i; try (injection Ht as <-; apply list_elem_of_In, in_map_iff in Hk as (t & [= <- <-] & Hk);
exists s2; split;
  [apply list_elem_of_In; exact (in_map (λ target, (target, s2)) _ _ Hk)|by apply Hsame]).
apply bind_Some in Ht as (edges' & Hm & [= <-]). apply mapM_Some in Hm.
apply list_elem_of_In, in_map_iff in Hk as (arm & [= <- <-] & Harm).
apply list_elem_of_In, list_elem_of_lookup_1 in Harm as [n Hn].
destruct (Forall2_lookup_l _ _ _ _ _ Hm Hn) as ([k' s'] & Hn' & He).
apply bind_Some in He as (s3 & Hb & [= -> ->]). destruct (bind_keeps _ _ _ _ _ Hb Hr) as [H1 H2].
exists s'. split; [by eapply list_elem_of_lookup_2|]. by apply Hsame.
Qed.

Lemma normalize_available marks s r x p :
sa_registers (normalize_uninitialized_sub_agents function marks s) !! r = Some (Available x p) →
sa_registers s !! r = Some (Available x p).
Proof.
simpl. rewrite list_lookup_imap. destruct (sa_registers s !! r) as [a|]; [|done]. simpl.
intros [= Ha]. repeat case_match; simplify_eq; done.
Qed.

Lemma read_available s sources r :
sub_agent_sources function s sources = Some (Ok tt) → r ∈ sources →
stores_sub_agent function r = Some true → ¬ withdrawn s r.
Proof.
intros Hs Hr Ha. induction sources as [|source sources IH]; [by apply elem_of_nil in Hr|].
cbn [sub_agent_sources] in Hs. apply bind_Some in Hs as (stored & Hst & Hs).
apply elem_of_cons in Hr as [->|Hr].
- rewrite Ha in Hst. injection Hst as <-. apply bind_Some in Hs as (a & Hl & Hs).
destruct a as [|x p]; [done|]. intros Hw. by destruct (Hw x p).
- destruct stored; [|by apply IH]. apply bind_Some in Hs as (a & Hl & Hs).
destruct (is_available a); [by apply IH|done].
Qed.
End SubAgentLemmas.

Section SubAgentSteps.
Context (function : Function) (initialized : list (option (list bool))).
Context (states : list (option SubAgentState)).
Abbreviation code := (fn_code function) (only parsing).
Hypothesis Hagrees : ∀ j, agrees_at (sub_agent_transfer function)
(λ state, existsb is_available (sa_registers state))
(λ target state, marks ← mjoin (initialized !! target);
 Some (normalize_uninitialized_sub_agents function marks state)) code states j.

(** The recorded state after an edge. *)
Lemma sub_agent_step j i s k bindings r :
code !! j = Some i → states !! j = Some (Some s) → (k, bindings) ∈ binding_edges j i →
(r ∉ bindings) →
∃ s', states !! k = Some (Some s') ∧ sa_scopes s' = scopes_after i (sa_scopes s)
∧ (instruction_destination i ≠ Some r →
   (∀ x p, sa_registers s' !! r = Some (Available x p) → sa_registers s !! r = Some (Available x p))
   ∧ ∀ scope, i = TaskScopeExit scope → ∀ x p, sa_registers s' !! r = Some (Available x p) → x ≠ scope).
Proof using Hagrees.
intros Hi Hs Hk Hr. destruct (Hagrees j i s Hi Hs) as (edges & Ht & Hall).
destruct (sub_agent_edge _ _ _ _ _ _ _ r Ht Hk Hr) as (post & Hin & Hsc & Hpost).
rewrite Forall_forall in Hall. destruct (Hall _ Hin) as (_ & s' & Hn & Hst).
apply bind_Some in Hn as (marks & _ & [= <-]). eexists. split; [exact Hst|]. split; [done|].
intros Hd. destruct (Hpost Hd) as [H1 H2]. split.
- intros x p Hx%normalize_available. by apply H1.
- intros scope He x p Hx%normalize_available. by eapply H2.
Qed.

Lemma kept_confined scope j k s r :
rtc (kept code r) j k → states !! j = Some (Some s) → confined scope s r →
∃ s', states !! k = Some (Some s') ∧ confined scope s' r.
Proof using Hagrees.
intros Hjk. revert s. induction Hjk as [j|j m k (i & bs & Hi & Hm & Hr & Hd) _ IH]; intros s Hs Hc.
{ by exists s. }
destruct (sub_agent_step _ _ _ _ _ r Hi Hs Hm Hr) as (s' & Hs' & _ & Hkeep).
apply (IH s' Hs'). intros x p Hx. destruct (Hkeep Hd) as [H1 _]. by eapply Hc, H1.
Qed.

Lemma kept_withdrawn j k s r :
rtc (kept code r) j k → states !! j = Some (Some s) → withdrawn s r →
∃ s', states !! k = Some (Some s') ∧ withdrawn s' r.
Proof using Hagrees.
intros Hjk. revert s. induction Hjk as [j|j m k (i & bs & Hi & Hm & Hr & Hd) _ IH]; intros s Hs Hc.
{ by exists s. }
destruct (sub_agent_step _ _ _ _ _ r Hi Hs Hm Hr) as (s' & Hs' & _ & Hkeep).
apply (IH s' Hs'). intros x p Hx. destruct (Hkeep Hd) as [H1 _]. by eapply Hc, H1.
Qed.

Lemma exit_withdraws scope j k s r :
code !! j = Some (TaskScopeExit scope) → kept code r j k → states !! j = Some (Some s) →
confined scope s r → ∃ s', states !! k = Some (Some s') ∧ withdrawn s' r.
Proof using Hagrees.
intros Hj (i & bs & Hi & Hm & Hr & Hd) Hs Hc. rewrite Hj in Hi. injection Hi as <-.
destruct (sub_agent_step _ _ _ _ _ r Hj Hs Hm Hr) as (s' & Hs' & _ & Hkeep).
exists s'. split; [done|]. intros x p Hx. destruct (Hkeep Hd) as [H1 H2].
apply (H2 scope eq_refl x p Hx). by eapply Hc, H1.
Qed.

(** A scoped path has recorded states with its scopes. *)
Lemma sub_agent_scopes_on_path initial k scopes :
states !! 0%nat = Some (Some initial) → sa_scopes initial = [] → scoped_path code k scopes →
∃ s, states !! k = Some (Some s) ∧ sa_scopes s = scopes.
Proof using Hagrees.
intros H0 Hsc. induction 1 as [|j i k scopes _ (s & Hs & <-) Hi Hk]; [by eexists|].
assert (∃ bindings, (k, bindings) ∈ binding_edges j i) as [bindings Hb].
{ destruct i; try (exists []; apply list_elem_of_In in Hk; apply list_elem_of_In;
  exact (in_map (λ target, (target, [])) _ _ Hk)).
apply list_elem_of_In, in_map_iff in Hk as (arm & <- & Hk). exists (arm_bindings arm).
apply list_elem_of_In. exact (in_map (λ arm, (arm_target arm, arm_bindings arm)) _ _ Hk). }
set (fresh := fresh (list_to_set bindings : gset nat)).
destruct (sub_agent_step _ _ _ _ _ fresh Hi Hs Hb) as (s' & Hs' & Hsc' & _); [|by exists s'].
intros Hin. apply (is_fresh (list_to_set bindings : gset nat)). by apply elem_of_list_to_set.
Qed.

(** Creating a sub-agent makes it belong to the innermost scope. *)
Lemma create_confined j arguments r scope s k :
code !! j = Some (EffectCall r SubAgentCreate arguments) →
stores_sub_agent function r = Some true → states !! j = Some (Some s) →
last (sa_scopes s) = Some scope → k ∈ successors_of j (EffectCall r SubAgentCreate arguments) →
∃ s', states !! k = Some (Some s') ∧ confined scope s' r.
Proof using Hagrees.
intros Hi Hst Hs Hsc Hk. destruct (Hagrees j _ s Hi Hs) as (edges & Ht & Hall).
unfold sub_agent_transfer in Ht. destruct (sub_agent_sources _ _ _) as [[[]|]|]; try done.
simpl in Ht. unfold sub_agent_destination in Ht. simpl in Ht. rewrite Hst in Ht. simpl in Ht.
injection Ht as <-. apply Forall_cons in Hall as [(_ & s' & Hn & Hst') _]. simpl in Hn, Hst'.
apply list_elem_of_singleton in Hk as ->. exists s'. split; [done|].
apply bind_Some in Hn as (marks & _ & [= <-]). intros x p Hx%normalize_available. simpl in Hx.
rewrite Hsc in Hx. simpl in Hx.
apply list_lookup_insert_Some in Hx as [(_ & [= <- _] & _)|[Hne _]]; done.
Qed.
End SubAgentSteps.

(** Sub-agents stay in their scope.  In a function that the verifier accepts, a
    sub-agent is created at [j] with [scope] as the innermost open scope, and
    its future is left in [r].  On a path that keeps the register, reaches the exit
    of that scope and goes on, no instruction reads the register. *)
Theorem sub_agents_confined (tools : option (list ToolVerificationContract))
    (templates : option (list TemplateResource)) (module : Module_) (function_index : nat)
    (function : Function) (initialized : list (option (list bool))) (j exit_ after k : nat)
    (scopes : list nat) (scope : nat) (arguments : list Register) (r : Register) (i' : Instruction) :
  verify_cfg_function tools templates module function_index function = Some (Ok initialized) →
  scoped_path (fn_code function) j scopes → last scopes = Some scope →
  fn_code function !! j = Some (EffectCall r SubAgentCreate arguments) →
  stores_sub_agent function r = Some true →
  rtc (kept (fn_code function) r) (S j) exit_ →
  fn_code function !! exit_ = Some (TaskScopeExit scope) →
  kept (fn_code function) r exit_ after → rtc (kept (fn_code function) r) after k →
  fn_code function !! k = Some i' → r ∉ instruction_sources i'.
Proof.
  intros Hv Hp Hsc Hj Hst Hto Hexit Hafter Hrest Hi' Hread.
  unfold verify_cfg_function in Hv. destruct (verify_cfg _ _ _ _ _) as [[marks|]|]; try done.
  destruct (verify_sub_agent_cfg _ _ _) as [[states|]|] eqn:Ha; try done. clear Hv.
  unfold verify_sub_agent_cfg in Ha.
  destruct (existsb contains_stored_sub_agent (fn_registers function)) eqn:Hany; simpl in Ha.
  2: { unfold stores_sub_agent in Hst. apply bind_Some in Hst as (t & Ht & [= Hst]).
       assert (existsb contains_stored_sub_agent (fn_registers function) = true); [|congruence].
       apply existsb_exists. exists t. split; [|done].
       apply list_elem_of_In. by eapply list_elem_of_lookup_2. }
  apply bind_Some in Ha as (registers & _ & Ha). apply flow_agrees in Ha as [H0 Hall].
  destruct (sub_agent_scopes_on_path _ _ _ Hall _ _ _ H0 eq_refl Hp) as (s & Hs & <-).
  destruct (create_confined _ _ _ Hall _ _ _ _ _ (S j) Hj Hst Hs Hsc) as (s1 & Hs1 & Hc1); [by left|].
  destruct (kept_confined _ _ _ Hall _ _ _ _ _ Hto Hs1 Hc1) as (s2 & Hs2 & Hc2).
  destruct (exit_withdraws _ _ _ Hall _ _ _ _ _ Hexit Hafter Hs2 Hc2) as (s3 & Hs3 & Hw3).
  destruct (kept_withdrawn _ _ _ Hall _ _ _ _ Hrest Hs3 Hw3) as (s4 & Hs4 & Hw4).
  destruct (Hall k i' s4 Hi' Hs4) as (edges & Ht & _). unfold sub_agent_transfer in Ht.
  destruct (sub_agent_sources _ _ _) as [[[]|]|] eqn:Hsrc; try done. by eapply read_available.
Qed.

(** ** A function with effects

    It creates a sub-agent in a task scope, leaves the scope, sends a message to the
    agent and returns when the message is delivered. *)
Definition agent_function : Function := {|
  fn_name := "notify"; fn_parameters := [0; 1; 2]%nat;
  fn_parameter_names := ["prompt"; "projection"; "text"];
  fn_parameter_default_digests := [None; None; None]; fn_captures := [];
  fn_registers := [prompt_type TUnit; sub_agent_projection_type; TString;
                   TFuture (TResult TSubAgent sub_agent_error_type);
                   TFuture (TResult TUnit agent_error_type);
                   TResult TSubAgent sub_agent_error_type; TResult TUnit agent_error_type; TUnit];
  fn_return_type := TUnit; fn_effects := 0%nat;
  fn_code := [TaskScopeEnter 1; EffectCall 3 SubAgentCreate [0; 1]; Await 5 3; TaskScopeExit 1;
              EffectCall 4 AgentMessage [2]; Await 6 4; Const 7 0; Return_ 7]%nat |}.

Definition agent_module : Module_ := {|
  constants := [CUnit]; enum_types := []; effect_sets := [["agent.message"; "sub_agent.create"]];
  functions := [agent_function]; async_functions := [0%nat]; entry := 0 |}.

Lemma agent_path n : (n <= 7)%nat → cfg_path (fn_code agent_function) n (rev (seq 0 (S n))).
Proof.
  intros Hn. induction n as [|n IH]; [constructor|]. rewrite seq_S, rev_app_distr. simpl.
  specialize (IH ltac:(lia)).
  do 7 (destruct n as [|n]; [eapply cp_step; [exact IH|reflexivity|by left]|]). lia.
Qed.

Lemma agent_edge n i : fn_code agent_function !! n = Some i → (n < 7)%nat → successors_of n i = [S n].
Proof. intros Hi Hn. do 7 (destruct n as [|n]; [by injection Hi as <-|]). lia. Qed.

(** The future of the message is read by the await at 5 and not after it. *)
Lemma affine_used_once_witness : 4%nat ∉ instruction_sources (Return_ 7).
Proof.
  destruct (verify_cfg_function None None agent_module 0 agent_function) as [[states|]|] eqn:Hv;
    [|vm_compute in Hv; discriminate Hv..].
  apply (affine_used_once None None agent_module 0 agent_function states 5 7 (rev (seq 0 6))
           (Await 6 4) (Return_ 7) 4 (TFuture (TResult TUnit agent_error_type)));
    [exact Hv|apply (agent_path 5); lia|reflexivity..| |reflexivity].
  eapply tc_l; [|apply tc_once].
  - exists (Await 6 4). split_and!; [done|by left|done].
  - exists (Const 7 0). split_and!; [done|by left|done].
Defined.


Lemma agent_scoped : scoped_path (fn_code agent_function) 3 [1%nat].
Proof.
  eapply (sp_step _ 2 (Await 5 3) 3 [1%nat]); [|done|by left].
  eapply (sp_step _ 1 (EffectCall 3 SubAgentCreate [0; 1]%nat) 2 [1%nat]); [|done|by left].
  eapply (sp_step _ 0 (TaskScopeEnter 1) 1 []); [constructor|done|by left].
Qed.

(** The scope is open at its exit. *)
Lemma task_scopes_bracketed_witness :
  (∀ scope, TaskScopeExit 1 = TaskScopeExit scope → last [1%nat] = Some scope)
  ∧ (∀ destination future scope, TaskScopeExit 1 = Spawn destination future scope →
       scope = default 0%nat (last [1%nat]))
  ∧ ∀ source, TaskScopeExit 1 = Return_ source → [1%nat] = [].
Proof.
  destruct (verify_cfg_function None None agent_module 0 agent_function) as [[states|]|] eqn:Hv;
    [|vm_compute in Hv; discriminate Hv..].
  eapply (task_scopes_bracketed None None agent_module 0 agent_function states 3 [1%nat]);
    [exact Hv|apply agent_scoped|reflexivity].
Defined.

(** The future of the sub-agent is not read after the scope. *)
Lemma sub_agents_confined_witness : 3%nat ∉ instruction_sources (Return_ 7).
Proof.
  assert (∀ j i, (2 <= j < 7)%nat → fn_code agent_function !! j = Some i →
            kept (fn_code agent_function) 3 j (S j)) as Hkept.
  { intros j i Hj Hi. exists i, []. split; [done|].
    destruct Hj as [Hge Hlt]. do 7 (destruct j as [|j]; [first [lia | injection Hi as <-;
      split_and!; [by left|apply not_elem_of_nil|done]]|]). lia. }
  destruct (verify_cfg_function None None agent_module 0 agent_function) as [[states|]|] eqn:Hv;
    [|vm_compute in Hv; discriminate Hv..].
  eapply (sub_agents_confined None None agent_module 0 agent_function states 1 3 4 7 [1%nat] 1
            [0; 1]%nat 3 (Return_ 7)); [exact Hv| |reflexivity..| |reflexivity| | |reflexivity].
  - eapply (sp_step _ 0 (TaskScopeEnter 1) 1 []); [constructor|reflexivity|by left].
  - apply rtc_once. eapply Hkept; [lia|reflexivity].
  - eapply Hkept; [lia|reflexivity].
  - eapply rtc_l; [eapply (Hkept 4%nat); [lia|reflexivity]|].
    eapply rtc_l; [eapply (Hkept 5%nat); [lia|reflexivity]|].
    apply rtc_once. eapply (Hkept 6%nat); [lia|reflexivity].
Defined.
