(* ===== verification/VerifierModule.v ===== *)
(** * The verifier of a module ([verify_internal])

    The checks of a module in their order: the tables, the async functions, the
    entry, and every function in turn.  An accepted module satisfies what the
    checks of its parts promise.  A module can make the verifier panic: a call is
    checked against the layout of a function that has not been checked itself. *)

From S2P Require Import Prelude Text Bytecode VmValue VerifierTypes VerifierRules Verifier.
From S2P Require Import VerifierEnums VerifierFlow VerifierLoops VerifierOwnership.
Open Scope string_scope.
Open Scope Z_scope.

Section Module.
Context (module : Module_).
Context (tool_contracts : option (list ToolVerificationContract)).
Context (templates : option (list TemplateResource)).

(** [windows(2).all(|pair| pair[0] < pair[1])] and the last one in range. *)
Definition async_ids_ok (ids : list FunctionId) (count : nat) : bool :=
negb (windows2_any (λ a b, Nat.leb b a) ids)
&& match last ids with Some id => Nat.ltb id count | None => true end.

Definition verify_entry : result VerifyError unit :=
match functions module !! entry module with
| None => Err (VerifyError_module "entry function is out of range")
| Some f =>
if negb (bool_decide (fn_captures f = []))
then Err (VerifyError_module "entry function cannot have captures")
else if is_affine_type (fn_return_type f)
then Err (VerifyError_module "entry function cannot return Future or Task")
else Ok tt
end.

Definition verify_symbols (seen : list string) (f : Function) : result VerifyError unit :=
if negb (is_canonical_function_symbol (fn_name f))
then Err (VerifyError_module "function symbol is not canonical")
else if existsb (String.eqb (fn_name f)) seen
then Err (VerifyError_module "function symbols must be unique")
else if negb (Nat.eqb (length (fn_parameter_names f)) (length (fn_parameters f)))
      || existsb (λ name, negb (is_source_identifier name)) (fn_parameter_names f)
then Err (VerifyError_module
          "function parameter names must be canonical and match parameter arity")
else if negb (Nat.eqb (length (fn_parameter_default_digests f)) (length (fn_parameters f)))
then Err (VerifyError_module "function parameter default digests must match parameter arity")
else Ok tt.

(** The loop over the functions; [seen] is the set of the names before. *)
Fixpoint verify_functions (seen : list string) (index : nat) (functions : list Function)
: option (result VerifyError unit) :=
match functions with
| [] => Some (Ok tt)
| f :: rest =>
try* Some (verify_symbols seen f) in
try* Some (verify_function_layout module f) in
try* verify_cfg_function tool_contracts templates module index f in
verify_functions (fn_name f :: seen) (S index) rest
end.

Definition verify_internal : option (result VerifyError unit) :=
try* Some (verify_constants (constants module)) in
try* Some (verify_effect_sets (effect_sets module)) in
try* verify_enum_types module in
if u32_max <? Z.of_nat (length (functions module))
then Some (Err (VerifyError_module "function table is too large"))
else if negb (async_ids_ok (async_functions module) (length (functions module)))
then Some (Err (VerifyError_module "async function IDs must be unique, sorted, and in range"))
else
try* Some verify_entry in
verify_functions [] 0 (functions module).
End Module.

(** ** Lemmas: accepted modules *)

Lemma verify_functions_ok module tools templates seen first fs u k f :
  verify_functions module tools templates seen first fs = Some (Ok u) → fs !! k = Some f →
  (∃ v, verify_function_layout module f = Ok v)
  ∧ ∃ states, verify_cfg_function tools templates module (first + k) f = Some (Ok states).
Proof.
  revert seen first k. induction fs as [|g fs IH]; intros seen first k Hv Hk; [done|].
  cbn [verify_functions] in Hv. destruct (verify_symbols seen g); [|done].
  destruct (verify_function_layout module g) as [v|] eqn:Hl; [|done].
  destruct (verify_cfg_function _ _ _ _ g) as [[states|]|] eqn:Hc; try done.
  destruct k as [|k]; simpl in Hk.
  - injection Hk as <-. rewrite Nat.add_0_r. eauto.
  - destruct (IH _ _ _ Hv Hk) as [? ?]. by replace (first + S k)%nat with (S first + k)%nat by lia.
Qed.

Lemma internal_functions module tools templates u id f :
  verify_internal module tools templates = Some (Ok u) → functions module !! id = Some f →
  (∃ v, verify_function_layout module f = Ok v)
  ∧ ∃ states, verify_cfg_function tools templates module id f = Some (Ok states).
Proof.
  unfold verify_internal. intros Hv Hf.
  destruct (verify_constants _); [|done]. destruct (verify_effect_sets _); [|done].
  destruct (verify_enum_types module) as [[nesting|]|]; try done.
  destruct (_ <? _); [done|]. destruct (negb _); [done|]. destruct (verify_entry module); [|done].
  by destruct (verify_functions_ok _ _ _ _ _ _ _ id f Hv Hf).
Qed.

(** Every function of an accepted module passes the checks that soundness needs. *)
Lemma internal_function module tools templates u id f :
  verify_internal module tools templates = Some (Ok u) → functions module !! id = Some f →
  ∃ states, verify_function tools templates module id f = Some (Ok states).
Proof.
  intros Hv Hf. destruct (internal_functions _ _ _ _ _ _ Hv Hf) as [[v Hl] [states Hc]].
  exists states. unfold verify_function. rewrite Hl. unfold verify_cfg_function in Hc.
  destruct (verify_cfg _ _ _ _ _) as [[s|]|]; try done.
  repeat (case_match; try discriminate Hc). by injection Hc as <-.
Qed.

(** The nesting of the values of a register is inside the limit. *)
Lemma internal_nesting module tools templates u id f r t v :
  verify_internal module tools templates = Some (Ok u) → functions module !! id = Some f →
  fn_registers f !! r = Some t → has_type module v t = true →
  (nesting v <= MAX_VALUE_NESTING)%nat.
Proof.
  unfold verify_internal. intros Hv Hf Hr Ht.
  destruct (verify_constants _); [|done]. destruct (verify_effect_sets _); [|done].
  destruct (verify_enum_types module) as [[table|]|] eqn:He; try done. clear Hv.
  destruct (enum_types_table _ _ He) as [Htable Hexp]. unfold verify_expanded_module_types in Hexp.
  destruct (for_each _ (enum_types module)); [|done]. apply for_each_ok in Hexp.
  rewrite Forall_forall in Hexp. specialize (Hexp f (list_elem_of_lookup_2 _ _ _ Hf)).
  unfold expanded_function in Hexp. destruct (for_each _ (fn_registers f)) as [[]|] eqn:Hfs; [|done].
  apply for_each_ok in Hfs. rewrite Forall_forall in Hfs.
  destruct (expanded_type_depth table t 0 tt (Hfs t (list_elem_of_lookup_2 _ _ _ Hr))) as (k & Hk & Hle).
  pose proof (typed_nesting module table v t k Htable Ht Hk). lia.
Qed.

(** ** Claims *)

(** [main] calls a function with a parameter in a register it does not have. *)
Definition unchecked_callee_module : Module_ := {|
  constants := [CInt 0]; enum_types := []; effect_sets := [[]];
  functions :=
    [{| fn_name := "main"; fn_parameters := []; fn_parameter_names := [];
        fn_parameter_default_digests := []; fn_captures := [];
        fn_registers := [TInt; TInt]; fn_return_type := TInt; fn_effects := 0%nat;
        fn_code := [Const 0 0; DirectCall 1 1 [0]; Return_ 1]%nat |};
     {| fn_name := "callee"; fn_parameters := [7%nat]; fn_parameter_names := ["x"];
        fn_parameter_default_digests := [None]; fn_captures := [];
        fn_registers := [TInt]; fn_return_type := TInt; fn_effects := 0%nat;
        fn_code := [Return_ 0]%nat |}];
  async_functions := []; entry := 0%nat |}.

(** The same call when the callee comes first. *)
Definition checked_callee_module : Module_ := {|
  constants := constants unchecked_callee_module; enum_types := [];
  effect_sets := effect_sets unchecked_callee_module;
  functions := map (λ f, {|
    fn_name := fn_name f; fn_parameters := fn_parameters f;
    fn_parameter_names := fn_parameter_names f;
    fn_parameter_default_digests := fn_parameter_default_digests f;
    fn_captures := []; fn_registers := fn_registers f; fn_return_type := fn_return_type f;
    fn_effects := fn_effects f;
    fn_code := map (λ i, match i with DirectCall d _ l => DirectCall d 0 l | _ => i end) (fn_code f)
  |}) (rev (functions unchecked_callee_module));
  async_functions := []; entry := 1%nat |}.

