(* ===== verification/VmStep.v ===== *)
(** * Execution of a task ([crates/allen-vm/src/lib.rs], [step])

    The instruction set on the stack of frames of one task: the budget is charged,
    the program counter advances, and the instruction reads and writes the
    registers of the running frame, branches, ends the frame, or calls.  Folds and
    combinators over lists suspend at their instruction between the calls of their
    callback.  The instructions that need the scheduler, sequences, the host,
    templates, JSON or floating-point text are outside this model ([exec] answers
    [None]). *)

From Stdlib Require Import SpecFloat.
From S2P Require Import Prelude Text Bytecode VmBudget VmValue VmTime VmOps VerifierTypes.
From S2P Require Import VerifierRules.
Open Scope string_scope.
Open Scope Z_scope.

(** [PendingFold]: a list fold between two calls of its callback. *)
Record PendingFold := {
  pf_instruction : nat;
  pf_destination : Register;
  pf_values : list Value;
  pf_callback : FunctionId * list Value;
  pf_index : nat
}.

(** [PendingListCombinator]. *)
Record PendingListCombinator := {
  pc_instruction : nat;
  pc_operation : ListCombinator;
  pc_values : list Value;
  pc_callback : FunctionId * list Value;
  pc_callback_result : Register;
  pc_index : nat;
  pc_current : option Value;
  pc_accumulator : option Value;
  pc_output : list Value;
  pc_rest : list Value;
  pc_answer : option bool;
  pc_waiting : bool
}.

(** [MachineFrame], without the state of a sequence. *)
Record MachineFrame := {
  mf_function : FunctionId;
  mf_registers : Registers;
  mf_program_counter : nat;
  mf_activation : Z;
  mf_active_scopes : list nat;
  mf_continuation : option Register;
  mf_fold : option PendingFold;
  mf_combinator : option PendingListCombinator
}.

Definition set_registers (f : MachineFrame) (registers : Registers) : MachineFrame :=
  {| mf_function := mf_function f; mf_registers := registers;
     mf_program_counter := mf_program_counter f; mf_activation := mf_activation f;
     mf_active_scopes := mf_active_scopes f; mf_continuation := mf_continuation f;
     mf_fold := mf_fold f; mf_combinator := mf_combinator f |}.
Definition set_pc (f : MachineFrame) (pc : nat) : MachineFrame :=
  {| mf_function := mf_function f; mf_registers := mf_registers f; mf_program_counter := pc;
     mf_activation := mf_activation f; mf_active_scopes := mf_active_scopes f;
     mf_continuation := mf_continuation f; mf_fold := mf_fold f;
     mf_combinator := mf_combinator f |}.
Definition set_fold (f : MachineFrame) (fold : option PendingFold) : MachineFrame :=
  {| mf_function := mf_function f; mf_registers := mf_registers f;
     mf_program_counter := mf_program_counter f; mf_activation := mf_activation f;
     mf_active_scopes := mf_active_scopes f; mf_continuation := mf_continuation f;
     mf_fold := fold; mf_combinator := mf_combinator f |}.
Definition set_combinator (f : MachineFrame) (pending : option PendingListCombinator)
    : MachineFrame :=
  {| mf_function := mf_function f; mf_registers := mf_registers f;
     mf_program_counter := mf_program_counter f; mf_activation := mf_activation f;
     mf_active_scopes := mf_active_scopes f; mf_continuation := mf_continuation f;
     mf_fold := mf_fold f; mf_combinator := pending |}.

(** What an instruction does to its frame: it stays, it ends with a value, or it
    calls a function whose result goes to a register. *)
Inductive Outcome :=
| Continue (f : MachineFrame)
| Returned (v : Value)
| Calls (f : MachineFrame) (callee : FunctionId) (arguments captures : list Value)
    (continuation : Register).

(** ** Floating-point arithmetic *)

Definition f64_sub (a b : Z) : Z := bits_of_sf (SFsub 53 1024 (sf_of_bits a) (sf_of_bits b)).
Definition f64_mul (a b : Z) : Z := bits_of_sf (SFmul 53 1024 (sf_of_bits a) (sf_of_bits b)).
Definition f64_div (a b : Z) : Z := bits_of_sf (SFdiv 53 1024 (sf_of_bits a) (sf_of_bits b)).
Definition f64_neg (a : Z) : Z := bits_of_sf (SFopp (sf_of_bits a)).

(** [z as f64] *)
Definition f64_of_int (z : Z) : Z := bits_of_sf (binary_normalize 53 1024 z 0 false).

Definition float_binary (operation : NumericBinaryOp) (a b : Z) : Z :=
  match operation with
  | Add => f64_add a b
  | Subtract => f64_sub a b
  | Multiply => f64_mul a b
  | Divide => f64_div a b
  end.

(** ** Frames *)

Section Frames.
Context `{Env} (module : Module_).

(** [write_register] over the zipped inputs. *)
Fixpoint write_inputs (registers : Registers) (inputs : list (Register * Value))
: result VmError Registers :=
match inputs with
| [] => Ok registers
| (r, v) :: rest => let? registers := write_register registers r v in write_inputs registers rest
end.

Definition new_machine_frame (function_id : FunctionId) (arguments captures : list Value)
(continuation : option Register) (depth : Z) : M MachineFrame :=
let! function := lift (ok_or (functions module !! function_id)
                       (Invariant_ "function is missing")) in
if negb (Nat.eqb (length arguments) (length (fn_parameters function))
       && Nat.eqb (length captures) (length (fn_captures function)))
then throw (Invariant_ "function input count is invalid")
else
do! (λ b, enter_frame b depth) in
do! charge_size (frame_size (length (fn_registers function))) in
let! registers :=
  lift (let? registers := write_inputs (replicate (length (fn_registers function)) None)
                            (combine (fn_parameters function) arguments) in
        write_inputs registers (combine (fn_captures function) captures)) in
ret {| mf_function := function_id; mf_registers := registers; mf_program_counter := 0;
       mf_activation := depth; mf_active_scopes := []; mf_continuation := continuation;
       mf_fold := None; mf_combinator := None |}.

(** ** Literals with run-time type checks *)

Context {A : Type} `{EqDecision A} (address : Value → A).
Abbreviation Cache := (@MatchCache A) (only parsing).

Definition checked_type (v : Value) (t : ValueType) (message : string) (cache : Cache)
: result VmError unit * Cache :=
match value_matches_type address module v t 0 cache with
| (Ok true, cache) => (Ok tt, cache)
| (Ok false, cache) => (Err (Invariant_ message), cache)
| (Err e, cache) => (Err e, cache)
end.

Fixpoint list_literal (registers : Registers) (element : ValueType) (cache : Cache)
(items : list ListLiteralItem) : result VmError (list Value) :=
match items with
| [] => Ok []
| LElement source :: rest =>
let? value := read_register registers source in
match checked_type value element "list literal element has another type" cache with
| (Err e, _) => Err e
| (Ok _, cache) =>
  let? values := list_literal registers element cache rest in Ok (value :: values)
end
| LSpread source :: rest =>
let? spread := read_register registers source in
match checked_type spread (TList element) "list literal spread contains another type" cache with
| (Err e, _) => Err e
| (Ok _, cache) =>
  match spread with
  | VList spread =>
    let? values := list_literal registers element cache rest in Ok (spread ++ values)%list
  | _ => Err (Invariant_ "list literal spread contains another type")
  end
end
end.

Definition insert_entries (entries spread : list (Value * Value)) : list (Value * Value) :=
fold_left (λ m e, map_literal_insert m e.1 e.2) spread entries.

Fixpoint map_literal (registers : Registers) (key_type value_type : ValueType) (cache : Cache)
(entries : list (Value * Value)) (items : list MapLiteralItem)
: result VmError (list (Value * Value)) :=
match items with
| [] => Ok entries
| MEntry key value :: rest =>
let? key := read_register registers key in
let? value := read_register registers value in
let message := "map literal entry has another type" in
match checked_type key key_type message cache with
| (Err e, _) => Err e
| (Ok _, cache) =>
  match checked_type value value_type message cache with
  | (Err e, _) => Err e
  | (Ok _, cache) =>
    map_literal registers key_type value_type cache (map_literal_insert entries key value) rest
  end
end
| MSpread source :: rest =>
let? spread := read_register registers source in
let message := "map literal spread contains another type" in
match checked_type spread (TMap key_type value_type) message cache with
| (Err e, _) => Err e
| (Ok _, cache) =>
  match spread with
  | VMap spread =>
    map_literal registers key_type value_type cache (insert_entries entries spread) rest
  | _ => Err (Invariant_ message)
  end
end
end.

(** [values.windows(2).any(|pair| language_equal(..))] *)
Definition duplicate_keys (entries : list (Value * Value)) : bool :=
windows2_any (λ p q, language_equal p.1 q.1) entries.

(** ** Instructions *)

Section Exec.
Context (function : Function) (capabilities : list string).

Definition vm_register_type (r : Register) : result VmError ValueType :=
ok_or (fn_registers function !! r) (Invariant_ "register type is missing").

Definition assign (frame : MachineFrame) (destination : Register) (v : Value) : M Outcome :=
let! registers := lift (write_register (mf_registers frame) destination v) in
ret (Continue (set_registers frame registers)).

Section Values.
Variable registers : Registers.
Abbreviation value r := (lift (read_register registers r)) (only parsing).
Abbreviation int r := (lift (read_int registers r)) (only parsing).

Definition exec_const (constant : nat) : M Value :=
let! c := lift (ok_or (constants module !! constant) (Invariant_ "constant is missing")) in
materialize_constant c.

Definition exec_int_binary (left_ right_ : Register) (operation : NumericBinaryOp) : M Value :=
let! l := int left_ in let! r := int right_ in
let! z := lift (int_binary operation l r) in ret (VInt z).

Definition exec_int_remainder (left_ right_ : Register) : M Value :=
let! l := int left_ in let! r := int right_ in
let! z := lift (int_remainder l r) in ret (VInt z).

Definition exec_float_binary (left_ right_ : Register) (operation : NumericBinaryOp) : M Value :=
let! l := lift (read_float registers left_) in
let! r := lift (read_float registers right_) in
ret (VFloat (canonical_float_bits (float_binary operation l r))).

Definition exec_int_negate (source : Register) : M Value :=
let! z := int source in
let! n := lift (ok_or (i64_checked_neg z) ArithmeticOverflow) in
ret (VInt n).

Definition exec_float_negate (source : Register) : M Value :=
let! x := lift (read_float registers source) in
ret (VFloat (canonical_float_bits (f64_neg x))).

Definition exec_compare (left_ right_ : Register) (operation : CompareOp) : M Value :=
let! l := value left_ in let! r := value right_ in
let! b := lift (compare operation l r) in ret (VBool b).

Definition exec_bool_not (source : Register) : M Value :=
let! b := lift (read_bool registers source) in ret (VBool (negb b)).

Definition exec_bool_binary (left_ right_ : Register) (operation : BoolBinaryOp) : M Value :=
let! l := lift (read_bool registers left_) in
let! r := lift (read_bool registers right_) in
ret (VBool match operation with And => l && r | Or => l || r end).

Definition exec_list_new (elements : list Register) : M Value :=
do! charge_size (collection_size (length elements) VALUE_SLOT_BYTES) in
let! values := lift (clone_registers registers elements) in
ret (VList values).

Definition exec_list_literal (destination : Register) (items : list ListLiteralItem) : M Value :=
let! t := lift (vm_register_type destination) in
match t with
| TList element =>
let! values := lift (list_literal registers element [] items) in
do! charge_size (collection_size (length values) VALUE_SLOT_BYTES) in
ret (VList values)
| _ => throw (Invariant_ "list literal build destination contains another type")
end.

Definition exec_range_new (start end_ : Register) (inclusive : bool) : M Value :=
let! s := int start in let! e := int end_ in
ret (VRange {| rv_start := s; rv_end := e; rv_inclusive := inclusive |}).

(** The three projections of a range. *)
Definition exec_range (range : Register) (project : RangeValue → Value) : M Value :=
let! v := value range in
match v with
| VRange x => ret (project x)
| _ => throw (Invariant_ "range projection source is not Range")
end.

Definition exec_map_new (entries : list (Register * Register)) : M Value :=
do! charge_size (collection_size (length entries) MAP_ENTRY_BYTES) in
let! pairs := lift (collect (λ e : Register * Register,
            let? k := read_register registers e.1 in
            let? v := read_register registers e.2 in Ok (k, v)) entries) in
let values := sort_by entry_compare pairs in
if duplicate_keys values then throw DuplicateMapKey else ret (VMap values).

Definition exec_map_literal (destination : Register) (items : list MapLiteralItem) : M Value :=
let! t := lift (vm_register_type destination) in
match t with
| TMap key_type value_type =>
let! entries := lift (map_literal registers key_type value_type [] [] items) in
do! charge_size (collection_size (length entries) MAP_ENTRY_BYTES) in
ret (VMap (sort_by entry_compare entries))
| _ => throw (Invariant_ "map literal build destination contains another type")
end.

Definition exec_tuple_new (elements : list Register) : M Value :=
do! charge_size (collection_size (length elements) VALUE_SLOT_BYTES) in
let! values := lift (clone_registers registers elements) in
ret (VTuple values).

Definition exec_index_get (collection index : Register) : M Value :=
let! c := value collection in let! n := value index in lift (index_get c n).

Definition exec_slice_get (collection start end_ : Register) : M Value :=
let! s := int start in let! e := int end_ in
let! c := value collection in slice_get c s e.

Definition exec_length (collection : Register) : M Value :=
let! c := value collection in
let! n := lift (collection_length c) in ret (VInt n).

Definition exec_tuple_get (tuple : Register) (index : nat) : M Value :=
let! v := value tuple in
match v with
| VTuple values =>
lift (ok_or (values !! index) (Invariant_ "verified tuple index is out of bounds"))
| _ => throw (Invariant_ "tuple operand contains another type")
end.

(** [convert]; the text of a [Float] is outside the model. *)
Definition exec_convert (source : Register) (conversion : Conversion) : option (M Value) :=
let unsupported := throw (Invariant_ "conversion contains unsupported values") in
match read_register registers source with
| Err e => Some (throw e)
| Ok v =>
match conversion, v with
| IntToFloat, VInt z => Some (ret (VFloat (canonical_float_bits (f64_of_int z))))
| ToString, VString s => Some (ret (VString s))
| ToString, VBool b => Some (allocate_string (if b then "true" else "false"))
| ToString, VInt z => Some (allocate_string (int_text z))
| ToString, VFloat _ => None
| StringToBytes, VString s =>
Some (do! charge_size (logical_size 8 (String.length s) 1) in ret (VBytes (bytes s)))
| _, _ => Some unsupported
end
end.

Definition exec_record_new (destination : Register) (fields : list (nat * Register)) : M Value :=
let! t := lift (vm_register_type destination) in
match t with
| TRecord layout =>
do! charge_size (record_size (length layout)) in
let! values := lift (construct_record registers layout fields) in ret (VRecord values)
| _ => throw (Invariant_ "record destination contains another type")
end.

Definition exec_newtype_wrap (destination source : Register) : M Value :=
let! t := lift (vm_register_type destination) in
match t with
| TNewtype name _ =>
do! charge_size (newtype_size (String.length name)) in
let! v := value source in ret (VNewtype name v)
| _ => throw (Invariant_ "newtype destination contains another type")
end.

Definition exec_newtype_unwrap (source : Register) : M Value :=
let! v := value source in
match v with
| VNewtype identity_ inner =>
let! t := lift (vm_register_type source) in
match t with
| TNewtype name _ =>
if String.eqb identity_ name then ret inner
else throw (Invariant_ "newtype source has another identity")
| _ => throw (Invariant_ "newtype source has another register type")
end
| _ => throw (Invariant_ "newtype source contains another type")
end.

Definition exec_field_get (record : Register) (field : nat) : M Value :=
let! v := value record in
match v with
| VRecord fields =>
lift (ok_or (snd <$> fields !! field)
(Invariant_ "verified record field is out of bounds"))
| _ => throw (Invariant_ "record operand contains another type")
end.

Definition exec_enum_new (destination : Register) (variant : nat) (payload : list Register)
: M Value :=
let! t := lift (vm_register_type destination) in
do! charge_size (enum_size (length payload)) in
lift (construct_enum module t variant registers payload).

Definition exec_to_unknown (source : Register) : M Value :=
do! charge VALUE_SLOT_BYTES in
let! v := value source in ret (VUnknown v).

Definition exec_narrow (source : Register) (target : ValueType) : M Value :=
let! v := value source in
match v with
| VUnknown v =>
let! matches := lift (value_matches_type address module v target 0 []).1 in
do! charge_size (enum_size (if matches : bool then 1 else 0)) in
ret (builtin_enum OptionId (if matches then 1 else 0)
(if matches then PTuple [v] else PUnit))
| _ => throw (Invariant_ "Narrow operand contains another type")
end.

(** *** Futures and closures *)

Definition exec_closure_new (callee : FunctionId) (captures : list Register) : M Value :=
do! charge_size (collection_size (length captures) VALUE_SLOT_BYTES) in
let! captures := lift (clone_registers registers captures) in
ret (VClosure callee captures).

Definition exec_async_call (callee : FunctionId) (arguments : list Register) : M Value :=
if negb (is_async module callee) then throw (Invariant_ "async call target is not async")
else
do! charge_size (logical_size FUTURE_BASE_BYTES (length arguments) VALUE_SLOT_BYTES) in
let! arguments := lift (clone_registers registers arguments) in
ret (VFuture (FutureFunction callee arguments)).

Definition is_agent_operation (operation : EffectOperation) : bool :=
match operation with
| AgentMessage | AgentAsk | AgentTranscript | ModelRequest | UserAsk | SubAgentCreate
| SubAgentRun | SubAgentMessage | SubAgentAsk => true
| _ => false
end.

(** [registers[destination]] of the running function, unchecked in the source;
the destination of a verified instruction is in range. *)
Definition exec_effect_call (destination : Register) (operation : EffectOperation)
(arguments : list Register) : M Value :=
do! charge_size (logical_size FUTURE_BASE_BYTES (length arguments) VALUE_SLOT_BYTES) in
let! arguments := lift (clone_registers registers arguments) in
match fn_registers function !! destination with
| Some (TFuture result_type) =>
ret (VFuture (if is_agent_operation operation then FutureAgent operation arguments result_type
      else FutureEffect operation arguments))
| _ => throw (Invariant_ "effect call destination is not a future")
end.

Definition exec_tool_invoke (destination : Register) (tool : nat) (input : Register) : M Value :=
do! charge (FUTURE_BASE_BYTES + VALUE_SLOT_BYTES) in
let! input := value input in
match fn_registers function !! destination with
| Some (TFuture result_type) => ret (VFuture (FutureTool tool input result_type))
| _ => throw (Invariant_ "tool invocation destination is not a future")
end.
End Values.

(** *** Control *)

Definition exec_branch (frame : MachineFrame) (condition : Register)
(true_target false_target : nat) : M Outcome :=
let! b := lift (read_bool (mf_registers frame) condition) in
ret (Continue (set_pc frame (if b : bool then true_target else false_target))).

Definition exec_switch (frame : MachineFrame) (source : Register) (arms : list EnumSwitchArm)
: M Outcome :=
let! v := lift (read_register (mf_registers frame) source) in
match v with
| VEnum _ _ variant _ payload =>
let! arm := lift (ok_or (List.find (λ a, Nat.eqb (arm_variant a) variant) arms)
                (Invariant_ "enum switch has no matching arm")) in
let '(r, registers) := write_switch_bindings (mf_registers frame) payload (arm_bindings arm) in
do! lift r in ret (Continue (set_pc (set_registers frame registers) (arm_target arm)))
| _ => throw (Invariant_ "enum switch operand contains another type")
end.

(** The early returns of [TryResult] and [TryOption]; with an open task scope they
wait for it first, which is outside the model. *)
Definition exec_try_result (frame : MachineFrame) (destination source : Register) : M Outcome :=
let! v := lift (read_register (mf_registers frame) source) in
match v with
| VEnum identity_ _ variant _ payload =>
if negb (bool_decide (identity_ = ResultId))
then throw (Invariant_ "TryResult operand is not Result")
else
match variant, payload with
| 0%nat, PTuple values =>
let! x := lift (ok_or (head values) (Invariant_ "Ok has no payload")) in
assign frame destination x
| 1%nat, PTuple _ => ret (Returned v)
| _, _ => throw (Invariant_ "Result has an invalid payload")
end
| _ => throw (Invariant_ "TryResult operand contains another type")
end.

Definition exec_try_option (frame : MachineFrame) (destination source : Register) : M Outcome :=
let! v := lift (read_register (mf_registers frame) source) in
match v with
| VEnum identity_ _ variant _ payload =>
if negb (bool_decide (identity_ = OptionId))
then throw (Invariant_ "TryOption operand is not Option")
else
match variant, payload with
| 1%nat, PTuple values =>
let! x := lift (ok_or (head values) (Invariant_ "Some has no payload")) in
assign frame destination x
| 0%nat, PUnit => ret (Returned v)
| _, _ => throw (Invariant_ "Option has an invalid payload")
end
| _ => throw (Invariant_ "TryOption operand contains another type")
end.

Definition exec_stop (registers : Registers) (reason : Register) : M Outcome :=
let! v := lift (read_register registers reason) in
match v with
| VString s => throw (Stopped s)
| _ => throw (Invariant_ "stop reason contains another type")
end.

Definition exec_fail (registers : Registers) (reason : Register) : M Outcome :=
let! v := lift (read_register registers reason) in
match v with
| VString s =>
if 2048 <? str_len s then throw (ResourceLimit "failure_reason_bytes")
else throw (ProgramFailed s)
| _ => throw (Invariant_ "fail reason contains another type")
end.

Definition exec_return (frame : MachineFrame) (source : Register) : M Outcome :=
if bool_decide (mf_active_scopes frame = [])
then let! v := lift (read_register (mf_registers frame) source) in ret (Returned v)
else throw (Invariant_ "return left an active task scope").

(** *** Calls *)

Definition exec_direct_call (frame : MachineFrame) (destination : Register)
(callee : FunctionId) (arguments : list Register) : M Outcome :=
let! values := lift (clone_registers (mf_registers frame) arguments) in
ret (Calls frame callee values [] destination).

Definition exec_closure_call (frame : MachineFrame) (destination closure : Register)
(arguments : list Register) : M Outcome :=
let! c := lift (read_register (mf_registers frame) closure) in
match c with
| VClosure callee captures =>
let! values := lift (clone_registers (mf_registers frame) arguments) in
ret (Calls frame callee values captures destination)
| _ => throw (Invariant_ "closure operand contains another type")
end.

(** Awaiting the future of a function is a call; external effects and tasks need
the scheduler. *)
Definition exec_await (frame : MachineFrame) (destination source : Register)
: option (M Outcome) :=
match read_register (mf_registers frame) source with
| Err e => Some (throw e)
| Ok (VFuture (FutureFunction callee arguments)) =>
Some (ret (Calls frame callee arguments [] destination))
| Ok (VFuture _) | Ok (VTask _) => None
| Ok _ => Some (throw (Invariant_ "await operand contains another type"))
end.

(** *** List folds *)

(** The state of the fold at [pc]: the pending one, or a new one with the initial
value in the destination. *)
Definition start_fold (frame : MachineFrame) (pc : nat)
(destination values initial callback : Register) : result VmError MachineFrame :=
let registers := mf_registers frame in
let? v := read_register registers values in
match v with
| VList input =>
let? c := read_register registers callback in
match c with
| VClosure callee captures =>
let? initial := read_register registers initial in
let? registers := write_register registers destination initial in
Ok (set_fold (set_registers frame registers)
    (Some {| pf_instruction := pc; pf_destination := destination; pf_values := input;
             pf_callback := (callee, captures); pf_index := 0 |}))
| _ => Err (Invariant_ "list fold callback is not Closure")
end
| _ => Err (Invariant_ "list fold values are not List")
end.

(** The index never passes the length. *)
Definition fold_next (frame : MachineFrame) (pc : nat) (fold : PendingFold) : M Outcome :=
match pf_values fold !! pf_index fold with
| None => ret (Continue (set_fold frame None))
| Some item =>
let next := {| pf_instruction := pf_instruction fold; pf_destination := pf_destination fold;
           pf_values := pf_values fold; pf_callback := pf_callback fold;
           pf_index := S (pf_index fold) |} in
let! accumulator := lift (read_register (mf_registers frame) (pf_destination fold)) in
ret (Calls (set_pc (set_fold frame (Some next)) pc) (pf_callback fold).1
   [accumulator; item] (pf_callback fold).2 (pf_destination fold))
end.

Definition pending_fold (frame : MachineFrame) (pc : nat) : option PendingFold :=
fold ← mf_fold frame;
if Nat.eqb (pf_instruction fold) pc then Some fold else None.

Definition exec_list_fold (frame : MachineFrame) (pc : nat)
(destination values initial callback : Register) : M Outcome :=
match pending_fold frame pc with
| Some fold => fold_next frame pc fold
| None =>
let! frame := lift (start_fold frame pc destination values initial callback) in
match mf_fold frame with
| Some fold => fold_next frame pc fold
| None => throw (Invariant_ "fold state exists") (* unreachable *)
end
end.

(** *** List combinators *)

Definition start_combinator (registers : Registers) (pc : nat) (operation : ListCombinator)
(values : Register) (initial : option Register) (callback callback_result : Register)
: result VmError PendingListCombinator :=
let? v := read_register registers values in
match v with
| VList input =>
let? c := read_register registers callback in
match c with
| VClosure callee captures =>
let? accumulator :=
match initial with
| None => Ok None
| Some r => let? x := read_register registers r in Ok (Some x)
end in
Ok {| pc_instruction := pc; pc_operation := operation; pc_values := input;
    pc_callback := (callee, captures); pc_callback_result := callback_result;
    pc_index := 0; pc_current := None; pc_accumulator := accumulator; pc_output := [];
    pc_rest := []; pc_answer := None; pc_waiting := false |}
| _ => Err (Invariant_ "list combinator callback is not Closure")
end
| _ => Err (Invariant_ "list combinator values are not List")
end.

(** What the result of the callback on [current] adds: the output, the rest, the
answer, the accumulator, and whether the combinator is complete. *)
Record Absorbed := {
ab_output : list Value; ab_rest : list Value; ab_answer : option bool;
ab_accumulator : option Value; ab_complete : bool }.

Definition absorb (p : PendingListCombinator) (current result_ : Value)
: result VmError Absorbed :=
let same := {| ab_output := pc_output p; ab_rest := pc_rest p; ab_answer := pc_answer p;
         ab_accumulator := pc_accumulator p; ab_complete := false |} in
let pushed l := {| ab_output := pc_output p ++ l; ab_rest := pc_rest p;
             ab_answer := pc_answer p; ab_accumulator := pc_accumulator p;
             ab_complete := false |} in
match pc_operation p with
| LMap => Ok (pushed [result_])
| LFilter =>
match result_ with
| VBool b => Ok (if b then pushed [current] else same)
| _ => Err (Invariant_ "list filter callback result is not Bool")
end
| LFlatMap =>
match result_ with
| VList values => Ok (pushed values)
| _ => Err (Invariant_ "list flat_map callback result is not List")
end
| LFilterMap =>
match result_ with
| VEnum OptionId _ variant _ payload =>
match variant, payload with
| 0%nat, PUnit => Ok same
| 1%nat, PTuple [x] => Ok (pushed [x])
| _, _ => Err (Invariant_ "list filter_map callback Option is malformed")
end
| _ => Err (Invariant_ "list filter_map callback result is not Option")
end
| LFind =>
match result_ with
| VBool true =>
Ok {| ab_output := pc_output p ++ [current]; ab_rest := pc_rest p; ab_answer := pc_answer p;
    ab_accumulator := pc_accumulator p; ab_complete := true |}
| VBool false => Ok same
| _ => Err (Invariant_ "list find callback result is not Bool")
end
| LAny =>
match result_ with
| VBool true =>
Ok {| ab_output := pc_output p; ab_rest := pc_rest p; ab_answer := Some true;
    ab_accumulator := pc_accumulator p; ab_complete := true |}
| VBool false => Ok same
| _ => Err (Invariant_ "list any callback result is not Bool")
end
| LAll =>
match result_ with
| VBool false =>
Ok {| ab_output := pc_output p; ab_rest := pc_rest p; ab_answer := Some false;
    ab_accumulator := pc_accumulator p; ab_complete := true |}
| VBool true => Ok same
| _ => Err (Invariant_ "list all callback result is not Bool")
end
| LPartition =>
match result_ with
| VBool true => Ok (pushed [current])
| VBool false =>
Ok {| ab_output := pc_output p; ab_rest := pc_rest p ++ [current];
    ab_answer := pc_answer p; ab_accumulator := pc_accumulator p; ab_complete := false |}
| _ => Err (Invariant_ "list partition callback result is not Bool")
end
| LScan =>
Ok {| ab_output := pc_output p ++ [result_]; ab_rest := pc_rest p; ab_answer := pc_answer p;
  ab_accumulator := Some result_; ab_complete := false |}
end%list.

Definition absorbed (p : PendingListCombinator) (a : Absorbed) : PendingListCombinator :=
{| pc_instruction := pc_instruction p; pc_operation := pc_operation p;
pc_values := pc_values p; pc_callback := pc_callback p;
pc_callback_result := pc_callback_result p; pc_index := pc_index p; pc_current := None;
pc_accumulator := ab_accumulator a; pc_output := ab_output a; pc_rest := ab_rest a;
pc_answer := ab_answer a; pc_waiting := false |}.

(** [pending.current.take().expect(..)] panics without an item: a waiting
combinator has one. *)
Definition absorb_result (registers : Registers) (p : PendingListCombinator)
: result VmError (PendingListCombinator * bool) :=
if pc_waiting p then
let? r := read_register registers (pc_callback_result p) in
match pc_current p with
| None => Err (Invariant_ "callback has an item")
| Some current => let? a := absorb p current r in Ok (absorbed p a, ab_complete a)
end
else Ok (p, false).

Definition finish_list_combinator (p : PendingListCombinator) : M Value :=
match pc_operation p with
| LMap | LFilter | LFlatMap | LFilterMap | LScan =>
do! charge_size (collection_size (length (pc_output p)) VALUE_SLOT_BYTES) in
ret (VList (pc_output p))
| LFind =>
do! charge_size (enum_size (match pc_output p with [] => 0 | _ => 1 end)) in
ret (option_value (head (pc_output p)))
| LAny => ret (VBool (default false (pc_answer p)))
| LAll => ret (VBool (default true (pc_answer p)))
| LPartition =>
do! charge_size (collection_size (length (pc_output p)) VALUE_SLOT_BYTES) in
do! charge_size (collection_size (length (pc_rest p)) VALUE_SLOT_BYTES) in
do! charge_size (record_size 2) in
ret (VRecord [("matched", VList (pc_output p)); ("rest", VList (pc_rest p))])
end.

Definition waiting_on (p : PendingListCombinator) (current : Value) : PendingListCombinator :=
{| pc_instruction := pc_instruction p; pc_operation := pc_operation p;
pc_values := pc_values p; pc_callback := pc_callback p;
pc_callback_result := pc_callback_result p; pc_index := S (pc_index p);
pc_current := Some current; pc_accumulator := pc_accumulator p; pc_output := pc_output p;
pc_rest := pc_rest p; pc_answer := pc_answer p; pc_waiting := true |}.

(** The arguments of the callback; a scan has an accumulator. *)
Definition combinator_arguments (p : PendingListCombinator) (current : Value) : list Value :=
match pc_operation p with
| LScan => option_list (pc_accumulator p) ++ [current]
| _ => [current]
end%list.

Definition pending_combinator (frame : MachineFrame) (pc : nat) : option PendingListCombinator :=
p ← mf_combinator frame;
if Nat.eqb (pc_instruction p) pc then Some p else None.

Definition exec_list_combinator (frame : MachineFrame) (pc : nat) (destination : Register)
(operation : ListCombinator) (values : Register) (initial : option Register)
(callback callback_result : Register) : M Outcome :=
let registers := mf_registers frame in
let! p :=
match pending_combinator frame pc with
| Some p => ret p
| None =>
lift (start_combinator registers pc operation values initial callback callback_result)
end in
let! a := lift (absorb_result registers p) in
let p := a.1 in
match (if a.2 then None else pc_values p !! pc_index p) with
| None =>
let! v := finish_list_combinator p in
assign (set_combinator frame None) destination v
| Some current =>
ret (Calls (set_pc (set_combinator frame (Some (waiting_on p current))) pc)
   (pc_callback p).1 (combinator_arguments p current) (pc_callback p).2
   (pc_callback_result p))
end.

(** ** Dispatch *)

(** The instruction at [pc] on the frame whose program counter has been advanced. *)
Definition exec (pc : nat) (i : Instruction) (frame : MachineFrame) : option (M Outcome) :=
let registers := mf_registers frame in
let call destination (m : M Value) : option (M Outcome) :=
Some (let! v := m in assign frame destination v) in
match i with
| Const destination constant => call destination (exec_const constant)
| Move destination source => call destination (lift (read_register registers source))
| IntBinary destination left_ right_ operation =>
call destination (exec_int_binary registers left_ right_ operation)
| IntRemainder destination left_ right_ =>
call destination (exec_int_remainder registers left_ right_)
| FloatBinary destination left_ right_ operation =>
call destination (exec_float_binary registers left_ right_ operation)
| IntNegate destination source => call destination (exec_int_negate registers source)
| FloatNegate destination source => call destination (exec_float_negate registers source)
| Compare destination left_ right_ operation =>
call destination (exec_compare registers left_ right_ operation)
| BoolNot destination source => call destination (exec_bool_not registers source)
| BoolBinary destination left_ right_ operation =>
call destination (exec_bool_binary registers left_ right_ operation)
| ListNew destination elements => call destination (exec_list_new registers elements)
| ListLiteralBuild destination items =>
call destination (exec_list_literal registers destination items)
| RangeNew destination start end_ inclusive =>
call destination (exec_range_new registers start end_ inclusive)
| RangeStart destination range =>
call destination (exec_range registers range (λ x, VInt (rv_start x)))
| RangeEnd destination range =>
call destination (exec_range registers range (λ x, VInt (rv_end x)))
| RangeInclusive destination range =>
call destination (exec_range registers range (λ x, VBool (rv_inclusive x)))
| MapNew destination entries => call destination (exec_map_new registers entries)
| MapLiteralBuild destination items =>
call destination (exec_map_literal registers destination items)
| TupleNew destination elements => call destination (exec_tuple_new registers elements)
| IndexGet destination collection index =>
call destination (exec_index_get registers collection index)
| SliceGet destination collection start end_ =>
call destination (exec_slice_get registers collection start end_)
| MapEntryAt destination map_ index => call destination (map_entry_at registers map_ index)
| Length destination collection => call destination (exec_length registers collection)
| StringCall destination operation arguments =>
call destination (string_call registers operation arguments)
| StandardCall destination operation arguments =>
match operation with
| ToInt => call destination (standard_to_int registers arguments)
| FloatFormat => None
| TimeFormatUtc => call destination (standard_time_format_utc registers arguments)
| TimeParseUtc => call destination (standard_time_parse_utc registers arguments)
| TimeBucket => call destination (standard_time_bucket registers arguments)
end
| ListAppend destination values v => call destination (list_append registers values v)
| ListSet destination values index v => call destination (list_set registers values index v)
| TupleGet destination tuple index => call destination (exec_tuple_get registers tuple index)
| Convert destination source conversion =>
m ← exec_convert registers source conversion; call destination m
| RecordNew destination fields =>
call destination (exec_record_new registers destination fields)
| NewtypeWrap destination source =>
call destination (exec_newtype_wrap registers destination source)
| NewtypeUnwrap destination source => call destination (exec_newtype_unwrap registers source)
| FieldGet destination record field => call destination (exec_field_get registers record field)
| EnumNew destination variant payload =>
call destination (exec_enum_new registers destination variant payload)
| BranchBool condition true_target false_target =>
Some (exec_branch frame condition true_target false_target)
| SwitchEnum source arms => Some (exec_switch frame source arms)
| Jump target => Some (ret (Continue (set_pc frame target)))
| TryResult destination source =>
match mf_active_scopes frame with
| [] => Some (exec_try_result frame destination source)
| _ => None
end
| TryOption destination source =>
match mf_active_scopes frame with
| [] => Some (exec_try_option frame destination source)
| _ => None
end
| ToUnknown destination source => call destination (exec_to_unknown registers source)
| Narrow destination source target =>
call destination (exec_narrow registers source target)
| DirectCall destination callee arguments =>
Some (exec_direct_call frame destination callee arguments)
| ClosureNew destination callee captures =>
call destination (exec_closure_new registers callee captures)
| ClosureCall destination closure arguments =>
Some (exec_closure_call frame destination closure arguments)
| AsyncCall destination callee arguments =>
call destination (exec_async_call registers callee arguments)
| Await destination source => exec_await frame destination source
| EffectCall destination operation arguments =>
call destination (exec_effect_call registers destination operation arguments)
| CapabilityInspect destination operation arguments =>
call destination (capability_inspect registers operation arguments capabilities)
| SafeCollectionCall destination operation arguments =>
call destination (safe_collection_call registers operation arguments)
| CheckedIntCall destination operation arguments =>
call destination (checked_int_call registers operation arguments)
| CollectionCall destination operation arguments =>
call destination (collection_call registers operation arguments)
| ListFold destination values initial callback =>
Some (exec_list_fold frame pc destination values initial callback)
| ListCombinator_ destination operation values initial callback callback_result =>
Some (exec_list_combinator frame pc destination operation values initial callback
    callback_result)
| ToolInvoke destination tool input =>
call destination (exec_tool_invoke registers destination tool input)
| Stop reason => Some (exec_stop registers reason)
| Fail_ reason => Some (exec_fail registers reason)
| Return_ source => Some (exec_return frame source)
| Decode _ _ _ | Spawn _ _ _ | TaskSnapshot _ _ | WorkspaceGet _ | SequenceFromList _ _
| SequenceMap _ _ _ | SequenceFilter _ _ _ | SequenceTake _ _ _ | SequenceFind _ _ _
| SequenceAny _ _ _ | SequenceAll _ _ _ | SequenceFold _ _ _ _ | SequenceToList _ _
| TemplateRender _ _ _ | TaskScopeEnter _ | TaskScopeExit _ => None
end.
End Exec.

(** ** The frames of a task *)

(** A task runs its frames, the running one first, or has its result. *)
Inductive TaskState := Running (frames : list MachineFrame) | Completed (v : Value).

(** [return_value]: the result goes to the caller or completes the task.  A
returned task handle moves to the scope of the caller, which is outside the
model. *)
Definition return_value (frame : MachineFrame) (callers : list MachineFrame) (v : Value)
: option (result VmError TaskState) :=
match mf_continuation frame with
| None => Some (Ok (Completed v))
| Some destination =>
match v with
| VTask _ => None
| _ =>
  Some match callers with
       | [] => Err (Invariant_ "call has no caller")
       | caller :: callers =>
         let? registers := write_register (mf_registers caller) destination v in
         Ok (Running (set_registers caller registers :: callers))
       end
end
end.

(** Pushing the frame of a callee. *)
Definition push_call (frame : MachineFrame) (callers : list MachineFrame) (callee : FunctionId)
(arguments captures : list Value) (destination : Register) : M TaskState :=
let depth := Z.of_nat (length (frame :: callers)) + 1 in
if u32_max <? depth then throw (ResourceLimit RESOURCE_CALL_DEPTH)
else
let! child := new_machine_frame callee arguments captures (Some destination) depth in
ret (Running (child :: frame :: callers)).

(** [step]: fetch, charge, advance, execute.  [None] is outside the model. *)
Definition step (capabilities : list string) (frames : list MachineFrame) (b : Budget)
: option (result VmError TaskState * Budget) :=
match frames with
| [] => Some (Err (Invariant_ "task has no frame"), b)
| frame :: callers =>
match functions module !! mf_function frame with
| None => Some (Err (Invariant_ "function is missing"), b)
| Some function =>
  let pc := mf_program_counter frame in
  match fn_code function !! pc with
  | None => Some (Err (Invariant_ "function ended without return"), b)
  | Some i =>
    if u32_max <? Z.of_nat pc
    then Some (Err (Invariant_ "instruction index is out of range"), b)
    else
      match charge_instruction b {| cp_function := mf_function frame; cp_instruction := pc |}
      with
      | (Err e, b) => Some (Err e, b)
      | (Ok _, b) =>
        m ← exec function capabilities pc i (set_pc frame (S pc));
        match m b with
        | (Err e, b) => Some (Err e, b)
        | (Ok (Continue frame), b) => Some (Ok (Running (frame :: callers)), b)
        | (Ok (Returned v), b) => r ← return_value frame callers v; Some (r, b)
        | (Ok (Calls frame callee arguments captures destination), b) =>
          Some (push_call frame callers callee arguments captures destination b)
        end
      end
  end
end
end.

(** The loop of the machine on one task: its result and the budget it leaves. *)
Fixpoint run (capabilities : list string) (fuel : nat) (frames : list MachineFrame) (b : Budget)
: option (result VmError Value * Budget) :=
match fuel with
| O => None
| S fuel =>
r ← step capabilities frames b;
match r with
| (Ok (Running frames), b) => run capabilities fuel frames b
| (Ok (Completed v), b) => Some (Ok v, b)
| (Err e, b) => Some (Err e, b)
end
end.
End Frames.
