(* ===== verification/VmSound.v ===== *)
(** * Verified code runs without internal errors

    Type soundness of the frame-local instructions: on a function the verifier
    accepts, every step from a frame whose registers hold what the analysis of
    definite initialization promises leads to such a frame again, returns a value
    of the declared type, or stops with an error the language defines; the
    internal [Invariant] errors of the VM cannot occur.  The file has a small
    program logic for computations on the budget, one lemma per operation, and
    the soundness of [step]. *)

From S2P Require Import Prelude Text Bytecode VmBudget VmValue VmTime VmOps VerifierTypes.
From S2P Require Import VerifierRules Verifier VmStep.
Open Scope string_scope.
Open Scope Z_scope.

(** ** Outcomes of computations *)

(** The errors a verified program may meet: every error but the internal ones;
    the only internal error left is the host clock running backwards. *)
Definition safe_error (e : VmError) : Prop :=
  match e with
  | Invariant_ message => message = "monotonic clock moved backwards"
  | _ => True
  end.

(** [m] never fails internally and its results satisfy [Q]. *)
Definition runs {A} (m : M A) (Q : A → Prop) : Prop :=
  ∀ b, match m b with (Ok x, _) => Q x | (Err e, _) => safe_error e end.

Definition yields {A} (r : result VmError A) (Q : A → Prop) : Prop :=
  match r with Ok x => Q x | Err e => safe_error e end.

Lemma runs_ret {A} (x : A) (Q : A → Prop) : Q x → runs (ret x) Q.
Proof. by intros HQ b. Qed.

Lemma runs_throw {A} e (Q : A → Prop) : safe_error e → runs (throw e) Q.
Proof. by intros HQ b. Qed.

Lemma runs_lift {A} (r : result VmError A) (Q : A → Prop) : yields r Q → runs (lift r) Q.
Proof. intros HQ b. by destruct r. Qed.

Lemma runs_bind {A B} (m : M A) (k : A → M B) (P : A → Prop) (Q : B → Prop) :
  runs m P → (∀ x, P x → runs (k x) Q) → runs (bind m k) Q.
Proof.
  intros Hm Hk b. specialize (Hm b). unfold bind. destruct (m b) as [[x|e] b']; [|done].
  by apply Hk.
Qed.

Lemma runs_impl {A} (m : M A) (P Q : A → Prop) : runs m P → (∀ x, P x → Q x) → runs m Q.
Proof. intros Hm HPQ b. specialize (Hm b). destruct (m b) as [[x|e] b']; auto. Qed.

Lemma runs_lift_bind {A B} (r : result VmError A) (k : A → M B) (Q : B → Prop) :
  yields r (λ x, runs (k x) Q) → runs (bind (lift r) k) Q.
Proof. intros Hr b. unfold bind, lift. destruct r; [by apply Hr|done]. Qed.

(** *** Allocation *)

Lemma runs_charge {B} n (k : unit → M B) (Q : B → Prop) :
  runs (k tt) Q → runs (bind (charge n) k) Q.
Proof.
  intros Hk. eapply (runs_bind _ _ (λ _, True)); [|by intros [] _].
  intros b. unfold charge, charge_allocation. destruct (_ <? n); [done|].
  destruct (u64_checked_add _ _) as [z|]; [|done]. by destruct (_ <? z).
Qed.

Lemma yields_logical_size base count item Q :
  (∀ n, Q n) → yields (logical_size base count item) Q.
Proof.
  intros HQ. unfold logical_size. destruct (_ <? _); [done|].
  destruct (u64_checked_mul _ _) as [n|]; simpl; [|done].
  destruct (u64_checked_add _ _); simpl; auto.
Qed.

Lemma runs_charge_size {B} r (k : unit → M B) (Q : B → Prop) :
  yields r (λ _, True) → runs (k tt) Q → runs (bind (charge_size r) k) Q.
Proof.
  intros Hr Hk b. rewrite bind_charge_size. apply runs_lift_bind.
  destruct r; [|done]. by apply runs_charge.
Qed.

Lemma yields_allocation_add a c Q : (∀ n, Q n) → yields (checked_allocation_add a c) Q.
Proof. intros HQ. unfold checked_allocation_add. destruct (u64_checked_add a c); simpl; auto. Qed.

Lemma yields_ok_or {A} (o : option A) e Q :
  safe_error e → (∀ x, o = Some x → Q x) → yields (ok_or o e) Q.
Proof. intros He HQ. destruct o; simpl; auto. Qed.

Lemma yields_bind {A B} (r : result VmError A) (k : A → result VmError B) (P : A → Prop) Q :
  yields r P → (∀ x, P x → yields (k x) Q) →
  yields (match r with Ok x => k x | Err e => Err e end) Q.
Proof. intros Hr Hk. destruct r; [by apply Hk|done]. Qed.

(** Splits the computation at the head of a [let?]. *)
Ltac yields_step :=
  match goal with
  | |- yields (match ?r with Ok _ => _ | Err _ => _ end) ?Q =>
    let H := fresh "H" in
    assert (yields r (λ _, True)) as H; [|destruct r; [clear H|exact H]]
  end.
(** Sizes only fail with the resource error. *)
Ltac size_ok :=
  repeat first
    [ by apply yields_logical_size | by apply yields_allocation_add | by apply yields_ok_or
    | yields_step ].

(** ** Registers that hold values of a type *)

(** What the representation guarantees: an [i64] is in range, and no allocation
    is longer than [isize::MAX]. *)
Definition fits (v : Value) : Prop :=
  match v with
  | VInt z => in_i64 z = true
  | VString s => str_len s <= i64_max
  | VBytes l => Z.of_nat (length l) <= i64_max
  | VList l => Z.of_nat (length l) <= i64_max
  | VMap m => Z.of_nat (length m) <= i64_max
  | _ => True
  end.

(** ** Well-typed values *)

Section WellTyped.
Variable module : Module_.

(** The types of the inputs of a function, if its registers have them. *)
Definition register_types (f : Function) (inputs : list Register) : option (list ValueType) :=
mapM (λ r, fn_registers f !! r) inputs.

(** Every variant of an enum of the module that the value contains exists.  A
nested unknown value is not looked into, as the type test does not. *)
Fixpoint variants_known (v : Value) : bool :=
match v with
| VList l | VTuple l => forallb variants_known l
| VMap m => forallb (λ e, variants_known e.1 && variants_known e.2) m
| VRecord fs => forallb (λ f, variants_known f.2) fs
| VEnum i _ n _ p =>
match i with
| User id => match variant_payload module id n with Ok _ => true | Err _ => false end
| _ => true
end
&& match p with
   | PUnit => true
   | PTuple l => forallb variants_known l
   | PRecord fs => forallb (λ f, variants_known f.2) fs
   end
| VNewtype _ x => variants_known x
| _ => true
end.

(** A value of a type, closures and futures included: a closure of a function type
is one of a function of the module with that type, and its captures have the
types of the function's capture registers.  The type test of the machine does
not look into functions; the verifier guarantees what it does not test. *)
Fixpoint well_typed (v : Value) (t : ValueType) : bool :=
let fields := all2 (λ (f : string * Value) (g : string * ValueType),
                    String.eqb f.1 g.1 && well_typed f.2 g.2) in
match v, t with
| VInt _, TInt | VBool _, TBool | VFloat _, TFloat | VString _, TString
| VBytes _, TBytes | VRange _, TRange | VSequence _, TSequence _
| VExternalFsAccess _, TExternalFsAccess | VUnit, TUnit
| VTask _, TTask _ | VWorkspace _, TWorkspace | VSubAgent _, TSubAgent => true
| VUnknown x, TUnknown => variants_known x
| VClosure id captures, TFunction parameters return_type effects =>
match functions module !! id with
| None => false
| Some f =>
  bool_decide (function_value_type f = Some (TFunction parameters return_type effects))
  && match register_types f (fn_captures f) with
     | None => false
     | Some types => all2 well_typed captures types
     end
end
| VFuture future, TFuture result_type =>
match future with
| FutureFunction id arguments =>
  match functions module !! id with
  | None => false
  | Some f =>
    bool_decide (fn_captures f = []) && ValueType_eqb (fn_return_type f) result_type
    && match register_types f (fn_parameters f) with
       | None => false
       | Some types => all2 well_typed arguments types
       end
  end
| _ => true
end
| VList l, TList e => forallb (λ v, well_typed v e) l
| VMap m, TMap k e =>
negb (unsorted_entries m) && forallb (λ p, well_typed p.1 k && well_typed p.2 e) m
| VTuple l, TTuple ts => all2 well_typed l ts
| VRecord fs, TRecord gs => fields fs gs
| VNewtype i v, TNewtype n u => String.eqb i n && well_typed v u
| VEnum i _ n _ p, TEnum id =>
bool_decide (i = User id)
&& match variant_payload module id n with
   | Err _ => false
   | Ok pt =>
     match p, pt with
     | PUnit, PTUnit => true
     | PTuple l, PTTuple ts => all2 well_typed l ts
     | PRecord fs, PTRecord gs => fields fs gs
     | _, _ => false
     end
   end
| VEnum i _ n _ p, TOption e =>
bool_decide (i = OptionId)
&& match n, p with
   | 0%nat, PUnit => true
   | 1%nat, PTuple [v] => well_typed v e
   | _, _ => false
   end
| VEnum i _ n _ p, TResult o e =>
bool_decide (i = ResultId)
&& match n, p with
   | 0%nat, PTuple [v] => well_typed v o
   | 1%nat, PTuple [v] => well_typed v e
   | _, _ => false
   end
| _, _ => false
end.

Lemma all2_impl {X Y} (f g : X → Y → bool) l r :
Forall (λ x, ∀ y, f x y = true → g x y = true) l → all2 f l r = true → all2 g l r = true.
Proof.
intros Hl. revert r. induction Hl as [|x l Hx _ IH]; intros [|y r]; simpl; try done.
rewrite !andb_true_iff. intros [H1 H2]. auto.
Qed.

Lemma fields_impl (f g : Value → ValueType → bool) (l : list (string * Value)) r :
Forall (λ x, ∀ t, f x.2 t = true → g x.2 t = true) l →
all2 (λ (x : string * Value) (y : string * ValueType), String.eqb x.1 y.1 && f x.2 y.2) l r = true →
all2 (λ (x : string * Value) (y : string * ValueType), String.eqb x.1 y.1 && g x.2 y.2) l r = true.
Proof.
intros Hl. apply all2_impl. eapply Forall_impl; [exact Hl|]. intros x Hx y.
rewrite !andb_true_iff. intros [H1 H2]. auto.
Qed.

Lemma all2_forallb {X Y} (f : X → Y → bool) (g : X → bool) l r :
Forall (λ x, ∀ y, f x y = true → g x = true) l → all2 f l r = true → forallb g l = true.
Proof.
intros Hl. revert r. induction Hl as [|x l Hx _ IH]; intros [|y r]; simpl; try done.
rewrite !andb_true_iff. intros [H1 H2]. eauto.
Qed.

Lemma fields_forallb (f : Value → ValueType → bool) (g : Value → bool)
(l : list (string * Value)) r :
Forall (λ x, ∀ t, f x.2 t = true → g x.2 = true) l →
all2 (λ (x : string * Value) (y : string * ValueType), String.eqb x.1 y.1 && f x.2 y.2) l r = true →
forallb (λ x, g x.2) l = true.
Proof.
intros Hl. apply all2_forallb. eapply Forall_impl; [exact Hl|]. intros x Hx y.
rewrite andb_true_iff. intros [_ H]. eauto.
Qed.

(** The variants in a well-typed value exist. *)
Lemma well_typed_known v t : well_typed v t = true → variants_known v = true.
Proof.
revert t. induction v as [v Hv|l IH|m IH|l IH|fs IH|i tn n vn p IH|i v IH|v IH|f l IH|f IH]
using Value_ind'; intros t; destruct t; try done; try (by destruct v);
cbn [well_typed variants_known].
- rewrite !forallb_forall. intros Hl x Hx. rewrite Forall_forall in IH.
apply (IH x (proj2 (list_elem_of_In _ _) Hx) _ (Hl x Hx)).
- rewrite !andb_true_iff, !forallb_forall. intros [Hs Hm] x Hx.
specialize (Hm x Hx). rewrite andb_true_iff in *. rewrite Forall_forall in IH.
apply list_elem_of_In in Hx. destruct (IH x Hx). naive_solver.
- by apply all2_forallb.
- by apply fields_forallb.
- rewrite !andb_true_iff, bool_decide_eq_true. intros [-> Hp].
destruct (variant_payload module id n) as [pt|]; [|done]. split; [done|].
destruct p, pt; try done;
  [by eapply (all2_forallb well_typed)|by eapply (fields_forallb well_typed)].
- rewrite !andb_true_iff, bool_decide_eq_true. intros [-> Hp]. split; [done|].
destruct n as [|[|n]], p as [|[|x []]|]; try done. apply Forall_inv in IH. simpl.
by rewrite (IH _ Hp).
- rewrite !andb_true_iff, bool_decide_eq_true. intros [-> Hp]. split; [done|].
destruct n as [|[|n]], p as [|[|x []]|]; try done; apply Forall_inv in IH; simpl;
  by rewrite (IH _ Hp).
- rewrite andb_true_iff. intros [_ Hx]. eauto.
Qed.

(** Well-typed values pass the type test. *)
Lemma well_typed_has_type v t : well_typed v t = true → has_type module v t = true.
Proof.
revert t. induction v as [v Hv|l IH|m IH|l IH|fs IH|i tn n vn p IH|i v IH|v IH|f l IH|f IH]
using Value_ind'; intros t; destruct t; try done; try (by destruct v);
cbn [well_typed has_type].
- rewrite !forallb_forall. intros Hl x Hx. rewrite Forall_forall in IH.
by apply IH; [apply list_elem_of_In|apply Hl].
- rewrite !andb_true_iff, !forallb_forall. intros [Hs Hm]. split; [done|]. intros x Hx.
specialize (Hm x Hx). rewrite andb_true_iff in *. rewrite Forall_forall in IH.
apply list_elem_of_In in Hx. destruct (IH x Hx). naive_solver.
- by apply all2_impl.
- by apply fields_impl.
- rewrite !andb_true_iff. intros [Hi Hp]. split; [done|].
destruct (variant_payload module id n) as [pt|]; [|done].
destruct p, pt; try done;
  [apply (all2_impl well_typed)|apply (fields_impl well_typed)]; done.
- rewrite !andb_true_iff. intros [Hi Hp]. split; [done|].
destruct n as [|[|n]], p as [|[|x []]|]; try done. inversion IH; subst. auto.
- rewrite !andb_true_iff. intros [Hi Hp]. split; [done|].
destruct n as [|[|n]], p as [|[|x []]|]; try done; inversion IH; subst; auto.
- rewrite !andb_true_iff. intros [Hi Hx]. auto.
Qed.

(** Values of the concrete types that pass the type test are well typed. *)
Lemma closed_well_typed t :
closed_type module false t → ∀ v, has_type module v t = true → well_typed v t = true.
Proof.
induction 1 as [t Ht|t _ IH|t _ IH|n t _ IH|a b _ IHa _ IHb|a b _ IHa _ IHb|l _ IH|l _ IH
             |id ty Hty _ IH]; intros v Hv.
- destruct t; try done; by destruct v.
- destruct v; try done. cbn [well_typed has_type] in *. rewrite !forallb_forall in *. auto.
- destruct v as [| | | | | | | | | | | |i tn n vn p| | | | | | | |]; try done.
cbn [well_typed has_type] in *. rewrite !andb_true_iff in *. destruct Hv as [Hi Hv].
split; [done|]. destruct n as [|[|n]], p as [|[|x []]|]; try done. auto.
- destruct v; try done. cbn [well_typed has_type] in *. rewrite !andb_true_iff in *. naive_solver.
- destruct v; try done. cbn [well_typed has_type] in *. rewrite !andb_true_iff, !forallb_forall in *.
destruct Hv as [Hs Hv]. split; [done|]. intros x Hx. specialize (Hv x Hx).
rewrite andb_true_iff in *. naive_solver.
- destruct v as [| | | | | | | | | | | |i tn n vn p| | | | | | | |]; try done.
cbn [well_typed has_type] in *. rewrite !andb_true_iff in *. destruct Hv as [Hi Hv].
split; [done|]. destruct n as [|[|n]], p as [|[|x []]|]; try done; auto.
- destruct v; try done. cbn [well_typed has_type] in *. clear -IH Hv. revert values Hv.
induction l as [|t l IHl]; intros [|v values] Hv; try done; simpl in *.
rewrite !andb_true_iff in *. destruct Hv as [H1 H2]. split; [apply IH; [by left|done]|].
apply IHl; [|done]. intros x Hx. apply IH. by right.
- destruct v; try done. cbn [well_typed has_type] in *. clear -IH Hv. revert fields Hv.
induction l as [|t l IHl]; intros [|v fields] Hv; try done; simpl in *.
rewrite !andb_true_iff in *. destruct Hv as [[H0 H1] H2].
split; [split; [done|apply IH; [by left|done]]|].
apply IHl; [|done]. intros x Hx. apply IH. by right.
- destruct v as [| | | | | | | | | | | |i tn n vn p| | | | | | | |]; try done.
cbn [well_typed has_type] in *. rewrite !andb_true_iff in *. destruct Hv as [Hi Hv].
split; [done|]. unfold variant_payload in *. rewrite Hty in *. simpl in *.
destruct (et_variants ty !! n) as [ev|] eqn:Ev; [|done]. simpl in *.
apply list_elem_of_lookup_2 in Ev. specialize (IH ev). clear Hty Hi.
destruct p as [|l|l], (ev_payload ev) as [|ts|ts]; try done; simpl in IH.
+ revert ts IH Hv. induction l as [|v l IHl]; intros [|t ts] IH Hv; try done; simpl in *.
  rewrite !andb_true_iff in *. destruct Hv as [H1 H2].
  split; [apply (IH t); [done|by left|done]|]. apply IHl; [|done]. intros u He Hu. apply IH; [done|]. by right.
+ revert ts IH Hv. induction l as [|v l IHl]; intros [|t ts] IH Hv; try done; simpl in *.
  rewrite !andb_true_iff in *. destruct Hv as [[H0 H1] H2].
  split; [split; [done|apply (IH t.2); [done|by left|done]]|].
  apply IHl; [|done]. intros u He Hu. apply IH; [done|]. by right.
Qed.
End WellTyped.

(** ** The type test answers *)

Section Answers.
Context {A : Type} `{EqDecision A} (address : Value → A) (module : Module_).

Definition answers (T : @Test A) : Prop := ∀ c, ∃ b, (T c).1 = Ok b.

Lemma answers_and (T U : @Test A) : answers T → answers U → answers (and_test T U).
Proof.
intros HT HU c. unfold and_test. destruct (HT c) as [b Hb].
destruct (T c) as [r c']. simpl in Hb. subst r. destruct b; [apply HU|by exists false].
Qed.

Lemma answers_all {X} (f : X → @Test A) l :
Forall (λ x, answers (f x)) l → answers (try_all f l).
Proof.
induction 1 as [|x l Hx _ IH]; [intros c; by exists true|]. by apply answers_and.
Qed.

Lemma answers_all2 {X Y} (f : X → Y → @Test A) l r :
Forall (λ x, ∀ y, answers (f x y)) l →
answers (if same_length l r then try_all2 f l r else answer false).
Proof.
intros Hl. destruct (same_length l r); [|intros c; by exists false]. revert r.
induction Hl as [|x l Hx _ IH]; intros [|y r]; try (intros c; by exists true).
simpl. by apply answers_and.
Qed.

Lemma answers_fields (f : Value → ValueType → @Test A) (l : list (string * Value))
(r : list (string * ValueType)) :
Forall (λ x, ∀ t, answers (f x.2 t)) l →
answers (if same_length l r
       then try_all2 (λ (v : string * Value) (g : string * ValueType),
              if String.eqb v.1 g.1 then f v.2 g.2 else answer false) l r
       else answer false).
Proof.
intros Hl. apply answers_all2. eapply Forall_impl; [exact Hl|]. intros x Hx y.
destruct (String.eqb _ _); [apply Hx|intros c; by exists false].
Qed.

Lemma forallb_Forall2 {X} (g : X → bool) (P : X → Prop) l :
Forall (λ x, g x = true → P x) l → forallb g l = true → Forall P l.
Proof.
induction 1 as [|x l Hx _ IH]; simpl; [done|]. rewrite andb_true_iff. intros [H1 H2]. auto.
Qed.

Lemma answers_wrapped v t depth early inner :
(early = false → answers inner) → answers (wrapped address v t depth early inner).
Proof.
intros Hin c. unfold wrapped. destruct (Nat.ltb _ depth); [by exists false|].
destruct (k ← _; cache_get k c) as [m|]; [by exists m|].
destruct early; [by exists false|]. destruct (Hin eq_refl c) as [b Hb].
destruct (inner c) as [r c']. simpl in Hb. subst r. by exists b.
Qed.

Lemma answers_at_once b : answers (λ c, (Ok b, c)).
Proof. intros c. by exists b. Qed.
Local Hint Resolve answers_at_once : core.

(** On a value whose variants exist the test has an answer, whatever the type. *)
Lemma value_matches_type_answers v t depth :
variants_known module v = true → answers (value_matches_type address module v t depth).
Proof.
revert t depth.
induction v as [v Hv|l IH|m IH|l IH|fs IH|i tn n vn p IH|i v IH|v IH|f l IH|f IH]
using Value_ind'; intros t depth Hk; cbn [variants_known] in Hk.
- destruct v; try discriminate; apply answers_wrapped; intros _; destruct t; auto.
- apply answers_wrapped. intros _. destruct t; auto. apply answers_all.
eapply forallb_Forall2, Hk. eapply Forall_impl; [exact IH|]. auto.
- apply answers_wrapped. intros _. destruct t; auto. destruct (unsorted_entries m); [auto|].
apply answers_all. eapply forallb_Forall2, Hk. eapply Forall_impl; [exact IH|].
intros x [H1 H2] [? ?]%andb_true_iff. apply answers_and; auto.
- apply answers_wrapped. intros _. destruct t; auto. apply answers_all2.
eapply forallb_Forall2, Hk. eapply Forall_impl; [exact IH|]. auto.
- apply answers_wrapped. intros _. destruct t; auto.
apply (answers_fields (λ v t, value_matches_type address module v t (S depth))).
eapply forallb_Forall2, Hk. eapply Forall_impl; [exact IH|]. auto.
- apply andb_true_iff in Hk as [Hi Hk]. apply answers_wrapped.
destruct t; auto; intros He; apply negb_false_iff, bool_decide_eq_true in He; subst i.
+ destruct (variant_payload module id n) as [pt|e]; [|done].
  destruct p, pt; auto.
  * apply answers_all2. eapply forallb_Forall2, Hk. eapply Forall_impl; [exact IH|]. auto.
  * apply (answers_fields (λ v t, value_matches_type address module v t (S depth))).
    eapply forallb_Forall2, Hk. eapply Forall_impl; [exact IH|]. auto.
+ destruct n as [|[|n]], p as [|[|x [|]]|]; auto. apply Forall_inv in IH.
  simpl in Hk. rewrite andb_true_r in Hk. auto.
+ destruct n as [|[|n]], p as [|[|x [|]]|]; auto; apply Forall_inv in IH;
  simpl in Hk; rewrite andb_true_r in Hk; auto.
- apply answers_wrapped. intros _. destruct t; auto. destruct (String.eqb i name); auto.
- apply answers_wrapped. intros _. destruct t; auto.
- apply answers_wrapped. intros _. destruct t; auto.
- apply answers_wrapped. intros _. destruct t; auto.
Qed.
End Answers.

Section Held.
Variable module : Module_.
Abbreviation typed v t := (well_typed module v t = true) (only parsing).

Definition holds (registers : Registers) (r : Register) (t : ValueType) : Prop :=
∃ v, read_register registers r = Ok v ∧ typed v t ∧ fits v ∧ (nesting v <= MAX_VALUE_NESTING)%nat.

Section Reads.
Variable registers : Registers.

Lemma held_read r t : holds registers r t → ∃ v, read_register registers r = Ok v ∧ typed v t.
Proof. intros (v & Hv & Ht & _). by exists v. Qed.

Lemma held_int r :
holds registers r TInt → ∃ z, read_int registers r = Ok z ∧ in_i64 z = true.
Proof.
intros (v & Hv & Ht & Hf & _). unfold read_int. rewrite Hv. destruct v; try done. by eexists.
Qed.

Lemma held_float r : holds registers r TFloat → ∃ z, read_float registers r = Ok z.
Proof.
intros (v & Hv & Ht & _). unfold read_float. rewrite Hv. destruct v; try done. by eexists.
Qed.

Lemma held_bool r : holds registers r TBool → ∃ b, read_bool registers r = Ok b.
Proof.
intros (v & Hv & Ht & _). unfold read_bool. rewrite Hv. destruct v; try done. by eexists.
Qed.

Lemma held_string r :
holds registers r TString → ∃ s, read_string registers r = Ok s ∧ str_len s <= i64_max.
Proof.
intros (v & Hv & Ht & Hf & _). unfold read_string. rewrite Hv. destruct v; try done.
by eexists.
Qed.

Lemma held_list r t :
holds registers r (TList t) →
∃ l, read_register registers r = Ok (VList l) ∧ Forall (λ v, typed v t) l
∧ Z.of_nat (length l) <= i64_max.
Proof.
intros (v & Hv & Ht & Hf & _). destruct v; try done. eexists. split; [done|]. split; [|done].
apply Forall_forall. intros x Hx. simpl in Ht. rewrite forallb_forall in Ht.
apply Ht. by apply list_elem_of_In.
Qed.

Lemma held_bytes r :
holds registers r TBytes →
∃ l, read_register registers r = Ok (VBytes l) ∧ Z.of_nat (length l) <= i64_max.
Proof. intros (v & Hv & Ht & Hf & _). destruct v; try done. by eexists. Qed.

(** The entries of a map of type [TMap k e]. *)
Definition entries_typed (k e : ValueType) (m : list (Value * Value)) : Prop :=
map_ok k m ∧ Forall (λ p : Value * Value, typed p.1 k ∧ typed p.2 e) m.

Lemma key_typed k v : is_map_key k = true → typed v k → key_of_type k v = true.
Proof.
revert v. induction k; intros v Hk Ht; try done; destruct v; try done; simpl in *.
boolify. rewrite H. simpl. by apply IHk.
Qed.

Lemma map_typed k e m :
is_map_key k = true → typed (VMap m) (TMap k e) ↔ entries_typed k e m.
Proof.
intros Hk. simpl. rewrite andb_true_iff, negb_true_iff, forallb_forall. unfold entries_typed.
assert (Forall (λ p : Value * Value, typed p.1 k ∧ typed p.2 e) m → keys_typed k m) as Hkt.
{ intros Hall. eapply Forall_impl; [exact Hall|]. intros x [Hx _]. by apply key_typed. }
rewrite Forall_forall. split.
- intros [Hs Hall].
assert (∀ x, x ∈ m → typed x.1 k ∧ typed x.2 e) as Hall'.
{ intros x Hx. apply andb_true_iff, Hall. by apply list_elem_of_In. }
split; [|done]. rewrite <- Forall_forall in Hall'. specialize (Hkt Hall'). split; [done|].
by apply (unsorted_entries_spec k).
- intros [[Hkeys Hs] Hall]. split; [by apply (unsorted_entries_spec k)|].
intros x Hx. apply andb_true_iff, Hall. by apply list_elem_of_In.
Qed.

Lemma held_map r k e :
is_map_key k = true → holds registers r (TMap k e) →
∃ m, read_register registers r = Ok (VMap m) ∧ entries_typed k e m
∧ Z.of_nat (length m) <= i64_max.
Proof.
intros Hk (v & Hv & Ht & Hf & _). destruct v as [| | | | | | | | |m| | | | | | | | | | |]; try done.
exists m. split; [done|]. split; [by apply map_typed|done].
Qed.
End Reads.

(** ** Operations keep types *)

Lemma typed_some v t : typed v t → typed (option_some v) (TOption t).
Proof. done. Qed.
Lemma typed_none t : typed option_none (TOption t).
Proof. done. Qed.

Lemma runs_charged_option o t :
(∀ v, o = Some v → typed v t) → runs (charged_option o) (λ v, typed v (TOption t)).
Proof.
intros Ho. destruct o as [v|]; simpl; [|by apply runs_ret].
apply runs_charge_size; [by apply yields_logical_size|]. apply runs_ret. by apply Ho.
Qed.

Lemma runs_checked_int registers operation arguments :
length arguments = (match operation with CheckedNegate => 1 | _ => 2 end)%nat →
Forall (λ r, holds registers r TInt) arguments →
runs (checked_int_call registers operation arguments) (λ v, typed v (TOption TInt)).
Proof.
intros Hl Ha. unfold checked_int_call.
eapply (runs_bind _ _ (λ _, True)).
- destruct operation, arguments as [|a [|b [|c l]]]; try done;
  repeat (apply Forall_cons in Ha as [(? & -> & ?)%held_int Ha]);
  repeat (apply runs_lift_bind; simpl); by apply runs_ret.
- intros o _. apply runs_charged_option. intros v Hv. by destruct o; simplify_eq/=.
Qed.

Lemma runs_allocate_string s t :
typed (VString s) t → runs (allocate_string s) (λ v, typed v t).
Proof.
intros Ht. unfold allocate_string. apply runs_charge_size; [by apply yields_logical_size|].
by apply runs_ret.
Qed.

Lemma runs_some_string s : runs (allocated_some_string s) (λ v, typed v (TOption TString)).
Proof.
unfold allocated_some_string. apply runs_lift_bind, yields_logical_size. intros e.
apply runs_lift_bind, yields_logical_size. intros z.
apply runs_lift_bind, yields_allocation_add. intros a. apply runs_charge. by apply runs_ret.
Qed.

Lemma runs_fields_size base fields Q :
yields base (λ _, True) → (∀ n, Q n) → yields (fields_size base fields) Q.
Proof.
intros Hb HQ. unfold fields_size. destruct base as [b|]; [|done]. clear Hb. revert b.
induction fields as [|f fields IH]; intros b; simpl; [apply HQ|].
pose proof (yields_logical_size 8 (String.length f) 1 (λ _, True) (λ _, I)) as Hs.
unfold string_size, string_size_bytes. destruct (logical_size 8 _ 1) as [s|]; [|done].
pose proof (yields_allocation_add b s (λ _, True) (λ _, I)) as Ha.
destruct (checked_allocation_add b s); [|done]. apply IH.
Qed.

(** *** Strings *)

Lemma yields_total registers arguments total :
Forall (λ r, holds registers r TString) arguments →
yields (try_fold (λ total r, let? s := read_string registers r in
        ok_or (u64_checked_add total (str_len s)) allocation_error) total arguments)
(λ _, True).
Proof.
intros Ha. revert total. induction Ha as [|r l Hr Ha IH]; intros total; simpl; [done|].
destruct (held_string _ _ Hr) as (s & -> & _). destruct (u64_checked_add _ _); simpl; [|done].
apply IH.
Qed.

Lemma collect_strings registers arguments :
Forall (λ r, holds registers r TString) arguments →
∃ texts, collect (read_string registers) arguments = Ok texts.
Proof.
induction 1 as [|r l Hr _ [texts IH]]; simpl; [by eexists|].
destruct (held_string _ _ Hr) as (s & -> & _). rewrite IH. by eexists.
Qed.

Lemma runs_concatenate registers arguments :
Forall (λ r, holds registers r TString) arguments →
runs (concatenate_string_registers registers arguments) (λ v, typed v TString).
Proof.
intros Ha. unfold concatenate_string_registers. apply runs_lift_bind.
pose proof (yields_total registers arguments 0 Ha) as Ht.
destruct (try_fold _ _ _) as [n|]; [|done]. simpl.
apply runs_charge_size; [by apply yields_logical_size|]. apply runs_lift_bind.
destruct (collect_strings _ _ Ha) as [texts ->]. by apply runs_ret.
Qed.

Lemma yields_join_bytes l total :
Forall (λ v, typed v TString) l → yields (join_bytes total l) (λ _, True).
Proof.
intros Hl. revert total. induction Hl as [|v l Hv _ IH]; intros total; simpl; [done|].
destruct v; try done. destruct (u64_checked_add _ _); simpl; [apply IH|done].
Qed.

Lemma runs_join l separator :
Forall (λ v, typed v TString) l → runs (string_join l separator) (λ v, typed v TString).
Proof.
intros Hl. unfold string_join. apply runs_lift_bind.
pose proof (yields_join_bytes l 0 Hl) as Hj. destruct (join_bytes 0 l) as [n|]; [|done]. simpl.
apply runs_lift_bind, yields_ok_or; [done|]. intros m _.
apply runs_lift_bind, yields_ok_or; [done|]. intros k _.
apply runs_charge_size; [by apply yields_logical_size|]. by apply runs_ret.
Qed.

Lemma runs_replace s needle replacement :
runs (string_replace s needle replacement) (λ v, typed v TString).
Proof.
unfold string_replace. destruct (String.eqb needle ""); [by apply runs_allocate_string|].
do 3 (apply runs_lift_bind, yields_ok_or; [done|]; intros ? _).
apply runs_charge_size; [by apply yields_logical_size|]. by apply runs_ret.
Qed.

Lemma runs_split s separator :
runs (string_split s separator) (λ v, typed v (TOption (TList TString))).
Proof.
unfold string_split. destruct (String.eqb separator ""); [by apply runs_ret|].
apply runs_lift_bind, runs_fields_size; [by apply yields_logical_size|]. intros n.
apply runs_lift_bind, yields_logical_size. intros k.
apply runs_charge_size; [by apply yields_allocation_add|]. apply runs_ret. simpl.
rewrite forallb_forall. intros v (x & <- & _)%in_map_iff. done.
Qed.

Lemma runs_slice s start end_ :
runs (string_slice s start end_) (λ v, typed v (TOption TString)).
Proof.
unfold string_slice. repeat case_match; try (by apply runs_ret). apply runs_some_string.
Qed.

Lemma utf8_scan_length bs : (length (utf8_scan bs) <= length bs)%nat.
Proof.
assert (∀ n bs, (length bs <= n)%nat → (length (utf8_scan bs) <= length bs)%nat) as Hg;
[|by apply (Hg (length bs))].
clear bs. induction n as [|n IH]; intros [|b0 r0] Hn; simpl in Hn; try (simpl; lia).
assert (length (utf8_scan r0) <= length r0)%nat as H0 by (apply IH; lia).
cbn [utf8_scan]. destruct (_ <? _); [simpl; lia|].
destruct (between 194 223 b0).
{ destruct r0 as [|b1 r1]; [simpl; lia|]. simpl in Hn.
destruct (is_cont b1); [|cbn [length] in *; lia]. specialize (IH r1). simpl. lia. }
destruct (between 224 239 b0).
{ destruct r0 as [|b1 [|b2 r2]]; try (cbn [length] in *; lia). simpl in Hn.
destruct (_ && _); [|cbn [length] in *; lia]. specialize (IH r2). simpl. lia. }
destruct (between 240 244 b0); [|cbn [length] in *; lia].
destruct r0 as [|b1 [|b2 [|b3 r3]]]; try (cbn [length] in *; lia). simpl in Hn.
destruct (_ && _); [|cbn [length] in *; lia]. specialize (IH r3). simpl. lia.
Qed.

Lemma chars_length s : (length (chars s) <= String.length s)%nat.
Proof.
unfold chars. rewrite length_map, <- length_bytes. apply utf8_scan_length.
Qed.

Lemma runs_find s needle :
str_len s <= i64_max → runs (string_find s needle) (λ v, typed v (TOption TInt)).
Proof.
intros Hs. unfold string_find. destruct (split_once needle s) as [[before after]|] eqn:E;
[|by apply runs_ret].
apply split_once_Some in E as ->. rewrite !str_len_app in Hs.
pose proof (chars_length before). destruct (_ <? _) eqn:Hn; boolify.
{ unfold str_len in Hs. lia. }
apply runs_charge_size; [by apply yields_logical_size|]. by apply runs_ret.
Qed.

(** Splits the typed arguments of a call. *)
Ltac open_args :=
repeat match goal with
| H : Forall2 _ ?a (_ :: _) |- _ => inversion H; clear H; subst
| H : Forall2 _ ?a [] |- _ => inversion H; clear H; subst
end.

(** Reads the held registers in front of the goal. *)
Ltac read_held :=
repeat match goal with
| H : holds _ ?r TString |- runs (bind (lift (read_string _ ?r)) _) _ =>
let s := fresh "s" in let Hs := fresh "Hs" in
destruct (held_string _ _ H) as (s & -> & Hs); apply runs_lift_bind; simpl
| H : holds _ ?r TInt |- runs (bind (lift (read_int _ ?r)) _) _ =>
let z := fresh "z" in let Hz := fresh "Hz" in
destruct (held_int _ _ H) as (z & -> & Hz); apply runs_lift_bind; simpl
| H : holds _ ?r TFloat |- runs (bind (lift (read_float _ ?r)) _) _ =>
let z := fresh "z" in destruct (held_float _ _ H) as [z ->]; apply runs_lift_bind; simpl
| H : holds _ ?r TBool |- runs (bind (lift (read_bool _ ?r)) _) _ =>
let z := fresh "z" in destruct (held_bool _ _ H) as [z ->]; apply runs_lift_bind; simpl
end.

Lemma runs_get s z : runs (string_get s z) (λ v, typed v (TOption TString)).
Proof.
unfold string_get. destruct (usize_of z ≫= _) as [[start width]|]; [|by apply runs_ret].
apply runs_some_string.
Qed.

Lemma Forall2_replicate {A B} (P : A → B → Prop) l x n :
Forall2 P l (replicate n x) → Forall (λ y, P y x) l.
Proof.
revert l. induction n as [|n IH]; intros l H; simpl in H; inversion H; subst; constructor; auto.
Qed.

Lemma runs_string_call registers operation arguments types t :
string_operation_signature operation (length arguments) = Ok (types, t) →
Forall2 (holds registers) arguments types →
runs (string_call registers operation arguments) (λ v, typed v t).
Proof.
intros Hs Ha. destruct operation; simpl in Hs; try (injection Hs as <- <-); open_args; simpl;
read_held; try (by apply runs_ret).
- destruct (_ <=? _) eqn:E; boolify; [by apply runs_ret|lia].
- apply runs_concatenate. by repeat constructor.
- apply runs_get.
- apply runs_slice.
- by apply runs_find.
- apply runs_split.
- match goal with H : holds _ _ (TList _) |- _ =>
  destruct (held_list _ _ _ H) as (l & Hl & Hall & _) end.
apply runs_lift_bind. unfold read_string_list. rewrite Hl. simpl. read_held. by apply runs_join.
- by apply runs_allocate_string.
- match goal with H : holds _ _ TBytes |- _ =>
  destruct (held_bytes _ _ H) as (l & Hl & _) end.
apply runs_lift_bind. rewrite Hl. simpl.
destruct (utf8_valid l); [apply runs_some_string|by apply runs_ret].
- apply runs_replace.
- destruct arguments as [|a arguments]; [done|]. injection Hs as <- <-.
apply runs_concatenate. by apply (Forall2_replicate _ _ _ (length (a :: arguments))).
Qed.

Lemma runs_result_ok v t e : typed v t → runs (standard_result_ok v) (λ v, typed v (TResult t e)).
Proof.
intros Hv. unfold standard_result_ok.
apply runs_charge_size; [by apply yields_logical_size|]. by apply runs_ret.
Qed.

Lemma runs_result_error code message t :
runs (standard_result_error code message) (λ v, typed v (TResult t standard_error_type)).
Proof.
unfold standard_result_error.
do 2 (apply runs_lift_bind, yields_logical_size; intros ?).
apply runs_lift_bind, yields_allocation_add; intros ?.
do 2 (apply runs_lift_bind, yields_logical_size; intros ?).
do 2 (apply runs_lift_bind, yields_allocation_add; intros ?).
apply runs_charge. by apply runs_ret.
Qed.

Lemma runs_to_int registers arguments :
Forall2 (holds registers) arguments [TString] →
runs (standard_to_int registers arguments) (λ v, typed v (TResult TInt standard_error_type)).
Proof.
intros Ha. open_args. simpl. read_held.
destruct (parse_int s) as [z|[]]; [by apply runs_result_ok|apply runs_result_error..].
Qed.

Lemma runs_time_format registers arguments :
Forall2 (holds registers) arguments [TInt] →
runs (standard_time_format_utc registers arguments)
(λ v, typed v (TResult TString standard_error_type)).
Proof.
intros Ha. open_args. simpl. read_held. destruct (negb _); [apply runs_result_error|].
eapply runs_bind; [by apply (runs_allocate_string _ TString)|]. intros v Hv.
by apply runs_result_ok.
Qed.

Lemma runs_time_parse registers arguments :
Forall2 (holds registers) arguments [TString] →
runs (standard_time_parse_utc registers arguments)
(λ v, typed v (TResult TInt standard_error_type)).
Proof.
intros Ha. open_args. simpl. read_held.
destruct (parse_utc s) as [z|[]]; [by apply runs_result_ok|apply runs_result_error..].
Qed.

Lemma runs_time_bucket registers arguments :
Forall2 (holds registers) arguments [TInt; TInt] →
runs (standard_time_bucket registers arguments)
(λ v, typed v (TResult TInt standard_error_type)).
Proof.
intros Ha. open_args. simpl. read_held.
destruct (in_utc_range _) eqn:Hr; simpl; [|apply runs_result_error].
destruct (_ <=? 0) eqn:Hw; boolify; [apply runs_result_error|].
repeat match goal with H : in_i64 _ = true |- _ => apply in_i64_spec in H end.
apply runs_lift_bind. rewrite time_bucket_value by (done || lia). by apply runs_result_ok.
Qed.

Lemma runs_capability registers operation arguments capabilities types t :
capability_signature operation = (types, t) →
Forall2 (holds registers) arguments types →
runs (capability_inspect registers operation arguments capabilities) (λ v, typed v t).
Proof.
intros Hs Ha. destruct operation; injection Hs as <- <-; open_args; simpl; read_held.
- by apply runs_ret.
- apply runs_lift_bind, runs_fields_size; [by apply yields_logical_size|]. intros n.
apply runs_charge, runs_ret. simpl. rewrite forallb_forall.
intros v (x & <- & _)%in_map_iff. done.
Qed.

(** *** Collections *)

Lemma lookup_typed l t i v : Forall (λ v, typed v t) l → l !! i = Some v → typed v t.
Proof. intros Hl Hi. rewrite Forall_forall in Hl. apply Hl. by eapply list_elem_of_lookup_2. Qed.

Lemma typed_list l t : typed (VList l) (TList t) ↔ Forall (λ v, typed v t) l.
Proof.
simpl. rewrite forallb_forall, Forall_forall. split; intros Hl x Hx; apply Hl;
by apply list_elem_of_In.
Qed.

Lemma find_typed k e m key v :
entries_typed k e m → map_find m key = Some v → typed v e.
Proof.
intros [_ Hm] Hf. unfold map_find in Hf. destruct (List.find _ m) as [p|] eqn:E; [|done].
simplify_eq/=. apply find_some in E as [Hin _]. rewrite Forall_forall in Hm.
by apply Hm, list_elem_of_In.
Qed.

Lemma map_with_typed k e m key v :
is_map_key k = true → entries_typed k e m → typed key k → typed v e →
entries_typed k e (map_with m key v).
Proof.
intros Hk [Hm Hall] Hkey Hv. split; [apply map_with_ok; [done|by apply key_typed]|].
unfold map_with. rewrite sort_by_perm. apply Forall_app. split; [|by repeat constructor].
rewrite Forall_forall in *. intros x [Hx _]%list_elem_of_In%filter_In. apply Hall.
by apply list_elem_of_In.
Qed.

Lemma map_without_typed k e m key : entries_typed k e m → entries_typed k e (map_without m key).
Proof.
intros [Hm Hall]. split; [by apply map_without_spec|]. rewrite Forall_forall in *.
intros x [Hx _]%list_elem_of_In%filter_In. apply Hall. by apply list_elem_of_In.
Qed.

Lemma yields_map_result_size n : yields (map_result_size n) (λ _, True).
Proof.
unfold map_result_size, collection_size, enum_size. size_ok.
Qed.

(** The map types among the arguments have key types. *)
Definition map_keys_ok (types : list ValueType) : Prop :=
∀ k e, TMap k e ∈ types → is_map_key k = true.

Lemma typed_option_value o t : (∀ v, o = Some v → typed v t) → typed (option_value o) (TOption t).
Proof. intros Ho. destruct o; simpl; [by apply Ho|done]. Qed.

Lemma typed_update field k e m o :
is_map_key k = true → entries_typed k e m → (∀ v, o = Some v → typed v e) →
typed (VRecord [(field, option_value o); ("values", VMap m)]) (map_update_type field k e).
Proof.
intros Hk Hm Ho. unfold map_update_type. pose proof (typed_option_value o e Ho) as H1.
pose proof (proj2 (map_typed k e m Hk) Hm) as H2.
change (String.eqb field field && well_typed module (option_value o) (TOption e)
      && (String.eqb "values" "values" && well_typed module (VMap m) (TMap k e) && true) = true).
by rewrite String.eqb_refl, H1, H2.
Qed.

Lemma runs_read {B} registers r v (k : Value → M B) Q :
read_register registers r = Ok v → runs (k v) Q → runs (bind (lift (read_register registers r)) k) Q.
Proof. intros Hr Hk. rewrite Hr. by apply runs_lift_bind. Qed.

(** Reads a register whose value is in the context. *)
Ltac known := eapply runs_read; [eassumption|cbn beta iota].

Lemma ValueType_eqb_true s t : ValueType_eqb s t = true → s = t.
Proof. by apply ValueType_eqb_eq. Qed.

Lemma runs_list_get registers rv ri t :
holds registers rv (TList t) → holds registers ri TInt →
runs (safe_collection_call registers ListGet [rv; ri]) (λ v, typed v (TOption t)).
Proof.
intros (l & Hl & Hall & _)%held_list Hi. simpl. known. read_held.
apply runs_charged_option. intros v Hv. destruct (usize_of z) as [i|]; simplify_eq/=.
by eapply lookup_typed.
Qed.

Lemma runs_list_try_set registers rv ri rx t :
holds registers rv (TList t) → holds registers ri TInt → holds registers rx t →
runs (safe_collection_call registers ListTrySet [rv; ri; rx]) (λ v, typed v (TOption (TList t))).
Proof.
intros (l & Hl & Hall & _)%held_list Hi (x & Hx & Htx)%held_read. simpl.
known. read_held.
destruct (usize_of z) as [i|]; [|by apply runs_ret]. destruct (bool_decide _); [|by apply runs_ret].
do 2 (apply runs_lift_bind, yields_logical_size; intros ?).
apply runs_charge_size; [by apply yields_allocation_add|]. known.
apply runs_ret, typed_some, typed_list. by apply Forall_insert.
Qed.

Lemma runs_bytes_get registers rv ri :
holds registers rv TBytes → holds registers ri TInt →
runs (safe_collection_call registers BytesGet [rv; ri]) (λ v, typed v (TOption TInt)).
Proof.
intros (l & Hl & _)%held_bytes Hi. simpl. known. read_held.
apply runs_charged_option. intros v Hv. destruct (usize_of z) as [i|]; simplify_eq/=.
by destruct (l !! i); simplify_eq/=.
Qed.

Lemma runs_map_get registers rm rk k e :
is_map_key k = true → holds registers rm (TMap k e) → holds registers rk k →
runs (safe_collection_call registers MapGet [rm; rk]) (λ v, typed v (TOption e)).
Proof.
intros Hmk (m & Hm & Hall & _)%held_map (key & Hk & Htk)%held_read; [|done]. simpl.
known. known. apply runs_charged_option.
intros v Hv. by eapply find_typed.
Qed.

Lemma runs_map_insert registers rm rk rx k e :
is_map_key k = true → holds registers rm (TMap k e) → holds registers rk k →
holds registers rx e →
runs (safe_collection_call registers MapInsert [rm; rk; rx])
(λ v, typed v (map_update_type "previous" k e)).
Proof.
intros Hmk (m & Hm & Hall & _)%held_map (key & Hk & Htk)%held_read (x & Hx & Htx)%held_read; [|done].
simpl. unfold safe_map_insert. known. known.
known.
apply runs_charge_size; [apply yields_map_result_size|]. apply runs_ret, typed_update; [done| |].
- by apply map_with_typed.
- intros v Hv. by eapply find_typed.
Qed.

Lemma runs_map_remove registers rm rk k e :
is_map_key k = true → holds registers rm (TMap k e) → holds registers rk k →
runs (safe_collection_call registers MapRemove [rm; rk])
(λ v, typed v (map_update_type "removed" k e)).
Proof.
intros Hmk (m & Hm & Hall & _)%held_map (key & Hk & Htk)%held_read; [|done].
simpl. unfold safe_map_remove. known. known.
apply runs_charge_size; [apply yields_map_result_size|]. apply runs_ret, typed_update; [done| |].
- by apply map_without_typed.
- intros v Hv. by eapply find_typed.
Qed.

Lemma runs_map_keys registers rm k e :
is_map_key k = true → holds registers rm (TMap k e) →
runs (safe_collection_call registers MapKeys [rm]) (λ v, typed v (TList k)).
Proof.
intros Hmk (m & Hm & [_ Hall] & _)%held_map; [|done]. simpl. known.
apply runs_charge_size; [by apply yields_logical_size|]. apply runs_ret, typed_list.
apply Forall_fmap. eapply Forall_impl; [exact Hall|]. by intros x [Hx _].
Qed.

Lemma runs_safe_collection registers operation arguments types t :
map_keys_ok types → Forall2 (holds registers) arguments types →
safe_collection_result operation types = Ok t →
runs (safe_collection_call registers operation arguments) (λ v, typed v t).
Proof.
intros Hmk Ha Hs. unfold safe_collection_result in Hs.
destruct operation; repeat (case_match; try discriminate Hs; []); subst;
repeat match goal with H : (_ && _) = true |- _ => apply andb_true_iff in H; destruct H end;
repeat match goal with H : ValueType_eqb _ _ = true |- _ => apply ValueType_eqb_true in H; subst end;
injection Hs as <-; open_args.
- by apply runs_list_get.
- by apply runs_list_try_set.
- by apply runs_bytes_get.
- eapply runs_map_get; [|eassumption..]; eapply Hmk; constructor.
- eapply runs_map_insert; [|eassumption..]; eapply Hmk; constructor.
- eapply runs_map_remove; [|eassumption..]; eapply Hmk; constructor.
- eapply runs_map_keys; [|eassumption..]; eapply Hmk; constructor.
Qed.

Lemma typed_tuple l ts : typed (VTuple l) (TTuple ts) ↔ Forall2 (λ v t, typed v t) l ts.
Proof.
simpl. revert ts. induction l as [|v l IH]; intros [|t ts]; simpl; split; intros Ht; try done;
try (by inversion Ht); try (by constructor).
- apply andb_true_iff in Ht as [Hv Ht]. constructor; [done|]. by apply IH.
- inversion Ht; subst. apply andb_true_iff. split; [done|]. by apply IH.
Qed.

Lemma lists_read registers message arguments elements :
Forall2 (λ r e, holds registers r (TList e)) arguments elements →
∃ lists, collect (read_list registers message) arguments = Ok lists
       ∧ Forall2 (λ l e, Forall (λ v, typed v e) l) lists elements.
Proof.
induction 1 as [|r e arguments elements (l & Hl & Hall & _)%held_list _ (lists & Hc & IH)];
[by exists []|].
exists (l :: lists). simpl. unfold read_list at 1. rewrite Hl, Hc. split; [done|]. by constructor.
Qed.

Lemma zip_row_typed lists elements n i :
Forall2 (λ l e, Forall (λ v, typed v e) l) lists elements →
Forall (λ l, length l = n) lists → (i < n)%nat →
typed (zip_row lists i) (TTuple elements).
Proof.
intros Hl Hn Hi. apply typed_tuple. induction Hl as [|l e lists elements Hle Hl IH]; [constructor|].
apply Forall_cons in Hn as [Hln Hn]. simpl.
destruct (l !! i) as [v|] eqn:E; [|apply lookup_ge_None in E; lia].
constructor; [by eapply lookup_typed|by apply IH].
Qed.

Lemma runs_zip registers arguments elements :
(2 <= length arguments <= 8)%nat →
Forall2 (λ r e, holds registers r (TList e)) arguments elements →
runs (collection_zip registers arguments) (λ v, typed v (TList (TTuple elements))).
Proof.
intros [H2 H8] Ha. unfold collection_zip. apply Nat.leb_le in H2, H8. rewrite H2, H8. simpl.
destruct (lists_read registers "list.zip operand is not List" _ _ Ha) as (lists & -> & Hl).
apply runs_lift_bind. simpl. set (n := match lists with l :: _ => length l | [] => 0%nat end).
destruct (existsb _ lists) eqn:E; [by apply runs_throw|].
apply runs_charge_size; [unfold zip_size, collection_size; size_ok|]. apply runs_ret, typed_list.
assert (Forall (λ l, length l = n) lists) as Hn.
{ apply Forall_forall. intros l Hl'. apply not_true_iff_false in E. rewrite existsb_exists in E.
destruct (decide (length l = n)) as [|Hne]; [done|]. destruct E. exists l.
split; [by apply list_elem_of_In|]. by apply negb_true_iff, Nat.eqb_neq. }
apply Forall_forall. intros v (i & -> & [_ Hi]%elem_of_seq)%list_elem_of_fmap.
by eapply zip_row_typed.
Qed.

(** The elements of an extremum: integers or floats. *)
Lemma yields_extremum is_min t best l :
t = TInt ∨ t = TFloat → typed best t → Forall (λ v, typed v t) l →
yields (extremum_loop is_min best l) (λ v, typed v t).
Proof.
intros Ht Hb Hl. revert best Hb. induction Hl as [|v l Hv _ IH]; intros best Hb; simpl; [done|].
destruct (is_nan_value best || is_nan_value v) eqn:En.
{ destruct Ht as [-> | ->]; [|done]. destruct best, v; done. }
destruct Ht as [-> | ->]; destruct best; try done; destruct v; try done; simpl.
- apply IH. by case_match.
- unfold f64_partial_cmp. simpl in En. rewrite orb_comm in En. rewrite En. simpl. apply IH.
by case_match.
Qed.

Lemma runs_extremum registers is_min r t :
t = TInt ∨ t = TFloat → holds registers r (TList t) →
runs (collection_extremum registers is_min [r]) (λ v, typed v (TOption t)).
Proof.
intros Ht (l & Hl & Hall & _)%held_list. simpl. unfold read_list. rewrite Hl.
apply runs_lift_bind. simpl. destruct Hall as [|v l Hv Hall]; [by apply runs_ret|].
apply runs_lift_bind. pose proof (yields_extremum is_min t v l Ht Hv Hall) as Hy.
destruct (extremum_loop is_min v l); [|done]. simpl.
apply runs_charge_size; [by apply yields_logical_size|]. by apply runs_ret.
Qed.

Lemma sum_ints_ok l z :
Forall (λ v, typed v TInt) l → ∃ o, sum_ints z l = Ok o.
Proof.
intros Hl. revert z. induction Hl as [|v l Hv _ IH]; intros z; [by eexists|].
destruct v; try done. simpl. destruct (i64_checked_add _ _); [apply IH|by eexists].
Qed.

Lemma sum_floats_ok l z :
Forall (λ v, typed v TFloat) l → ∃ o, sum_floats z l = Ok o.
Proof.
intros Hl. revert z. induction Hl as [|v l Hv _ IH]; intros z; [by eexists|].
destruct v; try done. simpl. apply IH.
Qed.

Lemma zip_types registers arguments types elements :
Forall2 (holds registers) arguments types →
collect (λ v, match v with
            | TList element => Ok element
            | _ => Err "zip arguments must be Lists"
            end) types = Ok elements →
Forall2 (λ r e, holds registers r (TList e)) arguments elements.
Proof.
intros Ha Hc. apply collect_ok in Hc. revert arguments Ha.
induction Hc as [|t e types elements Ht _ IH]; intros arguments Ha; inversion Ha; subst;
constructor; [|by apply IH].
destruct t; try done. by simplify_eq.
Qed.

Lemma runs_collection registers operation arguments types t :
Forall2 (holds registers) arguments types →
collection_result operation types = Ok t →
runs (collection_call registers operation arguments) (λ v, typed v t).
Proof.
intros Ha Hs. pose proof (Forall2_length _ _ _ Ha) as Hlen. unfold collection_result in Hs.
destruct operation.
- destruct (_ && _) eqn:E; [|done]. apply andb_true_iff in E as [E2 E8].
apply Nat.leb_le in E2, E8. destruct (collect _ types) as [elements|] eqn:Ec; [|done].
injection Hs as <-. apply runs_zip; [lia|]. by eapply zip_types.
- repeat (case_match; try discriminate Hs); subst; injection Hs as <-; open_args;
  apply runs_extremum; auto.
- repeat (case_match; try discriminate Hs); subst; injection Hs as <-; open_args;
  apply runs_extremum; auto.
- repeat (case_match; try discriminate Hs; []); subst. injection Hs as <-. open_args. simpl.
match goal with H : holds _ _ _ |- _ => destruct (held_list _ _ _ H) as (l & Hl & Hall & _) end.
unfold read_list. rewrite Hl. apply runs_lift_bind. simpl.
destruct (sum_ints_ok l 0 Hall) as [o ->]. apply runs_lift_bind. simpl.
apply runs_charged_option. intros v Hv. by destruct o; simplify_eq/=.
- repeat (case_match; try discriminate Hs; []); subst. injection Hs as <-. open_args. simpl.
match goal with H : holds _ _ _ |- _ => destruct (held_list _ _ _ H) as (l & Hl & Hall & _) end.
unfold read_list. rewrite Hl. apply runs_lift_bind. simpl.
destruct (sum_floats_ok l 0 Hall) as [o ->]. apply runs_lift_bind. by apply runs_ret.
Qed.

(** *** Indexing, slicing and updating *)

Lemma yields_index_list l t z : Forall (λ v, typed v t) l → yields (sequence_index l z) (λ v, typed v t).
Proof.
intros Hl. unfold sequence_index. apply yields_ok_or; [done|]. intros v Hv.
destruct (usize_of z); simplify_eq/=. by eapply lookup_typed.
Qed.

Lemma runs_index_list registers rc ri t :
holds registers rc (TList t) → holds registers ri TInt →
runs (let! c := lift (read_register registers rc) in
    let! n := lift (read_register registers ri) in lift (index_get c n)) (λ v, typed v t).
Proof.
intros (l & Hl & Hall & _)%held_list (v & Hv & Ht)%held_read. known. known.
destruct v; try done. simpl. by apply runs_lift, yields_index_list.
Qed.

Lemma runs_index_bytes registers rc ri :
holds registers rc TBytes → holds registers ri TInt →
runs (let! c := lift (read_register registers rc) in
    let! n := lift (read_register registers ri) in lift (index_get c n)) (λ v, typed v TInt).
Proof.
intros (l & Hl & _)%held_bytes (v & Hv & Ht)%held_read. known. known.
destruct v as [z| | | | | | | | | | | | | | | | | | | |]; try done. simpl.
apply runs_lift, yields_ok_or; [done|]. intros v Hv'. destruct (usize_of z); simplify_eq/=.
by destruct (l !! _); simplify_eq/=.
Qed.

Lemma runs_index_map registers rc ri k e :
is_map_key k = true → holds registers rc (TMap k e) → holds registers ri k →
runs (let! c := lift (read_register registers rc) in
    let! n := lift (read_register registers ri) in lift (index_get c n)) (λ v, typed v e).
Proof.
intros Hk (m & Hm & Hall & _)%held_map (v & Hv & Ht)%held_read; [|done]. known. known.
apply runs_lift. unfold index_get.
destruct v; (apply yields_ok_or; [done|intros w Hw; by eapply find_typed]).
Qed.

(** The result types of slices. *)
Definition sliced (t : ValueType) : Prop :=
match t with TList _ | TBytes | TString => True | _ => False end.

Lemma runs_slice_get registers rc v t start end_ :
sliced t → read_register registers rc = Ok v → typed v t →
runs (slice_get v start end_) (λ v, typed v (TOption t)).
Proof.
intros Hs Hr Ht. unfold slice_get. destruct (usize_of start) as [i|]; [|by apply runs_ret].
destruct (usize_of end_) as [j|]; [|by apply runs_ret].
destruct (bool_decide _); [by apply runs_ret|].
destruct t; try done; destruct v; try done.
- repeat case_match; try (by apply runs_ret). apply runs_some_string.
- destruct (bool_decide _); [by apply runs_ret|].
do 2 (apply runs_charge_size; [by apply yields_logical_size|]). by apply runs_ret.
- destruct (bool_decide _); [by apply runs_ret|].
do 2 (apply runs_charge_size; [by apply yields_logical_size|]).
apply runs_ret, typed_some, typed_list. apply Forall_take, Forall_drop. by apply typed_list.
Qed.

Lemma runs_list_append registers rl rv t :
holds registers rl (TList t) → holds registers rv t →
runs (list_append registers rl rv) (λ v, typed v (TList t)).
Proof.
intros (l & Hl & Hall & _)%held_list (v & Hv & Ht)%held_read. unfold list_append. known.
apply runs_charge_size; [by apply yields_logical_size|]. known. apply runs_ret, typed_list.
apply Forall_app. split; [done|by constructor].
Qed.

Lemma runs_list_set registers rl ri rv t :
holds registers rl (TList t) → holds registers ri TInt → holds registers rv t →
runs (list_set registers rl ri rv) (λ v, typed v (TList t)).
Proof.
intros (l & Hl & Hall & _)%held_list Hi (v & Hv & Ht)%held_read. unfold list_set. known. read_held.
destruct (usize_of z) as [i|]; [|by apply runs_throw].
destruct (bool_decide _); [|by apply runs_throw].
apply runs_charge_size; [by apply yields_logical_size|]. known. apply runs_ret, typed_list.
by apply Forall_insert.
Qed.

Lemma runs_map_entry_at registers rm ri k e :
is_map_key k = true → holds registers rm (TMap k e) → holds registers ri TInt →
runs (map_entry_at registers rm ri) (λ v, typed v (TTuple [k; e])).
Proof.
intros Hk (m & Hm & [_ Hall] & _)%held_map Hi; [|done]. unfold map_entry_at. known. read_held.
destruct (usize_of z ≫= _) as [[key v]|] eqn:E; [|by apply runs_throw].
destruct (usize_of z) as [i|]; [|done]. simpl in E.
apply runs_charge_size; [by apply yields_logical_size|]. apply runs_ret, typed_tuple.
rewrite Forall_forall in Hall.
destruct (Hall (key, v)) as [H1 H2]; [by eapply list_elem_of_lookup_2|].
constructor; [exact H1|]. constructor; [exact H2|constructor].
Qed.

(** The types with a length. *)
Definition measured (t : ValueType) : Prop :=
match t with TBytes | TString | TList _ | TMap _ _ => True | _ => False end.

Lemma runs_length registers rc t :
measured t → holds registers rc t →
runs (let! c := lift (read_register registers rc) in
    let! n := lift (collection_length c) in ret (VInt n)) (λ v, typed v TInt).
Proof.
intros Hm (v & Hv & Ht & Hf & _). known. apply runs_lift_bind.
destruct t; try done; destruct v as [| | |s| | | | | | | | | | | | | | | | |]; try done;
simpl in Hf |- *;
try (destruct (_ <=? _) eqn:E; boolify; [by apply runs_ret|]; try lia).
pose proof (chars_length s). unfold str_len in Hf. lia.
Qed.

Lemma runs_compare registers rl rr t operation :
holds registers rl t → holds registers rr t →
(operation = Equal ∨ operation = NotEqual ∨ is_ordered t = true) →
runs (let! l := lift (read_register registers rl) in
    let! r := lift (read_register registers rr) in
    let! b := lift (compare operation l r) in ret (VBool b)) (λ v, typed v TBool).
Proof.
intros (v & Hv & Htv)%held_read (w & Hw & Htw)%held_read Ho. known. known.
assert (∃ b, compare operation v w = Ok b) as [b ->].
{ destruct Ho as [->|[->|Ho]]; [by eexists..|].
destruct (ordered_compare_total module t v w Ho (well_typed_has_type _ _ _ Htv)
            (well_typed_has_type _ _ _ Htw)) as (lt & le & gt & ge & H1 & H2 & H3 & H4 & _).
destruct operation; eauto; by eexists. }
apply runs_lift_bind. by apply runs_ret.
Qed.

(** *** Constants and aggregates *)

Lemma runs_constant c : runs (materialize_constant c) (λ v, typed v (Constant_value_type c)).
Proof.
destruct c; simpl; try (by apply runs_ret);
(apply runs_charge_size; [by apply yields_logical_size|by apply runs_ret]).
Qed.

Lemma clone_held registers sources types :
Forall2 (holds registers) sources types →
∃ values, clone_registers registers sources = Ok values
        ∧ Forall2 (λ v t, typed v t) values types.
Proof.
unfold clone_registers.
induction 1 as [|r t sources types (v & Hv & Ht)%held_read _ (values & Hc & IH)]; [by exists []|].
exists (v :: values). simpl. rewrite Hv, Hc. split; [done|]. by constructor.
Qed.

Lemma runs_list_new registers elements t :
Forall (λ r, holds registers r t) elements →
runs (do! charge_size (collection_size (length elements) VALUE_SLOT_BYTES) in
    let! values := lift (clone_registers registers elements) in ret (VList values))
(λ v, typed v (TList t)).
Proof.
intros Ha. apply runs_charge_size; [by apply yields_logical_size|].
destruct (clone_held registers elements (replicate (length elements) t)) as (values & -> & Hv).
{ clear -Ha. induction Ha; simpl; by constructor. }
apply runs_lift_bind, runs_ret, typed_list.
by apply (Forall2_replicate (λ v t, typed v t) values t (length elements)).
Qed.

Lemma runs_tuple_new registers elements types :
Forall2 (holds registers) elements types →
runs (do! charge_size (collection_size (length elements) VALUE_SLOT_BYTES) in
    let! values := lift (clone_registers registers elements) in ret (VTuple values))
(λ v, typed v (TTuple types)).
Proof.
intros Ha. apply runs_charge_size; [by apply yields_logical_size|].
destruct (clone_held _ _ _ Ha) as (values & -> & Hv). by apply runs_lift_bind, runs_ret, typed_tuple.
Qed.

Lemma pairs_held registers entries k e :
Forall (λ p : Register * Register, holds registers p.1 k ∧ holds registers p.2 e) entries →
∃ pairs, collect (λ p : Register * Register,
         let? k := read_register registers p.1 in
         let? v := read_register registers p.2 in Ok (k, v)) entries = Ok pairs
       ∧ Forall (λ p : Value * Value, typed p.1 k ∧ typed p.2 e) pairs.
Proof.
induction 1 as [|p entries [(key & Hk & Htk)%held_read (v & Hv & Htv)%held_read] _ (pairs & Hc & IH)];
[by exists []|].
exists ((key, v) :: pairs). simpl. rewrite Hk, Hv, Hc. split; [done|]. by constructor.
Qed.

Lemma keys_of_entries k e m :
is_map_key k = true → Forall (λ p : Value * Value, typed p.1 k ∧ typed p.2 e) m → keys_typed k m.
Proof.
intros Hk Hm. eapply Forall_impl; [exact Hm|]. intros x [Hx _]. by apply key_typed.
Qed.

Lemma runs_map_new registers entries k e :
is_map_key k = true →
Forall (λ p : Register * Register, holds registers p.1 k ∧ holds registers p.2 e) entries →
runs (do! charge_size (collection_size (length entries) MAP_ENTRY_BYTES) in
    let! pairs := lift (collect (λ e : Register * Register,
                          let? k := read_register registers e.1 in
                          let? v := read_register registers e.2 in Ok (k, v)) entries) in
    let values := sort_by entry_compare pairs in
    if duplicate_keys values then throw DuplicateMapKey else ret (VMap values))
(λ v, typed v (TMap k e)).
Proof.
intros Hk Ha. apply runs_charge_size; [by apply yields_logical_size|].
destruct (pairs_held _ _ _ _ Ha) as (pairs & -> & Hp). apply runs_lift_bind. cbn zeta beta iota.
simpl. destruct (duplicate_keys _) eqn:Hd; [by apply runs_throw|]. apply runs_ret.
apply map_typed; [done|]. split.
- apply sort_distinct_ok; [by eapply keys_of_entries|done].
- by rewrite sort_by_perm.
Qed.

Lemma fields_typed fs gs :
typed (VRecord fs) (TRecord gs)
↔ Forall2 (λ (f : string * Value) (g : string * ValueType), f.1 = g.1 ∧ typed f.2 g.2) fs gs.
Proof.
simpl. revert gs. induction fs as [|f fs IH]; intros [|g gs]; simpl; split; intros Ht; try done;
try (by inversion Ht); try (by constructor).
- rewrite !andb_true_iff in Ht. destruct Ht as [[Hn Hv] Ht]. apply String.eqb_eq in Hn.
constructor; [done|]. by apply IH.
- inversion Ht as [|? ? ? ? [Hn Hv] Hrest]; subst. rewrite !andb_true_iff. split.
+ split; [by apply String.eqb_eq|done].
+ by apply IH.
Qed.

(** The fields of a record construction in the order of the layout. *)
Inductive fields_held (registers : Registers) : nat → list (nat * Register) → list RecordField → Prop :=
| fh_nil index : fields_held registers index [] []
| fh_cons index r fields layout f :
holds registers r f.2 → fields_held registers (S index) fields layout →
fields_held registers index ((index, r) :: fields) (f :: layout).

Lemma record_held registers index fields layout :
fields_held registers index fields layout →
length fields = length layout
∧ ∃ values, record_values registers index layout fields = Ok values
          ∧ typed (VRecord values) (TRecord layout).
Proof.
induction 1 as [index|index r fields layout f (v & Hv & Ht)%held_read _ (Hl & values & Hc & IH)].
{ split; [done|]. by exists []. }
split; [simpl; congruence|]. exists ((f.1, v) :: values).
split; [simpl; by rewrite Nat.eqb_refl, Hv, Hc|]. apply fields_typed. constructor; [done|]. by apply fields_typed.
Qed.

Lemma runs_record_new registers fields layout :
fields_held registers 0 fields layout →
runs (do! charge_size (record_size (length layout)) in
    let! values := lift (construct_record registers layout fields) in ret (VRecord values))
(λ v, typed v (TRecord layout)).
Proof.
intros Hf. apply runs_charge_size; [by apply yields_logical_size|].
destruct (record_held _ _ _ _ Hf) as (Hl & values & Hc & Ht). unfold construct_record.
rewrite Hl, Nat.eqb_refl, Hc. simpl. by apply runs_lift_bind, runs_ret.
Qed.

(** Payloads of variants. *)
Definition payload_typed (p : EnumPayload Value) (pt : EnumPayloadType) : Prop :=
match p, pt with
| PUnit, PTUnit => True
| PTuple l, PTTuple ts => typed (VTuple l) (TTuple ts)
| PRecord fs, PTRecord gs => typed (VRecord fs) (TRecord gs)
| _, _ => False
end.

Lemma payload_held registers sources pt :
Forall2 (holds registers) sources (payload_types pt) →
∃ p, construct_payload pt registers sources = Ok p ∧ payload_typed p pt.
Proof.
destruct pt as [|types|fields]; simpl; intros Ha.
- inversion Ha; subst. by exists PUnit.
- rewrite (Forall2_length _ _ _ Ha), Nat.eqb_refl. simpl.
destruct (clone_held _ _ _ Ha) as (values & -> & Hv). exists (PTuple values).
split; [done|]. by apply typed_tuple.
- pose proof (Forall2_length _ _ _ Ha) as Hl. rewrite length_map in Hl.
rewrite Hl, Nat.eqb_refl. simpl. clear Hl.
assert (∃ values, collect (λ p : RecordField * Register,
          let? v := read_register registers p.2 in Ok (p.1.1, v)) (combine fields sources)
          = Ok values ∧ typed (VRecord values) (TRecord fields)) as (values & -> & Hv).
{ revert sources Ha. induction fields as [|f fields IH]; intros sources Ha; inversion Ha; subst;
    [by exists []|].
  destruct (IH _ ltac:(eassumption)) as (values & Hc & Ht).
  match goal with H : holds _ _ f.2 |- _ => destruct (held_read _ _ _ H) as (v & Hv & Htv) end.
  exists ((f.1, v) :: values). split; [simpl; by rewrite Hv, Hc|].
  apply fields_typed. constructor; [done|]. by apply fields_typed. }
by exists (PRecord values).
Qed.

Lemma yields_enum registers t variant sources types :
enum_payload_types module t variant = Some types → Forall2 (holds registers) sources types →
yields (construct_enum module t variant registers sources) (λ v, typed v t).
Proof.
intros Ht Ha. destruct t; try discriminate Ht; simpl in Ht.
- unfold construct_enum. destruct (enum_types module !! _) as [ty|] eqn:Ety; [|done].
simpl in Ht. destruct (et_variants ty !! variant) as [v|] eqn:Ev; [|done]. simplify_eq/=.
rewrite Ev. simpl. destruct (payload_held _ _ _ Ha) as (p & -> & Hp). simpl.
rewrite bool_decide_eq_true_2 by done. simpl. unfold variant_payload. rewrite Ety. simpl.
rewrite Ev. simpl. by destruct p, (ev_payload v).
- destruct variant as [|[|variant]]; [| |done]; simplify_eq/=.
+ inversion Ha; subst. done.
+ destruct (payload_held registers sources (PTTuple [t]) Ha) as (p & Hp & Htp). simpl in Hp.
  rewrite Hp. simpl. destruct p as [|l|]; try done. apply typed_tuple in Htp. by open_args.
- destruct variant as [|[|variant]]; [| |done]; simplify_eq/=.
+ destruct (payload_held registers sources (PTTuple [t1]) Ha) as (p & Hp & Htp). simpl in Hp.
  rewrite Hp. simpl. destruct p as [|l|]; try done. apply typed_tuple in Htp. by open_args.
+ destruct (payload_held registers sources (PTTuple [t2]) Ha) as (p & Hp & Htp). simpl in Hp.
  rewrite Hp. simpl. destruct p as [|l|]; try done. apply typed_tuple in Htp. by open_args.
Qed.

(** The values an arm binds. *)
Definition payload_values (p : EnumPayload Value) : list Value :=
match p with PUnit => [] | PTuple values => values | PRecord fields => map snd fields end.

(** A value of a type with variants is an enum with a payload of its variant. *)
Lemma typed_variants v t count :
enum_variant_count module t = Some count → typed v t →
∃ i tn n vn p types, v = VEnum i tn n vn p ∧ (n < count)%nat
∧ enum_payload_types module t n = Some types
∧ Forall2 (λ v t, typed v t) (payload_values p) types.
Proof.
intros Hc Ht. destruct t; try discriminate Hc; destruct v as [| | | | | | | | | | | |i tn n vn p| | | | | | | |];
try discriminate Ht; simpl in Hc, Ht; apply andb_true_iff in Ht as [_ Ht]; exists i, tn, n, vn, p.
- unfold variant_payload in Ht. simpl. destruct (enum_types module !! _) as [ty|]; [|done].
simplify_eq/=. destruct (et_variants ty !! n) as [v|] eqn:Ev; [|done]. simpl in *.
eexists. split; [done|]. split; [by eapply lookup_lt_Some|]. split; [done|].
destruct p as [|l|fs], (ev_payload v) as [|ts|gs]; try done; simpl.
+ by apply typed_tuple.
+ change (typed (VRecord fs) (TRecord gs)) in Ht. apply fields_typed in Ht.
  clear -Ht. induction Ht as [|f g fs gs [_ H] _ IH]; simpl; by constructor.
- simplify_eq. destruct n as [|[|n]], p as [|[|x []]|]; try done; eexists;
  (split; [done|]; split; [lia|]; split; [done|]); by repeat constructor.
- simplify_eq. destruct n as [|[|n]], p as [|[|x []]|]; try done; eexists;
  (split; [done|]; split; [lia|]; split; [done|]); by repeat constructor.
Qed.

(** *** Literals with run-time checks *)

Section Literals.
Context {A : Type} `{EqDecision A} (address : Value → A) (registers : Registers).

Lemma checked_held r t message c :
holds registers r t → no_failure c →
∃ v c', read_register registers r = Ok v ∧ typed v t ∧ no_failure c'
  ∧ checked_type module address v t message c = (Ok tt, c').
Proof.
intros (v & Hv & Ht & _ & Hn) Hc. exists v.
destruct (value_matches_type_complete address module v t 0%nat (well_typed_has_type _ _ _ Ht) Hn c Hc) as (c' & Hm & Hc').
exists c'. unfold checked_type. by rewrite Hm.
Qed.

Definition list_item_held (t : ValueType) (item : ListLiteralItem) : Prop :=
match item with
| LElement r => holds registers r t
| LSpread r => holds registers r (TList t)
end.

Lemma list_literal_ok t items c :
Forall (list_item_held t) items → no_failure c →
∃ l, list_literal module address registers t c items = Ok l ∧ Forall (λ v, typed v t) l.
Proof.
intros Hi. revert c. induction Hi as [|[r|r] items Hr _ IH]; intros c Hc; simpl in *; [by exists []| |].
- destruct (checked_held r t "list literal element has another type" c Hr Hc)
as (v & c' & -> & Hv & Hc' & ->).
destruct (IH c' Hc') as (l & -> & Hl). exists (v :: l). split; [done|]. by constructor.
- destruct (checked_held r (TList t) "list literal spread contains another type" c Hr Hc)
as (v & c' & -> & Hv & Hc' & ->).
destruct (IH c' Hc') as (l & -> & Hl). destruct v as [| | | | | | | |w| | | | | | | | | | | |];
try done.
exists (w ++ l)%list. split; [done|]. apply Forall_app. split; [by apply typed_list|done].
Qed.

Lemma no_failure_nil : no_failure (A := A) [].
Proof. done. Qed.

Lemma runs_list_literal t items :
Forall (list_item_held t) items →
runs (let! values := lift (list_literal module address registers t [] items) in
do! charge_size (collection_size (length values) VALUE_SLOT_BYTES) in ret (VList values))
(λ v, typed v (TList t)).
Proof.
intros Hi. destruct (list_literal_ok t items [] Hi no_failure_nil) as (l & -> & Hl).
apply runs_lift_bind. simpl. apply runs_charge_size; [by apply yields_logical_size|].
by apply runs_ret, typed_list.
Qed.

Definition map_item_held (k e : ValueType) (item : MapLiteralItem) : Prop :=
match item with
| MEntry r s => holds registers r k ∧ holds registers s e
| MSpread r => holds registers r (TMap k e)
end.

(** Entries under construction: typed, with distinct keys. *)
Definition building (k e : ValueType) (m : list (Value * Value)) : Prop :=
keys_typed k m ∧ NoDup (map fst m) ∧ Forall (λ p : Value * Value, typed p.1 k ∧ typed p.2 e) m.

Lemma building_insert k e m key v :
is_map_key k = true → building k e m → typed key k → typed v e →
building k e (map_literal_insert m key v).
Proof.
intros Hmk (Hk & Hn & Hall) Htk Htv.
destruct (map_literal_insert_ok k m key v (key_typed _ _ Hmk Htk) Hk Hn) as (H1 & H2 & H3).
split; [done|]. split; [done|]. rewrite Forall_forall in *. intros x Hx.
by destruct (H3 x Hx) as [->|]; [|apply Hall].
Qed.

Lemma building_spread k e m spread :
is_map_key k = true → building k e m →
Forall (λ p : Value * Value, typed p.1 k ∧ typed p.2 e) spread →
building k e (insert_entries m spread).
Proof.
intros Hmk Hm Hs. unfold insert_entries. revert m Hm.
induction Hs as [|p spread [H1 H2] _ IH]; intros m Hm; simpl; [done|].
apply IH. by apply building_insert.
Qed.

Lemma map_literal_ok k e items c m :
is_map_key k = true → Forall (map_item_held k e) items → no_failure c → building k e m →
∃ l, map_literal module address registers k e c m items = Ok l ∧ building k e l.
Proof.
intros Hmk Hi. revert c m. induction Hi as [|[r s|r] items Hr _ IH]; intros c m Hc Hm; simpl in *;
[by exists m| |].
- destruct Hr as [Hr Hs]. set (message := "map literal entry has another type").
destruct (checked_held r k message c Hr Hc) as (key & c1 & -> & Hk & Hc1 & ->).
destruct (checked_held s e message c1 Hs Hc1) as (v & c2 & -> & Hv & Hc2 & ->).
apply IH; [done|]. by apply building_insert.
- destruct (checked_held r (TMap k e) "map literal spread contains another type" c Hr Hc)
as (v & c1 & -> & Hv & Hc1 & ->).
destruct v as [| | | | | | | | |w| | | | | | | | | | |]; try done. apply IH; [done|].
apply building_spread; [done..|]. by apply (map_typed k e w Hmk) in Hv as [_ Hv].
Qed.

Lemma runs_map_literal k e items :
is_map_key k = true → Forall (map_item_held k e) items →
runs (let! entries := lift (map_literal module address registers k e [] [] items) in
do! charge_size (collection_size (length entries) MAP_ENTRY_BYTES) in
ret (VMap (sort_by entry_compare entries)))
(λ v, typed v (TMap k e)).
Proof.
intros Hk Hi.
destruct (map_literal_ok k e items [] [] Hk Hi no_failure_nil) as (l & -> & Hl & Hn & Hall).
{ split; [constructor|]. split; [constructor|constructor]. }
apply runs_lift_bind. simpl. apply runs_charge_size; [by apply yields_logical_size|].
apply runs_ret, map_typed; [done|]. split; [by apply sort_nodup_ok|]. by rewrite sort_by_perm.
Qed.
End Literals.
End Held.

(** ** Tactics for the clients of these lemmas *)

(** Reads the held registers in front of the goal. *)
Ltac read_registers :=
  repeat match goal with
  | H : holds _ _ ?r TInt |- runs (bind (lift (read_int _ ?r)) _) _ =>
    let z := fresh "z" in let Hz := fresh "Hz" in
    destruct (held_int _ _ _ H) as (z & -> & Hz); apply runs_lift_bind; simpl
  | H : holds _ _ ?r TFloat |- runs (bind (lift (read_float _ ?r)) _) _ =>
    let z := fresh "z" in destruct (held_float _ _ _ H) as [z ->]; apply runs_lift_bind; simpl
  | H : holds _ _ ?r TBool |- runs (bind (lift (read_bool _ ?r)) _) _ =>
    let z := fresh "z" in destruct (held_bool _ _ _ H) as [z ->]; apply runs_lift_bind; simpl
  | H : holds _ _ ?r _ |- runs (bind (lift (read_register _ ?r)) _) _ =>
    let v := fresh "v" in let Hv := fresh "Hr" in let Ht := fresh "Ht" in
    destruct (held_read _ _ _ _ H) as (v & Hv & Ht); eapply runs_read; [exact Hv|cbn beta iota]
  end.
