(* ===== verification/VmMeter.v ===== *)
(** * Execution is metered

    Every step of a task is paid for with one instruction of the budget, and
    nothing an instruction does pays instructions back.  So a task stops within
    its instruction limit: the loop needs no more iterations than the instructions
    the budget has left. *)

From S2P Require Import Prelude Text Bytecode VmBudget VmValue VmTime VmOps VerifierTypes.
From S2P Require Import VerifierRules VmStep.
Open Scope string_scope.
Open Scope Z_scope.

(** ** Computations that leave the instruction count alone *)

Definition same_meter (b b' : Budget) : Prop :=
  limits b' = limits b ∧ us_instructions (usage b') = us_instructions (usage b).

#[export] Instance same_meter_preorder : PreOrder same_meter.
Proof. split; [by split|]. intros b1 b2 b3 [H1 H2] [H3 H4]. split; congruence. Qed.

Definition metered {A} (m : M A) : Prop := ∀ b, same_meter b (m b).2.

Create HintDb meter.

Lemma metered_ret {A} (x : A) : metered (ret x).
Proof. by intros b. Qed.
Lemma metered_throw {A} e : metered (throw (A := A) e).
Proof. by intros b. Qed.
Lemma metered_lift {A} (r : result VmError A) : metered (lift r).
Proof. intros b. by destruct r. Qed.
Lemma metered_bind {A B} (m : M A) (k : A → M B) :
  metered m → (∀ x, metered (k x)) → metered (bind m k).
Proof.
  intros Hm Hk b. unfold bind. specialize (Hm b). destruct (m b) as [[x|e] b']; [|done].
  etrans; [exact Hm|]. apply Hk.
Qed.
Lemma metered_charge n : metered (charge n).
Proof.
  intros b. unfold charge, charge_allocation, warn_once. repeat (case_match; simplify_eq/=); done.
Qed.
Lemma metered_charge_size r : metered (charge_size r).
Proof.
  unfold charge_size. apply metered_bind; [apply metered_lift|]. intros n. apply metered_charge.
Qed.
#[export] Hint Resolve metered_ret metered_throw metered_lift metered_bind metered_charge
  metered_charge_size : meter.

(** Follows the structure of a computation. *)
Ltac meter :=
  repeat first
    [ progress intros
    | apply metered_ret | apply metered_throw | apply metered_lift | apply metered_charge
    | apply metered_charge_size | apply metered_bind
    | match goal with |- metered (match ?x with _ => _ end) => destruct x end
    | progress auto with meter ].

Lemma metered_charged_option v : metered (charged_option v).
Proof. unfold charged_option. meter. Qed.
Lemma metered_allocated s : metered (allocated_some_string s).
Proof. unfold allocated_some_string. meter. Qed.
Lemma metered_allocate s : metered (allocate_string s).
Proof. unfold allocate_string. meter. Qed.
#[export] Hint Resolve metered_charged_option metered_allocated metered_allocate : meter.

Lemma metered_result_ok v : metered (standard_result_ok v).
Proof. unfold standard_result_ok. meter. Qed.
Lemma metered_result_error c m : metered (standard_result_error c m).
Proof. unfold standard_result_error. meter. Qed.
#[export] Hint Resolve metered_result_ok metered_result_error : meter.

Lemma metered_string_call registers operation arguments :
  metered (string_call registers operation arguments).
Proof.
  unfold string_call, concatenate_string_registers, string_get, string_slice, string_find,
    string_split, string_join, string_replace, arity_error. meter.
Qed.

Lemma metered_standard_call registers arguments :
  metered (standard_to_int registers arguments)
  ∧ metered (standard_time_format_utc registers arguments)
  ∧ metered (standard_time_parse_utc registers arguments)
  ∧ metered (standard_time_bucket registers arguments).
Proof.
  unfold standard_to_int, standard_time_format_utc, standard_time_parse_utc,
    standard_time_bucket, arity_error. split_and!; meter.
Qed.

Lemma metered_collections registers arguments :
  (∀ operation, metered (safe_collection_call registers operation arguments))
  ∧ (∀ operation, metered (collection_call registers operation arguments))
  ∧ (∀ operation, metered (checked_int_call registers operation arguments)).
Proof.
  unfold safe_collection_call, safe_map_insert, safe_map_remove, collection_call, collection_zip,
    collection_extremum, checked_int_call. split_and!; meter.
Qed.

Lemma metered_materialize c : metered (materialize_constant c).
Proof. unfold materialize_constant. meter. Qed.
Lemma metered_capability registers operation arguments capabilities :
  metered (capability_inspect registers operation arguments capabilities).
Proof. unfold capability_inspect, arity_error. meter. Qed.
Lemma metered_slice_get v start end_ : metered (slice_get v start end_).
Proof. unfold slice_get. meter. Qed.
#[export] Hint Resolve metered_string_call metered_materialize metered_capability
  metered_slice_get : meter.

Lemma metered_finish p : metered (finish_list_combinator p).
Proof. unfold finish_list_combinator. meter. Qed.
Lemma metered_assign frame d v : metered (assign frame d v).
Proof. unfold assign. meter. Qed.
#[export] Hint Resolve metered_finish metered_assign : meter.

(** ** Instructions *)

Section Meter.
Context `{Env} (module : Module_) {A : Type} `{EqDecision A} (address : Value → A).
Context (capabilities : list string).

Lemma metered_fold_next frame pc fold : metered (fold_next frame pc fold).
Proof. unfold fold_next. meter. Qed.
Hint Resolve metered_fold_next : meter.

(** The instructions whose computation does not depend on the registers. *)
Lemma metered_exec function pc i frame m :
exec module address function capabilities pc i frame = Some m → metered m.
Proof.
intros He. destruct i; simpl in He; try discriminate He; try (injection He as <-);
unfold exec_const, exec_int_binary, exec_int_remainder, exec_float_binary, exec_int_negate,
  exec_float_negate, exec_compare, exec_bool_not, exec_bool_binary, exec_list_new,
  exec_list_literal, exec_range_new, exec_range, exec_map_new, exec_map_literal,
  exec_tuple_new, exec_index_get, exec_slice_get, exec_length, exec_tuple_get,
  exec_record_new, exec_newtype_wrap, exec_newtype_unwrap, exec_field_get, exec_enum_new,
  exec_to_unknown, exec_narrow, exec_closure_new, exec_async_call, exec_effect_call,
  exec_tool_invoke, exec_branch, exec_switch, exec_try_result, exec_try_option, exec_stop,
  exec_fail, exec_return, exec_direct_call, exec_closure_call, exec_convert, exec_await,
  exec_list_fold, exec_list_combinator, list_append, list_set, map_entry_at in *;
try (by meter).
all: try (repeat case_match; simplify_eq/=; meter;
        first [apply metered_standard_call|apply metered_collections|idtac]).
Qed.

(** A charged instruction moves the count by one, inside the limit. *)
Lemma charge_instruction_meter b checkpoint b' :
charge_instruction b checkpoint = (Ok tt, b') →
limits b' = limits b
∧ us_instructions (usage b') = us_instructions (usage b) + 1
∧ us_instructions (usage b') <= lim_instructions (limits b).
Proof.
unfold charge_instruction, check_interruption, warn_once.
repeat (case_match; simplify_eq/=; boolify); intros [= <-]; simpl;
match goal with H : u64_checked_add _ _ = Some _ |- _ => apply u64_add_Some in H as [-> _] end;
done.
Qed.

Lemma charge_instruction_refused b checkpoint e b' :
charge_instruction b checkpoint = (Err e, b') → same_meter b b'.
Proof.
unfold charge_instruction, check_interruption, warn_once.
by repeat (case_match; simplify_eq/=); intros [= _ <-].
Qed.

Lemma metered_push frame callers callee arguments captures destination :
metered (push_call module frame callers callee arguments captures destination).
Proof.
unfold push_call, new_machine_frame. meter. intros b. unfold enter_frame, warn_once.
by repeat (case_match; simplify_eq/=).
Qed.

(** One step pays for itself: it goes on with one more instruction counted, inside
the limit, or it ends the task with the count still inside. *)
Definition paid (b b' : Budget) : Prop :=
limits b' = limits b
∧ us_instructions (usage b') = us_instructions (usage b) + 1
∧ us_instructions (usage b') <= lim_instructions (limits b).
Definition within (b b' : Budget) : Prop :=
us_instructions (usage b') <= Z.max (us_instructions (usage b)) (lim_instructions (limits b)).

Lemma paid_within b b1 b2 : paid b b1 → same_meter b1 b2 → paid b b2.
Proof. intros (H1 & H2 & H3) [H4 H5]. split_and!; [congruence|lia|lia]. Qed.

Lemma step_meter frames b r b' :
step module address capabilities frames b = Some (r, b') →
match r with Ok (Running _) => paid b b' | _ => within b b' end.
Proof.
unfold step. destruct frames as [|frame callers]; [intros [= <- <-]; unfold within; lia|].
destruct (functions module !! _) as [function|]; [|intros [= <- <-]; unfold within; lia].
destruct (fn_code function !! _) as [i|]; [|intros [= <- <-]; unfold within; lia].
destruct (_ <? _); [intros [= <- <-]; unfold within; lia|].
destruct (charge_instruction b _) as [[[]|e] b1] eqn:Hc.
- apply charge_instruction_meter in Hc. fold (paid b b1) in Hc.
assert (∀ b2, same_meter b1 b2 → within b b2) as Hw.
{ intros b2 Hs. destruct (paid_within _ _ _ Hc Hs) as (_ & _ & ?). unfold within. lia. }
destruct (exec _ _ _ _ _ i _) as [m|] eqn:He; [|done]. simpl.
pose proof (metered_exec _ _ _ _ _ He b1) as Hm.
destruct (m b1) as [[[f|v|f callee arguments captures d]|e] b2]; simpl in Hm.
+ intros [= <- <-]. by eapply paid_within.
+ destruct (return_value _ _ v) as [[[fs|x]|e]|]; [| | |done]; intros [= <- <-];
    [by eapply paid_within|by apply Hw|by apply Hw].
+ pose proof (metered_push f callers callee arguments captures d b2) as Hp.
  destruct (push_call _ _ _ _ _ _ _ b2) as [r' b3]. simpl in Hp. intros [= <- <-].
  assert (same_meter b1 b3) as Hs by (by etrans).
  destruct r' as [[fs|x]|e]; [by eapply paid_within|by apply Hw|by apply Hw].
+ intros [= <- <-]. by apply Hw.
- apply charge_instruction_refused in Hc as [Hl Hu]. intros [= <- <-]. unfold within. lia.
Qed.

(** A step from [frames] leads to [frames']. *)
Inductive steps : list MachineFrame → Budget → list MachineFrame → Budget → Prop :=
| steps_refl frames b : steps frames b frames b
| steps_next frames b frames1 b1 frames2 b2 :
step module address capabilities frames b = Some (Ok (Running frames1), b1) →
steps frames1 b1 frames2 b2 → steps frames b frames2 b2.

End Meter.

(** A function that jumps to itself. *)
Definition demo_forever : Module_ := {|
  constants := []; enum_types := []; effect_sets := [[]];
  functions := [{| fn_name := "spin"; fn_parameters := []; fn_parameter_names := [];
                   fn_parameter_default_digests := []; fn_captures := []; fn_registers := [];
                   fn_return_type := TInt; fn_effects := 0%nat; fn_code := [Jump 0] |}];
  async_functions := []; entry := 0 |}.

Definition demo_frame : MachineFrame := {|
  mf_function := 0; mf_registers := []; mf_program_counter := 0; mf_activation := 1;
  mf_active_scopes := []; mf_continuation := None; mf_fold := None; mf_combinator := None |}.

