(* ===== verification/VmSafety.v ===== *)
(** * Verified functions step safely

    What the typing rules of the verifier promise, instruction by instruction, and
    the soundness of [step] on the functions the verifier accepts: a step leads to
    a frame whose registers hold what the analysis of definite initialization
    promises at the new program counter, returns a value of the declared type, or
    stops with an error of the language. *)

From S2P Require Import Prelude Text Bytecode VmBudget VmValue VmTime VmOps VerifierTypes.
From S2P Require Import VerifierRules Verifier VmStep VmSound.
Open Scope string_scope.
Open Scope Z_scope.

(** The instructions whose rules are proved sound. *)
Create HintDb instructions.

(** ** What an accepted rule says *)

Section RuleLemmas.
Context (function : Function) (initialized : list bool).
Abbreviation type_of r := (fn_registers function !! r) (only parsing).

Lemma register_type_ok r t : register_type function r = Ok t → type_of r = Some t.
Proof. unfold register_type. by destruct (type_of r); intros [= ->]. Qed.

Lemma destination_type_ok r t : destination_type function r = Ok t → type_of r = Some t.
Proof.
unfold destination_type. destruct (register_type function r) as [u|] eqn:E; [|done].
destruct (ValueType_eqb u TNever); [done|]. intros [= ->]. by apply register_type_ok.
Qed.

Lemma initialized_type_ok r t :
initialized_type function initialized r = Ok t → type_of r = Some t.
Proof.
unfold initialized_type. destruct (register_type function r) as [u|] eqn:E; [|done].
destruct (is_initialized initialized r); [|done]. intros [= ->]. by apply register_type_ok.
Qed.

Lemma require_type_ok s t context u : require_type s t context = Ok u → s = t.
Proof.
unfold require_type. destruct (ValueType_eqb s t) eqn:E; [|done]. intros _.
by apply ValueType_eqb_eq.
Qed.

Lemma require_result_ok r t context u :
require_result function r t context = Ok u → type_of r = Some t.
Proof.
unfold require_result. destruct (destination_type function r) as [d|] eqn:E; [|done].
intros ->%require_type_ok. by apply destination_type_ok.
Qed.

Lemma require_unary_ok d s t context u :
require_unary_type function initialized d s t context = Ok u →
type_of d = Some t ∧ type_of s = Some t.
Proof.
unfold require_unary_type. destruct (destination_type _ d) as [td|] eqn:Ed; [|done].
destruct (initialized_type _ _ s) as [ts|] eqn:Es; [|done].
destruct (require_type td t context) as [[]|] eqn:E; [|done].
apply require_type_ok in E as ->. intros ->%require_type_ok.
split; [by apply destination_type_ok|by apply initialized_type_ok].
Qed.

Lemma require_binary_ok d l r t context u :
require_binary_type function initialized d l r t context = Ok u →
type_of d = Some t ∧ type_of l = Some t ∧ type_of r = Some t.
Proof.
unfold require_binary_type. destruct (destination_type _ d) as [td|] eqn:Ed; [|done].
destruct (initialized_type _ _ l) as [tl|] eqn:El; [|done].
destruct (initialized_type _ _ r) as [tr|] eqn:Er; [|done].
destruct (require_type td t context) as [[]|] eqn:E; [|done].
destruct (require_type tl t context) as [[]|] eqn:E'; [|done].
apply require_type_ok in E as ->, E' as ->. intros ->%require_type_ok.
split; [by apply destination_type_ok|]. split; by apply initialized_type_ok.
Qed.

Lemma require_each_ok context sources types u :
length sources = length types →
require_each function initialized context sources types = Ok u →
Forall2 (λ r t, type_of r = Some t) sources types.
Proof.
revert types. induction sources as [|r sources IH]; intros [|t types] Hl; try done; simpl.
destruct (initialized_type _ _ r) as [tr|] eqn:Er; [|done].
destruct (require_type tr t context) as [[]|] eqn:E; [|done].
apply require_type_ok in E as ->. intros Hrest. constructor; [by apply initialized_type_ok|].
apply IH; [by injection Hl|done].
Qed.

Lemma verify_call_arguments_ok arguments types u :
verify_call_arguments function initialized arguments types = Ok u →
Forall2 (λ r t, type_of r = Some t) arguments types.
Proof.
unfold verify_call_arguments. destruct (Nat.eqb_spec (length arguments) (length types)); [|done].
simpl. by apply require_each_ok.
Qed.

Lemma collect_types_ok arguments types :
collect (initialized_type function initialized) arguments = Ok types →
Forall2 (λ r t, type_of r = Some t) arguments types.
Proof.
intros Hc%collect_ok. eapply Forall2_impl; [exact Hc|]. intros r t. apply initialized_type_ok.
Qed.
End RuleLemmas.

(** Reads off what the accepted checks in the context say. *)
Ltac rules :=
  repeat match goal with
  | H : Some (@Ok string Caches _) = Some _ |- _ => clear H
  | H : Some _ = Some _ |- _ => injection H as H
  | H : match Some _ with _ => _ end = Some _ |- _ => progress cbn beta iota in H
  | H : match ?x with Some _ => _ | None => None end = Some _ |- _ =>
    let E := fresh "E" in destruct x eqn:E; [|discriminate H]; cbn beta iota in H
  | H : @mbind option _ _ _ _ ?x = Some _ |- _ =>
    let E := fresh "E" in destruct x eqn:E; [|discriminate H]; cbn beta iota delta [mbind option_bind] in H
  | H : match ?x with Ok _ => _ | Err _ => _ end = Some _ |- _ =>
    let E := fresh "E" in destruct x eqn:E; [|discriminate H]; cbn beta iota in H
  | H : @Ok string Caches _ = Ok _ |- _ => clear H
  | H : Ok _ = Ok _ |- _ => injection H as H; subst
  | H : match ?x with Ok _ => _ | Err _ => _ end = Ok _ |- _ =>
    let E := fresh "E" in destruct x eqn:E; [|discriminate H]; cbn beta iota in H
  | H : initialized_type _ _ _ = Ok _ |- _ => apply initialized_type_ok in H
  | H : destination_type _ _ = Ok _ |- _ => apply destination_type_ok in H
  | H : require_type _ _ _ = Ok _ |- _ => apply require_type_ok in H; subst
  | H : require_result _ _ _ _ = Ok _ |- _ => apply require_result_ok in H
  | H : require_unary_type _ _ _ _ _ _ = Ok _ |- _ => apply require_unary_ok in H as [? ?]
  | H : require_binary_type _ _ _ _ _ _ _ = Ok _ |- _ => apply require_binary_ok in H as (? & ? & ?)
  | H : verify_call_arguments _ _ _ _ = Ok _ |- _ => apply verify_call_arguments_ok in H
  | H : collect (initialized_type _ _) _ = Ok _ |- _ => apply collect_types_ok in H
  | H : Err _ = Ok _ |- _ => discriminate H
  | H : ok_or ?o _ = Ok _ |- _ =>
    let E := fresh "E" in destruct o eqn:E; [injection H as H; subst|discriminate H]
  end.

(** Unfolds the rule of the instruction at hand. *)
Ltac unfold_rule H :=
  cbn [verify_instruction] in H;
  unfold
    verify_const, verify_move, verify_int_binary, verify_int_remainder, verify_float_binary,
    verify_int_negate, verify_float_negate, verify_compare, verify_bool_not,
    verify_bool_binary, verify_list_new, verify_list_literal_build, verify_range_new,
    verify_range_bound, verify_range_inclusive, verify_length, verify_list_append,
    verify_list_set, verify_map_new, verify_map_literal_build, verify_tuple_new,
    verify_index_get, verify_slice_get, verify_map_entry_at, verify_tuple_get,
    verify_record_new, verify_field_get, verify_newtype_wrap, verify_newtype_unwrap,
    verify_enum_new, verify_branch_bool, verify_switch_enum, verify_to_unknown,
    verify_string_call, verify_standard_call, verify_capability_inspect,
    verify_safe_collection_call, verify_collection_call, verify_checked_int_call,
    verify_stop, verify_fail, verify_return, verify_convert, verify_try_result,
    verify_try_option
    in H.

(** Also the shapes of the types they looked at. *)
Ltac shapes :=
  repeat (rules;
    match goal with
    | H : match ?x with _ => _ end = Ok _ |- _ =>
      let E := fresh "E" in destruct x eqn:E; try discriminate H; subst; cbn beta iota in H
    end); rules.

(** A register with a type holds a value of it. *)
Definition source_held (module : Module_) (function : Function) (registers : Registers)
    (r : Register) : Prop :=
  ∀ t, fn_registers function !! r = Some t → holds module registers r t.

(** Opens an accepted rule and the registers the instruction reads. *)
Ltac open_rule Hv Hs :=
  unfold_rule Hv; shapes; cbn [instruction_sources] in Hs;
  repeat match type of Hs with
  | Forall _ (_ :: _) => apply Forall_cons in Hs as [? Hs]
  end;
  repeat match goal with
  | H : source_held _ _ _ ?r, H' : fn_registers _ !! ?r = Some _ |- _ =>
    let Hh := fresh "Hh" in pose proof (H _ H') as Hh; clear H
  end.

(** ** Instructions that assign a register *)

Section Exec.
Context (module : Module_) {A : Type} `{EqDecision A} (address : Value → A).
Context (function_id : FunctionId) (function : Function) (capabilities : list string) (pc : nat).
Context (tools : option (list ToolVerificationContract)) (templates : option (list TemplateResource)).
Hypothesis Haddress : address_sound address.
Hypothesis Hmaps :
∀ r k e, fn_registers function !! r = Some (TMap k e) → is_map_key k = true.
Abbreviation type_of r := (fn_registers function !! r) (only parsing).
Abbreviation exec := (exec module address function capabilities pc) (only parsing).
Abbreviation typed v t := (well_typed module v t = true) (only parsing).
Local Set Default Proof Using "Type*".

(** The instruction computes a value of its destination's type and assigns it. *)
Definition assigns (i : Instruction) (frame : MachineFrame) : Prop :=
∃ d m t, instruction_destination i = Some d
       ∧ exec i frame = Some (let! v := m in assign frame d v)
       ∧ type_of d = Some t ∧ runs m (λ v, typed v t).

Lemma assigns_intro i frame d m t :
instruction_destination i = Some d →
exec i frame = Some (let! v := m in assign frame d v) →
type_of d = Some t → runs m (λ v, typed v t) → assigns i frame.
Proof. intros. by exists d, m, t. Qed.

Section Instruction.
Context (initialized : list bool) (caches caches' : Caches) (frame : MachineFrame).
Abbreviation registers := (mf_registers frame) (only parsing).
Abbreviation accepted i :=
(verify_instruction module function initialized tools templates function_id i caches
= Some (Ok caches')) (only parsing).
Abbreviation sources_held i :=
(Forall (source_held module function registers) (instruction_sources i)) (only parsing).

Lemma each_held arguments types :
Forall (source_held module function registers) arguments → Forall2 (λ r t, type_of r = Some t) arguments types →
Forall2 (holds module registers) arguments types.
Proof using Type.
intros Hs Ht. induction Ht as [|r t arguments types Hr _ IH]; [constructor|].
apply Forall_cons in Hs as [Hr' Hs]. constructor; [by apply Hr'|by apply IH].
Qed.

(** The instruction assigns the result of the computation in front. *)
Ltac assigned :=
eapply assigns_intro; [reflexivity|reflexivity|eassumption|];
unfold
exec_const, exec_int_binary, exec_int_remainder, exec_float_binary, exec_int_negate,
exec_float_negate, exec_compare, exec_bool_not, exec_bool_binary, exec_list_new,
exec_list_literal, exec_range_new, exec_range, exec_map_new, exec_map_literal,
exec_tuple_new, exec_index_get, exec_slice_get, exec_length, exec_tuple_get,
exec_record_new, exec_newtype_wrap, exec_newtype_unwrap, exec_field_get, exec_enum_new,
exec_to_unknown, exec_narrow, exec_closure_new, exec_async_call, exec_effect_call,
exec_tool_invoke;
cbn beta zeta.

Lemma assigns_const d c : accepted (Const d c) → assigns (Const d c) frame.
Proof.
intros Hv. unfold_rule Hv; rules. assigned.
match goal with H : constants module !! _ = _ |- _ => rewrite H end.
apply runs_lift_bind. apply runs_constant.
Qed.

Lemma assigns_move d r : accepted (Move d r) → sources_held (Move d r) → assigns (Move d r) frame.
Proof.
intros Hv Hs. open_rule Hv Hs. assigned. apply runs_lift.
match goal with H : holds _ _ _ _ |- _ => destruct (held_read _ _ _ _ H) as (v & -> & Ht) end.
done.
Qed.

Lemma assigns_int_binary d l r operation :
accepted (IntBinary d l r operation) → sources_held (IntBinary d l r operation) →
assigns (IntBinary d l r operation) frame.
Proof.
intros Hv Hs. open_rule Hv Hs. assigned. read_registers. apply runs_lift_bind.
destruct operation; simpl; try (apply yields_ok_or; [done|]; intros; by apply runs_ret).
destruct (_ =? 0); [done|]. apply yields_ok_or; [done|]; intros; by apply runs_ret.
Qed.

Lemma assigns_int_remainder d l r :
accepted (IntRemainder d l r) → sources_held (IntRemainder d l r) →
assigns (IntRemainder d l r) frame.
Proof.
intros Hv Hs. open_rule Hv Hs. assigned. read_registers. apply runs_lift_bind.
unfold int_remainder. destruct (_ =? 0); [done|]. destruct (_ && _); [by apply runs_ret|].
apply yields_ok_or; [done|]; intros; by apply runs_ret.
Qed.

Lemma assigns_int_negate d r :
accepted (IntNegate d r) → sources_held (IntNegate d r) → assigns (IntNegate d r) frame.
Proof.
intros Hv Hs. open_rule Hv Hs. assigned. read_registers. apply runs_lift_bind.
apply yields_ok_or; [done|]; intros; by apply runs_ret.
Qed.

(** The instructions on scalars that always have a result. *)
Definition plain (i : Instruction) : bool :=
match i with
| FloatBinary _ _ _ _ | FloatNegate _ _ | BoolNot _ _ | BoolBinary _ _ _ _ | RangeNew _ _ _ _
| RangeStart _ _ | RangeEnd _ _ | RangeInclusive _ _ => true
| _ => false
end.

Lemma assigns_plain i : plain i = true → accepted i → sources_held i → assigns i frame.
Proof.
intros Hi Hv Hs. destruct i; try discriminate Hi; open_rule Hv Hs; assigned; read_registers;
try (by apply runs_ret);
match goal with H : well_typed _ ?v _ = true |- _ => destruct v; try done end; by apply runs_ret.
Qed.

Lemma assigns_compare d l r operation :
accepted (Compare d l r operation) → sources_held (Compare d l r operation) →
assigns (Compare d l r operation) frame.
Proof.
intros Hv Hs. open_rule Hv Hs. assigned. eapply runs_compare; [eassumption..|].
destruct operation; auto; right; right; by destruct (is_ordered _).
Qed.

Lemma assigns_length d c :
accepted (Length d c) → sources_held (Length d c) → assigns (Length d c) frame.
Proof.
intros Hv Hs. open_rule Hv Hs; assigned; by eapply runs_length; [|eassumption].
Qed.

(** *** Collections *)

(** The type of the register read by [vm_register_type]. *)
Ltac destination_known :=
unfold vm_register_type;
match goal with H : type_of ?d = Some _ |- runs (bind (lift (ok_or (type_of ?d) _)) _) _ =>
rewrite H; apply runs_lift_bind; cbn beta iota delta [ok_or yields] end.

Lemma assigns_list_new d elements :
accepted (ListNew d elements) → sources_held (ListNew d elements) →
assigns (ListNew d elements) frame.
Proof.
intros Hv Hs. open_rule Hv Hs.
match goal with H : require_each _ _ _ _ _ = _ |- _ =>
apply require_each_ok in H as Hr; [|by rewrite length_map] end.
assigned. apply runs_list_new. pose proof (each_held _ _ Hs Hr) as Hh. clear -Hh.
induction elements as [|r elements IH]; [constructor|]. simpl in Hh. inversion Hh; subst.
constructor; [done|by apply IH].
Qed.

Lemma assigns_tuple_new d elements :
accepted (TupleNew d elements) → sources_held (TupleNew d elements) →
assigns (TupleNew d elements) frame.
Proof.
intros Hv Hs. open_rule Hv Hs. boolify.
match goal with H : require_each _ _ _ _ _ = _ |- _ =>
apply require_each_ok in H as Hr; [|by apply Nat.eqb_eq] end.
assigned. by apply runs_tuple_new, each_held.
Qed.

Lemma assigns_index_get d c n :
accepted (IndexGet d c n) → sources_held (IndexGet d c n) → assigns (IndexGet d c n) frame.
Proof.
intros Hv Hs. open_rule Hv Hs; assigned.
- by apply runs_index_bytes.
- by apply runs_index_list.
- eapply runs_index_map; [by eapply Hmaps|eassumption..].
Qed.

Lemma assigns_slice_get d c start end_ :
accepted (SliceGet d c start end_) → sources_held (SliceGet d c start end_) →
assigns (SliceGet d c start end_) frame.
Proof.
intros Hv Hs. open_rule Hv Hs; simplify_eq; assigned; read_registers;
by eapply runs_slice_get.
Qed.

Lemma assigns_map_entry_at d m n :
accepted (MapEntryAt d m n) → sources_held (MapEntryAt d m n) → assigns (MapEntryAt d m n) frame.
Proof.
intros Hv Hs. open_rule Hv Hs.
match goal with H : all2 ValueType_eqb ?l ?r = true |- _ =>
apply (ValueType_eqb_eq (TTuple l) (TTuple r)) in H; injection H as -> end.
assigned. apply runs_map_entry_at; [by eapply Hmaps|done..].
Qed.

Lemma assigns_list_append d l v :
accepted (ListAppend d l v) → sources_held (ListAppend d l v) → assigns (ListAppend d l v) frame.
Proof. intros Hv Hs. open_rule Hv Hs. assigned. by apply runs_list_append. Qed.

Lemma assigns_list_set d l n v :
accepted (ListSet d l n v) → sources_held (ListSet d l n v) → assigns (ListSet d l n v) frame.
Proof. intros Hv Hs. open_rule Hv Hs. assigned. by apply runs_list_set. Qed.

Lemma entries_held context_key context_value k e entries u :
for_each (verify_map_entry function initialized context_key context_value k e) entries = Ok u →
Forall (source_held module function registers) (flat_map (λ p, [p.1; p.2]) entries) →
Forall (λ p : Register * Register, holds module registers p.1 k ∧ holds module registers p.2 e)
entries.
Proof.
destruct u. intros Hf%for_each_ok Hs. induction Hf as [|p entries Hp _ IH]; [constructor|].
simpl in Hs. apply Forall_cons in Hs as [H1 Hs]. apply Forall_cons in Hs as [H2 Hs].
unfold verify_map_entry in Hp. rules. constructor; [split; auto|by apply IH].
Qed.

Lemma assigns_map_new d entries :
accepted (MapNew d entries) → sources_held (MapNew d entries) → assigns (MapNew d entries) frame.
Proof.
intros Hv Hs. open_rule Hv Hs. boolify. assigned.
apply runs_map_new; [by eapply Hmaps|]. by eapply entries_held.
Qed.

Lemma list_items_held t items u :
for_each (verify_list_literal_item function initialized t) items = Ok u →
Forall (source_held module function registers)
(map (λ item, match item with LElement r | LSpread r => r end) items) →
Forall (list_item_held module registers t) items.
Proof.
destruct u. intros Hf%for_each_ok Hs. induction Hf as [|[r|r] items Hp _ IH]; [constructor|..];
simpl in Hs; apply Forall_cons in Hs as [H1 Hs]; simpl in Hp; shapes;
(constructor; [simpl; auto|by apply IH]).
Qed.

Lemma assigns_list_literal d items :
accepted (ListLiteralBuild d items) → sources_held (ListLiteralBuild d items) →
assigns (ListLiteralBuild d items) frame.
Proof.
intros Hv Hs. open_rule Hv Hs. assigned. destination_known.
eapply runs_list_literal, list_items_held; eassumption.
Qed.

Lemma map_items_held k e items u :
for_each (verify_map_literal_item function initialized k e) items = Ok u →
Forall (source_held module function registers)
(flat_map (λ item, match item with MEntry k v => [k; v] | MSpread r => [r] end) items) →
Forall (map_item_held module registers k e) items.
Proof.
destruct u. intros Hf%for_each_ok Hs. induction Hf as [|[r s|r] items Hp _ IH]; [constructor|..];
simpl in Hs; simpl in Hp; unfold verify_map_entry in Hp; shapes;
repeat (apply Forall_cons in Hs as [? Hs]); (constructor; [simpl; auto|by apply IH]).
Qed.

Lemma assigns_map_literal d items :
accepted (MapLiteralBuild d items) → sources_held (MapLiteralBuild d items) →
assigns (MapLiteralBuild d items) frame.
Proof.
intros Hv Hs. open_rule Hv Hs. assigned. destination_known.
apply runs_map_literal; [by eapply Hmaps|]. eapply map_items_held; eassumption.
Qed.

(** *** Calls of built-in operations *)

Lemma assigns_string_call d operation arguments :
accepted (StringCall d operation arguments) → sources_held (StringCall d operation arguments) →
assigns (StringCall d operation arguments) frame.
Proof.
intros Hv Hs. unfold_rule Hv. rules. destruct a0 as [types t]. simpl in *.
assigned. eapply runs_string_call; [eassumption|]. by apply each_held.
Qed.

Lemma assigns_standard_call d operation arguments :
operation ≠ FloatFormat →
accepted (StandardCall d operation arguments) →
sources_held (StandardCall d operation arguments) →
assigns (StandardCall d operation arguments) frame.
Proof.
intros Ho Hv Hs. unfold_rule Hv. rules. simpl in Hs.
match goal with H : Forall2 _ arguments _ |- _ => pose proof (each_held _ _ Hs H) as Ha end.
destruct operation; try done; simpl in *; assigned.
- by apply runs_to_int.
- by apply runs_time_format.
- by apply runs_time_parse.
- by apply runs_time_bucket.
Qed.

Lemma assigns_capability d operation arguments :
accepted (CapabilityInspect d operation arguments) →
sources_held (CapabilityInspect d operation arguments) →
assigns (CapabilityInspect d operation arguments) frame.
Proof.
intros Hv Hs. unfold_rule Hv. rules. simpl in Hs.
match goal with H : Forall2 _ arguments _ |- _ => pose proof (each_held _ _ Hs H) as Ha end.
assigned. eapply runs_capability; [apply surjective_pairing|done].
Qed.

Lemma assigns_safe_collection d operation arguments :
accepted (SafeCollectionCall d operation arguments) →
sources_held (SafeCollectionCall d operation arguments) →
assigns (SafeCollectionCall d operation arguments) frame.
Proof.
intros Hv Hs. unfold_rule Hv. rules. simpl in Hs.
match goal with H : Forall2 _ arguments _ |- _ => pose proof (each_held _ _ Hs H) as Ha;
rename H into Hty end.
assigned. eapply runs_safe_collection; [|eassumption..].
intros k e (i & Hi)%list_elem_of_lookup_1.
destruct (Forall2_lookup_r _ _ _ _ _ Hty Hi) as (r & _ & Hr). by eapply Hmaps.
Qed.

Lemma assigns_collection d operation arguments :
accepted (CollectionCall d operation arguments) →
sources_held (CollectionCall d operation arguments) →
assigns (CollectionCall d operation arguments) frame.
Proof.
intros Hv Hs. unfold_rule Hv. rules. simpl in Hs.
match goal with H : Forall2 _ arguments _ |- _ => pose proof (each_held _ _ Hs H) as Ha end.
assigned. by eapply runs_collection.
Qed.

Lemma assigns_checked_int d operation arguments :
accepted (CheckedIntCall d operation arguments) →
sources_held (CheckedIntCall d operation arguments) →
assigns (CheckedIntCall d operation arguments) frame.
Proof.
intros Hv Hs. open_rule Hv Hs. boolify.
match goal with H : Forall2 _ arguments _ |- _ => pose proof (each_held _ _ Hs H) as Ha end.
assigned. apply runs_checked_int; [by apply Nat.eqb_eq|]. by eapply Forall2_replicate.
Qed.

(** *** Aggregates *)

Lemma assigns_tuple_get d r index :
accepted (TupleGet d r index) → sources_held (TupleGet d r index) →
assigns (TupleGet d r index) frame.
Proof.
intros Hv Hs. open_rule Hv Hs. assigned. read_registers. destruct v; try done.
match goal with H : well_typed _ (VTuple _) _ = true |- _ => apply typed_tuple in H as Hall end.
match goal with H : _ !! index = Some _ |- _ =>
destruct (Forall2_lookup_r _ _ _ _ _ Hall H) as (w & Hw & Htw) end.
rewrite Hw. by apply runs_lift.
Qed.

Lemma assigns_field_get d r index :
accepted (FieldGet d r index) → sources_held (FieldGet d r index) →
assigns (FieldGet d r index) frame.
Proof.
intros Hv Hs. open_rule Hv Hs. assigned. read_registers. destruct v; try done.
match goal with H : well_typed _ (VRecord _) _ = true |- _ => apply fields_typed in H as Hall end.
match goal with H : _ !! index = Some _ |- _ =>
destruct (Forall2_lookup_r _ _ _ _ _ Hall H) as (w & Hw & _ & Htw) end.
rewrite Hw. by apply runs_lift.
Qed.

Lemma record_fields_held index fields layout u :
length fields = length layout →
verify_record_fields function initialized index fields layout = Ok u →
Forall (source_held module function registers) (map snd fields) →
fields_held module registers index fields layout.
Proof.
revert index layout. induction fields as [|[f r] fields IH]; intros index [|g layout] Hl Hv Hs;
simplify_eq/=; [constructor|].
apply Forall_cons in Hs as [Hr Hs]. destruct (Nat.eqb_spec f index) as [->|]; [|done].
simpl in Hv. rules. constructor; [by apply Hr|by apply IH].
Qed.

Lemma assigns_record_new d fields :
accepted (RecordNew d fields) → sources_held (RecordNew d fields) →
assigns (RecordNew d fields) frame.
Proof.
intros Hv Hs. open_rule Hv Hs. boolify. assigned. destination_known.
eapply runs_record_new, record_fields_held; [by apply Nat.eqb_eq|eassumption..].
Qed.

Lemma assigns_newtype_wrap d r :
accepted (NewtypeWrap d r) → sources_held (NewtypeWrap d r) → assigns (NewtypeWrap d r) frame.
Proof.
intros Hv Hs. open_rule Hv Hs. assigned. destination_known.
apply runs_charge_size; [unfold newtype_size, logical_size; size_ok|]. read_registers.
apply runs_ret. simpl. by rewrite String.eqb_refl.
Qed.

Lemma assigns_newtype_unwrap d r :
accepted (NewtypeUnwrap d r) → sources_held (NewtypeUnwrap d r) →
assigns (NewtypeUnwrap d r) frame.
Proof.
intros Hv Hs. open_rule Hv Hs. assigned. read_registers. 
match goal with H : well_typed _ ?v (TNewtype _ _) = true |- _ => destruct v; try done end.
cbn beta iota. destination_known.
match goal with H : well_typed _ (VNewtype _ _) _ = true |- _ =>
simpl in H; apply andb_true_iff in H as [-> ?] end.
by apply runs_ret.
Qed.

Lemma assigns_enum_new d variant payload :
accepted (EnumNew d variant payload) → sources_held (EnumNew d variant payload) →
assigns (EnumNew d variant payload) frame.
Proof.
intros Hv Hs. open_rule Hv Hs. boolify.
match goal with H : require_each _ _ _ _ _ = _ |- _ =>
apply require_each_ok in H as Hr; [|by apply Nat.eqb_eq] end.
assigned. destination_known. apply runs_charge_size; [by apply yields_logical_size|].
eapply runs_lift, yields_enum; [eassumption|]. by apply each_held.
Qed.

Lemma assigns_to_unknown d r :
accepted (ToUnknown d r) → sources_held (ToUnknown d r) → assigns (ToUnknown d r) frame.
Proof.
intros Hv Hs. open_rule Hv Hs. assigned. apply runs_charge. read_registers. apply runs_ret.
by eapply well_typed_known.
Qed.

Lemma assigns_narrow d r target :
cache_closed module false caches.1 →
accepted (Narrow d r target) → sources_held (Narrow d r target) →
assigns (Narrow d r target) frame.
Proof.
intros Hcache Hv Hs. cbn [verify_instruction] in Hv. unfold verify_narrow in Hv. simpl in Hs.
rules. destruct (is_concrete_type module target caches.1) as [b concrete] eqn:Hc.
destruct b; [|done]. simpl in *.
pose proof (enum_closed_tests module false (enum_fuel module) target caches.1 Hcache) as [_ Ht].
unfold is_concrete_type in Hc. rewrite Hc in Ht. specialize (Ht eq_refl). rules.
apply Forall_cons in Hs as [Hr _].
match goal with H : type_of r = Some _ |- _ => specialize (Hr _ H) end.
assigned. read_registers.
match goal with H : well_typed _ ?v TUnknown = true |- _ => destruct v; try done; rename H into Hk end.
destruct (value_matches_type_answers address module _ target 0 Hk []) as [b Hb].
rewrite Hb. apply runs_lift_bind. simpl.
apply runs_charge_size; [by apply yields_logical_size|]. apply runs_ret.
destruct b; [|done]. cbn. eapply closed_well_typed; [done|].
by apply (value_matches_type_sound address module Haddress _ target 0%nat []).
Qed.

(** *** Conversions, closures and futures *)

Lemma assigns_convert d r conversion m :
accepted (Convert d r conversion) → sources_held (Convert d r conversion) →
exec (Convert d r conversion) frame = Some m → assigns (Convert d r conversion) frame.
Proof.
intros Hv Hs Hm. open_rule Hv Hs; cbn [VmStep.exec] in Hm; unfold exec_convert in Hm;
match goal with H : holds _ _ r _ |- _ => destruct (held_read _ _ _ _ H) as (v & Hr & Ht) end;
rewrite Hr in Hm; destruct v; try discriminate Ht; try discriminate Hm; simpl in Hm;
(eapply assigns_intro; [reflexivity| |eassumption|];
[cbn [VmStep.exec]; unfold exec_convert; rewrite Hr; reflexivity|]);
try (by apply runs_ret); try (by apply runs_allocate_string).
apply runs_charge_size; [by apply yields_logical_size|by apply runs_ret].
Qed.

Lemma registers_mapM f inputs types :
mapM (λ r, fn_registers f !! r) inputs = Some types ↔
Forall2 (λ r t, fn_registers f !! r = Some t) inputs types.
Proof using Type. apply mapM_Some. Qed.

Lemma require_each_lazy_ok arguments expected u :
length arguments = length expected →
require_each_lazy function initialized arguments expected = Some (Ok u) →
∃ types, expected = Some <$> types ∧ Forall2 (λ r t, type_of r = Some t) arguments types.
Proof using Type.
revert expected. induction arguments as [|r arguments IH]; intros [|[t|] expected] Hl Hv;
simplify_eq/=; [by exists []|]. rules.
destruct (IH expected) as (types & -> & Hty); [done..|]. exists (t :: types).
split; [done|]. by constructor.
Qed.

Lemma lazy_arguments_ok arguments callee inputs u :
verify_lazy_arguments function initialized arguments (lazy_types callee inputs) = Some (Ok u) →
∃ types, Forall2 (λ r t, fn_registers callee !! r = Some t) inputs types
   ∧ Forall2 (λ r t, type_of r = Some t) arguments types.
Proof using Type.
unfold verify_lazy_arguments.
destruct (Nat.eqb_spec (length arguments) (length (lazy_types callee inputs))) as [Hl|]; [|done].
simpl. intros (types & Ht & Ha)%require_each_lazy_ok; [|done]. exists types. split; [|done].
clear -Ht. unfold lazy_types in Ht. revert types Ht.
induction inputs as [|r inputs IH]; intros [|t types] Ht; simplify_eq/=; constructor; auto.
Qed.

Lemma typed_all values types :
Forall2 (λ v t, typed v t) values types → all2 (well_typed module) values types = true.
Proof using Type. induction 1 as [|v t values types Hv _ IH]; simpl; [done|]. by rewrite Hv, IH. Qed.

Lemma all_typed values types :
all2 (well_typed module) values types = true → Forall2 (λ v t, typed v t) values types.
Proof using Type.
revert types. induction values as [|v values IH]; intros [|t types] H; try done.
simpl in *. apply andb_true_iff in H as [H1 H2]. constructor; auto.
Qed.

Lemma assigns_closure_new d callee captures :
accepted (ClosureNew d callee captures) → sources_held (ClosureNew d callee captures) →
assigns (ClosureNew d callee captures) frame.
Proof.
intros Hv Hs. cbn [verify_instruction] in Hv. unfold verify_closure_new in Hv. simpl in Hs.
rules. destruct (is_async module callee); [done|]. rules.
match goal with H : verify_lazy_arguments _ _ _ _ = _ |- _ =>
apply lazy_arguments_ok in H as (types & Hc & Ha) end.
destruct (mapM _ captures); [|done]. simpl in *. destruct (existsb _ _); [done|].
destruct (function_value_type _) eqn:Hf; [|done]. simpl in *. rules. assigned.
apply runs_charge_size; [by apply yields_logical_size|].
destruct (clone_held _ _ _ _ (each_held _ _ Hs Ha)) as (values & -> & Hvs).
apply runs_lift_bind, runs_ret. pose proof Hf as Hf'. unfold function_value_type in Hf'.
destruct (mapM _ _) as [parameters|]; [|done]. injection Hf' as <-.
cbn [well_typed]. match goal with H : functions module !! callee = _ |- _ => rewrite H end.
rewrite bool_decide_eq_true_2 by done. simpl. unfold register_types.
rewrite (proj2 (registers_mapM _ _ _) Hc). by apply typed_all.
Qed.

Lemma assigns_async_call d callee arguments :
accepted (AsyncCall d callee arguments) → sources_held (AsyncCall d callee arguments) →
assigns (AsyncCall d callee arguments) frame.
Proof.
intros Hv Hs. cbn [verify_instruction] in Hv. unfold verify_async_call in Hv. simpl in Hs.
rules. destruct (is_async module callee) eqn:Ha; [|done]. simpl in *.
case_bool_decide as Hcap; [|done]. simpl in *. rules.
match goal with H : verify_lazy_arguments _ _ _ _ = _ |- _ =>
apply lazy_arguments_ok in H as (types & Hc & Ht) end.
assigned. rewrite Ha. simpl.
apply runs_charge_size; [by apply yields_logical_size|].
destruct (clone_held _ _ _ _ (each_held _ _ Hs Ht)) as (values & -> & Hvs).
apply runs_lift_bind, runs_ret. cbn [well_typed].
match goal with H : functions module !! callee = _ |- _ => rewrite H end.
rewrite bool_decide_eq_true_2 by done. rewrite (proj2 (ValueType_eqb_eq _ _) eq_refl). simpl.
unfold register_types. rewrite (proj2 (registers_mapM _ _ _) Hc). by apply typed_all.
Qed.

Lemma assigns_effect_call d operation arguments :
accepted (EffectCall d operation arguments) → sources_held (EffectCall d operation arguments) →
assigns (EffectCall d operation arguments) frame.
Proof.
intros Hv Hs. cbn [verify_instruction] in Hv. unfold verify_effect_call in Hv. simpl in Hs.
rules. match goal with H : Forall2 _ arguments _ |- _ => pose proof (each_held _ _ Hs H) as Ha end.
assigned. apply runs_charge_size; [by apply yields_logical_size|].
destruct (clone_held _ _ _ _ Ha) as (values & -> & _). apply runs_lift_bind. simpl.
match goal with H : type_of d = _ |- _ => rewrite H end. apply runs_ret.
by destruct (is_agent_operation _).
Qed.

Lemma assigns_tool_invoke d tool r :
accepted (ToolInvoke d tool r) → sources_held (ToolInvoke d tool r) →
assigns (ToolInvoke d tool r) frame.
Proof.
intros Hv Hs. cbn [verify_instruction] in Hv. unfold verify_tool_invoke in Hv. open_rule Hv Hs.
assigned. apply runs_charge. read_registers.
match goal with H : type_of d = _ |- _ => rewrite H end. by apply runs_ret.
Qed.

(** The instructions that compute a value and assign it; the others with a
destination call a function or may return early. *)
Definition computes (i : Instruction) : bool :=
match i with
| DirectCall _ _ _ | ClosureCall _ _ _ | Await _ _ | ListFold _ _ _ _
| ListCombinator_ _ _ _ _ _ _ | TryResult _ _ | TryOption _ _ => false
| _ => bool_decide (is_Some (instruction_destination i))
end.

Local Hint Resolve assigns_const assigns_move assigns_int_binary assigns_int_remainder
assigns_int_negate assigns_compare assigns_length assigns_list_new assigns_tuple_new
assigns_index_get assigns_slice_get assigns_map_entry_at assigns_list_append assigns_list_set
assigns_map_new assigns_list_literal assigns_map_literal assigns_string_call
assigns_capability assigns_safe_collection assigns_collection assigns_checked_int
assigns_tuple_get assigns_field_get assigns_record_new assigns_newtype_wrap
assigns_newtype_unwrap assigns_enum_new assigns_to_unknown assigns_convert assigns_narrow
assigns_closure_new assigns_async_call assigns_effect_call assigns_tool_invoke : instructions.

Lemma accepted_assigns i m :
computes i = true → cache_closed module false caches.1 → accepted i → sources_held i →
exec i frame = Some m → assigns i frame.
Proof.
intros Hi Hcache Hv Hs Hm.
destruct i; try discriminate Hi; try discriminate Hm; try (by apply assigns_plain);
try (by eauto with instructions).
apply assigns_standard_call; [|done..]. by intros ->.
Qed.
End Instruction.

(** ** Frames *)

Local Set Default Proof Using "Type".

(** The registers the state marks hold values of their types. *)
Definition registers_typed (s : list bool) (registers : Registers) : Prop :=
length registers = length (fn_registers function)
∧ ∀ r t, s !! r = Some true → type_of r = Some t →
       ∃ v, read_register registers r = Ok v ∧ typed v t.

(** What the machine's memory guarantees of every value: integers are [i64] and
lengths are at most [isize::MAX]. *)
Definition representable (registers : Registers) : Prop :=
∀ r v, read_register registers r = Ok v → fits v.

(** The values of the function's registers nest no deeper than the machine allows. *)
Definition nests_within_limit : Prop :=
∀ r t v, type_of r = Some t → typed v t → (nesting v <= MAX_VALUE_NESTING)%nat.

Lemma registers_typed_le s s' registers :
le_state s' s → registers_typed s registers → registers_typed s' registers.
Proof. intros Hle [Hl Hr]. split; [done|]. intros r t Hs Ht. apply (Hr r t); [by apply Hle|done]. Qed.

Lemma marked_held s registers rs :
nests_within_limit → registers_typed s registers → representable registers →
Forall (λ r, s !! r = Some true) rs → Forall (source_held module function registers) rs.
Proof.
intros Hnest [_ Hr] Hrep Hrs. eapply Forall_impl; [exact Hrs|]. intros r Hs t Ht.
destruct (Hr r t Hs Ht) as (v & Hv & Htv). exists v. split_and!; try done; [by apply (Hrep r)|].
by apply (Hnest r t).
Qed.

Lemma read_register_eq registers r v :
read_register registers r = Ok v ↔ registers !! r = Some (Some v).
Proof.
unfold read_register. destruct (registers !! r) as [[w|]|]; simpl; split; intros; by simplify_eq.
Qed.

Lemma write_register_ok s registers d v t :
registers_typed s registers → type_of d = Some t → typed v t →
∃ registers', write_register registers d v = Ok registers'
            ∧ registers_typed (<[d := true]> s) registers'.
Proof.
intros [Hl Hr] Ht Hv. pose proof (lookup_lt_Some _ _ _ Ht) as Hlt. rewrite <- Hl in Hlt.
unfold write_register. rewrite bool_decide_eq_true_2 by done. eexists. split; [done|].
split; [by rewrite length_insert|]. intros r u Hs Hu. destruct (decide (r = d)) as [->|Hne].
- exists v. rewrite read_register_eq, list_lookup_insert_eq by done. split; [done|congruence].
- rewrite list_lookup_insert_ne in Hs by done. destruct (Hr r u Hs Hu) as (w & Hw & Htw).
exists w. rewrite read_register_eq in *. by rewrite list_lookup_insert_ne.
Qed.

(** Bindings of a switch arm. *)
Lemma write_bindings_ok s registers values bindings types :
registers_typed s registers → Forall2 (λ v t, typed v t) values types →
Forall2 (λ r t, type_of r = Some t) bindings types →
∃ registers', write_bindings registers (combine values bindings) = (Ok tt, registers')
            ∧ registers_typed (mark_all s bindings) registers'.
Proof.
intros Hr Hv. revert s registers bindings Hr.
induction Hv as [|v t values types Ht _ IH]; intros s registers bindings Hr Hb; inversion Hb; subst.
{ by exists registers. }
match goal with H : type_of ?r = _ |- _ =>
destruct (write_register_ok s registers r v t Hr H Ht) as (registers' & Hw & Hr') end.
simpl. rewrite Hw. by apply IH.
Qed.

Lemma verify_bindings_ok seen bindings types u :
length bindings = length types → verify_bindings function seen bindings types = Ok u →
Forall2 (λ r t, type_of r = Some t) bindings types.
Proof using Type.
revert seen types. induction bindings as [|r bindings IH]; intros seen [|t types] Hl Hv;
simplify_eq/=; [constructor|].
destruct (existsb _ seen); [done|]. rules. constructor; [done|by eapply IH].
Qed.

Lemma verify_arms_ok t k arms u n :
verify_arms module function t k arms = Ok u → (k <= n < k + length arms)%nat →
∃ arm, List.find (λ a, Nat.eqb (arm_variant a) n) arms = Some arm
     ∧ Forall2 (λ r t, type_of r = Some t) (arm_bindings arm)
         (default [] (enum_payload_types module t n)).
Proof using Type.
revert k. induction arms as [|arm arms IH]; intros k Hv Hn; simpl in *; [lia|].
destruct (Nat.eqb_spec (arm_variant arm) k) as [Hk|]; [|done]. simpl in Hv.
destruct (Nat.eqb_spec (length (arm_bindings arm))
          (length (default [] (enum_payload_types module t (arm_variant arm))))) as [Hl|]; [|done].
simpl in Hv. rules. destruct (Nat.eqb_spec (arm_variant arm) n) as [<-|Hne].
- exists arm. split; [done|]. by eapply verify_bindings_ok.
- apply (IH (S k)); [done|lia].
Qed.

Lemma find_arm n arms arm :
List.find (λ a, Nat.eqb (arm_variant a) n) arms = Some arm → arm ∈ arms ∧ arm_variant arm = n.
Proof using Type. intros [H1 H2%Nat.eqb_eq]%find_some. split; [by apply list_elem_of_In|done]. Qed.
End Exec.
