(* ===== verification/VmTask.v ===== *)
(** * Verified tasks run safely

    From the instructions to the task: what an accepted instruction may do to its
    frame, the frames a stack may hold while a call, a fold or a combinator waits
    for its callee, and the soundness of the machine's loop on the modules the
    verifier accepts. *)

From S2P Require Import Prelude Text Bytecode VmBudget VmValue VmTime VmOps VerifierTypes.
From S2P Require Import VerifierRules Verifier VerifierModule VmStep VmSound VmSafety.
Open Scope string_scope.
Open Scope Z_scope.

(** ** Frames *)

Section Frames.
Context (module : Module_) (function : Function).
Abbreviation type_of r := (fn_registers function !! r) (only parsing).
Abbreviation typed v t := (well_typed module v t = true) (only parsing).
Abbreviation registers_typed := (registers_typed module function) (only parsing).

(** A register that holds a value of a type. *)
Definition held (registers : Registers) (r : Register) (t : ValueType) : Prop :=
∃ v, read_register registers r = Ok v ∧ typed v t.

(** A fold between two calls of its callback, at the instruction [ListFold
destination ..]. *)
Record fold_waits (destination : Register) (pc : nat) (p : PendingFold) (acc : ValueType)
: Prop := {
fw_instruction : pf_instruction p = pc;
fw_destination : pf_destination p = destination;
fw_type : type_of destination = Some acc;
fw_callback : ∃ item effects,
typed (VClosure (pf_callback p).1 (pf_callback p).2) (TFunction [acc; item] acc effects)
∧ Forall (λ v, typed v item) (pf_values p)
}.

(** What a combinator has collected: the output, the rest and the accumulator have
the types that its result needs. *)
Definition collected (operation : ListCombinator) (item return_type : ValueType)
(result_type : ValueType) (p : PendingListCombinator) : Prop :=
match operation with
| LMap => result_type = TList return_type ∧ Forall (λ v, typed v return_type) (pc_output p)
| LFilter =>
result_type = TList item ∧ return_type = TBool ∧ Forall (λ v, typed v item) (pc_output p)
| LFlatMap =>
∃ t, return_type = TList t ∧ result_type = TList t ∧ Forall (λ v, typed v t) (pc_output p)
| LFilterMap =>
∃ t, return_type = TOption t ∧ result_type = TList t ∧ Forall (λ v, typed v t) (pc_output p)
| LFind =>
result_type = TOption item ∧ return_type = TBool ∧ Forall (λ v, typed v item) (pc_output p)
| LAny | LAll => result_type = TBool ∧ return_type = TBool
| LPartition =>
result_type = TRecord [("matched", TList item); ("rest", TList item)] ∧ return_type = TBool
∧ Forall (λ v, typed v item) (pc_output p) ∧ Forall (λ v, typed v item) (pc_rest p)
| LScan =>
result_type = TList return_type ∧ Forall (λ v, typed v return_type) (pc_output p)
∧ ∃ a, pc_accumulator p = Some a ∧ typed a return_type
end.

(** The parameters of the callback. *)
Definition callback_parameters (operation : ListCombinator) (item return_type : ValueType)
: list ValueType :=
match operation with LScan => [return_type; item] | _ => [item] end.

(** A combinator at the instruction [ListCombinator_ destination operation ..
callback_result]. *)
Record combinator_waits (destination : Register) (operation : ListCombinator)
(callback_result : Register) (pc : nat) (p : PendingListCombinator)
(return_type : ValueType) : Prop := {
cw_instruction : pc_instruction p = pc;
cw_operation : pc_operation p = operation;
cw_result : pc_callback_result p = callback_result;
cw_result_type : type_of callback_result = Some return_type;
cw_state : ∃ item effects result_type,
type_of destination = Some result_type
∧ typed (VClosure (pc_callback p).1 (pc_callback p).2)
    (TFunction (callback_parameters operation item return_type) return_type effects)
∧ Forall (λ v, typed v item) (pc_values p)
∧ (∀ v, pc_current p = Some v → typed v item)
∧ collected operation item return_type result_type p
}.

(** The frame has come back to a fold or a combinator with the result of the
callback in its register. *)
Definition resumes (i : Instruction) (pc : nat) (f : MachineFrame) : Prop :=
match i with
| ListFold destination _ _ _ =>
mf_combinator f = None
∧ ∃ p acc, mf_fold f = Some p ∧ fold_waits destination pc p acc
           ∧ held (mf_registers f) destination acc
| ListCombinator_ destination operation _ _ _ callback_result =>
mf_fold f = None
∧ ∃ p t, mf_combinator f = Some p
         ∧ combinator_waits destination operation callback_result pc p t
         ∧ pc_waiting p = true ∧ is_Some (pc_current p)
         ∧ held (mf_registers f) callback_result t
| _ => False
end.

Definition idle (f : MachineFrame) : Prop := mf_fold f = None ∧ mf_combinator f = None.

(** A call of a function of the module with inputs of its types. *)
Definition called (callee : FunctionId) (arguments captures : list Value) (t : ValueType) : Prop :=
∃ g parameters types, functions module !! callee = Some g ∧ fn_return_type g = t
∧ register_types g (fn_parameters g) = Some parameters
∧ register_types g (fn_captures g) = Some types
∧ Forall2 (λ v t, typed v t) arguments parameters
∧ Forall2 (λ v t, typed v t) captures types.

(** Where the instruction at [pc] may leave the frame: on one of its edges, with
the registers that edge promises, or at the instruction itself, waiting. *)
Definition stands (s : list bool) (pc : nat) (i : Instruction) (edges : list (nat * list Register))
(frame f : MachineFrame) : Prop :=
mf_function f = mf_function frame ∧ mf_active_scopes f = mf_active_scopes frame
∧ mf_continuation f = mf_continuation frame
∧ ((idle f ∧ ∃ e, e ∈ edges ∧ mf_program_counter f = e.1
    ∧ registers_typed (mark_all (mark s (instruction_destination i)) e.2) (mf_registers f))
 ∨ (mf_program_counter f = pc ∧ resumes i pc f ∧ registers_typed s (mf_registers f))).

Definition leads (s : list bool) (pc : nat) (i : Instruction) (edges : list (nat * list Register))
(frame : MachineFrame) (o : Outcome) : Prop :=
match o with
| Continue f => stands s pc i edges frame f
| Returned v => typed v (fn_return_type function)
| Calls f callee arguments captures d =>
mf_function f = mf_function frame ∧ mf_continuation f = mf_continuation frame
∧ ∃ t, called callee arguments captures t
  ∧ ∀ v, typed v t → ∃ registers', write_register (mf_registers f) d v = Ok registers'
           ∧ stands s pc i edges frame (set_registers f registers')
end.

Lemma held_write s registers d v t :
registers_typed s registers → type_of d = Some t → typed v t →
∃ registers', write_register registers d v = Ok registers'
∧ registers_typed (<[d := true]> s) registers' ∧ registers_typed s registers'
∧ held registers' d t.
Proof.
intros Hr Ht Hv. destruct (write_register_ok module function s registers d v t Hr Ht Hv)
as (registers' & Hw & Hr').
exists registers'. split; [done|]. split; [done|]. split.
- eapply registers_typed_le; [|exact Hr']. intros r Hs. destruct (decide (r = d)) as [->|].
+ apply list_lookup_insert_eq. by eapply lookup_lt_Some.
+ by rewrite list_lookup_insert_ne.
- exists v. split; [|done]. unfold write_register in Hw. case_bool_decide; [|done].
injection Hw as <-. by rewrite read_register_eq, list_lookup_insert_eq.
Qed.

Lemma held_mark s registers d t :
registers_typed s registers → held registers d t → type_of d = Some t →
registers_typed (<[d := true]> s) registers.
Proof.
intros [Hl Hr] (v & Hv & Htv) Ht. split; [done|]. intros r u Hs Hu.
destruct (decide (r = d)) as [->|Hne].
- exists v. split; [done|congruence].
- rewrite list_lookup_insert_ne in Hs by done. by apply Hr.
Qed.
End Frames.

(** ** What an accepted instruction does to its frame *)

Section Leads.
Context (module : Module_) {A : Type} `{EqDecision A} (address : Value → A).
Context (function_id : FunctionId) (function : Function) (capabilities : list string) (pc : nat).
Context (tools : option (list ToolVerificationContract)) (templates : option (list TemplateResource)).
Context (initialized : list bool) (caches caches' : Caches) (frame : MachineFrame).
Context (s : list bool).
Hypothesis Haddress : address_sound address.
Hypothesis Hmaps :
∀ r k e, fn_registers function !! r = Some (TMap k e) → is_map_key k = true.
Hypothesis Hcache : cache_closed module false caches.1.
Hypothesis Htyped : registers_typed module function s (mf_registers frame).
Hypothesis Hpc : mf_program_counter frame = S pc.
Hypothesis Hscopes : mf_active_scopes frame = [].
Local Set Default Proof Using "Type*".
Abbreviation type_of r := (fn_registers function !! r) (only parsing).
Abbreviation exec := (exec module address function capabilities pc) (only parsing).
Abbreviation typed v t := (well_typed module v t = true) (only parsing).
Abbreviation registers := (mf_registers frame) (only parsing).
Abbreviation accepted i :=
(verify_instruction module function initialized tools templates function_id i caches
= Some (Ok caches')) (only parsing).
Abbreviation sources_held i :=
(Forall (source_held module function registers) (instruction_sources i)) (only parsing).
Abbreviation edges_of i := (instruction_edges pc (length (fn_code function)) i) (only parsing).
Abbreviation leads := (leads module function s pc) (only parsing).
Abbreviation stands := (stands module function s pc) (only parsing).

(** The edge of the instructions that go on to the next one. *)
Lemma next_edge i edges d :
instruction_destination i = Some d → edges_of i = Ok edges → edges = [(S pc, [])].
Proof.
intros Hd He. destruct i; try discriminate Hd; cbn [instruction_edges] in He;
(destruct (Nat.eqb _ _); [done|by injection He as <-]).
Qed.

(** Assigning the destination leads to the next instruction. *)
Lemma assign_stands i edges f d t v :
instruction_destination i = Some d → edges_of i = Ok edges → type_of d = Some t → typed v t →
mf_function f = mf_function frame → mf_continuation f = mf_continuation frame →
mf_active_scopes f = [] → mf_program_counter f = S pc → idle f →
registers_typed module function s (mf_registers f) →
∃ registers', write_register (mf_registers f) d v = Ok registers'
∧ stands i edges frame (set_registers f registers').
Proof.
intros Hd He Ht Hv Hf1 Hf2 Hf3 Hf4 Hidle Hr. rewrite (next_edge _ _ _ Hd He).
destruct (held_write module function s _ d v t Hr Ht Hv) as (registers' & -> & Hr' & _).
exists registers'. split; [done|]. split; [done|]. split; [simpl; congruence|]. split; [done|].
left. split; [done|]. exists (S pc, []). split; [constructor|]. split; [done|]. by rewrite Hd.
Qed.

Lemma assign_leads i edges d t v :
instruction_destination i = Some d → edges_of i = Ok edges → type_of d = Some t → typed v t →
idle frame → runs (assign frame d v) (leads i edges frame).
Proof.
intros Hd He Ht Hv Hidle. unfold assign.
destruct (assign_stands i edges frame d t v) as (registers' & -> & Hst); [done..|].
by apply runs_lift_bind, runs_ret.
Qed.

Lemma computed_leads i edges m :
computes i = true → accepted i → sources_held i → edges_of i = Ok edges → idle frame →
exec i frame = Some m → runs m (leads i edges frame).
Proof.
intros Hi Hv Hs He Hidle Hm.
destruct (accepted_assigns module address function_id function capabilities pc tools templates
          Haddress Hmaps initialized caches caches' frame i m Hi Hcache Hv Hs Hm)
as (d & m' & t & Hd & He' & Ht & Hm').
rewrite He' in Hm. injection Hm as <-. eapply runs_bind; [exact Hm'|]. intros v Htv.
by eapply assign_leads.
Qed.

Lemma switch_leads r arms edges m :
accepted (SwitchEnum r arms) → sources_held (SwitchEnum r arms) →
edges_of (SwitchEnum r arms) = Ok edges → idle frame →
exec (SwitchEnum r arms) frame = Some m → runs m (leads (SwitchEnum r arms) edges frame).
Proof.
intros Hv Hs [= <-] Hidle [= <-]. unfold_rule Hv. rules.
destruct (Nat.eqb_spec (length arms) a1) as [Hlen|]; [|done]. simpl in *.
apply Forall_cons in Hs as [Hr _]. unfold exec_switch.
match goal with H : type_of r = Some _ |- _ => specialize (Hr _ H) end. read_registers.
match goal with H : enum_variant_count _ _ = Some _ |- _ =>
destruct (typed_variants _ _ _ _ H Ht) as (ei & tn & n & vn & p & types & -> & Hn & Hp & Hpt) end.
match goal with H : verify_arms _ _ _ _ _ = Ok _ |- _ =>
destruct (verify_arms_ok _ _ _ _ _ _ n H) as (arm & Hfind & Hb); [lia|] end.
rewrite Hp in Hb. simpl in Hb. rewrite Hfind. apply runs_lift_bind. simpl.
unfold write_switch_bindings. fold (payload_values p).
rewrite (Forall2_length _ _ _ Hpt), (Forall2_length _ _ _ Hb), Nat.eqb_refl. simpl.
destruct (write_bindings_ok module function s registers _ _ _ Htyped Hpt Hb)
as (registers' & -> & Hr').
apply runs_lift_bind, runs_ret. split; [done|]. split; [done|]. split; [done|]. left.
split; [done|]. exists (arm_target arm, arm_bindings arm).
apply find_arm in Hfind as [Hin _]. split; [|done].
by apply (list_elem_of_fmap_2 (λ arm, (arm_target arm, arm_bindings arm))).
Qed.

(** The other instructions without a destination. *)
Lemma control_leads i edges m :
instruction_destination i = None → (∀ r arms, i ≠ SwitchEnum r arms) →
accepted i → sources_held i → edges_of i = Ok edges → idle frame →
exec i frame = Some m → runs m (leads i edges frame).
Proof.
intros Hd Hsw Hv Hs He Hidle Hm.
destruct i; try discriminate Hd; try discriminate Hm; try (by destruct (Hsw source arms));
simpl in He; injection He as <-; open_rule Hv Hs; injection Hm as <-;
unfold exec_branch, exec_stop, exec_fail, exec_return.
- read_registers. apply runs_ret. split; [done|]. split; [done|]. split; [done|]. left.
split; [done|]. exists (if z then true_target else false_target, []).
split; [destruct z; repeat constructor|]. by destruct z.
- apply runs_ret. split; [done|]. split; [done|]. split; [done|]. left. split; [done|].
exists (target, []). split; [constructor|done].
- read_registers. by destruct v.
- read_registers. destruct v; try done. by case_match.
- rewrite bool_decide_eq_true_2 by done. read_registers. by apply runs_ret.
Qed.

(** *** Early returns *)

Lemma try_result_leads d r edges m :
accepted (TryResult d r) → sources_held (TryResult d r) →
edges_of (TryResult d r) = Ok edges → idle frame →
exec (TryResult d r) frame = Some m → runs m (leads (TryResult d r) edges frame).
Proof.
intros Hv Hs He Hidle Hm. cbn [VmStep.exec] in Hm. rewrite Hscopes in Hm. injection Hm as <-.
open_rule Hv Hs. unfold exec_try_result. read_registers.
match goal with H : well_typed _ ?v _ = true |- _ => destruct v; try done; rename H into Ht' end.
cbn [well_typed] in Ht'. apply andb_true_iff in Ht' as [Hi Hp].
pose proof Hi as ->%bool_decide_eq_true. simpl.
destruct variant as [|[|n]], payload as [|[|x [|]]|]; try done; simpl.
- apply runs_lift_bind. simpl. by eapply assign_leads.
- apply runs_ret. simpl. match goal with H : fn_return_type _ = _ |- _ => rewrite H end. done.
Qed.

Lemma try_option_leads d r edges m :
accepted (TryOption d r) → sources_held (TryOption d r) →
edges_of (TryOption d r) = Ok edges → idle frame →
exec (TryOption d r) frame = Some m → runs m (leads (TryOption d r) edges frame).
Proof.
intros Hv Hs He Hidle Hm. cbn [VmStep.exec] in Hm. rewrite Hscopes in Hm. injection Hm as <-.
open_rule Hv Hs. unfold exec_try_option. read_registers.
match goal with H : well_typed _ ?v _ = true |- _ => destruct v; try done; rename H into Ht' end.
cbn [well_typed] in Ht'. apply andb_true_iff in Ht' as [Hi Hp].
pose proof Hi as ->%bool_decide_eq_true. simpl.
destruct variant as [|[|n]], payload as [|[|x [|]]|]; try done; simpl.
- apply runs_ret. simpl. match goal with H : fn_return_type _ = _ |- _ => rewrite H end. done.
- apply runs_lift_bind. simpl. by eapply assign_leads.
Qed.

(** *** Calls *)

Lemma calls_lead i edges d t callee arguments captures :
instruction_destination i = Some d → edges_of i = Ok edges → type_of d = Some t →
called module callee arguments captures t → idle frame →
leads i edges frame (Calls frame callee arguments captures d).
Proof.
intros Hd He Ht Hc Hidle. split; [done|]. split; [done|]. exists t. split; [done|].
intros v Hv. by eapply assign_stands.
Qed.

(** A closure of a function type is called with arguments of its parameters. *)
Lemma called_closure id captures parameters return_type effects arguments :
typed (VClosure id captures) (TFunction parameters return_type effects) →
Forall2 (λ v t, typed v t) arguments parameters →
called module id arguments captures return_type.
Proof using Type.
cbn [well_typed]. intros Ht Ha. destruct (functions module !! id) as [g|] eqn:Hg; [|done].
apply andb_true_iff in Ht as [Hf%bool_decide_eq_true Hc].
destruct (register_types g (fn_captures g)) as [types|] eqn:Hk; [|done].
unfold function_value_type in Hf. destruct (mapM _ _) as [ps|] eqn:Hp; [|done]. simpl in Hf.
injection Hf as <- <- _. exists g, ps, types. split_and!; try done. by apply all_typed.
Qed.

Lemma direct_call_leads d callee arguments edges m :
accepted (DirectCall d callee arguments) → sources_held (DirectCall d callee arguments) →
edges_of (DirectCall d callee arguments) = Ok edges → idle frame →
exec (DirectCall d callee arguments) frame = Some m →
runs m (leads (DirectCall d callee arguments) edges frame).
Proof.
intros Hv Hs He Hidle [= <-]. cbn [verify_instruction] in Hv. unfold verify_direct_call in Hv.
simpl in Hs. rules. destruct (is_async module callee); [done|].
case_bool_decide as Hcap; [|done]. cbn [negb] in *. rules.
match goal with H : verify_lazy_arguments _ _ _ _ = _ |- _ =>
apply lazy_arguments_ok in H as (types & Hc & Ha) end.
unfold exec_direct_call.
destruct (clone_held _ _ _ _ (each_held module function frame _ _ Hs Ha)) as (values & -> & Hvs).
apply runs_lift_bind, runs_ret. eapply calls_lead; [done..| |done].
eexists _, types, []. split; [done|]. split; [done|].
split; [by apply registers_mapM|]. rewrite Hcap. split_and!; done.
Qed.

Lemma closure_call_leads d closure arguments edges m :
accepted (ClosureCall d closure arguments) → sources_held (ClosureCall d closure arguments) →
edges_of (ClosureCall d closure arguments) = Ok edges → idle frame →
exec (ClosureCall d closure arguments) frame = Some m →
runs m (leads (ClosureCall d closure arguments) edges frame).
Proof.
intros Hv Hs He Hidle [= <-]. cbn [verify_instruction] in Hv. unfold verify_closure_call in Hv.
simpl in Hs. apply Forall_cons in Hs as [Hr Hs]. rules.
match goal with H : match ?t with TFunction _ _ _ => _ | _ => _ end = _ |- _ =>
destruct t; try done end. rules.
match goal with H : type_of closure = Some _ |- _ => specialize (Hr _ H) end.
unfold exec_closure_call. read_registers. destruct v; try done.
match goal with H : Forall2 _ arguments _ |- _ =>
destruct (clone_held _ _ _ _ (each_held module function frame _ _ Hs H)) as (values & -> & Hvs) end.
apply runs_lift_bind, runs_ret. eapply calls_lead; [done..| |done]. by eapply called_closure.
Qed.

Lemma await_leads d r edges m :
accepted (Await d r) → sources_held (Await d r) → edges_of (Await d r) = Ok edges →
idle frame → exec (Await d r) frame = Some m → runs m (leads (Await d r) edges frame).
Proof.
intros Hv Hs He Hidle Hm. cbn [verify_instruction] in Hv. unfold verify_await in Hv.
simpl in Hs. apply Forall_cons in Hs as [Hr _].
destruct (is_async module function_id); [|done]. simpl in Hv. rules. cbn [VmStep.exec] in Hm.
unfold exec_await in Hm.
match goal with H : type_of r = Some _ |- _ =>
destruct (held_read _ _ _ _ (Hr _ H)) as (v & Hrd & Htv) end.
rewrite Hrd in Hm.
match goal with H : match ?t with _ => _ end = Ok _ |- _ => destruct t; try done end; rules;
destruct v as [| | | | | | | | | | | | | | |future| | | | |]; try done.
destruct future as [callee arguments| | |]; try done. injection Hm as <-.
apply runs_ret. eapply calls_lead; [done..| |done].
cbn [well_typed] in Htv. destruct (functions module !! callee) as [g|] eqn:Hg; [|done].
apply andb_true_iff in Htv as [Htv Ha]. apply andb_true_iff in Htv as [Hcap Hret].
apply bool_decide_eq_true in Hcap. apply ValueType_eqb_eq in Hret.
destruct (register_types g (fn_parameters g)) as [types|] eqn:Hp; [|done].
exists g, types, []. rewrite Hcap. split_and!; try done. by apply all_typed.
Qed.

(** *** Folds *)

(** The frame of the running instruction with other registers and other pending
state. *)
Definition same_frame (f : MachineFrame) : Prop :=
mf_function f = mf_function frame ∧ mf_active_scopes f = mf_active_scopes frame
∧ mf_continuation f = mf_continuation frame ∧ mf_program_counter f = S pc.

Lemma fold_next_leads d values initial callback edges f p acc :
edges_of (ListFold d values initial callback) = Ok edges → same_frame f →
mf_combinator f = None → fold_waits module function d pc p acc →
held module (mf_registers f) d acc → registers_typed module function s (mf_registers f) →
runs (fold_next f pc p) (leads (ListFold d values initial callback) edges frame).
Proof.
intros He (Hf1 & Hf2 & Hf3 & Hf4) Hcomb [Hi Hd Ht (item & effects & Hcb & Hvs)] Hheld Hr.
unfold fold_next. destruct (pf_values p !! pf_index p) as [x|] eqn:Hx.
- rewrite Hd. destruct Hheld as (a & Ha & Hta). eapply runs_read; [exact Ha|]. apply runs_ret.
split; [done|]. split; [done|]. exists acc. split.
{ eapply called_closure; [exact Hcb|]. rewrite Forall_forall in Hvs.
  repeat constructor; [done|]. by eapply Hvs, list_elem_of_lookup_2. }
intros v Hv. destruct (held_write module function s _ d v acc Hr Ht Hv)
  as (registers' & Hw & _ & Hr' & Hh).
exists registers'. split; [exact Hw|]. split; [done|]. split; [done|]. split; [done|]. right.
split; [done|]. split; [|done]. split; [done|].
eexists _, acc. split; [done|]. split; [|done]. split; [done..|]. by exists item, effects.
- apply runs_ret. split; [done|]. split; [done|]. split; [done|]. left. split; [done|].
rewrite (next_edge (ListFold d values initial callback) _ d eq_refl He). exists (S pc, []). split; [constructor|].
split; [done|]. by eapply held_mark.
Qed.

Lemma types_eqb_eq l r : types_eqb l r = true → l = r.
Proof using Type.
intros H. assert (TTuple l = TTuple r) as [= ->]; [|done]. by apply ValueType_eqb_eq.
Qed.

Lemma list_fold_rule d values initial callback :
accepted (ListFold d values initial callback) →
∃ item acc effects, type_of values = Some (TList item) ∧ type_of initial = Some acc
∧ type_of callback = Some (TFunction [acc; item] acc effects) ∧ type_of d = Some acc.
Proof using Type.
intros Hv. cbn [verify_instruction] in Hv. unfold verify_list_fold in Hv. rules.
match goal with H : match ?t with TList _ => _ | _ => _ end = _ |- _ =>
destruct t eqn:Evs; try done end. rules.
match goal with H : match ?t with TFunction _ _ _ => _ | _ => _ end = _ |- _ =>
destruct t eqn:Ecb; try done end.
destruct (types_eqb _ _) eqn:Ep; [|done]. apply types_eqb_eq in Ep as ->.
destruct (ValueType_eqb _ _) eqn:Er; [|done]. apply ValueType_eqb_eq in Er as ->.
cbn [negb] in *. rules. case_bool_decide; [|done]. cbn [negb] in *. rules.
by do 3 eexists.
Qed.

Lemma fold_leads d values initial callback edges m :
accepted (ListFold d values initial callback) →
sources_held (ListFold d values initial callback) →
edges_of (ListFold d values initial callback) = Ok edges →
idle frame ∨ resumes module function (ListFold d values initial callback) pc frame →
exec (ListFold d values initial callback) frame = Some m →
runs m (leads (ListFold d values initial callback) edges frame).
Proof.
intros Hv Hs He Hstate [= <-]. unfold exec_list_fold, pending_fold.
destruct Hstate as [[Hfold Hcomb]|(Hcomb & p & acc & Hfold & Hw & Hh)]; rewrite Hfold; simpl.
2: { rewrite (fw_instruction _ _ _ _ _ _ Hw), Nat.eqb_refl. by eapply fold_next_leads. }
destruct (list_fold_rule _ _ _ _ Hv) as (item & acc & effects & Hvs & Hin & Hcb & Hd).
simpl in Hs. apply Forall_cons in Hs as [H1 Hs]. apply Forall_cons in Hs as [H2 Hs].
apply Forall_cons in Hs as [H3 _]. unfold start_fold.
destruct (held_list _ _ _ _ (H1 _ Hvs)) as (l & -> & Hl & _).
destruct (held_read _ _ _ _ (H3 _ Hcb)) as (c & -> & Hc). destruct c; try done.
destruct (held_read _ _ _ _ (H2 _ Hin)) as (a & -> & Ha).
destruct (held_write module function s _ d a acc Htyped Hd Ha)
as (registers' & Hw & _ & Hr' & Hh).
rewrite Hw. apply runs_lift_bind. simpl. eapply fold_next_leads; try done.
split; try done. by exists item, effects.
Qed.

(** *** Combinators *)

Lemma list_combinator_rule d operation values initial callback callback_result :
accepted (ListCombinator_ d operation values initial callback callback_result) →
∃ item t effects result_type,
type_of values = Some (TList item)
∧ type_of callback = Some (TFunction (callback_parameters operation item t) t effects)
∧ type_of callback_result = Some t ∧ type_of d = Some result_type
∧ (∀ r, initial = Some r → type_of r = Some t)
∧ ∀ p, pc_output p = [] → pc_rest p = [] →
    (∀ r, initial = Some r → ∃ a, pc_accumulator p = Some a ∧ typed a t) →
    collected module operation item t result_type p.
Proof using Type.
intros Hv. cbn [verify_instruction] in Hv. unfold verify_list_combinator in Hv. rules.
match goal with H : match ?t with TList _ => _ | _ => _ end = _ |- _ =>
destruct t as [| | | | | | | |item| | | | | | | | | | | | | | |] eqn:Evs; try done end. rules.
match goal with H : match ?c with TFunction _ _ _ => _ | _ => _ end = _ |- _ =>
destruct c as [| | | | | | | | | | | | | | | | | | | | | |parameters t effects|] eqn:Ecb;
try done end.
rules. case_bool_decide; [|done]. cbn [negb] in *. rules.
destruct (_ && _) eqn:Hinit; [done|]. rules. exists item, t, effects.
match goal with H : list_combinator_result _ _ _ _ _ _ _ = Ok ?x |- _ =>
exists x; rename H into Hres end.
unfold list_combinator_result in Hres.
destruct operation; simpl in Hinit, Hres;
try (destruct initial; [discriminate Hinit|]);
repeat match type of Hres with
| (if ?x then _ else _) = _ => destruct x eqn:?; [|discriminate Hres]
| match ?x with _ => _ end = _ => destruct x eqn:?; try discriminate Hres
end; rules;
repeat match goal with
| H : _ && _ = true |- _ => apply andb_true_iff in H as [? ?]
| H : types_eqb _ _ = true |- _ => apply types_eqb_eq in H; subst
| H : ValueType_eqb _ _ = true |- _ => apply ValueType_eqb_eq in H; subst
end; simpl.
all: try (split_and!; try done; intros p Ho Hp _; rewrite ?Ho, ?Hp; naive_solver).
split_and!; try done; [by intros ? [= <-]|]. intros p -> _ Ha. split_and!; try done. by eapply Ha.
Qed.

Lemma typed_snoc t l v :
Forall (λ v, typed v t) l → typed v t → Forall (λ v, typed v t) (l ++ [v]).
Proof using Type. intros Hl Hv. apply Forall_app. by repeat constructor. Qed.

(** The callback's result keeps what is collected typed. *)
Lemma absorb_ok operation item t result_type p current r :
pc_operation p = operation → collected module operation item t result_type p →
typed current item → typed r t →
∃ a, absorb p current r = Ok a ∧ collected module operation item t result_type (absorbed p a).
Proof using Type.
intros Ho Hc Hi Hr. unfold absorb. rewrite Ho. destruct operation; simpl in Hc;
try (destruct Hc as (-> & -> & Hc); destruct r as [|b| | | | | | | | | | | | | | | | | | |];
     try discriminate Hr).
- destruct Hc as [-> Hc]. eexists. split; [done|]. split; [done|]. by apply typed_snoc.
- destruct b; eexists; (split; [done|]); (split; [done|]); (split; [done|]); [|done].
by apply typed_snoc.
- destruct Hc as (u & -> & -> & Hc). destruct r; try done. eexists. split; [done|].
exists u. split; [done|]. split; [done|]. apply Forall_app. split; [done|].
simpl in Hr. rewrite forallb_forall in Hr. apply Forall_forall. intros x Hx.
by apply Hr, list_elem_of_In.
- destruct Hc as (u & -> & -> & Hc). destruct r as [| | | | | | | | | | | |i tn n vn q| | | | | | | |];
  try done.
cbn [well_typed] in Hr. apply andb_true_iff in Hr as [->%bool_decide_eq_true Hr].
destruct n as [|[|n]], q as [|[|x [|]]|]; try done; eexists; (split; [done|]); exists u;
  (split; [done|]); (split; [done|]); [done|]. by apply typed_snoc.
- destruct b; eexists; (split; [done|]); (split; [done|]); (split; [done|]); [|done].
by apply typed_snoc.
- destruct Hc as [-> ->]. destruct r as [|[]| | | | | | | | | | | | | | | | | | |];
  try discriminate Hr; by eexists.
- destruct Hc as [-> ->]. destruct r as [|[]| | | | | | | | | | | | | | | | | | |];
  try discriminate Hr; by eexists.
- destruct Hc as [Hc1 Hc2]. destruct b; eexists; (split; [done|]); split_and!; try done;
  by apply typed_snoc.
- destruct Hc as (-> & Hc & _). eexists. split; [done|]. split; [done|].
split; [by apply typed_snoc|]. by exists r.
Qed.

Lemma finish_ok operation item t result_type p :
pc_operation p = operation → collected module operation item t result_type p →
runs (finish_list_combinator p) (λ v, typed v result_type).
Proof using Type.
intros Ho Hc. unfold finish_list_combinator. rewrite Ho.
destruct operation; simpl in Hc;
repeat match goal with
| H : _ ∧ _ |- _ => destruct H as [? ?] | H : ∃ _, _ |- _ => destruct H as [? ?]
end; subst;
try (apply runs_charge_size; [by apply yields_logical_size|]);
try (by apply runs_ret, typed_list); try (by apply runs_ret).
- apply runs_ret. destruct (pc_output p); [done|]. by apply Forall_inv in H1.
- apply runs_charge_size; [by apply yields_logical_size|].
apply runs_charge_size; [unfold record_size; size_ok|]. apply runs_ret.
cbn [well_typed all2 fst snd]. rewrite !String.eqb_refl. cbn [andb].
pose proof (proj2 (typed_list module _ _) H1) as Hm.
pose proof (proj2 (typed_list module _ _) H2) as Hr.
cbn [well_typed] in Hm, Hr. by rewrite Hm, Hr.
Qed.

(** Absorbing the result of the callback, where there is one. *)
Lemma absorb_result_ok d operation callback_result p t :
combinator_waits module function d operation callback_result pc p t →
(pc_waiting p = true → is_Some (pc_current p) ∧ held module registers callback_result t) →
∃ p' complete, absorb_result registers p = Ok (p', complete)
∧ combinator_waits module function d operation callback_result pc p' t.
Proof using Type.
intros Hw Hwait. unfold absorb_result. destruct (pc_waiting p); [|by exists p, false].
destruct (Hwait eq_refl) as [[x Hx] (r & Hr & Htr)].
destruct Hw as [Hi Ho Hc Ht (item & effects & rt & Hd & Hcb & Hvs & Hcur & Hcol)].
rewrite Hc, Hr, Hx.
destruct (absorb_ok operation item t rt p x r Ho Hcol (Hcur x Hx) Htr) as (a & -> & Ha).
eexists _, _. split; [done|]. split; try done. by exists item, effects, rt.
Qed.

Lemma combinator_arguments_typed d operation callback_result p t item effects result_type x :
combinator_waits module function d operation callback_result pc p t →
collected module operation item t result_type p → typed x item →
typed (VClosure (pc_callback p).1 (pc_callback p).2)
(TFunction (callback_parameters operation item t) t effects) →
called module (pc_callback p).1 (combinator_arguments p x) (pc_callback p).2 t.
Proof using Type.
intros Hw Hcol Hx Hcb. eapply called_closure; [exact Hcb|]. unfold combinator_arguments.
rewrite (cw_operation _ _ _ _ _ _ _ _ Hw). destruct operation; try (by repeat constructor).
destruct Hcol as (_ & _ & a & -> & Ha). by repeat constructor.
Qed.

(** The combinator after it has absorbed a result: it finishes or calls back. *)
Lemma combinator_next_leads d operation values initial callback callback_result edges p t
(complete : bool) :
edges_of (ListCombinator_ d operation values initial callback callback_result) = Ok edges →
mf_fold frame = None → combinator_waits module function d operation callback_result pc p t →
runs
match (if complete then None else pc_values p !! pc_index p) with
| None =>
  let! v := finish_list_combinator p in assign (set_combinator frame None) d v
| Some current =>
  ret (Calls (set_pc (set_combinator frame (Some (waiting_on p current))) pc)
         (pc_callback p).1 (combinator_arguments p current) (pc_callback p).2
         (pc_callback_result p))
end
(leads (ListCombinator_ d operation values initial callback callback_result) edges frame).
Proof.
intros He Hfold Hw.
pose proof Hw as [Hi Ho Hc Ht (item & effects & rt & Hd & Hcb & Hvs & _ & Hcol)].
destruct (if complete then None else pc_values p !! pc_index p) as [x|] eqn:Hx.
- assert (typed x item) as Htx.
{ destruct complete; [done|]. rewrite Forall_forall in Hvs.
  by eapply Hvs, list_elem_of_lookup_2. }
apply runs_ret. split; [done|]. split; [done|]. exists t.
split; [by eapply combinator_arguments_typed|]. rewrite Hc. intros v Hv.
destruct (held_write module function s registers callback_result v t Htyped Ht Hv)
  as (registers' & Hwr & _ & Hr' & Hh).
exists registers'. split; [done|]. split; [done|]. split; [done|]. split; [done|]. right.
split; [done|]. split; [|done]. split; [done|]. eexists _, t. split; [done|].
split; [|done]. split; try done. exists item, effects, rt. split_and!; try done.
by intros ? [= <-].
- eapply runs_bind; [by eapply finish_ok|]. intros v Hv. unfold assign.
destruct (assign_stands
            (ListCombinator_ d operation values initial callback callback_result) edges
            (set_combinator frame None) d rt v)
  as (registers' & -> & Hst); try done.
by apply runs_lift_bind, runs_ret.
Qed.

Lemma combinator_leads d operation values initial callback callback_result edges m :
accepted (ListCombinator_ d operation values initial callback callback_result) →
sources_held (ListCombinator_ d operation values initial callback callback_result) →
edges_of (ListCombinator_ d operation values initial callback callback_result) = Ok edges →
idle frame
∨ resumes module function
  (ListCombinator_ d operation values initial callback callback_result) pc frame →
exec (ListCombinator_ d operation values initial callback callback_result) frame = Some m →
runs m (leads (ListCombinator_ d operation values initial callback callback_result) edges frame).
Proof.
intros Hv Hs He Hstate [= <-]. unfold exec_list_combinator, pending_combinator.
destruct Hstate as [[Hfold Hcomb]|(Hfold & p & t & Hcomb & Hw & Hwait & Hcur & Hh)];
rewrite Hcomb; simpl.
2: { rewrite (cw_instruction _ _ _ _ _ _ _ _ Hw), Nat.eqb_refl.
   destruct (absorb_result_ok _ _ _ _ _ Hw) as (p' & complete & Ha & Hw'); [done|].
   eapply runs_bind; [by apply (runs_ret _ (λ x, x = p))|]. intros ? ->. rewrite Ha.
   apply runs_lift_bind. by eapply combinator_next_leads. }
destruct (list_combinator_rule _ _ _ _ _ _ Hv)
as (item & t & effects & rt & Hvs & Hcb & Hcr & Hd & Hinit & Hcol).
simpl in Hs. apply Forall_cons in Hs as [H1 Hs]. apply Forall_cons in Hs as [H2 Hs].
destruct (held_list _ _ _ _ (H1 _ Hvs)) as (l & Hl & Hlt & _).
destruct (held_read _ _ _ _ (H2 _ Hcb)) as (c & Hc & Htc). destruct c; try done.
assert (∃ acc, match initial with
             | None => Ok None
             | Some r => let? x := read_register registers r in Ok (Some x)
             end = @Ok VmError _ acc
             ∧ ∀ r, initial = Some r → ∃ a, acc = Some a ∧ typed a t) as (acc & Hacc & Hta).
{ destruct initial as [r|]; [|by exists None]. apply Forall_cons in Hs as [H3 _].
destruct (held_read _ _ _ _ (H3 _ (Hinit r eq_refl))) as (a & -> & Ha).
exists (Some a). split; [done|]. intros ? [= <-]. by exists a. }
unfold start_combinator. rewrite Hl, Hc, Hacc. apply runs_lift_bind. cbn beta iota delta [yields].
match goal with |- context [absorb_result _ ?q] => set (p := q) end.
assert (combinator_waits module function d operation callback_result pc p t) as Hw.
{ split; try done. exists item, effects, rt. split_and!; try done. by apply Hcol. }
destruct (absorb_result_ok _ _ _ _ _ Hw) as (p' & complete & Ha & Hw'); [done|]. rewrite Ha.
apply runs_lift_bind. by eapply combinator_next_leads.
Qed.

(** Every accepted instruction, in a frame that keeps the promises of its program
counter, leaves it where it may. *)
Lemma accepted_leads i edges m :
accepted i → sources_held i → edges_of i = Ok edges →
idle frame ∨ resumes module function i pc frame →
exec i frame = Some m → runs m (leads i edges frame).
Proof.
intros Hv Hs He Hstate Hm.
destruct (computes i) eqn:Hi.
{ destruct Hstate as [Hidle|Hr]; [by eapply computed_leads|]. by destruct i. }
destruct (instruction_destination i) as [d|] eqn:Hd.
- destruct i; try discriminate Hi; try discriminate Hd;
  try (destruct Hstate as [Hidle|[]];
       first [by eapply try_result_leads|by eapply try_option_leads
             |by eapply direct_call_leads|by eapply closure_call_leads|by eapply await_leads]);
  [by eapply fold_leads|by eapply combinator_leads].
- destruct Hstate as [Hidle|Hr]; [|by destruct i].
destruct i; try discriminate Hd; try discriminate Hm;
  try (by eapply switch_leads); by eapply control_leads.
Qed.
End Leads.

(** ** Tasks *)

Section Tasks.
Context `{Env} (module : Module_) {A : Type} `{EqDecision A} (address : Value → A).
Context (capabilities : list string).
Context (tools : option (list ToolVerificationContract)) (templates : option (list TemplateResource)).
Abbreviation typed v t := (well_typed module v t = true) (only parsing).

(** Instruction indices are [u32]. *)
Definition code_indexed : Prop :=
∀ id f, functions module !! id = Some f → Z.of_nat (length (fn_code f)) <= u32_max + 1.

(** What the run of a module needs of its functions: the checks of the code accept
them, the values of their registers nest within the limit. *)
Definition module_verified : Prop :=
∀ id f, functions module !! id = Some f →
(∃ states, verify_function tools templates module id f = Some (Ok states))
∧ Z.of_nat (length (fn_code f)) <= u32_max + 1
∧ nests_within_limit module f.

Lemma internal_verified u :
verify_internal module tools templates = Some (Ok u) → code_indexed → module_verified.
Proof using Type.
intros Hv Hcode id f Hf. split_and!; [by eapply internal_function|by eapply Hcode|].
intros r t v Hr Ht. by eapply internal_nesting, well_typed_has_type.
Qed.

(** The frame runs a function of the module, no task scope is open, the registers
that the analysis promises at the program counter hold values of their types,
and a fold or combinator that is pending belongs to the instruction. *)
Definition frame_ok (frame : MachineFrame) : Prop :=
∃ function states i s,
functions module !! mf_function frame = Some function
∧ verify_function tools templates module (mf_function frame) function = Some (Ok states)
∧ fn_code function !! mf_program_counter frame = Some i
∧ states !! mf_program_counter frame = Some (Some s)
∧ registers_typed module function s (mf_registers frame)
∧ mf_active_scopes frame = []
∧ (idle frame ∨ resumes module function i (mf_program_counter frame) frame).

(** The frames below a running function whose result has type [t]: each can take
the result into the register it waits for.  The last one leaves a value of
type [u]. *)
Inductive callers_ok : option Register → ValueType → list MachineFrame → ValueType → Prop :=
| callers_none t : callers_ok None t [] t
| callers_some d t caller callers g u :
functions module !! mf_function caller = Some g →
(∀ v, typed v t → ∃ registers', write_register (mf_registers caller) d v = Ok registers'
        ∧ frame_ok (set_registers caller registers')) →
callers_ok (mf_continuation caller) (fn_return_type g) callers u →
callers_ok (Some d) t (caller :: callers) u.

(** A task that will complete with a value of type [u]. *)
Definition task_ok (frames : list MachineFrame) (u : ValueType) : Prop :=
∃ frame callers g, frames = frame :: callers ∧ frame_ok frame
∧ functions module !! mf_function frame = Some g
∧ callers_ok (mf_continuation frame) (fn_return_type g) callers u.

(** *** Entering a function *)

Lemma write_inputs_ok function s registers inputs values types :
registers_typed module function s registers →
Forall2 (λ r t, fn_registers function !! r = Some t) inputs types →
Forall2 (λ v t, typed v t) values types →
∃ registers', write_inputs registers (combine inputs values) = Ok registers'
            ∧ registers_typed module function (mark_all s inputs) registers'.
Proof.
intros Hr Hi. revert s registers values Hr.
induction Hi as [|r t inputs types Ht _ IH]; intros s registers values Hr Hv; inversion Hv; subst.
{ by exists registers. }
match goal with H : typed ?v t |- _ =>
destruct (write_register_ok module function s registers r v t Hr Ht H)
  as (registers' & Hw & Hr') end.
simpl. rewrite Hw. by apply IH.
Qed.

Lemma mark_all_app s l k : mark_all s (l ++ k) = mark_all (mark_all s l) k.
Proof. unfold mark_all. apply fold_left_app. Qed.

Lemma no_registers_typed function n :
n = length (fn_registers function) →
registers_typed module function (replicate n false) (replicate n None).
Proof.
intros ->. split; [apply length_replicate|]. intros r t Hr. by apply replicate_false in Hr.
Qed.

(** A call with inputs of the declared types enters the function in a frame that
keeps the promises of its first instruction. *)
Lemma enter_safe callee arguments captures continuation depth t :
module_verified → called module callee arguments captures t →
runs (new_machine_frame module callee arguments captures continuation depth)
(λ f, frame_ok f ∧ mf_function f = callee ∧ mf_continuation f = continuation).
Proof.
intros Hmod (g & parameters & types & Hg & _ & Hp & Hk & Ha & Hc).
destruct (Hmod _ _ Hg) as [[states Hv] _].
pose proof (verify_function_verified _ _ _ _ _ _ Hv) as Hver.
apply registers_mapM in Hp, Hk. unfold new_machine_frame. rewrite Hg. apply runs_lift_bind. simpl.
rewrite (Forall2_length _ _ _ Ha), (Forall2_length _ _ _ Hc).
rewrite (Forall2_length _ _ _ Hp), (Forall2_length _ _ _ Hk), !Nat.eqb_refl. simpl.
eapply (runs_bind _ _ (λ _, True)).
{ intros b. unfold enter_frame. by repeat case_match; simplify_eq/=. }
intros _ _. apply runs_charge_size; [unfold frame_size; size_ok|].
destruct (write_inputs_ok g _ _ _ _ _ (no_registers_typed g _ eq_refl) Hp Ha) as (r1 & Hw1 & Hr1).
destruct (write_inputs_ok g _ _ _ _ _ Hr1 Hk Hc) as (r2 & Hw2 & Hr2).
apply runs_lift_bind. rewrite Hw1, Hw2. apply runs_ret. split; [|done].
destruct (vf_entry _ _ _ _ _ _ Hver) as (s & Hs & Hle).
pose proof (lookup_lt_Some _ _ _ Hs) as Hlt. rewrite (vf_length _ _ _ _ _ _ Hver) in Hlt.
apply lookup_lt_is_Some_2 in Hlt as [i Hi].
exists g, states, i, s. split_and!; try done; [|by left].
rewrite mark_all_app in Hle. by eapply registers_typed_le.
Qed.

(** *** Steps *)

(** Where an accepted instruction leaves the frame, the frame keeps its promises. *)
Lemma stands_ok frame function states i s pc edges f :
functions module !! mf_function frame = Some function →
verify_function tools templates module (mf_function frame) function = Some (Ok states) →
fn_code function !! pc = Some i → states !! pc = Some (Some s) →
Forall (edge_ok states (mark s (instruction_destination i))) edges →
mf_active_scopes frame = [] →
stands module function s pc i edges frame f → frame_ok f.
Proof.
intros Hf Hv Hi Hs Hedges Hsc (Hf1 & Hf2 & Hf3 & [(Hidle & e & He & Hpc & Hr)|(Hpc & Hres & Hr)]).
- rewrite Forall_forall in Hedges. destruct (Hedges e He) as (s' & Hs' & Hle).
pose proof (verify_function_verified _ _ _ _ _ _ Hv) as Hver.
pose proof (lookup_lt_Some _ _ _ Hs') as Hlt. rewrite (vf_length _ _ _ _ _ _ Hver) in Hlt.
apply lookup_lt_is_Some_2 in Hlt as [j Hj].
exists function, states, j, s'. rewrite Hf1, Hpc. split_and!; try done; [|congruence|by left].
by eapply registers_typed_le.
- exists function, states, i, s. rewrite Hf1, Hpc. split_and!; try done; [congruence|by right].
Qed.

(** What the outcome of an instruction promises to the step. *)
Definition outcome_ok (frame : MachineFrame) (t : ValueType) (o : Outcome) : Prop :=
match o with
| Continue f => frame_ok f ∧ mf_function f = mf_function frame
              ∧ mf_continuation f = mf_continuation frame
| Returned v => typed v t
| Calls f callee arguments captures d =>
mf_function f = mf_function frame ∧ mf_continuation f = mf_continuation frame
∧ ∃ t, called module callee arguments captures t
  ∧ ∀ v, typed v t → ∃ registers', write_register (mf_registers f) d v = Ok registers'
           ∧ frame_ok (set_registers f registers')
end.

Lemma runs_charge_instruction checkpoint : runs (λ b, charge_instruction b checkpoint) (λ _, True).
Proof.
intros b. unfold charge_instruction, check_interruption. repeat (case_match; simplify_eq/=); done.
Qed.

Hypothesis Haddress : address_sound address.
Hypothesis Hmodule : module_verified.

(** Executing the instruction of a frame that keeps its promises. *)
Lemma exec_safe frame function i m :
frame_ok frame → representable (mf_registers frame) →
functions module !! mf_function frame = Some function →
fn_code function !! mf_program_counter frame = Some i →
exec module address function capabilities (mf_program_counter frame) i
(set_pc frame (S (mf_program_counter frame))) = Some m →
runs m (outcome_ok frame (fn_return_type function)).
Proof using Haddress Hmodule.
intros (function' & states & i' & s & Hf' & Hv & Hi' & Hs & Hr & Hsc & Hstate) Hrep Hf Hi Hm.
rewrite Hf in Hf'. injection Hf' as <-. rewrite Hi in Hi'. injection Hi' as <-.
pose proof (verify_function_verified _ _ _ _ _ _ Hv) as Hver.
destruct (vf_sound _ _ _ _ _ _ Hver _ i s Hi Hs) as (Hsrc & edges & Hedges & Hall).
destruct (vf_rules _ _ _ _ _ _ Hver _ _ Hi) as (initialized & caches & caches' & Hcache & Hrule).
set (frame' := set_pc frame (S (mf_program_counter frame))) in *.
eapply runs_impl.
- eapply (accepted_leads module address (mf_function frame) function capabilities
          (mf_program_counter frame) tools templates initialized caches caches' frame' s
          Haddress (vf_maps _ _ _ _ _ _ Hver) Hcache Hr eq_refl Hsc i edges m); try done.
apply marked_held with s; try done. by apply (Hmodule _ _ Hf).
- intros [f|v|f callee arguments captures d]; [|done|].
+ intros Hst. split; [by eapply (stands_ok frame')|]. by destruct Hst as (? & _ & ? & _).
+ intros (? & ? & t & Hc & Hret). split; [done|]. split; [done|]. exists t. split; [done|].
  intros v Hv'. destruct (Hret v Hv') as (registers' & Hw & Hst). exists registers'.
  split; [done|]. by eapply (stands_ok frame').
Qed.

Definition state_ok (u : ValueType) (r : result VmError TaskState) : Prop :=
match r with
| Ok (Running frames) => task_ok frames u
| Ok (Completed v) => typed v u
| Err e => safe_error e
end.

Lemma step_safe frames u b r b' :
task_ok frames u → (∀ f, head frames = Some f → representable (mf_registers f)) →
step module address capabilities frames b = Some (r, b') → state_ok u r.
Proof using Haddress Hmodule.
intros (frame & callers & function & -> & Hok & Hf & Hcallers) Hrep Hstep.
pose proof Hok as (function' & states & i & s & Hf' & _ & Hi & _).
rewrite Hf in Hf'. injection Hf' as <-. unfold step in Hstep. rewrite Hf, Hi in Hstep.
destruct (_ <? _) eqn:Hpc in Hstep.
{ apply Z.ltb_lt in Hpc. apply lookup_lt_Some in Hi. destruct (Hmodule _ _ Hf) as (_ & ? & _). lia. }
pose proof (runs_charge_instruction {| cp_function := mf_function frame;
            cp_instruction := mf_program_counter frame |} b) as Hcharge.
cbn beta in Hcharge.
destruct (charge_instruction b _) as [[[]|e] b1]; [|by injection Hstep as <- <-].
destruct (exec _ _ _ _ _ i _) as [m|] eqn:He; [|done]. simpl in Hstep.
pose proof (exec_safe frame function i m Hok (Hrep _ eq_refl) Hf Hi He b1) as Hm.
destruct (m b1) as [[[f|v|f callee arguments captures d]|e] b2]; simpl in Hm.
- simplify_eq. destruct Hm as (Hfok & Hff & Hfc). exists f, callers, function.
rewrite Hff, Hfc. by split_and!.
- unfold return_value in Hstep.
inversion Hcallers as [t Hn|d t caller callers' g u' Hg Hret Hrest Hn]; subst;
  rewrite <- Hn in Hstep; [by simplify_eq/=|].
destruct (Hret v Hm) as (registers' & Hw & Hfok). rewrite Hw in Hstep.
destruct v; simplify_eq/=; by eexists _, _, g.
- simplify_eq. destruct Hm as (Hff & Hfc & t & Hcalled & Hret). unfold push_call in Hstep.
destruct (u32_max <? Z.of_nat _ + 1); [by injection Hstep as <- <-|].
pose proof (enter_safe callee arguments captures (Some d) (Z.of_nat (length (f :: callers)) + 1)
              t Hmodule Hcalled b2) as Hen.
unfold bind in Hstep. cbn beta in Hstep.
destruct (new_machine_frame _ _ _ _ _ _ b2) as [[child|e] b3];
  injection Hstep as <- <-; [|exact Hen].
destruct Hen as (Hchild & Hcf & Hcc). destruct Hcalled as (g & _ & _ & Hg & Ht & _).
exists child, (f :: callers), g. rewrite Hcf, Hcc. split_and!; try done. subst t.
eapply callers_some; [by rewrite Hff|done|by rewrite Hfc].
- by injection Hstep as <- <-.
Qed.

(** ** Executions *)

(** The states a task passes through; memory bounds the values in the registers
of the running frame of each. *)
Inductive reaches : list MachineFrame → Budget → list MachineFrame → Budget → Prop :=
| reaches_refl frames b : reaches frames b frames b
| reaches_step frames b frames1 b1 frames2 b2 :
(∀ f, head frames = Some f → representable (mf_registers f)) →
step module address capabilities frames b = Some (Ok (Running frames1), b1) →
reaches frames1 b1 frames2 b2 → reaches frames b frames2 b2.

Lemma reaches_ok frames b frames' b' u :
reaches frames b frames' b' → task_ok frames u → task_ok frames' u.
Proof using Haddress Hmodule.
induction 1 as [|frames b frames1 b1 frames2 b2 Hrep Hs _ IH]; [done|]. intros Hok.
apply IH. exact (step_safe _ _ _ _ _ Hok Hrep Hs).
Qed.
End Tasks.

(** A task of a module whose functions are verified never meets an internal error:
    entering it, and each step from the states it reaches, is safe. *)
Definition runs_safely `{Env} (module : Module_) {A : Type} `{EqDecision A}
    (address : Value → A) (capabilities : list string)
    (tools : option (list ToolVerificationContract)) (templates : option (list TemplateResource))
    (id : FunctionId) (arguments captures : list Value) (t : ValueType) (b : Budget) : Prop :=
  match new_machine_frame module id arguments captures None 1 b with
  | (Err e, _) => safe_error e
  | (Ok frame, b1) =>
    ∀ frames b2 r b3, reaches module address capabilities [frame] b1 frames b2 →
      (∀ f, head frames = Some f → representable (mf_registers f)) →
      step module address capabilities frames b2 = Some (r, b3) →
      match r with
      | Ok (Running frames') => task_ok module tools templates frames' t
      | Ok (Completed v) => well_typed module v t = true
      | Err e => safe_error e
      end
  end.

Lemma verified_runs_safely `{Env} (module : Module_) {A : Type} `{EqDecision A}
    (address : Value → A) (capabilities : list string)
    (tools : option (list ToolVerificationContract)) (templates : option (list TemplateResource))
    (id : FunctionId) (arguments captures : list Value) (t : ValueType) (b : Budget) :
  address_sound address → module_verified module tools templates →
  called module id arguments captures t →
  runs_safely module address capabilities tools templates id arguments captures t b.
Proof.
  intros Ha Hmod Hc. unfold runs_safely. pose proof Hc as (g & _ & _ & Hg & Ht & _).
  pose proof (enter_safe module tools templates id arguments captures None 1 t Hmod Hc b) as He.
  destruct (new_machine_frame _ _ _ _ _ _ b) as [[frame|e] b1]; [|done].
  destruct He as (Hok & Hf & Hcont). intros frames b2 r b3 Hreach Hrep Hs.
  assert (task_ok module tools templates [frame] t) as Htask.
  { exists frame, [], g. rewrite Hf, Hcont. split_and!; try done. subst t. constructor. }
  pose proof (reaches_ok module address capabilities tools templates Ha Hmod _ _ _ _ _ Hreach Htask)
    as Hok'.
  exact (step_safe module address capabilities tools templates Ha Hmod _ _ _ _ _ Hok' Hrep Hs).
Qed.


(** A fold over a list with a closure for its callback: [main] sums its argument
    through calls of [plus]. *)
Definition sum_module : Module_ := {|
  constants := [CInt 0]; enum_types := []; effect_sets := [[]];
  functions :=
    [{| fn_name := "main"; fn_parameters := [0%nat]; fn_parameter_names := ["values"];
        fn_parameter_default_digests := [None]; fn_captures := [];
        fn_registers := [TList TInt; TInt; TFunction [TInt; TInt] TInt 0; TInt];
        fn_return_type := TInt; fn_effects := 0%nat;
        fn_code := [Const 1 0; ClosureNew 2 1 []; ListFold 3 0 1 2; Return_ 3]%nat |};
     {| fn_name := "plus"; fn_parameters := [0; 1]%nat; fn_parameter_names := ["l"; "r"];
        fn_parameter_default_digests := [None; None]; fn_captures := [];
        fn_registers := [TInt; TInt; TInt]; fn_return_type := TInt; fn_effects := 0%nat;
        fn_code := [IntBinary 2 0 1 Add; Return_ 2]%nat |}];
  async_functions := []; entry := 0 |}.

Definition roomy_limits : ExecutionLimits := {|
  lim_instructions := 100; lim_allocation_bytes := 4000; lim_maximum_allocation_bytes := 600;
  lim_call_depth := 8; lim_wall_time := 1000000000; lim_tasks := 4; lim_concurrent_effects := 1;
  lim_cleanup_instructions := 10 |}.

