(* ===== verification/ArtifactBytes.v ===== *)
(** * Bytes of artifacts: integers in memory order and SHA-256

    The fixed-width integers of the artifact format ([to_le_bytes],
    [from_le_bytes] and their big-endian forms) and the local implementation of
    SHA-256 of [crates/allen-bytecode/src/artifact.rs] ([sha256]). *)

From S2P Require Import Prelude Text.
Open Scope Z_scope.

(** ** Integers *)

Fixpoint le_bytes (width : nat) (z : Z) : list Z :=
  match width with
  | O => []
  | S width => z mod 256 :: le_bytes width (z / 256)
  end.

Fixpoint le_value (bs : list Z) : Z :=
  match bs with [] => 0 | b :: bs => b + 256 * le_value bs end.

Definition be_bytes (width : nat) (z : Z) : list Z := rev (le_bytes width z).
Definition be_value (bs : list Z) : Z := le_value (rev bs).

(** ** SHA-256 *)

(** The low 32 bits. *)
Definition u32_wrap (z : Z) : Z := Z.land z 0xffffffff.
Definition u32_add (a b : Z) : Z := u32_wrap (a + b).
Definition u32_not (a : Z) : Z := u32_max - a.
Definition rotate_right (a k : Z) : Z :=
  Z.lor (Z.shiftr a k) (u32_wrap (Z.shiftl a (32 - k))).

(** The words of a constant table, eight hexadecimal digits each. *)
Definition hex_value (c : ascii) : Z :=
  let b := byte_of c in if b <=? 57 then b - 48 else b - 87.
Fixpoint hex_words (acc : Z) (s : string) : list Z :=
  match s with
  | EmptyString => [acc]
  | String " " s => acc :: hex_words 0 s
  | String c s => hex_words (16 * acc + hex_value c) s
  end.

Definition INITIAL : list Z := Eval vm_compute in
  tail (hex_words 0
    (" 6a09e667 bb67ae85 3c6ef372 a54ff53a"
      ++ " 510e527f 9b05688c 1f83d9ab 5be0cd19")%string).

Definition ROUND : list Z := Eval vm_compute in
  tail (hex_words 0
    (" 428a2f98 71374491 b5c0fbcf e9b5dba5 3956c25b 59f111f1 923f82a4 ab1c5ed5"
      ++ " d807aa98 12835b01 243185be 550c7dc3 72be5d74 80deb1fe 9bdc06a7 c19bf174"
      ++ " e49b69c1 efbe4786 0fc19dc6 240ca1cc 2de92c6f 4a7484aa 5cb0a9dc 76f988da"
      ++ " 983e5152 a831c66d b00327c8 bf597fc7 c6e00bf3 d5a79147 06ca6351 14292967"
      ++ " 27b70a85 2e1b2138 4d2c6dfc 53380d13 650a7354 766a0abb 81c2c92e 92722c85"
      ++ " a2bfe8a1 a81a664b c24b8b70 c76c51a3 d192e819 d6990624 f40e3585 106aa070"
      ++ " 19a4c116 1e376c08 2748774c 34b0bcb5 391c0cb3 4ed8aa4a 5b9cca4f 682e6ff3"
      ++ " 748f82ee 78a5636f 84c87814 8cc70208 90befffa a4506ceb bef9a3f7 c67178f2")%string).

(** The message with its padding and its length in bits. *)
Definition sha256_padding (length : Z) : Z := (64 - (length + 9) mod 64) mod 64.
Definition sha256_message (input : list Z) : list Z :=
  let len := Z.of_nat (length input) in
  (input ++ [0x80] ++ replicate (Z.to_nat (sha256_padding len)) 0
   ++ be_bytes 8 ((len * 8) mod 2 ^ 64))%list.

(** [chunks_exact(width)] *)
Fixpoint chunks (count width : nat) (bs : list Z) : list (list Z) :=
  match count with
  | O => []
  | S count => take width bs :: chunks count width (drop width bs)
  end.
Definition chunks_exact (width : nat) (bs : list Z) : list (list Z) :=
  chunks (length bs / width) width bs.

Definition word (words : list Z) (index : nat) : Z := nth index words 0.

Fixpoint extend_words (count index : nat) (words : list Z) : list Z :=
  match count with
  | O => words
  | S count =>
    let w15 := word words (index - 15) in
    let w2 := word words (index - 2) in
    let s0 := Z.lxor (Z.lxor (rotate_right w15 7) (rotate_right w15 18)) (Z.shiftr w15 3) in
    let s1 := Z.lxor (Z.lxor (rotate_right w2 17) (rotate_right w2 19)) (Z.shiftr w2 10) in
    let w := u32_add (u32_add (u32_add (word words (index - 16)) s0) (word words (index - 7))) s1 in
    extend_words count (S index) (words ++ [w])
  end.

Definition schedule (chunk : list Z) : list Z :=
  extend_words 48 16 (map be_value (chunks_exact 4 chunk)).

Record ShaState := { sha_a : Z; sha_b : Z; sha_c : Z; sha_d : Z;
                     sha_e : Z; sha_f : Z; sha_g : Z; sha_h : Z }.

Definition sha_round (s : ShaState) (round w : Z) : ShaState :=
  let e := sha_e s in
  let a := sha_a s in
  let upper_e := Z.lxor (Z.lxor (rotate_right e 6) (rotate_right e 11)) (rotate_right e 25) in
  let choice := Z.lxor (Z.land e (sha_f s)) (Z.land (u32_not e) (sha_g s)) in
  let temp1 := u32_add (u32_add (u32_add (u32_add (sha_h s) upper_e) choice) round) w in
  let upper_a := Z.lxor (Z.lxor (rotate_right a 2) (rotate_right a 13)) (rotate_right a 22) in
  let majority := Z.lxor (Z.lxor (Z.land a (sha_b s)) (Z.land a (sha_c s)))
                    (Z.land (sha_b s) (sha_c s)) in
  let temp2 := u32_add upper_a majority in
  {| sha_h := sha_g s; sha_g := sha_f s; sha_f := e; sha_e := u32_add (sha_d s) temp1;
     sha_d := sha_c s; sha_c := sha_b s; sha_b := a; sha_a := u32_add temp1 temp2 |}.

Definition sha_state (l : list Z) : ShaState :=
  {| sha_a := word l 0; sha_b := word l 1; sha_c := word l 2; sha_d := word l 3;
     sha_e := word l 4; sha_f := word l 5; sha_g := word l 6; sha_h := word l 7 |}.
Definition sha_words (s : ShaState) : list Z :=
  [sha_a s; sha_b s; sha_c s; sha_d s; sha_e s; sha_f s; sha_g s; sha_h s].

Definition sha_chunk (state : list Z) (chunk : list Z) : list Z :=
  let s := fold_left (λ s rw, sha_round s rw.1 rw.2) (combine ROUND (schedule chunk))
             (sha_state state) in
  zip_with u32_add state (sha_words s).

Definition sha256 (input : list Z) : list Z :=
  flat_map (be_bytes 4) (fold_left sha_chunk (chunks_exact 64 (sha256_message input)) INITIAL).

(** The FIPS 180 example. *)
Example sha256_abc : sha256 [97; 98; 99]
  = [0xba; 0x78; 0x16; 0xbf; 0x8f; 0x01; 0xcf; 0xea; 0x41; 0x41; 0x40; 0xde; 0x5d; 0xae; 0x22; 0x23;
     0xb0; 0x03; 0x61; 0xa3; 0x96; 0x17; 0x7a; 0x9c; 0xb4; 0x10; 0xff; 0x61; 0xf2; 0x00; 0x15; 0xad].
Proof. vm_compute. reflexivity. Qed.

(** ** Lemmas *)

Lemma length_le_bytes width z : length (le_bytes width z) = width.
Proof. revert z. induction width as [|width IH]; intros z; simpl; [done|]. by rewrite IH. Qed.

Lemma length_be_bytes width z : length (be_bytes width z) = width.
Proof. unfold be_bytes. by rewrite length_rev, length_le_bytes. Qed.

Lemma le_bytes_are_bytes width z : Forall (λ b, is_byte b = true) (le_bytes width z).
Proof.
  revert z. induction width as [|width IH]; intros z; simpl; [constructor|]. constructor; [|apply IH].
  unfold is_byte, in_unsigned, u8_max. pose proof (Z.mod_pos_bound z 256). lia.
Qed.

Lemma le_value_bytes width z : 0 <= z < 256 ^ Z.of_nat width → le_value (le_bytes width z) = z.
Proof.
  revert z. induction width as [|width IH]; intros z Hz.
  { simpl in *. lia. }
  cbn [le_bytes le_value]. rewrite IH; [pose proof (Z.div_mod z 256); lia|].
  rewrite Nat2Z.inj_succ, Z.pow_succ_r in Hz by lia.
  pose proof (Z.div_pos z 256). pose proof (Z.div_lt_upper_bound z 256 (256 ^ Z.of_nat width)). lia.
Qed.

Lemma le_bytes_inj width z z' :
  0 <= z < 256 ^ Z.of_nat width → 0 <= z' < 256 ^ Z.of_nat width →
  le_bytes width z = le_bytes width z' → z = z'.
Proof. intros Hz Hz' He. rewrite <- (le_value_bytes width z), He by done. by apply le_value_bytes. Qed.

Lemma length_zip_with_words (f : Z → Z → Z) l s : length l = 8%nat → length (zip_with f l (sha_words s)) = 8%nat.
Proof. intros Hl. rewrite length_zip_with, Hl. done. Qed.

(** The digest has 32 bytes. *)
Lemma sha256_length input : length (sha256 input) = 32%nat.
Proof.
  unfold sha256. assert (length (fold_left sha_chunk (chunks_exact 64 (sha256_message input)) INITIAL)
                          = 8%nat) as Hl.
  { generalize (eq_refl : length INITIAL = 8%nat). generalize INITIAL.
    induction (chunks_exact 64 (sha256_message input)) as [|c l IH]; intros s Hs; [done|]. simpl.
    apply IH. unfold sha_chunk. by apply length_zip_with_words. }
  revert Hl. generalize (fold_left sha_chunk (chunks_exact 64 (sha256_message input)) INITIAL).
  intros l Hl. do 8 (destruct l as [|? l]; [done|]). destruct l; [|done].
  cbn [flat_map]. by rewrite !length_app, !length_be_bytes.
Qed.

Lemma sha256_bytes input : Forall (λ b, is_byte b = true) (sha256 input).
Proof.
  unfold sha256. generalize (fold_left sha_chunk (chunks_exact 64 (sha256_message input)) INITIAL).
  intros l. induction l as [|x l IH]; cbn [flat_map]; [constructor|]. apply Forall_app. split; [|done].
  unfold be_bytes. apply Forall_rev, le_bytes_are_bytes.
Qed.
