(* ===== verification/ArtifactModel.v ===== *)
(** * Artifacts ([crates/allen-bytecode/src/artifact.rs])

    The data of an artifact, the errors and limits of the codec, and the two sides
    of a binary format: [Output], the bytes that an encoder appends, and [Read], the
    reader with its position and the budget of the model it builds. *)

From S2P Require Import Prelude Text Bytecode ArtifactBytes.
Open Scope string_scope.
Open Scope Z_scope.

(** ** Data *)

Record SemanticVersion := { sv_major : Z; sv_minor : Z; sv_patch : Z }.
#[export] Instance SemanticVersion_eq_dec : EqDecision SemanticVersion.
Proof. solve_decision. Defined.

Inductive TargetProfile := Portable.

Record ArtifactMetadata := {
  bytecode_version : Z; language_version : SemanticVersion; compiler_version : SemanticVersion;
  target_profile : TargetProfile }.

Definition ARTIFACT_MAGIC : list Z := [65; 76; 76; 69; 78; 0; 1; 0].
Definition BYTECODE_VERSION : Z := 19.
Definition HEADER_SIZE : Z := 64.
Definition MANDATORY_SECTION_COUNT : nat := 11.
Definition MAX_SECTION_COUNT : nat := 12.

Definition ArtifactMetadata_default : ArtifactMetadata := {|
  bytecode_version := BYTECODE_VERSION;
  language_version := {| sv_major := 0; sv_minor := 1; sv_patch := 1 |};
  compiler_version := {| sv_major := 0; sv_minor := 1; sv_patch := 0 |};
  target_profile := Portable |}.

Record DebugLocation := {
  dl_function : FunctionId; dl_instruction : nat; dl_source : nat; dl_start : Z; dl_end : Z }.
Record DebugInfo := { dbg_sources : list string; dbg_locations : list DebugLocation }.

Record StrictSchema := { ss_value_type : ValueType }.

Inductive EntryValidatorPathSegment :=
| SegField (index : nat)
| SegListElement | SegMapKey | SegMapValue
| SegTupleElement (index : nat)
| SegOptionSome | SegResultOk | SegResultError
| SegEnumPayload (variant element : nat)
| SegNewtypeValue.
#[export] Instance EntryValidatorPathSegment_eq_dec : EqDecision EntryValidatorPathSegment.
Proof. solve_decision. Defined.

Record EntryValidatorSite := {
  site_path : list EntryValidatorPathSegment; site_invariant : nat }.
#[export] Instance EntryValidatorSite_eq_dec : EqDecision EntryValidatorSite.
Proof. solve_decision. Defined.

Inductive ValidatorExpr :=
| VBool_ (value : bool)
| VField (field : nat) (value_type : ValueType)
| VNot (value : ValidatorExpr)
| VBoolBinary (operation : BoolBinaryOp) (left right : ValidatorExpr)
| VCompare (operation : CompareOp) (left right : ValidatorExpr).

Record RecordInvariantDefinition := {
  ri_identity : string; ri_fields : list RecordField; ri_predicate : ValidatorExpr }.

Record EntryRecordProvenance := {
  rp_path : list EntryValidatorPathSegment; rp_identity : option string }.

Record EntryContract := {
  en_name : string; en_function : FunctionId; en_input_schema : nat; en_output_schema : nat;
  en_input_validators : list EntryValidatorSite; en_output_validators : list EntryValidatorSite;
  en_input_record_provenance : list EntryRecordProvenance;
  en_output_record_provenance : list EntryRecordProvenance;
  en_input_contract_digest : list Z; en_output_contract_digest : list Z }.

Record ImportContract := {
  im_importer : string; im_alias : string; im_package : string; im_version : string;
  im_module : string; im_content_digest : list Z }.

Record ToolContract := {
  tc_name : string; tc_version : string; tc_version_requirement : string; tc_effect : string;
  tc_input_schema : nat; tc_output_schema : nat; tc_error_schema : nat;
  tc_input_digest : list Z; tc_output_digest : list Z; tc_error_digest : list Z }.

Record ManifestContract := {
  mc_package : string; mc_version : string; mc_language_requirement : string;
  mc_required_capabilities : list string; mc_optional_capabilities : list string;
  mc_limits : list (string * Z); mc_https_origins : list string;
  mc_exec_commands : list string; mc_exec_environment : list string;
  mc_required_tools : list ToolContract; mc_tool_contract_digest : list Z }.

Record Artifact := {
  metadata : ArtifactMetadata; module_ : Module_; debug : option DebugInfo;
  schemas : list StrictSchema; entries : list EntryContract; imports : list ImportContract;
  manifest : option ManifestContract; templates : list TemplateResource;
  record_invariants : list RecordInvariantDefinition }.

(** ** Limits and errors *)

Record DecodeLimits := {
  artifact_bytes : Z; section_bytes : Z; string_bytes : Z; table_entries : Z;
  functions_ : Z; registers_per_function : Z; instructions_per_function : Z;
  operands_per_instruction : Z; type_depth : Z; debug_records : Z; verifier_state_bytes : Z;
  expanded_type_nodes : Z; decoded_model_bytes : Z }.

Definition DecodeLimits_default : DecodeLimits := {|
  artifact_bytes := 64 * 1024 * 1024; section_bytes := 32 * 1024 * 1024;
  string_bytes := 1024 * 1024; table_entries := 1000000; functions_ := 100000;
  registers_per_function := 65536; instructions_per_function := 1000000;
  operands_per_instruction := 65536; type_depth := Z.of_nat MAX_VALUE_NESTING;
  debug_records := 1000000; verifier_state_bytes := 64 * 1024 * 1024;
  expanded_type_nodes := 1000000; decoded_model_bytes := 64 * 1024 * 1024 |}.

Inductive ArtifactErrorCode :=
| InvalidMagic | InvalidHeader | UnsupportedVersion | UnsupportedProfile | ArtifactTooLarge
| SectionTooLarge | MissingSection | DuplicateSection | UnknownSection | SectionOrder
| DigestMismatch | Truncated | TrailingBytes | InvalidUtf8 | LimitExceeded | InvalidScalar
| NonCanonical | VerificationFailed | InvalidDebug.

Definition as_str (code : ArtifactErrorCode) : string :=
  match code with
  | InvalidMagic => "ARTIFACT_INVALID_MAGIC"
  | InvalidHeader => "ARTIFACT_INVALID_HEADER"
  | UnsupportedVersion => "ARTIFACT_UNSUPPORTED_VERSION"
  | UnsupportedProfile => "ARTIFACT_UNSUPPORTED_PROFILE"
  | ArtifactTooLarge => "ARTIFACT_TOO_LARGE"
  | SectionTooLarge => "ARTIFACT_SECTION_TOO_LARGE"
  | MissingSection => "ARTIFACT_MISSING_SECTION"
  | DuplicateSection => "ARTIFACT_DUPLICATE_SECTION"
  | UnknownSection => "ARTIFACT_UNKNOWN_SECTION"
  | SectionOrder => "ARTIFACT_SECTION_ORDER"
  | DigestMismatch => "ARTIFACT_DIGEST_MISMATCH"
  | Truncated => "ARTIFACT_TRUNCATED"
  | TrailingBytes => "ARTIFACT_TRAILING_BYTES"
  | InvalidUtf8 => "ARTIFACT_INVALID_UTF8"
  | LimitExceeded => "ARTIFACT_LIMIT_EXCEEDED"
  | InvalidScalar => "ARTIFACT_INVALID_SCALAR"
  | NonCanonical => "ARTIFACT_NON_CANONICAL"
  | VerificationFailed => "ARTIFACT_VERIFICATION_FAILED"
  | InvalidDebug => "ARTIFACT_INVALID_DEBUG"
  end.

Record ArtifactError := { ae_code : ArtifactErrorCode; ae_message : string }.
Definition ArtifactError_new (code : ArtifactErrorCode) (message : string) : ArtifactError :=
  {| ae_code := code; ae_message := message |}.
Definition limit (resource : string) : ArtifactError :=
  ArtifactError_new LimitExceeded (resource ++ " exceeds the decode limit").
Definition truncated (resource : string) : ArtifactError :=
  ArtifactError_new Truncated (resource ++ " is truncated").
Definition invalid_scalar (resource : string) : ArtifactError :=
  ArtifactError_new InvalidScalar (resource ++ " has an invalid value").
Definition noncanonical (message : string) : ArtifactError :=
  ArtifactError_new NonCanonical message.

(** The types whose size in memory the decoder charges.  The compiler chooses the
    layout ([std::mem::size_of]). *)
Inductive RustType :=
| RString | RConstant | RValueType | REnumType | REnumVariant | RRecordField | RFunction
| RFunctionId | RRegister | RInstruction | RVecString | REntryContract | REntryRecordProvenance
| REntryValidatorSite | RRecordInvariantDefinition | RStrictSchema | RImportContract
| RManifestContract | RStringU64 | RToolContract | RTemplateResource | RTemplateHole
| RTemplateMarker | RDebugLocation | RListLiteralItem | RRegisterPair | RMapLiteralItem
| RFieldOperand | REnumSwitchArm.
Class Layout := size_of : RustType → Z.

(** ** Writing *)

Definition Output : Type := result ArtifactError (list Z).

(** The parts in order; the first error returns. *)
Fixpoint emit (parts : list Output) : Output :=
  match parts with
  | [] => Ok []
  | part :: rest =>
    let? bytes := part in
    let? others := emit rest in
    Ok (bytes ++ others)%list
  end.

Definition put_u8 (b : Z) : Output := Ok [b].
Definition put_u16 (n : nat) : Output := Ok (le_bytes 2 (Z.of_nat n)).
Definition put_u32 (n : nat) : Output := Ok (le_bytes 4 (Z.of_nat n)).
Definition put_z32 (z : Z) : Output := Ok (le_bytes 4 z).
Definition put_u64 (z : Z) : Output := Ok (le_bytes 8 z).
Definition put_i64 (z : Z) : Output := Ok (le_bytes 8 (z mod 2 ^ 64)).
Definition put_slice (bs : list Z) : Output := Ok bs.
Definition put_bool (b : bool) : Output := put_u8 (if b then 1 else 0).
Definition to_u32 (value : nat) (resource : string) : result ArtifactError Z :=
  if u32_max <? Z.of_nat value then Err (limit resource) else Ok (Z.of_nat value).
Definition put_count (value : nat) (resource : string) : Output :=
  let? n := to_u32 value resource in put_z32 n.
Definition put_bytes (bs : list Z) (resource : string) : Output :=
  emit [put_count (length bs) resource; put_slice bs].
(** A table: its length and its items. *)
Definition put_table {A} (resource : string) (put : A → Output) (items : list A) : Output :=
  emit [put_count (length items) resource; emit (map put items)].
Definition put_version (v : SemanticVersion) : Output :=
  emit [Ok (le_bytes 2 (sv_major v)); Ok (le_bytes 2 (sv_minor v)); Ok (le_bytes 2 (sv_patch v))].

(** ** Reading *)

Record DecodeBudget := { remaining : Z; remaining_type_nodes : Z }.
Definition DecodeBudget_new (bytes nodes : Z) : DecodeBudget :=
  {| remaining := bytes; remaining_type_nodes := nodes |}.

(** The bytes from the offset on, and the budget the readers share. *)
Record Reader := { rd_bytes : list Z; rd_budget : DecodeBudget }.

Definition Read (A : Type) : Type := Reader → result ArtifactError (A * Reader).
#[export] Instance read_ret : MRet Read := λ A a r, Ok (a, r).
#[export] Instance read_bind : MBind Read := λ A B k m r,
  match m r with Ok (a, r) => k a r | Err e => Err e end.
Definition fail {A} (e : ArtifactError) : Read A := λ _, Err e.
Definition lift {A} (x : result ArtifactError A) : Read A :=
  λ r, let? a := x in Ok (a, r).

Section Readers.
Context `{Layout} (limits : DecodeLimits).

Definition take_bytes (count : Z) : Read (list Z) := λ r,
  if Z.of_nat (length (rd_bytes r)) <? count then Err (truncated "data")
  else Ok (take (Z.to_nat count) (rd_bytes r),
           {| rd_bytes := drop (Z.to_nat count) (rd_bytes r); rd_budget := rd_budget r |}).

Definition u8 : Read Z := bs ← take_bytes 1; mret (le_value bs).
Definition u16 : Read nat := bs ← take_bytes 2; mret (Z.to_nat (le_value bs)).
Definition u16_z : Read Z := bs ← take_bytes 2; mret (le_value bs).
Definition u32 : Read nat := bs ← take_bytes 4; mret (Z.to_nat (le_value bs)).
Definition u32_z : Read Z := bs ← take_bytes 4; mret (le_value bs).
Definition u64 : Read Z := bs ← take_bytes 8; mret (le_value bs).
Definition i64 : Read Z :=
  bs ← take_bytes 8;
  let z := le_value bs in
  mret (if i64_max <? z then z - 2 ^ 64 else z).
Definition bool_ : Read bool :=
  b ← u8;
  match b with 0 => mret false | 1 => mret true | _ => fail (invalid_scalar "boolean") end.
Definition version : Read SemanticVersion :=
  major ← u16_z; minor ← u16_z; patch ← u16_z;
  mret {| sv_major := major; sv_minor := minor; sv_patch := patch |}.
Definition count (maximum : Z) (resource : string) : Read nat :=
  n ← u32_z;
  if maximum <? n then fail (limit resource) else mret (Z.to_nat n).
Definition digest : Read (list Z) := take_bytes 32.

Definition charge_model_bytes (bytes : Z) : Read unit := λ r,
  if remaining (rd_budget r) <? bytes then Err (limit "decoded model bytes")
  else Ok (tt, {| rd_bytes := rd_bytes r;
                  rd_budget := {| remaining := remaining (rd_budget r) - bytes;
                                  remaining_type_nodes :=
                                    remaining_type_nodes (rd_budget r) |} |}).
Definition charge_items (t : RustType) (n : nat) : Read unit :=
  let bytes := Z.of_nat n * size_of t in
  if usize_max <? bytes then fail (limit "decoded model bytes") else charge_model_bytes bytes.
Definition charge_type_node : Read unit := λ r,
  let b := rd_budget r in
  if remaining_type_nodes b <? 1 then Err (limit "expanded type nodes")
  else charge_items RValueType 1
         {| rd_bytes := rd_bytes r;
            rd_budget := {| remaining := remaining b;
                            remaining_type_nodes := remaining_type_nodes b - 1 |} |}.

Definition finish : Read unit := λ r,
  match rd_bytes r with
  | [] => Ok (tt, r)
  | _ => Err (ArtifactError_new TrailingBytes "section contains trailing bytes")
  end.

(** [for _ in 0..n { v.push(read()?) }] *)
Fixpoint read_n {A} (n : nat) (read : Read A) : Read (list A) :=
  match n with
  | O => mret []
  | S n => x ← read; l ← read_n n read; mret (x :: l)
  end.

(** A table: its length, charged at once, and its items. *)
Definition table {A} (maximum : Z) (resource : string) (t : RustType) (read : Read A)
    : Read (list A) :=
  n ← count maximum resource;
  _ ← charge_items t n;
  read_n n read.
End Readers.
