(* ===== verification/ArtifactCodec.v ===== *)
(** * Types and instructions in artifacts

    The encoders and readers of [crates/allen-bytecode/src/artifact.rs] for value
    types ([encode_type], [Reader::value_type]) and for the instruction set
    ([encode_instruction], [Reader::instruction]).  Strings and types are references
    into the tables of the artifact. *)

From S2P Require Import Prelude Text Bytecode ArtifactBytes ArtifactModel.
Open Scope string_scope.
Open Scope Z_scope.

(** ** Writing *)

Section Encode.
(** The map from strings to their identifiers, as the table it is built from. *)
Variable strings : list string.

Definition string_id (value : string) : result ArtifactError nat :=
  ok_or (position (String.eqb value) strings)
    (ArtifactError_new InvalidScalar "value is missing from the string table").
Definition put_string (value : string) : Output := let? id := string_id value in put_u32 id.

Fixpoint encode_type (t : ValueType) : Output :=
  match t with
  | TInt => put_u8 0
  | TBool => put_u8 1
  | TFloat => put_u8 2
  | TString => put_u8 3
  | TBytes => put_u8 4
  | TUnit => put_u8 5
  | TNever => put_u8 6
  | TList element => emit [put_u8 7; encode_type element]
  | TMap key value => emit [put_u8 8; encode_type key; encode_type value]
  | TTuple elements =>
    emit [put_u8 9; put_table "type table" encode_type elements]
  | TRecord fields =>
    emit [put_u8 10;
          put_table "record field table"
            (λ field, emit [put_string field.1; encode_type field.2]) fields]
  | TEnum id => emit [put_u8 11; put_u32 id]
  | TOption value => emit [put_u8 12; encode_type value]
  | TResult ok error => emit [put_u8 13; encode_type ok; encode_type error]
  | TFunction parameters return_type effects =>
    emit [put_u8 14; put_table "type table" encode_type parameters; encode_type return_type;
          put_u32 effects]
  | TUnknown => put_u8 15
  | TFuture value => emit [put_u8 16; encode_type value]
  | TTask value => emit [put_u8 17; encode_type value]
  | TWorkspace => put_u8 18
  | TExternalFsAccess => put_u8 19
  | TSubAgent => put_u8 20
  | TNewtype name underlying => emit [put_u8 21; put_string name; encode_type underlying]
  | TRange => put_u8 22
  | TSequence value => emit [put_u8 23; encode_type value]
  end.

Definition type_key (t : ValueType) : result ArtifactError (list Z) := encode_type t.

(** The keys of the type table; a type is referred to by the position of its key. *)
Variable type_keys : list (list Z).

Definition type_id (t : ValueType) : result ArtifactError nat :=
  let? key := type_key t in
  ok_or (position (bytes_eqb key) type_keys) (invalid_scalar "type descriptor reference").
Definition put_type (t : ValueType) : Output := let? id := type_id t in put_u32 id.

Definition encode_registers (registers : list Register) : Output :=
  put_table "register operand table" put_u16 registers.
Definition encode_pairs (pairs : list (Register * Register)) : Output :=
  put_table "pair operand table" (λ p, emit [put_u16 p.1; put_u16 p.2]) pairs.
Definition encode_list_literal_item (item : ListLiteralItem) : Output :=
  match item with
  | LElement r => emit [put_u8 0; put_u16 r]
  | LSpread r => emit [put_u8 1; put_u16 r]
  end.
Definition encode_list_literal_items (items : list ListLiteralItem) : Output :=
  put_table "list literal item table" encode_list_literal_item items.
Definition encode_map_literal_item (item : MapLiteralItem) : Output :=
  match item with
  | MEntry key value => emit [put_u8 0; put_u16 key; put_u16 value]
  | MSpread r => emit [put_u8 1; put_u16 r]
  end.
Definition encode_map_literal_items (items : list MapLiteralItem) : Output :=
  put_table "map literal item table" encode_map_literal_item items.
Definition encode_field_operands (fields : list (nat * Register)) : Output :=
  put_table "field operand table" (λ f, emit [put_u32 f.1; put_u16 f.2]) fields.
Definition encode_arm (arm : EnumSwitchArm) : Output :=
  emit [put_u32 (arm_variant arm); put_u32 (arm_target arm); encode_registers (arm_bindings arm)].

Definition numeric_op (operation : NumericBinaryOp) : Z :=
  match operation with Add => 0 | Subtract => 1 | Multiply => 2 | Divide => 3 end.
Definition compare_op (operation : CompareOp) : Z :=
  match operation with
  | Equal => 0 | NotEqual => 1 | Less => 2 | LessEqual => 3 | Greater => 4 | GreaterEqual => 5
  end.
Definition bool_op (operation : BoolBinaryOp) : Z := match operation with And => 0 | Or => 1 end.
Definition conversion_tag (conversion : Conversion) : Z :=
  match conversion with IntToFloat => 0 | ToString => 1 | StringToBytes => 2 end.
Definition string_operation (operation : StringOperation) : Z :=
  match operation with
  | ByteLength => 0 | Concat => 1 | StrGet => 2 | StrSlice => 3 | StrFind => 4 | Contains => 5
  | StartsWith => 6 | EndsWith => 7 | Split => 8 | Join => 9 | TrimAscii => 10 | FromUtf8 => 11
  | TemplateConcat => 12 | Replace => 13
  end.
Definition standard_operation (operation : StandardOperation) : Z :=
  match operation with
  | ToInt => 0 | FloatFormat => 1 | TimeFormatUtc => 2 | TimeParseUtc => 3 | TimeBucket => 4
  end.
Definition capability_operation (operation : CapabilityOperation) : Z :=
  match operation with IsGranted => 0 | Granted => 1 end.
Definition safe_collection_operation (operation : SafeCollectionOperation) : Z :=
  match operation with
  | ListGet => 0 | ListTrySet => 1 | BytesGet => 2 | MapGet => 3 | MapInsert => 4 | MapRemove => 5
  | MapKeys => 6
  end.
Definition checked_int_operation (operation : CheckedIntOperation) : Z :=
  match operation with
  | CheckedAdd => 0 | CheckedSubtract => 1 | CheckedMultiply => 2 | CheckedDivide => 3
  | CheckedRemainder => 4 | CheckedNegate => 5
  end.
Definition collection_operation (operation : CollectionOperation) : Z :=
  match operation with
  | Zip => 0 | ListMin => 1 | ListMax => 2 | ListSumInt => 3 | ListSumFloat => 4
  end.
Definition combinator_operation (operation : ListCombinator) : Z :=
  match operation with
  | LMap => 0 | LFilter => 1 | LFlatMap => 2 | LFilterMap => 3 | LFind => 4 | LAny => 5 | LAll => 6
  | LPartition => 7 | LScan => 8
  end.
Definition effect_operation (operation : EffectOperation) : Z :=
  match operation with
  | ReadText => 0 | ReadBytes => 1 | WriteText => 2 | WriteBytes => 3 | List_ => 4 | HttpGet => 5
  | PermissionRequestFile => 6 | PermissionRequestDirectory => 7 | AgentMessage => 8
  | AgentAsk => 9 | AgentTranscript => 10 | ModelRequest => 11 | UserAsk => 12
  | SubAgentCreate => 13 | SubAgentRun => 14 | SubAgentMessage => 15 | SubAgentAsk => 16
  | Search_ => 17 | ExecRun => 18
  end.

Definition put_optional_register (r : option Register) : Output :=
  match r with
  | None => put_u8 0
  | Some r => emit [put_u8 1; put_u16 r]
  end.

Definition encode_instruction (i : Instruction) : Output :=
  match i with
  | Const d constant => emit [put_u8 0; put_u16 d; put_u32 constant]
  | Move d source => emit [put_u8 1; put_u16 d; put_u16 source]
  | IntBinary d l r operation =>
    emit [put_u8 2; put_u16 d; put_u16 l; put_u16 r; put_u8 (numeric_op operation)]
  | IntRemainder d l r => emit [put_u8 42; put_u16 d; put_u16 l; put_u16 r]
  | FloatBinary d l r operation =>
    emit [put_u8 3; put_u16 d; put_u16 l; put_u16 r; put_u8 (numeric_op operation)]
  | IntNegate d source => emit [put_u8 4; put_u16 d; put_u16 source]
  | FloatNegate d source => emit [put_u8 5; put_u16 d; put_u16 source]
  | Compare d l r operation =>
    emit [put_u8 6; put_u16 d; put_u16 l; put_u16 r; put_u8 (compare_op operation)]
  | BoolNot d source => emit [put_u8 7; put_u16 d; put_u16 source]
  | BoolBinary d l r operation =>
    emit [put_u8 8; put_u16 d; put_u16 l; put_u16 r; put_u8 (bool_op operation)]
  | ListNew d elements => emit [put_u8 9; put_u16 d; encode_registers elements]
  | ListLiteralBuild d items => emit [put_u8 58; put_u16 d; encode_list_literal_items items]
  | MapNew d entries => emit [put_u8 10; put_u16 d; encode_pairs entries]
  | MapLiteralBuild d items => emit [put_u8 59; put_u16 d; encode_map_literal_items items]
  | TupleNew d elements => emit [put_u8 11; put_u16 d; encode_registers elements]
  | IndexGet d collection index => emit [put_u8 12; put_u16 d; put_u16 collection; put_u16 index]
  | TupleGet d tuple index => emit [put_u8 13; put_u16 d; put_u16 tuple; put_u32 index]
  | Convert d source conversion =>
    emit [put_u8 14; put_u16 d; put_u16 source; put_u8 (conversion_tag conversion)]
  | RecordNew d fields => emit [put_u8 15; put_u16 d; encode_field_operands fields]
  | FieldGet d record field => emit [put_u8 16; put_u16 d; put_u16 record; put_u32 field]
  | EnumNew d variant payload =>
    emit [put_u8 17; put_u16 d; put_u32 variant; encode_registers payload]
  | BranchBool condition true_target false_target =>
    emit [put_u8 18; put_u16 condition; put_u32 true_target; put_u32 false_target]
  | SwitchEnum source arms =>
    emit [put_u8 19; put_u16 source; put_table "switch arm table" encode_arm arms]
  | Jump target => emit [put_u8 20; put_u32 target]
  | TryResult d source => emit [put_u8 21; put_u16 d; put_u16 source]
  | TryOption d source => emit [put_u8 57; put_u16 d; put_u16 source]
  | ToUnknown d source => emit [put_u8 22; put_u16 d; put_u16 source]
  | Narrow d source target => emit [put_u8 23; put_u16 d; put_u16 source; put_type target]
  | Decode d source target => emit [put_u8 54; put_u16 d; put_u16 source; put_type target]
  | DirectCall d function arguments =>
    emit [put_u8 24; put_u16 d; put_u32 function; encode_registers arguments]
  | ClosureNew d function captures =>
    emit [put_u8 25; put_u16 d; put_u32 function; encode_registers captures]
  | ClosureCall d closure arguments =>
    emit [put_u8 26; put_u16 d; put_u16 closure; encode_registers arguments]
  | Return_ source => emit [put_u8 27; put_u16 source]
  | AsyncCall d function arguments =>
    emit [put_u8 28; put_u16 d; put_u32 function; encode_registers arguments]
  | Spawn d future scope => emit [put_u8 29; put_u16 d; put_u16 future; put_u32 scope]
  | Await d source => emit [put_u8 30; put_u16 d; put_u16 source]
  | TaskScopeEnter scope => emit [put_u8 31; put_u32 scope]
  | TaskScopeExit scope => emit [put_u8 32; put_u32 scope]
  | Stop reason => emit [put_u8 33; put_u16 reason]
  | Fail_ reason => emit [put_u8 50; put_u16 reason]
  | TaskSnapshot d source => emit [put_u8 34; put_u16 d; put_u16 source]
  | WorkspaceGet d => emit [put_u8 35; put_u16 d]
  | EffectCall d operation arguments =>
    emit [put_u8 36; put_u16 d; put_u8 (effect_operation operation); encode_registers arguments]
  | StringCall d operation arguments =>
    emit [put_u8 43; put_u16 d; put_u8 (string_operation operation); encode_registers arguments]
  | StandardCall d operation arguments =>
    emit [put_u8 47; put_u16 d; put_u8 (standard_operation operation); encode_registers arguments]
  | CapabilityInspect d operation arguments =>
    emit [put_u8 44; put_u16 d; put_u8 (capability_operation operation); encode_registers arguments]
  | SafeCollectionCall d operation arguments =>
    emit [put_u8 45; put_u16 d; put_u8 (safe_collection_operation operation);
          encode_registers arguments]
  | CheckedIntCall d operation arguments =>
    emit [put_u8 46; put_u16 d; put_u8 (checked_int_operation operation);
          encode_registers arguments]
  | CollectionCall d operation arguments =>
    emit [put_u8 48; put_u16 d; put_u8 (collection_operation operation); encode_registers arguments]
  | ListFold d values initial callback =>
    emit [put_u8 49; put_u16 d; put_u16 values; put_u16 initial; put_u16 callback]
  | ListCombinator_ d operation values initial callback callback_result =>
    emit [put_u8 56; put_u16 d; put_u8 (combinator_operation operation); put_u16 values;
          put_optional_register initial; put_u16 callback; put_u16 callback_result]
  | NewtypeWrap d source => emit [put_u8 51; put_u16 d; put_u16 source]
  | NewtypeUnwrap d source => emit [put_u8 52; put_u16 d; put_u16 source]
  | ToolInvoke d tool input => emit [put_u8 37; put_u16 d; put_u32 tool; put_u16 input]
  | TemplateRender d template arguments =>
    emit [put_u8 55; put_u16 d; put_u32 template; encode_registers arguments]
  | Length d collection => emit [put_u8 38; put_u16 d; put_u16 collection]
  | ListAppend d values value => emit [put_u8 39; put_u16 d; put_u16 values; put_u16 value]
  | ListSet d values index value =>
    emit [put_u8 40; put_u16 d; put_u16 values; put_u16 index; put_u16 value]
  | MapEntryAt d m index => emit [put_u8 41; put_u16 d; put_u16 m; put_u16 index]
  | RangeNew d start end_ inclusive =>
    emit [put_u8 60; put_u16 d; put_u16 start; put_u16 end_; put_bool inclusive]
  | RangeStart d range => emit [put_u8 71; put_u16 d; put_u16 range]
  | RangeEnd d range => emit [put_u8 72; put_u16 d; put_u16 range]
  | RangeInclusive d range => emit [put_u8 73; put_u16 d; put_u16 range]
  | SliceGet d collection start end_ =>
    emit [put_u8 61; put_u16 d; put_u16 collection; put_u16 start; put_u16 end_]
  | SequenceFromList d values => emit [put_u8 62; put_u16 d; put_u16 values]
  | SequenceMap d sequence callback =>
    emit [put_u8 63; put_u16 d; put_u16 sequence; put_u16 callback]
  | SequenceFilter d sequence callback =>
    emit [put_u8 64; put_u16 d; put_u16 sequence; put_u16 callback]
  | SequenceTake d sequence n => emit [put_u8 65; put_u16 d; put_u16 sequence; put_u16 n]
  | SequenceFind d sequence callback =>
    emit [put_u8 66; put_u16 d; put_u16 sequence; put_u16 callback]
  | SequenceAny d sequence callback =>
    emit [put_u8 67; put_u16 d; put_u16 sequence; put_u16 callback]
  | SequenceAll d sequence callback =>
    emit [put_u8 68; put_u16 d; put_u16 sequence; put_u16 callback]
  | SequenceFold d sequence initial callback =>
    emit [put_u8 69; put_u16 d; put_u16 sequence; put_u16 initial; put_u16 callback]
  | SequenceToList d sequence => emit [put_u8 70; put_u16 d; put_u16 sequence]
  end.
End Encode.

(** ** Reading *)

(** Sums that stop at an overflow: [checked_add] with the error of a limit, and a
    [try_fold] of it. *)
Section Total.
Context {A : Type} (resource : string) (weight : A → result ArtifactError Z).
Definition limited_add (a b : Z) : result ArtifactError Z :=
  ok_or (u64_checked_add a b) (limit resource).
Fixpoint try_total (total : Z) (l : list A) : result ArtifactError Z :=
  match l with
  | [] => Ok total
  | x :: l' => let? n := weight x in let? total := limited_add total n in try_total total l'
  end.
End Total.

(** [type_owned_bytes]: the memory of a copied type.  Sequences and enums own none
    of their parts in this account. *)
Definition owned_add : Z → Z → result ArtifactError Z := limited_add "decoded model bytes".

Fixpoint type_owned_bytes `{Layout} (t : ValueType) : result ArtifactError Z :=
  let? nested :=
    match t with
    | TList value | TOption value | TFuture value | TTask value => type_owned_bytes value
    | TNewtype name underlying =>
      let? n := type_owned_bytes underlying in owned_add (str_len name) n
    | TMap a b | TResult a b =>
      let? x := type_owned_bytes a in let? y := type_owned_bytes b in owned_add x y
    | TTuple elements => try_total "decoded model bytes" type_owned_bytes 0 elements
    | TRecord fields =>
      try_total "decoded model bytes"
        (λ field : RecordField,
           let? n := type_owned_bytes field.2 in
           let? own := owned_add (size_of RRecordField) (str_len field.1) in
           owned_add own n) 0 fields
    | TFunction parameters return_type _ =>
      let? first := type_owned_bytes return_type in
      try_total "decoded model bytes" type_owned_bytes first parameters
    | _ => Ok 0
    end in
  owned_add (size_of RValueType) nested.

Section Decode.
Context `{Layout} (limits : DecodeLimits) (strings : list string).

Definition string_ref : Read string :=
  index ← u32;
  match strings !! index with
  | None => fail (ArtifactError_new InvalidScalar "string table reference is out of range")
  | Some value => _ ← charge_model_bytes (str_len value); mret value
  end.

(** [fuel] counts the depths that the limit leaves: none is left when the depth
    exceeds it. *)
Fixpoint value_type (fuel : nat) : Read ValueType :=
  match fuel with
  | O => fail (limit "type depth")
  | S fuel =>
    let value_type := value_type fuel in
    let types := table (table_entries limits) "table entries" RValueType value_type in
    let fields := table (table_entries limits) "table entries" RRecordField
                    (name ← string_ref; t ← value_type; mret (name, t)) in
    _ ← charge_type_node;
    tag ← u8;
    match tag with
    | 0 => mret TInt
    | 1 => mret TBool
    | 2 => mret TFloat
    | 3 => mret TString
    | 4 => mret TBytes
    | 5 => mret TUnit
    | 6 => mret TNever
    | 7 => t ← value_type; mret (TList t)
    | 8 => k ← value_type; v ← value_type; mret (TMap k v)
    | 9 => l ← types; mret (TTuple l)
    | 10 => l ← fields; mret (TRecord l)
    | 11 => id ← u32; mret (TEnum id)
    | 12 => t ← value_type; mret (TOption t)
    | 13 => a ← value_type; b ← value_type; mret (TResult a b)
    | 14 =>
      parameters ← types; return_type ← value_type; effects ← u32;
      mret (TFunction parameters return_type effects)
    | 15 => mret TUnknown
    | 16 => t ← value_type; mret (TFuture t)
    | 17 => t ← value_type; mret (TTask t)
    | 18 => mret TWorkspace
    | 19 => mret TExternalFsAccess
    | 20 => mret TSubAgent
    | 21 => name ← string_ref; t ← value_type; mret (TNewtype name t)
    | 22 => mret TRange
    | 23 => t ← value_type; mret (TSequence t)
    | _ => fail (invalid_scalar "value type tag")
    end
  end.

(** [types(strings, 0)] *)
Definition read_types : Read (list ValueType) :=
  table (table_entries limits) "table entries" RValueType
    (value_type (Z.to_nat (type_depth limits + 1))).

Variable types : list ValueType.

Definition type_ref : Read ValueType :=
  id ← u32;
  match types !! id with
  | None => fail (invalid_scalar "type descriptor reference")
  | Some t => n ← lift (type_owned_bytes t); _ ← charge_model_bytes n; mret t
  end.

Definition read_numeric_op : Read NumericBinaryOp :=
  tag ← u8;
  match tag with
  | 0 => mret Add | 1 => mret Subtract | 2 => mret Multiply | 3 => mret Divide
  | _ => fail (invalid_scalar "numeric operation")
  end.
Definition read_compare_op : Read CompareOp :=
  tag ← u8;
  match tag with
  | 0 => mret Equal | 1 => mret NotEqual | 2 => mret Less | 3 => mret LessEqual
  | 4 => mret Greater | 5 => mret GreaterEqual
  | _ => fail (invalid_scalar "comparison operation")
  end.
Definition read_bool_op : Read BoolBinaryOp :=
  tag ← u8;
  match tag with
  | 0 => mret And | 1 => mret Or | _ => fail (invalid_scalar "boolean operation")
  end.
Definition read_conversion : Read Conversion :=
  tag ← u8;
  match tag with
  | 0 => mret IntToFloat | 1 => mret ToString | 2 => mret StringToBytes
  | _ => fail (invalid_scalar "conversion")
  end.
Definition read_string_operation : Read StringOperation :=
  tag ← u8;
  match tag with
  | 0 => mret ByteLength | 1 => mret Concat | 2 => mret StrGet | 3 => mret StrSlice
  | 4 => mret StrFind | 5 => mret Contains | 6 => mret StartsWith | 7 => mret EndsWith
  | 8 => mret Split | 9 => mret Join | 10 => mret TrimAscii | 11 => mret FromUtf8
  | 12 => mret TemplateConcat | 13 => mret Replace
  | _ => fail (invalid_scalar "String operation")
  end.
Definition read_standard_operation : Read StandardOperation :=
  tag ← u8;
  match tag with
  | 0 => mret ToInt | 1 => mret FloatFormat | 2 => mret TimeFormatUtc | 3 => mret TimeParseUtc
  | 4 => mret TimeBucket
  | _ => fail (invalid_scalar "standard operation")
  end.
Definition read_capability_operation : Read CapabilityOperation :=
  tag ← u8;
  match tag with
  | 0 => mret IsGranted | 1 => mret Granted
  | _ => fail (invalid_scalar "capability inspection operation")
  end.
Definition read_safe_collection_operation : Read SafeCollectionOperation :=
  tag ← u8;
  match tag with
  | 0 => mret ListGet | 1 => mret ListTrySet | 2 => mret BytesGet | 3 => mret MapGet
  | 4 => mret MapInsert | 5 => mret MapRemove | 6 => mret MapKeys
  | _ => fail (invalid_scalar "safe collection operation")
  end.
Definition read_checked_int_operation : Read CheckedIntOperation :=
  tag ← u8;
  match tag with
  | 0 => mret CheckedAdd | 1 => mret CheckedSubtract | 2 => mret CheckedMultiply
  | 3 => mret CheckedDivide | 4 => mret CheckedRemainder | 5 => mret CheckedNegate
  | _ => fail (invalid_scalar "checked integer operation")
  end.
Definition read_collection_operation : Read CollectionOperation :=
  tag ← u8;
  match tag with
  | 0 => mret Zip | 1 => mret ListMin | 2 => mret ListMax | 3 => mret ListSumInt
  | 4 => mret ListSumFloat
  | _ => fail (invalid_scalar "collection operation")
  end.
Definition read_combinator_operation : Read ListCombinator :=
  tag ← u8;
  match tag with
  | 0 => mret LMap | 1 => mret LFilter | 2 => mret LFlatMap | 3 => mret LFilterMap
  | 4 => mret LFind | 5 => mret LAny | 6 => mret LAll | 7 => mret LPartition | 8 => mret LScan
  | _ => fail (invalid_scalar "list combinator operation")
  end.
Definition read_effect_operation : Read EffectOperation :=
  tag ← u8;
  match tag with
  | 0 => mret ReadText | 1 => mret ReadBytes | 2 => mret WriteText | 3 => mret WriteBytes
  | 4 => mret List_ | 5 => mret HttpGet | 6 => mret PermissionRequestFile
  | 7 => mret PermissionRequestDirectory | 8 => mret AgentMessage | 9 => mret AgentAsk
  | 10 => mret AgentTranscript | 11 => mret ModelRequest | 12 => mret UserAsk
  | 13 => mret SubAgentCreate | 14 => mret SubAgentRun | 15 => mret SubAgentMessage
  | 16 => mret SubAgentAsk | 17 => mret Search_ | 18 => mret ExecRun
  | _ => fail (invalid_scalar "effect operation")
  end.
Definition read_inclusive : Read bool :=
  tag ← u8;
  match tag with
  | 0 => mret false | 1 => mret true | _ => fail (invalid_scalar "range inclusive flag")
  end.
Definition read_optional_register : Read (option Register) :=
  tag ← u8;
  match tag with
  | 0 => mret None
  | 1 => r ← u16; mret (Some r)
  | _ => fail (invalid_scalar "list combinator initial flag")
  end.

(** [registers]: the inputs of a function. *)
Definition read_registers (maximum : Z) : Read (list Register) :=
  table (Z.min maximum (operands_per_instruction limits)) "operands" RRegister u16.

(** [charge_operands] on the operands that an instruction has left. *)
Definition charge_operands (budget : Z) (n : nat) (width : Z) : Read Z :=
  let charge := Z.of_nat n * width in
  if usize_max <? charge then fail (limit "operands")
  else if budget <? charge then fail (limit "operands")
  else mret (budget - charge).

Definition operand_registers (budget : Z) : Read (list Register * Z) :=
  n ← count (operands_per_instruction limits) "operands";
  budget ← charge_operands budget n 1;
  _ ← charge_items RRegister n;
  registers ← read_n n u16;
  mret (registers, budget).

(** Operands of a fixed width: [count], [charge_operands], [charge_items]. *)
Definition operand_table {A} (resource : string) (width : Z) (t : RustType) (read : Read A)
    : Read (list A) :=
  n ← count (operands_per_instruction limits) resource;
  _ ← charge_operands (operands_per_instruction limits) n width;
  _ ← charge_items t n;
  read_n n read.

Definition read_list_literal_item : Read ListLiteralItem :=
  kind ← u8; r ← u16;
  match kind with
  | 0 => mret (LElement r) | 1 => mret (LSpread r)
  | _ => fail (invalid_scalar "list literal item")
  end.

Definition read_map_literal_item (budget : Z) : Read (MapLiteralItem * Z) :=
  kind ← u8;
  match kind with
  | 0 => budget ← charge_operands budget 2 1; key ← u16; value ← u16; mret (MEntry key value, budget)
  | 1 => budget ← charge_operands budget 1 1; r ← u16; mret (MSpread r, budget)
  | _ => fail (invalid_scalar "map literal item")
  end.

Definition read_arm (budget : Z) : Read (EnumSwitchArm * Z) :=
  variant ← u32; target ← u32;
  bindings ← operand_registers budget;
  mret ({| arm_variant := variant; arm_target := target; arm_bindings := bindings.1 |}, bindings.2).

(** [read_n] for items that draw on the operands left. *)
Fixpoint read_budgeted {A} (n : nat) (budget : Z) (read : Z → Read (A * Z)) : Read (list A) :=
  match n with
  | O => mret []
  | S n => x ← read budget; l ← read_budgeted n x.2 read; mret (x.1 :: l)
  end.

(** The operand list of an instruction. *)
Definition operands : Read (list Register) :=
  l ← operand_registers (operands_per_instruction limits); mret l.1.

Definition instruction : Read Instruction :=
  opcode ← u8;
  match opcode with
  | 0 => d ← u16; constant ← u32; mret (Const d constant)
  | 1 => d ← u16; source ← u16; mret (Move d source)
  | 2 => d ← u16; l ← u16; r ← u16; operation ← read_numeric_op; mret (IntBinary d l r operation)
  | 3 => d ← u16; l ← u16; r ← u16; operation ← read_numeric_op; mret (FloatBinary d l r operation)
  | 42 => d ← u16; l ← u16; r ← u16; mret (IntRemainder d l r)
  | 43 =>
    d ← u16; operation ← read_string_operation; arguments ← operands;
    mret (StringCall d operation arguments)
  | 47 =>
    d ← u16; operation ← read_standard_operation; arguments ← operands;
    mret (StandardCall d operation arguments)
  | 44 =>
    d ← u16; operation ← read_capability_operation; arguments ← operands;
    mret (CapabilityInspect d operation arguments)
  | 45 =>
    d ← u16; operation ← read_safe_collection_operation; arguments ← operands;
    mret (SafeCollectionCall d operation arguments)
  | 46 =>
    d ← u16; operation ← read_checked_int_operation; arguments ← operands;
    mret (CheckedIntCall d operation arguments)
  | 48 =>
    d ← u16; operation ← read_collection_operation; arguments ← operands;
    mret (CollectionCall d operation arguments)
  | 49 =>
    d ← u16; values ← u16; initial ← u16; callback ← u16; mret (ListFold d values initial callback)
  | 56 =>
    d ← u16; operation ← read_combinator_operation; values ← u16; initial ← read_optional_register;
    callback ← u16; callback_result ← u16;
    mret (ListCombinator_ d operation values initial callback callback_result)
  | 4 => d ← u16; source ← u16; mret (IntNegate d source)
  | 5 => d ← u16; source ← u16; mret (FloatNegate d source)
  | 6 => d ← u16; l ← u16; r ← u16; operation ← read_compare_op; mret (Compare d l r operation)
  | 7 => d ← u16; source ← u16; mret (BoolNot d source)
  | 8 => d ← u16; l ← u16; r ← u16; operation ← read_bool_op; mret (BoolBinary d l r operation)
  | 9 => d ← u16; elements ← operands; mret (ListNew d elements)
  | 58 =>
    d ← u16; items ← operand_table "list literal items" 1 RListLiteralItem read_list_literal_item;
    mret (ListLiteralBuild d items)
  | 10 =>
    d ← u16; entries ← operand_table "operands" 2 RRegisterPair (k ← u16; v ← u16; mret (k, v));
    mret (MapNew d entries)
  | 59 =>
    d ← u16; n ← count (operands_per_instruction limits) "map literal items";
    _ ← charge_items RMapLiteralItem n;
    items ← read_budgeted n (operands_per_instruction limits) read_map_literal_item;
    mret (MapLiteralBuild d items)
  | 60 =>
    d ← u16; start ← u16; end_ ← u16; inclusive ← read_inclusive; mret (RangeNew d start end_ inclusive)
  | 71 => d ← u16; range ← u16; mret (RangeStart d range)
  | 72 => d ← u16; range ← u16; mret (RangeEnd d range)
  | 73 => d ← u16; range ← u16; mret (RangeInclusive d range)
  | 61 =>
    d ← u16; collection ← u16; start ← u16; end_ ← u16; mret (SliceGet d collection start end_)
  | 62 => d ← u16; values ← u16; mret (SequenceFromList d values)
  | 63 => d ← u16; sequence ← u16; callback ← u16; mret (SequenceMap d sequence callback)
  | 64 => d ← u16; sequence ← u16; callback ← u16; mret (SequenceFilter d sequence callback)
  | 65 => d ← u16; sequence ← u16; n ← u16; mret (SequenceTake d sequence n)
  | 66 => d ← u16; sequence ← u16; callback ← u16; mret (SequenceFind d sequence callback)
  | 67 => d ← u16; sequence ← u16; callback ← u16; mret (SequenceAny d sequence callback)
  | 68 => d ← u16; sequence ← u16; callback ← u16; mret (SequenceAll d sequence callback)
  | 69 =>
    d ← u16; sequence ← u16; initial ← u16; callback ← u16;
    mret (SequenceFold d sequence initial callback)
  | 70 => d ← u16; sequence ← u16; mret (SequenceToList d sequence)
  | 11 => d ← u16; elements ← operands; mret (TupleNew d elements)
  | 12 => d ← u16; collection ← u16; index ← u16; mret (IndexGet d collection index)
  | 13 => d ← u16; tuple ← u16; index ← u32; mret (TupleGet d tuple index)
  | 14 => d ← u16; source ← u16; conversion ← read_conversion; mret (Convert d source conversion)
  | 15 =>
    d ← u16; fields ← operand_table "operands" 2 RFieldOperand (f ← u32; r ← u16; mret (f, r));
    mret (RecordNew d fields)
  | 16 => d ← u16; record ← u16; field ← u32; mret (FieldGet d record field)
  | 17 => d ← u16; variant ← u32; payload ← operands; mret (EnumNew d variant payload)
  | 18 => c ← u16; t ← u32; f ← u32; mret (BranchBool c t f)
  | 19 =>
    source ← u16; n ← count (operands_per_instruction limits) "operands";
    budget ← charge_operands (operands_per_instruction limits) n 2;
    _ ← charge_items REnumSwitchArm n;
    arms ← read_budgeted n budget read_arm;
    mret (SwitchEnum source arms)
  | 20 => target ← u32; mret (Jump target)
  | 21 => d ← u16; source ← u16; mret (TryResult d source)
  | 57 => d ← u16; source ← u16; mret (TryOption d source)
  | 22 => d ← u16; source ← u16; mret (ToUnknown d source)
  | 23 => d ← u16; source ← u16; target ← type_ref; mret (Narrow d source target)
  | 54 => d ← u16; source ← u16; target ← type_ref; mret (Decode d source target)
  | 24 => d ← u16; function ← u32; arguments ← operands; mret (DirectCall d function arguments)
  | 25 => d ← u16; function ← u32; captures ← operands; mret (ClosureNew d function captures)
  | 26 => d ← u16; closure ← u16; arguments ← operands; mret (ClosureCall d closure arguments)
  | 27 => source ← u16; mret (Return_ source)
  | 28 => d ← u16; function ← u32; arguments ← operands; mret (AsyncCall d function arguments)
  | 29 => d ← u16; future ← u16; scope ← u32; mret (Spawn d future scope)
  | 30 => d ← u16; source ← u16; mret (Await d source)
  | 31 => scope ← u32; mret (TaskScopeEnter scope)
  | 32 => scope ← u32; mret (TaskScopeExit scope)
  | 33 => reason ← u16; mret (Stop reason)
  | 50 => reason ← u16; mret (Fail_ reason)
  | 51 => d ← u16; source ← u16; mret (NewtypeWrap d source)
  | 52 => d ← u16; source ← u16; mret (NewtypeUnwrap d source)
  | 34 => d ← u16; source ← u16; mret (TaskSnapshot d source)
  | 35 => d ← u16; mret (WorkspaceGet d)
  | 36 =>
    d ← u16; operation ← read_effect_operation; arguments ← operands;
    mret (EffectCall d operation arguments)
  | 37 => d ← u16; tool ← u32; input ← u16; mret (ToolInvoke d tool input)
  | 55 => d ← u16; template ← u32; arguments ← operands; mret (TemplateRender d template arguments)
  | 38 => d ← u16; collection ← u16; mret (Length d collection)
  | 39 => d ← u16; values ← u16; value ← u16; mret (ListAppend d values value)
  | 40 =>
    d ← u16; values ← u16; index ← u16; value ← u16; mret (ListSet d values index value)
  | 41 => d ← u16; m ← u16; index ← u16; mret (MapEntryAt d m index)
  | _ => fail (invalid_scalar "instruction opcode")
  end.
End Decode.
