(* ===== verification/ArtifactFormat.v ===== *)
(** * The formats of types and instructions round-trip

    [encodes out p x]: whenever the encoder produces bytes, the reader [p] on these
    bytes and any rest reads [x] and leaves the rest, or stops because a limit is
    exceeded.  The relation is closed under sequences and tables, so that the
    proof for a format follows the code of its encoder and its reader. *)

From S2P Require Import Prelude Text Bytecode ArtifactBytes ArtifactModel ArtifactCodec.
Open Scope string_scope.
Open Scope Z_scope.

(** ** Rules *)

Definition reads {A} (p : Read A) (w : list Z) (x : A) : Prop :=
  ∀ rest b,
    match p {| rd_bytes := (w ++ rest)%list; rd_budget := b |} with
    | Ok (y, r) => y = x ∧ rd_bytes r = rest
    | Err e => ae_code e = LimitExceeded
    end.

Definition encodes {A} (out : Output) (p : Read A) (x : A) : Prop :=
  ∀ w, out = Ok w → reads p w x.

(** The reader charges a budget and reads nothing. *)
Definition charges {A} (p : Read A) : Prop :=
  ∀ r, match p r with
       | Ok (_, r') => rd_bytes r' = rd_bytes r
       | Err e => ae_code e = LimitExceeded
       end.

Create HintDb format discriminated.

Lemma encodes_nil {A} (x : A) : encodes (emit []) (mret x) x.
Proof. intros w [= <-] rest b. by split. Qed.

Lemma emit_cons part parts w :
  emit (part :: parts) = Ok w →
  ∃ w1 w2, part = Ok w1 ∧ emit parts = Ok w2 ∧ w = (w1 ++ w2)%list.
Proof.
  cbn [emit]. destruct part as [w1|]; [|done]. destruct (emit parts) as [w2|]; [|done].
  intros [= <-]. eauto.
Qed.

Lemma reads_bind {A B} (p : Read A) (k : A → Read B) w1 w2 x y :
  reads p w1 x → reads (k x) w2 y → reads (p ≫= k) (w1 ++ w2)%list y.
Proof.
  intros Hp Hk rest b. unfold mbind, read_bind. rewrite <- app_assoc. specialize (Hp (w2 ++ rest)%list b).
  destruct (p _) as [[z r]|e]; [|done]. destruct Hp as [-> Hr]. specialize (Hk rest (rd_budget r)).
  rewrite <- Hr in Hk. by destruct r.
Qed.

Lemma encodes_cons {A B} part parts (p : Read A) (k : A → Read B) x y :
  encodes part p x → encodes (emit parts) (k x) y → encodes (emit (part :: parts)) (p ≫= k) y.
Proof.
  intros Hp Hk w Hw. apply emit_cons in Hw as (w1 & w2 & H1 & H2 & ->).
  eapply reads_bind; [by apply Hp|by apply Hk].
Qed.

Lemma encodes_last {A B} part (p : Read A) (k : A → Read B) x y :
  encodes part p x → encodes (emit []) (k x) y → encodes part (p ≫= k) y.
Proof.
  intros Hp Hk w Hw. rewrite <- (app_nil_r w). eapply reads_bind; [by apply Hp|by apply Hk].
Qed.

Lemma encodes_single {A} part (p : Read A) x : encodes part p x → encodes (emit [part]) p x.
Proof.
  intros Hp w Hw. apply emit_cons in Hw as (w1 & w2 & H1 & [= <-] & ->). rewrite app_nil_r. by apply Hp.
Qed.

Lemma encodes_charge {A B} out (p : Read A) (k : A → Read B) y :
  charges p → (∀ x, encodes out (k x) y) → encodes out (p ≫= k) y.
Proof.
  intros Hp Hk w Hw rest b. unfold mbind, read_bind. specialize (Hp {| rd_bytes := w ++ rest; rd_budget := b |}).
  destruct (p _) as [[x r]|e]; [|done]. specialize (Hk x w Hw rest (rd_budget r)). simpl in Hp.
  rewrite <- Hp in Hk. by destruct r.
Qed.

Lemma encodes_assoc {A B C} out (p : Read A) (k : A → Read B) (g : B → Read C) y :
  encodes out (x ← p; k x ≫= g) y → encodes out ((p ≫= k) ≫= g) y.
Proof.
  intros He w Hw rest b. specialize (He w Hw rest b). revert He. unfold mbind, read_bind.
  by destruct (p _) as [[]|].
Qed.

Lemma encodes_fail {A} out (x : A) resource : encodes out (fail (limit resource)) x.
Proof. intros w _ rest b. done. Qed.

(** ** Primitives *)

Lemma take_bytes_reads w n : Z.of_nat (length w) = n → reads (take_bytes n) w w.
Proof.
  intros <- rest b. unfold take_bytes. simpl. rewrite length_app.
  destruct (Z.ltb_spec (Z.of_nat (length w + length rest)) (Z.of_nat (length w))); [lia|].
  rewrite Nat2Z.id, take_app_length, drop_app_length. done.
Qed.

Lemma reads_fmap {A B} (p : Read A) (f : A → B) w x :
  reads p w x → reads (y ← p; mret (f y)) w (f x).
Proof.
  intros Hp. rewrite <- (app_nil_r w). eapply reads_bind; [exact Hp|]. intros rest b. done.
Qed.

Lemma encodes_le {A} width z (f : Z → A) x :
  0 <= z < 256 ^ Z.of_nat width → f z = x →
  encodes (Ok (le_bytes width z)) (bs ← take_bytes (Z.of_nat width); mret (f (le_value bs))) x.
Proof.
  intros Hz <- w Hw. assert (w = le_bytes width z) as -> by congruence.
  rewrite <- (le_value_bytes width z) at 2 by done. apply (reads_fmap _ (λ bs, f (le_value bs))).
  apply take_bytes_reads. by rewrite length_le_bytes.
Qed.

Lemma encodes_u8 b : encodes (put_u8 b) u8 b.
Proof.
  intros w [= <-]. unfold u8. replace b with (le_value [b]) at 2 by (simpl; lia).
  apply (reads_fmap _ le_value). by apply take_bytes_reads.
Qed.

Definition is_u16 (n : nat) : bool := Z.of_nat n <=? u16_max.
Definition is_u32 (n : nat) : bool := Z.of_nat n <=? u32_max.

Lemma encodes_u16 n : is_u16 n = true → encodes (put_u16 n) u16 n.
Proof.
  unfold is_u16, u16_max. intros Hn%Z.leb_le. apply (encodes_le 2 _ Z.to_nat); [simpl; lia|].
  apply Nat2Z.id.
Qed.

Lemma encodes_u32 n : is_u32 n = true → encodes (put_u32 n) u32 n.
Proof.
  unfold is_u32, u32_max. intros Hn%Z.leb_le. apply (encodes_le 4 _ Z.to_nat); [simpl; lia|].
  apply Nat2Z.id.
Qed.

Lemma encodes_z32 z : 0 <= z <= u32_max → encodes (put_z32 z) u32_z z.
Proof. unfold u32_max. intros Hz. apply (encodes_le 4 z id); [simpl; lia|done]. Qed.

Lemma encodes_u64 z : 0 <= z <= u64_max → encodes (put_u64 z) u64 z.
Proof. unfold u64_max. intros Hz. apply (encodes_le 8 z id); [simpl; lia|done]. Qed.

Lemma encodes_i64 z : in_i64 z = true → encodes (put_i64 z) i64 z.
Proof.
  unfold in_i64, i64_min, i64_max. intros Hz.
  apply (encodes_le 8 (z mod 2 ^ 64) (λ z, if i64_max <? z then z - 2 ^ 64 else z)).
  { pose proof (Z.mod_pos_bound z (2 ^ 64)). simpl in *. lia. }
  unfold i64_max. destruct (Z.leb_spec 0 z).
  - rewrite Z.mod_small by lia. destruct (Z.ltb_spec 9223372036854775807 z); lia.
  - rewrite <- (Z.mod_unique z (2 ^ 64) (-1) (z + 2 ^ 64)) by lia.
    destruct (Z.ltb_spec 9223372036854775807 (z + 2 ^ 64)); lia.
Qed.

Lemma encodes_bytes n w : Z.of_nat (length w) = n → encodes (put_slice w) (take_bytes n) w.
Proof. intros Hn w' [= <-]. by apply take_bytes_reads. Qed.

Lemma encodes_count n maximum resource resource' :
  encodes (put_count n resource) (count maximum resource') n.
Proof.
  intros w Hw. unfold put_count, to_u32 in Hw. destruct (Z.ltb_spec u32_max (Z.of_nat n)); [done|].
  unfold count. eapply encodes_last; [apply (encodes_z32 (Z.of_nat n)); lia| |exact Hw].
  destruct (_ <? _); [apply encodes_fail|]. rewrite Nat2Z.id. apply encodes_nil.
Qed.

Lemma charges_bytes n : charges (charge_model_bytes n).
Proof. intros r. unfold charge_model_bytes. by destruct (_ <? _). Qed.

Lemma charges_items `{Layout} t n : charges (charge_items t n).
Proof. unfold charge_items. destruct (_ <? _); [done|apply charges_bytes]. Qed.

Lemma charges_type_node `{Layout} : charges charge_type_node.
Proof.
  intros r. unfold charge_type_node. destruct (_ <? _); [done|].
  pose proof (charges_items RValueType 1 {| rd_bytes := rd_bytes r; rd_budget :=
    {| remaining := remaining (rd_budget r);
       remaining_type_nodes := remaining_type_nodes (rd_budget r) - 1 |} |}) as Hc.
  by destruct (charge_items _ _ _) as [[[] r']|].
Qed.

Lemma charges_operands budget n width : charges (charge_operands budget n width).
Proof. intros r. unfold charge_operands. destruct (_ <? _); [done|]. by destruct (_ <? _). Qed.

(** ** Tables *)

Lemma encodes_read_n {A} (put : A → Output) (read : Read A) l :
  Forall (λ x, encodes (put x) read x) l →
  encodes (emit (map put l)) (read_n (length l) read) l.
Proof.
  induction 1 as [|x l Hx _ IH]; cbn [map length read_n]; [apply encodes_nil|].
  eapply encodes_cons; [exact Hx|]. eapply encodes_last; [exact IH|]. apply encodes_nil.
Qed.

Lemma encodes_table `{Layout} {A} (put : A → Output) (read : Read A) l resource maximum resource' t :
  Forall (λ x, encodes (put x) read x) l →
  encodes (put_table resource put l) (table maximum resource' t read) l.
Proof.
  intros Hl. unfold put_table, table. eapply encodes_cons; [apply encodes_count|].
  apply encodes_charge; [apply charges_items|]. intros _. by apply encodes_single, encodes_read_n.
Qed.
#[export] Hint Resolve encodes_u8 encodes_u16 encodes_u32 encodes_z32 encodes_u64 encodes_i64
  encodes_nil encodes_count : format.
#[export] Hint Resolve charges_bytes charges_items charges_type_node charges_operands : format.

(** Follows the reader through the parts that the encoder emits. *)
Ltac format_step :=
  match goal with
  | |- encodes (emit []) (mret _) _ => apply encodes_nil
  | |- encodes _ (fail (limit _)) _ => apply encodes_fail
  | |- encodes _ ((_ ≫= _) ≫= _) _ => apply encodes_assoc
  | |- encodes _ (?p ≫= _) _ =>
    apply encodes_charge; [solve [auto with format nocore]|intros ?; cbn beta iota]
  | |- encodes (emit (?part :: _)) (_ ≫= _) _ =>
    eapply encodes_cons; [solve [eauto with format nocore]|cbn beta iota]
  | |- encodes ?part (_ ≫= _) _ =>
    eapply encodes_last; [solve [eauto with format nocore]|cbn beta iota]
  end.
Ltac format := repeat format_step.

(** ** Widths

    The identifiers of a type or an instruction fit their integers, as the types of
    the source make sure. *)

Fixpoint type_width (t : ValueType) : bool :=
  match t with
  | TEnum id => is_u32 id
  | TList e | TOption e | TFuture e | TTask e | TSequence e | TNewtype _ e => type_width e
  | TMap a b | TResult a b => type_width a && type_width b
  | TTuple elements => forallb type_width elements
  | TRecord fields => forallb (λ field : RecordField, type_width field.2) fields
  | TFunction parameters return_type effects =>
    forallb type_width parameters && type_width return_type && is_u32 effects
  | _ => true
  end.

Definition instruction_width (i : Instruction) : bool :=
  match i with
  | Const d constant => is_u16 d && is_u32 constant
  | Move d s | IntNegate d s | FloatNegate d s | BoolNot d s | TryResult d s | TryOption d s
  | ToUnknown d s | Await d s | TaskSnapshot d s | NewtypeWrap d s | NewtypeUnwrap d s
  | Length d s | RangeStart d s | RangeEnd d s | RangeInclusive d s | SequenceFromList d s
  | SequenceToList d s | Convert d s _ => is_u16 d && is_u16 s
  | IntBinary d l r _ | FloatBinary d l r _ | Compare d l r _ | BoolBinary d l r _
  | IntRemainder d l r | IndexGet d l r | ListAppend d l r | MapEntryAt d l r
  | SequenceMap d l r | SequenceFilter d l r | SequenceTake d l r | SequenceFind d l r
  | SequenceAny d l r | SequenceAll d l r | RangeNew d l r _ =>
    is_u16 d && is_u16 l && is_u16 r
  | ListNew d l | TupleNew d l | EffectCall d _ l | StringCall d _ l | StandardCall d _ l
  | CapabilityInspect d _ l | SafeCollectionCall d _ l | CheckedIntCall d _ l
  | CollectionCall d _ l => is_u16 d && forallb is_u16 l
  | ListLiteralBuild d items =>
    is_u16 d && forallb (λ item, match item with LElement r | LSpread r => is_u16 r end) items
  | MapNew d entries => is_u16 d && forallb (λ e, is_u16 e.1 && is_u16 e.2) entries
  | MapLiteralBuild d items =>
    is_u16 d && forallb (λ item, match item with
                                 | MEntry k v => is_u16 k && is_u16 v
                                 | MSpread r => is_u16 r
                                 end) items
  | TupleGet d r n | FieldGet d r n | Spawn d r n | ToolInvoke d n r =>
    is_u16 d && is_u16 r && is_u32 n
  | RecordNew d fields => is_u16 d && forallb (λ f, is_u32 f.1 && is_u16 f.2) fields
  | EnumNew d n l | DirectCall d n l | ClosureNew d n l | AsyncCall d n l | TemplateRender d n l =>
    is_u16 d && is_u32 n && forallb is_u16 l
  | ClosureCall d r l => is_u16 d && is_u16 r && forallb is_u16 l
  | BranchBool c t f => is_u16 c && is_u32 t && is_u32 f
  | SwitchEnum s arms =>
    is_u16 s && forallb (λ arm, is_u32 (arm_variant arm) && is_u32 (arm_target arm)
                                && forallb is_u16 (arm_bindings arm)) arms
  | Jump n | TaskScopeEnter n | TaskScopeExit n => is_u32 n
  | Narrow d s t | Decode d s t => is_u16 d && is_u16 s && type_width t
  | Return_ r | Stop r | Fail_ r | WorkspaceGet r => is_u16 r
  | ListFold d a b c | ListSet d a b c | SliceGet d a b c | SequenceFold d a b c =>
    is_u16 d && is_u16 a && is_u16 b && is_u16 c
  | ListCombinator_ d _ v initial c r =>
    is_u16 d && is_u16 v && match initial with Some i => is_u16 i | None => true end
    && is_u16 c && is_u16 r
  end.

(** ** Types *)

Lemma position_Some {A} (f : A → bool) l i :
  position f l = Some i → ∃ x, l !! i = Some x ∧ f x = true.
Proof.
  revert i. induction l as [|y l IH]; intros i Hp; [done|]. cbn [position] in Hp.
  destruct (f y) eqn:Hf; [injection Hp as <-; by exists y|].
  apply bind_Some in Hp as (j & Hj & [= <-]). by apply IH.
Qed.

Lemma Forall_checked {A} (P Q : A → Prop) (f : A → bool) l :
  Forall P l → forallb f l = true → (∀ x, P x → f x = true → Q x) → Forall Q l.
Proof.
  intros HP Hf HQ. rewrite forallb_forall in Hf. rewrite Forall_forall in *. intros x Hx.
  by apply HQ; [apply HP|apply Hf, list_elem_of_In].
Qed.

Section Types.
Context `{Layout} (limits : DecodeLimits) (strings : list string).
Hypothesis Hstrings : Z.of_nat (length strings) <= u32_max + 1.

Lemma encodes_string s : encodes (put_string strings s) (string_ref strings) s.
Proof using Hstrings.
  intros w Hw. unfold put_string, string_id in Hw. destruct (position _ strings) as [i|] eqn:Hp; [|done].
  simpl in Hw. apply position_Some in Hp as (s' & Hi & <-%String.eqb_eq).
  pose proof (lookup_lt_Some _ _ _ Hi). unfold string_ref.
  eapply encodes_last; [apply (encodes_u32 i)| |exact Hw].
  { unfold is_u32. apply Z.leb_le. lia. }
  cbn beta. rewrite Hi. apply encodes_charge; [apply charges_bytes|]. intros _. apply encodes_nil.
Qed.
Local Hint Resolve encodes_string : format.

Lemma encodes_fields fuel fields maximum resource :
  Forall (λ f : RecordField,
    encodes (encode_type strings f.2) (value_type limits strings fuel) f.2) fields →
  encodes (put_table "record field table"
             (λ f : RecordField, emit [put_string strings f.1; encode_type strings f.2]) fields)
    (table maximum resource RRecordField
       (name ← string_ref strings; t ← value_type limits strings fuel; mret (name, t))) fields.
Proof using Hstrings.
  intros Hf. apply encodes_table. eapply Forall_impl; [exact Hf|]. intros [name t] Ht. simpl in Ht. format.
Qed.

Lemma encodes_type t fuel :
  type_width t = true → encodes (encode_type strings t) (value_type limits strings fuel) t.
Proof using Hstrings.
  revert fuel.
  induction t as [t Ht|e IH|a b IHa IHb|l IH|fs IH|n e IH|e IH|a b IHa IHb|e IH|e IH|e IH
                 |ps r e IH IHr] using ValueType_ind'; intros [|fuel] Hw;
    try apply encodes_fail; cbn [type_width] in Hw; try apply andb_true_iff in Hw as [Hw1 Hw2];
    try specialize (IH fuel Hw); try specialize (IHa fuel Hw1); try specialize (IHb fuel Hw2);
    try (cbn [encode_type value_type]; by format).
  - destruct t; try done; cbn [encode_type value_type]; by format.
  - cbn [encode_type value_type]. format. eapply encodes_cons; [|apply encodes_nil].
    apply encodes_table. eapply Forall_checked; [exact IH|exact Hw|]. auto.
  - cbn [encode_type value_type]. format. eapply encodes_cons; [|apply encodes_nil].
    apply encodes_fields. eapply Forall_checked; [exact IH|exact Hw|]. auto.
  - apply andb_true_iff in Hw1 as [Hp Hr]. specialize (IHr fuel Hr).
    cbn [encode_type value_type]. format. eapply encodes_cons; [|cbn beta; by format].
    apply encodes_table. eapply Forall_checked; [exact IH|exact Hp|]. auto.
Qed.
End Types.
(** ** Types have different keys *)

Definition type_tag (t : ValueType) : Z :=
  match t with
  | TInt => 0 | TBool => 1 | TFloat => 2 | TString => 3 | TBytes => 4 | TUnit => 5 | TNever => 6
  | TList _ => 7 | TMap _ _ => 8 | TTuple _ => 9 | TRecord _ => 10 | TEnum _ => 11 | TOption _ => 12
  | TResult _ _ => 13 | TFunction _ _ _ => 14 | TUnknown => 15 | TFuture _ => 16 | TTask _ => 17
  | TWorkspace => 18 | TExternalFsAccess => 19 | TSubAgent => 20 | TNewtype _ _ => 21 | TRange => 22
  | TSequence _ => 23
  end.

(** Two encodings that start the same text are of the same value and end at the
    same place. *)
Definition same_start {A} (put : A → Output) (x y : A) : Prop :=
  ∀ w v r s, put x = Ok w → put y = Ok v → (w ++ r = v ++ s)%list → x = y ∧ r = s.

Lemma same_start_u32 n m : is_u32 n = true → is_u32 m = true → same_start put_u32 n m.
Proof.
  unfold is_u32, u32_max. intros Hn%Z.leb_le Hm%Z.leb_le w v r s Hw Hv He.
  assert (w = le_bytes 4 (Z.of_nat n)) as -> by (unfold put_u32 in Hw; congruence).
  assert (v = le_bytes 4 (Z.of_nat m)) as -> by (unfold put_u32 in Hv; congruence).
  apply app_inj_1 in He as [He ->]; [|done]. split; [|done].
  apply le_bytes_inj in He; [lia|simpl; lia..].
Qed.

Lemma same_start_cons {A} (put : A → Output) x y parts others w v r s :
  same_start put x y → emit (put x :: parts) = Ok w → emit (put y :: others) = Ok v →
  (w ++ r = v ++ s)%list →
  x = y ∧ ∃ w' v', emit parts = Ok w' ∧ emit others = Ok v' ∧ (w' ++ r = v' ++ s)%list.
Proof.
  intros Hp Hw Hv He. apply emit_cons in Hw as (w1 & w2 & H1 & H2 & ->).
  apply emit_cons in Hv as (v1 & v2 & G1 & G2 & ->). rewrite <- !app_assoc in He.
  destruct (Hp _ _ _ _ H1 G1 He) as [-> He']. split; [done|]. by exists w2, v2.
Qed.

Lemma same_start_items {A} (put : A → Output) l k w v r s :
  (∀ x y, x ∈ l → y ∈ k → same_start put x y) → length l = length k →
  emit (map put l) = Ok w → emit (map put k) = Ok v → (w ++ r = v ++ s)%list →
  l = k ∧ r = s.
Proof.
  revert k w v. induction l as [|x l IH]; intros [|y k] w v Hp Hlen Hw Hv He; try done; cbn [map] in *.
  { injection Hw as <-. injection Hv as <-. by split. }
  destruct (same_start_cons put x y _ _ _ _ _ _ ltac:(apply Hp; left) Hw Hv He)
    as (-> & w' & v' & Hw' & Hv' & He').
  injection Hlen as Hlen.
  destruct (IH k w' v' ltac:(intros; apply Hp; by right) Hlen Hw' Hv' He') as [-> ->]. done.
Qed.

Lemma same_start_count n m resource :
  same_start (λ n, put_count n resource) n m.
Proof.
  intros w v r s Hw Hv He. unfold put_count, to_u32 in *.
  destruct (Z.ltb_spec u32_max (Z.of_nat n)); [done|].
  destruct (Z.ltb_spec u32_max (Z.of_nat m)); [done|].
  apply (same_start_u32 n m) with w v; try done; unfold is_u32; apply Z.leb_le; lia.
Qed.

Lemma same_start_table {A} (put : A → Output) resource l k :
  (∀ x y, x ∈ l → y ∈ k → same_start put x y) → same_start (put_table resource put) l k.
Proof.
  intros Hl w v r s Hw Hv He.
  destruct (same_start_cons (λ n, put_count n resource) _ _ _ _ _ _ _ _
              (same_start_count _ _ _) Hw Hv He) as (Hlen & w' & v' & Hw' & Hv' & He').
  apply emit_cons in Hw' as (w1 & ? & Hw' & [= <-] & ->).
  apply emit_cons in Hv' as (v1 & ? & Hv' & [= <-] & ->). rewrite !app_nil_r in He'.
  by apply (same_start_items put l k w1 v1 r s).
Qed.

Lemma forallb_elem {A} (f : A → bool) l x : forallb f l = true → x ∈ l → f x = true.
Proof. rewrite forallb_forall. intros Hf Hx. apply Hf. by apply list_elem_of_In. Qed.

(** Compares two encodings part by part. *)
Ltac same_parts :=
  repeat match goal with
  | Hw : emit (?f ?x :: _) = Ok ?w, Hv : emit (?g ?y :: _) = Ok ?v, He : (?w ++ ?r = ?v ++ ?s)%list |- _ =>
    unify f g;
    let G := fresh in
    assert (G : same_start f x y) by solve [eauto with format nocore];
    destruct (same_start_cons f x y _ _ _ _ _ _ G Hw Hv He) as (? & ? & ? & ? & ? & ?);
    clear G Hw Hv He; subst
  | Hw : emit [] = Ok _ |- _ => injection Hw as <-
  end.

Section Keys.
Variable strings : list string.
Hypothesis Hstrings : Z.of_nat (length strings) <= u32_max + 1.

Lemma encode_type_tag t w :
  encode_type strings t = Ok w → ∃ w', w = type_tag t :: w'.
Proof using Type.
  clear Hstrings.
  destruct t; cbn [encode_type]; intros Hw;
    try (injection Hw as <-; by eexists); apply emit_cons in Hw as (w1 & w2 & [= <-] & _ & ->);
    by eexists.
Qed.

Lemma same_start_string x y : same_start (put_string strings) x y.
Proof using Hstrings.
  intros w v r s Hw Hv He. unfold put_string, string_id in *.
  destruct (position (String.eqb x) strings) as [i|] eqn:Hx; [|done].
  destruct (position (String.eqb y) strings) as [j|] eqn:Hy; [|done]. simpl in Hw, Hv.
  apply position_Some in Hx as (x' & Hi & <-%String.eqb_eq).
  apply position_Some in Hy as (y' & Hj & <-%String.eqb_eq).
  pose proof (lookup_lt_Some _ _ _ Hi). pose proof (lookup_lt_Some _ _ _ Hj).
  destruct (same_start_u32 i j) with (5 := He) as [-> ->]; try done;
    [unfold is_u32; apply Z.leb_le; lia..|]. split; [congruence|done].
Qed.

Lemma same_start_tag x y : same_start put_u8 x y.
Proof using Type. intros w v r s [= <-] [= <-] He. by simplify_eq/=. Qed.

Local Hint Resolve same_start_u32 same_start_string same_start_tag : format.

Lemma same_start_field t t' (x y : string) :
  same_start (encode_type strings) t t' →
  same_start (λ f : RecordField, emit [put_string strings f.1; encode_type strings f.2]) (x, t) (y, t').
Proof using Hstrings.
  intros Ht w v r s Hw Hv He. cbn [fst snd] in *. same_parts. done.
Qed.

Definition unique_type (t : ValueType) : Prop :=
  type_width t = true → ∀ t', type_width t' = true → same_start (encode_type strings) t t'.

Lemma same_start_types l k :
  Forall unique_type l → forallb type_width l = true → forallb type_width k = true →
  same_start (put_table "type table" (encode_type strings)) l k.
Proof using Type.
  intros Hl Hwl Hwk. apply same_start_table. intros x y Hx Hy. rewrite Forall_forall in Hl.
  apply Hl; eauto using forallb_elem.
Qed.

Lemma same_start_fields fs gs :
  Forall (λ f : RecordField, unique_type f.2) fs →
  forallb (λ f : RecordField, type_width f.2) fs = true →
  forallb (λ f : RecordField, type_width f.2) gs = true →
  same_start (put_table "record field table"
    (λ f : RecordField, emit [put_string strings f.1; encode_type strings f.2])) fs gs.
Proof using Hstrings.
  intros Hl Hwl Hwk. apply same_start_table. intros [x t] [y t'] Hx Hy. rewrite Forall_forall in Hl.
  apply same_start_field, (Hl (x, t)); [done|..].
  - exact (forallb_elem _ _ _ Hwl Hx).
  - exact (forallb_elem _ _ _ Hwk Hy).
Qed.
Local Hint Resolve same_start_types same_start_fields : format.

Lemma same_tag t t' w v r s :
  encode_type strings t = Ok w → encode_type strings t' = Ok v → (w ++ r = v ++ s)%list →
  type_tag t = type_tag t'.
Proof using Type.
  clear Hstrings. intros [w' ->]%encode_type_tag [v' ->]%encode_type_tag He. by injection He.
Qed.

Lemma same_start_type t : unique_type t.
Proof using Hstrings.
  induction t as [t Ht|e IH|a b IHa IHb|l IH|fs IH|n e IH|e IH|a b IHa IHb|e IH|e IH|e IH
                 |ps r e IH IHr] using ValueType_ind'; intros Hwt t' Hwt' w v r' s Hw Hv He;
    pose proof (same_tag _ _ _ _ _ _ Hw Hv He) as Htag.
  { destruct t, t'; try done; cbn [encode_type type_width] in *; try (unfold put_u8 in *; by simplify_eq/=).
    same_parts. done. }
  all: destruct t'; try done; clear Htag; cbn [encode_type type_width] in *;
    repeat match goal with
    | H : _ && _ = true |- _ => apply andb_true_iff in H as [? ?]
    | IH : unique_type ?t, Hw : type_width ?t = true |- _ => specialize (IH Hw)
    end; same_parts; done.
Qed.

Lemma type_key_inj t t' w :
  type_width t = true → type_width t' = true →
  encode_type strings t = Ok w → encode_type strings t' = Ok w → t = t'.
Proof using Hstrings. intros Ht Ht' Hw Hv. by apply (same_start_type t Ht t' Ht' w w [] []). Qed.
End Keys.

(** ** Instructions *)

Lemma encodes_operand_table `{Layout} {A} (limits : DecodeLimits) (put : A → Output) (read : Read A) l
    resource resource' width t :
  Forall (λ x, encodes (put x) read x) l →
  encodes (put_table resource put l) (operand_table limits resource' width t read) l.
Proof.
  intros Hl. unfold put_table, operand_table. format.
  by apply encodes_single, encodes_read_n.
Qed.

Lemma Forall_width {A} (Q : A → Prop) (f : A → bool) l :
  forallb f l = true → (∀ x, f x = true → Q x) → Forall Q l.
Proof. rewrite forallb_forall, Forall_forall. intros Hf HQ x Hx. apply HQ, Hf. by apply list_elem_of_In. Qed.

(** A reader that also returns the operands left. *)
Definition drawn {A} (p : Read (A * Z)) : Read A := x ← p; mret x.1.

Lemma reads_drawn {A B} (p : Read (A * Z)) (k : A * Z → Read B) w1 w2 x y :
  reads (drawn p) w1 x → (∀ left, reads (k (x, left)) w2 y) → reads (p ≫= k) (w1 ++ w2)%list y.
Proof.
  intros Hp Hk rest b. specialize (Hp (w2 ++ rest)%list b). revert Hp.
  unfold drawn, mbind, read_bind. rewrite <- app_assoc.
  destruct (p _) as [[[z left] [bs b']]|e]; [|done]. intros [<- Hr]. simpl in Hr. subst bs.
  apply (Hk left rest b').
Qed.

Lemma encodes_drawn {A B} part parts (p : Read (A * Z)) (k : A * Z → Read B) x y :
  encodes part (drawn p) x → (∀ left, encodes (emit parts) (k (x, left)) y) →
  encodes (emit (part :: parts)) (p ≫= k) y.
Proof.
  intros Hp Hk w Hw. apply emit_cons in Hw as (w1 & w2 & H1 & H2 & ->).
  eapply reads_drawn; [by apply Hp|]. intros left. by apply Hk.
Qed.

Lemma encodes_drawn_last {A B} part (p : Read (A * Z)) (k : A * Z → Read B) x y :
  encodes part (drawn p) x → (∀ left, encodes (emit []) (k (x, left)) y) →
  encodes part (p ≫= k) y.
Proof.
  intros Hp Hk w Hw. rewrite <- (app_nil_r w).
  eapply reads_drawn; [by apply Hp|]. intros left. by apply Hk.
Qed.

Lemma encodes_read_budgeted {A} (put : A → Output) (read : Z → Read (A * Z)) l :
  Forall (λ x, ∀ budget, encodes (put x) (drawn (read budget)) x) l →
  ∀ budget, encodes (emit (map put l)) (read_budgeted (length l) budget read) l.
Proof.
  induction 1 as [|x l Hx _ IH]; intros budget; cbn [map length read_budgeted]; [apply encodes_nil|].
  eapply encodes_drawn; [apply Hx|]. intros left.
  eapply encodes_last; [apply IH|apply encodes_nil].
Qed.

(** A computation whose only errors are exceeded limits. *)
Definition limited {A} (x : result ArtifactError A) : Prop :=
  match x with Ok _ => True | Err e => ae_code e = LimitExceeded end.

Lemma limited_bind {A B} (x : result ArtifactError A) (k : A → result ArtifactError B) :
  limited x → (∀ a, limited (k a)) → limited (let? a := x in k a).
Proof. by destruct x; simpl. Qed.

Lemma limited_limited_add resource a b : limited (limited_add resource a b).
Proof. unfold limited_add. by destruct (u64_checked_add a b). Qed.

Lemma limited_try_total {A} resource (weight : A → result ArtifactError Z) l :
  Forall (λ x, limited (weight x)) l → ∀ total, limited (try_total resource weight total l).
Proof.
  induction 1 as [|x l Hx _ IH]; intros total; cbn [try_total]; [done|].
  apply limited_bind; [done|]. intros n. apply limited_bind; [apply limited_limited_add|apply IH].
Qed.

Lemma limited_type_owned_bytes `{Layout} t : limited (type_owned_bytes t).
Proof.
  induction t as [t Ht|e IH|a b IHa IHb|l IH|fs IH|n e IH|e IH|a b IHa IHb|e IH|e IH|e IH
                 |ps r e IH IHr] using ValueType_ind'; [by destruct t; try apply limited_limited_add|..];
    cbn [type_owned_bytes]; try apply limited_limited_add; apply limited_bind; try (intros; apply limited_limited_add); try done;
    try (by apply limited_try_total);
    repeat (apply limited_bind; [done|intros]); try apply limited_limited_add.
  - apply limited_try_total. eapply Forall_impl; [exact IH|]. intros [name t] Ht.
    apply limited_bind; [done|]. intros. apply limited_bind; intros; apply limited_limited_add.
  - by apply limited_try_total.
Qed.

Lemma budget_charges_lift {A} (x : result ArtifactError A) : limited x → charges (lift x).
Proof. intros Hx r. unfold lift. by destruct x. Qed.

Section Instructions.
Context `{Layout} (limits : DecodeLimits) (strings : list string) (types : list ValueType)
  (type_keys : list (list Z)).
Hypothesis Hstrings : Z.of_nat (length strings) <= u32_max + 1.
Hypothesis Hkeys : Forall2 (λ t key, encode_type strings t = Ok key) types type_keys.
Hypothesis Htypes : forallb type_width types = true.
Hypothesis Hcount : Z.of_nat (length types) <= u32_max + 1.

Lemma encodes_type_ref t :
  type_width t = true → encodes (put_type strings type_keys t) (type_ref types) t.
Proof using Hstrings Hkeys Htypes Hcount.
  intros Ht w Hw. unfold put_type, type_id, type_key in Hw.
  destruct (encode_type strings t) as [key|] eqn:Hkey; [|done]. simpl in Hw.
  destruct (position (bytes_eqb key) type_keys) as [i|] eqn:Hp; [|done]. simpl in Hw.
  apply position_Some in Hp as (key' & Hi & <-%bool_decide_eq_true_1).
  destruct (Forall2_lookup_r _ _ _ _ _ Hkeys Hi) as (t' & Ht' & Hkey').
  assert (t' = t) as -> by (eapply type_key_inj; eauto using forallb_elem, list_elem_of_lookup_2).
  pose proof (lookup_lt_Some _ _ _ Ht'). unfold type_ref.
  eapply encodes_last; [apply (encodes_u32 i)| |exact Hw].
  { unfold is_u32. apply Z.leb_le. lia. }
cbn beta. rewrite Ht'. apply encodes_charge; [apply budget_charges_lift, limited_type_owned_bytes|].
  intros n. format.
Qed.

Lemma encodes_operand_registers l budget :
  forallb is_u16 l = true → encodes (encode_registers l) (drawn (operand_registers limits budget)) l.
Proof using Type.
  intros Hl. unfold encode_registers, put_table, operand_registers, drawn. format.
  eapply encodes_cons; [|format]. apply encodes_read_n. eapply Forall_width; [exact Hl|apply encodes_u16].
Qed.

Lemma encodes_operands l :
  forallb is_u16 l = true → encodes (encode_registers l) (operands limits) l.
Proof using Type.
  intros Hl. eapply encodes_drawn_last; [by apply encodes_operand_registers|].
  intros left. apply encodes_nil.
Qed.

Lemma encodes_numeric_op o : encodes (put_u8 (numeric_op o)) read_numeric_op o.
Proof using Type. unfold read_numeric_op. format. destruct o; apply encodes_nil. Qed.
Lemma encodes_compare_op o : encodes (put_u8 (compare_op o)) read_compare_op o.
Proof using Type. unfold read_compare_op. format. destruct o; apply encodes_nil. Qed.
Lemma encodes_bool_op o : encodes (put_u8 (bool_op o)) read_bool_op o.
Proof using Type. unfold read_bool_op. format. destruct o; apply encodes_nil. Qed.
Lemma encodes_conversion o : encodes (put_u8 (conversion_tag o)) read_conversion o.
Proof using Type. unfold read_conversion. format. destruct o; apply encodes_nil. Qed.
Lemma encodes_string_operation o : encodes (put_u8 (string_operation o)) read_string_operation o.
Proof using Type. unfold read_string_operation. format. destruct o; apply encodes_nil. Qed.
Lemma encodes_standard_operation o :
  encodes (put_u8 (standard_operation o)) read_standard_operation o.
Proof using Type. unfold read_standard_operation. format. destruct o; apply encodes_nil. Qed.
Lemma encodes_capability_operation o :
  encodes (put_u8 (capability_operation o)) read_capability_operation o.
Proof using Type. unfold read_capability_operation. format. destruct o; apply encodes_nil. Qed.
Lemma encodes_safe_collection_operation o :
  encodes (put_u8 (safe_collection_operation o)) read_safe_collection_operation o.
Proof using Type. unfold read_safe_collection_operation. format. destruct o; apply encodes_nil. Qed.
Lemma encodes_checked_int_operation o :
  encodes (put_u8 (checked_int_operation o)) read_checked_int_operation o.
Proof using Type. unfold read_checked_int_operation. format. destruct o; apply encodes_nil. Qed.
Lemma encodes_collection_operation o :
  encodes (put_u8 (collection_operation o)) read_collection_operation o.
Proof using Type. unfold read_collection_operation. format. destruct o; apply encodes_nil. Qed.
Lemma encodes_combinator_operation o :
  encodes (put_u8 (combinator_operation o)) read_combinator_operation o.
Proof using Type. unfold read_combinator_operation. format. destruct o; apply encodes_nil. Qed.
Lemma encodes_effect_operation o : encodes (put_u8 (effect_operation o)) read_effect_operation o.
Proof using Type. unfold read_effect_operation. format. destruct o; apply encodes_nil. Qed.
Lemma encodes_inclusive b : encodes (put_bool b) read_inclusive b.
Proof using Type. unfold read_inclusive, put_bool. format. destruct b; apply encodes_nil. Qed.
Lemma encodes_optional_register r :
  match r with Some r => is_u16 r | None => true end = true →
  encodes (put_optional_register r) read_optional_register r.
Proof using Type. intros Hr. destruct r; unfold put_optional_register, read_optional_register; format. Qed.
Local Hint Resolve encodes_type_ref encodes_operands encodes_numeric_op encodes_compare_op
  encodes_bool_op encodes_conversion encodes_string_operation encodes_standard_operation
  encodes_capability_operation encodes_safe_collection_operation encodes_checked_int_operation
  encodes_collection_operation encodes_combinator_operation encodes_effect_operation
  encodes_inclusive encodes_optional_register : format.

Lemma encodes_list_literal_items l resource :
  forallb (λ item, match item with LElement r | LSpread r => is_u16 r end) l = true →
  encodes (encode_list_literal_items l)
    (operand_table limits resource 1 RListLiteralItem read_list_literal_item) l.
Proof using Type.
  intros Hl. apply encodes_operand_table. eapply Forall_width; [exact Hl|].
  intros [r|r] Hr; unfold encode_list_literal_item, read_list_literal_item; format.
Qed.

Lemma encodes_pairs l resource :
  forallb (λ e, is_u16 e.1 && is_u16 e.2) l = true →
  encodes (encode_pairs l)
    (operand_table limits resource 2 RRegisterPair (k ← u16; v ← u16; mret (k, v))) l.
Proof using Type.
  intros Hl. apply encodes_operand_table. eapply Forall_width; [exact Hl|].
  intros [k v] [Hk Hv]%andb_true_iff. cbn [fst snd] in *. format.
Qed.

Lemma encodes_field_operands l resource :
  forallb (λ f, is_u32 f.1 && is_u16 f.2) l = true →
  encodes (encode_field_operands l)
    (operand_table limits resource 2 RFieldOperand (f ← u32; r ← u16; mret (f, r))) l.
Proof using Type.
  intros Hl. apply encodes_operand_table. eapply Forall_width; [exact Hl|].
  intros [k v] [Hk Hv]%andb_true_iff. cbn [fst snd] in *. format.
Qed.
Local Hint Resolve encodes_list_literal_items encodes_pairs encodes_field_operands : format.

Definition map_item_width (item : MapLiteralItem) : bool :=
  match item with MEntry k v => is_u16 k && is_u16 v | MSpread r => is_u16 r end.

Lemma encodes_map_literal_item item budget :
  map_item_width item = true →
  encodes (encode_map_literal_item item) (drawn (read_map_literal_item budget)) item.
Proof using Type.
  intros Hw. unfold drawn, read_map_literal_item.
  destruct item as [k v|r]; cbn [map_item_width] in Hw; try apply andb_true_iff in Hw as [Hk Hv];
    cbn [encode_map_literal_item]; format.
Qed.

Definition arm_width (arm : EnumSwitchArm) : bool :=
  is_u32 (arm_variant arm) && is_u32 (arm_target arm) && forallb is_u16 (arm_bindings arm).

Lemma encodes_arm arm budget :
  arm_width arm = true → encodes (encode_arm arm) (drawn (read_arm limits budget)) arm.
Proof using Type.
  destruct arm as [variant target bindings]. unfold arm_width, encode_arm, drawn, read_arm.
  cbn [arm_variant arm_target arm_bindings]. intros [[Hv Ht]%andb_true_iff Hb]%andb_true_iff. format.
  eapply encodes_drawn; [by apply encodes_operand_registers|]. intros left. apply encodes_nil.
Qed.

Lemma encodes_budgeted {A B} (put : A → Output) (read : Z → Read (A * Z)) (f : A → bool) l budget
    (k : list A → Read B) y :
  (∀ x budget, f x = true → encodes (put x) (drawn (read budget)) x) → forallb f l = true →
  encodes (emit []) (k l) y →
  encodes (emit [emit (map put l)]) (read_budgeted (length l) budget read ≫= k) y.
Proof using Type.
  intros Hp Hl Hk. eapply encodes_cons; [|exact Hk]. apply encodes_read_budgeted.
  eapply Forall_width; [exact Hl|]. auto.
Qed.

Lemma encodes_instruction i :
  instruction_width i = true →
  encodes (encode_instruction strings type_keys i) (instruction limits types) i.
Proof using Hstrings Hkeys Htypes Hcount.
  intros Hw. unfold instruction.
  destruct i; cbn [encode_instruction instruction_width] in *;
    repeat match goal with
    | H : _ && _ = true |- _ => apply andb_true_iff in H as [? ?]
    end; try (by format).
  - format. apply encodes_single. unfold encode_map_literal_items, put_table. format.
    apply (encodes_budgeted _ _ map_item_width); [apply encodes_map_literal_item|done|apply encodes_nil].
  - format. apply encodes_single. unfold put_table. format.
    apply (encodes_budgeted _ _ arm_width); [apply encodes_arm|done|apply encodes_nil].
Qed.
End Instructions.
