(* ===== verification/ArtifactSections.v ===== *)
(** * The sections of an artifact

    The encoders and readers of [crates/allen-bytecode/src/artifact.rs] for the
    sections: strings, constants, types, functions, effects, entries, schemas,
    imports, the manifest, templates, validators and debug information; the
    collection of the string and type tables; and the framing of sections. *)

From S2P Require Import Prelude Text Bytecode ArtifactBytes ArtifactModel ArtifactCodec.
Open Scope string_scope.
Open Scope Z_scope.

(** ** The string and type tables *)

(** [BTreeSet::insert] on the strings in order. *)
Fixpoint set_insert (value : string) (strings : list string) : list string :=
  match strings with
  | [] => [value]
  | s :: rest =>
    match str_compare value s with
    | Lt => value :: strings
    | Eq => strings
    | Gt => s :: set_insert value rest
    end
  end.
Definition set_extend (values strings : list string) : list string :=
  fold_left (λ set value, set_insert value set) values strings.

Fixpoint type_strings (t : ValueType) : list string :=
  match t with
  | TList value | TOption value | TFuture value | TTask value | TSequence value =>
    type_strings value
  | TNewtype name underlying => name :: type_strings underlying
  | TMap a b | TResult a b => (type_strings a ++ type_strings b)%list
  | TTuple elements => flat_map type_strings elements
  | TRecord fields => flat_map (λ field : RecordField, field.1 :: type_strings field.2) fields
  | TFunction parameters return_type _ =>
    (flat_map type_strings parameters ++ type_strings return_type)%list
  | _ => []
  end.
Definition payload_strings (payload : EnumPayloadType) : list string :=
  match payload with
  | PTUnit => []
  | PTTuple elements => flat_map type_strings elements
  | PTRecord fields => flat_map (λ field : RecordField, field.1 :: type_strings field.2) fields
  end.
Fixpoint validator_expr_strings (expression : ValidatorExpr) : list string :=
  match expression with
  | VField _ value_type => type_strings value_type
  | VNot value => validator_expr_strings value
  | VBoolBinary _ l r | VCompare _ l r => (validator_expr_strings l ++ validator_expr_strings r)%list
  | VBool_ _ => []
  end.

Definition instruction_target (i : Instruction) : list ValueType :=
  match i with Narrow _ _ target | Decode _ _ target => [target] | _ => [] end.

(** The strings in the order in which they are inserted. *)
Definition function_strings (function : Function) : list string :=
  (fn_name function :: fn_parameter_names function
   ++ flat_map type_strings (fn_registers function ++ [fn_return_type function])
   ++ flat_map type_strings (flat_map instruction_target (fn_code function)))%list.
Definition entry_strings (entry : EntryContract) : list string :=
  (en_name entry :: omap rp_identity
     (en_input_record_provenance entry ++ en_output_record_provenance entry))%list.
Definition import_strings (import : ImportContract) : list string :=
  [im_importer import; im_alias import; im_package import; im_version import; im_module import].
Definition tool_strings (tool : ToolContract) : list string :=
  [tc_name tool; tc_version tool; tc_version_requirement tool; tc_effect tool].
Definition manifest_strings (manifest : ManifestContract) : list string :=
  ([mc_package manifest; mc_version manifest; mc_language_requirement manifest]
   ++ mc_required_capabilities manifest ++ mc_optional_capabilities manifest
   ++ map fst (mc_limits manifest) ++ mc_https_origins manifest ++ mc_exec_commands manifest
   ++ mc_exec_environment manifest ++ flat_map tool_strings (mc_required_tools manifest))%list.
Definition invariant_strings (definition : RecordInvariantDefinition) : list string :=
  (ri_identity definition
   :: flat_map (λ field : RecordField, field.1 :: type_strings field.2) (ri_fields definition)
   ++ validator_expr_strings (ri_predicate definition))%list.
Definition artifact_strings (artifact : Artifact) : list string :=
  let m := module_ artifact in
  (omap (λ c, match c with CString s => Some s | _ => None end) (constants m)
   ++ flat_map (λ e, et_name e :: flat_map (λ v, ev_name v :: payload_strings (ev_payload v))
                                    (et_variants e)) (enum_types m)
   ++ concat (effect_sets m)
   ++ flat_map function_strings (functions m)
   ++ match debug artifact with Some d => dbg_sources d | None => [] end
   ++ flat_map (λ s, type_strings (ss_value_type s)) (schemas artifact)
   ++ flat_map entry_strings (entries artifact)
   ++ flat_map import_strings (imports artifact)
   ++ match manifest artifact with Some m => manifest_strings m | None => [] end
   ++ flat_map (λ t, tr_identity t :: map th_name (tr_holes t)) (templates artifact)
   ++ flat_map invariant_strings (record_invariants artifact))%list.
Definition collect_strings (artifact : Artifact) : list string :=
  set_extend (artifact_strings artifact) [].

Definition payload_types (payload : EnumPayloadType) : list ValueType :=
  match payload with
  | PTUnit => []
  | PTTuple elements => elements
  | PTRecord fields => map snd fields
  end.
Fixpoint validator_expr_types (expression : ValidatorExpr) : list ValueType :=
  match expression with
  | VField _ value_type => [value_type]
  | VNot value => validator_expr_types value
  | VBoolBinary _ l r | VCompare _ l r => (validator_expr_types l ++ validator_expr_types r)%list
  | VBool_ _ => []
  end.
Definition enum_type_types (e : EnumType) : list ValueType :=
  flat_map (λ v, payload_types (ev_payload v)) (et_variants e).
Definition function_types (function : Function) : list ValueType :=
  (fn_registers function ++ [fn_return_type function]
   ++ flat_map instruction_target (fn_code function))%list.
Definition collect_types (artifact : Artifact) : list ValueType :=
  let m := module_ artifact in
  (flat_map enum_type_types (enum_types m) ++ flat_map function_types (functions m)
   ++ map ss_value_type (schemas artifact)
   ++ flat_map (λ t, map th_value_type (tr_holes t)) (templates artifact)
   ++ flat_map (λ d, map snd (ri_fields d) ++ validator_expr_types (ri_predicate d))%list
        (record_invariants artifact))%list.

(** Sequences count as one node, as enums do. *)
Fixpoint type_node_count (t : ValueType) : result ArtifactError Z :=
  let resource := "expanded type nodes" in
  let? children :=
    match t with
    | TList value | TOption value | TFuture value | TTask value | TNewtype _ value =>
      type_node_count value
    | TMap a b | TResult a b =>
      let? x := type_node_count a in let? y := type_node_count b in limited_add resource x y
    | TTuple elements => try_total resource type_node_count 0 elements
    | TRecord fields => try_total resource (λ field : RecordField, type_node_count field.2) 0 fields
    | TFunction parameters return_type _ =>
      let? first := type_node_count return_type in
      try_total resource type_node_count first parameters
    | _ => Ok 0
    end in
  limited_add resource children 1.
Definition expanded_node_count (types : list ValueType) : result ArtifactError Z :=
  try_total "expanded type nodes" type_node_count 0 types.

Definition Keyed : Type := list Z * ValueType.
(** [sort_by] on the keys, which is stable, and [dedup_by]. *)
Fixpoint key_insert (x : Keyed) (l : list Keyed) : list Keyed :=
  match l with
  | [] => [x]
  | y :: rest =>
    match bytes_compare x.1 y.1 with
    | Gt => y :: key_insert x rest
    | _ => x :: l
    end
  end.
Fixpoint sort_by_key (l : list Keyed) : list Keyed :=
  match l with [] => [] | x :: rest => key_insert x (sort_by_key rest) end.
Fixpoint dedup_by_key (last : option (list Z)) (l : list Keyed) : list Keyed :=
  match l with
  | [] => []
  | x :: rest =>
    if bool_decide (last = Some x.1) then dedup_by_key last rest
    else x :: dedup_by_key (Some x.1) rest
  end.

(** ** Writing *)

Definition encode_strings (strings : list string) : Output :=
  put_table "string table" (λ s, put_bytes (bytes s) "string") strings.

Definition encode_validator_segment (segment : EntryValidatorPathSegment) : Output :=
  match segment with
  | SegField index => emit [put_u8 0; put_u32 index]
  | SegListElement => put_u8 1
  | SegMapKey => put_u8 2
  | SegMapValue => put_u8 3
  | SegTupleElement index => emit [put_u8 4; put_u32 index]
  | SegOptionSome => put_u8 5
  | SegResultOk => put_u8 6
  | SegResultError => put_u8 7
  | SegEnumPayload variant element => emit [put_u8 8; put_u32 variant; put_u32 element]
  | SegNewtypeValue => put_u8 9
  end.
Definition encode_validator_path (path : list EntryValidatorPathSegment) : Output :=
  put_table "entry validator path" encode_validator_segment path.
Definition encode_validator_sites (sites : list EntryValidatorSite) : Output :=
  put_table "entry validator sites"
    (λ site, emit [put_u32 (site_invariant site); encode_validator_path (site_path site)]) sites.

Definition access_tag (access : ExternalFsAccess) : Z :=
  match access with AccessRead => 0 | AccessWrite => 1 | AccessReadWrite => 2 end.
Definition hole_tag (t : ValueType) : result ArtifactError Z :=
  match t with
  | TBool => Ok 0
  | TInt => Ok 1
  | TFloat => Ok 2
  | TString => Ok 3
  | _ => Err (noncanonical "template hole type is not a supported scalar")
  end.

Section Encode.
Variable strings : list string.

Definition encode_constant (constant : Constant) : Output :=
  match constant with
  | CInt value => emit [put_u8 0; put_i64 value]
  | CBool value => emit [put_u8 1; put_bool value]
  | CFloat bits =>
    if negb (bits =? canonical_float_bits bits)
    then Err (noncanonical "float constant is not the canonical NaN")
    else emit [put_u8 2; put_u64 bits]
  | CString value => emit [put_u8 3; put_string strings value]
  | CBytes value => emit [put_u8 4; put_bytes value "byte constant"]
  | CUnit => put_u8 5
  | CExternalFsAccess access => emit [put_u8 6; put_u8 (access_tag access)]
  end.
Definition encode_constants (constants : list Constant) : Output :=
  put_table "constant table" encode_constant constants.

Definition encode_effects (effect_sets : list (list string)) : Output :=
  put_table "effect set table" (put_table "effect table" (put_string strings)) effect_sets.

Definition encode_record_provenance (records : list EntryRecordProvenance) : Output :=
  put_table "entry record provenance"
    (λ record, emit [encode_validator_path (rp_path record);
                     match rp_identity record with
                     | Some identity => emit [put_u8 1; put_string strings identity]
                     | None => put_u8 0
                     end]) records.
Definition encode_entry (entry : EntryContract) : Output :=
  emit [put_string strings (en_name entry); put_u32 (en_function entry);
        put_u32 (en_input_schema entry); put_u32 (en_output_schema entry);
        encode_validator_sites (en_input_validators entry);
        encode_validator_sites (en_output_validators entry);
        encode_record_provenance (en_input_record_provenance entry);
        encode_record_provenance (en_output_record_provenance entry);
        put_slice (en_input_contract_digest entry); put_slice (en_output_contract_digest entry)].
Definition encode_entries (entries : list EntryContract) : Output :=
  put_table "entry contracts" encode_entry entries.

Definition encode_import (v : ImportContract) : Output :=
  emit [put_string strings (im_importer v); put_string strings (im_alias v);
        put_string strings (im_package v); put_string strings (im_version v);
        put_string strings (im_module v); put_slice (im_content_digest v)].
Definition encode_imports (values : list ImportContract) : Output :=
  put_table "imports" encode_import values.

Definition encode_tool (tool : ToolContract) : Output :=
  emit [put_string strings (tc_name tool); put_string strings (tc_version tool);
        put_string strings (tc_version_requirement tool); put_string strings (tc_effect tool);
        put_u32 (tc_input_schema tool); put_u32 (tc_output_schema tool);
        put_u32 (tc_error_schema tool); put_slice (tc_input_digest tool);
        put_slice (tc_output_digest tool); put_slice (tc_error_digest tool)].
Definition encode_manifest (value : ManifestContract) : Output :=
  emit [put_u32 1; put_string strings (mc_package value); put_string strings (mc_version value);
        put_string strings (mc_language_requirement value);
        put_table "capabilities" (put_string strings) (mc_required_capabilities value);
        put_table "capabilities" (put_string strings) (mc_optional_capabilities value);
        put_table "limits" (λ l : string * Z, emit [put_string strings l.1; put_u64 l.2])
          (mc_limits value);
        put_table "HTTPS origins" (put_string strings) (mc_https_origins value);
        put_table "exec commands" (put_string strings) (mc_exec_commands value);
        put_table "exec environment" (put_string strings) (mc_exec_environment value);
        put_table "required tools" encode_tool (mc_required_tools value);
        put_slice (mc_tool_contract_digest value)].

Definition encode_hole (hole : TemplateHole) : Output :=
  emit [put_string strings (th_name hole);
        let? tag := hole_tag (th_value_type hole) in put_u8 tag].
Definition encode_marker (marker : TemplateMarker) : Output :=
  emit [put_z32 (tm_start marker); put_z32 (tm_end marker); put_u32 (tm_hole marker)].
Definition encode_template (template : TemplateResource) : Output :=
  emit [put_string strings (tr_identity template);
        put_bytes (bytes (tr_content template)) "template content";
        put_slice (tr_digest template);
        put_table "template hole table" encode_hole (tr_holes template);
        put_table "template marker table" encode_marker (tr_markers template)].
Definition encode_templates (templates : list TemplateResource) : Output :=
  put_table "template table" encode_template templates.

Definition encode_location (location : DebugLocation) : Output :=
  emit [put_u32 (dl_function location); put_u32 (dl_instruction location);
        put_u32 (dl_source location); put_z32 (dl_start location); put_z32 (dl_end location)].
Definition encode_debug (debug : DebugInfo) : Output :=
  emit [put_table "debug source table" (put_string strings) (dbg_sources debug);
        put_table "debug location table" encode_location (dbg_locations debug)].

Variable type_keys : list (list Z).

Definition put_field (field : RecordField) : Output :=
  emit [put_string strings field.1; put_type strings type_keys field.2].
Definition encode_payload (payload : EnumPayloadType) : Output :=
  match payload with
  | PTUnit => put_u8 0
  | PTTuple elements =>
    emit [put_u8 1;
          put_table "enum payload type references" (put_type strings type_keys) elements]
  | PTRecord fields => emit [put_u8 2; put_table "enum payload field table" put_field fields]
  end.
Definition encode_enum_type (e : EnumType) : Output :=
  emit [put_string strings (et_name e);
        put_table "enum variant table"
          (λ v, emit [put_string strings (ev_name v); encode_payload (ev_payload v)])
          (et_variants e)].
Definition encode_type_section (types : list ValueType) (enum_types : list EnumType) : Output :=
  emit [put_table "type table" (encode_type strings) types;
        put_table "enum type table" encode_enum_type enum_types].

Definition put_digest (digest : option (list Z)) : Output :=
  match digest with
  | None => put_u8 0
  | Some digest => emit [put_u8 1; put_slice digest]
  end.
Definition encode_function (function : Function) : Output :=
  emit [put_string strings (fn_name function); encode_registers (fn_parameters function);
        put_table "function parameter names" (put_string strings) (fn_parameter_names function);
        put_table "function parameter default digests" put_digest
          (fn_parameter_default_digests function);
        encode_registers (fn_captures function);
        put_table "register type references" (put_type strings type_keys) (fn_registers function);
        put_type strings type_keys (fn_return_type function); put_u32 (fn_effects function);
        put_table "instruction table" (encode_instruction strings type_keys) (fn_code function)].
Definition encode_functions (functions : list Function) (async_functions : list FunctionId)
    : Output :=
  emit [put_count (length functions) "function table";
        put_table "async function table" put_u32 async_functions;
        emit (map encode_function functions)].

Fixpoint encode_validator_expr (expression : ValidatorExpr) : Output :=
  match expression with
  | VBool_ value => emit [put_u8 0; put_bool value]
  | VField field value_type =>
    emit [put_u8 1; put_u32 field; put_type strings type_keys value_type]
  | VNot value => emit [put_u8 2; encode_validator_expr value]
  | VBoolBinary operation l r =>
    emit [put_u8 3; put_u8 (bool_op operation); encode_validator_expr l; encode_validator_expr r]
  | VCompare operation l r =>
    emit [put_u8 4; put_u8 (compare_op operation); encode_validator_expr l; encode_validator_expr r]
  end.
Definition encode_validator (definition : RecordInvariantDefinition) : Output :=
  emit [put_string strings (ri_identity definition);
        put_table "invariant fields" put_field (ri_fields definition);
        encode_validator_expr (ri_predicate definition)].
Definition encode_validators (definitions : list RecordInvariantDefinition) : Output :=
  put_table "record invariants" encode_validator definitions.

Definition encode_schemas (values : list StrictSchema) : Output :=
  put_table "schemas" (λ v, put_type strings type_keys (ss_value_type v)) values.
End Encode.

(** ** Reading *)

(** A section is read by a reader of its own, which draws on the same budget and
    must reach the end of the payload. *)
Definition in_section {A} (payload : list Z) (read : Read A) : Read A := λ r,
  match (x ← read; _ ← finish; mret x) {| rd_bytes := payload; rd_budget := rd_budget r |} with
  | Ok (x, r') => Ok (x, {| rd_bytes := rd_bytes r; rd_budget := rd_budget r' |})
  | Err e => Err e
  end.

Definition read_segment : Read EntryValidatorPathSegment :=
  tag ← u8;
  match tag with
  | 0 => index ← u32; mret (SegField index)
  | 1 => mret SegListElement
  | 2 => mret SegMapKey
  | 3 => mret SegMapValue
  | 4 => index ← u32; mret (SegTupleElement index)
  | 5 => mret SegOptionSome
  | 6 => mret SegResultOk
  | 7 => mret SegResultError
  | 8 => variant ← u32; element ← u32; mret (SegEnumPayload variant element)
  | 9 => mret SegNewtypeValue
  | _ => fail (invalid_scalar "entry validator path segment")
  end.
Definition decode_validator_path : Read (list EntryValidatorPathSegment) :=
  n ← count (Z.of_nat MAX_VALUE_NESTING) "entry validator path";
  read_n n read_segment.

(** [windows(2).all(|pair| pair[0] < pair[1])] on keys and on identifiers. *)
Definition bytes_ltb (s t : list Z) : bool :=
  match bytes_compare s t with Lt => true | _ => false end.
Definition keys_sorted (keys : list (list Z)) : bool :=
  negb (windows2_any (λ a b, negb (bytes_ltb a b)) keys).
Definition ids_sorted (ids : list nat) : bool :=
  negb (windows2_any (λ a b, negb (a <? b)%nat) ids).

Section Decode.
Context `{Layout} (limits : DecodeLimits).

Definition read_string (previous : option (list Z)) : Read (string * list Z) :=
  byte_len ← count (string_bytes limits) "string bytes";
  bs ← take_bytes (Z.of_nat byte_len);
  match previous with
  | Some value =>
    if negb (bytes_ltb value bs)
    then fail (noncanonical "strings must be unique and sorted by UTF-8 bytes") else mret tt
  | None => mret tt
  end ≫= λ _,
  if negb (utf8_valid bs) then fail (ArtifactError_new InvalidUtf8 "string is not valid UTF-8")
  else
    _ ← charge_model_bytes (Z.of_nat (length bs));
    mret (string_of_bytes bs, bs).
Fixpoint read_strings (n : nat) (previous : option (list Z)) : Read (list string) :=
  match n with
  | O => mret []
  | S n => x ← read_string previous; l ← read_strings n (Some x.2); mret (x.1 :: l)
  end.
Definition decode_strings (payload : list Z) : Read (list string) :=
  in_section payload (
    n ← count (table_entries limits) "table entries";
    _ ← charge_items RString n;
    read_strings n None).

Definition decode_validator_sites : Read (list EntryValidatorSite) :=
  table (table_entries limits) "entry validator sites" REntryValidatorSite (
    invariant ← u32;
    path ← decode_validator_path;
    mret {| site_path := path; site_invariant := invariant |}).

Variable strings : list string.

Definition read_access : Read ExternalFsAccess :=
  tag ← u8;
  match tag with
  | 0 => mret AccessRead
  | 1 => mret AccessWrite
  | 2 => mret AccessReadWrite
  | _ => fail (invalid_scalar "external filesystem access")
  end.
Definition read_constant : Read Constant :=
  tag ← u8;
  match tag with
  | 0 => value ← i64; mret (CInt value)
  | 1 => value ← bool_; mret (CBool value)
  | 2 =>
    bits ← u64;
    if negb (bits =? canonical_float_bits bits)
    then fail (noncanonical "float constant is not the canonical NaN") else mret (CFloat bits)
  | 3 => value ← string_ref strings; mret (CString value)
  | 4 =>
    byte_len ← count (string_bytes limits) "byte constant bytes";
    _ ← charge_model_bytes (Z.of_nat byte_len);
    bs ← take_bytes (Z.of_nat byte_len);
    mret (CBytes bs)
  | 5 => mret CUnit
  | 6 => access ← read_access; mret (CExternalFsAccess access)
  | _ => fail (invalid_scalar "constant tag")
  end.
Definition decode_constants (payload : list Z) : Read (list Constant) :=
  in_section payload (table (table_entries limits) "table entries" RConstant read_constant).

Definition string_table (resource : string) : Read (list string) :=
  table (table_entries limits) resource RString (string_ref strings).

Definition decode_effects (payload : list Z) : Read (list (list string)) :=
  in_section payload
    (table (table_entries limits) "table entries" RVecString (string_table "table entries")).

Definition read_provenance : Read EntryRecordProvenance :=
  path ← decode_validator_path;
  tag ← u8;
  identity ← match tag with
             | 0 => mret None
             | 1 => s ← string_ref strings; mret (Some s)
             | _ => fail (invalid_scalar "entry record provenance identity")
             end;
  mret {| rp_path := path; rp_identity := identity |}.
Definition decode_record_provenance : Read (list EntryRecordProvenance) :=
  table (table_entries limits) "entry record provenance" REntryRecordProvenance read_provenance.
Definition read_entry : Read EntryContract :=
  name ← string_ref strings; function ← u32; input_schema ← u32; output_schema ← u32;
  input_validators ← decode_validator_sites;
  output_validators ← decode_validator_sites;
  input_record_provenance ← decode_record_provenance;
  output_record_provenance ← decode_record_provenance;
  input_contract_digest ← digest;
  output_contract_digest ← digest;
  mret {| en_name := name; en_function := function; en_input_schema := input_schema;
          en_output_schema := output_schema; en_input_validators := input_validators;
          en_output_validators := output_validators;
          en_input_record_provenance := input_record_provenance;
          en_output_record_provenance := output_record_provenance;
          en_input_contract_digest := input_contract_digest;
          en_output_contract_digest := output_contract_digest |}.
(** The entry function of the module is not stored: it is read as zero. *)
Definition decode_entries (payload : list Z) : Read (nat * list EntryContract) :=
  entries ← in_section payload
              (table (table_entries limits) "entry contracts" REntryContract read_entry);
  mret (0%nat, entries).

Definition read_import : Read ImportContract :=
  importer ← string_ref strings; alias ← string_ref strings; package ← string_ref strings;
  version ← string_ref strings; module ← string_ref strings;
  content_digest ← digest;
  mret {| im_importer := importer; im_alias := alias; im_package := package;
          im_version := version; im_module := module; im_content_digest := content_digest |}.
Definition decode_imports (payload : list Z) : Read (list ImportContract) :=
  in_section payload (table (table_entries limits) "imports" RImportContract read_import).

Definition read_tool : Read ToolContract :=
  name ← string_ref strings; version ← string_ref strings;
  version_requirement ← string_ref strings; effect ← string_ref strings;
  input_schema ← u32; output_schema ← u32; error_schema ← u32;
  input_digest ← digest; output_digest ← digest; error_digest ← digest;
  mret {| tc_name := name; tc_version := version; tc_version_requirement := version_requirement;
          tc_effect := effect; tc_input_schema := input_schema; tc_output_schema := output_schema;
          tc_error_schema := error_schema; tc_input_digest := input_digest;
          tc_output_digest := output_digest; tc_error_digest := error_digest |}.
Definition decode_manifest (payload : list Z) : Read ManifestContract :=
  in_section payload (
    n ← u32;
    if negb (n =? 1)%nat
    then fail (noncanonical "artifact must contain exactly one manifest contract")
    else
      _ ← charge_items RManifestContract 1;
      package ← string_ref strings; ver ← string_ref strings;
      language_requirement ← string_ref strings;
      required_capabilities ← string_table "capabilities";
      optional_capabilities ← string_table "capabilities";
      limitsv ← table (table_entries limits) "limits" RStringU64
                  (name ← string_ref strings; value ← u64; mret (name, value));
      https_origins ← string_table "HTTPS origins";
      exec_commands ← string_table "exec commands";
      exec_environment ← string_table "exec environment";
      required_tools ← table (table_entries limits) "required tools" RToolContract read_tool;
      tool_contract_digest ← digest;
      mret {| mc_package := package; mc_version := ver;
              mc_language_requirement := language_requirement;
              mc_required_capabilities := required_capabilities;
              mc_optional_capabilities := optional_capabilities; mc_limits := limitsv;
              mc_https_origins := https_origins; mc_exec_commands := exec_commands;
              mc_exec_environment := exec_environment; mc_required_tools := required_tools;
              mc_tool_contract_digest := tool_contract_digest |}).

Definition read_hole_type : Read ValueType :=
  tag ← u8;
  match tag with
  | 0 => mret TBool
  | 1 => mret TInt
  | 2 => mret TFloat
  | 3 => mret TString
  | _ => fail (invalid_scalar "template hole type")
  end.
Definition read_hole : Read TemplateHole :=
  name ← string_ref strings; value_type ← read_hole_type;
  mret {| th_name := name; th_value_type := value_type |}.
Definition read_marker : Read TemplateMarker :=
  start ← u32_z; end_ ← u32_z; hole ← u32;
  mret {| tm_start := start; tm_end := end_; tm_hole := hole |}.
Definition read_template : Read TemplateResource :=
  identity ← string_ref strings;
  content_len ← count (string_bytes limits) "template content";
  _ ← charge_model_bytes (Z.of_nat content_len);
  content ← take_bytes (Z.of_nat content_len);
  if negb (utf8_valid content)
  then fail (ArtifactError_new InvalidUtf8 "template content is not valid UTF-8")
  else
    dig ← digest;
    holes ← table (table_entries limits) "template hole table" RTemplateHole read_hole;
    markers ← table (table_entries limits) "template marker table" RTemplateMarker read_marker;
    mret {| tr_identity := identity; tr_content := string_of_bytes content; tr_digest := dig;
            tr_holes := holes; tr_markers := markers |}.
Definition decode_templates (payload : list Z) : Read (list TemplateResource) :=
  in_section payload
    (table (table_entries limits) "template table" RTemplateResource read_template).

Definition read_location : Read DebugLocation :=
  function ← u32; instruction ← u32; source ← u32; start ← u32_z; end_ ← u32_z;
  mret {| dl_function := function; dl_instruction := instruction; dl_source := source;
          dl_start := start; dl_end := end_ |}.
Definition decode_debug (payload : list Z) : Read DebugInfo :=
  in_section payload (
    sources ← table (debug_records limits) "debug records" RString (string_ref strings);
    locations ← table (debug_records limits) "debug records" RDebugLocation read_location;
    mret {| dbg_sources := sources; dbg_locations := locations |}).

Section Types.
Variable types : list ValueType.

Definition read_field : Read RecordField :=
  name ← string_ref strings; t ← type_ref types; mret (name, t).
Definition decode_payload : Read EnumPayloadType :=
  tag ← u8;
  match tag with
  | 0 => mret PTUnit
  | 1 =>
    elements ← table (table_entries limits) "table entries" RValueType (type_ref types);
    mret (PTTuple elements)
  | 2 =>
    fields ← table (table_entries limits) "table entries" RRecordField read_field;
    mret (PTRecord fields)
  | _ => fail (invalid_scalar "enum payload tag")
  end.
Definition read_variant : Read EnumVariant :=
  name ← string_ref strings; payload ← decode_payload;
  mret {| ev_name := name; ev_payload := payload |}.
Definition read_enum_type : Read EnumType :=
  name ← string_ref strings;
  variants ← table (table_entries limits) "table entries" REnumVariant read_variant;
  mret {| et_name := name; et_variants := variants |}.

Definition read_digest : Read (option (list Z)) :=
  tag ← u8;
  match tag with
  | 0 => mret None
  | 1 => _ ← charge_model_bytes 32; d ← digest; mret (Some d)
  | _ => fail (invalid_scalar "function parameter default digest")
  end.
Definition read_function : Read Function :=
  name ← string_ref strings;
  parameters ← read_registers limits (registers_per_function limits);
  parameter_name_count ← count (registers_per_function limits) "function parameter names";
  parameter_names ← read_n parameter_name_count (string_ref strings);
  default_digest_count ←
    count (registers_per_function limits) "function parameter default digests";
  if negb (default_digest_count =? length parameters)%nat
  then fail (noncanonical "function parameter default digests must match parameter arity")
  else
    parameter_default_digests ← read_n default_digest_count read_digest;
    captures ← read_registers limits (registers_per_function limits);
    registers ← table (registers_per_function limits) "registers" RValueType (type_ref types);
    return_type ← type_ref types;
    effects ← u32;
    code ← table (instructions_per_function limits) "instructions" RInstruction
             (instruction limits types);
    mret {| fn_name := name; fn_parameters := parameters; fn_parameter_names := parameter_names;
            fn_parameter_default_digests := parameter_default_digests; fn_captures := captures;
            fn_registers := registers; fn_return_type := return_type; fn_effects := effects;
            fn_code := code |}.
Definition async_in_range (async_functions : list FunctionId) (n : nat) : bool :=
  ids_sorted async_functions
  && match last async_functions with Some id => (id <? n)%nat | None => true end.
Definition decode_functions (payload : list Z) : Read (list Function * list FunctionId) :=
  in_section payload (
    n ← count (functions_ limits) "functions";
    _ ← charge_items RFunction n;
    async_functions ← table (functions_ limits) "async functions" RFunctionId u32;
    if negb (async_in_range async_functions n)
    then fail (noncanonical "async function IDs must be unique, sorted, and in range")
    else functions ← read_n n read_function; mret (functions, async_functions)).

Definition read_validator_bool : Read bool :=
  tag ← u8;
  match tag with
  | 0 => mret false | 1 => mret true | _ => fail (invalid_scalar "validator bool")
  end.
Definition read_validator_bool_op : Read BoolBinaryOp :=
  tag ← u8;
  match tag with
  | 0 => mret And | 1 => mret Or | _ => fail (invalid_scalar "validator bool operation")
  end.
Definition read_validator_compare : Read CompareOp :=
  tag ← u8;
  match tag with
  | 0 => mret Equal | 1 => mret NotEqual | 2 => mret Less | 3 => mret LessEqual
  | 4 => mret Greater | 5 => mret GreaterEqual
  | _ => fail (invalid_scalar "validator comparison")
  end.
(** [nodes] counts the nodes read; at most 256 are, so that no expression is deeper
    than the fuel. *)
Fixpoint decode_validator_expr (fuel : nat) (nodes : Z) : Read (ValidatorExpr * Z) :=
  match fuel with
  | O => fail (limit "validator expression nodes")
  | S fuel =>
    let nodes := nodes + 1 in
    if 256 <? nodes then fail (limit "validator expression nodes")
    else
      tag ← u8;
      match tag with
      | 0 => b ← read_validator_bool; mret (VBool_ b, nodes)
      | 1 => field ← u32; t ← type_ref types; mret (VField field t, nodes)
      | 2 => value ← decode_validator_expr fuel nodes; mret (VNot value.1, value.2)
      | 3 =>
        operation ← read_validator_bool_op;
        l ← decode_validator_expr fuel nodes;
        r ← decode_validator_expr fuel l.2;
        mret (VBoolBinary operation l.1 r.1, r.2)
      | 4 =>
        operation ← read_validator_compare;
        l ← decode_validator_expr fuel nodes;
        r ← decode_validator_expr fuel l.2;
        mret (VCompare operation l.1 r.1, r.2)
      | _ => fail (invalid_scalar "validator expression")
      end
  end.
Definition read_validator : Read RecordInvariantDefinition :=
  identity ← string_ref strings;
  field_count ← count (table_entries limits) "invariant fields";
  fields ← read_n field_count read_field;
  predicate ← decode_validator_expr 257 0;
  mret {| ri_identity := identity; ri_fields := fields; ri_predicate := predicate.1 |}.
Definition decode_validators (payload : list Z) : Read (list RecordInvariantDefinition) :=
  in_section payload
    (table (table_entries limits) "record invariants" RRecordInvariantDefinition read_validator).

Definition decode_schemas (payload : list Z) : Read (list StrictSchema) :=
  in_section payload
    (table (table_entries limits) "schemas" RStrictSchema
       (t ← type_ref types; mret {| ss_value_type := t |})).
End Types.

Definition decode_type_section (payload : list Z) : Read (list ValueType * list EnumType) :=
  in_section payload (
    types ← read_types limits strings;
    expanded_nodes ← lift (expanded_node_count types);
    if expanded_type_nodes limits <? expanded_nodes then fail (limit "expanded type nodes")
    else
      encoded_keys ← lift (collect (type_key strings) types);
      if negb (keys_sorted encoded_keys)
      then fail (noncanonical "type descriptors must be unique and sorted canonically")
      else
        enum_types ← table (table_entries limits) "table entries" REnumType (read_enum_type types);
        mret (types, enum_types)).
End Decode.

(** ** Framing *)

Inductive SectionId :=
| Strings | Constants | Types | Functions | Effects | Entries | Schemas | Imports
| ManifestContracts | Templates | Validators | Debug.
#[export] Instance SectionId_eq_dec : EqDecision SectionId.
Proof. solve_decision. Defined.

Definition MANDATORY : list SectionId :=
  [Strings; Constants; Types; Functions; Effects; Entries; Schemas; Imports; ManifestContracts;
   Templates; Validators].
Definition section_raw (id : SectionId) : Z :=
  match id with
  | Strings => 1 | Constants => 2 | Types => 3 | Functions => 4 | Effects => 5 | Entries => 6
  | Schemas => 7 | Imports => 8 | ManifestContracts => 9 | Templates => 10 | Validators => 11
  | Debug => 12
  end.
Definition from_raw (raw : Z) : option SectionId :=
  match raw with
  | 1 => Some Strings | 2 => Some Constants | 3 => Some Types | 4 => Some Functions
  | 5 => Some Effects | 6 => Some Entries | 7 => Some Schemas | 8 => Some Imports
  | 9 => Some ManifestContracts | 10 => Some Templates | 11 => Some Validators | 12 => Some Debug
  | _ => None
  end.

Record Section_ := { sec_id : SectionId; sec_payload : list Z }.

Definition encode_section (id : SectionId) (payload : Output) : result ArtifactError Section_ :=
  let? payload := payload in Ok {| sec_id := id; sec_payload := payload |}.

Definition mandatory_sections (artifact : Artifact) (strings : list string) (types : list ValueType)
    (type_keys : list (list Z)) : list (SectionId * Output) :=
  let m := module_ artifact in
  [(Strings, encode_strings strings);
   (Constants, encode_constants strings (constants m));
   (Types, encode_type_section strings type_keys types (enum_types m));
   (Functions, encode_functions strings type_keys (functions m) (async_functions m));
   (Effects, encode_effects strings (effect_sets m));
   (Entries, encode_entries strings (entries artifact));
   (Schemas, encode_schemas strings type_keys (schemas artifact));
   (Imports, encode_imports strings (imports artifact));
   (ManifestContracts,
    let? manifest := ok_or (manifest artifact)
                       (noncanonical "artifacts require a manifest contract") in
    encode_manifest strings manifest);
   (Templates, encode_templates strings (templates artifact));
   (Validators, encode_validators strings type_keys (record_invariants artifact))].
Definition encode_sections (artifact : Artifact) (strings : list string) (types : list ValueType)
    (type_keys : list (list Z)) : result ArtifactError (list Section_) :=
  let? mandatory := collect (λ s : SectionId * Output, encode_section s.1 s.2)
    (mandatory_sections artifact strings types type_keys) in
  match debug artifact with
  | Some debug =>
    let? section := encode_section Debug (encode_debug strings debug) in
    Ok (mandatory ++ [section])%list
  | None => Ok mandatory
  end.

Definition put_section (section : Section_) : Output :=
  emit [Ok (le_bytes 2 (section_raw (sec_id section)));
        put_u64 (Z.of_nat (length (sec_payload section))); put_slice (sec_payload section)].

(** [u64::try_from(len)] and [usize::try_from] do not fail: both are 64 bits wide. *)
Fixpoint read_sections (limits : DecodeLimits) (n index : nat) (previous : Z)
    : Read (list Section_) :=
  match n with
  | O => mret []
  | S n =>
    raw_id ← u16_z;
    match from_raw raw_id with
    | None =>
      fail (ArtifactError_new UnknownSection
              ("section ID " ++ string_of_bytes (decimal_bytes raw_id) ++ " is unknown"))
    | Some id =>
      if raw_id =? previous then
        fail (ArtifactError_new DuplicateSection
                ("section ID " ++ string_of_bytes (decimal_bytes raw_id)
                 ++ " appears more than once"))
      else if raw_id <? previous then
        fail (ArtifactError_new SectionOrder "sections are not in canonical ID order")
      else
        let expected := default Debug (MANDATORY !! index) in
        if negb (bool_decide (id = expected)) then
          fail (ArtifactError_new MissingSection
                  ("mandatory section ID " ++ string_of_bytes (decimal_bytes (section_raw expected))
                   ++ " is missing"))
        else
          byte_len ← u64;
          if section_bytes limits <? byte_len then
            fail (ArtifactError_new SectionTooLarge "section bytes exceed the decode limit")
          else
            payload ← take_bytes byte_len;
            rest ← read_sections limits n (S index) raw_id;
            mret ({| sec_id := id; sec_payload := payload |} :: rest)
    end
  end.
Definition split_sections (limits : DecodeLimits) (body : list Z) (section_count : nat)
    : result ArtifactError (list Section_) :=
  let? r := in_section body (read_sections limits section_count 0 0)
              {| rd_bytes := [];
                 rd_budget := DecodeBudget_new (decoded_model_bytes limits)
                                (expanded_type_nodes limits) |} in
  Ok r.1.
