(* ===== verification/ArtifactTables.v ===== *)
(** * The tables of an artifact are sorted

    The string table is the strictly sorted list of the strings of the artifact, the
    type table the strictly sorted list of the keys of its types: [set_insert] is
    insertion into a set, [sort_by_key] and [dedup_by_key] leave one entry per key. *)

From S2P Require Import Prelude Text Bytecode ArtifactBytes ArtifactModel ArtifactCodec.
From S2P Require Import ArtifactSections.
Open Scope string_scope.
Open Scope Z_scope.

(** ** Sets of strings *)

Definition sorted_strings (l : list string) : Prop := StronglySorted (λ s t, str_ltb s t = true) l.

Lemma elem_of_set_insert x v l : x ∈ set_insert v l ↔ x = v ∨ x ∈ l.
Proof.
  induction l as [|s l IH]; cbn [set_insert]; [set_solver|].
  destruct (str_compare v s) eqn:Hc; [apply str_compare_Eq in Hc as ->|..]; set_solver.
Qed.

Lemma set_insert_sorted v l : sorted_strings l → sorted_strings (set_insert v l).
Proof.
  induction 1 as [|s l Hl IH Hs]; cbn [set_insert]; [by repeat constructor|].
  destruct (str_compare v s) eqn:Hc; [by constructor| |].
  - assert (str_ltb v s = true) as Hv by (unfold str_ltb; by rewrite Hc).
    constructor; [by constructor|]. constructor; [done|].
    eapply Forall_impl; [exact Hs|]. intros t Ht. by apply (str_ltb_trans v s t).
  - constructor; [done|]. rewrite Forall_forall in *. intros t [->|Ht]%elem_of_set_insert.
    + by apply str_compare_Gt.
    + by apply Hs.
Qed.

Lemma elem_of_set_extend x values l : x ∈ set_extend values l ↔ x ∈ values ∨ x ∈ l.
Proof.
  unfold set_extend. revert l. induction values as [|v values IH]; intros l; cbn [fold_left].
  - set_solver.
  - rewrite IH, elem_of_set_insert. set_solver.
Qed.

Lemma set_extend_sorted values l : sorted_strings l → sorted_strings (set_extend values l).
Proof.
  unfold set_extend. revert l. induction values as [|v values IH]; intros l Hl; [done|].
  apply IH. by apply set_insert_sorted.
Qed.

Lemma sorted_strings_NoDup l : sorted_strings l → NoDup l.
Proof.
  induction 1 as [|s l Hl IH Hs]; constructor; [|done]. intros Hin. rewrite Forall_forall in Hs.
  specialize (Hs s Hin). simpl in Hs. by rewrite str_ltb_irrefl in Hs.
Qed.

(** ** Keys *)

Lemma bytes_ltb_trans s t u : bytes_ltb s t = true → bytes_ltb t u = true → bytes_ltb s u = true.
Proof.
  unfold bytes_ltb. destruct (bytes_compare s t) eqn:H1; [done| |done].
  destruct (bytes_compare t u) eqn:H2; [done| |done]. by rewrite (bytes_compare_lt_trans _ _ _ H1 H2).
Qed.

Lemma bytes_ltb_irrefl s : bytes_ltb s s = false.
Proof. unfold bytes_ltb. by rewrite (proj2 (bytes_compare_eq _ _) eq_refl). Qed.

(** The order of the sort. *)
Definition key_le (x y : Keyed) : Prop := x.1 = y.1 ∨ bytes_ltb x.1 y.1 = true.

Lemma key_le_trans x y z : key_le x y → key_le y z → key_le x z.
Proof.
  unfold key_le. intros [->|H1] [E2|H2]; rewrite ?E2 in *; auto. right. by eapply bytes_ltb_trans.
Qed.

Lemma key_le_total x y : bytes_compare x.1 y.1 ≠ Gt → key_le x y.
Proof.
  unfold key_le, bytes_ltb. destruct (bytes_compare x.1 y.1) eqn:Hc; [|auto|done].
  apply bytes_compare_eq in Hc. auto.
Qed.

Lemma elem_of_sort x l : x ∈ sort_by_key l ↔ x ∈ l.
Proof.
  assert (∀ y k, x ∈ key_insert y k ↔ x = y ∨ x ∈ k) as Hi.
  { intros y k. induction k as [|z k IH]; cbn [key_insert]; [set_solver|].
    destruct (bytes_compare y.1 z.1); set_solver. }
  induction l as [|y l IH]; cbn [sort_by_key]; [done|]. rewrite Hi, IH. set_solver.
Qed.

Lemma sort_sorted l : StronglySorted key_le (sort_by_key l).
Proof.
  induction l as [|x l IH]; cbn [sort_by_key]; [constructor|].
  induction IH as [|y k Hk IHk Hy]; cbn [key_insert]; [by repeat constructor|].
  destruct (bytes_compare x.1 y.1) eqn:Hc.
  1, 2: constructor; [by constructor|]; assert (key_le x y) as Hxy by (apply key_le_total; congruence);
    constructor; [done|]; eapply Forall_impl; [exact Hy|]; eauto using key_le_trans.
  constructor; [done|]. assert (key_le y x) as Hyx.
  { apply key_le_total. rewrite bytes_compare_antisym, Hc. done. }
  clear -Hy Hyx. induction Hy as [|z k Hz Hk IH]; cbn [key_insert]; [by apply Forall_singleton|].
  destruct (bytes_compare x.1 z.1); rewrite ?Forall_cons; auto.
Qed.

Definition above (last : option (list Z)) (x : Keyed) : Prop :=
  match last with Some k => bytes_ltb k x.1 = true | None => True end.

Lemma dedup_sorted l last :
  StronglySorted key_le l →
  (∀ k, last = Some k → Forall (λ x : Keyed, k = x.1 ∨ bytes_ltb k x.1 = true) l) →
  StronglySorted (λ x y : Keyed, bytes_ltb x.1 y.1 = true) (dedup_by_key last l)
  ∧ Forall (above last) (dedup_by_key last l).
Proof.
  intros Hl. revert last. induction Hl as [|x l Hl IH Hx]; intros last Hlast; cbn [dedup_by_key];
    [by repeat constructor|]. case_bool_decide as Hd.
  - apply IH. intros k Hk. by apply Hlast, Forall_cons in Hk as [_ ?].
  - destruct (IH (Some x.1)) as [Hs Ha]; [by intros k [= <-]|].
    assert (above last x) as Hax.
    { destruct last as [k|]; [|done]. specialize (Hlast k eq_refl). apply Forall_cons in Hlast as [[->|?] _];
        done. }
    split; constructor; try done. eapply Forall_impl; [exact Ha|]. intros y Hy. destruct last; [|done].
    simpl in *. by eapply bytes_ltb_trans.
Qed.

Lemma elem_of_dedup x l last : x ∈ dedup_by_key last l → x ∈ l.
Proof.
  revert last. induction l as [|y l IH]; intros last; cbn [dedup_by_key]; [done|].
  case_bool_decide; rewrite ?elem_of_cons; naive_solver.
Qed.

Lemma dedup_key k l last :
  k ∈ map fst l → last = Some k ∨ k ∈ map fst (dedup_by_key last l).
Proof.
  revert last. induction l as [|y l IH]; intros last; cbn [dedup_by_key map]; [set_solver|].
  rewrite elem_of_cons. intros [->|Hk]; case_bool_decide as Hd; auto.
  - right. cbn [map]. left.
  - right. cbn [map]. destruct (IH (Some y.1) Hk) as [[= <-]|?]; [left|by right].
Qed.

(** The table of the types of an artifact: one entry per key, in order. *)
Lemma keyed_table l :
  let table := dedup_by_key None (sort_by_key l) in
  StronglySorted (λ x y : Keyed, bytes_ltb x.1 y.1 = true) table
  ∧ (∀ x, x ∈ table → x ∈ l) ∧ (∀ k, k ∈ map fst l → k ∈ map fst table).
Proof.
  split_and!.
  - apply dedup_sorted; [apply sort_sorted|done].
  - intros x Hx%elem_of_dedup. by apply elem_of_sort.
  - intros k (x & -> & Hx)%list_elem_of_fmap. 
    destruct (dedup_key x.1 (sort_by_key l) None) as [?|?]; [|done|done].
    apply list_elem_of_fmap. exists x. by rewrite elem_of_sort.
Qed.

(** ** The checks of the decoder *)

Lemma windows2_sorted {A} (r : A → A → bool) l :
  StronglySorted (λ x y, r x y = true) l → windows2_any (λ x y, negb (r x y)) l = false.
Proof.
  induction 1 as [|x [|y l] Hl IH Hx]; try done. cbn [windows2_any]. apply Forall_cons in Hx as [Hxy _].
  by rewrite Hxy.
Qed.

Lemma sorted_map {A B} (f : A → B) (r : B → B → Prop) l :
  StronglySorted (λ x y, r (f x) (f y)) l → StronglySorted r (map f l).
Proof.
  induction 1 as [|x l Hl IH Hx]; cbn [map]; constructor; [done|]. by apply Forall_fmap.
Qed.
