(* ===== verification/ArtifactNames.v ===== *)
(** * The names of an artifact

    The canonical forms that [crates/allen-bytecode/src/artifact.rs] accepts for
    identifiers, packages, versions, source paths, capabilities, exec patterns,
    tools and HTTPS origins.  The semver crate is the class [Semver]; IP addresses
    are parsed and printed as [std::net] does. *)

From S2P Require Import Prelude Text Bytecode ArtifactBytes ArtifactModel.
Open Scope string_scope.
Open Scope Z_scope.

(** ** The semver crate *)

Record Version := {
  ver_major : Z; ver_minor : Z; ver_patch : Z; ver_pre : string; ver_build : string }.
Definition Version_new (major minor patch : Z) : Version :=
  {| ver_major := major; ver_minor := minor; ver_patch := patch; ver_pre := ""; ver_build := "" |}.

Class Semver := {
  Version_parse : string → option Version;
  Version_to_string : Version → string;
  Version_compare : Version → Version → comparison;
  VersionReq : Type;
  VersionReq_parse : string → option VersionReq;
  VersionReq_matches : VersionReq → Version → bool
}.

(** ** IP addresses *)

Definition hex_digit (b : Z) : option Z :=
  if is_ascii_digit b then Some (b - 48)
  else if between 97 102 b then Some (b - 87)
  else if between 65 70 b then Some (b - 55)
  else None.
Definition digit_of (radix b : Z) : option Z :=
  match hex_digit b with
  | Some d => if d <? radix then Some d else None
  | None => None
  end.

(** The digits of [Parser::read_number]: their value, their count and the rest. *)
Fixpoint read_digits (radix : Z) (value : Z) (n : nat) (bs : list Z) : Z * nat * list Z :=
  match bs with
  | b :: rest =>
    match digit_of radix b with
    | Some d => read_digits radix (value * radix + d) (S n) rest
    | None => (value, n, bs)
    end
  | [] => (value, n, [])
  end.
Definition read_number (radix : Z) (max_digits : nat) (allow_zero_prefix : bool) (max : Z)
    (bs : list Z) : option (Z * list Z) :=
  let leading_zero := match bs with b :: _ => b =? 48 | [] => false end in
  let '(value, n, rest) := read_digits radix 0 0 bs in
  if (max_digits <? n)%nat || (n =? 0)%nat
     || (negb allow_zero_prefix && leading_zero && (1 <? n)%nat) || (max <? value)
  then None else Some (value, rest).
(** [read_separator]: a separator before every item but the first. *)
Definition read_separator {A} (sep : Z) (index : nat) (read : list Z → option (A * list Z))
    (bs : list Z) : option (A * list Z) :=
  match index, bs with
  | O, _ => read bs
  | S _, b :: rest => if b =? sep then read rest else None
  | S _, [] => None
  end.

Definition read_octet (index : nat) (bs : list Z) : option (Z * list Z) :=
  read_separator 46 index (read_number 10 3 false 255) bs.
Definition read_ipv4_addr (bs : list Z) : option (list Z * list Z) :=
  '(a, bs) ← read_octet 0 bs;
  '(b, bs) ← read_octet 1 bs;
  '(c, bs) ← read_octet 2 bs;
  '(d, bs) ← read_octet 3 bs;
  Some ([a; b; c; d], bs).
(** [Ipv4Addr::from_str]: no text is longer than 15 bytes. *)
Definition Ipv4Addr_parse (s : string) : option (list Z) :=
  if 15 <? str_len s then None
  else match read_ipv4_addr (bytes s) with Some (octets, []) => Some octets | _ => None end.
Definition Ipv4Addr_to_string (octets : list Z) : string :=
  join_char "."%char (map (λ o, string_of_bytes (decimal_bytes o)) octets).

(** [read_groups] on the [left] groups from index [i] on: the groups and whether
    they end with an embedded IPv4 address. *)
Fixpoint read_groups (left i : nat) (bs : list Z) : list Z * bool * list Z :=
  match left with
  | O => ([], false, bs)
  | S left' =>
    let ipv4 := if (1 <? left)%nat then read_separator 58 i read_ipv4_addr bs else None in
    match ipv4 with
    | Some ([a; b; c; d], rest) => ([a * 256 + b; c * 256 + d], true, rest)
    | _ =>
      match read_separator 58 i (read_number 16 4 true 65535) bs with
      | Some (g, rest) =>
        let '(groups, embedded, rest) := read_groups left' (S i) rest in
        (g :: groups, embedded, rest)
      | None => ([], false, bs)
      end
    end
  end.
Definition read_ipv6_addr (bs : list Z) : option (list Z * list Z) :=
  let '(head, head_ipv4, rest) := read_groups 8 0 bs in
  if (length head =? 8)%nat then Some (head, rest)
  else if head_ipv4 then None
  else
    match rest with
    | 58 :: 58 :: rest =>
      let '(tail, _, rest) := read_groups (7 - length head) 0 rest in
      Some ((head ++ replicate (8 - length head - length tail) 0 ++ tail)%list, rest)
    | _ => None
    end.
Definition Ipv6Addr_parse (s : string) : option (list Z) :=
  match read_ipv6_addr (bytes s) with Some (groups, []) => Some groups | _ => None end.

Definition hex_char (d : Z) : Z := if d <? 10 then 48 + d else 87 + d.
(** [{:x}] of a 16-bit number. *)
Definition hex_group (g : Z) : list Z :=
  let digits := [g / 4096; (g / 256) mod 16; (g / 16) mod 16; g mod 16] in
  let fix strip l := match l with 0 :: ((_ :: _) as rest) => strip rest | _ => l end in
  map hex_char (strip digits).
Definition fmt_groups (groups : list Z) : string :=
  join_char ":"%char (map (λ g, string_of_bytes (hex_group g)) groups).
(** The start and length of the first longest run of zero groups. *)
Fixpoint zero_span (i : nat) (current longest : nat * nat) (groups : list Z) : nat * nat :=
  match groups with
  | [] => longest
  | g :: rest =>
    if g =? 0 then
      let current := if (current.2 =? 0)%nat then (i, 1%nat) else (current.1, S current.2) in
      zero_span (S i) current (if (longest.2 <? current.2)%nat then current else longest) rest
    else zero_span (S i) (0%nat, 0%nat) longest rest
  end.
Definition Ipv6Addr_to_string (groups : list Z) : string :=
  match groups with
  | [0; 0; 0; 0; 0; 65535; ab; cd] =>
    "::ffff:" ++ Ipv4Addr_to_string [ab / 256; ab mod 256; cd / 256; cd mod 256]
  | _ =>
    let '(start, len) := zero_span 0 (0%nat, 0%nat) (0%nat, 0%nat) groups in
    if (1 <? len)%nat
    then fmt_groups (take start groups) ++ "::" ++ fmt_groups (drop (start + len) groups)
    else fmt_groups groups
  end.

Module Names.

(** ** Identifiers and packages *)

Definition lower_or_digit (b : Z) : bool := is_ascii_lowercase b || is_ascii_digit b.

Definition is_source_identifier (value : string) : bool :=
  match bytes value with
  | [] => false
  | first :: rest =>
    (is_ascii_lowercase first || (first =? 95)) && forallb (λ b, lower_or_digit b || (b =? 95)) rest
  end.
Definition is_type_identifier (value : string) : bool :=
  match bytes value with
  | [] => false
  | first :: rest =>
    (is_ascii_alphabetic first || (first =? 95))
    && forallb (λ b, is_ascii_alphanumeric b || (b =? 95)) rest
  end.
Definition is_package_name (value : string) : bool :=
  match bytes value with b :: _ => is_ascii_lowercase b | [] => false end
  && negb (starts_with "-" value) && negb (ends_with "-" value) && negb (str_contains "--" value)
  && forallb (λ b, lower_or_digit b || (b =? 45)) (bytes value).

Definition path_parts_normal (path : string) : bool :=
  forallb (λ part, negb (str_is_empty part) && negb (String.eqb part ".")
                   && negb (String.eqb part "..")) (split_char "/"%char path).
Definition is_normalized_utf8_source_path (path : string) : bool :=
  negb (str_is_empty path) && negb (starts_with "/" path) && ends_with ".allen" path
  && negb (existsb (λ c, is_control c || (c =? 92)) (chars path)) && path_parts_normal path.
Definition is_normalized_source_path (path : string) : bool :=
  negb (str_is_empty path) && negb (starts_with "/" path) && ends_with ".allen" path
  && forallb (λ b, is_ascii_alphanumeric b || (b =? 47) || (b =? 46) || (b =? 95) || (b =? 45))
       (bytes path)
  && path_parts_normal path.
Definition is_package_module_path (value : string) : bool :=
  starts_with "src/" value && is_normalized_utf8_source_path value.

Definition is_supported_capability (capability : string) : bool :=
  existsb (String.eqb capability)
    ["fs.read"; "fs.write"; "net.http_get"; "permission.request_external_fs"; "agent.message";
     "agent.ask"; "agent.transcript"; "model.request"; "user.ask"; "sub_agent.create";
     "sub_agent.run"; "sub_agent.message"; "sub_agent.ask"; "exec.run"].

Definition exec_token (count index : nat) (token : string) : bool :=
  let final_wildcard := String.eqb token "*" && (S index =? count)%nat in
  negb (str_is_empty token)
  && (negb (str_contains "*" token) || final_wildcard)
  && (final_wildcard
      || negb (existsb (λ b, negb (is_ascii_graphic b) || (b =? 39) || (b =? 34) || (b =? 92))
                 (bytes token))).
Definition is_canonical_exec_pattern (pattern : string) : bool :=
  if str_is_empty pattern || starts_with " " pattern || ends_with " " pattern
     || str_contains "  " pattern
  then false
  else
    let tokens := split_char " "%char pattern in
    match tokens with
    | [] => false
    | executable :: _ =>
      if str_contains "/" executable || String.eqb executable "*" then false
      else forallb (λ it : nat * string, exec_token (length tokens) it.1 it.2)
             (zip (seq 0 (length tokens)) tokens)
    end.
Definition is_canonical_exec_environment_name (name : string) : bool :=
  match bytes name with
  | [] => false
  | first :: rest =>
    (is_ascii_alphabetic first || (first =? 95))
    && forallb (λ b, is_ascii_alphanumeric b || (b =? 95)) rest
    && negb (eq_ignore_ascii_case name "LC_ALL") && negb (eq_ignore_ascii_case name "TZ")
  end.

Definition is_canonical_tool_name (name : string) : bool :=
  negb (str_is_empty name) && (str_len name <=? 255)
  && forallb (λ segment, negb (str_is_empty segment) && (str_len segment <=? 63)
                         && negb (existsb (λ c, is_control c || is_whitespace c) (chars segment)))
       (split_char "."%char name).

Definition hex_byte (b : Z) : list Z := [hex_char (b / 16); hex_char (b mod 16)].
Definition lower_hex (bs : list Z) : string := string_of_bytes (flat_map hex_byte bs).
Definition escape_symbol_component (component : string) : string :=
  "x" ++ lower_hex (bytes component).

(** ** HTTPS origins *)

(** [str::parse::<u16>] accepts a plus sign. *)
Definition parse_u16 (s : string) : option Z :=
  let digits := match bytes s with 43 :: ((_ :: _) as rest) => rest | bs => bs end in
  parse_unsigned u16_max digits.

Definition origin_port (port : option string) : bool :=
  match port with
  | None => true
  | Some port =>
    negb (str_is_empty port || starts_with "0" port
          || match parse_u16 port with None => true | Some _ => false end
          || String.eqb port "443")
  end.
Definition host_label (label : string) : bool :=
  negb (str_is_empty label) && (str_len label <=? 63) && negb (starts_with "-" label)
  && negb (ends_with "-" label) && forallb (λ b, lower_or_digit b || (b =? 45)) (bytes label).
Definition is_ascii_control (b : Z) : bool := between 0 31 b || (b =? 127).

Definition is_canonical_https_origin (value : string) : bool :=
  match strip_prefix "https://" value with
  | None => false
  | Some authority =>
    if str_is_empty authority || existsb is_ascii_control (bytes authority)
       || existsb (λ p, str_contains p authority) ["/"; "?"; "#"; "@"]
    then false
    else
      match strip_prefix "[" authority with
      | Some inner =>
        match split_once "]" inner with
        | None => false
        | Some (host, suffix) =>
          let port := if str_is_empty suffix then Some None
                      else option_map Some (strip_prefix ":" suffix) in
          match port with
          | None => false
          | Some port =>
            match Ipv6Addr_parse host with
            | None => false
            | Some address =>
              String.eqb (Ipv6Addr_to_string address) host && origin_port port
            end
          end
        end
      | None =>
        let '(host, port) :=
          match rsplit_once ":" authority with
          | Some (host, port) =>
            if str_contains ":" host then (authority, None) else (host, Some port)
          | None => (authority, None)
          end in
        if negb (origin_port port) then false
        else
          match Ipv4Addr_parse host with
          | Some address => String.eqb (Ipv4Addr_to_string address) host
          | None => (str_len host <=? 253) && forallb host_label (split_char "."%char host)
          end
      end
  end.

(** ** Versions *)

Section Versions.
Context `{Semver}.

Definition is_canonical_version (value : string) : bool :=
match Version_parse value with
| Some v => String.eqb (Version_to_string v) value
| None => false
end.
Definition is_canonical_release_version (value : string) : bool :=
match Version_parse value with
| Some v =>
  str_is_empty (ver_pre v) && str_is_empty (ver_build v) && String.eqb (Version_to_string v) value
| None => false
end.
Definition is_canonical_tool_version (value : string) : bool :=
match Version_parse value with
| Some v =>
  negb (ver_major v =? 0) && str_is_empty (ver_pre v) && str_is_empty (ver_build v)
  && String.eqb (Version_to_string v) value
| None => false
end.

(** [value.trim() == value]: no white space at either end. *)
Definition is_trimmed (value : string) : bool :=
match chars value with
| [] => true
| c :: _ as cs => negb (is_whitespace c) && negb (is_whitespace (List.last cs 0))
end.
Definition is_language_requirement (value : string) : bool :=
negb (str_is_empty value) && is_trimmed value
&& match VersionReq_parse value with
   | Some requirement => VersionReq_matches requirement (Version_new 0 1 0)
   | None => false
   end.

Definition is_package_identity (value : string) : bool :=
match rsplit_once "@" value with
| Some (name, version) => is_package_name name && is_canonical_version version
| None => false
end.
Definition is_pkg_source (path : string) : bool :=
match strip_prefix "pkg://" path with
| None => false
| Some rest =>
  match split_once "/src/" rest with
  | None => false
  | Some (package, path) => is_package_identity package && is_normalized_utf8_source_path path
  end
end.
Definition is_template_identity (value : string) : bool :=
match strip_prefix "pkg://" value with
| None => false
| Some rest =>
  match split_once "/templates/" rest with
  | None => false
  | Some (package, name) =>
    is_package_identity package && is_source_identifier name && negb (str_contains "/" name)
  end
end.
Definition is_record_invariant_identity (value : string) : bool :=
match rsplit_once "::" value with
| None => false
| Some (module, type_name) =>
  match strip_prefix "pkg://" module with
  | None => false
  | Some rest =>
    match split_once "/" rest with
    | None => false
    | Some (package, path) =>
      is_type_identifier type_name && is_package_identity package && is_package_module_path path
    end
  end
end.
Definition package_symbol_prefix (identity : string) : result ArtifactError string :=
match rsplit_once "@" identity with
| Some (name, version) =>
  if is_package_name name && is_canonical_version version
  then Ok ("pkg/" ++ escape_symbol_component name ++ "/" ++ escape_symbol_component version ++ "/")
  else Err (noncanonical "package identity is invalid")
| None => Err (noncanonical "package identity is invalid")
end.

(** [split_requirement]: the bounds of [">=lower, <upper"]. *)
Definition requirement_bounds (value : string) : option (string * string) :=
'(lower, upper) ← split_once ", " value;
lower ← strip_prefix ">=" lower;
upper ← strip_prefix "<" upper;
Some (lower, upper).
Definition is_tool_version_requirement (value : string) : bool :=
match requirement_bounds value with
| None => false
| Some (lower, upper) =>
  is_canonical_release_version lower && is_canonical_release_version upper
  && match Version_parse lower, Version_parse upper with
     | Some l, Some u => match Version_compare l u with Lt => true | _ => false end
     | _, _ => false
     end
end.
Definition tool_requirement_contains (requirement version : string) : bool :=
match requirement_bounds requirement with
| None => false
| Some (lower, upper) =>
  match Version_parse lower, Version_parse upper, Version_parse version with
  | Some l, Some u, Some v =>
    match Version_compare l v with Gt => false | _ => true end
    && match Version_compare v u with Lt => true | _ => false end
  | _, _, _ => false
  end
end.

(** A byte of a tool name that is kept in its effect. *)
Definition preserved (b : Z) : bool := lower_or_digit b || (b =? 95).
Definition effect_segment (segment : string) : string :=
let output :=
  flat_map (λ b, if preserved b then [b] else [95; 120] ++ hex_byte b ++ [95])%list (bytes segment) in
let numeric := match List.find preserved (bytes segment) with
               | Some b => is_ascii_digit b
               | None => false
               end in
string_of_bytes (if numeric then [95; 110; 95] ++ output else output)%list.
Definition expected_tool_effect (name version : string) : option string :=
match Version_parse version with
| None => None
| Some v =>
  if ver_major v =? 0 then None
  else
    Some ("tool." ++ join_char "."%char (map effect_segment (split_char "."%char name))
          ++ "@" ++ string_of_bytes (decimal_bytes (ver_major v)))
end.
End Versions.
End Names.
