(* ===== verification/ArtifactDigest.v ===== *)
(** * The digests of an artifact

    The canonical bytes of types, validators and tool contracts in
    [crates/allen-bytecode/src/artifact.rs], and the digests computed from them:
    [compute_strict_schema_digest], [compute_entry_contract_digest],
    [compute_tool_contract_digest], [compute_template_digest]. *)

From S2P Require Import Prelude Text Bytecode ArtifactBytes ArtifactModel ArtifactCodec.
From S2P Require Import ArtifactNames.
Open Scope string_scope.
Open Scope Z_scope.

(** ** Canonical bytes *)

(** [u64::try_from] does not fail: [usize] is 64 bits wide. *)
Definition put_canonical_count (n : nat) : list Z := le_bytes 8 (Z.of_nat n).
Definition put_canonical_text (text : string) : list Z :=
  (put_canonical_count (String.length text) ++ bytes text)%list.
Definition u32_le (n : nat) : list Z := le_bytes 4 (Z.of_nat n).

Fixpoint encode_canonical_value_type (t : ValueType) : list Z :=
  match t with
  | TInt => [0]
  | TBool => [1]
  | TFloat => [2]
  | TString => [3]
  | TBytes => [4]
  | TUnit => [5]
  | TNever => [6]
  | TList element => 7 :: encode_canonical_value_type element
  | TMap key value => 8 :: encode_canonical_value_type key ++ encode_canonical_value_type value
  | TTuple elements =>
    9 :: put_canonical_count (length elements) ++ flat_map encode_canonical_value_type elements
  | TRecord fields =>
    10 :: put_canonical_count (length fields)
       ++ flat_map (λ field : RecordField,
                      put_canonical_text field.1 ++ encode_canonical_value_type field.2) fields
  | TEnum id => 11 :: u32_le id
  | TOption value => 12 :: encode_canonical_value_type value
  | TResult ok error => 13 :: encode_canonical_value_type ok ++ encode_canonical_value_type error
  | TFunction parameters return_type effects =>
    14 :: put_canonical_count (length parameters) ++ flat_map encode_canonical_value_type parameters
       ++ encode_canonical_value_type return_type ++ u32_le effects
  | TUnknown => [15]
  | TFuture value => 16 :: encode_canonical_value_type value
  | TTask value => 17 :: encode_canonical_value_type value
  | TWorkspace => [18]
  | TExternalFsAccess => [19]
  | TSubAgent => [20]
  | TNewtype name underlying =>
    21 :: put_canonical_text name ++ encode_canonical_value_type underlying
  | TRange => [22]
  | TSequence value => 23 :: encode_canonical_value_type value
  end%list.
Definition canonical_value_type_bytes (t : ValueType) : list Z :=
  (bytes "ALLEN-VALUE-TYPE" ++ [0; 1] ++ encode_canonical_value_type t)%list.

Definition encode_canonical_segment (segment : EntryValidatorPathSegment) : list Z :=
  match segment with
  | SegField index => 0 :: u32_le index
  | SegListElement => [1]
  | SegMapKey => [2]
  | SegMapValue => [3]
  | SegTupleElement index => 4 :: u32_le index
  | SegOptionSome => [5]
  | SegResultOk => [6]
  | SegResultError => [7]
  | SegEnumPayload variant element => 8 :: u32_le variant ++ u32_le element
  | SegNewtypeValue => [9]
  end%list.
Definition encode_canonical_validator_path (path : list EntryValidatorPathSegment) : list Z :=
  flat_map encode_canonical_segment path.
Fixpoint encode_canonical_validator_expr (expression : ValidatorExpr) : list Z :=
  match expression with
  | VBool_ value => [0; if value then 1 else 0]
  | VField field value_type => 1 :: u32_le field ++ encode_canonical_value_type value_type
  | VNot value => 2 :: encode_canonical_validator_expr value
  | VBoolBinary operation l r =>
    3 :: bool_op operation :: encode_canonical_validator_expr l ++ encode_canonical_validator_expr r
  | VCompare operation l r =>
    4 :: compare_op operation :: encode_canonical_validator_expr l
      ++ encode_canonical_validator_expr r
  end%list.

(** ** Schemas and entries *)

Definition compute_strict_schema_digest (schema : StrictSchema) : list Z :=
  sha256 (canonical_value_type_bytes (ss_value_type schema)).

Definition canonical_site (definitions : list RecordInvariantDefinition) (site : EntryValidatorSite)
    : list Z :=
  (put_canonical_count (length (site_path site)) ++ encode_canonical_validator_path (site_path site)
   ++ match definitions !! site_invariant site with
      | None => [255]
      | Some definition =>
        put_canonical_text (ri_identity definition)
        ++ put_canonical_count (length (ri_fields definition))
        ++ flat_map (λ field : RecordField,
                       put_canonical_text field.1 ++ encode_canonical_value_type field.2)
             (ri_fields definition)
        ++ encode_canonical_validator_expr (ri_predicate definition)
      end)%list.
Definition compute_entry_contract_digest (schema : StrictSchema) (sites : list EntryValidatorSite)
    (definitions : list RecordInvariantDefinition) : list Z :=
  let ty := canonical_value_type_bytes (ss_value_type schema) in
  sha256 (bytes "ALLEN-ENTRY-CONTRACT" ++ [0; 1] ++ put_canonical_count (length ty) ++ ty
          ++ put_canonical_count (length sites) ++ flat_map (canonical_site definitions) sites)%list.

(** ** Templates *)

Definition template_scalar_name (t : ValueType) : option string :=
  match t with
  | TBool => Some "Bool"
  | TInt => Some "Int"
  | TFloat => Some "Float"
  | TString => Some "String"
  | _ => None
  end.
Definition template_hash_item (name value : list Z) : list Z :=
  (be_bytes 8 (Z.of_nat (length name)) ++ name
   ++ be_bytes 8 (Z.of_nat (length value)) ++ value)%list.
Definition compute_template_digest (content : string) (holes : list TemplateHole) : list Z :=
  sha256 (bytes "allen-template-resource-v1" ++ [0]
          ++ template_hash_item (bytes "content") (bytes content)
          ++ flat_map (λ hole,
               template_hash_item (bytes (th_name hole))
                 (bytes (default "" (template_scalar_name (th_value_type hole))))) holes)%list.

(** ** Tools *)

Definition u_escape (c : Z) : list Z :=
  (bytes "\u" ++ [48; 48] ++ Names.hex_byte c)%list.
Definition json_char (c : Z) : list Z :=
  if c =? 34 then [92; 34]
  else if c =? 92 then [92; 92]
  else if c <=? 31 then u_escape c
  else utf8_encode c.
Definition push_json_string (value : string) : list Z :=
  ([34] ++ flat_map json_char (chars value) ++ [34])%list.
(** ["name":value] with the separator before it. *)
Definition json_member (before : string) (name : string) (value : string) : list Z :=
  (bytes before ++ [34] ++ bytes name ++ [34] ++ bytes ":" ++ push_json_string value)%list.
Definition json_tool (tool : ToolContract) : list Z :=
  (json_member "{" "effect" (tc_effect tool)
   ++ json_member "," "error_schema" ("sha256:" ++ Names.lower_hex (tc_error_digest tool))%string
   ++ json_member "," "input_schema" ("sha256:" ++ Names.lower_hex (tc_input_digest tool))%string
   ++ json_member "," "name" (tc_name tool)
   ++ json_member "," "output_schema" ("sha256:" ++ Names.lower_hex (tc_output_digest tool))%string
   ++ json_member "," "version" (tc_version tool)
   ++ json_member "," "version_requirement" (tc_version_requirement tool)
   ++ bytes "}")%list.
Fixpoint join_bytes (separator : list Z) (parts : list (list Z)) : list Z :=
  match parts with
  | [] => []
  | [p] => p
  | p :: rest => (p ++ separator ++ join_bytes separator rest)%list
  end.
Definition tool_contract_json (tools : list ToolContract) : list Z :=
  (bytes "{" ++ [34] ++ bytes "tools" ++ [34] ++ bytes ":["
   ++ join_bytes [44] (map json_tool tools) ++ bytes "]}")%list.
Definition compute_tool_contract_digest (tools : list ToolContract) : list Z :=
  sha256 (tool_contract_json tools).
