(* ===== verification/ArtifactGraph.v ===== *)
(** * The package graph of an artifact

    [validate_contract_graph] of [crates/allen-bytecode/src/artifact.rs]: the import
    contracts form a graph of package identities; every package is reachable from
    the package of the manifest, the graph has no cycle (Kahn's algorithm), and the
    symbols, templates, enums and debug sources name reachable packages. *)

From stdpp Require Import strings gmap.
From S2P Require Import Prelude Text Bytecode ArtifactBytes ArtifactModel ArtifactCodec.
From S2P Require Import ArtifactSections ArtifactNames.
Open Scope string_scope.
Open Scope Z_scope.

(** ** The graph *)

(** A [BTreeMap] is a finite map whose keys are visited in order; the values are
    sets of packages in order. *)
Abbreviation PackageGraph := (gmap string (list string)).
Definition btree_keys {A} (m : gmap string A) : list string :=
  set_extend (map fst (map_to_list m)) [].
Definition btree_set (s : gset string) : list string := set_extend (elements s) [].

Definition targets_of (graph : PackageGraph) (package : string) : list string :=
  default [] (graph !! package).

(** [graph.entry(p).or_default()] *)
Definition graph_node (package : string) (graph : PackageGraph) : PackageGraph :=
  <[package := targets_of graph package]> graph.
Definition graph_edge (importer target : string) (graph : PackageGraph) : PackageGraph :=
  graph_node target (<[importer := set_insert target (targets_of graph importer)]> graph).

Record GraphTables := {
  gt_graph : PackageGraph; gt_aliases : gmap (string * string) string;
  gt_digests : gmap string (list Z) }.

Definition import_target (import : ImportContract) : string :=
  im_package import ++ "@" ++ im_version import.

(** [map.insert(k, value).is_some_and(|previous| previous != value)] *)
Definition conflicts `{EqDecision A} (previous : option A) (value : A) : bool :=
  match previous with Some p => negb (bool_decide (p = value)) | None => false end.

Definition add_import (tables : GraphTables) (import : ImportContract)
    : result ArtifactError GraphTables :=
  let target := import_target import in
  let graph := graph_edge (im_importer import) target (gt_graph tables) in
  let alias := (im_importer import, im_alias import) in
  if conflicts (gt_aliases tables !! alias) target
  then Err (noncanonical "one package import alias cannot name two package identities")
  else if conflicts (gt_digests tables !! target) (im_content_digest import)
  then Err (noncanonical "one imported package identity cannot have two content digests")
  else Ok {| gt_graph := graph; gt_aliases := <[alias := target]> (gt_aliases tables);
             gt_digests := <[target := im_content_digest import]> (gt_digests tables) |}.

Definition import_graph (root : string) (imports : list ImportContract)
    : result ArtifactError PackageGraph :=
  let? tables := try_fold add_import
    {| gt_graph := graph_node root ∅; gt_aliases := ∅; gt_digests := ∅ |} imports in
  Ok (gt_graph tables).

(** ** Reachable packages *)

Definition discover (state : list string * gset string) (target : string)
    : list string * gset string :=
  if decide (target ∈ state.2) then state else (target :: state.1, {[target]} ∪ state.2).

(** [pending] is a stack. *)
Fixpoint reach (fuel : nat) (graph : PackageGraph) (pending : list string)
    (reachable : gset string) : option (gset string) :=
  match pending, fuel with
  | [], _ => Some reachable
  | _ :: _, O => None
  | package :: pending, S fuel =>
    let '(pending, reachable) :=
      fold_left discover (rev (targets_of graph package)) (pending, reachable) in
    reach fuel graph pending reachable
  end.

(** ** Kahn's algorithm *)

Definition count_edge (indegree : gmap string Z) (target : string)
    : result ArtifactError (gmap string Z) :=
  match indegree !! target with
  | None => Err (noncanonical "import graph target is invalid")
  | Some value =>
    let? value := ok_or (u64_checked_add value 1) (noncanonical "import graph is too large") in
    Ok (<[target := value]> indegree)
  end.
Definition count_importer (graph : PackageGraph) (reachable : gset string)
    (indegree : gmap string Z) (importer : string) : result ArtifactError (gmap string Z) :=
  if decide (importer ∈ reachable)
  then try_fold count_edge indegree (targets_of graph importer) else Ok indegree.
Definition indegrees (graph : PackageGraph) (reachable : gset string)
    : result ArtifactError (gmap string Z) :=
  try_fold (count_importer graph reachable)
    (set_to_map (λ package, (package, 0)) reachable) (btree_keys graph).

(** [None] is a panic: the degree would underflow. *)
Definition release (state : list string * gmap string Z) (target : string)
    : option (result ArtifactError (list string * gmap string Z)) :=
  match state.2 !! target with
  | None => Some (Err (noncanonical "import graph target is invalid"))
  | Some degree =>
    if degree =? 0 then None
    else
      let indegree := <[target := degree - 1]> state.2 in
      Some (Ok (if degree - 1 =? 0 then (target :: state.1, indegree) else (state.1, indegree)))
  end.
Fixpoint release_all (state : list string * gmap string Z) (targets : list string)
    : option (result ArtifactError (list string * gmap string Z)) :=
  match targets with
  | [] => Some (Ok state)
  | target :: rest => let* state := release state target in release_all state rest
  end.
(** [ready] is a stack; the packages visited are counted. *)
Fixpoint kahn (fuel : nat) (graph : PackageGraph) (ready : list string) (indegree : gmap string Z)
    (visited : nat) : option (result ArtifactError nat) :=
  match ready, fuel with
  | [], _ => Some (Ok visited)
  | _ :: _, O => None
  | package :: ready, S fuel =>
    let* state := release_all (ready, indegree) (targets_of graph package) in
    kahn fuel graph state.1 state.2 (S visited)
  end.

(** The packages with no importer, the last in order on top. *)
Definition initial_ready (indegree : gmap string Z) : list string :=
  reverse (filter (λ package, indegree !! package = Some 0) (btree_keys indegree)).

(** The reachable packages of an acyclic graph. *)
Definition validate_package_graph (graph : PackageGraph) (root : string)
    : option (result ArtifactError (gset string)) :=
  match reach (S (size graph)) graph [root] {[root]} with
  | None => None
  | Some reachable =>
    if existsb (λ package, negb (bool_decide (package ∈ reachable))) (btree_keys graph)
    then Some (Err (noncanonical "import contract package graph contains an unreachable package"))
    else
      let* indegree := Some (indegrees graph reachable) in
      let* visited := kahn (S (size indegree)) graph (initial_ready indegree) indegree 0 in
      if negb (visited =? size reachable)%nat
      then Some (Err (noncanonical "import contract package graph contains a cycle"))
      else Some (Ok reachable)
  end.

(** ** The names of an artifact belong to reachable packages *)

Section Contract.
Context `{Semver}.

Definition check (b : bool) (message : string) : result ArtifactError unit :=
if b then Ok tt else Err (noncanonical message).

Definition check_entry_symbol (module : Module_) (root_prefix : string) (entry : EntryContract)
  : result ArtifactError unit :=
match functions module !! en_function entry with
| None => Err (noncanonical "entry contract function is out of range")
| Some function =>
  check (starts_with root_prefix (fn_name function))
    "entry contract function does not belong to the manifest package"
end.

Definition check_template_package (reachable : gset string) (template : TemplateResource)
  : result ArtifactError unit :=
match strip_prefix "pkg://" (tr_identity template) with
| None => Err (noncanonical "template identity is malformed")
| Some rest =>
  match split_once "/templates/" rest with
  | None => Err (noncanonical "template identity is malformed")
  | Some (package, _) =>
    check (bool_decide (package ∈ reachable))
      "template resource package is not reachable from the manifest package"
  end
end.

Definition artifact_uses_agent_transcript (module : Module_) : bool :=
existsb (λ function, existsb (λ i, match i with
                                   | EffectCall _ AgentTranscript _ => true
                                   | _ => false
                                   end) (fn_code function)) (functions module).

Definition check_enum_package (module : Module_) (reachable : gset string) (enum_type : EnumType)
  : result ArtifactError unit :=
if artifact_uses_agent_transcript module && bool_decide (enum_type = transcript_part_enum_type)
then Ok tt
else
  match rsplit_once "::" (et_name enum_type) with
  | None => Err (noncanonical "nominal enum identity does not name a package module")
  | Some (module, type_name) =>
    try? check (Names.is_type_identifier type_name)
           "nominal enum type name is not a canonical source identifier" in
    match strip_prefix "pkg://" module with
    | None => Err (noncanonical "nominal enum identity does not name a package module")
    | Some rest =>
      match split_once "/" rest with
      | None => Err (noncanonical "nominal enum package identity is malformed")
      | Some (package, path) =>
        check (bool_decide (package ∈ reachable) && Names.is_package_module_path path)
          "nominal enum package is not reachable from the manifest package"
      end
    end
  end.

Definition check_debug_package (reachable : gset string) (source : string)
  : result ArtifactError unit :=
match strip_prefix "pkg://" source with
| None => Err (noncanonical "debug source must use a package identity")
| Some rest =>
  match split_once "/" rest with
  | None => Err (noncanonical "debug source is malformed")
  | Some (package, path) =>
    check (bool_decide (package ∈ reachable) && Names.is_package_module_path path)
      "debug source package is not reachable from the manifest package"
  end
end.

(** [schemas[..index].iter().any(|previous| previous == schema)] for some index. *)
Fixpoint has_duplicate (types : list ValueType) : bool :=
match types with
| [] => false
| t :: rest => bool_decide (t ∈ rest) || has_duplicate rest
end.

Definition validate_contract_graph (artifact : Artifact) (manifest : ManifestContract)
  : option (result ArtifactError unit) :=
let module := module_ artifact in
let root := mc_package manifest ++ "@" ++ mc_version manifest in
let* graph := Some (import_graph root (imports artifact)) in
let* reachable := validate_package_graph graph root in
Some (
  let? prefixes := collect Names.package_symbol_prefix (btree_set reachable) in
  let? root_prefix := Names.package_symbol_prefix root in
  try? for_each (check_entry_symbol module root_prefix) (entries artifact) in
  try? check (forallb (λ function, existsb (λ prefix, starts_with prefix (fn_name function)) prefixes)
                (functions module))
         "executable package symbol is not reachable from the manifest package" in
  try? for_each (check_template_package reachable) (templates artifact) in
  try? for_each (check_enum_package module reachable) (enum_types module) in
  try? check (negb (has_duplicate (map ss_value_type (schemas artifact))))
         "schema contracts must be unique" in
  match debug artifact with
  | Some debug => for_each (check_debug_package reachable) (dbg_sources debug)
  | None => Ok tt
  end).
End Contract.
