(* ===== verification/ArtifactChecks.v ===== *)
(** * The checks of an artifact

    [validate_encode_model] of [crates/allen-bytecode/src/artifact.rs] and the checks
    it consists of: entries, contract identities, tools, templates, record
    invariants and their sites, sorted tables and limits; the checks of debug
    information and of the cost of verification.  [None] is a panic or an exhausted
    fuel. *)

From S2P Require Import Prelude Text Bytecode VerifierTypes Verifier ArtifactBytes.
From S2P Require Import ArtifactModel ArtifactCodec ArtifactSections ArtifactNames.
From S2P Require Import ArtifactDigest ArtifactGraph.
Open Scope string_scope.
Open Scope Z_scope.

(** ** [slice::binary_search_by] *)

Section BinarySearch.
Context {A : Type} (compare : A → comparison) (l : list A).
(** [size] elements from [base] on are left; every step halves them. *)
Fixpoint search_base (fuel size base : nat) : nat :=
match fuel with
| O => base
| S fuel =>
  if (1 <? size)%nat then
    let half := (size / 2)%nat in
    let mid := (base + half)%nat in
    let base := match option_map compare (l !! mid) with Some Gt => base | _ => mid end in
    search_base fuel (size - half) base
  else base
end.
Definition binary_search_by : option nat :=
let base := search_base (length l) (length l) 0 in
match l !! base with
| Some x => match compare x with Eq => Some base | _ => None end
| None => None
end.
End BinarySearch.
Definition binary_search (x : string) (l : list string) : option nat :=
  binary_search_by (λ y, str_compare y x) l.
Definition searched (x : string) (l : list string) : bool :=
  match binary_search x l with Some _ => true | None => false end.

(** [windows(2).all(|pair| pair[0] < pair[1])] on the strings of a table. *)
Definition sorted_by {A} (f : A → string) (l : list A) : bool := negb (unsorted (map f l)).

(** ** Limits of the model *)

Definition operand_limit : string := "operands".
Definition instruction_operand_count (i : Instruction) : result ArtifactError Z :=
  let len {A} (l : list A) := Z.of_nat (length l) in
  let twice {A} (l : list A) := ok_or (u64_checked_mul (len l) 2) (limit operand_limit) in
  match i with
  | ListNew _ l | TupleNew _ l | EnumNew _ _ l | DirectCall _ _ l | AsyncCall _ _ l
  | ClosureNew _ _ l | ClosureCall _ _ l | StringCall _ _ l | StandardCall _ _ l
  | CapabilityInspect _ _ l | SafeCollectionCall _ _ l | CheckedIntCall _ _ l
  | CollectionCall _ _ l | TemplateRender _ _ l => Ok (len l)
  | ListLiteralBuild _ items => Ok (len items)
  | ListCombinator_ _ _ _ initial _ _ => Ok (match initial with Some _ => 5 | None => 4 end)
  | TryOption _ _ | RangeNew _ _ _ _ | SequenceMap _ _ _ | SequenceFilter _ _ _
  | SequenceFind _ _ _ | SequenceAny _ _ _ | SequenceAll _ _ _ | SequenceTake _ _ _ => Ok 2
  | RangeStart _ _ | RangeEnd _ _ | RangeInclusive _ _ | SequenceFromList _ _
  | SequenceToList _ _ => Ok 1
  | MapNew _ entries => twice entries
  | MapLiteralBuild _ items =>
    try_total operand_limit (λ item, Ok (match item with MEntry _ _ => 2 | MSpread _ => 1 end)) 0 items
  | SliceGet _ _ _ _ | SequenceFold _ _ _ _ => Ok 3
  | RecordNew _ fields => twice fields
  | SwitchEnum _ arms =>
    let? total := twice arms in
    try_total operand_limit (λ arm, Ok (len (arm_bindings arm))) total arms
  | _ => Ok 0
  end.

Definition artifact_value_types (artifact : Artifact) : list ValueType :=
  (flat_map enum_type_types (enum_types (module_ artifact))
   ++ flat_map function_types (functions (module_ artifact)))%list.

(** Newtypes and sequences are not entered. *)
Definition depth_children (t : ValueType) : list ValueType :=
  match t with
  | TList value | TOption value | TFuture value | TTask value => [value]
  | TMap a b | TResult a b => [a; b]
  | TTuple elements => elements
  | TRecord fields => map snd fields
  | TFunction parameters return_type _ => (parameters ++ [return_type])%list
  | _ => []
  end.
Fixpoint type_nodes (t : ValueType) : nat :=
  S match t with
    | TList e | TOption e | TFuture e | TTask e | TSequence e | TNewtype _ e => type_nodes e
    | TMap a b | TResult a b => type_nodes a + type_nodes b
    | TTuple elements => list_sum (map type_nodes elements)
    | TRecord fields => list_sum (map (λ field : RecordField, type_nodes field.2) fields)
    | TFunction parameters return_type _ =>
      list_sum (map type_nodes parameters) + type_nodes return_type
    | _ => 0
    end.
(** The stack of [validate_type_depth]; its last element is on top. *)
Fixpoint depth_loop (fuel : nat) (maximum : Z) (pending : list (ValueType * Z))
    : option (result ArtifactError unit) :=
  match pending, fuel with
  | [], _ => Some (Ok tt)
  | _ :: _, O => None
  | (value, depth) :: pending, S fuel =>
    if maximum <? depth then Some (Err (limit "type depth"))
    else
      let* next := Some (ok_or (u64_checked_add depth 1) (limit "type depth")) in
      depth_loop fuel maximum (rev (map (λ child, (child, next)) (depth_children value)) ++ pending)%list
  end.
Definition validate_type_depth (maximum : Z) (t : ValueType) : option (result ArtifactError unit) :=
  depth_loop (type_nodes t) maximum [(t, 0)].

Fixpoint for_each_opt {A} (f : A → option (result ArtifactError unit)) (l : list A)
    : option (result ArtifactError unit) :=
  match l with
  | [] => Some (Ok tt)
  | x :: rest => try* f x in for_each_opt f rest
  end.

(** ** Debug information *)

Definition debug_error (message : string) : ArtifactError := ArtifactError_new InvalidDebug message.

Section Debug.
Context `{Semver}.

Fixpoint validate_locations (previous : option (nat * nat)) (locations : list DebugLocation)
  : result ArtifactError unit :=
match locations with
| [] => Ok tt
| location :: rest =>
  let key := (dl_function location, dl_instruction location) in
  let after := match previous with
               | Some (f, i) => (f <? key.1)%nat || ((f =? key.1)%nat && (i <? key.2)%nat)
               | None => true
               end in
  if negb after
  then Err (debug_error "debug locations must be unique and sorted by function and instruction")
  else if dl_end location <? dl_start location
  then Err (debug_error "debug source span start exceeds its end")
  else validate_locations (Some key) rest
end.
Definition validate_debug_shape (debug : option DebugInfo) : result ArtifactError unit :=
match debug with
| None => Ok tt
| Some debug =>
  if unsorted (dbg_sources debug)
  then Err (debug_error "debug source paths must be unique and sorted by UTF-8 bytes")
  else if existsb (λ source, negb (Names.is_normalized_source_path source
                                   || Names.is_pkg_source source)) (dbg_sources debug)
  then Err (debug_error "debug source path is not normalized and relative")
  else validate_locations None (dbg_locations debug)
end.
End Debug.

Definition validate_location_reference (module : Module_) (debug : DebugInfo)
    (location : DebugLocation) : result ArtifactError unit :=
  match functions module !! dl_function location with
  | None => Err (debug_error "debug location function is out of range")
  | Some function =>
    if (length (fn_code function) <=? dl_instruction location)%nat
    then Err (debug_error "debug location instruction is out of range")
    else if (length (dbg_sources debug) <=? dl_source location)%nat
    then Err (debug_error "debug location source is out of range")
    else Ok tt
  end.
Definition validate_debug_references (module : Module_) (debug : option DebugInfo)
    : result ArtifactError unit :=
  match debug with
  | None => Ok tt
  | Some debug => for_each (validate_location_reference module debug) (dbg_locations debug)
  end.

(** ** Tables of a decoded artifact *)

Definition validate_canonical_effect_sets (effect_sets : list (list string))
    : result ArtifactError unit :=
  if windows2_any (λ a b, match effect_set_compare a b with Lt => false | _ => true end) effect_sets
  then Err (noncanonical "effect-set table must be unique and sorted lexicographically")
  else
    for_each (λ effects,
      if unsorted effects then Err (noncanonical "effects must be unique and sorted by UTF-8 bytes")
      else Ok tt) effect_sets.

Definition validate_string_table (artifact : Artifact) (actual : list string)
    : result ArtifactError unit :=
  if bool_decide (collect_strings artifact = actual) then Ok tt
  else Err (noncanonical "string table contains an unused string or omits a used string").

(** ** The cost of verification *)

Definition checked_sum (a b : option Z) : option Z := x ← a; y ← b; u64_checked_add x y.
Definition checked_product (a b : option Z) : option Z := x ← a; y ← b; u64_checked_mul x y.

Definition successors_count (i : Instruction) : Z :=
  match i with
  | Return_ _ | Stop _ | Fail_ _ => 0
  | BranchBool _ _ _ => 2
  | SwitchEnum _ arms => Z.of_nat (length arms)
  | _ => 1
  end.

Definition function_state_bytes (function : Function) : option Z :=
  let registers := Some (Z.of_nat (length (fn_registers function))) in
  let code := Some (Z.of_nat (length (fn_code function))) in
  let scopes := Some (Z.of_nat (length (List.filter (λ i, match i with
                                                          | TaskScopeEnter _ => true
                                                          | _ => false
                                                          end) (fn_code function)))) in
  let initialization := option_map (λ bits, bits / 8) (checked_sum registers (Some 7)) in
  let ownership :=
    checked_sum (checked_sum (checked_product registers (Some 16)) (checked_product scopes (Some 4)))
      (Some 64) in
  let state :=
    checked_sum (checked_product (checked_sum initialization ownership) code)
      (checked_product code (Some 8)) in
  let sub_agent :=
    if existsb contains_stored_sub_agent (fn_registers function) then
      checked_product
        (checked_sum (checked_sum (checked_product registers (Some 16))
                        (checked_product scopes (Some 8))) (Some 64))
        (checked_sum code (Some 2))
    else Some 0 in
  let edges := fold_left (λ total i, checked_sum total (Some (successors_count i)))
                 (fn_code function) (Some 0) in
  let dominators :=
    checked_sum (checked_product code (Some 192)) (checked_product edges (Some 24)) in
  checked_sum (checked_sum state sub_agent) dominators.

Definition validate_verifier_complexity (module : Module_) (limits : DecodeLimits)
    : result ArtifactError unit :=
  let? _ := try_fold (λ total function,
    let? total := ok_or (checked_sum (Some total) (function_state_bytes function))
                    (limit "verifier state bytes") in
    if verifier_state_bytes limits <? total then Err (limit "verifier state bytes") else Ok total)
    0 (functions module) in
  Ok tt.

(** ** Record invariants *)

Fixpoint validator_scalar_type (t : ValueType) : bool :=
  match t with
  | TBool | TInt | TFloat | TString | TBytes => true
  | TNewtype _ underlying => validator_scalar_type underlying
  | _ => false
  end.

Definition ordering_comparison (operation : CompareOp) : bool :=
  match operation with
  | Less | LessEqual | Greater | GreaterEqual => true
  | Equal | NotEqual => false
  end.

(** The type of an expression and the nodes visited so far. *)
Fixpoint validator_expr_type (definition : RecordInvariantDefinition) (expression : ValidatorExpr)
    (nodes : Z) : result ArtifactError (ValueType * Z) :=
  let nodes := nodes + 1 in
  if 256 <? nodes then Err (noncanonical "record invariant exceeds 256 AST nodes")
  else
    match expression with
    | VBool_ _ => Ok (TBool, nodes)
    | VField field value_type =>
      match ri_fields definition !! field with
      | None => Err (noncanonical "validator field is out of range")
      | Some expected =>
        if negb (bool_decide (expected.2 = value_type)) || negb (validator_scalar_type value_type)
        then Err (noncanonical "validator field type is invalid")
        else Ok (value_type, nodes)
      end
    | VNot value =>
      let? v := validator_expr_type definition value nodes in
      if negb (bool_decide (v.1 = TBool)) then Err (noncanonical "validator not operand is not Bool")
      else Ok (TBool, v.2)
    | VBoolBinary _ l r =>
      let? a := validator_expr_type definition l nodes in
      if negb (bool_decide (a.1 = TBool))
      then Err (noncanonical "validator boolean operands are not Bool")
      else
        let? b := validator_expr_type definition r a.2 in
        if negb (bool_decide (b.1 = TBool))
        then Err (noncanonical "validator boolean operands are not Bool")
        else Ok (TBool, b.2)
    | VCompare operation l r =>
      let? a := validator_expr_type definition l nodes in
      let? b := validator_expr_type definition r a.2 in
      if negb (bool_decide (a.1 = b.1)) || negb (validator_scalar_type a.1)
         || (ordering_comparison operation && negb (is_ordered a.1))
      then Err (noncanonical "validator comparison types are invalid")
      else Ok (TBool, b.2)
    end.

Definition Path : Type := list EntryValidatorPathSegment.
(** The parts of a type with the segments that lead to them; an index that is not
    representable is an error when its part is reached. *)
Definition Part : Type := result ArtifactError Path * ValueType.
Definition index_u32 (index : nat) (resource : string) : result ArtifactError nat :=
  if u32_max <? Z.of_nat index then Err (limit resource) else Ok index.
Definition indexed_parts (segment : nat → result ArtifactError EntryValidatorPathSegment)
    (types : list ValueType) : list Part :=
  zip_with (λ index t, (let? s := segment index in Ok [s], t)) (seq 0 (length types)) types.
Definition variant_parts (variant_index : nat) (variant : EnumVariant) : list Part :=
  indexed_parts (λ element,
    let? v := index_u32 variant_index "enum variant table" in
    let? e := index_u32 element "enum payload table" in
    Ok (SegEnumPayload v e)) (payload_types (ev_payload variant)).
Definition enum_parts (enumeration : EnumType) : list Part :=
  concat (zip_with variant_parts (seq 0 (length (et_variants enumeration))) (et_variants enumeration)).
Definition type_parts (t : ValueType) : list Part :=
  match t with
  | TRecord fields =>
    indexed_parts (λ i, let? i := index_u32 i "record field table" in Ok (SegField i)) (map snd fields)
  | TList value => [(Ok [SegListElement], value)]
  | TMap key value => [(Ok [SegMapKey], key); (Ok [SegMapValue], value)]
  | TTuple values =>
    indexed_parts (λ i, let? i := index_u32 i "tuple element table" in Ok (SegTupleElement i)) values
  | TNewtype _ underlying => [(Ok [SegNewtypeValue], underlying)]
  | TOption value => [(Ok [SegOptionSome], value)]
  | TResult ok error => [(Ok [SegResultOk], ok); (Ok [SegResultError], error)]
  | TFuture value | TTask value | TSequence value => [(Ok [], value)]
  | TFunction parameters return_type _ =>
    (map (λ p, (Ok [], p)) parameters ++ [(Ok [], return_type)])%list
  | _ => []
  end.

Section RecordPaths.
Variable enums : list EnumType.

(** The parts in order, each with the paths found in it. *)
Fixpoint each_part (walk : Path → ValueType → option (result ArtifactError (list Path)))
  (path : Path) (parts : list Part) : option (result ArtifactError (list Path)) :=
match parts with
| [] => Some (Ok [])
| (segments, t) :: rest =>
  let* segments := Some segments in
  let* found := walk (path ++ segments)%list t in
  let* others := each_part walk path rest in
  Some (Ok (found ++ others)%list)
end.

Fixpoint collect_record_paths (fuel : nat) (active : list EnumTypeId) (path : Path) (t : ValueType)
  : option (result ArtifactError (list Path)) :=
match fuel with
| O => None
| S fuel =>
  match t with
  | TEnum id =>
    if bool_decide (id ∈ active)
    then Some (Err (noncanonical "recursive enum types are not supported"))
    else
      match enums !! id with
      | None => Some (Err (noncanonical "entry schema enum is out of range"))
      | Some enumeration =>
        each_part (collect_record_paths fuel (id :: active)) path (enum_parts enumeration)
      end
  | _ =>
    let* found := each_part (collect_record_paths fuel active) path (type_parts t) in
    Some (Ok (match t with TRecord _ => path :: found | _ => found end))
  end
end.

(** Enough for a type that enters every enum once. *)
Definition record_path_fuel (t : ValueType) : nat :=
S (type_nodes t + list_sum (map (λ e, S (list_sum (map type_nodes (enum_type_types e)))) enums)).
Definition record_paths (t : ValueType) : option (result ArtifactError (list Path)) :=
collect_record_paths (record_path_fuel t) [] [] t.

Definition path_step (segment : EntryValidatorPathSegment) (current : ValueType)
  : option ValueType :=
match segment, current with
| SegField index, TRecord fields => option_map snd (fields !! index)
| SegListElement, TList value => Some value
| SegMapKey, TMap key _ => Some key
| SegMapValue, TMap _ value => Some value
| SegTupleElement index, TTuple values => values !! index
| SegOptionSome, TOption value => Some value
| SegResultOk, TResult value _ => Some value
| SegResultError, TResult _ value => Some value
| SegNewtypeValue, TNewtype _ underlying => Some underlying
| SegEnumPayload variant element, TEnum id =>
  enumeration ← enums !! id;
  v ← et_variants enumeration !! variant;
  match ev_payload v with
  | PTUnit => None
  | PTTuple values => values !! element
  | PTRecord fields => option_map snd (fields !! element)
  end
| _, _ => None
end.
Fixpoint validator_path_type (current : ValueType) (path : Path) : result ArtifactError ValueType :=
match path with
| [] => Ok current
| segment :: rest =>
  let? next := ok_or (path_step segment current) (noncanonical "entry validator path is invalid") in
  validator_path_type next rest
end.
End RecordPaths.

(** [derive(Ord)] on segments, paths and sites. *)
Definition segment_rank (s : EntryValidatorPathSegment) : nat :=
  match s with
  | SegField _ => 0 | SegListElement => 1 | SegMapKey => 2 | SegMapValue => 3
  | SegTupleElement _ => 4 | SegOptionSome => 5 | SegResultOk => 6 | SegResultError => 7
  | SegEnumPayload _ _ => 8 | SegNewtypeValue => 9
  end.
Definition segment_compare (s t : EntryValidatorPathSegment) : comparison :=
  match s, t with
  | SegField i, SegField j | SegTupleElement i, SegTupleElement j => Nat.compare i j
  | SegEnumPayload v e, SegEnumPayload w f =>
    match Nat.compare v w with Eq => Nat.compare e f | c => c end
  | _, _ => Nat.compare (segment_rank s) (segment_rank t)
  end.
Fixpoint path_compare (s t : Path) : comparison :=
  match s, t with
  | [], [] => Eq
  | [], _ => Lt
  | _, [] => Gt
  | x :: s', y :: t' => match segment_compare x y with Eq => path_compare s' t' | c => c end
  end.
Definition site_ltb (a b : EntryValidatorSite) : bool :=
  match path_compare (site_path a) (site_path b) with
  | Lt => true
  | Eq => (site_invariant a <? site_invariant b)%nat
  | Gt => false
  end.

Section Sites.
Context `{Semver} (artifact : Artifact).

Definition required_site (record : EntryRecordProvenance)
  : result ArtifactError (list EntryValidatorSite) :=
match rp_identity record with
| None => Ok []
| Some name =>
  if negb (Names.is_record_invariant_identity name)
  then Err (noncanonical "entry record provenance identity is invalid")
  else
    match binary_search_by (λ d, str_compare (ri_identity d) name) (record_invariants artifact) with
    | Some invariant =>
      let? invariant := index_u32 invariant "record invariant table" in
      Ok [{| site_path := rp_path record; site_invariant := invariant |}]
    | None => Ok []
    end
end.
Definition check_site (schema : StrictSchema) (site : EntryValidatorSite)
  : result ArtifactError unit :=
match record_invariants artifact !! site_invariant site with
| None => Err (noncanonical "entry validator invariant is out of range")
| Some definition =>
  let? target := validator_path_type (enum_types (module_ artifact)) (ss_value_type schema)
                   (site_path site) in
  check (bool_decide (target = TRecord (ri_fields definition)))
    "entry validator path target type is invalid"
end.
Definition validate_entry_validator_sites (sites : list EntryValidatorSite)
  (provenance : list EntryRecordProvenance) (schema : StrictSchema) (digest : list Z)
  : option (result ArtifactError unit) :=
let* paths := record_paths (enum_types (module_ artifact)) (ss_value_type schema) in
Some (
  try? check (bool_decide (map rp_path provenance = paths))
         "entry record provenance must cover every structural record path" in
  let? required := collect required_site provenance in
  try? check (negb (windows2_any (λ a b, negb (site_ltb a b)) sites))
         "entry validator sites must be unique and sorted" in
  try? check (bool_decide (sites = concat required))
         "entry validator sites do not match nominal boundary provenance" in
  try? for_each (check_site schema) sites in
  check (bool_decide (digest = compute_entry_contract_digest schema sites (record_invariants artifact)))
    "entry validator contract digest is invalid").

Definition validate_invariant (definition : RecordInvariantDefinition) : result ArtifactError unit :=
try? check (Names.is_record_invariant_identity (ri_identity definition))
       "record invariant identity is invalid" in
try? check (sorted_by fst (ri_fields definition)) "record invariant definition is not canonical" in
let? r := validator_expr_type definition (ri_predicate definition) 0 in
check (bool_decide (r.1 = TBool) && (r.2 <=? 256)) "record invariant predicate must be bounded Bool".

(** A schema that is out of range panics. *)
Definition validate_entry_sites (entry : EntryContract) : option (result ArtifactError unit) :=
match schemas artifact !! en_input_schema entry, schemas artifact !! en_output_schema entry with
| Some input, Some output =>
  try* validate_entry_validator_sites (en_input_validators entry)
         (en_input_record_provenance entry) input (en_input_contract_digest entry) in
  validate_entry_validator_sites (en_output_validators entry)
    (en_output_record_provenance entry) output (en_output_contract_digest entry)
| _, _ => None
end.
Definition validate_record_invariants : option (result ArtifactError unit) :=
try* Some (check (sorted_by ri_identity (record_invariants artifact))
             "record invariant identities must be unique and sorted") in
try* Some (for_each validate_invariant (record_invariants artifact)) in
for_each_opt validate_entry_sites (entries artifact).
End Sites.

(** The provenance that the compiler stores, from its sites. *)
Definition record_provenance (sites : list EntryValidatorSite)
    (definitions : list RecordInvariantDefinition) (path : Path)
    : result ArtifactError EntryRecordProvenance :=
  match List.find (λ site, bool_decide (site_path site = path)) sites with
  | None => Ok {| rp_path := path; rp_identity := None |}
  | Some site =>
    let? definition := ok_or (definitions !! site_invariant site)
                         (noncanonical "entry validator invariant is out of range") in
    Ok {| rp_path := path; rp_identity := Some (ri_identity definition) |}
  end.
Definition compute_entry_record_provenance (schema : StrictSchema) (enums : list EnumType)
    (sites : list EntryValidatorSite) (definitions : list RecordInvariantDefinition)
    : option (result ArtifactError (list EntryRecordProvenance)) :=
  let* paths := record_paths enums (ss_value_type schema) in
  Some (collect (record_provenance sites definitions) paths).

(** ** Templates *)

(** The bytes from a cursor on; [None] when no pair is left. *)
Definition pair_at (bs : list Z) (cursor : nat) : option (Z * Z) :=
  a ← bs !! cursor; b ← bs !! S cursor; Some (a, b).

(** The end of the hole that starts at the cursor. *)
Fixpoint find_hole_end (fuel : nat) (bs : list Z) (cursor : nat)
    : result ArtifactError (option nat) :=
  match fuel, pair_at bs cursor with
  | S fuel, Some (a, b) =>
    if (a =? 125) && (b =? 125) then Ok (Some cursor)
    else if (a =? 123) && (b =? 123)
    then Err (noncanonical "template contains a nested or malformed marker")
    else find_hole_end fuel bs (S cursor)
  | _, _ => Ok None
  end.

(** One marker whose braces start at the cursor. *)
Definition read_template_marker (bs : list Z) (holes : list TemplateHole) (marker_start : nat)
    : result ArtifactError TemplateMarker :=
  let hole_start := (marker_start + 2)%nat in
  let? found := find_hole_end (length bs) bs hole_start in
  let? hole_end := ok_or found (noncanonical "template contains an unmatched '{{' marker") in
  let hole := string_of_bytes (take (hole_end - hole_start) (drop hole_start bs)) in
  if negb (Names.is_source_identifier hole)
  then Err (noncanonical "template marker is not a source identifier")
  else
    let? index := ok_or (binary_search_by (λ candidate, str_compare (th_name candidate) hole) holes)
                    (noncanonical "template content uses an undeclared hole") in
    let marker_end := (hole_end + 2)%nat in
    let? s := index_u32 marker_start "template marker" in
    let? e := index_u32 marker_end "template marker" in
    let? h := index_u32 index "template marker" in
    Ok {| tm_start := Z.of_nat s; tm_end := Z.of_nat e; tm_hole := h |}.

(** Every step moves the cursor, so that the length is fuel enough. *)
Fixpoint scan_markers (fuel : nat) (bs : list Z) (holes : list TemplateHole) (cursor : nat)
    : result ArtifactError (list TemplateMarker) :=
  match fuel, pair_at bs cursor with
  | S fuel, Some (a, b) =>
    if (a =? 123) && (b =? 123) then
      let? marker := read_template_marker bs holes cursor in
      let? rest := scan_markers fuel bs holes (Z.to_nat (tm_end marker)) in
      Ok (marker :: rest)
    else if (a =? 125) && (b =? 125)
    then Err (noncanonical "template contains an unmatched '}}' marker")
    else scan_markers fuel bs holes (S cursor)
  | _, _ => Ok []
  end.
Definition all_holes_used (holes : list TemplateHole) (markers : list TemplateMarker) : bool :=
  forallb (λ hole, existsb (λ m, (tm_hole m =? hole)%nat) markers) (seq 0 (length holes)).
Definition derive_template_markers (content : string) (holes : list TemplateHole)
    : result ArtifactError (list TemplateMarker) :=
  let? markers := scan_markers (length (bytes content)) (bytes content) holes 0 in
  if all_holes_used holes markers then Ok markers
  else Err (noncanonical "template declares an unused hole").

Definition slice (bs : list Z) (start end_ : Z) : list Z :=
  take (Z.to_nat (end_ - start)) (drop (Z.to_nat start) bs).
Fixpoint check_markers (bs : list Z) (holes : list TemplateHole) (previous_end : Z)
    (markers : list TemplateMarker) : result ArtifactError unit :=
  match markers with
  | [] => Ok tt
  | marker :: rest =>
    match holes !! tm_hole marker with
    | None => Err (noncanonical "template marker hole is out of range")
    | Some hole =>
      let expected := ([123; 123] ++ bytes (th_name hole) ++ [125; 125])%list in
      if (tm_start marker <? previous_end) || (tm_end marker <=? tm_start marker)
         || (Z.of_nat (length bs) <? tm_end marker)
         || negb (bytes_eqb (slice bs (tm_start marker) (tm_end marker)) expected)
      then Err (noncanonical "template markers must be ordered whole markers")
      else check_markers bs holes (tm_end marker) rest
    end
  end.

#[export] Instance TemplateMarker_eq_dec : EqDecision TemplateMarker.
Proof. solve_decision. Defined.

Section Templates.
Context `{Semver}.
Definition validate_template (template : TemplateResource) : result ArtifactError unit :=
try? check (Names.is_template_identity (tr_identity template)
            && (str_len (tr_content template) <=? 1048576))
       "template identity or content is invalid" in
try? check (sorted_by th_name (tr_holes template)
            && forallb (λ hole, Names.is_source_identifier (th_name hole)
                                && match template_scalar_name (th_value_type hole) with
                                   | Some _ => true
                                   | None => false
                                   end) (tr_holes template))
       "template hole signatures must be valid, unique, and sorted" in
try? check (bytes_eqb (tr_digest template)
              (compute_template_digest (tr_content template) (tr_holes template)))
       "template content digest does not match its signature" in
let? derived := derive_template_markers (tr_content template) (tr_holes template) in
try? check (bool_decide (derived = tr_markers template))
       "template marker table does not match the content grammar" in
try? check_markers (bytes (tr_content template)) (tr_holes template) 0 (tr_markers template) in
check (all_holes_used (tr_holes template) (tr_markers template))
  "every template hole must have a marker".
Definition validate_templates (templates : list TemplateResource) : result ArtifactError unit :=
try? check (sorted_by tr_identity templates)
       "template identities must be unique and sorted by UTF-8 bytes" in
for_each validate_template templates.
End Templates.

(** ** Tools *)

Section Tools.
Context `{Semver} (artifact : Artifact) (manifest : ManifestContract).

Definition valid_tool (tool : ToolContract) : bool :=
let known (schema : nat) := (schema <? length (schemas artifact))%nat in
Names.is_canonical_tool_name (tc_name tool)
&& Names.is_canonical_tool_version (tc_version tool)
&& Names.is_tool_version_requirement (tc_version_requirement tool)
&& Names.tool_requirement_contains (tc_version_requirement tool) (tc_version tool)
&& is_canonical_effect_id (tc_effect tool) && starts_with "tool." (tc_effect tool)
&& bool_decide (Names.expected_tool_effect (tc_name tool) (tc_version tool) = Some (tc_effect tool))
&& known (tc_input_schema tool) && known (tc_output_schema tool) && known (tc_error_schema tool).

(** A schema of the contract that is out of range panics. *)
Definition check_invocation (function : Function) (effects : list string) (destination tool input : nat)
  : option (result ArtifactError unit) :=
let* contract := Some (ok_or (mc_required_tools manifest !! tool)
                         (noncanonical "tool invocation contract is out of range")) in
let* input_type := Some (ok_or (fn_registers function !! input)
                           (noncanonical "tool invocation input is out of range")) in
let* output_type := Some (ok_or (fn_registers function !! destination)
                            (noncanonical "tool invocation destination is out of range")) in
match schemas artifact !! tc_input_schema contract, schemas artifact !! tc_output_schema contract,
      schemas artifact !! tc_error_schema contract with
| Some expected_input, Some output, Some declared_error =>
  Some (
    match output_type with
    | TFuture (TResult actual_output wrapper) =>
      try? check (bool_decide (actual_output = ss_value_type output)
                  && bool_decide (tool_declared_error_type (module_ artifact) wrapper (tc_name contract)
                                  = Some (ss_value_type declared_error)))
             "tool invocation error wrapper is invalid" in
      check (bool_decide (input_type = ss_value_type expected_input)
             && searched (tc_effect contract) effects)
        "tool invocation does not match its typed contract"
    | TFuture _ => Err (noncanonical "tool invocation result is not Result")
    | _ => Err (noncanonical "tool invocation result is not Future")
    end)
| _, _, _ => None
end.
Definition check_function_tools (function : Function) : option (result ArtifactError unit) :=
match effect_sets (module_ artifact) !! fn_effects function with
| None => Some (Err (noncanonical "function effect set is out of range"))
| Some effects =>
  for_each_opt (λ i,
    match i with
    | ToolInvoke destination tool input => check_invocation function effects destination tool input
    | _ => Some (Ok tt)
    end) (fn_code function)
end.
Definition validate_tools : option (result ArtifactError unit) :=
try* Some (check (bytes_eqb (mc_tool_contract_digest manifest)
                    (compute_tool_contract_digest (mc_required_tools manifest)))
             "tool contract digest does not match required tools") in
try* Some (for_each (λ tool, check (valid_tool tool) "typed tool contract is invalid")
             (mc_required_tools manifest)) in
for_each_opt check_function_tools (functions (module_ artifact)).
End Tools.

(** ** The model of an artifact *)

Definition EXECUTION_LIMITS : list string :=
  ["call_depth"; "cleanup_instructions"; "concurrent_effects"; "effects"; "fs_entries";
   "fs_file_bytes"; "fs_operations"; "fs_read_bytes"; "fs_write_bytes"; "heap_bytes"; "input_bytes";
   "instructions"; "maximum_allocation_bytes"; "output_bytes"; "tasks"; "wall_ms"].
Definition HTTP_LIMITS : list string :=
  ["http_compressed_bytes"; "http_connect_ms"; "http_decoded_bytes"; "http_decompression_ratio";
   "http_dns_addresses"; "http_first_byte_ms"; "http_idle_ms"; "http_redirects"; "http_requests";
   "http_response_header_bytes"; "http_response_headers"; "http_total_ms"].
Definition RESPONSE_LIMITS : list string := ["response_attempts"].

Definition boundary_forbidden (t : ValueType) : bool := negb (is_strict_schema_type t).

Section EncodeModel.
Context `{Semver} (artifact : Artifact) (limits : DecodeLimits) (manifest : ManifestContract).
Local Abbreviation module := (module_ artifact).

Definition check_entry_signature (entry : EntryContract) : result ArtifactError unit :=
let? function := ok_or (functions module !! en_function entry)
                   (noncanonical "entry contract function is out of range") in
let? input := ok_or (schemas artifact !! en_input_schema entry)
                (noncanonical "entry input schema is out of range") in
let? output := ok_or (schemas artifact !! en_output_schema entry)
                 (noncanonical "entry output schema is out of range") in
let input := ss_value_type input in
let output := ss_value_type output in
let parameters := fn_parameters function in
let parameter_type := r ← head parameters; fn_registers function !! r in
check (negb ((1 <? length parameters)%nat
             || ((length parameters =? 0)%nat && negb (bool_decide (input = TUnit)))
             || ((length parameters =? 1)%nat && negb (bool_decide (Some input = parameter_type)))
             || negb (bool_decide (output = fn_return_type function))
             || boundary_forbidden input || boundary_forbidden output))
  "entry contract signature is invalid".

Definition valid_limit (l : string * Z) : bool :=
let known (names : list string) := existsb (String.eqb l.1) names in
negb ((l.2 =? 0) || (String.eqb l.1 "response_attempts" && (3 <? l.2))
      || (negb (known EXECUTION_LIMITS) && negb (known HTTP_LIMITS) && negb (known RESPONSE_LIMITS))).
Definition valid_import (import : ImportContract) : bool :=
Names.is_package_identity (im_importer import) && Names.is_source_identifier (im_alias import)
&& Names.is_package_name (im_package import) && Names.is_canonical_version (im_version import)
&& Names.is_package_module_path (im_module import).
Definition canonical_identities : bool :=
Names.is_package_name (mc_package manifest) && Names.is_canonical_version (mc_version manifest)
&& Names.is_language_requirement (mc_language_requirement manifest)
&& forallb (λ entry, Names.is_source_identifier (en_name entry)) (entries artifact)
&& forallb Names.is_supported_capability
     (mc_required_capabilities manifest ++ mc_optional_capabilities manifest)
&& forallb valid_limit (mc_limits manifest) && forallb valid_import (imports artifact).

Definition manifest_limit (name : string) : option Z :=
option_map snd (List.find (λ l : string * Z, String.eqb l.1 name) (mc_limits manifest)).
Definition allocation_within_heap : bool :=
match manifest_limit "maximum_allocation_bytes", manifest_limit "heap_bytes" with
| Some maximum, Some heap => maximum <=? heap
| _, _ => true
end.

Definition covered_effect (effect : string) : bool :=
String.eqb effect "task.spawn" || String.eqb effect "debug.inspect"
|| String.eqb effect "capability.inspect"
|| searched effect (mc_required_capabilities manifest)
|| searched effect (mc_optional_capabilities manifest)
|| existsb (λ tool, String.eqb (tc_effect tool) effect) (mc_required_tools manifest).
Definition check_entry_effects (entry : EntryContract) : result ArtifactError unit :=
let? function := ok_or (functions module !! en_function entry)
                   (noncanonical "entry contract function is out of range") in
let? effects := ok_or (effect_sets module !! fn_effects function)
                  (noncanonical "entry effect set is out of range") in
check (forallb covered_effect effects) "manifest capabilities do not cover entry effects".

Definition check_response (function : Function) (i : Instruction) : result ArtifactError unit :=
match typed_response_output_type function i with
| None => Ok tt
| Some output =>
  check (is_strict_schema_type output
         && existsb (λ s, bool_decide (ss_value_type s = output)) (schemas artifact))
    "typed response output requires an embedded strict schema"
end.

Definition entry_in_range (entry : EntryContract) : bool :=
(en_function entry <? length (functions module))%nat
&& (en_input_schema entry <? length (schemas artifact))%nat
&& (en_output_schema entry <? length (schemas artifact))%nat.
Definition import_named (import : ImportContract) : bool :=
negb (str_is_empty (im_importer import) || str_is_empty (im_alias import)
      || str_is_empty (im_package import) || str_is_empty (im_version import)
      || str_is_empty (im_module import)).
(** The order of tuples of strings is the order of their lists. *)
Definition import_compare (a b : ImportContract) : comparison :=
effect_set_compare (import_strings a) (import_strings b).
Definition tables_sorted : bool :=
sorted_by en_name (entries artifact)
&& negb (windows2_any (λ a b, match import_compare a b with Lt => false | _ => true end)
           (imports artifact))
&& sorted_by id (mc_required_capabilities manifest)
&& sorted_by id (mc_optional_capabilities manifest)
&& sorted_by fst (mc_limits manifest) && sorted_by id (mc_https_origins manifest)
&& sorted_by id (mc_exec_commands manifest) && sorted_by id (mc_exec_environment manifest)
&& sorted_by tc_name (mc_required_tools manifest).

Definition within {A} (l : list A) (maximum : Z) : bool := Z.of_nat (length l) <=? maximum.
Definition model_tables_within : bool :=
within (constants module) (table_entries limits) && within (enum_types module) (table_entries limits)
&& within (effect_sets module) (table_entries limits)
&& within (functions module) (functions_ limits)
&& within (async_functions module) (functions_ limits)
&& within (templates artifact) (table_entries limits).
Definition check_function_limits (function : Function) : result ArtifactError unit :=
if negb (within (fn_parameters function) (registers_per_function limits)
         && within (fn_captures function) (registers_per_function limits)
         && within (fn_registers function) (registers_per_function limits)
         && within (fn_code function) (instructions_per_function limits))
then Err (limit "function model")
else
  for_each (λ i,
    let? n := instruction_operand_count i in
    if operands_per_instruction limits <? n then Err (limit "operands") else Ok tt)
    (fn_code function).

Definition check_identity : result ArtifactError unit :=
try? check (negb (bool_decide (entries artifact = [])))
       "contract artifacts require entries and a manifest contract" in
try? for_each check_entry_signature (entries artifact) in
try? check canonical_identities "contract identity is not canonical" in
try? check allocation_within_heap "maximum allocation limit exceeds the heap limit" in
try? check (negb (existsb (λ cap, searched cap (mc_optional_capabilities manifest))
                    (mc_required_capabilities manifest)))
       "manifest required and optional capabilities must be disjoint" in
for_each check_entry_effects (entries artifact).
Definition check_environment : result ArtifactError unit :=
try? check (forallb Names.is_canonical_https_origin (mc_https_origins manifest))
       "HTTPS origin is not canonical" in
check (forallb Names.is_canonical_exec_pattern (mc_exec_commands manifest)
       && forallb Names.is_canonical_exec_environment_name (mc_exec_environment manifest))
  "exec contract is not canonical".
Definition check_tables : result ArtifactError unit :=
try? for_each (λ function, for_each (check_response function) (fn_code function))
       (functions module) in
try? check (forallb entry_in_range (entries artifact)) "entry contract reference is out of range" in
try? check (forallb import_named (imports artifact)) "import contract identity is empty" in
try? check tables_sorted "contract tables must be sorted and unique" in
try? (if model_tables_within then Ok tt else Err (limit "artifact model table")) in
try? check (async_in_range (async_functions module) (length (functions module)))
       "async function IDs must be unique, sorted, and in range" in
try? (if existsb (λ c, match c with
                       | CBytes value => string_bytes limits <? Z.of_nat (length value)
                       | _ => false
                       end) (constants module)
      then Err (limit "byte constant bytes") else Ok tt) in
try? for_each check_function_limits (functions module) in
match debug artifact with
| Some d =>
  if within (dbg_sources d) (debug_records limits) && within (dbg_locations d) (debug_records limits)
  then Ok tt else Err (limit "debug records")
| None => Ok tt
end.
End EncodeModel.

Definition validate_encode_model `{Semver} (artifact : Artifact) (limits : DecodeLimits)
    : option (result ArtifactError unit) :=
  let* manifest := Some (ok_or (manifest artifact)
    (noncanonical "artifacts require exactly one manifest contract")) in
  try* Some (check_identity artifact manifest) in
  try* validate_contract_graph artifact manifest in
  try* Some (check_environment manifest) in
  try* validate_tools artifact manifest in
  try* Some (validate_templates (templates artifact)) in
  try* validate_record_invariants artifact in
  try* Some (check_tables artifact limits manifest) in
  for_each_opt (validate_type_depth (type_depth limits)) (artifact_value_types artifact).
