(* ===== verification/Artifact.v ===== *)
(** * Artifacts: encoding, decoding and verification

    [encode_with_limits], [decode] and [decode_and_verify] of
    [crates/allen-bytecode/src/artifact.rs].  [None] is a panic. *)

From S2P Require Import Prelude Text Bytecode VerifierTypes VerifierModule ArtifactBytes.
From S2P Require Import ArtifactModel ArtifactCodec ArtifactSections ArtifactNames.
From S2P Require Import ArtifactChecks.
Open Scope string_scope.
Open Scope Z_scope.

(** ** Encoding *)

Definition decimal (n : Z) : string := string_of_bytes (decimal_bytes n).
Definition version_text (v : SemanticVersion) : string :=
  decimal (sv_major v) ++ "." ++ decimal (sv_minor v) ++ "." ++ decimal (sv_patch v).

(** [to_u32] on every index of a table. *)
Definition check_indices (count : nat) (resource : string) : result ArtifactError unit :=
  if u32_max + 1 <? Z.of_nat count then Err (limit resource) else Ok tt.

Definition keyed_types (artifact : Artifact) (strings : list string)
    : result ArtifactError (list Keyed) :=
  let? keyed := collect (λ t, let? key := type_key strings t in Ok (key, t)) (collect_types artifact) in
  Ok (dedup_by_key None (sort_by_key keyed)).

Definition put_header (metadata : ArtifactMetadata) (section_count : nat) (digest : list Z) : Output :=
  emit [put_slice ARTIFACT_MAGIC; put_u16 64; Ok (le_bytes 2 (bytecode_version metadata));
        put_version (language_version metadata); put_version (compiler_version metadata);
        put_u16 (match target_profile metadata with Portable => 1 end); put_u16 section_count;
        put_u32 0; put_slice digest].

(** The tables of an artifact that passes the checks: its strings and the keyed
    types. *)
Definition encode_tables (artifact : Artifact) (limits : DecodeLimits)
    : result ArtifactError (list string * list Keyed) :=
  let strings := collect_strings artifact in
  if (table_entries limits <? Z.of_nat (length strings))
     || existsb (λ s, string_bytes limits <? str_len s) strings
  then Err (limit "string table")
  else
    try? check_indices (length strings) "string table" in
    let? keyed := keyed_types artifact strings in
    if table_entries limits <? Z.of_nat (length keyed) then Err (limit "type table")
    else
      let? nodes := expanded_node_count (map snd keyed) in
      if expanded_type_nodes limits <? nodes then Err (limit "expanded type nodes")
      else
        try? check_indices (length keyed) "type table" in
        Ok (strings, keyed).

Definition encode_body (sections : list Section_) : Output := emit (map put_section sections).

Definition assemble (artifact : Artifact) (limits : DecodeLimits) (sections : list Section_)
    : result ArtifactError (list Z) :=
  if existsb (λ s, section_bytes limits <? Z.of_nat (length (sec_payload s))) sections
  then Err (ArtifactError_new SectionTooLarge "encoded section bytes exceed the format limit")
  else
    let? body := encode_body sections in
    let? header := put_header (metadata artifact) (length sections) (sha256 body) in
    let output := (header ++ body)%list in
    if artifact_bytes limits <? Z.of_nat (length output)
    then Err (ArtifactError_new ArtifactTooLarge "encoded artifact bytes exceed the format limit")
    else Ok output.

Section Codec.
Context `{Semver} `{Layout}.

Definition encode_with_limits (artifact : Artifact) (limits : DecodeLimits)
  : option (result ArtifactError (list Z)) :=
let version := bytecode_version (metadata artifact) in
if negb (version =? BYTECODE_VERSION)
then Some (Err (ArtifactError_new UnsupportedVersion
                  ("bytecode version " ++ decimal version ++ " is not supported")))
else
  try* validate_encode_model artifact limits in
  Some (
    try? validate_debug_shape (debug artifact) in
    let? tables := encode_tables artifact limits in
    let types := map snd tables.2 in
    let? sections := encode_sections artifact tables.1 types (map fst tables.2) in
    assemble artifact limits sections).
Definition encode (artifact : Artifact) : option (result ArtifactError (list Z)) :=
encode_with_limits artifact DecodeLimits_default.

(** ** Decoding *)

Record DecodedArtifact := { dec_artifact : Artifact; dec_content_digest : list Z }.

Record Header := {
  hd_metadata : ArtifactMetadata; hd_section_count : nat; hd_digest : list Z }.

Definition read_header : Read Header :=
size ← u16_z;
if negb (size =? HEADER_SIZE)
then fail (ArtifactError_new InvalidHeader "header size is not canonical")
else
  version ← u16_z;
  if negb (version =? BYTECODE_VERSION)
  then fail (ArtifactError_new UnsupportedVersion
               ("bytecode version " ++ decimal version ++ " is not supported"))
  else
    lang ← ArtifactModel.version;
    if negb (bool_decide (lang = language_version ArtifactMetadata_default))
    then fail (ArtifactError_new UnsupportedVersion
                 ("language version " ++ version_text lang ++ " is not supported"))
    else
      compiler ← ArtifactModel.version;
      profile ← u16_z;
      if negb (profile =? 1)
      then fail (ArtifactError_new UnsupportedProfile
                   ("target profile " ++ decimal profile ++ " is not supported"))
      else
        section_count ← u16;
        if negb ((MANDATORY_SECTION_COUNT <=? section_count)%nat
                 && (section_count <=? MAX_SECTION_COUNT)%nat)
        then fail (ArtifactError_new MissingSection
                     "artifact must contain eleven mandatory sections and optional debug")
        else
          reserved ← u32_z;
          if negb (reserved =? 0)
          then fail (ArtifactError_new InvalidHeader "reserved header field must be zero")
          else
            expected ← digest;
            mret {| hd_metadata := {| bytecode_version := version; language_version := lang;
                                      compiler_version := compiler; target_profile := Portable |};
                    hd_section_count := section_count; hd_digest := expected |}.

(** The sections, decoded in the order of the source; the indices exist since there
    are at least eleven sections, and twelve when there is debug information. *)
Definition decode_sections (limits : DecodeLimits) (header : Header) (payload : nat → list Z)
  : Read (Artifact * list string) :=
strings ← decode_strings limits (payload 0%nat);
constants ← decode_constants limits strings (payload 1%nat);
types_enums ← decode_type_section limits strings (payload 2%nat);
let types := types_enums.1 in
functions_async ← decode_functions limits strings types (payload 3%nat);
effect_sets ← decode_effects limits strings (payload 4%nat);
_ ← lift (validate_canonical_effect_sets effect_sets);
manifest ← decode_manifest limits strings (payload 8%nat);
entry_entries ← decode_entries limits strings (payload 5%nat);
schemas ← decode_schemas limits types (payload 6%nat);
imports ← decode_imports limits strings (payload 7%nat);
templates ← decode_templates limits strings (payload 9%nat);
record_invariants ← decode_validators limits strings types (payload 10%nat);
debug ← (if (hd_section_count header =? MAX_SECTION_COUNT)%nat
         then d ← decode_debug limits strings (payload 11%nat); mret (Some d)
         else mret None);
mret ({| metadata := hd_metadata header;
         module_ := {| constants := constants; enum_types := types_enums.2;
                       effect_sets := effect_sets; functions := functions_async.1;
                       async_functions := functions_async.2; entry := entry_entries.1 |};
         debug := debug; schemas := schemas; entries := entry_entries.2; imports := imports;
         manifest := Some manifest; templates := templates;
         record_invariants := record_invariants |}, strings).

Definition new_reader (limits : DecodeLimits) (bs : list Z) : Reader :=
{| rd_bytes := bs;
   rd_budget := DecodeBudget_new (decoded_model_bytes limits) (expanded_type_nodes limits) |}.

Definition decode_parts (bs : list Z) (limits : DecodeLimits)
  : result ArtifactError (Artifact * list string * list Z) :=
if artifact_bytes limits <? Z.of_nat (length bs)
then Err (ArtifactError_new ArtifactTooLarge "artifact bytes exceed the decode limit")
else if Z.of_nat (length bs) <? HEADER_SIZE then Err (truncated "artifact header")
else if negb (bytes_eqb (take 8 bs) ARTIFACT_MAGIC)
then Err (ArtifactError_new InvalidMagic "magic does not identify an ALLEN bytecode artifact")
else
  let? header := in_section (drop 8 (take 64 bs)) read_header (new_reader limits []) in
  let header := header.1 in
  let body := drop 64 bs in
  let? sections := split_sections limits body (hd_section_count header) in
  let actual_digest := sha256 body in
  if negb (bytes_eqb actual_digest (hd_digest header))
  then Err (ArtifactError_new DigestMismatch "content digest does not match section bytes")
  else
    let? parts := decode_sections limits header
      (λ i, default [] (option_map sec_payload (sections !! i))) (new_reader limits []) in
    Ok (parts.1, actual_digest).

Definition decode (bs : list Z) (limits : DecodeLimits)
  : option (result ArtifactError DecodedArtifact) :=
let* parts := Some (decode_parts bs limits) in
let artifact := parts.1.1 in
try* Some (validate_string_table artifact parts.1.2) in
try* Some (validate_debug_shape (debug artifact)) in
let* canonical := encode_with_limits artifact limits in
if bytes_eqb canonical bs
then Some (Ok {| dec_artifact := artifact; dec_content_digest := parts.2 |})
else Some (Err (ArtifactError_new NonCanonical "artifact has a non-canonical representation")).

(** ** Verification *)

(** [VerifyError]'s [Display] *)
Definition VerifyError_text (e : VerifyError) : string :=
match ve_function e, ve_instruction e with
| Some function, Some instruction =>
  "bytecode verification failed in function " ++ decimal function ++ " at instruction "
  ++ decimal instruction ++ ": " ++ ve_message e
| _, _ => "bytecode verification failed: " ++ ve_message e
end.

Definition tool_contract (schemas : list StrictSchema) (contract : ToolContract)
  : result ArtifactError ToolVerificationContract :=
let schema index := ok_or (option_map ss_value_type (schemas !! index))
                      (noncanonical "typed tool schema is out of range") in
let? input := schema (tc_input_schema contract) in
let? output := schema (tc_output_schema contract) in
let? declared_error := schema (tc_error_schema contract) in
Ok {| tvc_tool_name := tc_name contract; tvc_input := input; tvc_output := output;
      tvc_declared_error := declared_error |}.
Definition tool_contracts (artifact : Artifact)
  : result ArtifactError (option (list ToolVerificationContract)) :=
match manifest artifact with
| None => Ok None
| Some manifest =>
  let? contracts := collect (tool_contract (schemas artifact)) (mc_required_tools manifest) in
  Ok (Some contracts)
end.

(** The verified artifact keeps the decoded one, whose module is verified. *)
Definition decode_and_verify (bs : list Z) (limits : DecodeLimits)
  : option (result ArtifactError DecodedArtifact) :=
let* decoded := decode bs limits in
let artifact := dec_artifact decoded in
try* Some (validate_debug_references (module_ artifact) (debug artifact)) in
try* Some (validate_verifier_complexity (module_ artifact) limits) in
let* tools := Some (tool_contracts artifact) in
match verify_internal (module_ artifact) tools (Some (templates artifact)) with
| None => None
| Some (Err e) => Some (Err (ArtifactError_new VerificationFailed (VerifyError_text e)))
| Some (Ok _) => Some (Ok decoded)
end.
End Codec.
