(* ===== verification/ArtifactSample.v ===== *)
(** * A sample artifact

    A package with an entry, an import and debug information, for the theorems on
    the codec.  The semver crate is instantiated on release versions, the layout of
    the Rust types by a constant. *)

From S2P Require Import Prelude Text Bytecode ArtifactBytes ArtifactModel ArtifactNames.
From S2P Require Import ArtifactDigest.
Open Scope string_scope.
Open Scope Z_scope.

(** ** Release versions *)

Definition release_number (s : string) : option Z := parse_unsigned u64_max (bytes s).
Definition release_parse (s : string) : option Version :=
  match split_char "." s with
  | [major; minor; patch] =>
    major ← release_number major; minor ← release_number minor; patch ← release_number patch;
    Some (Version_new major minor patch)
  | _ => None
  end.
Definition release_print (v : Version) : string :=
  let number z := string_of_bytes (decimal_bytes z) in
  number (ver_major v) ++ "." ++ number (ver_minor v) ++ "." ++ number (ver_patch v).
Definition release_compare (v w : Version) : comparison :=
  match ver_major v ?= ver_major w with
  | Eq => match ver_minor v ?= ver_minor w with Eq => ver_patch v ?= ver_patch w | c => c end
  | c => c
  end.
(** A requirement [">=v"]. *)
Definition releases : Semver := {|
  Version_parse := release_parse; Version_to_string := release_print;
  Version_compare := release_compare; VersionReq := Version;
  VersionReq_parse s := lower ← strip_prefix ">=" s; release_parse lower;
  VersionReq_matches r v := match release_compare r v with Gt => false | _ => true end |}.
Definition flat_layout : Layout := λ _, 32.

(** ** The artifact *)

Definition sample_symbol (package version name : string) : string :=
  "pkg/" ++ Names.escape_symbol_component package ++ "/" ++ Names.escape_symbol_component version
  ++ "/" ++ name.

(** [main] doubles its argument with the function of an imported package. *)
Definition sample_module : Module_ := {|
  constants := [CInt 2]; enum_types := []; effect_sets := [[]];
  functions :=
    [{| fn_name := sample_symbol "demo" "1.0.0" "src/main.allen::main";
        fn_parameters := [0%nat];
        fn_parameter_names := ["value"]; fn_parameter_default_digests := [None]; fn_captures := [];
        fn_registers := [TInt; TInt]; fn_return_type := TInt; fn_effects := 0%nat;
        fn_code := [DirectCall 1 1 [0]; Return_ 1]%nat |};
     {| fn_name := sample_symbol "math" "2.1.0" "src/lib.allen::double";
        fn_parameters := [0%nat];
        fn_parameter_names := ["value"]; fn_parameter_default_digests := [None]; fn_captures := [];
        fn_registers := [TInt; TInt; TInt]; fn_return_type := TInt; fn_effects := 0%nat;
        fn_code := [Const 1 0; IntBinary 2 0 1 Multiply; Return_ 2]%nat |}];
  async_functions := []; entry := 0 |}.

Definition sample_digest : list Z := compute_entry_contract_digest {| ss_value_type := TInt |} [] [].

Definition sample_imports : list ImportContract :=
  [{| im_importer := "demo@1.0.0"; im_alias := "math"; im_package := "math"; im_version := "2.1.0";
      im_module := "src/lib.allen"; im_content_digest := replicate 32 7 |}].

Definition sample_manifest : ManifestContract := {|
  mc_package := "demo"; mc_version := "1.0.0"; mc_language_requirement := ">=0.1.0";
  mc_required_capabilities := []; mc_optional_capabilities := [];
  mc_limits := [("heap_bytes", 4096); ("instructions", 100)]; mc_https_origins := [];
  mc_exec_commands := []; mc_exec_environment := []; mc_required_tools := [];
  mc_tool_contract_digest := compute_tool_contract_digest [] |}.

Definition sample : Artifact := {|
  metadata := ArtifactMetadata_default; module_ := sample_module;
  debug := Some {| dbg_sources := ["pkg://demo@1.0.0/src/main.allen"];
                   dbg_locations := [{| dl_function := 0%nat; dl_instruction := 1%nat;
                                        dl_source := 0%nat; dl_start := 4; dl_end := 10 |}] |};
  schemas := [{| ss_value_type := TInt |}];
  entries := [{| en_name := "main"; en_function := 0%nat; en_input_schema := 0%nat;
                 en_output_schema := 0%nat; en_input_validators := []; en_output_validators := [];
                 en_input_record_provenance := []; en_output_record_provenance := [];
                 en_input_contract_digest := sample_digest;
                 en_output_contract_digest := sample_digest |}];
  imports := sample_imports; manifest := Some sample_manifest; templates := [];
  record_invariants := [] |}.
