(* ===== verification/ArtifactAcyclic.v ===== *)
(** * The package graph check is correct

    [validate_package_graph] always answers on the graph of the imports, accepts only
    graphs in which every package is reachable from the root and no package imports
    itself, and accepts all of these. *)

From stdpp Require Import strings gmap relations.
From S2P Require Import Prelude Text Bytecode ArtifactBytes ArtifactModel ArtifactCodec.
From S2P Require Import ArtifactSections ArtifactTables ArtifactNames ArtifactGraph.
From S2P Require Import ArtifactSample.
Open Scope string_scope.
Open Scope Z_scope.

Definition edge (graph : PackageGraph) (u v : string) : Prop := v ∈ targets_of graph u.
#[export] Instance edge_dec graph u v : Decision (edge graph u v).
Proof. unfold edge. apply _. Defined.

Record closed_graph (graph : PackageGraph) : Prop := {
  closed_targets : ∀ u v, edge graph u v → v ∈ dom graph;
  closed_unique : ∀ u, NoDup (targets_of graph u) }.

Lemma edge_source graph u v : edge graph u v → u ∈ dom graph.
Proof.
  unfold edge, targets_of. destruct (graph !! u) eqn:Hu; [|intros Hn; by apply not_elem_of_nil in Hn].
  intros _. by apply elem_of_dom_2 in Hu.
Qed.

Lemma elem_of_btree_keys {A} (m : gmap string A) x : x ∈ btree_keys m ↔ x ∈ dom m.
Proof.
  unfold btree_keys. rewrite elem_of_set_extend, elem_of_dom. split.
  - intros [([k y] & -> & Hk)%list_elem_of_fmap|Hn]; [|by apply not_elem_of_nil in Hn].
    apply elem_of_map_to_list in Hk. by exists y.
  - intros [y Hy]. left. apply list_elem_of_fmap. exists (x, y). by rewrite elem_of_map_to_list.
Qed.

Lemma NoDup_btree_keys {A} (m : gmap string A) : NoDup (btree_keys m).
Proof. apply sorted_strings_NoDup, set_extend_sorted. constructor. Qed.

Lemma size_keys {A} (m : gmap string A) : size (dom m) = size m.
Proof. apply size_dom. Qed.

(** ** Reachability *)

Lemma discover_all l pending reachable :
  ∃ found, fold_left discover l (pending, reachable) = ((found ++ pending)%list, list_to_set found ∪ reachable)
    ∧ NoDup found ∧ (∀ x, x ∈ found → x ∈ l ∧ x ∉ reachable)
    ∧ (∀ x, x ∈ l → x ∈ found ∨ x ∈ reachable).
Proof.
  revert pending reachable. induction l as [|y l IH]; intros pending reachable; cbn [fold_left].
  { exists []. split_and!; try set_solver; [|constructor]. simpl. f_equal. set_solver. }
  unfold discover at 2. cbn [fst snd]. destruct (decide (y ∈ reachable)) as [Hy|Hy].
  - destruct (IH pending reachable) as (found & He & Hn & Hf & Hl). exists found. rewrite He.
    split_and!; [done|done|set_solver|set_solver].
  - destruct (IH (y :: pending) ({[y]} ∪ reachable)) as (found & He & Hn & Hf & Hl).
    exists (found ++ [y])%list. rewrite He. split_and!.
    + rewrite <- app_assoc. f_equal. rewrite list_to_set_app_L. simpl. set_solver.
    + apply NoDup_app. split_and!; [done| |apply NoDup_singleton]. set_solver.
    + set_solver.
    + set_solver.
Qed.

(** The packages to look at are found, and the others have their targets found. *)
Record reach_inv (graph : PackageGraph) (pending : list string) (reachable : gset string) : Prop := {
  ri_pending : ∀ x, x ∈ pending → x ∈ reachable;
  ri_closed : ∀ u v, u ∈ reachable → u ∉ pending → edge graph u v → v ∈ reachable;
  ri_known : reachable ⊆ dom graph }.

Lemma reach_step graph package pending reachable :
  closed_graph graph → reach_inv graph (package :: pending) reachable →
  ∃ found, fold_left discover (rev (targets_of graph package)) (pending, reachable)
           = ((found ++ pending)%list, list_to_set found ∪ reachable)
    ∧ reach_inv graph (found ++ pending) (list_to_set found ∪ reachable)
    ∧ NoDup found ∧ (∀ x, x ∈ found → edge graph package x ∧ x ∉ reachable).
Proof.
  intros Hg [Hp Hc Hk]. destruct (discover_all (rev (targets_of graph package)) pending reachable)
    as (found & He & Hn & Hf & Hl).
  assert (∀ x, x ∈ rev (targets_of graph package) ↔ edge graph package x) as Hrev.
  { intros x. unfold edge. rewrite !list_elem_of_In. apply symmetry, in_rev. }
  exists found. split_and!; [done| |done|].
  - constructor.
    + set_solver.
    + intros u v Hu Hnot Huv. destruct (decide (u = package)) as [->|Hne].
      * apply Hrev, Hl in Huv. set_solver.
      * apply elem_of_union_r, (Hc u v); set_solver.
    + intros x [Hx|Hx]%elem_of_union; [|by apply Hk]. apply elem_of_list_to_set, Hf in Hx as [Hx _].
      apply Hrev in Hx. by eapply closed_targets.
  - intros x [Hx ?]%Hf. by apply Hrev in Hx.
Qed.

Lemma reach_answers graph fuel pending reachable :
  closed_graph graph → reach_inv graph pending reachable →
  (size (dom graph ∖ reachable) + length pending ≤ fuel)%nat →
  ∃ result, reach fuel graph pending reachable = Some result.
Proof.
  intros Hg. revert pending reachable. induction fuel as [|fuel IH]; intros [|package pending] reachable Hi Hf;
    cbn [reach]; try (by eexists); [simpl in Hf; lia|].
  destruct (reach_step graph package pending reachable Hg Hi) as (found & -> & Hi' & Hn & Hx).
  apply IH; [done|]. rewrite length_app.
  assert (size (dom graph ∖ reachable)
          = (size (dom graph ∖ (list_to_set found ∪ reachable)) + length found)%nat) as Hs.
  { rewrite <- (size_list_to_set (C := gset string) found) by done. rewrite <- size_union by set_solver.
    f_equal. apply set_eq. intros x. destruct (decide (x ∈ found)); [|set_solver].
    destruct (Hx x) as [Hpx ?]; [done|]. pose proof (closed_targets _ Hg _ _ Hpx). set_solver. }
  simpl in Hf. lia.
Qed.

Lemma reach_correct graph fuel pending reachable result :
  closed_graph graph → reach_inv graph pending reachable →
  reach fuel graph pending reachable = Some result →
  reachable ⊆ result
  ∧ (∀ u v, u ∈ result → edge graph u v → v ∈ result)
  ∧ (∀ v, v ∈ result → ∃ u, u ∈ reachable ∧ rtc (edge graph) u v).
Proof.
  intros Hg. revert pending reachable. induction fuel as [|fuel IH]; intros [|package pending] reachable Hi;
    cbn [reach]; try done.
  1, 2: intros [= <-]; split_and!; [done| |]; [intros u v Hu; apply (ri_closed _ _ _ Hi); set_solver|];
    intros v Hv; exists v; by split.
  destruct (reach_step graph package pending reachable Hg Hi) as (found & -> & Hi' & Hn & Hx).
  intros Hr. destruct (IH _ _ Hi' Hr) as (Hsub & Hcl & Hreach). split_and!; [set_solver|done|].
  intros v Hv. destruct (Hreach v Hv) as (u & [Hu|Hu]%elem_of_union & Huv); [|by exists u].
  apply elem_of_list_to_set, Hx in Hu as [Hpu _]. exists package. split.
  - apply (ri_pending _ _ _ Hi). left.
  - by eapply rtc_l.
Qed.

(** ** In-degrees *)

(** The packages of a set that import [v]. *)
Definition importers (graph : PackageGraph) (from : gset string) (v : string) : gset string :=
  filter (λ u, edge graph u v) from.
Definition degrees (graph : PackageGraph) (nodes from : gset string) (indegree : gmap string Z) : Prop :=
  dom indegree = nodes
  ∧ ∀ v, v ∈ nodes → indegree !! v = Some (Z.of_nat (size (importers graph from v))).

Lemma importers_add graph u from v :
  u ∉ from →
  size (importers graph ({[u]} ∪ from) v)
  = (size (importers graph from v) + if decide (edge graph u v) then 1 else 0)%nat.
Proof.
  intros Hu. unfold importers. destruct (decide (edge graph u v)) as [He|He].
  - assert (filter (λ x, edge graph x v) ({[u]} ∪ from) = {[u]} ∪ filter (λ x, edge graph x v) from)
      as -> by (apply set_eq; intros x; rewrite elem_of_filter, !elem_of_union, elem_of_filter; set_solver).
    rewrite size_union by set_solver. rewrite size_singleton. lia.
  - assert (filter (λ x, edge graph x v) ({[u]} ∪ from) = filter (λ x, edge graph x v) from)
      as -> by (apply set_eq; intros x; rewrite !elem_of_filter, elem_of_union; set_solver).
    lia.
Qed.

Lemma count_edges targets indegree result :
  try_fold count_edge indegree targets = Ok result → NoDup targets →
  dom result = dom indegree
  ∧ ∀ v d, indegree !! v = Some d →
      result !! v = Some (d + if decide (v ∈ targets) then 1 else 0).
Proof.
  revert indegree. induction targets as [|t targets IH]; intros indegree Hr Hn; cbn [try_fold] in Hr.
  { injection Hr as <-. split; [done|]. intros v d Hv. rewrite Hv. simpl. f_equal. lia. }
  unfold count_edge at 1 in Hr. destruct (indegree !! t) as [n|] eqn:Ht; [|done].
  destruct (u64_checked_add n 1) as [m|] eqn:Hm; [|done]. simpl in Hr.
  apply checked_Some in Hm as [_ ->]. apply NoDup_cons in Hn as [Hnt Hn].
  destruct (IH _ Hr Hn) as [Hdom Hres]. split; [by rewrite Hdom, dom_insert_lookup_L by (by eexists)|].
  intros v d Hv. destruct (decide (v = t)) as [->|Hne].
  - rewrite (Hres t (n + 1)) by apply lookup_insert_eq. rewrite decide_False by done.
    rewrite decide_True by left. f_equal. assert (d = n) by congruence. lia.
  - rewrite (Hres v d) by (rewrite lookup_insert_ne; done).
    do 2 f_equal. destruct (decide (v ∈ targets)) as [Hv'|Hv'];
      [rewrite decide_True by (by right)|rewrite decide_False by (by rewrite elem_of_cons; intros [?|?])];
      done.
Qed.

Lemma count_edges_ok targets (indegree : gmap string Z) (bound : Z) :
  (∀ t, t ∈ targets → ∃ d, indegree !! t = Some d ∧ 0 <= d < bound) → bound <= u64_max →
  NoDup targets → ∃ result, try_fold count_edge indegree targets = Ok result.
Proof.
  revert indegree. induction targets as [|t targets IH]; intros indegree Ht Hb Hn; cbn [try_fold];
    [by eexists|]. destruct (Ht t) as (d & Hd & ?); [left|]. unfold count_edge at 1. rewrite Hd.
  unfold u64_checked_add, checked. rewrite (proj2 (in_unsigned_spec _ _)) by lia. simpl.
  apply NoDup_cons in Hn as [Hnt Hn]. apply IH; [|done..]. intros t' Ht'.
  destruct (Ht t') as (d' & Hd' & ?); [by right|]. exists d'.
  rewrite lookup_insert_ne; [done|]. by intros ->.
Qed.

Lemma count_importers graph nodes keys from indegree result :
  closed_graph graph → NoDup keys → (∀ u, u ∈ keys → u ∉ from) →
  degrees graph nodes from indegree →
  try_fold (count_importer graph nodes) indegree keys = Ok result →
  degrees graph nodes (from ∪ (list_to_set keys ∩ nodes)) result.
Proof.
  intros Hg. revert from indegree. induction keys as [|u keys IH]; intros from indegree Hn Hnew Hd Hr;
    cbn [try_fold] in Hr.
  { injection Hr as <-. replace (from ∪ (list_to_set [] ∩ nodes)) with from by set_solver. done. }
  apply NoDup_cons in Hn as [Hnu Hn].
  unfold count_importer at 1 in Hr. destruct (decide (u ∈ nodes)) as [Hu|Hu].
  - destruct (try_fold count_edge _ _) as [next|] eqn:He; [|done]. simpl in Hr.
    apply count_edges in He as [Hdom Hres]; [|apply Hg].
    replace (from ∪ (list_to_set (u :: keys) ∩ nodes))
      with (({[u]} ∪ from) ∪ (list_to_set keys ∩ nodes)) by set_solver.
    apply (IH _ next); [done|set_solver| |done]. destruct Hd as [Hd1 Hd2]. split; [congruence|].
    intros v Hv. rewrite (Hres v _ (Hd2 v Hv)). rewrite importers_add by (apply Hnew; left).
    unfold edge. f_equal. destruct (decide (v ∈ targets_of graph u)); lia.
  - simpl in Hr. replace (from ∪ (list_to_set (u :: keys) ∩ nodes))
      with (from ∪ (list_to_set keys ∩ nodes)) by set_solver.
    apply (IH _ indegree); [done| |done..]. intros x Hx. apply Hnew. by right.
Qed.

Lemma initial_degrees graph (nodes : gset string) :
  degrees graph nodes ∅ (set_to_map (λ package, (package, 0)) nodes).
Proof.
  assert (∀ v, v ∈ nodes → (set_to_map (λ package, (package, 0)) nodes : gmap string Z) !! v = Some 0) as Hl.
  { intros v Hv. apply lookup_set_to_map; [intros; simpl in *; congruence|]. by exists v. }
  split.
  - apply set_eq. intros v. rewrite elem_of_dom. split.
    + intros [d Hd]. apply lookup_set_to_map in Hd as (x & Hx & [= <- <-]); [done|].
      intros; simpl in *; congruence.
    + intros Hv. eexists. by apply Hl.
  - intros v Hv. rewrite Hl by done.
    assert (importers graph ∅ v = ∅) as -> by (unfold importers; set_solver). by rewrite size_empty.
Qed.

Lemma indegrees_correct graph nodes indegree :
  closed_graph graph → dom graph ⊆ nodes → indegrees graph nodes = Ok indegree →
  degrees graph nodes nodes indegree.
Proof.
  intros Hg Hsub Hi. unfold indegrees in Hi.
  apply (count_importers _ _ _ ∅) in Hi; [|done|apply NoDup_btree_keys|set_solver|apply initial_degrees].
  destruct Hi as [H1 H2]. split; [done|]. intros v Hv. rewrite (H2 v Hv). do 3 f_equal.
  unfold importers. apply set_eq. intros u. rewrite !elem_of_filter. split; [set_solver|].
  intros [Huv Hu]. split; [done|]. apply elem_of_union_r, elem_of_intersection. split; [|done].
  apply elem_of_list_to_set, elem_of_btree_keys. by eapply edge_source.
Qed.

(** ** Kahn's algorithm *)

Lemma release_targets targets ready indegree :
  NoDup targets → (∀ t, t ∈ targets → ∃ d, indegree !! t = Some d ∧ 1 <= d) →
  ∃ freed indegree', release_all (ready, indegree) targets = Some (Ok ((freed ++ ready)%list, indegree'))
    ∧ NoDup freed ∧ dom indegree' = dom indegree
    ∧ (∀ x, x ∈ freed ↔ x ∈ targets ∧ indegree !! x = Some 1)
    ∧ (∀ v d, indegree !! v = Some d →
         indegree' !! v = Some (d - if decide (v ∈ targets) then 1 else 0)).
Proof.
  revert ready indegree. induction targets as [|t targets IH]; intros ready indegree Hn Ht;
    cbn [release_all].
  { exists [], indegree. split_and!; [done|constructor|done|set_solver|].
    intros v d Hv. rewrite Hv, decide_False by (by apply not_elem_of_nil). f_equal. lia. }
  apply NoDup_cons in Hn as [Hnt Hn]. destruct (Ht t) as (d & Hd & Hd1); [left|].
  unfold release at 1. cbn [fst snd]. rewrite Hd. destruct (Z.eqb_spec d 0); [lia|].
  set (next := if d - 1 =? 0 then (t :: ready)%list else ready).
  destruct (IH next (<[t := d - 1]> indegree) Hn) as (freed & indegree' & He & Hf & Hdom & Hfx & Hdeg).
  { intros t' Ht'. destruct (Ht t') as (d' & Hd' & ?); [by right|]. exists d'.
    rewrite lookup_insert_ne; [done|]. by intros ->. }
  assert (∀ x, x ∈ targets → (<[t := d - 1]> indegree) !! x = indegree !! x) as Hsame.
  { intros x Hx. apply lookup_insert_ne. by intros ->. }
  exists (if decide (d = 1) then (freed ++ [t])%list else freed), indegree'. split_and!.
  - subst next. destruct (Z.eqb_spec (d - 1) 0); destruct (decide (d = 1)); try lia;
      rewrite He; rewrite <- ?app_assoc; done.
  - destruct (decide (d = 1)); [|done]. apply NoDup_app. split_and!; [done| |apply NoDup_singleton].
    intros x [Hx _]%Hfx Hxt%list_elem_of_singleton. by subst.
  - by rewrite Hdom, dom_insert_lookup_L by (by eexists).
  - intros x. rewrite elem_of_cons.
    assert (x ∈ freed ↔ x ∈ targets ∧ indegree !! x = Some 1) as Hfx'.
    { rewrite Hfx. split; intros [Hx Hx1]; (split; [done|]); by rewrite Hsame in * by done. }
    destruct (decide (d = 1)) as [->|Hd'].
    + rewrite elem_of_app, list_elem_of_singleton, Hfx'. naive_solver.
    + rewrite Hfx'. split; [naive_solver|]. intros [[->|Hx] H1]; [congruence|done].
  - intros v e Hv. destruct (decide (v = t)) as [->|Hne].
    + rewrite (Hdeg t (d - 1)) by apply lookup_insert_eq. rewrite decide_False by done.
      rewrite decide_True by left. f_equal. assert (e = d) by congruence. lia.
    + rewrite (Hdeg v e) by (by rewrite lookup_insert_ne). do 2 f_equal.
      destruct (decide (v ∈ targets)) as [Hv'|Hv'];
        [rewrite decide_True by (by right)|rewrite decide_False by (by rewrite elem_of_cons; intros [?|?])];
        done.
Qed.

(** [done] are the packages visited: none of them has an importer that is not. *)
Record kahn_inv (graph : PackageGraph) (nodes done : gset string) (ready : list string)
    (indegree : gmap string Z) : Prop := {
  ki_done : done ⊆ nodes;
  ki_degrees : degrees graph nodes (nodes ∖ done) indegree;
  ki_unique : NoDup ready;
  ki_before : ∀ x, x ∈ done → importers graph (nodes ∖ done) x = ∅;
  ki_ready : ∀ x, x ∈ ready ↔ (x ∈ nodes ∧ (x ∉ done) ∧ importers graph (nodes ∖ done) x = ∅) }.

Lemma importers_empty graph from x : importers graph from x = ∅ ↔ ∀ u, u ∈ from → ¬ edge graph u x.
Proof.
  unfold importers. split.
  - intros He u Hu Hux. apply (not_elem_of_empty (C := gset string) u). rewrite <- He. by apply elem_of_filter.
  - intros Hn. apply set_eq. intros u. rewrite elem_of_filter. split; [|set_solver].
    intros [Hux Hu]. by destruct (Hn u Hu).
Qed.

Lemma importers_visit graph (nodes done : gset string) p v :
  p ∈ nodes → p ∉ done →
  size (importers graph (nodes ∖ done) v)
  = (size (importers graph (nodes ∖ ({[p]} ∪ done)) v) + if decide (edge graph p v) then 1 else 0)%nat.
Proof.
  intros Hp Hd. rewrite <- importers_add by set_solver. do 2 f_equal.
  apply set_eq. intros x. destruct (decide (x = p)); set_solver.
Qed.

Lemma kahn_step graph nodes done p ready indegree :
  closed_graph graph → (∀ u v, edge graph u v → u ∈ nodes → v ∈ nodes) →
  kahn_inv graph nodes done (p :: ready) indegree →
  ∃ state, release_all (ready, indegree) (targets_of graph p) = Some (Ok state)
    ∧ kahn_inv graph nodes ({[p]} ∪ done) state.1 state.2.
Proof.
  intros Hg Hcl [Hdone [Hdom Hdeg] Hnd Hbefore Hready].
  apply NoDup_cons in Hnd as [Hpr Hnd].
  destruct (proj1 (Hready p)) as (Hpn & Hpd & Hpe); [left|]. rewrite importers_empty in Hpe.
  assert (∀ v, size (importers graph (nodes ∖ ({[p]} ∪ done)) v) = 0%nat ↔
               importers graph (nodes ∖ ({[p]} ∪ done)) v = ∅) as Hsz.
  { intros v. rewrite size_empty_iff. by fold_leibniz. }
  destruct (release_targets (targets_of graph p) ready indegree)
    as (freed & indegree' & He & Hfn & Hdom' & Hfx & Hdeg'); [apply Hg| |].
  { intros t Ht. rewrite Hdeg by (by eapply Hcl). eexists. split; [done|].
    rewrite (importers_visit _ _ _ p) by done. rewrite decide_True by done. lia. }
  assert (∀ x, x ∈ freed ↔ edge graph p x ∧ importers graph (nodes ∖ ({[p]} ∪ done)) x = ∅) as Hfx'.
  { intros x. rewrite Hfx. unfold edge at 1. split; intros [Hx Hx'].
    - split; [done|]. rewrite Hdeg in Hx' by (by eapply Hcl).
      rewrite (importers_visit _ _ _ p), decide_True in Hx' by done. apply Hsz. simplify_eq. lia.
    - split; [done|]. rewrite Hdeg by (by eapply Hcl). apply Hsz in Hx'.
      rewrite (importers_visit _ _ _ p), decide_True, Hx' by done. done. }
  assert (∀ x, edge graph p x → x ∉ {[p]} ∪ done) as Hnew.
  { intros x Hpx [->%elem_of_singleton|Hx]%elem_of_union.
    - apply (Hpe p); set_solver.
    - apply Hbefore in Hx. rewrite importers_empty in Hx. apply (Hx p); set_solver. }
  exists ((freed ++ ready)%list, indegree'). split; [done|]. cbn [fst snd].
  assert (∀ x, importers graph (nodes ∖ done) x = ∅ → importers graph (nodes ∖ ({[p]} ∪ done)) x = ∅) as Hmono.
  { intros x. rewrite !importers_empty. intros Hx u Hu. apply Hx. set_solver. }
  constructor.
  - set_solver.
  - split; [by rewrite Hdom'|]. intros v Hv. rewrite (Hdeg' v _ (Hdeg v Hv)).
    rewrite (importers_visit _ _ _ p) by done. f_equal.
    destruct (decide (v ∈ targets_of graph p)), (decide (edge graph p v)); try done; lia.
  - apply NoDup_app. split_and!; [done| |done]. intros x [Hpx _]%Hfx' Hx.
    destruct (proj1 (Hready x)) as (_ & _ & Hxe); [by right|]. rewrite importers_empty in Hxe.
    apply (Hxe p); set_solver.
  - intros x [->%elem_of_singleton|Hx]%elem_of_union; apply Hmono; [by apply importers_empty|auto].
  - intros x. rewrite elem_of_app, Hfx'. split.
    + intros [[Hpx Hx]|Hx]; [split_and!; [by eapply Hcl|by apply Hnew|done]|].
      destruct (proj1 (Hready x)) as (Hxn & Hxd & Hxe); [by right|]. split_and!; [done| |by apply Hmono].
      intros [->%elem_of_singleton|?]%elem_of_union; done.
    + intros (Hxn & Hxd & Hxe). destruct (decide (edge graph p x)) as [Hpx|Hpx]; [by left|]. right.
      assert (x ∈ p :: ready) as Hx; [|apply elem_of_cons in Hx as [->|?]; [set_solver|done]].
      apply Hready. split_and!; [done|set_solver|]. rewrite importers_empty in *. intros u Hu Hux.
      destruct (decide (u = p)) as [->|Hup]; [done|]. apply (Hxe u); [|done].
      apply elem_of_difference in Hu as [Hu1 Hu2]. set_solver.
Qed.

Lemma tc_last {A} (R : relation A) x z : tc R x z → ∃ y, rtc R x y ∧ R y z.
Proof.
  induction 1 as [x z Hxz|x y z Hxy _ (w & Hyw & Hwz)]; [by exists x|]. exists w. split; [|done].
  by eapply rtc_l.
Qed.

Definition no_cycle (graph : PackageGraph) (nodes : gset string) : Prop :=
  ∀ x, x ∈ nodes → ¬ tc (edge graph) x x.

Lemma visited_no_cycle graph nodes done p ready indegree :
  (∀ u v, edge graph u v → u ∈ nodes) →
  kahn_inv graph nodes done (p :: ready) indegree → no_cycle graph done →
  no_cycle graph ({[p]} ∪ done).
Proof.
  intros Hsrc [Hdone _ _ Hbefore Hready] Hno x [->%elem_of_singleton|Hx]%elem_of_union; [|by apply Hno].
  destruct (proj1 (Hready p)) as (Hpn & Hpd & Hpe); [left|]. rewrite importers_empty in Hpe.
  assert (∀ u v, rtc (edge graph) u v → v ∈ done → u ∈ done) as Hback.
  { induction 1 as [|u v w Huv _ IH]; [done|]. intros Hw. destruct (decide (u ∈ done)); [done|].
    specialize (IH Hw). apply Hbefore in IH. rewrite importers_empty in IH.
    destruct (IH u); [|done]. apply elem_of_difference. split; [by eapply Hsrc|done]. }
  intros (u & Hpu & Hup)%tc_last. apply Hpd, (Hback p u); [done|]. destruct (decide (u ∈ done)); [done|].
  destruct (Hpe u); [|done]. apply elem_of_difference. split; [by eapply Hsrc|done].
Qed.

(** The loop answers with the number of packages that it visits; no cycle passes
    through them, and every other package has an importer among the others. *)
Lemma kahn_correct graph nodes fuel seen ready indegree :
  closed_graph graph → (∀ u v, edge graph u v → u ∈ nodes ∧ v ∈ nodes) →
  kahn_inv graph nodes seen ready indegree → no_cycle graph seen →
  (size nodes ≤ fuel + size seen)%nat →
  ∃ visited, kahn fuel graph ready indegree (size seen) = Some (Ok (size visited))
    ∧ visited ⊆ nodes ∧ no_cycle graph visited
    ∧ (∀ x, x ∈ nodes → x ∉ visited → ∃ u, u ∈ nodes ∧ (u ∉ visited) ∧ edge graph u x).
Proof.
  intros Hg Hcl. revert seen ready indegree.
  induction fuel as [|fuel IH]; intros seen [|p ready] indegree Hi Hno Hf; cbn [kahn].
  1, 3: exists seen; split_and!; [done|apply Hi|done|]; intros x Hx Hxs;
    destruct (set_choose_or_empty (importers graph (nodes ∖ seen) x)) as [[u Hu]|He];
    [apply elem_of_filter in Hu as [Hux [Hu1 Hu2]%elem_of_difference]; eauto|];
    fold_leibniz; destruct (not_elem_of_nil x); apply (ki_ready _ _ _ _ _ Hi); auto.
  all: destruct (proj1 (ki_ready _ _ _ _ _ Hi p)) as (Hpn & Hps & _); [left|].
  all: assert (size seen < size nodes)%nat as Hlt
      by (apply subset_size; split; [apply Hi|intros Hsub; by apply Hps, Hsub]).
  - lia.
  - destruct (kahn_step graph nodes seen p ready indegree Hg ltac:(naive_solver) Hi) as (state & -> & Hi').
    assert (S (size seen) = size ({[p]} ∪ seen)) as ->
      by (rewrite size_union by set_solver; by rewrite size_singleton).
    apply IH; [done| |].
    + eapply visited_no_cycle; [|exact Hi|exact Hno]. naive_solver.
    + rewrite size_union by set_solver. rewrite size_singleton. lia.
Qed.

(** A set in which every package has an importer has a cycle. *)
Lemma importers_cycle graph (rest : gset string) (n : nat) (path : gset string) x :
  (∀ y, y ∈ rest → ∃ u, u ∈ rest ∧ edge graph u y) → x ∈ rest →
  (∀ z, z ∈ path → tc (edge graph) x z) → x ∉ path → (size (rest ∖ path) ≤ n)%nat →
  ∃ y, y ∈ rest ∧ tc (edge graph) y y.
Proof.
  intros Hrest. revert path x. induction n as [|n IH]; intros path x Hx Hpath Hxp Hn.
  { assert (rest ∖ path = ∅) as He by (apply leibniz_equiv, size_empty_iff; lia). set_solver. }
  destruct (Hrest x Hx) as (u & Hu & Hux). destruct (decide (u = x)) as [->|Hne].
  { exists x. split; [done|by apply tc_once]. }
  destruct (decide (u ∈ path)) as [Hup|Hup].
  { exists u. split; [done|]. by eapply tc_l, Hpath. }
  apply (IH ({[x]} ∪ path) u); [done| |set_solver|].
  - intros z [->%elem_of_singleton|Hz]%elem_of_union; [by apply tc_once|]. by eapply tc_l, Hpath.
  - assert (size (rest ∖ path) = S (size (rest ∖ ({[x]} ∪ path)))) as Hs; [|lia].
    replace (rest ∖ path) with ({[x]} ∪ rest ∖ ({[x]} ∪ path))
      by (apply set_eq; intros z; destruct (decide (z = x)); set_solver).
    rewrite size_union by set_solver. by rewrite size_singleton.
Qed.

Lemma kahn_initial graph nodes indegree :
  degrees graph nodes nodes indegree →
  kahn_inv graph nodes ∅ (initial_ready indegree) indegree.
Proof.
  intros Hd. assert (nodes ∖ ∅ = nodes) as He by set_solver. destruct Hd as [Hdom Hdeg] eqn:Hd'.
  constructor; rewrite ?He; [set_solver|done| |set_solver|].
  - unfold initial_ready. rewrite reverse_Permutation. apply NoDup_filter, NoDup_btree_keys.
  - intros x. unfold initial_ready. rewrite elem_of_reverse, list_elem_of_filter, elem_of_btree_keys, Hdom.
    assert (importers graph nodes x = ∅ ↔ size (importers graph nodes x) = 0%nat) as ->
      by (rewrite size_empty_iff; by fold_leibniz).
    split.
    + intros [H0 Hx]. rewrite Hdeg in H0 by done. split_and!; [done|set_solver|]. simplify_eq. lia.
    + intros (Hx & _ & H0). split; [|done]. by rewrite Hdeg, H0.
Qed.

(** ** The check *)

Section Check.
Context (graph : PackageGraph) (root : string).
Hypothesis Hg : closed_graph graph.
Hypothesis Hroot : root ∈ dom graph.

Lemma reach_root :
  ∃ reachable, reach (S (size graph)) graph [root] {[root]} = Some reachable
    ∧ root ∈ reachable ∧ (∀ v, v ∈ reachable ↔ rtc (edge graph) root v).
Proof using Hg Hroot.
  assert (reach_inv graph [root] {[root]}) as Hi by (constructor; set_solver).
  destruct (reach_answers graph (S (size graph)) [root] {[root]} Hg Hi) as [reachable Hr].
  { pose proof (size_keys graph). cbn [length]. assert (size (dom graph ∖ {[root]}) ≤ size (dom graph))%nat; [|lia].
    apply subseteq_size. set_solver. }
  exists reachable. destruct (reach_correct _ _ _ _ _ Hg Hi Hr) as (Hsub & Hcl & Hreach).
  split_and!; [done|set_solver|]. intros v. split.
  - intros (u & ->%elem_of_singleton & Huv)%Hreach. done.
  - assert (∀ u, rtc (edge graph) u v → u ∈ reachable → v ∈ reachable) as Hclosed.
    { induction 1 as [|u w v Huw _ IH]; [done|]. intros Hu. apply IH. by eapply Hcl. }
    intros Hv. apply (Hclosed root Hv). set_solver.
Qed.

Lemma count_importers_ok nodes keys from indegree :
  nodes = dom graph → Z.of_nat (size graph) <= u64_max →
  NoDup keys → (∀ u, u ∈ keys → u ∉ from) → from ⊆ nodes →
  degrees graph nodes from indegree →
  ∃ result, try_fold (count_importer graph nodes) indegree keys = Ok result.
Proof using Hg.
  clear Hroot. intros Hnodes Hsize. revert from indegree.
  induction keys as [|u keys IH]; intros from indegree Hn Hnew Hfrom Hd; cbn [try_fold]; [by eexists|].
  apply NoDup_cons in Hn as [Hnu Hn]. destruct (count_importer graph nodes indegree u) as [next|e] eqn:He.
  - destruct (decide (u ∈ nodes)) as [Hu|Hu].
    + apply (IH ({[u]} ∪ from)); [done|set_solver|set_solver|].
      pose proof (count_importers graph nodes [u] from indegree next Hg) as Hc.
      replace ({[u]} ∪ from) with (from ∪ (list_to_set [u] ∩ nodes)) by set_solver.
      apply Hc; [apply NoDup_singleton|set_solver|done|]. cbn [try_fold]. by rewrite He.
    + unfold count_importer in He. rewrite decide_False in He by done. injection He as <-.
      apply (IH from); [done|set_solver|done..].
  - exfalso. unfold count_importer in He. destruct (decide (u ∈ nodes)) as [Hu|Hu]; [|done].
    destruct (count_edges_ok (targets_of graph u) indegree (Z.of_nat (size nodes))) as [? Hok];
      [|rewrite Hnodes, (size_keys graph); done|apply Hg|congruence].
    intros t Ht. assert (t ∈ nodes) as Htn by (rewrite Hnodes; by eapply closed_targets).
    destruct Hd as [_ Hd]. exists (Z.of_nat (size (importers graph from t))). split; [by apply Hd|].
    assert (size (importers graph from t) < size nodes)%nat; [|lia].
    apply subset_size. split; [unfold importers; set_solver|]. intros Hsub.
    assert (u ∈ importers graph from t) as Hin by (by apply Hsub).
    apply elem_of_filter in Hin as [_ Hin]. apply (Hnew u); [left|done].
Qed.

(** What the loop visits when it starts with all the in-degrees. *)
Lemma kahn_all indegree :
  indegrees graph (dom graph) = Ok indegree →
  ∃ visited, kahn (S (size indegree)) graph (initial_ready indegree) indegree 0 = Some (Ok (size visited))
    ∧ visited ⊆ dom graph ∧ no_cycle graph visited
    ∧ (∀ x, x ∈ dom graph → x ∉ visited →
         ∃ u, u ∈ dom graph ∧ (u ∉ visited) ∧ edge graph u x).
Proof using Hg.
  clear Hroot. intros Hi%indegrees_correct; [|done..].
  assert (size indegree = size (dom graph)) as Hs by (rewrite <- (size_keys indegree); destruct Hi as [-> _]; done).
  rewrite <- (size_empty (C := gset string)).
  apply kahn_correct; [done| |by apply kahn_initial|set_solver|rewrite Hs; lia].
  intros u v Huv. split; [by eapply edge_source|by eapply closed_targets].
Qed.

Lemma package_graph_cases :
  (∃ e, validate_package_graph graph root = Some (Err e))
  ∨ (∃ reachable, validate_package_graph graph root = Some (Ok reachable)
       ∧ reachable = dom graph
       ∧ (∀ v, v ∈ reachable ↔ rtc (edge graph) root v) ∧ no_cycle graph (dom graph)).
Proof using Hg Hroot.
  destruct reach_root as (reachable & Hr & Hin & Hreach). unfold validate_package_graph. rewrite Hr.
  destruct (existsb _ (btree_keys graph)) eqn:Hex; [left; by eexists|].
  assert (reachable = dom graph) as Heq.
  { apply set_eq. intros x. split.
    - intros Hx%Hreach. destruct (proj1 (rtc_tc _ _) Hx) as [<-|(y & _ & Hy)%tc_last]; [done|].
      by eapply closed_targets.
    - intros Hx. destruct (decide (x ∈ reachable)) as [?|Hnot]; [done|]. exfalso.
      assert (existsb (λ package, negb (bool_decide (package ∈ reachable))) (btree_keys graph) = true) as Ht.
      { apply existsb_exists. exists x. rewrite <- list_elem_of_In, elem_of_btree_keys.
        by rewrite bool_decide_eq_false_2. }
      congruence. }
  subst reachable. destruct (indegrees graph (dom graph)) as [indegree|e] eqn:Hi; [|left; by eexists].
  destruct (kahn_all indegree Hi) as (visited & -> & Hsub & Hno & _).
  destruct (Nat.eqb_spec (size visited) (size (dom graph))) as [Hs|Hs]; cbn [negb]; [|left; by eexists].
  right. exists (dom graph). split_and!; [done..|].
  assert (visited = dom graph) as <-; [|done]. apply set_subseteq_size_eq; [done|lia].
Qed.

Lemma package_graph_accepts :
  Z.of_nat (size graph) <= u64_max →
  (∀ v, v ∈ dom graph → rtc (edge graph) root v) → no_cycle graph (dom graph) →
  validate_package_graph graph root = Some (Ok (dom graph)).
Proof using Hg Hroot.
  intros Hsize Hall Hno. destruct reach_root as (reachable & Hr & Hin & Hreach).
  assert (reachable = dom graph) as Heq.
  { apply set_eq. intros x. rewrite Hreach. split; [|by apply Hall].
    intros [<-|(y & _ & Hy)%tc_last]%rtc_tc; [done|]. by eapply closed_targets. }
  subst reachable. unfold validate_package_graph. rewrite Hr.
  destruct (existsb _ (btree_keys graph)) eqn:Hex.
  { apply existsb_exists in Hex as (x & Hx & Hnot). rewrite <- list_elem_of_In, elem_of_btree_keys in Hx.
    by rewrite bool_decide_eq_true_2 in Hnot. }
  destruct (count_importers_ok (dom graph) (btree_keys graph) ∅
              (set_to_map (λ package, (package, 0)) (dom graph))) as [indegree Hi];
    [done|done|apply NoDup_btree_keys|set_solver|set_solver|apply initial_degrees|].
  change (indegrees graph (dom graph) = Ok indegree) in Hi. rewrite Hi.
  destruct (kahn_all indegree Hi) as (visited & -> & Hsub & _ & Hleft).
  assert (dom graph ⊆ visited) as Hall'.
  { intros x Hx. destruct (decide (x ∈ visited)) as [?|Hxv]; [done|]. exfalso.
    destruct (importers_cycle graph (dom graph ∖ visited) (size (dom graph ∖ visited ∖ ∅)) ∅ x)
      as (y & Hy & Hyy); [|set_solver|set_solver|set_solver|done|].
    - intros y [Hy1 Hy2]%elem_of_difference. destruct (Hleft y Hy1 Hy2) as (u & ? & ? & ?).
      exists u. set_solver.
    - apply (Hno y); [set_solver|done]. }
  assert (visited = dom graph) as -> by (apply set_eq; set_solver).
  by rewrite Nat.eqb_refl.
Qed.
End Check.

(** ** The graph of the imports *)

Definition imports_edge (imports : list ImportContract) (u v : string) : Prop :=
  ∃ import, import ∈ imports ∧ im_importer import = u ∧ import_target import = v.

(** The graph of the imports read so far. *)
Record import_inv (root : string) (imports : list ImportContract) (graph : PackageGraph) : Prop := {
  ii_edges : ∀ u v, edge graph u v ↔ imports_edge imports u v;
  ii_nodes : ∀ x, x ∈ dom graph ↔
    x = root ∨ ∃ import, import ∈ imports ∧ (x = im_importer import ∨ x = import_target import);
  ii_sorted : ∀ u, sorted_strings (targets_of graph u) }.

Lemma targets_insert graph p l u :
  targets_of (<[p := l]> graph) u = if decide (u = p) then l else targets_of graph u.
Proof.
  unfold targets_of. destruct (decide (u = p)) as [->|Hne].
  - by rewrite lookup_insert_eq.
  - by rewrite lookup_insert_ne.
Qed.

Lemma targets_node p graph u : targets_of (graph_node p graph) u = targets_of graph u.
Proof. unfold graph_node. rewrite targets_insert. by case_decide; subst. Qed.

Lemma targets_edge importer target graph u :
  targets_of (graph_edge importer target graph) u
  = if decide (u = importer) then set_insert target (targets_of graph importer) else targets_of graph u.
Proof. unfold graph_edge. by rewrite targets_node, targets_insert. Qed.

Lemma import_inv_add root imports graph import :
  import_inv root imports graph →
  import_inv root (imports ++ [import])
    (graph_edge (im_importer import) (import_target import) graph).
Proof.
  intros [He Hn Hs]. constructor.
  - intros u v. unfold edge in *. rewrite targets_edge. unfold imports_edge in *.
    setoid_rewrite elem_of_app. setoid_rewrite list_elem_of_singleton.
    case_decide as Hu; [subst u; rewrite elem_of_set_insert|]; rewrite He; naive_solver.
  - intros x. unfold graph_edge, graph_node. rewrite !dom_insert_L, !elem_of_union, !elem_of_singleton, Hn.
    setoid_rewrite elem_of_app. setoid_rewrite list_elem_of_singleton. naive_solver.
  - intros u. rewrite targets_edge. case_decide; [by apply set_insert_sorted|done].
Qed.

Lemma import_graph_inv root imports graph :
  import_graph root imports = Ok graph → import_inv root imports graph.
Proof.
  unfold import_graph.
  assert (∀ later earlier tables tables', import_inv root earlier (gt_graph tables) →
            try_fold add_import tables later = Ok tables' →
            import_inv root (earlier ++ later) (gt_graph tables')) as Hall.
  { induction later as [|import later IH]; intros earlier tables tables' Hi; cbn [try_fold].
    - intros [= <-]. by rewrite app_nil_r.
    - unfold add_import at 1. destruct (conflicts _ _); [done|]. destruct (conflicts _ _); [done|]. intros Ht.
      rewrite (app_assoc earlier [import] later : (earlier ++ import :: later)%list = _).
      eapply IH; [|exact Ht]. by apply import_inv_add. }
  destruct (try_fold _ _ imports) as [tables|] eqn:Ht; [|done]. intros [= <-].
  eapply (Hall imports []); [|exact Ht]. constructor; cbn [gt_graph].
  - intros u v. unfold edge, imports_edge. rewrite targets_node. unfold targets_of. rewrite lookup_empty.
    set_solver.
  - intros x. unfold graph_node. rewrite dom_insert_L, dom_empty_L. set_solver.
  - intros u. rewrite targets_node. unfold targets_of. rewrite lookup_empty. constructor.
Qed.

Lemma import_inv_closed root imports graph :
  import_inv root imports graph → closed_graph graph ∧ root ∈ dom graph.
Proof.
  intros [He Hn Hs]. split; [|by apply Hn; left]. constructor.
  - intros u v Huv%He. destruct Huv as (import & Hi & <- & <-). apply Hn. right. exists import. auto.
  - intros u. by apply sorted_strings_NoDup.
Qed.

(** The two loops end, and no in-degree underflows. *)
Lemma contract_graph_total `{Semver} artifact manifest :
  validate_contract_graph artifact manifest ≠ None.
Proof.
  unfold validate_contract_graph. set (root := _ ++ _).
  destruct (import_graph root (imports artifact)) as [graph|e] eqn:Hg; [|done].
  apply import_graph_inv, import_inv_closed in Hg as [Hc Hr].
  by destruct (package_graph_cases graph root Hc Hr) as [[e ->]|(reachable & -> & _)].
Qed.

(** ** Claims *)

Section Claims.
Context `{Semver}.

(** C8. An accepted package graph has no cycle and no stray package: every importer
    and every imported package is reached from the package of the manifest along
    imports, and no package imports itself, directly or through others. *)
Theorem accepted_package_graph artifact manifest :
  validate_contract_graph artifact manifest = Some (Ok tt) →
  let root := mc_package manifest ++ "@" ++ mc_version manifest in
  (∀ import, import ∈ imports artifact →
     rtc (imports_edge (imports artifact)) root (im_importer import)
     ∧ rtc (imports_edge (imports artifact)) root (import_target import))
  ∧ ∀ package, ¬ tc (imports_edge (imports artifact)) package package.
Proof.
  intros Hv root. unfold validate_contract_graph in Hv. fold root in Hv.
  destruct (import_graph root (imports artifact)) as [graph|e] eqn:Hg; [|done].
  apply import_graph_inv in Hg as Hi. destruct (import_inv_closed _ _ _ Hi) as [Hc Hr].
  destruct (package_graph_cases graph root Hc Hr) as [[e He]|(reachable & Hok & Hdom & Hreach & Hno)];
    [rewrite He in Hv; done|]. clear Hv Hok Hg. subst reachable.
  assert (∀ u v, rtc (edge graph) u v → rtc (imports_edge (imports artifact)) u v) as Hrtc.
  { induction 1; [done|]. eapply rtc_l; [|done]. by apply (ii_edges _ _ _ Hi). }
  assert (∀ u v, tc (imports_edge (imports artifact)) u v → tc (edge graph) u v) as Htc.
  { induction 1; [apply tc_once|eapply tc_l; [|done]]; by apply (ii_edges _ _ _ Hi). }
  split.
  - intros import Him. split; apply Hrtc, Hreach, (ii_nodes _ _ _ Hi); right; exists import; auto.
  - intros package Hp%Htc. apply (Hno package); [|done].
    destruct (tc_last _ _ _ Hp) as (u & _ & Hu). by eapply closed_targets.
Qed.

(** The check accepts every package graph that is acyclic and reachable: with
    consistent import contracts, the walk returns all the packages of the graph. *)
Theorem acyclic_package_graph root imports graph :
  import_graph root imports = Ok graph → Z.of_nat (size graph) <= u64_max →
  (∀ import, import ∈ imports → rtc (imports_edge imports) root (im_importer import)) →
  (∀ package, ¬ tc (imports_edge imports) package package) →
  validate_package_graph graph root = Some (Ok (dom graph)).
Proof.
  intros Hg Hsize Hall Hno. apply import_graph_inv in Hg as Hi.
  destruct (import_inv_closed _ _ _ Hi) as [Hc Hr].
  assert (∀ u v, rtc (imports_edge imports) u v → rtc (edge graph) u v) as Hrtc.
  { induction 1; [done|]. eapply rtc_l; [|done]. by apply (ii_edges _ _ _ Hi). }
  assert (∀ u v, tc (edge graph) u v → tc (imports_edge imports) u v) as Htc.
  { induction 1; [apply tc_once|eapply tc_l; [|done]]; by apply (ii_edges _ _ _ Hi). }
  apply package_graph_accepts; [done..| |].
  - intros v [->|(import & Him & [->| ->])]%(ii_nodes _ _ _ Hi); [done|by apply Hrtc, Hall|].
    eapply rtc_r; [by apply Hrtc, Hall|]. apply (ii_edges _ _ _ Hi). by exists import.
  - intros x _ Hx%Htc. by apply (Hno x).
Qed.
End Claims.

(** The sample package imports one other, which imports nothing. *)
Lemma accepted_package_graph_witness :
  @validate_contract_graph releases sample sample_manifest = Some (Ok tt)
  ∧ (∀ import, import ∈ sample_imports →
       rtc (imports_edge sample_imports) "demo@1.0.0" (im_importer import)
       ∧ rtc (imports_edge sample_imports) "demo@1.0.0" (import_target import))
  ∧ ∀ package, ¬ tc (imports_edge sample_imports) package package.
Proof.
  split; [vm_compute; reflexivity|].
  apply (@accepted_package_graph releases sample sample_manifest). vm_compute. reflexivity.
Defined.

Lemma sample_edges u v :
  imports_edge sample_imports u v → u = "demo@1.0.0" ∧ v = "math@2.1.0".
Proof.
  intros (import & Hin & <- & <-). apply list_elem_of_singleton in Hin as ->. done.
Qed.

Lemma acyclic_package_graph_witness :
  match import_graph "demo@1.0.0" sample_imports with
  | Ok graph => validate_package_graph graph "demo@1.0.0" = Some (Ok (dom graph)) ∧ size graph = 2%nat
  | Err _ => False
  end.
Proof.
  destruct (import_graph "demo@1.0.0" sample_imports) as [graph|e] eqn:Hg;
    [|vm_compute in Hg; discriminate].
  assert (size graph = 2%nat) as Hs by (vm_compute in Hg; injection Hg as <-; vm_compute; reflexivity).
  split; [|done]. apply (acyclic_package_graph "demo@1.0.0" sample_imports graph); [done|by rewrite Hs| |].
  - intros import ->%list_elem_of_singleton. apply rtc_refl.
  - intros package Hp. destruct (tc_last _ _ _ Hp) as (v & Hr & He). apply sample_edges in He as [-> ->].
    apply rtc_inv in Hr as [Hr|(w & Hw & _)]; [done|]. by apply sample_edges in Hw as [Hw _].
Defined.
