(* ===== verification/ArtifactRoundtrip.v ===== *)
(** * The sections of an artifact round-trip

    What the encoder writes for a section, the reader of the section reads back:
    [encodes] for every section, and [yields] for the readers that open one. *)

From S2P Require Import Prelude Text Bytecode ArtifactBytes ArtifactModel ArtifactCodec.
From S2P Require Import ArtifactFormat ArtifactSections ArtifactTables.
Open Scope string_scope.
Open Scope Z_scope.

(** ** Widths

    What the types of the source make sure of: integers fit, digests have 32 bytes,
    text is UTF-8. *)

Definition is_z32 (z : Z) : bool := in_unsigned u32_max z.
Definition is_z64 (z : Z) : bool := in_unsigned u64_max z.
Definition is_digest (d : list Z) : bool := (length d =? 32)%nat.
Definition is_text (s : string) : bool := utf8_valid (bytes s).

Definition constant_width (c : Constant) : bool :=
  match c with CInt value => in_i64 value | CFloat bits => is_z64 bits | _ => true end.
Definition segment_width (s : EntryValidatorPathSegment) : bool :=
  match s with
  | SegField i | SegTupleElement i => is_u32 i
  | SegEnumPayload v e => is_u32 v && is_u32 e
  | _ => true
  end.
Definition site_width (s : EntryValidatorSite) : bool :=
  is_u32 (site_invariant s) && forallb segment_width (site_path s).
Definition provenance_width (p : EntryRecordProvenance) : bool := forallb segment_width (rp_path p).
Definition entry_width (e : EntryContract) : bool :=
  is_u32 (en_function e) && is_u32 (en_input_schema e) && is_u32 (en_output_schema e)
  && forallb site_width (en_input_validators e) && forallb site_width (en_output_validators e)
  && forallb provenance_width (en_input_record_provenance e)
  && forallb provenance_width (en_output_record_provenance e)
  && is_digest (en_input_contract_digest e) && is_digest (en_output_contract_digest e).
Definition tool_width (t : ToolContract) : bool :=
  is_u32 (tc_input_schema t) && is_u32 (tc_output_schema t) && is_u32 (tc_error_schema t)
  && is_digest (tc_input_digest t) && is_digest (tc_output_digest t) && is_digest (tc_error_digest t).
Definition manifest_width (m : ManifestContract) : bool :=
  forallb (λ l : string * Z, is_z64 l.2) (mc_limits m) && forallb tool_width (mc_required_tools m)
  && is_digest (mc_tool_contract_digest m).
Definition marker_width (m : TemplateMarker) : bool :=
  is_z32 (tm_start m) && is_z32 (tm_end m) && is_u32 (tm_hole m).
Definition template_width (t : TemplateResource) : bool :=
  is_text (tr_content t) && is_digest (tr_digest t) && forallb marker_width (tr_markers t).
Definition location_width (l : DebugLocation) : bool :=
  is_u32 (dl_function l) && is_u32 (dl_instruction l) && is_u32 (dl_source l)
  && is_z32 (dl_start l) && is_z32 (dl_end l).
Definition debug_width (d : DebugInfo) : bool := forallb location_width (dbg_locations d).
Definition field_width (f : RecordField) : bool := type_width f.2.
Definition payload_width (p : EnumPayloadType) : bool :=
  match p with
  | PTUnit => true
  | PTTuple types => forallb type_width types
  | PTRecord fields => forallb field_width fields
  end.
Definition enum_width (e : EnumType) : bool :=
  forallb (λ v, payload_width (ev_payload v)) (et_variants e).
Definition function_width (f : Function) : bool :=
  forallb is_u16 (fn_parameters f) && forallb is_u16 (fn_captures f)
  && forallb (λ d, match d with Some d => is_digest d | None => true end)
       (fn_parameter_default_digests f)
  && forallb type_width (fn_registers f) && type_width (fn_return_type f) && is_u32 (fn_effects f)
  && forallb instruction_width (fn_code f).
Fixpoint expr_width (e : ValidatorExpr) : bool :=
  match e with
  | VBool_ _ => true
  | VField field t => is_u32 field && type_width t
  | VNot v => expr_width v
  | VBoolBinary _ l r | VCompare _ l r => expr_width l && expr_width r
  end.
Definition invariant_width (d : RecordInvariantDefinition) : bool :=
  forallb field_width (ri_fields d) && expr_width (ri_predicate d).

(** ** Primitives *)

Lemma encodes_u16_z z : 0 <= z <= u16_max → encodes (Ok (le_bytes 2 z)) u16_z z.
Proof. unfold u16_max. intros Hz. apply (encodes_le 2 z id); [simpl; lia|done]. Qed.
Lemma encodes_is_z32 z : is_z32 z = true → encodes (put_z32 z) u32_z z.
Proof. intros Hz%in_unsigned_spec. by apply encodes_z32. Qed.
Lemma encodes_is_z64 z : is_z64 z = true → encodes (put_u64 z) u64 z.
Proof. intros Hz%in_unsigned_spec. by apply encodes_u64. Qed.
Lemma encodes_digest d : is_digest d = true → encodes (put_slice d) digest d.
Proof. intros Hd%Nat.eqb_eq. apply encodes_bytes. by rewrite Hd. Qed.
Lemma encodes_bool b : encodes (put_bool b) bool_ b.
Proof. unfold bool_, put_bool. format. destruct b; apply encodes_nil. Qed.

Lemma encodes_pure {A B} out (x : A) (k : A → Read B) y :
  encodes out (k x) y → encodes out (mret x ≫= k) y.
Proof. done. Qed.

Lemma encodes_lift {A B} out (a : A) x (k : A → Read B) y :
  x = Ok a → encodes out (k a) y → encodes out (lift x ≫= k) y.
Proof. by intros ->. Qed.

(** A nested part is a part of the whole. *)
Lemma emit_flatten xs parts : emit (emit xs :: parts) = emit (xs ++ parts)%list.
Proof.
  induction xs as [|x xs IH]; cbn [emit app]; [by destruct (emit parts)|]. cbn [emit] in IH.
  destruct x as [bs|e]; [|done]. rewrite <- IH. destruct (emit xs) as [cs|e]; [|done].
  destruct (emit parts) as [ds|e]; [|done]. by rewrite app_assoc.
Qed.

Lemma encodes_flatten {A} xs parts (p : Read A) y :
  encodes (emit (xs ++ parts)%list) p y → encodes (emit (emit xs :: parts)) p y.
Proof. by rewrite emit_flatten. Qed.

(** A length and the bytes it announces. *)
Lemma encodes_sized {A B} bs resource maximum resource' (charge : nat → Read A) (k : list Z → Read B) parts y :
  (∀ n, charges (charge n)) → encodes (emit parts) (k bs) y →
  encodes (emit (put_bytes bs resource :: parts))
    (n ← count maximum resource'; _ ← charge n; l ← take_bytes (Z.of_nat n); k l) y.
Proof.
  intros Hc Hk w Hw. apply emit_cons in Hw as (w1 & w2 & H1 & H2 & ->).
  apply emit_cons in H1 as (v1 & v2 & G1 & G2 & ->). apply emit_cons in G2 as (v3 & v4 & [= <-] & [= <-] & ->).
  rewrite app_nil_r, <- app_assoc. eapply reads_bind; [by eapply encodes_count|].
  assert (encodes (Ok (bs ++ w2)%list)
            (_ ← charge (length bs); l ← take_bytes (Z.of_nat (length bs)); k l) y) as He.
  { apply encodes_charge; [apply Hc|]. intros _ w [= <-].
    eapply reads_bind; [by apply take_bytes_reads|by apply Hk]. }
  by apply He.
Qed.

Lemma encodes_table_of `{Layout} {A} (put : A → Output) (read : Read A) (f : A → bool) l
    resource maximum resource' t :
  forallb f l = true → (∀ x, f x = true → encodes (put x) read x) →
  encodes (put_table resource put l) (table maximum resource' t read) l.
Proof. intros Hf Hp. apply encodes_table. by eapply Forall_width. Qed.

Lemma encodes_counted {A} (put : A → Output) (read : Read A) (f : A → bool) l
    resource maximum resource' :
  forallb f l = true → (∀ x, f x = true → encodes (put x) read x) →
  encodes (put_table resource put l) (n ← count maximum resource'; read_n n read) l.
Proof.
  intros Hf Hp. unfold put_table. eapply encodes_cons; [apply encodes_count|].
  apply encodes_single, encodes_read_n. by eapply Forall_width.
Qed.

(** ** Sections *)

(** The reader returns [x] and moves nothing, or a limit is exceeded. *)
Definition yields {A} (p : Read A) (x : A) : Prop :=
  ∀ r, match p r with
       | Ok (y, r') => y = x ∧ rd_bytes r' = rd_bytes r
       | Err e => ae_code e = LimitExceeded
       end.

Lemma yields_ret {A} (x : A) : yields (mret x) x.
Proof. intros r. done. Qed.

Lemma reads_yields_bind {A B} (p : Read A) (k : A → Read B) x y :
  yields p x → yields (k x) y → yields (p ≫= k) y.
Proof.
  intros Hp Hk r. unfold mbind, read_bind. specialize (Hp r). destruct (p r) as [[z r']|e]; [|done].
  destruct Hp as [-> Hr]. specialize (Hk r'). destruct (k x r') as [[z r'']|e]; [|done].
  destruct Hk as [-> Hr']. split; [done|congruence].
Qed.

Lemma yields_section {A} out payload (read : Read A) x :
  out = Ok payload → encodes out read x → yields (in_section payload read) x.
Proof.
  intros Hout He r. unfold in_section, mbind, read_bind, mret, read_ret.
  specialize (He payload Hout [] (rd_budget r)). rewrite app_nil_r in He.
  destruct (read _) as [[y r']|e]; [|done]. destruct He as [-> Hr]. unfold finish. by rewrite Hr.
Qed.

Ltac split_width :=
  repeat match goal with
  | H : _ && _ = true |- _ => apply andb_true_iff in H as [? ?]
  end.

#[export] Hint Resolve encodes_is_z32 encodes_is_z64 encodes_digest encodes_bool : format.

Lemma encodes_segment s : segment_width s = true → encodes (encode_validator_segment s) read_segment s.
Proof.
  intros Hs. unfold read_segment.
  destruct s; cbn [segment_width encode_validator_segment] in *; split_width; format.
Qed.
Lemma encodes_path path :
  forallb segment_width path = true → encodes (encode_validator_path path) decode_validator_path path.
Proof. intros Hp. eapply encodes_counted; [exact Hp|apply encodes_segment]. Qed.
#[export] Hint Resolve encodes_path : format.

Section Sections.
Context `{Layout} (limits : DecodeLimits) (strings : list string).
Hypothesis Hstrings : Z.of_nat (length strings) <= u32_max + 1.

Lemma encodes_sites sites :
  forallb site_width sites = true →
  encodes (encode_validator_sites sites) (decode_validator_sites limits) sites.
Proof using Type.
  intros Hs. eapply encodes_table_of; [exact Hs|]. intros [path invariant] Hw.
  unfold site_width in Hw. cbn [site_invariant site_path] in *. split_width. format.
Qed.

Local Hint Resolve encodes_string encodes_sites : format.

Lemma encodes_string_table l resource maximum resource' t :
  encodes (put_table resource (put_string strings) l)
    (table maximum resource' t (string_ref strings)) l.
Proof using Hstrings.
  eapply (encodes_table_of _ _ (λ _, true)); [by apply forallb_forall|]. auto with format.
Qed.
Local Hint Resolve encodes_string_table : format.
Local Hint Unfold string_table : format.

Lemma encodes_access a : encodes (put_u8 (access_tag a)) read_access a.
Proof using Type. unfold read_access. format. destruct a; apply encodes_nil. Qed.
Local Hint Resolve encodes_access : format.

Lemma encodes_constant c :
  constant_width c = true → encodes (encode_constant strings c) (read_constant limits strings) c.
Proof using Hstrings.
  intros Hc. unfold read_constant. destruct c as [value|value|bits|value|value| |access];
    cbn [constant_width encode_constant] in *; try (by format).
  - destruct (negb _) eqn:Hb; [intros w Hw; done|]. format. rewrite Hb. format.
  - format. apply encodes_sized; [intros; apply charges_bytes|apply encodes_nil].
Qed.

Lemma encodes_constants l payload :
  encode_constants strings l = Ok payload → forallb constant_width l = true →
  yields (decode_constants limits strings payload) l.
Proof using Hstrings.
  intros Hp Hl. eapply yields_section; [exact Hp|]. eapply encodes_table_of; [exact Hl|].
  apply encodes_constant.
Qed.

Lemma encodes_effects l payload :
  encode_effects strings l = Ok payload → yields (decode_effects limits strings payload) l.
Proof using Hstrings.
  intros Hp. eapply yields_section; [exact Hp|].
  eapply (encodes_table_of _ _ (λ _, true)); [by apply forallb_forall|]. intros. apply encodes_string_table.
Qed.

Lemma encodes_provenance l :
  forallb provenance_width l = true →
  encodes (encode_record_provenance strings l) (decode_record_provenance limits strings) l.
Proof using Hstrings.
  intros Hl. eapply encodes_table_of; [exact Hl|]. intros [path [name|]] Hw; unfold provenance_width in Hw;
    cbn [rp_path rp_identity] in *; unfold read_provenance; format; apply encodes_single; format.
Qed.
Local Hint Resolve encodes_provenance : format.

Lemma encodes_entry e : entry_width e = true → encodes (encode_entry strings e) (read_entry limits strings) e.
Proof using Hstrings.
  unfold entry_width, encode_entry, read_entry. intros Hw. split_width. format.
  destruct e. apply encodes_nil.
Qed.

Lemma encodes_entries l payload :
  encode_entries strings l = Ok payload → forallb entry_width l = true →
  yields (decode_entries limits strings payload) (0%nat, l).
Proof using Hstrings.
intros Hp Hl. eapply reads_yields_bind; [|apply yields_ret]. eapply yields_section; [exact Hp|].
  eapply encodes_table_of; [exact Hl|apply encodes_entry].
Qed.

Lemma encodes_import i :
  is_digest (im_content_digest i) = true → encodes (encode_import strings i) (read_import strings) i.
Proof using Hstrings.
  intros Hw. unfold encode_import, read_import. format. destruct i. apply encodes_nil.
Qed.

Lemma encodes_imports l payload :
  encode_imports strings l = Ok payload →
  forallb (λ i, is_digest (im_content_digest i)) l = true →
  yields (decode_imports limits strings payload) l.
Proof using Hstrings.
  intros Hp Hl. eapply yields_section; [exact Hp|]. eapply encodes_table_of; [exact Hl|].
  apply encodes_import.
Qed.

Lemma encodes_tools l resource maximum resource' t :
  forallb tool_width l = true →
  encodes (put_table resource (encode_tool strings) l)
    (table maximum resource' t (read_tool strings)) l.
Proof using Hstrings.
  intros Hl. eapply encodes_table_of; [exact Hl|]. intros tool Hw.
  unfold tool_width, encode_tool, read_tool in *. split_width. format. destruct tool. apply encodes_nil.
Qed.
Lemma encodes_limits l resource maximum resource' t :
  forallb (λ l : string * Z, is_z64 l.2) l = true →
  encodes (put_table resource (λ l : string * Z, emit [put_string strings l.1; put_u64 l.2]) l)
    (table maximum resource' t (name ← string_ref strings; value ← u64; mret (name, value))) l.
Proof using Hstrings.
  intros Hl. eapply encodes_table_of; [exact Hl|]. intros [name value] Hw. cbn [fst snd] in *. format.
Qed.
Local Hint Resolve encodes_tools encodes_limits : format.

Lemma encodes_manifest m payload :
  encode_manifest strings m = Ok payload → manifest_width m = true →
  yields (decode_manifest limits strings payload) m.
Proof using Hstrings.
  intros Hp Hw. eapply yields_section; [exact Hp|]. unfold manifest_width, encode_manifest in *.
  split_width. eapply encodes_cons; [by apply (encodes_u32 1)|]. cbn [Nat.eqb negb]. unfold string_table.
  format. destruct m. apply encodes_nil.
Qed.
Lemma encodes_holes l resource maximum resource' t :
  encodes (put_table resource (encode_hole strings) l) (table maximum resource' t (read_hole strings)) l.
Proof using Hstrings.
  eapply (encodes_table_of _ _ (λ _, true)); [by apply forallb_forall|]. intros [name ty] _.
  unfold encode_hole, read_hole, read_hole_type. cbn [th_name th_value_type]. format.
  destruct ty; cbn [hole_tag]; try (intros w Hw; by apply emit_cons in Hw as (? & ? & ? & ?)); format.
Qed.
Lemma encodes_markers l resource maximum resource' t :
  forallb marker_width l = true →
  encodes (put_table resource encode_marker l) (table maximum resource' t read_marker) l.
Proof using Type.
  intros Hl. eapply encodes_table_of; [exact Hl|]. intros m Hw. unfold marker_width in Hw. split_width.
  unfold encode_marker, read_marker. format. destruct m. apply encodes_nil.
Qed.
Local Hint Resolve encodes_holes encodes_markers : format.

Lemma encodes_template t :
  template_width t = true → encodes (encode_template strings t) (read_template limits strings) t.
Proof using Hstrings.
  unfold template_width. intros Hw. split_width. unfold encode_template, read_template. format.
  apply encodes_sized; [intros; apply charges_bytes|]. unfold is_text in *.
  replace (utf8_valid _) with true by done. cbn [negb]. format.
  destruct t. rewrite string_of_bytes_bytes. apply encodes_nil.
Qed.

Lemma encodes_templates l payload :
  encode_templates strings l = Ok payload → forallb template_width l = true →
  yields (decode_templates limits strings payload) l.
Proof using Hstrings.
  intros Hp Hl. eapply yields_section; [exact Hp|]. eapply encodes_table_of; [exact Hl|].
  apply encodes_template.
Qed.

Lemma encodes_locations l resource maximum resource' t :
  forallb location_width l = true →
  encodes (put_table resource encode_location l) (table maximum resource' t read_location) l.
Proof using Type.
  intros Hl. eapply encodes_table_of; [exact Hl|]. intros m Hw. unfold location_width in Hw. split_width.
  unfold encode_location, read_location. format. destruct m. apply encodes_nil.
Qed.
Local Hint Resolve encodes_locations : format.

Lemma encodes_debug d payload :
  encode_debug strings d = Ok payload → debug_width d = true →
  yields (decode_debug limits strings payload) d.
Proof using Hstrings.
  intros Hp Hd. eapply yields_section; [exact Hp|]. unfold encode_debug, debug_width in *. format.
  destruct d. apply encodes_nil.
Qed.

(** *** Types *)

Context (types : list ValueType) (type_keys : list (list Z)).
Hypothesis Hkeys : Forall2 (λ t key, encode_type strings t = Ok key) types type_keys.
Hypothesis Htypes : forallb type_width types = true.
Hypothesis Hcount : Z.of_nat (length types) <= u32_max + 1.
Local Hint Resolve encodes_type_ref encodes_instruction : format.

Lemma encodes_type_table l resource maximum resource' t :
  forallb type_width l = true →
  encodes (put_table resource (put_type strings type_keys) l)
    (table maximum resource' t (type_ref types)) l.
Proof using Hstrings Hkeys Htypes Hcount.
  intros Hl. eapply encodes_table_of; [exact Hl|]. eauto with format.
Qed.
Lemma encodes_field f :
  field_width f = true → encodes (put_field strings type_keys f) (read_field strings types) f.
Proof using Hstrings Hkeys Htypes Hcount.
  destruct f as [name t]. unfold field_width, put_field, read_field. cbn [fst snd]. intros Hf. format.
Qed.
Lemma encodes_field_table l resource maximum resource' t :
  forallb field_width l = true →
  encodes (put_table resource (put_field strings type_keys) l)
    (table maximum resource' t (read_field strings types)) l.
Proof using Hstrings Hkeys Htypes Hcount.
  intros Hl. eapply encodes_table_of; [exact Hl|]. apply encodes_field.
Qed.
Local Hint Resolve encodes_type_table encodes_field encodes_field_table : format.

Lemma encodes_payload p :
  payload_width p = true →
  encodes (encode_payload strings type_keys p) (decode_payload limits strings types) p.
Proof using Hstrings Hkeys Htypes Hcount.
  intros Hp. unfold decode_payload. destruct p; cbn [payload_width encode_payload] in *; format.
Qed.
Local Hint Resolve encodes_payload : format.

Lemma encodes_enum_type e :
  enum_width e = true →
  encodes (encode_enum_type strings type_keys e) (read_enum_type limits strings types) e.
Proof using Hstrings Hkeys Htypes Hcount.
  intros He. unfold encode_enum_type, read_enum_type. format. eapply encodes_cons.
  - eapply encodes_table_of; [exact He|]. intros v Hv. cbn beta in Hv. unfold read_variant. format.
    destruct v. apply encodes_nil.
  - destruct e. apply encodes_nil.
Qed.

Lemma encodes_schemas l payload :
  encode_schemas strings type_keys l = Ok payload →
  forallb (λ s, type_width (ss_value_type s)) l = true →
  yields (decode_schemas limits types payload) l.
Proof using Hstrings Hkeys Htypes Hcount.
  intros Hp Hl. eapply yields_section; [exact Hp|]. eapply encodes_table_of; [exact Hl|].
  intros [t] Ht. cbn [ss_value_type] in *. format.
Qed.

(** *** Validators *)

Lemma encodes_validator_bool_op o : encodes (put_u8 (bool_op o)) read_validator_bool_op o.
Proof using Type. unfold read_validator_bool_op. format. destruct o; apply encodes_nil. Qed.
Lemma encodes_validator_compare o : encodes (put_u8 (compare_op o)) read_validator_compare o.
Proof using Type. unfold read_validator_compare. format. destruct o; apply encodes_nil. Qed.

Lemma encodes_validator_expr e fuel nodes :
  expr_width e = true →
  encodes (encode_validator_expr strings type_keys e)
    (drawn (decode_validator_expr types fuel nodes)) e.
Proof using Hstrings Hkeys Htypes Hcount.
  revert fuel nodes.
  induction e as [b|field t|e IH|o l IHl r IHr|o l IHl r IHr]; intros [|fuel] nodes Hw;
    try (intros w Hw'; done); cbn [expr_width encode_validator_expr decode_validator_expr] in *; split_width;
    unfold drawn; (destruct (256 <? nodes + 1); [intros w Hw'; done|]); apply encodes_assoc;
    (eapply encodes_cons; [apply encodes_u8|]); cbn beta iota.
  - unfold read_validator_bool, put_bool. format. destruct b; apply encodes_nil.
  - format.
  - apply encodes_assoc. eapply encodes_drawn; [by apply IH|]. intros left. apply encodes_nil.
  - apply encodes_assoc. eapply encodes_cons; [apply encodes_validator_bool_op|]. apply encodes_assoc.
    eapply encodes_drawn; [by apply IHl|]. intros left. apply encodes_assoc.
    eapply encodes_drawn; [by apply IHr|]. intros left'. apply encodes_nil.
  - apply encodes_assoc. eapply encodes_cons; [apply encodes_validator_compare|]. apply encodes_assoc.
    eapply encodes_drawn; [by apply IHl|]. intros left. apply encodes_assoc.
    eapply encodes_drawn; [by apply IHr|]. intros left'. apply encodes_nil.
Qed.

Lemma encodes_validator d :
  invariant_width d = true →
  encodes (encode_validator strings type_keys d) (read_validator limits strings types) d.
Proof using Hstrings Hkeys Htypes Hcount.
  unfold invariant_width. intros Hw. split_width. unfold encode_validator, read_validator. format.
  apply encodes_flatten. cbn [app]. format.
  eapply encodes_cons; [apply encodes_read_n; eapply Forall_width; [done|apply encodes_field]|].
  eapply encodes_drawn; [by apply encodes_validator_expr|]. intros left. destruct d. apply encodes_nil.
Qed.

Lemma encodes_validators l payload :
  encode_validators strings type_keys l = Ok payload → forallb invariant_width l = true →
  yields (decode_validators limits strings types payload) l.
Proof using Hstrings Hkeys Htypes Hcount.
  intros Hp Hl. eapply yields_section; [exact Hp|]. eapply encodes_table_of; [exact Hl|].
  apply encodes_validator.
Qed.

(** *** Functions *)

Lemma encodes_function_digest d :
  match d with Some d => is_digest d | None => true end = true → encodes (put_digest d) read_digest d.
Proof using Type. intros Hd. unfold read_digest. destruct d; cbn [put_digest]; format. Qed.
Lemma encodes_registers l maximum :
  forallb is_u16 l = true → encodes (encode_registers l) (read_registers limits maximum) l.
Proof using Type. intros Hl. eapply encodes_table_of; [exact Hl|apply encodes_u16]. Qed.
Lemma encodes_code l resource maximum resource' t :
  forallb instruction_width l = true →
  encodes (put_table resource (encode_instruction strings type_keys) l)
    (table maximum resource' t (instruction limits types)) l.
Proof using Hstrings Hkeys Htypes Hcount.
  intros Hl. eapply encodes_table_of; [exact Hl|]. eauto with format.
Qed.
Local Hint Resolve encodes_function_digest encodes_registers encodes_code : format.

Lemma encodes_function f :
  function_width f = true → length (fn_parameter_default_digests f) = length (fn_parameters f) →
  encodes (encode_function strings type_keys f) (read_function limits strings types) f.
Proof using Hstrings Hkeys Htypes Hcount.
  unfold function_width. intros Hw Harity. split_width. unfold encode_function, read_function. format.
  apply encodes_flatten. cbn [app]. format. eapply encodes_cons.
  { apply encodes_read_n. eapply (Forall_width _ (λ _, true)); [by apply forallb_forall|].
    auto with format. }
  apply encodes_flatten. cbn [app]. format. rewrite Harity, Nat.eqb_refl. cbn [negb]. rewrite <- Harity.
  eapply encodes_cons; [apply encodes_read_n; eapply Forall_width; [done|apply encodes_function_digest]|].
  format. destruct f. apply encodes_nil.
Qed.

Definition digest_arity (f : Function) : bool :=
  (length (fn_parameter_default_digests f) =? length (fn_parameters f))%nat.

Lemma encodes_functions l async payload :
  encode_functions strings type_keys l async = Ok payload →
  forallb function_width l = true → forallb digest_arity l = true → forallb is_u32 async = true →
  async_in_range async (length l) = true →
  yields (decode_functions limits strings types payload) (l, async).
Proof using Hstrings Hkeys Htypes Hcount.
  intros Hp Hl Ha Hasync Hr. eapply yields_section; [exact Hp|]. unfold encode_functions. format.
  eapply encodes_cons; [eapply encodes_table_of; [exact Hasync|apply encodes_u32]|]. rewrite Hr. cbn [negb].
  eapply encodes_cons; [|apply encodes_nil]. apply encodes_read_n. apply Forall_forall. intros f Hf.
  apply encodes_function; [by eapply forallb_elem|]. apply Nat.eqb_eq. by eapply (forallb_elem digest_arity).
Qed.
End Sections.

(** ** The string table *)

Definition starts_after (previous : option (list Z)) (l : list string) : Prop :=
  match previous, l with Some p, s :: _ => bytes_ltb p (bytes s) = true | _, _ => True end.

Lemma encodes_read_strings `{Layout} limits l previous :
  sorted_strings l → starts_after previous l → forallb is_text l = true →
  encodes (emit (map (λ s, put_bytes (bytes s) "string") l)) (read_strings limits (length l) previous) l.
Proof.
  intros Hs. revert previous. induction Hs as [|s l Hl IH Hs]; intros previous Hp Ht;
    cbn [map length read_strings]; [apply encodes_nil|].
  cbn [forallb] in Ht. split_width. unfold is_text in *. apply encodes_flatten. cbn [app].
  unfold read_string. apply encodes_assoc. eapply encodes_cons; [apply encodes_count|].
  apply encodes_assoc. eapply encodes_cons; [by apply encodes_bytes|].
  assert ((match previous with
           | Some value =>
             if negb (bytes_ltb value (bytes s))
             then fail (noncanonical "strings must be unique and sorted by UTF-8 bytes") else mret tt
           | None => mret tt
           end) = mret tt :> Read unit) as -> by (destruct previous; [|done]; simpl in Hp; by rewrite Hp).
  replace (utf8_valid (bytes s)) with true by done. cbn [negb].
  apply encodes_assoc, encodes_charge; [done|]. intros []. format.
  apply encodes_pure. eapply encodes_last; [apply IH|].
  - destruct l as [|s' l]; [done|]. apply Forall_cons in Hs as [Hs _]. exact Hs.
  - done.
  - rewrite string_of_bytes_bytes. apply encodes_nil.
Qed.

Lemma encodes_strings `{Layout} limits l payload :
  encode_strings l = Ok payload → sorted_strings l → forallb is_text l = true →
  yields (decode_strings limits payload) l.
Proof.
  intros Hp Hs Ht. eapply yields_section; [exact Hp|]. unfold encode_strings, put_table. format.
  apply encodes_single. by apply encodes_read_strings.
Qed.

(** ** The type section *)

Lemma limited_type_node_count t : limited (type_node_count t).
Proof.
  induction t as [t Ht|e IH|a b IHa IHb|l IH|fs IH|n e IH|e IH|a b IHa IHb|e IH|e IH|e IH
                 |ps r e IH IHr] using ValueType_ind'; [by destruct t; try apply limited_limited_add|..];
    cbn [type_node_count]; try apply limited_limited_add; apply limited_bind;
    try (intros; apply limited_limited_add); try done; try (by apply limited_try_total);
    repeat (apply limited_bind; [done|intros]); try apply limited_limited_add.
  by apply limited_try_total.
Qed.

(** The keys of a sorted table are the encodings of its types. *)
Record keyed_ok (strings : list string) (keyed : list Keyed) : Prop := {
  ko_keys : Forall (λ k : Keyed, encode_type strings k.2 = Ok k.1) keyed;
  ko_sorted : StronglySorted (λ x y : Keyed, bytes_ltb x.1 y.1 = true) keyed;
  ko_width : forallb type_width (map snd keyed) = true;
  ko_count : Z.of_nat (length keyed) <= u32_max + 1 }.

Lemma keyed_Forall2 strings keyed :
  keyed_ok strings keyed →
  Forall2 (λ t key, encode_type strings t = Ok key) (map snd keyed) (map fst keyed).
Proof. intros [Hk _ _ _]. induction Hk; cbn [map]; constructor; done. Qed.

Lemma keyed_collect strings keyed :
  keyed_ok strings keyed → collect (type_key strings) (map snd keyed) = Ok (map fst keyed).
Proof.
  intros [Hk _ _ _]. unfold type_key. induction Hk as [|k l Hk _ IH]; cbn [map collect]; [done|].
  by rewrite Hk, IH.
Qed.

Lemma encodes_type_section `{Layout} limits strings keyed enums payload :
  Z.of_nat (length strings) <= u32_max + 1 → keyed_ok strings keyed →
  encode_type_section strings (map fst keyed) (map snd keyed) enums = Ok payload →
  forallb enum_width enums = true →
  yields (decode_type_section limits strings payload) (map snd keyed, enums).
Proof.
  intros Hs Hk Hp He. eapply yields_section; [exact Hp|]. unfold encode_type_section, read_types.
  eapply encodes_cons.
  { eapply encodes_table_of; [apply Hk|]. intros t Ht. by apply encodes_type. }
  apply encodes_charge.
  { apply budget_charges_lift, limited_try_total, Forall_forall. intros t _. apply limited_type_node_count. }
  intros nodes. destruct (_ <? nodes); [apply encodes_fail|].
  eapply encodes_lift; [by apply keyed_collect|].
  assert (keys_sorted (map fst keyed) = true) as ->.
  { unfold keys_sorted. rewrite windows2_sorted; [done|]. apply sorted_map. by apply Hk. }
  cbn [negb]. eapply encodes_cons; [|apply encodes_nil]. eapply encodes_table_of; [exact He|].
  intros e Hw. apply encodes_enum_type; [done|by apply keyed_Forall2|apply Hk| |done].
  rewrite length_map. apply Hk.
Qed.

(** ** Framing *)

(** The sections from [index] on. *)
Definition framed (limits : DecodeLimits) (index : nat) (sections : list Section_) : Prop :=
  ∀ i s, sections !! i = Some s →
    section_raw (sec_id s) = Z.of_nat (index + i) + 1
    ∧ Z.of_nat (length (sec_payload s)) <= section_bytes limits.

Lemma from_raw_section id : from_raw (section_raw id) = Some id.
Proof. by destruct id. Qed.

Lemma expected_section index id :
  section_raw id = Z.of_nat index + 1 → default Debug (MANDATORY !! index) = id.
Proof.
  intros Hr. assert (index < 12)%nat by (destruct id; simpl in Hr; lia).
  do 12 (destruct index as [|index]; [by destruct id|]). lia.
Qed.

Lemma encodes_sections limits sections index :
  section_bytes limits <= u64_max → framed limits index sections →
  encodes (emit (map put_section sections))
    (read_sections limits (length sections) index (Z.of_nat index)) sections.
Proof.
  intros Hu. revert index. induction sections as [|s sections IH]; intros index Hf;
    cbn [map length read_sections]; [apply encodes_nil|].
  destruct (Hf 0%nat s) as [Hraw Hlen]; [done|]. rewrite Nat.add_0_r in Hraw.
  assert (1 <= section_raw (sec_id s) <= 12) as Hrange by (destruct (sec_id s); simpl; lia).
  unfold put_section. apply encodes_flatten. cbn [app]. eapply encodes_cons.
  { apply encodes_u16_z. unfold u16_max. lia. }
  cbn beta. rewrite from_raw_section, (expected_section index (sec_id s)) by done.
  destruct (Z.eqb_spec (section_raw (sec_id s)) (Z.of_nat index)); [lia|].
  destruct (Z.ltb_spec (section_raw (sec_id s)) (Z.of_nat index)); [lia|].
  rewrite bool_decide_eq_true_2 by done. cbn [negb].
  eapply encodes_cons; [apply encodes_u64; lia|]. destruct (Z.ltb_spec (section_bytes limits)
    (Z.of_nat (length (sec_payload s)))); [lia|].
  eapply encodes_cons; [by apply encodes_bytes|]. eapply encodes_last; [|destruct s; apply encodes_nil].
  replace (section_raw (sec_id s)) with (Z.of_nat (S index)) by lia. apply IH.
  intros i s' Hs'. destruct (Hf (S i) s' Hs') as [H1 H2]. split; [|done]. rewrite H1. lia.
Qed.
