(* ===== verification/ArtifactCorrect.v ===== *)
(** * The codec of artifacts is correct

    Decoding gives back what was encoded, and byte strings that decode are the
    canonical encodings of their artifacts. *)

From S2P Require Import Prelude Text Bytecode VerifierTypes VerifierModule ArtifactBytes.
From S2P Require Import ArtifactModel ArtifactCodec ArtifactFormat ArtifactSections.
From S2P Require Import ArtifactTables ArtifactNames ArtifactChecks ArtifactRoundtrip Artifact.
From S2P Require Import ArtifactSample.
Open Scope string_scope.
Open Scope Z_scope.

(** ** Artifacts *)

Definition version_width (v : SemanticVersion) : bool :=
  in_unsigned u16_max (sv_major v) && in_unsigned u16_max (sv_minor v)
  && in_unsigned u16_max (sv_patch v).

(** What the types of the source make sure of. *)
Definition artifact_width (a : Artifact) : bool :=
  let m := module_ a in
  version_width (compiler_version (metadata a))
  && forallb is_text (artifact_strings a) && forallb type_width (collect_types a)
  && forallb constant_width (constants m) && forallb enum_width (enum_types m)
  && forallb function_width (functions m) && forallb is_u32 (async_functions m)
  && forallb (λ s, type_width (ss_value_type s)) (schemas a) && forallb entry_width (entries a)
  && forallb (λ i, is_digest (im_content_digest i)) (imports a)
  && match manifest a with Some m => manifest_width m | None => true end
  && forallb template_width (templates a) && forallb invariant_width (record_invariants a)
  && match debug a with Some d => debug_width d | None => true end.

(** What the encoder does not look at, but the decoder checks or fills in: the
    language version, the entry function, the order of the effect sets and the
    number of default digests. *)
Definition artifact_canonical (a : Artifact) : bool :=
  bool_decide (language_version (metadata a) = language_version ArtifactMetadata_default)
  && (entry (module_ a) =? 0)%nat
  && is_ok (validate_canonical_effect_sets (effect_sets (module_ a)))
  && forallb digest_arity (functions (module_ a)).

(** ** The tables *)

Lemma collect_strings_sorted a : sorted_strings (collect_strings a).
Proof. apply set_extend_sorted. constructor. Qed.

Lemma collect_strings_text a :
  forallb is_text (artifact_strings a) = true → forallb is_text (collect_strings a) = true.
Proof.
  rewrite !forallb_forall. intros Ht s Hs. apply Ht. apply list_elem_of_In in Hs.
  apply elem_of_set_extend in Hs as [Hs|Hs]; [by apply list_elem_of_In|by apply not_elem_of_nil in Hs].
Qed.

Lemma keyed_types_ok a strings keyed :
  keyed_types a strings = Ok keyed → forallb type_width (collect_types a) = true →
  Z.of_nat (length keyed) <= u32_max + 1 → keyed_ok strings keyed.
Proof.
  unfold keyed_types. destruct (collect _ (collect_types a)) as [all|] eqn:Hc; [|done].
  intros [= <-] Hw Hlen. destruct (keyed_table all) as (Hsorted & Hin & _).
  apply collect_ok in Hc.
  assert (∀ x, x ∈ all → encode_type strings x.2 = Ok x.1 ∧ type_width x.2 = true) as Hall.
  { intros x Hx. apply list_elem_of_lookup in Hx as [i Hi].
    destruct (Forall2_lookup_r _ _ _ _ _ Hc Hi) as (t & Ht & Hkey). unfold type_key in Hkey.
    destruct (encode_type strings t) as [key|] eqn:Hk; [|done]. injection Hkey as <-. cbn [fst snd].
    split; [done|]. eapply forallb_elem; [exact Hw|]. by eapply list_elem_of_lookup_2. }
  constructor; [|done| |done].
  - apply Forall_forall. intros x Hx. by apply Hall, Hin.
  - apply forallb_forall. intros t Ht. apply in_map_iff in Ht as (x & <- & Hx).
    apply Hall, Hin. by apply list_elem_of_In.
Qed.

Lemma encode_tables_ok a limits strings keyed :
  encode_tables a limits = Ok (strings, keyed) → forallb type_width (collect_types a) = true →
  strings = collect_strings a ∧ Z.of_nat (length strings) <= u32_max + 1 ∧ keyed_ok strings keyed.
Proof.
  unfold encode_tables, check_indices. intros He Hw. destruct (_ || _); [done|].
  destruct (Z.ltb_spec (u32_max + 1) (Z.of_nat (length (collect_strings a)))); [done|].
  destruct (keyed_types a _) as [keyed'|] eqn:Hk; [|done]. destruct (_ <? _); [done|].
  destruct (expanded_node_count _) as [nodes|]; [|done]. destruct (_ <? nodes); [done|].
  destruct (Z.ltb_spec (u32_max + 1) (Z.of_nat (length keyed'))); [done|]. injection He as <- <-.
  split_and!; [done|done|]. by eapply keyed_types_ok.
Qed.

(** ** The sections *)

Lemma artifact_eta a :
  a = {| metadata := metadata a;
         module_ := {| constants := constants (module_ a); enum_types := enum_types (module_ a);
                       effect_sets := effect_sets (module_ a); functions := functions (module_ a);
                       async_functions := async_functions (module_ a); entry := entry (module_ a) |};
         debug := debug a; schemas := schemas a; entries := entries a; imports := imports a;
         manifest := manifest a; templates := templates a; record_invariants := record_invariants a |}.
Proof. destruct a as [? [] ? ? ? ? ? ? ?]. done. Qed.

Section Sections.
Context `{Layout} (limits : DecodeLimits) (a : Artifact) (strings : list string) (keyed : list Keyed).
Hypothesis Hstrings : strings = collect_strings a.
Hypothesis Hcount : Z.of_nat (length strings) <= u32_max + 1.
Hypothesis Hkeyed : keyed_ok strings keyed.
Hypothesis Hwidth : artifact_width a = true.
Hypothesis Hcanonical : artifact_canonical a = true.
Hypothesis Hasync :
  async_in_range (async_functions (module_ a)) (length (functions (module_ a))) = true.

Lemma encode_section_ok id out s :
  encode_section id out = Ok s → sec_id s = id ∧ out = Ok (sec_payload s).
Proof using Type. unfold encode_section. destruct out; [|done]. by intros [= <-]. Qed.

Definition section_ids : list SectionId :=
MANDATORY ++ match debug a with Some _ => [Debug] | None => [] end.

(** The sections of a successful encoding, one by one. *)
Record section_list (sections : list Section_) : Prop := {
  sl_payload : ∀ i id out,
    mandatory_sections a strings (map snd keyed) (map fst keyed) !! i = Some (id, out) →
    ∃ s, sections !! i = Some s ∧ sec_id s = id ∧ out = Ok (sec_payload s);
  sl_debug : match debug a with
             | Some d => length sections = 12%nat
                         ∧ ∃ s, sections !! 11%nat = Some s ∧ sec_id s = Debug
                                ∧ encode_debug strings d = Ok (sec_payload s)
             | None => length sections = 11%nat
             end }.

Lemma encode_sections_list sections :
  encode_sections a strings (map snd keyed) (map fst keyed) = Ok sections → section_list sections.
Proof using Type.
  unfold encode_sections. destruct (collect _ _) as [mandatory|] eqn:Hc; [|done].
  assert (length mandatory = 11%nat) as Hlen by (by apply collect_length in Hc). apply collect_ok in Hc.
  assert (∀ rest i id out, mandatory_sections a strings (map snd keyed) (map fst keyed) !! i = Some (id, out) →
            ∃ s, (mandatory ++ rest)%list !! i = Some s ∧ sec_id s = id ∧ out = Ok (sec_payload s)) as Hm.
  { intros rest i id out Hi. destruct (Forall2_lookup_l _ _ _ _ _ Hc Hi) as (s & Hs & He).
    apply encode_section_ok in He. exists s. split; [|done]. by apply lookup_app_l_Some. }
  destruct (debug a) as [d|] eqn:Hd.
  - destruct (encode_section Debug _) as [s|] eqn:Hs; [|done]. intros [= <-].
    apply encode_section_ok in Hs as [Hid Hs]. constructor; [apply Hm|]. rewrite Hd.
    split; [rewrite length_app, Hlen; done|]. exists s. split; [|done].
    rewrite lookup_app_r by lia. by rewrite Hlen.
  - intros [= <-]. constructor; [|by rewrite Hd, Hlen]. intros i id out Hi.
    rewrite <- (app_nil_r mandatory). by apply Hm.
Qed.

Lemma yields_sections sections header :
  section_list sections → hd_metadata header = metadata a → hd_section_count header = length sections →
  yields (decode_sections limits header (λ i, default [] (option_map sec_payload (sections !! i))))
    (a, strings).
Proof using Hstrings Hcount Hkeyed Hwidth Hcanonical Hasync.
  intros [Hs Hd] Hmeta Hn. unfold artifact_width, artifact_canonical in *. split_width.
  unfold decode_sections.
  destruct (Hs 0%nat _ _ eq_refl) as (s0 & -> & _ & E0). destruct (Hs 1%nat _ _ eq_refl) as (s1 & -> & _ & E1).
  destruct (Hs 2%nat _ _ eq_refl) as (s2 & -> & _ & E2). destruct (Hs 3%nat _ _ eq_refl) as (s3 & -> & _ & E3).
  destruct (Hs 4%nat _ _ eq_refl) as (s4 & -> & _ & E4). destruct (Hs 5%nat _ _ eq_refl) as (s5 & -> & _ & E5).
  destruct (Hs 6%nat _ _ eq_refl) as (s6 & -> & _ & E6). destruct (Hs 7%nat _ _ eq_refl) as (s7 & -> & _ & E7).
  destruct (Hs 8%nat _ _ eq_refl) as (s8 & -> & _ & E8). destruct (Hs 9%nat _ _ eq_refl) as (s9 & -> & _ & E9).
  destruct (Hs 10%nat _ _ eq_refl) as (s10 & -> & _ & E10). cbn [option_map default].
  apply encodes_strings with (limits := limits) in E0;
    [|subst strings; apply collect_strings_sorted|subst strings; by apply collect_strings_text].
  assert (Forall2 (λ t key, encode_type strings t = Ok key) (map snd keyed) (map fst keyed)) as Hk2
    by (by apply keyed_Forall2).
  assert (Z.of_nat (length (map snd keyed)) <= u32_max + 1) as Hk3 by (rewrite length_map; apply Hkeyed).
eapply reads_yields_bind; [exact E0|].
eapply reads_yields_bind; [by eapply encodes_constants|].
eapply reads_yields_bind; [by eapply encodes_type_section|]. cbn [fst snd].
eapply reads_yields_bind; [eapply encodes_functions; eauto; by destruct Hkeyed|].
eapply reads_yields_bind; [by eapply encodes_effects|].
  destruct (validate_canonical_effect_sets _) as [[]|] eqn:He; [|done].
apply (reads_yields_bind _ _ tt); [by intros r|].
  destruct (manifest a) as [m|] eqn:Hm; [|done]. cbn [ok_or] in E8.
eapply reads_yields_bind; [by eapply encodes_manifest|].
eapply reads_yields_bind; [by eapply encodes_entries|]. cbn [fst snd].
eapply reads_yields_bind; [eapply encodes_schemas; eauto; by destruct Hkeyed|].
eapply reads_yields_bind; [by eapply encodes_imports|].
eapply reads_yields_bind; [by eapply encodes_templates|].
eapply reads_yields_bind; [eapply encodes_validators; eauto; by destruct Hkeyed|].
eapply (reads_yields_bind _ _ (debug a)).
  - rewrite Hn. destruct (debug a) as [d|].
    + destruct Hd as (-> & s11 & -> & _ & E11). cbn [Nat.eqb MAX_SECTION_COUNT option_map default].
    eapply reads_yields_bind; [by eapply encodes_debug|apply yields_ret].
    + rewrite Hd. apply yields_ret.
  - assert (entry (module_ a) = 0%nat) as Hentry by (by apply Nat.eqb_eq).
    rewrite Hmeta, <- Hm, <- Hentry, <- artifact_eta. apply yields_ret.
Qed.
End Sections.

(** ** The header *)

Definition header_parts (m : ArtifactMetadata) (section_count : nat) (digest : list Z) : list Output :=
  [put_u16 64; Ok (le_bytes 2 (bytecode_version m)); put_version (language_version m);
   put_version (compiler_version m); put_u16 (match target_profile m with Portable => 1 end);
   put_u16 section_count; put_u32 0; put_slice digest].

Lemma encodes_version v : version_width v = true → encodes (put_version v) version v.
Proof.
  unfold version_width. intros Hv. split_width. unfold put_version, version.
  repeat match goal with Hz : in_unsigned _ _ = true |- _ => apply in_unsigned_spec in Hz end.
  do 3 (eapply encodes_cons; [by apply encodes_u16_z|]). destruct v. apply encodes_nil.
Qed.

Lemma encodes_header m n d :
  bytecode_version m = BYTECODE_VERSION →
  language_version m = language_version ArtifactMetadata_default →
  version_width (compiler_version m) = true → (11 <= n <= 12)%nat → length d = 32%nat →
  encodes (emit (header_parts m n d)) read_header
    {| hd_metadata := m; hd_section_count := n; hd_digest := d |}.
Proof.
  intros Hb Hl Hc Hn Hd. unfold header_parts, read_header.
  eapply encodes_cons; [by apply (encodes_u16_z 64)|]. cbn [Z.eqb HEADER_SIZE Pos.eqb negb].
  rewrite Hb, Hl. eapply encodes_cons; [by apply (encodes_u16_z BYTECODE_VERSION)|].
  rewrite Z.eqb_refl. cbn [negb].
  eapply encodes_cons; [by apply encodes_version|]. rewrite bool_decide_eq_true_2 by done. cbn [negb].
  eapply encodes_cons; [by apply encodes_version|].
  destruct (target_profile m) eqn:Hp. eapply encodes_cons; [by apply (encodes_u16_z 1)|].
  cbn [Z.eqb Pos.eqb negb]. eapply encodes_cons.
  { apply encodes_u16. unfold is_u16, u16_max. lia. }
  unfold MANDATORY_SECTION_COUNT, MAX_SECTION_COUNT.
  destruct (Nat.leb_spec 11 n), (Nat.leb_spec n 12); try lia. cbn [andb negb].
  eapply encodes_cons; [by apply (encodes_z32 0)|]. cbn [Z.eqb negb].
  eapply encodes_cons; [apply encodes_bytes; by rewrite Hd|].
  destruct m. simpl in *. subst. apply encodes_nil.
Qed.


Lemma header_length m n d w :
  emit (header_parts m n d) = Ok w → length d = 32%nat → length w = 56%nat.
Proof.
  intros Hw Hd. unfold header_parts, put_version, put_u16, put_u32, put_slice in Hw. cbn [emit] in Hw.
  assert (w = (le_bytes 2 (Z.of_nat 64) ++ le_bytes 2 (bytecode_version m)
    ++ (le_bytes 2 (sv_major (language_version m)) ++ le_bytes 2 (sv_minor (language_version m))
        ++ le_bytes 2 (sv_patch (language_version m)) ++ [])
    ++ (le_bytes 2 (sv_major (compiler_version m)) ++ le_bytes 2 (sv_minor (compiler_version m))
        ++ le_bytes 2 (sv_patch (compiler_version m)) ++ [])
    ++ le_bytes 2 (Z.of_nat (match target_profile m with Portable => 1 end)) ++ le_bytes 2 (Z.of_nat n)
    ++ le_bytes 4 (Z.of_nat 0) ++ d ++ [])%list) as -> by congruence.
  rewrite !length_app, !length_le_bytes, Hd. done.
Qed.

(** ** Encoded artifacts *)

Lemma encode_model_async `{Semver} a limits u :
  validate_encode_model a limits = Some (Ok u) →
  async_in_range (async_functions (module_ a)) (length (functions (module_ a))) = true.
Proof.
  unfold validate_encode_model. intros Hv.
  destruct (ok_or (manifest a) _) as [m|] eqn:Hm; [|done]. destruct (check_identity a m); [|done].
  destruct (ArtifactGraph.validate_contract_graph a m) as [[]|]; [|done|done].
  destruct (check_environment m); [|done]. destruct (validate_tools a m) as [[]|]; [|done|done].
  destruct (validate_templates _); [|done]. destruct (validate_record_invariants a) as [[]|]; [|done|done].
  destruct (check_tables a limits m) eqn:Hc; [|done]. clear Hv. revert Hc. unfold check_tables.
  destruct (for_each _ _); [|done]. do 3 (destruct (ArtifactGraph.check _ _); [|done]).
  destruct (model_tables_within a limits); [|done]. unfold ArtifactGraph.check.
  by destruct (async_in_range _ _).
Qed.

Section Encoded.
Context `{Semver} `{Layout}.

(** The parts of a successful encoding. *)
Record encoding (a : Artifact) (limits : DecodeLimits) (bs : list Z) : Prop := {
  ec_version : bytecode_version (metadata a) = BYTECODE_VERSION;
  ec_async : async_in_range (async_functions (module_ a)) (length (functions (module_ a))) = true;
  ec_debug : validate_debug_shape (debug a) = Ok tt;
  ec_parts : ∃ strings keyed sections body header,
    encode_tables a limits = Ok (strings, keyed)
    ∧ encode_sections a strings (map snd keyed) (map fst keyed) = Ok sections
    ∧ (∀ s, s ∈ sections → Z.of_nat (length (sec_payload s)) <= section_bytes limits)
    ∧ encode_body sections = Ok body
    ∧ put_header (metadata a) (length sections) (sha256 body) = Ok header
    ∧ bs = (header ++ body)%list ∧ Z.of_nat (length bs) <= artifact_bytes limits }.

Lemma encode_encoding a limits bs : encode_with_limits a limits = Some (Ok bs) → encoding a limits bs.
Proof using Type.
  unfold encode_with_limits. intros He.
  destruct (Z.eqb_spec (bytecode_version (metadata a)) BYTECODE_VERSION) as [Hv|]; [|done].
  cbn [negb] in He. destruct (validate_encode_model a limits) as [[[]|]|] eqn:Hm; [|done|done].
  apply encode_model_async in Hm. destruct (validate_debug_shape (debug a)) as [[]|] eqn:Hd; [|done].
  destruct (encode_tables a limits) as [[strings keyed]|] eqn:Ht; [|done]. cbn [fst snd] in He.
  destruct (encode_sections a strings _ _) as [sections|] eqn:Hs; [|done]. unfold assemble in He.
  destruct (existsb _ sections) eqn:Hl; [done|]. destruct (encode_body sections) as [body|] eqn:Hb; [|done].
  destruct (put_header _ _ _) as [header|] eqn:Hh; [|done].
  destruct (Z.ltb_spec (artifact_bytes limits) (Z.of_nat (length (header ++ body)))); [done|].
  constructor; [done..|]. exists strings, keyed, sections, body, header.
  injection He as <-. split_and!; try done. intros s Hin. apply Z.nlt_ge. intros Hlt.
  assert (existsb (λ s, section_bytes limits <? Z.of_nat (length (sec_payload s))) sections = true) as Ht'.
  { apply existsb_exists. exists s. rewrite <- list_elem_of_In. split; [done|]. by apply Z.ltb_lt. }
  congruence.
Qed.

Lemma sections_framed a limits strings keyed sections :
  section_list a strings keyed sections →
  (∀ s, s ∈ sections → Z.of_nat (length (sec_payload s)) <= section_bytes limits) →
  framed limits 0 sections ∧ (11 <= length sections <= 12)%nat.
Proof using Type.
  intros [Hs Hd] Hb. assert (length sections = 12%nat ∨ length sections = 11%nat) as Hlen.
  { destruct (debug a); [destruct Hd; auto|auto]. }
  split; [|lia]. intros i s Hi. split; [|by eapply Hb, list_elem_of_lookup_2].
  assert (i < 12)%nat by (apply lookup_lt_Some in Hi; lia).
  destruct (decide (i = 11%nat)) as [->|Hne].
  - destruct (debug a); [|apply lookup_lt_Some in Hi; lia].
    destruct Hd as (_ & s' & Hs' & Hid & _). rewrite Hi in Hs'. injection Hs' as <-. by rewrite Hid.
  - assert (∃ id out, mandatory_sections a strings (map snd keyed) (map fst keyed) !! i = Some (id, out)
              ∧ section_raw id = Z.of_nat i + 1) as (id & out & Hm & Hraw).
    { do 11 (destruct i as [|i]; [by eexists _, _|]). lia. }
    destruct (Hs i id out Hm) as (s' & Hs' & Hid & _). rewrite Hi in Hs'. injection Hs' as <-.
    rewrite Hid, Hraw. by rewrite Nat.add_0_l.
Qed.

(** A section that is read with a reader of its own. *)
Lemma section_result {A} (p : Read A) x r :
  yields p x → (∃ r', p r = Ok (x, r')) ∨ (∃ e, p r = Err e ∧ ae_code e = LimitExceeded).
Proof using Type.
  intros Hp. specialize (Hp r). destruct (p r) as [[y r']|e]; [|eauto]. destruct Hp as [-> _]. eauto.
Qed.

Lemma decode_parts_encoding a limits bs :
  encoding a limits bs → artifact_width a = true → artifact_canonical a = true →
  section_bytes limits <= u64_max →
  (∃ digest, decode_parts bs limits = Ok (a, collect_strings a, digest))
  ∨ (∃ e, decode_parts bs limits = Err e ∧ ae_code e = LimitExceeded).
Proof using Type.
  intros [Hv Hasync _ (strings & keyed & sections & body & header & Ht & Hs & Hl & Hb & Hh & -> & Hsize)]
    Hw Hc Hu.
  destruct (encode_tables_ok a limits strings keyed Ht) as (-> & Hcount & Hkeyed);
    [unfold artifact_width in Hw; by split_width|].
  apply encode_sections_list in Hs. destruct (sections_framed _ _ _ _ _ Hs Hl) as [Hframed Hn].
  apply emit_cons in Hh as (magic & w & [= <-] & Hw' & ->). fold (header_parts (metadata a)
    (length sections) (sha256 body)) in Hw'.
  assert (length w = 56%nat) as Hlen by (eapply header_length; [exact Hw'|apply sha256_length]).
  unfold decode_parts. destruct (Z.ltb_spec (artifact_bytes limits)
    (Z.of_nat (length ((ARTIFACT_MAGIC ++ w) ++ body)))); [lia|].
  destruct (Z.ltb_spec (Z.of_nat (length ((ARTIFACT_MAGIC ++ w) ++ body))) HEADER_SIZE).
  { rewrite !length_app, Hlen in *. unfold HEADER_SIZE in *. simpl in *. lia. }
  rewrite <- app_assoc. change (take 8 (ARTIFACT_MAGIC ++ w ++ body)) with (take 8 ARTIFACT_MAGIC).
  unfold bytes_eqb at 1. rewrite bool_decide_eq_true_2 by done. cbn [negb].
  assert (drop 8 (take 64 (ARTIFACT_MAGIC ++ w ++ body)) = w) as ->.
  { rewrite app_assoc, take_app_length' by (rewrite length_app, Hlen; done). done. }
  assert (drop 64 (ARTIFACT_MAGIC ++ w ++ body) = body) as ->.
  { rewrite app_assoc, drop_app_length' by (rewrite length_app, Hlen; done). done. }
  set (hd := {| hd_metadata := metadata a; hd_section_count := length sections;
                hd_digest := sha256 body |}).
  assert (yields (in_section w read_header) hd) as Hhd.
  { eapply yields_section; [exact Hw'|]. unfold artifact_width, artifact_canonical in *. split_width.
    apply encodes_header; [done|by eapply bool_decide_eq_true_1|done|done|apply sha256_length]. }
  destruct (section_result _ _ (new_reader limits []) Hhd) as [[r ->]|(e & -> & He)]; [|eauto].
  cbn [fst]. unfold split_sections.
  assert (yields (in_section body (read_sections limits (length sections) 0 0)) sections) as Hsec.
  { eapply yields_section; [exact Hb|]. by apply (encodes_sections limits sections 0). }
  destruct (section_result _ _ {| rd_bytes := []; rd_budget := DecodeBudget_new (decoded_model_bytes limits)
    (expanded_type_nodes limits) |} Hsec) as [[r' Hr]|(e & Hr & He)]; cbn [hd_section_count hd]; rewrite Hr; [|eauto].
  cbn [fst hd_digest]. unfold bytes_eqb. rewrite bool_decide_eq_true_2 by done. cbn [negb].
  destruct (section_result _ _ (new_reader limits [])
    (yields_sections limits a (collect_strings a) keyed eq_refl Hcount Hkeyed Hw Hc Hasync sections hd Hs
       eq_refl eq_refl)) as [[r'' ->]|(e & -> & He)]; [|eauto].
  left. by eexists.
Qed.


(** A byte string that decodes is the encoding of its artifact. *)
Lemma decode_encode bs limits decoded :
decode bs limits = Some (Ok decoded) → encode_with_limits (dec_artifact decoded) limits = Some (Ok bs).
Proof using Type.
unfold decode. destruct (decode_parts bs limits) as [[[a strings] d]|]; [|done]. cbn [fst snd].
destruct (validate_string_table a strings); [|done]. destruct (validate_debug_shape (debug a)); [|done].
destruct (encode_with_limits a limits) as [[canonical|]|] eqn:He; [|done|done].
unfold bytes_eqb. destruct (bool_decide_reflect (canonical = bs)) as [->|]; [|done]. by intros [= <-].
Qed.

(** C6. Decoding accepts only canonical bytes: a byte string that decodes is the
    encoding of the artifact it decodes to, and its content digest is the SHA-256 of
    the bytes after the header. *)
Theorem decoded_canonical bs limits decoded :
  decode bs limits = Some (Ok decoded) →
  encode_with_limits (dec_artifact decoded) limits = Some (Ok bs)
  ∧ dec_content_digest decoded = sha256 (drop 64 bs).
Proof using Type.
intros Hd. split; [by apply decode_encode|]. revert Hd. unfold decode, decode_parts.
  repeat (destruct (_ <? _); [done|]). destruct (negb _); [done|]. destruct (in_section _ _ _) as [hd|]; [|done].
  destruct (split_sections _ _ _) as [sections|]; [|done]. destruct (negb _); [done|].
destruct (decode_sections _ _ _ _) as [parts|]; [|done]. destruct (validate_string_table _ _); [|done].
destruct (validate_debug_shape _); [|done]. destruct (encode_with_limits _ _) as [[canonical|]|]; [|done..].
destruct (bytes_eqb _ _); [|done]. by intros [= <-].
Qed.
End Encoded.

(** ** The sample artifact *)

Definition sample_bytes : list Z := Eval vm_compute in
  match @encode_with_limits releases sample DecodeLimits_default with
  | Some (Ok bs) => bs
  | _ => []
  end.
Definition sample_decoded : DecodedArtifact := Eval vm_compute in
  {| dec_artifact := sample; dec_content_digest := sha256 (drop 64 sample_bytes) |}.

Lemma sample_decodes :
  @decode releases flat_layout sample_bytes DecodeLimits_default = Some (Ok sample_decoded).
Proof. vm_compute. reflexivity. Qed.

Lemma sample_encodes :
  @encode_with_limits releases sample DecodeLimits_default = Some (Ok sample_bytes).
Proof. exact (@decode_encode releases flat_layout _ _ _ sample_decodes). Qed.


Lemma decoded_canonical_witness :
  @encode_with_limits releases (dec_artifact sample_decoded) DecodeLimits_default
    = Some (Ok sample_bytes)
  ∧ dec_content_digest sample_decoded = sha256 (drop 64 sample_bytes).
Proof. exact (@decoded_canonical releases flat_layout _ _ _ sample_decodes). Defined.
