(* ===== verification/ArtifactTotal.v ===== *)
(** * The checks of an artifact always answer

    No check of [validate_encode_model] panics or runs out of fuel: the walks over
    types and enums end, and the schemas that are looked up exist.  So encoding and
    decoding always return. *)

From S2P Require Import Prelude Text Bytecode VerifierTypes ArtifactBytes ArtifactModel.
From S2P Require Import ArtifactCodec ArtifactFormat ArtifactSections ArtifactTables.
From S2P Require Import ArtifactNames ArtifactDigest ArtifactGraph ArtifactAcyclic.
From S2P Require Import ArtifactChecks Artifact.
Open Scope string_scope.
Open Scope Z_scope.

(** The computation does not panic. *)
Definition answers {A} (x : option (result ArtifactError A)) : Prop := x ≠ None.

Lemma answers_bind {A B} (x : option (result ArtifactError A)) (k : A → option (result ArtifactError B)) :
  answers x → (∀ a, x = Some (Ok a) → answers (k a)) → answers (let* a := x in k a).
Proof. unfold answers. destruct x as [[a|e]|]; [|done|done]. intros _ Hk. by apply Hk. Qed.

Lemma answers_try {A B} (x : option (result ArtifactError A)) (k : option (result ArtifactError B)) :
  answers x → (∀ a, x = Some (Ok a) → answers k) → answers (try* x in k).
Proof. unfold answers. destruct x as [[a|e]|]; [|done|done]. intros _ Hk. by apply (Hk a). Qed.

Lemma answers_some {A} (x : result ArtifactError A) : answers (Some x).
Proof. done. Qed.

Lemma answers_each {A} (f : A → option (result ArtifactError unit)) l :
  (∀ x, x ∈ l → answers (f x)) → answers (for_each_opt f l).
Proof.
  induction l as [|x l IH]; intros Hf; cbn [for_each_opt]; [done|].
  apply answers_try; [apply Hf; left|]. intros _ _. apply IH. intros y Hy. apply Hf. by right.
Qed.

(** ** Walks over types *)

Lemma list_sum_app l k : list_sum (l ++ k)%list = (list_sum l + list_sum k)%nat.
Proof. induction l; simpl; lia. Qed.

Lemma list_sum_rev l : list_sum (rev l) = list_sum l.
Proof. induction l as [|x l IH]; [done|]. cbn [rev]. rewrite list_sum_app, IH. simpl. lia. Qed.

Lemma depth_children_nodes t :
  (list_sum (map type_nodes (depth_children t)) < type_nodes t)%nat.
Proof.
  destruct t; cbn [depth_children type_nodes]; try (simpl; lia).
  - rewrite map_map. apply Nat.lt_succ_diag_r.
  - rewrite map_app, list_sum_app. simpl. lia.
Qed.

Definition pending_nodes (pending : list (ValueType * Z)) : nat :=
  list_sum (map (λ p, type_nodes p.1) pending).

Lemma type_nodes_pos t : (0 < type_nodes t)%nat.
Proof. destruct t; simpl; lia. Qed.

Lemma depth_loop_answers fuel maximum pending :
  (pending_nodes pending ≤ fuel)%nat → answers (depth_loop fuel maximum pending).
Proof.
  revert pending. induction fuel as [|fuel IH]; intros [|[t depth] pending] Hf; cbn [depth_loop]; try done.
  { unfold pending_nodes in Hf. simpl in Hf. pose proof (type_nodes_pos t). lia. }
  destruct (maximum <? depth); [done|]. destruct (ok_or _ _) as [next|]; [|done]. apply IH.
  change (pending_nodes ((t, depth) :: pending)) with (type_nodes t + pending_nodes pending)%nat in Hf.
  assert (pending_nodes (rev (map (λ child, (child, next)) (depth_children t)) ++ pending)
          = list_sum (map type_nodes (depth_children t)) + pending_nodes pending)%nat as ->.
  { unfold pending_nodes. rewrite map_app, list_sum_app, map_rev, map_map, list_sum_rev. done. }
  pose proof (depth_children_nodes t). lia.
Qed.

Lemma type_depth_answers maximum t : answers (validate_type_depth maximum t).
Proof. apply depth_loop_answers. unfold pending_nodes. simpl. lia. Qed.

(** ** Paths to records *)

Section Paths.
Variable enums : list EnumType.

Definition enum_weight (e : EnumType) : nat := S (list_sum (map type_nodes (enum_type_types e))).
(** The nodes of the enums that are not being walked. *)
Definition rest_weight (active : list EnumTypeId) : nat :=
list_sum (map (λ i, if decide (i ∈ active) then 0%nat
                    else match enums !! i with Some e => enum_weight e | None => 0%nat end)
            (seq 0 (length enums))).

Lemma map_seq_lookup {A} (f : A → nat) l :
  map (λ i, match l !! i with Some x => f x | None => 0%nat end) (seq 0 (length l)) = map f l.
Proof.
  induction l as [|x l IH]; [done|]. cbn [length seq map]. f_equal. rewrite <- IH, <- seq_shift, map_map.
  by apply map_ext.
Qed.

Lemma list_sum_update (f g : nat → nat) l i :
  NoDup l → i ∈ l → (∀ j, j ≠ i → f j = g j) → g i = 0%nat →
  (list_sum (map f l) = f i + list_sum (map g l))%nat.
Proof.
  intros Hn Hi Hfg Hg. induction Hn as [|x l Hx Hn IH]; [by apply not_elem_of_nil in Hi|].
  cbn [map list_sum foldr]. apply elem_of_cons in Hi as [->|Hi].
  - assert (map f l = map g l) as Heq.
    { apply map_ext_in. intros j Hj. apply Hfg. intros ->. by apply Hx, list_elem_of_In. }
    unfold list_sum in *. rewrite Heq, Hg. lia.
  - specialize (IH Hi). assert (f x = g x) as ->; [apply Hfg; by intros ->|]. unfold list_sum in *. lia.
Qed.

Lemma rest_weight_enter active id e :
  id ∉ active → enums !! id = Some e →
  rest_weight active = (enum_weight e + rest_weight (id :: active))%nat.
Proof.
  intros Hn He. unfold rest_weight. rewrite (list_sum_update _
    (λ i, if decide (i ∈ id :: active) then 0%nat
          else match enums !! i with Some e => enum_weight e | None => 0%nat end) _ id).
  - rewrite decide_False, He by done. done.
  - apply NoDup_ListNoDup, seq_NoDup.
  - apply list_elem_of_In, in_seq. pose proof (lookup_lt_Some _ _ _ He). lia.
  - intros j Hj. destruct (decide (j ∈ active)) as [Ha|Ha].
    + by rewrite decide_True by (by right).
    + rewrite decide_False; [done|]. by intros [?|?]%elem_of_cons.
  - by rewrite decide_True by left.
Qed.

Lemma each_part_answers walk path parts :
  (∀ segments t, (segments, t) ∈ parts → ∀ p, answers (walk p t)) →
  answers (each_part walk path parts).
Proof.
  induction parts as [|[segments t] parts IH]; intros Hw; cbn [each_part]; [done|].
  destruct segments as [s|]; [|done]. apply answers_bind; [eapply Hw; left|]. intros found _.
  apply answers_bind; [|done]. apply IH. intros. eapply Hw. by right.
Qed.
Lemma sum_elem {A} (f : A → nat) l x : x ∈ l → (f x ≤ list_sum (map f l))%nat.
Proof.
  induction l as [|y l IH]; intros Hx; [by apply not_elem_of_nil in Hx|].
  change (list_sum (map f (y :: l))) with (f y + list_sum (map f l))%nat.
  apply elem_of_cons in Hx as [->|Hx]; [lia|]. specialize (IH Hx). lia.
Qed.

Lemma indexed_parts_elem f types segments t : (segments, t) ∈ indexed_parts f types → t ∈ types.
Proof.
  unfold indexed_parts. intros Hp. apply elem_of_zip_with in Hp as (i & x & [= _ ->] & _ & Hx).
  exact Hx.
Qed.

Lemma type_parts_nodes t segments c : (segments, c) ∈ type_parts t → (type_nodes c < type_nodes t)%nat.
Proof.
  destruct t; cbn [type_parts type_nodes]; intros Hp; try (by apply not_elem_of_nil in Hp);
    rewrite ?elem_of_cons in Hp; try (destruct Hp as [[= _ ->]|[[= _ ->]|Hp]]; lia);
    try (destruct Hp as [[= _ ->]|Hp]; [lia|by apply not_elem_of_nil in Hp]);
    try (destruct Hp as [[= _ ->]|[[= _ ->]|Hp]]; [lia|lia|by apply not_elem_of_nil in Hp]).
  - apply indexed_parts_elem in Hp. apply (sum_elem type_nodes) in Hp. lia.
  - apply indexed_parts_elem, list_elem_of_fmap in Hp as (f & -> & Hf).
    apply (sum_elem (λ field : RecordField, type_nodes field.2)) in Hf. simpl in Hf. lia.
  - apply elem_of_app in Hp as [(p & [= _ ->] & Hf)%list_elem_of_fmap|Hp].
    + apply (sum_elem type_nodes) in Hf. lia.
    + apply list_elem_of_singleton in Hp as [= _ ->]. lia.
Qed.

Lemma enum_parts_nodes e segments c : (segments, c) ∈ enum_parts e → (type_nodes c < enum_weight e)%nat.
Proof.
  unfold enum_parts, enum_weight. intros Hp. apply Nat.lt_succ_r.
  assert (c ∈ enum_type_types e) as Hc; [|by apply (sum_elem type_nodes) in Hc].
  apply list_elem_of_In, in_concat in Hp as (l & Hl & Hp). apply list_elem_of_In in Hl, Hp.
  apply elem_of_zip_with in Hl as (i & v & -> & _ & Hv). apply indexed_parts_elem in Hp.
  apply list_elem_of_In, in_flat_map. exists v. by rewrite <- !list_elem_of_In.
Qed.

Lemma collect_answers fuel active path t :
  (type_nodes t + rest_weight active ≤ fuel)%nat → answers (collect_record_paths enums fuel active path t).
Proof.
  revert active path t. induction fuel as [|fuel IH]; intros active path t Hf.
  { pose proof (type_nodes_pos t). lia. }
  cbn [collect_record_paths].
  assert (∀ active parts, (∀ s c, (s, c) ∈ parts → (type_nodes c + rest_weight active ≤ fuel)%nat) →
            answers (each_part (collect_record_paths enums fuel active) path parts)) as Hparts.
  { intros active' parts Hp. apply each_part_answers. intros s c Hc p. eapply IH, Hp, Hc. }
  assert (answers (let* found := each_part (collect_record_paths enums fuel active) path (type_parts t) in
                   Some (Ok (match t with TRecord _ => path :: found | _ => found end)))) as Hdefault.
  { apply answers_bind; [|done]. apply Hparts. intros s c Hc%type_parts_nodes. lia. }
  destruct t as [| | | | | | | | | | | |id| | | | | | | | | | |]; try exact Hdefault.
  case_bool_decide as Ha; [done|]. destruct (enums !! id) as [e|] eqn:He; [|done]. apply Hparts.
  intros s c Hc%enum_parts_nodes. rewrite (rest_weight_enter active id e) in Hf by done.
  change (type_nodes (TEnum id)) with 1%nat in Hf. lia.
Qed.

Lemma rest_weight_all : rest_weight [] = list_sum (map enum_weight enums).
Proof.
  unfold rest_weight. f_equal. rewrite <- (map_seq_lookup enum_weight enums). apply map_ext. intros i.
  by rewrite decide_False by apply not_elem_of_nil.
Qed.

Lemma record_paths_answers t : answers (record_paths enums t).
Proof.
  apply collect_answers. unfold record_path_fuel. rewrite rest_weight_all. unfold enum_weight. lia.
Qed.
End Paths.

(** ** The checks *)

Section Checks.
Context `{Semver}.

Lemma sites_answer artifact sites provenance schema digest :
  answers (validate_entry_validator_sites artifact sites provenance schema digest).
Proof. unfold validate_entry_validator_sites. apply answers_bind; [apply record_paths_answers|done]. Qed.

(** The entries refer to schemas that exist. *)
Definition schemas_known (artifact : Artifact) : Prop :=
∀ entry, entry ∈ entries artifact →
  is_Some (schemas artifact !! en_input_schema entry)
  ∧ is_Some (schemas artifact !! en_output_schema entry).

Lemma identity_schemas artifact manifest u :
  check_identity artifact manifest = Ok u → schemas_known artifact.
Proof.
  unfold check_identity. destruct (check _ _); [|done].
  destruct (for_each (check_entry_signature artifact) (entries artifact)) as [[]|] eqn:Hf; [|done]. intros _.
  apply for_each_ok in Hf. rewrite Forall_forall in Hf. intros entry He. specialize (Hf entry He).
  unfold check_entry_signature in Hf. destruct (ok_or (functions _ !! _) _); [|done].
  destruct (schemas artifact !! en_input_schema entry); [|done]. cbn [ok_or] in Hf.
  by destruct (schemas artifact !! en_output_schema entry).
Qed.

Lemma record_invariants_answer artifact :
  schemas_known artifact → answers (validate_record_invariants artifact).
Proof.
  intros Hk. unfold validate_record_invariants. destruct (check _ _); [|done].
  destruct (for_each _ _); [|done]. apply answers_each. intros entry He.
  destruct (Hk entry He) as [[input Hi] [output Ho]]. unfold validate_entry_sites. rewrite Hi, Ho.
  apply answers_try; [apply sites_answer|]. intros _ _. apply sites_answer.
Qed.

Lemma tools_answer artifact manifest : answers (validate_tools artifact manifest).
Proof.
  unfold validate_tools. destruct (check _ _); [|done].
  destruct (for_each _ (mc_required_tools manifest)) as [[]|] eqn:Hu; [|done]. assert (∀ tool, tool ∈ mc_required_tools manifest → valid_tool artifact tool = true) as Hv.
  { apply for_each_ok in Hu. rewrite Forall_forall in Hu. intros tool Ht.
    specialize (Hu tool Ht). cbn beta in Hu. unfold check in Hu. by destruct (valid_tool artifact tool). }
  clear Hu. apply answers_each. intros function _. unfold check_function_tools.
  destruct (effect_sets _ !! _) as [effects|]; [|done]. apply answers_each. intros i _.
  destruct i; try done. unfold check_invocation.
  destruct (mc_required_tools manifest !! tool) as [contract|] eqn:Hc; [|done]. cbn [ok_or].
  destruct (fn_registers function !! input); [|done]. cbn [ok_or].
  destruct (fn_registers function !! destination); [|done]. cbn [ok_or].
  apply list_elem_of_lookup_2, Hv in Hc. unfold valid_tool in Hc. 
  repeat (apply andb_true_iff in Hc as [Hc ?]).
  repeat match goal with Hlt : (_ <? _)%nat = true |- _ => apply Nat.ltb_lt, lookup_lt_is_Some_2 in Hlt as [? ->] end.
  done.
Qed.

Lemma encode_model_answers artifact limits : answers (validate_encode_model artifact limits).
Proof.
  unfold validate_encode_model. destruct (ok_or (manifest artifact) _) as [m|]; [|done].
  destruct (check_identity artifact m) as [u|] eqn:Hi; [|done]. apply identity_schemas in Hi.
  apply answers_try.
  { apply contract_graph_total. }
  intros _ _. destruct (check_environment m); [|done].
  apply answers_try; [apply tools_answer|]. intros _ _. destruct (validate_templates _); [|done].
  apply answers_try; [by apply record_invariants_answer|]. intros _ _.
  destruct (check_tables _ _ _); [|done]. apply answers_each. intros t _. apply type_depth_answers.
Qed.

(** C7. Encoding and decoding always return: no check panics, no walk runs out of
    fuel, for every artifact and every byte string. *)
Theorem codec_answers `{Layout} artifact bs limits :
  answers (encode_with_limits artifact limits) ∧ answers (decode bs limits).
Proof.
  assert (∀ a, answers (encode_with_limits a limits)) as He.
  { intros a. unfold encode_with_limits. destruct (negb _); [done|].
    apply answers_try; [apply encode_model_answers|done]. }
  split; [apply He|]. unfold decode. destruct (decode_parts bs limits) as [[[a strings] digest]|]; [|done].
  cbn [fst snd]. destruct (validate_string_table a strings); [|done].
  destruct (validate_debug_shape (debug a)); [|done].
  apply answers_bind; [apply He|]. intros canonical _. by destruct (bytes_eqb canonical bs).
Qed.
End Checks.
