(* ===== verification/ArtifactSafety.v ===== *)
(** * From accepted bytes to safe execution

    What [decode_and_verify] accepts runs without internal errors of the machine: the
    codec, the verifier and the machine composed. *)

From S2P Require Import Prelude Text Bytecode VmBudget VmValue VerifierTypes VerifierModule.
From S2P Require Import VmStep VmSafety VmTask ArtifactBytes ArtifactModel ArtifactCodec.
From S2P Require Import ArtifactFormat ArtifactSections ArtifactTables ArtifactNames.
From S2P Require Import ArtifactChecks ArtifactRoundtrip Artifact ArtifactSample.
From S2P Require Import ArtifactCorrect.
Open Scope string_scope.
Open Scope Z_scope.

(** ** What an encoding bounds *)

Lemma emit_part parts w i part : emit parts = Ok w → parts !! i = Some part → ∃ out, part = Ok out.
Proof.
  revert w i. induction parts as [|p parts IH]; intros w i He Hi; [done|].
  apply emit_cons in He as (w1 & w2 & -> & He & ->). destruct i as [|i]; [|by eapply IH].
  injection Hi as <-. by eexists.
Qed.

Lemma put_table_bound {A} resource (put : A → Output) items out :
  put_table resource put items = Ok out → Z.of_nat (length items) <= u32_max.
Proof.
  intros Hp. destruct (emit_part _ _ 0 _ Hp eq_refl) as [w Hw]. unfold put_count, to_u32 in Hw.
  destruct (Z.ltb_spec u32_max (Z.of_nat (length items))); [done|lia].
Qed.

Section Safety.
Context `{Semver} `{Layout}.

Lemma encoding_functions a limits bs :
encoding a limits bs → ∃ strings keys out,
  encode_functions strings keys (functions (module_ a)) (async_functions (module_ a)) = Ok out.
Proof using Type.
intros [_ _ _ (strings & keyed & sections & _ & _ & _ & Hs & _)]. apply encode_sections_list in Hs.
destruct (sl_payload _ _ _ _ Hs 3 _ _ eq_refl) as (s & _ & _ & Hout). by eexists _, _, _.
Qed.

(** Instruction indices of an encoded module are [u32]. *)
Lemma encoding_indexed a limits bs : encoding a limits bs → code_indexed (module_ a).
Proof using Type.
intros He. destruct (encoding_functions a limits bs He) as (strings & keys & out & Ho).
intros id f Hf. destruct (emit_part _ _ 2 _ Ho eq_refl) as [fs Hfs].
destruct (emit_part _ _ id (encode_function strings keys f) Hfs) as [fout Hfout].
{ by rewrite list_lookup_fmap, Hf. }
destruct (emit_part _ _ 8 _ Hfout eq_refl) as [code Hcode]. apply put_table_bound in Hcode. lia.
Qed.

Lemma verified_parts bs limits decoded :
decode_and_verify bs limits = Some (Ok decoded) →
decode bs limits = Some (Ok decoded) ∧
∃ tools, verify_internal (module_ (dec_artifact decoded)) tools
           (Some (templates (dec_artifact decoded))) = Some (Ok tt).
Proof using Type.
unfold decode_and_verify. destruct (decode bs limits) as [[d|]|]; [|done|done].
destruct (validate_debug_references _ _); [|done]. destruct (validate_verifier_complexity _ _); [|done].
destruct (tool_contracts _) as [tools|]; [|done].
destruct (verify_internal _ tools _) as [[[]|]|] eqn:Hv; [|done|done]. intros [= <-]. eauto.
Qed.

End Safety.

Lemma sample_verifies :
  @decode_and_verify releases flat_layout sample_bytes DecodeLimits_default
  = Some (Ok sample_decoded).
Proof. unfold decode_and_verify. rewrite sample_decodes. vm_compute. reflexivity. Qed.

