(* ===== verification/VmCanonical.v ===== *)
(** * The canonical binary encoding of values ([crates/allen-vm/src/canonical.rs])

    [encode_canonical_with_limit] computes the length of the output first, with all
    checks, and then writes; [decode_canonical_with_limit] reads strictly.  Maps are
    written in key order and enums without their names, so decoding gives the
    canonical form of a value ([canonical_form]). *)

From S2P Require Import Prelude Text Bytecode VmValue ArtifactBytes VerifierEnums.
Open Scope string_scope.
Open Scope Z_scope.

Inductive CanonicalEncodeError := EncodeLengthOverflow | EncodeResourceLimit | EncodeInvalidValue.
Inductive CanonicalDecodeError :=
| DecodeTruncated | DecodeResourceLimit | DecodeInvalidValue | DecodeTrailingBytes.

(** What the code asks of memory: sizes of types and the allocator's answers. *)
Inductive Element := ElementByte | ElementValue | ElementEntry | ElementField.
Class Memory := {
  size_of_value : Z; (* Value *)
  size_of_entry : Z; (* (Value, Value) *)
  size_of_field : Z; (* (Rc<str>, Value) *)
  try_reserve_exact : Element → Z → bool }.
Definition element_size `{Memory} (e : Element) : Z :=
  match e with
  | ElementByte => 1
  | ElementValue => size_of_value
  | ElementEntry => size_of_entry
  | ElementField => size_of_field
  end.

(** ** Shapes *)

Fixpoint is_map_key (value : Value) : bool :=
  match value with
  | VBool _ | VInt _ | VString _ | VBytes _ => true
  | VNewtype _ value => is_map_key value
  | _ => false
  end.

Fixpoint same_map_key_kind (l r : Value) : bool :=
  match l, r with
  | VBool _, VBool _ | VInt _, VInt _ | VString _, VString _ | VBytes _, VBytes _ => true
  | VNewtype i l, VNewtype j r => String.eqb i j && same_map_key_kind l r
  | _, _ => false
  end.

Definition valid_newtype_identity (value : string) : bool :=
  match rsplit_once "::" value with
  | None => false
  | Some (owner, declaration) =>
    negb (str_is_empty owner) && forallb is_ascii_graphic (bytes owner)
    && is_source_identifier declaration
  end.

Definition validate_record_fields (fields : list (string * Value))
    : result CanonicalEncodeError unit :=
  if unsorted (map fst fields) then Err EncodeInvalidValue else Ok tt.

(** The entries in order, each against those before it and the first. *)
Fixpoint validate_entries (first : option Value) (before keys : list Value)
    : result CanonicalEncodeError unit :=
  match keys with
  | [] => Ok tt
  | key :: rest =>
    if negb (is_map_key key) then Err EncodeInvalidValue
    else if existsb (λ previous, language_equal previous key) before then Err EncodeInvalidValue
    else if match first with Some first => negb (same_map_key_kind first key) | None => false end
    then Err EncodeInvalidValue
    else validate_entries first (before ++ [key]) rest
  end.
Definition validate_map (keys : list Value) : result CanonicalEncodeError unit :=
  validate_entries (head keys) [] keys.

(** ** The length of the output *)

Definition length_u32 {A} (l : list A) : result CanonicalEncodeError unit :=
  if u32_max <? Z.of_nat (length l) then Err EncodeLengthOverflow else Ok tt.
Definition length_add (a b : Z) : result CanonicalEncodeError Z :=
  if usize_max <? a + b then Err EncodeLengthOverflow else Ok (a + b).
Definition field_name_length (name : string) : result CanonicalEncodeError Z :=
  try? length_u32 (bytes name) in length_add 4 (str_len name).
Definition sized_payload_length (bs : list Z) : result CanonicalEncodeError Z :=
  try? length_u32 bs in length_add 5 (Z.of_nat (length bs)).

Section TryFold.
Context {E A : Type} (f : A → result E Z) (add : Z → Z → result E Z).
(** [iter().try_fold(total, |total, x| total.checked_add(f(x)?))] *)
Fixpoint try_fold_sum (total : Z) (l : list A) : result E Z :=
  match l with
  | [] => Ok total
  | x :: rest => let? n := f x in let? total := add total n in try_fold_sum total rest
  end.
End TryFold.

Section TryFold2.
Context {E A : Type} (f g : A → result E Z) (add : Z → Z → result E Z).
(** The same with two terms for an item. *)
Fixpoint try_fold_sum2 (total : Z) (l : list A) : result E Z :=
  match l with
  | [] => Ok total
  | x :: rest =>
    let? n := f x in let? total := add total n in
    let? m := g x in let? total := add total m in
    try_fold_sum2 total rest
  end.
End TryFold2.

Definition identity_length (identity : EnumIdentity) : Z :=
  match identity with User _ => 5 | OptionId | ResultId => 1 end.

Fixpoint encoded_length_at (value : Value) (depth : nat) : result CanonicalEncodeError Z :=
  if (MAX_VALUE_NESTING <? depth)%nat then Err EncodeInvalidValue
  else
    let sequence (start : Z) (values : list Value) :=
      try? length_u32 values in
      try_fold_sum (λ v, encoded_length_at v (S depth)) length_add start values in
    let record (start : Z) (fields : list (string * Value)) :=
      try? length_u32 fields in
      try? validate_record_fields fields in
      try_fold_sum2 (λ f : string * Value, field_name_length f.1)
        (λ f : string * Value, encoded_length_at f.2 (S depth)) length_add start fields in
    match value with
    | VUnit | VBool _ => Ok 1
    | VInt _ => Ok 9
    | VFloat bits =>
      if is_nan_bits bits && negb (bits =? CANONICAL_NAN_BITS) then Err EncodeInvalidValue else Ok 9
    | VString s => sized_payload_length (bytes s)
    | VBytes bs => sized_payload_length bs
    | VList values => sequence 5 values
    | VTuple values =>
      match values with [] => Err EncodeInvalidValue | _ => sequence 5 values end
    | VMap entries =>
      try? length_u32 entries in
      try? validate_map (map fst entries) in
      try_fold_sum2 (λ e : Value * Value, encoded_length_at e.1 (S depth))
        (λ e : Value * Value, encoded_length_at e.2 (S depth)) length_add 5 entries
    | VRecord fields => record 5 fields
    | VEnum identity _ _ _ payload =>
      let? start := length_add (identity_length identity) 10 in
      match payload with
      | PUnit => Ok start
      | PTuple values => sequence start values
      | PRecord fields => record start fields
      end
    | VNewtype identity value =>
      if negb (valid_newtype_identity identity) then Err EncodeInvalidValue
      else
        let? value_length := encoded_length_at value (S depth) in
        let? name := field_name_length identity in
        let? length := length_add 1 name in
        length_add length value_length
    | VUnknown value =>
      let? n := encoded_length_at value (S depth) in length_add 1 n
    | VExternalFsAccess _ | VRange _ | VSequence _ | VClosure _ _ | VFuture _ | VTask _
    | VWorkspace _ | VSubAgent _ => Err EncodeInvalidValue
    end.
Definition encoded_length (value : Value) : result CanonicalEncodeError Z :=
  encoded_length_at value 0.

(** ** Writing *)

Definition Bytes_ : Type := result CanonicalEncodeError (list Z).

Definition encode_length (length : nat) : Bytes_ :=
  if u32_max <? Z.of_nat length then Err EncodeLengthOverflow
  else Ok (be_bytes 4 (Z.of_nat length)).
Definition encode_sized_value (tag : Z) (value : list Z) : Bytes_ :=
  let? n := encode_length (length value) in Ok (tag :: n ++ value)%list.
Definition encode_field_name (name : string) : Bytes_ :=
  let? n := encode_length (length (bytes name)) in Ok (n ++ bytes name)%list.

(** Parts written one after the other; the first error returns. *)
Fixpoint concat_bytes (parts : list Bytes_) : Bytes_ :=
  match parts with
  | [] => Ok []
  | part :: rest => let? a := part in let? b := concat_bytes rest in Ok (a ++ b)%list
  end.

(** The index of the least key after the previous one. *)
Definition key_at (keys : list Value) (index : nat) : Value := nth index keys VUnit.
Definition next_candidate (keys : list Value) (previous : option nat) (candidate : option nat)
    (index : nat) : option nat :=
  let key := key_at keys index in
  if match previous with
     | Some previous => negb (is_gt (compare_map_keys key (key_at keys previous)))
     | None => false
     end
  then candidate
  else if match candidate with
          | Some candidate => is_lt (compare_map_keys key (key_at keys candidate))
          | None => true
          end
  then Some index else candidate.
Definition next_map_entry (keys : list Value) (previous : option nat)
    : result CanonicalEncodeError nat :=
  ok_or (fold_left (next_candidate keys previous) (seq 0 (length keys)) None) EncodeInvalidValue.

(** The entries in the order of the loop; [parts] are the encodings of the entries. *)
Fixpoint encode_entries (count : nat) (keys : list Value) (parts : list (Bytes_ * Bytes_))
    (previous : option nat) : Bytes_ :=
  match count with
  | O => Ok []
  | S count =>
    let? next := next_map_entry keys previous in
    let part := nth next parts (Err EncodeInvalidValue, Err EncodeInvalidValue) in
    let? key := part.1 in
    let? value := part.2 in
    let? rest := encode_entries count keys parts (Some next) in
    Ok (key ++ value ++ rest)%list
  end.

Definition encode_identity (identity : EnumIdentity) : list Z :=
  match identity with
  | User id => 0 :: be_bytes 4 (Z.of_nat id)
  | OptionId => [1]
  | ResultId => [2]
  end.

Fixpoint encode_into (value : Value) : Bytes_ :=
  let sequence (values : list Value) :=
    let? n := encode_length (length values) in
    let? items := concat_bytes (map encode_into values) in
    Ok (n ++ items)%list in
  let record (fields : list (string * Value)) :=
    let? n := encode_length (length fields) in
    let? items := concat_bytes (map (λ f : string * Value,
      let? name := encode_field_name f.1 in let? v := encode_into f.2 in Ok (name ++ v)%list) fields) in
    Ok (n ++ items)%list in
  let tagged (tag : Z) (body : Bytes_) := let? body := body in Ok (tag :: body) in
  match value with
  | VUnit => Ok [0]
  | VBool false => Ok [1]
  | VBool true => Ok [2]
  | VInt z => Ok (3 :: be_bytes 8 (z mod 2 ^ 64))
  | VFloat bits => Ok (4 :: be_bytes 8 bits)
  | VString s => encode_sized_value 5 (bytes s)
  | VBytes bs => encode_sized_value 6 bs
  | VList values => tagged 7 (sequence values)
  | VMap entries =>
    tagged 8 (
      let? n := encode_length (length entries) in
      let? body := encode_entries (length entries) (map fst entries)
                     (map (λ e : Value * Value, (encode_into e.1, encode_into e.2)) entries) None in
      Ok (n ++ body)%list)
  | VTuple values => tagged 9 (sequence values)
  | VRecord fields => tagged 10 (record fields)
  | VEnum identity _ variant _ payload =>
    let? payload :=
      match payload with
      | PUnit => Ok (0 :: be_bytes 4 0)
      | PTuple values => tagged 1 (sequence values)
      | PRecord fields => tagged 2 (record fields)
      end in
    Ok (11 :: encode_identity identity ++ be_bytes 4 (Z.of_nat variant) ++ payload)%list
  | VUnknown value => tagged 12 (encode_into value)
  | VNewtype identity value =>
    tagged 13 (
      let? name := encode_field_name identity in
      let? value := encode_into value in
      Ok (name ++ value)%list)
  | VExternalFsAccess _ | VRange _ | VSequence _ | VClosure _ _ | VFuture _ | VTask _
  | VWorkspace _ | VSubAgent _ => Err EncodeInvalidValue
  end.

Section Encode.
Context `{Memory}.

Definition encode_canonical_with_limit (value : Value) (maximum_bytes : Z) : Bytes_ :=
  let? length := encoded_length value in
  if maximum_bytes <? length then Err EncodeResourceLimit
  else if negb (try_reserve_exact ElementByte length) then Err EncodeResourceLimit
  else encode_into value.
Definition encode_canonical (value : Value) : Bytes_ := encode_canonical_with_limit value u64_max.
End Encode.

(** ** Reading *)

(** The bytes from the offset on, and what has been charged. *)
Record CanonicalReader := { cr_bytes : list Z; cr_allocated : Z }.

Definition CRead (A : Type) : Type :=
  CanonicalReader → result CanonicalDecodeError (A * CanonicalReader).
#[export] Instance cread_ret : MRet CRead := λ A a r, Ok (a, r).
#[export] Instance cread_bind : MBind CRead := λ A B k m r,
  match m r with Ok (a, r) => k a r | Err e => Err e end.
Definition cfail {A} (e : CanonicalDecodeError) : CRead A := λ _, Err e.
Definition cguard (b : bool) (e : CanonicalDecodeError) : CRead unit := λ r,
  if b then Ok (tt, r) else Err e.

Section Decode.
Context `{Memory} (maximum : Z).

(** The offset does not overflow: it is at most the length of the input, and counts
    are [u32]. *)
Definition ctake (count : Z) : CRead (list Z) := λ r,
  if Z.of_nat (length (cr_bytes r)) <? count then Err DecodeTruncated
  else Ok (take (Z.to_nat count) (cr_bytes r),
           {| cr_bytes := drop (Z.to_nat count) (cr_bytes r); cr_allocated := cr_allocated r |}).
Definition cbyte : CRead Z := bs ← ctake 1; mret (be_value bs).
Definition cu32 : CRead Z := bs ← ctake 4; mret (be_value bs).
Definition ccount : CRead Z := λ r,
  match cu32 r with
  | Ok (n, r) => if Z.of_nat (length (cr_bytes r)) <? n then Err DecodeTruncated else Ok (n, r)
  | Err e => Err e
  end.
Definition ccharge (e : Element) (count : Z) : CRead unit := λ r,
  let total := cr_allocated r + element_size e * count in
  if (usize_max <? element_size e * count) || (usize_max <? total) || (maximum <? total)
  then Err DecodeResourceLimit
  else Ok (tt, {| cr_bytes := cr_bytes r; cr_allocated := total |}).
Definition ctext : CRead string :=
  length ← ccount;
  bs ← ctake length;
  _ ← cguard (utf8_valid bs) DecodeInvalidValue;
  _ ← ccharge ElementByte length;
  mret (string_of_bytes bs).
(** [try_reserve_exact] on a new vector *)
Definition creserve (e : Element) (count : Z) : CRead unit :=
  cguard (try_reserve_exact e count) DecodeResourceLimit.

Fixpoint cread_n {A} (n : nat) (read : CRead A) : CRead (list A) :=
  match n with
  | O => mret []
  | S n => x ← read; l ← cread_n n read; mret (x :: l)
  end.

Fixpoint map_key_kind (value : Value) : option Z :=
  match value with
  | VBool _ => Some 0
  | VInt _ => Some 1
  | VString _ => Some 2
  | VBytes _ => Some 3
  | VNewtype _ value => match map_key_kind value with Some _ => Some 4 | None => None end
  | _ => None
  end.

(** The test of the next key of a map. *)
Definition key_follows (kind : option Z) (previous : option Value) (key : Value) (key_kind : Z)
    : bool :=
  match kind with Some expected => expected =? key_kind | None => true end
  && match previous with
     | Some previous => same_map_key_kind previous key && is_lt (compare_map_keys previous key)
     | None => true
     end.

Section Items.
Variable value : CRead Value.

Definition values_of (count : Z) : CRead (list Value) :=
  _ ← ccharge ElementValue count;
  _ ← creserve ElementValue count;
  cread_n (Z.to_nat count) value.
Definition sequence (tuple : bool) : CRead Value :=
  count ← ccount;
  _ ← cguard (negb (tuple && (count =? 0))) DecodeInvalidValue;
  values ← values_of count;
  mret (if tuple then VTuple values else VList values).

Fixpoint read_entries (n : nat) (kind : option Z) (previous : option Value)
    : CRead (list (Value * Value)) :=
  match n with
  | O => mret []
  | S n =>
    key ← value;
    match map_key_kind key with
    | None => cfail DecodeInvalidValue
    | Some key_kind =>
      _ ← cguard (key_follows kind previous key key_kind) DecodeInvalidValue;
      v ← value;
      rest ← read_entries n (Some key_kind) (Some key);
      mret ((key, v) :: rest)
    end
  end.
Definition read_map : CRead Value :=
  count ← ccount;
  _ ← ccharge ElementEntry count;
  _ ← creserve ElementEntry count;
  entries ← read_entries (Z.to_nat count) None None;
  mret (VMap entries).

Fixpoint read_fields (n : nat) (previous : option string) : CRead (list (string * Value)) :=
  match n with
  | O => mret []
  | S n =>
    name ← ctext;
    _ ← cguard (match previous with Some p => str_ltb p name | None => true end)
          DecodeInvalidValue;
    v ← value;
    rest ← read_fields n (Some name);
    mret ((name, v) :: rest)
  end.
Definition record : CRead (list (string * Value)) :=
  count ← ccount;
  _ ← ccharge ElementField count;
  _ ← creserve ElementField count;
  read_fields (Z.to_nat count) None.
End Items.

Definition read_identity : CRead EnumIdentity :=
  tag ← cbyte;
  match tag with
  | 0 => id ← cu32; mret (User (Z.to_nat id))
  | 1 => mret OptionId
  | 2 => mret ResultId
  | _ => cfail DecodeInvalidValue
  end.

(** [value] reads the items of a tuple, [field] those of a record, one level deeper. *)
Definition enum_value (value field : CRead Value) : CRead Value :=
  identity ← read_identity;
  variant ← cu32;
  tag ← cbyte;
  payload ← match tag with
            | 0 => count ← ccount; _ ← cguard (count =? 0) DecodeInvalidValue; mret PUnit
            | 1 => count ← ccount; values ← values_of value count; mret (PTuple values)
            | 2 => fields ← record field; mret (PRecord fields)
            | _ => cfail DecodeInvalidValue
            end;
  mret (VEnum identity "<canonical>" (Z.to_nat variant) "<canonical>" payload).

Definition read_int : CRead Value :=
  bs ← ctake 8;
  let z := be_value bs in
  mret (VInt (if i64_max <? z then z - 2 ^ 64 else z)).
Definition read_float : CRead Value :=
  bs ← ctake 8;
  let bits := be_value bs in
  _ ← cguard (negb (is_nan_bits bits && negb (bits =? CANONICAL_NAN_BITS))) DecodeInvalidValue;
  mret (VFloat (FloatValue_from_canonical_bits bits)).
Definition read_bytes : CRead Value :=
  length ← ccount;
  bs ← ctake length;
  _ ← ccharge ElementByte length;
  mret (VBytes bs).

(** [CanonicalReader::value] at a depth with [levels] = 129 - depth: at depth 129 it
    refuses.  The payload of an enum's record is read two levels deeper. *)
Fixpoint read_value (levels : nat) : CRead Value :=
  match levels with
  | O => cfail DecodeInvalidValue
  | S deeper =>
    tag ← cbyte;
    match tag with
    | 0 => mret VUnit
    | 1 => mret (VBool false)
    | 2 => mret (VBool true)
    | 3 => read_int
    | 4 => read_float
    | 5 => s ← ctext; mret (VString s)
    | 6 => read_bytes
    | 7 => sequence (read_value deeper) false
    | 8 => read_map (read_value deeper)
    | 9 => sequence (read_value deeper) true
    | 10 => fields ← record (read_value deeper); mret (VRecord fields)
    | 11 => enum_value (read_value deeper) (read_value (Nat.pred deeper))
    | 12 => v ← read_value deeper; mret (VUnknown v)
    | 13 =>
      identity ← ctext;
      _ ← cguard (valid_newtype_identity identity) DecodeInvalidValue;
      v ← read_value deeper;
      mret (VNewtype identity v)
    | _ => cfail DecodeInvalidValue
    end
  end.
End Decode.

Section DecodeTop.
Context `{Memory}.
Definition decode_canonical_with_limit (bs : list Z) (maximum_bytes : Z)
    : result CanonicalDecodeError Value :=
  if maximum_bytes <? Z.of_nat (length bs) then Err DecodeResourceLimit
  else
    let? r := read_value (Z.min maximum_bytes usize_max) (S MAX_VALUE_NESTING)
                {| cr_bytes := bs; cr_allocated := 0 |} in
    match cr_bytes r.2 with [] => Ok r.1 | _ => Err DecodeTrailingBytes end.
Definition decode_canonical (bs : list Z) : result CanonicalDecodeError Value :=
  decode_canonical_with_limit bs u64_max.
End DecodeTop.
