(* ===== verification/VmCanonicalCorrect.v ===== *)
(** * The canonical encoding is correct

    The encoder writes exactly the bytes it has reserved; what it writes decodes to
    the canonical form of the value; bytes that decode are the encoding of what they
    decode to. *)

From S2P Require Import Prelude Text Bytecode VmValue ArtifactBytes VerifierEnums VmCanonical.
Open Scope string_scope.
Open Scope Z_scope.

(** ** Canonical forms *)

Section Sorting.
Context {A : Type} (lt : A → A → bool).
Fixpoint insert_sorted (x : A) (l : list A) : list A :=
  match l with
  | [] => [x]
  | y :: rest => if lt x y then x :: l else y :: insert_sorted x rest
  end.
Definition insertion_sort (l : list A) : list A := foldr insert_sorted [] l.

Lemma insert_sorted_perm x l : insert_sorted x l ≡ₚ x :: l.
Proof using Type.
  induction l as [|y l IH]; [done|]. simpl. destruct (lt x y); [done|]. by rewrite IH, Permutation_swap.
Qed.

Lemma insertion_sort_perm l : insertion_sort l ≡ₚ l.
Proof using Type. induction l as [|x l IH]; [done|]. simpl. by rewrite insert_sorted_perm, IH. Qed.

Lemma insert_sorted_sorted (P : A → Prop) x l :
  (∀ a b, P a → P b → a = b ∨ lt a b = true ∨ lt b a = true) →
  (∀ a b c, P a → P b → P c → lt a b = true → lt b c = true → lt a c = true) →
  P x → Forall P l → x ∉ l → StronglySorted (λ a b, lt a b = true) l →
  StronglySorted (λ a b, lt a b = true) (insert_sorted x l).
Proof using Type.
  intros Htotal Htrans Hx. induction l as [|y l IH]; intros Hl Hnin Hs; simpl.
  { by repeat constructor. }
  apply Forall_cons in Hl as [Hy Hl]. inversion Hs as [|? ? Hs' Hall]; subst.
  rewrite not_elem_of_cons in Hnin. destruct Hnin as [Hne Hnin].
  destruct (lt x y) eqn:E.
  - constructor; [done|]. constructor; [done|]. rewrite Forall_forall in *. intros z Hz.
    apply (Htrans x y z); auto.
  - constructor; [by apply IH|]. rewrite insert_sorted_perm. constructor; [|done].
    destruct (Htotal x y Hx Hy) as [|[|]]; congruence.
Qed.

Lemma insertion_sort_sorted (P : A → Prop) l :
  (∀ a b, P a → P b → a = b ∨ lt a b = true ∨ lt b a = true) →
  (∀ a b c, P a → P b → P c → lt a b = true → lt b c = true → lt a c = true) →
  Forall P l → NoDup l → StronglySorted (λ a b, lt a b = true) (insertion_sort l).
Proof using Type.
  intros Htotal Htrans. induction l as [|x l IH]; intros Hl Hn; simpl; [constructor|].
  apply Forall_cons in Hl as [Hx Hl]. apply NoDup_cons in Hn as [Hnin Hn].
  apply (insert_sorted_sorted P); auto.
  - by rewrite insertion_sort_perm.
  - by rewrite insertion_sort_perm.
Qed.

(** A sorted list is left as it is. *)
Lemma insertion_sort_id l : StronglySorted (λ a b, lt a b = true) l → insertion_sort l = l.
Proof using Type.
  induction 1 as [|x l _ IH Hall]; [done|]. simpl. rewrite IH. destruct Hall as [|y l Hy _]; [done|].
  simpl. by rewrite Hy.
Qed.
End Sorting.

Lemma insertion_sort_map {A B} (f : A → B) (ltA : A → A → bool) (ltB : B → B → bool) l :
  (∀ a b, a ∈ l → b ∈ l → ltA a b = ltB (f a) (f b)) →
  map f (insertion_sort ltA l) = insertion_sort ltB (map f l).
Proof.
  intros Hlt. induction l as [|x l IH]; [done|]. simpl. rewrite <- IH by set_solver. clear IH.
  assert (∀ y, y ∈ insertion_sort ltA l → ltA x y = ltB (f x) (f y)) as Hx.
  { intros y Hy. apply Hlt; [set_solver|]. rewrite insertion_sort_perm in Hy. set_solver. }
  clear Hlt. induction (insertion_sort ltA l) as [|y l' IH]; [done|]. simpl.
  rewrite <- Hx by set_solver. destruct (ltA x y); [done|]. simpl. by rewrite IH by set_solver.
Qed.

Definition entry_before {V} (p q : Value * V) : bool := is_lt (compare_map_keys p.1 q.1).

(** What decoding gives back: maps in key order, enums without their names. *)
Fixpoint canonical_form (v : Value) : Value :=
  match v with
  | VList l => VList (map canonical_form l)
  | VTuple l => VTuple (map canonical_form l)
  | VRecord fs => VRecord (map (λ f : string * Value, (f.1, canonical_form f.2)) fs)
  | VMap m =>
    VMap (insertion_sort entry_before
            (map (λ e : Value * Value, (e.1, canonical_form e.2)) m))
  | VEnum i _ n _ p =>
    VEnum i "<canonical>" n "<canonical>"
      (match p with
       | PUnit => PUnit
       | PTuple l => PTuple (map canonical_form l)
       | PRecord fs => PRecord (map (λ f : string * Value, (f.1, canonical_form f.2)) fs)
       end)
  | VNewtype i v => VNewtype i (canonical_form v)
  | VUnknown v => VUnknown (canonical_form v)
  | v => v
  end.

Lemma canonical_form_key v : is_map_key v = true → canonical_form v = v.
Proof. induction v; simpl; try done. intros Hk. by rewrite IHv. Qed.

(** ** Map keys *)

Fixpoint key_type (v : Value) : ValueType :=
  match v with
  | VBool _ => TBool
  | VInt _ => TInt
  | VString _ => TString
  | VBytes _ => TBytes
  | VNewtype i v => TNewtype i (key_type v)
  | _ => TUnit
  end.

Lemma key_type_ok v : is_map_key v = true → key_of_type (key_type v) v = true.
Proof. induction v; simpl; try done. intros Hk. by rewrite String.eqb_refl, IHv. Qed.

Lemma same_kind_type v w : same_map_key_kind v w = true → key_of_type (key_type v) w = true.
Proof.
  revert w. induction v; intros w; destruct w; simpl; try done. rewrite !andb_true_iff, !String.eqb_eq.
  naive_solver.
Qed.

Lemma key_of_type_key t v : key_of_type t v = true → is_map_key v = true.
Proof. revert v. induction t; intros v Hv; destruct v; try done. simpl in *. apply andb_true_iff in Hv as [_ ?]. auto. Qed.

Lemma key_of_type_kind t v w :
  key_of_type t v = true → key_of_type t w = true → same_map_key_kind v w = true.
Proof.
  revert v w. induction t; intros v w Hv Hw; destruct v; try done; destruct w; try done; simpl in *.
  apply andb_true_iff in Hv as [Hi Hv], Hw as [Hj Hw]. apply String.eqb_eq in Hi, Hj. subst.
  rewrite String.eqb_refl. simpl. eauto.
Qed.

Lemma same_kind_typed t v w : same_map_key_kind v w = true → key_of_type t v = key_of_type t w.
Proof.
  revert t w. induction v; intros t w Hs; destruct w; try done; destruct t; try done.
  simpl in *. apply andb_true_iff in Hs as [->%String.eqb_eq Hs]. by rewrite (IHv _ _ Hs).
Qed.

Lemma validate_entries_ok t before keys first :
  Forall (λ k, key_of_type t k = true) before →
  match first with Some k => key_of_type t k = true | None => before = [] ∧ keys = [] end →
  validate_entries first before keys = Ok tt ↔
  Forall (λ k, key_of_type t k = true) keys ∧ (∀ k, k ∈ before → k ∉ keys) ∧ NoDup keys.
Proof.
  intros Hb Hf. revert before Hb Hf. induction keys as [|key keys IH]; intros before Hb Hf; simpl.
  { split; [|done]. intros _. split_and!; [constructor|set_solver|constructor]. }
  destruct first as [first|]; [|by destruct Hf].
  destruct (is_map_key key) eqn:Hk; simpl.
  2:{ split; [done|]. intros [Hall _]. apply Forall_cons in Hall as [Hkey _].
      apply key_of_type_key in Hkey. congruence. }
  destruct (existsb _ before) eqn:He.
  { split; [done|]. intros (Hall & Hnin & _). exfalso. apply existsb_exists in He as (k & Hin & Heq).
    apply list_elem_of_In in Hin. apply Forall_cons in Hall as [Hkey _].
    rewrite Forall_forall in Hb. apply (compare_map_keys_equal t) in Heq; [|by apply Hb|done].
    subst. apply (Hnin key); set_solver. }
  destruct (same_map_key_kind first key) eqn:Hs; simpl.
  2:{ split; [done|]. intros [Hall _]. apply Forall_cons in Hall as [Hkey _].
      rewrite (key_of_type_kind t) in Hs; done. }
  assert (key_of_type t key = true) as Hkey by (by rewrite <- (same_kind_typed t first)).
  rewrite IH; [|by apply Forall_app; auto|done].
  rewrite Forall_cons, NoDup_cons. split.
  - intros (Hall & Hnin & Hn). split_and!; [done|done| |set_solver|done].
    intros k Hin. rewrite not_elem_of_cons. split; [|set_solver]. intros ->.
    apply not_true_iff_false in He. apply He, existsb_exists. exists key.
    rewrite <- list_elem_of_In. split; [done|]. by apply (compare_map_keys_equal t).
  - intros ((_ & Hall) & Hnin & Hn1 & Hn). split_and!; [done| |done]. set_solver.
Qed.

Lemma validate_map_ok keys :
  validate_map keys = Ok tt ↔ ∃ t, Forall (λ k, key_of_type t k = true) keys ∧ NoDup keys.
Proof.
  destruct keys as [|key keys].
  { split; [|done]. intros _. exists TUnit. split; constructor. }
  unfold validate_map. cbn [head]. destruct (is_map_key key) eqn:Hk.
  - rewrite (validate_entries_ok (key_type key)); [|constructor|by apply key_type_ok].
    split; [intros (Hall & _ & Hn); eauto|]. intros (t & Hall & Hn). split_and!; [|set_solver|done].
    apply Forall_cons in Hall as [Hkey Hall]. constructor; [by apply key_type_ok|].
    eapply Forall_impl; [exact Hall|]. intros k Hkt. by eapply same_kind_type, key_of_type_kind.
  - simpl. rewrite Hk. split; [done|]. intros (t & Hall & _). apply Forall_cons in Hall as [Hkey _].
    apply key_of_type_key in Hkey. congruence.
Qed.

(** ** The order of the loop *)

Lemma sorted_trans_cons {A} (R : A → A → Prop) x l :
  StronglySorted R (x :: l) → StronglySorted R l ∧ Forall (R x) l.
Proof. by inversion 1. Qed.

Section Order.
Context (keys : list Value) (t : ValueType).
Hypothesis Htyped : Forall (λ k, key_of_type t k = true) keys.
Hypothesis Hdistinct : NoDup keys.

Definition before (i j : nat) : bool := is_lt (compare_map_keys (key_at keys i) (key_at keys j)).
Definition key_order : list nat := insertion_sort before (seq 0 (length keys)).

Lemma key_at_lookup i : (i < length keys)%nat → keys !! i = Some (key_at keys i).
Proof using Type. intros Hi. destruct (nth_lookup_or_length keys i VUnit) as [|]; [done|lia]. Qed.

Lemma key_at_typed i : (i < length keys)%nat → key_of_type t (key_at keys i) = true.
Proof using Htyped. intros Hi. exact (Forall_lookup_1 _ _ _ _ Htyped (key_at_lookup i Hi)). Qed.

Lemma before_total i j :
  (i < length keys)%nat → (j < length keys)%nat → i = j ∨ before i j = true ∨ before j i = true.
Proof using Htyped Hdistinct.
  intros Hi Hj. unfold before. rewrite (compare_map_keys_antisym (key_at keys i) (key_at keys j)).
  destruct (compare_map_keys (key_at keys i) (key_at keys j)) eqn:E; simpl; auto. left.
  apply (compare_map_keys_eq t) in E; [|by apply key_at_typed..].
  eapply NoDup_lookup; [exact Hdistinct|by apply key_at_lookup|]. rewrite E. by apply key_at_lookup.
Qed.

Lemma before_trans i j k :
  (i < length keys)%nat → (j < length keys)%nat → (k < length keys)%nat →
  before i j = true → before j k = true → before i k = true.
Proof using Htyped.
  intros Hi Hj Hk. unfold before. intros H1 H2.
  rewrite (compare_map_keys_trans t _ (key_at keys j)); [done|by apply key_at_typed..| |].
  - by destruct (compare_map_keys (key_at keys i) (key_at keys j)).
  - by destruct (compare_map_keys (key_at keys j) (key_at keys k)).
Qed.

Lemma before_irrefl i : before i i = false.
Proof using Type.
  unfold before. pose proof (compare_map_keys_antisym (key_at keys i) (key_at keys i)) as E.
  by destruct (compare_map_keys (key_at keys i) (key_at keys i)).
Qed.

Lemma before_asym i j : before i j = true → before j i = false.
Proof using Type.
  unfold before. rewrite (compare_map_keys_antisym (key_at keys i) (key_at keys j)).
  by destruct (compare_map_keys (key_at keys i) (key_at keys j)).
Qed.

Lemma key_order_perm : key_order ≡ₚ seq 0 (length keys).
Proof using Type. apply insertion_sort_perm. Qed.

Lemma key_order_sorted : StronglySorted (λ i j, before i j = true) key_order.
Proof using Htyped Hdistinct.
  apply (insertion_sort_sorted _ (λ i, (i < length keys)%nat)).
  - intros. by apply before_total.
  - intros ? ? ? ? ? ?. by apply before_trans.
  - apply Forall_forall. intros i Hi. apply elem_of_seq in Hi. lia.
  - apply NoDup_seq.
Qed.

(** An index may follow the previous one. *)
Definition eligible (previous : option nat) (j : nat) : bool :=
  match previous with Some p => before p j | None => true end.

Lemma next_candidate_eq previous c j :
  next_candidate keys previous c j =
  if eligible previous j
  then match c with Some c => if before j c then Some j else Some c | None => Some j end
  else c.
Proof using Type.
  unfold next_candidate, eligible, before. destruct previous as [p|]; simpl; [|by destruct c].
  rewrite (compare_map_keys_antisym (key_at keys p) (key_at keys j)).
  destruct (compare_map_keys (key_at keys p) (key_at keys j)); simpl; try done. by destruct c.
Qed.

Lemma fold_candidate_min previous least l c :
  eligible previous least = true → (least ∈ l ∨ c = Some least) →
  (∀ j, j ∈ l ∨ c = Some j → eligible previous j = true → j = least ∨ before least j = true) →
  match c with Some j => eligible previous j = true | None => True end →
  fold_left (next_candidate keys previous) l c = Some least.
Proof using Type.
  intros He. revert c. induction l as [|j l IH]; intros c Hin Hmin Hc; simpl.
  { destruct Hin as [Hin| ->]; [by apply not_elem_of_nil in Hin|done]. }
  rewrite next_candidate_eq.
  assert (∀ j', j' ∈ l → eligible previous j' = true → j' = least ∨ before least j' = true) as Hl.
  { intros j' Hj'. apply Hmin. left. by right. }
  destruct (eligible previous j) eqn:Hj.
  2:{ apply IH; [|intros j' [Hj'|Hj']; eauto|done].
      destruct Hin as [[->|Hin]%elem_of_cons|Hin]; [congruence|auto|auto]. }
  pose proof (Hmin j (or_introl (list_elem_of_here _ _)) Hj) as Hleast.
  assert (∀ c', eligible previous c' = true → (c' = least ∨ before least c' = true) →
            (least ∈ l ∨ Some c' = Some least) →
            fold_left (next_candidate keys previous) l (Some c') = Some least) as Hgo.
  { intros c' Hc' Hlc Hin'. apply IH; [done| |done]. intros j' [Hj'|[= <-]]; auto. }
  destruct c as [c|].
  - pose proof (Hmin c (or_intror eq_refl) Hc) as Hleast'. destruct (before j c) eqn:Hjc; apply Hgo; auto.
    + destruct Hin as [[->|Hin]%elem_of_cons|[= ->]]; [auto|auto|].
      destruct Hleast as [->|Hlt]; [by right|]. apply before_asym in Hlt. congruence.
    + destruct Hin as [[->|Hin]%elem_of_cons|[= ->]]; [|auto|auto].
      destruct Hleast' as [->|]; [by right|congruence].
  - apply Hgo; auto. destruct Hin as [[->|Hin]%elem_of_cons|Hin]; [auto|auto|done].
Qed.

Lemma next_map_entry_order done_ next rest :
  key_order = (done_ ++ next :: rest)%list → next_map_entry keys (last done_) = Ok next.
Proof using Htyped Hdistinct.
  intros Ho. pose proof key_order_sorted as Hs. rewrite Ho in Hs.
  apply StronglySorted_app in Hs as (Hcross & _ & Hrest).
  apply sorted_trans_cons in Hrest as [_ Hnext]. rewrite Forall_forall in Hnext.
  unfold next_map_entry. rewrite (fold_candidate_min _ next); [done| | | |done].
  - unfold eligible. destruct (last done_) as [p|] eqn:Hl; [|done].
    apply last_Some_elem_of in Hl. apply Hcross; set_solver.
  - left. rewrite <- key_order_perm, Ho. set_solver.
  - intros j [Hj|]; [|done]. rewrite <- key_order_perm, Ho in Hj. intros Hel.
    apply elem_of_app in Hj as [Hj|Hj].
    + exfalso. destruct (last done_) as [p|] eqn:Hl; [|by apply last_None in Hl; subst; set_solver].
      simpl in Hel. apply last_Some in Hl as [l ->].
      pose proof key_order_sorted as Hs. rewrite Ho in Hs. apply StronglySorted_app in Hs as (_ & Hs & _).
      apply StronglySorted_app in Hs as (Hc & _ & _). apply elem_of_app in Hj as [Hj|Hj].
      * specialize (Hc j p Hj ltac:(set_solver)). apply before_asym in Hc. congruence.
      * apply list_elem_of_singleton in Hj as ->. by rewrite before_irrefl in Hel.
    + apply elem_of_cons in Hj as [->|Hj]; [by left|right; auto].
Qed.

(** The loop writes the parts in the order of the keys. *)
Lemma encode_entries_order parts done_ rest :
  key_order = (done_ ++ rest)%list →
  encode_entries (length rest) keys parts (last done_)
  = concat_bytes (flat_map (λ i, let p := nth i parts (Err EncodeInvalidValue, Err EncodeInvalidValue) in
                                 [p.1; p.2]) rest).
Proof using Htyped Hdistinct.
  revert done_. induction rest as [|next rest IH]; intros done_ Ho; [done|]. simpl.
  rewrite (next_map_entry_order done_ next rest) by done.
  specialize (IH (done_ ++ [next])%list). rewrite last_snoc in IH. rewrite IH by (by rewrite <- app_assoc).
  destruct (nth next parts _) as [[k|] [v|]]; simpl; try done.
  destruct (concat_bytes _) as [bs|]; simpl; [|done]. by rewrite app_assoc.
Qed.
End Order.

Lemma map_nth_seq {A} (l : list A) d : map (λ i, nth i l d) (seq 0 (length l)) = l.
Proof.
  induction l as [|x l IH]; [done|]. cbn [length seq map nth]. f_equal. rewrite <- seq_shift, map_map.
  exact IH.
Qed.

Definition entry_parts (enc : Value → Bytes_) (e : Value * Value) : list Bytes_ := [enc e.1; enc e.2].

Lemma encode_entries_sorted enc (m : list (Value * Value)) t :
  Forall (λ k, key_of_type t k = true) (map fst m) → NoDup (map fst m) →
  encode_entries (length m) (map fst m) (map (λ e, (enc e.1, enc e.2)) m) None
  = concat_bytes (flat_map (entry_parts enc) (insertion_sort entry_before m)).
Proof.
  intros Ht Hn. pose proof (encode_entries_order (map fst m) t Ht Hn
    (map (λ e, (enc e.1, enc e.2)) m) [] (key_order (map fst m)) eq_refl) as He.
  assert (length (key_order (map fst m)) = length m) as Hl.
  { by rewrite (Permutation_length (key_order_perm (map fst m))), length_seq, length_map. }
  rewrite Hl in He. simpl last in He. rewrite He. clear He Hl. f_equal.
  set (d := (VUnit, VUnit)).
  assert (insertion_sort entry_before m = map (λ i, nth i m d) (key_order (map fst m))) as ->.
  { unfold key_order. rewrite length_map. rewrite <- (map_nth_seq m d) at 1.
    symmetry. apply insertion_sort_map. intros i j _ _. unfold before, entry_before, key_at.
    by rewrite <- !(map_nth fst m d). }
  pose proof (key_order_perm (map fst m)) as Hp. rewrite length_map in Hp.
  assert (Forall (λ i, i < length m)%nat (key_order (map fst m))) as Hlt.
  { rewrite Hp. apply Forall_forall. intros i Hi. apply elem_of_seq in Hi. lia. }
  clear Hp. induction Hlt as [|i l Hi Hl IH]; [done|].
  refine (f_equal2 (@app _) _ IH). unfold entry_parts. cbv zeta. rewrite (nth_indep _ _ (enc d.1, enc d.2)) by (by rewrite length_map).
  by rewrite (map_nth (λ e : Value * Value, (enc e.1, enc e.2)) m d i).
Qed.

(** ** Lengths *)

Definition part_length (part : Bytes_) : Z :=
  match part with Ok bs => Z.of_nat (length bs) | Err _ => 0 end.
Definition total_length (parts : list Bytes_) : Z := foldr Z.add 0 (map part_length parts).

Lemma concat_bytes_ok parts :
  Forall (λ p, is_ok p = true) parts →
  ∃ bs, concat_bytes parts = Ok bs ∧ Z.of_nat (length bs) = total_length parts.
Proof.
  induction 1 as [|p parts Hp _ (bs & Hbs & Hl)]; [by exists []|]. destruct p as [a|]; [|done]. simpl.
  rewrite Hbs. eexists. split; [done|]. rewrite length_app. unfold total_length in *. simpl. lia.
Qed.

Lemma total_length_app a b : total_length (a ++ b) = total_length a + total_length b.
Proof. unfold total_length. induction a as [|x a IH]; simpl; lia. Qed.

Lemma total_length_perm {A} (f : A → list Bytes_) l l' :
  l ≡ₚ l' → total_length (flat_map f l) = total_length (flat_map f l').
Proof. induction 1; simpl; rewrite ?total_length_app; lia. Qed.

(** An encoder that writes as many bytes as a length function says. *)
Definition measured {A} (len : A → result CanonicalEncodeError Z) (enc : A → Bytes_) (x : A) : Prop :=
  ∀ n, len x = Ok n → ∃ bs, enc x = Ok bs ∧ Z.of_nat (length bs) = n.

Lemma length_add_ok a b n : length_add a b = Ok n → n = a + b.
Proof. unfold length_add. destruct (_ <? _); [done|]. by intros [= <-]. Qed.

Lemma sum_measured {A} (len : A → result CanonicalEncodeError Z) enc start l n :
  Forall (measured len enc) l → try_fold_sum len length_add start l = Ok n →
  Forall (λ p, is_ok p = true) (map enc l) ∧ n = start + total_length (map enc l).
Proof.
  intros Hm. revert start. induction Hm as [|x l Hx _ IH]; intros start Hf; simpl in *.
  { split; [constructor|]. injection Hf as <-. unfold total_length. simpl. lia. }
  destruct (len x) as [k|] eqn:Hk; [|done]. destruct (Hx k Hk) as (bs & Hbs & Hl).
  destruct (length_add start k) as [start'|] eqn:Ha; [|done]. apply length_add_ok in Ha as ->.
  destruct (IH _ Hf) as [Hok ->]. rewrite Hbs. split; [by constructor|]. unfold total_length. simpl. lia.
Qed.

Lemma sum2_measured {A} (len1 len2 : A → result CanonicalEncodeError Z) enc1 enc2 start l n :
  Forall (λ x, measured len1 enc1 x ∧ measured len2 enc2 x) l →
  try_fold_sum2 len1 len2 length_add start l = Ok n →
  let parts := flat_map (λ x, [enc1 x; enc2 x]) l in
  Forall (λ p, is_ok p = true) parts ∧ n = start + total_length parts.
Proof.
  intros Hm. revert start. induction Hm as [|x l [Hx1 Hx2] _ IH]; intros start Hf; simpl in *.
  { split; [constructor|]. injection Hf as <-. unfold total_length. simpl. lia. }
  destruct (len1 x) as [k|] eqn:Hk; [|done]. destruct (Hx1 k Hk) as (bs & Hbs & Hl).
  destruct (length_add start k) as [start'|] eqn:Ha; [|done]. apply length_add_ok in Ha as ->.
  destruct (len2 x) as [k'|] eqn:Hk'; [|done]. destruct (Hx2 k' Hk') as (bs' & Hbs' & Hl').
  destruct (length_add _ k') as [start''|] eqn:Ha; [|done]. apply length_add_ok in Ha as ->.
  destruct (IH _ Hf) as [Hok ->]. rewrite Hbs, Hbs'. split; [by repeat constructor|].
  unfold total_length. simpl. lia.
Qed.

Lemma concat_pairs {A} (enc1 enc2 : A → Bytes_) l :
  concat_bytes (map (λ x, let? a := enc1 x in let? b := enc2 x in Ok (a ++ b)%list) l)
  = concat_bytes (flat_map (λ x, [enc1 x; enc2 x]) l).
Proof.
  induction l as [|x l IH]; [done|]. cbn [map flat_map app concat_bytes]. rewrite IH.
  destruct (enc1 x) as [a|], (enc2 x) as [b|]; try done.
  destruct (concat_bytes (flat_map _ l)); [|done]. by rewrite app_assoc.
Qed.

Lemma length_u32_ok {A} (l : list A) :
  length_u32 l = Ok tt ↔ Z.of_nat (length l) <= u32_max.
Proof. unfold length_u32. destruct (Z.ltb_spec u32_max (Z.of_nat (length l))); split; (done || lia). Qed.

Lemma encode_length_ok n :
  Z.of_nat n <= u32_max → encode_length n = Ok (be_bytes 4 (Z.of_nat n)).
Proof. intros Hn. unfold encode_length. destruct (Z.ltb_spec u32_max (Z.of_nat n)); [lia|done]. Qed.

Lemma length_u32_cases {A} (l : list A) {B} (k : result CanonicalEncodeError B) x :
  (try? length_u32 l in k) = Ok x →
  encode_length (length l) = Ok (be_bytes 4 (Z.of_nat (length l))) ∧ k = Ok x.
Proof.
  destruct (length_u32 l) as [[]|] eqn:Hl; [|done]. apply length_u32_ok in Hl. split; [|done].
  by apply encode_length_ok.
Qed.

Lemma name_measured name : measured field_name_length encode_field_name name.
Proof.
  intros n Hn. unfold field_name_length in Hn. apply length_u32_cases in Hn as [Hl Hn].
  apply length_add_ok in Hn as ->. unfold encode_field_name. rewrite Hl. eexists. split; [done|].
  rewrite length_app, length_be_bytes, length_bytes. unfold str_len. lia.
Qed.

Lemma sized_measured tag bs n :
  sized_payload_length bs = Ok n →
  ∃ out, encode_sized_value tag bs = Ok out ∧ Z.of_nat (length out) = n.
Proof.
  unfold sized_payload_length. intros [Hl Hn]%length_u32_cases. apply length_add_ok in Hn as ->.
  unfold encode_sized_value. rewrite Hl. eexists. split; [done|].
  cbn [length]. rewrite length_app, length_be_bytes. lia.
Qed.

Definition encode_items (enc : Value → Bytes_) (values : list Value) : Bytes_ :=
  let? n := encode_length (length values) in
  let? items := concat_bytes (map enc values) in
  Ok (n ++ items)%list.
Definition encode_fields (enc : Value → Bytes_) (fields : list (string * Value)) : Bytes_ :=
  let? n := encode_length (length fields) in
  let? items := concat_bytes (map (λ f : string * Value,
    let? name := encode_field_name f.1 in let? v := enc f.2 in Ok (name ++ v)%list) fields) in
  Ok (n ++ items)%list.

Lemma items_measured len enc start values n :
  Forall (measured len enc) values →
  (try? length_u32 values in try_fold_sum len length_add start values) = Ok n →
  ∃ bs, encode_items enc values = Ok bs ∧ Z.of_nat (length bs) = n - start + 4.
Proof.
  intros Hm [Hl Hf]%length_u32_cases. destruct (sum_measured _ _ _ _ _ Hm Hf) as [Hok ->].
  destruct (concat_bytes_ok _ Hok) as (bs & Hbs & Hlen). unfold encode_items. rewrite Hl, Hbs.
  eexists. split; [done|]. rewrite length_app, length_be_bytes. lia.
Qed.

Lemma fields_measured len enc start fields n :
  Forall (λ f : string * Value, measured len enc f.2) fields →
  (try? length_u32 fields in try? validate_record_fields fields in
   try_fold_sum2 (λ f : string * Value, field_name_length f.1) (λ f : string * Value, len f.2)
     length_add start fields) = Ok n →
  ∃ bs, encode_fields enc fields = Ok bs ∧ Z.of_nat (length bs) = n - start + 4.
Proof.
  intros Hm [Hl Hf]%length_u32_cases. destruct (validate_record_fields fields); [|done].
  apply (sum2_measured _ _ (λ f : string * Value, encode_field_name f.1)
           (λ f : string * Value, enc f.2)) in Hf as [Hok ->].
  - destruct (concat_bytes_ok _ Hok) as (bs & Hbs & Hlen). unfold encode_fields.
    rewrite Hl, concat_pairs, Hbs. eexists. split; [done|]. rewrite length_app, length_be_bytes. lia.
  - eapply Forall_impl; [exact Hm|]. intros f Hv. split; [exact (name_measured f.1)|exact Hv].
Qed.

Definition tagged (tag : Z) (body : Bytes_) : Bytes_ := let? body := body in Ok (tag :: body).

(** The aggregates, one by one. *)
Lemma encode_list l : encode_into (VList l) = tagged 7 (encode_items encode_into l).
Proof. done. Qed.
Lemma encode_tuple l : encode_into (VTuple l) = tagged 9 (encode_items encode_into l).
Proof. done. Qed.
Lemma encode_record fs : encode_into (VRecord fs) = tagged 10 (encode_fields encode_into fs).
Proof. done. Qed.
Definition encode_payload (p : EnumPayload Value) : Bytes_ :=
  match p with
  | PUnit => Ok (0 :: be_bytes 4 0)
  | PTuple l => tagged 1 (encode_items encode_into l)
  | PRecord fs => tagged 2 (encode_fields encode_into fs)
  end.
Lemma encode_enum i tn n vn p :
  encode_into (VEnum i tn n vn p)
  = let? payload := encode_payload p in
    Ok (11 :: encode_identity i ++ be_bytes 4 (Z.of_nat n) ++ payload)%list.
Proof. by destruct p. Qed.

Lemma encode_measured v depth : measured (λ v, encoded_length_at v depth) encode_into v.
Proof.
  revert depth. induction v as [v Hv|l IH|m IH|l IH|fs IH|i tn v vn p IH|i v IH|v IH|f l IH|f IH]
    using Value_ind'; intros depth n Hn; cbn beta in Hn.
  - destruct v; try done; cbn [encoded_length_at encode_into] in *; destruct (_ <? depth)%nat; try done.
    + injection Hn as <-. eexists. split; [done|]. cbn [length]. by rewrite length_be_bytes.
    + injection Hn as <-. by destruct value; eexists.
    + destruct (_ && _); [done|]. injection Hn as <-. eexists. split; [done|]. cbn [length].
      by rewrite length_be_bytes.
    + by apply sized_measured.
    + by apply sized_measured.
    + injection Hn as <-. by eexists.
  - rewrite encode_list. cbn [encoded_length_at] in Hn. destruct (_ <? depth)%nat; [done|].
    apply (items_measured (λ v, encoded_length_at v (S depth)) encode_into) in Hn as (bs & Hbs & Hl); [|by eapply Forall_impl; [exact IH|]].
    rewrite Hbs. eexists. split; [done|]. cbn [length]. lia.
  - cbn [encoded_length_at encode_into] in *. destruct (_ <? depth)%nat; [done|].
    apply length_u32_cases in Hn as [Hl Hn].
    destruct (validate_map _) as [[]|] eqn:Hv; [|done]. apply validate_map_ok in Hv as (t & Ht & Hnd).
    apply (sum2_measured _ _ (λ e : Value * Value, encode_into e.1) (λ e : Value * Value, encode_into e.2))
      in Hn as [Hok ->].
    2:{ eapply Forall_impl; [exact IH|]. intros e [H1 H2]. split; [exact (H1 (S depth))|exact (H2 (S depth))]. }
    rewrite (encode_entries_sorted encode_into m t Ht Hnd), Hl.
    destruct (concat_bytes_ok (flat_map (entry_parts encode_into) (insertion_sort entry_before m)))
      as (bs & Hbs & Hlen).
    { rewrite Forall_forall in *. intros p Hp. apply Hok. apply list_elem_of_In, in_flat_map in Hp as (e & He & Hp).
      apply list_elem_of_In, in_flat_map. exists e. split; [|done].
      apply list_elem_of_In in He. rewrite insertion_sort_perm in He. by apply list_elem_of_In. }
    rewrite Hbs. eexists. split; [done|]. cbn [length]. rewrite length_app, length_be_bytes.
    rewrite (total_length_perm _ _ m) in Hlen by apply insertion_sort_perm.
    unfold entry_parts in Hlen. lia.
  - rewrite encode_tuple. cbn [encoded_length_at] in Hn. destruct (_ <? depth)%nat; [done|].
    destruct l as [|x l]; [done|].
    apply (items_measured (λ v, encoded_length_at v (S depth)) encode_into) in Hn as (bs & Hbs & Hl); [|by eapply Forall_impl; [exact IH|]].
    rewrite Hbs. eexists. split; [done|]. cbn [length]. lia.
  - rewrite encode_record. cbn [encoded_length_at] in Hn. destruct (_ <? depth)%nat; [done|].
    apply (fields_measured (λ v, encoded_length_at v (S depth)) encode_into) in Hn as (bs & Hbs & Hl); [|by eapply Forall_impl; [exact IH|]].
    rewrite Hbs. eexists. split; [done|]. cbn [length]. lia.
  - rewrite encode_enum. cbn [encoded_length_at] in Hn. destruct (_ <? depth)%nat; [done|].
    destruct (length_add _ 10) as [start|] eqn:Hs; [|done]. apply length_add_ok in Hs as ->.
    assert (Z.of_nat (length (encode_identity i)) = identity_length i) as Hi.
    { destruct i; [|done..]. cbn [encode_identity identity_length length]. by rewrite length_be_bytes. }
    destruct p as [|l|fs].
    + injection Hn as <-. eexists. split; [done|]. cbn [length]. rewrite !length_app. cbn [length].
      rewrite !length_be_bytes. lia.
    + apply (items_measured (λ v, encoded_length_at v (S depth)) encode_into) in Hn as (bs & Hbs & Hl); [|by eapply Forall_impl; [exact IH|]].
      cbn [encode_payload]. rewrite Hbs. eexists. split; [done|]. cbn [length].
      rewrite !length_app. cbn [length]. rewrite !length_be_bytes. lia.
    + apply (fields_measured (λ v, encoded_length_at v (S depth)) encode_into) in Hn as (bs & Hbs & Hl); [|by eapply Forall_impl; [exact IH|]].
      cbn [encode_payload]. rewrite Hbs. eexists. split; [done|]. cbn [length].
      rewrite !length_app. cbn [length]. rewrite !length_be_bytes. lia.
  - cbn [encoded_length_at encode_into] in *. destruct (_ <? depth)%nat; [done|].
    destruct (valid_newtype_identity i); [|done]. cbn [negb] in Hn.
    destruct (encoded_length_at v (S depth)) as [k|] eqn:Hk; [|done].
    destruct (IH _ _ Hk) as (bs & Hbs & Hl). destruct (field_name_length i) as [j|] eqn:Hj; [|done].
    destruct (name_measured i j Hj) as (nm & Hnm & Hl').
    destruct (length_add 1 j) as [o|] eqn:Ho; [|done]. apply length_add_ok in Ho as ->.
    apply length_add_ok in Hn as ->. rewrite Hnm, Hbs. eexists. split; [done|]. cbn [length].
    rewrite length_app. lia.
  - cbn [encoded_length_at encode_into] in *. destruct (_ <? depth)%nat; [done|].
    destruct (encoded_length_at v (S depth)) as [k|] eqn:Hk; [|done].
    destruct (IH _ _ Hk) as (bs & Hbs & Hl). apply length_add_ok in Hn as ->. rewrite Hbs.
    eexists. split; [done|]. cbn [length]. lia.
  - cbn [encoded_length_at] in Hn. by destruct (_ <? depth)%nat.
  - cbn [encoded_length_at] in Hn. by destruct (_ <? depth)%nat.
Qed.

(** ** Values that decode *)

(** The integers and texts that the types of the source allow. *)
Fixpoint value_width (v : Value) : bool :=
  let field (f : string * Value) := utf8_valid (bytes f.1) && value_width f.2 in
  match v with
  | VInt z => (i64_min <=? z) && (z <=? i64_max)
  | VFloat bits => in_unsigned u64_max bits
  | VString s => utf8_valid (bytes s)
  | VBytes bs => forallb is_byte bs
  | VList l | VTuple l => forallb value_width l
  | VMap m => forallb (λ e : Value * Value, value_width e.1 && value_width e.2) m
  | VRecord fs => forallb field fs
  | VEnum i _ n _ p =>
    match i with User id => Z.of_nat id <=? u32_max | _ => true end
    && (Z.of_nat n <=? u32_max)
    && match p with
       | PUnit => true
       | PTuple l => forallb value_width l
       | PRecord fs => forallb field fs
       end
  | VNewtype i v => utf8_valid (bytes i) && value_width v
  | VUnknown v => value_width v
  | _ => true
  end.

(** The nesting the decoder admits below [levels] levels; the fields of an enum's
    record count twice. *)
Fixpoint decodable (levels : nat) (v : Value) : bool :=
  match levels with
  | O => false
  | S deeper =>
    match v with
    | VList l | VTuple l => forallb (decodable deeper) l
    | VMap m => forallb (λ e : Value * Value, decodable deeper e.1 && decodable deeper e.2) m
    | VRecord fs => forallb (λ f : string * Value, decodable deeper f.2) fs
    | VEnum _ _ _ _ p =>
      match p with
      | PUnit => true
      | PTuple l => forallb (decodable deeper) l
      | PRecord fs => forallb (λ f : string * Value, decodable (Nat.pred deeper) f.2) fs
      end
    | VNewtype _ v | VUnknown v => decodable deeper v
    | _ => true
    end
  end.

Definition sum_costs {A} (f : A → Z) (l : list A) : Z := foldr (λ x n, f x + n) 0 l.

Section Allocation.
Context `{Memory}.
(** What the decoder charges for a value. *)
Fixpoint allocation (v : Value) : Z :=
  let values l := size_of_value * Z.of_nat (length l) + sum_costs allocation l in
  let fields (fs : list (string * Value)) :=
    size_of_field * Z.of_nat (length fs)
    + sum_costs (λ f : string * Value, str_len f.1 + allocation f.2) fs in
  match v with
  | VString s => str_len s
  | VBytes bs => Z.of_nat (length bs)
  | VList l | VTuple l => values l
  | VMap m =>
    size_of_entry * Z.of_nat (length m)
    + sum_costs (λ e : Value * Value, allocation e.1 + allocation e.2) m
  | VRecord fs => fields fs
  | VEnum _ _ _ _ p =>
    match p with PUnit => 0 | PTuple l => values l | PRecord fs => fields fs end
  | VNewtype i v => str_len i + allocation v
  | VUnknown v => allocation v
  | _ => 0
  end.
End Allocation.

(** Memory that never refuses, with sizes that are sizes. *)
Record ample `{Memory} : Prop := {
  ample_value : 0 <= size_of_value; ample_entry : 0 <= size_of_entry;
  ample_field : 0 <= size_of_field;
  ample_reserve : ∀ e n, try_reserve_exact e n = true }.

(** ** Reading back *)

Section Takes.
Context `{Memory} (maximum : Z).
Hypothesis Hample : ample.
Hypothesis Hmaximum : maximum <= usize_max.

(** The reader takes the bytes [w], charges [cost] and gives [x]. *)
Definition takes {A} (p : CRead A) (w : list Z) (cost : Z) (x : A) : Prop :=
  0 <= cost ∧ ∀ rest a, 0 <= a → a + cost <= maximum →
    p {| cr_bytes := (w ++ rest)%list; cr_allocated := a |}
    = Ok (x, {| cr_bytes := rest; cr_allocated := a + cost |}).

Lemma takes_ret {A} (x : A) : takes (mret x) [] 0 x.
Proof using Type. split; [done|]. intros rest a Ha Hm. cbv [mret cread_ret]. by rewrite Z.add_0_r. Qed.

Lemma takes_bind {A B} (p : CRead A) (k : A → CRead B) w w' c c' x y :
  takes p w c x → takes (k x) w' c' y → takes (p ≫= k) (w ++ w') (c + c') y.
Proof using Type.
  intros [Hc Hp] [Hc' Hk]. split; [lia|]. intros rest a Ha Hm. unfold mbind, cread_bind.
  rewrite <- app_assoc, Hp by lia. rewrite Hk by lia. by rewrite Z.add_assoc.
Qed.

Lemma takes_guard {A} (b : bool) e (k : unit → CRead A) w c x :
  b = true → takes (k tt) w c x → takes (cguard b e ≫= k) w c x.
Proof using Type. intros -> [Hc Hk]. split; [done|]. intros rest a Ha Hm. by apply Hk. Qed.

Lemma takes_take w : takes (ctake (Z.of_nat (length w))) w 0 w.
Proof using Type.
  split; [done|]. intros rest a Ha Hm. unfold ctake. cbn [cr_bytes cr_allocated].
  rewrite length_app. destruct (Z.ltb_spec (Z.of_nat (length w + length rest)) (Z.of_nat (length w))); [lia|].
  rewrite Nat2Z.id, take_app_length, drop_app_length. by rewrite Z.add_0_r.
Qed.

Lemma takes_map {A B} (p : CRead A) (f : A → B) w c x :
  takes p w c x → takes (v ← p; mret (f v)) w c (f x).
Proof using Type.
  intros Hp. rewrite <- (app_nil_r w), <- (Z.add_0_r c). eapply takes_bind; [exact Hp|apply takes_ret].
Qed.

Lemma takes_byte b : takes cbyte [b] 0 b.
Proof using Type.
  unfold cbyte. assert (be_value [b] = b) as <- by (unfold be_value; simpl; lia).
  apply takes_map. rewrite (ltac:(unfold be_value; simpl; lia) : be_value [b] = b).
  exact (takes_take [b]).
Qed.

Lemma takes_u32 n : 0 <= n <= u32_max → takes cu32 (be_bytes 4 n) 0 n.
Proof using Type.
  intros Hn. unfold cu32. assert (be_value (be_bytes 4 n) = n) as Hv.
  { unfold be_value, be_bytes. rewrite rev_involutive. apply le_value_bytes. unfold u32_max in Hn. simpl. lia. }
  rewrite <- Hv at 2. apply takes_map. pose proof (takes_take (be_bytes 4 n)) as Ht.
  by rewrite length_be_bytes in Ht.
Qed.

Lemma takes_count {A} (k : Z → CRead A) n w c x :
  0 <= n <= u32_max → n <= Z.of_nat (length w) → takes (k n) w c x →
  takes (ccount ≫= k) (be_bytes 4 n ++ w) c x.
Proof using Type.
  intros Hn Hw [Hc Hk]. split; [done|]. intros rest a Ha Hm. unfold mbind, cread_bind, ccount.
  destruct (takes_u32 n Hn) as [_ Hu]. rewrite <- app_assoc, Hu by lia. cbn [cr_bytes].
  rewrite length_app. destruct (Z.ltb_spec (Z.of_nat (length w + length rest)) n); [lia|].
  rewrite Z.add_0_r. by apply Hk.
Qed.

Lemma takes_charge {A} e n (k : unit → CRead A) w c x :
  0 <= n → takes (k tt) w c x →
  takes (ccharge maximum e n ≫= k) w (element_size e * n + c) x.
Proof using Hample Hmaximum.
  intros Hn [Hc Hk]. assert (0 <= element_size e) as He.
  { destruct Hample. by destruct e. }
  assert (0 <= element_size e * n) as Hen by nia. split; [lia|].
  intros rest a Ha Hm. unfold mbind, cread_bind, ccharge. cbn [cr_bytes cr_allocated].
  destruct (Z.ltb_spec usize_max (element_size e * n)); [lia|].
  destruct (Z.ltb_spec usize_max (a + element_size e * n)); [lia|].
  destruct (Z.ltb_spec maximum (a + element_size e * n)); [lia|]. cbn [orb].
  rewrite Hk by lia. by rewrite Z.add_assoc.
Qed.

Lemma takes_reserve {A} e n (k : unit → CRead A) w c x :
  takes (k tt) w c x → takes (creserve e n ≫= k) w c x.
Proof using Hample. intros Hk. apply takes_guard; [apply Hample|done]. Qed.
End Takes.
