(* ===== verification/VmCanonicalRoundtrip.v ===== *)
(** * Canonical bytes decode to the canonical form

    What the encoder writes for a value, the decoder reads back as the canonical form
    of the value, charging the allocation of the value. *)

From S2P Require Import Prelude Text Bytecode VmValue ArtifactBytes VerifierEnums VmCanonical.
From S2P Require Import VmCanonicalCorrect.
Open Scope string_scope.
Open Scope Z_scope.

(** ** What the length function has checked *)

Lemma sum_cases {A} (f : A → result CanonicalEncodeError Z) start l n :
  try_fold_sum f length_add start l = Ok n → Forall (λ x, ∃ k, f x = Ok k) l.
Proof.
  revert start. induction l as [|x l IH]; intros start Hf; [constructor|]. simpl in Hf.
  destruct (f x) as [k|] eqn:Hk; [|done]. destruct (length_add start k); [|done].
  constructor; eauto.
Qed.

Lemma sum2_cases {A} (f g : A → result CanonicalEncodeError Z) start l n :
  try_fold_sum2 f g length_add start l = Ok n →
  Forall (λ x, (∃ k, f x = Ok k) ∧ ∃ k, g x = Ok k) l.
Proof.
  revert start. induction l as [|x l IH]; intros start Hf; [constructor|]. simpl in Hf.
  destruct (f x) as [k|] eqn:Hk; [|done]. destruct (length_add start k); [|done].
  destruct (g x) as [k'|] eqn:Hk'; [|done]. destruct (length_add _ k'); [|done].
  constructor; [split|]; eauto.
Qed.

Lemma field_name_cases name n :
  field_name_length name = Ok n →
  Z.of_nat (length (bytes name)) <= u32_max
  ∧ encode_field_name name = Ok (be_bytes 4 (Z.of_nat (length (bytes name))) ++ bytes name)%list.
Proof.
  unfold field_name_length, encode_field_name. destruct (length_u32 _) as [[]|] eqn:Hl; [|done]. intros _.
  apply length_u32_ok in Hl. by rewrite encode_length_ok.
Qed.

Lemma float_bits_canonical bits :
  is_nan_bits bits && negb (bits =? CANONICAL_NAN_BITS) = false →
  FloatValue_from_canonical_bits bits = bits.
Proof.
  unfold FloatValue_from_canonical_bits, canonical_float_bits. destruct (is_nan_bits bits); [|done].
  simpl. rewrite negb_false_iff, Z.eqb_eq. by intros ->.
Qed.

Section Roundtrip.
Context `{Memory} (maximum : Z).
Hypothesis Hample : ample.
Hypothesis Hmaximum : maximum <= usize_max.
#[local] Abbreviation takes := (takes maximum).

Lemma be_value_bytes width z : 0 <= z < 256 ^ Z.of_nat width → be_value (be_bytes width z) = z.
Proof using Type. intros Hz. unfold be_value, be_bytes. rewrite rev_involutive. by apply le_value_bytes. Qed.

Lemma takes_eq {A} (p : CRead A) w w' c c' x : w = w' → c = c' → takes p w c x → takes p w' c' x.
Proof using Type. by intros -> ->. Qed.

(** A value whose encoding reads back. *)
Definition reads_back (read : CRead Value) (v : Value) : Prop :=
  ∃ bs, encode_into v = Ok bs ∧ (1 <= length bs)%nat ∧ takes read bs (allocation v) (canonical_form v).

Lemma takes_text {A} s (k : string → CRead A) w c x :
  Z.of_nat (length (bytes s)) <= u32_max → utf8_valid (bytes s) = true → takes (k s) w c x →
  takes (ctext maximum ≫= k) ((be_bytes 4 (Z.of_nat (length (bytes s))) ++ bytes s) ++ w)%list
    (str_len s + c) x.
Proof using Hample Hmaximum.
  intros Hl Hu Hk. eapply (takes_bind maximum); [|exact Hk]. unfold ctext.
  apply takes_count; [lia|lia|].
  eapply takes_eq; [apply app_nil_r| |eapply takes_bind; [apply takes_take|]].
  2:{ apply takes_guard; [done|]. apply takes_charge; [done..|lia|].
      rewrite string_of_bytes_bytes. apply takes_ret. }
  cbn [element_size]. rewrite length_bytes. unfold str_len. lia.
Qed.

Lemma takes_items read l :
  Forall (reads_back read) l →
  ∃ bs, concat_bytes (map encode_into l) = Ok bs ∧ (length l <= length bs)%nat
    ∧ takes (cread_n (length l) read) bs (sum_costs allocation l) (map canonical_form l).
Proof using Type.
  induction 1 as [|v l (bs & Hbs & Hl & Hv) _ (bs' & Hbs' & Hl' & Hrest)].
  { exists []. split_and!; [done|done|apply takes_ret]. }
  exists (bs ++ bs')%list. cbn [map concat_bytes length cread_n]. rewrite Hbs, Hbs', length_app.
  split_and!; [done|lia|]. eapply takes_bind; [exact Hv|].
  by apply (takes_map maximum _ (cons (canonical_form v))).
Qed.

(** The items after their count. *)
Lemma takes_values read l :
  Forall (reads_back read) l → Z.of_nat (length l) <= u32_max →
  ∃ bs, encode_items encode_into l = Ok (be_bytes 4 (Z.of_nat (length l)) ++ bs)%list
    ∧ (length l <= length bs)%nat
    ∧ takes (values_of maximum read (Z.of_nat (length l))) bs
        (size_of_value * Z.of_nat (length l) + sum_costs allocation l) (map canonical_form l).
Proof using Hample Hmaximum.
  intros Hl Hn. destruct (takes_items _ _ Hl) as (bs & Hbs & Hlen & Ht).
  exists bs. unfold encode_items. rewrite encode_length_ok, Hbs by done. split_and!; [done..|].
  unfold values_of. apply (takes_charge maximum Hample Hmaximum ElementValue); [lia|].
  apply takes_reserve; [done|]. by rewrite Nat2Z.id.
Qed.

Definition canonical_field (f : string * Value) : string * Value := (f.1, canonical_form f.2).
Definition field_cost (f : string * Value) : Z := str_len f.1 + allocation f.2.
Definition field_ok (read : CRead Value) (f : string * Value) : Prop :=
  Z.of_nat (length (bytes f.1)) <= u32_max ∧ utf8_valid (bytes f.1) = true ∧ reads_back read f.2.

Lemma encode_name name :
  Z.of_nat (length (bytes name)) <= u32_max →
  encode_field_name name = Ok (be_bytes 4 (Z.of_nat (length (bytes name))) ++ bytes name)%list.
Proof using Type. intros Hn. unfold encode_field_name. by rewrite encode_length_ok. Qed.

Lemma takes_fields read fs previous :
  Forall (field_ok read) fs →
  StronglySorted (λ s t, str_ltb s t = true) (map fst fs) →
  (∀ p f, previous = Some p → f ∈ fs → str_ltb p f.1 = true) →
  ∃ bs, concat_bytes (flat_map (λ f : string * Value, [encode_field_name f.1; encode_into f.2]) fs) = Ok bs
    ∧ (length fs <= length bs)%nat
    ∧ takes (read_fields maximum read (length fs) previous) bs (sum_costs field_cost fs)
        (map canonical_field fs).
Proof using Hample Hmaximum.
  intros Hfs. revert previous.
  induction Hfs as [|f fs (Hn & Hu & bs & Hbs & Hl & Hv) _ IH]; intros previous Hs Hp.
  { exists []. split_and!; [done|done|apply takes_ret]. }
  apply sorted_trans_cons in Hs as [Hs Hf].
  destruct (IH (Some f.1) Hs) as (bs' & Hbs' & Hl' & Ht).
  { intros p g [= <-] Hg. rewrite Forall_forall in Hf. apply Hf. by apply list_elem_of_fmap_2. }
  eexists. cbn [flat_map app concat_bytes]. rewrite (encode_name f.1 Hn), Hbs, Hbs'. split; [done|].
  cbn [length]. rewrite !length_app. split; [lia|]. cbn [read_fields].
  eapply takes_eq; [done| |apply takes_text; [done|done|]].
  2:{ apply takes_guard.
      { destruct previous as [p|]; [|done]. apply (Hp p f eq_refl). by left. }
      eapply takes_bind; [exact Hv|].
      eapply (takes_map maximum _ (cons (canonical_field f))). exact Ht. }
  unfold field_cost. simpl. lia.
Qed.

Lemma takes_record {A} read fs (k : list (string * Value) → CRead A) c x :
  Forall (field_ok read) fs → Z.of_nat (length fs) <= u32_max →
  validate_record_fields fs = Ok tt → takes (k (map canonical_field fs)) [] c x →
  ∃ bs, encode_fields encode_into fs = Ok bs
    ∧ takes (fields ← record maximum read; k fields) bs
        (size_of_field * Z.of_nat (length fs) + sum_costs field_cost fs + c) x.
Proof using Hample Hmaximum.
  intros Hfs Hn Hv Hk. unfold validate_record_fields in Hv. destruct (unsorted _) eqn:Hu; [done|].
  apply unsorted_false in Hu as [Hs _].
  destruct (takes_fields read fs None Hfs Hs) as (bs & Hbs & Hl & Ht); [done|].
  exists (be_bytes 4 (Z.of_nat (length fs)) ++ bs)%list. unfold encode_fields.
  rewrite encode_length_ok, concat_pairs, Hbs by done. split; [done|].
  eapply takes_eq; [apply app_nil_r|done|]. eapply takes_bind; [|exact Hk].
  unfold record. apply takes_count; [lia|lia|].
  apply (takes_charge maximum Hample Hmaximum ElementField); [lia|]. apply takes_reserve; [done|].
  by rewrite Nat2Z.id.
Qed.

(** *** Maps *)

Definition canonical_entry (e : Value * Value) : Value * Value := (e.1, canonical_form e.2).
Definition entry_cost (e : Value * Value) : Z := allocation e.1 + allocation e.2.

Lemma key_of_type_kind_number t v w :
  key_of_type t v = true → key_of_type t w = true → map_key_kind v = map_key_kind w ∧ is_Some (map_key_kind v).
Proof using Type.
  revert v w. induction t; intros v w Hv Hw; destruct v; try done; destruct w; try done; simpl in *.
  apply andb_true_iff in Hv as [_ Hv], Hw as [_ Hw]. destruct (IHt _ _ Hv Hw) as [-> [? ->]]. done.
Qed.

Lemma takes_entries read t m previous :
  Forall (λ e : Value * Value, key_of_type t e.1 = true ∧ reads_back read e.1 ∧ reads_back read e.2) m →
  StronglySorted (λ a b, entry_before a b = true) m →
  match previous with
  | Some p => key_of_type t p = true ∧ Forall (λ e, is_lt (compare_map_keys p e.1) = true) m
  | None => True
  end →
  ∃ bs, concat_bytes (flat_map (entry_parts encode_into) m) = Ok bs
    ∧ (length m <= length bs)%nat
    ∧ takes (read_entries read (length m) (p ← previous; map_key_kind p) previous) bs
        (sum_costs entry_cost m) (map canonical_entry m).
Proof using Type.
  intros Hm. revert previous.
  induction Hm as [|[k v] m (Hk & (kb & Hkb & Hkl & Hkr) & vb & Hvb & Hvl & Hvr) _ IH]; intros previous Hs Hp.
  { exists []. split_and!; [done|done|apply takes_ret]. }
  cbn [fst snd] in *. apply sorted_trans_cons in Hs as [Hs Hf].
  destruct (IH (Some k) Hs) as (bs & Hbs & Hl & Ht); [by split|].
  eexists. cbn [flat_map entry_parts app concat_bytes fst snd]. rewrite Hkb, Hvb, Hbs. split; [done|].
  cbn [length]. rewrite !length_app. split; [lia|]. cbn [read_entries].
  destruct (key_of_type_kind_number t k k Hk Hk) as [_ [kind Hkind]].
  eapply takes_eq; [done| |eapply takes_bind; [exact Hkr|]].
  2:{ rewrite (canonical_form_key k) by (by eapply key_of_type_key). rewrite Hkind. apply takes_guard.
      { unfold key_follows. destruct previous as [p|]; simpl; [|done].
        destruct Hp as [Hpt Hp]. apply Forall_cons in Hp as [Hlt _]. cbn [fst] in Hlt.
        destruct (key_of_type_kind_number t p k Hpt Hk) as [-> _]. rewrite Hkind, Z.eqb_refl.
        rewrite (key_of_type_kind t) by done. by rewrite Hlt. }
      eapply takes_bind; [exact Hvr|].
      eapply (takes_map maximum _ (cons (canonical_entry (k, v)))). simpl in Ht. rewrite Hkind in Ht. exact Ht. }
  unfold entry_cost. simpl. lia.
Qed.

Lemma sum_costs_perm {A} (f : A → Z) l l' : l ≡ₚ l' → sum_costs f l = sum_costs f l'.
Proof using Type. unfold sum_costs. induction 1; simpl; lia. Qed.

Lemma entries_sorted t (m : list (Value * Value)) :
  Forall (λ k, key_of_type t k = true) (map fst m) → NoDup (map fst m) →
  StronglySorted (λ a b, entry_before a b = true) (insertion_sort entry_before m).
Proof using Type.
  intros Ht Hn.
  assert (Forall (λ e : Value * Value, key_of_type t e.1 = true) m) as Hm by (by apply Forall_map in Ht).
  assert (∀ a b, a ∈ m → b ∈ m → a = b ∨ entry_before a b = true ∨ entry_before b a = true) as Htotal.
  { intros a b Ha Hb. unfold entry_before. rewrite (compare_map_keys_antisym a.1 b.1).
    rewrite Forall_forall in Hm.
    destruct (compare_map_keys a.1 b.1) eqn:E; simpl; auto. left.
    apply (compare_map_keys_eq t) in E; [|by apply Hm..].
    apply list_elem_of_lookup in Ha as [i Hi], Hb as [j Hj].
    assert (i = j) as ->; [|congruence]. eapply NoDup_lookup; [exact Hn| |].
    - by rewrite list_lookup_fmap, Hi.
    - rewrite list_lookup_fmap, Hj. simpl. by rewrite E. }
  apply (insertion_sort_sorted _ (.∈ m)); [done| |by apply Forall_forall|by eapply NoDup_fmap_1].
  intros a b c Ha Hb Hc. unfold entry_before. rewrite Forall_forall in Hm. intros H1 H2.
  rewrite (compare_map_keys_trans t _ b.1); [done|by apply Hm..| |].
  - by destruct (compare_map_keys a.1 b.1).
  - by destruct (compare_map_keys b.1 c.1).
Qed.

Lemma takes_map_value read t m :
  Forall (λ k, key_of_type t k = true) (map fst m) → NoDup (map fst m) →
  Z.of_nat (length m) <= u32_max →
  Forall (λ e : Value * Value, reads_back read e.1 ∧ reads_back read e.2) m →
  ∃ bs, encode_into (VMap m) = Ok (8 :: bs)
    ∧ takes (read_map maximum read) bs (allocation (VMap m)) (canonical_form (VMap m)).
Proof using Hample Hmaximum.
  intros Ht Hn Hl Hm. pose proof (entries_sorted t m Ht Hn) as Hs.
  pose proof (insertion_sort_perm entry_before m) as Hp.
  destruct (takes_entries read t (insertion_sort entry_before m) None) as (bs & Hbs & Hlen & Hread); [|done|done|].
  { rewrite Hp. apply Forall_map in Ht. rewrite Forall_forall in *. intros e He. split; [by apply Ht|by apply Hm]. }
  exists (be_bytes 4 (Z.of_nat (length m)) ++ bs)%list. cbn [encode_into].
  rewrite (encode_entries_sorted encode_into m t Ht Hn), Hbs, encode_length_ok by done. split; [done|].
  rewrite (Permutation_length Hp) in *. unfold read_map. apply takes_count; [lia|lia|].
  eapply takes_eq; [done| |apply (takes_charge maximum Hample Hmaximum ElementEntry); [lia|]].
  2:{ apply takes_reserve; [done|]. rewrite Nat2Z.id.
      cbn [canonical_form].
      change (map (λ e : Value * Value, (e.1, canonical_form e.2)) m) with (map canonical_entry m).
      rewrite <- (insertion_sort_map canonical_entry entry_before entry_before m) by done.
      apply (takes_map maximum _ VMap). exact Hread. }
  rewrite (sum_costs_perm _ _ _ Hp). done.
Qed.

(** *** Values *)

Lemma takes_tag {A} tag (k : Z → CRead A) w c x :
  takes (k tag) w c x → takes (cbyte ≫= k) (tag :: w) c x.
Proof using Type.
  intros Hk. eapply takes_eq; [|apply Z.add_0_l|eapply takes_bind; [apply takes_byte|exact Hk]]. done.
Qed.

Lemma reads_back_tag levels tag body v :
  encode_into v = Ok (tag :: body) →
  takes (read_value maximum levels) (tag :: body) (allocation v) (canonical_form v) →
  reads_back (read_value maximum levels) v.
Proof using Type. intros He Ht. exists (tag :: body). split_and!; [done|simpl; lia|done]. Qed.

(** What an aggregate needs of its parts. *)
Definition read_back_at (v : Value) : Prop := ∀ levels depth n,
  encoded_length_at v depth = Ok n → value_width v = true → decodable levels v = true →
  reads_back (read_value maximum levels) v.

Lemma parts_read_back {A} (part : A → Value) l levels depth :
  Forall (λ a, read_back_at (part a)) l →
  Forall (λ a, ∃ n, encoded_length_at (part a) depth = Ok n) l →
  Forall (λ a, value_width (part a) = true) l →
  Forall (λ a, decodable levels (part a) = true) l →
  Forall (λ a, reads_back (read_value maximum levels) (part a)) l.
Proof using Type.
  rewrite !Forall_forall. intros Hr Hn Hw Hd a Ha. destruct (Hn a Ha) as [n Hna].
  eapply Hr; eauto.
Qed.

Lemma forallb_Forall {A} (f : A → bool) l : forallb f l = true ↔ Forall (λ x, f x = true) l.
Proof using Type. rewrite forallb_forall, Forall_forall. setoid_rewrite list_elem_of_In. done. Qed.

Lemma items_read_back l levels depth start n :
  Forall read_back_at l →
  (try? length_u32 l in try_fold_sum (λ v, encoded_length_at v depth) length_add start l) = Ok n →
  forallb value_width l = true → forallb (decodable levels) l = true →
  Z.of_nat (length l) <= u32_max ∧ Forall (reads_back (read_value maximum levels)) l.
Proof using Type.
  intros Hr Hn Hw Hd. destruct (length_u32 l) as [[]|] eqn:Hl; [|done]. apply length_u32_ok in Hl.
  apply sum_cases in Hn. apply forallb_Forall in Hw, Hd. split; [done|].
  by eapply (parts_read_back id).
Qed.

Lemma fields_read_back fs levels depth start n :
  Forall (λ f : string * Value, read_back_at f.2) fs →
  (try? length_u32 fs in try? validate_record_fields fs in
   try_fold_sum2 (λ f : string * Value, field_name_length f.1)
     (λ f : string * Value, encoded_length_at f.2 depth) length_add start fs) = Ok n →
  forallb (λ f : string * Value, utf8_valid (bytes f.1) && value_width f.2) fs = true →
  forallb (λ f : string * Value, decodable levels f.2) fs = true →
  Z.of_nat (length fs) <= u32_max ∧ validate_record_fields fs = Ok tt
  ∧ Forall (field_ok (read_value maximum levels)) fs.
Proof using Type.
  intros Hr Hn Hw Hd. destruct (length_u32 fs) as [[]|] eqn:Hl; [|done]. apply length_u32_ok in Hl.
  destruct (validate_record_fields fs) as [[]|]; [|done]. apply sum2_cases in Hn.
  apply forallb_Forall in Hw, Hd. split_and!; [done..|]. rewrite Forall_forall in *.
  intros f Hf. specialize (Hw f Hf). apply andb_true_iff in Hw as [Hu Hw].
  destruct (Hn f Hf) as [[k Hk] [k' Hk']]. apply field_name_cases in Hk as [Hk _].
  split_and!; [done..|]. eapply Hr; eauto.
Qed.

Lemma takes_int z : i64_min <= z <= i64_max → takes read_int (be_bytes 8 (z mod 2 ^ 64)) 0 (VInt z).
Proof using Type.
  intros Hz. unfold i64_min, i64_max in Hz. unfold read_int.
  assert (0 <= z mod 2 ^ 64 < 256 ^ Z.of_nat 8) as Hb by (apply Z.mod_pos_bound; done).
  assert (z = if i64_max <? be_value (be_bytes 8 (z mod 2 ^ 64))
              then be_value (be_bytes 8 (z mod 2 ^ 64)) - 2 ^ 64
              else be_value (be_bytes 8 (z mod 2 ^ 64))) as Hv.
  { rewrite be_value_bytes by done. unfold i64_max. destruct (decide (0 <= z)).
    - rewrite Z.mod_small by lia. destruct (Z.ltb_spec 9223372036854775807 z); lia.
    - rewrite <- (Z.mod_add z 1 (2 ^ 64)), Z.mod_small by lia.
      destruct (Z.ltb_spec 9223372036854775807 (z + 1 * 2 ^ 64)); lia. }
  pose proof (takes_take maximum (be_bytes 8 (z mod 2 ^ 64))) as Ht. rewrite length_be_bytes in Ht.
  eapply takes_eq; [done..|]. rewrite Hv at 2. apply (takes_map maximum _ (λ bs, VInt _)). exact Ht.
Qed.

Lemma takes_float bits :
  in_unsigned u64_max bits = true → is_nan_bits bits && negb (bits =? CANONICAL_NAN_BITS) = false →
  takes read_float (be_bytes 8 bits) 0 (VFloat bits).
Proof using Type.
  intros Hb Hnan. apply in_unsigned_spec in Hb. unfold u64_max in Hb. unfold read_float.
  pose proof (takes_take maximum (be_bytes 8 bits)) as Ht. rewrite length_be_bytes in Ht.
  eapply takes_eq; [apply app_nil_r|apply Z.add_0_l|]. eapply takes_bind; [exact Ht|]. cbv zeta.
  rewrite be_value_bytes by (simpl; lia). rewrite Hnan. apply takes_guard; [done|].
  rewrite float_bits_canonical by done. apply takes_ret.
Qed.

Lemma sized_cases tag bs n :
  sized_payload_length bs = Ok n →
  Z.of_nat (length bs) <= u32_max
  ∧ encode_sized_value tag bs = Ok (tag :: be_bytes 4 (Z.of_nat (length bs)) ++ bs)%list.
Proof using Type.
  unfold sized_payload_length, encode_sized_value. destruct (length_u32 bs) as [[]|] eqn:Hl; [|done].
  intros _. apply length_u32_ok in Hl. by rewrite encode_length_ok.
Qed.

Lemma leaf_read_back v : leaf_value v = true → read_back_at v.
Proof using Hample Hmaximum.
  intros Hv [|levels] depth n Hn Hw Hd; [done|].
  destruct v; try done; cbn [encoded_length_at] in Hn; destruct (_ <? depth)%nat; try done;
    cbn [value_width] in Hw.
  - eapply reads_back_tag; [done|]. apply takes_tag. apply takes_int. lia.
  - destruct value; eapply reads_back_tag; try done; apply takes_tag, takes_ret.
  - destruct (is_nan_bits _ && _) eqn:Hnan; [done|]. eapply reads_back_tag; [done|]. apply takes_tag.
    by apply takes_float.
  - destruct (sized_cases 5 _ _ Hn) as [Hl He]. eapply reads_back_tag; [exact He|]. apply takes_tag.
    eapply takes_eq; [apply app_nil_r|apply Z.add_0_r|]. apply takes_text; [done..|apply takes_ret].
  - destruct (sized_cases 6 _ _ Hn) as [Hl He]. eapply reads_back_tag; [exact He|]. apply takes_tag.
    unfold read_bytes. apply takes_count; [lia|lia|].
    eapply takes_eq; [apply app_nil_r| |eapply takes_bind; [apply takes_take|]].
    2:{ apply (takes_charge maximum Hample Hmaximum ElementByte); [lia|]. apply takes_ret. }
    cbn [element_size allocation]. lia.
  - eapply reads_back_tag; [done|]. apply takes_tag, takes_ret.
Qed.

Lemma takes_sequence read l (tuple : bool) :
  Forall (reads_back read) l → Z.of_nat (length l) <= u32_max → (tuple = true → l ≠ []) →
  ∃ bs, encode_items encode_into l = Ok bs
    ∧ takes (sequence maximum read tuple) bs
        (size_of_value * Z.of_nat (length l) + sum_costs allocation l)
        (if tuple then VTuple (map canonical_form l) else VList (map canonical_form l)).
Proof using Hample Hmaximum.
  intros Hr Hlen Ht. destruct (takes_values read l Hr Hlen) as (bs & Hbs & Hl & Hv).
  eexists. split; [exact Hbs|]. unfold sequence. apply takes_count; [lia|lia|]. apply takes_guard.
  { destruct tuple; [|done]. destruct l; [by destruct Ht|done]. }
  eapply takes_eq; [apply app_nil_r|apply Z.add_0_r|]. eapply takes_bind; [exact Hv|apply takes_ret].
Qed.

Lemma list_read_back l : Forall read_back_at l → read_back_at (VList l).
Proof using Hample Hmaximum.
  intros Hl [|levels] depth n Hn Hw Hd; [done|]. cbn [encoded_length_at] in Hn.
  destruct (_ <? depth)%nat; [done|]. cbn [value_width decodable] in Hw, Hd.
  destruct (items_read_back l levels (S depth) 5 n Hl Hn Hw Hd) as [Hlen Hr].
  destruct (takes_sequence _ l false Hr Hlen) as (bs & Hbs & Ht); [done|].
  eapply (reads_back_tag _ 7 bs); [by rewrite encode_list, Hbs|]. by apply takes_tag.
Qed.

Lemma tuple_read_back l : Forall read_back_at l → read_back_at (VTuple l).
Proof using Hample Hmaximum.
  intros Hl [|levels] depth n Hn Hw Hd; [done|]. cbn [encoded_length_at] in Hn.
  destruct (_ <? depth)%nat; [done|]. destruct (decide (l = [])) as [->|Hne]; [done|].
  cbn [value_width decodable] in Hw, Hd.
  destruct (items_read_back l levels (S depth) 5 n Hl) as [Hlen Hr]; [by destruct l|done..|].
  destruct (takes_sequence _ l true Hr Hlen) as (bs & Hbs & Ht); [done|].
  eapply (reads_back_tag _ 9 bs); [by rewrite encode_tuple, Hbs|]. by apply takes_tag.
Qed.

Lemma record_read_back fs :
  Forall (λ f : string * Value, read_back_at f.2) fs → read_back_at (VRecord fs).
Proof using Hample Hmaximum.
  intros Hfs [|levels] depth n Hn Hw Hd; [done|]. cbn [encoded_length_at] in Hn.
  destruct (_ <? depth)%nat; [done|]. cbn [value_width decodable] in Hw, Hd.
  destruct (fields_read_back fs levels (S depth) 5 n Hfs Hn Hw Hd) as (Hlen & Hv & Hr).
  destruct (takes_record _ fs (λ fs, mret (VRecord fs)) 0 (canonical_form (VRecord fs)) Hr Hlen Hv)
    as (bs & Hbs & Ht); [apply takes_ret|].
  eapply (reads_back_tag _ 10 bs); [by rewrite encode_record, Hbs|]. apply takes_tag.
  eapply takes_eq; [done| |exact Ht]. apply Z.add_0_r.
Qed.

Lemma map_read_back m :
  Forall (λ e : Value * Value, read_back_at e.1 ∧ read_back_at e.2) m → read_back_at (VMap m).
Proof using Hample Hmaximum.
  intros Hm [|levels] depth n Hn Hw Hd; [done|]. cbn [encoded_length_at] in Hn.
  destruct (_ <? depth)%nat; [done|]. cbn [value_width decodable] in Hw, Hd.
  destruct (length_u32 m) as [[]|] eqn:Hl; [|done]. apply length_u32_ok in Hl.
  destruct (validate_map _) as [[]|] eqn:Hv; [|done]. apply validate_map_ok in Hv as (t & Ht & Hnd).
  apply sum2_cases in Hn. apply forallb_Forall in Hw, Hd.
  destruct (takes_map_value (read_value maximum levels) t m Ht Hnd Hl) as (bs & Hbs & Hread).
  { rewrite Forall_forall in *. intros e He. destruct (Hm e He) as [H1 H2], (Hn e He) as [[k Hk] [k' Hk']].
    specialize (Hw e He). specialize (Hd e He). apply andb_true_iff in Hw as [Hw1 Hw2], Hd as [Hd1 Hd2].
    split; [by eapply H1|by eapply H2]. }
  eapply (reads_back_tag _ 8 bs); [exact Hbs|]. by apply takes_tag.
Qed.

Lemma newtype_read_back i v : read_back_at v → read_back_at (VNewtype i v).
Proof using Hample Hmaximum.
  intros Hv [|levels] depth n Hn Hw Hd; [done|]. cbn [encoded_length_at] in Hn.
  destruct (_ <? depth)%nat; [done|]. cbn [value_width decodable] in Hw, Hd.
  destruct (valid_newtype_identity i) eqn:Hi; [|done]. cbn [negb] in Hn.
  destruct (encoded_length_at v (S depth)) as [k|] eqn:Hk; [|done].
  destruct (field_name_length i) as [j|] eqn:Hj; [|done]. apply field_name_cases in Hj as [Hl He].
  apply andb_true_iff in Hw as [Hu Hw].
  destruct (Hv levels (S depth) k Hk Hw Hd) as (bs & Hbs & _ & Ht).
  eapply reads_back_tag; [cbn [encode_into]; by rewrite He, Hbs|]. apply takes_tag.
  apply takes_text; [done..|]. apply takes_guard; [done|].
  apply (takes_map maximum _ (VNewtype i)). exact Ht.
Qed.

Lemma unknown_read_back v : read_back_at v → read_back_at (VUnknown v).
Proof using Type.
  intros Hv [|levels] depth n Hn Hw Hd; [done|]. cbn [encoded_length_at] in Hn.
  destruct (_ <? depth)%nat; [done|]. cbn [value_width decodable] in Hw, Hd.
  destruct (encoded_length_at v (S depth)) as [k|] eqn:Hk; [|done].
  destruct (Hv levels (S depth) k Hk Hw Hd) as (bs & Hbs & _ & Ht).
  eapply reads_back_tag; [cbn [encode_into]; by rewrite Hbs|]. apply takes_tag.
  apply (takes_map maximum _ VUnknown). exact Ht.
Qed.

(** *** Enums *)

Lemma takes_identity {A} i (k : EnumIdentity → CRead A) w c x :
  match i with User id => Z.of_nat id <=? u32_max | _ => true end = true →
  takes (k i) w c x → takes (read_identity ≫= k) (encode_identity i ++ w) c x.
Proof using Type.
  intros Hi Hk. eapply takes_eq; [done|apply Z.add_0_l|]. eapply takes_bind; [|exact Hk].
  unfold read_identity. destruct i as [id| |]; apply takes_tag; [|apply takes_ret..].
  rewrite <- (Nat2Z.id id) at 2. apply (takes_map maximum _ (λ id, User (Z.to_nat id))).
  apply takes_u32. lia.
Qed.

Definition canonical_payload (p : EnumPayload Value) : EnumPayload Value :=
  match p with
  | PUnit => PUnit
  | PTuple l => PTuple (map canonical_form l)
  | PRecord fs => PRecord (map canonical_field fs)
  end.

(** The payload, after its tag. *)
Definition payload_reads (value field : CRead Value) (p : EnumPayload Value) (cost : Z) : Prop :=
  ∃ tag bs, encode_payload p = Ok (tag :: bs)
    ∧ takes (match tag with
             | 0 => count ← ccount; _ ← cguard (count =? 0) DecodeInvalidValue; mret PUnit
             | 1 => count ← ccount; values ← values_of maximum value count; mret (PTuple values)
             | 2 => fields ← record maximum field; mret (PRecord fields)
             | _ => cfail DecodeInvalidValue
             end) bs cost (canonical_payload p).

Lemma payload_read_back p levels depth start n :
  payload_forall read_back_at p →
  match p with
  | PUnit => Ok start
  | PTuple l => try? length_u32 l in try_fold_sum (λ v, encoded_length_at v depth) length_add start l
  | PRecord fs =>
    try? length_u32 fs in try? validate_record_fields fs in
    try_fold_sum2 (λ f : string * Value, field_name_length f.1)
      (λ f : string * Value, encoded_length_at f.2 depth) length_add start fs
  end = Ok n →
  match p with
  | PUnit => true
  | PTuple l => forallb value_width l
  | PRecord fs => forallb (λ f : string * Value, utf8_valid (bytes f.1) && value_width f.2) fs
  end = true →
  match p with
  | PUnit => true
  | PTuple l => forallb (decodable levels) l
  | PRecord fs => forallb (λ f : string * Value, decodable (Nat.pred levels) f.2) fs
  end = true →
  payload_reads (read_value maximum levels) (read_value maximum (Nat.pred levels)) p
    (allocation (VEnum OptionId "" 0 "" p)).
Proof using Hample Hmaximum.
  intros Hp Hn Hw Hd. destruct p as [|l|fs].
  - exists 0, (be_bytes 4 0). split; [done|].
    eapply takes_eq; [apply app_nil_r|done|]. apply takes_count; [unfold u32_max; lia|done|].
    apply takes_guard; [done|apply takes_ret].
  - destruct (items_read_back l levels depth start n Hp Hn Hw Hd) as [Hlen Hr].
    destruct (takes_values _ l Hr Hlen) as (bs & Hbs & Hl & Ht).
    eexists 1, _. cbn [encode_payload]. rewrite Hbs. split; [done|]. apply takes_count; [lia|lia|].
    by apply (takes_map maximum _ PTuple).
  - destruct (fields_read_back fs (Nat.pred levels) depth start n Hp Hn Hw Hd) as (Hlen & Hv & Hr).
    destruct (takes_record _ fs (λ fs, mret (PRecord fs)) 0 (canonical_payload (PRecord fs)) Hr Hlen Hv)
      as (bs & Hbs & Ht); [apply takes_ret|].
    exists 2, bs. cbn [encode_payload]. rewrite Hbs. split; [done|].
    eapply takes_eq; [done| |exact Ht]. apply Z.add_0_r.
Qed.

Lemma enum_read_back i tn variant vn p :
  payload_forall read_back_at p → read_back_at (VEnum i tn variant vn p).
Proof using Hample Hmaximum.
  intros Hp [|levels] depth n Hn Hw Hd; [done|]. cbn [encoded_length_at] in Hn.
  destruct (_ <? depth)%nat; [done|]. cbn [value_width decodable] in Hw, Hd.
  destruct (length_add _ 10) as [start|]; [|done].
  apply andb_true_iff in Hw as [[Hi Hvar]%andb_true_iff Hw].
  destruct (payload_read_back p levels (S depth) start n Hp Hn Hw Hd) as (tag & bs & Hbs & Ht).
  eapply (reads_back_tag _ 11); [by rewrite encode_enum, Hbs|]. apply takes_tag. unfold enum_value.
  apply takes_identity; [done|].
  eapply takes_eq; [done|apply Z.add_0_l|]. eapply takes_bind; [apply takes_u32; lia|].
  apply takes_tag. rewrite Nat2Z.id.
  apply (takes_map maximum _ (VEnum i "<canonical>" variant "<canonical>")). exact Ht.
Qed.

(** Every value whose length the encoder accepts, of the types of the source and not
    nested deeper than the decoder reads, is read back. *)
Lemma read_back v : read_back_at v.
Proof using Hample Hmaximum.
  induction v as [v Hv|l IH|m IH|l IH|fs IH|i tn v vn p IH|i v IH|v IH|f l IH|f IH] using Value_ind'.
  - by apply leaf_read_back.
  - by apply list_read_back.
  - by apply map_read_back.
  - by apply tuple_read_back.
  - by apply record_read_back.
  - by apply enum_read_back.
  - by apply newtype_read_back.
  - by apply unknown_read_back.
  - intros [|levels] depth n Hn Hw Hd; [done|]. cbn [encoded_length_at] in Hn. by destruct (_ <? depth)%nat.
  - intros [|levels] depth n Hn Hw Hd; [done|]. cbn [encoded_length_at] in Hn. by destruct (_ <? depth)%nat.
Qed.
End Roundtrip.

(** ** The encoder and its length *)

(** C11. The encoder writes exactly the bytes it reserved: if the first pass gives a
    length within the limit and the allocator grants it, encoding succeeds with that
    many bytes; the second pass meets no error of its own. *)
Theorem encoder_fills_reservation `{Memory} (v : Value) (maximum n : Z)
  (Hlength : encoded_length v = Ok n) (Hlimit : n <= maximum)
  (Hreserve : try_reserve_exact ElementByte n = true) :
  ∃ bs, encode_canonical_with_limit v maximum = Ok bs ∧ Z.of_nat (length bs) = n.
Proof.
  unfold encode_canonical_with_limit. rewrite Hlength.
  destruct (Z.ltb_spec maximum n); [lia|]. rewrite Hreserve.
  exact (encode_measured v 0 n Hlength).
Qed.

