(* ===== verification/VmCanonicalStrict.v ===== *)
(** * Only canonical bytes decode

    The decoder is strict: bytes it accepts are exactly the encoding of the value it
    gives, so a value has one encoding. *)

From S2P Require Import Prelude Text Bytecode VmValue ArtifactBytes VerifierEnums VmCanonical.
From S2P Require Import VmCanonicalCorrect VmCanonicalRoundtrip.
Open Scope string_scope.
Open Scope Z_scope.

Definition all_bytes (bs : list Z) : Prop := Forall (λ b, is_byte b = true) bs.

Lemma le_bytes_value bs : all_bytes bs → le_bytes (length bs) (le_value bs) = bs.
Proof.
  induction 1 as [|b bs Hb _ IH]; [done|]. cbn [length le_bytes le_value].
  apply in_unsigned_spec in Hb. unfold u8_max in Hb.
  assert ((b + 256 * le_value bs) mod 256 = b ∧ (b + 256 * le_value bs) / 256 = le_value bs) as [-> ->].
  { rewrite Z.mul_comm, Z.mod_add, Z.div_add, Z.mod_small, Z.div_small by lia. lia. }
  by rewrite IH.
Qed.

Lemma le_value_range bs : all_bytes bs → 0 <= le_value bs < 256 ^ Z.of_nat (length bs).
Proof.
  induction 1 as [|b bs Hb _ IH]; [simpl; lia|]. cbn [length le_value].
  apply in_unsigned_spec in Hb. unfold u8_max in Hb.
  rewrite Nat2Z.inj_succ, Z.pow_succ_r by lia. lia.
Qed.

Lemma be_bytes_value bs : all_bytes bs → be_bytes (length bs) (be_value bs) = bs.
Proof.
  intros Hb. unfold be_bytes, be_value. rewrite <- (length_rev bs), le_bytes_value, rev_involutive; [done|].
  apply Forall_rev. exact Hb.
Qed.

Lemma be_value_range bs : all_bytes bs → 0 <= be_value bs < 256 ^ Z.of_nat (length bs).
Proof.
  intros Hb. unfold be_value. rewrite <- (length_rev bs). apply le_value_range. apply Forall_rev. exact Hb.
Qed.

(** ** What a reader that succeeds has consumed *)

Definition gives {A} (p : CRead A) (P : A → list Z → Prop) : Prop := ∀ r x r',
  all_bytes (cr_bytes r) → p r = Ok (x, r') → ∃ w, cr_bytes r = (w ++ cr_bytes r')%list ∧ P x w.

Lemma gives_ret {A} (x : A) (P : A → list Z → Prop) : P x [] → gives (mret x) P.
Proof. intros HP r y r' _ [= <- <-]. by exists []. Qed.

Lemma gives_bind {A B} (p : CRead A) (k : A → CRead B) P Q :
  gives p P → (∀ x w, P x w → all_bytes w → gives (k x) (λ y w', Q y (w ++ w')%list)) → gives (p ≫= k) Q.
Proof.
  intros Hp Hk r y r'' Hb. unfold mbind, cread_bind. destruct (p r) as [[x r']|] eqn:Hx; [|done].
  intros Hy. destruct (Hp _ _ _ Hb Hx) as (w & Hw & HP). rewrite Hw in *. apply Forall_app in Hb as [Hbw Hbr].
  destruct (Hk x w HP Hbw _ _ _ Hbr Hy) as (w' & -> & HQ). exists (w ++ w')%list. by rewrite <- app_assoc.
Qed.

Lemma gives_impl {A} (p : CRead A) (P Q : A → list Z → Prop) :
  gives p P → (∀ x w, P x w → Q x w) → gives p Q.
Proof. intros Hp Hi r x r' Hb Hx. destruct (Hp _ _ _ Hb Hx) as (w & ? & ?). eauto. Qed.

Lemma gives_fail {A} e (P : A → list Z → Prop) : gives (cfail e) P.
Proof. by intros r x r' _. Qed.

(** Steps that consume nothing. *)
Lemma gives_guard {A} b e (k : unit → CRead A) P :
  (b = true → gives (k tt) P) → gives (cguard b e ≫= k) P.
Proof.
  intros Hk. apply (gives_bind _ _ (λ _ w, b = true ∧ w = [])).
  - intros r [] r' _. unfold cguard. destruct b; [|done]. intros [= <-]. by exists [].
  - intros [] w [Hb ->] _. by apply Hk.
Qed.

Section Strict.
Context `{Memory} (maximum : Z).

Lemma gives_charge {A} e n (k : unit → CRead A) P :
  gives (k tt) P → gives (ccharge maximum e n ≫= k) P.
Proof.
  intros Hk. apply (gives_bind _ _ (λ _ w, w = [])).
  - intros r [] r' _. unfold ccharge. destruct (_ || _); [done|]. intros [= <-]. by exists [].
  - by intros [] w -> _.
Qed.

Lemma gives_reserve {A} e n (k : unit → CRead A) P :
  gives (k tt) P → gives (creserve e n ≫= k) P.
Proof. intros Hk. by apply gives_guard. Qed.

Lemma gives_take n :
  0 <= n → gives (ctake n) (λ bs w, bs = w ∧ Z.of_nat (length w) = n ∧ all_bytes w).
Proof.
  intros Hn r x r' Hb. unfold ctake. destruct (Z.ltb_spec (Z.of_nat (length (cr_bytes r))) n); [done|].
  intros [= <- <-]. exists (take (Z.to_nat n) (cr_bytes r)). cbn [cr_bytes]. rewrite take_drop.
  split_and!; [done..| |by apply Forall_take]. rewrite length_take. lia.
Qed.

Lemma gives_byte : gives cbyte (λ b w, w = [b]).
Proof.
  eapply gives_bind; [apply gives_take; lia|]. cbn beta. intros bs w (-> & Hl & Hb) _. apply gives_ret.
  destruct w as [|b [|]]; cbn [length] in Hl; try lia. unfold be_value. simpl. f_equal. lia.
Qed.

Lemma gives_u32 : gives cu32 (λ n w, w = be_bytes 4 n ∧ 0 <= n <= u32_max).
Proof.
  eapply gives_bind; [apply gives_take; lia|]. cbn beta. intros bs w (-> & Hl & Hb) _. apply gives_ret.
  rewrite app_nil_r. pose proof (be_bytes_value w Hb) as Hv. pose proof (be_value_range w Hb) as Hr.
  assert (length w = 4%nat) as Hl' by lia. rewrite Hl' in *. split; [done|]. unfold u32_max. simpl in Hr. lia.
Qed.

Lemma gives_count : gives ccount (λ n w, w = be_bytes 4 n ∧ 0 <= n <= u32_max).
Proof.
  intros r x r' Hb. unfold ccount. destruct (cu32 r) as [[n r1]|] eqn:Hu; [|done].
  destruct (_ <? n); [done|]. intros [= <- <-]. eapply gives_u32; eauto.
Qed.

Lemma gives_text :
  gives (ctext maximum) (λ s w,
    w = (be_bytes 4 (Z.of_nat (length (bytes s))) ++ bytes s)%list
    ∧ Z.of_nat (length (bytes s)) <= u32_max).
Proof.
  eapply gives_bind; [exact gives_count|]. cbn beta. intros n w (-> & Hn) _.
  eapply gives_bind; [apply gives_take; lia|]. cbn beta. intros bs w (-> & Hl & Hb) _.
  apply gives_guard. intros Hu. apply gives_charge, gives_ret.
  rewrite bytes_string_of_bytes, app_nil_r by done. rewrite Hl. split; [done|lia].
Qed.

(** *** What encodes to the bytes consumed *)

Definition encodes (depth : nat) (v : Value) (w : list Z) : Prop :=
  encode_into v = Ok w
  ∧ (Z.of_nat (length w) <= usize_max → encoded_length_at v depth = Ok (Z.of_nat (length w))).
Definition encodes_field (depth : nat) (f : string * Value) (w : list Z) : Prop :=
  ∃ w', w = ((be_bytes 4 (Z.of_nat (length (bytes f.1))) ++ bytes f.1) ++ w')%list
    ∧ Z.of_nat (length (bytes f.1)) <= u32_max ∧ encodes depth f.2 w'.
Definition encodes_entry (depth : nat) (e : Value * Value) (w : list Z) : Prop :=
  ∃ w1 w2, w = (w1 ++ w2)%list ∧ encodes depth e.1 w1 ∧ encodes depth e.2 w2.

Lemma length_add_fits a b : a + b <= usize_max → length_add a b = Ok (a + b).
Proof using Type. intros Hle. unfold length_add. destruct (Z.ltb_spec usize_max (a + b)); [lia|done]. Qed.

Lemma items_encode depth l ws start :
  Forall2 (encodes depth) l ws →
  concat_bytes (map encode_into l) = Ok (concat ws)
  ∧ (0 <= start → start + Z.of_nat (length (concat ws)) <= usize_max →
     try_fold_sum (λ v, encoded_length_at v depth) length_add start l
     = Ok (start + Z.of_nat (length (concat ws)))).
Proof using Type.
  intros Hl. revert start. induction Hl as [|v w l ws [He Hn] _ IH]; intros start.
  { split; [done|]. intros. simpl. by rewrite Z.add_0_r. }
  simpl. rewrite He. destruct (IH 0) as [-> _]. split; [done|]. rewrite length_app. intros Hs Hle.
  rewrite Hn, length_add_fits by lia. destruct (IH (start + Z.of_nat (length w))) as [_ ->]; [|lia..].
  f_equal. lia.
Qed.

Lemma pairs_encode {A} (len1 len2 : A → result CanonicalEncodeError Z)
    (enc1 enc2 : A → Bytes_) (R : A → list Z → Prop) l ws start :
  (∀ x w, R x w → ∃ w1 w2, w = (w1 ++ w2)%list ∧ enc1 x = Ok w1 ∧ enc2 x = Ok w2
     ∧ (Z.of_nat (length w) <= usize_max →
        len1 x = Ok (Z.of_nat (length w1)) ∧ len2 x = Ok (Z.of_nat (length w2)))) →
  Forall2 R l ws →
  concat_bytes (flat_map (λ x, [enc1 x; enc2 x]) l) = Ok (concat ws)
  ∧ (0 <= start → start + Z.of_nat (length (concat ws)) <= usize_max →
     try_fold_sum2 len1 len2 length_add start l = Ok (start + Z.of_nat (length (concat ws)))).
Proof using Type.
  intros HR Hl. revert start. induction Hl as [|x w l ws Hx _ IH]; intros start.
  { split; [done|]. intros. simpl. by rewrite Z.add_0_r. }
  destruct (HR x w Hx) as (w1 & w2 & -> & He1 & He2 & Hn). simpl. rewrite He1, He2.
  destruct (IH 0) as [-> _]. split; [by rewrite app_assoc|]. rewrite !length_app in *. intros Hs Hle.
  destruct Hn as [-> ->]; [lia|]. rewrite length_add_fits by lia. rewrite length_add_fits by lia.
  destruct (IH (start + Z.of_nat (length w1) + Z.of_nat (length w2))) as [_ ->]; [|lia..].
  f_equal. lia.
Qed.

Lemma gives_n {A} (read : CRead A) P n :
  gives read P → gives (cread_n n read) (λ l w, length l = n ∧ ∃ ws, w = concat ws ∧ Forall2 P l ws).
Proof using Type.
  intros Hr. induction n as [|n IH]; cbn [cread_n].
  { apply gives_ret. split; [done|]. by exists []. }
  eapply gives_bind; [exact Hr|]. cbn beta. intros x w Hx _. eapply gives_bind; [exact IH|]. cbn beta.
  intros l w' (Hl & ws & -> & Hws) _. apply gives_ret. simpl. split; [by rewrite Hl|].
  exists (w :: ws). rewrite app_nil_r. by split; [|constructor].
Qed.

Lemma gives_fields depth read n previous :
  gives read (encodes depth) →
  gives (read_fields maximum read n previous) (λ fs w,
    length fs = n ∧ (∃ ws, w = concat ws ∧ Forall2 (encodes_field depth) fs ws)
    ∧ StronglySorted (λ s t, str_ltb s t = true) (map fst fs)
    ∧ Forall (λ f : string * Value, match previous with Some p => str_ltb p f.1 | None => true end = true) fs).
Proof using Type.
  intros Hr. revert previous. induction n as [|n IH]; intros previous; cbn [read_fields].
  { apply gives_ret. split_and!; [done|by exists []|constructor|constructor]. }
  eapply gives_bind; [apply gives_text|]. cbn beta. intros name w [-> Hname] _. apply gives_guard. intros Hp.
  eapply gives_bind; [exact Hr|]. cbn beta. intros v w' Hv _. eapply gives_bind; [exact (IH (Some name))|].
  cbn beta. intros fs w'' (Hl & (ws & -> & Hws) & Hs & Hall) _. apply gives_ret. cbn [length map fst].
  split_and!.
  - by rewrite Hl.
  - eexists (_ :: ws). split; [|constructor; [|exact Hws]].
    + cbn [concat]. rewrite app_nil_r, app_assoc. reflexivity.
    + by eexists.
  - constructor; [done|]. by apply Forall_map.
  - constructor; [done|]. destruct previous as [p|]; [|by eapply Forall_impl].
    eapply Forall_impl; [exact Hall|]. intros f Hf. cbn beta in *. by eapply str_ltb_trans.
Qed.

Lemma sorted_names (fs : list (string * Value)) :
  StronglySorted (λ s t, str_ltb s t = true) (map fst fs) → validate_record_fields fs = Ok tt.
Proof using Type.
  intros Hs. unfold validate_record_fields. assert (unsorted (map fst fs) = false) as ->; [|done].
  unfold unsorted. induction Hs as [|x l _ IH Hx]; [done|]. destruct l as [|y l]; [done|].
  apply Forall_cons in Hx as [Hxy _]. cbn [windows2_any] in *. rewrite IH. unfold str_geb. by rewrite Hxy.
Qed.

(** A record's fields with their count. *)
Definition fields_length (depth : nat) (start : Z) (fs : list (string * Value)) : result CanonicalEncodeError Z :=
  try? length_u32 fs in try? validate_record_fields fs in
  try_fold_sum2 (λ f : string * Value, field_name_length f.1)
    (λ f : string * Value, encoded_length_at f.2 depth) length_add start fs.
Definition items_length (depth : nat) (start : Z) (l : list Value) : result CanonicalEncodeError Z :=
  try? length_u32 l in try_fold_sum (λ v, encoded_length_at v depth) length_add start l.

(** The bytes of a counted aggregate, and its length function from [start], which counts
    the four bytes of the count. *)
Definition counted {A} (len : Z → A → result CanonicalEncodeError Z) (enc : A → Bytes_) (x : A) (w : list Z)
    : Prop :=
  enc x = Ok w ∧ (4 <= Z.of_nat (length w)) ∧
  ∀ start, 4 <= start → start - 4 + Z.of_nat (length w) <= usize_max →
    len start x = Ok (start - 4 + Z.of_nat (length w)).

Lemma fields_counted depth fs ws n :
  Forall2 (encodes_field depth) fs ws → n = Z.of_nat (length fs) → n <= u32_max →
  StronglySorted (λ s t, str_ltb s t = true) (map fst fs) →
  counted (fields_length depth) (encode_fields encode_into) fs (be_bytes 4 n ++ concat ws)%list.
Proof using Type.
  intros Hfs -> Hn Hs.
  assert (∀ start, concat_bytes (flat_map (λ f : string * Value, [encode_field_name f.1; encode_into f.2]) fs)
    = Ok (concat ws) ∧ (0 <= start → start + Z.of_nat (length (concat ws)) <= usize_max →
     try_fold_sum2 (λ f : string * Value, field_name_length f.1)
       (λ f : string * Value, encoded_length_at f.2 depth) length_add start fs
     = Ok (start + Z.of_nat (length (concat ws))))) as Hp.
  { intros start. eapply pairs_encode; [|exact Hfs]. intros f w (w' & -> & Hname & He & Hlen).
    eexists _, w'. split_and!; [done|by apply encode_name|done|]. rewrite !length_app, length_be_bytes.
    intros Hle. split; [|apply Hlen; lia]. unfold field_name_length.
    rewrite (proj2 (length_u32_ok _)) by done. rewrite length_bytes in *. unfold str_len.
    rewrite length_add_fits by lia. f_equal. lia. }
  unfold counted, encode_fields, fields_length. rewrite encode_length_ok, concat_pairs by done.
  destruct (Hp 0) as [-> _]. rewrite length_app, length_be_bytes. split_and!; [done|lia|].
  intros start Hst Hle. rewrite (proj2 (length_u32_ok _)), sorted_names by done.
  destruct (Hp start) as [_ ->]; [f_equal; lia|lia|lia].
Qed.

Lemma items_counted depth l ws n :
  Forall2 (encodes depth) l ws → n = Z.of_nat (length l) → n <= u32_max →
  counted (items_length depth) (encode_items encode_into) l (be_bytes 4 n ++ concat ws)%list.
Proof using Type.
  intros Hl -> Hn. unfold counted, encode_items, items_length. rewrite encode_length_ok by done.
  destruct (items_encode depth l ws 0 Hl) as [-> _]. rewrite length_app, length_be_bytes.
  split_and!; [done|lia|]. intros start Hst Hle. rewrite (proj2 (length_u32_ok _)) by done.
  destruct (items_encode depth l ws start Hl) as [_ ->]; [f_equal; lia|lia|lia].
Qed.

Lemma gives_record depth read :
  gives read (encodes depth) →
  gives (record maximum read) (counted (fields_length depth) (encode_fields encode_into)).
Proof using Type.
  intros Hr. eapply gives_bind; [exact gives_count|]. cbn beta. intros n w [-> Hn] _.
  apply gives_charge, gives_reserve. eapply gives_impl; [by apply gives_fields|]. cbn beta.
  intros fs w (Hl & (ws & -> & Hws) & Hs & _). eapply fields_counted; [exact Hws|lia|lia|done].
Qed.

Lemma gives_values depth read n :
  gives read (encodes depth) → 0 <= n →
  gives (values_of maximum read n) (λ l w, n = Z.of_nat (length l) ∧ ∃ ws, w = concat ws ∧ Forall2 (encodes depth) l ws).
Proof using Type.
  intros Hr Hn. apply gives_charge, gives_reserve. eapply gives_impl; [by apply gives_n|]. cbn beta.
  intros l w (Hl & Hws). split; [lia|done].
Qed.

Lemma gives_counted_values {A} depth read (f : list Value → A) :
  gives read (encodes depth) →
  gives (count ← ccount; values ← values_of maximum read count; mret (f values)) (λ x w,
    ∃ l, x = f l ∧ counted (items_length depth) (encode_items encode_into) l w).
Proof using Type.
  intros Hr. eapply gives_bind; [exact gives_count|]. cbn beta. intros n w [-> Hn] _.
  eapply gives_bind; [apply (gives_values depth); [done|lia]|]. cbn beta.
  intros l w (Hl & ws & -> & Hws) _. apply gives_ret. exists l. split; [done|]. rewrite app_nil_r.
  eapply items_counted; [exact Hws|done|lia].
Qed.

Lemma gives_sequence depth read tuple :
  gives read (encodes depth) →
  gives (sequence maximum read tuple) (λ v w,
    ∃ l, v = (if tuple then VTuple l else VList l) ∧ (tuple = true → l ≠ [])
      ∧ counted (items_length depth) (encode_items encode_into) l w).
Proof using Type.
  intros Hr. eapply gives_bind; [exact gives_count|]. cbn beta. intros n w [-> Hn] _.
  apply gives_guard. intros Hg.
  eapply gives_bind; [apply (gives_values depth); [done|lia]|]. cbn beta.
  intros l w (Hl & ws & -> & Hws) _. apply gives_ret. exists l. rewrite app_nil_r. split_and!; [done| |].
  - intros -> ->. by subst n.
  - eapply items_counted; [exact Hws|done|lia].
Qed.

(** *** Maps *)

Lemma kind_is_key v k : map_key_kind v = Some k → is_map_key v = true.
Proof using Type.
  revert k. induction v; intros k; simpl; try done. destruct (map_key_kind v) eqn:E; [|done]. eauto.
Qed.

(** Keys of one type, in strict order, after the previous one. *)
Definition keys_follow (previous : option Value) (m : list (Value * Value)) : Prop :=
  StronglySorted (λ a b, entry_before a b = true) m
  ∧ (∃ t, match previous with Some p => is_map_key p = true → key_of_type t p = true | None => True end
          ∧ Forall (λ e : Value * Value, key_of_type t e.1 = true) m)
  ∧ Forall (λ e : Value * Value,
      match previous with Some p => is_lt (compare_map_keys p e.1) = true | None => True end) m.

Lemma keys_follow_cons kind previous key v m :
  is_map_key key = true → (∃ k, key_follows kind previous key k = true) →
  keys_follow (Some key) m → keys_follow previous ((key, v) :: m).
Proof using Type.
  intros Hk (k & Hf) (Hs & (t & Ht & Hm) & Hlt). specialize (Ht Hk).
  assert (match previous with
          | Some p => same_map_key_kind p key = true ∧ is_lt (compare_map_keys p key) = true
          | None => True end) as Hp.
  { unfold key_follows in Hf. destruct previous; [|done]. rewrite !andb_true_iff in Hf. tauto. }
  split_and!.
  - constructor; [done|]. exact Hlt.
  - exists t. split; [|by constructor]. destruct previous as [p|]; [|done]. intros Hpk.
    destruct Hp as [Hkind _]. by rewrite (same_kind_typed t p key).
  - destruct previous as [p|]; [|by apply Forall_true]. destruct Hp as [Hkind Hpk].
    constructor; [done|]. rewrite Forall_forall in *. intros e He. specialize (Hlt e He). simpl in Hlt.
    assert (key_of_type t p = true) as Hpt by (by rewrite (same_kind_typed t p key)).
    rewrite (compare_map_keys_trans t _ key); [done|done|done|by apply Hm| |].
    + by destruct (compare_map_keys p key).
    + by destruct (compare_map_keys key e.1).
Qed.

Lemma gives_entries depth read n kind previous :
  gives read (encodes depth) →
  gives (read_entries read n kind previous) (λ m w,
    length m = n ∧ (∃ ws, w = concat ws ∧ Forall2 (encodes_entry depth) m ws) ∧ keys_follow previous m).
Proof using Type.
  intros Hr. revert kind previous. induction n as [|n IH]; intros kind previous; cbn [read_entries].
  { apply gives_ret. split_and!; [done|by exists []|]. split_and!; [constructor| |constructor].
    destruct previous as [p|]; [|by exists TUnit]. exists (key_type p).
    split; [apply key_type_ok|constructor]. }
  eapply gives_bind; [exact Hr|]. cbn beta. intros key w Hkey _.
  destruct (map_key_kind key) as [k|] eqn:Hk; [|apply gives_fail]. apply gives_guard. intros Hf.
  eapply gives_bind; [exact Hr|]. cbn beta. intros v w' Hv _.
  eapply gives_bind; [exact (IH (Some k) (Some key))|]. cbn beta.
  intros m w'' (Hl & (ws & -> & Hws) & Hm) _. apply gives_ret. split_and!.
  - cbn [length]. by rewrite Hl.
  - exists ((w ++ w') :: ws)%list. split; [by rewrite app_nil_r, app_assoc|].
    constructor; [|done]. by exists w, w'.
  - apply (keys_follow_cons kind previous key v m); [by eapply kind_is_key|by exists k|done].
Qed.

Definition entries_length (depth : nat) (start : Z) (m : list (Value * Value)) : result CanonicalEncodeError Z :=
  try? length_u32 m in try? validate_map (map fst m) in
  try_fold_sum2 (λ e : Value * Value, encoded_length_at e.1 depth)
    (λ e : Value * Value, encoded_length_at e.2 depth) length_add start m.
Definition encode_map (m : list (Value * Value)) : Bytes_ :=
  let? n := encode_length (length m) in
  let? body := encode_entries (length m) (map fst m)
                 (map (λ e : Value * Value, (encode_into e.1, encode_into e.2)) m) None in
  Ok (n ++ body)%list.

Lemma sorted_NoDup (m : list (Value * Value)) :
  StronglySorted (λ a b, entry_before a b = true) m → NoDup (map fst m).
Proof using Type.
  induction 1 as [|e m _ IH He]; [constructor|]. cbn [map]. constructor; [|done].
  intros Hin. apply list_elem_of_fmap in Hin as (e' & Hk & He'). rewrite Forall_forall in He.
  specialize (He e' He'). unfold entry_before in He. rewrite <- Hk in He.
  pose proof (compare_map_keys_antisym e.1 e.1) as Ha. by destruct (compare_map_keys e.1 e.1).
Qed.

Lemma entries_counted depth m ws n :
  Forall2 (encodes_entry depth) m ws → n = Z.of_nat (length m) → n <= u32_max → keys_follow None m →
  counted (entries_length depth) encode_map m (be_bytes 4 n ++ concat ws)%list.
Proof using Type.
  intros Hm -> Hn (Hs & (t & _ & Ht) & _).
  pose proof (sorted_NoDup m Hs) as Hnd.
  apply (Forall_map fst (λ k, key_of_type t k = true)) in Ht.
  assert (∀ start, concat_bytes (flat_map (entry_parts encode_into) m)
    = Ok (concat ws) ∧ (0 <= start → start + Z.of_nat (length (concat ws)) <= usize_max →
     try_fold_sum2 (λ e : Value * Value, encoded_length_at e.1 depth)
       (λ e : Value * Value, encoded_length_at e.2 depth) length_add start m
     = Ok (start + Z.of_nat (length (concat ws))))) as Hp.
  { intros start. eapply pairs_encode; [|exact Hm]. intros e w (w1 & w2 & -> & [He1 Hl1] & He2 & Hl2).
    exists w1, w2. rewrite length_app. split_and!; [done..|]. intros Hle. split; [apply Hl1|apply Hl2]; lia. }
  unfold counted, encode_map, entries_length.
  rewrite (encode_entries_sorted encode_into m t Ht Hnd), insertion_sort_id, encode_length_ok by done.
  destruct (Hp 0) as [-> _]. rewrite length_app, length_be_bytes. split_and!; [done|lia|].
  intros start Hst Hle. rewrite (proj2 (length_u32_ok _)), (proj2 (validate_map_ok _)) by (done || by exists t).
  destruct (Hp start) as [_ ->]; [f_equal; lia|lia|lia].
Qed.

Lemma gives_map depth read :
  gives read (encodes depth) →
  gives (read_map maximum read) (λ v w,
    ∃ m, v = VMap m ∧ counted (entries_length depth) encode_map m w).
Proof using Type.
  intros Hr. eapply gives_bind; [exact gives_count|]. cbn beta. intros n w [-> Hn] _.
  apply gives_charge, gives_reserve. eapply gives_bind; [by apply gives_entries|]. cbn beta.
  intros m w (Hl & (ws & -> & Hws) & Hk) _. apply gives_ret. exists m. split; [done|]. rewrite app_nil_r.
  eapply entries_counted; [exact Hws|lia|lia|done].
Qed.

(** *** Enums *)

Lemma gives_identity : gives read_identity (λ i w, w = encode_identity i).
Proof using Type.
  eapply gives_bind; [exact gives_byte|]. cbn beta. intros tag w -> _.
  destruct tag as [|[p|[p|p|]|]|p]; try apply gives_fail; try (by apply gives_ret).
  eapply gives_bind; [exact gives_u32|]. cbn beta. intros id w [-> Hid] _. apply gives_ret.
  cbn [encode_identity]. rewrite Z2Nat.id, app_nil_r by lia. done.
Qed.

Definition payload_length (depth : nat) (start : Z) (p : EnumPayload Value) : result CanonicalEncodeError Z :=
  match p with
  | PUnit => Ok start
  | PTuple l => items_length depth start l
  | PRecord fs => fields_length depth start fs
  end.

(** The tag of the payload is the fifth byte [start] counts. *)
Definition payload_encodes (depth : nat) (p : EnumPayload Value) (w : list Z) : Prop :=
  encode_payload p = Ok w ∧ 5 <= Z.of_nat (length w) ∧
  ∀ start, 5 <= start → start - 5 + Z.of_nat (length w) <= usize_max →
    payload_length depth start p = Ok (start - 5 + Z.of_nat (length w)).

Lemma counted_payload {A} (make : A → EnumPayload Value) len enc depth tag (x : A) w :
  (∀ start, payload_length depth start (make x) = len start x) →
  encode_payload (make x) = VmCanonicalCorrect.tagged tag (enc x) →
  counted len enc x w → payload_encodes depth (make x) (tag :: w).
Proof using Type.
  intros Hlen Henc (He & H4 & Hn). split_and!.
  - by rewrite Henc, He.
  - cbn [length]. lia.
  - intros start Hs Hle. rewrite Hlen. cbn [length] in *. rewrite Hn by lia. f_equal. lia.
Qed.

Lemma gives_enum depth value field :
  (depth <= MAX_VALUE_NESTING)%nat →
  gives value (encodes (S depth)) → gives field (encodes (S depth)) →
  gives (enum_value maximum value field) (λ v w, encodes depth v (11 :: w)).
Proof using Type.
  intros Hd Hv Hf. eapply gives_bind; [exact gives_identity|]. cbn beta. intros i w -> _.
  eapply gives_bind; [exact gives_u32|]. cbn beta. intros variant w [-> Hvar] _.
  eapply gives_bind; [exact gives_byte|]. cbn beta. intros tag w -> _.
  apply (gives_bind _ _ (λ p w, payload_encodes (S depth) p (tag :: w))).
  - destruct tag as [|[p|[p|p|]|]|p]; try apply gives_fail.
    + eapply gives_bind; [exact gives_count|]. cbn beta. intros n w [-> Hn] _.
      apply gives_guard. intros ->%Z.eqb_eq. apply gives_ret. split_and!; [done..|].
      intros start Hs Hle. cbn [payload_length]. f_equal. simpl. lia.
    + eapply gives_bind; [by apply gives_record|]. intros fs w Hc _. apply gives_ret. rewrite app_nil_r.
      by apply (counted_payload PRecord (fields_length (S depth)) (encode_fields encode_into)).
    + eapply gives_impl; [by apply gives_counted_values|]. cbn beta. intros p w (l & -> & Hc).
      by apply (counted_payload PTuple (items_length (S depth)) (encode_items encode_into)).
  - intros p w (He & H5 & Hn) _. apply gives_ret. rewrite app_nil_r. split.
    + rewrite encode_enum, He. by rewrite Z2Nat.id by lia.
    + cbn [length]. rewrite !length_app, length_be_bytes. intros Hle. cbn [encoded_length_at].
      assert (Z.of_nat (length (encode_identity i)) = identity_length i) as Hi.
      { destruct i; [|done..]. cbn [encode_identity identity_length length]. by rewrite length_be_bytes. }
      cbn [length] in Hn, H5, Hle. rewrite (proj2 (Nat.ltb_ge _ _)), length_add_fits by lia.
      transitivity (payload_length (S depth) (identity_length i + 10) p); [by destruct p|].
      rewrite Hn by lia. f_equal. cbn [app length]. lia.
Qed.

(** *** Values *)

Lemma gives_int : gives read_int (λ v w, ∀ depth, (depth <= MAX_VALUE_NESTING)%nat → encodes depth v (3 :: w)).
Proof using Type.
  eapply gives_bind; [apply gives_take; lia|]. cbn beta. intros bs w (-> & Hl & Hb) _. apply gives_ret.
  intros depth Hd. rewrite app_nil_r. pose proof (be_bytes_value w Hb) as Hv.
  pose proof (be_value_range w Hb) as Hr. assert (length w = 8%nat) as Hl' by lia. rewrite Hl' in *.
  change (256 ^ Z.of_nat 8) with (2 ^ 64) in Hr. split.
  - cbn [encode_into]. do 2 f_equal. transitivity (be_bytes 8 (be_value w)); [|done].
    f_equal. destruct (i64_max <? be_value w).
    + rewrite <- (Z.mod_add _ 1) by done. rewrite Z.mod_small; lia.
    + by apply Z.mod_small.
  - intros _. cbn [encoded_length_at length]. rewrite (proj2 (Nat.ltb_ge _ _)), Hl' by lia. done.
Qed.

Lemma gives_float : gives read_float (λ v w, ∀ depth, (depth <= MAX_VALUE_NESTING)%nat → encodes depth v (4 :: w)).
Proof using Type.
  eapply gives_bind; [apply gives_take; lia|]. cbn beta. intros bs w (-> & Hl & Hb) _.
  apply gives_guard. intros Hnan%negb_true_iff. apply gives_ret. intros depth Hd. rewrite app_nil_r.
  rewrite float_bits_canonical by done. pose proof (be_bytes_value w Hb) as Hv.
  assert (length w = 8%nat) as Hl' by lia. rewrite Hl' in *. split.
  - cbn [encode_into]. by rewrite Hv.
  - intros _. cbn [encoded_length_at length]. by rewrite (proj2 (Nat.ltb_ge _ _)), Hnan, Hl' by lia.
Qed.

Lemma sized_encodes depth tag bs v :
  (depth <= MAX_VALUE_NESTING)%nat → Z.of_nat (length bs) <= u32_max →
  encode_into v = encode_sized_value tag bs →
  encoded_length_at v depth = (if (MAX_VALUE_NESTING <? depth)%nat then Err EncodeInvalidValue
                               else sized_payload_length bs) →
  encodes depth v (tag :: be_bytes 4 (Z.of_nat (length bs)) ++ bs)%list.
Proof using Type.
  intros Hd Hl He Hn. split.
  - rewrite He. unfold encode_sized_value. by rewrite encode_length_ok.
  - rewrite Hn, (proj2 (Nat.ltb_ge _ _)) by lia. cbn [length]. rewrite length_app, length_be_bytes.
    intros Hle. unfold sized_payload_length. rewrite (proj2 (length_u32_ok _)) by done.
    rewrite length_add_fits by lia. f_equal. lia.
Qed.

Lemma counted_encodes {A} (make : A → Value) len enc depth tag (x : A) w :
  (depth <= MAX_VALUE_NESTING)%nat →
  encode_into (make x) = VmCanonicalCorrect.tagged tag (enc x) →
  encoded_length_at (make x) depth
  = (if (MAX_VALUE_NESTING <? depth)%nat then Err EncodeInvalidValue else len 5 x) →
  counted len enc x w → encodes depth (make x) (tag :: w).
Proof using Type.
  intros Hd He Hn (Hw & H4 & Hlen). split; [by rewrite He, Hw|].
  rewrite Hn, (proj2 (Nat.ltb_ge _ _)) by lia. cbn [length]. intros Hle. rewrite Hlen by lia. f_equal. lia.
Qed.

Lemma gives_newtype depth deeper :
  (depth <= MAX_VALUE_NESTING)%nat → gives deeper (encodes (S depth)) →
  gives (identity ← ctext maximum;
         _ ← cguard (valid_newtype_identity identity) DecodeInvalidValue;
         v ← deeper; mret (VNewtype identity v)) (λ v w, encodes depth v (13 :: w)).
Proof using Type.
  intros Hd Hr. eapply gives_bind; [apply gives_text|]. cbn beta. intros i w [-> Hi] _.
  apply gives_guard. intros Hv. eapply gives_bind; [exact Hr|]. cbn beta. intros v w [He Hn] _.
  apply gives_ret. rewrite app_nil_r. split.
  - cbn [encode_into]. by rewrite encode_name, He.
  - cbn [length]. rewrite !length_app, length_be_bytes. intros Hle. cbn [encoded_length_at].
    rewrite (proj2 (Nat.ltb_ge _ _)), Hv, Hn by lia. unfold field_name_length.
    rewrite (proj2 (length_u32_ok _)) by done. rewrite length_bytes in *. unfold str_len.
    rewrite !length_add_fits by lia. cbn [negb]. f_equal. lia.
Qed.

Lemma gives_unknown depth deeper :
  (depth <= MAX_VALUE_NESTING)%nat → gives deeper (encodes (S depth)) →
  gives (v ← deeper; mret (VUnknown v)) (λ v w, encodes depth v (12 :: w)).
Proof using Type.
  intros Hd Hr. eapply gives_bind; [exact Hr|]. cbn beta. intros v w [He Hn] _.
  apply gives_ret. rewrite app_nil_r. split.
  - cbn [encode_into]. by rewrite He.
  - cbn [length]. intros Hle. cbn [encoded_length_at].
    rewrite (proj2 (Nat.ltb_ge _ _)), Hn, length_add_fits by lia. f_equal. lia.
Qed.

Lemma gives_string depth :
  (depth <= MAX_VALUE_NESTING)%nat →
  gives (s ← ctext maximum; mret (VString s)) (λ v w, encodes depth v (5 :: w)).
Proof using Type.
  intros Hd. eapply gives_bind; [apply gives_text|]. cbn beta. intros s w [-> Hs] _. apply gives_ret.
  rewrite app_nil_r. by apply sized_encodes.
Qed.

Lemma gives_bytes depth :
  (depth <= MAX_VALUE_NESTING)%nat →
  gives (read_bytes maximum) (λ v w, encodes depth v (6 :: w)).
Proof using Type.
  intros Hd. eapply gives_bind; [exact gives_count|]. cbn beta. intros n w [-> Hn] _.
  eapply gives_bind; [apply gives_take; lia|]. cbn beta. intros bs w (-> & <- & Hb) _.
  apply gives_charge, gives_ret. rewrite app_nil_r. apply sized_encodes; [done|lia|done|done].
Qed.

Lemma gives_lists depth read tuple :
  (depth <= MAX_VALUE_NESTING)%nat → gives read (encodes (S depth)) →
  gives (sequence maximum read tuple) (λ v w, encodes depth v ((if tuple then 9 else 7) :: w)).
Proof using Type.
  intros Hd Hr. eapply gives_impl; [by apply gives_sequence|]. cbn beta. intros v w (l & -> & Hne & Hc).
  destruct tuple.
  - eapply (counted_encodes VTuple _ (encode_items encode_into)); [done|done| |exact Hc].
    destruct l; [by destruct Hne|done].
  - by apply (counted_encodes VList (items_length (S depth)) (encode_items encode_into)).
Qed.

Lemma gives_records depth read :
  (depth <= MAX_VALUE_NESTING)%nat → gives read (encodes (S depth)) →
  gives (fields ← record maximum read; mret (VRecord fields)) (λ v w, encodes depth v (10 :: w)).
Proof using Type.
  intros Hd Hr. eapply gives_bind; [by apply gives_record|]. intros fs w Hc _. apply gives_ret.
  rewrite app_nil_r. by apply (counted_encodes VRecord (fields_length (S depth)) (encode_fields encode_into)).
Qed.

Lemma gives_maps depth read :
  (depth <= MAX_VALUE_NESTING)%nat → gives read (encodes (S depth)) →
  gives (read_map maximum read) (λ v w, encodes depth v (8 :: w)).
Proof using Type.
  intros Hd Hr. eapply gives_impl; [by apply gives_map|]. cbn beta. intros v w (m & -> & Hc).
  by apply (counted_encodes VMap (entries_length (S depth)) encode_map).
Qed.

(** Below a depth the encoder admits, what is read encodes to the bytes read. *)
Lemma gives_value levels depth :
  (levels + depth <= S MAX_VALUE_NESTING)%nat →
  gives (read_value maximum levels) (encodes depth).
Proof using Type.
  revert depth. induction levels as [levels IH] using lt_wf_ind. intros depth Hd.
  destruct levels as [|levels]; cbn [read_value]; [apply gives_fail|].
  assert (gives (read_value maximum levels) (encodes (S depth))) as Hr by (apply IH; lia).
  assert (gives (read_value maximum (Nat.pred levels)) (encodes (S depth))) as Hf by (apply IH; lia).
  assert ((depth <= MAX_VALUE_NESTING)%nat) as Hd' by lia.
  assert (∀ v b, encode_into v = Ok [b] →
    encoded_length_at v depth = (if (MAX_VALUE_NESTING <? depth)%nat then Err EncodeInvalidValue else Ok 1) →
    encodes depth v [b]) as Hunit.
  { intros v b He Hn. split; [done|]. intros _. by rewrite Hn, (proj2 (Nat.ltb_ge _ _)) by lia. }
  eapply gives_bind; [exact gives_byte|]. cbn beta. intros tag w -> _. cbn [app].
  destruct tag as [|p|p]; [apply gives_ret; by apply Hunit| |apply gives_fail].
  do 4 (try (destruct p as [p|p|]; try apply gives_fail; try (apply gives_ret; by apply Hunit))).
  - by apply gives_enum.
  - by apply (gives_lists _ _ false).
  - by apply gives_newtype.
  - by apply (gives_lists _ _ true).
  - by apply gives_string.
  - eapply gives_impl; [exact gives_int|]. auto.
  - by apply gives_records.
  - by apply gives_bytes.
  - by apply gives_unknown.
  - by apply gives_maps.
  - eapply gives_impl; [exact gives_float|]. auto.
Qed.
End Strict.

(** C10. The decoder is strict: bytes it accepts are exactly what the encoder writes for
    the value it gives, so no two byte strings decode to the same value. *)
Theorem decoding_is_strict `{Memory} (bs : list Z) (v : Value) (maximum : Z)
  (Hbytes : all_bytes bs) (Hmaximum : maximum <= u64_max)
  (Hmemory : ∀ n, try_reserve_exact ElementByte n = true)
  (Hdecode : decode_canonical_with_limit bs maximum = Ok v) :
  encode_canonical_with_limit v maximum = Ok bs.
Proof.
  unfold decode_canonical_with_limit in Hdecode.
  destruct (Z.ltb_spec maximum (Z.of_nat (length bs))) as [|Hle]; [done|].
  destruct (read_value _ _ _) as [[v' r']|] eqn:Hr; [|done]. cbn [fst snd] in Hdecode.
  destruct (cr_bytes r') eqn:Hrest; [|done]. injection Hdecode as ->.
  destruct (gives_value (Z.min maximum usize_max) (S MAX_VALUE_NESTING) 0 ltac:(done)
              {| cr_bytes := bs; cr_allocated := 0 |} _ _ Hbytes Hr)
    as (w & Hw & He & Hn).
  cbn [cr_bytes] in Hw. rewrite Hrest, app_nil_r in Hw. subst w.
  unfold encode_canonical_with_limit, encoded_length. rewrite Hn by (unfold usize_max; lia).
  destruct (Z.ltb_spec maximum (Z.of_nat (length bs))); [lia|]. by rewrite Hmemory.
Qed.

(** ** A value with every kind of part *)

Definition plain_memory : Memory :=
  {| size_of_value := 24; size_of_entry := 48; size_of_field := 40; try_reserve_exact := λ _ _, true |}.

Definition sample_value : Value :=
  VRecord [
    ("a", VMap [(VNewtype "app::Key" (VInt 7), VUnit); (VNewtype "app::Key" (VInt (-2)), VBool true)]);
    ("b", VEnum (User 3) "Shape" 1 "Box" (PRecord [("side", VFloat 4607182418800017408)]));
    ("c", VTuple [VString "é"; VBytes [0; 255]; VUnknown (VList [])]);
    ("d", VEnum OptionId "Option" 1 "None" PUnit)].
Definition sample_encoding : list Z := Eval vm_compute in
  match encode_into sample_value with Ok bs => bs | Err _ => [] end.

Lemma sample_length : encoded_length sample_value = Ok (Z.of_nat (length sample_encoding)).
Proof. vm_compute. reflexivity. Qed.

Lemma sample_encoded : encode_canonical_with_limit (H := plain_memory) sample_value 4096 = Ok sample_encoding.
Proof. vm_compute. reflexivity. Qed.

Lemma plain_memory_ample : ample (H := plain_memory).
Proof. by constructor. Qed.

Lemma encoder_fills_reservation_witness : ∃ bs,
  encode_canonical_with_limit (H := plain_memory) sample_value 4096 = Ok bs
  ∧ Z.of_nat (length bs) = Z.of_nat (length sample_encoding).
Proof.
  apply (@encoder_fills_reservation plain_memory sample_value 4096); [exact sample_length| |reflexivity].
  vm_compute. discriminate.
Defined.


Lemma decoding_is_strict_witness :
  encode_canonical_with_limit (H := plain_memory) (canonical_form sample_value) 4096 = Ok sample_encoding.
Proof.
  apply (@decoding_is_strict plain_memory sample_encoding (canonical_form sample_value) 4096).
  - repeat (constructor; [reflexivity|]). constructor.
  - vm_compute. discriminate.
  - reflexivity.
  - vm_compute. reflexivity.
Defined.

(** ** Nesting of enum records *)

(** Enums with a record payload, one in the other. *)
Fixpoint nested_enum (n : nat) : Value :=
  match n with
  | O => VUnit
  | S n => VEnum (User 0) "Node" 0 "Child" (PRecord [("next", nested_enum n)])
  end.

Definition reread (v : Value) : option (result CanonicalDecodeError Value) :=
  match encode_canonical_with_limit (H := plain_memory) v 65536 with
  | Ok bs => Some (decode_canonical_with_limit (H := plain_memory) bs 65536)
  | Err _ => None
  end.

(** The decoder counts the record payload of an enum as two levels of nesting, the
    encoder as one: 65 such enums, one in the other, encode (as up to 128 do) and what
    the encoder writes is refused as an invalid value, while 64 of them are read back. *)
Theorem nested_enum_not_read_back :
  reread (nested_enum 65) = Some (Err DecodeInvalidValue)
  ∧ match reread (nested_enum 64) with Some (Ok v) => language_equal v (canonical_form (nested_enum 64)) | _ => false end
    = true
  ∧ is_ok (encode_canonical_with_limit (H := plain_memory) (nested_enum 128) 65536) = true.
Proof. split_and!; vm_compute; reflexivity. Qed.
