(* ===== verification/VmJson.v ===== *)
(** * Decoding JSON into values ([crates/allen-vm/src/json.rs])

    [decode_json] reads one JSON text through a visitor that refuses repeated keys and
    deep nesting, and projects it into a value of a given type.  The JSON tokenizer is
    the class [JsonText]: the calls it makes of the visitor, as a tree that may end in
    an error; base64 is the class [Base64].  Floating-point numbers are their bits. *)

From S2P Require Import Prelude Text Bytecode VmValue JoshMessage.
Open Scope string_scope.
Open Scope Z_scope.

Definition DUPLICATE_MARKER : string := "__allen_duplicate_key__".
Definition DEPTH_MARKER : string := "__allen_decode_depth__".
Definition MAX_ERROR_MESSAGE_BYTES : Z := 256.
Definition MAXIMUM_DECODE_DEPTH : nat := 128.

Inductive JsonDecodeErrorKind :=
| KindInvalidUtf8 | KindInvalidJson | KindDuplicateKey | KindTypeMismatch | KindResourceDepth.
Definition JsonDecodeErrorKind_code (kind : JsonDecodeErrorKind) : string :=
  match kind with
  | KindInvalidUtf8 => "invalid_utf8"
  | KindInvalidJson => "invalid_json"
  | KindDuplicateKey => "duplicate_key"
  | KindTypeMismatch => "type_mismatch"
  | KindResourceDepth => "resource.limit"
  end.

Record JsonDecodeError := { jde_kind : JsonDecodeErrorKind; jde_message : string }.

(** An error returned, or a panic. *)
Inductive Failure := Rejected (error : JsonDecodeError) | Panicked.

(** [str::is_char_boundary]: the index is an end or not inside a character. *)
Definition is_char_boundary (s : string) (index : Z) : bool :=
  if index =? str_len s then true
  else match bytes s !! Z.to_nat index with
       | Some b => negb (Z.land b 0xC0 =? 0x80)
       | None => false
       end.

(** [String::truncate] panics off a boundary; the loop after it finds one at once. *)
Definition JsonDecodeError_new (kind : JsonDecodeErrorKind) (message : string) : Failure :=
  if MAX_ERROR_MESSAGE_BYTES <? str_len message
  then if is_char_boundary message MAX_ERROR_MESSAGE_BYTES
       then Rejected {| jde_kind := kind;
                        jde_message := string_of_bytes (take (Z.to_nat MAX_ERROR_MESSAGE_BYTES) (bytes message)) |}
       else Panicked
  else Rejected {| jde_kind := kind; jde_message := message |}.

(** ** JSON values *)

Inductive JsonNumber_ := JnInt (value : Z) | JnFloat (bits : Z) | JnOutOfRange.
Inductive JsonValue :=
| JvNull
| JvBool (value : bool)
| JvNumber (number : JsonNumber_)
| JvString (value : string)
| JvArray (values : list JsonValue)
| JvObject (members : list (string * JsonValue)).

(** What the tokenizer calls: [visit_i64], [visit_u64], [visit_f64] and so on; a
    sequence or a map ends or breaks off with an error. *)
Inductive JsonEvents :=
| EvUnit
| EvBool (value : bool)
| EvI64 (value : Z)
| EvU64 (value : Z)
| EvF64 (bits : Z)
| EvStr (value : string)
| EvSeq (items : list JsonEvents) (ending : option string)
| EvMap (members : list (string * JsonEvents)) (ending : option string)
| EvError (message : string).

Class JsonText := {
  json_events : string → JsonEvents;
  json_end : string → bool; (* only white space after the value *)
  error_position : string → string (* what [Error::custom] adds to its message *) }.

Class Base64 := {
  base64_encode : list Z → string;
  base64_decode : string → option (list Z) }.

Section Visit.
Variable position : string.

Definition finish {A} (ending : option string) : result string (list A) :=
  match ending with Some message => Err message | None => Ok [] end.

Section Items.
Variable visit : JsonEvents → result string JsonValue.
Fixpoint visit_seq (ending : option string) (items : list JsonEvents) : result string (list JsonValue) :=
  match items with
  | [] => finish ending
  | x :: items => let? v := visit x in let? vs := visit_seq ending items in Ok (v :: vs)
  end.
Fixpoint visit_members (ending : option string) (names : list string) (members : list (string * JsonEvents))
    : result string (list (string * JsonValue)) :=
  match members with
  | [] => finish ending
  | (name, x) :: members =>
    if existsb (String.eqb name) names then Err (DUPLICATE_MARKER ++ position)%string
    else
      let? v := visit x in
      let? vs := visit_members ending (name :: names) members in Ok ((name, v) :: vs)
  end.
End Items.

(** [JsonSeed] and [JsonVisitor]; an error is its text. *)
Fixpoint visit_json (depth : nat) (e : JsonEvents) : result string JsonValue :=
  if (MAXIMUM_DECODE_DEPTH <? depth)%nat then Err (DEPTH_MARKER ++ position)%string
  else
    match e with
    | EvUnit => Ok JvNull
    | EvBool b => Ok (JvBool b)
    | EvI64 z => Ok (JvNumber (JnInt z))
    | EvU64 z => Ok (JvNumber (if z <=? i64_max then JnInt z else JnOutOfRange))
    | EvF64 bits => Ok (JvNumber (JnFloat bits))
    | EvStr s => Ok (JvString s)
    | EvSeq items ending =>
      let? vs := visit_seq (visit_json (S depth)) ending items in Ok (JvArray vs)
    | EvMap members ending =>
      let? vs := visit_members (visit_json (S depth)) ending [] members in Ok (JvObject vs)
    | EvError message => Err message
    end.
End Visit.

Definition incomplete : Failure :=
  JsonDecodeError_new KindInvalidJson "input is not one complete JSON value".
Definition classify (message : string) : Failure :=
  if str_contains DUPLICATE_MARKER message
  then JsonDecodeError_new KindDuplicateKey "JSON object contains a duplicate key"
  else if str_contains DEPTH_MARKER message || str_contains "recursion limit exceeded" message
  then JsonDecodeError_new KindResourceDepth "JSON nesting exceeds 128"
  else incomplete.

(** [serde_json::Value] read as the visitor would. *)
Definition from_number (n : JsonNumber) : JsonNumber_ :=
  match n with
  | NPosInt z => if z <=? i64_max then JnInt z else JnOutOfRange
  | NNegInt z => JnInt z
  | NFloat bits => JnFloat bits
  end.
Fixpoint from_serde (value : Json) : JsonValue :=
  match value with
  | JNull => JvNull
  | JBool b => JvBool b
  | JNumber n => JvNumber (from_number n)
  | JString s => JvString s
  | JArray values => JvArray (map from_serde values)
  | JObject values => JvObject (map (λ f : string * Json, (f.1, from_serde f.2)) values)
  end.

(** ** Projection *)

Definition mismatch : Failure :=
  JsonDecodeError_new KindTypeMismatch "JSON value does not match the target type".
Definition Projected : Type := result Failure Value.
Definition Projection : Type := ValueType → Projected.

(** The first member of a name. *)
Fixpoint member {A} (object : list (string * A)) (name : string) : option A :=
  match object with
  | [] => None
  | (candidate, value) :: rest => if String.eqb candidate name then Some value else member rest name
  end.

Fixpoint project_each (items : list Projection) (t : ValueType) : result Failure (list Value) :=
  match items with
  | [] => Ok []
  | p :: items => let? v := p t in let? vs := project_each items t in Ok (v :: vs)
  end.
Fixpoint project_zip (items : list Projection) (types : list ValueType) : result Failure (list Value) :=
  match items, types with
  | p :: items, t :: types => let? v := p t in let? vs := project_zip items types in Ok (v :: vs)
  | _, _ => Ok []
  end.
Fixpoint project_fields (members : list (string * Projection)) (fields : list (string * ValueType))
    : result Failure (list (string * Value)) :=
  match fields with
  | [] => Ok []
  | (name, t) :: fields =>
    match member members name with
    | None => Err Panicked (* [unwrap] *)
    | Some p =>
      let? v := p t in
      let? vs := project_fields members fields in Ok ((name, v) :: vs)
    end
  end.
Definition project_record (members : list (string * Projection)) (fields : list (string * ValueType)) : Projected :=
  if same_length fields members
     && forallb (λ f : string * ValueType, match member members f.1 with Some _ => true | None => false end) fields
  then let? vs := project_fields members fields in Ok (VRecord vs)
  else Err mismatch.

(** The entries of a map, each with the key before it. *)
Fixpoint project_entries (key_type value_type : ValueType) (previous : option Value)
    (pairs : list (option (Projection * Projection))) : result Failure (list (Value * Value)) :=
  match pairs with
  | [] => Ok []
  | None :: _ => Err mismatch
  | Some (k, v) :: pairs =>
    let? key := k key_type in
    if match previous with Some p => negb (is_lt (compare_map_keys p key)) | None => false end
    then Err mismatch
    else
      let? value := v value_type in
      let? rest := project_entries key_type value_type (Some key) pairs in
      Ok ((key, value) :: rest)
  end.

(** What the tagged forms need of a member: its projection and, of an array, the
    projections of its items. *)
Record Member := { mb_text : option string; mb_project : Projection; mb_items : option (list Projection) }.

Definition tag_of (object : list (string * Member)) : result Failure string :=
  let? tag := ok_or (member object "tag") mismatch in ok_or (mb_text tag) mismatch.

Definition project_builtin_tag (object : list (string * Member)) (item : ValueType) : Projected :=
  let? tag := tag_of object in
  let? vp :=
    if String.eqb tag "None" && (length object =? 1)%nat then Ok (0%nat, PUnit)
    else if String.eqb tag "Some" && (length object =? 2)%nat then
      let? value := ok_or (member object "value") mismatch in
      let? v := mb_project value item in Ok (1%nat, PTuple [v])
    else Err mismatch in
  Ok (VEnum OptionId "Option" vp.1 tag vp.2).

Definition project_result_tag (object : list (string * Member)) (ok error : ValueType) : Projected :=
  let? tag := tag_of object in
  let? vt :=
    if String.eqb tag "Ok" then Ok (0%nat, ok)
    else if String.eqb tag "Err" then Ok (1%nat, error)
    else Err mismatch in
  let? payload :=
    if ValueType_eqb vt.2 TUnit then if negb (length object =? 1)%nat then Err mismatch else Ok VUnit
    else if (length object =? 2)%nat then
      let? value := ok_or (member object "value") mismatch in mb_project value vt.2
    else Err mismatch in
  Ok (VEnum ResultId "Result" vt.1 tag (PTuple [payload])).

(** The first variant of a name, with its index. *)
Fixpoint find_variant (index : nat) (variants : list EnumVariant) (tag : string) : option (nat * EnumVariant) :=
  match variants with
  | [] => None
  | v :: rest => if String.eqb (ev_name v) tag then Some (index, v) else find_variant (S index) rest tag
  end.

Definition project_user_enum (enums : list EnumType) (object : list (string * Member)) (id : EnumTypeId)
    : Projected :=
  let? definition := ok_or (enums !! id) mismatch in
  let? tag := tag_of object in
  let? found := ok_or (find_variant 0 (et_variants definition) tag) mismatch in
  let? payload :=
    match ev_payload found.2 with
    | PTUnit => if (length object =? 1)%nat then Ok PUnit else Err mismatch
    | PTTuple items =>
      if (length object =? 2)%nat then
        let? value := ok_or (member object "value") mismatch in
        let? values := ok_or (mb_items value) mismatch in
        if negb (same_length values items) then Err mismatch
        else let? vs := project_zip values items in Ok (PTuple vs)
      else Err mismatch
    | PTRecord fields =>
      if (length object =? 2)%nat then
        let? value := ok_or (member object "value") mismatch in
        let? v := mb_project value (TRecord fields) in
        match v with VRecord values => Ok (PRecord values) | _ => Err Panicked (* [unreachable!] *) end
      else Err mismatch
    end in
  if u32_max <? Z.of_nat found.1 then Err mismatch
  else Ok (VEnum (User id) (et_name definition) found.1 tag payload).

Section Project.
Context `{Base64} (enums : list EnumType).

Definition project_bytes (members : list (string * JsonValue)) : Projected :=
  match members with
  | [_] =>
    let? j := ok_or (member members "$bytes") mismatch in
    match j with
    | JvString encoded =>
      match base64_decode encoded with
      | None => Err mismatch
      | Some decoded =>
        if negb (String.eqb (base64_encode decoded) encoded) then Err mismatch else Ok (VBytes decoded)
      end
    | _ => Err mismatch
    end
  | _ => Err mismatch
  end.
Definition project_float_text (text : string) : Projected :=
  if String.eqb text "NaN" then Ok (VFloat CANONICAL_NAN_BITS)
  else if String.eqb text "Infinity" then Ok (VFloat 0x7FF0000000000000)
  else if String.eqb text "-Infinity" then Ok (VFloat 0xFFF0000000000000)
  else Err mismatch.

(** A newtype wraps the projection into its underlying type. *)
Fixpoint through_newtypes (form : Projection) (target : ValueType) : Projected :=
  match target with
  | TNewtype name underlying =>
    let? v := through_newtypes form underlying in Ok (VNewtype name v)
  | _ => form target
  end.

(** The match on target and value, by the form of the value. *)
Fixpoint project (value : JsonValue) : Projection :=
  through_newtypes (λ target,
    match value with
    | JvNull => match target with TUnit => Ok VUnit | _ => Err mismatch end
    | JvBool b => match target with TBool => Ok (VBool b) | _ => Err mismatch end
    | JvNumber n =>
      match n, target with
      | JnInt z, TInt => Ok (VInt z)
      | JnFloat bits, TFloat => Ok (VFloat (canonical_float_bits bits))
      | _, _ => Err mismatch
      end
    | JvString text =>
      match target with
      | TFloat => project_float_text text
      | TString => Ok (VString text)
      | _ => Err mismatch
      end
    | JvArray values =>
      match target with
      | TList item => let? vs := project_each (map project values) item in Ok (VList vs)
      | TTuple items =>
        if same_length items values
        then let? vs := project_zip (map project values) items in Ok (VTuple vs)
        else Err mismatch
      | TMap key_type value_type =>
        let? entries := project_entries key_type value_type None
          (map (λ pair, match pair with JvArray [k; v] => Some (project k, project v) | _ => None end) values) in
        Ok (VMap entries)
      | _ => Err mismatch
      end
    | JvObject members =>
      let object := map (λ f : string * JsonValue, (f.1,
        {| mb_text := match f.2 with JvString s => Some s | _ => None end;
           mb_project := project f.2;
           mb_items := match f.2 with JvArray l => Some (map project l) | _ => None end |})) members in
      match target with
      | TBytes => project_bytes members
      | TRecord fields =>
        project_record (map (λ f : string * JsonValue, (f.1, project f.2)) members) fields
      | TOption item => project_builtin_tag object item
      | TResult ok error => project_result_tag object ok error
      | TEnum id => project_user_enum enums object id
      | _ => Err mismatch
      end
    end).

Definition project_json_value (value : Json) : Projection := project (from_serde value).
End Project.

(** ** Reading *)

Definition BYTE_ORDER_MARK : string := string_of_bytes [0xEF; 0xBB; 0xBF].

Definition decode_json `{Base64, JsonText} (enums : list EnumType) (input : list Z) (target : ValueType)
    : Projected :=
  if negb (utf8_valid input) then Err (JsonDecodeError_new KindInvalidUtf8 "input is not valid UTF-8")
  else
    let text := string_of_bytes input in
    if starts_with BYTE_ORDER_MARK text
    then Err (JsonDecodeError_new KindInvalidJson "JSON must not begin with a byte-order mark")
    else
      let? value := map_err classify (visit_json (error_position text) 0 (json_events text)) in
      if negb (json_end text) then Err incomplete
      else project enums value target.
