(* ===== verification/VmJsonSound.v ===== *)
(** * JSON decoding is type safe

    What [decode_json] accepts is a value of the target type as the machine needs it;
    what it does not accept it answers with an error, never with a panic. *)

From S2P Require Import Prelude Text Bytecode VmValue JoshMessage VmJson VmSound.
Open Scope string_scope.
Open Scope Z_scope.

Fixpoint JsonValue_ind' (P : JsonValue → Prop)
  (Hnull : P JvNull) (Hbool : ∀ b, P (JvBool b)) (Hnumber : ∀ n, P (JvNumber n))
  (Hstring : ∀ s, P (JvString s)) (Harray : ∀ l, Forall P l → P (JvArray l))
  (Hobject : ∀ m, Forall (λ f : string * JsonValue, P f.2) m → P (JvObject m)) (j : JsonValue) : P j :=
  let rec := JsonValue_ind' P Hnull Hbool Hnumber Hstring Harray Hobject in
  match j with
  | JvNull => Hnull
  | JvBool b => Hbool b
  | JvNumber n => Hnumber n
  | JvString s => Hstring s
  | JvArray l =>
    Harray l ((fix all (l : list JsonValue) : Forall P l :=
      match l with [] => List.Forall_nil _ | x :: l' => List.Forall_cons _ x l' (rec x) (all l') end) l)
  | JvObject m =>
    Hobject m ((fix all (m : list (string * JsonValue)) : Forall (λ f : string * JsonValue, P f.2) m :=
      match m with
      | [] => List.Forall_nil _
      | (n, x) :: m' => List.Forall_cons _ (n, x) m' (rec x) (all m')
      end) m)
  end.

Section Sound.
Context `{Base64} (module : Module_).

(** A failure is the mismatch error: no panic. *)
Definition answers_with {A} (P : A → Prop) (r : result Failure A) : Prop :=
  match r with Ok x => P x | Err failure => failure = mismatch end.

Lemma answers_with_bind {A B} (r : result Failure A) (k : A → result Failure B) P Q :
  answers_with P r → (∀ x, P x → answers_with Q (k x)) → answers_with Q (let? x := r in k x).
Proof using Type. destruct r as [x|]; simpl; auto. Qed.

Lemma answers_with_mismatch {A} (P : A → Prop) : answers_with P (Err mismatch).
Proof using Type. done. Qed.

Lemma answers_with_option {A B} (o : option A) (k : A → result Failure B) Q :
  (∀ x, o = Some x → answers_with Q (k x)) → answers_with Q (let? x := ok_or o mismatch in k x).
Proof using Type. destruct o; simpl; auto. Qed.

Definition good (p : Projection) : Prop := ∀ t, answers_with (λ v, well_typed module v t = true) (p t).

Lemma project_each_typed ps t :
  Forall good ps → answers_with (λ vs, forallb (λ v, well_typed module v t) vs = true) (project_each ps t).
Proof using Type.
  induction 1 as [|p ps Hp _ IH]; [done|]. cbn [project_each].
  eapply answers_with_bind; [apply Hp|]. cbn beta. intros v Hv.
  eapply answers_with_bind; [exact IH|]. cbn beta. intros vs Hvs. simpl. by rewrite Hv.
Qed.

Lemma project_zip_typed ps ts :
  Forall good ps → length ps = length ts →
  answers_with (λ vs, all2 (well_typed module) vs ts = true) (project_zip ps ts).
Proof using Type.
  intros Hps. revert ts. induction Hps as [|p ps Hp _ IH]; intros [|t ts] Hl; try done. cbn [project_zip].
  eapply answers_with_bind; [apply Hp|]. cbn beta. intros v Hv.
  eapply answers_with_bind; [apply IH; by injection Hl|]. cbn beta. intros vs Hvs. simpl. by rewrite Hv.
Qed.

Lemma member_elem {A} (m : list (string * A)) name x : member m name = Some x → ∃ n, (n, x) ∈ m.
Proof using Type.
  induction m as [|[n y] m IH]; simpl; [done|]. destruct (String.eqb n name).
  - intros [= ->]. exists n. by left.
  - intros [n' Hn]%IH. exists n'. by right.
Qed.

Lemma member_Forall {A} (P : A → Prop) (m : list (string * A)) name x :
  Forall (λ f : string * A, P f.2) m → member m name = Some x → P x.
Proof using Type. rewrite Forall_forall. intros Hm [n Hn]%member_elem. exact (Hm _ Hn). Qed.

Lemma project_record_typed (m : list (string * Projection)) fields :
  Forall (λ f : string * Projection, good f.2) m →
  answers_with (λ v, well_typed module v (TRecord fields) = true) (project_record m fields).
Proof using Type.
  intros Hm. unfold project_record. destruct (same_length fields m && _) eqn:E; [|done].
  apply andb_true_iff in E as [_ Hall].
  eapply (answers_with_bind _ _ (λ vs, all2 (λ (f : string * Value) (g : string * ValueType),
    String.eqb f.1 g.1 && well_typed module f.2 g.2) vs fields = true)); [|done].
  induction fields as [|[name t] fields IH]; [done|]. cbn [project_fields forallb fst] in *.
  destruct (member m name) as [p|] eqn:Hp; [|done].
  pose proof (member_Forall good m name p Hm Hp) as Hgood.
  eapply answers_with_bind; [apply Hgood|]. cbn beta. intros v Hv.
  eapply answers_with_bind; [by apply IH|]. cbn beta. intros vs Hvs. simpl.
  by rewrite String.eqb_refl, Hv.
Qed.

Definition good_pair (o : option (Projection * Projection)) : Prop :=
  match o with Some (k, v) => good k ∧ good v | None => True end.

Lemma project_entries_typed k e previous pairs :
  Forall good_pair pairs →
  answers_with (λ m, forallb (λ p : Value * Value, well_typed module p.1 k && well_typed module p.2 e) m = true
    ∧ unsorted_entries m = false
    ∧ match previous, m with
      | Some p, q :: _ => is_lt (compare_map_keys p q.1) = true
      | _, _ => True
      end)
    (project_entries k e previous pairs).
Proof using Type.
  intros Hp. revert previous. induction Hp as [|[[pk pv]|] pairs Hpair _ IH]; intros previous; cbn [project_entries].
  - split_and!; [done|done|by destruct previous].
  - destruct Hpair as [Hk Hv]. eapply answers_with_bind; [apply Hk|]. cbn beta. intros key Hkey.
    destruct (match previous with Some p => _ | None => false end) eqn:Hprev; [done|].
    eapply answers_with_bind; [apply Hv|]. cbn beta. intros value Hvalue.
    eapply answers_with_bind; [apply (IH (Some key))|]. cbn beta. intros m (Hm & Hs & Hnext).
    split_and!.
    + simpl. by rewrite Hkey, Hvalue.
    + unfold unsorted_entries in *. destruct m as [|q m]; [done|].
      change (negb (is_lt (compare_map_keys key q.1))
        || windows2_any (λ p q, negb (is_lt (compare_map_keys p.1 q.1))) (q :: m) = false).
      by rewrite Hs, Hnext.
    + destruct previous as [p|]; [|done]. by apply negb_false_iff in Hprev.
  - done.
Qed.

(** *** The tagged forms *)

Definition good_member (m : Member) : Prop :=
  good (mb_project m) ∧ match mb_items m with Some l => Forall good l | None => True end.
Definition good_object (m : list (string * Member)) : Prop := Forall (λ f : string * Member, good_member f.2) m.

Lemma tag_of_answers {B} object (k : string → result Failure B) Q :
  (∀ tag, answers_with Q (k tag)) → answers_with Q (let? tag := tag_of object in k tag).
Proof using Type.
  intros Hk. unfold tag_of. destruct (member object "tag") as [m|]; [|done]. simpl.
  destruct (mb_text m); [apply Hk|done].
Qed.

Lemma project_builtin_tag_typed object item :
  good_object object →
  answers_with (λ v, well_typed module v (TOption item) = true) (project_builtin_tag object item).
Proof using Type.
  intros Ho. unfold project_builtin_tag. apply tag_of_answers. intros tag.
  destruct (_ && (length object =? 1)%nat); [done|].
  destruct (_ && (length object =? 2)%nat); [|done].
  destruct (member object "value") as [m|] eqn:Hm; [|done]. cbn [ok_or].
  apply (member_Forall good_member) in Hm as [Hp _]; [|done].
  specialize (Hp item). destruct (mb_project m item) as [v|[]]; [|done..]. exact Hp.
Qed.

Lemma project_result_tag_typed object ok error :
  good_object object →
  answers_with (λ v, well_typed module v (TResult ok error) = true) (project_result_tag object ok error).
Proof using Type.
  intros Ho. unfold project_result_tag. apply tag_of_answers. intros tag.
  apply (answers_with_bind _ _ (λ vt : nat * ValueType, vt = (0%nat, ok) ∨ vt = (1%nat, error))).
  { destruct (String.eqb tag "Ok"); [by left|]. destruct (String.eqb tag "Err"); [by right|done]. }
  intros [n t] Hnt. cbn [fst snd].
  apply (answers_with_bind _ _ (λ v, well_typed module v t = true)).
  - destruct (ValueType_eqb t TUnit) eqn:Ht.
    + apply ValueType_eqb_eq in Ht as ->. by destruct (negb _).
    + destruct (length object =? 2)%nat; [|done]. apply answers_with_option. intros m Hm.
      apply (member_Forall good_member) in Hm as [Hp _]; [|done]. apply Hp.
  - intros v Hv. by destruct Hnt as [[= -> ->]|[= -> ->]].
Qed.

Lemma find_variant_lookup index variants tag n v :
  find_variant index variants tag = Some (n, v) →
  (index <= n)%nat ∧ variants !! (n - index)%nat = Some v ∧ ev_name v = tag.
Proof using Type.
  revert index. induction variants as [|x variants IH]; intros index; cbn [find_variant]; [done|].
  destruct (String.eqb (ev_name x) tag) eqn:E.
  - intros [= -> ->]. apply String.eqb_eq in E. rewrite Nat.sub_diag. done.
  - intros (Hle & Hl & Hn)%IH. split_and!; [lia| |done].
    replace (n - index)%nat with (S (n - S index)) by lia. done.
Qed.

Lemma record_value v fields : well_typed module v (TRecord fields) = true → ∃ fs, v = VRecord fs.
Proof using Type. destruct v; try done. by eexists. Qed.

Lemma project_user_enum_typed object id :
  good_object object →
  answers_with (λ v, well_typed module v (TEnum id) = true) (project_user_enum (enum_types module) object id).
Proof using Type.
  intros Ho. unfold project_user_enum. apply answers_with_option. intros d Hd.
  apply tag_of_answers. intros tag. apply answers_with_option. intros [n v] Hv.
  apply find_variant_lookup in Hv as (_ & Hv & _). rewrite Nat.sub_0_r in Hv. cbn [fst snd].
  assert (variant_payload module id n = Ok (ev_payload v)) as Hpayload.
  { unfold variant_payload. rewrite Hd. cbn [ok_or]. by rewrite Hv. }
  apply (answers_with_bind _ _ (λ p, well_typed module (VEnum (User id) (et_name d) n tag p) (TEnum id) = true)).
  2:{ intros p Hp. by destruct (_ <? _). }
  cbn [well_typed]. rewrite Hpayload, bool_decide_eq_true_2 by done. cbn [andb].
  destruct (ev_payload v) as [|ts|fields]; destruct (length object =? _)%nat; try done.
  - apply answers_with_option. intros m Hm. apply (member_Forall good_member) in Hm as [_ Hl]; [|done].
    destruct (mb_items m) as [l|]; [|done]. cbn [ok_or].
    destruct (same_length l ts) eqn:Hs; [|done]. cbn [negb]. apply Nat.eqb_eq in Hs.
    eapply answers_with_bind; [by apply project_zip_typed|]. done.
  - apply answers_with_option. intros m Hm. apply (member_Forall good_member) in Hm as [Hp _]; [|done].
    eapply answers_with_bind; [apply Hp|]. cbn beta. intros x Hx.
    destruct (record_value x fields Hx) as [fs ->]. exact Hx.
Qed.

(** *** Values *)

(** A JSON value projects well, and so do its items. *)
Definition projects (j : JsonValue) : Prop :=
  good (project (enum_types module) j)
  ∧ match j with JvArray l => Forall (λ x, good (project (enum_types module) x)) l | _ => True end.

Lemma projects_items l : Forall projects l → Forall good (map (project (enum_types module)) l).
Proof using Type. intros Hl. apply Forall_map. eapply Forall_impl; [exact Hl|]. by intros j [? _]. Qed.

Lemma through_newtypes_good form :
  (∀ t, answers_with (λ v, well_typed module v t = true) (form t)) → good (through_newtypes form).
Proof using Type.
  intros Hf t. induction t; try exact (Hf _). cbn [through_newtypes].
  eapply answers_with_bind; [exact IHt|]. cbn beta. intros v Hv. cbn [answers_with well_typed].
  by rewrite String.eqb_refl, Hv.
Qed.

Lemma array_projects l : Forall projects l → good (project (enum_types module) (JvArray l)).
Proof using Type.
  intros Hl. apply through_newtypes_good. intros t. destruct t; try done.
  - eapply answers_with_bind; [by apply project_each_typed, projects_items|]. done.
  - eapply answers_with_bind; [eapply project_entries_typed|].
    + apply Forall_map. eapply Forall_impl; [exact Hl|]. intros j [_ Hj]. destruct j; try done.
      destruct values as [|k [|v [|]]]; try done. apply Forall_cons in Hj as [? Hj].
      apply Forall_cons in Hj as [? _]. by split.
    + cbn beta. intros m (Hm & Hs & _). cbn [answers_with well_typed]. by rewrite Hs.
  - destruct (same_length elements l) eqn:Hs; [|done]. apply Nat.eqb_eq in Hs.
    eapply answers_with_bind; [apply project_zip_typed; [by apply projects_items|by rewrite length_map]|]. done.
Qed.

Lemma object_projects m :
  Forall (λ f : string * JsonValue, projects f.2) m → good (project (enum_types module) (JvObject m)).
Proof using Type.
  intros Hm. apply through_newtypes_good. intros t.
  set (object := map _ m). assert (good_object object) as Ho.
  { apply Forall_map. eapply Forall_impl; [exact Hm|]. intros [n j] [Hj Hl]. split; [exact Hj|].
    cbn [mb_items snd] in *. destruct j; try done. by apply Forall_map. }
  destruct t; try done.
  - unfold project_bytes. destruct m as [|f [|]]; try done. apply answers_with_option. intros [] _; try done.
    destruct (base64_decode value); [|done]. by destruct (negb _).
  - apply project_record_typed. apply Forall_map. eapply Forall_impl; [exact Hm|]. by intros f [? _].
  - by apply project_user_enum_typed.
  - by apply project_builtin_tag_typed.
  - by apply project_result_tag_typed.
Qed.

Lemma project_typed j : projects j.
Proof using Type.
  induction j as [|b|n|s|l IH|m IH] using JsonValue_ind'.
  1-4: split; [|done]; apply through_newtypes_good; intros t; destruct t; try done; try by destruct n.
  - unfold project_float_text. repeat (destruct (String.eqb s _); [done|]). done.
  - split; [by apply array_projects|]. eapply Forall_impl; [exact IH|]. by intros j [? _].
  - split; [by apply object_projects|done].
Qed.
End Sound.

(** ** What the visitor admits *)

(** No object has two members of one name. *)
Fixpoint names_distinct (j : JsonValue) : Prop :=
  match j with
  | JvArray l => foldr (λ x P, names_distinct x ∧ P) True l
  | JvObject m => NoDup (map fst m) ∧ foldr (λ (f : string * JsonValue) P, names_distinct f.2 ∧ P) True m
  | _ => True
  end.
Fixpoint json_depth (j : JsonValue) : nat :=
  match j with
  | JvArray l => foldr (λ x n, Nat.max (S (json_depth x)) n) 0%nat l
  | JvObject m => foldr (λ (f : string * JsonValue) n, Nat.max (S (json_depth f.2)) n) 0%nat m
  | _ => 0%nat
  end.
Definition admitted (depth : nat) (j : JsonValue) : Prop :=
  names_distinct j ∧ (depth + json_depth j <= MAXIMUM_DECODE_DEPTH)%nat.

Fixpoint JsonEvents_ind' (P : JsonEvents → Prop)
  (Hleaf : ∀ e, match e with EvSeq _ _ | EvMap _ _ => False | _ => True end → P e)
  (Hseq : ∀ l ending, Forall P l → P (EvSeq l ending))
  (Hmap : ∀ m ending, Forall (λ f : string * JsonEvents, P f.2) m → P (EvMap m ending)) (e : JsonEvents) : P e :=
  let rec := JsonEvents_ind' P Hleaf Hseq Hmap in
  match e with
  | EvSeq l ending =>
    Hseq l ending ((fix all (l : list JsonEvents) : Forall P l :=
      match l with [] => List.Forall_nil _ | x :: l' => List.Forall_cons _ x l' (rec x) (all l') end) l)
  | EvMap m ending =>
    Hmap m ending ((fix all (m : list (string * JsonEvents)) : Forall (λ f : string * JsonEvents, P f.2) m :=
      match m with
      | [] => List.Forall_nil _
      | (n, x) :: m' => List.Forall_cons _ (n, x) m' (rec x) (all m')
      end) m)
  | e => Hleaf e I
  end.

Section Admits.
Variables (position : string) (visit : JsonEvents → result string JsonValue) (depth : nat) (ending : option string).
Hypothesis Hdepth : (depth <= MAXIMUM_DECODE_DEPTH)%nat.

Lemma visit_seq_admits l vs :
  Forall (λ e, ∀ j, visit e = Ok j → admitted (S depth) j) l → visit_seq visit ending l = Ok vs →
  admitted depth (JvArray vs).
Proof using Hdepth.
  intros Hl. revert vs. induction Hl as [|x l Hx _ IH]; intros vs; cbn [visit_seq].
  - destruct ending; [done|]. intros [= <-]. split; [done|]. cbn. lia.
  - destruct (visit x) as [v|] eqn:Hv; [|done]. destruct (visit_seq visit ending l) as [vs'|]; [|done].
    intros [= <-]. destruct (Hx _ eq_refl) as [Hn Hd], (IH _ eq_refl) as [Hn' Hd'].
    split; [done|]. cbn [json_depth foldr] in *. lia.
Qed.

Lemma visit_members_admits m names vs :
  Forall (λ f : string * JsonEvents, ∀ j, visit f.2 = Ok j → admitted (S depth) j) m →
  visit_members position visit ending names m = Ok vs →
  admitted depth (JvObject vs) ∧ ∀ name, name ∈ names → name ∉ map fst vs.
Proof using Hdepth.
  intros Hm. revert names vs. induction Hm as [|[name x] m Hx _ IH]; intros names vs; cbn [visit_members].
  { destruct ending; [done|]. intros [= <-]. split; [|set_solver]. split; [split; [constructor|done]|]. cbn. lia. }
  destruct (existsb (String.eqb name) names) eqn:He; [done|].
  destruct (visit x) as [v|] eqn:Hv; [|done].
  destruct (visit_members _ visit ending (name :: names) m) as [vs'|] eqn:Hvs; [|done]. intros [= <-].
  destruct (Hx _ Hv) as [Hn Hd], (IH _ _ Hvs) as [[[Hnd Hn'] Hd'] Hnin]. split.
  - split; [|cbn [json_depth foldr snd] in *; lia]. split; [|done].
    constructor; [|done]. apply Hnin. by left.
  - intros n' Hin. cbn [map fst]. rewrite not_elem_of_cons. split; [|apply Hnin; by right]. intros ->.
    apply not_true_iff_false in He. apply He, existsb_exists. exists name.
    rewrite <- list_elem_of_In. by rewrite String.eqb_refl.
Qed.
End Admits.

Lemma visit_admits position e depth j :
  visit_json position depth e = Ok j → admitted depth j.
Proof.
  revert depth j. induction e as [e He|l ending IH|m ending IH] using JsonEvents_ind'; intros depth j.
  - destruct e; try done; cbn [visit_json]; destruct (Nat.ltb_spec MAXIMUM_DECODE_DEPTH depth); try done;
      intros [= <-]; (split; [done|]); cbn [json_depth]; lia.
  - cbn [visit_json]. destruct (Nat.ltb_spec MAXIMUM_DECODE_DEPTH depth) as [|Hd]; [done|].
    destruct (visit_seq _ ending l) as [vs|] eqn:Hl; [|done]. intros [= <-].
    eapply visit_seq_admits; [done| |exact Hl]. eapply Forall_impl; [exact IH|]. cbn. auto.
  - cbn [visit_json]. destruct (Nat.ltb_spec MAXIMUM_DECODE_DEPTH depth) as [|Hd]; [done|].
    destruct (visit_members _ _ ending [] m) as [vs|] eqn:Hl; [|done]. intros [= <-].
    eapply visit_members_admits in Hl as [Hl _]; [exact Hl|done|]. eapply Forall_impl; [exact IH|]. cbn. auto.
Qed.

