(* ===== verification/RuntimeJson.v ===== *)
(** * Values at the entry of the runtime ([crates/allen-runtime/src/lib.rs], [error.rs])

    Error codes of the runtime, and the JSON form of values: [value_to_json] writes the
    output of an entry, [json_to_value] and [decode_entry_input] read its input through
    the projection of the machine. *)

From S2P Require Import Prelude Text Bytecode VmBudget VmValue JoshMessage VmJson.
Open Scope string_scope.
Open Scope Z_scope.

(** ** Errors *)

Module Code.
Inductive RuntimeErrorCode :=
| ArithmeticOverflow | DivisionByZero | IndexOutOfBounds | ListLengthMismatch | MapKeyNotFound
| DuplicateMapKey | ResourceLimit | Cancelled | Timeout | ProgramFailed | Panic | ProtocolViolation
| ReplayDiverged | ReplayRuntimeDiverged | EntryNotFound | CapabilityDenied | InputTooLarge
| InvalidInput | EntryInvariantInput | EntryInvariantOutput | ManifestInvalid | CatalogMismatch.

#[export] Instance RuntimeErrorCode_eq_dec : EqDecision RuntimeErrorCode.
Proof. solve_decision. Defined.

Definition RuntimeErrorCode_as_str (code : RuntimeErrorCode) : string :=
  match code with
  | ArithmeticOverflow => "arithmetic.overflow"
  | DivisionByZero => "arithmetic.division_by_zero"
  | IndexOutOfBounds => "index.out_of_bounds"
  | ListLengthMismatch => "list.length_mismatch"
  | MapKeyNotFound => "map.key_not_found"
  | DuplicateMapKey => "map.duplicate_key"
  | ResourceLimit => "resource.limit"
  | Cancelled => "runtime.cancelled"
  | Timeout => "runtime.timeout"
  | ProgramFailed => "program.failed"
  | Panic => "runtime.panic"
  | ProtocolViolation => "protocol.violation"
  | ReplayDiverged => "replay.diverged"
  | ReplayRuntimeDiverged => "replay.runtime_diverged"
  | EntryNotFound => "runtime.entry_not_found"
  | CapabilityDenied => "runtime.capability_denied"
  | InputTooLarge => "resource.input_bytes"
  | InvalidInput => "runtime.invalid_input"
  | EntryInvariantInput => "runtime.entry_invariant.input"
  | EntryInvariantOutput => "runtime.entry_invariant.output"
  | ManifestInvalid => "runtime.manifest_invalid"
  | CatalogMismatch => "tool.catalog_mismatch"
  end.

Definition runtime_vm_error_code (error : VmError) : RuntimeErrorCode :=
  match error with
  | VmBudget.AgentUnavailable | VmBudget.AgentResponseSchema | VmBudget.ModelUnavailable
  | VmBudget.ModelValidationError | VmBudget.UserUnavailable | VmBudget.ResponseValidationError
  | VmBudget.SubAgentUnavailable | VmBudget.SubAgentResponseSchema | VmBudget.ToolUnavailable
  | VmBudget.ToolSchemaError | VmBudget.CapabilityMissing | VmBudget.ProtocolViolation => ProtocolViolation
  | VmBudget.ReplayDiverged => ReplayDiverged
  | VmBudget.ReplayRuntimeDiverged => ReplayRuntimeDiverged
  | VmBudget.ArithmeticOverflow => ArithmeticOverflow
  | VmBudget.DivisionByZero => DivisionByZero
  | VmBudget.IndexOutOfBounds => IndexOutOfBounds
  | VmBudget.ListLengthMismatch => ListLengthMismatch
  | VmBudget.MapKeyNotFound => MapKeyNotFound
  | VmBudget.DuplicateMapKey => DuplicateMapKey
  | VmBudget.ResourceLimit _ => ResourceLimit
  | VmBudget.Cancelled => Cancelled
  | VmBudget.Timeout_ _ => Timeout
  | VmBudget.ProgramFailed _ => ProgramFailed
  | VmBudget.Invariant_ _ | VmBudget.Stopped _ => Panic
  end.

Definition post_start_runtime_vm_error_code (error : VmError) : RuntimeErrorCode :=
  match error with
  | VmBudget.ReplayDiverged => ReplayRuntimeDiverged
  | _ => runtime_vm_error_code error
  end.

Definition safe_terminal_message (code : RuntimeErrorCode) : string :=
  match code with
  | ArithmeticOverflow => "arithmetic overflow"
  | DivisionByZero => "division by zero"
  | IndexOutOfBounds => "index out of bounds"
  | MapKeyNotFound => "map key not found"
  | DuplicateMapKey => "duplicate map key"
  | ResourceLimit => "execution resource limit exceeded"
  | Cancelled => "execution was cancelled"
  | Timeout => "execution timed out"
  | ProgramFailed => "program failed"
  | Panic => "runtime invariant failed"
  | ProtocolViolation => "runtime protocol violation"
  | ReplayRuntimeDiverged => "runtime replay diverged"
  | _ => "runtime execution failed"
  end.
End Code.
Export (hints) Code.
Import Code.

(** The audit entries of a failure are added where it leaves the runtime. *)
Record RuntimeError := { re_code : RuntimeErrorCode; re_message : string }.
Definition RuntimeError_new (code : RuntimeErrorCode) (message : string) : RuntimeError :=
  {| re_code := code; re_message := message |}.

(** ** Values to JSON *)

Definition no_schema : RuntimeError := RuntimeError_new Panic "output does not match schema".

(** The order of map keys, where there is one. *)
Fixpoint runtime_compare_map_keys (left right : Value) : option comparison :=
  match left, right with
  | VBool l, VBool r => Some (bool_compare l r)
  | VInt l, VInt r => Some (l ?= r)
  | VString l, VString r => Some (str_compare l r)
  | VBytes l, VBytes r => Some (bytes_compare l r)
  | VNewtype i l, VNewtype j r => if String.eqb i j then runtime_compare_map_keys l r else None
  | _, _ => None
  end.

(** [i64] as a [serde_json::Number] *)
Definition int_number (z : Z) : JsonNumber := if 0 <=? z then NPosInt z else NNegInt z.

Definition is_finite_bits (bits : Z) : bool := negb (Z.land bits EXPONENT_MASK =? EXPONENT_MASK).
Definition float_to_json (bits : Z) : Json :=
  if is_finite_bits bits then JNumber (NFloat bits)
  else JString (if is_nan_bits bits then "NaN" else if negb (Z.testbit bits 63) then "Infinity" else "-Infinity").

Definition ToJson : Type := ValueType → result RuntimeError Json.

Fixpoint json_each (items : list ToJson) (t : ValueType) : result RuntimeError (list Json) :=
  match items with
  | [] => Ok []
  | f :: items => let? j := f t in let? js := json_each items t in Ok (j :: js)
  end.
Fixpoint json_zip (items : list ToJson) (types : list ValueType) : result RuntimeError (list Json) :=
  match items, types with
  | f :: items, t :: types => let? j := f t in let? js := json_zip items types in Ok (j :: js)
  | _, _ => Ok []
  end.
(** The fields in turn, inserted into the object. *)
Fixpoint json_fields (object : list (string * Json)) (fields : list (string * ValueType))
    (values : list (string * ToJson)) : result RuntimeError (list (string * Json)) :=
  match fields, values with
  | (field, t) :: fields, (name, f) :: values =>
    if negb (String.eqb name field) then Err (RuntimeError_new Panic "record does not match schema")
    else let? j := f t in json_fields (btree_insert field j object) fields values
  | _, _ => Ok object
  end.
Definition json_record (fields : list (string * ValueType)) (values : list (string * ToJson))
    : result RuntimeError Json :=
  if same_length fields values then let? object := json_fields [] fields values in Ok (JObject object)
  else Err no_schema.
Fixpoint json_entries (k t : ValueType) (last : option Value) (entries : list (Value * ToJson * ToJson))
    : result RuntimeError (list Json) :=
  match entries with
  | [] => Ok []
  | (key, fk, fv) :: entries =>
    if match last with
       | Some previous => match runtime_compare_map_keys previous key with Some Lt => false | _ => true end
       | None => false
       end
    then Err no_schema
    else
      let? jk := fk k in
      let? jv := fv t in
      let? rest := json_entries k t (Some key) entries in
      Ok (JArray [jk; jv] :: rest)
  end.

(** The payload of an enum as its parts' conversions. *)
Definition user_enum_to_json (enums : list EnumType) (id : EnumTypeId) (variant : nat)
    (payload : EnumPayload ToJson) : result RuntimeError Json :=
  let? v := ok_or (d ← enums !! id; et_variants d !! variant) no_schema in
  let object := btree_insert "tag" (JString (ev_name v)) [] in
  match ev_payload v, payload with
  | PTUnit, PUnit => Ok (JObject object)
  | PTTuple types, PTuple values =>
    if same_length types values
    then let? js := json_zip values types in Ok (JObject (btree_insert "value" (JArray js) object))
    else Err no_schema
  | PTRecord fields, PRecord values =>
    let? j := json_record fields values in Ok (JObject (btree_insert "value" j object))
  | _, _ => Err no_schema
  end.

Definition single_payload (payload : EnumPayload ToJson) : result RuntimeError ToJson :=
  match payload with PTuple [f] => Ok f | _ => Err no_schema end.

Definition option_to_json (item : ValueType) (identity : EnumIdentity) (variant : nat)
    (payload : EnumPayload ToJson) : result RuntimeError Json :=
  if negb (bool_decide (identity = OptionId)) then Err no_schema
  else match variant with
       | O => Ok (JObject (btree_insert "tag" (JString "None") []))
       | S _ =>
         let? f := single_payload payload in
         let? j := f item in
         Ok (JObject (btree_insert "value" j (btree_insert "tag" (JString "Some") [])))
       end.

(** [first_unit]: the one value of the payload is a unit. *)
Definition result_to_json (ok error : ValueType) (identity : EnumIdentity) (variant : nat)
    (payload : EnumPayload ToJson) (first_unit : bool) : result RuntimeError Json :=
  let tag := match variant with O => "Ok" | S _ => "Err" end in
  let t := match variant with O => ok | S _ => error end in
  if negb (bool_decide (identity = ResultId)) then Err no_schema
  else
    let object := btree_insert "tag" (JString tag) [] in
    let? f := single_payload payload in
    match t with
    | TUnit => if first_unit then Ok (JObject object) else Err no_schema
    | _ => let? j := f t in Ok (JObject (btree_insert "value" j object))
    end.

Section ToJson.
Context `{Base64} (enums : list EnumType).

(** [value_to_json] and [tagged_or_map_output], by the form of the value. *)
Fixpoint value_to_json (value : Value) (ty : ValueType) : result RuntimeError Json :=
  match value with
  | VNewtype identity v =>
    match ty with
    | TNewtype name underlying =>
      if negb (String.eqb identity name) then Err no_schema else value_to_json v underlying
    | _ => Err no_schema
    end
  | VInt z => match ty with TInt => Ok (JNumber (int_number z)) | _ => Err no_schema end
  | VBool b => match ty with TBool => Ok (JBool b) | _ => Err no_schema end
  | VString s => match ty with TString => Ok (JString s) | _ => Err no_schema end
  | VFloat bits => match ty with TFloat => Ok (float_to_json bits) | _ => Err no_schema end
  | VBytes bs =>
    match ty with
    | TBytes => Ok (JObject [("$bytes", JString (base64_encode bs))])
    | _ => Err no_schema
    end
  | VUnit => match ty with TUnit => Ok JNull | _ => Err no_schema end
  | VList values =>
    match ty with
    | TList element => let? js := json_each (map value_to_json values) element in Ok (JArray js)
    | _ => Err no_schema
    end
  | VTuple values =>
    match ty with
    | TTuple elements =>
      if same_length elements values
      then let? js := json_zip (map value_to_json values) elements in Ok (JArray js)
      else Err no_schema
    | _ => Err no_schema
    end
  | VRecord values =>
    match ty with
    | TRecord fields => json_record fields (map (λ f : string * Value, (f.1, value_to_json f.2)) values)
    | _ => Err no_schema
    end
  | VMap entries =>
    match ty with
    | TMap k t =>
      let? js := json_entries k t None
        (map (λ e : Value * Value, (e.1, value_to_json e.1, value_to_json e.2)) entries) in
      Ok (JArray js)
    | _ => Err no_schema
    end
  | VEnum identity _ variant _ payload =>
    let parts :=
      match payload with
      | PUnit => PUnit
      | PTuple values => PTuple (map value_to_json values)
      | PRecord fields => PRecord (map (λ f : string * Value, (f.1, value_to_json f.2)) fields)
      end in
    match ty with
    | TEnum id => user_enum_to_json enums id variant parts
    | TOption item => option_to_json item identity variant parts
    | TResult ok error =>
      result_to_json ok error identity variant parts
        (match payload with PTuple (VUnit :: _) => true | _ => false end)
    | _ => Err no_schema
    end
  | _ => Err no_schema
  end.

(** ** JSON to values *)

(** A panic of the projection, which is refuted elsewhere, is kept as [Panicked]. *)
Inductive EntryFailure := EntryError (error : RuntimeError) | EntryPanicked.

Definition json_to_value (value : Json) (ty : ValueType) : result EntryFailure Value :=
  map_err (λ failure, match failure with
                      | Rejected e => EntryError (RuntimeError_new InvalidInput (jde_message e))
                      | Panicked => EntryPanicked
                      end) (project_json_value enums value ty).

Definition decode_entry_input `{JsonText} (input : list Z) (ty : ValueType) : result EntryFailure Value :=
  map_err (λ failure, match failure with
                      | Rejected e =>
                        EntryError (RuntimeError_new
                          (match jde_kind e with KindResourceDepth => ResourceLimit | _ => InvalidInput end)
                          (jde_message e))
                      | Panicked => EntryPanicked
                      end) (decode_json enums input ty).
End ToJson.
