(* ===== verification/RuntimeJsonCorrect.v ===== *)
(** * JSON at the entry is lossless

    A well-typed value without handles and closures has a JSON form, and reading that
    form back gives the value. *)

From S2P Require Import Prelude Text Bytecode VmValue JoshMessage VmSound VmCanonical VmJson.
From S2P Require Import VmJsonSound RuntimeJson.
Open Scope string_scope.
Open Scope Z_scope.

(** ** Values that have a JSON form *)

Fixpoint distinct_names (l : list string) : bool :=
  match l with
  | [] => true
  | x :: l => negb (existsb (String.eqb x) l) && distinct_names l
  end.

Lemma distinct_names_NoDup l : distinct_names l = true → NoDup l.
Proof.
  induction l as [|x l IH]; simpl; [constructor|]. rewrite andb_true_iff, negb_true_iff. intros [Hx Hl].
  constructor; [|auto]. intros Hin. apply not_true_iff_false in Hx. apply Hx, existsb_exists.
  exists x. rewrite <- list_elem_of_In. by rewrite String.eqb_refl.
Qed.

Section Ready.
Variable enums : list EnumType.

(** An enum value carries the names of its type and variant. *)
Definition enum_named (identity : EnumIdentity) (type_name : string) (variant : nat) (variant_name : string)
    : bool :=
  match identity with
  | User id =>
    match enums !! id with
    | None => false
    | Some d =>
      String.eqb (et_name d) type_name && (Z.of_nat variant <=? u32_max)
      && match find_variant 0 (et_variants d) variant_name with
         | Some (n, _) => (n =? variant)%nat
         | None => false
         end
    end
  | OptionId => String.eqb type_name "Option" && String.eqb variant_name (match variant with O => "None" | _ => "Some" end)
  | ResultId => String.eqb type_name "Result" && String.eqb variant_name (match variant with O => "Ok" | _ => "Err" end)
  end.

(** Of the widths of the source, without handles, and named. *)
Fixpoint json_ready (v : Value) : bool :=
  let fields (fs : list (string * Value)) :=
    distinct_names (map fst fs) && forallb (λ f : string * Value, json_ready f.2) fs in
  match v with
  | VUnit | VBool _ | VString _ => true
  | VBytes bs => forallb is_byte bs
  | VInt z => (i64_min <=? z) && (z <=? i64_max)
  | VFloat bits => in_unsigned u64_max bits && (canonical_float_bits bits =? bits)
  | VList l | VTuple l => forallb json_ready l
  | VMap m => forallb (λ e : Value * Value, is_map_key e.1 && json_ready e.1 && json_ready e.2) m
  | VRecord fs => fields fs
  | VEnum i tn n vn p =>
    enum_named i tn n vn
    && match p with PUnit => true | PTuple l => forallb json_ready l | PRecord fs => fields fs end
  | VNewtype _ v => json_ready v
  | _ => false
  end.
End Ready.

(** ** Floats *)

Lemma land_exponent bits : 0 <= bits <= u64_max →
  Z.land bits EXPONENT_MASK = 2 ^ 52 * ((bits / 2 ^ 52) mod 2 ^ 11).
Proof.
  intros Hb. assert (bits = Z.lor (Z.shiftl (bits / 2 ^ 52) 52) (Z.land bits (Z.ones 52))) as Hsplit.
  { rewrite <- Z.shiftr_div_pow2 by lia. apply Z.bits_inj'. intros n Hn.
    rewrite Z.lor_spec, Z.land_spec. destruct (Z.ltb_spec n 52).
    - rewrite Z.shiftl_spec_low, Z.ones_spec_low by lia. by rewrite andb_true_r.
    - rewrite Z.shiftl_spec, Z.shiftr_spec, Z.ones_spec_high by lia. rewrite andb_false_r, orb_false_r.
      f_equal. lia. }
  rewrite Hsplit at 1. rewrite Z.land_lor_distr_l, <- Z.land_assoc.
  change (Z.land (Z.ones 52) EXPONENT_MASK) with 0. rewrite Z.land_0_r, Z.lor_0_r.
  change EXPONENT_MASK with (Z.shiftl (Z.ones 11) 52). rewrite <- Z.shiftl_land, Z.land_ones by lia.
  rewrite Z.shiftl_mul_pow2 by lia. lia.
Qed.

Lemma infinite_bits bits :
  0 <= bits <= u64_max → is_finite_bits bits = false → is_nan_bits bits = false →
  bits = if Z.testbit bits 63 then 0xFFF0000000000000 else 0x7FF0000000000000.
Proof.
  intros Hb Hf Hn. unfold is_finite_bits in Hf. apply negb_false_iff in Hf. unfold is_nan_bits in Hn.
  rewrite Hf in Hn. simpl in Hn. apply negb_false_iff, Z.eqb_eq in Hn. apply Z.eqb_eq in Hf.
  change FRACTION_MASK with (Z.ones 52) in Hn. rewrite Z.land_ones in Hn by lia.
  rewrite land_exponent in Hf by done. change EXPONENT_MASK with (2 ^ 52 * 2047) in Hf.
  assert ((bits / 2 ^ 52) mod 2 ^ 11 = 2047) as Hq by lia.
  pose proof (Z.div_mod bits (2 ^ 52) ltac:(done)) as Hdm. rewrite Hn in Hdm.
  assert (0 <= bits / 2 ^ 52 < 4096) as Hr.
  { unfold u64_max in Hb. split; [apply Z.div_pos; lia|]. apply Z.div_lt_upper_bound; lia. }
  pose proof (Z.div_mod (bits / 2 ^ 52) (2 ^ 11) ltac:(done)) as Hdm2. rewrite Hq in Hdm2.
  assert (bits / 2 ^ 52 / 2 ^ 11 = 0 ∨ bits / 2 ^ 52 / 2 ^ 11 = 1) as [Hz|Hz].
  { pose proof (Z.div_pos (bits / 2 ^ 52) (2 ^ 11)). pose proof (Z.div_lt_upper_bound (bits / 2 ^ 52) (2 ^ 11) 2). lia. }
  - rewrite Hz in Hdm2. rewrite Hdm2 in Hdm. rewrite Hdm. reflexivity.
  - rewrite Hz in Hdm2. rewrite Hdm2 in Hdm. rewrite Hdm. reflexivity.
Qed.

Lemma finite_not_nan bits : is_finite_bits bits = true → is_nan_bits bits = false.
Proof. unfold is_finite_bits, is_nan_bits. rewrite negb_true_iff. by intros ->. Qed.

(** ** Objects *)

Lemma member_get {A} (m : list (string * A)) name : member m name = btree_get name m.
Proof.
  induction m as [|[k v] m IH]; simpl; [done|]. rewrite IH, (String.eqb_sym k name). done.
Qed.

Lemma member_map {A B} (f : A → B) (m : list (string * A)) name :
  member (map (λ e : string * A, (e.1, f e.2)) m) name = option_map f (member m name).
Proof. induction m as [|[k v] m IH]; simpl; [done|]. by destruct (String.eqb k name). Qed.

Lemma btree_insert_length {A} k (v : A) m :
  btree_sorted m → btree_get k m = None → length (btree_insert k v m) = S (length m).
Proof.
  unfold btree_sorted. induction m as [|[k' v'] m IH]; intros Hs Hk; [done|].
  cbn [btree_get] in Hk. destruct (String.eqb_spec k k') as [|Hne]; [done|]. cbn [btree_insert map fst] in *.
  destruct (str_compare k k') eqn:E; [by apply str_compare_Eq in E| done|]. cbn [length]. rewrite IH; [done| |done].
  by inversion Hs.
Qed.

(** ** There and back *)

Section Lossless.
Context `{Base64} (module : Module_).
#[local] Abbreviation enums := (enum_types module).
#[local] Abbreviation to_json := (value_to_json enums).
#[local] Abbreviation from_json j := (project enums (from_serde j)).

(** The value has a JSON form at the type, which reads back as the value. *)
Definition lossless_at (v : Value) (t : ValueType) : Prop :=
  ∃ j, to_json v t = Ok j ∧ from_json j t = Ok v.
Definition lossless (v : Value) : Prop := ∀ t,
  well_typed module v t = true → json_ready enums v = true → lossless_at v t.

Lemma from_json_newtype j name u :
  project enums j (TNewtype name u) = let? v := project enums j u in Ok (VNewtype name v).
Proof using Type. by destruct j. Qed.

Lemma each_lossless l t :
  Forall lossless l → forallb (λ v, well_typed module v t) l = true → forallb (json_ready enums) l = true →
  ∃ js, json_each (map to_json l) t = Ok js
    ∧ project_each (map (project enums) (map from_serde js)) t = Ok l.
Proof using Type.
  induction 1 as [|v l Hv _ IH]; [by exists []|]. cbn [forallb]. rewrite !andb_true_iff. intros [Ht Hts] [Hr Hrs].
  destruct (Hv t Ht Hr) as (j & Hj & Hp), (IH Hts Hrs) as (js & Hjs & Hps). exists (j :: js).
  cbn [map json_each project_each]. by rewrite Hj, Hjs, Hp, Hps.
Qed.

Lemma zip_lossless l ts :
  Forall lossless l → all2 (well_typed module) l ts = true → forallb (json_ready enums) l = true →
  ∃ js, json_zip (map to_json l) ts = Ok js ∧ length js = length ts
    ∧ project_zip (map (project enums) (map from_serde js)) ts = Ok l.
Proof using Type.
  intros Hl. revert ts. induction Hl as [|v l Hv _ IH]; intros [|t ts] Ht Hr; try done; [by exists []|].
  cbn [all2 forallb] in *. apply andb_true_iff in Ht as [Ht Hts], Hr as [Hr Hrs].
  destruct (Hv t Ht Hr) as (j & Hj & Hp), (IH ts Hts Hrs) as (js & Hjs & Hlen & Hps). exists (j :: js).
  cbn [map json_zip project_zip length]. by rewrite Hj, Hjs, Hp, Hps, Hlen.
Qed.

(** *** Records *)

Definition typed_fields (fs : list (string * Value)) (gs : list (string * ValueType)) : bool :=
  all2 (λ (f : string * Value) (g : string * ValueType), String.eqb f.1 g.1 && well_typed module f.2 g.2) fs gs.

Lemma typed_fields_names fs gs : typed_fields fs gs = true → map fst fs = map fst gs.
Proof using Type.
  revert gs. induction fs as [|f fs IH]; intros [|g gs]; try done. cbn. rewrite !andb_true_iff, String.eqb_eq.
  intros [[-> _] Hfs]. f_equal. by apply IH.
Qed.

(** The object holds, for every field, a JSON form that reads back. *)
Definition holds (object : list (string * Json)) (f : string * Value) (g : string * ValueType) : Prop :=
  ∃ j, btree_get g.1 object = Some j ∧ from_json j g.2 = Ok f.2 ∧ f.1 = g.1.

Lemma json_fields_lossless fs gs object :
  Forall (λ f : string * Value, lossless f.2) fs → typed_fields fs gs = true →
  forallb (λ f : string * Value, json_ready enums f.2) fs = true →
  NoDup (map fst gs) → (∀ g, g ∈ gs → btree_get g.1 object = None) → btree_sorted object →
  ∃ object', json_fields object gs (map (λ f : string * Value, (f.1, to_json f.2)) fs) = Ok object'
    ∧ length object' = (length object + length gs)%nat
    ∧ (∀ name, name ∉ map fst gs → btree_get name object' = btree_get name object)
    ∧ Forall2 (holds object') fs gs.
Proof using Type.
  intros Hfs. revert gs object. induction Hfs as [|[n v] fs Hv _ IH]; intros [|[m t] gs] object Ht Hr Hn Hfresh Hs; try done.
  { exists object. cbn. split_and!; [done|lia|done|constructor]. }
  cbn [typed_fields all2 forallb fst snd] in *. apply andb_true_iff in Ht as [Ht Hts], Hr as [Hr Hrs].
  apply andb_true_iff in Ht as [->%String.eqb_eq Ht]. cbn [map fst] in Hn. apply NoDup_cons in Hn as [Hnin Hn].
  destruct (Hv t Ht Hr) as (j & Hj & Hp). cbn [map json_fields fst snd]. rewrite String.eqb_refl, Hj. cbn [negb].
  destruct (IH gs (btree_insert m j object) Hts Hrs Hn) as (object' & Ho & Hl & Hkeep & Hall).
  { intros g Hg. rewrite btree_get_insert by done. destruct (String.eqb_spec g.1 m) as [<-|_].
    - destruct Hnin. by apply list_elem_of_fmap_2.
    - apply Hfresh. by right. }
  { by apply btree_insert_sorted. }
  exists object'. split_and!; [done| | |].
  - rewrite Hl, btree_insert_length; [cbn [length]; lia|done|]. apply (Hfresh (m, t)). by left.
  - intros name Hname. rewrite Hkeep by set_solver. rewrite btree_get_insert by done.
    destruct (String.eqb_spec name m) as [->|]; [|done]. destruct Hname. by left.
  - constructor; [|done]. exists j. split_and!; [|done|done]. cbn [fst]. rewrite Hkeep by done.
    rewrite btree_get_insert by done. by rewrite String.eqb_refl.
Qed.

Lemma holds_projects (object : list (string * Json)) fs gs :
  Forall2 (holds object) fs gs →
  let members := map (λ f : string * Json, (f.1, project enums (from_serde f.2))) object in
  forallb (λ g : string * ValueType, match member members g.1 with Some _ => true | None => false end) gs = true
  ∧ project_fields members gs = Ok fs.
Proof using Type.
  intros Hh members. induction Hh as [|[n v] [m t] fs gs (j & Hj & Hp & Hn) _ [IH1 IH2]]; [done|].
  cbn [fst snd] in *. subst. cbn [forallb project_fields fst].
  assert (member members m = Some (project enums (from_serde j))) as ->.
  { unfold members. rewrite (member_map (λ j, project enums (from_serde j))), member_get, Hj. done. }
  by rewrite IH1, Hp, IH2.
Qed.

Lemma record_lossless fs gs :
  Forall (λ f : string * Value, lossless f.2) fs → typed_fields fs gs = true →
  distinct_names (map fst fs) && forallb (λ f : string * Value, json_ready enums f.2) fs = true →
  ∃ j, json_record gs (map (λ f : string * Value, (f.1, to_json f.2)) fs) = Ok j
    ∧ from_json j (TRecord gs) = Ok (VRecord fs).
Proof using Type.
  intros Hfs Ht [Hn%distinct_names_NoDup Hr]%andb_true_iff. pose proof (typed_fields_names _ _ Ht) as Hnames.
  destruct (json_fields_lossless fs gs [] Hfs Ht Hr) as (object & Ho & Hl & _ & Hh);
    [by rewrite <- Hnames|done|constructor|].
  exists (JObject object). unfold json_record, same_length. rewrite length_map, Ho.
  assert (length gs = length fs) as Hlen by (by rewrite <- (length_map fst gs), <- Hnames, length_map).
  rewrite Hlen, Nat.eqb_refl. split; [done|].
  destruct (holds_projects object fs gs Hh) as [Hall Hp]. cbn [from_serde project through_newtypes].
  unfold project_record, same_length. rewrite map_map. cbn [fst snd] in *.
  rewrite length_map, Hl, Nat.add_0_l, Nat.eqb_refl, Hall, Hp. done.
Qed.

(** *** Maps *)

Lemma runtime_keys_agree t v w :
  key_of_type t v = true → key_of_type t w = true →
  runtime_compare_map_keys v w = Some (compare_map_keys v w).
Proof using Type.
  revert v w. induction t; intros v w Hv Hw; destruct v; try done; destruct w; try done; simpl in *.
  apply andb_true_iff in Hv as [->%String.eqb_eq Hv], Hw as [->%String.eqb_eq Hw].
  rewrite String.eqb_refl, str_compare_refl. simpl. auto.
Qed.

Lemma typed_key t v : well_typed module v t = true → is_map_key v = true → key_of_type t v = true.
Proof using Type.
  revert t. induction v; intros t; destruct t; try done. cbn. rewrite !andb_true_iff. naive_solver.
Qed.

Lemma entries_lossless k t m last :
  Forall (λ e : Value * Value, lossless e.1 ∧ lossless e.2) m →
  forallb (λ e : Value * Value, well_typed module e.1 k && well_typed module e.2 t) m = true →
  forallb (λ e : Value * Value, is_map_key e.1 && json_ready enums e.1 && json_ready enums e.2) m = true →
  unsorted_entries m = false →
  match last, m with
  | Some p, e :: _ => key_of_type k p = true ∧ is_lt (compare_map_keys p e.1) = true
  | _, _ => True
  end →
  ∃ js, json_entries k t last (map (λ e : Value * Value, (e.1, to_json e.1, to_json e.2)) m) = Ok js
    ∧ project_entries k t last
        (map (λ pair, match pair with JvArray [k; v] => Some (project enums k, project enums v) | _ => None end)
           (map from_serde js)) = Ok m.
Proof using Type.
  intros Hm. revert last. induction Hm as [|[key v] m [Hk Hv] _ IH]; intros last Ht Hr Hs Hlast; [by exists []|].
  cbn [forallb fst snd] in *. apply andb_true_iff in Ht as [[Htk Htv]%andb_true_iff Ht].
  apply andb_true_iff in Hr as [[[Hkey Hrk]%andb_true_iff Hrv]%andb_true_iff Hr].
  pose proof (typed_key _ _ Htk Hkey) as Hkt.
  destruct (Hk k Htk Hrk) as (jk & Hjk & Hpk), (Hv t Htv Hrv) as (jv & Hjv & Hpv).
  assert (unsorted_entries m = false ∧ match m with e :: _ => is_lt (compare_map_keys key e.1) = true | [] => True end)
    as [Hs' Hnext].
  { destruct m as [|e m]; [done|]. unfold unsorted_entries in Hs.
    change (negb (is_lt (compare_map_keys key e.1))
      || windows2_any (λ p q, negb (is_lt (compare_map_keys p.1 q.1))) (e :: m) = false) in Hs.
    apply orb_false_iff in Hs as [?%negb_false_iff ?]. done. }
  destruct (IH (Some key) Ht Hr Hs') as (js & Hjs & Hps); [by destruct m|].
  exists (JArray [jk; jv] :: js). cbn [map json_entries fst snd]. rewrite Hjk, Hjv, Hjs.
  cbn [from_serde map project_entries]. rewrite Hpk, Hpv, Hps.
  destruct last as [p|]; [|done]. destruct Hlast as [Hp Hlt].
  rewrite (runtime_keys_agree k) by done. rewrite Hlt. by destruct (compare_map_keys p key).
Qed.

(** *** Enums *)

Definition json_parts (p : EnumPayload Value) : EnumPayload ToJson :=
  match p with
  | PUnit => PUnit
  | PTuple l => PTuple (map to_json l)
  | PRecord fs => PRecord (map (λ f : string * Value, (f.1, to_json f.2)) fs)
  end.
Definition ready_payload (p : EnumPayload Value) : bool :=
  match p with
  | PUnit => true
  | PTuple l => forallb (json_ready enums) l
  | PRecord fs => distinct_names (map fst fs) && forallb (λ f : string * Value, json_ready enums f.2) fs
  end.

Lemma to_json_enum i tn n vn p t :
  to_json (VEnum i tn n vn p) t
  = match t with
    | TEnum id => user_enum_to_json enums id n (json_parts p)
    | TOption item => option_to_json item i n (json_parts p)
    | TResult ok error =>
      result_to_json ok error i n (json_parts p) (match p with PTuple (VUnit :: _) => true | _ => false end)
    | _ => Err no_schema
    end.
Proof using Type. by destruct p. Qed.

Definition member_of (j : JsonValue) : Member :=
  {| mb_text := match j with JvString s => Some s | _ => None end;
     mb_project := project enums j;
     mb_items := match j with JvArray l => Some (map (project enums) l) | _ => None end |}.
Definition members_of (m : list (string * Json)) : list (string * Member) :=
  map (λ f : string * Json, (f.1, member_of (from_serde f.2))) m.

Lemma from_json_tagged m t :
  from_json (JObject m) t
  = match t with
    | TOption item => project_builtin_tag (members_of m) item
    | TResult ok error => project_result_tag (members_of m) ok error
    | TEnum id => project_user_enum enums (members_of m) id
    | _ => from_json (JObject m) t
    end.
Proof using Type.
  destruct t; try done; cbn [from_serde project through_newtypes]; by rewrite map_map.
Qed.

Lemma tag_of_members s m : tag_of (members_of (("tag", JString s) :: m)) = Ok s.
Proof using Type. done. Qed.

Lemma value_of_members t j : member (members_of [("tag", t); ("value", j)]) "value" = Some (member_of (from_serde j)).
Proof using Type. done. Qed.

Lemma option_lossless e tn n vn p :
  payload_forall lossless p → enum_named enums OptionId tn n vn = true → ready_payload p = true →
  well_typed module (VEnum OptionId tn n vn p) (TOption e) = true →
  lossless_at (VEnum OptionId tn n vn p) (TOption e).
Proof using Type.
  intros Hp [->%String.eqb_eq ->%String.eqb_eq]%andb_true_iff Hr Ht. cbn in Ht.
  destruct n as [|[|]], p as [|l|fs]; try done.
  - by exists (JObject [("tag", JString "None")]).
  - destruct l as [|v [|]]; try done. cbn in Hp, Hr. apply Forall_cons in Hp as [Hv _].
    apply andb_true_iff in Hr as [Hr _]. destruct (Hv e Ht Hr) as (j & Hj & Hb).
    exists (JObject [("tag", JString "Some"); ("value", j)]). split.
    + rewrite to_json_enum. unfold option_to_json. cbn [json_parts map single_payload]. by rewrite Hj.
    + rewrite from_json_tagged. unfold project_builtin_tag. rewrite tag_of_members, value_of_members.
      cbn [String.eqb Ascii.eqb Bool.eqb andb members_of map length Nat.eqb ok_or member_of mb_project].
      by rewrite Hb.
Qed.

Lemma result_lossless o e tn n vn p :
  payload_forall lossless p → enum_named enums ResultId tn n vn = true → ready_payload p = true →
  well_typed module (VEnum ResultId tn n vn p) (TResult o e) = true →
  lossless_at (VEnum ResultId tn n vn p) (TResult o e).
Proof using Type.
  intros Hp [->%String.eqb_eq ->%String.eqb_eq]%andb_true_iff Hr Ht. cbn in Ht.
  assert (∃ v, p = PTuple [v]) as [v ->].
  { destruct n as [|[|]], p as [|[|v [|]]|]; try done; by exists v. }
  cbn in Hp, Hr. apply Forall_cons in Hp as [Hv _]. apply andb_true_iff in Hr as [Hr _].
  assert (n = 0%nat ∨ n = 1%nat) as Hn by (destruct n as [|[|]]; [by left|by right|done]).
  set (t := match n with O => o | S _ => e end).
  assert (well_typed module v t = true) as Htv by (by destruct Hn; subst).
  destruct (decide (t = TUnit)) as [Hu|Hu].
  - rewrite Hu in Htv. destruct v; try done. exists (JObject [("tag", JString (match n with O => "Ok" | S _ => "Err" end))]).
    unfold t in Hu. destruct Hn; subst n; subst; done.
  - destruct (Hv t Htv Hr) as (j & Hj & Hb).
    exists (JObject [("tag", JString (match n with O => "Ok" | S _ => "Err" end)); ("value", j)]).
    assert (ValueType_eqb t TUnit = false) as Hne.
    { apply not_true_iff_false. rewrite ValueType_eqb_eq. done. }
    split.
    + rewrite to_json_enum. unfold result_to_json. cbn [json_parts map single_payload].
      fold t. rewrite Hj. by destruct Hn; subst n; destruct t.
    + rewrite from_json_tagged. unfold project_result_tag. rewrite tag_of_members, value_of_members.
      cbn [ok_or member_of mb_project members_of map length Nat.eqb].
      unfold t in *. by destruct Hn; subst n; cbn [String.eqb Ascii.eqb Bool.eqb fst snd]; rewrite Hne, Hb.
Qed.

Lemma user_enum_lossless id tn n vn p :
  payload_forall lossless p → enum_named enums (User id) tn n vn = true → ready_payload p = true →
  well_typed module (VEnum (User id) tn n vn p) (TEnum id) = true →
  lossless_at (VEnum (User id) tn n vn p) (TEnum id).
Proof using Type.
  intros Hp Hn Hr Ht. cbn [enum_named] in Hn. destruct (enums !! id) as [d|] eqn:Hd; [|done].
  apply andb_true_iff in Hn as [[<-%String.eqb_eq Hw]%andb_true_iff Hf].
  destruct (find_variant 0 (et_variants d) vn) as [[n' v]|] eqn:Hv; [|done]. apply Nat.eqb_eq in Hf as ->.
  pose proof Hv as (_ & Hlookup & Hname)%find_variant_lookup. rewrite Nat.sub_0_r in Hlookup.
  assert (variant_payload module id n = Ok (ev_payload v)) as Hpayload.
  { unfold variant_payload. rewrite Hd. cbn [ok_or]. by rewrite Hlookup. }
  cbn [well_typed] in Ht. rewrite Hpayload, bool_decide_eq_true_2 in Ht by done. cbn [andb] in Ht.
  assert ((u32_max <? Z.of_nat n) = false) as Hwidth by lia.
  assert (∀ j m, user_enum_to_json enums id n (json_parts p) = Ok (JObject (("tag", JString (ev_name v)) :: m)) →
    j = JObject (("tag", JString (ev_name v)) :: m) →
    from_json j (TEnum id) = Ok (VEnum (User id) (et_name d) n vn p) →
    lossless_at (VEnum (User id) (et_name d) n vn p) (TEnum id)) as Hgo.
  { intros j m Hto -> Hfrom. eexists. split; [rewrite to_json_enum; exact Hto|exact Hfrom]. }
  unfold user_enum_to_json in Hgo. rewrite Hd in Hgo. cbn [mbind option_bind] in Hgo. rewrite Hlookup in Hgo.
  cbn [ok_or btree_insert] in Hgo. rewrite Hname in Hgo.
  destruct (ev_payload v) as [|ts|gs] eqn:Hpv, p as [|l|fs]; try done; cbn [json_parts] in Hgo.
  - eapply Hgo; [done|done|]. rewrite from_json_tagged. unfold project_user_enum.
    rewrite Hd, tag_of_members. cbn [ok_or]. rewrite Hv. cbn [ok_or snd fst]. rewrite Hpv.
    cbn [members_of map length Nat.eqb]. by rewrite Hwidth.
  - cbn [payload_forall ready_payload] in Hp, Hr. destruct (zip_lossless l ts Hp Ht Hr) as (js & Hjs & Hlen & Hback).
    pose proof (all2_same_length _ _ _ Ht) as Hl. unfold same_length in *. apply Nat.eqb_eq in Hl.
    rewrite length_map, <- Hl, Nat.eqb_refl, Hjs in Hgo.
    eapply Hgo; [done|done|]. rewrite from_json_tagged. unfold project_user_enum.
    rewrite Hd, tag_of_members. cbn [ok_or]. rewrite Hv, value_of_members. cbn [ok_or snd fst]. rewrite Hpv.
    cbn [members_of map length Nat.eqb member_of mb_items from_serde ok_or]. unfold same_length.
    rewrite !length_map, Hlen, Nat.eqb_refl. cbn [negb]. by rewrite Hback, Hwidth.
  - cbn [payload_forall ready_payload] in Hp, Hr. destruct (record_lossless fs gs Hp Ht Hr) as (j & Hj & Hback).
    rewrite Hj in Hgo. eapply Hgo; [done|done|]. rewrite from_json_tagged. unfold project_user_enum.
    rewrite Hd, tag_of_members. cbn [ok_or]. rewrite Hv, value_of_members. cbn [ok_or snd fst]. rewrite Hpv.
    cbn [members_of map length Nat.eqb member_of mb_project]. by rewrite Hback, Hwidth.
Qed.

(** *** Values *)

Hypothesis Hbase64 : ∀ bs, forallb is_byte bs = true → base64_decode (base64_encode bs) = Some bs.

Lemma float_lossless bits :
  in_unsigned u64_max bits && (canonical_float_bits bits =? bits) = true →
  from_json (float_to_json bits) TFloat = Ok (VFloat bits).
Proof using Type.
  rewrite andb_true_iff, in_unsigned_spec, Z.eqb_eq. intros [Hb Hc]. unfold float_to_json.
  destruct (is_finite_bits bits) eqn:Hf; [cbn; by rewrite Hc|].
  destruct (is_nan_bits bits) eqn:Hn.
  - unfold canonical_float_bits in Hc. rewrite Hn in Hc. by subst.
  - pose proof (infinite_bits bits Hb Hf Hn) as Hi. destruct (Z.testbit bits 63); by rewrite Hi.
Qed.

Lemma leaf_lossless v : leaf_value v = true → lossless v.
Proof using Hbase64.
  intros Hv t Ht Hr. destruct v; try done; destruct t; try done; cbn [json_ready] in Hr.
  - eexists. split; [done|]. cbn. unfold int_number. destruct (Z.leb_spec 0 value); [|done]. cbn.
    apply andb_true_iff in Hr as [_ ->]. done.
  - by eexists.
  - eexists. split; [done|]. by apply float_lossless.
  - by eexists.
  - eexists. split; [done|]. cbn. by rewrite Hbase64, String.eqb_refl by done.
  - by eexists.
Qed.

Lemma value_lossless v : lossless v.
Proof using Hbase64.
  induction v as [v Hv|l IH|m IH|l IH|fs IH|i tn n vn p IH|i v IH|v IH|f l IH|f IH] using Value_ind';
    try (by intros t Ht Hr).
  - by apply leaf_lossless.
  - intros t Ht Hr. destruct t; try done. destruct (each_lossless l t IH Ht Hr) as (js & Hjs & Hb).
    exists (JArray js). cbn [value_to_json from_serde project through_newtypes]. by rewrite Hjs, Hb.
  - intros t Ht Hr. destruct t; try done. cbn [well_typed] in Ht. apply andb_true_iff in Ht as [Hs%negb_true_iff Ht].
    destruct (entries_lossless _ _ m None IH Ht Hr Hs I) as (js & Hjs & Hb).
    exists (JArray js). cbn [value_to_json from_serde project through_newtypes]. by rewrite Hjs, Hb.
  - intros t Ht Hr. destruct t as [| | | | | | | | | |ts| | | | | | | | | | | | |]; try done.
    destruct (zip_lossless l ts IH Ht Hr) as (js & Hjs & Hlen & Hb).
    pose proof (all2_same_length _ _ _ Ht) as Hl. unfold same_length in Hl. apply Nat.eqb_eq in Hl.
    exists (JArray js). cbn [value_to_json from_serde project through_newtypes]. unfold same_length.
    rewrite length_map, Hlen, Nat.eqb_refl, Hl, Nat.eqb_refl. by rewrite Hjs, Hb.
  - intros t Ht Hr. destruct t as [| | | | | | | | | | |gs| | | | | | | | | | | |]; try done.
    exact (record_lossless fs gs IH Ht Hr).
  - intros t Ht Hr. cbn [json_ready] in Hr. apply andb_true_iff in Hr as [Hn Hr].
    destruct t; try done; pose proof Ht as Hi; cbn [well_typed] in Hi;
      apply andb_true_iff in Hi as [->%bool_decide_eq_true _].
    + by apply user_enum_lossless.
    + by apply option_lossless.
    + by apply result_lossless.
  - intros t Ht Hr. destruct t; try done. cbn [well_typed] in Ht.
    apply andb_true_iff in Ht as [->%String.eqb_eq Ht]. destruct (IH _ Ht Hr) as (j & Hj & Hb).
    exists j. cbn [value_to_json]. rewrite String.eqb_refl, from_json_newtype, Hb. done.
Qed.
End Lossless.

(** C13. JSON at the entry is lossless: every well-typed value without handles, of the
    widths of the source, with the names its enum types declare, has a JSON form, and
    reading that form at the same type gives the value back. *)
Theorem entry_json_lossless `{Base64} (module : Module_) (v : Value) (t : ValueType)
  (Hbase64 : ∀ bs, forallb is_byte bs = true → base64_decode (base64_encode bs) = Some bs)
  (Htyped : well_typed module v t = true) (Hready : json_ready (enum_types module) v = true) :
  ∃ j, value_to_json (enum_types module) v t = Ok j ∧ json_to_value (enum_types module) j t = Ok v.
Proof.
  destruct (value_lossless module Hbase64 v t Htyped Hready) as (j & Hj & Hb). exists j. split; [done|].
  unfold json_to_value, project_json_value. by rewrite Hb.
Qed.

(** ** A value with every kind of part *)

(** Bytes as text of the same bytes: a code that decodes what it encodes. *)
Definition plain_base64 : Base64 :=
  {| base64_encode := string_of_bytes; base64_decode := λ s, Some (bytes s) |}.

Definition entry_module : Module_ :=
  {| constants := []; effect_sets := []; functions := []; async_functions := []; entry := 0%nat;
     enum_types := [{| et_name := "Shape"; et_variants :=
       [{| ev_name := "Dot"; ev_payload := PTUnit |};
        {| ev_name := "Box"; ev_payload := PTRecord [("w", TInt); ("h", TInt)] |};
        {| ev_name := "Path"; ev_payload := PTTuple [TFloat; TFloat] |}] |}] |}.
Definition entry_type : ValueType :=
  TRecord [("shapes", TList (TEnum 0)); ("names", TMap (TNewtype "app::Id" TInt) TString);
           ("raw", TBytes); ("limit", TOption TInt); ("state", TResult TUnit TString)].
Definition entry_value : Value :=
  VRecord [("shapes", VList [VEnum (User 0) "Shape" 0 "Dot" PUnit;
                             VEnum (User 0) "Shape" 1 "Box" (PRecord [("w", VInt 3); ("h", VInt (-4))]);
                             VEnum (User 0) "Shape" 2 "Path" (PTuple [VFloat 0; VFloat 0xFFF0000000000000])]);
           ("names", VMap [(VNewtype "app::Id" (VInt 1), VString "a"); (VNewtype "app::Id" (VInt 2), VString "b")]);
           ("raw", VBytes [0; 255]);
           ("limit", VEnum OptionId "Option" 1 "Some" (PTuple [VInt 9]));
           ("state", VEnum ResultId "Result" 0 "Ok" (PTuple [VUnit]))].

Lemma entry_json_lossless_witness : ∃ j,
  value_to_json (H := plain_base64) (enum_types entry_module) entry_value entry_type = Ok j
  ∧ json_to_value (H := plain_base64) (enum_types entry_module) j entry_type = Ok entry_value.
Proof.
  apply (@entry_json_lossless plain_base64 entry_module entry_value entry_type); [|reflexivity..].
  intros bs Hbs. simpl. f_equal. apply bytes_string_of_bytes.
  rewrite forallb_forall in Hbs. apply Forall_forall. intros b Hb. apply Hbs. by apply list_elem_of_In.
Defined.
