(* ===== verification/RuntimeInvariants.v ===== *)
(** * Entry invariants ([crates/allen-runtime/src/lib.rs])

    The runtime checks the record invariants of an entry on its input and its output:
    every validator site leads to records of the value, on which the predicate of the
    invariant is evaluated.  The evaluator agrees with the comparison of the machine on
    the predicates it covers; it does not cover comparisons of composed expressions and
    orders of NaN, which end in a panic code although the artifact was accepted. *)

From S2P Require Import Prelude Text Bytecode VmBudget VmValue VmSound ArtifactModel.
From S2P Require Import ArtifactChecks VmJson RuntimeJson.
Import Code.
Open Scope string_scope.
Open Scope Z_scope.

(** ** Paths *)

Definition collect_enum_payload_value (payload : EnumPayload Value) (element : nat) : option (list Value) :=
  match payload with
  | PTuple values => v ← values !! element; Some [v]
  | PRecord values => f ← values !! element; Some [f.2]
  | PUnit => None
  end.

(** What a segment adds to the output. *)
Definition collect_validator_path_values (value : Value) (segment : EntryValidatorPathSegment)
    : option (list Value) :=
  match segment, value with
  | SegField index, VRecord fields => f ← fields !! index; Some [f.2]
  | SegListElement, VList values => Some values
  | SegTupleElement index, VTuple values => v ← values !! index; Some [v]
  | SegMapKey, VMap entries => Some (map fst entries)
  | SegMapValue, VMap entries => Some (map snd entries)
  | SegOptionSome, VEnum OptionId _ variant _ payload =>
    if (variant =? 1)%nat then collect_enum_payload_value payload 0 else Some []
  | SegResultOk, VEnum ResultId _ variant _ payload =>
    if (variant =? 0)%nat then collect_enum_payload_value payload 0 else Some []
  | SegResultError, VEnum ResultId _ variant _ payload =>
    if (variant =? 1)%nat then collect_enum_payload_value payload 0 else Some []
  | SegEnumPayload wanted element, VEnum (User _) _ variant _ payload =>
    if (variant =? wanted)%nat then collect_enum_payload_value payload element else Some []
  | SegNewtypeValue, VNewtype _ value => Some [value]
  | _, _ => None
  end.

Fixpoint collect_values (values : list Value) (segment : EntryValidatorPathSegment) : option (list Value) :=
  match values with
  | [] => Some []
  | value :: values =>
    found ← collect_validator_path_values value segment;
    rest ← collect_values values segment; Some (found ++ rest)%list
  end.
Fixpoint follow_path (values : list Value) (path : list EntryValidatorPathSegment) : option (list Value) :=
  match path with
  | [] => Some values
  | segment :: path => values ← collect_values values segment; follow_path values path
  end.

(** ** Predicates *)

Inductive ValidatorValue := ValidatorBool (value : bool) | ValidatorField (value : Value).

Definition validator_value (expression : ValidatorExpr) (fields : list (string * Value)) : option ValidatorValue :=
  match expression with
  | VBool_ value => Some (ValidatorBool value)
  | VField field _ => f ← fields !! field; Some (ValidatorField f.2)
  | _ => None
  end.

Definition validator_bool_value (value : ValidatorValue) : option bool :=
  match value with
  | ValidatorBool b | ValidatorField (VBool b) => Some b
  | ValidatorField _ => None
  end.

Fixpoint validator_field_equal (left right : Value) : bool :=
  match left, right with
  | VBool l, VBool r => Bool.eqb l r
  | VInt l, VInt r => l =? r
  | VFloat l, VFloat r => f64_eqb l r
  | VString l, VString r => String.eqb l r
  | VBytes l, VBytes r => bytes_eqb l r
  | VNewtype i l, VNewtype j r => String.eqb i j && validator_field_equal l r
  | _, _ => false
  end.
Definition validator_equal (left right : ValidatorValue) : bool :=
  match validator_bool_value left, validator_bool_value right with
  | Some l, Some r => Bool.eqb l r
  | _, _ =>
    match left, right with
    | ValidatorField l, ValidatorField r => validator_field_equal l r
    | _, _ => false
    end
  end.

Fixpoint field_order (left right : Value) : option comparison :=
  match left, right with
  | VInt l, VInt r => Some (l ?= r)
  | VFloat l, VFloat r => f64_partial_cmp l r
  | VString l, VString r => Some (str_compare l r)
  | VBytes l, VBytes r => Some (bytes_compare l r)
  | VNewtype i l, VNewtype j r => if String.eqb i j then field_order l r else None
  | _, _ => None
  end.
Definition validator_order (left right : ValidatorValue) : option comparison :=
  match left, right with
  | ValidatorField l, ValidatorField r => field_order l r
  | _, _ => None
  end.

Definition validator_compare (operation : CompareOp) (left right : ValidatorValue) : option bool :=
  match operation with
  | Equal => Some (validator_equal left right)
  | NotEqual => Some (negb (validator_equal left right))
  | Less => o ← validator_order left right; Some (is_lt o)
  | LessEqual => o ← validator_order left right; Some (negb (is_gt o))
  | Greater => o ← validator_order left right; Some (is_gt o)
  | GreaterEqual => o ← validator_order left right; Some (negb (is_lt o))
  end.

Fixpoint evaluate_validator_bool (expression : ValidatorExpr) (fields : list (string * Value)) : option bool :=
  match expression with
  | VBool_ value => Some value
  | VField field _ =>
    f ← fields !! field;
    match f.2 with
    | VBool b | VNewtype _ (VBool b) => Some b
    | _ => None
    end
  | VNot value => b ← evaluate_validator_bool value fields; Some (negb b)
  | VBoolBinary And l r =>
    a ← evaluate_validator_bool l fields;
    if a : bool then evaluate_validator_bool r fields else Some false
  | VBoolBinary Or l r =>
    a ← evaluate_validator_bool l fields;
    if a : bool then Some true else evaluate_validator_bool r fields
  | VCompare operation l r =>
    a ← validator_value l fields;
    b ← validator_value r fields;
    validator_compare operation a b
  end.

(** ** Sites *)

Definition invariant_message (code : RuntimeErrorCode) : string :=
  if bool_decide (code = EntryInvariantInput) then "entry input violates a record invariant"
  else "entry output violates a record invariant".

Fixpoint validate_records (predicate : ValidatorExpr) (code : RuntimeErrorCode) (values : list Value)
    : result RuntimeError unit :=
  match values with
  | [] => Ok tt
  | VRecord fields :: values =>
    let? holds := ok_or (evaluate_validator_bool predicate fields)
                    (RuntimeError_new Panic "verified entry invariant expression is invalid") in
    if negb holds then Err (RuntimeError_new code (invariant_message code))
    else validate_records predicate code values
  | _ => Err (RuntimeError_new Panic "verified entry invariant target is invalid")
  end.

Definition validate_site (root : Value) (definitions : list RecordInvariantDefinition) (code : RuntimeErrorCode)
    (site : EntryValidatorSite) : result RuntimeError unit :=
  let? definition := ok_or (definitions !! site_invariant site)
                       (RuntimeError_new Panic "verified entry invariant is missing") in
  let? values := ok_or (follow_path [root] (site_path site))
                   (RuntimeError_new Panic "verified entry invariant path is invalid") in
  validate_records (ri_predicate definition) code values.

Fixpoint validate_entry_invariants (root : Value) (sites : list EntryValidatorSite)
    (definitions : list RecordInvariantDefinition) (code : RuntimeErrorCode) : result RuntimeError unit :=
  match sites with
  | [] => Ok tt
  | site :: sites =>
    try? validate_site root definitions code site in
    validate_entry_invariants root sites definitions code
  end.
