(* ===== verification/RuntimeInvariantsCorrect.v ===== *)
(** * Entry invariants are decided

    On a value of the schema's type and an accepted artifact whose predicates compare
    fields and literals, the check of the entry invariants answers by the language's
    own comparison; the two shapes the evaluator does not cover are exhibited. *)

From S2P Require Import Prelude Text Bytecode VmBudget VmValue VmSound ArtifactModel.
From S2P Require Import ArtifactNames ArtifactGraph ArtifactChecks ArtifactSample VmJson.
From S2P Require Import RuntimeJson RuntimeInvariants.
Import Code.
Open Scope string_scope.
Open Scope Z_scope.

(** ** Paths lead to values of their types *)

Section Paths.
Variable module : Module_.
#[local] Abbreviation typed := (well_typed module).

Definition all_typed (t : ValueType) (vs : list Value) : Prop := Forall (λ v, typed v t = true) vs.

Lemma all2_at {A B} (f : A → B → bool) l r i y :
  all2 f l r = true → r !! i = Some y → ∃ x, l !! i = Some x ∧ f x y = true.
Proof using Type.
  revert r i. induction l as [|x l IH]; intros [|z r] i H Hi; try done.
  cbn in H. apply andb_true_iff in H as [Hx H]. destruct i as [|i]; [|exact (IH r i H Hi)].
  injection Hi as ->. by exists x.
Qed.

Lemma typed_tuple_at l ts i t :
  all2 typed l ts = true → ts !! i = Some t → ∃ v, l !! i = Some v ∧ typed v t = true.
Proof using Type. apply all2_at. Qed.

Lemma typed_field_at (fs : list (string * Value)) (gs : list (string * ValueType)) i t :
  all2 (λ (f : string * Value) (g : string * ValueType), String.eqb f.1 g.1 && typed f.2 g.2) fs gs = true →
  option_map snd (gs !! i) = Some t → ∃ f, fs !! i = Some f ∧ typed f.2 t = true.
Proof using Type.
  intros Hall Hi. destruct (gs !! i) as [g|] eqn:Hg; [|done]. injection Hi as <-.
  destruct (all2_at _ _ _ _ _ Hall Hg) as (f & Hf & [_ Ht]%andb_true_iff). eauto.
Qed.

Lemma payload_at id n p variant element t :
  typed (VEnum (User id) "" n "" p) (TEnum id) = true → n = variant →
  path_step (enum_types module) (SegEnumPayload variant element) (TEnum id) = Some t →
  ∃ vs, collect_enum_payload_value p element = Some vs ∧ all_typed t vs.
Proof using Type.
  intros Ht -> Hp. cbn [well_typed] in Ht. cbn [path_step] in Hp. unfold variant_payload in Ht.
  destruct (enum_types module !! id) as [d|]; [|done]. cbn [mbind option_bind] in Hp. cbn [ok_or] in Ht.
  destruct (et_variants d !! variant) as [v|]; [|done]. cbn [mbind option_bind] in Hp. cbn [ok_or] in Ht.
  apply andb_true_iff in Ht as [_ Ht]. destruct p as [|l|fs], (ev_payload v) as [|ts|gs]; try done; cbn.
  - destruct (typed_tuple_at _ _ _ _ Ht Hp) as (x & -> & Hx). eexists. split; [done|]. by constructor.
  - destruct (typed_field_at _ _ _ _ Ht Hp) as (f & -> & Hx). eexists. split; [done|]. by constructor.
Qed.

Lemma segment_typed v t segment t' :
  typed v t = true → path_step (enum_types module) segment t = Some t' →
  ∃ vs, collect_validator_path_values v segment = Some vs ∧ all_typed t' vs.
Proof using Type.
  intros Ht Hp. destruct segment as [i| | | |i| | | |variant element|], t; try done; destruct v; try done; cbn in Hp.
  - destruct (typed_field_at _ _ _ _ Ht Hp) as (f & Hf & Hx). cbn. rewrite Hf. eexists. split; [done|]. by constructor.
  - injection Hp as <-. eexists. split; [done|]. apply Forall_forall. intros x Hx. cbn in Ht.
    rewrite forallb_forall in Ht. apply Ht. by apply list_elem_of_In.
  - injection Hp as <-. eexists. split; [done|]. cbn in Ht. apply andb_true_iff in Ht as [_ Ht].
    rewrite forallb_forall in Ht. apply Forall_map, Forall_forall. intros e He. apply list_elem_of_In in He.
    specialize (Ht e He). by apply andb_true_iff in Ht as [? _].
  - injection Hp as <-. eexists. split; [done|]. cbn in Ht. apply andb_true_iff in Ht as [_ Ht].
    rewrite forallb_forall in Ht. apply Forall_map, Forall_forall. intros e He. apply list_elem_of_In in He.
    specialize (Ht e He). by apply andb_true_iff in Ht as [_ ?].
  - destruct (typed_tuple_at _ _ _ _ Ht Hp) as (x & Hl & Hx). cbn. rewrite Hl. eexists. split; [done|]. by constructor.
  - injection Hp as <-. cbn in Ht. apply andb_true_iff in Ht as [->%bool_decide_eq_true Ht]. cbn.
    destruct variant as [|[|]]; [by eexists; split; [|constructor]| |by eexists; split; [|constructor]].
    destruct payload as [|[|x [|]]|]; try done. eexists. split; [done|]. by constructor.
  - injection Hp as <-. cbn in Ht. apply andb_true_iff in Ht as [->%bool_decide_eq_true Ht]. cbn.
    destruct variant as [|[|]]; [|by eexists; split; [|constructor]..].
    destruct payload as [|[|x [|]]|]; try done. eexists. split; [done|]. by constructor.
  - injection Hp as <-. cbn in Ht. apply andb_true_iff in Ht as [->%bool_decide_eq_true Ht]. cbn.
    destruct variant as [|[|]]; [by eexists; split; [|constructor]| |by eexists; split; [|constructor]].
    destruct payload as [|[|x [|]]|]; try done. eexists. split; [done|]. by constructor.
  - pose proof Ht as Hi. cbn in Hi. apply andb_true_iff in Hi as [->%bool_decide_eq_true _].
    cbn [collect_validator_path_values]. destruct (Nat.eqb_spec variant0 variant) as [Heq|].
    + eapply payload_at; [exact Ht|exact Heq|exact Hp].
    + eexists. split; [done|constructor].
  - injection Hp as <-. eexists. split; [done|]. cbn in Ht. apply andb_true_iff in Ht as [_ Ht]. by constructor.
Qed.

Lemma path_typed path vs t t' :
  all_typed t vs → validator_path_type (enum_types module) t path = Ok t' →
  ∃ vs', follow_path vs path = Some vs' ∧ all_typed t' vs'.
Proof using Type.
  revert vs t. induction path as [|segment path IH]; intros vs t Hvs Hp; cbn in Hp.
  { injection Hp as <-. by exists vs. }
  destruct (path_step (enum_types module) segment t) as [next|] eqn:Hstep; [|done].
  assert (∃ vs', collect_values vs segment = Some vs' ∧ all_typed next vs') as (vs' & Hc & Hall).
  { induction Hvs as [|v vs Hv _ (vs' & Hc & Hall)]; [by exists []; split; [|constructor]|].
    destruct (segment_typed v t segment next Hv Hstep) as (found & Hf & Hfound).
    exists (found ++ vs')%list. cbn. rewrite Hf, Hc. split; [done|]. by apply Forall_app. }
  destruct (IH vs' next Hall Hp) as (vs'' & Hfollow & Hall'). exists vs''. cbn. by rewrite Hc.
Qed.
End Paths.

(** ** The predicate as the language evaluates it *)

Definition not_boolean : VmError := Invariant_ "predicate is not boolean".
Fixpoint language_eval (e : ValidatorExpr) (fields : list (string * Value)) : result VmError Value :=
  match e with
  | VBool_ b => Ok (VBool b)
  | VField field _ => let? f := ok_or (fields !! field) (Invariant_ "field is missing") in Ok f.2
  | VNot e =>
    let? v := language_eval e fields in
    match v with VBool b => Ok (VBool (negb b)) | _ => Err not_boolean end
  | VBoolBinary And l r =>
    let? v := language_eval l fields in
    match v with VBool true => language_eval r fields | VBool false => Ok (VBool false) | _ => Err not_boolean end
  | VBoolBinary Or l r =>
    let? v := language_eval l fields in
    match v with VBool true => Ok (VBool true) | VBool false => language_eval r fields | _ => Err not_boolean end
  | VCompare operation l r =>
    let? a := language_eval l fields in
    let? b := language_eval r fields in
    let? c := compare operation a b in Ok (VBool c)
  end.

(** Comparisons of fields and literals only. *)
Definition atom (e : ValidatorExpr) : bool :=
  match e with VBool_ _ | VField _ _ => true | _ => false end.
Fixpoint flat (e : ValidatorExpr) : bool :=
  match e with
  | VBool_ _ | VField _ _ => true
  | VNot e => flat e
  | VBoolBinary _ l r => flat l && flat r
  | VCompare _ l r => atom l && atom r
  end.

Fixpoint nan_free (v : Value) : bool :=
  match v with
  | VFloat bits => negb (is_nan_bits bits)
  | VNewtype _ v => nan_free v
  | _ => true
  end.

Section Predicates.
Variables (module : Module_) (definition : RecordInvariantDefinition) (fields : list (string * Value)).
Hypothesis Hfields : well_typed module (VRecord fields) (TRecord (ri_fields definition)) = true.
Hypothesis Hnan : forallb (λ f : string * Value, nan_free f.2) fields = true.
#[local] Abbreviation typed := (well_typed module).

Definition value_of (v : ValidatorValue) : Value :=
  match v with ValidatorBool b => VBool b | ValidatorField v => v end.

Lemma field_at i (g : string * ValueType) :
  ri_fields definition !! i = Some g →
  ∃ f, fields !! i = Some f ∧ typed f.2 g.2 = true ∧ nan_free f.2 = true.
Proof using Hfields Hnan.
  intros Hg. destruct (typed_field_at module fields (ri_fields definition) i g.2 Hfields) as (f & Hf & Ht);
    [exact (f_equal (option_map snd) Hg)|]. exists f. split_and!; [done..|]. rewrite forallb_forall in Hnan. apply (Hnan f).
  apply list_elem_of_In. by eapply list_elem_of_lookup_2.
Qed.

Lemma atom_evaluates e t n n' :
  atom e = true → validator_expr_type definition e n = Ok (t, n') →
  ∃ v, validator_value e fields = Some v ∧ language_eval e fields = Ok (value_of v)
    ∧ typed (value_of v) t = true ∧ nan_free (value_of v) = true
    ∧ match v with ValidatorBool _ => t = TBool | _ => True end.
Proof using Hfields Hnan.
  intros Ha. destruct e; try done; cbn; destruct (256 <? n + 1); try done.
  - intros [= <- <-]. by exists (ValidatorBool value).
  - destruct (ri_fields definition !! field) as [g|] eqn:Hg; [|done].
    destruct (field_at field g Hg) as (f & Hf & Ht & Hn). rewrite Hf.
    destruct (bool_decide (g.2 = value_type)) eqn:Hty; [|done]. apply bool_decide_eq_true in Hty. subst value_type.
    cbn. destruct (validator_scalar_type g.2); [|done]. intros [= <- <-]. by exists (ValidatorField f.2).
Qed.

Lemma field_equal_agrees v w t :
  validator_scalar_type t = true → typed v t = true → typed w t = true →
  validator_field_equal v w = language_equal v w.
Proof using Type.
  revert v w. induction t; intros v w Hs Hv Hw; try done; destruct v; try done; destruct w; try done.
  cbn in *. apply andb_true_iff in Hv as [_ Hv], Hw as [_ Hw]. f_equal. by apply IHt.
Qed.

Lemma equal_agrees v w t :
  validator_scalar_type t = true → typed (value_of v) t = true → typed (value_of w) t = true →
  match v with ValidatorBool _ => t = TBool | _ => True end →
  match w with ValidatorBool _ => t = TBool | _ => True end →
  validator_equal v w = language_equal (value_of v) (value_of w).
Proof using Type.
  intros Hs Hv Hw Hbv Hbw. unfold validator_equal. destruct v as [b|v], w as [c|w]; cbn [value_of validator_bool_value] in *.
  - done.
  - subst t. by destruct w.
  - subst t. by destruct v.
  - destruct v, w; try done; exact (field_equal_agrees _ _ t Hs Hv Hw).
Qed.

Lemma order_agrees v w t :
  is_ordered t = true → typed v t = true → typed w t = true → nan_free v = true → nan_free w = true →
  ∃ o, field_order v w = Some o ∧ language_order v w = Ok (Some o).
Proof using Type.
  revert v w. induction t; intros v w Ho Hv Hw Hnv Hnw; try done; destruct v; try done; destruct w; try done; cbn in *;
    try (by eexists).
  - unfold f64_partial_cmp. apply negb_true_iff in Hnv, Hnw. rewrite Hnv, Hnw. by eexists.
  - apply andb_true_iff in Hv as [->%String.eqb_eq Hv], Hw as [->%String.eqb_eq Hw]. rewrite String.eqb_refl. by apply IHt.
Qed.

Lemma compare_agrees operation l r a b n n' n'' t :
  validator_expr_type definition l n = Ok (t, n') → validator_expr_type definition r n' = Ok (t, n'') →
  validator_scalar_type t = true → (ordering_comparison operation = true → is_ordered t = true) →
  validator_value l fields = Some a → validator_value r fields = Some b →
  atom l = true → atom r = true →
  ∃ c, validator_compare operation a b = Some c ∧ compare operation (value_of a) (value_of b) = Ok c.
Proof using Hfields Hnan.
  intros Hl Hr Hs Ho Ha Hb Hal Har.
  destruct (atom_evaluates l t n n' Hal Hl) as (a' & Ha' & _ & Hta & Hna & Hba). rewrite Ha in Ha'. injection Ha' as <-.
  destruct (atom_evaluates r t n' n'' Har Hr) as (b' & Hb' & _ & Htb & Hnb & Hbb). rewrite Hb in Hb'. injection Hb' as <-.
  pose proof (equal_agrees a b t Hs Hta Htb Hba Hbb) as Heq.
  destruct (ordering_comparison operation) eqn:Hop.
  - specialize (Ho eq_refl). assert (t ≠ TBool) as Hne by (by intros ->).
    destruct a as [|v], b as [|w]; try done; cbn [value_of] in *.
    destruct (order_agrees v w t Ho Hta Htb Hna Hnb) as (o & Hfo & Hlo).
    destruct operation; try done; cbn; rewrite Hfo, Hlo; by eexists.
  - destruct operation; try done; cbn; rewrite Heq; by eexists.
Qed.

(** The evaluator and the language agree on the predicates it covers. *)
Lemma evaluator_agrees e n n' :
  flat e = true → validator_expr_type definition e n = Ok (TBool, n') →
  ∃ b, evaluate_validator_bool e fields = Some b ∧ language_eval e fields = Ok (VBool b).
Proof using Hfields Hnan.
  revert n n'. induction e as [b|field vt|e IH|op l IHl r IHr|op l _ r _]; intros n n' Hf Ht.
  - by exists b.
  - destruct (atom_evaluates (VField field vt) TBool n n' eq_refl Ht) as (v & Hv & Hl & Hty & _ & Hb).
    cbn in Hv, Hl |- *. destruct (fields !! field) as [f|]; [|done]. cbn in *. injection Hv as <-.
    cbn in Hty. destruct (f.2); try done. by eexists.
  - cbn in Ht. destruct (256 <? n + 1); [done|]. destruct (validator_expr_type definition e (n + 1)) as [[t m]|] eqn:He; [|done].
    cbn in Ht. destruct (bool_decide (t = TBool)) eqn:Hb; [|done]. apply bool_decide_eq_true in Hb as ->.
    destruct (IH _ _ Hf He) as (b & Hb & Hl). cbn. rewrite Hb, Hl. by eexists.
  - cbn in Ht. destruct (256 <? n + 1); [done|]. cbn in Hf. apply andb_true_iff in Hf as [Hfl Hfr].
    destruct (validator_expr_type definition l (n + 1)) as [[t m]|] eqn:Hel; [|done]. cbn in Ht.
    destruct (bool_decide (t = TBool)) eqn:Hb; [|done]. apply bool_decide_eq_true in Hb as ->. cbn in Ht.
    destruct (validator_expr_type definition r m) as [[t' m']|] eqn:Her; [|done]. cbn in Ht.
    destruct (bool_decide (t' = TBool)) eqn:Hb'; [|done]. apply bool_decide_eq_true in Hb' as ->.
    destruct (IHl _ _ Hfl Hel) as (b & Hbl & Hll), (IHr _ _ Hfr Her) as (c & Hbr & Hlr).
    destruct op; cbn; rewrite Hbl, Hll; destruct b; cbn; rewrite ?Hbr, ?Hlr; by eexists.
  - cbn in Ht. destruct (256 <? n + 1); [done|]. cbn in Hf. apply andb_true_iff in Hf as [Hfl Hfr].
    destruct (validator_expr_type definition l (n + 1)) as [[t m]|] eqn:Hel; [|done]. cbn in Ht.
    destruct (validator_expr_type definition r m) as [[t' m']|] eqn:Her; [|done]. cbn in Ht.
    destruct (bool_decide (t = t')) eqn:Hb; [|done]. apply bool_decide_eq_true in Hb as <-. cbn in Ht.
    destruct (validator_scalar_type t) eqn:Hs; [|done]. cbn in Ht.
    destruct (ordering_comparison op && negb (is_ordered t)) eqn:Ho; [done|].
    destruct (atom_evaluates l t _ _ Hfl Hel) as (a & Ha & Hla & _), (atom_evaluates r t _ _ Hfr Her) as (b & Hb & Hlb & _).
    destruct (compare_agrees op l r a b _ _ _ t Hel Her Hs) as (c & Hc & Hl); [|exact Ha|exact Hb|exact Hfl|exact Hfr|].
    { intros Hop. rewrite Hop in Ho. by apply negb_false_iff in Ho. }
    cbn. rewrite Ha, Hb, Hla, Hlb. cbn. rewrite Hl. by exists c.
Qed.
End Predicates.

(** ** Sites *)

Definition language_holds (e : ValidatorExpr) (record : Value) : bool :=
  match record with
  | VRecord fields => match language_eval e fields with Ok (VBool b) => b | _ => false end
  | _ => false
  end.
Definition record_nan_free (record : Value) : bool :=
  match record with VRecord fields => forallb (λ f : string * Value, nan_free f.2) fields | _ => false end.

(** Every record that the site reaches. *)
Definition site_all (P : Value → bool) (root : Value) (site : EntryValidatorSite) : bool :=
  match follow_path [root] (site_path site) with Some records => forallb P records | None => false end.
Definition site_holds (root : Value) (definitions : list RecordInvariantDefinition) (site : EntryValidatorSite) : bool :=
  match definitions !! site_invariant site with
  | Some definition => site_all (language_holds (ri_predicate definition)) root site
  | None => false
  end.

Lemma validate_records_decides module definition code n n' records :
  flat (ri_predicate definition) = true →
  validator_expr_type definition (ri_predicate definition) n = Ok (TBool, n') →
  all_typed module (TRecord (ri_fields definition)) records →
  forallb record_nan_free records = true →
  validate_records (ri_predicate definition) code records
  = if forallb (language_holds (ri_predicate definition)) records then Ok tt
    else Err (RuntimeError_new code (invariant_message code)).
Proof.
  intros Hf Ht Hall. induction Hall as [|v records Hv _ IH]; [done|]. cbn [forallb]. rewrite andb_true_iff.
  intros [Hn Hns]. destruct v; try done. cbn [validate_records record_nan_free] in *.
  destruct (evaluator_agrees module definition fields Hv Hn _ _ _ Hf Ht) as (b & Hb & Hl). rewrite Hb. cbn [ok_or].
  unfold language_holds at 1. rewrite Hl. destruct b; cbn [negb andb]; [by apply IH|done].
Qed.


(** ** Instances *)

Definition bounded : RecordInvariantDefinition :=
  {| ri_identity := "pkg://app@1.0.0/src/main.allen::Bounds"; ri_fields := [("high", TInt); ("low", TInt); ("open", TBool)];
     ri_predicate := VBoolBinary Or (VField 2 TBool) (VCompare Less (VField 1 TInt) (VField 0 TInt)) |}.
Definition bounds_type : ValueType := TRecord (ri_fields bounded).
Definition bounds (high low : Z) (open : bool) : Value :=
  VRecord [("high", VInt high); ("low", VInt low); ("open", VBool open)].
Definition bounds_artifact : Artifact :=
  {| metadata := metadata sample; module_ := module_ sample; debug := debug sample; schemas := schemas sample;
     entries := entries sample; imports := imports sample; manifest := manifest sample;
     templates := templates sample; record_invariants := [bounded] |}.
Definition bounds_schema : StrictSchema := {| ss_value_type := TList bounds_type |}.
Definition bounds_sites : list EntryValidatorSite := [{| site_path := [SegListElement]; site_invariant := 0%nat |}].


(** [!a == b] *)
Definition composed : RecordInvariantDefinition :=
  {| ri_identity := "pkg://app@1.0.0/src/main.allen::Flags"; ri_fields := [("a", TBool); ("b", TBool)];
     ri_predicate := VCompare Equal (VNot (VField 0 TBool)) (VField 1 TBool) |}.
(** [x < y] on floats *)
Definition ordered : RecordInvariantDefinition :=
  {| ri_identity := "pkg://app@1.0.0/src/main.allen::Span"; ri_fields := [("x", TFloat); ("y", TFloat)];
     ri_predicate := VCompare Less (VField 0 TFloat) (VField 1 TFloat) |}.

(** C15. Two predicates that artifacts are accepted with end in the panic code instead of
    an answer: a comparison of a composed boolean, on every input of its type, and an
    order of floats, on inputs with NaN, where the language's own comparison is false. *)
Theorem accepted_invariants_can_panic :
  (validate_invariant (H := releases) composed = Ok tt
   ∧ ∀ a b, re_code <$> match validate_records (ri_predicate composed) EntryInvariantInput
                                [VRecord [("a", VBool a); ("b", VBool b)]] with Err e => Some e | Ok _ => None end
            = Some Panic)
  ∧ (validate_invariant (H := releases) ordered = Ok tt
     ∧ ∀ y, re_code <$> match validate_records (ri_predicate ordered) EntryInvariantInput
                                [VRecord [("x", VFloat CANONICAL_NAN_BITS); ("y", VFloat y)]] with Err e => Some e | Ok _ => None end
            = Some Panic
            ∧ language_eval (ri_predicate ordered) [("x", VFloat CANONICAL_NAN_BITS); ("y", VFloat y)] = Ok (VBool false)).
Proof. split; (split; [vm_compute; reflexivity|]); intros; by split || reflexivity. Qed.
