(* ===== verification/SchemaJson.v ===== *)
(** * JSON of the tool schemas ([crates/allen-schema/src/canonical.rs], [json.rs],
      [version.rs])

    Canonical JSON text and its digest, the strict reader that keeps the order of
    members and refuses repeated keys, and exact versions with their bounded ranges.
    The tokenizer is the class [JsonText] of [VmJson]; the decimal text of a float
    (the formatting of the serde_json crate) is the class [FloatText]. *)

From Stdlib Require Import SpecFloat.
From S2P Require Import Prelude.
From S2P Require Import Text.
From S2P Require Import Bytecode.
From S2P Require Import VmValue.
From S2P Require Import JoshMessage.
From S2P Require Import VmOps.
From S2P Require Import VmJson.
From S2P Require Import RuntimeJson.
From S2P Require Import ArtifactBytes.
From S2P Require Import ArtifactNames.
From S2P Require Import ArtifactDigest.
Open Scope string_scope.
Open Scope Z_scope.

(** ** Canonical text *)

Class FloatText := { float_text : Z → string }.

Definition int_text (z : Z) : string :=
  if z <? 0 then "-" ++ string_of_bytes (decimal_bytes (- z)) else string_of_bytes (decimal_bytes z).

Section Canonical.
Context `{FloatText}.

(** [Number::to_string], and the canonical text: integral floats lose their [.0]. *)
Definition number_to_string (n : JsonNumber) : string :=
  match n with
  | NPosInt z | NNegInt z => int_text z
  | NFloat bits => float_text bits
  end.
Definition is_f64 (n : JsonNumber) : bool := match n with NFloat _ => true | _ => false end.
Definition number_bytes (n : JsonNumber) : list Z :=
  let text := number_to_string n in
  if is_f64 n && ends_with ".0" text && negb (String.eqb text "-0.0")
  then take (String.length text - 2) (bytes text)
  else bytes text.

Definition write_char (byte : Z) : list Z :=
  if byte =? 34 then [92; 34]
  else if byte =? 92 then [92; 92]
  else if byte <=? 31 then (bytes "\u00" ++ Names.hex_byte byte)%list
  else [byte].
Definition write_string (value : string) : list Z :=
  ([34] ++ flat_map write_char (bytes value) ++ [34])%list.

(** Keys in the order of their bytes. *)
Definition key_compare {A} (left right : string * A) : comparison := str_compare left.1 right.1.
Definition write_member (entry : string * list Z) : list Z :=
  (write_string entry.1 ++ [58] ++ entry.2)%list.
Fixpoint write_value (value : Json) : list Z :=
  match value with
  | JNull => bytes "null"
  | JBool false => bytes "false"
  | JBool true => bytes "true"
  | JNumber n => number_bytes n
  | JString s => write_string s
  | JArray values => ([91] ++ join_bytes [44] (map write_value values) ++ [93])%list
  | JObject members =>
    ([123] ++ join_bytes [44]
                (map write_member
                     (sort_by key_compare (map (λ '(key, v), (key, write_value v)) members)))
     ++ [125])%list
  end.
Definition canonical_json (value : Json) : list Z := write_value value.
End Canonical.

Definition digest_bytes (input : list Z) : string := "sha256:" ++ Names.lower_hex (sha256 input).

(** ** The strict reader *)

Inductive StrictJsonError := StrictInvalid | StrictDuplicateKey.

Inductive StrictValue :=
| SvNull
| SvBool (value : bool)
| SvNumber (number : JsonNumber)
| SvString (value : string)
| SvArray (values : list StrictValue)
| SvObject (entries : list (string * StrictValue)).

(** An object is collected into a [BTreeMap]. *)
Fixpoint into_json (value : StrictValue) : Json :=
  match value with
  | SvNull => JNull
  | SvBool b => JBool b
  | SvNumber n => JNumber n
  | SvString s => JString s
  | SvArray values => JArray (map into_json values)
  | SvObject entries =>
    JObject (fold_left (λ object entry, btree_insert entry.1 entry.2 object)
                       (map (λ '(key, v), (key, into_json v)) entries) [])
  end.

(** [serde_json::Number::from_f64] *)
Definition number_from_f64 (bits : Z) : option JsonNumber :=
  if is_finite_bits bits then Some (NFloat bits) else None.

Definition duplicate_key_message : string := "duplicate object key".
Definition strict_finish {A} (ending : option string) : result string (list A) :=
  match ending with Some message => Err message | None => Ok [] end.

Section StrictVisit.
Variable position : string.

(** [StrictValueSeed] and [StrictValueVisitor]; an error is its text. *)
Fixpoint visit_strict (e : JsonEvents) : result string StrictValue :=
  match e with
  | EvUnit => Ok SvNull
  | EvBool b => Ok (SvBool b)
  | EvI64 z => Ok (SvNumber (int_number z))
  | EvU64 z => Ok (SvNumber (NPosInt z))
  | EvF64 bits =>
    match number_from_f64 bits with
    | Some n => Ok (SvNumber n)
    | None => Err ("non-finite JSON number" ++ position)
    end
  | EvStr s => Ok (SvString s)
  | EvSeq items ending =>
    let? values :=
      (fix next_elements (items : list JsonEvents) : result string (list StrictValue) :=
         match items with
         | [] => strict_finish ending
         | x :: items => let? v := visit_strict x in let? vs := next_elements items in Ok (v :: vs)
         end) items in
    Ok (SvArray values)
  | EvMap members ending =>
    let? values :=
      (fix next_members (seen : list string) (members : list (string * JsonEvents))
           : result string (list (string * StrictValue)) :=
         match members with
         | [] => strict_finish ending
         | (key, x) :: members =>
           if existsb (String.eqb key) seen then Err (duplicate_key_message ++ position)
           else
             let? v := visit_strict x in
             let? vs := next_members (key :: seen) members in Ok ((key, v) :: vs)
         end) [] members in
    Ok (SvObject values)
  | EvError message => Err message
  end.
End StrictVisit.

Definition classify_error (message : string) : StrictJsonError :=
  if str_contains duplicate_key_message message then StrictDuplicateKey else StrictInvalid.

(** What is left after the value is an error of the tokenizer's own, not of the
    visitor. *)
Definition parse_strict_value `{JsonText} (input : string) : result StrictJsonError StrictValue :=
  let? value := map_err classify_error (visit_strict (error_position input) (json_events input)) in
  if json_end input then Ok value else Err StrictInvalid.
Definition parse_json_strict `{JsonText} (input : string) : result StrictJsonError Json :=
  let? value := parse_strict_value input in Ok (into_json value).

(** ** Versions *)

Record ExactVersion := { ev_major : Z; ev_minor : Z; ev_patch : Z }.
#[export] Instance ExactVersion_eq_dec : EqDecision ExactVersion.
Proof. solve_decision. Defined.

Definition parse_component (input : string) : option Z :=
  if str_is_empty input || negb (forallb is_ascii_digit (bytes input))
     || ((1 <? str_len input) && starts_with "0" input)
  then None
  else parse_unsigned u64_max (bytes input).

(** Exactly three components. *)
Definition ExactVersion_parse (input : string) : option ExactVersion :=
  match split_char "."%char input with
  | [a; b; c] =>
    major ← parse_component a; minor ← parse_component b; patch ← parse_component c;
    Some {| ev_major := major; ev_minor := minor; ev_patch := patch |}
  | _ => None
  end.
Definition ExactVersion_to_string (v : ExactVersion) : string :=
  int_text (ev_major v) ++ "." ++ int_text (ev_minor v) ++ "." ++ int_text (ev_patch v).

(** The derived [Ord]: major, then minor, then patch. *)
Definition version_compare (v w : ExactVersion) : comparison :=
  then_with (ev_major v ?= ev_major w) (then_with (ev_minor v ?= ev_minor w) (ev_patch v ?= ev_patch w)).

Record VersionRange := { vr_lower : ExactVersion; vr_upper : ExactVersion }.
#[export] Instance VersionRange_eq_dec : EqDecision VersionRange.
Proof. solve_decision. Defined.

Definition VersionRange_to_string (r : VersionRange) : string :=
  ">=" ++ ExactVersion_to_string (vr_lower r) ++ ", <" ++ ExactVersion_to_string (vr_upper r).
Definition VersionRange_parse (input : string) : option VersionRange :=
  '(lower, upper) ← split_once ", " input;
  lower_text ← strip_prefix ">=" lower; lower ← ExactVersion_parse lower_text;
  upper_text ← strip_prefix "<" upper; upper ← ExactVersion_parse upper_text;
  if negb (is_lt (version_compare lower upper)) then None
  else
    let range := {| vr_lower := lower; vr_upper := upper |} in
    if String.eqb (VersionRange_to_string range) input then Some range else None.
Definition VersionRange_contains (r : VersionRange) (v : ExactVersion) : bool :=
  negb (is_gt (version_compare (vr_lower r) v)) && is_lt (version_compare v (vr_upper r)).
