(* ===== verification/SchemaModel.v ===== *)
(** * Descriptors of tool schemas ([crates/allen-schema/src/schema.rs])

    The limits, the descriptors a schema lowers to with their canonical form and
    digest, the measure of a descriptor against the limits, and JSON pointers. *)

From S2P Require Import Prelude.
From S2P Require Import Text.
From S2P Require Import JoshMessage.
From S2P Require Import VmJson.
From S2P Require Import RuntimeJson.
From S2P Require Import SchemaJson.
Open Scope string_scope.
Open Scope Z_scope.

Definition SCHEMA_PROFILE : string := "allen.tool-schema/0.1".
Definition SCHEMA_DIALECT : string := "https://json-schema.org/draft/2020-12/schema".

(** ** Limits *)

Record SchemaLimits := {
  sl_schema_bytes : Z;
  sl_nodes : Z;
  sl_depth : Z;
  sl_properties : Z;
  sl_definitions : Z;
  sl_enum_strings : Z;
  sl_union_branches : Z;
  sl_name_bytes : Z;
  sl_bound : Z;
  sl_validation_issues : Z;
  sl_issue_pointer_bytes : Z }.

Definition SchemaLimits_default : SchemaLimits := {|
  sl_schema_bytes := 262144;
  sl_nodes := 4096;
  sl_depth := 32;
  sl_properties := 256;
  sl_definitions := 256;
  sl_enum_strings := 256;
  sl_union_branches := 64;
  sl_name_bytes := 255;
  sl_bound := 1048576;
  sl_validation_issues := 16;
  sl_issue_pointer_bytes := 1024 |}.

Definition SchemaLimits_bounded_by (self host : SchemaLimits) : SchemaLimits := {|
  sl_schema_bytes := Z.min (sl_schema_bytes self) (sl_schema_bytes host);
  sl_nodes := Z.min (sl_nodes self) (sl_nodes host);
  sl_depth := Z.min (sl_depth self) (sl_depth host);
  sl_properties := Z.min (sl_properties self) (sl_properties host);
  sl_definitions := Z.min (sl_definitions self) (sl_definitions host);
  sl_enum_strings := Z.min (sl_enum_strings self) (sl_enum_strings host);
  sl_union_branches := Z.min (sl_union_branches self) (sl_union_branches host);
  sl_name_bytes := Z.min (sl_name_bytes self) (sl_name_bytes host);
  sl_bound := Z.min (sl_bound self) (sl_bound host);
  sl_validation_issues := Z.min (sl_validation_issues self) (sl_validation_issues host);
  sl_issue_pointer_bytes := Z.min (sl_issue_pointer_bytes self) (sl_issue_pointer_bytes host) |}.

(** ** Descriptors *)

Record Field (D : Type) := { fd_name : string; fd_schema : D }.
Arguments fd_name {D} _.
Arguments fd_schema {D} _.
Arguments Build_Field {D} _ _.
Record Variant (D : Type) := { vt_tag : string; vt_fields : list (Field D) }.
Arguments vt_tag {D} _.
Arguments vt_fields {D} _.
Arguments Build_Variant {D} _ _.

(** Bounds of floats are bit patterns; lengths and counts are integers. *)
Inductive Descriptor :=
| DUnit
| DBool
| DInt (min max : Z)
| DFloat (min max : option Z)
| DString (min max : option Z) (enumeration : list string)
| DList (min max : Z) (items : Descriptor)
| DTuple (items : list Descriptor)
| DRecord (fields : list (Field Descriptor))
| DStringMap (values : Descriptor)
| DTaggedUnion (variants : list (Variant Descriptor)).

(** [json!({ ... })]: the members go into a [BTreeMap]. *)
Definition json_object (members : list (string * Json)) : Json :=
  JObject (fold_left (λ object entry, btree_insert entry.1 entry.2 object) members []).
(** [json!] of an [f64]: a number when finite, otherwise null. *)
Definition json_f64 (bits : Z) : Json :=
  match number_from_f64 bits with Some n => JNumber n | None => JNull end.
Definition json_option {A} (f : A → Json) (o : option A) : Json :=
  match o with Some a => f a | None => JNull end.
Definition json_int (z : Z) : Json := JNumber (int_number z).

Definition Field_canonical_value (canonical : Descriptor → Json) (field : Field Descriptor) : Json :=
  json_object [("name", JString (fd_name field)); ("schema", canonical (fd_schema field))].
Definition Variant_canonical_value (canonical : Descriptor → Json) (variant : Variant Descriptor) : Json :=
  json_object [("fields", JArray (map (Field_canonical_value canonical) (vt_fields variant)));
               ("tag", JString (vt_tag variant))].
Fixpoint canonical_value (d : Descriptor) : Json :=
  match d with
  | DUnit => json_object [("kind", JString "void")]
  | DBool => json_object [("kind", JString "bool")]
  | DInt min max => json_object [("kind", JString "int"); ("max", json_int max); ("min", json_int min)]
  | DFloat min max =>
    json_object [("kind", JString "float"); ("max", json_option json_f64 max); ("min", json_option json_f64 min)]
  | DString min max enumeration =>
    json_object [("enum", JArray (map JString enumeration)); ("kind", JString "string");
                 ("max", json_option json_int max); ("min", json_option json_int min)]
  | DList min max items =>
    json_object [("items", canonical_value items); ("kind", JString "list");
                 ("max", json_int max); ("min", json_int min)]
  | DTuple items => json_object [("items", JArray (map canonical_value items)); ("kind", JString "tuple")]
  | DRecord fields =>
    json_object [("fields", JArray (map (Field_canonical_value canonical_value) fields));
                 ("kind", JString "record")]
  | DStringMap values => json_object [("kind", JString "string_map"); ("values", canonical_value values)]
  | DTaggedUnion variants =>
    json_object [("kind", JString "tagged_union");
                 ("variants", JArray (map (Variant_canonical_value canonical_value) variants))]
  end.

Definition canonical_bytes `{FloatText} (d : Descriptor) : list Z := canonical_json (canonical_value d).
Definition Descriptor_digest `{FloatText} (d : Descriptor) : string := digest_bytes (canonical_bytes d).

(** ** Size *)

Record DescriptorUsage := {
  du_nodes : Z; du_depth : Z; du_properties : Z; du_enum_strings : Z;
  du_max_union_branches : Z; du_max_name_bytes : Z; du_max_bound : Z }.
Definition usage_default : DescriptorUsage := {|
  du_nodes := 0; du_depth := 0; du_properties := 0; du_enum_strings := 0;
  du_max_union_branches := 0; du_max_name_bytes := 0; du_max_bound := 0 |}.

Definition usage_enter (depth : Z) (u : DescriptorUsage) : DescriptorUsage := {|
  du_nodes := du_nodes u + 1; du_depth := Z.max (du_depth u) depth; du_properties := du_properties u;
  du_enum_strings := du_enum_strings u; du_max_union_branches := du_max_union_branches u;
  du_max_name_bytes := du_max_name_bytes u; du_max_bound := du_max_bound u |}.
Definition usage_bound (bound : Z) (u : DescriptorUsage) : DescriptorUsage := {|
  du_nodes := du_nodes u; du_depth := du_depth u; du_properties := du_properties u;
  du_enum_strings := du_enum_strings u; du_max_union_branches := du_max_union_branches u;
  du_max_name_bytes := du_max_name_bytes u; du_max_bound := Z.max (du_max_bound u) bound |}.
Definition usage_name (name : string) (u : DescriptorUsage) : DescriptorUsage := {|
  du_nodes := du_nodes u; du_depth := du_depth u; du_properties := du_properties u;
  du_enum_strings := du_enum_strings u; du_max_union_branches := du_max_union_branches u;
  du_max_name_bytes := Z.max (du_max_name_bytes u) (str_len name); du_max_bound := du_max_bound u |}.
Definition usage_enums (count : Z) (u : DescriptorUsage) : DescriptorUsage := {|
  du_nodes := du_nodes u; du_depth := du_depth u; du_properties := du_properties u;
  du_enum_strings := du_enum_strings u + count; du_max_union_branches := du_max_union_branches u;
  du_max_name_bytes := du_max_name_bytes u; du_max_bound := du_max_bound u |}.
Definition usage_properties (count : Z) (u : DescriptorUsage) : DescriptorUsage := {|
  du_nodes := du_nodes u; du_depth := du_depth u; du_properties := du_properties u + count;
  du_enum_strings := du_enum_strings u; du_max_union_branches := du_max_union_branches u;
  du_max_name_bytes := du_max_name_bytes u; du_max_bound := du_max_bound u |}.
(** The first statements of the union case. *)
Definition usage_union (depth : Z) (branches properties : Z) (u : DescriptorUsage) : DescriptorUsage := {|
  du_nodes := du_nodes u + branches * 2; du_depth := Z.max (du_depth u) (depth + 2);
  du_properties := du_properties u + properties; du_enum_strings := du_enum_strings u + branches;
  du_max_union_branches := Z.max (du_max_union_branches u) branches;
  du_max_name_bytes := du_max_name_bytes u; du_max_bound := du_max_bound u |}.

Definition count {A} (l : list A) : Z := Z.of_nat (length l).
Definition sum_by {A} (f : A → Z) (l : list A) : Z := fold_right (λ a n, f a + n) 0 l.

Fixpoint collect_usage (d : Descriptor) (depth : Z) (usage : DescriptorUsage) : DescriptorUsage :=
  let usage := usage_enter depth usage in
  match d with
  | DString min max enumeration =>
    usage_bound (default 0 max) (usage_bound (default 0 min) (usage_enums (count enumeration) usage))
  | DList min max items => collect_usage items (depth + 1) (usage_bound max (usage_bound min usage))
  | DTuple items =>
    fold_left (λ u item, collect_usage item (depth + 1) u) items (usage_bound (count items) usage)
  | DRecord fields =>
    fold_left (λ u field, collect_usage (fd_schema field) (depth + 1) (usage_name (fd_name field) u))
              fields (usage_properties (count fields) usage)
  | DStringMap values => collect_usage values (depth + 1) usage
  | DTaggedUnion variants =>
    fold_left (λ u variant,
      fold_left (λ u field, collect_usage (fd_schema field) (depth + 2) (usage_name (fd_name field) u))
                (vt_fields variant) (usage_name (vt_tag variant) u))
      variants
      (usage_union depth (count variants) (sum_by (λ variant, count (vt_fields variant) + 1) variants) usage)
  | DUnit | DBool | DInt _ _ | DFloat _ _ => usage
  end.

(** ** Pointers *)

Fixpoint replace_char (c : ascii) (replacement : string) (s : string) : string :=
  match s with
  | EmptyString => EmptyString
  | String x s => if Ascii.eqb x c then replacement ++ replace_char c replacement s
                  else String x (replace_char c replacement s)
  end.
Definition escape_pointer_token (token : string) : string :=
  replace_char "/" "~1" (replace_char "~" "~0" token).
Fixpoint unescape_pointer_token (token : string) : option string :=
  match token with
  | EmptyString => Some EmptyString
  | String c rest =>
    if Ascii.eqb c "~" then
      match rest with
      | EmptyString => None
      | String d rest =>
        if Ascii.eqb d "0" then String "~" <$> unescape_pointer_token rest
        else if Ascii.eqb d "1" then String "/" <$> unescape_pointer_token rest
        else None
      end
    else String c <$> unescape_pointer_token rest
  end.
Definition join (base token : string) : string := base ++ "/" ++ escape_pointer_token token.
(** [index.to_string()] *)
Definition index_text (index : nat) : string := int_text (Z.of_nat index).

(** ** Induction on descriptors *)

Definition children (d : Descriptor) : list Descriptor :=
  match d with
  | DList _ _ items => [items]
  | DTuple items => items
  | DRecord fields => map fd_schema fields
  | DStringMap values => [values]
  | DTaggedUnion variants => flat_map (λ variant, map fd_schema (vt_fields variant)) variants
  | _ => []
  end.

Section Induction.
Variable P : Descriptor → Prop.
Hypothesis step : ∀ d, Forall P (children d) → P d.

Fixpoint Descriptor_nested (d : Descriptor) : P d :=
  let fields_nested := fix go (fields : list (Field Descriptor)) : Forall P (map fd_schema fields) :=
    match fields with
    | [] => List.Forall_nil _
    | Build_Field name schema :: rest =>
      List.Forall_cons P schema (map fd_schema rest) (Descriptor_nested schema) (go rest)
    end in
  step d
    (match d return Forall P (children d) with
     | DList _ _ items => List.Forall_cons P items [] (Descriptor_nested items) (List.Forall_nil _)
     | DTuple items =>
       (fix go (items : list Descriptor) : Forall P items :=
          match items with
          | [] => List.Forall_nil _
          | item :: rest => List.Forall_cons P item rest (Descriptor_nested item) (go rest)
          end) items
     | DRecord fields => fields_nested fields
     | DStringMap values => List.Forall_cons P values [] (Descriptor_nested values) (List.Forall_nil _)
     | DTaggedUnion variants =>
       (fix go (variants : list (Variant Descriptor))
            : Forall P (flat_map (λ variant, map fd_schema (vt_fields variant)) variants) :=
          match variants with
          | [] => List.Forall_nil _
          | Build_Variant tag fields :: rest =>
            proj2 (Forall_app P (map fd_schema fields) _) (conj (fields_nested fields) (go rest))
          end) variants
     | _ => List.Forall_nil _
     end).
End Induction.

(** A condition at every node of a descriptor. *)
Inductive every (Q : Descriptor → Prop) (d : Descriptor) : Prop :=
| every_node : Q d → Forall (every Q) (children d) → every Q d.

Lemma every_inv Q d : every Q d → Q d ∧ Forall (every Q) (children d).
Proof. by inversion 1. Qed.
