(* ===== verification/SchemaLower.v ===== *)
(** * Lowering of tool schemas ([crates/allen-schema/src/schema.rs])

    [ToolSchema::parse] and [from_value]: a strict JSON document in the supported
    profile of JSON Schema becomes a descriptor, or is refused with a code and a
    pointer.  [Lowering] holds the definitions, which of them are used, the stack of
    references and the running counts; it is the state of the monad [L]. *)

From S2P Require Import Prelude.
From S2P Require Import Text.
From S2P Require Import VmValue.
From S2P Require Import JoshMessage.
From S2P Require Import VmOps.
From S2P Require Import VmJson.
From S2P Require Import RuntimeJson.
From S2P Require Import SchemaJson.
From S2P Require Import SchemaModel.
Open Scope string_scope.
Open Scope Z_scope.

Inductive SchemaErrorCode :=
| SchInvalidJson | SchDuplicateKey | SchInvalidForm | SchUnsupportedKeyword | SchInvalidBound
| SchUnsortedSet | SchInvalidReference | SchCyclicReference | SchUnusedDefinition | SchLimit.
Definition SchemaErrorCode_as_str (code : SchemaErrorCode) : string :=
  match code with
  | SchInvalidJson => "schema.invalid_json"
  | SchDuplicateKey => "schema.duplicate_key"
  | SchInvalidForm => "schema.invalid_form"
  | SchUnsupportedKeyword => "schema.unsupported_keyword"
  | SchInvalidBound => "schema.invalid_bound"
  | SchUnsortedSet => "schema.unsorted_set"
  | SchInvalidReference => "schema.invalid_reference"
  | SchCyclicReference => "schema.cyclic_reference"
  | SchUnusedDefinition => "schema.unused_definition"
  | SchLimit => "schema.limit"
  end.
Record SchemaError := { se_code : SchemaErrorCode; se_pointer : string }.
Definition SchemaError_new (code : SchemaErrorCode) (pointer : string) : SchemaError :=
  {| se_code := code; se_pointer := pointer |}.
Definition SchemaError_display (e : SchemaError) : string :=
  SchemaErrorCode_as_str (se_code e) ++ " at "
  ++ (if str_is_empty (se_pointer e) then "/" else se_pointer e).

Abbreviation Object := (list (string * StrictValue)) (only parsing).
Definition refuse {A} (code : SchemaErrorCode) (pointer : string) : result SchemaError A :=
  Err (SchemaError_new code pointer).

(** ** Members *)

Definition exact_keys (object : Object) (allowed : list string) (pointer : string)
    : result SchemaError unit :=
  for_each (λ entry, if existsb (String.eqb entry.1) allowed then Ok tt
                     else refuse SchUnsupportedKeyword (join pointer entry.1)) object.
Definition member (object : Object) (key : string) : option StrictValue :=
  snd <$> List.find (λ entry, String.eqb entry.1 key) object.
Definition required_member (object : Object) (key pointer : string) : result SchemaError StrictValue :=
  ok_or (member object key) (SchemaError_new SchInvalidForm (join pointer key)).
Definition string_member (object : Object) (key pointer : string) : result SchemaError string :=
  let? value := required_member object key pointer in
  match value with
  | SvString s => Ok s
  | _ => refuse SchInvalidForm (join pointer key)
  end.
(** [Number::as_i64], [as_u64] and [as_f64] *)
Definition number_as_i64 (n : JsonNumber) : option Z :=
  match n with
  | NPosInt z => if z <=? i64_max then Some z else None
  | NNegInt z => Some z
  | NFloat _ => None
  end.
Definition number_as_u64 (n : JsonNumber) : option Z :=
  match n with NPosInt z => Some z | _ => None end.
Definition f64_of_int (z : Z) : Z := bits_of_sf (SpecFloat.binary_normalize 53 1024 z 0 false).
Definition number_as_f64 (n : JsonNumber) : option Z :=
  match n with
  | NPosInt z | NNegInt z => Some (f64_of_int z)
  | NFloat bits => Some bits
  end.
Definition integer_member (object : Object) (key pointer : string) : result SchemaError Z :=
  let? value := required_member object key pointer in
  match value with
  | SvNumber n => ok_or (number_as_i64 n) (SchemaError_new SchInvalidBound (join pointer key))
  | _ => refuse SchInvalidBound (join pointer key)
  end.
Definition finite_f64 (o : option Z) : option Z :=
  bits ← o; if is_finite_bits bits then Some bits else None.
Definition float_value (value : StrictValue) : option Z :=
  match value with SvNumber n => finite_f64 (number_as_f64 n) | _ => None end.
(** [Option<Result<_, _>>::transpose] *)
Definition transpose {E A} (o : option (result E A)) : result E (option A) :=
  match o with
  | None => Ok None
  | Some (Ok a) => Ok (Some a)
  | Some (Err e) => Err e
  end.
Definition optional_float_member (object : Object) (key pointer : string) : result SchemaError (option Z) :=
  transpose ((λ value, ok_or (float_value value) (SchemaError_new SchInvalidBound (join pointer key)))
             <$> member object key).
Definition bound_value (value : StrictValue) (limits : SchemaLimits) (pointer : string) : result SchemaError Z :=
  match value with
  | SvNumber n =>
    let? bound := ok_or (number_as_u64 n) (SchemaError_new SchInvalidBound pointer) in
    if sl_bound limits <? bound then refuse SchLimit pointer else Ok bound
  | _ => refuse SchInvalidBound pointer
  end.
Definition bound_member (object : Object) (key : string) (limits : SchemaLimits) (pointer : string)
    : result SchemaError Z :=
  let? value := required_member object key pointer in bound_value value limits (join pointer key).
Definition optional_bound_member (object : Object) (key : string) (limits : SchemaLimits) (pointer : string)
    : result SchemaError (option Z) :=
  transpose ((λ value, bound_value value limits (join pointer key)) <$> member object key).
Definition string_array (value : StrictValue) (pointer : string) : result SchemaError (list string) :=
  match value with
  | SvArray values =>
    collect (λ value, match value with SvString s => Ok s | _ => refuse SchInvalidForm pointer end) values
  | _ => refuse SchInvalidForm pointer
  end.
Definition ensure_sorted_strings (values : list string) : bool := negb (windows2_any str_geb values).
Definition ensure_sorted_names (values : Object) : bool :=
  negb (windows2_any (λ left right, str_geb left.1 right.1) values).
Definition check_name (name : string) (limits : SchemaLimits) (pointer : string) : result SchemaError unit :=
  if sl_name_bytes limits <? str_len name then refuse SchLimit pointer else Ok tt.
Definition is_string (value : StrictValue) : bool := match value with SvString _ => true | _ => false end.
Definition is_false (value : option StrictValue) : bool :=
  match value with Some (SvBool false) => true | _ => false end.

Definition single_tag (value : StrictValue) (limits : SchemaLimits) (pointer : string) : result SchemaError string :=
  match value with
  | SvObject object =>
    try? exact_keys object ["description"; "enum"; "maxLength"; "minLength"; "title"; "type"] pointer in
    let? ty := string_member object "type" pointer in
    if negb (String.eqb ty "string") || bool_decide (is_Some (member object "minLength"))
       || bool_decide (is_Some (member object "maxLength"))
    then refuse SchInvalidForm pointer
    else
      let? values := required_member object "enum" pointer in
      match values with
      | SvArray [SvString tag] => try? check_name tag limits pointer in Ok tag
      | _ => refuse SchInvalidForm pointer
      end
  | _ => refuse SchInvalidForm pointer
  end.

(** ** The state *)

Record Lowering := {
  lw_definitions : Object; (* a [BTreeMap] *)
  lw_used_definitions : list string; (* a [BTreeSet] *)
  lw_reference_stack : list string;
  lw_nodes : Z;
  lw_properties : Z;
  lw_enum_strings : Z }.

Definition L (A : Type) : Type := Lowering → result SchemaError (A * Lowering).
#[export] Instance L_ret : MRet L := λ A a st, Ok (a, st).
#[export] Instance L_bind : MBind L := λ A B k m st,
  match m st with Ok (a, st) => k a st | Err e => Err e end.
Definition L_lift {A} (r : result SchemaError A) : L A :=
  λ st, match r with Ok a => Ok (a, st) | Err e => Err e end.
Definition L_refuse {A} (code : SchemaErrorCode) (pointer : string) : L A := λ _, refuse code pointer.

Definition with_nodes (n : Z) (st : Lowering) : Lowering := {|
  lw_definitions := lw_definitions st; lw_used_definitions := lw_used_definitions st;
  lw_reference_stack := lw_reference_stack st; lw_nodes := n;
  lw_properties := lw_properties st; lw_enum_strings := lw_enum_strings st |}.
Definition with_properties (n : Z) (st : Lowering) : Lowering := {|
  lw_definitions := lw_definitions st; lw_used_definitions := lw_used_definitions st;
  lw_reference_stack := lw_reference_stack st; lw_nodes := lw_nodes st;
  lw_properties := n; lw_enum_strings := lw_enum_strings st |}.
Definition with_enum_strings (n : Z) (st : Lowering) : Lowering := {|
  lw_definitions := lw_definitions st; lw_used_definitions := lw_used_definitions st;
  lw_reference_stack := lw_reference_stack st; lw_nodes := lw_nodes st;
  lw_properties := lw_properties st; lw_enum_strings := n |}.
Definition enter_reference (name : string) (st : Lowering) : Lowering := {|
  lw_definitions := lw_definitions st;
  lw_used_definitions := if existsb (String.eqb name) (lw_used_definitions st) then lw_used_definitions st
                         else name :: lw_used_definitions st;
  lw_reference_stack := name :: lw_reference_stack st; lw_nodes := lw_nodes st;
  lw_properties := lw_properties st; lw_enum_strings := lw_enum_strings st |}.
Definition leave_reference (st : Lowering) : Lowering := {|
  lw_definitions := lw_definitions st; lw_used_definitions := lw_used_definitions st;
  lw_reference_stack := tail (lw_reference_stack st); lw_nodes := lw_nodes st;
  lw_properties := lw_properties st; lw_enum_strings := lw_enum_strings st |}.

Section Lower.
Variable limits : SchemaLimits.

(** [self.nodes.checked_add(n)], then the tests of the node and depth limits. *)
Definition add_nodes (n depth : Z) (pointer : string) : L unit := λ st,
  match checked (in_unsigned usize_max) (lw_nodes st + n) with
  | None => refuse SchLimit pointer
  | Some nodes =>
    if (sl_nodes limits <? nodes) || (sl_depth limits <? depth) then refuse SchLimit pointer
    else Ok (tt, with_nodes nodes st)
  end.
(** The counts of properties and of enumeration strings; both stay within the memory
    of the document times the number of nodes, below the width of [usize]. *)
Definition add_properties (n : Z) (pointer : string) : L unit := λ st,
  let properties := lw_properties st + n in
  if sl_properties limits <? properties then refuse SchLimit pointer
  else Ok (tt, with_properties properties st).
Definition add_enum_strings (n : Z) (pointer : string) : L unit := λ st,
  let strings := lw_enum_strings st + n in
  if sl_enum_strings limits <? strings then refuse SchLimit pointer
  else Ok (tt, with_enum_strings strings st).

Definition lower_integer (object : Object) (pointer : string) : result SchemaError Descriptor :=
  try? exact_keys object ["description"; "maximum"; "minimum"; "title"; "type"] pointer in
  let? min := integer_member object "minimum" pointer in
  let? max := integer_member object "maximum" pointer in
  if max <? min then refuse SchInvalidBound pointer else Ok (DInt min max).

Definition f64_gtb (a b : Z) : bool := match f64_partial_cmp a b with Some Gt => true | _ => false end.
Definition f64_ltb (a b : Z) : bool := match f64_partial_cmp a b with Some Lt => true | _ => false end.
(** [min.zip(max).is_some_and(|(min, max)| min > max)] *)
Definition both_exceed (gt : Z → Z → bool) (min max : option Z) : bool :=
  match min, max with Some min, Some max => gt min max | _, _ => false end.
Definition lower_float (object : Object) (pointer : string) : result SchemaError Descriptor :=
  try? exact_keys object ["description"; "maximum"; "minimum"; "title"; "type"] pointer in
  let? min := optional_float_member object "minimum" pointer in
  let? max := optional_float_member object "maximum" pointer in
  if both_exceed f64_gtb min max then refuse SchInvalidBound pointer else Ok (DFloat min max).

Definition lower_enumeration (raw : StrictValue) (pointer : string) : L (list string) :=
  match raw with
  | SvArray [] => L_refuse SchInvalidForm pointer
  | SvArray values =>
    strings ← L_lift (string_array (SvArray values) pointer);
    if negb (ensure_sorted_strings strings) then L_refuse SchUnsortedSet pointer
    else
      _ ← add_enum_strings (count strings) pointer;
      mret strings
  | _ => L_refuse SchInvalidForm pointer
  end.
Definition lower_string (object : Object) (pointer : string) : L Descriptor :=
  _ ← L_lift (exact_keys object ["description"; "enum"; "maxLength"; "minLength"; "title"; "type"] pointer);
  min ← L_lift (optional_bound_member object "minLength" limits pointer);
  max ← L_lift (optional_bound_member object "maxLength" limits pointer);
  if both_exceed Z.gtb min max then L_refuse SchInvalidBound pointer
  else
    enumeration ← match member object "enum" with
                  | Some raw => lower_enumeration raw (join pointer "enum")
                  | None => mret []
                  end;
    mret (DString min max enumeration).

(** ** Schemas that contain schemas: [lower] is the recursive call. *)

Section Nested.
Variable lower : StrictValue → Z → string → L Descriptor.

Definition lower_ref (raw : StrictValue) (depth : Z) (pointer : string) : L Descriptor := λ st,
  match raw with
  | SvString reference =>
    match strip_prefix "#/$defs/" reference with
    | None => refuse SchInvalidReference pointer
    | Some token =>
      if str_is_empty token || str_mem "/" token then refuse SchInvalidReference pointer
      else
        match unescape_pointer_token token with
        | None => refuse SchInvalidReference pointer
        | Some name =>
          if negb (String.eqb (escape_pointer_token name) token) then refuse SchInvalidReference pointer
          else
            match btree_get name (lw_definitions st) with
            | None => refuse SchInvalidReference pointer
            | Some definition =>
              if existsb (String.eqb name) (lw_reference_stack st) then refuse SchCyclicReference pointer
              else
                let? '(d, st) := lower definition (depth + 1) pointer (enter_reference name st) in
                Ok (d, leave_reference st)
            end
        end
    end
  | _ => refuse SchInvalidReference pointer
  end.

Fixpoint lower_items (depth : Z) (pointer : string) (index : nat) (raw : list StrictValue)
    : L (list Descriptor) :=
  match raw with
  | [] => mret []
  | item :: raw =>
    d ← lower item (depth + 1) (join (join pointer "items") (index_text index));
    ds ← lower_items depth pointer (S index) raw;
    mret (d :: ds)
  end.
Definition lower_array (object : Object) (depth : Z) (pointer : string) : L Descriptor :=
  match member object "prefixItems" with
  | Some prefix =>
    _ ← L_lift (exact_keys object ["description"; "items"; "maxItems"; "minItems"; "prefixItems"; "title"; "type"] pointer);
    if negb (is_false (member object "items")) then L_refuse SchInvalidForm (join pointer "items")
    else
      match prefix with
      | SvArray raw_items =>
        if (count raw_items =? 0) || (sl_bound limits <? count raw_items)
        then L_refuse SchLimit (join pointer "prefixItems")
        else
          min ← L_lift (bound_member object "minItems" limits pointer);
          max ← L_lift (bound_member object "maxItems" limits pointer);
          if negb (min =? count raw_items) || negb (max =? count raw_items)
          then L_refuse SchInvalidBound pointer
          else
            items ← lower_items depth pointer 0 raw_items;
            mret (DTuple items)
      | _ => L_refuse SchInvalidForm (join pointer "prefixItems")
      end
  | None =>
    _ ← L_lift (exact_keys object ["description"; "items"; "maxItems"; "minItems"; "title"; "type"] pointer);
    min ← L_lift (bound_member object "minItems" limits pointer);
    max ← L_lift (bound_member object "maxItems" limits pointer);
    if max <? min then L_refuse SchInvalidBound pointer
    else
      raw ← L_lift (required_member object "items" pointer);
      items ← lower raw (depth + 1) (join pointer "items");
      mret (DList min max items)
  end.

(** The fields of a record or of a branch, by name: [names] is where a long name is
    reported, [fields] the pointer of the fields. *)
Fixpoint lower_fields (depth : Z) (names fields : string) (raw : Object) : L (list (Field Descriptor)) :=
  match raw with
  | [] => mret []
  | (name, value) :: raw =>
    _ ← L_lift (check_name name limits names);
    d ← lower value depth (join fields name);
    ds ← lower_fields depth names fields raw;
    mret (Build_Field name d :: ds)
  end.
Definition lower_record_or_map (object : Object) (depth : Z) (pointer : string) : L Descriptor :=
  _ ← L_lift (exact_keys object ["additionalProperties"; "description"; "properties"; "required"; "title"; "type"] pointer);
  raw_properties ← L_lift (required_member object "properties" pointer);
  match raw_properties with
  | SvObject properties =>
    _ ← add_properties (count properties) (join pointer "properties");
    raw_required ← L_lift (required_member object "required" pointer);
    required ← L_lift (string_array raw_required (join pointer "required"));
    if negb (ensure_sorted_strings required) then L_refuse SchUnsortedSet (join pointer "required")
    else
      additional ← L_lift (required_member object "additionalProperties" pointer);
      match additional with
      | SvBool false =>
        if negb (bool_decide (required = sort_by str_compare (map fst properties)))
        then L_refuse SchInvalidForm (join pointer "required")
        else
          fields ← lower_fields (depth + 1) (join pointer "properties") (join pointer "fields")
                                (sort_by key_compare properties);
          mret (DRecord fields)
      | raw_schema =>
        if (count properties =? 0) && (count required =? 0)
        then
          values ← lower raw_schema (depth + 1) (join pointer "values");
          mret (DStringMap values)
        else L_refuse SchInvalidForm (join pointer "additionalProperties")
      end
  | _ => L_refuse SchInvalidForm (join pointer "properties")
  end.

(** The body of the loop over the branches of a union. *)
Definition lower_branch (depth : Z) (branch_pointer : string) (branch : StrictValue) : L (Variant Descriptor) :=
  _ ← add_nodes 2 (depth + 2) branch_pointer;
  match branch with
  | SvObject branch =>
    _ ← L_lift (exact_keys branch ["additionalProperties"; "description"; "properties"; "required"; "title"; "type"] branch_pointer);
    ty ← L_lift (string_member branch "type" branch_pointer);
    if negb (String.eqb ty "object") || negb (is_false (member branch "additionalProperties"))
    then L_refuse SchInvalidForm branch_pointer
    else
      raw_properties ← L_lift (required_member branch "properties" branch_pointer);
      match raw_properties with
      | SvObject properties =>
        _ ← add_properties (count properties) branch_pointer;
        raw_required ← L_lift (required_member branch "required" branch_pointer);
        required ← L_lift (string_array raw_required (join branch_pointer "required"));
        if negb (ensure_sorted_strings required) then L_refuse SchUnsortedSet (join branch_pointer "required")
        else
          let names := sort_by str_compare (map fst properties) in
          if negb (bool_decide (required = names)) || negb (existsb (String.eqb "tag") names)
          then L_refuse SchInvalidForm branch_pointer
          else
            tag_schema ← L_lift (ok_or (member properties "tag") (SchemaError_new SchInvalidForm branch_pointer));
            tag ← L_lift (single_tag tag_schema limits (join branch_pointer "tag"));
            _ ← add_enum_strings 1 branch_pointer;
            fields ← lower_fields (depth + 2) branch_pointer (join branch_pointer "fields")
                       (sort_by key_compare
                          (List.filter (λ entry, negb (String.eqb entry.1 "tag")) properties));
            mret (Build_Variant tag fields)
      | _ => L_refuse SchInvalidForm branch_pointer
      end
  | _ => L_refuse SchInvalidForm branch_pointer
  end.
Fixpoint lower_branches (depth : Z) (pointer : string) (index : nat) (branches : list StrictValue)
    : L (list (Variant Descriptor)) :=
  match branches with
  | [] => mret []
  | branch :: branches =>
    v ← lower_branch depth (join (join pointer "variants") (index_text index)) branch;
    vs ← lower_branches depth pointer (S index) branches;
    mret (v :: vs)
  end.
Definition tag_compare (left right : Variant Descriptor) : comparison :=
  str_compare (vt_tag left) (vt_tag right).
Definition lower_union (object : Object) (depth : Z) (pointer : string) : L Descriptor :=
  _ ← L_lift (exact_keys object ["description"; "oneOf"; "title"] pointer);
  raw ← L_lift (required_member object "oneOf" pointer);
  match raw with
  | SvArray branches =>
    if negb ((2 <=? count branches) && (count branches <=? Z.min (sl_union_branches limits) 64))
    then L_refuse SchLimit (join pointer "oneOf")
    else
      variants ← lower_branches depth pointer 0 branches;
      let variants := sort_by tag_compare variants in
      if windows2_any (λ left right, String.eqb (vt_tag left) (vt_tag right)) variants
      then L_refuse SchInvalidForm (join pointer "oneOf")
      else mret (DTaggedUnion variants)
  | _ => L_refuse SchInvalidForm (join pointer "oneOf")
  end.

Definition is_annotation (key : string) : bool := String.eqb key "title" || String.eqb key "description".
Definition lower_typed (object : Object) (depth : Z) (pointer : string) : L Descriptor :=
  schema_type ← L_lift (string_member object "type" pointer);
  if String.eqb schema_type "null" then
    _ ← L_lift (exact_keys object ["description"; "title"; "type"] pointer);
    mret DUnit
  else if String.eqb schema_type "boolean" then
    _ ← L_lift (exact_keys object ["description"; "title"; "type"] pointer);
    mret DBool
  else if String.eqb schema_type "integer" then L_lift (lower_integer object pointer)
  else if String.eqb schema_type "number" then L_lift (lower_float object pointer)
  else if String.eqb schema_type "string" then lower_string object pointer
  else if String.eqb schema_type "array" then lower_array object depth pointer
  else if String.eqb schema_type "object" then lower_record_or_map object depth pointer
  else L_refuse SchInvalidForm (join pointer "type").
(** [filtered.len() == 1 && filtered[0].0 == "$ref"] *)
Definition only_reference (filtered : Object) : option StrictValue :=
  match filtered with
  | [(key, raw)] => if String.eqb key "$ref" then Some raw else None
  | _ => None
  end.
(** The body of [lower_object]. *)
Definition lower_object_body (object : Object) (depth : Z) (pointer : string) : L Descriptor :=
  _ ← add_nodes 1 depth pointer;
  let filtered := List.filter (λ entry, negb (is_annotation entry.1)) object in
  _ ← L_lift (for_each (λ entry, if is_string entry.2 then Ok tt
                                 else refuse SchInvalidForm (join pointer entry.1))
                       (List.filter (λ entry, is_annotation entry.1) object));
  if existsb (λ entry, String.eqb entry.1 "$ref") object && negb (count object =? 1)
  then L_refuse SchUnsupportedKeyword pointer
  else
    match only_reference filtered with
    | Some raw => lower_ref raw depth pointer
    | None =>
      if existsb (λ entry, String.eqb entry.1 "oneOf") filtered
      then lower_union object depth pointer
      else lower_typed object depth pointer
    end.
End Nested.

(** [lower] and [lower_object].  Every call is at least one level deeper, and below the
    limit of the depth [lower_object] refuses at once: [levels] is one more than the
    levels that are left. *)
Fixpoint lower_object (levels : nat) (object : Object) (depth : Z) (pointer : string) : L Descriptor :=
  match levels with
  | O => L_refuse SchLimit pointer
  | S levels =>
    lower_object_body
      (λ value depth pointer,
         match value with
         | SvObject object => lower_object levels object depth pointer
         | _ => L_refuse SchInvalidForm pointer
         end) object depth pointer
  end.
Definition lower (levels : nat) (value : StrictValue) (depth : Z) (pointer : string) : L Descriptor :=
  match value with
  | SvObject object => lower_object levels object depth pointer
  | _ => L_refuse SchInvalidForm pointer
  end.

(** [root.iter().position(|(key, _)| key == name)] and [root.remove(index)]: the first
    entry with the key, and the others. *)
Fixpoint remove_key (key : string) (root : Object) : option (StrictValue * Object) :=
  match root with
  | [] => None
  | (k, v) :: root =>
    if String.eqb k key then Some (v, root)
    else '(found, rest) ← remove_key key root; Some (found, (k, v) :: rest)
  end.
Definition lower_definitions (root : Object) : result SchemaError (Object * Object) :=
  match remove_key "$defs" root with
  | None => Ok ([], root)
  | Some (SvObject entries, root) =>
    if sl_definitions limits <? count entries then refuse SchLimit "/$defs"
    else if negb (ensure_sorted_names entries) then refuse SchUnsortedSet "/$defs"
    else
      let? definitions :=
        try_fold (λ definitions entry,
                    try? check_name entry.1 limits "/$defs" in
                    Ok (btree_insert entry.1 entry.2 definitions)) [] entries in
      Ok (definitions, root)
  | Some _ => refuse SchInvalidForm "/$defs"
  end.
(** [Lowering::new]: the state and the root that is left. *)
Definition Lowering_new (root : Object) : result SchemaError (Object * Lowering) :=
  let? '(definitions, root) := lower_definitions root in
  let state := {| lw_definitions := definitions; lw_used_definitions := []; lw_reference_stack := [];
                  lw_nodes := 0; lw_properties := 0; lw_enum_strings := 0 |} in
  match remove_key "$schema" root with
  | None => Ok (root, state)
  | Some (SvString dialect, root) =>
    if String.eqb dialect SCHEMA_DIALECT then Ok (root, state) else refuse SchInvalidForm "/$schema"
  | Some _ => refuse SchInvalidForm "/$schema"
  end.
End Lower.

(** ** Tool schemas *)

Record ToolSchema := {
  ts_descriptor : Descriptor;
  ts_canonical : list Z;
  ts_digest : string;
  ts_source_bytes : Z;
  ts_definition_count : Z;
  ts_definition_name_bytes : Z }.

Section Schema.
Context `{FloatText}.

Definition max_name_bytes (definitions : Object) : Z :=
  fold_right Z.max 0 (map (λ entry, str_len entry.1) definitions).
Definition depth_levels (limits : SchemaLimits) : nat := Z.to_nat (sl_depth limits).
Definition ToolSchema_lower (raw : StrictValue) (source_bytes : Z) (limits : SchemaLimits)
    : result SchemaError ToolSchema :=
  match raw with
  | SvObject root =>
    let? '(root, initial) := Lowering_new limits root in
    let? '(descriptor, context) := lower_object limits (S (depth_levels limits)) root 1 "" initial in
    if negb (count (lw_used_definitions context) =? count (lw_definitions context))
    then refuse SchUnusedDefinition "/$defs"
    else
      let canonical := canonical_bytes descriptor in
      Ok {| ts_descriptor := descriptor;
            ts_canonical := canonical;
            ts_digest := digest_bytes canonical;
            ts_source_bytes := source_bytes;
            ts_definition_count := count (lw_definitions initial);
            ts_definition_name_bytes := max_name_bytes (lw_definitions initial) |}
  | _ => refuse SchInvalidForm ""
  end.

Context `{JsonText}.
Definition ToolSchema_parse (input : string) (limits : SchemaLimits) : result SchemaError ToolSchema :=
  if sl_schema_bytes limits <? str_len input then refuse SchLimit ""
  else
    let? raw := map_err (λ error, SchemaError_new (match error with
                                                   | StrictDuplicateKey => SchDuplicateKey
                                                   | StrictInvalid => SchInvalidJson
                                                   end) "") (parse_strict_value input) in
    ToolSchema_lower raw (str_len input) limits.

Definition ToolSchema_from_value (value : Json) (limits : SchemaLimits) : result SchemaError ToolSchema :=
  let input := canonical_json value in
  if sl_schema_bytes limits <? Z.of_nat (length input) then refuse SchLimit ""
  else if negb (utf8_valid input) then refuse SchInvalidJson ""
  else
    let? raw := map_err (λ _, SchemaError_new SchInvalidJson "") (parse_strict_value (string_of_bytes input)) in
    ToolSchema_lower raw (Z.of_nat (length input)) limits.
End Schema.

Definition fits_limits (schema : ToolSchema) (limits : SchemaLimits) : bool :=
  if (sl_schema_bytes limits <? ts_source_bytes schema)
     || (sl_definitions limits <? ts_definition_count schema)
     || (sl_name_bytes limits <? ts_definition_name_bytes schema)
  then false
  else
    let usage := collect_usage (ts_descriptor schema) 1 usage_default in
    (du_nodes usage <=? sl_nodes limits)
    && (du_depth usage <=? sl_depth limits)
    && (du_properties usage <=? sl_properties limits)
    && (du_enum_strings usage <=? sl_enum_strings limits)
    && (du_max_union_branches usage <=? Z.min (sl_union_branches limits) 64)
    && (du_max_name_bytes usage <=? sl_name_bytes limits)
    && (du_max_bound usage <=? sl_bound limits).
