(* ===== verification/SchemaValidate.v ===== *)
(** * Validation against descriptors ([crates/allen-schema/src/schema.rs])

    [Descriptor::validate]: the issues of a JSON value against a descriptor, as stable
    codes with JSON pointers, bounded in number and size by the limits. *)

From S2P Require Import Prelude.
From S2P Require Import Text.
From S2P Require Import VmValue.
From S2P Require Import JoshMessage.
From S2P Require Import VmJson.
From S2P Require Import RuntimeJson.
From S2P Require Import ArtifactChecks.
From S2P Require Import SchemaJson.
From S2P Require Import SchemaModel.
From S2P Require Import SchemaLower.
Open Scope string_scope.
Open Scope Z_scope.

Inductive ValidationCode :=
| VcType | VcMissingField | VcExtraField | VcMinimum | VcMaximum | VcLength | VcEnum | VcTag.
Definition ValidationCode_as_str (code : ValidationCode) : string :=
  match code with
  | VcType => "type"
  | VcMissingField => "missing_field"
  | VcExtraField => "extra_field"
  | VcMinimum => "minimum"
  | VcMaximum => "maximum"
  | VcLength => "length"
  | VcEnum => "enum"
  | VcTag => "tag"
  end.
Record ValidationIssue := { vi_pointer : string; vi_code : ValidationCode }.

(** The index goes down until it is not inside a character; index 0 never is. *)
Fixpoint floor_loop (value : string) (index : nat) : nat :=
  match index with
  | O => O
  | S below => if is_char_boundary value (Z.of_nat index) then index else floor_loop value below
  end.
Definition floor_char_boundary (value : string) (index : Z) : nat :=
  floor_loop value (Z.to_nat (Z.min index (str_len value))).

Definition as_array (v : Json) : option (list Json) := match v with JArray l => Some l | _ => None end.
Definition as_i64 (v : Json) : option Z := match v with JNumber n => number_as_i64 n | _ => None end.
Definition as_f64 (v : Json) : option Z := match v with JNumber n => number_as_f64 n | _ => None end.

Section Validate.
Variable limits : SchemaLimits.

Abbreviation Issues := (list ValidationIssue) (only parsing).
Definition max_issues : Z := Z.max (sl_validation_issues limits) 1.

Definition issue_pointer (pointer : string) : string :=
  if sl_issue_pointer_bytes limits <? str_len pointer
  then string_of_bytes (take (floor_char_boundary pointer (sl_issue_pointer_bytes limits)) (bytes pointer))
  else pointer.
Definition issue (pointer : string) (code : ValidationCode) (issues : Issues) : Issues :=
  if count issues <? max_issues
  then (issues ++ [{| vi_pointer := issue_pointer pointer; vi_code := code |}])%list
  else issues.
Definition issue_if (test : bool) (pointer : string) (code : ValidationCode) (issues : Issues) : Issues :=
  if test then issue pointer code issues else issues.

(** The loops, over the calls that validate the parts. *)
Abbreviation Check := (Json → string → Issues → Issues) (only parsing).
Definition validate_field (object : list (string * Json)) (pointer : string) (issues : Issues)
    (name : string) (check : Check) : Issues :=
  match btree_get name object with
  | Some value => check value (join pointer name) issues
  | None => issue (join pointer name) VcMissingField issues
  end.
Fixpoint validate_elements (check : Check) (pointer : string) (index : nat) (values : list Json)
    (issues : Issues) : Issues :=
  match values with
  | [] => issues
  | value :: values =>
    validate_elements check pointer (S index) values (check value (join pointer (index_text index)) issues)
  end.
Fixpoint validate_zip (pointer : string) (index : nat) (checks : list Check) (values : list Json)
    (issues : Issues) : Issues :=
  match checks, values with
  | check :: checks, value :: values =>
    validate_zip pointer (S index) checks values (check value (join pointer (index_text index)) issues)
  | _, _ => issues
  end.
Definition extra_keys (allowed : string → bool) (pointer : string) (object : list (string * Json))
    (issues : Issues) : Issues :=
  fold_left (λ issues entry, issue_if (negb (allowed entry.1)) (join pointer entry.1) VcExtraField issues)
            object issues.

Fixpoint validate_at (schema : Descriptor) (value : Json) (pointer : string) (issues : Issues) : Issues :=
  if max_issues <=? count issues then issues
  else
    match schema with
    | DUnit => match value with JNull => issues | _ => issue pointer VcType issues end
    | DBool => match value with JBool _ => issues | _ => issue pointer VcType issues end
    | DInt min max =>
      match as_i64 value with
      | Some number =>
        issue_if (max <? number) pointer VcMaximum (issue_if (number <? min) pointer VcMinimum issues)
      | None => issue pointer VcType issues
      end
    | DFloat min max =>
      match finite_f64 (as_f64 value) with
      | Some number =>
        issue_if (match max with Some max => f64_gtb number max | None => false end) pointer VcMaximum
          (issue_if (match min with Some min => f64_ltb number min | None => false end) pointer VcMinimum issues)
      | None => issue pointer VcType issues
      end
    | DString min max enumeration =>
      match as_str value with
      | Some text =>
        let length := count (chars text) in
        issue_if (negb (count enumeration =? 0)
                  && match binary_search_by (λ entry, str_compare entry text) enumeration with
                     | Some _ => false
                     | None => true
                     end) pointer VcEnum
          (issue_if (match min with Some min => length <? min | None => false end
                     || match max with Some max => max <? length | None => false end) pointer VcLength issues)
      | None => issue pointer VcType issues
      end
    | DList min max items =>
      match as_array value with
      | Some values =>
        validate_elements (validate_at items) pointer 0 values
          (issue_if ((count values <? min) || (max <? count values)) pointer VcLength issues)
      | None => issue pointer VcType issues
      end
    | DTuple items =>
      match as_array value with
      | Some values =>
        if count values =? count items then validate_zip pointer 0 (map validate_at items) values issues
        else issue pointer VcLength issues
      | None => issue pointer VcType issues
      end
    | DRecord fields =>
      match as_object value with
      | Some object =>
        extra_keys (λ key, match binary_search_by (λ field, str_compare (fd_name field) key) fields with
                           | Some _ => true
                           | None => false
                           end) pointer object
          (fold_left (λ issues field, validate_field object pointer issues (fd_name field) (validate_at (fd_schema field)))
                     fields issues)
      | None => issue pointer VcType issues
      end
    | DStringMap values =>
      match as_object value with
      | Some object =>
        fold_left (λ issues entry, validate_at values entry.2 (join pointer entry.1) issues) object issues
      | None => issue pointer VcType issues
      end
    | DTaggedUnion variants =>
      match as_object value with
      | Some object =>
        match (tag ← (v ← btree_get "tag" object; as_str v);
               List.find (λ variant, String.eqb variant.1 tag)
                 (map (λ variant, (vt_tag variant,
                                   map (λ field, (fd_name field, validate_at (fd_schema field)))
                                       (vt_fields variant))) variants)) with
        | Some (_, fields) =>
          extra_keys (λ key, String.eqb key "tag" || existsb (λ field, String.eqb field.1 key) fields)
            pointer object
            (fold_left (λ issues field, validate_field object pointer issues field.1 field.2) fields issues)
        | None => issue (join pointer "tag") VcTag issues
        end
      | None => issue pointer VcType issues
      end
    end.

Definition validate (schema : Descriptor) (value : Json) : result Issues unit :=
  match validate_at schema value "" [] with
  | [] => Ok tt
  | issues => Err issues
  end.
End Validate.
