(* ===== verification/SchemaCatalog.v ===== *)
(** * Tool names and catalogs ([crates/allen-schema/src/name.rs], [catalog.rs])

    Canonical tool names, the source identifiers and effects generated from them, the
    names of generated unions, the test that a catalog's generated names do not
    collide, frozen catalogs and the selection of tool contracts. *)

From S2P Require Import Prelude.
From S2P Require Import Text.
From S2P Require Import Bytecode.
From S2P Require Import VmValue.
From S2P Require Import JoshMessage.
From S2P Require Import VmJson.
From S2P Require Import ArtifactBytes.
From S2P Require Import ArtifactNames.
From S2P Require Import SchemaJson.
From S2P Require Import SchemaModel.
From S2P Require Import SchemaLower.
Open Scope string_scope.
Open Scope Z_scope.

(** ** Names *)

Inductive NameError := InvalidToolName | InvalidVersionMajor | Collision.

Definition bad_segment (segment : string) : bool :=
  str_is_empty segment || (63 <? str_len segment)
  || existsb (λ c, is_control c || is_whitespace c) (chars segment).
(** A [ToolName] is its text. *)
Definition ToolName_parse (value : string) : result NameError string :=
  if str_is_empty value || (255 <? str_len value) then Err InvalidToolName
  else if existsb bad_segment (split_char "."%char value) then Err InvalidToolName
  else Ok value.
Definition ToolName_parse_bytes (value : list Z) : result NameError string :=
  if utf8_valid value then ToolName_parse (string_of_bytes value) else Err InvalidToolName.
Definition segments (name : string) : list string := split_char "."%char name.

Definition upper_hex_char (d : Z) : Z := if d <? 10 then 48 + d else 55 + d.
Definition source_preserved (b : Z) : bool := is_ascii_alphanumeric b || (b =? 95).
Definition effect_preserved (b : Z) : bool := is_ascii_lowercase b || is_ascii_digit b || (b =? 95).

Definition reserved_words : list string :=
  ["Bool"; "Bytes"; "Float"; "Int"; "List"; "Map"; "Never"; "Option"; "Result"; "String"; "Void"; "any";
   "async"; "await"; "break"; "catch"; "continue"; "detach"; "effects"; "else"; "enum"; "export"; "false";
   "fn"; "for"; "if"; "import"; "in"; "let"; "manifest"; "map"; "match"; "mut"; "record"; "return"; "scope";
   "spawn"; "throw"; "true"; "type"; "try"; "undefined"; "unknown"; "while"; "null"].
Definition is_reserved_word (value : string) : bool := existsb (String.eqb value) reserved_words.

(** Preserved bytes are kept, the others written as [_xHH_]; [_n_] is put before a name
    whose first preserved byte is a digit. *)
Definition mangle (preserved : Z → bool) (hex : Z → list Z) (segment : string) : string :=
  let output :=
    flat_map (λ b, if preserved b then [b] else ([95; 120] ++ hex b ++ [95])%list) (bytes segment) in
  let numeric := match List.find preserved (bytes segment) with Some b => is_ascii_digit b | None => false end in
  string_of_bytes (if numeric then ([95; 110; 95] ++ output)%list else output).
Definition mangle_source_segment (segment : string) : string :=
  let output := mangle source_preserved (λ b, [upper_hex_char (b / 16); upper_hex_char (b mod 16)]) segment in
  if is_reserved_word output then "_kw_" ++ output else output.
Definition mangle_effect_segment (segment : string) : string :=
  mangle effect_preserved Names.hex_byte segment.

Definition generated_tool_effect (name : string) (version : ExactVersion) : result NameError string :=
  if ev_major version =? 0 then Err InvalidVersionMajor
  else Ok ("tool." ++ join_char "."%char (map mangle_effect_segment (segments name))
           ++ "@" ++ int_text (ev_major version)).

(** ** Generated unions *)

Inductive SchemaRole := RoleInput | RoleOutput | RoleError.
Definition role_prefix (role : SchemaRole) : string :=
  match role with
  | RoleInput => "Input_union_"
  | RoleOutput => "Output_union_"
  | RoleError => "Error_union_"
  end.
Definition role_root (role : SchemaRole) : string :=
  match role with RoleInput => "/input" | RoleOutput => "/output" | RoleError => "/error" end.

Record GeneratedName := { gn_source_name : string; gn_pointer : string; gn_variants : list string }.

Definition union_name (role : SchemaRole) (pointer : string) (variants : list (Variant Descriptor)) : GeneratedName := {|
  gn_source_name := role_prefix role ++ String.substring 0 16 (Names.lower_hex (sha256 (bytes pointer)));
  gn_pointer := pointer;
  gn_variants := map (λ variant, "_tag_" ++ mangle_source_segment (vt_tag variant)) variants |}.
(** The declarations under a list of descriptors, each with its pointer. *)
Fixpoint collect_unions (d : Descriptor) (role : SchemaRole) (pointer : string) : list GeneratedName :=
  match d with
  | DList _ _ items => collect_unions items role (join pointer "items")
  | DTuple items =>
    (fix go (index : nat) (items : list Descriptor) : list GeneratedName :=
       match items with
       | [] => []
       | item :: items =>
         (collect_unions item role (join (join pointer "items") (index_text index)) ++ go (S index) items)%list
       end) 0%nat items
  | DRecord fields =>
    flat_map (λ field, collect_unions (fd_schema field) role (join (join pointer "fields") (fd_name field))) fields
  | DStringMap values => collect_unions values role (join pointer "values")
  | DTaggedUnion variants =>
    union_name role pointer variants
    :: (fix go (index : nat) (variants : list (Variant Descriptor)) : list GeneratedName :=
          match variants with
          | [] => []
          | variant :: variants =>
            (flat_map (λ field,
               collect_unions (fd_schema field) role
                 (join (join (join (join pointer "variants") (index_text index)) "fields") (fd_name field)))
               (vt_fields variant) ++ go (S index) variants)%list
          end) 0%nat variants
  | DUnit | DBool | DInt _ _ | DFloat _ _ | DString _ _ _ => []
  end.
Definition union_declarations (d : Descriptor) (role : SchemaRole) : list GeneratedName :=
  collect_unions d role (role_root role).

(** ** Tools *)

Inductive Idempotency := IdemUnknown | Idempotent | NonIdempotent.
Definition Idempotency_as_str (i : Idempotency) : string :=
  match i with IdemUnknown => "unknown" | Idempotent => "idempotent" | NonIdempotent => "non_idempotent" end.

Record ToolDefinition := {
  td_name : string;
  td_version : ExactVersion;
  td_input_schema : ToolSchema;
  td_output_schema : ToolSchema;
  td_error_schema : ToolSchema;
  td_effects : list string;
  td_idempotency : Idempotency }.

(** ** Namespaces *)

Inductive Namespace := MkNamespace
  (source_segments : list (string * string)) (children : list (string * Namespace)) (leaf : option ToolDefinition).
Definition empty_namespace : Namespace := MkNamespace [] [] None.

(** One tool of the loop: its segments lead to its namespace. *)
Fixpoint insert_tool (path : list string) (tool : ToolDefinition) (namespace : Namespace)
    : result NameError Namespace :=
  let '(MkNamespace source_segments children leaf) := namespace in
  match path with
  | [] =>
    match leaf with
    | Some _ => Err Collision
    | None => Ok (MkNamespace source_segments children (Some tool))
    end
  | segment :: path =>
    let mangled := mangle_source_segment segment in
    if match btree_get mangled source_segments with
       | Some existing => negb (String.eqb existing segment)
       | None => false
       end
    then Err Collision
    else
      let? child := insert_tool path tool (default empty_namespace (btree_get mangled children)) in
      Ok (MkNamespace (btree_insert mangled segment source_segments) (btree_insert mangled child children) leaf)
  end.

Fixpoint insert_names (names members : list string) : result NameError (list string) :=
  match names with
  | [] => Ok members
  | name :: names =>
    if existsb (String.eqb name) members then Err Collision else insert_names names (name :: members)
  end.
(** The declarations of one schema: their names and, for each, its variants. *)
Fixpoint insert_declarations (declarations : list GeneratedName) (members : list string)
    : result NameError (list string) :=
  match declarations with
  | [] => Ok members
  | declaration :: declarations =>
    let? members := insert_names [gn_source_name declaration] members in
    try? insert_names (gn_variants declaration) [] in
    insert_declarations declarations members
  end.
Definition validate_leaf (tool : ToolDefinition) (children : list string) : result NameError unit :=
  let? members := insert_names children ["Input"; "Output"; "Error"; "call"] in
  let? members := insert_declarations (union_declarations (ts_descriptor (td_input_schema tool)) RoleInput) members in
  let? members := insert_declarations (union_declarations (ts_descriptor (td_output_schema tool)) RoleOutput) members in
  let? members := insert_declarations (union_declarations (ts_descriptor (td_error_schema tool)) RoleError) members in
  Ok tt.
Fixpoint validate_namespace (namespace : Namespace) : result NameError unit :=
  let '(MkNamespace _ children leaf) := namespace in
  try? match leaf with Some tool => validate_leaf tool (map fst children) | None => Ok tt end in
  for_each (λ child, validate_namespace child.2) children.

Fixpoint insert_tools (tools : list ToolDefinition) (root : Namespace) (effects : list string)
    : result NameError Namespace :=
  match tools with
  | [] => Ok root
  | tool :: tools =>
    let? root := insert_tool (segments (td_name tool)) tool root in
    let? effect := generated_tool_effect (td_name tool) (td_version tool) in
    let? effects := insert_names [effect] effects in
    insert_tools tools root effects
  end.
Definition validate_generated_names (tools : list ToolDefinition) : result NameError unit :=
  let? root := insert_tools tools empty_namespace [] in
  validate_namespace root.

(** ** Catalogs *)

Inductive CatalogError :=
| CatDialect | CatName (error : NameError) | CatVersion | CatSchema (error : SchemaError) | CatEffect
| CatOrder | CatLimit | CatMissingTool | CatVersionUnsatisfied | CatContract.

Record CatalogLimits := { cl_tools : Z; cl_decoded_schema_bytes : Z; cl_schema : SchemaLimits }.
Definition CatalogLimits_default : CatalogLimits := {|
  cl_tools := 256; cl_decoded_schema_bytes := 3 * 1024 * 1024; cl_schema := SchemaLimits_default |}.
Definition CatalogLimits_bounded_by (self host : CatalogLimits) : CatalogLimits := {|
  cl_tools := Z.min (cl_tools self) (cl_tools host);
  cl_decoded_schema_bytes := Z.min (cl_decoded_schema_bytes self) (cl_decoded_schema_bytes host);
  cl_schema := SchemaLimits_bounded_by (cl_schema self) (cl_schema host) |}.

Definition canonical_effect_segment (segment : string) : bool :=
  match bytes segment with
  | [] => false
  | b :: rest =>
    is_ascii_lowercase b && forallb (λ b, is_ascii_lowercase b || is_ascii_digit b || (b =? 95)) rest
  end.
Definition is_canonical_effect (effect : string) : bool :=
  let '(base, version) :=
    match rsplit_once "@" effect with Some (base, version) => (base, Some version) | None => (effect, None) end in
  let bad_version :=
    match version with
    | Some v => str_is_empty v || starts_with "0" v || negb (forallb is_ascii_digit (bytes v))
    | None => false
    end in
  if bad_version then false
  else negb (str_is_empty base) && forallb canonical_effect_segment (split_char "."%char base).
Definition is_digest (value : string) : bool :=
  (str_len value =? 71)
  && match strip_prefix "sha256:" value with
     | Some hex => forallb (λ b, is_ascii_digit b || between 97 102 b) (bytes hex)
     | None => false
     end.

Definition ToolDefinition_validate (tool : ToolDefinition) : result CatalogError unit :=
  try? map_err CatName (generated_tool_effect (td_name tool) (td_version tool)) in
  if (32 <? count (td_effects tool)) || windows2_any str_geb (td_effects tool)
     || existsb (λ effect, negb (is_canonical_effect effect)) (td_effects tool)
  then Err CatEffect
  else Ok tt.
Definition ToolDefinition_parse `{FloatText, JsonText} (name version input_schema output_schema error_schema : string)
    (effects : list string) (idempotency : Idempotency) (limits : SchemaLimits)
    : result CatalogError ToolDefinition :=
  let? name := map_err CatName (ToolName_parse name) in
  let? version := ok_or (ExactVersion_parse version) CatVersion in
  let? input := map_err CatSchema (ToolSchema_parse input_schema limits) in
  let? output := map_err CatSchema (ToolSchema_parse output_schema limits) in
  let? error := map_err CatSchema (ToolSchema_parse error_schema limits) in
  let definition := {| td_name := name; td_version := version; td_input_schema := input;
                       td_output_schema := output; td_error_schema := error; td_effects := effects;
                       td_idempotency := idempotency |} in
  try? ToolDefinition_validate definition in
  Ok definition.
Definition digest_value (tool : ToolDefinition) : Json :=
  json_object [("error_schema", JString (ts_digest (td_error_schema tool)));
               ("effects", JArray (map JString (td_effects tool)));
               ("idempotency", JString (Idempotency_as_str (td_idempotency tool)));
               ("input_schema", JString (ts_digest (td_input_schema tool)));
               ("name", JString (td_name tool));
               ("output_schema", JString (ts_digest (td_output_schema tool)));
               ("version", JString (ExactVersion_to_string (td_version tool)))].

(** [by_name] maps the name of a tool to its index. *)
Record FrozenCatalog := {
  fc_tools : list ToolDefinition;
  fc_by_name : list (string * nat);
  fc_digest : string }.

Definition sum_schema_bytes (total : Z) (tool : ToolDefinition) : option Z :=
  a ← checked (in_unsigned usize_max) (total + ts_source_bytes (td_input_schema tool));
  b ← checked (in_unsigned usize_max) (a + ts_source_bytes (td_output_schema tool));
  checked (in_unsigned usize_max) (b + ts_source_bytes (td_error_schema tool)).
(** The body of the loop over the tools. *)
Definition freeze_tool (limits : CatalogLimits) (schema_bytes : Z) (tool : ToolDefinition)
    : result CatalogError Z :=
  try? ToolDefinition_validate tool in
  if negb (fits_limits (td_input_schema tool) (cl_schema limits))
     || negb (fits_limits (td_output_schema tool) (cl_schema limits))
     || negb (fits_limits (td_error_schema tool) (cl_schema limits))
  then Err CatLimit
  else
    let? schema_bytes := ok_or (sum_schema_bytes schema_bytes tool) CatLimit in
    if Z.min (cl_decoded_schema_bytes limits) (3 * 1024 * 1024) <? schema_bytes then Err CatLimit
    else Ok schema_bytes.

Definition names_unsorted {A} (name : A → string) (l : list A) : bool :=
  windows2_any (λ left right, str_geb (name left) (name right)) l.
Definition catalog_json (tools : list ToolDefinition) : Json :=
  json_object [("schema_dialect", JString SCHEMA_DIALECT); ("tools", JArray (map digest_value tools))].
Definition index_names (tools : list ToolDefinition) : list (string * nat) :=
  fold_left (λ by_name entry, btree_insert entry.1 entry.2 by_name)
            (zip (map td_name tools) (seq 0 (length tools))) [].
Definition freeze_with_dialect `{FloatText} (dialect : string) (tools : list ToolDefinition) (limits : CatalogLimits)
    : result CatalogError FrozenCatalog :=
  if negb (String.eqb dialect SCHEMA_DIALECT) then Err CatDialect
  else if Z.min (cl_tools limits) 256 <? count tools then Err CatLimit
  else if names_unsorted td_name tools then Err CatOrder
  else
    let? schema_bytes := try_fold (freeze_tool limits) 0 tools in
    try? map_err CatName (validate_generated_names tools) in
    Ok {| fc_tools := tools;
          fc_by_name := index_names tools;
          fc_digest := digest_bytes (canonical_json (catalog_json tools)) |}.
Definition freeze `{FloatText} (tools : list ToolDefinition) (limits : CatalogLimits)
    : result CatalogError FrozenCatalog := freeze_with_dialect SCHEMA_DIALECT tools limits.
(** [&self.tools[*index]]: the indices of [by_name] are those of [tools]; [None] also
    stands for the panic of an index out of range. *)
Definition catalog_get (catalog : FrozenCatalog) (name : string) : option ToolDefinition :=
  index ← btree_get name (fc_by_name catalog); fc_tools catalog !! index.

(** ** Contracts *)

Record ToolRequirement := { tr_name : string; tr_version : VersionRange }.
Definition ToolRequirement_parse (name version : string) : result CatalogError ToolRequirement :=
  let? name := map_err CatName (ToolName_parse name) in
  let? version := ok_or (VersionRange_parse version) CatVersion in
  Ok {| tr_name := name; tr_version := version |}.

Record SelectedToolContract := {
  sc_name : string;
  sc_version_requirement : VersionRange;
  sc_version : ExactVersion;
  sc_effect : string;
  sc_input_schema : string;
  sc_output_schema : string;
  sc_error_schema : string }.

Definition select_one (catalog : FrozenCatalog) (requirement : ToolRequirement)
    : result CatalogError SelectedToolContract :=
  let? tool := ok_or (catalog_get catalog (tr_name requirement)) CatMissingTool in
  if negb (VersionRange_contains (tr_version requirement) (td_version tool)) then Err CatVersionUnsatisfied
  else
    let? effect := map_err CatName (generated_tool_effect (td_name tool) (td_version tool)) in
    Ok {| sc_name := td_name tool;
          sc_version_requirement := tr_version requirement;
          sc_version := td_version tool;
          sc_effect := effect;
          sc_input_schema := ts_digest (td_input_schema tool);
          sc_output_schema := ts_digest (td_output_schema tool);
          sc_error_schema := ts_digest (td_error_schema tool) |}.
Definition select (catalog : FrozenCatalog) (requirements : list ToolRequirement)
    : result CatalogError (list SelectedToolContract) :=
  if names_unsorted tr_name requirements then Err CatOrder
  else collect (select_one catalog) requirements.

Definition contract_value (contract : SelectedToolContract) : Json :=
  json_object [("effect", JString (sc_effect contract));
               ("error_schema", JString (sc_error_schema contract));
               ("input_schema", JString (sc_input_schema contract));
               ("name", JString (sc_name contract));
               ("output_schema", JString (sc_output_schema contract));
               ("version", JString (ExactVersion_to_string (sc_version contract)));
               ("version_requirement", JString (VersionRange_to_string (sc_version_requirement contract)))].
Definition check_contract (contract : SelectedToolContract) : result CatalogError unit :=
  if negb (VersionRange_contains (sc_version_requirement contract) (sc_version contract)) then Err CatContract
  else
    let? effect := map_err CatName (generated_tool_effect (sc_name contract) (sc_version contract)) in
    if negb (String.eqb (sc_effect contract) effect) || negb (is_digest (sc_input_schema contract))
       || negb (is_digest (sc_output_schema contract)) || negb (is_digest (sc_error_schema contract))
    then Err CatContract
    else Ok tt.
Definition selected_tool_contract_digest `{FloatText} (contracts : list SelectedToolContract)
    : result CatalogError string :=
  if names_unsorted sc_name contracts then Err CatOrder
  else
    try? for_each check_contract contracts in
    Ok (digest_bytes (canonical_json (json_object [("tools", JArray (map contract_value contracts))]))).
