(* ===== verification/SchemaCanonical.v ===== *)
(** * Canonical text identifies descriptors

    Canonical JSON is uniquely readable: two values with the same text agree in
    everything but how a number is represented.  Hence two descriptors with the same
    canonical bytes, over which schema digests are taken, are the same descriptor. *)

From S2P Require Import Prelude.
From S2P Require Import Text.
From S2P Require Import JoshMessage.
From S2P Require Import JoshFraming.
From S2P Require Import VmOps.
From S2P Require Import VmJson.
From S2P Require Import RuntimeJson.
From S2P Require Import ArtifactNames.
From S2P Require Import ArtifactDigest.
From S2P Require Import SchemaJson.
From S2P Require Import SchemaModel.
Open Scope string_scope.
Open Scope list_scope.
Open Scope Z_scope.

(** ** Strings *)

Lemma write_char_spec b :
  0 <= b →
  (b = 34 ∧ write_char b = [92; 34]) ∨ (b = 92 ∧ write_char b = [92; 92])
  ∨ (b <= 31 ∧ write_char b = [92; 117; 48; 48] ++ Names.hex_byte b)
  ∨ (31 < b ∧ b ≠ 34 ∧ b ≠ 92 ∧ write_char b = [b]).
Proof.
  intros Hb. unfold write_char.
  destruct (Z.eqb_spec b 34) as [->|]; [by left|]. destruct (Z.eqb_spec b 92) as [->|]; [by right; left|].
  destruct (Z.leb_spec b 31); [by right; right; left|]. right; right; right. split_and!; (done || lia).
Qed.

Lemma hex_byte_inj a b : 0 <= a < 256 → 0 <= b < 256 → Names.hex_byte a = Names.hex_byte b → a = b.
Proof.
  intros Ha Hb. unfold Names.hex_byte, hex_char. intros [= H1 H2].
  assert (a / 16 = b / 16 ∧ a mod 16 = b mod 16) as [Hd Hm].
  { pose proof (Z.mod_pos_bound a 16). pose proof (Z.mod_pos_bound b 16).
    assert (0 <= a / 16 < 16) by (split; [apply Z.div_pos|apply Z.div_lt_upper_bound]; lia).
    assert (0 <= b / 16 < 16) by (split; [apply Z.div_pos|apply Z.div_lt_upper_bound]; lia).
    revert H1 H2. repeat case_match; boolify; lia. }
  rewrite (Z.div_mod a 16), (Z.div_mod b 16) by lia. by rewrite Hd, Hm.
Qed.

(** The code of a byte is never a prefix of another's, and none starts with a quote. *)
Lemma write_char_inj b c r s :
  0 <= b < 256 → 0 <= c < 256 → write_char b ++ r = write_char c ++ s → b = c ∧ r = s.
Proof.
  intros Hb Hc Heq. pose proof (write_char_spec b ltac:(lia)) as Sb. pose proof (write_char_spec c ltac:(lia)) as Sc.
  destruct Sb as [[Vb Eb]|[[Vb Eb]|[[Vb Eb]|(Vb & Hb2 & Hb3 & Eb)]]];
  destruct Sc as [[Vc Ec]|[[Vc Ec]|[[Vc Ec]|(Vc & Hc2 & Hc3 & Ec)]]];
  rewrite Eb, Ec in Heq; simpl in Heq; try (injection Heq; intros; subst; done || lia); try done.
  injection Heq as H1 H2 H3. split; [|done]. apply hex_byte_inj; [lia..|].
  unfold Names.hex_byte. by rewrite H1, H2.
Qed.

Lemma write_char_head b : 0 <= b → ∃ x t, write_char b = x :: t ∧ x ≠ 34.
Proof.
  intros Hb. destruct (write_char_spec b Hb) as [[_ ->]|[[_ ->]|[[_ ->]|(? & ? & ? & ->)]]]; eauto.
Qed.

Lemma write_chars_inj bs cs r s :
  Forall (λ b, is_byte b = true) bs → Forall (λ b, is_byte b = true) cs →
  flat_map write_char bs ++ 34 :: r = flat_map write_char cs ++ 34 :: s → bs = cs ∧ r = s.
Proof.
  intros Hbs. revert cs. induction Hbs as [|b bs Hb Hbs IH]; intros cs Hcs Heq.
  - destruct cs as [|c cs]; [by injection Heq|]. inversion Hcs as [|? ? Hc _]; subst.
    apply in_unsigned_spec in Hc. destruct (write_char_head c) as (x & t & E & Hx); [lia|].
    simpl in Heq. rewrite E in Heq. injection Heq. congruence.
  - apply in_unsigned_spec in Hb. destruct cs as [|c cs].
    { destruct (write_char_head b) as (x & t & E & Hx); [lia|].
      simpl in Heq. rewrite E in Heq. injection Heq. congruence. }
    inversion Hcs as [|? ? Hc Hcs']; subst. apply in_unsigned_spec in Hc. simpl in Heq. rewrite <- !app_assoc in Heq.
    apply write_char_inj in Heq as [-> Heq]; [|unfold u8_max in *; lia..].
    by apply IH in Heq as [-> ->].
Qed.

Lemma write_string_inj s t r r' : write_string s ++ r = write_string t ++ r' → s = t ∧ r = r'.
Proof.
  unfold write_string. simpl. rewrite <- !app_assoc. simpl. intros [= Heq].
  apply write_chars_inj in Heq as [Hb ->]; [|apply bytes_are_bytes..]. split; [|done]. by apply bytes_eq_iff.
Qed.

(** ** Numbers *)

Definition number_byte (b : Z) : bool :=
  is_ascii_digit b || (b =? 45) || (b =? 43) || (b =? 46) || (b =? 101).
Definition is_f64_bits (bits : Z) : bool := in_unsigned u64_max bits && is_finite_bits bits.

(** What the formatting of floats documents: digits, signs, a point and an exponent;
    the text determines the float; an integral float ends in [.0] after the digits of an
    integer, and no float has the text of an integer. *)
Class FloatTextLaws `{FloatText} := {
  float_text_number bits :
    is_f64_bits bits = true → float_text bits ≠ ""%string ∧ forallb number_byte (bytes (float_text bits)) = true;
  float_text_inj a b : is_f64_bits a = true → is_f64_bits b = true → float_text a = float_text b → a = b;
  float_text_integral bits prefix :
    is_f64_bits bits = true → bytes (float_text bits) = prefix ++ [46; 48] →
    prefix ≠ [] ∧ forallb (λ b, is_ascii_digit b || (b =? 45)) prefix = true;
  float_text_point bits :
    is_f64_bits bits = true → forallb (λ b, is_ascii_digit b || (b =? 45)) (bytes (float_text bits)) = false }.

Lemma int_text_bytes z :
  bytes (int_text z) = if z <? 0 then 45 :: decimal_bytes (- z) else decimal_bytes z.
Proof.
  assert (∀ n, bytes (string_of_bytes (decimal_bytes n)) = decimal_bytes n) as Hd.
  { intros n. apply bytes_string_of_bytes. pose proof (decimal_bytes_digits n) as Hall. unfold all_digits in Hall.
    rewrite forallb_forall in Hall. apply Forall_forall. intros b Hb%list_elem_of_In%Hall.
    apply between_spec in Hb. apply in_unsigned_spec. unfold u8_max. lia. }
  unfold int_text. destruct (z <? 0); [|apply Hd]. by rewrite bytes_app, Hd.
Qed.

Lemma decimal_bytes_inj a b : 0 <= a → 0 <= b → decimal_bytes a = decimal_bytes b → a = b.
Proof. intros Ha Hb Heq. rewrite <- (digits_value_decimal a), <- (digits_value_decimal b), Heq by done. done. Qed.

Lemma decimal_not_minus n t : decimal_bytes n ≠ 45 :: t.
Proof. intros E. pose proof (decimal_bytes_digits n) as Hall. rewrite E in Hall. done. Qed.

Lemma int_text_inj a b : bytes (int_text a) = bytes (int_text b) → a = b.
Proof.
  rewrite !int_text_bytes. destruct (Z.ltb_spec a 0), (Z.ltb_spec b 0); intros Heq.
  - injection Heq as Heq. apply decimal_bytes_inj in Heq; lia.
  - by apply symmetry, decimal_not_minus in Heq.
  - by apply decimal_not_minus in Heq.
  - by apply decimal_bytes_inj.
Qed.

Lemma bytes_str_drop n s : bytes (str_drop n s) = drop n (bytes s).
Proof. revert s. induction n as [|n IH]; intros [|c s]; try done. apply IH. Qed.

Lemma ends_with_bytes p s :
  ends_with p s = true → bytes s = take (String.length s - String.length p) (bytes s) ++ bytes p.
Proof.
  unfold ends_with. intros [_ Hd%bool_decide_eq_true]%andb_true_iff.
  rewrite <- Hd at 2. by rewrite bytes_str_drop, take_drop.
Qed.

Section Injective.
Context {FT : FloatText} {FTL : FloatTextLaws}.

Definition number_ok (n : JsonNumber) : Prop :=
  match n with NFloat bits => is_f64_bits bits = true | _ => True end.

Lemma number_bytes_float bits :
  is_f64_bits bits = true →
  (∃ prefix, bytes (float_text bits) = prefix ++ [46; 48] ∧ number_bytes (NFloat bits) = prefix)
  ∨ number_bytes (NFloat bits) = bytes (float_text bits).
Proof.
  intros Hb. unfold number_bytes. cbn [is_f64 number_to_string].
  destruct (ends_with _ _) eqn:He; [|by right]. destruct (negb _); [|by right]. left.
  apply ends_with_bytes in He. eexists. split; [exact He|]. done.
Qed.

Lemma number_bytes_float_inj a b :
  is_f64_bits a = true → is_f64_bits b = true → number_bytes (NFloat a) = number_bytes (NFloat b) → a = b.
Proof using FTL.
  intros Ha Hb Heq. apply float_text_inj; [done..|]. apply bytes_eq_iff.
  destruct (number_bytes_float a Ha) as [(p & Ea & Na)|Na], (number_bytes_float b Hb) as [(q & Eb & Nb)|Nb].
  - congruence.
  - apply float_text_integral in Ea as [_ Ea]; [|done]. apply float_text_point in Hb. congruence.
  - apply float_text_integral in Eb as [_ Eb]; [|done]. apply float_text_point in Ha. congruence.
  - congruence.
Qed.

Lemma digits_number ds : forallb (λ b, is_ascii_digit b || (b =? 45)) ds = true → forallb number_byte ds = true.
Proof.
  rewrite !forallb_forall. intros Hd b Hb. unfold number_byte.
  specialize (Hd b Hb). by rewrite Hd.
Qed.

Lemma number_bytes_number n :
  number_ok n → number_bytes n ≠ [] ∧ forallb number_byte (number_bytes n) = true.
Proof using FTL.
  intros Hn.
  assert (∀ z, bytes (int_text z) ≠ [] ∧ forallb number_byte (bytes (int_text z)) = true) as Hint.
  { intros z. rewrite int_text_bytes.
    assert (∀ n, forallb number_byte (decimal_bytes n) = true) as Hd.
    { intros k. pose proof (decimal_bytes_digits k) as Hall. unfold all_digits in Hall. rewrite forallb_forall in *.
      intros b Hb%Hall. unfold number_byte. by rewrite Hb. }
    destruct (Z.ltb_spec z 0); [split; [done|apply Hd]|]. split; [|apply Hd].
    destruct (decimal_bytes_head z) as (d & ds & -> & _); done. }
  destruct n as [z|z|bits]; [apply Hint..|].
  destruct (number_bytes_float bits Hn) as [(p & E & ->) | ->].
  - apply float_text_integral in E as [Hne Hd]; [|done]. split; [done|]. by apply digits_number.
  - destruct (float_text_number bits Hn) as [Hne Hd]. split; [|done].
    intros E. apply Hne. by apply bytes_eq_iff.
Qed.

(** ** Values *)

(** The value that follows a value in canonical text is separated from it. *)
Definition delimited (r : list Z) : Prop :=
  match r with [] => True | b :: _ => b = 44 ∨ b = 93 ∨ b = 125 end.

Lemma number_span ds es r s :
  forallb number_byte ds = true → forallb number_byte es = true → delimited r → delimited s →
  ds ++ r = es ++ s → ds = es ∧ r = s.
Proof.
  assert (∀ b t, delimited (b :: t) → number_byte b = true → False) as Hdel.
  { intros b t [Hb|[Hb|Hb]]; by subst. }
  revert es. induction ds as [|d ds IH]; intros [|e es] Hds Hes Hr Hs Heq; simpl in *; boolify.
  - done.
  - subst. exfalso. eauto.
  - subst. exfalso. eauto.
  - injection Heq as -> Heq. apply IH in Heq as [-> ->]; done.
Qed.

(** Elements between commas, read from their text up to the closing byte. *)
Lemma elements_inj {A} (f : A → list Z) (Q : A → Prop) (R : A → A → Prop) (close : Z) xs ys r s :
  close = 93 ∨ close = 125 →
  (∀ x, Q x → ∃ b t, f x = b :: t ∧ b ≠ close) →
  Forall (λ x, Q x ∧ ∀ y r s, Q y → delimited r → delimited s → f x ++ r = f y ++ s → R x y ∧ r = s) xs →
  Forall Q ys →
  join_bytes [44] (map f xs) ++ close :: r = join_bytes [44] (map f ys) ++ close :: s →
  Forall2 R xs ys ∧ r = s.
Proof.
  intros Hclose Hhead Hxs. revert ys. induction Hxs as [|x xs [Hx Hinj] Hxs IH]; intros ys Hys Heq.
  - destruct ys as [|y ys]; [injection Heq as ->; by split|]. exfalso. inversion Hys as [|? ? Hy _]; subst.
    destruct (Hhead y Hy) as (b & t & E & Hb).
    destruct ys; cbn [map join_bytes] in Heq; rewrite E in Heq; injection Heq; congruence.
  - destruct ys as [|y ys].
    { exfalso. destruct (Hhead x Hx) as (b & t & E & Hb).
      destruct xs; cbn [map join_bytes] in Heq; rewrite E in Heq; injection Heq; congruence. }
    inversion Hys as [|? ? Hy Hys']; subst.
    assert (∀ l t, join_bytes [44] (f l :: map f t)
                   = f l ++ match t with [] => [] | _ => 44 :: join_bytes [44] (map f t) end) as Hj.
    { intros l [|? t]; cbn [map join_bytes]; [by rewrite app_nil_r|done]. }
    cbn [map] in Heq. rewrite !Hj, <- !app_assoc in Heq.
    assert (∀ t q, delimited (match t with [] => [] | _ => 44 :: join_bytes [44] (map f t) end ++ close :: q)) as Hd.
    { intros [|? t] q; simpl; [destruct Hclose; auto|auto]. }
    apply Hinj in Heq as [HR Heq]; [|done..].
    destruct xs as [|x' xs], ys as [|y' ys]; cbn [app] in Heq.
    + injection Heq as ->. split; [by repeat constructor|done].
    + injection Heq. destruct Hclose; lia.
    + injection Heq. destruct Hclose; lia.
    + injection Heq as Heq. apply (IH (y' :: ys)) in Heq as [HRs ->]; [|done]. split; [by constructor|done].
Qed.

Lemma sort_by_id {A} (cmp : A → A → comparison) l :
  StronglySorted (λ y z, cmp y z = Lt) l → sort_by cmp l = l.
Proof.
  induction l as [|x l IH] using rev_ind; intros Hs; [done|].
  apply StronglySorted_app in Hs as Hs'. destruct Hs' as (Hc & Hl & _).
  rewrite sort_by_sorted by done. apply insert_by_last. apply Forall_forall. intros y Hy.
  apply Hc; [done|constructor].
Qed.

(** The same value, up to the representation of numbers with the same text. *)
Inductive same_json : Json → Json → Prop :=
| same_null : same_json JNull JNull
| same_bool b : same_json (JBool b) (JBool b)
| same_number n m : number_bytes n = number_bytes m → same_json (JNumber n) (JNumber m)
| same_string s : same_json (JString s) (JString s)
| same_array l l' : Forall2 same_json l l' → same_json (JArray l) (JArray l')
| same_object m m' :
  Forall2 (λ e e', e.1 = e'.1 ∧ same_json e.2 e'.2) m m' → same_json (JObject m) (JObject m').

(** Objects are maps, numbers are finite. *)
Inductive json_ok : Json → Prop :=
| ok_null : json_ok JNull
| ok_bool b : json_ok (JBool b)
| ok_number n : number_ok n → json_ok (JNumber n)
| ok_string s : json_ok (JString s)
| ok_array l : Forall json_ok l → json_ok (JArray l)
| ok_object m : btree_sorted m → Forall (λ e, json_ok e.2) m → json_ok (JObject m).

Lemma write_object m :
  btree_sorted m →
  write_value (JObject m)
  = [123] ++ join_bytes [44] (map (λ e, write_string e.1 ++ 58 :: write_value e.2) m) ++ [125].
Proof.
  intros Hs. cbn [write_value]. f_equal. f_equal. f_equal.
  rewrite sort_by_id.
  - rewrite map_map. apply map_ext. by intros [k v].
  - unfold btree_sorted in Hs. rewrite <- (map_id m) in Hs at 1.
    induction m as [|[k v] m IH]; simpl in *; [constructor|].
    inversion Hs as [|? ? Hs' Hall]; subst. constructor; [by apply IH|].
    apply Forall_forall. intros e He. apply list_elem_of_fmap in He as ([k' v'] & -> & Hin).
    unfold key_compare. simpl. apply str_compare_Lt. rewrite Forall_forall in Hall. apply Hall.
    apply list_elem_of_fmap. eexists (k', v'). split; [done|]. by rewrite map_id.
Qed.

(** The first byte tells the kind of a value. *)
Definition head_byte (v : Json) (b : Z) : Prop :=
  match v with
  | JNull => b = 110
  | JBool true => b = 116
  | JBool false => b = 102
  | JNumber _ => number_byte b = true
  | JString _ => b = 34
  | JArray _ => b = 91
  | JObject _ => b = 123
  end.
Lemma write_value_head v : json_ok v → ∃ b t, write_value v = b :: t ∧ head_byte v b.
Proof using FTL.
  intros Hv. destruct Hv as [|[]|n Hn|s|l _|m _ _]; try (eexists _, _; split; reflexivity).
  destruct (number_bytes_number n Hn) as [Hne Hd]. cbn [write_value].
  destruct (number_bytes n) as [|b t]; [done|]. simpl in Hd. boolify. eauto.
Qed.

Lemma head_not_close v b : head_byte v b → b ≠ 93 ∧ b ≠ 125.
Proof. destruct v as [|[]| | | |]; simpl; intros Hb; split; intros ->; done. Qed.

(** Two values whose texts agree are of one kind. *)
Lemma same_head v w b : head_byte v b → head_byte w b →
  match v, w with
  | JNull, JNull | JNumber _, JNumber _ | JString _, JString _ | JArray _, JArray _ | JObject _, JObject _ => True
  | JBool a, JBool b => a = b
  | _, _ => False
  end.
Proof.
  destruct v as [|[]| | | |], w as [|[]| | | |]; simpl; intros Hv Hw; try done; subst; try done;
  by compute in Hv || by compute in Hw.
Qed.

Lemma write_value_inj v w r s :
  json_ok v → json_ok w → delimited r → delimited s →
  write_value v ++ r = write_value w ++ s → same_json v w ∧ r = s.
Proof using FTL.
  revert w r s. induction v as [|b|n|t|l IH|m IH] using Json_rect'; intros w r s Hv Hw Hr Hs Heq;
    (destruct (write_value_head _ Hv) as (bv & tv & Ev & Hbv);
     destruct (write_value_head _ Hw) as (bw & tw & Ew & Hbw);
     assert (bv = bw) as <- by (rewrite Ev, Ew in Heq; by injection Heq);
     pose proof (same_head _ _ _ Hbv Hbw) as Hkind; clear Ev Ew Hbv Hbw);
    destruct w as [|b'|n'|t'|l'|m']; try done; inversion Hv; inversion Hw; subst.
  - apply app_inv_head in Heq. by split; [constructor|].
  - apply app_inv_head in Heq. by split; [constructor|].
  - destruct (number_bytes_number n) as [_ Hn]; [done|]. destruct (number_bytes_number n') as [_ Hn']; [done|].
    apply number_span in Heq as [Heq ->]; [|done..]. by split; [constructor|].
  - apply write_string_inj in Heq as [-> ->]. by split; [constructor|].
  - cbn [write_value] in Heq. simpl in Heq. injection Heq as Heq. rewrite <- !app_assoc in Heq.
    eapply (elements_inj write_value json_ok same_json 93) in Heq as [Hall ->];
      [by split; [constructor|]|by left| | |done].
    + intros x Hx. destruct (write_value_head x Hx) as (b & t & E & Hb). exists b, t.
      split; [done|]. by apply head_not_close in Hb as [? _].
    + rewrite Forall_forall in *. intros x Hx. split; [by auto|]. intros y r' s' Hy. by apply IH; auto.
  - rewrite !write_object in Heq by done. simpl in Heq. injection Heq as Heq. rewrite <- !app_assoc in Heq.
    eapply (elements_inj (λ e, write_string e.1 ++ 58 :: write_value e.2) (λ e, json_ok e.2)
              (λ e e', e.1 = e'.1 ∧ same_json e.2 e'.2) 125) in Heq as [Hall ->];
      [by split; [constructor|]|by right| | |done].
    + intros e _. by eexists 34, _.
    + rewrite Forall_forall in *. intros e He. split; [by auto|]. intros e' r' s' Hy Hr' Hs' Heq'.
      rewrite <- !app_assoc in Heq'. apply write_string_inj in Heq' as [Hk Heq'].
      injection Heq' as Heq'. apply IH in Heq' as [? ->]; auto.
Qed.

(** ** Descriptors *)

Definition bound_ok (bound : option Z) : Prop :=
  match bound with Some bits => is_f64_bits bits = true | None => True end.
(** The bounds of floats are finite floats. *)
Definition float_bounds (d : Descriptor) : Prop :=
  match d with DFloat min max => bound_ok min ∧ bound_ok max | _ => True end.

Definition part (v : Json) (key : string) : option Json :=
  match v with JObject m => btree_get key m | _ => None end.
Lemma same_part v w key x :
  same_json v w → part v key = Some x → ∃ y, part w key = Some y ∧ same_json x y.
Proof.
  intros Hs. destruct Hs as [| | | | |m m' Hm]; try done. simpl.
  induction Hm as [|[k a] [k' b] m m' [Hk Hab] Hm IH]; simpl in *; [done|]. subst k'.
  destruct (String.eqb key k); [|done]. intros [= <-]. eauto.
Qed.

Definition kind (d : Descriptor) : string :=
  match d with
  | DUnit => "void" | DBool => "bool" | DInt _ _ => "int" | DFloat _ _ => "float" | DString _ _ _ => "string"
  | DList _ _ _ => "list" | DTuple _ => "tuple" | DRecord _ => "record" | DStringMap _ => "string_map"
  | DTaggedUnion _ => "tagged_union"
  end.
Lemma part_kind d : part (canonical_value d) "kind" = Some (JString (kind d)).
Proof. by destruct d. Qed.

Lemma same_kind d e : same_json (canonical_value d) (canonical_value e) → kind d = kind e.
Proof.
  intros Hs. destruct (same_part _ _ _ _ Hs (part_kind d)) as (y & Hy & Hk).
  rewrite part_kind in Hy. injection Hy as <-. by inversion Hk.
Qed.

Lemma same_int a b : same_json (json_int a) (json_int b) → a = b.
Proof.
  inversion 1 as [| |n m Heq| | |]; subst. apply int_text_inj.
  unfold number_bytes, int_number in Heq. by destruct (0 <=? a), (0 <=? b).
Qed.
Lemma same_option {A} (f : A → Json) (Q : A → Prop) a b :
  (∀ x, Q x → f x ≠ JNull) → (∀ x y, Q x → Q y → same_json (f x) (f y) → x = y) →
  from_option Q True a → from_option Q True b →
  same_json (json_option f a) (json_option f b) → a = b.
Proof.
  intros Hne Hinj Ha Hb Hs. destruct a as [a|], b as [b|]; simpl in *.
  - f_equal. by apply Hinj.
  - destruct (f a) eqn:E; [by apply Hne in E|inversion Hs..].
  - destruct (f b) eqn:E; [by apply Hne in E|inversion Hs..].
  - done.
Qed.
Lemma same_int_option a b : same_json (json_option json_int a) (json_option json_int b) → a = b.
Proof.
  apply (same_option json_int (λ _, True)); [done|intros ?? _ _; apply same_int|by destruct a|by destruct b].
Qed.
Lemma same_strings l l' : same_json (JArray (map JString l)) (JArray (map JString l')) → l = l'.
Proof.
  intros Hs. inversion Hs as [| | | |? ? Hall|]; subst. clear Hs. revert l' Hall.
  induction l as [|x l IH]; intros [|y l'] Hall; inversion Hall as [|? ? ? ? Hxy Hl]; subst; [done|].
  inversion Hxy; subst. f_equal. by apply IH.
Qed.
Lemma same_float_option a b :
  bound_ok a → bound_ok b → same_json (json_option json_f64 a) (json_option json_f64 b) → a = b.
Proof using FTL.
  assert (∀ x, is_f64_bits x = true → json_f64 x = JNumber (NFloat x)) as Hf.
  { intros x Hx. unfold is_f64_bits in Hx. boolify. unfold json_f64, number_from_f64. by rewrite H0. }
  intros Ha Hb. apply (same_option json_f64 (λ x, is_f64_bits x = true)); [| |by destruct a|by destruct b].
  - intros x Hx. by rewrite Hf.
  - intros x y Hx Hy. rewrite !Hf by done. inversion 1 as [| |n m Heq| | |]; subst.
    by apply number_bytes_float_inj.
Qed.

(** Reading back the lists of a descriptor. *)
Lemma same_list {A} (f : A → Json) (Q : A → Prop) l l' :
  Forall (λ x, ∀ y, Q y → same_json (f x) (f y) → x = y) l → Forall Q l' →
  same_json (JArray (map f l)) (JArray (map f l')) → l = l'.
Proof.
  intros Hl Hl' Hs. inversion Hs as [| | | |? ? Hall|]; subst. clear Hs. revert l' Hl' Hall.
  induction Hl as [|x l Hx Hl IH]; intros [|y l'] Hl' Hall; inversion Hall; subst; [done|].
  inversion Hl'; subst. f_equal; auto.
Qed.

(** What the parts of an object say, for each key in turn. *)
Ltac parts Hs keys :=
  lazymatch keys with
  | ?k :: ?rest =>
    let y := fresh "y" in let Hy := fresh "Hy" in let Hp := fresh "Hp" in
    destruct (same_part _ _ k _ Hs eq_refl) as (y & Hy & Hp); injection Hy as <-;
    parts Hs rest
  | [] => idtac
  end.

Definition identified (d : Descriptor) : Prop :=
  every float_bounds d → ∀ e, every float_bounds e → same_json (canonical_value d) (canonical_value e) → d = e.

Lemma same_fields fields fields' :
  Forall identified (map fd_schema fields) → Forall (every float_bounds) (map fd_schema fields) →
  Forall (every float_bounds) (map fd_schema fields') →
  same_json (JArray (map (Field_canonical_value canonical_value) fields))
            (JArray (map (Field_canonical_value canonical_value) fields')) → fields = fields'.
Proof.
  rewrite !Forall_map. intros Hid Hb Hb'. apply (same_list _ (every float_bounds ∘ fd_schema)); [|done].
  rewrite Forall_forall in *. intros [name schema] Hin [name' schema'] He Hs.
  parts Hs ["name"%string; "schema"%string]. inversion Hp; subst. f_equal.
  by apply (Hid _ Hin (Hb _ Hin) _ He).
Qed.

Lemma canonical_value_inj d : identified d.
Proof using FTL.
  induction d as [d IH] using Descriptor_nested. intros [Hd Hc]%every_inv e [He Hce]%every_inv Hs.
  pose proof (same_kind _ _ Hs) as Hk.
  destruct d as [| |min max|min max|min max en|min max items|items|fields|values|variants],
    e as [| |min' max'|min' max'|min' max' en'|min' max' items'|items'|fields'|values'|variants'];
    try discriminate Hk; clear Hk; simpl in Hd, Hc, He, Hce, IH.
  - done.
  - done.
  - parts Hs ["min"%string; "max"%string]. f_equal; by apply same_int.
  - parts Hs ["min"%string; "max"%string]. f_equal; apply same_float_option; tauto.
  - parts Hs ["min"%string; "max"%string; "enum"%string].
    f_equal; [by apply same_int_option..|by apply same_strings].
  - parts Hs ["min"%string; "max"%string; "items"%string].
    inversion IH; inversion Hc; inversion Hce; subst.
    f_equal; [by apply same_int..|auto].
  - parts Hs ["items"%string]. f_equal. eapply (same_list _ (every float_bounds)); [|done|done].
    rewrite Forall_forall in *. intros x Hx. apply (IH x Hx). auto.
  - parts Hs ["fields"%string]. f_equal. by apply same_fields.
  - parts Hs ["values"%string]. inversion IH; inversion Hc; inversion Hce; subst. f_equal. auto.
  - parts Hs ["variants"%string]. f_equal.
    rewrite !Forall_flat_map in *.
    eapply (same_list _ (λ v, Forall (every float_bounds) (map fd_schema (vt_fields v)))); [|done|done].
    rewrite Forall_forall in *. intros [tag fields] Hin [tag' fields'] He' Hs'.
    parts Hs' ["tag"%string; "fields"%string]. inversion Hp0; subst. f_equal.
    by apply same_fields; [apply (IH _ Hin)|apply (Hc _ Hin)|..].
Qed.
End Injective.

Section Identity.
Context {FT : FloatText} {FTL : FloatTextLaws}.

Lemma fold_insert_sorted {V} (entries acc : list (string * V)) :
  btree_sorted acc → btree_sorted (fold_left (λ object entry, btree_insert entry.1 entry.2 object) entries acc).
Proof.
  revert acc. induction entries as [|[k v] entries IH]; intros acc Hs; [done|]. simpl. apply IH.
  by apply btree_insert_sorted.
Qed.
Lemma fold_insert_forall {V} (P : V → Prop) (entries acc : list (string * V)) :
  Forall (λ e, P e.2) acc → Forall (λ e, P e.2) entries →
  Forall (λ e, P e.2) (fold_left (λ object entry, btree_insert entry.1 entry.2 object) entries acc).
Proof.
  assert (∀ k v (m : list (string * V)), Forall (λ e, P e.2) m → P v → Forall (λ e, P e.2) (btree_insert k v m)) as Hi.
  { intros k v m Hm Hv. induction Hm as [|[k' v'] m Hv' Hm IH]; simpl; [by repeat constructor|].
    destruct (str_compare k k'); by repeat constructor. }
  intros Ha He. revert acc Ha. induction He as [|[k v] entries Hv He IH]; intros acc Ha; [done|]. simpl.
  apply IH, Hi; done.
Qed.
Lemma json_object_ok members : Forall (λ e, json_ok e.2) members → json_ok (json_object members).
Proof.
  intros Hm. constructor; [apply fold_insert_sorted; constructor|]. by apply fold_insert_forall.
Qed.
Lemma json_int_ok z : json_ok (json_int z).
Proof. constructor. unfold int_number. by destruct (0 <=? z). Qed.
Lemma json_int_option_ok o : json_ok (json_option json_int o).
Proof. destruct o; [apply json_int_ok|constructor]. Qed.
Lemma json_float_option_ok o : bound_ok o → json_ok (json_option json_f64 o).
Proof.
  destruct o as [bits|]; simpl; [|constructor]. intros Hb. unfold json_f64, number_from_f64.
  destruct (is_finite_bits bits) eqn:E; constructor. done.
Qed.
Lemma json_array_ok {A} (f : A → Json) l : Forall (json_ok ∘ f) l → json_ok (JArray (map f l)).
Proof. intros Hl. constructor. by apply Forall_map. Qed.

Lemma json_fields_ok fields :
  Forall (λ d, every float_bounds d → json_ok (canonical_value d)) (map fd_schema fields) →
  Forall (every float_bounds) (map fd_schema fields) →
  json_ok (JArray (map (Field_canonical_value canonical_value) fields)).
Proof.
  intros IH Hb. apply json_array_ok. rewrite !Forall_map in *. rewrite Forall_forall in *.
  intros f Hf. apply json_object_ok.
  apply List.Forall_cons; [constructor|]. apply List.Forall_cons; [|constructor]. by apply IH, Hb.
Qed.

Lemma canonical_value_ok d : every float_bounds d → json_ok (canonical_value d).
Proof.
  induction d as [d IH] using Descriptor_nested. intros [Hd Hc]%every_inv.
  destruct d as [| |min max|min max|min max en|min max items|items|fields|values|variants];
    apply json_object_ok; simpl in Hd, Hc, IH; repeat (apply List.Forall_cons || apply List.Forall_nil); simpl;
    try apply ok_string; try apply json_int_ok; try apply json_int_option_ok; try (apply json_float_option_ok; tauto).
  - apply json_array_ok, Forall_forall. constructor.
  - inversion IH; inversion Hc; auto.
  - apply json_array_ok. rewrite Forall_forall in *. intros x Hx. apply IH; auto.
  - by apply json_fields_ok.
  - inversion IH; inversion Hc; auto.
  - rewrite !Forall_flat_map in *. apply json_array_ok. rewrite Forall_forall in *. intros v Hv.
    apply json_object_ok. repeat (apply List.Forall_cons || apply List.Forall_nil); simpl; [|constructor].
    apply json_fields_ok; auto.
Qed.

(** C30. The canonical bytes of a descriptor, over which schema digests and contract
    digests are taken, identify it: two descriptors with finite float bounds have the
    same canonical bytes exactly when they are equal. *)
Theorem schema_identity_exact (d e : Descriptor) :
  every float_bounds d → every float_bounds e → (canonical_bytes d = canonical_bytes e ↔ d = e).
Proof using FTL.
  intros Hd He. split; [|by intros ->]. intros Heq. apply (canonical_value_inj d Hd e He).
  apply (write_value_inj _ _ [] []); [by apply canonical_value_ok..|done|done|].
  by rewrite !app_nil_r.
Qed.
End Identity.

(** ** A formatting with the documented properties *)

(** Zero as it is printed; other floats as their bits with an exponent. *)
#[export] Instance sample_float_text : FloatText := {
  float_text bits := if bits =? 0 then "0.0" else (string_of_bytes (decimal_bytes bits) ++ "e0")%string }.

Lemma sample_text_bytes bits :
  0 <= bits → bytes (float_text bits) = if bits =? 0 then [48; 46; 48] else decimal_bytes bits ++ [101; 48].
Proof.
  intros Hb. simpl. destruct (bits =? 0); [done|]. rewrite bytes_app. f_equal.
  pose proof (int_text_bytes bits) as Hi. unfold int_text in Hi.
  destruct (Z.ltb_spec bits 0); [lia|]. done.
Qed.

#[export] Instance sample_float_laws : FloatTextLaws.
Proof.
  assert (∀ bits, is_f64_bits bits = true → 0 <= bits) as Hpos.
  { intros bits Hb. unfold is_f64_bits in Hb. boolify. apply in_unsigned_spec in H. lia. }
  split.
  - intros bits Hb%Hpos. split.
    + intros E. apply (f_equal bytes) in E. rewrite sample_text_bytes in E by done.
      destruct (bits =? 0); [done|]. by destruct (decimal_bytes bits).
    + rewrite sample_text_bytes by done. destruct (bits =? 0); [done|]. rewrite forallb_app, andb_true_iff.
      split; [|done]. apply digits_number. pose proof (decimal_bytes_digits bits) as Hall.
      unfold all_digits in Hall. rewrite forallb_forall in *. intros b Hin%Hall. by rewrite Hin.
  - intros a b Ha%Hpos Hb%Hpos Heq. apply (f_equal bytes) in Heq. rewrite !sample_text_bytes in Heq by done.
    assert (∀ n, [48; 46; 48] ≠ decimal_bytes n ++ [101; 48]) as Hne.
    { intros n E. by destruct (app_inj_2 [48] (decimal_bytes n) [46; 48] [101; 48] eq_refl E). }
    destruct (Z.eqb_spec a 0), (Z.eqb_spec b 0); [congruence|by apply Hne in Heq|by symmetry in Heq; apply Hne in Heq|].
    apply app_inv_tail in Heq. by apply decimal_bytes_inj.
  - intros bits prefix Hb%Hpos. rewrite sample_text_bytes by done. destruct (bits =? 0).
    + intros E. destruct prefix as [|a [|b [|c prefix]]]; try done; try (by destruct prefix).
      by injection E as <-.
    + intros E. by destruct (app_inj_2 (decimal_bytes bits) prefix [101; 48] [46; 48] eq_refl E).
  - intros bits Hb%Hpos. rewrite sample_text_bytes by done. destruct (bits =? 0); [done|].
    rewrite forallb_app. apply andb_false_r.
Qed.

Definition sample_descriptor (bound : Z) : Descriptor :=
  DRecord [Build_Field "a" (DFloat (Some 0) None); Build_Field "b" (DList 0 bound DBool)].
Lemma sample_descriptor_bounds bound : every float_bounds (sample_descriptor bound).
Proof.
  repeat (constructor; simpl).
Qed.

Lemma schema_identity_exact_witness :
  every float_bounds (sample_descriptor 3)
  ∧ canonical_bytes (sample_descriptor 3) ≠ canonical_bytes (sample_descriptor 4).
Proof.
  split; [apply sample_descriptor_bounds|].
  intros E. apply (schema_identity_exact (sample_descriptor 3) (sample_descriptor 4)
    (sample_descriptor_bounds 3) (sample_descriptor_bounds 4)) in E. discriminate E.
Defined.
