(* ===== verification/SchemaUsage.v ===== *)
(** * The size of a descriptor

    [collect_usage] adds up counts and takes maxima: adding the usage of a descriptor
    is an operation of a commutative monoid, so that the order of fields and variants
    does not matter. *)

From S2P Require Import Prelude.
From S2P Require Import Text.
From S2P Require Import SchemaJson.
From S2P Require Import SchemaModel.
Open Scope Z_scope.

Definition plus_usage (u v : DescriptorUsage) : DescriptorUsage := {|
  du_nodes := du_nodes u + du_nodes v;
  du_depth := Z.max (du_depth u) (du_depth v);
  du_properties := du_properties u + du_properties v;
  du_enum_strings := du_enum_strings u + du_enum_strings v;
  du_max_union_branches := Z.max (du_max_union_branches u) (du_max_union_branches v);
  du_max_name_bytes := Z.max (du_max_name_bytes u) (du_max_name_bytes v);
  du_max_bound := Z.max (du_max_bound u) (du_max_bound v) |}.

(** The maxima of a usage start at zero. *)
Definition usage_ok (u : DescriptorUsage) : Prop :=
  0 <= du_depth u ∧ 0 <= du_max_union_branches u ∧ 0 <= du_max_name_bytes u ∧ 0 <= du_max_bound u.

Lemma usage_eq u v :
  du_nodes u = du_nodes v → du_depth u = du_depth v → du_properties u = du_properties v →
  du_enum_strings u = du_enum_strings v → du_max_union_branches u = du_max_union_branches v →
  du_max_name_bytes u = du_max_name_bytes v → du_max_bound u = du_max_bound v → u = v.
Proof. destruct u, v; simpl; intros; by subst. Qed.

Ltac usage := intros; apply usage_eq; simpl; lia.

#[export] Instance plus_usage_assoc : Assoc (=) plus_usage.
Proof. intros u v w. usage. Qed.
#[export] Instance plus_usage_comm : Comm (=) plus_usage.
Proof. intros u v. usage. Qed.
Lemma plus_usage_default u : usage_ok u → plus_usage u usage_default = u.
Proof. intros (? & ? & ? & ?). usage. Qed.
Lemma plus_usage_ok u v : usage_ok u → usage_ok (plus_usage u v).
Proof. intros (? & ? & ? & ?). unfold usage_ok. simpl. lia. Qed.
Lemma usage_default_ok : usage_ok usage_default.
Proof. unfold usage_ok. simpl. lia. Qed.
#[export] Hint Resolve plus_usage_ok usage_default_ok : josh.

Definition total_usage (u : DescriptorUsage) (l : list DescriptorUsage) : DescriptorUsage := fold_left plus_usage l u.

Lemma total_plus u v l : total_usage (plus_usage u v) l = plus_usage u (total_usage v l).
Proof.
  revert v. induction l as [|w l IH]; intros v; [done|]. simpl. by rewrite <- (assoc plus_usage), IH.
Qed.
Lemma total_ok u l : usage_ok u → usage_ok (total_usage u l).
Proof. revert u. induction l as [|w l IH]; intros u Hu; [done|]. simpl. apply IH. by apply plus_usage_ok. Qed.
#[export] Instance total_perm u : Proper ((≡ₚ) ==> (=)) (total_usage u).
Proof.
  intros l l' Hp. revert u. induction Hp as [|w l l' _ IH|w w' l|l l' l'' _ IH1 _ IH2]; intros u; simpl.
  - done.
  - apply IH.
  - f_equal. rewrite <- !(assoc plus_usage). f_equal. apply (comm plus_usage).
  - by rewrite IH1.
Qed.

(** A loop whose steps add a usage adds their total. *)
Lemma fold_total {A} (step : DescriptorUsage → A → DescriptorUsage) (g : A → DescriptorUsage) l u :
  Forall (λ a, ∀ u, usage_ok u → step u a = plus_usage u (g a)) l → usage_ok u →
  fold_left step l u = total_usage u (map g l).
Proof.
  intros Hl. revert u. induction Hl as [|a l Ha Hl IH]; intros u Hu; [done|]. simpl.
  rewrite Ha by done. apply IH. by apply plus_usage_ok.
Qed.

(** What one descriptor, one field and the fields of one variant add. *)
Definition own_usage (d : Descriptor) (depth : Z) : DescriptorUsage := collect_usage d depth usage_default.
Definition field_usage (depth : Z) (field : Field Descriptor) : DescriptorUsage :=
  plus_usage (usage_name (fd_name field) usage_default) (own_usage (fd_schema field) depth).
Definition branch_usage (depth : Z) (variant : Variant Descriptor) : DescriptorUsage :=
  total_usage
    (plus_usage
       {| du_nodes := 2; du_depth := depth + 2; du_properties := count (vt_fields variant) + 1;
          du_enum_strings := 1; du_max_union_branches := 0; du_max_name_bytes := 0; du_max_bound := 0 |}
       (usage_name (vt_tag variant) usage_default))
    (map (field_usage (depth + 2)) (vt_fields variant)).

Definition adds (d : Descriptor) : Prop :=
  ∀ depth u v, collect_usage d depth (plus_usage u v) = plus_usage u (collect_usage d depth v).

Lemma fold_adds {A} (step : DescriptorUsage → A → DescriptorUsage) l u v :
  Forall (λ a, ∀ u v, step (plus_usage u v) a = plus_usage u (step v a)) l →
  fold_left step l (plus_usage u v) = plus_usage u (fold_left step l v).
Proof.
  intros Hl. revert v. induction Hl as [|a l Ha Hl IH]; intros v; [done|]. simpl. by rewrite Ha, IH.
Qed.
Lemma fields_add fields depth u v :
  Forall adds (map fd_schema fields) →
  fold_left (λ u field, collect_usage (fd_schema field) depth (usage_name (fd_name field) u)) fields (plus_usage u v)
  = plus_usage u (fold_left (λ u field, collect_usage (fd_schema field) depth (usage_name (fd_name field) u)) fields v).
Proof.
  rewrite Forall_map. intros Hf. apply fold_adds. eapply Forall_impl; [exact Hf|]. intros f Ha u' v'. simpl.
  rewrite <- Ha. f_equal. usage.
Qed.

Lemma collect_adds d : adds d.
Proof.
  induction d as [d IH] using Descriptor_nested. intros depth u v.
  assert (usage_enter depth (plus_usage u v) = plus_usage u (usage_enter depth v)) as He by usage.
  destruct d as [| |min max|min max|min max en|min max items|items|fields|values|variants];
    cbn [collect_usage]; simpl in IH; rewrite ?He; try done.
  - usage.
  - inversion IH as [|? ? Hi _]; subst. rewrite <- Hi. f_equal. usage.
  - rewrite <- (fold_adds (λ u item, collect_usage item (depth + 1) u)).
    + f_equal. usage.
    + eapply Forall_impl; [exact IH|]. auto.
  - rewrite <- fields_add by done. f_equal. usage.
  - inversion IH as [|? ? Hi _]; subst. by rewrite <- Hi.
  - rewrite Forall_flat_map in IH.
    rewrite <- (fold_adds (λ u variant,
      fold_left (λ u field, collect_usage (fd_schema field) (depth + 2) (usage_name (fd_name field) u))
                (vt_fields variant) (usage_name (vt_tag variant) u))).
    + f_equal. usage.
    + eapply Forall_impl; [exact IH|]. intros variant Hv u' v'. simpl. rewrite <- fields_add by done.
      f_equal. usage.
Qed.

Lemma collect_own d depth u : usage_ok u → collect_usage d depth u = plus_usage u (own_usage d depth).
Proof. intros Hu. unfold own_usage. rewrite <- collect_adds. by rewrite plus_usage_default. Qed.
Lemma own_usage_ok d depth : usage_ok (own_usage d depth).
Proof.
  unfold own_usage. rewrite <- (plus_usage_default usage_default) by apply usage_default_ok.
  rewrite collect_adds. apply plus_usage_ok, usage_default_ok.
Qed.

(** ** The cases of [collect_usage] as totals *)

Lemma field_step depth field u :
  usage_ok u →
  collect_usage (fd_schema field) depth (usage_name (fd_name field) u) = plus_usage u (field_usage depth field).
Proof.
  intros Hu. unfold field_usage. rewrite (assoc plus_usage).
  assert (usage_name (fd_name field) u = plus_usage u (usage_name (fd_name field) usage_default)) as ->.
  { destruct Hu as (? & ? & ? & ?). usage. }
  apply collect_own. by apply plus_usage_ok.
Qed.

Lemma usage_enter_ok depth u : usage_ok u → usage_ok (usage_enter depth u).
Proof. unfold usage_ok. simpl. lia. Qed.

Lemma collect_tuple items depth u :
  usage_ok u →
  collect_usage (DTuple items) depth u
  = total_usage (usage_bound (count items) (usage_enter depth u)) (map (λ item, own_usage item (depth + 1)) items).
Proof.
  intros Hu. cbn [collect_usage]. apply fold_total.
  - apply Forall_forall. intros item _ u' Hu'. by apply collect_own.
  - unfold usage_ok in *. simpl. lia.
Qed.

Lemma collect_fields fields depth u :
  usage_ok u →
  fold_left (λ u field, collect_usage (fd_schema field) depth (usage_name (fd_name field) u)) fields u
  = total_usage u (map (field_usage depth) fields).
Proof.
  intros Hu. apply fold_total; [|done]. apply Forall_forall. intros field _ u' Hu'. by apply field_step.
Qed.

Lemma collect_record fields depth u :
  usage_ok u →
  collect_usage (DRecord fields) depth u
  = total_usage (usage_properties (count fields) (usage_enter depth u)) (map (field_usage (depth + 1)) fields).
Proof. intros Hu. cbn [collect_usage]. apply collect_fields. unfold usage_ok in *. simpl. lia. Qed.

(** The part of a branch that [usage_union] counts for all branches at once. *)
Definition branch_count (depth : Z) (variant : Variant Descriptor) : DescriptorUsage :=
  {| du_nodes := 2; du_depth := depth + 2; du_properties := count (vt_fields variant) + 1;
     du_enum_strings := 1; du_max_union_branches := 0; du_max_name_bytes := 0; du_max_bound := 0 |}.

Lemma total_map_plus {A} (f g : A → DescriptorUsage) l u :
  total_usage u (map (λ a, plus_usage (f a) (g a)) l) = total_usage (total_usage u (map f l)) (map g l).
Proof.
  revert u. induction l as [|a l IH]; intros u; [done|]. cbn [map total_usage fold_left].
  change (fold_left plus_usage) with (λ l u, total_usage u l). cbv beta. rewrite IH. f_equal.
  rewrite (comm plus_usage (f a)), (assoc plus_usage), (comm plus_usage (plus_usage u (g a))).
  rewrite (assoc plus_usage), (comm plus_usage (plus_usage _ _) (g a)).
  rewrite total_plus, (comm plus_usage (g a)), (comm plus_usage (f a) u). done.
Qed.

Lemma total_branch_count depth variants u :
  variants ≠ [] → usage_ok u →
  total_usage u (map (branch_count depth) variants)
  = {| du_nodes := du_nodes u + count variants * 2;
       du_depth := Z.max (du_depth u) (depth + 2);
       du_properties := du_properties u + sum_by (λ variant, count (vt_fields variant) + 1) variants;
       du_enum_strings := du_enum_strings u + count variants;
       du_max_union_branches := du_max_union_branches u;
       du_max_name_bytes := du_max_name_bytes u;
       du_max_bound := du_max_bound u |}.
Proof.
  revert u. induction variants as [|v [|w variants] IH]; intros u Hne Hu; [done| |].
  - unfold usage_ok in Hu. unfold total_usage. cbn [map fold_left]. apply usage_eq; unfold count;
      cbn [du_nodes du_depth du_properties du_enum_strings du_max_union_branches du_max_name_bytes
           du_max_bound plus_usage branch_count sum_by fold_right length]; unfold count; lia.
  - change (total_usage u (map (branch_count depth) (v :: w :: variants)))
      with (total_usage (plus_usage u (branch_count depth v)) (map (branch_count depth) (w :: variants))).
    rewrite (IH (plus_usage u (branch_count depth v))); [|done|by apply plus_usage_ok].
    unfold usage_ok in Hu. apply usage_eq; unfold count;
      cbn [du_nodes du_depth du_properties du_enum_strings du_max_union_branches du_max_name_bytes
           du_max_bound plus_usage branch_count sum_by fold_right length]; unfold count; lia.
Qed.

Lemma collect_union variants depth u :
  variants ≠ [] → usage_ok u →
  collect_usage (DTaggedUnion variants) depth u
  = total_usage (plus_usage (usage_enter depth u)
                   {| du_nodes := 0; du_depth := 0; du_properties := 0; du_enum_strings := 0;
                      du_max_union_branches := count variants; du_max_name_bytes := 0; du_max_bound := 0 |})
                (map (branch_usage depth) variants).
Proof.
  intros Hne Hu. cbn [collect_usage].
  rewrite (fold_total _ (λ variant, total_usage (usage_name (vt_tag variant) usage_default)
                                      (map (field_usage (depth + 2)) (vt_fields variant)))).
  - transitivity (total_usage
      (plus_usage (usage_enter depth u)
         {| du_nodes := 0; du_depth := 0; du_properties := 0; du_enum_strings := 0;
            du_max_union_branches := count variants; du_max_name_bytes := 0; du_max_bound := 0 |})
      (map (λ v, plus_usage (branch_count depth v)
                   (total_usage (usage_name (vt_tag v) usage_default)
                                (map (field_usage (depth + 2)) (vt_fields v)))) variants)).
    + rewrite total_map_plus. f_equal. rewrite total_branch_count; [|done|].
      * unfold usage_ok in Hu. unfold usage_union. apply usage_eq; simpl; lia.
      * apply plus_usage_ok, usage_enter_ok. done.
    + f_equal. apply map_ext. intros v. unfold branch_usage. rewrite total_plus. done.
  - apply Forall_forall. intros v _ u' Hu'.
    rewrite collect_fields by (unfold usage_ok in *; simpl; lia).
    rewrite <- total_plus. f_equal. destruct Hu' as (? & ? & ? & ?). usage.
  - unfold usage_ok in *. simpl. lia.
Qed.
