(* ===== verification/SchemaLowerCorrect.v ===== *)
(** * What lowering establishes

    A descriptor that lowering returns is in canonical form (names, tags and
    enumerations strictly sorted, bounds ordered, unions of two to sixty-four branches)
    and its size, as [collect_usage] measures it, is within the limits. *)

From S2P Require Import Prelude.
From S2P Require Import Text.
From S2P Require Import VmValue.
From S2P Require Import JoshMessage.
From S2P Require Import VmOps.
From S2P Require Import VmJson.
From S2P Require Import RuntimeJson.
From S2P Require Import SchemaJson.
From S2P Require Import SchemaModel.
From S2P Require Import SchemaLower.
From S2P Require Import SchemaCanonical.
From S2P Require Import SchemaUsage.
Open Scope string_scope.
Open Scope list_scope.
Open Scope Z_scope.

(** ** Canonical descriptors *)

Definition strictly_sorted (l : list string) : Prop := StronglySorted (λ s t, str_ltb s t = true) l.
Definition finite_bound (bound : option Z) : Prop :=
  match bound with Some bits => is_finite_bits bits = true | None => True end.

Definition shape_ok (d : Descriptor) : Prop :=
  match d with
  | DUnit | DBool | DStringMap _ => True
  | DInt min max | DList min max _ => min <= max
  | DFloat min max => finite_bound min ∧ finite_bound max ∧ both_exceed f64_gtb min max = false
  | DString min max enumeration => both_exceed Z.gtb min max = false ∧ strictly_sorted enumeration
  | DTuple items => items ≠ []
  | DRecord fields => strictly_sorted (map fd_name fields)
  | DTaggedUnion variants =>
    2 <= count variants <= 64 ∧ strictly_sorted (map vt_tag variants)
    ∧ Forall (λ variant, strictly_sorted (map fd_name (vt_fields variant))
                         ∧ "tag" ∉ map fd_name (vt_fields variant)) variants
  end.

(** ** The monad *)

Lemma L_bind_ok {A B} (m : L A) (k : A → L B) st r :
  (m ≫= k) st = Ok r → ∃ a st', m st = Ok (a, st') ∧ k a st' = Ok r.
Proof. unfold mbind, L_bind. destruct (m st) as [[a st']|]; [eauto|done]. Qed.
Lemma L_lift_ok {A} (r : result SchemaError A) st a st' : L_lift r st = Ok (a, st') → r = Ok a ∧ st' = st.
Proof. unfold L_lift. destruct r; [|done]. by intros [= <- <-]. Qed.
Lemma L_ret_ok {A} (a b : A) st st' : (mret a : L A) st = Ok (b, st') → b = a ∧ st' = st.
Proof. by intros [= <- <-]. Qed.

(** ** Sorted names *)

Lemma sorted_windows (l : list string) : windows2_any str_geb l = false → strictly_sorted l.
Proof.
  intros Hw. apply Sorted_StronglySorted; [intros s t u; apply str_ltb_trans|].
  induction l as [|x [|y l] IH]; [constructor|by repeat constructor|].
  simpl in Hw. apply orb_false_iff in Hw as [Hxy Hw]. constructor; [by apply IH|]. constructor.
  unfold str_geb in Hxy. by apply negb_false_iff in Hxy.
Qed.

Lemma ensure_sorted l : ensure_sorted_strings l = true → strictly_sorted l.
Proof. unfold ensure_sorted_strings. intros Hs%negb_true_iff. by apply sorted_windows. Qed.

Lemma sort_names {A} (l : list (string * A)) :
  map fst (sort_by key_compare l) = sort_by str_compare (map fst l).
Proof.
  unfold sort_by. change (@nil string) with (map (@fst string A) []). generalize (@nil (string * A)) as acc.
  induction l as [|x l IH]; intros acc; [done|]. simpl. rewrite IH. f_equal. clear IH l.
  induction acc as [|y acc IH]; [done|]. simpl. unfold key_compare at 1.
  destruct (is_gt _); [done|]. simpl. by rewrite IH.
Qed.

Lemma strictly_sorted_nodup l : strictly_sorted l → NoDup l.
Proof.
  induction 1 as [|x l Hs IH Hx]; constructor; [|done]. intros Hin. rewrite Forall_forall in Hx.
  specialize (Hx x Hin). by rewrite str_ltb_irrefl in Hx.
Qed.

(** Sorting distinct strings sorts them strictly. *)
Lemma sort_strict l : NoDup l → strictly_sorted (sort_by str_compare l).
Proof.
  intros Hn. rewrite <- (sort_by_perm str_compare l) in Hn.
  assert (Sorted (λ y z, str_compare y z ≠ Gt) (sort_by str_compare l)) as Hs.
  { apply sort_by_sorted_weak. intros y z. apply bytes_compare_antisym. }
  apply Sorted_StronglySorted; [intros x y z; apply str_ltb_trans|].
  revert Hn Hs. generalize (sort_by str_compare l). clear l. intros l Hn.
  induction 1 as [|x l Hs IH Hd]; [constructor|]. apply NoDup_cons in Hn as [Hx Hn].
  constructor; [by apply IH|]. destruct Hd as [|y l Hxy]; constructor.
  destruct (str_compare x y) eqn:E; [|by apply str_compare_Lt|done].
  apply str_compare_Eq in E. subst. by rewrite elem_of_cons in Hx; destruct Hx; left.
Qed.

Lemma filter_names_nodup {A} (f : string * A → bool) l : NoDup (map fst l) → NoDup (map fst (List.filter f l)).
Proof.
  induction l as [|e l IH]; intros Hn; [constructor|]. apply NoDup_cons in Hn as [He Hn]. simpl.
  destruct (f e); [|by apply IH]. constructor; [|by apply IH]. intros Hin. apply He.
  apply list_elem_of_fmap in Hin as (e' & -> & [He' _]%list_elem_of_In%filter_In).
  apply list_elem_of_fmap. exists e'. split; [done|]. by apply list_elem_of_In.
Qed.

Lemma filter_shorter {A} (f : A → bool) l : existsb (λ a, negb (f a)) l = true → count (List.filter f l) + 1 <= count l.
Proof.
  unfold count. induction l as [|a l IH]; simpl; [done|]. intros H.
  assert (length (List.filter f l) <= length l)%nat by apply filter_length_le.
  destruct (f a); simpl in *; [specialize (IH H)|]; lia.
Qed.

Section Limits.
Variable limits : SchemaLimits.

(** ** The counts of the state bound a usage *)

Definition covers (st : Lowering) (u : DescriptorUsage) : Prop :=
  usage_ok u
  ∧ du_nodes u <= lw_nodes st <= sl_nodes limits
  ∧ du_properties u <= lw_properties st <= sl_properties limits
  ∧ du_enum_strings u <= lw_enum_strings st <= sl_enum_strings limits
  ∧ du_depth u <= sl_depth limits
  ∧ du_max_union_branches u <= Z.min (sl_union_branches limits) 64
  ∧ du_max_name_bytes u <= sl_name_bytes limits
  ∧ du_max_bound u <= sl_bound limits.

Definition usage_le (u v : DescriptorUsage) : Prop :=
  du_nodes u <= du_nodes v ∧ du_depth u <= du_depth v ∧ du_properties u <= du_properties v
  ∧ du_enum_strings u <= du_enum_strings v ∧ du_max_union_branches u <= du_max_union_branches v
  ∧ du_max_name_bytes u <= du_max_name_bytes v ∧ du_max_bound u <= du_max_bound v.
Lemma covers_le st u v : covers st v → usage_ok u → usage_le u v → covers st u.
Proof. unfold covers, usage_le. intuition lia. Qed.

Lemma fold_mono {A} (step step' : DescriptorUsage → A → DescriptorUsage) l u v :
  Forall (λ a, ∀ u v, usage_le u v → usage_le (step u a) (step' v a)) l → usage_le u v →
  usage_le (fold_left step l u) (fold_left step' l v).
Proof. intros Hl. revert u v. induction Hl as [|a l Ha Hl IH]; intros u v Huv; [done|]. simpl. auto. Qed.

Definition mono (d : Descriptor) : Prop :=
  ∀ depth depth' u v, depth <= depth' → usage_le u v → usage_le (collect_usage d depth u) (collect_usage d depth' v).
Ltac le := unfold usage_le in *; simpl in *; lia.
Lemma fields_mono fields depth depth' u v :
  Forall mono (map fd_schema fields) → depth <= depth' → usage_le u v →
  usage_le (fold_left (λ u field, collect_usage (fd_schema field) depth (usage_name (fd_name field) u)) fields u)
           (fold_left (λ u field, collect_usage (fd_schema field) depth' (usage_name (fd_name field) u)) fields v).
Proof.
  rewrite Forall_map. intros Hf Hd. apply fold_mono. eapply Forall_impl; [exact Hf|].
  intros f Hm u' v' Huv'. apply Hm; [done|le].
Qed.
Lemma collect_mono d : mono d.
Proof.
  induction d as [d IH] using Descriptor_nested. intros depth depth' u v Hd Huv.
  assert (usage_le (usage_enter depth u) (usage_enter depth' v)) as He by le.
  destruct d as [| |min max|min max|min max en|min max items|items|fields|values|variants];
    cbn [collect_usage]; simpl in IH; try done.
  - le.
  - inversion IH; subst. match goal with H : mono items |- _ => apply H end; [lia|le].
  - apply fold_mono; [|le]. eapply Forall_impl; [exact IH|]. intros i Hi u' v' Huv'. apply Hi; [lia|done].
  - apply fields_mono; [done|lia|le].
  - inversion IH; subst. match goal with H : mono values |- _ => apply H end; [lia|done].
  - rewrite Forall_flat_map in IH. apply fold_mono; [|le]. eapply Forall_impl; [exact IH|].
    intros variant Hv u' v' Huv'. apply fields_mono; [done|lia|le].
Qed.

(** ** Steps of the state *)

Lemma add_nodes_ok n depth pointer st a st' :
  add_nodes limits n depth pointer st = Ok (a, st') →
  st' = with_nodes (lw_nodes st + n) st ∧ lw_nodes st + n <= sl_nodes limits ∧ depth <= sl_depth limits.
Proof.
  unfold add_nodes. destruct (checked _ _) as [nodes|] eqn:E; [|done]. apply checked_Some in E as [_ ->].
  destruct (_ || _) eqn:Ht; [done|]. boolify. by intros [= <- <-].
Qed.
Lemma add_properties_ok n pointer st a st' :
  add_properties limits n pointer st = Ok (a, st') →
  st' = with_properties (lw_properties st + n) st ∧ lw_properties st + n <= sl_properties limits.
Proof. unfold add_properties. destruct (_ <? _) eqn:E; [done|]. boolify. by intros [= <- <-]. Qed.
Lemma add_enum_strings_ok n pointer st a st' :
  add_enum_strings limits n pointer st = Ok (a, st') →
  st' = with_enum_strings (lw_enum_strings st + n) st ∧ lw_enum_strings st + n <= sl_enum_strings limits.
Proof. unfold add_enum_strings. destruct (_ <? _) eqn:E; [done|]. boolify. by intros [= <- <-]. Qed.

(** Goes through the steps of a successful computation. *)
Ltac lower_inv H :=
  lazymatch type of H with
  | (_ ≫= _) _ = Ok _ =>
    let a := fresh "a" in let st := fresh "st" in let H1 := fresh "Hstep" in
    apply L_bind_ok in H as (a & st & H1 & H); lower_inv H1; lower_inv H
  | L_lift _ _ = Ok (_, _) => apply L_lift_ok in H as [H ->]
  | mret _ _ = Ok (_, _) => apply L_ret_ok in H as [-> ->]
  | L_refuse _ _ _ = Ok _ => discriminate H
  | add_nodes _ _ _ _ _ = Ok _ => apply add_nodes_ok in H as [-> H]
  | add_properties _ _ _ _ = Ok _ => apply add_properties_ok in H as [-> H]
  | add_enum_strings _ _ _ _ = Ok _ => apply add_enum_strings_ok in H as [-> H]
  | (if ?b then _ else _) _ = Ok _ => let E := fresh "Htest" in destruct b eqn:E; lower_inv H
  | _ => idtac
  end.

(** What [lower] and, after the node is counted, the lowering of one kind establish. *)
Definition lowered (st : Lowering) (depth : Z) (d : Descriptor) (st' : Lowering) : Prop :=
  every shape_ok d ∧ lw_definitions st' = lw_definitions st
  ∧ ∀ u, covers st u → covers st' (collect_usage d depth u).
Definition filled (st : Lowering) (depth : Z) (d : Descriptor) (st' : Lowering) : Prop :=
  every shape_ok d ∧ lw_definitions st' = lw_definitions st
  ∧ ∀ u, usage_ok u → covers st (usage_enter depth u) → covers st' (collect_usage d depth u).

Lemma filled_leaf st depth d :
  shape_ok d → children d = [] → (∀ u, collect_usage d depth u = usage_enter depth u) → filled st depth d st.
Proof.
  intros Hs Hc Hu. split_and!; [constructor; [done|by rewrite Hc]|done|]. intros u _ Hcov. by rewrite Hu.
Qed.

Lemma bound_value_ok value pointer bound : bound_value value limits pointer = Ok bound → bound <= sl_bound limits.
Proof.
  unfold bound_value. destruct value as [| |n| | |]; try done. destruct (number_as_u64 n); [|done]. simpl.
  destruct (_ <? _) eqn:E; [done|]. boolify. by intros [= <-].
Qed.
Lemma optional_bound_ok object key pointer bound :
  optional_bound_member object key limits pointer = Ok (Some bound) → bound <= sl_bound limits.
Proof.
  unfold optional_bound_member. destruct (member object key) as [v|]; [|done]. simpl.
  destruct (bound_value _ _ _) eqn:E; [|done]. intros [= <-]. by eapply bound_value_ok.
Qed.
Lemma bound_member_ok object key pointer bound :
  bound_member object key limits pointer = Ok bound → bound <= sl_bound limits.
Proof. unfold bound_member. destruct (required_member _ _ _); [|done]. apply bound_value_ok. Qed.
Lemma check_name_ok name pointer : check_name name limits pointer = Ok tt → str_len name <= sl_name_bytes limits.
Proof. unfold check_name. destruct (_ <? _) eqn:E; [done|]. by boolify. Qed.

Lemma lower_integer_ok st object depth pointer d :
  lower_integer object pointer = Ok d → filled st depth d st.
Proof.
  unfold lower_integer. destruct (exact_keys _ _ _); [|done]. destruct (integer_member _ "minimum" _); [|done].
  destruct (integer_member _ "maximum" _); [|done]. destruct (_ <? _) eqn:E; [done|]. boolify. intros [= <-].
  by apply filled_leaf.
Qed.

Lemma optional_float_ok object key pointer o :
  optional_float_member object key pointer = Ok o → finite_bound o.
Proof.
  unfold optional_float_member. destruct (member object key) as [v|]; simpl; [|by intros [= <-]].
  destruct (float_value v) as [bits|] eqn:E; simpl; [|done]. intros [= <-]. simpl.
  destruct v as [| |n| | |]; try done. simpl in E. unfold finite_f64 in E.
  destruct (number_as_f64 n) as [b|]; simpl in E; [|done]. destruct (is_finite_bits b) eqn:Eb; [|done].
  by injection E as <-.
Qed.
Lemma lower_float_ok st object depth pointer d :
  lower_float object pointer = Ok d → filled st depth d st.
Proof.
  unfold lower_float. destruct (exact_keys _ _ _); [|done].
  destruct (optional_float_member _ "minimum" _) eqn:Emin; [|done].
  destruct (optional_float_member _ "maximum" _) eqn:Emax; [|done].
  destruct (both_exceed _ _ _) eqn:E; [done|]. intros [= <-].
  apply filled_leaf; [|done|done]. split_and!; [by eapply optional_float_ok..|done].
Qed.

Lemma lower_string_ok st object depth pointer d st' :
  lower_string limits object pointer st = Ok (d, st') → filled st depth d st'.
Proof.
  unfold lower_string. intros H. lower_inv H.
  assert (strictly_sorted a2 ∧ lw_definitions st0 = lw_definitions st ∧
          ∀ u, covers st u → covers st0 (usage_enums (count a2) u)) as (Hs & Hd & Hc).
  { destruct (member object "enum") as [raw|].
    - unfold lower_enumeration in Hstep2. destruct raw as [| | | |[|v values]|]; try discriminate Hstep2.
      lower_inv Hstep2. boolify.
      split_and!; [by apply ensure_sorted|done|].
      intros u Hu. unfold covers, usage_ok in *. simpl. lia.
    - lower_inv Hstep2. split_and!; [constructor|done|].
      intros u Hu. unfold covers, usage_ok, count in *. simpl. lia. }
  split_and!; [constructor; [by split|constructor]|done|].
  intros u Hu Hcov%Hc. cbn [collect_usage].
  assert (∀ key o, optional_bound_member object key limits pointer = Ok o → default 0 o <= Z.max 0 (sl_bound limits)) as Hb.
  { intros key [b|] Ho; simpl; [apply optional_bound_ok in Ho|]; lia. }
  apply Hb in Hstep0, Hstep1. unfold covers, usage_ok in *. simpl in *. lia.
Qed.

(** ** Schemas with parts *)

(** The arithmetic of [covers], the facts about other usages put aside. *)
Ltac cover :=
  repeat match goal with H : ∀ u, covers _ u → _ |- _ => clear H end;
  unfold covers, usage_ok, count in *; simpl in *; lia.

Section Nested.
Variable lower_part : StrictValue → Z → string → L Descriptor.
Hypothesis lower_part_ok : ∀ value depth pointer st d st',
  lower_part value depth pointer st = Ok (d, st') → lowered st depth d st'.

Lemma lower_ref_ok st raw depth pointer d st' :
  lower_ref lower_part raw depth pointer st = Ok (d, st') → filled st depth d st'.
Proof using lower_part_ok.
  unfold lower_ref. destruct raw as [| | |reference| |]; try done.
  destruct (strip_prefix _ _) as [token|]; [|done]. destruct (_ || _); [done|].
  destruct (unescape_pointer_token token) as [name|]; [|done]. destruct (negb _); [done|].
  destruct (btree_get name _) as [definition|]; [|done]. destruct (existsb _ _); [done|].
  destruct (lower_part _ _ _ _) as [[d1 st1]|] eqn:E; [|done]. intros [= <- <-].
  apply lower_part_ok in E as (Hs & Hd & Hc). split_and!; [done|done|].
  intros u Hu Hcov. apply (covers_le _ _ (collect_usage d1 (depth + 1) u)).
  - apply Hc. apply (covers_le _ _ (usage_enter depth u)); [done|done|].
    unfold usage_le. simpl. lia.
  - rewrite collect_own by done. by apply plus_usage_ok.
  - apply collect_mono; [lia|]. unfold usage_le. lia.
Qed.

Lemma lower_items_ok st depth pointer index raw ds st' :
  lower_items lower_part depth pointer index raw st = Ok (ds, st') →
  Forall (every shape_ok) ds ∧ length ds = length raw ∧ lw_definitions st' = lw_definitions st
  ∧ ∀ u, covers st u → covers st' (total_usage u (map (λ item, own_usage item (depth + 1)) ds)).
Proof using lower_part_ok.
  revert st index ds. induction raw as [|item raw IH]; intros st index ds H; simpl in H; lower_inv H; [done|].
  apply lower_part_ok in Hstep as (Hs & Hd & Hc). apply IH in Hstep0 as (Hss & Hl & Hds & Hcs).
  split_and!; [by constructor|simpl; lia|congruence|]. intros u Hu.
  cbn [map total_usage fold_left]. apply Hcs. rewrite <- collect_own; [by apply Hc|]. by destruct Hu.
Qed.

Lemma lower_fields_ok st depth names fields raw ds st' :
  lower_fields limits lower_part depth names fields raw st = Ok (ds, st') →
  Forall (every shape_ok) (map fd_schema ds) ∧ map fd_name ds = map fst raw
  ∧ lw_definitions st' = lw_definitions st
  ∧ ∀ u, covers st u → covers st' (total_usage u (map (field_usage depth) ds)).
Proof using lower_part_ok.
  revert st ds. induction raw as [|[name value] raw IH]; intros st ds H; simpl in H; lower_inv H; [done|].
  destruct a. apply check_name_ok in Hstep. apply lower_part_ok in Hstep0 as (Hs & Hd & Hc).
  apply IH in Hstep1 as (Hss & Hl & Hds & Hcs).
  split_and!; [by constructor|simpl; congruence|congruence|]. intros u Hu.
  cbn [map total_usage fold_left]. apply Hcs. rewrite <- field_step by (by destruct Hu). simpl.
  apply Hc. unfold covers, usage_ok in *. simpl. lia.
Qed.

Lemma lower_array_ok st object depth pointer d st' :
  lower_array limits lower_part object depth pointer st = Ok (d, st') → filled st depth d st'.
Proof using lower_part_ok.
  unfold lower_array. destruct (member object "prefixItems") as [prefix|]; intros H; lower_inv H.
  - destruct prefix as [| | | |raw|]; try discriminate H. lower_inv H.
    apply lower_items_ok in Hstep2 as (Hs & Hl & Hd & Hc). boolify.
    split_and!; [constructor; [|done]|done|].
    + intros ->. destruct raw; [by unfold count in *|done].
    + intros u Hu Hcov. rewrite collect_tuple by done. apply Hc.
      cover.
  - apply lower_part_ok in Hstep3 as (Hs & Hd & Hc). boolify. apply bound_member_ok in Hstep0, Hstep1.
    split_and!; [constructor; [simpl; lia|by apply Forall_singleton]|done|].
    intros u Hu Hcov. cbn [collect_usage]. apply Hc. cover.
Qed.

Lemma lower_record_or_map_ok st object depth pointer d st' :
  lower_record_or_map limits lower_part object depth pointer st = Ok (d, st') → filled st depth d st'.
Proof using lower_part_ok.
  unfold lower_record_or_map. intros H. lower_inv H.
  destruct a0 as [| | | | |properties]; try discriminate H. lower_inv H.
  match type of H with match ?x with _ => _ end _ = _ => destruct x as [|[|]| | | |] end; lower_inv H.
  3: { (* a record *)
    boolify. subst.
    match goal with E : lower_fields _ _ _ _ _ _ _ = _ |- _ => apply lower_fields_ok in E as (Hs & Hn & Hd & Hc) end.
    split_and!; [constructor; [|done]|done|].
    - simpl. rewrite Hn, sort_names. by apply ensure_sorted.
    - intros u Hu Hcov. rewrite collect_record by done. apply Hc.
      assert (count a3 = count properties) as ->.
      { unfold count. f_equal. rewrite <- (length_map fd_name), Hn, length_map. by rewrite sort_by_perm. }
      cover. }
  all: match goal with E : lower_part _ _ _ _ = _ |- _ => apply lower_part_ok in E as (Hs & Hd & Hc) end;
    (split_and!; [constructor; [done|by apply Forall_singleton]|done|]);
    intros u Hu Hcov; cbn [collect_usage]; apply Hc; boolify; cover.
Qed.

(** What one branch of a union establishes. *)
Definition branch_ok (variant : Variant Descriptor) : Prop :=
  Forall (every shape_ok) (map fd_schema (vt_fields variant))
  ∧ strictly_sorted (map fd_name (vt_fields variant)) ∧ ("tag" ∉ map fd_name (vt_fields variant)).

Lemma single_tag_ok value pointer tag : single_tag value limits pointer = Ok tag → str_len tag <= sl_name_bytes limits.
Proof.
  unfold single_tag. destruct value as [| | | | |object]; try done. destruct (exact_keys _ _ _); [|done].
  destruct (string_member _ _ _); [|done]. destruct (_ || _); [done|]. destruct (required_member _ _ _) as [v|]; [|done].
  destruct v as [| | | |[|[| | |t| |] [|]]|]; try done. destruct (check_name _ _ _) as [[]|] eqn:E; [|done].
  intros [= <-]. by eapply check_name_ok.
Qed.

Lemma branch_names properties required :
  strictly_sorted required → required = sort_by str_compare (map fst properties) →
  existsb (String.eqb "tag") required = true →
  let fields := sort_by key_compare (List.filter (λ e : string * StrictValue, negb (String.eqb e.1 "tag")) properties) in
  strictly_sorted (map fst fields) ∧ ("tag" ∉ map fst fields) ∧ count fields + 1 <= count properties.
Proof.
  intros Hs -> Htag fields. apply strictly_sorted_nodup in Hs. rewrite sort_by_perm in Hs. split_and!.
  - unfold fields. rewrite sort_names. by apply sort_strict, filter_names_nodup.
  - unfold fields. rewrite sort_by_perm. intros ([k v] & Hk & [_ Hf]%list_elem_of_In%filter_In)%list_elem_of_fmap.
    simpl in *. subst k. done.
  - assert (count fields = count (List.filter (λ e : string * StrictValue, negb (String.eqb e.1 "tag")) properties)) as ->.
    { unfold count, fields. by rewrite sort_by_perm. }
    apply filter_shorter. apply existsb_exists in Htag as (t & Hin & Ht). apply String.eqb_eq in Ht. subst t.
    apply list_elem_of_In in Hin. rewrite sort_by_perm in Hin. apply list_elem_of_fmap in Hin as (e & He & Hin).
    apply existsb_exists. exists e. split; [by apply list_elem_of_In|]. rewrite <- He. done.
Qed.

Lemma lower_branch_ok st depth pointer branch v st' :
  lower_branch limits lower_part depth pointer branch st = Ok (v, st') →
  branch_ok v ∧ lw_definitions st' = lw_definitions st
  ∧ ∀ u, covers st u → covers st' (plus_usage u (branch_usage depth v)).
Proof using lower_part_ok.
  unfold lower_branch. intros H. lower_inv H. destruct branch as [| | | | |branch]; try discriminate H. lower_inv H.
  match type of H with match ?x with _ => _ end _ = _ => destruct x as [| | | | |properties] end; try discriminate H.
  lower_inv H. boolify.
  match goal with E : lower_fields _ _ _ _ _ _ _ = _ |- _ => apply lower_fields_ok in E as (Hs & Hn & Hd & Hc) end.
  match goal with E : single_tag _ _ _ = _ |- _ => apply single_tag_ok in E as Htag end.
  match goal with
  | Hr : ?required = sort_by _ _, He : existsb _ _ = true, Ho : ensure_sorted_strings ?required = true |- _ =>
    rewrite <- Hr in He; destruct (branch_names _ _ (ensure_sorted _ Ho) Hr He) as (Hss & Hnt & Hcount)
  end.
  rewrite <- Hn in Hss, Hnt. split_and!; [by split_and!|done|].
  intros u Hu. unfold branch_usage. simpl. rewrite total_plus, (assoc plus_usage), <- total_plus. apply Hc.
  assert (count a8 + 1 <= count properties) as Hf.
  { unfold count in *. rewrite <- (length_map fd_name), Hn, length_map. done. }
  cover.
Qed.

Lemma lower_branches_ok st depth pointer index branches vs st' :
  lower_branches limits lower_part depth pointer index branches st = Ok (vs, st') →
  Forall branch_ok vs ∧ length vs = length branches ∧ lw_definitions st' = lw_definitions st
  ∧ ∀ u, covers st u → covers st' (total_usage u (map (branch_usage depth) vs)).
Proof using lower_part_ok.
  revert st index vs. induction branches as [|branch branches IH]; intros st index vs H; simpl in H; lower_inv H; [done|].
  apply lower_branch_ok in Hstep as (Hs & Hd & Hc). apply IH in Hstep0 as (Hss & Hl & Hds & Hcs).
  split_and!; [by constructor|simpl; lia|congruence|]. intros u Hu.
  cbn [map total_usage fold_left]. by apply Hcs, Hc.
Qed.

Lemma sort_tags vs : map vt_tag (sort_by tag_compare vs) = sort_by str_compare (map vt_tag vs).
Proof.
  unfold sort_by. change (@nil string) with (map (@vt_tag Descriptor) []). generalize (@nil (Variant Descriptor)) as acc.
  induction vs as [|x l IH]; intros acc; [done|]. simpl. rewrite IH. f_equal. clear IH l.
  induction acc as [|y acc IH]; [done|]. simpl. unfold tag_compare at 1.
  destruct (is_gt _); [done|]. simpl. by rewrite IH.
Qed.

(** Sorted tags without equal neighbours are distinct. *)
Lemma tags_strict vs :
  windows2_any (λ left right : Variant Descriptor, String.eqb (vt_tag left) (vt_tag right)) (sort_by tag_compare vs) = false →
  strictly_sorted (map vt_tag (sort_by tag_compare vs)).
Proof.
  intros Hw. apply Sorted_StronglySorted; [intros x y z; apply str_ltb_trans|].
  assert (Sorted (λ y z, tag_compare y z ≠ Gt) (sort_by tag_compare vs)) as Hs.
  { apply sort_by_sorted_weak. intros y z. apply bytes_compare_antisym. }
  revert Hw. induction Hs as [|v l Hs IH Hd]; intros Hw; [constructor|]. simpl. destruct l as [|w l]; [by repeat constructor|].
  simpl in Hw. apply orb_false_iff in Hw as [Hne Hw]. constructor; [by apply IH|]. constructor.
  inversion Hd as [|? ? Hvw]; subst. unfold tag_compare in Hvw.
  destruct (str_compare (vt_tag v) (vt_tag w)) eqn:E; [|by apply str_compare_Lt|done].
  apply str_compare_Eq in E. rewrite E, String.eqb_refl in Hne. done.
Qed.

Lemma lower_union_ok st object depth pointer d st' :
  lower_union limits lower_part object depth pointer st = Ok (d, st') → filled st depth d st'.
Proof using lower_part_ok.
  unfold lower_union. intros H. lower_inv H.
  match type of H with match ?x with _ => _ end _ = _ => destruct x as [| | | |branches|] end; try discriminate H.
  lower_inv H. boolify.
  match goal with E : lower_branches _ _ _ _ _ _ _ = _ |- _ => apply lower_branches_ok in E as (Hs & Hl & Hd & Hc) end.
  match goal with E : windows2_any _ _ = false |- _ => apply tags_strict in E as Htags end.
  match type of Hl with length ?l = _ => rename l into variants end.
  assert (count (sort_by tag_compare variants) = count branches) as Hcount.
  { unfold count. rewrite sort_by_perm. lia. }
  assert (Forall branch_ok (sort_by tag_compare variants)) as Hs' by (by rewrite sort_by_perm).
  split_and!; [|done|].
  - constructor.
    + split_and!; [lia|lia|done|]. eapply Forall_impl; [exact Hs'|]. by intros v (_ & ? & ?).
    + simpl. apply Forall_flat_map. eapply Forall_impl; [exact Hs'|]. by intros v (? & _).
  - intros u Hu Hcov. rewrite collect_union; [|intros E; rewrite E in Hcount; unfold count in *; simpl in *; lia|done].
    rewrite Hcount, (total_perm _ _ (map (branch_usage depth) variants)) by (by apply Permutation_map, sort_by_perm).
    apply Hc. cover.
Qed.

Lemma lower_typed_ok st object depth pointer d st' :
  lower_typed limits lower_part object depth pointer st = Ok (d, st') → filled st depth d st'.
Proof using lower_part_ok.
  unfold lower_typed. intros H. lower_inv H; try (by apply filled_leaf).
  - by eapply lower_integer_ok.
  - by eapply lower_float_ok.
  - by eapply lower_string_ok.
  - by eapply lower_array_ok.
  - by eapply lower_record_or_map_ok.
Qed.

Lemma lower_object_body_ok st object depth pointer d st' :
  lower_object_body limits lower_part object depth pointer st = Ok (d, st') → lowered st depth d st'.
Proof using lower_part_ok.
  unfold lower_object_body. intros H. lower_inv H.
  assert (filled (with_nodes (lw_nodes st + 1) st) depth d st') as (Hs & Hd & Hc).
  { destruct (only_reference _) as [raw|]; [by eapply lower_ref_ok|]. lower_inv H.
    - by eapply lower_union_ok.
    - by eapply lower_typed_ok. }
  split_and!; [done|done|]. intros u Hu. apply Hc; [by destruct Hu|]. cover.
Qed.
End Nested.

Lemma lower_object_ok levels object depth pointer st d st' :
  lower_object limits levels object depth pointer st = Ok (d, st') → lowered st depth d st'.
Proof.
  revert object depth pointer st d st'. induction levels as [|levels IH]; intros object depth pointer st d st'; [done|].
  cbn [lower_object]. apply lower_object_body_ok. intros value depth' pointer' st1 d1 st2.
  destruct value; try done. apply IH.
Qed.
End Limits.

(** ** Documents *)

Definition limits_ok (limits : SchemaLimits) : Prop :=
  0 <= sl_nodes limits ∧ 0 <= sl_depth limits ∧ 0 <= sl_properties limits ∧ 0 <= sl_definitions limits
  ∧ 0 <= sl_enum_strings limits ∧ 0 <= sl_union_branches limits ∧ 0 <= sl_name_bytes limits ∧ 0 <= sl_bound limits.

Lemma lower_definitions_ok limits root definitions root' :
  limits_ok limits → lower_definitions limits root = Ok (definitions, root') →
  count definitions <= sl_definitions limits ∧ max_name_bytes definitions <= sl_name_bytes limits.
Proof.
  intros (_ & _ & _ & Hd & _ & _ & Hn & _). unfold lower_definitions.
  destruct (remove_key "$defs" root) as [[[| | | | |entries] rest]|]; try done; [|by intros [= <- _]].
  destruct (_ <? _) eqn:E; [done|]. boolify. destruct (negb _); [done|].
  destruct (try_fold _ _ _) as [defs|] eqn:Ef; [|done]. intros [= <- _].
  assert (∀ acc, count acc + count entries <= sl_definitions limits → max_name_bytes acc <= sl_name_bytes limits →
            try_fold (λ definitions entry, try? check_name entry.1 limits "/$defs" in
                        Ok (btree_insert entry.1 entry.2 definitions)) acc entries = Ok defs →
            count defs <= sl_definitions limits ∧ max_name_bytes defs <= sl_name_bytes limits) as Hg.
  { clear E Ef. induction entries as [|[k v] entries IH]; intros acc Hc Hm.
    - intros [= <-]. unfold count in *. simpl in Hc. split; [lia|done].
    - cbn [try_fold fst snd]. destruct (check_name _ _ _) as [[]|] eqn:Ek; [|done]. apply check_name_ok in Ek.
      apply IH.
      + assert (count (btree_insert k v acc) <= count acc + 1) as Hi.
        { unfold count. clear. induction acc as [|[k' v'] acc IH]; simpl; [lia|].
          destruct (str_compare k k'); simpl in *; lia. }
        unfold count in *. simpl in *. lia.
      + clear - Hm Ek Hn. unfold max_name_bytes in *. induction acc as [|[k' v'] acc IH]; simpl in *; [lia|].
        destruct (str_compare k k'); simpl in *; [lia..|]. specialize (IH ltac:(lia)). lia. }
  apply (Hg []); [unfold count in *; simpl; lia|done|done].
Qed.

Lemma lower_document `{FloatText} raw source_bytes limits schema :
  limits_ok limits → source_bytes <= sl_schema_bytes limits →
  ToolSchema_lower raw source_bytes limits = Ok schema →
  every shape_ok (ts_descriptor schema) ∧ fits_limits schema limits = true
  ∧ ts_canonical schema = canonical_bytes (ts_descriptor schema)
  ∧ ts_digest schema = Descriptor_digest (ts_descriptor schema).
Proof.
  intros Hl Hb. unfold ToolSchema_lower. destruct raw as [| | | | |root]; try done.
  destruct (Lowering_new limits root) as [[root' initial]|] eqn:En; [|done].
  destruct (lower_object _ _ _ _ _ _) as [[d context]|] eqn:Eo; [|done].
  destruct (negb _); [done|]. intros [= <-]. simpl.
  assert (lw_nodes initial = 0 ∧ lw_properties initial = 0 ∧ lw_enum_strings initial = 0
          ∧ count (lw_definitions initial) <= sl_definitions limits
          ∧ max_name_bytes (lw_definitions initial) <= sl_name_bytes limits) as (Hn & Hp & He & Hdc & Hdn).
  { unfold Lowering_new in En. destruct (lower_definitions limits root) as [[defs rest]|] eqn:Ed; [|done].
    apply lower_definitions_ok in Ed as [? ?]; [|done].
    destruct (remove_key "$schema" rest) as [[[| | |dialect| |] rest']|]; try done;
      [destruct (String.eqb _ _); [|done]|]; by injection En as <- <-. }
  apply lower_object_ok in Eo as (Hs & _ & Hc). split_and!; [done| |done|done].
  assert (covers limits context (collect_usage d 1 usage_default)) as Hcov.
  { apply Hc. unfold covers, usage_ok, limits_ok in *. rewrite Hn, Hp, He. simpl. lia. }
  unfold fits_limits. simpl.
  assert ((sl_schema_bytes limits <? source_bytes) || (sl_definitions limits <? count (lw_definitions initial))
          || (sl_name_bytes limits <? max_name_bytes (lw_definitions initial)) = false) as ->.
  { rewrite !orb_false_iff, !Z.ltb_ge. lia. }
  unfold covers in Hcov. rewrite !andb_true_iff, !Z.leb_le. lia.
Qed.

(** C29. A schema that is read, from text or from a JSON value, has a descriptor in
    canonical form (names, tags and enumerations strictly sorted, ordered bounds, unions
    of 2 to 64 branches), its size as [fits_limits] measures it is within the limits it
    was read with, and its bytes and digest are those of its descriptor. *)
Theorem lowered_schema_canonical `{FloatText, JsonText} (input : string) (value : Json) (limits : SchemaLimits)
    (schema : ToolSchema) :
  limits_ok limits →
  ToolSchema_parse input limits = Ok schema ∨ ToolSchema_from_value value limits = Ok schema →
  every shape_ok (ts_descriptor schema) ∧ fits_limits schema limits = true
  ∧ ts_canonical schema = canonical_bytes (ts_descriptor schema)
  ∧ ts_digest schema = Descriptor_digest (ts_descriptor schema).
Proof.
  intros Hl [Hp|Hv].
  - unfold ToolSchema_parse in Hp. destruct (_ <? _) eqn:E; [done|]. boolify.
    destruct (parse_strict_value input) as [raw|]; [|done]. by apply (lower_document raw (str_len input)).
  - unfold ToolSchema_from_value in Hv. destruct (_ <? _) eqn:E; [done|]. boolify.
    destruct (negb _); [done|]. destruct (parse_strict_value _) as [raw|]; [|done].
    by apply (lower_document raw (Z.of_nat (length (canonical_json value)))).
Qed.

(** ** A tokenizer for one document *)

Definition sample_text : string := "{oneOf: a, b}".
(** Two branches, the second with a bounded list of a referenced type. *)
Definition sample_events : JsonEvents :=
  let branch tag fields required :=
    EvMap [("type", EvStr "object");
           ("properties", EvMap (("tag", EvMap [("type", EvStr "string"); ("enum", EvSeq [EvStr tag] None)] None) :: fields) None);
           ("required", EvSeq (map EvStr required) None); ("additionalProperties", EvBool false)] None in
  EvMap [("$defs", EvMap [("digit", EvMap [("type", EvStr "integer"); ("minimum", EvU64 0); ("maximum", EvU64 9)] None)] None);
         ("oneOf", EvSeq [branch "none" [] ["tag"];
                          branch "digits" [("list", EvMap [("type", EvStr "array"); ("minItems", EvU64 0); ("maxItems", EvU64 4);
                                                           ("items", EvMap [("$ref", EvStr "#/$defs/digit")] None)] None)]
                                 ["list"; "tag"]] None)] None.
#[export] Instance sample_json_text : JsonText := {
  json_events input := if String.eqb input sample_text then sample_events else EvError "expected value";
  json_end _ := true;
  error_position _ := " at line 1 column 1" }.
Definition sample_union : Descriptor :=
  DTaggedUnion [Build_Variant "digits" [Build_Field "list" (DList 0 4 (DInt 0 9))]; Build_Variant "none" []].

Definition parsed_descriptor (input : string) : option Descriptor :=
  match ToolSchema_parse input SchemaLimits_default with Ok schema => Some (ts_descriptor schema) | Err _ => None end.
Lemma sample_parsed : parsed_descriptor sample_text = Some sample_union.
Proof. lazy. reflexivity. Qed.

Lemma lowered_schema_canonical_witness :
  parsed_descriptor sample_text = Some sample_union ∧ every shape_ok sample_union.
Proof.
  split; [apply sample_parsed|]. pose proof sample_parsed as Hp. unfold parsed_descriptor in Hp.
  destruct (ToolSchema_parse sample_text SchemaLimits_default) as [schema|] eqn:E; [|done].
  injection Hp as <-.
  apply (lowered_schema_canonical sample_text JNull SchemaLimits_default); [|by left].
  unfold limits_ok. simpl. lia.
Defined.
