(* ===== verification/SchemaValidateCorrect.v ===== *)
(** * Validation decides conformance

    [validate] accepts exactly the values that conform to a canonical descriptor; the
    issues it returns otherwise are between one and the limit, their pointers within
    the limit of bytes.  The loops of [validate_at] are composed from steps that
    [report]: they append issues exactly when their condition fails. *)

From S2P Require Import Prelude.
From S2P Require Import Text.
From S2P Require Import VmValue.
From S2P Require Import JoshMessage.
From S2P Require Import VmJson.
From S2P Require Import RuntimeJson.
From S2P Require Import ArtifactChecks.
From S2P Require Import SchemaJson.
From S2P Require Import SchemaModel.
From S2P Require Import SchemaLower.
From S2P Require Import SchemaValidate.
From S2P Require Import SchemaLowerCorrect.
Open Scope string_scope.
Open Scope list_scope.
Open Scope Z_scope.

(** ** Binary search *)

Section Search.
Context {A : Type} (compare : A → comparison) (l : list A).
(** Before an equal element the comparison is less, after it greater. *)
Hypothesis ordered : ∀ i j x y, (i < j)%nat → l !! i = Some x → l !! j = Some y →
  (compare x = Eq → compare y = Gt) ∧ (compare y = Eq → compare x = Lt).

Lemma search_base_finds k x fuel size base :
  l !! k = Some x → compare x = Eq → (base <= k < base + size)%nat → (base + size <= length l)%nat →
  (size <= S fuel)%nat → search_base compare l fuel size base = k.
Proof using ordered.
  intros Hk Hx. revert size base. induction fuel as [|fuel IH]; intros size base Hb Hl Hf; cbn [search_base]; [lia|].
  destruct (Nat.ltb_spec 1 size) as [Hs|]; [|lia].
  pose proof (Nat.div_mod_eq size 2) as Hdiv. pose proof (Nat.mod_upper_bound size 2 ltac:(lia)) as Hmod.
  set (half := (size / 2)%nat) in *. clearbody half. set (rest := (size mod 2)%nat) in *. clearbody rest.
  destruct (lookup_lt_is_Some_2 l (base + half)) as [y Hy]; [lia|]. rewrite Hy. simpl.
  assert (∀ i, (i < base + half)%nat → k = i → compare y = Gt) as Hbefore.
  { intros i Hi ->. by apply (ordered i (base + half) x y). }
  assert (∀ i, (base + half < i)%nat → k = i → compare y = Lt) as Hafter.
  { intros i Hi ->. by apply (ordered (base + half) i y x). }
  destruct (Nat.lt_trichotomy k (base + half)) as [Hlt|[Heq|Hgt]].
  - rewrite (Hbefore k Hlt eq_refl). apply IH; lia.
  - assert (y = x) as -> by congruence. rewrite Hx. apply IH; lia.
  - rewrite (Hafter k Hgt eq_refl). apply IH; lia.
Qed.

Lemma binary_search_exact :
  (∃ i, binary_search_by compare l = Some i) ↔ ∃ x, x ∈ l ∧ compare x = Eq.
Proof using ordered.
  unfold binary_search_by. split.
  - intros [i Hi]. destruct (l !! search_base _ _ _ _ _) as [x|] eqn:E; [|done].
    exists x. split; [by eapply list_elem_of_lookup_2|]. by destruct (compare x).
  - intros (x & [k Hk]%list_elem_of_lookup_1 & Hx).
    rewrite (search_base_finds k x) by (done || (apply lookup_lt_Some in Hk; lia)).
    rewrite Hk, Hx. eauto.
Qed.
End Search.

Lemma strictly_sorted_lookup l i j s t :
  strictly_sorted l → (i < j)%nat → l !! i = Some s → l !! j = Some t → str_ltb s t = true.
Proof.
  intros Hs. revert i j. induction Hs as [|x l Hs IH Hx]; intros [|i] [|j] Hij Hi Hj; try done; try lia; simpl in *.
  - injection Hi as <-. rewrite Forall_forall in Hx. apply Hx. by eapply list_elem_of_lookup_2.
  - apply (IH i j); [lia|done..].
Qed.

Lemma sorted_search {A} (name : A → string) (key : string) (l : list A) :
  strictly_sorted (map name l) →
  match binary_search_by (λ x, str_compare (name x) key) l with Some _ => true | None => false end
  = bool_decide (key ∈ map name l).
Proof.
  intros Hs.
  assert ((∃ i, binary_search_by (λ x, str_compare (name x) key) l = Some i) ↔ key ∈ map name l) as Hiff.
  { rewrite binary_search_exact.
    - rewrite list_elem_of_fmap. split.
      + intros (x & Hx & Heq). apply str_compare_Eq in Heq. eauto.
      + intros (x & -> & Hx). exists x. split; [done|]. by apply str_compare_Eq.
    - intros i j x y Hij Hx Hy.
      assert (str_ltb (name x) (name y) = true) as Hlt.
      { apply (strictly_sorted_lookup (map name l) i j); [done|done| |].
        - change (map name l) with (name <$> l). by rewrite list_lookup_fmap, Hx.
        - change (map name l) with (name <$> l). by rewrite list_lookup_fmap, Hy. }
      split; intros Heq; apply str_compare_Eq in Heq; subst key.
      + by apply str_compare_Gt.
      + by apply str_compare_Lt. }
  destruct (binary_search_by _ l) as [i|]; symmetry.
  - apply bool_decide_eq_true. apply Hiff. eauto.
  - apply bool_decide_eq_false. intros [i Hi]%Hiff. done.
Qed.

(** ** Conformance *)

(** The value conforms to the descriptor. *)
Inductive conforms : Descriptor → Json → Prop :=
| conforms_unit : conforms DUnit JNull
| conforms_bool b : conforms DBool (JBool b)
| conforms_int min max n z : number_as_i64 n = Some z → min <= z <= max → conforms (DInt min max) (JNumber n)
| conforms_float min max n bits :
  number_as_f64 n = Some bits → is_finite_bits bits = true →
  (∀ m, min = Some m → f64_ltb bits m = false) → (∀ m, max = Some m → f64_gtb bits m = false) →
  conforms (DFloat min max) (JNumber n)
| conforms_string min max enumeration text :
  (∀ m, min = Some m → m <= count (chars text)) → (∀ m, max = Some m → count (chars text) <= m) →
  enumeration = [] ∨ text ∈ enumeration → conforms (DString min max enumeration) (JString text)
| conforms_list min max items values :
  min <= count values <= max → Forall (conforms items) values → conforms (DList min max items) (JArray values)
| conforms_tuple items values : Forall2 conforms items values → conforms (DTuple items) (JArray values)
| conforms_record fields object :
  Forall (λ field, ∃ value, btree_get (fd_name field) object = Some value ∧ conforms (fd_schema field) value) fields →
  Forall (λ entry, entry.1 ∈ map fd_name fields) object → conforms (DRecord fields) (JObject object)
| conforms_map values object : Forall (λ entry, conforms values entry.2) object → conforms (DStringMap values) (JObject object)
| conforms_union variants variant object :
  variant ∈ variants → btree_get "tag" object = Some (JString (vt_tag variant)) →
  Forall (λ field, ∃ value, btree_get (fd_name field) object = Some value ∧ conforms (fd_schema field) value)
    (vt_fields variant) →
  Forall (λ entry, entry.1 = "tag" ∨ entry.1 ∈ map fd_name (vt_fields variant)) object →
  conforms (DTaggedUnion variants) (JObject object).

(** ** Steps that report *)

Section Reports.
Variable limits : SchemaLimits.
Hypothesis pointer_limit : 0 <= sl_issue_pointer_bytes limits.

Definition bounded_issue (i : ValidationIssue) : Prop := str_len (vi_pointer i) <= sl_issue_pointer_bytes limits.

(** The step appends issues, when there is room exactly if the condition fails. *)
Definition reports (step : list ValidationIssue → list ValidationIssue) (condition : Prop) : Prop :=
  ∀ issues, ∃ new,
    step issues = issues ++ new
    ∧ (count issues < max_issues limits → (new = [] ↔ condition))
    ∧ count (issues ++ new) <= Z.max (max_issues limits) (count issues)
    ∧ Forall bounded_issue new.

Lemma reports_iff step C D : reports step C → (C ↔ D) → reports step D.
Proof. intros Hr HCD issues. destruct (Hr issues) as (new & ? & Hn & ?). exists new. split_and!; [done|tauto|tauto..]. Qed.

Lemma reports_id : reports (λ issues, issues) True.
Proof. intros issues. exists []. rewrite app_nil_r. split_and!; [done|done|lia|constructor]. Qed.

Lemma reports_compose f g C D : reports f C → reports g D → reports (λ issues, g (f issues)) (C ∧ D).
Proof.
  intros Hf Hg issues. destruct (Hf issues) as (n1 & E1 & H1 & L1 & B1).
  destruct (Hg (issues ++ n1)) as (n2 & E2 & H2 & L2 & B2).
  exists (n1 ++ n2). rewrite E1, E2, (assoc (++)) in *. split_and!; [done| |lia|by apply Forall_app].
  intros Hroom. specialize (H1 Hroom). split.
  - intros [-> ->]%app_nil. rewrite app_nil_r in *. tauto.
  - intros [HC HD]. assert (n1 = []) as -> by tauto. rewrite app_nil_r in *. simpl. tauto.
Qed.

Lemma floor_loop_le value index : (floor_loop value index <= index)%nat.
Proof. induction index as [|index IH]; simpl; [lia|]. destruct (is_char_boundary _ _); lia. Qed.

Lemma issue_pointer_bounded pointer : str_len (issue_pointer limits pointer) <= sl_issue_pointer_bytes limits.
Proof using pointer_limit.
  unfold issue_pointer. destruct (Z.ltb_spec (sl_issue_pointer_bytes limits) (str_len pointer)) as [Hlt|]; [|done].
  pose proof (floor_loop_le pointer (Z.to_nat (Z.min (sl_issue_pointer_bytes limits) (str_len pointer)))) as Hf.
  fold (floor_char_boundary pointer (sl_issue_pointer_bytes limits)) in Hf.
  assert (∀ bs, String.length (string_of_bytes bs) = length bs) as Hlen.
  { induction bs as [|b bs IH]; [done|]. simpl. by rewrite IH. }
  unfold str_len at 1. rewrite Hlen, length_take. lia.
Qed.

Lemma reports_issue pointer code : reports (issue limits pointer code) False.
Proof using pointer_limit.
  intros issues. unfold issue. destruct (Z.ltb_spec (count issues) (max_issues limits)) as [Hroom|].
  - eexists. split_and!; [reflexivity|done| |].
    + unfold count in *. rewrite length_app. simpl. lia.
    + constructor; [|constructor]. apply issue_pointer_bounded.
  - exists []. rewrite app_nil_r. split_and!; [done|lia|lia|constructor].
Qed.
Lemma reports_if test pointer code : reports (issue_if limits test pointer code) (test = false).
Proof using pointer_limit.
  unfold issue_if. destruct test; [apply (reports_iff _ False); [apply reports_issue|done]|].
  apply (reports_iff _ True); [apply reports_id|done].
Qed.

Lemma reports_fold {A} (step : list ValidationIssue → A → list ValidationIssue) (C : A → Prop) l :
  Forall (λ a, reports (λ issues, step issues a) (C a)) l → reports (fold_left step l) (Forall C l).
Proof.
  induction 1 as [|a l Ha Hl IH]; [apply (reports_iff _ True); [apply reports_id|by split; constructor]|].
  apply (reports_iff _ (C a ∧ Forall C l)); [|by rewrite Forall_cons].
  apply (reports_compose (λ issues, step issues a) (fold_left step l)); done.
Qed.

(** The first test of [validate_at] changes nothing when there is room. *)
Lemma reports_guard step C :
  reports step C → reports (λ issues, if max_issues limits <=? count issues then issues else step issues) C.
Proof.
  intros Hr issues. destruct (Z.leb_spec (max_issues limits) (count issues)); [|apply Hr].
  exists []. rewrite app_nil_r. split_and!; [done|lia|lia|constructor].
Qed.

(** ** The loops *)

Lemma reports_elements (check : Json → string → list ValidationIssue → list ValidationIssue) (C : Json → Prop)
    pointer index values :
  (∀ value p, reports (check value p) (C value)) →
  reports (validate_elements check pointer index values) (Forall C values).
Proof.
  intros Hc. revert index. induction values as [|v values IH]; intros index.
  - apply (reports_iff _ True); [apply reports_id|by split; constructor].
  - apply (reports_iff _ (C v ∧ Forall C values)); [|by rewrite Forall_cons].
    apply (reports_compose (check v (join pointer (index_text index)))
             (validate_elements check pointer (S index) values)); auto.
Qed.

Definition validates (d : Descriptor) : Prop := ∀ value pointer, reports (validate_at limits d value pointer) (conforms d value).

Lemma reports_zip pointer index items values :
  Forall validates items → length items = length values →
  reports (validate_zip pointer index (map (validate_at limits) items) values) (Forall2 conforms items values).
Proof.
  intros Hi. revert index values. induction Hi as [|d items Hd Hi IH]; intros index [|v values] Hl; try done.
  - apply (reports_iff _ True); [apply reports_id|by split; constructor].
  - apply (reports_iff _ (conforms d v ∧ Forall2 conforms items values)); [|by rewrite Forall2_cons].
    apply (reports_compose (validate_at limits d v (join pointer (index_text index)))
             (validate_zip pointer (S index) (map (validate_at limits) items) values)); [apply Hd|].
    apply IH. simpl in Hl. lia.
Qed.

Lemma reports_field object pointer name check (C : Json → Prop) :
  (∀ value p, reports (check value p) (C value)) →
  reports (λ issues, validate_field limits object pointer issues name check)
          (∃ value, btree_get name object = Some value ∧ C value).
Proof using pointer_limit.
  intros Hc. unfold validate_field. destruct (btree_get name object) as [v|].
  - apply (reports_iff _ (C v)); [apply Hc|]. split; [eauto|]. by intros (? & [= <-] & ?).
  - apply (reports_iff _ False); [apply reports_issue|]. split; [done|]. by intros (? & ? & _).
Qed.

Lemma reports_extra allowed pointer object :
  reports (extra_keys limits allowed pointer object) (Forall (λ entry, allowed entry.1 = true) object).
Proof using pointer_limit.
  unfold extra_keys.
  apply (reports_fold (λ issues entry, issue_if limits (negb (allowed entry.1)) (join pointer entry.1) VcExtraField issues)
           (λ entry : string * Json, allowed entry.1 = true)).
  apply Forall_forall. intros entry _. eapply reports_iff; [apply reports_if|]. by destruct (allowed entry.1).
Qed.

(** The fields of a record or variant, then the keys that are not fields. *)
Lemma reports_fields fields allowed (keys : string → Prop) object pointer :
  Forall validates (map fd_schema fields) → (∀ key, allowed key = true ↔ keys key) →
  reports (λ issues, extra_keys limits allowed pointer object
             (fold_left (λ issues field, validate_field limits object pointer issues (fd_name field)
                                           (validate_at limits (fd_schema field))) fields issues))
    (Forall (λ field, ∃ value, btree_get (fd_name field) object = Some value ∧ conforms (fd_schema field) value) fields
     ∧ Forall (λ entry, keys entry.1) object).
Proof using pointer_limit.
  intros Hf Hk.
  apply (reports_compose
           (fold_left (λ issues field, validate_field limits object pointer issues (fd_name field)
                                         (validate_at limits (fd_schema field))) fields)
           (extra_keys limits allowed pointer object)).
  - apply (reports_fold (λ issues (field : Field Descriptor), validate_field limits object pointer issues (fd_name field)
                                         (validate_at limits (fd_schema field)))
             (λ field, ∃ value, btree_get (fd_name field) object = Some value ∧ conforms (fd_schema field) value)).
    rewrite Forall_map in Hf. eapply Forall_impl; [exact Hf|]. intros field Hv. by apply reports_field.
  - eapply reports_iff; [apply reports_extra|]. rewrite !Forall_forall. split; intros H e He; apply Hk; by apply H.
Qed.

(** ** Variants *)

Lemma find_map {A B} (f : A → B) (p : B → bool) l : List.find p (map f l) = f <$> List.find (λ a, p (f a)) l.
Proof. induction l as [|a l IH]; [done|]. simpl. by destruct (p (f a)). Qed.
Lemma fold_left_over_map {A B S} (step : S → B → S) (f : A → B) l s :
  fold_left step (map f l) s = fold_left (λ s a, step s (f a)) l s.
Proof. revert s. induction l as [|a l IH]; intros s; [done|]. apply IH. Qed.

Lemma find_variant_tag variants (variant : Variant Descriptor) :
  strictly_sorted (map vt_tag variants) → variant ∈ variants →
  List.find (λ v, String.eqb (vt_tag v) (vt_tag variant)) variants = Some variant.
Proof.
  intros Hs%strictly_sorted_nodup. induction variants as [|v variants IH]; intros Hin; [by apply not_elem_of_nil in Hin|].
  apply NoDup_cons in Hs as [Hv Hs]. simpl. apply elem_of_cons in Hin as [->|Hin]; [by rewrite String.eqb_refl|].
  destruct (String.eqb_spec (vt_tag v) (vt_tag variant)) as [E|]; [|by apply IH].
  exfalso. apply Hv. rewrite E. by apply list_elem_of_fmap_2.
Qed.

Lemma validate_variant_reports variants variant object pointer :
  Forall validates (children (DTaggedUnion variants)) → variant ∈ variants →
  reports (λ issues,
    let fields := map (λ field, (fd_name field, validate_at limits (fd_schema field))) (vt_fields variant) in
    extra_keys limits (λ key, String.eqb key "tag" || existsb (λ field, String.eqb field.1 key) fields) pointer object
      (fold_left (λ issues field, validate_field limits object pointer issues field.1 field.2) fields issues))
    (Forall (λ field, ∃ value, btree_get (fd_name field) object = Some value ∧ conforms (fd_schema field) value)
       (vt_fields variant)
     ∧ Forall (λ entry, entry.1 = "tag" ∨ entry.1 ∈ map fd_name (vt_fields variant)) object).
Proof using pointer_limit.
  intros Hv Hin. cbv zeta. simpl in Hv. rewrite Forall_flat_map, Forall_forall in Hv. specialize (Hv _ Hin).
  assert (∀ issues, fold_left (λ issues field, validate_field limits object pointer issues field.1 field.2)
            (map (λ field, (fd_name field, validate_at limits (fd_schema field))) (vt_fields variant)) issues
          = fold_left (λ issues field, validate_field limits object pointer issues (fd_name field)
                                         (validate_at limits (fd_schema field))) (vt_fields variant) issues) as Hfold.
  { intros issues. apply fold_left_over_map. }
  intros issues. rewrite Hfold.
  apply (reports_fields (vt_fields variant) _ (λ key, key = "tag" ∨ key ∈ map fd_name (vt_fields variant)) object pointer Hv).
  intros key. rewrite orb_true_iff, String.eqb_eq, existsb_exists. apply or_iff_compat_l. rewrite list_elem_of_fmap. split.
  - intros ([n c] & Hc%list_elem_of_In & He). apply String.eqb_eq in He. simpl in He. subst n.
    apply list_elem_of_fmap in Hc as (f & [= -> ->] & Hf). eauto.
  - intros (f & -> & Hf). exists (fd_name f, validate_at limits (fd_schema f)). split; [|apply String.eqb_refl].
    apply list_elem_of_In. by apply (list_elem_of_fmap_2 (λ field, (fd_name field, validate_at limits (fd_schema field)))).
Qed.

(** ** All descriptors *)

(** A value of another kind is one issue. *)
Ltac wrong_kind := apply (reports_iff _ False); [apply reports_issue|split; [done|inversion 1]].
Ltac no_issue := apply (reports_iff _ True); [apply reports_id|].

Definition is_scalar (d : Descriptor) : bool :=
  match d with DUnit | DBool | DInt _ _ | DFloat _ _ | DString _ _ _ => true | _ => false end.
Lemma reports_scalar d value pointer :
  is_scalar d = true → shape_ok d → reports (validate_at limits d value pointer) (conforms d value).
Proof using pointer_limit.
  intros Hc Hs. destruct d as [| |min max|min max|min max en|min max items|items|fields|values|variants];
    cbn [validate_at]; try discriminate Hc; try apply reports_guard.
  - destruct value; try wrong_kind. no_issue. split; [constructor|done].
  - destruct value; try wrong_kind. no_issue. split; [constructor|done].
  - destruct value as [| |n| | |]; try wrong_kind. simpl. destruct (number_as_i64 n) as [z|] eqn:E.
    + eapply reports_iff; [apply (reports_compose _ _ _ _ (reports_if _ _ _) (reports_if _ _ _))|].
      rewrite !Z.ltb_ge. split; [intros; by econstructor|].
      inversion 1; subst. simplify_eq. done.
    + apply (reports_iff _ False); [apply reports_issue|]. split; [done|]. inversion 1; congruence.
  - destruct value as [| |n| | |]; try wrong_kind. simpl. unfold finite_f64.
    destruct (number_as_f64 n) as [z|] eqn:E; simpl; [destruct (is_finite_bits z) eqn:Ef|].
    2,3: apply (reports_iff _ False); [apply reports_issue|]; split; [done|]; inversion 1; congruence.
    eapply reports_iff; [apply (reports_compose _ _ _ _ (reports_if _ _ _) (reports_if _ _ _))|]. split.
    + intros [Hmin Hmax]. econstructor; [done|done|by intros m ->|by intros m ->].
    + inversion 1 as [| | |? ? ? ? E' Hf Hmin Hmax| | | | | |]; subst. rewrite E in E'. injection E' as <-.
      split; [destruct min; [by apply Hmin|done]|destruct max; [by apply Hmax|done]].
  - destruct value as [| | |text| |]; try wrong_kind. simpl.
    eapply reports_iff; [apply (reports_compose _ _ _ _ (reports_if _ _ _) (reports_if _ _ _))|].
    destruct Hs as [_ Hs].
    assert (negb (count en =? 0) && match binary_search_by (λ entry, str_compare entry text) en with
                                    | Some _ => false | None => true end = false ↔ en = [] ∨ text ∈ en) as ->.
    { rewrite <- (map_id en) in Hs. apply (sorted_search id text) in Hs. rewrite map_id in Hs. unfold id in Hs at 1.
      destruct (binary_search_by _ en); symmetry in Hs; boolify.
      - rewrite andb_false_r. tauto.
      - rewrite andb_true_r, negb_false_iff, Z.eqb_eq. unfold count. destruct en; simpl; [|split; [lia|]; intros [?|?]; done].
        split; [by left|done]. }
    rewrite orb_false_iff. split.
    + intros [[Hmin Hmax] He]. constructor; [intros m ->|intros m ->|done]; by boolify.
    + inversion 1 as [| | | |? ? ? ? Hmin Hmax He| | | | |]; subst. split; [|done].
      split; [destruct min as [m|]; [|done]|destruct max as [m|]; [|done]]; apply Z.ltb_ge; auto.
Qed.

Lemma validate_at_reports d : every shape_ok d → validates d.
Proof using pointer_limit.
  induction d as [d IH] using Descriptor_nested. intros [Hs Hc]%every_inv value pointer.
  assert (Forall validates (children d)) as Hv.
  { rewrite Forall_forall in *. intros x Hx. apply IH; [done|]. by apply Hc. }
  clear IH Hc. destruct d as [| |min max|min max|min max en|min max items|items|fields|values|variants];
    try (by apply reports_scalar); cbn [validate_at]; apply reports_guard; simpl in Hv.
  - apply Forall_cons in Hv as [Hv _]. destruct value as [| | | |l|]; try wrong_kind. simpl.
    eapply reports_iff; [apply (reports_compose _ _ _ _ (reports_if _ _ _)
      (reports_elements (validate_at limits items) (conforms items) pointer 0 l Hv))|].
    rewrite orb_false_iff, !Z.ltb_ge. split; [intros [[? ?] ?]; by constructor|inversion 1; tauto].
  - destruct value as [| | | |l|]; try wrong_kind. simpl. destruct (Z.eqb_spec (count l) (count items)) as [E|Hne].
    + eapply reports_iff; [apply reports_zip; [done|unfold count in E; lia]|].
      split; [by constructor|by inversion 1].
    + apply (reports_iff _ False); [apply reports_issue|]. split; [done|].
      inversion 1 as [| | | | | |? ? Hall| | |]; subst. apply Forall2_length in Hall. unfold count in Hne. lia.
  - destruct value as [| | | | |object]; try wrong_kind. simpl.
    eapply reports_iff; [apply (reports_fields fields _ (λ key, key ∈ map fd_name fields) object pointer Hv)|].
    + intros key. rewrite sorted_search by done. apply bool_decide_eq_true.
    + split; [intros [? ?]; by constructor|by inversion 1].
  - apply Forall_cons in Hv as [Hv _]. destruct value as [| | | | |object]; try wrong_kind. simpl.
    eapply reports_iff; [apply (reports_fold
      (λ issues (entry : string * Json), validate_at limits values entry.2 (join pointer entry.1) issues)
      (λ entry, conforms values entry.2))|].
    + apply Forall_forall. intros e _. apply Hv.
    + split; [by constructor|by inversion 1].
  - destruct value as [| | | | |object]; try wrong_kind. simpl. destruct Hs as (_ & Htags & _).
    assert (∀ v, btree_get "tag" object = Some v → as_str v = None ∨
              (∃ tag, v = JString tag ∧ List.find (λ v, String.eqb (vt_tag v) tag) variants = None) →
            conforms (DTaggedUnion variants) (JObject object) → False) as Hno.
    { intros v Hget Hnone. inversion 1 as [| | | | | | | | |? variant ? Hin Htag _ _]; subst.
      rewrite Hget in Htag. injection Htag as ->. destruct Hnone as [?|(tag & [= <-] & Hf)]; [done|].
      by rewrite find_variant_tag in Hf. }
    destruct (btree_get "tag" object) as [v|] eqn:Hget; simpl.
    2: { apply (reports_iff _ False); [apply reports_issue|]. split; [done|]. inversion 1; congruence. }
    destruct (as_str v) as [tag|] eqn:Ev; simpl.
    2: { apply (reports_iff _ False); [apply reports_issue|]. split; [done|]. by apply (Hno v eq_refl); left. }
    destruct v; try discriminate Ev. injection Ev as ->.
    rewrite find_map. simpl. destruct (List.find _ variants) as [variant|] eqn:Ef; simpl.
    2: { apply (reports_iff _ False); [apply reports_issue|]. split; [done|]. apply (Hno _ eq_refl). right. eauto. }
    apply List.find_some in Ef as Hfound. destruct Hfound as [Hin%list_elem_of_In Htag%String.eqb_eq].
    eapply reports_iff; [by apply (validate_variant_reports variants)|]. split.
    + intros [? ?]. econstructor; [done|by rewrite Htag|done|done].
    + inversion 1 as [| | | | | | | | |? variant' ? Hin' Htag' ? ?]; subst.
      rewrite Hget in Htag'. injection Htag' as Heq. rewrite Heq in Ef. rewrite find_variant_tag in Ef by done.
      by injection Ef as <-.
Qed.
End Reports.

(** C28. Validation decides conformance: for a canonical descriptor, [validate] succeeds
    exactly on the values that conform to it, and otherwise returns at least one issue
    and at most the limit, each with a pointer within the limit of bytes. *)
Theorem validation_exact (limits : SchemaLimits) (schema : Descriptor) (value : Json) :
  every shape_ok schema → 0 <= sl_issue_pointer_bytes limits →
  match validate limits schema value with
  | Ok _ => conforms schema value
  | Err issues =>
    ¬ conforms schema value
    ∧ 1 <= count issues <= Z.max (sl_validation_issues limits) 1
    ∧ Forall (λ i, str_len (vi_pointer i) <= sl_issue_pointer_bytes limits) issues
  end.
Proof.
  intros Hs Hp. destruct (validate_at_reports limits Hp schema Hs value "" []) as (new & E & Hn & Hl & Hb).
  unfold validate. rewrite E. simpl in *. unfold max_issues in *.
  destruct new as [|i new]; [apply Hn; [unfold count; simpl; lia|done]|].
  split_and!; [|unfold count; simpl; lia|unfold count in *; simpl in *; lia|done].
  intros Hc. apply Hn in Hc; [done|]. unfold count. simpl. lia.
Qed.

Definition sample_value (digit : Z) : Json :=
  JObject [("list", JArray [JNumber (NPosInt 3); JNumber (NPosInt digit)]); ("tag", JString "digits")].

Lemma sample_union_shape : every shape_ok sample_union.
Proof.
  constructor.
  - split_and!; [by vm_compute|by vm_compute| |]; repeat constructor; by apply not_elem_of_nil || set_solver.
  - apply Forall_singleton. constructor; [simpl; lia|]. apply Forall_singleton. constructor; [simpl; lia|constructor].
Qed.

Lemma validation_exact_witness :
  conforms sample_union (sample_value 9) ∧ ¬ conforms sample_union (sample_value 10).
Proof.
  assert (every shape_ok sample_union) as Hs by apply sample_union_shape.
  split.
  - exact (validation_exact SchemaLimits_default sample_union (sample_value 9) Hs ltac:(simpl; lia)).
  - exact (proj1 (validation_exact SchemaLimits_default sample_union (sample_value 10) Hs ltac:(simpl; lia))).
Defined.
