(* ===== verification/SchemaNamesCorrect.v ===== *)
(** * Generated names

    A catalog whose generated names are accepted gives every tool its own source path
    and effect, and every tool's namespace its own members.  The effect generated from a
    tool name is the one an artifact must carry, and is a canonical effect exactly when
    every segment of the name starts with a lower-case letter. *)

From stdpp Require Import list_tactics.
From S2P Require Import Prelude.
From S2P Require Import Text.
From S2P Require Import Bytecode.
From S2P Require Import JoshMessage.
From S2P Require Import VmOps.
From S2P Require Import Verifier.
From S2P Require Import ArtifactNames.
From S2P Require Import SchemaJson.
From S2P Require Import SchemaModel.
From S2P Require Import SchemaLower.
From S2P Require Import SchemaCatalog.
From S2P Require Import SchemaCanonical.
Open Scope string_scope.
Open Scope list_scope.
Open Scope Z_scope.

(** ** Sets of names *)

Lemma existsb_name name l : existsb (String.eqb name) l = true ↔ name ∈ l.
Proof.
  rewrite existsb_exists, list_elem_of_In. split.
  - intros (x & Hx & ->%String.eqb_eq). done.
  - intros Hx. exists name. split; [done|apply String.eqb_refl].
Qed.

Lemma insert_names_ok names members result :
  insert_names names members = Ok result → NoDup members → NoDup result ∧ result ≡ₚ names ++ members.
Proof.
  revert members. induction names as [|name names IH]; intros members; simpl.
  - by intros [= <-].
  - destruct (existsb _ _) eqn:E; [done|]. intros H Hn.
    destruct (IH _ H) as [Hr Hp].
    + constructor; [|done]. intros Hin%existsb_name. congruence.
    + split; [done|]. rewrite Hp. by rewrite Permutation_middle.
Qed.

Lemma insert_declarations_ok declarations members result :
  insert_declarations declarations members = Ok result → NoDup members →
  NoDup result ∧ result ≡ₚ map gn_source_name declarations ++ members
  ∧ Forall (λ d, NoDup (gn_variants d)) declarations.
Proof.
  revert members. induction declarations as [|d declarations IH]; intros members.
  - cbn [insert_declarations]. intros [= <-] Hn. split_and!; [done|done|constructor].
  - cbn [insert_declarations]. destruct (insert_names [_] members) as [members'|] eqn:E; [|done].
    destruct (insert_names (gn_variants d) []) as [vs|] eqn:Ev; [|done]. intros H Hn.
    destruct (insert_names_ok _ _ _ E Hn) as [Hn' Hp']. destruct (IH _ H Hn') as (Hr & Hp & Hv).
    apply insert_names_ok in Ev as [Hvs Hvp]; [|constructor]. rewrite app_nil_r in Hvp.
    split_and!; [done| |constructor; [by rewrite <- Hvp|done]].
    rewrite Hp, Hp'. simpl. by rewrite Permutation_middle.
Qed.

(** The names a tool declares in its own namespace. *)
Definition tool_declarations (tool : ToolDefinition) : list GeneratedName :=
  union_declarations (ts_descriptor (td_input_schema tool)) RoleInput
  ++ union_declarations (ts_descriptor (td_output_schema tool)) RoleOutput
  ++ union_declarations (ts_descriptor (td_error_schema tool)) RoleError.
Definition fixed_members : list string := ["Input"; "Output"; "Error"; "call"].

(** The members of the namespace and the variants of each union are distinct. *)
Definition members_distinct (tool : ToolDefinition) (children : list string) : Prop :=
  NoDup (fixed_members ++ children ++ map gn_source_name (tool_declarations tool))
  ∧ Forall (λ d, NoDup (gn_variants d)) (tool_declarations tool).

Lemma validate_leaf_ok tool children : validate_leaf tool children = Ok tt → members_distinct tool children.
Proof.
  unfold validate_leaf. destruct (insert_names children _) as [m0|] eqn:E0; [|done].
  destruct (insert_declarations _ m0) as [m1|] eqn:E1; [|done].
  destruct (insert_declarations _ m1) as [m2|] eqn:E2; [|done].
  destruct (insert_declarations _ m2) as [m3|] eqn:E3; [|done]. intros _.
  apply insert_names_ok in E0 as [N0 P0]; [|apply (bool_decide_eq_true_1 _); by vm_compute].
  apply insert_declarations_ok in E1 as (N1 & P1 & V1); [|done].
  apply insert_declarations_ok in E2 as (N2 & P2 & V2); [|done].
  apply insert_declarations_ok in E3 as (N3 & P3 & V3); [|done].
  split; [|unfold tool_declarations; rewrite !Forall_app; done].
  assert (fixed_members ++ children ++ map gn_source_name (tool_declarations tool) ≡ₚ m3) as ->; [|done].
  rewrite P3, P2, P1, P0. unfold tool_declarations. rewrite !map_app. fold fixed_members.
  solve_Permutation.
Qed.

(** ** The tree *)

Inductive namespace_sorted : Namespace → Prop :=
| namespace_node source_segments children leaf :
  btree_sorted children → Forall (λ child, namespace_sorted child.2) children →
  namespace_sorted (MkNamespace source_segments children leaf).

Definition source_path (tool : ToolDefinition) : list string := map mangle_source_segment (segments (td_name tool)).

(** The tool at a path of source identifiers, with the children of its namespace. *)
Fixpoint leaf_at (path : list string) (namespace : Namespace) : option (ToolDefinition * list string) :=
  let '(MkNamespace _ children leaf) := namespace in
  match path with
  | [] => (λ tool, (tool, map fst children)) <$> leaf
  | segment :: path => child ← btree_get segment children; leaf_at path child
  end.
Definition tool_at (path : list string) (namespace : Namespace) : option ToolDefinition :=
  fst <$> leaf_at path namespace.

Lemma tool_at_nil source_segments children leaf : tool_at [] (MkNamespace source_segments children leaf) = leaf.
Proof. by destruct leaf. Qed.
Lemma tool_at_cons segment path source_segments children leaf :
  tool_at (segment :: path) (MkNamespace source_segments children leaf)
  = child ← btree_get segment children; tool_at path child.
Proof. unfold tool_at. simpl. by destruct (btree_get segment children). Qed.
Lemma tool_at_empty path : tool_at path empty_namespace = None.
Proof. by destruct path. Qed.

Lemma btree_get_elem {V} k (m : list (string * V)) v : btree_get k m = Some v → (k, v) ∈ m.
Proof.
  induction m as [|[k' v'] m IH]; simpl; [done|]. destruct (String.eqb_spec k k') as [->|].
  - intros [= ->]. by left.
  - intros H. right. by apply IH.
Qed.
Lemma btree_insert_elem {V} k v (m : list (string * V)) e : e ∈ btree_insert k v m → e = (k, v) ∨ e ∈ m.
Proof.
  induction m as [|[k' v'] m IH]; simpl.
  - rewrite list_elem_of_singleton. auto.
  - destruct (str_compare k k'); rewrite !elem_of_cons; naive_solver.
Qed.

(** One tool more: at a path that was free. *)
Lemma insert_tool_ok path tool namespace namespace' :
  insert_tool path tool namespace = Ok namespace' → namespace_sorted namespace →
  namespace_sorted namespace' ∧ tool_at (map mangle_source_segment path) namespace = None
  ∧ ∀ p, tool_at p namespace' = if bool_decide (p = map mangle_source_segment path) then Some tool else tool_at p namespace.
Proof.
  revert namespace namespace'. induction path as [|segment path IH]; intros [sources children leaf] namespace' H Hs;
    inversion Hs as [? ? ? Hc Hall]; subst; cbn [insert_tool] in H.
  - destruct leaf; [done|]. injection H as <-. split_and!; [by constructor|done|].
    intros [|s p]; [done|]. by rewrite !tool_at_cons.
  - destruct (match btree_get _ sources with Some _ => _ | None => _ end); [done|].
    set (mangled := mangle_source_segment segment) in *.
    set (old := default empty_namespace (btree_get mangled children)) in *.
    destruct (insert_tool path tool old) as [child|] eqn:E; [|done]. injection H as <-.
    assert (namespace_sorted old) as Ho.
    { unfold old. destruct (btree_get mangled children) as [c|] eqn:Eg; simpl; [|by repeat constructor].
      apply btree_get_elem in Eg. rewrite Forall_forall in Hall. by apply (Hall (mangled, c)). }
    assert (∀ p, tool_at p old = child ← btree_get mangled children; tool_at p child) as Hold.
    { intros p. unfold old. destruct (btree_get mangled children); simpl; [done|]. apply tool_at_empty. }
    destruct (IH _ _ E Ho) as (Hc' & Hfree & Hat). split_and!.
    + constructor; [by apply btree_insert_sorted|]. rewrite Forall_forall in *.
      intros e [->|He]%btree_insert_elem; [done|by apply Hall].
    + simpl. fold mangled. by rewrite tool_at_cons, <- Hold.
    + intros [|s p]; [by rewrite !tool_at_nil|]. rewrite !tool_at_cons, btree_get_insert by done.
      simpl. fold mangled. destruct (String.eqb_spec s mangled) as [->|Hne]; simpl.
      * rewrite Hat, Hold. repeat case_bool_decide; congruence.
      * case_bool_decide; congruence.
Qed.

Lemma insert_tools_ok tools root effects root' (done_tools : list ToolDefinition) :
  insert_tools tools root effects = Ok root' →
  namespace_sorted root → NoDup (map source_path done_tools) → NoDup effects →
  (∀ p tool, tool_at p root = Some tool ↔ tool ∈ done_tools ∧ source_path tool = p) →
  ∃ generated,
    Forall2 (λ tool effect, generated_tool_effect (td_name tool) (td_version tool) = Ok effect) tools generated
    ∧ NoDup (rev generated ++ effects) ∧ NoDup (map source_path (done_tools ++ tools))
    ∧ (∀ p tool, tool_at p root' = Some tool ↔ tool ∈ done_tools ++ tools ∧ source_path tool = p).
Proof.
  revert root effects done_tools. induction tools as [|tool tools IH]; intros root effects done_tools.
  - intros [= <-] Hs Hp He Hat. exists []. rewrite app_nil_r. split_and!; [constructor|done|done|done].
  - cbn [insert_tools]. destruct (insert_tool _ tool root) as [root1|] eqn:E1; [|done].
    destruct (generated_tool_effect _ _) as [effect|] eqn:E2; [|done].
    destruct (insert_names [effect] effects) as [effects1|] eqn:E3; [|done]. intros H Hs Hp He Hat.
    destruct (insert_tool_ok _ _ _ _ E1 Hs) as (Hs1 & Hfree & Hat1).
    simpl in E3. destruct (existsb _ effects) eqn:Ee; [done|]. injection E3 as <-.
    destruct (IH root1 (effect :: effects) (done_tools ++ [tool]) H Hs1) as (generated & Hg & Hn & Hpaths & Hleaf).
    + rewrite map_app. apply NoDup_app. split_and!; [done| |apply NoDup_singleton].
      intros p Hin Heq%list_elem_of_singleton. subst p. apply list_elem_of_fmap in Hin as (t & Ht & Hin).
      assert (tool_at (source_path tool) root = Some t) as Hc by (apply Hat; done).
      unfold source_path in Hc at 1. congruence.
    + constructor; [|done]. intros Hin%existsb_name. congruence.
    + intros p t. rewrite Hat1, elem_of_app, list_elem_of_singleton. case_bool_decide as Hp'.
      * split; [intros [= <-]; auto|]. intros [[Ht| ->] Hpath]; [|done].
        assert (tool_at p root = Some t) as Hc by (apply Hat; done). rewrite Hp' in Hc. congruence.
      * rewrite Hat. split; [naive_solver|]. intros [[Ht| ->] Hpath]; [done|]. by rewrite <- Hpath in Hp'.
    + exists (effect :: generated). rewrite <- (assoc (++)) in Hpaths. setoid_rewrite <- (assoc (++)) in Hleaf.
      split_and!; [by constructor| |done|done]. simpl. by rewrite <- (assoc (++)).
Qed.

Lemma validate_namespace_ok path namespace tool children :
  validate_namespace namespace = Ok tt → leaf_at path namespace = Some (tool, children) → members_distinct tool children.
Proof.
  revert namespace. induction path as [|segment path IH]; intros [sources kids leaf] H Hl; cbn [validate_namespace leaf_at] in *.
  - destruct leaf as [t|]; [|done]. simpl in Hl. injection Hl as -> <-.
    destruct (validate_leaf _ _) as [[]|] eqn:E; [|done]. by apply validate_leaf_ok.
  - destruct (match leaf with Some _ => _ | None => _ end); [|done]. apply for_each_ok in H.
    destruct (btree_get segment kids) as [child|] eqn:E; [|done]. simpl in Hl.
    apply btree_get_elem in E. rewrite Forall_forall in H. by apply (IH child (H _ E)).
Qed.

(** C31. A catalog whose generated names are accepted is free of collisions: its tools
    have distinct source paths and distinct effects, and each tool's namespace, with the
    fixed members, the namespaces of longer names and the unions of its three schemas,
    has distinct members, the variants of each union distinct identifiers. *)
Theorem generated_names_distinct (tools : list ToolDefinition) :
  validate_generated_names tools = Ok tt →
  NoDup (map source_path tools)
  ∧ (∃ effects, Forall2 (λ tool effect, generated_tool_effect (td_name tool) (td_version tool) = Ok effect) tools effects
                ∧ NoDup effects)
  ∧ ∃ root, insert_tools tools empty_namespace [] = Ok root
            ∧ Forall (λ tool, ∃ children, leaf_at (source_path tool) root = Some (tool, children)
                                          ∧ members_distinct tool children) tools.
Proof.
  unfold validate_generated_names. destruct (insert_tools tools empty_namespace []) as [root|] eqn:E; [|done]. intros Hv.
  destruct (insert_tools_ok _ _ _ _ [] E) as (effects & He & Hn & Hp & Hat).
  - by repeat constructor.
  - constructor.
  - constructor.
  - intros p t. rewrite tool_at_empty. split; [done|]. by intros [?%not_elem_of_nil _].
  - rewrite app_nil_r, <- (Permutation_rev effects) in Hn. split_and!; [done|eauto|].
    exists root. split; [done|]. apply Forall_forall. intros tool Ht.
    assert (tool_at (source_path tool) root = Some tool) as Hl by (by apply Hat).
    unfold tool_at in Hl. destruct (leaf_at (source_path tool) root) as [[t children]|] eqn:El; [|done].
    injection Hl as ->. exists children. split; [done|]. by eapply validate_namespace_ok.
Qed.

(** ** Effects *)

Lemma split_char_join c l :
  l ≠ [] → Forall (λ s, str_mem c s = false) l → split_char c (join_char c l) = l.
Proof.
  assert (∀ s, str_mem c s = false → split_char c s = [s]) as Hone.
  { induction s as [|a s IH]; simpl; [done|]. intros [Ha Hs]%orb_false_iff. by rewrite Ha, IH. }
  assert (∀ s t, str_mem c s = false → split_char c (s ++ String c t) = s :: split_char c t) as Hcons.
  { induction s as [|a s IH]; intros t; simpl; [by rewrite Ascii.eqb_refl|].
    intros [Ha Hs]%orb_false_iff. by rewrite Ha, IH. }
  intros Hne Hl. induction Hl as [|s [|t l] Hs Hl IH]; [done|by apply Hone|].
  change (join_char c (s :: t :: l)) with (s ++ String c (join_char c (t :: l)))%string.
  by rewrite Hcons, IH.
Qed.

Lemma str_mem_app c s t : str_mem c (s ++ t) = str_mem c s || str_mem c t.
Proof. induction s as [|a s IH]; simpl; [done|]. by rewrite IH, orb_assoc. Qed.
Lemma str_mem_bytes c bs :
  forallb (λ b, is_byte b && negb (b =? byte_of c)) bs = true → str_mem c (string_of_bytes bs) = false.
Proof.
  induction bs as [|b bs IH]; simpl; [done|]. intros H. boolify. rewrite IH by done. rewrite orb_false_r.
  apply Ascii.eqb_neq. intros E. apply (f_equal byte_of) in E. rewrite byte_of_ascii_of in E by done. done.
Qed.

Lemma rsplit_once_last c a b :
  str_mem c b = false → rsplit_once (String c "") (a ++ String c b) = Some (a, b).
Proof.
  intros Hb. assert (rsplit_once (String c "") b = None) as Hn.
  { induction b as [|x b IH]; [done|]. simpl in *. apply orb_false_iff in Hb as [Hx Hb]. rewrite IH by done.
    destruct (Ascii.eqb_spec c x) as [->|]; [by rewrite Ascii.eqb_refl in Hx|done]. }
  induction a as [|x a IH]; simpl.
  - rewrite Hn, Ascii.eqb_refl. by destruct b.
  - by rewrite IH.
Qed.

(** The bytes of a generated effect segment. *)
Definition effect_byte (b : Z) : bool := is_ascii_lowercase b || is_ascii_digit b || (b =? 95).
Definition mangled_bytes (segment : string) : list Z :=
  flat_map (λ b, if effect_preserved b then [b] else ([95; 120] ++ Names.hex_byte b ++ [95])%list) (bytes segment).

Lemma hex_byte_effect b : 0 <= b < 256 → forallb effect_byte (Names.hex_byte b) = true.
Proof.
  intros Hb. unfold Names.hex_byte. assert (∀ d, 0 <= d < 16 → effect_byte (hex_char d) = true) as Hd.
  { intros d Hd. unfold effect_byte, hex_char, is_ascii_lowercase, is_ascii_digit, between.
    destruct (Z.ltb_spec d 10); rewrite !orb_true_iff, !andb_true_iff, !Z.leb_le, Z.eqb_eq; lia. }
  simpl. rewrite !Hd; [done|apply Z.mod_pos_bound; lia|].
  split; [apply Z.div_pos; lia|apply Z.div_lt_upper_bound; lia].
Qed.
Lemma mangled_effect segment : forallb effect_byte (mangled_bytes segment) = true.
Proof.
  unfold mangled_bytes. pose proof (bytes_are_bytes segment) as Hb. induction Hb as [|b bs Hb Hbs IH]; [done|].
  cbn [flat_map]. rewrite forallb_app, IH, andb_true_r. apply in_unsigned_spec in Hb. unfold u8_max in Hb.
  destruct (effect_preserved b) eqn:E; simpl; [by rewrite andb_true_r|].
  assert (forallb effect_byte (Names.hex_byte b ++ [95]) = true) as Hh; [|exact Hh].
  by rewrite forallb_app, hex_byte_effect by lia.
Qed.
Lemma effect_byte_range b : effect_byte b = true → is_byte b = true ∧ b ≠ 46 ∧ b ≠ 64.
Proof.
  unfold effect_byte, is_ascii_lowercase, is_ascii_digit, between, is_byte.
  rewrite in_unsigned_spec, !orb_true_iff, !andb_true_iff, !Z.leb_le, Z.eqb_eq. unfold u8_max. lia.
Qed.
Lemma mangle_effect_bytes segment :
  let numeric := match List.find effect_preserved (bytes segment) with Some b => is_ascii_digit b | None => false end in
  bytes (mangle_effect_segment segment) = (if numeric then [95; 110; 95] else []) ++ mangled_bytes segment
  ∧ forallb effect_byte (bytes (mangle_effect_segment segment)) = true.
Proof.
  intros numeric. unfold mangle_effect_segment, mangle. fold (mangled_bytes segment) numeric.
  assert (∀ bs, forallb effect_byte bs = true → bytes (string_of_bytes bs) = bs) as Hb.
  { intros bs H. apply bytes_string_of_bytes. rewrite forallb_forall in H. apply Forall_forall.
    intros b Hb%list_elem_of_In%H. by apply effect_byte_range. }
  pose proof (mangled_effect segment) as Hm.
  destruct numeric; rewrite Hb by done; done.
Qed.
Lemma mangle_effect_no c segment : byte_of c = 46 ∨ byte_of c = 64 → str_mem c (mangle_effect_segment segment) = false.
Proof.
  intros Hc. destruct (mangle_effect_bytes segment) as [_ Hb].
  rewrite <- (string_of_bytes_bytes (mangle_effect_segment segment)). apply str_mem_bytes.
  rewrite forallb_forall in *. intros b Hin%Hb%effect_byte_range. destruct Hin as (-> & ? & ?). simpl.
  apply negb_true_iff, Z.eqb_neq. lia.
Qed.

Definition starts_lower (segment : string) : bool :=
  match bytes segment with b :: _ => is_ascii_lowercase b | [] => false end.

(** A generated segment is canonical when the segment starts with a lower-case letter. *)
Lemma mangled_canonical segment :
  segment ≠ "" → Verifier.effect_segment (mangle_effect_segment segment) = starts_lower segment.
Proof.
  intros Hne. destruct (mangle_effect_bytes segment) as [Hb Hall]. unfold Verifier.effect_segment, starts_lower.
  destruct (bytes segment) as [|b bs] eqn:E; [by apply (bytes_eq_iff segment "") in E|].
  assert (∀ b' rest, bytes (mangle_effect_segment segment) = b' :: rest →
            (match bytes (mangle_effect_segment segment) with
             | [] => false
             | b :: rest => is_ascii_lowercase b && forallb (λ b, is_ascii_lowercase b || is_ascii_digit b || (b =? 95)) rest
             end) = is_ascii_lowercase b') as Hhead.
  { intros b' rest Hr. rewrite Hr in *. simpl in Hall. apply andb_true_iff in Hall as [_ Hall].
    fold effect_byte. change (λ b, is_ascii_lowercase b || is_ascii_digit b || (b =? 95)) with effect_byte.
    by rewrite Hall, andb_true_r. }
  unfold mangled_bytes in Hb. rewrite E in Hb. simpl in Hb. unfold effect_preserved in *.
  destruct (is_ascii_lowercase b) eqn:El.
  - simpl in Hb. replace (is_ascii_digit b) with false in Hb.
    + simpl in Hb. by rewrite (Hhead _ _ Hb).
    + unfold is_ascii_lowercase, is_ascii_digit in *. apply between_spec in El. symmetry. apply between_false. lia.
  - destruct (is_ascii_digit b) eqn:Ed; simpl in Hb; rewrite ?Ed in Hb; simpl in Hb; [by rewrite (Hhead _ _ Hb)|].
    destruct (b =? 95) eqn:Eu; simpl in Hb.
    + apply Z.eqb_eq in Eu. subst b. by rewrite (Hhead _ _ Hb).
    + destruct (match List.find _ bs with Some _ => _ | None => _ end); by rewrite (Hhead _ _ Hb).
Qed.


Lemma int_text_digits z : 0 <= z → forallb is_ascii_digit (bytes (int_text z)) = true.
Proof. intros Hz. rewrite int_text_bytes. destruct (Z.ltb_spec z 0); [lia|]. apply decimal_bytes_digits. Qed.
Lemma int_text_no_zero z : 0 < z → starts_with "0" (int_text z) = false ∧ str_is_empty (int_text z) = false.
Proof.
  intros Hz. pose proof (int_text_bytes z) as Hb. destruct (Z.ltb_spec z 0); [lia|].
  destruct (decimal_bytes_head z) as (d & ds & Hd & Hzero); [lia|]. rewrite Hd in Hb.
  destruct (int_text z) as [|c s] eqn:E; [done|]. simpl in Hb. injection Hb as Hc Hs. split; [|done].
  unfold starts_with. cbn [strip_prefix]. destruct (Ascii.eqb_spec "0" c) as [<-|]; [|done].
  exfalso. change (byte_of "0") with 48 in Hc. symmetry in Hc. destruct (Hzero Hc) as [? _]. lia.
Qed.
Lemma int_text_no_at z : 0 <= z → str_mem "@" (int_text z) = false.
Proof.
  intros Hz. rewrite <- (string_of_bytes_bytes (int_text z)). apply str_mem_bytes.
  pose proof (int_text_digits z Hz) as Hd. rewrite forallb_forall in *. intros b Hb%Hd.
  apply between_spec in Hb. apply andb_true_iff. split; [apply in_unsigned_spec; unfold u8_max; lia|].
  apply negb_true_iff, Z.eqb_neq. change (byte_of "@") with 64. lia.
Qed.

Lemma generated_effect_canonical name version effect :
  Forall (λ s, s ≠ "") (segments name) → 0 < ev_major version →
  generated_tool_effect name version = Ok effect →
  is_canonical_effect_id effect = forallb starts_lower (segments name).
Proof.
  intros Hne Hm. unfold generated_tool_effect. destruct (Z.eqb_spec (ev_major version) 0); [lia|]. intros [= <-].
  unfold is_canonical_effect_id.
  change ("@" ++ int_text (ev_major version))%string with (String "@" (int_text (ev_major version))).
  rewrite <- str_app_assoc, rsplit_once_last by (apply int_text_no_at; lia).
  destruct (int_text_no_zero (ev_major version) Hm) as [-> ->]. rewrite int_text_digits by lia. simpl negb. cbn [orb].
  set (mangled := map mangle_effect_segment (segments name)).
  assert (split_char "." ("tool." ++ join_char "." mangled) = "tool" :: mangled) as ->.
  { assert (mangled ≠ []) as Hm'.
    { unfold mangled, segments. pose proof (split_char_nonempty "." name). by destruct (split_char "." name). }
    transitivity (split_char "." (join_char "." ("tool" :: mangled))).
    - by destruct mangled.
    - apply split_char_join; [done|]. constructor; [done|]. apply Forall_map, Forall_forall. intros s _.
      apply mangle_effect_no. by left. }
  cbn [forallb]. change (Verifier.effect_segment "tool") with true. cbn [andb]. unfold mangled.
  induction Hne as [|s l Hs Hl IH]; [done|]. cbn [map forallb]. by rewrite mangled_canonical, IH.
Qed.

Lemma parsed_segments text name : ToolName_parse text = Ok name → Forall (λ s, s ≠ "") (segments name).
Proof.
  unfold ToolName_parse. destruct (_ || _); [done|]. destruct (existsb _ _) eqn:E; [done|]. intros [= <-].
  apply Forall_forall. intros s Hs ->. apply not_true_iff_false in E. apply E. apply existsb_exists.
  exists "". split; [by apply list_elem_of_In|done].
Qed.

(** ** Versions *)

(** The numbers of a version are [u64]. *)
Definition version_ok (v : ExactVersion) : Prop :=
  in_unsigned u64_max (ev_major v) = true ∧ in_unsigned u64_max (ev_minor v) = true
  ∧ in_unsigned u64_max (ev_patch v) = true.

Lemma parse_component_text z : in_unsigned u64_max z = true → parse_component (int_text z) = Some z.
Proof.
  intros Hz. pose proof Hz as [Hlo Hhi]%in_unsigned_spec. unfold parse_component. rewrite int_text_digits by lia.
  pose proof (int_text_bytes z) as Hb. destruct (Z.ltb_spec z 0) as [|_]; [lia|].
  assert (parse_unsigned u64_max (bytes (int_text z)) = Some z) as ->.
  { rewrite Hb. by apply parse_decimal_bytes. }
  destruct (Z.eq_dec z 0) as [->|Hne]; [done|]. destruct (int_text_no_zero z) as [-> ->]; [lia|].
  by rewrite andb_false_r.
Qed.
Lemma int_text_no_dot z : 0 <= z → str_mem "." (int_text z) = false.
Proof.
  intros Hz. rewrite <- (string_of_bytes_bytes (int_text z)). apply str_mem_bytes.
  pose proof (int_text_digits z Hz) as Hd. rewrite forallb_forall in *. intros b Hb%Hd.
  apply between_spec in Hb. apply andb_true_iff. split; [apply in_unsigned_spec; unfold u8_max; lia|].
  apply negb_true_iff, Z.eqb_neq. change (byte_of ".") with 46. lia.
Qed.
Lemma version_roundtrip v : version_ok v → ExactVersion_parse (ExactVersion_to_string v) = Some v.
Proof.
  intros (Ha & Hb & Hc). unfold ExactVersion_parse.
  change (ExactVersion_to_string v)
    with (join_char "." [int_text (ev_major v); int_text (ev_minor v); int_text (ev_patch v)]).
  rewrite split_char_join; [|done|].
  - rewrite !parse_component_text by done. by destruct v.
  - apply in_unsigned_spec in Ha, Hb, Hc. repeat (constructor; [apply int_text_no_dot; lia|]). constructor.
Qed.

Section Agreement.
Context `{Semver}.
(** What the semver crate documents for versions of three numbers. *)
Hypothesis semver_exact : ∀ v,
  version_ok v →
  Version_parse (ExactVersion_to_string v) = Some (Version_new (ev_major v) (ev_minor v) (ev_patch v)).

(** C32. The effect generated for a tool of the catalog is the one an artifact must carry
    for it, but it is a canonical effect ID, as artifacts and verified modules need, only
    when every segment of the tool's name starts with a lower-case letter: a tool named
    [Search] or [9lives] can be in a catalog and never in an artifact. *)
Theorem generated_effect_accepted (text name : string) (version : ExactVersion) (effect : string) :
  ToolName_parse text = Ok name → version_ok version →
  generated_tool_effect name version = Ok effect →
  Names.expected_tool_effect name (ExactVersion_to_string version) = Some effect
  ∧ is_canonical_effect_id effect = forallb starts_lower (segments name).
Proof using semver_exact.
  intros Hn Hv He. assert (0 < ev_major version) as Hpos.
  { destruct Hv as [Hv _]. apply in_unsigned_spec in Hv. unfold generated_tool_effect in He. destruct (Z.eqb_spec (ev_major version) 0); [done|]. lia. }
  split.
  - unfold Names.expected_tool_effect. rewrite semver_exact by done. cbn [ver_major Version_new].
    unfold generated_tool_effect in He. destruct (ev_major version =? 0); [done|]. injection He as <-.
    unfold int_text. destruct (Z.ltb_spec (ev_major version) 0); [lia|]. done.
  - apply (generated_effect_canonical name version); [by eapply parsed_segments|done|done].
Qed.
End Agreement.

(** ** Samples *)

Definition sample_schema (d : Descriptor) : ToolSchema := {|
  ts_descriptor := d; ts_canonical := canonical_bytes d; ts_digest := Descriptor_digest d;
  ts_source_bytes := 64; ts_definition_count := 0; ts_definition_name_bytes := 0 |}.
Definition sample_version : ExactVersion := {| ev_major := 2; ev_minor := 1; ev_patch := 0 |}.
Definition sample_tool (name : string) (input : Descriptor) : ToolDefinition := {|
  td_name := name; td_version := sample_version; td_input_schema := sample_schema input;
  td_output_schema := sample_schema DBool; td_error_schema := sample_schema DUnit;
  td_effects := ["external.write"]; td_idempotency := IdemUnknown |}.
Definition pair_union : Descriptor := DTaggedUnion [Build_Variant "left" []; Build_Variant "right-most" []].
Definition sample_tools : list ToolDefinition :=
  [sample_tool "issues" pair_union; sample_tool "issues.create" DBool; sample_tool "search-all" DUnit].

Lemma sample_names_accepted : validate_generated_names sample_tools = Ok tt.
Proof. vm_compute. reflexivity. Qed.
Lemma generated_names_distinct_witness :
  validate_generated_names sample_tools = Ok tt
  ∧ NoDup (map source_path sample_tools).
Proof.
  split; [apply sample_names_accepted|]. apply (generated_names_distinct sample_tools), sample_names_accepted.
Defined.

(** Versions of three numbers, read as [ExactVersion] reads them. *)
#[local] Instance exact_semver : Semver := {
  Version_parse text := (λ v, Version_new (ev_major v) (ev_minor v) (ev_patch v)) <$> ExactVersion_parse text;
  Version_to_string v := "";
  Version_compare v w := (ver_major v ?= ver_major w);
  VersionReq := unit;
  VersionReq_parse _ := None;
  VersionReq_matches _ _ := false }.
Lemma exact_semver_documented v :
  version_ok v → Version_parse (ExactVersion_to_string v) = Some (Version_new (ev_major v) (ev_minor v) (ev_patch v)).
Proof. intros Hv. simpl. by rewrite version_roundtrip. Qed.

(** [Search] is a tool name whose effect no artifact can carry. *)
Lemma generated_effect_accepted_witness :
  generated_tool_effect "issues.Search" sample_version = Ok "tool.issues._x53_earch@2"
  ∧ is_canonical_effect_id "tool.issues._x53_earch@2" = false
  ∧ is_canonical_effect_id "tool.issues.search@2" = true.
Proof.
  split_and!; [reflexivity|..].
  - apply (generated_effect_accepted exact_semver_documented "issues.Search" "issues.Search" sample_version
             "tool.issues._x53_earch@2"); reflexivity || done.
  - apply (generated_effect_accepted exact_semver_documented "issues.search" "issues.search" sample_version
             "tool.issues.search@2"); reflexivity || done.
Defined.
