(* ===== verification/HostContracts.v ===== *)
(** * Tool contracts of a program at the host ([crates/josh-host/src/session.rs])

    [validate_catalog_contracts]: a loaded artifact is admitted when its tool contracts
    are those the catalog of the connection selects.  The artifact's contract digest is
    computed by another crate than the catalog's; the theorems show that the two agree,
    and what admission decides. *)

From S2P Require Import Prelude.
From S2P Require Import Text.
From S2P Require Import Bytecode.
From S2P Require Import VmValue.
From S2P Require Import JoshMessage.
From S2P Require Import VmOps.
From S2P Require Import ArtifactBytes.
From S2P Require Import ArtifactModel.
From S2P Require Import ArtifactNames.
From S2P Require Import ArtifactDigest.
From S2P Require Import SchemaJson.
From S2P Require Import SchemaModel.
From S2P Require Import SchemaLower.
From S2P Require Import SchemaCatalog.
From S2P Require Import SchemaCanonical.
From S2P Require Import SchemaLowerCorrect.
From S2P Require Import SchemaNamesCorrect.
Open Scope string_scope.
Open Scope list_scope.
Open Scope Z_scope.

Record HostError := { he_code : WireErrorCode; he_message : string }.
Definition HostError_new (code : WireErrorCode) (message : string) : HostError :=
  {| he_code := code; he_message := message |}.
Definition unsatisfied : HostError := HostError_new ProgramUnsatisfied "program tool contract is unsatisfied".
Definition digest_text (digest : list Z) : string := ("sha256:" ++ Names.lower_hex digest)%string.

(** The body of the loop over the contracts. *)
Definition check_required_tool (catalog : FrozenCatalog) (contract : ToolContract) : result HostError unit :=
  let? name := map_err (λ _, unsatisfied) (ToolName_parse (tc_name contract)) in
  let? definition := ok_or (catalog_get catalog name) unsatisfied in
  let? version := ok_or (ExactVersion_parse (tc_version contract)) unsatisfied in
  let? range := ok_or (VersionRange_parse (tc_version_requirement contract)) unsatisfied in
  if negb (bool_decide (td_version definition = version)) || negb (VersionRange_contains range version)
  then Err unsatisfied
  else
    let? effect := map_err (λ _, unsatisfied) (generated_tool_effect name version) in
    if negb (String.eqb (tc_effect contract) effect)
       || negb (String.eqb (ts_digest (td_input_schema definition)) (digest_text (tc_input_digest contract)))
       || negb (String.eqb (ts_digest (td_output_schema definition)) (digest_text (tc_output_digest contract)))
       || negb (String.eqb (ts_digest (td_error_schema definition)) (digest_text (tc_error_digest contract)))
    then Err unsatisfied
    else Ok tt.

Definition validate_catalog_contracts `{FloatText} (manifest : option ManifestContract) (catalog : FrozenCatalog)
    : result HostError unit :=
  let? manifest := ok_or manifest (HostError_new ProgramInvalid "program manifest is missing") in
  let? requirements :=
    map_err (λ _, unsatisfied)
      (collect (λ contract, ToolRequirement_parse (tc_name contract) (tc_version_requirement contract))
               (mc_required_tools manifest)) in
  let? selected := map_err (λ _, unsatisfied) (select catalog requirements) in
  let? digest := map_err (λ _, unsatisfied) (selected_tool_contract_digest selected) in
  if negb (String.eqb digest (digest_text (mc_tool_contract_digest manifest))) then Err unsatisfied
  else for_each (check_required_tool catalog) (mc_required_tools manifest).

(** ** The two texts of a contract *)

(** A Rust string: the encoding of scalar values. *)
Definition utf8_text (s : string) : Prop :=
  ∃ cs, Forall (λ c, is_scalar c = true) cs ∧ bytes s = concat (map utf8_encode cs).

Lemma scalar_range c : is_scalar c = true → 0 <= c <= 1114111.
Proof. unfold is_scalar. rewrite orb_true_iff, !between_spec. lia. Qed.

Lemma utf8_encode_high c b : is_scalar c = true → ¬ c < 128 → b ∈ utf8_encode c → 128 <= b.
Proof.
  intros Hc%scalar_range H128. unfold utf8_encode. destruct (Z.ltb_spec c 128); [lia|].
  pose proof (Z.mod_pos_bound c 64 ltac:(lia)). pose proof (Z.mod_pos_bound (c / 64) 64 ltac:(lia)).
  pose proof (Z.mod_pos_bound (c / 4096) 64 ltac:(lia)).
  assert (0 <= c / 64) by (apply Z.div_pos; lia). assert (0 <= c / 4096) by (apply Z.div_pos; lia).
  assert (0 <= c / 262144) by (apply Z.div_pos; lia).
  repeat case_match; rewrite !elem_of_cons; intros Hin; destruct_or?; try (by apply not_elem_of_nil in Hin); lia.
Qed.

Lemma json_char_bytes c : is_scalar c = true → json_char c = flat_map write_char (utf8_encode c).
Proof.
  intros Hc. destruct (Z.lt_ge_cases c 128) as [Hlt|Hge].
  - assert (utf8_encode c = [c]) as ->.
    { unfold utf8_encode. by destruct (Z.ltb_spec c 128); [|lia]. }
    simpl. rewrite app_nil_r. unfold json_char, write_char, u_escape.
    destruct (c =? 34); [done|]. destruct (c =? 92); [done|]. destruct (c <=? 31); [done|].
    unfold utf8_encode. by destruct (Z.ltb_spec c 128); [|lia].
  - assert (flat_map write_char (utf8_encode c) = utf8_encode c) as ->.
    { assert (Forall (λ b, 128 <= b) (utf8_encode c)) as Hall.
      { apply Forall_forall. intros b. apply utf8_encode_high; [done|lia]. }
      induction Hall as [|b bs Hb _ IH]; [done|]. simpl. rewrite IH. unfold write_char.
      destruct (Z.eqb_spec b 34); [lia|]. destruct (Z.eqb_spec b 92); [lia|]. destruct (Z.leb_spec b 31); [lia|]. done. }
    unfold json_char. destruct (Z.eqb_spec c 34); [lia|]. destruct (Z.eqb_spec c 92); [lia|].
    by destruct (Z.leb_spec c 31); [lia|].
Qed.

Lemma push_json_string_write s : utf8_text s → push_json_string s = write_string s.
Proof.
  intros (cs & Hcs & Hb). unfold push_json_string, write_string. f_equal. f_equal.
  assert (chars s = cs) as ->.
  { unfold chars. rewrite Hb. destruct (utf8_roundtrip cs Hcs) as [Hs _].
    rewrite <- (map_map fst (default 65533)), Hs, map_map. apply map_id. }
  rewrite Hb. clear Hb. induction Hcs as [|c cs Hc _ IH]; [done|]. simpl.
  rewrite flat_map_app, IH. f_equal. by apply json_char_bytes.
Qed.

Lemma ascii_utf8 s : Forall (λ b, b < 128) (bytes s) → utf8_text s.
Proof.
  intros Ha. exists (bytes s). pose proof (bytes_are_bytes s) as Hb. split.
  - rewrite Forall_forall in *. intros b Hin. pose proof (Ha b Hin). apply Hb, in_unsigned_spec in Hin.
    unfold is_scalar. rewrite orb_true_iff, !between_spec. lia.
  - induction Ha as [|b bs Hlt _ IH]; [done|]. simpl. inversion Hb; subst. rewrite <- IH by done.
    unfold utf8_encode. by destruct (Z.ltb_spec b 128); [|lia].
Qed.

Lemma hex_text bs : Forall (λ b, is_byte b = true) bs →
  bytes (Names.lower_hex bs) = flat_map Names.hex_byte bs
  ∧ Forall (λ b, is_ascii_digit b || between 97 102 b = true) (flat_map Names.hex_byte bs).
Proof.
  intros Hb.
  assert (Forall (λ b, is_ascii_digit b || between 97 102 b = true) (flat_map Names.hex_byte bs)) as Hh.
  { apply Forall_flat_map. eapply Forall_impl; [exact Hb|]. intros b Hr%in_unsigned_spec. unfold u8_max in Hr.
    assert (∀ d, 0 <= d < 16 → is_ascii_digit (hex_char d) || between 97 102 (hex_char d) = true) as Hd.
    { intros d Hd. unfold hex_char, is_ascii_digit. rewrite orb_true_iff, !between_spec.
      destruct (Z.ltb_spec d 10); lia. }
    repeat constructor; apply Hd; [split; [apply Z.div_pos; lia|apply Z.div_lt_upper_bound; lia]|].
    apply Z.mod_pos_bound. lia. }
  split; [|done]. apply bytes_string_of_bytes. eapply Forall_impl; [exact Hh|]. intros b.
  unfold is_ascii_digit, is_byte. rewrite orb_true_iff, !between_spec, in_unsigned_spec. unfold u8_max. lia.
Qed.

Lemma digest_text_ok bs :
  Forall (λ b, is_byte b = true) bs → length bs = 32%nat → is_digest (digest_text bs) = true ∧ utf8_text (digest_text bs).
Proof.
  intros Hb Hl. destruct (hex_text bs Hb) as [Hh Hall]. split.
  - unfold is_digest, digest_text. rewrite (proj2 (strip_prefix_Some "sha256:" _ (Names.lower_hex bs)) eq_refl).
    rewrite Hh. apply andb_true_iff. split.
    + unfold str_len. rewrite <- length_bytes, bytes_app, length_app, Hh. apply Z.eqb_eq.
      assert (length (flat_map Names.hex_byte bs) = 64)%nat as ->; [|done].
      change 64%nat with (2 * 32)%nat. rewrite <- Hl. clear. induction bs as [|b bs IH]; [done|]. simpl in *. lia.
    + apply forallb_forall. rewrite Forall_forall in Hall. intros b Hin%list_elem_of_In. by apply Hall.
  - apply ascii_utf8. unfold digest_text. rewrite bytes_app, Hh. apply Forall_app. split.
    + repeat constructor.
    + eapply Forall_impl; [exact Hall|]. intros b. unfold is_ascii_digit. rewrite orb_true_iff, !between_spec. lia.
Qed.

Section Agree.
Context {FT : FloatText}.

(** The same contract in the artifact and as the catalog selects it. *)
Record same_contract (selected : SelectedToolContract) (tool : ToolContract) : Prop := {
  same_name : sc_name selected = tc_name tool;
  same_version : ExactVersion_to_string (sc_version selected) = tc_version tool;
  same_requirement : VersionRange_to_string (sc_version_requirement selected) = tc_version_requirement tool;
  same_effect : sc_effect selected = tc_effect tool;
  same_input : sc_input_schema selected = digest_text (tc_input_digest tool);
  same_output : sc_output_schema selected = digest_text (tc_output_digest tool);
  same_error : sc_error_schema selected = digest_text (tc_error_digest tool) }.

(** The strings of a contract are Rust strings, its digests have 32 bytes. *)
Definition digest_ok (digest : list Z) : Prop := Forall (λ b, is_byte b = true) digest ∧ length digest = 32%nat.
Definition contract_ok (tool : ToolContract) : Prop :=
  utf8_text (tc_name tool) ∧ utf8_text (tc_version tool) ∧ utf8_text (tc_version_requirement tool)
  ∧ utf8_text (tc_effect tool)
  ∧ digest_ok (tc_input_digest tool) ∧ digest_ok (tc_output_digest tool) ∧ digest_ok (tc_error_digest tool).

Lemma literal_sorted {V} (m : list (string * V)) :
  windows2_any str_geb (map fst m) = false → btree_sorted m.
Proof. apply sorted_windows. Qed.

Lemma contract_text selected tool :
  same_contract selected tool → contract_ok tool → write_value (contract_value selected) = json_tool tool.
Proof.
  intros [Hn Hv Hr He Hi Ho Hx] (Un & Uv & Ur & Ue & [Bi Li] & [Bo Lo] & [Bx Lx]).
  destruct (digest_text_ok _ Bi Li) as [_ Ui]. destruct (digest_text_ok _ Bo Lo) as [_ Uo].
  destruct (digest_text_ok _ Bx Lx) as [_ Ux].
  change (contract_value selected) with (JObject
    [("effect", JString (sc_effect selected)); ("error_schema", JString (sc_error_schema selected));
     ("input_schema", JString (sc_input_schema selected)); ("name", JString (sc_name selected));
     ("output_schema", JString (sc_output_schema selected));
     ("version", JString (ExactVersion_to_string (sc_version selected)));
     ("version_requirement", JString (VersionRange_to_string (sc_version_requirement selected)))]).
  rewrite write_object by (by apply literal_sorted).
  unfold json_tool, json_member. change ("sha256:" ++ Names.lower_hex ?d)%string with (digest_text d).
  rewrite !push_json_string_write by done.
  cbn [map join_bytes fst snd write_value]. rewrite Hn, Hv, Hr, He, Hi, Ho, Hx.
  rewrite <- !app_assoc. reflexivity.
Qed.

Lemma contracts_text selected tools :
  Forall2 same_contract selected tools → Forall contract_ok tools →
  canonical_json (json_object [("tools", JArray (map contract_value selected))]) = tool_contract_json tools.
Proof.
  intros Hs Hok. unfold canonical_json.
  change (json_object [("tools", JArray (map contract_value selected))])
    with (JObject [("tools", JArray (map contract_value selected))]).
  rewrite write_object by (by apply literal_sorted). cbn [map join_bytes fst snd write_value].
  assert (map write_value (map contract_value selected) = map json_tool tools) as ->.
  { revert Hok. induction Hs as [|c t cs ts Hct Hs IH]; intros Hok; [done|].
    apply Forall_cons in Hok as [Ht Hok]. cbn [map]. rewrite IH by done. f_equal. by apply contract_text. }
  unfold tool_contract_json. cbn [app]. rewrite <- !(assoc (++)). cbn [app]. rewrite <- !(assoc (++)). reflexivity.
Qed.

(** ** Selection *)

Definition schema_ok (schema : ToolSchema) : Prop := ts_digest schema = digest_bytes (ts_canonical schema).
Definition definition_ok (tool : ToolDefinition) : Prop :=
  schema_ok (td_input_schema tool) ∧ schema_ok (td_output_schema tool) ∧ schema_ok (td_error_schema tool).

Lemma schema_digest schema : schema_ok schema → is_digest (ts_digest schema) = true.
Proof.
  intros ->. apply (digest_text_ok (sha256 (ts_canonical schema))); [apply sha256_bytes|apply sha256_length].
Qed.

(** ** The frozen catalog *)

Lemma fold_insert_get {V} k v (l acc : list (string * V)) :
  btree_sorted acc → NoDup (map fst l) → (k, v) ∈ l →
  btree_get k (fold_left (λ m e, btree_insert e.1 e.2 m) l acc) = Some v.
Proof.
  assert (∀ (l acc : list (string * V)), btree_sorted acc → k ∉ map fst l →
            btree_get k (fold_left (λ m e, btree_insert e.1 e.2 m) l acc) = btree_get k acc) as Hout.
  { clear. induction l as [|[k' v'] l IH]; intros acc Hs Hk; [done|]. simpl in *. apply not_elem_of_cons in Hk as [Hne Hk].
    rewrite IH by (done || by apply btree_insert_sorted). rewrite btree_get_insert by done.
    by destruct (String.eqb_spec k k'). }
  revert acc. induction l as [|[k' v'] l IH]; intros acc Hs Hn Hin; [by apply not_elem_of_nil in Hin|]. simpl in *.
  apply NoDup_cons in Hn as [Hk' Hn]. apply elem_of_cons in Hin as [[= -> ->]|Hin].
  - rewrite Hout by (done || by apply btree_insert_sorted). rewrite btree_get_insert by done. by rewrite String.eqb_refl.
  - apply IH; [by apply btree_insert_sorted|done|done].
Qed.
Lemma fold_insert_keys {V} k v (l acc : list (string * V)) :
  btree_get k (fold_left (λ m e, btree_insert e.1 e.2 m) l acc) = Some v → (k, v) ∈ l ∨ (k, v) ∈ acc.
Proof.
  intros Hg%btree_get_elem. revert acc Hg. induction l as [|[k' v'] l IH]; intros acc Hg; [by right|]. simpl in Hg.
  apply IH in Hg as [Hg|Hg]; [left; by right|]. apply btree_insert_elem in Hg as [->|Hg]; [left; by left|by right].
Qed.

Lemma names_sorted {A} (name : A → string) l : names_unsorted name l = false ↔ strictly_sorted (map name l).
Proof.
  unfold names_unsorted. assert (windows2_any (λ x y, str_geb (name x) (name y)) l = windows2_any str_geb (map name l)) as ->.
  { induction l as [|x [|y l] IH]; [done|done|]. simpl in *. by rewrite IH. }
  split; [apply sorted_windows|]. intros Hs. apply windows2_any_false. intros i x y Hx Hy.
  unfold str_geb. apply negb_false_iff. revert i Hx Hy. induction Hs as [|z m Hs IH Hz]; intros [|i] Hx Hy; try done.
  - simpl in *. injection Hx as <-. destruct m as [|w m]; [done|]. simpl in Hy. injection Hy as <-.
    by apply Forall_cons in Hz as [? _].
  - by apply (IH i).
Qed.

Section Frozen.
Context (tools : list ToolDefinition) (limits : CatalogLimits) (catalog : FrozenCatalog).
Hypothesis frozen : freeze tools limits = Ok catalog.

Lemma frozen_catalog :
  fc_tools catalog = tools ∧ fc_by_name catalog = index_names tools ∧ strictly_sorted (map td_name tools).
Proof using frozen.
  unfold freeze, freeze_with_dialect in frozen. destruct (negb _); [done|]. destruct (_ <? _); [done|].
  destruct (names_unsorted td_name tools) eqn:E; [done|]. destruct (try_fold _ _ _); [|done].
  destruct (map_err _ _); [|done]. injection frozen as <-. split_and!; [done|done|]. by apply names_sorted.
Qed.

(** The catalog finds each of its tools by name, and nothing else; no index is out of
    range. *)
Lemma catalog_get_exact name tool :
  catalog_get catalog name = Some tool ↔ tool ∈ tools ∧ td_name tool = name.
Proof using frozen.
  destruct frozen_catalog as (Ht & Hi & Hs). unfold catalog_get. rewrite Ht, Hi. unfold index_names.
  assert (NoDup (map fst (zip (map td_name tools) (seq 0 (length tools))))) as Hn.
  { change (map fst ?l) with (fst <$> l). rewrite fst_zip by (rewrite length_map, length_seq; lia).
    by apply strictly_sorted_nodup. }
  assert (∀ n i, (n, i) ∈ zip (map td_name tools) (seq 0 (length tools)) ↔ td_name <$> tools !! i = Some n) as Hz.
  { intros n i. rewrite list_elem_of_lookup. setoid_rewrite lookup_zip_Some. split.
    - intros (j & Hj & [-> _]%lookup_seq). by rewrite <- list_lookup_fmap.
    - intros Hi'. exists i. split; [by change (map td_name tools) with (td_name <$> tools); rewrite list_lookup_fmap|].
      apply lookup_seq. split; [done|]. apply fmap_Some in Hi' as (t & Hl & _). by eapply lookup_lt_Some. }
  split.
  - destruct (btree_get name _) as [i|] eqn:E; [|done]. simpl. intros Hl.
    apply fold_insert_keys in E as [Hin|Hin]; [|by apply not_elem_of_nil in Hin].
    apply Hz in Hin. rewrite Hl in Hin. simpl in Hin. injection Hin as <-.
    split; [by eapply list_elem_of_lookup_2|done].
  - intros [[i Hl]%list_elem_of_lookup_1 <-].
    rewrite (fold_insert_get (td_name tool) i); [done|constructor|done|]. apply Hz. by rewrite Hl.
Qed.

(** ** Reading versions is exact *)

Lemma leading_zero_spec ds : leading_zero ds = true → ∃ b rest, ds = 48 :: b :: rest.
Proof.
  destruct ds as [|d [|b rest]]; [done|unfold leading_zero; by repeat case_match|]. intros H.
  destruct (Z.eq_dec d 48) as [->|Hne]; [eauto|]. exfalso. revert H. unfold leading_zero.
  destruct d as [|q|q]; try done. do 6 (destruct q as [q|q|]; try done).
Qed.
Lemma parse_component_exact s z : parse_component s = Some z → int_text z = s ∧ in_unsigned u64_max z = true.
Proof.
  unfold parse_component. destruct (_ || _) eqn:E; [done|]. boolify. rename H1 into Hdigits.
  unfold parse_unsigned. destruct (Z.leb_spec (digits_value (bytes s)) u64_max) as [Hle|]; [|done]. intros [= <-].
  pose proof (digits_value_bound (bytes s) Hdigits) as [Hpos _].
  split; [|apply in_unsigned_spec; lia]. apply bytes_eq_iff. rewrite int_text_bytes.
  destruct (Z.ltb_spec (digits_value (bytes s)) 0); [lia|].
  apply canonical_unique; [by apply decimal_canonical|split_and!|by apply digits_value_decimal].
  - intros E. apply (bytes_eq_iff s "") in E. by subst.
  - destruct (leading_zero (bytes s)) eqn:El; [|done]. apply leading_zero_spec in El as (b & rest & El).
    destruct s as [|x [|y s]]; [done|done|]. simpl in El. injection El as Hx _ _.
    assert (x = "0"%char) as -> by (rewrite <- (ascii_of_byte_of x), Hx; reflexivity).
    apply andb_false_iff in H0 as [Hz|Hz]; [|done]. apply Z.ltb_ge in Hz. unfold str_len in Hz. simpl in Hz. lia.
  - done.
Qed.

Lemma version_text_exact s v : ExactVersion_parse s = Some v → ExactVersion_to_string v = s ∧ version_ok v.
Proof.
  unfold ExactVersion_parse. pose proof (join_split_char "." s) as Hj.
  destruct (split_char "." s) as [|a [|b [|c [|d l]]]]; try done.
  destruct (parse_component a) as [x|] eqn:Ea; [|done]. destruct (parse_component b) as [y|] eqn:Eb; [|done].
  destruct (parse_component c) as [z|] eqn:Ec; [|done]. simpl. intros [= <-].
  apply parse_component_exact in Ea as [Ha ?], Eb as [Hb ?], Ec as [Hc ?]. split; [|by split_and!].
  rewrite <- Hj. unfold ExactVersion_to_string. simpl. by rewrite Ha, Hb, Hc.
Qed.
Lemma range_text_exact s r : VersionRange_parse s = Some r → VersionRange_to_string r = s.
Proof.
  unfold VersionRange_parse, mbind, option_bind. intros H. ok_inv H. injection H as <-. by apply String.eqb_eq.
Qed.

(** ** Admission *)

(** The tool of the catalog is the one the contract of a program was compiled with. *)
Definition provides (tool : ToolDefinition) (contract : ToolContract) : Prop :=
  ToolName_parse (tc_name contract) = Ok (td_name tool)
  ∧ ExactVersion_parse (tc_version contract) = Some (td_version tool)
  ∧ (∃ range, VersionRange_parse (tc_version_requirement contract) = Some range
              ∧ VersionRange_contains range (td_version tool) = true)
  ∧ generated_tool_effect (td_name tool) (td_version tool) = Ok (tc_effect contract)
  ∧ ts_digest (td_input_schema tool) = digest_text (tc_input_digest contract)
  ∧ ts_digest (td_output_schema tool) = digest_text (tc_output_digest contract)
  ∧ ts_digest (td_error_schema tool) = digest_text (tc_error_digest contract).

Lemma tool_name_text text name : ToolName_parse text = Ok name → name = text.
Proof. unfold ToolName_parse. destruct (_ || _); [done|]. destruct (existsb _ _); [done|]. by intros [= <-]. Qed.

Lemma check_required_tool_ok contract :
  check_required_tool catalog contract = Ok tt ↔ ∃ tool, tool ∈ tools ∧ provides tool contract.
Proof using frozen.
  unfold check_required_tool. split.
  - intros H. ok_inv H. boolify. subst.
    repeat match goal with
    | E : map_err _ ?r = Ok _ |- _ => destruct r eqn:?; [injection E as ->|discriminate E]
    | E : ok_or ?o _ = Ok _ |- _ => destruct o eqn:?; [injection E as ->|discriminate E]
    | E : String.eqb _ _ = true |- _ => apply String.eqb_eq in E
    end.
    match goal with E : catalog_get _ _ = Some ?t |- _ => apply catalog_get_exact in E as [Hin Hname]; exists t end.
    split; [done|]. unfold provides. subst. split_and!; try done. eauto.
  - intros (tool & Hin & Hn & Hv & (range & Hr & Hc) & He & Hi & Ho & Hx). rewrite Hn. cbn [map_err].
    rewrite (proj2 (catalog_get_exact (td_name tool) tool)) by done. cbn [ok_or]. rewrite Hv. cbn [ok_or].
    rewrite Hr. cbn [ok_or]. rewrite bool_decide_eq_true_2 by done. rewrite Hc. cbn [negb orb]. rewrite He. cbn [map_err].
    by rewrite String.eqb_refl, Hi, Ho, Hx, !String.eqb_refl.
Qed.

(** A requirement met by the catalog selects the contract of the artifact. *)
Lemma provides_selects tool contract :
  tool ∈ tools → definition_ok tool → provides tool contract →
  ∃ requirement selected,
    ToolRequirement_parse (tc_name contract) (tc_version_requirement contract) = Ok requirement
    ∧ tr_name requirement = tc_name contract
    ∧ select_one catalog requirement = Ok selected ∧ same_contract selected contract
    ∧ check_contract selected = Ok tt.
Proof using frozen.
  intros Hin (Oi & Oo & Ox) (Hn & Hv & (range & Hr & Hc) & He & Hi & Ho & Hx).
  assert (td_name tool = tc_name contract) as Hname by (by apply tool_name_text).
  exists {| tr_name := td_name tool; tr_version := range |}. eexists. split_and!.
  - unfold ToolRequirement_parse. by rewrite Hn, Hr.
  - done.
  - unfold select_one. cbn [tr_name tr_version]. rewrite (proj2 (catalog_get_exact (td_name tool) tool)) by done.
    cbn [ok_or]. rewrite Hc. cbn [negb]. rewrite He. reflexivity.
  - apply version_text_exact in Hv as [Hv _]. apply range_text_exact in Hr. by split.
  - unfold check_contract. cbn. rewrite Hc. cbn [negb]. rewrite He. cbn [map_err].
    by rewrite String.eqb_refl, !schema_digest by done.
Qed.

Lemma requirement_names contracts requirements :
  Forall2 (λ c r, ToolRequirement_parse (tc_name c) (tc_version_requirement c) = Ok r) contracts requirements →
  map tr_name requirements = map tc_name contracts.
Proof.
  induction 1 as [|c r cs rs Hr _ IH]; [done|]. simpl. rewrite IH. f_equal.
  unfold ToolRequirement_parse in Hr. destruct (ToolName_parse (tc_name c)) as [n|] eqn:En; [|done].
  simpl in Hr. destruct (VersionRange_parse _); [|done]. injection Hr as <-. by apply tool_name_text.
Qed.

Lemma provided_selected contracts :
  Forall definition_ok tools → Forall (λ contract, ∃ tool, tool ∈ tools ∧ provides tool contract) contracts →
  ∃ requirements selected,
    collect (λ c, ToolRequirement_parse (tc_name c) (tc_version_requirement c)) contracts = Ok requirements
    ∧ map tr_name requirements = map tc_name contracts
    ∧ collect (select_one catalog) requirements = Ok selected
    ∧ Forall2 same_contract selected contracts
    ∧ for_each check_contract selected = Ok tt.
Proof using frozen.
  intros Hdefs. induction 1 as [|c cs (tool & Hin & Hp) _ IH].
  - exists [], []. by split_and!.
  - destruct IH as (rs & ss & Hr & Hn & Hs & Hm & Hc).
    rewrite Forall_forall in Hdefs. destruct (provides_selects tool c Hin (Hdefs _ Hin) Hp) as (r & sel & H1 & H2 & H3 & H4 & H5).
    exists (r :: rs), (sel :: ss). cbn [collect map for_each]. rewrite H1, Hr, H2, Hn, H3, Hs, H5.
    split_and!; try done. by constructor.
Qed.

(** C27. The host admits a program exactly when the catalog provides its tools: for a
    frozen catalog and an artifact whose contract digest is that of its contracts, as
    verification ensures, [validate_catalog_contracts] succeeds if and only if the
    required tools are sorted by name and each is provided with the exact version,
    effect and schema digests; the digest that the catalog computes over its selection
    then agrees with the artifact's. *)
Theorem host_admission_exact (manifest : ManifestContract) :
  Forall definition_ok tools → Forall contract_ok (mc_required_tools manifest) →
  mc_tool_contract_digest manifest = compute_tool_contract_digest (mc_required_tools manifest) →
  validate_catalog_contracts (Some manifest) catalog = Ok tt
  ↔ strictly_sorted (map tc_name (mc_required_tools manifest))
    ∧ Forall (λ contract, ∃ tool, tool ∈ tools ∧ provides tool contract) (mc_required_tools manifest).
Proof using frozen.
  intros Hdefs Hok Hdigest. unfold validate_catalog_contracts. cbn [ok_or]. split.
  - destruct (collect _ (mc_required_tools manifest)) as [requirements|] eqn:Er; [|done]. cbn [map_err].
    destruct (select catalog requirements) as [selected|] eqn:Es; [|done]. cbn [map_err].
    destruct (selected_tool_contract_digest selected); [|done]. cbn [map_err]. destruct (negb _); [done|].
    intros H%for_each_ok. split.
    + unfold select in Es. destruct (names_unsorted tr_name requirements) eqn:En; [done|].
      apply names_sorted in En. apply collect_ok in Er.
      by rewrite <- (requirement_names _ _ Er).
    + eapply Forall_impl; [exact H|]. intros c. apply check_required_tool_ok.
  - intros [Hsorted Hall].
    destruct (provided_selected _ Hdefs Hall) as (requirements & selected & Er & Hnames & Es & Hsame & Hcheck).
    rewrite Er. cbn [map_err]. unfold select.
    rewrite (proj2 (names_sorted tr_name requirements)) by (by rewrite Hnames). rewrite Es. cbn [map_err].
    unfold selected_tool_contract_digest.
    assert (map sc_name selected = map tc_name (mc_required_tools manifest)) as Hsn.
    { clear - Hsame. induction Hsame as [|x y l l' Hxy _ IH]; [done|]. simpl. rewrite IH. f_equal. apply Hxy. }
    rewrite (proj2 (names_sorted sc_name selected)) by (by rewrite Hsn). rewrite Hcheck. cbn [map_err].
    rewrite (contracts_text _ _ Hsame Hok), Hdigest. unfold compute_tool_contract_digest.
    change (digest_bytes ?x) with (digest_text (sha256 x)). rewrite String.eqb_refl. cbn [negb].
    apply for_each_ok. eapply Forall_impl; [exact Hall|]. intros c. apply check_required_tool_ok.
Qed.
End Frozen.
End Agree.

(** ** A program and its catalog *)

Definition sample_contract : ToolContract := {|
  tc_name := "issues.create"; tc_version := "2.1.0"; tc_version_requirement := ">=2.0.0, <3.0.0";
  tc_effect := "tool.issues.create@2"; tc_input_schema := 0; tc_output_schema := 0; tc_error_schema := 1;
  tc_input_digest := sha256 (canonical_bytes DBool); tc_output_digest := sha256 (canonical_bytes DBool);
  tc_error_digest := sha256 (canonical_bytes DUnit) |}.
Definition sample_manifest : ManifestContract := {|
  mc_package := "sample"; mc_version := "1.0.0"; mc_language_requirement := ">=0.1.0, <0.2.0";
  mc_required_capabilities := []; mc_optional_capabilities := []; mc_limits := []; mc_https_origins := [];
  mc_exec_commands := []; mc_exec_environment := []; mc_required_tools := [sample_contract];
  mc_tool_contract_digest := compute_tool_contract_digest [sample_contract] |}.

Lemma sample_catalog : ∃ catalog, freeze sample_tools CatalogLimits_default = Ok catalog.
Proof.
  unfold freeze, freeze_with_dialect. rewrite sample_names_accepted.
  assert (try_fold (freeze_tool CatalogLimits_default) 0 sample_tools = Ok 576) as -> by (lazy; reflexivity).
  eexists. reflexivity.
Qed.
Lemma sample_provided : provides (sample_tool "issues.create" DBool) sample_contract.
Proof.
  unfold provides. split_and!; [reflexivity|reflexivity| |reflexivity..].
  exists {| vr_lower := {| ev_major := 2; ev_minor := 0; ev_patch := 0 |};
            vr_upper := {| ev_major := 3; ev_minor := 0; ev_patch := 0 |} |}. split; reflexivity.
Qed.
Lemma sample_contract_ok : contract_ok sample_contract.
Proof.
  assert (∀ s, forallb (λ b, b <? 128) (bytes s) = true → utf8_text s) as Ha.
  { intros s Hs. apply ascii_utf8, Forall_forall. rewrite forallb_forall in Hs. intros b Hb%list_elem_of_In%Hs. lia. }
  unfold contract_ok. split_and!; try (apply Ha; reflexivity);
    (split; [apply sha256_bytes|apply sha256_length]).
Qed.

Lemma host_admission_exact_witness :
  ∃ catalog, freeze sample_tools CatalogLimits_default = Ok catalog
             ∧ validate_catalog_contracts (Some sample_manifest) catalog = Ok tt.
Proof.
  destruct sample_catalog as [catalog Hc]. exists catalog. split; [exact Hc|].
  apply (host_admission_exact sample_tools CatalogLimits_default catalog Hc sample_manifest).
  - repeat constructor.
  - constructor; [apply sample_contract_ok|constructor].
  - reflexivity.
  - split; [constructor; constructor|]. constructor; [|constructor].
    exists (sample_tool "issues.create" DBool). split; [right; left|apply sample_provided].
Defined.
