(* ===== verification/SyntaxSource.v ===== *)
(** * Source files of the syntax crate ([crates/allen-syntax/src])

    The kinds of tokens and nodes ([generated/kinds.rs]), source files with their
    ranges and spans ([source.rs]) and diagnostics ([diagnostic.rs]).  A Rust string is
    the list of its bytes; an offset is a number of bytes, and slicing off a character
    boundary is a panic, the answer [None]. *)

From S2P Require Import Prelude.
From S2P Require Import Text.
Open Scope string_scope.
Open Scope list_scope.
Open Scope Z_scope.

(** ** Kinds *)

Inductive SyntaxKind :=
| SkError | SkEof | SkKwManifest | SkLBrace | SkComma | SkRBrace | SkKwLanguage | SkColon
| SkStringLiteral | SkKwEntry | SkIdent | SkKwCapabilities | SkLBracket | SkRBracket
| SkKwHttpOrigins | SkKwTools | SkKwRequired | SkEffectId | SkLParen | SkRParen | SkKwName
| SkKwVersion | SkKwImport | SkKwFrom | SkSemi | SkKwAs | SkKwExport | SkKwRecord | SkKwEnum
| SkKwAsync | SkKwFn | SkLt | SkGt | SkKwEq | SkKwEffects | SkKwLet | SkKwMut | SkEq | SkPlusEq
| SkMinusEq | SkStarEq | SkSlashEq | SkPercentEq | SkKwReturn | SkKwBreak | SkKwContinue
| SkKwWhile | SkKwLoop | SkKwFor | SkKwIn | SkDotDot | SkUnderscore | SkKwList | SkKwOption
| SkKwFuture | SkKwTask | SkKwPromptType | SkKwMapType | SkKwResult | SkPipePipe | SkAmpAmp
| SkEqEq | SkNotEq | SkLtEq | SkGtEq | SkPlus | SkMinus | SkStar | SkSlash | SkPercent | SkBang
| SkKwAwait | SkKwSpawn | SkDot | SkQuestion | SkIntLiteral | SkFloatLiteral | SkBytesLiteral
| SkKwTrue | SkKwFalse | SkKwNone | SkBacktick | SkTemplateTextScalar | SkTemplateEscape
| SkTemplateExprStart | SkKwMap | SkKwMatch | SkKwIf | SkKwElse | SkFatArrow | SkKwSome | SkKwOk
| SkKwErr | SkKwPrompt | SkKwSystem | SkKwContext | SkKwData | SkKwOutput | SkKwPolicy
| SkKwMaxAttempts | SkSource | SkInlineManifest | SkManifestField | SkCapability
| SkToolRequirement | SkImportDeclaration | SkImportName | SkDeclaration | SkRecordDeclaration
| SkRecordField | SkEnumDeclaration | SkEnumVariant | SkFunctionDeclaration | SkGenericParameters
| SkGenericParameter | SkParameter | SkEffectClause | SkBody | SkStatement | SkWhileStatement
| SkLoopStatement | SkForStatement | SkLoopBinding | SkLoopBindingItem | SkType | SkNamedType
| SkGenericType | SkTupleType | SkRecordType | SkFunctionType | SkExpression | SkDisjunction
| SkConjunction | SkEquality | SkComparison | SkAddition | SkMultiplication | SkUnary | SkPostfix
| SkTypeArgument | SkPrimary | SkLiteral | SkTemplateLiteral | SkTemplateSegment
| SkTemplateTextOrEscape | SkTemplateInterpolation | SkQualifiedEnum | SkEnumRecordConstructor
| SkRecordConstructor | SkAnonymousRecord | SkRecordValueField | SkListLiteral | SkMapLiteral
| SkTupleOrGroup | SkMatchExpression | SkConditionalExpression | SkMatchArm | SkPattern
| SkRecordPattern | SkEnumPattern | SkPatternField | SkClosure | SkPromptExpression
| SkPromptField | SkAwaitBlock | SkWhitespace | SkNewline | SkLineComment | SkBlockComment
| SkTombstone | SkAt | SkErrorToken | SkMissing | SkKwReturns | SkKwType | SkTypeAliasDeclaration
| SkQuestionQuestion | SkCoalescing | SkKwNewtype | SkNewtypeDeclaration | SkKwConst
| SkConstDeclaration | SkKwWhere | SkKwTest | SkTestDeclaration | SkMultilineStringDelimiter
| SkCallArgument | SkShortClosure | SkQuestionDot | SkPipe | SkPipeGt | SkPipeline
| SkComposition | SkRecordUpdateBase | SkListItem | SkMapItem | SkDotDotEq | SkKwRange
| SkKwSequence | SkLocalFunction | SkRange | SkSlice | SkPatternOr | SkPatternPrimary
| SkPatternRange.

(** [self as u16] *)
Definition kind_raw (kind : SyntaxKind) : Z :=
  match kind with
  | SkError => 0 | SkEof => 1 | SkKwManifest => 2 | SkLBrace => 3 | SkComma => 4 | SkRBrace => 5
  | SkKwLanguage => 6 | SkColon => 7 | SkStringLiteral => 8 | SkKwEntry => 9 | SkIdent => 10
  | SkKwCapabilities => 11 | SkLBracket => 12 | SkRBracket => 13 | SkKwHttpOrigins => 14
  | SkKwTools => 15 | SkKwRequired => 16 | SkEffectId => 17 | SkLParen => 18 | SkRParen => 19
  | SkKwName => 20 | SkKwVersion => 21 | SkKwImport => 22 | SkKwFrom => 23 | SkSemi => 24
  | SkKwAs => 25 | SkKwExport => 26 | SkKwRecord => 27 | SkKwEnum => 28 | SkKwAsync => 29
  | SkKwFn => 30 | SkLt => 32 | SkGt => 33 | SkKwEq => 34 | SkKwEffects => 35 | SkKwLet => 36
  | SkKwMut => 37 | SkEq => 38 | SkPlusEq => 39 | SkMinusEq => 40 | SkStarEq => 41
  | SkSlashEq => 42 | SkPercentEq => 43 | SkKwReturn => 44 | SkKwBreak => 45 | SkKwContinue => 46
  | SkKwWhile => 47 | SkKwLoop => 48 | SkKwFor => 49 | SkKwIn => 50 | SkDotDot => 51
  | SkUnderscore => 52 | SkKwList => 53 | SkKwOption => 54 | SkKwFuture => 55 | SkKwTask => 56
  | SkKwPromptType => 57 | SkKwMapType => 58 | SkKwResult => 59 | SkPipePipe => 60
  | SkAmpAmp => 61 | SkEqEq => 62 | SkNotEq => 63 | SkLtEq => 64 | SkGtEq => 65 | SkPlus => 66
  | SkMinus => 67 | SkStar => 68 | SkSlash => 69 | SkPercent => 70 | SkBang => 71
  | SkKwAwait => 72 | SkKwSpawn => 73 | SkDot => 74 | SkQuestion => 75 | SkIntLiteral => 76
  | SkFloatLiteral => 77 | SkBytesLiteral => 78 | SkKwTrue => 79 | SkKwFalse => 80
  | SkKwNone => 81 | SkBacktick => 82 | SkTemplateTextScalar => 83 | SkTemplateEscape => 84
  | SkTemplateExprStart => 85 | SkKwMap => 86 | SkKwMatch => 87 | SkKwIf => 88 | SkKwElse => 89
  | SkFatArrow => 90 | SkKwSome => 91 | SkKwOk => 92 | SkKwErr => 93 | SkKwPrompt => 94
  | SkKwSystem => 95 | SkKwContext => 96 | SkKwData => 97 | SkKwOutput => 98 | SkKwPolicy => 99
  | SkKwMaxAttempts => 100 | SkSource => 101 | SkInlineManifest => 102 | SkManifestField => 103
  | SkCapability => 104 | SkToolRequirement => 105 | SkImportDeclaration => 106
  | SkImportName => 107 | SkDeclaration => 108 | SkRecordDeclaration => 109
  | SkRecordField => 110 | SkEnumDeclaration => 111 | SkEnumVariant => 112
  | SkFunctionDeclaration => 113 | SkGenericParameters => 114 | SkGenericParameter => 115
  | SkParameter => 116 | SkEffectClause => 117 | SkBody => 118 | SkStatement => 119
  | SkWhileStatement => 120 | SkLoopStatement => 121 | SkForStatement => 122
  | SkLoopBinding => 123 | SkLoopBindingItem => 124 | SkType => 125 | SkNamedType => 126
  | SkGenericType => 127 | SkTupleType => 128 | SkRecordType => 129 | SkFunctionType => 130
  | SkExpression => 131 | SkDisjunction => 132 | SkConjunction => 133 | SkEquality => 134
  | SkComparison => 135 | SkAddition => 136 | SkMultiplication => 137 | SkUnary => 138
  | SkPostfix => 139 | SkTypeArgument => 140 | SkPrimary => 141 | SkLiteral => 142
  | SkTemplateLiteral => 143 | SkTemplateSegment => 144 | SkTemplateTextOrEscape => 145
  | SkTemplateInterpolation => 146 | SkQualifiedEnum => 147 | SkEnumRecordConstructor => 148
  | SkRecordConstructor => 149 | SkAnonymousRecord => 150 | SkRecordValueField => 151
  | SkListLiteral => 152 | SkMapLiteral => 153 | SkTupleOrGroup => 154 | SkMatchExpression => 155
  | SkConditionalExpression => 156 | SkMatchArm => 157 | SkPattern => 158
  | SkRecordPattern => 159 | SkEnumPattern => 160 | SkPatternField => 161 | SkClosure => 162
  | SkPromptExpression => 163 | SkPromptField => 164 | SkAwaitBlock => 165 | SkWhitespace => 166
  | SkNewline => 167 | SkLineComment => 168 | SkBlockComment => 169 | SkTombstone => 170
  | SkAt => 171 | SkErrorToken => 172 | SkMissing => 173 | SkKwReturns => 174 | SkKwType => 175
  | SkTypeAliasDeclaration => 176 | SkQuestionQuestion => 177 | SkCoalescing => 178
  | SkKwNewtype => 179 | SkNewtypeDeclaration => 180 | SkKwConst => 181
  | SkConstDeclaration => 182 | SkKwWhere => 183 | SkKwTest => 184 | SkTestDeclaration => 185
  | SkMultilineStringDelimiter => 186 | SkCallArgument => 187 | SkShortClosure => 188
  | SkQuestionDot => 189 | SkPipe => 190 | SkPipeGt => 191 | SkPipeline => 192
  | SkComposition => 193 | SkRecordUpdateBase => 194 | SkListItem => 195 | SkMapItem => 196
  | SkDotDotEq => 197 | SkKwRange => 198 | SkKwSequence => 199 | SkLocalFunction => 200
  | SkRange => 201 | SkSlice => 202 | SkPatternOr => 203 | SkPatternPrimary => 204
  | SkPatternRange => 205
  end.

Definition all_kinds : list SyntaxKind :=
  [SkError; SkEof; SkKwManifest; SkLBrace; SkComma; SkRBrace; SkKwLanguage; SkColon;
  SkStringLiteral; SkKwEntry; SkIdent; SkKwCapabilities; SkLBracket; SkRBracket; SkKwHttpOrigins;
  SkKwTools; SkKwRequired; SkEffectId; SkLParen; SkRParen; SkKwName; SkKwVersion; SkKwImport;
  SkKwFrom; SkSemi; SkKwAs; SkKwExport; SkKwRecord; SkKwEnum; SkKwAsync; SkKwFn; SkLt; SkGt;
  SkKwEq; SkKwEffects; SkKwLet; SkKwMut; SkEq; SkPlusEq; SkMinusEq; SkStarEq; SkSlashEq;
  SkPercentEq; SkKwReturn; SkKwBreak; SkKwContinue; SkKwWhile; SkKwLoop; SkKwFor; SkKwIn;
  SkDotDot; SkUnderscore; SkKwList; SkKwOption; SkKwFuture; SkKwTask; SkKwPromptType;
  SkKwMapType; SkKwResult; SkPipePipe; SkAmpAmp; SkEqEq; SkNotEq; SkLtEq; SkGtEq; SkPlus;
  SkMinus; SkStar; SkSlash; SkPercent; SkBang; SkKwAwait; SkKwSpawn; SkDot; SkQuestion;
  SkIntLiteral; SkFloatLiteral; SkBytesLiteral; SkKwTrue; SkKwFalse; SkKwNone; SkBacktick;
  SkTemplateTextScalar; SkTemplateEscape; SkTemplateExprStart; SkKwMap; SkKwMatch; SkKwIf;
  SkKwElse; SkFatArrow; SkKwSome; SkKwOk; SkKwErr; SkKwPrompt; SkKwSystem; SkKwContext; SkKwData;
  SkKwOutput; SkKwPolicy; SkKwMaxAttempts; SkSource; SkInlineManifest; SkManifestField;
  SkCapability; SkToolRequirement; SkImportDeclaration; SkImportName; SkDeclaration;
  SkRecordDeclaration; SkRecordField; SkEnumDeclaration; SkEnumVariant; SkFunctionDeclaration;
  SkGenericParameters; SkGenericParameter; SkParameter; SkEffectClause; SkBody; SkStatement;
  SkWhileStatement; SkLoopStatement; SkForStatement; SkLoopBinding; SkLoopBindingItem; SkType;
  SkNamedType; SkGenericType; SkTupleType; SkRecordType; SkFunctionType; SkExpression;
  SkDisjunction; SkConjunction; SkEquality; SkComparison; SkAddition; SkMultiplication; SkUnary;
  SkPostfix; SkTypeArgument; SkPrimary; SkLiteral; SkTemplateLiteral; SkTemplateSegment;
  SkTemplateTextOrEscape; SkTemplateInterpolation; SkQualifiedEnum; SkEnumRecordConstructor;
  SkRecordConstructor; SkAnonymousRecord; SkRecordValueField; SkListLiteral; SkMapLiteral;
  SkTupleOrGroup; SkMatchExpression; SkConditionalExpression; SkMatchArm; SkPattern;
  SkRecordPattern; SkEnumPattern; SkPatternField; SkClosure; SkPromptExpression; SkPromptField;
  SkAwaitBlock; SkWhitespace; SkNewline; SkLineComment; SkBlockComment; SkTombstone; SkAt;
  SkErrorToken; SkMissing; SkKwReturns; SkKwType; SkTypeAliasDeclaration; SkQuestionQuestion;
  SkCoalescing; SkKwNewtype; SkNewtypeDeclaration; SkKwConst; SkConstDeclaration; SkKwWhere;
  SkKwTest; SkTestDeclaration; SkMultilineStringDelimiter; SkCallArgument; SkShortClosure;
  SkQuestionDot; SkPipe; SkPipeGt; SkPipeline; SkComposition; SkRecordUpdateBase; SkListItem;
  SkMapItem; SkDotDotEq; SkKwRange; SkKwSequence; SkLocalFunction; SkRange; SkSlice; SkPatternOr;
  SkPatternPrimary; SkPatternRange].

Definition is_token (kind : SyntaxKind) : bool :=
  match kind with
  | SkEof | SkKwManifest | SkLBrace | SkComma | SkRBrace | SkKwLanguage | SkColon
  | SkStringLiteral | SkKwEntry | SkIdent | SkKwCapabilities | SkLBracket | SkRBracket
  | SkKwHttpOrigins | SkKwTools | SkKwRequired | SkEffectId | SkLParen | SkRParen | SkKwName
  | SkKwVersion | SkKwImport | SkKwFrom | SkSemi | SkKwAs | SkKwExport | SkKwRecord | SkKwWhere
  | SkKwEnum | SkKwType | SkEq | SkKwNewtype | SkKwConst | SkKwAsync | SkKwFn | SkKwReturns
  | SkKwTest | SkLt | SkGt | SkKwEq | SkKwEffects | SkKwLet | SkKwMut | SkPlusEq | SkMinusEq
  | SkStarEq | SkSlashEq | SkPercentEq | SkKwReturn | SkKwBreak | SkKwContinue | SkKwWhile
  | SkKwLoop | SkKwFor | SkKwIn | SkUnderscore | SkDot | SkKwList | SkKwOption | SkKwFuture
  | SkKwTask | SkKwPromptType | SkKwRange | SkKwSequence | SkKwMapType | SkKwResult | SkDotDot
  | SkDotDotEq | SkQuestionQuestion | SkPipeGt | SkPipePipe | SkAmpAmp | SkEqEq | SkNotEq
  | SkLtEq | SkGtEq | SkPlus | SkMinus | SkStar | SkSlash | SkPercent | SkBang | SkKwAwait
  | SkKwSpawn | SkQuestionDot | SkQuestion | SkKwMap | SkKwSome | SkKwOk | SkKwErr | SkIntLiteral
  | SkFloatLiteral | SkBytesLiteral | SkKwTrue | SkKwFalse | SkKwNone | SkBacktick
  | SkMultilineStringDelimiter | SkTemplateTextScalar | SkTemplateEscape | SkTemplateExprStart
  | SkKwMatch | SkKwIf | SkKwElse | SkFatArrow | SkPipe | SkKwPrompt | SkKwSystem | SkKwContext
  | SkKwData | SkKwOutput | SkKwPolicy | SkKwMaxAttempts | SkErrorToken | SkAt | SkBlockComment
  | SkLineComment | SkNewline | SkWhitespace => true
  | _ => false
  end.

Definition from_raw (raw : Z) : option SyntaxKind := List.find (λ kind, kind_raw kind =? raw) all_kinds.

Lemma from_raw_kind kind : from_raw (kind_raw kind) = Some kind.
Proof. by destruct kind. Qed.
Lemma kind_raw_inj j k : kind_raw j = kind_raw k → j = k.
Proof. intros E. pose proof (from_raw_kind j) as H. rewrite E, from_raw_kind in H. by injection H. Qed.
#[global] Instance SyntaxKind_eq_dec : EqDecision SyntaxKind.
Proof.
  intros j k. destruct (Z.eq_dec (kind_raw j) (kind_raw k)) as [E|E]; [left; by apply kind_raw_inj|].
  right. by intros ->.
Defined.

(** ** Strings as bytes *)

(** [str::is_char_boundary] *)
Definition is_char_boundary (text : list Z) (index : nat) : bool :=
  match index with
  | O => true
  | S _ =>
    match text !! index with
    | Some b => negb (is_cont b)
    | None => (index =? length text)%nat
    end
  end.
(** [&text[start..]] and [&text[start..end]] *)
Definition slice_from (text : list Z) (start : nat) : option (list Z) :=
  if is_char_boundary text start then Some (drop start text) else None.
Definition slice (text : list Z) (start finish : nat) : option (list Z) :=
  if (start <=? finish)%nat && is_char_boundary text start && is_char_boundary text finish
  then Some (take (finish - start) (drop start text)) else None.
(** [text.chars().next()] and [char::len_utf8] *)
Definition next_char (text : list Z) : option Z :=
  match utf8_scan text with (Some c, _) :: _ => Some c | _ => None end.
Definition len_utf8 (c : Z) : nat := length (utf8_encode c).
Fixpoint has_prefix (prefix text : list Z) : bool :=
  match prefix, text with
  | [], _ => true
  | p :: prefix, b :: text => (p =? b) && has_prefix prefix text
  | _ :: _, [] => false
  end.
(** The number of leading bytes with a property: [take_while(p).count()]. *)
Fixpoint count_while (p : Z → bool) (text : list Z) : nat :=
  match text with
  | b :: text => if p b then S (count_while p text) else O
  | [] => O
  end.

(** ** Source files *)

Record TextRange := { tr_start : nat; tr_end : nat }.
Inductive TextRangeError :=
| OffsetTooLarge (offset : nat)
| Reversed (start finish : nat)
| OutOfBounds (finish source_len : nat)
| NotCharBoundary (offset : nat).
Record SourceFile := { sf_id : Z; sf_text : list Z; sf_len : nat }.
Record SourceSpan := { sp_source : Z; sp_range : TextRange }.
#[global] Instance TextRange_eq_dec : EqDecision TextRange.
Proof. solve_decision. Defined.

Definition from_text (id : Z) (text : list Z) : result TextRangeError SourceFile :=
  if Z.of_nat (length text) <=? u32_max then Ok {| sf_id := id; sf_text := text; sf_len := length text |}
  else Err (OffsetTooLarge (length text)).

Definition text_size (offset : nat) : result TextRangeError nat :=
  if Z.of_nat offset <=? u32_max then Ok offset else Err (OffsetTooLarge offset).
Definition range (self : SourceFile) (start finish : nat) : result TextRangeError TextRange :=
  if (finish <? start)%nat then Err (Reversed start finish)
  else if (sf_len self <? finish)%nat then Err (OutOfBounds finish (sf_len self))
  else if negb (is_char_boundary (sf_text self) start) then Err (NotCharBoundary start)
  else if negb (is_char_boundary (sf_text self) finish) then Err (NotCharBoundary finish)
  else
    let? start := text_size start in
    let? finish := text_size finish in
    Ok {| tr_start := start; tr_end := finish |}.
Definition span (self : SourceFile) (start finish : nat) : result TextRangeError SourceSpan :=
  let? r := range self start finish in
  Ok {| sp_source := sf_id self; sp_range := r |}.
Definition text_at (self : SourceFile) (r : TextRange) : option (list Z) :=
  slice (sf_text self) (tr_start r) (tr_end r).

(** ** Diagnostics *)

Record SyntaxDiagnosticLabel := { dl_range : TextRange; dl_message : string }.
Record SyntaxDiagnostic := {
  sd_code : string; sd_message : string; sd_span : SourceSpan; sd_labels : list SyntaxDiagnosticLabel }.
Definition SyntaxDiagnostic_new (code message : string) (s : SourceSpan) : SyntaxDiagnostic :=
  {| sd_code := code; sd_message := message; sd_span := s; sd_labels := [] |}.
Inductive SyntaxDiagnosticError := LabelSourceMismatch (diagnostic_source label_source : Z).
Definition with_label (self : SyntaxDiagnostic) (s : SourceSpan) (message : string)
    : result SyntaxDiagnosticError SyntaxDiagnostic :=
  if negb (sp_source s =? sp_source (sd_span self))
  then Err (LabelSourceMismatch (sp_source (sd_span self)) (sp_source s))
  else Ok {| sd_code := sd_code self; sd_message := sd_message self; sd_span := sd_span self;
             sd_labels := sd_labels self ++ [{| dl_range := sp_range s; dl_message := message |}] |}.

(** ** Well-formed text *)

(** The bytes of a Rust string: encodings of scalar values. *)
Definition utf8 (text : list Z) : Prop :=
  ∃ cs, Forall (λ c, is_scalar c = true) cs ∧ text = concat (map utf8_encode cs).

Lemma utf8_nil : utf8 [].
Proof. by exists []. Qed.
Lemma utf8_cons c text : is_scalar c = true → utf8 text → utf8 (utf8_encode c ++ text).
Proof. intros Hc (cs & Hcs & ->). exists (c :: cs). split; [by constructor|done]. Qed.
Lemma utf8_app s t : utf8 s → utf8 t → utf8 (s ++ t).
Proof.
  intros (cs & Hcs & ->) (ds & Hds & ->). exists (cs ++ ds). split; [by apply Forall_app|].
  by rewrite map_app, concat_app.
Qed.
(** A nonempty text is a scalar and a text. *)
Lemma utf8_inv text : utf8 text → text = [] ∨ ∃ c rest, is_scalar c = true ∧ utf8 rest ∧ text = utf8_encode c ++ rest.
Proof.
  intros ([|c cs] & Hcs & ->); [by left|]. right. apply Forall_cons in Hcs as [Hc Hcs].
  exists c, (concat (map utf8_encode cs)). split_and!; [done|by exists cs|done].
Qed.
Lemma next_char_encode c rest : is_scalar c = true → next_char (utf8_encode c ++ rest) = Some c.
Proof. intros Hc. unfold next_char. by rewrite utf8_scan_encode. Qed.
