(* ===== verification/SyntaxLexer.v ===== *)
(** * The lexer ([crates/allen-syntax/src/lexer.rs])

    [lex_with_limits] as a whole: the modes of templates and interpolations, comments,
    literals, numbers, identifiers and operators, with the limits on tokens,
    diagnostics, modes and braces.  The lexer is passed as a state; an answer [None] is
    a panic of the code ([expect], an index or a slice out of range, a debug
    assertion), or the end of the fuel of a loop. *)

From S2P Require Import Prelude.
From S2P Require Import Text.
From S2P Require Import SyntaxSource.
Open Scope string_scope.
Open Scope list_scope.
Open Scope Z_scope.

Record SyntaxLimits := {
  lim_source_bytes : Z; lim_tokens : Z; lim_lexer_mode_depth : Z; lim_interpolation_brace_depth : Z;
  lim_parser_recursion : Z; lim_delimiter_depth : Z; lim_events : Z; lim_nodes : Z; lim_diagnostics : Z }.
Definition SyntaxLimits_DEFAULT : SyntaxLimits := {|
  lim_source_bytes := 64 * 1024 * 1024; lim_tokens := 1048576; lim_lexer_mode_depth := 256;
  lim_interpolation_brace_depth := 256; lim_parser_recursion := 256; lim_delimiter_depth := 256;
  lim_events := 5242880; lim_nodes := 2097152; lim_diagnostics := 1024 |}.

Record LexToken := { lt_source : Z; lt_kind : SyntaxKind; lt_range : TextRange }.
(** [LexToken::text]: panics on another source. *)
Definition LexToken_text (self : LexToken) (source : SourceFile) : option (list Z) :=
  if lt_source self =? sf_id source then text_at source (lt_range self) else None.

Record Lexed := { lexed_tokens : list LexToken; lexed_diagnostics : list SyntaxDiagnostic }.
Definition is_eof (token : LexToken) : bool := bool_decide (lt_kind token = SkEof).
(** [Lexed::round_trip] *)
Definition round_trip (self : Lexed) (source : SourceFile) : option (list Z) :=
  (@concat Z) <$> mapM (λ token, LexToken_text token source) (List.filter (λ t, negb (is_eof t)) (lexed_tokens self)).

Inductive TemplateDelimiter := Backtick | Multiline.
#[global] Instance TemplateDelimiter_eq_dec : EqDecision TemplateDelimiter.
Proof. solve_decision. Defined.
Inductive Mode :=
| Normal
| TemplateSegment (opener : nat) (delimiter : TemplateDelimiter)
| Interpolation (opener brace_depth : nat).

(** The modes are a stack, the last one first. *)
Record Lexer := {
  lx_offset : nat; lx_tokens : list LexToken; lx_diagnostics : list SyntaxDiagnostic;
  lx_modes : list Mode; lx_terminated : bool }.
Definition Lexer_new : Lexer :=
  {| lx_offset := 0; lx_tokens := []; lx_diagnostics := []; lx_modes := [Normal]; lx_terminated := false |}.
Definition set_offset (offset : nat) (lx : Lexer) : Lexer := {|
  lx_offset := offset; lx_tokens := lx_tokens lx; lx_diagnostics := lx_diagnostics lx;
  lx_modes := lx_modes lx; lx_terminated := lx_terminated lx |}.
Definition set_modes (modes : list Mode) (lx : Lexer) : Lexer := {|
  lx_offset := lx_offset lx; lx_tokens := lx_tokens lx; lx_diagnostics := lx_diagnostics lx;
  lx_modes := modes; lx_terminated := lx_terminated lx |}.
Definition push_token (token : LexToken) (lx : Lexer) : Lexer := {|
  lx_offset := lx_offset lx; lx_tokens := lx_tokens lx ++ [token]; lx_diagnostics := lx_diagnostics lx;
  lx_modes := lx_modes lx; lx_terminated := lx_terminated lx |}.
Definition push_diagnostic (d : SyntaxDiagnostic) (lx : Lexer) : Lexer := {|
  lx_offset := lx_offset lx; lx_tokens := lx_tokens lx; lx_diagnostics := lx_diagnostics lx ++ [d];
  lx_modes := lx_modes lx; lx_terminated := lx_terminated lx |}.
Definition terminate (finish : nat) (lx : Lexer) : Lexer := {|
  lx_offset := finish; lx_tokens := lx_tokens lx; lx_diagnostics := lx_diagnostics lx;
  lx_modes := lx_modes lx; lx_terminated := true |}.

(** [expect] *)
Definition expect {E A} (r : result E A) : option A := match r with Ok a => Some a | Err _ => None end.
Definition len {A} (l : list A) : Z := Z.of_nat (length l).

(** ** Bytes *)

Definition DQUOTE : Z := 34.
Definition TRIPLE_QUOTE : list Z := [34; 34; 34].
Definition is_space (b : Z) : bool := (b =? 32) || (b =? 9).
Definition is_newline (b : Z) : bool := (b =? 10) || (b =? 13).
Definition is_hexdigit (b : Z) : bool := is_ascii_digit b || between 97 102 b || between 65 70 b.
Definition get_is (text : list Z) (index : nat) (p : Z → bool) : bool :=
  match text !! index with Some b => p b | None => false end.

Definition is_ident_start (b : Z) : bool := is_ascii_alphabetic b || (b =? 95).
Definition is_ident_continue (b : Z) : bool := is_ascii_alphanumeric b || (b =? 95).

Definition OPERATORS : list (list Z * SyntaxKind) := [
  (bytes "+=", SkPlusEq); (bytes "-=", SkMinusEq); (bytes "*=", SkStarEq); (bytes "/=", SkSlashEq);
  (bytes "%=", SkPercentEq); (bytes "..=", SkDotDotEq); (bytes "..", SkDotDot); (bytes "?.", SkQuestionDot);
  (bytes "|>", SkPipeGt); (bytes "??", SkQuestionQuestion); (bytes "||", SkPipePipe); (bytes "|", SkPipe);
  (bytes "&&", SkAmpAmp); (bytes "==", SkEqEq); (bytes "!=", SkNotEq); (bytes "<=", SkLtEq);
  (bytes ">=", SkGtEq); (bytes "=>", SkFatArrow); (bytes "@", SkAt); (bytes "{", SkLBrace);
  (bytes "}", SkRBrace); (bytes "[", SkLBracket); (bytes "]", SkRBracket); (bytes "(", SkLParen);
  (bytes ")", SkRParen); (bytes ",", SkComma); (bytes ":", SkColon); (bytes ";", SkSemi);
  (bytes "<", SkLt); (bytes ">", SkGt); (bytes "=", SkEq); (bytes "+", SkPlus); (bytes "-", SkMinus);
  (bytes "*", SkStar); (bytes "/", SkSlash); (bytes "%", SkPercent); (bytes "!", SkBang);
  (bytes ".", SkDot); (bytes "?", SkQuestion)].

Definition keywords : list (list Z * SyntaxKind) := [
  (bytes "manifest", SkKwManifest); (bytes "import", SkKwImport); (bytes "from", SkKwFrom);
  (bytes "as", SkKwAs); (bytes "export", SkKwExport); (bytes "record", SkKwRecord);
  (bytes "enum", SkKwEnum); (bytes "type", SkKwType); (bytes "newtype", SkKwNewtype);
  (bytes "const", SkKwConst); (bytes "where", SkKwWhere); (bytes "async", SkKwAsync);
  (bytes "fn", SkKwFn); (bytes "test", SkKwTest); (bytes "returns", SkKwReturns);
  (bytes "effects", SkKwEffects); (bytes "let", SkKwLet); (bytes "mut", SkKwMut);
  (bytes "return", SkKwReturn); (bytes "break", SkKwBreak); (bytes "continue", SkKwContinue);
  (bytes "while", SkKwWhile); (bytes "loop", SkKwLoop); (bytes "for", SkKwFor); (bytes "in", SkKwIn);
  (bytes "await", SkKwAwait); (bytes "spawn", SkKwSpawn); (bytes "true", SkKwTrue);
  (bytes "false", SkKwFalse); (bytes "map", SkKwMap); (bytes "match", SkKwMatch); (bytes "if", SkKwIf);
  (bytes "else", SkKwElse); (bytes "prompt", SkKwPrompt)].
Definition keyword_kind (text : list Z) : option SyntaxKind :=
  snd <$> List.find (λ entry, bytes_eqb text entry.1) keywords.

(** ** Escapes *)

Definition is_escape (b : Z) : bool :=
  (b =? DQUOTE) || (b =? 92) || (b =? 110) || (b =? 114) || (b =? 116) || (b =? 48) || (b =? 98) || (b =? 102).
Definition ordinary_escape_len (text : list Z) : option nat :=
  if get_is text 1 is_escape then Some 2%nat else None.
Definition bytes_escape_len (text : list Z) : option nat :=
  match ordinary_escape_len text with
  | Some n => Some n
  | None =>
    if get_is text 1 (Z.eqb 120) && get_is text 2 is_hexdigit && get_is text 3 is_hexdigit
    then Some 4%nat else None
  end.
Definition template_escape_len (text : list Z) : option nat :=
  match ordinary_escape_len text with
  | Some n => Some n
  | None =>
    if has_prefix (bytes "\`") text then Some 2%nat
    else if has_prefix (bytes "\${") text then Some 3%nat else None
  end.
Definition invalid_escape_len (text : list Z) : nat :=
  match slice_from text 1 with
  | Some rest => match next_char rest with Some c => 1 + len_utf8 c | None => 1 end
  | None => 1
  end%nat.

(** ** Magnitudes of integer literals *)

Definition decimal_digits (text : list Z) : list Z := List.filter (λ b, negb (b =? 95)) text.
Definition normalized_digits (text : list Z) : list Z :=
  let digits := decimal_digits text in drop (count_while (Z.eqb 48) digits) digits.
Definition INT_MAGNITUDE : list Z := bytes "9223372036854775808".
Definition int_magnitude_supported (text : list Z) : bool :=
  let digits := normalized_digits text in
  (length digits <? 19)%nat
  || ((length digits =? 19)%nat && match bytes_compare digits INT_MAGNITUDE with Gt => false | _ => true end).
Definition is_minimum_int_magnitude (text : list Z) : bool :=
  bytes_eqb (normalized_digits text) INT_MAGNITUDE.

(** ** The lexer *)

Section Lex.
Context (source : SourceFile) (limits : SyntaxLimits).
Abbreviation text := (sf_text source).

(** EOF has a slot of its own; limits below two are raised to two. *)
Definition source_token_capacity : Z := Z.max (lim_tokens limits) 2 - 1.
Definition token_would_exceed_source_capacity (finish : nat) (lx : Lexer) : bool :=
  let used := len (lx_tokens lx) in
  (source_token_capacity <=? used)
  || ((finish <? length text)%nat && (Z.max (source_token_capacity - 1) 0 <=? used)).

Definition lex_token (kind : SyntaxKind) (start finish : nat) : option LexToken :=
  r ← expect (range source start finish);
  Some {| lt_source := sf_id source; lt_kind := kind; lt_range := r |}.

Definition limit_at (start : nat) (lx : Lexer) : option Lexer :=
  if lx_terminated lx then Some lx
  else
    let finish := length text in
    lx ← if (start <? finish)%nat then
           lx ← if len (lx_diagnostics lx) <? lim_diagnostics limits then
                  s ← expect (span source start finish);
                  Some (push_diagnostic (SyntaxDiagnostic_new "S0007" "syntax lexer limit exceeded" s) lx)
                else Some lx;
           token ← lex_token SkErrorToken start finish;
           if negb (len (lx_tokens lx) <? source_token_capacity) then None
           else Some (push_token token lx)
         else Some lx;
    Some (terminate finish lx).

Definition emit (kind : SyntaxKind) (start finish : nat) (lx : Lexer) : option Lexer :=
  if lx_terminated lx then Some lx
  else if token_would_exceed_source_capacity finish lx then limit_at start lx
  else
    token ← lex_token kind start finish;
    Some (push_token token lx).

Definition diagnostic (code message : string) (start finish : nat) (lx : Lexer) : option (bool * Lexer) :=
  if lim_diagnostics limits <=? len (lx_diagnostics lx) then Some (false, lx)
  else
    s ← expect (span source start finish);
    Some (true, push_diagnostic (SyntaxDiagnostic_new code message s) lx).

Definition error (code message : string) (start finish : nat) (lx : Lexer) : option Lexer :=
  '(reported, lx) ← diagnostic code message start finish lx;
  if negb reported then limit_at start lx else emit SkErrorToken start finish lx.

Definition push_eof (lx : Lexer) : option Lexer :=
  token ← lex_token SkEof (length text) (length text);
  if negb (len (lx_tokens lx) <? Z.max (lim_tokens limits) 2) then None
  else Some (push_token token lx).

(** ** Modes *)

Definition in_interpolation (lx : Lexer) : bool :=
  match lx_modes lx with Interpolation _ _ :: _ => true | _ => false end.
Definition push_mode (mode : Mode) (start : nat) (lx : Lexer) : option (bool * Lexer) :=
  if lim_lexer_mode_depth limits <=? len (lx_modes lx) then
    lx ← limit_at start lx; Some (false, lx)
  else Some (true, set_modes (mode :: lx_modes lx) lx).
Definition increment_interpolation_brace (start : nat) (lx : Lexer) : option (bool * Lexer) :=
  match lx_modes lx with
  | Interpolation opener depth :: modes =>
    if lim_interpolation_brace_depth limits <=? Z.of_nat depth then
      lx ← limit_at start lx; Some (false, lx)
    else Some (true, set_modes (Interpolation opener (S depth) :: modes) lx)
  | _ => Some (true, lx)
  end.
Definition close_interpolation_or_brace (start : nat) (lx : Lexer) : option Lexer :=
  match lx_modes lx with
  | Interpolation opener O :: modes => emit SkRBrace start (lx_offset lx) (set_modes modes lx)
  | Interpolation opener (S depth) :: modes =>
    emit SkRBrace start (lx_offset lx) (set_modes (Interpolation opener depth :: modes) lx)
  | _ => emit SkRBrace start (lx_offset lx) lx
  end.

(** The offset after the scalar at an offset. *)
Definition after_char (offset : nat) : option nat :=
  rest ← slice_from text offset;
  c ← next_char rest;
  Some (offset + len_utf8 c)%nat.

(** ** Comments *)

Fixpoint line_comment_end (fuel offset : nat) : option nat :=
  match fuel with
  | O => None
  | S fuel =>
    if (offset <? length text)%nat then
      b ← text !! offset;
      if is_newline b then Some offset
      else offset ← after_char offset; line_comment_end fuel offset
    else Some offset
  end.
Definition fuel : nat := S (length text).
Definition lex_line_comment (lx : Lexer) : option Lexer :=
  let start := lx_offset lx in
  finish ← line_comment_end fuel (start + 2);
  emit SkLineComment start finish (set_offset finish lx).

(** The loop of block comments: the depth, the openers (last first) and the first
    opener beyond the nesting limit. *)
Record BlockComment := { bc_offset : nat; bc_depth : nat; bc_openers : list nat; bc_overflow : option nat }.
Definition block_open (bc : BlockComment) : BlockComment :=
  let depth := S (bc_depth bc) in {|
    bc_offset := bc_offset bc + 2; bc_depth := depth;
    bc_openers := if (depth <=? 128)%nat then bc_offset bc :: bc_openers bc else bc_openers bc;
    bc_overflow := if (depth <=? 128)%nat then bc_overflow bc
                   else match bc_overflow bc with None => Some (bc_offset bc) | Some o => Some o end |}.
Definition block_close (bc : BlockComment) : BlockComment :=
  let depth := Nat.pred (bc_depth bc) in {|
    bc_offset := bc_offset bc + 2; bc_depth := depth;
    bc_openers := if (depth <? 128)%nat then tail (bc_openers bc) else bc_openers bc;
    bc_overflow := bc_overflow bc |}.
Definition block_skip (offset : nat) (bc : BlockComment) : BlockComment := {|
  bc_offset := offset; bc_depth := bc_depth bc; bc_openers := bc_openers bc; bc_overflow := bc_overflow bc |}.
Fixpoint block_comment_end (fuel : nat) (bc : BlockComment) : option BlockComment :=
  match fuel with
  | O => None
  | S fuel =>
    if (bc_offset bc <? length text)%nat then
      rest ← slice_from text (bc_offset bc);
      if has_prefix (bytes "/*") rest then block_comment_end fuel (block_open bc)
      else if has_prefix (bytes "*/") rest then
        let bc := block_close bc in
        if (bc_depth bc =? 0)%nat then Some bc else block_comment_end fuel bc
      else
        offset ← after_char (bc_offset bc);
        block_comment_end fuel (block_skip offset bc)
    else Some bc
  end.
Definition lex_block_comment (lx : Lexer) : option Lexer :=
  let start := lx_offset lx in
  bc ← block_comment_end fuel {| bc_offset := start + 2; bc_depth := 1; bc_openers := [start]; bc_overflow := None |};
  let lx := set_offset (bc_offset bc) lx in
  match bc_overflow bc with
  | Some opener =>
    '(reported, lx) ← diagnostic "S0005" "block comment nesting exceeds 128" opener (opener + 2) lx;
    if negb reported then limit_at start lx else emit SkErrorToken start (bc_offset bc) lx
  | None =>
    if (bc_depth bc =? 0)%nat then emit SkBlockComment start (bc_offset bc) lx
    else
      let opener := default start (head (bc_openers bc)) in
      '(reported, lx) ← diagnostic "S0006" "unterminated block comment" opener (opener + 2) lx;
      if negb reported then limit_at start lx else emit SkErrorToken start (bc_offset bc) lx
  end.

(** ** Literals *)

(** The loop of quoted literals: whether the contents are valid, whether the closing
    quote was found, and the offset. *)
Fixpoint quoted_end (fuel : nat) (is_bytes valid : bool) (offset : nat) : option (bool * bool * nat) :=
  match fuel with
  | O => None
  | S fuel =>
    if (offset <? length text)%nat then
      rest ← slice_from text offset;
      if has_prefix [DQUOTE] rest then Some (valid, true, (offset + 1)%nat)
      else
        c ← next_char rest;
        if is_control c then Some (false, false, offset)
        else if c =? 92 then
          match (if is_bytes then bytes_escape_len rest else ordinary_escape_len rest) with
          | Some n => quoted_end fuel is_bytes valid (offset + n)
          | None => quoted_end fuel is_bytes false (offset + invalid_escape_len rest)
          end
        else quoted_end fuel is_bytes (if is_bytes && negb (c <? 128) then false else valid) (offset + len_utf8 c)
    else Some (valid, false, offset)
  end.
Definition lex_quoted (start : nat) (is_bytes : bool) (lx : Lexer) : option Lexer :=
  '(valid, closed, finish) ← quoted_end fuel is_bytes true (lx_offset lx + (if is_bytes then 2 else 1));
  let lx := set_offset finish lx in
  if valid && closed then emit (if is_bytes then SkBytesLiteral else SkStringLiteral) start finish lx
  else error "S0002" "malformed literal" start finish lx.

(** The loop of raw strings: the end after the closing delimiter, or the end of the text. *)
Fixpoint raw_string_end (fuel hashes offset : nat) : option (bool * nat) :=
  match fuel with
  | O => None
  | S fuel =>
    if (offset <? length text)%nat then
      rest ← slice_from text offset;
      let close_end := (offset + 1 + hashes)%nat in
      if has_prefix [DQUOTE] rest && (close_end <=? length text)%nat
         && forallb (Z.eqb 35) (take hashes (drop (offset + 1) text))
      then Some (true, close_end)
      else offset ← after_char offset; raw_string_end fuel hashes offset
    else Some (false, offset)
  end.
Definition raw_delimiter (hashes : nat) : string := string_of_bytes (DQUOTE :: replicate hashes 35).
(** [lex_raw_string]: [None] inside when the text at the start is no raw string. *)
Definition raw_string_quote (rest : list Z) : option nat :=
  if negb (has_prefix (bytes "r") rest) then None
  else
    let quote := (1 + count_while (Z.eqb 35) (drop 1 rest))%nat in
    if negb (get_is rest quote (Z.eqb DQUOTE)) then None else Some quote.
Definition lex_raw_string (start quote : nat) (lx : Lexer) : option Lexer :=
  let hashes := (quote - 1)%nat in
  let offset := (start + quote + 1)%nat in
  if (16 <? hashes)%nat
  then error "S0002" "raw string delimiter supports at most 16 hashes" start offset (set_offset offset lx)
  else
    '(closed, finish) ← raw_string_end fuel hashes offset;
    let lx := set_offset finish lx in
    if (closed : bool) then emit SkStringLiteral start finish lx
    else
      '(_, lx) ← diagnostic "S0004" ("unterminated raw string literal; expected closing " ++ raw_delimiter hashes)
                             start offset lx;
      emit SkErrorToken start finish lx.

(** [consume_digits] on the bytes that remain: the bytes consumed, whether there were
    digits and whether separators stand between digits only. *)
Fixpoint consume_digits (rest : list Z) (previous_was_digit : bool) : nat * bool * bool :=
  match rest with
  | b :: rest' =>
    if is_ascii_digit b then
      let '(n, _, valid) := consume_digits rest' true in (S n, true, valid)
    else if b =? 95 then
      let '(n, has, valid) := consume_digits rest' false in
      (S n, has, previous_was_digit && get_is rest' 0 is_ascii_digit && valid)
    else (O, false, true)
  | [] => (O, false, true)
  end.
Definition digits_at (offset : nat) : nat * bool * bool :=
  let '(n, has, valid) := consume_digits (drop offset text) false in ((offset + n)%nat, has, valid).
Definition exponent_at (offset : nat) : nat * bool :=
  if get_is text offset (λ b, (b =? 101) || (b =? 69)) then
    let offset := (offset + 1)%nat in
    let offset := if get_is text offset (λ b, (b =? 43) || (b =? 45)) then (offset + 1)%nat else offset in
    let '(offset, has, valid) := digits_at offset in (offset, negb has || negb valid)
  else (offset, false).
Definition lex_number (lx : Lexer) : option Lexer :=
  let start := lx_offset lx in
  let '(offset, _, integer_valid) := digits_at start in
  rest ← slice_from text offset;
  let '(finish, float, malformed) :=
    if has_prefix (bytes ".") rest && negb (get_is text (offset + 1) (Z.eqb 46)) then
      let '(offset, has_fraction, fraction_valid) := digits_at (offset + 1) in
      let '(finish, bad_exponent) := exponent_at offset in
      (finish, true, negb integer_valid || negb has_fraction || negb fraction_valid || bad_exponent)
    else (offset, false, negb integer_valid) in
  let lx := set_offset finish lx in
  if malformed then error "S0003" "malformed number" start finish lx
  else if (float : bool) then emit SkFloatLiteral start finish lx
  else emit SkIntLiteral start finish lx.

Definition lex_identifier (lx : Lexer) : option Lexer :=
  let start := lx_offset lx in
  let finish := (start + 1 + count_while is_ident_continue (drop (start + 1) text))%nat in
  word ← slice text start finish;
  emit (default SkIdent (keyword_kind word)) start finish (set_offset finish lx).

(** ** Templates *)

Definition multiline_delimiter_starts_line (offset : nat) : option bool :=
  before ← slice text 0 offset;
  let line := count_while (λ b, negb (is_newline b)) (reverse before) in
  rest ← slice text (offset - line) offset;
  Some (forallb is_space rest).

Definition lex_multiline_start (start : nat) (lx : Lexer) : option Lexer :=
  let offset := (lx_offset lx + 3)%nat in
  let lx := set_offset offset lx in
  if negb (get_is text offset is_newline)
  then error "S0002" "multiline string opening delimiter must be followed by a line break" start offset lx
  else
    '(pushed, lx) ← push_mode (TemplateSegment start Multiline) start lx;
    if (pushed : bool) then emit SkMultilineStringDelimiter start offset lx else Some lx.

Definition delimiter_len (delimiter : TemplateDelimiter) : nat :=
  match delimiter with Backtick => 1 | Multiline => 3 end.
Definition closes_template (delimiter : TemplateDelimiter) (rest : list Z) (offset : nat) : option bool :=
  match delimiter with
  | Backtick => Some (has_prefix (bytes "`") rest)
  | Multiline => if has_prefix TRIPLE_QUOTE rest then multiline_delimiter_starts_line offset else Some false
  end.
Fixpoint template_text_end (fuel : nat) (delimiter : TemplateDelimiter) (offset : nat) : option nat :=
  match fuel with
  | O => None
  | S fuel =>
    if (offset <? length text)%nat then
      segment ← slice_from text offset;
      closes ← closes_template delimiter segment offset;
      if closes || has_prefix (bytes "${") segment || has_prefix (bytes "\") segment then Some offset
      else
        c ← next_char segment;
        if bool_decide (delimiter = Backtick) && is_control c then Some offset
        else template_text_end fuel delimiter (offset + len_utf8 c)
    else Some offset
  end.
Definition lex_template_segment (delimiter : TemplateDelimiter) (lx : Lexer) : option Lexer :=
  let start := lx_offset lx in
  rest ← slice_from text start;
  closing ← closes_template delimiter rest start;
  if (closing : bool) then
    let finish := (start + delimiter_len delimiter)%nat in
    emit (match delimiter with Backtick => SkBacktick | Multiline => SkMultilineStringDelimiter end)
         start finish (set_modes (tail (lx_modes lx)) (set_offset finish lx))
  else if has_prefix (bytes "${") rest then
    let finish := (start + 2)%nat in
    '(pushed, lx) ← push_mode (Interpolation start 0) start (set_offset finish lx);
    if (pushed : bool) then emit SkTemplateExprStart start finish lx else Some lx
  else if has_prefix (bytes "\") rest then
    match template_escape_len rest with
    | Some n => emit SkTemplateEscape start (start + n) (set_offset (start + n) lx)
    | None =>
      let finish := (start + invalid_escape_len rest)%nat in
      error "S0002" "malformed template escape" start finish (set_offset finish lx)
    end
  else
    c ← next_char rest;
    if bool_decide (delimiter = Backtick) && is_control c then
      let finish := (start + len_utf8 c)%nat in
      error "S0002" "unescaped control character in template" start finish (set_offset finish lx)
    else
      finish ← template_text_end fuel delimiter start;
      emit SkTemplateTextScalar start finish (set_offset finish lx).

(** ** The loop *)

Definition lex_operator (rest : list Z) : option (list Z * SyntaxKind) :=
  List.find (λ entry, has_prefix entry.1 rest) OPERATORS.
Definition emit_to (kind : SyntaxKind) (start finish : nat) (lx : Lexer) : option Lexer :=
  emit kind start finish (set_offset finish lx).
Definition starts_number (rest : list Z) : bool :=
  get_is rest 0 is_ascii_digit || (has_prefix (bytes "_") rest && get_is rest 1 is_ascii_digit).

Definition lex_normal (lx : Lexer) : option Lexer :=
  let start := lx_offset lx in
  rest ← slice_from text start;
  if has_prefix (bytes " ") rest || has_prefix [9] rest
  then emit_to SkWhitespace start (start + count_while is_space rest) lx
  else if has_prefix [13; 10] rest then emit_to SkNewline start (start + 2) lx
  else if has_prefix [13] rest || has_prefix [10] rest then emit_to SkNewline start (start + 1) lx
  else if has_prefix (bytes "//") rest then lex_line_comment lx
  else if has_prefix (bytes "/*") rest then lex_block_comment lx
  else match raw_string_quote rest with
  | Some quote => lex_raw_string start quote lx
  | None =>
  if has_prefix [98; DQUOTE] rest then lex_quoted start true lx
  else if has_prefix TRIPLE_QUOTE rest then lex_multiline_start start lx
  else if has_prefix [DQUOTE] rest then lex_quoted start false lx
  else if in_interpolation lx && has_prefix (bytes "}") rest
  then close_interpolation_or_brace start (set_offset (start + 1) lx)
  else if has_prefix (bytes "{") rest then
    '(opened, lx) ← increment_interpolation_brace start (set_offset (start + 1) lx);
    if (opened : bool) then emit SkLBrace start (start + 1) lx else Some lx
  else if has_prefix (bytes "`") rest then
    '(pushed, lx) ← push_mode (TemplateSegment start Backtick) start (set_offset (start + 1) lx);
    if (pushed : bool) then emit SkBacktick start (start + 1) lx else Some lx
  else
    first ← rest !! 0%nat;
    if starts_number rest then lex_number lx
    else if is_ident_start first then lex_identifier lx
    else match lex_operator rest with
    | Some (spelling, kind) => emit_to kind start (start + length spelling) lx
    | None =>
      let finish := (start + match next_char rest with Some c => len_utf8 c | None => 1 end)%nat in
      error "S0001" "unexpected character" start finish (set_offset finish lx)
    end
  end.

Definition lex_step (lx : Lexer) : option Lexer :=
  match lx_modes lx with
  | TemplateSegment _ delimiter :: _ => lex_template_segment delimiter lx
  | _ => lex_normal lx
  end.
Fixpoint lex_loop (fuel : nat) (lx : Lexer) : option Lexer :=
  match fuel with
  | O => None
  | S fuel =>
    if negb (lx_terminated lx) && (lx_offset lx <? length text)%nat
    then lx ← lex_step lx; lex_loop fuel lx
    else Some lx
  end.
(** The diagnostic for a template or an interpolation that is open at the end. *)
Definition finish_modes (lx : Lexer) : option Lexer :=
  if lx_terminated lx then Some lx
  else match lx_modes lx with
  | TemplateSegment opener delimiter :: _ =>
    snd <$> diagnostic "S0004" "unterminated template literal" opener (opener + delimiter_len delimiter) lx
  | Interpolation opener _ :: _ =>
    snd <$> diagnostic "S0004" "unterminated template interpolation" opener (opener + 2) lx
  | _ => Some lx
  end.
Definition run : option Lexed :=
  lx ← if lim_source_bytes limits <? len text then limit_at 0 Lexer_new else Some Lexer_new;
  lx ← lex_loop fuel lx;
  lx ← finish_modes lx;
  lx ← push_eof lx;
  Some {| lexed_tokens := lx_tokens lx; lexed_diagnostics := lx_diagnostics lx |}.

End Lex.

Definition lex_with_limits (source : SourceFile) (limits : SyntaxLimits) : option Lexed := run source limits.
Definition lex (source : SourceFile) : option Lexed := lex_with_limits source SyntaxLimits_DEFAULT.

(** ** Examples of the test suite *)

Definition source_of (text : string) : SourceFile :=
  {| sf_id := 1; sf_text := bytes text; sf_len := String.length text |}.
Definition kinds (text : string) : option (list SyntaxKind) :=
  map lt_kind ∘ lexed_tokens <$> lex (source_of text).

Example effect_id_kinds :
  kinds "tool.github.create_issue@2" = Some [SkIdent; SkDot; SkIdent; SkDot; SkIdent; SkAt; SkIntLiteral; SkEof].
Proof. vm_compute. reflexivity. Qed.
Example range_and_float_kinds :
  kinds "1..2 1.2e-3" = Some [SkIntLiteral; SkDotDot; SkIntLiteral; SkWhitespace; SkFloatLiteral; SkEof].
Proof. vm_compute. reflexivity. Qed.
Example template_kinds :
  kinds "`a${{x}}c`+b" = Some [SkBacktick; SkTemplateTextScalar; SkTemplateExprStart; SkLBrace; SkIdent; SkRBrace;
                               SkRBrace; SkTemplateTextScalar; SkBacktick; SkPlus; SkIdent; SkEof].
Proof. vm_compute. reflexivity. Qed.
