(* ===== verification/SyntaxGrammar.v ===== *)
(** * The lexical grammar ([docs/language-spec.md], section 3.4)

    What the language says a token of each kind spells, stated on the bytes of the token
    without reference to the lexer. *)

From S2P Require Import Prelude.
From S2P Require Import Text.
From S2P Require Import SyntaxSource.
From S2P Require Import SyntaxLexer.
Open Scope list_scope.
Open Scope Z_scope.

(** One or more digits, with separators only between two digits. *)
Inductive digit_groups : list Z → Prop :=
| groups_digit d : is_ascii_digit d = true → digit_groups [d]
| groups_next d l : is_ascii_digit d = true → digit_groups l → digit_groups (d :: l)
| groups_separator d l : is_ascii_digit d = true → digit_groups l → digit_groups (d :: 95 :: l).

Definition exponent (l : list Z) : Prop :=
  ∃ mark sign digits, l = mark :: sign ++ digits ∧ (mark = 101 ∨ mark = 69)
                      ∧ (sign = [] ∨ sign = [43] ∨ sign = [45]) ∧ digit_groups digits.
Definition float_literal (l : list Z) : Prop :=
  ∃ whole fraction power, l = whole ++ 46 :: fraction ++ power ∧ digit_groups whole ∧ digit_groups fraction
                          ∧ (power = [] ∨ exponent power).

Definition identifier (l : list Z) : Prop :=
  match l with
  | b :: l => is_ident_start b = true ∧ Forall (λ b, is_ident_continue b = true) l
  | [] => False
  end.

(** The characters between the quotes: scalars that stand for themselves, and escapes. *)
Inductive string_items (plain : Z → Prop) (escape : list Z → Prop) : list Z → Prop :=
| items_nil : string_items plain escape []
| items_scalar c l : is_scalar c = true → is_control c = false → c ≠ 34 → c ≠ 92 → plain c →
    string_items plain escape l → string_items plain escape (utf8_encode c ++ l)
| items_escape e l : escape e → string_items plain escape l → string_items plain escape (e ++ l).
Definition ordinary_escape (e : list Z) : Prop := ∃ b, e = [92; b] ∧ is_escape b = true.
Definition bytes_escape (e : list Z) : Prop :=
  ordinary_escape e ∨ ∃ h1 h2, e = [92; 120; h1; h2] ∧ is_hexdigit h1 = true ∧ is_hexdigit h2 = true.
Definition ordinary_string (l : list Z) : Prop :=
  ∃ body, l = 34 :: body ++ [34] ∧ string_items (λ _, True) ordinary_escape body.
Definition bytes_literal (l : list Z) : Prop :=
  ∃ body, l = 98 :: 34 :: body ++ [34] ∧ string_items (λ c, c < 128) bytes_escape body.
(** A raw string ends at the first quote with its number of hashes. *)
Definition raw_close (hashes : nat) : list Z := 34 :: replicate hashes 35.
Definition raw_string (l : list Z) : Prop :=
  ∃ hashes body, (hashes <= 16)%nat
    ∧ l = 114 :: replicate hashes 35 ++ 34 :: body ++ raw_close hashes
    ∧ ∀ before after, body ++ raw_close hashes = before ++ raw_close hashes ++ after → after = [].

(** The rest of a block comment of which some are open: scalars other than the two
    delimiters, at most 128 open at once. *)
Inductive comment_rest : nat → list Z → Prop :=
| comment_last : comment_rest 1 (bytes "*/")
| comment_close d l : comment_rest (S d) l → comment_rest (S (S d)) (bytes "*/" ++ l)
| comment_open d l : (S d <= 128)%nat → comment_rest (S d) l → comment_rest d (bytes "/*" ++ l)
| comment_scalar d c l : is_scalar c = true → has_prefix (bytes "/*") (utf8_encode c ++ l) = false →
    has_prefix (bytes "*/") (utf8_encode c ++ l) = false → comment_rest d l → comment_rest d (utf8_encode c ++ l).
Definition block_comment (l : list Z) : Prop := ∃ rest, l = bytes "/*" ++ rest ∧ comment_rest 1 rest.
Definition line_comment (l : list Z) : Prop :=
  ∃ rest, l = bytes "//" ++ rest ∧ Forall (λ b, is_newline b = false) rest.

Definition template_escape (l : list Z) : Prop := ordinary_escape l ∨ l = bytes "\`" ∨ l = bytes "\${".
(** Template text: some scalars, none of them a backslash, and no interpolation. *)
Definition template_text (l : list Z) : Prop :=
  l ≠ [] ∧ (92 ∉ l) ∧ ∀ before after, l ≠ before ++ bytes "${" ++ after.

(** What the lexer says of the kind of a token, as the grammar reads. *)
Definition spells (kind : SyntaxKind) (l : list Z) : Prop :=
  match kind with
  | SkErrorToken => True
  | SkEof => False
  | SkWhitespace => l ≠ [] ∧ Forall (λ b, is_space b = true) l
  | SkNewline => l = [10] ∨ l = [13] ∨ l = [13; 10]
  | SkLineComment => line_comment l
  | SkBlockComment => block_comment l
  | SkIntLiteral => digit_groups l
  | SkFloatLiteral => float_literal l
  | SkStringLiteral => ordinary_string l ∨ raw_string l
  | SkBytesLiteral => bytes_literal l
  | SkIdent => identifier l ∧ (∀ kind, (l, kind) ∉ keywords)
  | SkBacktick => l = bytes "`"
  | SkMultilineStringDelimiter => l = TRIPLE_QUOTE
  | SkTemplateExprStart => l = bytes "${"
  | SkTemplateEscape => template_escape l
  | SkTemplateTextScalar => template_text l
  | kind => (l, kind) ∈ keywords ++ OPERATORS
  end.
