(* ===== verification/SyntaxLexerCorrect.v ===== *)
(** * The lexer loses nothing

    On every source file and with every limits the lexer answers, its tokens lie one
    after the other from the first byte to the last, each spells what the grammar says
    of its kind, and tokens and diagnostics stay within their limits. *)

From S2P Require Import Prelude.
From S2P Require Import Text.
From S2P Require Import SyntaxSource.
From S2P Require Import SyntaxLexer.
From S2P Require Import SyntaxGrammar.
Open Scope list_scope.
Open Scope Z_scope.

(** ** Character boundaries *)

Section Boundaries.
Context (text : list Z).

(** An offset at which a character starts, or the end. *)
Definition boundary (n : nat) : Prop := (n <= length text)%nat ∧ utf8 (drop n text).

Lemma utf8_encode_ascii c : 0 <= c < 128 → utf8_encode c = [c].
Proof. intros H. unfold utf8_encode. by rewrite (proj2 (Z.ltb_lt c 128)) by lia. Qed.

Lemma scalar_bounds c : is_scalar c = true → 0 <= c <= 1114111.
Proof. unfold is_scalar. rewrite orb_true_iff, !between_spec. lia. Qed.

(** The first byte of a scalar is no continuation byte, and below 128 only for the
    scalar of one byte. *)
Lemma utf8_encode_head c : is_scalar c = true →
  ∃ b bs, utf8_encode c = b :: bs ∧ is_cont b = false ∧ 0 <= b ∧ (b < 128 → bs = [] ∧ b = c).
Proof.
  intros Hc%scalar_bounds. unfold utf8_encode, is_cont.
  assert (0 <= c / 64) by (apply Z.div_pos; lia). assert (0 <= c / 4096 <= 272) by (split; [apply Z.div_pos|apply Z.div_le_upper_bound]; lia).
  assert (0 <= c / 262144) by (apply Z.div_pos; lia).
  destruct (Z.ltb_spec c 128); [eexists _, _; split_and!; [done|apply between_false; lia|lia|done]|].
  repeat case_match; (eexists _, _; split_and!; [done|apply between_false; lia|lia|lia]).
Qed.

Lemma len_utf8_pos c : (0 < len_utf8 c)%nat.
Proof. unfold len_utf8, utf8_encode. repeat case_match; simpl; lia. Qed.

Lemma boundary_start : utf8 text → boundary 0.
Proof. split; [lia|done]. Qed.
Lemma boundary_end : boundary (length text).
Proof. split; [lia|]. rewrite drop_all. apply utf8_nil. Qed.

Lemma boundary_char n : boundary n → (n < length text)%nat →
  ∃ c rest, is_scalar c = true ∧ utf8 rest ∧ drop n text = utf8_encode c ++ rest.
Proof.
  intros [_ Hu] Hlt. destruct (utf8_inv _ Hu) as [E|E]; [|done].
  apply (f_equal length) in E. rewrite length_drop in E. simpl in E. lia.
Qed.

Lemma boundary_ok n : boundary n → is_char_boundary text n = true.
Proof.
  intros Hb. unfold is_char_boundary. destruct n as [|n]; [done|].
  destruct (text !! S n) as [b|] eqn:E.
  - destruct (boundary_char (S n) Hb) as (c & rest & Hc & _ & Hd); [by apply lookup_lt_Some in E|].
    destruct (utf8_encode_head c Hc) as (b' & bs & He & Hn & _). rewrite He in Hd.
    assert (text !! S n = Some b') as E'.
    { rewrite <- (Nat.add_0_r (S n)), <- lookup_drop, Hd. done. }
    rewrite E in E'. injection E' as ->. by rewrite Hn.
  - apply lookup_ge_None in E. destruct Hb. apply Nat.eqb_eq. lia.
Qed.

Lemma boundary_slice n : boundary n → slice_from text n = Some (drop n text).
Proof. intros Hb. unfold slice_from. by rewrite boundary_ok. Qed.

Lemma drop_split n k s r : drop n text = s ++ r → length s = k → drop (n + k) text = r.
Proof. intros E <-. rewrite <- drop_drop, E. apply drop_app_length. Qed.

Lemma boundary_split n s r : boundary n → drop n text = s ++ r → utf8 r → boundary (n + length s).
Proof.
  intros [Hn _] E Hr. split; [|by rewrite (drop_split n _ s r)].
  apply (f_equal length) in E. rewrite length_drop, length_app in E. lia.
Qed.

Lemma boundary_next n : boundary n → (n < length text)%nat →
  ∃ c, is_scalar c = true ∧ next_char (drop n text) = Some c ∧ boundary (n + len_utf8 c).
Proof.
  intros Hb Hlt. destruct (boundary_char n Hb Hlt) as (c & rest & Hc & Hr & E). exists c.
  assert (next_char (drop n text) = Some c) as Hn by (rewrite E; by apply next_char_encode).
  split_and!; [done|done|by eapply boundary_split].
Qed.

Lemma boundary_byte n b : boundary n → text !! n = Some b → b < 128 → boundary (n + 1).
Proof.
  intros Hb E Hlt. destruct (boundary_char n Hb) as (c & rest & Hc & Hr & Hd); [by apply lookup_lt_Some in E|].
  destruct (utf8_encode_head c Hc) as (b' & bs & He & _ & _ & Ha).
  assert (text !! n = Some b') as E'.
  { rewrite <- (Nat.add_0_r n), <- lookup_drop, Hd, He. done. }
  rewrite E in E'. injection E' as <-. destruct (Ha Hlt) as [-> _].
  apply (boundary_split n [b] rest); [done|by rewrite Hd, He|done].
Qed.

Lemma has_prefix_app p rest : has_prefix p rest = true ↔ ∃ r, rest = p ++ r.
Proof.
  revert rest. induction p as [|x p IH]; intros rest; simpl; [split; [by exists rest|done]|].
  destruct rest as [|b rest]; [split; [done|by intros [? ?]]|].
  rewrite andb_true_iff, Z.eqb_eq, IH. split; [intros [-> [r ->]]; by exists r|intros [r [= -> ->]]; eauto].
Qed.

Lemma boundary_ascii n s r : boundary n → drop n text = s ++ r → Forall (λ b, b < 128) s → boundary (n + length s).
Proof.
  revert n. induction s as [|b s IH]; intros n Hb E Hs; [by rewrite Nat.add_0_r|].
  apply Forall_cons in Hs as [Hlt Hs]. replace (n + length (b :: s))%nat with (n + 1 + length s)%nat by (simpl; lia).
  apply IH; [|by apply (drop_split n 1 [b])|done]. eapply boundary_byte; [done| |done].
  by rewrite <- (Nat.add_0_r n), <- lookup_drop, E.
Qed.
Lemma boundary_prefix n p : boundary n → has_prefix p (drop n text) = true → Forall (λ b, b < 128) p →
  boundary (n + length p).
Proof. intros Hb [r E]%has_prefix_app Hp. by eapply boundary_ascii. Qed.

Lemma count_while_split p l : ∃ s r, l = s ++ r ∧ length s = count_while p l ∧ Forall (λ b, p b = true) s
  ∧ match r with b :: _ => p b = false | [] => True end.
Proof.
  induction l as [|b l (s & r & -> & Hl & Hs & Hr)]; [by exists [], []|]. simpl. destruct (p b) eqn:E.
  - exists (b :: s), r. split_and!; [done|simpl; by rewrite Hl|by constructor|done].
  - by exists [], (b :: s ++ r).
Qed.
Lemma boundary_count_while p n : boundary n → (∀ b, p b = true → b < 128) →
  boundary (n + count_while p (drop n text)).
Proof.
  intros Hb Hp. destruct (count_while_split p (drop n text)) as (s & r & E & <- & Hs & _).
  eapply boundary_ascii; [done|done|]. eapply Forall_impl; [exact Hs|]. done.
Qed.
End Boundaries.

Lemma utf8_encode_tail c b bs : is_scalar c = true → utf8_encode c = b :: bs → Forall (λ b, is_cont b = true) bs.
Proof.
  intros Hc%scalar_bounds. unfold utf8_encode, is_cont.
  pose proof (Z.mod_pos_bound c 64 ltac:(lia)). pose proof (Z.mod_pos_bound (c / 64) 64 ltac:(lia)).
  pose proof (Z.mod_pos_bound (c / 4096) 64 ltac:(lia)).
  repeat case_match; intros [= <- <-]; repeat constructor; apply between_spec; lia.
Qed.

(** In a text every offset that passes the test of the standard library is a boundary. *)
Lemma boundary_exact text n : utf8 text → (n <= length text)%nat → is_char_boundary text n = true → boundary text n.
Proof.
  intros (cs & Hcs & ->). revert n. induction Hcs as [|c cs Hc Hcs IH]; intros n Hn Hb.
  { simpl in *. split; [done|]. rewrite drop_nil. apply utf8_nil. }
  cbn [map concat] in *. destruct (utf8_encode_head c Hc) as (b & bs & E & _).
  destruct (Nat.lt_ge_cases n (length (utf8_encode c))) as [Hlt|Hge].
  - destruct n as [|n]; [split; [lia|]; apply utf8_cons; [done|by exists cs]|]. exfalso.
    unfold is_char_boundary in Hb. rewrite lookup_app_l in Hb by done. rewrite E in Hb, Hlt.
    change ((b :: bs) !! S n) with (bs !! n) in Hb. simpl in Hlt.
    destruct (lookup_lt_is_Some_2 bs n) as [b' Hb']; [lia|]. rewrite Hb' in Hb.
    pose proof (utf8_encode_tail c b bs Hc E) as Ht. rewrite Forall_lookup in Ht. by rewrite (Ht _ _ Hb') in Hb.
  - rewrite length_app in Hn. destruct (IH (n - length (utf8_encode c))%nat) as [H1 H2].
    + lia.
    + unfold is_char_boundary in *. destruct n as [|n]; [rewrite E in Hge; simpl in Hge; lia|].
      destruct (S n - length (utf8_encode c))%nat as [|m] eqn:Em; [done|].
      rewrite lookup_app_r, Em in Hb by lia. case_match; [done|]. apply Nat.eqb_eq. apply Nat.eqb_eq in Hb.
      rewrite length_app in Hb. lia.
    + split; [rewrite length_app; lia|]. by rewrite drop_app_ge.
Qed.

Lemma boundary_after_ascii text p b q : utf8 text → text = p ++ b :: q → 0 <= b < 128 → boundary text (length p + 1).
Proof.
  intros Hu E Hb. assert (text !! length p = Some b) as Hl by (rewrite E; apply list_lookup_middle; done).
  eapply boundary_byte; [|done|lia]. apply boundary_exact; [done|apply lookup_lt_Some in Hl; lia|].
  unfold is_char_boundary. destruct (length p); [done|]. rewrite Hl. unfold is_cont. by rewrite between_false by lia.
Qed.

(** ** Parts of a text *)

Definition sub (text : list Z) (a b : nat) : list Z := take (b - a) (drop a text).

Lemma sub_nil text n : sub text n n = [].
Proof. unfold sub. by rewrite Nat.sub_diag. Qed.
Lemma sub_app text a b c : (a <= b)%nat → (b <= c)%nat → sub text a c = sub text a b ++ sub text b c.
Proof.
  intros H1 H2. unfold sub. replace (c - a)%nat with ((b - a) + (c - b))%nat by lia.
  rewrite <- take_take_drop, drop_drop. by replace (a + (b - a))%nat with b by lia.
Qed.
Lemma sub_split text n s r : drop n text = s ++ r → sub text n (n + length s) = s.
Proof. intros E. unfold sub. rewrite E. replace (n + length s - n)%nat with (length s) by lia. apply take_app_length. Qed.
Lemma sub_prefix text n p : has_prefix p (drop n text) = true → sub text n (n + length p) = p.
Proof. intros [r E]%has_prefix_app. by eapply sub_split. Qed.
Lemma sub_byte text n b : text !! n = Some b → sub text n (n + 1) = [b].
Proof. intros E. apply (sub_split text n [b] (drop (S n) text)). by apply drop_S. Qed.
Lemma sub_char text n c : boundary text n → (n < length text)%nat → next_char (drop n text) = Some c →
  sub text n (n + len_utf8 c) = utf8_encode c.
Proof.
  intros Hb Hlt Hn. destruct (boundary_char text n Hb Hlt) as (c' & rest & Hc & _ & E).
  rewrite E, (next_char_encode _ _ Hc) in Hn. injection Hn as ->. by eapply sub_split.
Qed.
Lemma has_prefix_take p k l : has_prefix p (take k l) = true → has_prefix p l = true.
Proof.
  intros [r E]%has_prefix_app. apply has_prefix_app. exists (r ++ drop k l).
  rewrite <- (take_drop k l) at 1. by rewrite E, <- app_assoc.
Qed.
Lemma sub_not_prefix text p n m : has_prefix p (drop n text) = false → has_prefix p (sub text n m) = false.
Proof. intros H. apply not_true_is_false. intros H'%has_prefix_take. congruence. Qed.

(** A source file as [SourceFile::new] makes it. *)
Definition source_ok (source : SourceFile) : Prop :=
  utf8 (sf_text source) ∧ sf_len source = length (sf_text source) ∧ len (sf_text source) <= u32_max.

(** Tokens that lie one after the other in a source. *)
Inductive tiles (source : SourceFile) : nat → list LexToken → nat → Prop :=
| tiles_nil n : tiles source n [] n
| tiles_cons start token tokens finish :
  lt_source token = sf_id source → lt_kind token ≠ SkEof → tr_start (lt_range token) = start →
  (start < tr_end (lt_range token))%nat → boundary (sf_text source) start →
  boundary (sf_text source) (tr_end (lt_range token)) →
  tiles source (tr_end (lt_range token)) tokens finish →
  tiles source start (token :: tokens) finish.

(** A diagnostic that points into the source. *)
Definition points_into (source : SourceFile) (d : SyntaxDiagnostic) : Prop :=
  sp_source (sd_span d) = sf_id source
  ∧ (tr_start (sp_range (sd_span d)) <= tr_end (sp_range (sd_span d)))%nat
  ∧ boundary (sf_text source) (tr_start (sp_range (sd_span d)))
  ∧ boundary (sf_text source) (tr_end (sp_range (sd_span d))).

(** A token that spells what the grammar says of its kind. *)
Definition spelled (source : SourceFile) (token : LexToken) : Prop :=
  spells (lt_kind token) (sub (sf_text source) (tr_start (lt_range token)) (tr_end (lt_range token))).

Section Lexing.
Context (source : SourceFile) (limits : SyntaxLimits) (ok : source_ok source).
Abbreviation text := (sf_text source).
Abbreviation capacity := (source_token_capacity limits).

Lemma range_ok start finish : boundary text start → boundary text finish → (start <= finish)%nat →
  range source start finish = Ok {| tr_start := start; tr_end := finish |}.
Proof using ok.
  intros Hs Hf Hle. destruct ok as (_ & Hl & Hmax). unfold len in Hmax. pose proof (proj1 Hs). pose proof (proj1 Hf).
  unfold range, text_size. rewrite Hl, (boundary_ok _ _ Hs), (boundary_ok _ _ Hf).
  rewrite (proj2 (Nat.ltb_ge finish start)), (proj2 (Nat.ltb_ge (length text) finish)) by lia. simpl.
  by rewrite (proj2 (Z.leb_le (Z.of_nat start) _)), (proj2 (Z.leb_le (Z.of_nat finish) _)) by lia.
Qed.

Lemma after_char_ok n : boundary text n → (n < length text)%nat →
  ∃ c, after_char source n = Some (n + len_utf8 c)%nat ∧ next_char (drop n text) = Some c ∧ boundary text (n + len_utf8 c).
Proof.
  intros Hb Hlt. destruct (boundary_next text n Hb Hlt) as (c & _ & Hn & Hb'). exists c.
  unfold after_char. rewrite boundary_slice by done. simpl. rewrite Hn. by split_and!.
Qed.

Lemma tiles_snoc start tokens middle token :
  tiles source start tokens middle → lt_source token = sf_id source → lt_kind token ≠ SkEof →
  tr_start (lt_range token) = middle → (middle < tr_end (lt_range token))%nat →
  boundary text middle → boundary text (tr_end (lt_range token)) →
  tiles source start (tokens ++ [token]) (tr_end (lt_range token)).
Proof.
  intros Ht Hs Hk Hm Hlt Hb He. induction Ht as [n|? ? ? ? ? ? ? ? ? ? ? IH]; simpl.
  - constructor; [done..|constructor].
  - constructor; [done..|]. by apply IH.
Qed.

(** ** The invariant *)

Definition mode_ok (mode : Mode) : Prop :=
  match mode with
  | Normal => True
  | TemplateSegment opener delimiter => boundary text opener ∧ boundary text (opener + delimiter_len delimiter)
  | Interpolation opener _ => boundary text opener ∧ boundary text (opener + 2)
  end.

(** The tokens reach the mark; while text remains there is a slot for it. *)
Record sound (mark : nat) (lx : Lexer) : Prop := {
  sound_tiles : tiles source 0 (lx_tokens lx) mark;
  sound_mark : boundary text mark;
  sound_slots : len (lx_tokens lx) <= capacity ∧ ((mark < length text)%nat → len (lx_tokens lx) < capacity);
  sound_diagnostics : len (lx_diagnostics lx) <= Z.max (lim_diagnostics limits) 0
                      ∧ Forall (points_into source) (lx_diagnostics lx);
  sound_modes : Forall mode_ok (lx_modes lx);
  sound_spelled : Forall (spelled source) (lx_tokens lx) }.
Definition pending (start : nat) (lx : Lexer) : Prop := sound start lx ∧ lx_terminated lx = false.
Definition good (lx : Lexer) : Prop :=
  sound (lx_offset lx) lx ∧ (lx_terminated lx = true → lx_offset lx = length text).
(** The answer of a handler: the lexer has gone on from the start. *)
Definition steps (start : nat) (answer : option Lexer) : Prop :=
  ∃ lx, answer = Some lx ∧ good lx ∧ (start < lx_offset lx)%nat.

Lemma pending_offset start offset lx : pending start lx → pending start (set_offset offset lx).
Proof. by intros [[]]. Qed.
Lemma pending_modes start modes lx : pending start lx → Forall mode_ok modes → pending start (set_modes modes lx).
Proof. intros [[]] Hm. by split; [constructor|]. Qed.
Lemma pending_boundary start lx : pending start lx → boundary text start.
Proof. by intros [[]]. Qed.

Lemma len_app {A} (l : list A) x : len (l ++ [x]) = len l + 1.
Proof. unfold len. rewrite length_app. simpl. lia. Qed.

Lemma limit_at_ok start lx : pending start lx → (start < length text)%nat → steps start (limit_at source limits start lx).
Proof using ok.
  intros [[Ht Hm [Hs Hr] [Hd Hp] Hmo Hsp] Hnt] Hlt. unfold limit_at. rewrite Hnt, (proj2 (Nat.ltb_lt _ _) Hlt).
  assert (boundary text (length text)) as He by apply boundary_end.
  unfold lex_token, span. rewrite !(range_ok _ _ Hm He) by lia. cbn [expect mbind option_bind].
  specialize (Hr Hlt).
  destruct (Z.ltb_spec (len (lx_diagnostics lx)) (lim_diagnostics limits)); cbn [mbind option_bind lx_tokens push_diagnostic];
    rewrite (proj2 (Z.ltb_lt _ _) Hr); cbn [negb mbind option_bind]; eexists; (split; [reflexivity|]);
    (split; [|done]); (split; [|done]); constructor; cbn; try done.
  all: try (apply (tiles_snoc 0 (lx_tokens lx) start {| lt_source := _; lt_kind := _; lt_range := {| tr_start := _; tr_end := _ |} |}); done).
  all: try (rewrite len_app; lia).
  all: try (apply Forall_app; split; [exact Hsp|]; by constructor).
  rewrite len_app. split; [lia|]. apply Forall_app. split; [done|]. constructor; [|done]. split_and!; cbn; [done|lia|done|done].
Qed.

Lemma emit_ok kind start finish lx :
  pending start lx → lx_offset lx = finish → boundary text finish → (start < finish)%nat → spells kind (sub text start finish) →
  steps start (emit source limits kind start finish lx).
Proof using ok.
  intros Hp <- Hf Hlt Hk. unfold emit. rewrite (proj2 Hp).
  destruct (token_would_exceed_source_capacity _ _ _ _) eqn:E.
  { apply limit_at_ok; [done|]. destruct Hf. lia. }
  unfold token_would_exceed_source_capacity in E. apply orb_false_iff in E as [E1 E2]. apply Z.leb_gt in E1.
  pose proof (pending_boundary _ _ Hp) as Hb.
  unfold lex_token. rewrite range_ok by (done || lia). cbn [expect mbind option_bind]. eexists. split; [reflexivity|].
  destruct Hp as [[Ht Hm [Hs Hr] Hd Hmo Hsp] Hnt]. split; [|done]. split; [|cbn; congruence]. constructor; cbn; try done.
  - apply (tiles_snoc 0 (lx_tokens lx) start {| lt_source := _; lt_kind := _; lt_range := {| tr_start := _; tr_end := _ |} |}); try done.
    cbn. by intros ->.
  - rewrite len_app. split; [lia|]. intros Hlt'. apply Nat.ltb_lt in Hlt'. rewrite Hlt' in E2. apply Z.leb_gt in E2. unfold len in *. lia.
  - apply Forall_app. split; [done|]. by constructor.
Qed.

Lemma diagnostic_ok code message a b start lx :
  pending start lx → boundary text a → boundary text b → (a <= b)%nat →
  ∃ reported lx', diagnostic source limits code message a b lx = Some (reported, lx') ∧ pending start lx'
                  ∧ lx_offset lx' = lx_offset lx ∧ lx_modes lx' = lx_modes lx.
Proof using ok.
  intros Hp Ha Hb Hle. unfold diagnostic. destruct (Z.leb_spec (lim_diagnostics limits) (len (lx_diagnostics lx))); [by eauto 10|].
  unfold span. rewrite range_ok by done. cbn [expect mbind option_bind]. eexists _, _. split_and!; [reflexivity| |done..].
  destruct Hp as [[Ht Hm Hs [Hd Hf] Hmo Hsp] Hnt]. split; [|done]. constructor; cbn; try done. rewrite len_app. split; [lia|].
  apply Forall_app. split; [done|]. constructor; [|done]. by split_and!.
Qed.

Lemma reported_ok code message a b start finish lx :
  pending start lx → boundary text a → boundary text b → (a <= b)%nat →
  lx_offset lx = finish → boundary text finish → (start < finish)%nat →
  steps start ('(reported, lx) ← diagnostic source limits code message a b lx;
               if negb reported then limit_at source limits start lx
               else emit source limits SkErrorToken start finish lx).
Proof using ok.
  intros Hp Ha Hb Hle Ho Hf Hlt. destruct (diagnostic_ok code message a b start lx Hp Ha Hb Hle) as (r & lx' & E & Hp' & Ho' & _).
  rewrite E. cbn [mbind option_bind]. destruct r; cbn [negb].
  - apply emit_ok; [done|congruence|done..].
  - apply limit_at_ok; [done|]. destruct Hf. lia.
Qed.

Lemma error_ok code message start finish lx :
  pending start lx → lx_offset lx = finish → boundary text finish → (start < finish)%nat →
  steps start (error source limits code message start finish lx).
Proof using ok.
  intros Hp Ho Hf Hlt. apply reported_ok; try done; [by eapply pending_boundary|lia].
Qed.

Lemma pushed_ok mode kind start finish lx :
  pending start lx → lx_offset lx = finish → boundary text finish → (start < finish)%nat →
  spells kind (sub text start finish) → mode_ok mode →
  steps start ('(pushed, lx) ← push_mode source limits mode start lx;
               if (pushed : bool) then emit source limits kind start finish lx else Some lx).
Proof using ok.
  intros Hp Ho Hf Hlt Hk Hm. unfold push_mode. destruct (_ <=? _).
  - destruct (limit_at_ok start lx Hp) as (lx' & -> & Hg & Hs); [destruct Hf; lia|]. by exists lx'.
  - cbn [mbind option_bind]. apply emit_ok; try done. apply pending_modes; [done|]. constructor; [done|].
    by destruct Hp as [[]].
Qed.

(** ** Comments *)

(** The bytes of a scalar after its first one are continuation bytes. *)
Lemma char_bytes (p : Z → Prop) c n b : boundary text n → next_char (drop n text) = Some c → text !! n = Some b →
  p b → (∀ b, 128 <= b → p b) → Forall p (utf8_encode c).
Proof.
  intros Hb Hn Hl Hp Hc. destruct (boundary_char text n Hb) as (c' & rest & Hs & _ & E); [by apply lookup_lt_Some in Hl|].
  rewrite E, (next_char_encode _ _ Hs) in Hn. injection Hn as ->. destruct (utf8_encode_head c Hs) as (b' & bs & Ee & _).
  assert (b' = b) as ->.
  { rewrite <- (Nat.add_0_r n), <- lookup_drop, E, Ee in Hl. by injection Hl. }
  rewrite Ee. constructor; [done|]. eapply Forall_impl; [exact (utf8_encode_tail c b bs Hs Ee)|].
  intros b0 H0%between_spec. apply Hc. lia.
Qed.

Lemma line_comment_end_ok fuel n : boundary text n → (length text < fuel + n)%nat →
  ∃ n', line_comment_end source fuel n = Some n' ∧ boundary text n' ∧ (n <= n')%nat
        ∧ Forall (λ b, is_newline b = false) (sub text n n').
Proof.
  revert n. induction fuel as [|fuel IH]; intros n Hb Hf; [destruct Hb; lia|]. cbn [line_comment_end].
  assert (boundary text n ∧ (n <= n)%nat ∧ Forall (λ b, is_newline b = false) (sub text n n)) as Hstay by (by rewrite sub_nil).
  destruct (Nat.ltb_spec n (length text)) as [Hlt|]; [|by exists n].
  destruct (lookup_lt_is_Some_2 text n) as [b Eb]; [done|]. rewrite Eb. cbn [mbind option_bind].
  destruct (is_newline b) eqn:En; [by exists n|].
  destruct (after_char_ok n Hb Hlt) as (c & -> & Hn & Hb1). cbn [mbind option_bind]. pose proof (len_utf8_pos c).
  destruct (IH _ Hb1) as (n' & -> & Hb' & Hle & Hf'); [lia|]. exists n'. split_and!; [done|done|lia|].
  rewrite (sub_app _ n (n + len_utf8 c)) by lia. rewrite sub_char by done. apply Forall_app. split; [|done].
  apply (char_bytes _ c n b); [done..|]. intros b' Hb'2. unfold is_newline. apply orb_false_iff. rewrite !Z.eqb_neq. lia.
Qed.

Definition openers_ok (bc : BlockComment) : Prop :=
  Forall (λ o, boundary text o ∧ boundary text (o + 2)) (bc_openers bc)
  ∧ match bc_overflow bc with Some o => boundary text o ∧ boundary text (o + 2) | None => True end.

Lemma next_char_scalar n c : boundary text n → (n < length text)%nat → next_char (drop n text) = Some c → is_scalar c = true.
Proof. intros Hb Hlt Hn. destruct (boundary_next text n Hb Hlt) as (c' & Hs & Hn' & _). congruence. Qed.

(** What the loop says of the comment when it closes without an overflow. *)
Definition closes_comment (bc bc' : BlockComment) : Prop :=
  (0 < bc_depth bc)%nat → bc_overflow bc' = None → bc_depth bc' = 0%nat →
  bc_overflow bc = None ∧ comment_rest (bc_depth bc) (sub text (bc_offset bc) (bc_offset bc')).

Lemma closes_open bc bc' : has_prefix (bytes "/*") (drop (bc_offset bc) text) = true →
  (bc_offset bc + 2 <= bc_offset bc')%nat → closes_comment (block_open bc) bc' → closes_comment bc bc'.
Proof.
  intros Hp Hle H Hd Ho H0. destruct (H ltac:(cbn; lia) Ho H0) as [H1 H2]. cbn [block_open bc_overflow bc_depth bc_offset] in H1, H2.
  destruct (Nat.leb_spec (S (bc_depth bc)) 128) as [Hle'|]; [|by destruct (bc_overflow bc)]. split; [done|].
  rewrite (sub_app _ _ (bc_offset bc + 2)) by lia. change 2%nat with (length (bytes "/*")) at 1. rewrite sub_prefix by done.
  by apply comment_open.
Qed.
Lemma closes_close bc bc' : has_prefix (bytes "*/") (drop (bc_offset bc) text) = true →
  (bc_offset bc + 2 <= bc_offset bc')%nat → bc_depth (block_close bc) ≠ 0%nat →
  closes_comment (block_close bc) bc' → closes_comment bc bc'.
Proof.
  intros Hp Hle Hd' H Hd Ho H0. destruct (H ltac:(lia) Ho H0) as [H1 H2]. cbn [block_close bc_overflow bc_depth bc_offset] in *.
  split; [done|]. rewrite (sub_app _ _ (bc_offset bc + 2)) by lia. change 2%nat with (length (bytes "*/")) at 1. rewrite sub_prefix by done.
  destruct (bc_depth bc) as [|[|d]]; [done|done|]. by apply comment_close.
Qed.

Lemma block_comment_end_ok fuel bc : boundary text (bc_offset bc) → openers_ok bc → (length text < fuel + bc_offset bc)%nat →
  ∃ bc', block_comment_end source fuel bc = Some bc' ∧ boundary text (bc_offset bc') ∧ openers_ok bc'
         ∧ (bc_offset bc <= bc_offset bc')%nat ∧ closes_comment bc bc'.
Proof.
  revert bc. induction fuel as [|fuel IH]; intros bc Hb Ho Hf; [destruct Hb; lia|]. cbn [block_comment_end].
  destruct (Nat.ltb_spec (bc_offset bc) (length text)) as [Hlt|].
  2: { exists bc. split_and!; [done..|]. intros ???. lia. }
  rewrite boundary_slice by done. cbn [mbind option_bind].
  destruct (has_prefix (bytes "/*") _) eqn:E1.
  { assert (boundary text (bc_offset bc + 2)) as Hb2 by (eapply (boundary_prefix _ _ (bytes "/*")); [done|done|repeat constructor]).
    destruct (IH (block_open bc)) as (bc' & -> & Hb' & Ho' & Hle & Hc).
    - done.
    - destruct Ho as [Ho Hov]. unfold block_open, openers_ok. cbn [bc_openers bc_overflow].
      destruct (S (bc_depth bc) <=? 128)%nat; split; try done; [by constructor|]. by destruct (bc_overflow bc).
    - cbn. lia.
    - exists bc'. cbn in Hle. split_and!; [done..|lia|by apply closes_open]. }
  destruct (has_prefix (bytes "*/") _) eqn:E2.
  { assert (boundary text (bc_offset bc + 2)) as Hb2 by (eapply (boundary_prefix _ _ (bytes "*/")); [done|done|repeat constructor]).
    assert (openers_ok (block_close bc)) as Ho2.
    { destruct Ho as [Ho Hov]. split; [|done]. unfold block_close. cbn [bc_openers].
      destruct (Nat.pred (bc_depth bc) <? 128)%nat; [|done]. destruct (bc_openers bc); [done|]. by inversion Ho. }
    cbn zeta. destruct (Nat.eqb_spec (bc_depth (block_close bc)) 0) as [H0|H0].
    - exists (block_close bc). split_and!; [done..|cbn; lia|]. intros Hd Hov _. split; [done|]. cbn [block_close bc_depth bc_offset] in *.
      rewrite (sub_prefix _ _ (bytes "*/") E2 : sub text _ (_ + 2) = _).
      replace (bc_depth bc) with 1%nat by lia. apply comment_last.
    - destruct (IH (block_close bc)) as (bc' & -> & Hb' & Ho' & Hle & Hc); [done|done|cbn; lia|].
      exists bc'. cbn in Hle. split_and!; [done..|lia|by apply closes_close]. }
  destruct (after_char_ok (bc_offset bc) Hb Hlt) as (c & -> & Hn & Hb1). cbn [mbind option_bind]. pose proof (len_utf8_pos c).
  destruct (IH (block_skip (bc_offset bc + len_utf8 c) bc)) as (bc' & -> & Hb' & Ho' & Hle & Hc); [done|done|cbn; lia|].
  exists bc'. cbn in Hle. split_and!; [done..|lia|]. intros Hd Hov H0. destruct (Hc Hd Hov H0) as [H1 H2]. split; [done|]. cbn in H2.
  pose proof (sub_not_prefix _ _ _ (bc_offset bc') E1) as N1. pose proof (sub_not_prefix _ _ _ (bc_offset bc') E2) as N2.
  rewrite (sub_app _ _ (bc_offset bc + len_utf8 c)), sub_char in N1, N2 |- * by (done || lia).
  apply comment_scalar; [exact (next_char_scalar _ _ Hb Hlt Hn)|done..].
Qed.

Ltac ascii_prefix p := by apply (boundary_prefix _ _ p); [..|repeat constructor].

Lemma lex_line_comment_ok lx : pending (lx_offset lx) lx → has_prefix (bytes "//") (drop (lx_offset lx) text) = true →
  steps (lx_offset lx) (lex_line_comment source limits lx).
Proof using ok.
  intros Hp Hpre. pose proof (pending_boundary _ _ Hp). assert (boundary text (lx_offset lx + 2)) as Hb by ascii_prefix (bytes "//").
  unfold lex_line_comment. destruct (line_comment_end_ok (fuel source) _ Hb) as (n & -> & Hn & Hle & Hnl); [unfold fuel; lia|].
  cbn [mbind option_bind]. apply emit_ok; [by apply pending_offset|done|done|lia|].
  exists (sub text (lx_offset lx + 2) n). split; [|done]. rewrite (sub_app _ _ (lx_offset lx + 2)) by lia. f_equal.
  by apply (sub_prefix _ _ (bytes "//")).
Qed.

Lemma lex_block_comment_ok lx : pending (lx_offset lx) lx → has_prefix (bytes "/*") (drop (lx_offset lx) text) = true →
  steps (lx_offset lx) (lex_block_comment source limits lx).
Proof using ok.
  intros Hp Hpre. pose proof (pending_boundary _ _ Hp) as Hs.
  assert (boundary text (lx_offset lx + 2)) as Hb by ascii_prefix (bytes "/*"). unfold lex_block_comment.
  edestruct (block_comment_end_ok (fuel source)) as (bc & -> & Hn & [Ho Hov] & Hle & Hc).
  4: { cbn [bc_offset] in Hle. cbn [mbind option_bind]. cbn zeta. destruct (bc_overflow bc) as [o|] eqn:Eo.
    - apply reported_ok; try done; [by apply pending_offset|by apply Hov|by apply Hov|lia|lia].
    - destruct (Nat.eqb_spec (bc_depth bc) 0) as [E0|].
      + apply emit_ok; [by apply pending_offset|done|done|lia|]. destruct (Hc ltac:(cbn; lia) Eo E0) as [_ Hrest]. eexists. split; [|exact Hrest].
        cbn [bc_offset]. rewrite (sub_app _ _ (lx_offset lx + 2)) by lia. f_equal. by apply (sub_prefix _ _ (bytes "/*")).
      + assert (∀ o, o = default (lx_offset lx) (head (bc_openers bc)) → boundary text o ∧ boundary text (o + 2)) as Hd.
        { intros o ->. destruct Ho; cbn; [done|]. done. }
        destruct (Hd _ eq_refl). apply reported_ok; try done; [by apply pending_offset|lia|lia]. }
  - done.
  - split; [|done]. cbn. constructor; [done|constructor].
  - cbn. unfold fuel. lia.
Qed.

(** ** Literals *)

Lemma escape_ascii b : is_escape b = true → b < 128.
Proof. unfold is_escape, DQUOTE. rewrite !orb_true_iff, !Z.eqb_eq. lia. Qed.
Lemma hexdigit_ascii b : is_hexdigit b = true → b < 128.
Proof. unfold is_hexdigit, is_ascii_digit. rewrite !orb_true_iff, !between_spec. lia. Qed.
Lemma get_is_inv l i p : get_is l i p = true → ∃ b, l !! i = Some b ∧ p b = true.
Proof. unfold get_is. destruct (l !! i); [eauto|done]. Qed.

Lemma boundary_get n k p : boundary text (n + k) → get_is (drop n text) k p = true → (∀ b, p b = true → b < 128) →
  boundary text (n + S k).
Proof.
  intros Hb (b & E & Hp)%get_is_inv Ha. rewrite lookup_drop in E. replace (n + S k)%nat with (n + k + 1)%nat by lia.
  eapply boundary_byte; [done|done|by apply Ha].
Qed.

Lemma sub_get n k p b : get_is (drop n text) k p = true → sub text n (n + S k) = b → ∃ x, b = sub text n (n + k) ++ [x] ∧ p x = true.
Proof.
  intros (x & E & Hp)%get_is_inv <-. exists x. split; [|done]. rewrite lookup_drop in E.
  rewrite (sub_app _ n (n + k)) by lia. f_equal. rewrite <- (sub_byte text (n + k) x E). f_equal; lia.
Qed.
Lemma ordinary_escape_ok n k : boundary text n → has_prefix (bytes "\") (drop n text) = true →
  ordinary_escape_len (drop n text) = Some k → boundary text (n + k) ∧ (0 < k)%nat ∧ ordinary_escape (sub text n (n + k)).
Proof.
  intros Hb Hs. unfold ordinary_escape_len. destruct (get_is _ 1 _) eqn:E; [|done]. intros [= <-]. split_and!; [|lia|].
  - eapply boundary_get; [|done|apply escape_ascii]. by apply (boundary_prefix _ _ (bytes "\")); [..|repeat constructor].
  - destruct (sub_get n 1 _ _ E eq_refl) as (x & -> & Hx). exists x. split; [|done].
    by rewrite (sub_prefix _ _ (bytes "\") Hs : sub text n (n + 1) = _).
Qed.
Lemma bytes_escape_ok n k : boundary text n → has_prefix (bytes "\") (drop n text) = true →
  bytes_escape_len (drop n text) = Some k → boundary text (n + k) ∧ (0 < k)%nat ∧ bytes_escape (sub text n (n + k)).
Proof.
  intros Hb Hs. unfold bytes_escape_len. destruct (ordinary_escape_len _) eqn:E.
  - intros [= <-]. destruct (ordinary_escape_ok _ _ Hb Hs E) as (? & ? & ?). split_and!; [done|done|by left].
  - destruct (_ && _) eqn:E2; [|done]. intros [= <-]. rewrite !andb_true_iff in E2. destruct E2 as [[E2 E3] E4].
    split_and!; [|lia|].
    + eapply boundary_get; [|done|apply hexdigit_ascii]. eapply boundary_get; [|done|apply hexdigit_ascii].
      eapply boundary_get; [|exact E2|intros b <-%Z.eqb_eq; lia]. by apply (boundary_prefix _ _ (bytes "\")); [..|repeat constructor].
    + right. destruct (sub_get n 3 _ _ E4 eq_refl) as (h2 & -> & H2). destruct (sub_get n 2 _ _ E3 eq_refl) as (h1 & -> & H1).
      destruct (sub_get n 1 _ _ E2 eq_refl) as (x & -> & <-%Z.eqb_eq). exists h1, h2. split_and!; [|done..].
      by rewrite (sub_prefix _ _ (bytes "\") Hs : sub text n (n + 1) = _).
Qed.
Lemma template_escape_ok n k : boundary text n → has_prefix (bytes "\") (drop n text) = true →
  template_escape_len (drop n text) = Some k → boundary text (n + k) ∧ (0 < k)%nat ∧ template_escape (sub text n (n + k)).
Proof.
  intros Hb Hs. unfold template_escape_len. destruct (ordinary_escape_len _) eqn:E.
  - intros [= <-]. destruct (ordinary_escape_ok _ _ Hb Hs E) as (? & ? & ?). split_and!; [done|done|by left].
  - destruct (has_prefix (bytes "\`") _) eqn:E2; [|destruct (has_prefix (bytes "\${") _) eqn:E3; [|done]]; intros [= <-]; (split_and!; [|lia|]).
    + by apply (boundary_prefix _ _ (bytes "\`")); [..|repeat constructor].
    + right. left. by apply (sub_prefix _ _ (bytes "\`")).
    + by apply (boundary_prefix _ _ (bytes "\${")); [..|repeat constructor].
    + right. right. by apply (sub_prefix _ _ (bytes "\${")).
Qed.
Lemma invalid_escape_ok n : boundary text n → has_prefix (bytes "\") (drop n text) = true →
  boundary text (n + invalid_escape_len (drop n text)) ∧ (0 < invalid_escape_len (drop n text))%nat.
Proof.
  intros Hb Hs. assert (boundary text (n + 1)) as Hb1 by (by apply (boundary_prefix _ _ (bytes "\")); [..|repeat constructor]).
  unfold invalid_escape_len. destruct (slice_from _ 1) as [rest|] eqn:E; [|split; [done|lia]].
  unfold slice_from in E. destruct (is_char_boundary _ _); [|done]. injection E as <-. rewrite drop_drop.
  destruct (Nat.lt_ge_cases (n + 1) (length text)) as [Hlt|Hge].
  - destruct (boundary_next text _ Hb1 Hlt) as (c & _ & -> & Hb2). split; [|lia].
    by replace (n + (1 + len_utf8 c))%nat with (n + 1 + len_utf8 c)%nat by lia.
  - rewrite drop_ge by lia. cbn. split; [done|lia].
Qed.

(** The items of string and bytes literals. *)
Definition literal_items (is_bytes : bool) : list Z → Prop :=
  if is_bytes then string_items (λ c, c < 128) bytes_escape else string_items (λ _, True) ordinary_escape.
Lemma literal_scalar (is_bytes : bool) c l :
  is_scalar c = true → is_control c = false → c ≠ 34 → c ≠ 92 → (is_bytes = true → c < 128) →
  literal_items is_bytes l → literal_items is_bytes (utf8_encode c ++ l).
Proof. destruct is_bytes; intros; apply items_scalar; auto. Qed.
Lemma literal_escape (is_bytes : bool) n k l : boundary text n → has_prefix (bytes "\") (drop n text) = true →
  (if is_bytes then bytes_escape_len (drop n text) else ordinary_escape_len (drop n text)) = Some k →
  boundary text (n + k) ∧ (0 < k)%nat ∧ (literal_items is_bytes l → literal_items is_bytes (sub text n (n + k) ++ l)).
Proof.
  intros Hb Hs E. destruct is_bytes.
  - destruct (bytes_escape_ok _ _ Hb Hs E) as (? & ? & ?). split_and!; [done|done|]. by apply items_escape.
  - destruct (ordinary_escape_ok _ _ Hb Hs E) as (? & ? & ?). split_and!; [done|done|]. by apply items_escape.
Qed.

Lemma starts_with_char n c : boundary text n → (n < length text)%nat → next_char (drop n text) = Some c → 0 <= c < 128 →
  has_prefix [c] (drop n text) = true.
Proof.
  intros Hb Hlt Hn Hc. destruct (boundary_char text n Hb Hlt) as (c' & rest & Hc' & _ & E). rewrite E, (next_char_encode _ _ Hc') in Hn.
  injection Hn as ->. rewrite E, utf8_encode_ascii by lia. cbn. by rewrite Z.eqb_refl.
Qed.

Lemma quoted_end_ok fuel is_bytes valid n : boundary text n → (length text < fuel + n)%nat →
  ∃ valid' closed n', quoted_end source fuel is_bytes valid n = Some (valid', closed, n') ∧ boundary text n' ∧ (n <= n')%nat
    ∧ (valid' = true → closed = true → valid = true ∧ ∃ body, sub text n n' = body ++ [34] ∧ literal_items is_bytes body).
Proof.
  revert valid n. induction fuel as [|fuel IH]; intros valid n Hb Hf; [destruct Hb; lia|]. cbn [quoted_end].
  destruct (Nat.ltb_spec n (length text)) as [Hlt|]; [|by eexists _, _, n].
  rewrite boundary_slice by done. cbn [mbind option_bind].
  destruct (has_prefix [DQUOTE] _) eqn:Eq.
  { eexists _, _, _. split_and!; [done|ascii_prefix [DQUOTE]|lia|]. intros Hv _. split; [done|]. exists [].
    split; [by apply (sub_prefix _ _ [DQUOTE])|]. destruct is_bytes; constructor. }
  destruct (boundary_next text n Hb Hlt) as (c & Hc & Hn & Hb'). rewrite Hn. cbn [mbind option_bind].
  destruct (is_control c) eqn:Ectl; [by eexists _, _, n|].
  assert (∀ valid1 m, boundary text m → (n < m)%nat →
            (valid1 = true → valid = true ∧ ∀ l, literal_items is_bytes l → literal_items is_bytes (sub text n m ++ l)) →
            ∃ valid' closed n', quoted_end source fuel is_bytes valid1 m = Some (valid', closed, n') ∧ boundary text n' ∧ (n <= n')%nat
              ∧ (valid' = true → closed = true → valid = true ∧ ∃ body, sub text n n' = body ++ [34] ∧ literal_items is_bytes body)) as Hgo.
  { intros v m Hm Hlm Hitem. destruct (IH v m Hm) as (v' & cl & n' & E & Hn' & Hle & Hs); [lia|]. exists v', cl, n'.
    split_and!; [done|done|lia|]. intros Hv' Hcl. destruct (Hs Hv' Hcl) as [Hv (body & Eb & Hi)]. destruct (Hitem Hv) as [Hvalid Hl].
    split; [done|]. exists (sub text n m ++ body). rewrite (sub_app _ n m n'), Eb by lia. by rewrite app_assoc; auto. }
  destruct (Z.eqb_spec c 92) as [->|Hne].
  - assert (has_prefix (bytes "\") (drop n text) = true) as Hs by (by apply (starts_with_char n 92)).
    destruct (if is_bytes then _ else _) as [k|] eqn:Ek.
    + destruct (literal_escape is_bytes n k [] Hb Hs Ek) as (H1 & H2 & _). apply Hgo; [done|lia|].
      intros Hv. split; [done|]. intros l. by apply (literal_escape is_bytes n k l Hb Hs Ek).
    + destruct (invalid_escape_ok n Hb Hs). apply Hgo; [done|lia|done].
  - pose proof (len_utf8_pos c). apply Hgo; [done|lia|]. intros Hv. rewrite sub_char by done.
    destruct (is_bytes && negb (c <? 128)) eqn:Ebb; [done|]. split; [done|]. intros l. apply literal_scalar; try done.
    + intros ->. change DQUOTE with 34 in Eq. by rewrite (starts_with_char n 34) in Eq by (done || lia).
    + intros ->. apply negb_false_iff, Z.ltb_lt in Ebb. done.
Qed.

Lemma lex_quoted_ok start (is_bytes : bool) lx : pending start lx → lx_offset lx = start →
  has_prefix (if is_bytes then [98; DQUOTE] else [DQUOTE]) (drop start text) = true →
  steps start (lex_quoted source limits start is_bytes lx).
Proof using ok.
  intros Hp Ho Hpre. unfold lex_quoted. rewrite Ho. pose proof (pending_boundary _ _ Hp) as Hs.
  set (k := if is_bytes then 2%nat else 1%nat).
  assert (boundary text (start + k) ∧ sub text start (start + k) = if is_bytes then [98; 34] else [34]) as [Hb Epre].
  { destruct is_bytes; split; [ascii_prefix [98; DQUOTE]|exact (sub_prefix _ _ [98; DQUOTE] Hpre)|
                               ascii_prefix [DQUOTE]|exact (sub_prefix _ _ [DQUOTE] Hpre)]. }
  assert (0 < k)%nat as Hk by (destruct is_bytes; cbn; lia).
  destruct (quoted_end_ok (fuel source) is_bytes true _ Hb) as (v & cl & n & -> & Hn & Hle & Hitems); [unfold fuel; lia|].
  cbn [mbind option_bind]. destruct (v && cl) eqn:Ev.
  - apply andb_true_iff in Ev as [-> ->]. destruct (Hitems eq_refl eq_refl) as [_ (body & Eb & Hi)].
    apply emit_ok; [by apply pending_offset|done|done|lia|]. rewrite (sub_app _ _ (start + k)), Epre, Eb by lia.
    destruct is_bytes; [by exists body|left; by exists body].
  - apply error_ok; [by apply pending_offset|done|done|lia].
Qed.

Lemma hashes_prefix hashes l : has_prefix (replicate hashes 35) l = (hashes <=? length l)%nat && forallb (Z.eqb 35) (take hashes l).
Proof.
  revert l. induction hashes as [|h IH]; intros [|b l]; try done. cbn [replicate has_prefix length take forallb]. rewrite IH.
  change (S h <=? S (length l))%nat with (h <=? length l)%nat. by destruct (35 =? b), (h <=? length l)%nat.
Qed.
(** The closing delimiter at an offset, as the code looks for it. *)
Lemma raw_close_at hashes n : (n < length text)%nat →
  has_prefix [DQUOTE] (drop n text) && (n + 1 + hashes <=? length text)%nat && forallb (Z.eqb 35) (take hashes (drop (n + 1) text))
  = has_prefix (raw_close hashes) (drop n text).
Proof.
  intros Hlt. destruct (lookup_lt_is_Some_2 text n Hlt) as [b Eb]. pose proof (drop_S _ _ _ Eb) as E.
  rewrite E. cbn [has_prefix raw_close]. rewrite Nat.add_1_r, hashes_prefix, length_drop, andb_true_r, <- andb_assoc.
  do 2 f_equal. apply eq_true_iff_eq. rewrite !Nat.leb_le. lia.
Qed.

(** A prefix that starts at no offset of a part of the text. *)
Definition absent (p : list Z) (n n' : nat) : Prop :=
  ∀ m, (n <= m)%nat → (m < n')%nat → has_prefix p (drop m text) = false.
Lemma absent_char b0 p n c : boundary text n → (n < length text)%nat → next_char (drop n text) = Some c → b0 < 128 →
  has_prefix (b0 :: p) (drop n text) = false → absent (b0 :: p) n (n + len_utf8 c).
Proof.
  intros Hb Hlt Hn Ha Hnc m H1 H2. destruct (Nat.eq_dec m n) as [->|Hne]; [done|].
  destruct (boundary_char text n Hb Hlt) as (c' & rest & Hs & _ & E). rewrite E, (next_char_encode _ _ Hs) in Hn. injection Hn as ->.
  destruct (utf8_encode_head c Hs) as (b & bs & Ee & _). pose proof (utf8_encode_tail c b bs Hs Ee) as Ht.
  unfold len_utf8 in H2. rewrite Ee in H2. simpl in H2.
  destruct (lookup_lt_is_Some_2 bs (m - n - 1)) as [b' Eb']; [lia|]. rewrite Forall_lookup in Ht. pose proof (Ht _ _ Eb') as Hc%between_spec.
  assert (text !! m = Some b') as Em.
  { replace m with (n + S (m - n - 1))%nat by lia. rewrite <- lookup_drop, E, Ee. cbn. by apply lookup_app_l_Some. }
  rewrite (drop_S _ _ _ Em). cbn [has_prefix]. apply andb_false_iff. left. apply Z.eqb_neq. lia.
Qed.
Lemma absent_app p a b c : absent p a b → absent p b c → absent p a c.
Proof. intros H1 H2 m Ha Hc. destruct (Nat.lt_ge_cases m b); [by apply H1|by apply H2]. Qed.
Lemma absent_nil p n : absent p n n.
Proof. intros m. lia. Qed.
Lemma absent_sub p a b before after : absent p a b → (a <= b)%nat → (b <= length text)%nat → p ≠ [] →
  sub text a b ≠ before ++ p ++ after.
Proof.
  intros Hab Hle Hlen Hp E. assert (has_prefix p (drop (a + length before) text) = true) as Hpre.
  { apply has_prefix_app. exists (after ++ drop b text). apply (drop_split text a _ before); [|done].
    rewrite <- (take_drop (b - a) (drop a text)). unfold sub in E. rewrite E, drop_drop, <- !app_assoc. do 4 f_equal. lia. }
  rewrite (Hab (a + length before)%nat) in Hpre; [done|lia|].
  apply (f_equal length) in E. unfold sub in E. rewrite !length_app, length_take, length_drop in E.
  destruct p; [done|]. simpl in E. lia.
Qed.

Lemma raw_string_end_ok fuel hashes n : boundary text n → (length text < fuel + n)%nat →
  ∃ closed n', raw_string_end source fuel hashes n = Some (closed, n') ∧ boundary text n' ∧ (n <= n')%nat
    ∧ (closed = true → ∃ m, (n <= m)%nat ∧ n' = (m + length (raw_close hashes))%nat
                            ∧ has_prefix (raw_close hashes) (drop m text) = true ∧ absent (raw_close hashes) n m).
Proof.
  revert n. induction fuel as [|fuel IH]; intros n Hb Hf; [destruct Hb; lia|]. cbn [raw_string_end].
  destruct (Nat.ltb_spec n (length text)) as [Hlt|]; [|by eexists _, n].
  rewrite boundary_slice by done. cbn [mbind option_bind]. cbn zeta. rewrite raw_close_at by done.
  assert (length (raw_close hashes) = S hashes) as Hlen by (cbn; by rewrite length_replicate).
  destruct (has_prefix (raw_close hashes) _) eqn:E.
  - replace (n + 1 + hashes)%nat with (n + length (raw_close hashes))%nat by lia. eexists _, _. split_and!; [done| |lia|].
    + apply boundary_prefix; [done|done|]. constructor; [done|]. apply Forall_replicate. lia.
    + intros _. exists n. split_and!; [done|done|done|]. intros m. lia.
  - destruct (after_char_ok n Hb Hlt) as (c & -> & Hn & Hb1). cbn [mbind option_bind]. pose proof (len_utf8_pos c).
    destruct (IH _ Hb1) as (cl & n' & -> & Hn' & Hle & Hcl); [lia|]. eexists _, n'. split_and!; [done|done|lia|].
    intros H1. destruct (Hcl H1) as (m & Hm & -> & Hp & Hnc). exists m. split_and!; [lia|done|done|].
    eapply absent_app; [|exact Hnc]. by apply absent_char.
Qed.

Lemma raw_string_quote_ok n quote : boundary text n → raw_string_quote (drop n text) = Some quote →
  boundary text (n + quote + 1) ∧ (0 < quote)%nat ∧ sub text n (n + quote + 1) = 114 :: replicate (quote - 1) 35 ++ [34].
Proof.
  intros Hb. unfold raw_string_quote. destruct (has_prefix (bytes "r") _) eqn:E; [|done]. cbn [negb].
  destruct (get_is _ _ (Z.eqb DQUOTE)) eqn:Eq; [|done]. cbn [negb]. intros [= <-].
  assert (boundary text (n + 1)) as Hb1 by ascii_prefix (bytes "r").
  apply get_is_inv in Eq as (b & Eb & <-%Z.eqb_eq). rewrite lookup_drop in Eb. rewrite drop_drop in *.
  destruct (count_while_split (Z.eqb 35) (drop (n + 1) text)) as (s & r & Es & El & Hs & _). rewrite <- El in *.
  assert (s = replicate (length s) 35) as Er.
  { clear - Hs. induction Hs as [|x s Hx _ IH]; [done|]. cbn. apply Z.eqb_eq in Hx as <-. by f_equal. }
  assert (boundary text (n + (1 + length s))) as Hb2.
  { rewrite Nat.add_assoc. eapply boundary_ascii; [done|done|]. eapply Forall_impl; [exact Hs|]. intros x <-%Z.eqb_eq. lia. }
  split_and!; [by eapply boundary_byte|lia|]. rewrite (sub_app _ n (n + 1)), (sub_app _ (n + 1) (n + (1 + length s))) by lia.
  change (n + S (length s) + 1)%nat with (n + (1 + length s) + 1)%nat.
  rewrite (sub_prefix _ _ (bytes "r") E : sub text n (n + 1) = _), (sub_byte _ _ _ Eb).
  replace (n + (1 + length s))%nat with (n + 1 + length s)%nat by lia. rewrite (sub_split _ _ s r Es).
  rewrite Nat.sub_succ, Nat.sub_0_r, <- Er. done.
Qed.

Lemma raw_minimal a m hashes before after : (a <= m)%nat → has_prefix (raw_close hashes) (drop m text) = true →
  absent (raw_close hashes) a m → sub text a m ++ raw_close hashes = before ++ raw_close hashes ++ after → after = [].
Proof.
  intros Hle Hpre Hnc E. assert (m + length (raw_close hashes) <= length text)%nat as Hm.
  { apply has_prefix_app in Hpre as [r Er]. apply (f_equal length) in Er. rewrite length_drop, length_app in Er. cbn in *. lia. }
  assert (length (sub text a m) = m - a)%nat as Hl.
  { unfold sub. rewrite length_take, length_drop. lia. }
  pose proof (f_equal length E) as El. rewrite !length_app, Hl in El.
  destruct (Nat.lt_ge_cases (a + length before) m) as [Hlt|Hge]; [|destruct after; [done|simpl in El; lia]].
  exfalso. assert (has_prefix (raw_close hashes) (drop (a + length before) text) = true) as Hp.
  { apply has_prefix_app. exists (after ++ drop (m + length (raw_close hashes)) text).
    apply (drop_split text a _ before); [|done]. rewrite app_assoc, app_assoc, <- (app_assoc before), <- E, <- (sub_prefix _ _ _ Hpre).
    rewrite <- sub_app by lia. unfold sub. rewrite <- (take_drop (m + length (raw_close hashes) - a) (drop a text)) at 1.
    rewrite drop_drop. do 2 f_equal. rewrite length_take, length_drop. lia. }
  by rewrite (Hnc (a + length before)%nat) in Hp by lia.
Qed.

Lemma lex_raw_string_ok start quote lx : pending start lx → raw_string_quote (drop start text) = Some quote →
  steps start (lex_raw_string source limits start quote lx).
Proof using ok.
  intros Hp Hq. pose proof (pending_boundary _ _ Hp) as Hs. destruct (raw_string_quote_ok _ _ Hs Hq) as (Hb & Hpos & Eq).
  unfold lex_raw_string. cbn zeta. destruct (Nat.ltb_spec 16 (quote - 1)) as [|H16].
  - apply error_ok; [by apply pending_offset|done|done|lia].
  - destruct (raw_string_end_ok (fuel source) (quote - 1) _ Hb) as (cl & n & -> & Hn & Hle & Hcl); [unfold fuel; lia|].
    cbn [mbind option_bind]. destruct cl.
    + destruct (Hcl eq_refl) as (m & Hm & En & Hpre & Hnc). apply emit_ok; [by apply pending_offset|done|done|lia|].
      right. exists (quote - 1)%nat, (sub text (start + quote + 1) m). split_and!; [done| |].
      * rewrite (sub_app _ _ (start + quote + 1)), Eq, (sub_app _ _ m), En, sub_prefix by (done || lia).
        cbn [app]. by rewrite <- app_assoc.
      * intros before after E. by eapply (raw_minimal (start + quote + 1) m).
    + edestruct (diagnostic_ok "S0004") as (r & lx' & -> & Hp' & Ho & _); [by apply pending_offset|exact Hs|exact Hb|lia|].
      cbn [mbind option_bind]. apply emit_ok; [done|done|done|lia|done].
Qed.

(** ** Numbers and identifiers *)

Lemma digit_range b : is_ascii_digit b = true → 48 <= b <= 57.
Proof. apply between_spec. Qed.

(** The bytes of a digit sequence: valid ones after no digit are digit groups, after a
    digit they may begin with a separator. *)
Lemma consume_digits_split l previous : let '(n, has, valid) := consume_digits l previous in
  ∃ s r, l = s ++ r ∧ length s = n ∧ Forall (λ b, b < 128) s ∧ match r with b :: _ => is_ascii_digit b = false | [] => True end
         ∧ (valid = true → has = bool_decide (s ≠ [])
            ∧ (s = [] ∨ digit_groups s ∨ previous = true ∧ ∃ s', s = 95 :: s' ∧ digit_groups s')).
Proof.
  revert previous. induction l as [|b l IH]; intros previous; cbn [consume_digits].
  { exists [], []. split_and!; [done..|]. intros _. split; [done|by left]. }
  destruct (is_ascii_digit b) eqn:Ed.
  - specialize (IH true). destruct (consume_digits l true) as [[n h] v]. destruct IH as (s & r & -> & <- & Hs & Hr & Hv).
    pose proof (digit_range _ Ed). exists (b :: s), r. split_and!; [done|done|constructor; [lia|done]|done|]. intros Hvalid.
    split; [done|]. right. left. destruct (Hv Hvalid) as [_ [->|[Hg|(_ & s' & -> & Hg)]]]; by constructor.
  - destruct (Z.eqb_spec b 95) as [->|].
    2: { exists [], (b :: l). split_and!; [done..|]. intros _. split; [done|by left]. }
    specialize (IH false). destruct (consume_digits l false) as [[n h] v]. destruct IH as (s & r & -> & <- & Hs & Hr & Hv).
    exists (95 :: s), r. split_and!; [done|done|by constructor|done|]. intros [[-> Hd]%andb_true_iff Hvalid]%andb_true_iff.
    destruct (Hv Hvalid) as [-> [->|[Hg|[? _]]]]; [| |done].
    + exfalso. apply get_is_inv in Hd as (d & Ed' & Hdig). destruct r as [|d' r]; [done|]. injection Ed' as ->. congruence.
    + split; [|right; right; by eauto]. rewrite !bool_decide_eq_true_2; [done..|]. by destruct Hg.
Qed.
Lemma digits_at_ok n : boundary text n → let '(n', has, valid) := digits_at source n in
  boundary text n' ∧ (n <= n')%nat ∧ (valid = true → has = true ∨ (n < n')%nat → digit_groups (sub text n n')).
Proof.
  intros Hb. unfold digits_at. pose proof (consume_digits_split (drop n text) false) as H.
  destruct (consume_digits _ _) as [[k has] valid]. destruct H as (s & r & E & <- & Hs & _ & Hv).
  split_and!; [by eapply boundary_ascii|lia|]. intros Hvalid Hsome. rewrite (sub_split _ _ _ _ E).
  destruct (Hv Hvalid) as [-> [->|[Hg|[? _]]]]; [|done..]. destruct Hsome as [H|H]; [done|simpl in H; lia].
Qed.
Lemma boundary_get_at n p : boundary text n → get_is text n p = true → (∀ b, p b = true → b < 128) → boundary text (n + 1).
Proof. intros Hb (b & E & Hp)%get_is_inv Ha. eapply boundary_byte; [done|done|by apply Ha]. Qed.
Lemma exponent_at_ok n : boundary text n → let '(n', bad) := exponent_at source n in
  boundary text n' ∧ (n <= n')%nat ∧ (bad = false → sub text n n' = [] ∨ exponent (sub text n n')).
Proof.
  intros Hb. unfold exponent_at. destruct (get_is text n _) eqn:E; [|split_and!; [done|done|left; apply sub_nil]].
  assert (boundary text (n + 1)) as Hb1.
  { eapply boundary_get_at; [done|exact E|]. intros b [->%Z.eqb_eq| ->%Z.eqb_eq]%orb_true_iff; lia. }
  apply get_is_inv in E as (mark & Em & Hmark). cbn zeta.
  match goal with |- context [digits_at source ?x] => set (m := x) end.
  assert (boundary text m ∧ (n + 1 <= m)%nat ∧ (sub text (n + 1) m = [] ∨ sub text (n + 1) m = [43] ∨ sub text (n + 1) m = [45]))
    as (Hm & Hle & Hsign).
  { unfold m. destruct (get_is text (n + 1) _) eqn:E2; [|split_and!; [done|lia|left; apply sub_nil]]. split_and!; [|lia|].
    - eapply boundary_get_at; [done|exact E2|]. intros b [->%Z.eqb_eq| ->%Z.eqb_eq]%orb_true_iff; lia.
    - apply get_is_inv in E2 as (sign & Es & Hsign). rewrite (sub_byte _ _ _ Es).
      apply orb_true_iff in Hsign as [->%Z.eqb_eq| ->%Z.eqb_eq]; auto. }
  pose proof (digits_at_ok m Hm) as Hd. destruct (digits_at source m) as [[n' has] valid]. destruct Hd as (Hb' & Hle' & Hg).
  split_and!; [done|lia|]. intros [H1%negb_false_iff H2%negb_false_iff]%orb_false_iff. right.
  exists mark, (sub text (n + 1) m), (sub text m n'). split_and!; [| |done|by auto].
  - rewrite (sub_app _ n (n + 1)), (sub_app _ (n + 1) m), (sub_byte _ _ _ Em) by lia. done.
  - apply orb_true_iff in Hmark as [->%Z.eqb_eq| ->%Z.eqb_eq]; auto.
Qed.

Lemma starts_number_consumes n : starts_number (drop n text) = true → (n < (digits_at source n).1.1)%nat.
Proof.
  unfold starts_number, digits_at. destruct (drop n text) as [|b l]; [done|]. cbn [get_is lookup list_lookup consume_digits].
  destruct (is_ascii_digit b).
  - destruct (consume_digits l true) as [[k h] v]. cbn. lia.
  - cbn [orb]. intros [H _]%andb_true_iff. cbn in H. rewrite andb_true_r in H. apply Z.eqb_eq in H as <-.
    rewrite Z.eqb_refl. destruct (consume_digits l false) as [[k h] v]. cbn. lia.
Qed.

Lemma lex_number_ok lx : pending (lx_offset lx) lx → starts_number (drop (lx_offset lx) text) = true →
  steps (lx_offset lx) (lex_number source limits lx).
Proof using ok.
  intros Hp Hn%starts_number_consumes. pose proof (pending_boundary _ _ Hp) as Hb. unfold lex_number.
  pose proof (digits_at_ok _ Hb) as Hd. destruct (digits_at source (lx_offset lx)) as [[n h] v]. cbn in Hn. destruct Hd as (Hd & _ & Hg).
  rewrite boundary_slice by done. cbn [mbind option_bind].
  match goal with |- context [let '(_, _) := ?e in _] => assert (let '(finish, float, malformed) := e in
    boundary text finish ∧ (n <= finish)%nat
    ∧ (malformed = false → if (float : bool) then float_literal (sub text (lx_offset lx) finish) else digit_groups (sub text (lx_offset lx) finish))) as He end.
  { destruct (_ && _) eqn:E.
    2: { split_and!; [done|done|]. intros Hv%negb_false_iff. by auto. }
    apply andb_true_iff in E as [E _]. assert (boundary text (n + 1)) as Hb1 by ascii_prefix (bytes ".").
    pose proof (digits_at_ok _ Hb1) as Hf. destruct (digits_at source (n + 1)) as [[m h'] v']. destruct Hf as (Hf & Hle1 & Hg1).
    pose proof (exponent_at_ok m Hf) as Hx. destruct (exponent_at source m) as [f bad]. destruct Hx as (Hx & Hle2 & Hexp).
    split_and!; [done|lia|]. rewrite !orb_false_iff, !negb_false_iff. intros [[[H1 H2] H3] H4].
    exists (sub text (lx_offset lx) n), (sub text (n + 1) m), (sub text m f). split_and!; [|by auto..].
    rewrite (sub_app _ _ n), (sub_app _ n (n + 1)), (sub_app _ (n + 1) m) by lia.
    by rewrite (sub_prefix _ _ (bytes ".") E : sub text n (n + 1) = _). }
  match goal with |- context [let '(_, _) := ?e in _] => destruct e as [[finish float] malformed] end. destruct He as (Hf & Hle & Hsp).
  destruct malformed; [apply error_ok; [by apply pending_offset|done|done|lia]|].
  destruct float; (apply emit_ok; [by apply pending_offset|done|done|lia|by apply Hsp]).
Qed.

Lemma ident_ascii b : is_ident_continue b = true → b < 128.
Proof.
  unfold is_ident_continue, is_ascii_alphanumeric, is_ascii_alphabetic, is_ascii_lowercase, is_ascii_uppercase, is_ascii_digit.
  rewrite !orb_true_iff, !between_spec, Z.eqb_eq. lia.
Qed.
(** The kinds of keywords and operators. *)
Definition fixed_kind (kind : SyntaxKind) : bool :=
  match kind with
  | SkErrorToken | SkEof | SkWhitespace | SkNewline | SkLineComment | SkBlockComment | SkIntLiteral | SkFloatLiteral
  | SkStringLiteral | SkBytesLiteral | SkIdent | SkBacktick | SkMultilineStringDelimiter | SkTemplateExprStart
  | SkTemplateEscape | SkTemplateTextScalar => false
  | _ => true
  end.
Lemma fixed_spells l kind : (l, kind) ∈ keywords ++ OPERATORS → spells kind l.
Proof.
  intros Hin. assert (fixed_kind kind = true) as Hf.
  { assert (forallb (λ entry, fixed_kind entry.2) (keywords ++ OPERATORS) = true) as Ha by reflexivity.
    rewrite forallb_forall in Ha. by apply (Ha (l, kind)), list_elem_of_In. }
  by destruct kind.
Qed.
Lemma keyword_spells word : identifier word → spells (default SkIdent (keyword_kind word)) word.
Proof.
  intros Hid. unfold keyword_kind. destruct (List.find _ keywords) as [[w k]|] eqn:E; cbn [fmap option_fmap option_map default snd].
  - apply find_some in E as [Hin Heq]. apply bool_decide_eq_true in Heq. cbn in Heq. subst w.
    apply fixed_spells, elem_of_app. left. by apply list_elem_of_In.
  - split; [done|]. intros kind Hin%list_elem_of_In. apply (find_none _ _ E) in Hin. cbn in Hin.
    unfold bytes_eqb in Hin. by rewrite bool_decide_eq_true_2 in Hin.
Qed.
Lemma slice_ok a b : boundary text a → boundary text b → (a <= b)%nat → slice text a b = Some (take (b - a) (drop a text)).
Proof. intros Ha Hb Hle. unfold slice. by rewrite (proj2 (Nat.leb_le a b) Hle), !boundary_ok. Qed.

Lemma lex_identifier_ok lx first : pending (lx_offset lx) lx → drop (lx_offset lx) text !! 0%nat = Some first →
  is_ident_start first = true →
  steps (lx_offset lx) (lex_identifier source limits lx).
Proof using ok.
  intros Hp Hf Hstart. pose proof (pending_boundary _ _ Hp) as Hb. unfold lex_identifier. cbn zeta.
  rewrite lookup_drop, Nat.add_0_r in Hf.
  assert (first < 128) as Hlt.
  { apply ident_ascii. unfold is_ident_start in Hstart. unfold is_ident_continue, is_ascii_alphanumeric.
    apply orb_true_iff in Hstart as [->| ->]; [done|by rewrite orb_true_r]. }
  assert (boundary text (lx_offset lx + 1)) as Hb1 by (by eapply boundary_byte).
  pose proof (boundary_count_while text is_ident_continue _ Hb1 ident_ascii) as He.
  rewrite slice_ok by (done || lia). cbn [mbind option_bind].
  apply emit_ok; [by apply pending_offset|done|done|lia|]. apply keyword_spells.
  destruct (count_while_split is_ident_continue (drop (lx_offset lx + 1) text)) as (s & r & Es & El & Hs & _). rewrite <- El.
  rewrite (sub_app _ _ (lx_offset lx + 1)), (sub_byte _ _ _ Hf), (sub_split _ _ _ _ Es) by lia. done.
Qed.

(** ** Templates *)

Lemma starts_line_ok n : boundary text n → ∃ b, multiline_delimiter_starts_line source n = Some b.
Proof using ok.
  intros Hb. unfold multiline_delimiter_starts_line. destruct ok as [Hu _].
  rewrite (slice_ok 0 n) by (done || by apply boundary_start || lia). cbn [mbind option_bind]. rewrite drop_0, Nat.sub_0_r.
  destruct (count_while_split (λ b, negb (is_newline b)) (reverse (take n text))) as (s & r & E & <- & _ & Hr).
  assert (take n text = reverse r ++ reverse s) as E' by (by rewrite <- (reverse_involutive (take n text)), E, reverse_app).
  assert (length r + length s = n)%nat as Hl.
  { apply (f_equal length) in E'. rewrite length_take, length_app, !length_reverse in E'. destruct Hb. lia. }
  assert (boundary text (n - length s)) as Hm.
  { replace (n - length s)%nat with (length r) by lia. destruct r as [|b r]; [by apply boundary_start|].
    replace (length (b :: r)) with (length (reverse r) + 1)%nat by (rewrite length_reverse; simpl; lia).
    apply (boundary_after_ascii text _ b (reverse s ++ drop n text)); [done| |].
    - rewrite <- (take_drop n text) at 1. by rewrite E', reverse_cons, <- !app_assoc.
    - unfold is_newline in Hr. apply negb_false_iff, orb_true_iff in Hr as [->%Z.eqb_eq| ->%Z.eqb_eq]; lia. }
  rewrite slice_ok by (done || lia). cbn [mbind option_bind]. eauto.
Qed.

Lemma closes_template_ok delimiter n : boundary text n →
  ∃ b, closes_template source delimiter (drop n text) n = Some b ∧ (b = true → boundary text (n + delimiter_len delimiter)).
Proof using ok.
  intros Hb. destruct delimiter; cbn [closes_template delimiter_len].
  - eexists. split; [done|]. intros Hc. by apply (boundary_prefix _ _ (bytes "`")); [..|repeat constructor].
  - destruct (has_prefix TRIPLE_QUOTE _) eqn:E; [|by exists false]. destruct (starts_line_ok n Hb) as [b ->]. exists b.
    split; [done|]. intros _. by apply (boundary_prefix _ _ TRIPLE_QUOTE); [..|repeat constructor].
Qed.

Lemma template_text_end_ok fuel delimiter n : boundary text n → (length text < fuel + n)%nat →
  ∃ n', template_text_end source fuel delimiter n = Some n' ∧ boundary text n' ∧ (n <= n')%nat
        ∧ absent (bytes "${") n n' ∧ absent (bytes "\") n n'
        ∧ ((n < length text)%nat → closes_template source delimiter (drop n text) n = Some false →
           has_prefix (bytes "${") (drop n text) = false → has_prefix (bytes "\") (drop n text) = false →
           (∀ c, next_char (drop n text) = Some c → bool_decide (delimiter = Backtick) && is_control c = false) →
           (n < n')%nat).
Proof using ok.
  revert n. induction fuel as [|fuel IH]; intros n Hb Hf; [destruct Hb; lia|]. cbn [template_text_end].
  assert (boundary text n ∧ (n <= n)%nat ∧ absent (bytes "${") n n ∧ absent (bytes "\") n n) as Hstay
    by (split_and!; [done|done|apply absent_nil..]).
  destruct (Nat.ltb_spec n (length text)) as [Hlt|]; [|exists n; split_and!; [done|apply Hstay..|lia]].
  rewrite boundary_slice by done. cbn [mbind option_bind].
  destruct (closes_template_ok delimiter n Hb) as (closes & -> & _). cbn [mbind option_bind].
  destruct (closes || _ || _) eqn:E.
  { exists n. split_and!; [done|apply Hstay..|]. intros _ [= ->] H1 H2. by rewrite H1, H2 in E. }
  destruct (boundary_next text n Hb Hlt) as (c & _ & Hc & Hb'). rewrite Hc. cbn [mbind option_bind]. pose proof (len_utf8_pos c).
  destruct (_ && is_control c) eqn:Ec.
  { exists n. split_and!; [done|apply Hstay..|]. intros _ _ _ _ Hctl. by rewrite (Hctl c eq_refl) in Ec. }
  destruct (IH _ Hb') as (n' & -> & Hn' & Hle & Ha1 & Ha2 & _); [lia|]. exists n'.
  apply orb_false_iff in E as [E E2]. apply orb_false_iff in E as [_ E1].
  split_and!; [done|done|lia| | |lia]; (eapply absent_app; [|done]); by apply absent_char.
Qed.

Lemma tail_modes_ok start lx : pending start lx → Forall mode_ok (tail (lx_modes lx)).
Proof. intros [[_ _ _ _ Hm _] _]. destruct Hm; [done|]. done. Qed.

Lemma lex_template_segment_ok delimiter lx : pending (lx_offset lx) lx → (lx_offset lx < length text)%nat →
  steps (lx_offset lx) (lex_template_segment source limits delimiter lx).
Proof using ok.
  intros Hp Hlt. pose proof (pending_boundary _ _ Hp) as Hb. unfold lex_template_segment. cbn zeta.
  rewrite boundary_slice by done. cbn [mbind option_bind].
  destruct (closes_template_ok delimiter _ Hb) as (closes & Ecl & Hcl). rewrite Ecl. cbn [mbind option_bind].
  destruct closes.
  { apply emit_ok; [|done|by apply Hcl|destruct delimiter; simpl; lia|].
    - apply pending_modes; [by apply pending_offset|by eapply tail_modes_ok].
    - destruct delimiter; cbn [closes_template delimiter_len] in *; [injection Ecl as Ecl; by apply (sub_prefix _ _ (bytes "`"))|].
      destruct (has_prefix TRIPLE_QUOTE _) eqn:E; [|done]. by apply (sub_prefix _ _ TRIPLE_QUOTE). }
  destruct (has_prefix (bytes "${") _) eqn:E1.
  { assert (boundary text (lx_offset lx + 2)) as Hb2 by (by apply (boundary_prefix _ _ (bytes "${")); [..|repeat constructor]).
    apply pushed_ok; [by apply pending_offset|done|done|lia|by apply (sub_prefix _ _ (bytes "${"))|done]. }
  destruct (has_prefix (bytes "\") _) eqn:E2.
  { destruct (template_escape_len _) as [k|] eqn:Ek.
    - destruct (template_escape_ok _ _ Hb E2 Ek) as (? & ? & ?). apply emit_ok; [by apply pending_offset|done|done|lia|done].
    - destruct (invalid_escape_ok _ Hb E2). apply error_ok; [by apply pending_offset|done|done|lia]. }
  destruct (boundary_next text _ Hb Hlt) as (c & _ & Hc & Hb'). rewrite Hc. cbn [mbind option_bind]. pose proof (len_utf8_pos c).
  destruct (_ && is_control c) eqn:Ec; [apply error_ok; [by apply pending_offset|done|done|lia]|].
  destruct (template_text_end_ok (fuel source) delimiter _ Hb) as (n & -> & Hn & Hle & Ha1 & Ha2 & Hpr); [unfold fuel; lia|].
  assert (lx_offset lx < n)%nat as Hgt.
  { apply Hpr; try done. intros c' Hc'. rewrite Hc in Hc'. by injection Hc' as <-. }
  cbn [mbind option_bind]. apply emit_ok; [by apply pending_offset|done|done|done|]. destruct Hn as [Hlen _]. split_and!.
  - intros E%(f_equal length). unfold sub in E. rewrite length_take, length_drop in E. simpl in E. lia.
  - intros (l1 & l2 & E)%list_elem_of_split. by apply (absent_sub (bytes "\") _ n l1 l2 Ha2 Hle Hlen).
  - intros before after. by apply absent_sub.
Qed.

(** ** The loop *)

Lemma lex_multiline_start_ok start lx : pending start lx → lx_offset lx = start → has_prefix TRIPLE_QUOTE (drop start text) = true →
  steps start (lex_multiline_start source limits start lx).
Proof using ok.
  intros Hp Ho Hpre. pose proof (pending_boundary _ _ Hp) as Hs. assert (boundary text (start + 3)) as Hb by ascii_prefix TRIPLE_QUOTE.
  unfold lex_multiline_start. cbn zeta. rewrite Ho. destruct (negb _).
  - apply error_ok; [by apply pending_offset|done|done|lia].
  - apply pushed_ok; [by apply pending_offset|done|done|lia|by apply (sub_prefix _ _ TRIPLE_QUOTE)|done].
Qed.
Lemma brace_spells start kind l : (l, kind) ∈ keywords ++ OPERATORS → has_prefix l (drop start text) = true → length l = 1%nat →
  spells kind (sub text start (start + 1)).
Proof. intros Hin Hpre Hl. rewrite <- Hl, sub_prefix by done. by apply fixed_spells. Qed.
Lemma close_ok start lx : pending start lx → lx_offset lx = (start + 1)%nat → has_prefix (bytes "}") (drop start text) = true →
  steps start (close_interpolation_or_brace source limits start lx).
Proof using ok.
  intros Hp Ho Hpre. pose proof (pending_boundary _ _ Hp) as Hs. assert (boundary text (start + 1)) as Hb by ascii_prefix (bytes "}").
  assert (spells SkRBrace (sub text start (start + 1))) as Hsp.
  { apply (brace_spells _ _ (bytes "}")); [|done|done]. by apply (list_elem_of_lookup_2 _ 54). }
  unfold close_interpolation_or_brace. rewrite Ho.
  destruct (lx_modes lx) as [|[| |opener [|depth]] modes] eqn:E; apply emit_ok; try done; try lia.
  all: apply pending_modes; [done|]; destruct Hp as [[_ _ _ _ Hm _] _]; rewrite E in Hm; apply Forall_cons in Hm as [Hm Hms]; done || by constructor.
Qed.
Lemma increment_ok start lx : pending start lx → lx_offset lx = (start + 1)%nat → has_prefix (bytes "{") (drop start text) = true →
  steps start ('(opened, lx) ← increment_interpolation_brace source limits start lx;
               if (opened : bool) then emit source limits SkLBrace start (start + 1) lx else Some lx).
Proof using ok.
  intros Hp Ho Hpre. pose proof (pending_boundary _ _ Hp) as Hs. assert (boundary text (start + 1)) as Hb by ascii_prefix (bytes "{").
  assert (spells SkLBrace (sub text start (start + 1))) as Hsp.
  { apply (brace_spells _ _ (bytes "{")); [|done|done]. by apply (list_elem_of_lookup_2 _ 53). }
  unfold increment_interpolation_brace.
  destruct (lx_modes lx) as [|[| |opener depth] modes] eqn:E; try (cbn [mbind option_bind]; apply emit_ok; done || lia).
  destruct (_ <=? _).
  - destruct (limit_at_ok start lx Hp) as (lx' & -> & Hg & Hs'); [destruct Hb; lia|]. by exists lx'.
  - cbn [mbind option_bind]. apply emit_ok; try done; [|lia].
    apply pending_modes; [done|]; destruct Hp as [[_ _ _ _ Hm _] _]; rewrite E in Hm. inversion Hm; subst. by constructor.
Qed.
Lemma operator_ok rest spelling kind : lex_operator rest = Some (spelling, kind) →
  has_prefix spelling rest = true ∧ Forall (λ b, b < 128) spelling ∧ (0 < length spelling)%nat ∧ spells kind spelling.
Proof.
  unfold lex_operator. intros [Hin Hp]%find_some. split; [done|].
  assert (Forall (λ entry : list Z * SyntaxKind, Forall (λ b, b < 128) entry.1 ∧ (0 < length entry.1)%nat) OPERATORS) as Ho.
  { repeat (constructor; [split; [repeat constructor|simpl; lia]|]). constructor. }
  rewrite Forall_forall in Ho. apply list_elem_of_In in Hin. destruct (Ho (spelling, kind) Hin). split_and!; [done|done|].
  apply fixed_spells, elem_of_app. by right.
Qed.

Lemma lex_normal_ok lx : pending (lx_offset lx) lx → (lx_offset lx < length text)%nat →
  steps (lx_offset lx) (lex_normal source limits lx).
Proof using ok.
  intros Hp Hlt. pose proof (pending_boundary _ _ Hp) as Hb. unfold lex_normal, emit_to. cbn zeta.
  rewrite boundary_slice by done. cbn [mbind option_bind].
  assert (∀ n, pending (lx_offset lx) (set_offset n lx)) as Hset by (intros n; by apply pending_offset).
  destruct (has_prefix (bytes " ") _ || _) eqn:E.
  { assert (0 < count_while is_space (drop (lx_offset lx) text))%nat as Hpos.
    { destruct (drop _ _) as [|b l]; [done|]. cbn [count_while]. assert (is_space b = true) as ->; [|lia].
      unfold is_space. apply orb_true_iff in E. cbn in E. rewrite !andb_true_r in E. apply orb_true_iff. by rewrite !(Z.eqb_sym b). }
    destruct (count_while_split is_space (drop (lx_offset lx) text)) as (s & r & Es & El & Hs & _). rewrite <- El in *.
    apply emit_ok; [done|done| |lia|].
    - eapply boundary_ascii; [done|done|]. eapply Forall_impl; [exact Hs|]. intros b. unfold is_space. rewrite orb_true_iff, !Z.eqb_eq. lia.
    - rewrite (sub_split _ _ _ _ Es). split; [|done]. destruct s; [simpl in Hpos; lia|done]. }
  destruct (has_prefix [13; 10] _) eqn:E1.
  { apply emit_ok; [done|done|ascii_prefix [13; 10]|lia|]. right. right. by apply (sub_prefix _ _ [13; 10]). }
  destruct (has_prefix [13] _ || _) eqn:E2.
  { apply orb_true_iff in E2 as [E2|E2].
    - apply emit_ok; [done|done|ascii_prefix [13]|lia|]. right. left. by apply (sub_prefix _ _ [13]).
    - apply emit_ok; [done|done|ascii_prefix [10]|lia|]. left. by apply (sub_prefix _ _ [10]). }
  destruct (has_prefix (bytes "//") _) eqn:E3; [by apply lex_line_comment_ok|].
  destruct (has_prefix (bytes "/*") _) eqn:E4; [by apply lex_block_comment_ok|].
  destruct (raw_string_quote _) as [quote|] eqn:E5; [by apply lex_raw_string_ok|].
  destruct (has_prefix [98; DQUOTE] _) eqn:E6; [by apply lex_quoted_ok|].
  destruct (has_prefix TRIPLE_QUOTE _) eqn:E7; [by apply lex_multiline_start_ok|].
  destruct (has_prefix [DQUOTE] _) eqn:E8; [by apply lex_quoted_ok|].
  destruct (in_interpolation lx && _) eqn:E9.
  { apply andb_true_iff in E9 as [_ E9]. by apply close_ok. }
  destruct (has_prefix (bytes "{") _) eqn:E10; [by apply increment_ok|].
  destruct (has_prefix (bytes "`") _) eqn:E11.
  { assert (boundary text (lx_offset lx + 1)) by ascii_prefix (bytes "`").
    apply pushed_ok; [done|done|done|lia|by apply (sub_prefix _ _ (bytes "`"))|done]. }
  destruct (drop (lx_offset lx) text !! 0%nat) as [first|] eqn:Ef.
  2: { rewrite lookup_drop in Ef. apply lookup_ge_None in Ef. lia. }
  cbn [mbind option_bind]. destruct (starts_number _) eqn:En; [by apply lex_number_ok|].
  destruct (is_ident_start first) eqn:Ei; [by eapply lex_identifier_ok|].
  destruct (lex_operator _) as [[spelling kind]|] eqn:Eo.
  { destruct (operator_ok _ _ _ Eo) as (Hpre & Ha & Hpos & Hk). apply emit_ok; [done|done| |lia|].
    - by apply boundary_prefix.
    - by rewrite sub_prefix. }
  destruct (boundary_next text _ Hb Hlt) as (c & _ & -> & Hb'). pose proof (len_utf8_pos c).
  apply error_ok; [done|done|done|lia].
Qed.

Lemma lex_step_ok lx : good lx → lx_terminated lx = false → (lx_offset lx < length text)%nat →
  steps (lx_offset lx) (lex_step source limits lx).
Proof using ok.
  intros [Hs _] Ht Hlt. assert (pending (lx_offset lx) lx) as Hp by done. unfold lex_step.
  destruct (lx_modes lx) as [|[| |]]; [by apply lex_normal_ok..|by apply lex_template_segment_ok|by apply lex_normal_ok].
Qed.

Lemma lex_loop_ok fuel lx : good lx → (length text < fuel + lx_offset lx)%nat →
  ∃ lx', lex_loop source limits fuel lx = Some lx' ∧ good lx' ∧ lx_offset lx' = length text.
Proof using ok.
  revert lx. induction fuel as [|fuel IH]; intros lx Hg Hf; [destruct Hg as [[_ [Hb _] _ _ _ _] _]; lia|]. cbn [lex_loop].
  destruct (lx_terminated lx) eqn:Et; cbn [negb andb].
  { exists lx. split_and!; [done|done|]. by apply Hg. }
  destruct (Nat.ltb_spec (lx_offset lx) (length text)) as [Hlt|Hge].
  - destruct (lex_step_ok lx Hg Et Hlt) as (lx1 & -> & Hg1 & Hlt1). cbn [mbind option_bind]. apply IH; [done|lia].
  - exists lx. split_and!; [done|done|]. destruct Hg as [[_ [Hb _] _ _ _ _] _]. lia.
Qed.

Lemma finish_modes_ok lx : good lx → lx_offset lx = length text →
  ∃ lx', finish_modes source limits lx = Some lx' ∧ sound (length text) lx' ∧ lx_tokens lx' = lx_tokens lx.
Proof using ok.
  intros [Hs _] Ho. rewrite Ho in Hs. unfold finish_modes. destruct (lx_terminated lx) eqn:Et; [by exists lx|].
  assert (∀ code message a b, boundary text a → boundary text b → (a <= b)%nat →
    ∃ lx', snd <$> diagnostic source limits code message a b lx = Some lx' ∧ sound (length text) lx' ∧ lx_tokens lx' = lx_tokens lx) as Hd.
  { intros code message a b Ha Hb Hle. destruct (diagnostic_ok code message a b (length text) lx) as (r & lx' & E & [Hs' _] & _); [done..|].
    rewrite E. exists lx'. split_and!; [done|done|]. unfold diagnostic in E. destruct (_ <=? _); [by injection E as <- <-|].
    destruct (expect _); [|done]. by injection E as <- <-. }
  pose proof (sound_modes _ _ Hs) as Hm.
  destruct (lx_modes lx) as [|[|opener delimiter|opener depth] modes]; [by exists lx..| |];
    apply Forall_cons in Hm as [[H1 H2] _]; apply Hd; done || lia.
Qed.

(** ** Losslessness *)

Lemma tiles_text start tokens finish : tiles source start tokens finish →
  (start <= finish)%nat ∧ List.filter (λ t, negb (is_eof t)) tokens = tokens
  ∧ ∃ texts, mapM (λ token, LexToken_text token source) tokens = Some texts
             ∧ concat texts = take (finish - start) (drop start text).
Proof.
  induction 1 as [n|start token tokens finish Hid Hk Hst Hlt Hb He Ht (Hle & Hf & texts & Hm & Hc)].
  { split_and!; [done|done|]. exists []. by rewrite Nat.sub_diag. }
  split; [lia|]. split.
  { cbn [List.filter]. rewrite Hf. unfold is_eof. by rewrite bool_decide_eq_false_2. }
  assert (LexToken_text token source = Some (take (tr_end (lt_range token) - start) (drop start text))) as Htext.
  { unfold LexToken_text, text_at. rewrite Hid, Z.eqb_refl, Hst. apply slice_ok; done || lia. }
  exists (take (tr_end (lt_range token) - start) (drop start text) :: texts). split.
  { apply mapM_Some. constructor; [done|]. by apply mapM_Some. } cbn [concat]. rewrite Hc.
  replace (finish - start)%nat with (tr_end (lt_range token) - start + (finish - tr_end (lt_range token)))%nat by lia.
  rewrite <- take_take_drop. f_equal. rewrite drop_drop. repeat f_equal; lia.
Qed.

Definition eof_token : LexToken :=
  {| lt_source := sf_id source; lt_kind := SkEof; lt_range := {| tr_start := length text; tr_end := length text |} |}.

Lemma run_ok : ∃ tokens diagnostics,
  run source limits = Some {| lexed_tokens := tokens ++ [eof_token]; lexed_diagnostics := diagnostics |}
  ∧ tiles source 0 tokens (length text) ∧ len tokens <= capacity
  ∧ len diagnostics <= Z.max (lim_diagnostics limits) 0 ∧ Forall (points_into source) diagnostics
  ∧ Forall (spelled source) tokens.
Proof using ok.
  unfold run. assert (good Lexer_new) as Hnew.
  { split; [|done]. constructor; cbn; [constructor|apply boundary_start, ok| | |by repeat constructor|constructor].
    - unfold source_token_capacity, len. simpl. lia.
    - split; [unfold len; simpl; lia|constructor]. }
  assert (∃ lx, (if lim_source_bytes limits <? len text then limit_at source limits 0 Lexer_new else Some Lexer_new) = Some lx ∧ good lx)
    as (lx0 & -> & Hg0).
  { destruct (_ <? _); [|by eauto]. destruct (Nat.lt_ge_cases 0 (length text)) as [Hlt|Hge].
    - destruct (limit_at_ok 0 Lexer_new) as (lx & E & Hg & _); [split; [exact (proj1 Hnew)|done]|done|eauto].
    - eexists. unfold limit_at. cbn [lx_terminated Lexer_new]. rewrite (proj2 (Nat.ltb_ge 0 _)) by lia. split; [done|].
      destruct Hnew as [[Ht Hm [Hs _] Hd Hmo Hsp] _]. assert (length text = 0%nat) as E0 by lia. split; [|done].
      constructor; [cbn; rewrite E0; constructor|apply boundary_end|split; [exact Hs|lia]|exact Hd|exact Hmo|exact Hsp]. }
  cbn [mbind option_bind]. destruct (lex_loop_ok (fuel source) lx0 Hg0) as (lx1 & -> & Hg1 & Ho1); [unfold fuel; lia|].
  cbn [mbind option_bind]. destruct (finish_modes_ok lx1 Hg1 Ho1) as (lx2 & -> & [Ht _ [Hc _] [Hd Hf] _ Hsp] & _).
  cbn [mbind option_bind]. unfold push_eof, lex_token. rewrite range_ok by (apply boundary_end || lia). cbn [expect mbind option_bind].
  rewrite (proj2 (Z.ltb_lt (len (lx_tokens lx2)) _)) by (unfold source_token_capacity in Hc; lia). cbn [negb mbind option_bind].
  eexists _, _. split_and!; done.
Qed.
End Lexing.

(** C24. Lexing is lossless and total: on every source file and with every limits the
    lexer answers without a panic; its tokens cover the text one after the other, each
    of at least one byte and cut at characters, with an empty end-of-file token last;
    their texts concatenate to the source; there are at most as many tokens and
    diagnostics as the limits allow, and every diagnostic points into the source. *)
Theorem lexing_lossless (source : SourceFile) (limits : SyntaxLimits) :
  source_ok source →
  ∃ lexed tokens, lex_with_limits source limits = Some lexed
    ∧ lexed_tokens lexed = tokens ++ [eof_token source]
    ∧ tiles source 0 tokens (length (sf_text source))
    ∧ round_trip lexed source = Some (sf_text source)
    ∧ len (lexed_tokens lexed) <= Z.max (lim_tokens limits) 2
    ∧ len (lexed_diagnostics lexed) <= Z.max (lim_diagnostics limits) 0
    ∧ Forall (points_into source) (lexed_diagnostics lexed).
Proof.
  intros ok. destruct (run_ok source limits ok) as (tokens & diagnostics & E & Ht & Hc & Hd & Hf & _).
  eexists _, tokens. split; [exact E|]. cbn [lexed_tokens lexed_diagnostics]. split_and!; try done.
  - destruct (tiles_text source 0 tokens _ Ht) as (_ & Hfilter & texts & Hm & Hcat). unfold round_trip. cbn [lexed_tokens].
    rewrite List.filter_app, Hfilter. change (List.filter _ [eof_token source]) with (@nil LexToken).
    rewrite app_nil_r, Hm. cbn. by rewrite Hcat, Nat.sub_0_r, drop_0, firstn_all.
  - rewrite len_app. unfold source_token_capacity in Hc. lia.
Qed.


Definition sample_source : SourceFile := source_of "let x = `a${1}`; // done".
Lemma sample_source_ok : source_ok sample_source.
Proof.
  split; [|split; [reflexivity|vm_compute; done]]. exists (sf_text sample_source). split; [repeat constructor|reflexivity].
Qed.
Lemma lexing_lossless_witness : source_ok sample_source ∧ ∃ lexed,
  lex_with_limits sample_source SyntaxLimits_DEFAULT = Some lexed
  ∧ round_trip lexed sample_source = Some (sf_text sample_source).
Proof.
  split; [exact sample_source_ok|].
  destruct (lexing_lossless sample_source SyntaxLimits_DEFAULT sample_source_ok) as (lexed & tokens & H1 & _ & _ & H2 & _).
  exists lexed. split; [exact H1|exact H2].
Defined.

(** The tokens of bytes, with the diagnostics. *)
Definition kinds_of (text : list Z) : option (list SyntaxKind * list SyntaxDiagnostic) :=
  (λ lexed, (map lt_kind (lexed_tokens lexed), lexed_diagnostics lexed))
    <$> lex {| sf_id := 1; sf_text := text; sf_len := length text |}.
(** A string literal has no boundary of its own on its left: a raw string is one literal,
    like the string it replaces after [from], and with [from] before it there is none. *)
Lemma string_boundary_depends_on_left :
  kinds_of (bytes "from" ++ [34; 109; 34]) = Some ([SkKwFrom; SkStringLiteral; SkEof], [])
  ∧ kinds_of (bytes "r" ++ [34; 109; 34]) = Some ([SkStringLiteral; SkEof], [])
  ∧ kinds_of (bytes "from" ++ bytes "r" ++ [34; 109; 34]) = Some ([SkIdent; SkStringLiteral; SkEof], []).
Proof. vm_compute. done. Qed.
(** [extension] is an identifier. *)
Lemma extension_not_reserved : kinds_of (bytes "extension") = Some ([SkIdent; SkEof], []).
Proof. vm_compute. done. Qed.
