(* ===== verification/HttpPolicy.v ===== *)
(** * The policy of the HTTPS broker ([crates/allen-http-get/src/broker.rs])

    Limits, errors, origins, the checks on URLs and the denied destinations.  The [url]
    crate is the class [UrlCrate]: the accessors of a parsed URL. *)

From S2P Require Import Prelude.
From S2P Require Import Text.
From S2P Require Import Bytecode.
From S2P Require Import ArtifactNames.
From S2P Require Import SchemaJson.
Open Scope string_scope.
Open Scope list_scope.
Open Scope Z_scope.

(** ** Limits and errors *)

(** A [Duration] is a number of nanoseconds. *)
Definition from_secs (s : Z) : Z := s * 1000000000.
Definition saturating_sub (a b : Z) : Z := Z.max (a - b) 0.

Record HttpLimits := {
  hl_max_requests : Z; hl_max_redirects : Z; hl_max_url_bytes : Z; hl_max_dns_candidates : Z;
  hl_max_response_headers : Z; hl_max_header_bytes : Z; hl_max_compressed_bytes : Z;
  hl_max_decoded_bytes : Z; hl_max_decompression_ratio : Z; hl_dns_timeout : Z; hl_connect_timeout : Z;
  hl_first_byte_timeout : Z; hl_idle_timeout : Z; hl_total_timeout : Z }.
Definition HttpLimits_default : HttpLimits := {|
  hl_max_requests := 100; hl_max_redirects := 10; hl_max_url_bytes := 8192; hl_max_dns_candidates := 32;
  hl_max_response_headers := 256; hl_max_header_bytes := 64 * 1024;
  hl_max_compressed_bytes := 16 * 1024 * 1024; hl_max_decoded_bytes := 16 * 1024 * 1024;
  hl_max_decompression_ratio := 100; hl_dns_timeout := from_secs 5; hl_connect_timeout := from_secs 10;
  hl_first_byte_timeout := from_secs 10; hl_idle_timeout := from_secs 10; hl_total_timeout := from_secs 30 |}.

Inductive HttpErrorCode :=
| InvalidLimits | InvalidUrl | OriginDenied | DestinationDenied | Dns | DnsTimeout | PeerMismatch
| ConnectTimeout | FirstByteTimeout | IdleTimeout | TotalTimeout | RequestLimit | RedirectLimit
| RedirectInvalid | HeaderLimit | Protocol | CompressedLimit | DecodedLimit | DecompressionRatio
| UnsupportedEncoding | Tls | Io.
Definition HttpErrorCode_as_str (code : HttpErrorCode) : string :=
  match code with
  | InvalidLimits => "net.invalid_limits"
  | InvalidUrl => "net.invalid_url"
  | OriginDenied => "net.origin_denied"
  | DestinationDenied => "net.destination_denied"
  | Dns => "net.dns"
  | DnsTimeout => "net.dns_timeout"
  | PeerMismatch => "net.peer_mismatch"
  | ConnectTimeout => "net.connect_timeout"
  | FirstByteTimeout => "net.first_byte_timeout"
  | IdleTimeout => "net.idle_timeout"
  | TotalTimeout => "net.total_timeout"
  | RequestLimit => "resource.http_requests"
  | RedirectLimit => "resource.http_redirects"
  | RedirectInvalid => "net.redirect_invalid"
  | HeaderLimit => "resource.http_header_bytes"
  | Protocol => "net.protocol"
  | CompressedLimit => "resource.http_compressed_bytes"
  | DecodedLimit => "resource.http_decoded_bytes"
  | DecompressionRatio => "resource.http_decompression_ratio"
  | UnsupportedEncoding => "net.unsupported_encoding"
  | Tls => "net.tls"
  | Io => "net.io"
  end.
Record HttpError := { hte_code : HttpErrorCode; hte_message : string }.
Definition HttpError_new (code : HttpErrorCode) (message : string) : HttpError :=
  {| hte_code := code; hte_message := message |}.
Definition HttpError_display (e : HttpError) : string := HttpErrorCode_as_str (hte_code e) ++ ": " ++ hte_message e.

Definition invalid_url : HttpError := HttpError_new InvalidUrl "the URL is not an allowed absolute HTTPS URL".
Definition peer_mismatch : HttpError :=
  HttpError_new PeerMismatch "the connected peer does not match the selected address".
Definition protocol_error : HttpError := HttpError_new Protocol "the HTTP response is malformed".
Definition io_error : HttpError := HttpError_new Io "the network operation failed".
Definition header_limit : HttpError := HttpError_new HeaderLimit "the response headers exceed their byte limit".
Definition request_limit : HttpError := HttpError_new RequestLimit "the HTTP request limit is exhausted".
Definition redirect_limit : HttpError := HttpError_new RedirectLimit "the HTTP redirect limit is exhausted".
Definition redirect_invalid : HttpError := HttpError_new RedirectInvalid "the redirect target is invalid".
Definition compressed_limit : HttpError :=
  HttpError_new CompressedLimit "the compressed response exceeds its byte limit".
Definition decoded_limit : HttpError := HttpError_new DecodedLimit "the decoded response exceeds its byte limit".
Definition unsupported_encoding : HttpError :=
  HttpError_new UnsupportedEncoding "the content encoding is not supported".
Definition total_timeout : HttpError := HttpError_new TotalTimeout "the HTTP call exceeded its total deadline".

Definition HttpLimits_validate (self : HttpLimits) : result HttpError HttpLimits :=
  if (hl_max_requests self =? 0) || (hl_max_url_bytes self =? 0) || (hl_max_dns_candidates self =? 0)
     || (hl_max_response_headers self =? 0) || (hl_max_header_bytes self =? 0)
     || (hl_max_compressed_bytes self =? 0) || (hl_max_decoded_bytes self =? 0)
     || (hl_max_decompression_ratio self =? 0) || (hl_dns_timeout self =? 0) || (hl_connect_timeout self =? 0)
     || (hl_first_byte_timeout self =? 0) || (hl_idle_timeout self =? 0) || (hl_total_timeout self =? 0)
  then Err (HttpError_new InvalidLimits "HTTP limits must be finite and greater than zero")
  else Ok self.

(** ** Addresses *)

Inductive IpAddr := V4 (a b c d : Z) | V6 (bits : Z).
#[global] Instance IpAddr_eq_dec : EqDecision IpAddr.
Proof. solve_decision. Defined.
(** [SocketAddr]; the flow and scope only of version 6. *)
Record SocketAddr := { sa_ip : IpAddr; sa_port : Z; sa_flowinfo : Z; sa_scope : Z }.
#[global] Instance SocketAddr_eq_dec : EqDecision SocketAddr.
Proof. solve_decision. Defined.
Definition SocketAddr_new (ip : IpAddr) (port : Z) : SocketAddr :=
  {| sa_ip := ip; sa_port := port; sa_flowinfo := 0; sa_scope := 0 |}.

Definition v6_groups (bits : Z) : list Z :=
  map (λ i, Z.land (Z.shiftr bits i) 65535) [112; 96; 80; 64; 48; 32; 16; 0].
(** [Ipv6Addr::new] as a number *)
Definition v6_new (groups : list Z) : Z := fold_left (λ bits g, Z.lor (Z.shiftl bits 16) g) groups 0.

Definition is_denied_v4 (a b c : Z) : bool :=
  (a =? 0) || (a =? 10) || (a =? 127) || ((a =? 100) && between 64 127 b) || ((a =? 169) && (b =? 254))
  || ((a =? 172) && between 16 31 b) || ((a =? 192) && (b =? 0) && (c =? 0)) || ((a =? 192) && (b =? 0) && (c =? 2))
  || ((a =? 192) && (b =? 88) && (c =? 99)) || ((a =? 192) && (b =? 168)) || ((a =? 198) && ((b =? 18) || (b =? 19)))
  || ((a =? 198) && (b =? 51) && (c =? 100)) || ((a =? 203) && (b =? 0) && (c =? 113)) || (224 <=? a).

Definition U128_MAX : Z := Z.ones 128.
(** The shift of the mask drops the bits beyond 128. *)
Definition in_prefix (value network length : Z) : bool :=
  let mask := Z.land (Z.shiftl U128_MAX (128 - length)) U128_MAX in
  Z.land value mask =? Z.land network mask.
Definition is_denied_v6 (bits : Z) : bool :=
  if negb (in_prefix bits (Z.shiftl 8192 112) 3) then true
  else
    in_prefix bits (v6_new [8193; 0; 0; 0; 0; 0; 0; 0]) 32
    || in_prefix bits (v6_new [8193; 2; 0; 0; 0; 0; 0; 0]) 48
    || in_prefix bits (v6_new [8193; 16; 0; 0; 0; 0; 0; 0]) 28
    || in_prefix bits (v6_new [8193; 32; 0; 0; 0; 0; 0; 0]) 28
    || in_prefix bits (v6_new [8193; 3512; 0; 0; 0; 0; 0; 0]) 32
    || in_prefix bits (v6_new [8194; 0; 0; 0; 0; 0; 0; 0]) 16
    || in_prefix bits (v6_new [16383; 0; 0; 0; 0; 0; 0; 0]) 20.
Definition is_denied_address (address : IpAddr) : bool :=
  match address with
  | V4 a b c _ => is_denied_v4 a b c
  | V6 bits => is_denied_v6 bits
  end.

(** ** URLs *)

Inductive Host := Domain (name : string) | HostV4 (a b c d : Z) | HostV6 (bits : Z).

Class UrlCrate := {
  Url : Type;
  url_parse : string → option Url;
  url_join : Url → string → option Url;
  url_text : Url → string;
  url_scheme : Url → string;
  url_username : Url → string;
  url_password : Url → option string;
  url_fragment : Url → option string;
  url_host : Url → option Host;
  url_host_str : Url → option string;
  url_port : Url → option Z;
  url_port_or_known_default : Url → option Z;
  url_path : Url → string;
  url_query : Url → option string }.

Section Urls.
Context {UC : UrlCrate}.

Definition is_hexdigit (b : Z) : bool := is_ascii_digit b || between 97 102 b || between 65 70 b.
Fixpoint has_invalid_percent_encoding (value : list Z) : bool :=
  match value with
  | [] => false
  | 37 :: rest =>
    match rest with
    | h1 :: h2 :: rest => if is_hexdigit h1 && is_hexdigit h2 then has_invalid_percent_encoding rest else true
    | _ => true
    end
  | _ :: rest => has_invalid_percent_encoding rest
  end.

(** The text before the first of some characters: [remainder.find([...])]. *)
Fixpoint before_any (stops : list ascii) (s : string) : string :=
  match s with
  | EmptyString => ""
  | String c s => if existsb (Ascii.eqb c) stops then "" else String c (before_any stops s)
  end.
(** [host_port.find(']')] and the text after it *)
Definition after_bracket (s : string) : option string := snd <$> split_once "]" s.
(** [parse::<u16>] of digits that is not zero *)
Definition bad_port (port : string) : bool :=
  str_is_empty port || negb (forallb is_ascii_digit (bytes port)) || ((1 <? str_len port) && starts_with "0" port)
  || match Names.parse_u16 port with Some port => port =? 0 | None => true end.
Definition validate_raw_authority (value : string) : result HttpError unit :=
  match split_once "://" value with
  | None => Ok tt
  | Some (_, remainder) =>
    let authority := before_any ["/"; "?"; "#"]%char remainder in
    if str_is_empty authority || str_contains "%" authority then Err invalid_url
    else
      let host_port := match rsplit_once "@" authority with Some (_, value) => value | None => authority end in
      let? port :=
        if starts_with "[" host_port then
          match after_bracket host_port with
          | None => Err invalid_url
          | Some suffix =>
            if str_is_empty suffix then Ok None
            else match strip_prefix ":" suffix with Some port => Ok (Some port) | None => Err invalid_url end
          end
        else Ok (snd <$> rsplit_once ":" host_port) in
      match port with
      | Some port => if bad_port port then Err invalid_url else Ok tt
      | None => Ok tt
      end
  end.
Definition validate_raw_url_text (value : string) (maximum : Z) : result HttpError unit :=
  if str_is_empty value || (maximum <? str_len value) || existsb is_control (chars value)
     || str_contains "\" value || has_invalid_percent_encoding (bytes value)
  then Err invalid_url
  else validate_raw_authority value.
Definition validate_redirect_reference (value : string) (maximum : Z) : result HttpError unit :=
  map_err (λ _, redirect_invalid) (validate_raw_url_text value maximum).

Definition is_some {A} (o : option A) : bool := match o with Some _ => true | None => false end.
Definition validate_https_url (url : Url) (maximum : Z) : result HttpError unit :=
  if (maximum <? str_len (url_text url)) || negb (String.eqb (url_scheme url) "https")
     || negb (str_is_empty (url_username url)) || is_some (url_password url) || is_some (url_fragment url)
     || negb (is_some (url_host url)) || negb (is_some (url_port_or_known_default url))
  then Err invalid_url
  else Ok tt.
Definition parse_https_url (value : string) (maximum : Z) : result HttpError Url :=
  try? validate_raw_url_text value maximum in
  let? url := ok_or (url_parse value) invalid_url in
  try? validate_https_url url maximum in
  Ok url.

(** ** Origins *)

Definition host_text (host : Host) : string :=
  match host with
  | Domain name => name
  | HostV4 a b c d => Ipv4Addr_to_string [a; b; c; d]
  | HostV6 bits => "[" ++ Ipv6Addr_to_string (v6_groups bits) ++ "]"
  end.
Definition CanonicalOrigin_from_url (url : Url) : result HttpError string :=
  let? host := ok_or (url_host url) invalid_url in
  let? port := ok_or (url_port_or_known_default url) invalid_url in
  Ok (if port =? 443 then ("https://" ++ host_text host)%string
      else ("https://" ++ host_text host ++ ":" ++ int_text port)%string).
Definition CanonicalOrigin_parse (value : string) : result HttpError string :=
  let? url := parse_https_url value usize_max in
  if negb (String.eqb (url_path url) "/") || is_some (url_query url) then Err invalid_url
  else
    let? origin := CanonicalOrigin_from_url url in
    if negb (String.eqb origin value) then Err invalid_url else Ok origin.

Definition request_target (url : Url) : string :=
  let target := if str_is_empty (url_path url) then "/" else url_path url in
  match url_query url with
  | Some query => target ++ "?" ++ query
  | None => target
  end.
Definition request_authority (url : Url) : result HttpError string :=
  let? host := ok_or (url_host_str url) invalid_url in
  let host := match url_host url with Some (HostV6 _) => ("[" ++ host ++ "]")%string | _ => host end in
  Ok (match url_port url with Some port => (host ++ ":" ++ int_text port)%string | None => host end).
End Urls.
