(* ===== verification/HttpBroker.v ===== *)
(** * The HTTPS broker ([crates/allen-http-get/src/broker.rs])

    [HttpBroker::get] with its redirects, its accounting and the decoding of bodies.  The
    traits [Clock], [Resolver] and [Transport] are an environment with a state of its
    own, about which nothing is assumed; the [flate2] decoder is the class [Gzip]. *)

From S2P Require Import Prelude.
From S2P Require Import Text.
From S2P Require Import Bytecode.
From S2P Require Import JoshMessage.
From S2P Require Import VmOps.
From S2P Require Import ArtifactNames.
From S2P Require Import HttpPolicy.
Open Scope string_scope.
Open Scope list_scope.
Open Scope Z_scope.

Record HttpUsage := {
  hu_requests : Z; hu_redirects : Z; hu_response_headers : Z; hu_header_bytes : Z;
  hu_compressed_bytes : Z; hu_decoded_bytes : Z }.
Definition HttpUsage_default : HttpUsage := {|
  hu_requests := 0; hu_redirects := 0; hu_response_headers := 0; hu_header_bytes := 0;
  hu_compressed_bytes := 0; hu_decoded_bytes := 0 |}.
Definition Headers : Type := list (string * list string).
Record HttpResponse := { hr_status : Z; hr_final_url : string; hr_headers : Headers; hr_body : list Z }.

Record TransportRequest `{UrlCrate} := {
  trq_url : Url; trq_selected_address : SocketAddr; trq_max_response_headers : Z; trq_max_header_bytes : Z;
  trq_max_compressed_bytes : Z; trq_connect_timeout : Z; trq_first_byte_timeout : Z; trq_idle_timeout : Z;
  trq_total_timeout : Z }.
Record TransportResponse := {
  trs_status : Z; trs_headers : list (string * list Z); trs_header_bytes : Z; trs_compressed_body : list Z;
  trs_peer_address : SocketAddr }.

(** The injected clock, resolver and transport over a state of theirs. *)
Record Environment `{UrlCrate} (W : Type) := {
  env_now : W → Z * W;
  env_resolve : string → Z → Z → W → result HttpError (list SocketAddr) * W;
  env_get : TransportRequest → W → result HttpError TransportResponse * W }.
Arguments env_now {_ _} _.
Arguments env_resolve {_ _} _.
Arguments env_get {_ _} _.

(** [GzDecoder] on a body: what its reads give, and the bytes it consumed when it comes
    to the end, or an error. *)
Class Gzip := { gz_reads : list Z → list (list Z) * option Z }.

Record BrokerPolicy := { bp_origins : list string; bp_denied_addresses : list IpAddr; bp_limits : HttpLimits }.

Definition new_with_denied_addresses `{UrlCrate} (origins : list string) (denied : list IpAddr) (limits : HttpLimits)
    : result HttpError (BrokerPolicy * HttpUsage) :=
  let? limits := HttpLimits_validate limits in
  let? origins := collect CanonicalOrigin_parse origins in
  Ok ({| bp_origins := origins; bp_denied_addresses := denied; bp_limits := limits |}, HttpUsage_default).

(** ** Headers and bodies *)

Definition valid_header_name (value : string) : bool :=
  negb (str_is_empty value)
  && forallb (λ b, is_ascii_alphanumeric b || existsb (Z.eqb b) (bytes "!#$%&'*+-.^_`|~")) (bytes value).
Fixpoint drop_while {A} (p : A → bool) (l : list A) : list A :=
  match l with x :: l' => if p x then drop_while p l' else l | [] => [] end.
(** [str::trim] *)
Definition trim (s : string) : string :=
  string_of_bytes (flat_map utf8_encode
    (rev (drop_while is_whitespace (rev (drop_while is_whitespace (chars s)))))).
Definition str_to_ascii_lowercase (s : string) : string := string_of_bytes (map to_ascii_lowercase (bytes s)).
Definition push_header (name value : string) (headers : Headers) : Headers :=
  btree_insert name (default [] (btree_get name headers) ++ [value]) headers.
Fixpoint normalize_headers (raw : list (string * list Z)) (output : Headers) : result HttpError Headers :=
  match raw with
  | [] => Ok output
  | (name, value) :: raw =>
    if negb (valid_header_name name) || negb (utf8_valid value)
       || existsb (λ b, (b =? 13) || (b =? 10) || (b =? 0)) value
    then Err protocol_error
    else normalize_headers raw (push_header (str_to_ascii_lowercase name) (trim (string_of_bytes value)) output)
  end.
Definition is_redirect (status : Z) : bool := existsb (Z.eqb status) [301; 302; 303; 307; 308].

Definition len {A} (l : list A) : Z := Z.of_nat (length l).
Definition charge_decoded_usage (usage bytes : Z) : result HttpError Z :=
  ok_or (u64_checked_add usage bytes) decoded_limit.
(** The loop over the reads of the decoder; the usage is kept on errors. *)
Fixpoint gzip_loop (compressed limit ratio : Z) (chunks : list (list Z)) (output : list Z) (usage : Z)
    : result HttpError (list Z) * Z :=
  match chunks with
  | [] => (Ok output, usage)
  | chunk :: chunks =>
    let next := len output + len chunk in
    if limit <? next then (Err decoded_limit, usage)
    else match charge_decoded_usage usage (len chunk) with
    | Err e => (Err e, usage)
    | Ok usage =>
      if (compressed =? 0) || (compressed * ratio <? next)
      then (Err (HttpError_new DecompressionRatio "the decoded body exceeds its decompression ratio"), usage)
      else gzip_loop compressed limit ratio chunks (output ++ chunk) usage
    end
  end.
Definition decode_gzip `{Gzip} (compressed : list Z) (limits : HttpLimits) (usage : Z) : result HttpError (list Z) * Z :=
  let '(chunks, ending) := gz_reads compressed in
  match gzip_loop (len compressed) (hl_max_decoded_bytes limits) (hl_max_decompression_ratio limits) chunks [] usage with
  | (Err e, usage) => (Err e, usage)
  | (Ok output, usage) =>
    match ending with
    | None => (Err (HttpError_new Protocol "gzip decoding failed"), usage)
    | Some consumed =>
      if negb (consumed =? len compressed) then (Err (HttpError_new Protocol "gzip body has trailing data"), usage)
      else (Ok output, usage)
    end
  end.
Definition body_encoding (headers : Headers) : result HttpError string :=
  match btree_get "content-encoding" headers with
  | None => Ok "identity"
  | Some [value] => if str_contains "," value then Err unsupported_encoding
                    else Ok (str_to_ascii_lowercase (trim value))
  | Some _ => Err unsupported_encoding
  end.
Definition decode_body `{Gzip} (headers : Headers) (compressed : list Z) (limits : HttpLimits) (usage : Z)
    : result HttpError (list Z) * Z :=
  match body_encoding headers with
  | Err e => (Err e, usage)
  | Ok encoding =>
    if String.eqb encoding "identity" then
      if hl_max_decoded_bytes limits <? len compressed then (Err decoded_limit, usage)
      else match charge_decoded_usage usage (len compressed) with
           | Err e => (Err e, usage)
           | Ok usage => (Ok compressed, usage)
           end
    else if String.eqb encoding "gzip" then decode_gzip compressed limits usage
    else (Err unsupported_encoding, usage)
  end.

(** ** Accounting *)

Section Charges.
Context (limits : HttpLimits).

Definition charge_headers (count bytes : Z) (u : HttpUsage) : result HttpError HttpUsage :=
  let? next_count := ok_or (u64_checked_add (hu_response_headers u) count) header_limit in
  let? next_bytes := ok_or (u64_checked_add (hu_header_bytes u) bytes) header_limit in
  if (hl_max_response_headers limits <? next_count) || (hl_max_header_bytes limits <? next_bytes)
  then Err header_limit
  else Ok {| hu_requests := hu_requests u; hu_redirects := hu_redirects u; hu_response_headers := next_count;
             hu_header_bytes := next_bytes; hu_compressed_bytes := hu_compressed_bytes u;
             hu_decoded_bytes := hu_decoded_bytes u |}.
Definition charge_request (u : HttpUsage) : result HttpError HttpUsage :=
  let? next := ok_or (u32_checked_add (hu_requests u) 1) request_limit in
  if hl_max_requests limits <? next then Err request_limit
  else Ok {| hu_requests := next; hu_redirects := hu_redirects u; hu_response_headers := hu_response_headers u;
             hu_header_bytes := hu_header_bytes u; hu_compressed_bytes := hu_compressed_bytes u;
             hu_decoded_bytes := hu_decoded_bytes u |}.
Definition charge_redirect (u : HttpUsage) : result HttpError HttpUsage :=
  let? next := ok_or (u32_checked_add (hu_redirects u) 1) redirect_limit in
  if hl_max_redirects limits <? next then Err redirect_limit
  else Ok {| hu_requests := hu_requests u; hu_redirects := next; hu_response_headers := hu_response_headers u;
             hu_header_bytes := hu_header_bytes u; hu_compressed_bytes := hu_compressed_bytes u;
             hu_decoded_bytes := hu_decoded_bytes u |}.
Definition charge_compressed (bytes : Z) (u : HttpUsage) : result HttpError HttpUsage :=
  if hl_max_compressed_bytes limits <? bytes then Err compressed_limit
  else
    let? next := ok_or (u64_checked_add (hu_compressed_bytes u) bytes) compressed_limit in
    if hl_max_compressed_bytes limits <? next then Err compressed_limit
    else Ok {| hu_requests := hu_requests u; hu_redirects := hu_redirects u;
               hu_response_headers := hu_response_headers u; hu_header_bytes := hu_header_bytes u;
               hu_compressed_bytes := next; hu_decoded_bytes := hu_decoded_bytes u |}.
Definition set_decoded (decoded : Z) (u : HttpUsage) : HttpUsage := {|
  hu_requests := hu_requests u; hu_redirects := hu_redirects u; hu_response_headers := hu_response_headers u;
  hu_header_bytes := hu_header_bytes u; hu_compressed_bytes := hu_compressed_bytes u; hu_decoded_bytes := decoded |}.

(** [checked_sub] *)
Definition remaining (maximum used : Z) (e : HttpError) : result HttpError Z :=
  if maximum <? used then Err e else Ok (maximum - used).
Definition remaining_response_headers (u : HttpUsage) : result HttpError Z :=
  remaining (hl_max_response_headers limits) (hu_response_headers u) header_limit.
Definition remaining_header_bytes (u : HttpUsage) : result HttpError Z :=
  remaining (hl_max_header_bytes limits) (hu_header_bytes u) header_limit.
Definition remaining_compressed_bytes (u : HttpUsage) : result HttpError Z :=
  remaining (hl_max_compressed_bytes limits) (hu_compressed_bytes u) compressed_limit.
Definition remaining_decoded_bytes (u : HttpUsage) : result HttpError Z :=
  remaining (hl_max_decoded_bytes limits) (hu_decoded_bytes u) decoded_limit.
End Charges.

(** ** The broker *)

(** [sort_unstable]: version 4 before 6, then address, port, flow and scope. *)
Definition ip_compare (x y : IpAddr) : comparison :=
  match x, y with
  | V4 a b c d, V4 a' b' c' d' => bytes_compare [a; b; c; d] [a'; b'; c'; d']
  | V4 _ _ _ _, V6 _ => Lt
  | V6 _, V4 _ _ _ _ => Gt
  | V6 x, V6 y => Z.compare x y
  end.
Definition then_compare (c d : comparison) : comparison := match c with Eq => d | c => c end.
Definition socket_compare (x y : SocketAddr) : comparison :=
  then_compare (ip_compare (sa_ip x) (sa_ip y))
    (then_compare (Z.compare (sa_port x) (sa_port y))
       (then_compare (Z.compare (sa_flowinfo x) (sa_flowinfo y)) (Z.compare (sa_scope x) (sa_scope y)))).
(** [Vec::dedup]: of equal neighbours the first stays. *)
Fixpoint dedup_after {A} `{EqDecision A} (x : A) (l : list A) : list A :=
  match l with
  | [] => [x]
  | y :: l => if bool_decide (x = y) then dedup_after x l else x :: dedup_after y l
  end.
Definition dedup {A} `{EqDecision A} (l : list A) : list A :=
  match l with [] => [] | x :: l => dedup_after x l end.

Section Broker.
Context {UC : UrlCrate} {GZ : Gzip} {W : Type} (env : Environment W) (policy : BrokerPolicy).
Abbreviation limits := (bp_limits policy).

(** The usage of the broker and the state of the environment; no answer is the end of
    the fuel of the redirect loop. *)
Definition B (A : Type) : Type := HttpUsage * W → option (result HttpError A * (HttpUsage * W)).
#[global] Instance B_ret : MRet B := λ A a st, Some (Ok a, st).
#[global] Instance B_bind : MBind B := λ A C f m st,
  match m st with
  | None => None
  | Some (Err e, st) => Some (Err e, st)
  | Some (Ok a, st) => f a st
  end.
Definition lift {A} (r : result HttpError A) : B A := λ st, Some (r, st).
Definition fail {A} (e : HttpError) : B A := lift (Err e).
Definition now : B Z := λ st, let '(t, w) := env_now env st.2 in Some (Ok t, (st.1, w)).
Definition usage : B HttpUsage := λ st, Some (Ok st.1, st).
Definition charge (f : HttpUsage → result HttpError HttpUsage) : B unit := λ st,
  match f st.1 with
  | Ok u => Some (Ok tt, (u, st.2))
  | Err e => Some (Err e, st)
  end.

Definition remaining_total (started : Z) : B Z :=
  t ← now;
  let elapsed := saturating_sub t started in
  if hl_total_timeout limits <=? elapsed then fail total_timeout
  else mret (hl_total_timeout limits - elapsed).
Definition check_total (started : Z) : B unit := _ ← remaining_total started; mret tt.

Definition require_origin (url : Url) : B unit :=
  origin ← lift (CanonicalOrigin_from_url url);
  if existsb (String.eqb origin) (bp_origins policy) then mret tt
  else fail (HttpError_new OriginDenied "the URL origin is not allowed").

Definition address_denied (port : Z) (address : SocketAddr) : bool :=
  negb (sa_port address =? port) || is_denied_address (sa_ip address)
  || existsb (λ denied, bool_decide (denied = sa_ip address)) (bp_denied_addresses policy).
Definition ask_resolver (name : string) (port timeout : Z) : B (list SocketAddr) := λ st,
  let '(r, w) := env_resolve env name port timeout st.2 in Some (r, (st.1, w)).
Definition resolve_host (host : Host) (port started : Z) : B (list SocketAddr) :=
  match host with
  | HostV4 a b c d => mret [SocketAddr_new (V4 a b c d) port]
  | HostV6 bits => mret [SocketAddr_new (V6 bits) port]
  | Domain name =>
    rest ← remaining_total started;
    before ← now;
    answer ← ask_resolver name port (Z.min (hl_dns_timeout limits) rest);
    after ← now;
    if hl_dns_timeout limits <? saturating_sub after before
    then fail (HttpError_new DnsTimeout "DNS resolution exceeded its deadline")
    else mret answer
  end.
Definition resolve_selected (url : Url) (started : Z) : B SocketAddr :=
  port ← lift (ok_or (url_port_or_known_default url) invalid_url);
  host ← lift (ok_or (url_host url) invalid_url);
  addresses ← resolve_host host port started;
  if (len addresses =? 0) || (hl_max_dns_candidates limits <? len addresses)
  then fail (HttpError_new Dns "DNS returned an invalid candidate set")
  else if existsb (address_denied port) addresses
  then fail (HttpError_new DestinationDenied "the destination address is denied")
  else lift (ok_or (head (dedup (sort_by socket_compare addresses))) (HttpError_new Dns "DNS returned no destination")).

Definition transport_request (url : Url) (selected : SocketAddr) (rest : Z) : B TransportRequest :=
  u ← usage;
  headers ← lift (remaining_response_headers limits u);
  header_bytes ← lift (remaining_header_bytes limits u);
  compressed ← lift (remaining_compressed_bytes limits u);
  mret {| trq_url := url; trq_selected_address := selected; trq_max_response_headers := headers;
          trq_max_header_bytes := header_bytes; trq_max_compressed_bytes := compressed;
          trq_connect_timeout := Z.min (hl_connect_timeout limits) rest;
          trq_first_byte_timeout := Z.min (hl_first_byte_timeout limits) rest;
          trq_idle_timeout := Z.min (hl_idle_timeout limits) rest; trq_total_timeout := rest |}.

Definition with_max_decoded (maximum : Z) (l : HttpLimits) : HttpLimits := {|
  hl_max_requests := hl_max_requests l; hl_max_redirects := hl_max_redirects l; hl_max_url_bytes := hl_max_url_bytes l;
  hl_max_dns_candidates := hl_max_dns_candidates l; hl_max_response_headers := hl_max_response_headers l;
  hl_max_header_bytes := hl_max_header_bytes l; hl_max_compressed_bytes := hl_max_compressed_bytes l;
  hl_max_decoded_bytes := maximum; hl_max_decompression_ratio := hl_max_decompression_ratio l;
  hl_dns_timeout := hl_dns_timeout l; hl_connect_timeout := hl_connect_timeout l;
  hl_first_byte_timeout := hl_first_byte_timeout l; hl_idle_timeout := hl_idle_timeout l;
  hl_total_timeout := hl_total_timeout l |}.

Definition transport (request : TransportRequest) : B TransportResponse := λ st,
  let '(r, w) := env_get env request st.2 in Some (r, (st.1, w)).
Definition decode (headers : Headers) (compressed : list Z) (maximum : Z) : B (list Z) := λ st,
  let '(r, decoded) := decode_body headers compressed (with_max_decoded maximum limits) (hu_decoded_bytes st.1) in
  Some (r, (set_decoded decoded st.1, st.2)).

(** One hop: the request and the charges for its response. *)
Definition hop (started : Z) (url : Url) : B (TransportResponse * Headers) :=
  check_total started ≫= λ _,
  require_origin url ≫= λ _,
  charge (charge_request limits) ≫= λ _,
  selected ← resolve_selected url started;
  rest ← remaining_total started;
  request ← transport_request url selected rest;
  raw ← transport request;
  check_total started ≫= λ _,
  if negb (bool_decide (trs_peer_address raw = selected)) then fail peer_mismatch
  else
    charge (charge_headers limits (len (trs_headers raw)) (trs_header_bytes raw)) ≫= λ _,
    headers ← lift (normalize_headers (trs_headers raw) []);
    charge (charge_compressed limits (len (trs_compressed_body raw))) ≫= λ _,
    mret (raw, headers).
(** The target of a redirect. *)
Definition redirect (url : Url) (headers : Headers) : B Url :=
  charge (charge_redirect limits) ≫= λ _,
  locations ← lift (ok_or (btree_get "location" headers) redirect_invalid);
  match locations with
  | [location] =>
    lift (validate_redirect_reference location (hl_max_url_bytes limits)) ≫= λ _,
    target ← lift (ok_or (url_join url location) redirect_invalid);
    lift (map_err (λ _, redirect_invalid) (validate_https_url target (hl_max_url_bytes limits))) ≫= λ _,
    mret target
  | _ => fail redirect_invalid
  end.
Definition finish (url : Url) (raw : TransportResponse) (headers : Headers) : B HttpResponse :=
  u ← usage;
  maximum ← lift (remaining_decoded_bytes limits u);
  body ← decode headers (trs_compressed_body raw) maximum;
  mret {| hr_status := trs_status raw; hr_final_url := url_text url; hr_headers := headers; hr_body := body |}.
Fixpoint get_loop (fuel : nat) (started : Z) (url : Url) : B HttpResponse :=
  match fuel with
  | O => λ _, None
  | S fuel =>
    '(raw, headers) ← hop started url;
    if is_redirect (trs_status raw) then
      target ← redirect url headers;
      get_loop fuel started target
    else finish url raw headers
  end.
(** Every hop but the last one is charged as a redirect. *)
Definition hops : nat := S (S (Z.to_nat (hl_max_redirects limits))).
Definition get (value : string) : B HttpResponse :=
  started ← now;
  url ← lift (parse_https_url value (hl_max_url_bytes limits));
  get_loop hops started url.
End Broker.
