(* ===== verification/HttpConfined.v ===== *)
(** * What the HTTPS broker can reach

    Whatever the clock, the resolver and the transport answer, [get] connects only to
    allowed origins at addresses that are not denied, and stays within its limits. *)

From S2P Require Import Prelude.
From S2P Require Import Text.
From S2P Require Import Bytecode.
From S2P Require Import JoshMessage.
From S2P Require Import VmValue.
From S2P Require Import VmOps.
From S2P Require Import ArtifactNames.
From S2P Require Import HttpPolicy.
From S2P Require Import HttpBroker.
Open Scope list_scope.
Open Scope Z_scope.

(** ** Denied addresses *)

(** The special-purpose blocks of version 4, as network and prefix length. *)
Definition v4_number (a b c d : Z) : Z := ((a * 256 + b) * 256 + c) * 256 + d.
Definition v4_blocks : list (Z * Z) := [
  (v4_number 0 0 0 0, 8); (v4_number 10 0 0 0, 8); (v4_number 127 0 0 0, 8); (v4_number 100 64 0 0, 10);
  (v4_number 169 254 0 0, 16); (v4_number 172 16 0 0, 12); (v4_number 192 0 0 0, 24); (v4_number 192 0 2 0, 24);
  (v4_number 192 88 99 0, 24); (v4_number 192 168 0 0, 16); (v4_number 198 18 0 0, 15);
  (v4_number 198 51 100 0, 24); (v4_number 203 0 113 0, 24); (v4_number 224 0 0 0, 3)].
Definition in_v4_block (address : Z) (block : Z * Z) : bool :=
  address / 2 ^ (32 - block.2) =? block.1 / 2 ^ (32 - block.2).
(** The blocks of global unicast version 6 that are not native. *)
Definition v6_blocks : list (Z * Z) := [
  (v6_new [8193; 0; 0; 0; 0; 0; 0; 0], 32); (v6_new [8193; 2; 0; 0; 0; 0; 0; 0], 48);
  (v6_new [8193; 16; 0; 0; 0; 0; 0; 0], 28); (v6_new [8193; 32; 0; 0; 0; 0; 0; 0], 28);
  (v6_new [8193; 3512; 0; 0; 0; 0; 0; 0], 32); (v6_new [8194; 0; 0; 0; 0; 0; 0; 0], 16);
  (v6_new [16383; 0; 0; 0; 0; 0; 0; 0], 20)].
Definition in_v6_block (bits : Z) (block : Z * Z) : bool :=
  bits / 2 ^ (128 - block.2) =? block.1 / 2 ^ (128 - block.2).
Definition ip_ok (address : IpAddr) : Prop :=
  match address with
  | V4 a b c d => 0 <= a <= 255 ∧ 0 <= b <= 255 ∧ 0 <= c <= 255 ∧ 0 <= d <= 255
  | V6 bits => 0 <= bits < 2 ^ 128
  end.
(** Addresses outside the blocks, and of version 6 only global unicast, [2000::/3]. *)
Definition globally_reachable (address : IpAddr) : bool :=
  match address with
  | V4 a b c d => negb (existsb (in_v4_block (v4_number a b c d)) v4_blocks)
  | V6 bits => in_v6_block bits (v6_new [8192; 0; 0; 0; 0; 0; 0; 0], 3) && negb (existsb (in_v6_block bits) v6_blocks)
  end.

Lemma in_prefix_block bits network length : 0 <= bits < 2 ^ 128 → 0 <= network < 2 ^ 128 → 0 <= length <= 128 →
  in_prefix bits network length = in_v6_block bits (network, length).
Proof.
  intros Hb Hn Hl. unfold in_prefix, in_v6_block, U128_MAX. cbn [fst snd].
  assert (∀ x, 0 <= x < 2 ^ 128 → Z.land x (Z.land (Z.shiftl (Z.ones 128) (128 - length)) (Z.ones 128)) = x / 2 ^ (128 - length) * 2 ^ (128 - length)) as Hx.
  { intros x Hx. rewrite <- Z.shiftr_div_pow2, <- Z.shiftl_mul_pow2 by lia. apply Z.bits_inj'. intros i Hi.
    rewrite !Z.land_spec, !Z.shiftl_spec by lia.
    destruct (Z.lt_ge_cases i (128 - length)) as [Hlt|Hge].
    - rewrite !(Z.testbit_neg_r _ (i - (128 - length))) by lia. by rewrite andb_false_r.
    - rewrite Z.shiftr_spec by lia. replace (i - (128 - length) + (128 - length)) with i by lia.
      destruct (Z.lt_ge_cases i 128) as [Hi128|Hi128].
      + rewrite !Z.ones_spec_low by lia. by rewrite !andb_true_r.
      + rewrite (Z.ones_spec_high 128 i) by lia. rewrite !andb_false_r. symmetry. rewrite <- (Z.mod_small x (2 ^ 128)) by lia.
        by rewrite Z.mod_pow2_bits_high by lia. }
  rewrite !Hx by done. apply eq_true_iff_eq. rewrite !Z.eqb_eq. split; [|by intros ->].
  intros H. apply Z.mul_reg_r in H; [done|]. apply Z.pow_nonzero; lia.
Qed.

(** The number of an address above one of its octets. *)
Lemma v4_div a b c d k m : ip_ok (V4 a b c d) → 0 <= k <= 32 → m = 2 ^ (32 - k) →
  ∀ q, (v4_number a b c d / m = q ↔ q * m <= v4_number a b c d < q * m + m).
Proof.
  intros _ Hk -> q. assert (0 < 2 ^ (32 - k)) as Hm by (apply Z.pow_pos_nonneg; lia).
  split; [intros <-|intros H].
  - pose proof (Z.div_mod (v4_number a b c d) (2 ^ (32 - k)) ltac:(lia)). pose proof (Z.mod_pos_bound (v4_number a b c d) (2 ^ (32 - k)) Hm). lia.
  - symmetry. apply (Z.div_unique_pos _ _ q (v4_number a b c d - q * 2 ^ (32 - k))); lia.
Qed.
Ltac v4_block k m :=
  apply eq_true_iff_eq; unfold in_v4_block; cbn [fst snd]; rewrite Z.eqb_eq;
  match goal with H : ip_ok _ |- context [_ / _ = ?n / ?x] => let v := eval vm_compute in (n / x) in change (n / x) with v end;
  rewrite (v4_div _ _ _ _ k m) by (done || lia);
  rewrite ?andb_true_iff, ?orb_true_iff, ?between_spec, ?Z.eqb_eq, ?Z.leb_le; unfold v4_number; lia.
Lemma denied_v4_blocks a b c d : ip_ok (V4 a b c d) →
  is_denied_v4 a b c = existsb (in_v4_block (v4_number a b c d)) v4_blocks.
Proof.
  intros Hok. pose proof Hok as (Ha & Hb & Hc & Hd). unfold v4_blocks. cbn [existsb].
  replace (in_v4_block (v4_number a b c d) (v4_number 0 0 0 0, 8)) with ((a =? 0)) by (symmetry; v4_block 8 16777216).
  replace (in_v4_block (v4_number a b c d) (v4_number 10 0 0 0, 8)) with ((a =? 10)) by (symmetry; v4_block 8 16777216).
  replace (in_v4_block (v4_number a b c d) (v4_number 127 0 0 0, 8)) with ((a =? 127)) by (symmetry; v4_block 8 16777216).
  replace (in_v4_block (v4_number a b c d) (v4_number 100 64 0 0, 10)) with ((a =? 100) && between 64 127 b) by (symmetry; v4_block 10 4194304).
  replace (in_v4_block (v4_number a b c d) (v4_number 169 254 0 0, 16)) with ((a =? 169) && (b =? 254)) by (symmetry; v4_block 16 65536).
  replace (in_v4_block (v4_number a b c d) (v4_number 172 16 0 0, 12)) with ((a =? 172) && between 16 31 b) by (symmetry; v4_block 12 1048576).
  replace (in_v4_block (v4_number a b c d) (v4_number 192 0 0 0, 24)) with ((a =? 192) && (b =? 0) && (c =? 0)) by (symmetry; v4_block 24 256).
  replace (in_v4_block (v4_number a b c d) (v4_number 192 0 2 0, 24)) with ((a =? 192) && (b =? 0) && (c =? 2)) by (symmetry; v4_block 24 256).
  replace (in_v4_block (v4_number a b c d) (v4_number 192 88 99 0, 24)) with ((a =? 192) && (b =? 88) && (c =? 99)) by (symmetry; v4_block 24 256).
  replace (in_v4_block (v4_number a b c d) (v4_number 192 168 0 0, 16)) with ((a =? 192) && (b =? 168)) by (symmetry; v4_block 16 65536).
  replace (in_v4_block (v4_number a b c d) (v4_number 198 18 0 0, 15)) with ((a =? 198) && ((b =? 18) || (b =? 19))) by (symmetry; v4_block 15 131072).
  replace (in_v4_block (v4_number a b c d) (v4_number 198 51 100 0, 24)) with ((a =? 198) && (b =? 51) && (c =? 100)) by (symmetry; v4_block 24 256).
  replace (in_v4_block (v4_number a b c d) (v4_number 203 0 113 0, 24)) with ((a =? 203) && (b =? 0) && (c =? 113)) by (symmetry; v4_block 24 256).
  replace (in_v4_block (v4_number a b c d) (v4_number 224 0 0 0, 3)) with ((224 <=? a)) by (symmetry; v4_block 3 536870912).
  unfold is_denied_v4. by rewrite orb_false_r, <- !orb_assoc.
Qed.

(** The broker's test denies exactly the addresses that are not globally reachable. *)
Lemma denied_exact address : ip_ok address → is_denied_address address = negb (globally_reachable address).
Proof.
  destruct address as [a b c d|bits]; intros Hok; cbn [is_denied_address globally_reachable].
  - rewrite negb_involutive. by apply denied_v4_blocks.
  - unfold is_denied_v6. rewrite negb_andb, negb_involutive.
    rewrite !in_prefix_block by (done || (vm_compute; done) || lia).
    change (Z.shiftl 8192 112) with (v6_new [8192; 0; 0; 0; 0; 0; 0; 0]). unfold v6_blocks. cbn [existsb].
    destruct (in_v6_block bits (v6_new [8192; 0; 0; 0; 0; 0; 0; 0], 3)); cbn [negb orb]; [|done].
    by rewrite orb_false_r, <- !orb_assoc.
Qed.

(** ** The environment with a log of the connections *)

Definition logged `{UrlCrate} {W} (env : Environment W) : Environment (W * list TransportRequest) := {|
  env_now := λ st, let '(t, w) := env_now env st.1 in (t, (w, st.2));
  env_resolve := λ name port timeout st,
    let '(r, w) := env_resolve env name port timeout st.1 in (r, (w, st.2));
  env_get := λ request st,
    let '(r, w) := env_get env request st.1 in (r, (w, st.2 ++ [request])) |}.

(** Usage within the limits. *)
Record usage_ok (limits : HttpLimits) (u : HttpUsage) : Prop := {
  ok_requests : 0 <= hu_requests u <= hl_max_requests limits;
  ok_redirects : 0 <= hu_redirects u <= hl_max_redirects limits;
  ok_response_headers : 0 <= hu_response_headers u <= hl_max_response_headers limits;
  ok_header_bytes : 0 <= hu_header_bytes u <= hl_max_header_bytes limits;
  ok_compressed : 0 <= hu_compressed_bytes u <= hl_max_compressed_bytes limits;
  ok_decoded : 0 <= hu_decoded_bytes u <= hl_max_decoded_bytes limits }.

(** A connection that the policy allows. *)
Record allowed `{UrlCrate} (policy : BrokerPolicy) (request : TransportRequest) : Prop := {
  allowed_url : url_scheme (trq_url request) = "https"%string ∧ str_is_empty (url_username (trq_url request)) = true
                ∧ url_password (trq_url request) = None ∧ url_fragment (trq_url request) = None
                ∧ str_len (url_text (trq_url request)) <= hl_max_url_bytes (bp_limits policy);
  allowed_origin : ∃ origin, CanonicalOrigin_from_url (trq_url request) = Ok origin ∧ origin ∈ bp_origins policy;
  allowed_port : url_port_or_known_default (trq_url request) = Some (sa_port (trq_selected_address request));
  allowed_host : match url_host (trq_url request) with
                 | Some (HostV4 a b c d) => sa_ip (trq_selected_address request) = V4 a b c d
                 | Some (HostV6 bits) => sa_ip (trq_selected_address request) = V6 bits
                 | Some (Domain _) => True
                 | None => False
                 end;
  allowed_address : ip_ok (sa_ip (trq_selected_address request)) →
                    globally_reachable (sa_ip (trq_selected_address request)) = true;
  allowed_by_host : sa_ip (trq_selected_address request) ∉ bp_denied_addresses policy;
  allowed_sizes : 0 <= trq_max_response_headers request <= hl_max_response_headers (bp_limits policy)
                  ∧ 0 <= trq_max_header_bytes request <= hl_max_header_bytes (bp_limits policy)
                  ∧ 0 <= trq_max_compressed_bytes request <= hl_max_compressed_bytes (bp_limits policy);
  allowed_times : 0 < trq_total_timeout request <= hl_total_timeout (bp_limits policy)
                  ∧ trq_connect_timeout request <= trq_total_timeout request
                  ∧ trq_first_byte_timeout request <= trq_total_timeout request
                  ∧ trq_idle_timeout request <= trq_total_timeout request }.

Lemma validate_https_url_ok `{UrlCrate} url maximum : validate_https_url url maximum = Ok tt →
  url_scheme url = "https"%string ∧ str_is_empty (url_username url) = true ∧ url_password url = None
  ∧ url_fragment url = None ∧ str_len (url_text url) <= maximum.
Proof.
  unfold validate_https_url. match goal with |- context [if ?b then _ else _] => destruct b eqn:E end; [done|]. intros _.
  rewrite !orb_false_iff, !negb_false_iff, Z.ltb_ge, String.eqb_eq in E. destruct E as ((((((? & ?) & ?) & Hp) & Hf) & _) & _).
  split_and!; [done|done|by destruct (url_password url)|by destruct (url_fragment url)|done].
Qed.

(** ** Reasoning about the broker *)

Section Confined.
Context {UC : UrlCrate} {GZ : Gzip} {W : Type} (env : Environment W) (policy : BrokerPolicy)
  (requests0 : Z) (log0 : list TransportRequest).
Abbreviation limits := (bp_limits policy).
Abbreviation BL := (@B (W * list TransportRequest)).

(** At every point: the limits hold, the connections so far are allowed and each was
    charged as a request. *)
Definition log_ok (log : list TransportRequest) : Prop := log0 `prefix_of` log ∧ Forall (allowed policy) log.
Definition inv (u : HttpUsage) (log : list TransportRequest) : Prop :=
  usage_ok limits u ∧ log_ok log ∧ len log <= hu_requests u - requests0.

Definition hoare {A} (P : HttpUsage → list TransportRequest → Prop) (m : BL A)
    (Q : A → HttpUsage → list TransportRequest → Prop) : Prop :=
  ∀ u w log, P u log → ∃ r u' w' log', m (u, (w, log)) = Some (r, (u', (w', log')))
    ∧ match r with Ok a => Q a u' log' | Err _ => inv u' log' end.
(** Computations that leave the usage and the log alone. *)
Definition reads {A} (m : BL A) (Q : A → Prop) : Prop :=
  ∀ u w log, ∃ r w', m (u, (w, log)) = Some (r, (u, (w', log))) ∧ match r with Ok a => Q a | Err _ => True end.

Lemma looks_ret {A} (a : A) (Q : A → Prop) : Q a → reads (mret a) Q.
Proof. intros HQ u w log. by exists (Ok a), w. Qed.
Lemma looks_lift {A} (r : result HttpError A) (Q : A → Prop) : (∀ a, r = Ok a → Q a) → reads (lift r) Q.
Proof. intros HQ u w log. exists r, w. split; [done|]. destruct r; [by apply HQ|done]. Qed.
Lemma looks_fail {A} e (Q : A → Prop) : reads (fail e) Q.
Proof. by apply looks_lift. Qed.
Lemma looks_bind {A C} (m : BL A) (f : A → BL C) Q R : reads m Q → (∀ a, Q a → reads (f a) R) → reads (m ≫= f) R.
Proof.
  intros Hm Hf u w log. destruct (Hm u w log) as (r & w' & E & HQ). unfold mbind, B_bind. rewrite E.
  destruct r as [a|e]; [by apply Hf|]. by exists (Err e), w'.
Qed.
Lemma looks_impl {A} (m : BL A) (Q R : A → Prop) : reads m Q → (∀ a, Q a → R a) → reads m R.
Proof. intros Hm HR u w log. destruct (Hm u w log) as (r & w' & E & HQ). exists r, w'. split; [done|]. destruct r; auto. Qed.

Lemma hoare_bind {A C} (m : BL A) (f : A → BL C) P Q R :
  hoare P m Q → (∀ a, hoare (Q a) (f a) R) → hoare P (m ≫= f) R.
Proof.
  intros Hm Hf u w log HP. destruct (Hm u w log HP) as (r & u' & w' & log' & E & HQ). unfold mbind, B_bind. rewrite E.
  destruct r as [a|e]; [by apply Hf|]. by exists (Err e), u', w', log'.
Qed.
Lemma hoare_reads {A C} (m : BL A) (f : A → BL C) (P : HttpUsage → list TransportRequest → Prop) Q R :
  reads m Q → (∀ u log, P u log → inv u log) → (∀ a, Q a → hoare P (f a) R) → hoare P (m ≫= f) R.
Proof.
  intros Hm HI Hf u w log HP. destruct (Hm u w log) as (r & w' & E & HQ). unfold mbind, B_bind. rewrite E.
  destruct r as [a|e]; [by apply Hf|]. exists (Err e), u, w', log. split; [done|by apply HI].
Qed.
Lemma hoare_fail {A} e P (Q : A → HttpUsage → list TransportRequest → Prop) : (∀ u log, P u log → inv u log) → hoare P (fail e) Q.
Proof. intros HI u w log HP. exists (Err e), u, w, log. split; [done|by apply HI]. Qed.
Lemma hoare_ret {A} (a : A) P (Q : A → HttpUsage → list TransportRequest → Prop) : (∀ u log, P u log → Q a u log) → hoare P (mret a) Q.
Proof. intros HQ u w log HP. exists (Ok a), u, w, log. split; [done|by apply HQ]. Qed.
Lemma hoare_charge f P Q : (∀ u log, P u log → inv u log) → (∀ u u' log, P u log → f u = Ok u' → Q tt u' log) →
  hoare P (charge f) Q.
Proof.
  intros HI HQ u w log HP. unfold charge. cbn [fst snd]. destruct (f u) as [u'|e] eqn:E.
  - exists (Ok tt), u', w, log. split; [done|by eapply HQ].
  - exists (Err e), u, w, log. split; [done|by apply HI].
Qed.

(** ** The steps that only look *)

Lemma now_reads : reads (now (logged env)) (λ _, True).
Proof. intros u w log. unfold now. cbn. destruct (env_now env w) as [t w']. by exists (Ok t), w'. Qed.

Lemma remaining_total_reads started : reads (remaining_total (logged env) policy started) (λ rest, 0 < rest <= hl_total_timeout limits).
Proof.
  eapply looks_bind; [apply now_reads|]. intros t _. cbn zeta. unfold saturating_sub.
  destruct (Z.leb_spec (hl_total_timeout limits) (Z.max (t - started) 0)); [apply looks_fail|]. apply looks_ret. lia.
Qed.
Lemma check_total_reads started : reads (check_total (logged env) policy started) (λ _, True).
Proof. eapply looks_bind; [apply remaining_total_reads|]. intros ? _. by apply looks_ret. Qed.
Lemma require_origin_reads url : reads (require_origin policy url : BL unit)
  (λ _, ∃ origin, CanonicalOrigin_from_url url = Ok origin ∧ origin ∈ bp_origins policy).
Proof.
  eapply looks_bind; [apply (looks_lift _ (λ origin, CanonicalOrigin_from_url url = Ok origin)); done|]. intros origin E.
  destruct (existsb _ _) eqn:Ex; [|apply looks_fail]. apply looks_ret. exists origin. split; [done|].
  apply existsb_exists in Ex as (x & Hin & ->%String.eqb_eq). by apply list_elem_of_In.
Qed.

Definition host_matches (host : Host) (address : SocketAddr) : Prop :=
  match host with
  | HostV4 a b c d => sa_ip address = V4 a b c d
  | HostV6 bits => sa_ip address = V6 bits
  | Domain _ => True
  end.
Lemma resolve_host_reads host port started :
  reads (resolve_host (logged env) policy host port started) (Forall (host_matches host)).
Proof.
  destruct host as [name|a b c d|bits]; cbn [resolve_host]; [|apply looks_ret; by repeat constructor..].
  eapply looks_bind; [apply remaining_total_reads|]. intros rest _. eapply looks_bind; [apply now_reads|]. intros before _.
  apply (looks_bind _ _ (λ _, True)).
  - intros u w log. unfold ask_resolver. cbn. destruct (env_resolve env _ _ _ w) as [r w']. exists r, w'. split; [done|by destruct r].
  - intros answer _. eapply looks_bind; [apply now_reads|]. intros after _. destruct (_ <? _); [apply looks_fail|].
    apply looks_ret. by apply Forall_true.
Qed.

Lemma insert_by_elem {A} cmp (x y : A) l : y ∈ insert_by cmp x l → y = x ∨ y ∈ l.
Proof.
  induction l as [|z l IH]; simpl; [by intros ->%list_elem_of_singleton; left|].
  destruct (is_gt _); rewrite !elem_of_cons; [tauto|]. intros [->|H]; [tauto|]. destruct (IH H); tauto.
Qed.
Lemma sort_by_elem {A} cmp (y : A) l : y ∈ sort_by cmp l → y ∈ l.
Proof.
  unfold sort_by. assert (∀ acc, y ∈ fold_left (λ acc x, insert_by cmp x acc) l acc → y ∈ acc ∨ y ∈ l) as H.
  { induction l as [|x l IH]; intros acc Hy; simpl in *; [by left|]. destruct (IH _ Hy) as [H|H]; [|by right; right].
    apply insert_by_elem in H as [->|H]; [right; by left|by left]. }
  intros Hy. by destruct (H [] Hy) as [?%not_elem_of_nil|].
Qed.
Lemma dedup_head {A} `{EqDecision A} (l : list A) : head (dedup l) = head l.
Proof.
  destruct l as [|x l]; [done|]. simpl. revert x. induction l as [|y l IH]; intros x; [done|]. simpl.
  destruct (bool_decide (x = y)) eqn:E; [|done]. apply IH.
Qed.

Definition selected_ok (url : Url) (address : SocketAddr) : Prop :=
  url_port_or_known_default url = Some (sa_port address)
  ∧ match url_host url with Some host => host_matches host address | None => False end
  ∧ (ip_ok (sa_ip address) → globally_reachable (sa_ip address) = true) ∧ sa_ip address ∉ bp_denied_addresses policy.

Lemma resolve_selected_reads url started : reads (resolve_selected (logged env) policy url started) (selected_ok url).
Proof.
  unfold resolve_selected.
  eapply looks_bind; [apply (looks_lift _ (λ port, url_port_or_known_default url = Some port)); by destruct (url_port_or_known_default url); intros ? [= ->]|].
  intros port Hport.
  eapply looks_bind; [apply (looks_lift _ (λ host, url_host url = Some host)); by destruct (url_host url); intros ? [= ->]|].
  intros host Hhost. eapply looks_bind; [apply resolve_host_reads|]. intros addresses Hall.
  destruct (_ || _); [apply looks_fail|]. destruct (existsb _ addresses) eqn:Ed; [apply looks_fail|].
  apply looks_lift. intros address. rewrite dedup_head. destruct (sort_by _ _) as [|a l] eqn:Es; [done|]. intros [= ->].
  assert (address ∈ addresses) as Hin.
  { apply (sort_by_elem socket_compare). rewrite Es. by left. }
  rewrite Forall_forall in Hall.
  assert (address_denied policy port address = false) as Hd.
  { destruct (address_denied policy port address) eqn:E; [|done]. rewrite <- Ed. symmetry. apply existsb_exists. exists address.
    split; [by apply list_elem_of_In|done]. }
  unfold address_denied in Hd. rewrite !orb_false_iff, negb_false_iff, Z.eqb_eq in Hd. destruct Hd as [[Hp Hip] Hby]. subst port.
  split_and!.
  - done.
  - rewrite Hhost. by apply Hall.
  - intros Hok. rewrite denied_exact in Hip by done. by apply negb_false_iff.
  - intros Hin'%list_elem_of_In. apply not_true_iff_false in Hby. apply Hby, existsb_exists. exists (sa_ip address).
    split; [done|]. by apply bool_decide_eq_true.
Qed.

(** ** The hops *)

Lemma len_nonneg {A} (l : list A) : 0 <= len l.
Proof. unfold len. lia. Qed.
Lemma ok_or_ok {A E} (o : option A) (e : E) a : ok_or o e = Ok a → o = Some a.
Proof. destruct o; [by intros [= ->]|done]. Qed.

Definition charged (u : HttpUsage) (log : list TransportRequest) : Prop := inv u log ∧ len log + 1 <= hu_requests u - requests0.

Lemma charge_request_ok u u' log : inv u log → charge_request limits u = Ok u' → charged u' log ∧ hu_redirects u' = hu_redirects u.
Proof.
  intros (Hu & Hl & Hn). unfold charge_request. destruct (u32_checked_add _ _) as [n|] eqn:E; [|done]. cbn [ok_or].
  destruct (Z.ltb_spec (hl_max_requests limits) n); [done|]. intros [= <-]. apply checked_Some in E as [_ ->].
  destruct Hu. split; [|done]. split; [split_and!; [constructor; cbn; lia|done|cbn; lia]|cbn; lia].
Qed.
Lemma charge_redirect_ok u u' log : inv u log → charge_redirect limits u = Ok u' → inv u' log ∧ hu_redirects u' = hu_redirects u + 1.
Proof.
  intros (Hu & Hl & Hn). unfold charge_redirect. destruct (u32_checked_add _ _) as [n|] eqn:E; [|done]. cbn [ok_or].
  destruct (Z.ltb_spec (hl_max_redirects limits) n); [done|]. intros [= <-]. apply checked_Some in E as [_ ->].
  destruct Hu. split; [|done]. split_and!; [constructor; cbn; lia|done|cbn; lia].
Qed.
Lemma charge_headers_ok count bytes u u' log : 0 <= count → 0 <= bytes → inv u log → charge_headers limits count bytes u = Ok u' →
  inv u' log ∧ hu_redirects u' = hu_redirects u.
Proof.
  intros Hc Hb (Hu & Hl & Hn). unfold charge_headers. destruct (u64_checked_add _ count) as [n|] eqn:E; [|done].
  destruct (u64_checked_add _ bytes) as [m|] eqn:E2; [|done]. cbn [ok_or].
  destruct (_ || _) eqn:Ex; [done|]. apply orb_false_iff in Ex as [E3%Z.ltb_ge E4%Z.ltb_ge]. intros [= <-].
  apply checked_Some in E as [_ ->]. apply checked_Some in E2 as [_ ->].
  destruct Hu. split; [|done]. split_and!; [constructor; cbn; lia|done|cbn; lia].
Qed.
Lemma charge_compressed_ok bytes u u' log : 0 <= bytes → inv u log → charge_compressed limits bytes u = Ok u' →
  inv u' log ∧ hu_redirects u' = hu_redirects u.
Proof.
  intros Hb (Hu & Hl & Hn). unfold charge_compressed. destruct (_ <? bytes); [done|].
  destruct (u64_checked_add _ _) as [n|] eqn:E; [|done]. cbn [ok_or].
  destruct (Z.ltb_spec (hl_max_compressed_bytes limits) n); [done|]. intros [= <-]. apply checked_Some in E as [_ ->].
  destruct Hu. split; [|done]. split_and!; [constructor; cbn; lia|done|cbn; lia].
Qed.

(** The transport reports a number of bytes, which is not negative. *)
Definition transport_ok : Prop := ∀ request w response w',
  env_get env request w = (Ok response, w') → 0 <= trs_header_bytes response.
Context (sound : transport_ok).

(** The last connection was for a URL. *)
Definition latest (url : Url) (log : list TransportRequest) : Prop := ∃ request, last log = Some request ∧ trq_url request = url.

Lemma transport_request_hoare url selected rest k :
  0 < rest <= hl_total_timeout limits → validate_https_url url (hl_max_url_bytes limits) = Ok tt →
  (∃ origin, CanonicalOrigin_from_url url = Ok origin ∧ origin ∈ bp_origins policy) → selected_ok url selected →
  hoare (λ u log, charged u log ∧ hu_redirects u = k) (transport_request policy url selected rest : BL _)
    (λ request u log, (charged u log ∧ hu_redirects u = k) ∧ allowed policy request ∧ trq_url request = url).
Proof.
  intros Hrest Hurl Horigin (Hport & Hhost & Hip & Hby) u w log [[Hi Hc] Hk]. unfold transport_request, usage, lift, mbind, B_bind.
  pose proof Hi as ([H1 H2 H3 H4 H5 H6] & _). cbn.
  unfold remaining_response_headers, remaining_header_bytes, remaining_compressed_bytes, remaining.
  rewrite !(proj2 (Z.ltb_ge _ _)) by lia. cbn. eexists (Ok _), u, w, log. split; [reflexivity|]. split; [done|].
  split; [|done]. constructor; cbn; try done; [by apply validate_https_url_ok|lia..].
Qed.

Lemma hop_hoare started url k : validate_https_url url (hl_max_url_bytes limits) = Ok tt →
  hoare (λ u log, inv u log ∧ hu_redirects u = k) (hop (logged env) policy started url)
    (λ _ u log, inv u log ∧ hu_redirects u = k ∧ latest url log).
Proof using sound.
  intros Hurl. unfold hop.
  eapply hoare_reads; [apply check_total_reads|by intros ?? [? _]|]. intros _ _.
  eapply hoare_reads; [apply require_origin_reads|by intros ?? [? _]|]. intros ? Horigin.
  eapply (hoare_bind _ _ _ (λ _ u log, charged u log ∧ hu_redirects u = k)).
  { apply hoare_charge; [by intros ?? [? _]|]. intros u u' log [Hi Hk] E. destruct (charge_request_ok _ _ _ Hi E). split; [done|congruence]. }
  intros _. assert (∀ u log, charged u log ∧ hu_redirects u = k → inv u log) as HI by (by intros ?? [[? _] _]).
  eapply hoare_reads; [apply resolve_selected_reads|done|]. intros selected Hsel.
  eapply hoare_reads; [apply remaining_total_reads|done|]. intros rest Hrest.
  eapply hoare_bind; [by apply transport_request_hoare|]. intros request.
  eapply (hoare_bind _ _ _ (λ raw u log, (inv u log ∧ hu_redirects u = k ∧ latest url log) ∧ 0 <= trs_header_bytes raw)).
  { intros u w log [[[(Hu & Hl & Hn) Hc] Hk] [Ha Hreq]]. unfold transport. cbn. destruct (env_get env request w) as [r w'] eqn:E.
    assert (inv u (log ++ [request])) as Hinv.
    { destruct Hl as [Hl0 Hl]. split_and!; [done|split; [by apply prefix_app_r|]|].
      - apply Forall_app. split; [done|by constructor].
      - unfold len in *. rewrite length_app. simpl. lia. }
    exists r, u, w', (log ++ [request]). split; [done|]. destruct r as [raw|e]; [|done].
    split; [|by eapply sound]. split_and!; [done|done|]. exists request. by rewrite last_snoc. }
  intros raw u w log [HP Hbytes]. revert u w log HP.
  change (hoare (λ u log, inv u log ∧ hu_redirects u = k ∧ latest url log)
    (check_total (logged env) policy started ≫= λ _,
     if negb (bool_decide (trs_peer_address raw = selected)) then fail peer_mismatch
     else charge (charge_headers limits (len (trs_headers raw)) (trs_header_bytes raw)) ≫= λ _,
          headers ← lift (normalize_headers (trs_headers raw) []);
          charge (charge_compressed limits (len (trs_compressed_body raw))) ≫= λ _, mret (raw, headers))
    (λ _ u log, inv u log ∧ hu_redirects u = k ∧ latest url log)).
  eapply hoare_reads; [apply check_total_reads|by intros ?? [? _]|]. intros _ _.
  destruct (negb _); [apply hoare_fail; by intros ?? [? _]|].
  eapply (hoare_bind _ _ _ (λ _ u log, inv u log ∧ hu_redirects u = k ∧ latest url log)).
  { apply hoare_charge; [by intros ?? [? _]|]. intros u u' log (Hi & Hk & Hlast) E.
    destruct (charge_headers_ok _ _ _ _ _ (len_nonneg _) Hbytes Hi E). split_and!; [done|congruence|done]. }
  intros _. eapply (hoare_reads _ _ _ (λ _, True)); [by apply looks_lift|by intros ?? [? _]|]. intros headers _.
  eapply (hoare_bind _ _ _ (λ _ u log, inv u log ∧ hu_redirects u = k ∧ latest url log)).
  { apply hoare_charge; [by intros ?? [? _]|]. intros u u' log (Hi & Hk & Hlast) E.
    destruct (charge_compressed_ok _ _ _ _ (len_nonneg _) Hi E). split_and!; [done|congruence|done]. }
  intros _. by apply hoare_ret.
Qed.

(** A redirect costs one of the redirects and leads to a valid URL. *)
Lemma redirect_hoare url headers k :
  hoare (λ u log, inv u log ∧ hu_redirects u = k) (redirect policy url headers : BL _)
    (λ target u log, (inv u log ∧ hu_redirects u = k + 1) ∧ validate_https_url target (hl_max_url_bytes limits) = Ok tt).
Proof.
  unfold redirect. eapply (hoare_bind _ _ _ (λ _ u log, inv u log ∧ hu_redirects u = k + 1)).
  { apply hoare_charge; [by intros ?? [? _]|]. intros u u' log [Hi Hk] E. destruct (charge_redirect_ok _ _ _ Hi E). split; [done|lia]. }
  intros _. assert (∀ u log, inv u log ∧ hu_redirects u = k + 1 → inv u log) as HI by (by intros ?? [? _]).
  eapply (hoare_reads _ _ _ (λ _, True)); [by apply looks_lift|done|]. intros [|location [|]] _; [by apply hoare_fail| |by apply hoare_fail].
  eapply (hoare_reads _ _ _ (λ _, True)); [by apply looks_lift|done|]. intros _ _.
  eapply (hoare_reads _ _ _ (λ _, True)); [by apply looks_lift|done|]. intros target _.
  eapply (hoare_reads _ _ _ (λ _, validate_https_url target (hl_max_url_bytes limits) = Ok tt)); [|done|].
  { apply looks_lift. intros []. by destruct (validate_https_url _ _) as [[]|]. }
  intros _ Ht. by apply hoare_ret.
Qed.

Lemma charge_decoded_ok usage bytes usage' : charge_decoded_usage usage bytes = Ok usage' → usage' = usage + bytes.
Proof. unfold charge_decoded_usage. intros H%ok_or_ok%checked_Some. tauto. Qed.
Lemma gzip_loop_bound compressed limit ratio chunks output usage r usage' :
  gzip_loop compressed limit ratio chunks output usage = (r, usage') → len output <= limit →
  usage <= usage' <= usage - len output + limit
  ∧ ∀ body, r = Ok body → usage' = usage - len output + len body ∧ (body = output ∨ len body <= compressed * ratio).
Proof.
  revert output usage. induction chunks as [|chunk chunks IH]; intros output usage H Ho; simpl in H.
  { injection H as <- <-. split; [lia|]. intros body [= ->]. split; [lia|by left]. }
  assert (0 <= len chunk) as Hc by (unfold len; lia).
  assert (len (output ++ chunk) = len output + len chunk) as Ha by (unfold len; rewrite length_app; lia).
  destruct (Z.ltb_spec limit (len output + len chunk)); [injection H as <- <-; split; [lia|done]|].
  destruct (charge_decoded_usage usage (len chunk)) as [u|e] eqn:E; [|injection H as <- <-; split; [lia|done]].
  apply charge_decoded_ok in E as ->.
  destruct (_ || _) eqn:Ex; [injection H as <- <-; split; [lia|done]|]. apply orb_false_iff in Ex as [_ Ex%Z.ltb_ge].
  destruct (IH _ _ H) as [H1 H2]; [lia|]. split; [lia|]. intros body Hb. destruct (H2 body Hb) as [-> [->|]]; split; try lia; right; lia.
Qed.
Lemma decode_body_bound headers compressed l usage r usage' : decode_body headers compressed l usage = (r, usage') →
  0 <= hl_max_decoded_bytes l →
  usage <= usage' <= usage + hl_max_decoded_bytes l ∧ ∀ body, r = Ok body → usage' = usage + len body.
Proof.
  intros H Hl. unfold decode_body in H. destruct (body_encoding headers) as [encoding|e]; [|injection H as <- <-; split; [lia|done]].
  destruct (String.eqb _ _).
  { destruct (Z.ltb_spec (hl_max_decoded_bytes l) (len compressed)); [injection H as <- <-; split; [lia|done]|].
    destruct (charge_decoded_usage _ _) as [u|e] eqn:E; injection H as <- <-; [|split; [lia|done]].
    apply charge_decoded_ok in E as ->. pose proof (len_nonneg compressed). split; [lia|]. by intros body [= ->]. }
  destruct (String.eqb _ _); [|injection H as <- <-; split; [lia|done]].
  unfold decode_gzip in H. destruct (gz_reads compressed) as [chunks ending].
  destruct (gzip_loop _ _ _ _ _ _) as [r' u] eqn:E. apply gzip_loop_bound in E as [E1 E2]; [|done].
  change (len []) with 0 in E1, E2.
  destruct r' as [output|e]; [|injection H as <- <-; split; [lia|done]]. destruct (E2 output eq_refl) as [-> _].
  repeat case_match; injection H as <- <-; (split; [lia|]); try done. intros body [= ->]. lia.
Qed.

Lemma finish_hoare url raw headers k : hoare (λ u log, inv u log ∧ hu_redirects u = k ∧ latest url log)
  (finish policy url raw headers : BL _)
  (λ response u log, inv u log ∧ (∃ request, last log = Some request ∧ hr_final_url response = url_text (trq_url request))
                     ∧ len (hr_body response) <= hu_decoded_bytes u).
Proof.
  intros u w log (Hi & Hk & request & Hlast & Hreq). pose proof Hi as ([H1 H2 H3 H4 H5 H6] & Hl & Hn).
  unfold finish, usage, lift, decode, remaining_decoded_bytes, remaining, mbind, B_bind. cbn [fst snd].
  rewrite (proj2 (Z.ltb_ge _ _)) by lia. destruct (decode_body _ _ _ _) as [r decoded] eqn:E.
  apply decode_body_bound in E as [E1 E2]; [|cbn; lia]. cbn [with_max_decoded hl_max_decoded_bytes] in E1.
  assert (inv (set_decoded decoded u) log) as Hinv by (split_and!; [constructor; cbn; lia|done|done]).
  destruct r as [body|e].
  - eexists (Ok _), _, w, log. split; [reflexivity|]. split_and!; [done|exists request; cbn; by rewrite Hreq|].
    cbn. rewrite (E2 body eq_refl). lia.
  - by exists (Err e), (set_decoded decoded u), w, log.
Qed.

(** ** The loop *)

Definition answered (response : HttpResponse) (u : HttpUsage) (log : list TransportRequest) : Prop :=
  inv u log ∧ (∃ request, last log = Some request ∧ hr_final_url response = url_text (trq_url request))
  ∧ len (hr_body response) <= hu_decoded_bytes u.

Lemma get_loop_hoare fuel started url k : hl_max_redirects limits - k < Z.of_nat fuel →
  validate_https_url url (hl_max_url_bytes limits) = Ok tt →
  hoare (λ u log, inv u log ∧ hu_redirects u = k) (get_loop (logged env) policy fuel started url) answered.
Proof using sound.
  revert url k. induction fuel as [|fuel IH]; intros url k Hf Hurl.
  { intros u w log [([? Hr] & _) Hk]. lia. }
  cbn [get_loop]. eapply hoare_bind; [by apply hop_hoare|]. intros [raw headers]. destruct (is_redirect _).
  - eapply hoare_bind.
    + intros u w log (Hi & Hk & _). by apply (redirect_hoare url headers k).
    + intros target u w log [HP Ht]. apply (IH target (k + 1)); [lia|done|done].
  - apply finish_hoare.
Qed.
Lemma get_hoare value : hoare inv (get (logged env) policy value) answered.
Proof using sound.
  apply (hoare_reads _ _ _ (λ _, True)); [apply now_reads|done|]. intros started _.
  apply (hoare_reads _ _ _ (λ url, validate_https_url url (hl_max_url_bytes limits) = Ok tt)); [|done|].
  { apply looks_lift. intros url. unfold parse_https_url. destruct (validate_raw_url_text _ _); [|done].
    destruct (url_parse value) as [parsed|]; [|done]. cbn [ok_or].
    destruct (validate_https_url parsed _) as [[]|] eqn:E; [|done]. by intros [= ->]. }
  intros url Hurl u w log Hi. apply (get_loop_hoare (hops policy) started url (hu_redirects u)); [|done|done].
  destruct Hi as ([] & _). unfold hops. lia.
Qed.
End Confined.

(** ** The life of a broker *)

(** The calls of a program, one after the other on the same broker. *)
Fixpoint get_all `{UrlCrate} `{Gzip} {W} (env : Environment W) (policy : BrokerPolicy) (values : list string)
    (st : HttpUsage * W) : option (list (result HttpError HttpResponse) * (HttpUsage * W)) :=
  match values with
  | [] => Some ([], st)
  | value :: values =>
    '(r, st) ← get env policy value st;
    '(rs, st) ← get_all env policy values st;
    Some (r :: rs, st)
  end.
(** The numbers of [HttpLimits] are unsigned. *)
Record limits_typed (l : HttpLimits) : Prop := {
  typed_requests : 0 <= hl_max_requests l; typed_redirects : 0 <= hl_max_redirects l;
  typed_response_headers : 0 <= hl_max_response_headers l; typed_header_bytes : 0 <= hl_max_header_bytes l;
  typed_compressed : 0 <= hl_max_compressed_bytes l; typed_decoded : 0 <= hl_max_decoded_bytes l }.
Definition within (policy : BrokerPolicy) `{UrlCrate} (log : list TransportRequest) (r : result HttpError HttpResponse) : Prop :=
  match r with
  | Ok response => len (hr_body response) <= hl_max_decoded_bytes (bp_limits policy)
                   ∧ ∃ request, request ∈ log ∧ hr_final_url response = url_text (trq_url request)
  | Err _ => True
  end.

Section Life.
Context {UC : UrlCrate} {GZ : Gzip} {W : Type} (env : Environment W).

(** The log only grows. *)
Lemma get_all_hoare policy values u w log : transport_ok env → inv policy 0 [] u log →
  ∃ rs u' w' log', get_all (logged env) policy values (u, (w, log)) = Some (rs, (u', (w', log')))
    ∧ inv policy 0 [] u' log' ∧ Forall (within policy log') rs ∧ log `prefix_of` log' ∧ length rs = length values.
Proof.
  intros Ht. revert u w log. induction values as [|value values IH]; intros u w log Hi.
  { exists [], u, w, log. by split_and!. }
  assert (inv policy 0 log u log) as Hi' by (destruct Hi as (? & [_ ?] & ?); by split_and!).
  destruct (get_hoare env policy 0 log Ht value u w log Hi') as (r & u1 & w1 & log1 & E & Hr). simpl. rewrite E. simpl.
  assert (inv policy 0 log u1 log1) as (Hu & [Hp Hall] & Hn) by (destruct r; [by destruct Hr|done]).
  destruct (IH u1 w1 log1) as (rs & u2 & w2 & log2 & E2 & Hi2 & Hrs & Hp2 & Hlen).
  { split_and!; [done|split; [apply prefix_nil|done]|done]. }
  rewrite E2. exists (r :: rs), u2, w2, log2. split_and!; [done|done| |by trans log1|by simpl; rewrite Hlen].
  constructor; [|done]. destruct r as [response|]; [|done]. destruct Hr as (_ & (request & Hlast & Hf) & Hb). destruct Hu. split; [lia|].
  exists request. split; [|done]. destruct Hp2 as [more ->]. apply elem_of_app. left. by apply last_Some_elem_of.
Qed.
Lemma collect_parse_origins origins l : collect CanonicalOrigin_parse origins = Ok l → l = origins.
Proof.
  revert l. induction origins as [|o origins IH]; intros l; simpl; [by intros [= <-]|].
  destruct (CanonicalOrigin_parse o) as [x|] eqn:E; [|done]. destruct (collect _ origins) as [l'|]; [|done]. intros [= <-].
  rewrite (IH l' eq_refl). f_equal. unfold CanonicalOrigin_parse in E. destruct (parse_https_url _ _) as [url|]; [|done].
  destruct (_ || _); [done|]. destruct (CanonicalOrigin_from_url url) as [origin|]; [|done].
  destruct (String.eqb_spec origin o); cbn in E; congruence.
Qed.

(** C21. A broker created for some origins, denied addresses and limits, over any clock,
    resolver and transport, and asked for any sequence of URLs: every call ends (a cycle
    of redirects too), and every connection it ever makes is to an https URL without
    credentials or fragment whose origin is one of the configured ones, at the URL's own
    port and address (the literal one where the host is an address), never at an address
    that is not globally reachable or that the host denied, with deadlines and sizes
    within the limits.  There are at most [max_requests] connections, the charged usage
    never passes a limit, also over redirects and errors, and a response's body is within
    the decoded limit and its final URL is that of a connection. *)
Theorem http_get_confined origins denied l policy u w values : transport_ok env → limits_typed l →
  new_with_denied_addresses origins denied l = Ok (policy, u) →
  ∃ results usage w' log, get_all (logged env) policy values (u, (w, [])) = Some (results, (usage, (w', log)))
    ∧ length results = length values ∧ bp_origins policy = origins ∧ bp_denied_addresses policy = denied
    ∧ bp_limits policy = l ∧ Forall (allowed policy) log ∧ Z.of_nat (length log) <= hu_requests usage
    ∧ usage_ok l usage ∧ Forall (within policy log) results.
Proof.
  intros Ht [] H. unfold new_with_denied_addresses in H.
  destruct (HttpLimits_validate l) as [l'|] eqn:El; [|done]. assert (l' = l) as ->.
  { revert El. unfold HttpLimits_validate. match goal with |- context [if ?b then _ else _] => destruct b end; congruence. }
  destruct (collect _ origins) as [os|] eqn:Eo; [|done]. apply collect_parse_origins in Eo as ->. injection H as <- <-.
  destruct (get_all_hoare {| bp_origins := origins; bp_denied_addresses := denied; bp_limits := l |} values
              HttpUsage_default w [] Ht) as (rs & usage & w' & log & E & (Hu & [_ Hall] & Hn) & Hrs & _ & Hlen).
  { split_and!; [constructor; cbn; lia|by split|done]. }
  exists rs, usage, w', log. split_and!; try done. unfold len in Hn. lia.
Qed.
End Life.

(** ** A broker that is redirected *)

(** URLs of one host, as text and path. *)
Definition example_url (text path : string) : string * string := (text, path).
#[local] Instance example_crate : UrlCrate := {|
  Url := string * string;
  url_parse := λ s, if String.eqb s "https://example.org" then Some (example_url "https://example.org/" "/")
                    else if String.eqb s "https://example.org/a" then Some (example_url s "/a") else None;
  url_join := λ _ s, if String.eqb s "/b" then Some (example_url "https://example.org/b" "/b") else None;
  url_text := fst; url_scheme := λ _, "https"%string; url_username := λ _, ""%string; url_password := λ _, None;
  url_fragment := λ _, None; url_host := λ _, Some (Domain "example.org"); url_host_str := λ _, Some "example.org"%string;
  url_port := λ _, None; url_port_or_known_default := λ _, Some 443; url_path := snd; url_query := λ _, None |}.
#[local] Instance example_gzip : Gzip := {| gz_reads := λ _, ([], None) |}.
(** The first answer is a redirect, the second one a body. *)
Definition example_env : Environment nat := {|
  env_now := λ n, (0, n);
  env_resolve := λ _ port _ n, (Ok [SocketAddr_new (V4 93 184 216 34) port], n);
  env_get := λ request n,
    (Ok {| trs_status := match n with O => 302 | S _ => 200 end;
           trs_headers := match n with O => [("Location"%string, [47; 98])] | S _ => [] end; trs_header_bytes := 20;
           trs_compressed_body := match n with O => [] | S _ => [104; 105] end;
           trs_peer_address := trq_selected_address request |}, S n) |}.
Definition example_policy : BrokerPolicy := {|
  bp_origins := ["https://example.org"%string]; bp_denied_addresses := []; bp_limits := HttpLimits_default |}.

Example redirected : ∃ usage log,
  get_all (logged example_env) example_policy ["https://example.org/a"%string] (HttpUsage_default, (O, [])) =
    Some ([Ok {| hr_status := 200; hr_final_url := "https://example.org/b"; hr_headers := []; hr_body := [104; 105] |}],
          (usage, (2%nat, log))) ∧ hu_requests usage = 2 ∧ map (λ r, url_path (trq_url r)) log = ["/a"; "/b"]%string.
Proof. do 2 eexists. vm_compute. done. Qed.
Lemma http_get_confined_witness : ∃ results usage w' log,
  get_all (logged example_env) example_policy ["https://example.org/a"%string] (HttpUsage_default, (O, [])) =
    Some (results, (usage, (w', log))) ∧ Forall (allowed example_policy) log ∧ Forall (within example_policy log) results.
Proof.
  destruct (http_get_confined example_env ["https://example.org"%string] [] HttpLimits_default example_policy
    HttpUsage_default O ["https://example.org/a"%string]) as (rs & u & w' & log & E & _ & _ & _ & _ & Hall & _ & _ & Hrs).
  - intros request w response w' [= <- _]. cbn. lia.
  - by constructor; vm_compute.
  - vm_compute. reflexivity.
  - exists rs, u, w', log. exact (conj E (conj Hall Hrs)).
Defined.
