(* ===== verification/HttpBody.v ===== *)
(** * The framing of response bodies ([crates/allen-http-get/src/broker.rs])

    [read_framed_body] and the readers under it.  [impl Read] is a source that delivers
    its bytes in segments, as a socket does, and then ends or fails. *)

From S2P Require Import Prelude.
From S2P Require Import Text.
From S2P Require Import JoshMessage.
From S2P Require Import ArtifactNames.
From S2P Require Import HttpPolicy.
From S2P Require Import HttpBroker.
Open Scope list_scope.
Open Scope Z_scope.

Inductive IoErrorKind := TimedOut | WouldBlock | UnexpectedEof | OtherError.
#[global] Instance IoErrorKind_eq_dec : EqDecision IoErrorKind.
Proof. solve_decision. Defined.
(** What a source still delivers, and its error when it does not just end. *)
Record Source := { src_segments : list (list Z); src_error : option IoErrorKind }.

Definition MAX_CHUNK_LINE_BYTES : nat := 1024.
Definition map_read_error (kind : IoErrorKind) (timeout : HttpErrorCode) : HttpError :=
  match kind with
  | TimedOut | WouldBlock => HttpError_new timeout "the response exceeded its deadline"
  | UnexpectedEof => protocol_error
  | OtherError => io_error
  end.

(** [Read::read] of a buffer of [n] bytes. *)
Definition read (n : nat) (src : Source) : result IoErrorKind (list Z) * Source :=
  match src_segments src with
  | [] => (match src_error src with None => Ok [] | Some kind => Err kind end, src)
  | segment :: segments =>
    (Ok (take n segment),
     {| src_segments := match drop n segment with [] => segments | rest => rest :: segments end;
        src_error := src_error src |})
  end.
(** [Read::read_exact]; each read but the last gives at least a byte. *)
Fixpoint read_exact (fuel n : nat) (output : list Z) (src : Source) : result IoErrorKind (list Z) * Source :=
  match fuel, n with
  | _, O => (Ok output, src)
  | O, _ => (Err UnexpectedEof, src)
  | S fuel, _ =>
    match read n src with
    | (Err kind, src) => (Err kind, src)
    | (Ok [], src) => (Err UnexpectedEof, src)
    | (Ok got, src) => read_exact fuel (n - length got) (output ++ got) src
    end
  end.

(** Computations with a source; no answer is the end of the fuel of a loop. *)
Definition R (A : Type) : Type := Source → option (result HttpError A * Source).
#[global] Instance R_ret : MRet R := λ A a src, Some (Ok a, src).
#[global] Instance R_bind : MBind R := λ A C f m src,
  match m src with
  | None => None
  | Some (Err e, src) => Some (Err e, src)
  | Some (Ok a, src) => f a src
  end.
Definition raise {A} (e : HttpError) : R A := λ src, Some (Err e, src).
Definition ok_or_raise {A} (o : option A) (e : HttpError) : R A :=
  match o with Some a => mret a | None => raise e end.

Definition read_bytes (n : nat) : R (list Z) := λ src,
  let '(r, src) := read_exact n n [] src in
  Some (map_err (λ kind, map_read_error kind IdleTimeout) r, src).
Definition read_exact_body (length : Z) : R (list Z) :=
  if usize_max <? length then raise compressed_limit else read_bytes (Z.to_nat length).

Fixpoint read_until_close (fuel : nat) (maximum : Z) (output : list Z) : R (list Z) := λ src,
  match fuel with
  | O => None
  | S fuel =>
    match read (8 * 1024) src with
    | (Ok [], src) | (Err UnexpectedEof, src) => Some (Ok output, src)
    | (Err kind, src) => Some (Err (map_read_error kind IdleTimeout), src)
    | (Ok got, src) =>
      if maximum <? len output + len got then Some (Err compressed_limit, src)
      else read_until_close fuel maximum (output ++ got) src
    end
  end.

(** [ends_with] of CR and LF, and the text before them. *)
Definition strip_crlf (output : list Z) : option (list Z) :=
  match rev output with
  | 10 :: 13 :: line => Some (rev line)
  | _ => None
  end.
Fixpoint read_crlf_line (fuel maximum : nat) (output : list Z) : R (list Z) :=
  match fuel with
  | O => λ _, None
  | S fuel =>
    byte ← read_bytes 1;
    let output := output ++ byte in
    match strip_crlf output with
    | Some line => mret line
    | None => if (maximum + 2 <? length output)%nat then raise protocol_error
              else read_crlf_line fuel maximum output
    end
  end.
Definition crlf_line (maximum : nat) : R (list Z) := read_crlf_line (maximum + 3) maximum [].

(** [u64::from_str_radix]: a sign [+] is accepted before digits. *)
Fixpoint radix_value (radix : Z) (value : Z) (digits : list Z) : option Z :=
  match digits with
  | [] => Some value
  | b :: digits =>
    d ← digit_of radix b;
    if u64_max <? value * radix + d then None else radix_value radix (value * radix + d) digits
  end.
Definition u64_from_str_radix (radix : Z) (text : list Z) : option Z :=
  match text with
  | [] => None
  | [43] => None
  | 43 :: digits => radix_value radix 0 digits
  | digits => radix_value radix 0 digits
  end.
(** [from_utf8], [trim] and the number. *)
Definition trimmed_number (radix : Z) (text : list Z) : option Z :=
  if utf8_valid text then u64_from_str_radix radix (bytes (trim (string_of_bytes text))) else None.
Definition chunk_size (line : list Z) : option Z :=
  if existsb (Z.eqb 59) line then None else trimmed_number 16 line.

Fixpoint read_chunked (fuel : nat) (maximum : Z) (output : list Z) : R (list Z) :=
  match fuel with
  | O => λ _, None
  | S fuel =>
    line ← crlf_line MAX_CHUNK_LINE_BYTES;
    size ← ok_or_raise (chunk_size line) protocol_error;
    if size =? 0 then
      trailer ← crlf_line MAX_CHUNK_LINE_BYTES;
      match trailer with
      | [] => mret output
      | _ => raise protocol_error
      end
    else
      next ← ok_or_raise (u64_checked_add (len output) size) compressed_limit;
      if maximum <? next then raise compressed_limit
      else
        chunk ← read_exact_body size;
        ending ← crlf_line 0;
        match ending with
        | [] => read_chunked fuel maximum (output ++ chunk)
        | _ => raise protocol_error
        end
  end.

Definition header_values (headers : list (string * list Z)) (name : string) : list (list Z) :=
  omap (λ header, if eq_ignore_ascii_case header.1 name then Some header.2 else None) headers.
Definition is_chunked (value : list Z) : bool :=
  utf8_valid value && eq_ignore_ascii_case (trim (string_of_bytes value)) "chunked".
(** The bytes still to come bound the loops. *)
Definition pending (src : Source) : nat := length (concat (src_segments src)).
Definition read_framed_body (status : Z) (headers : list (string * list Z)) (maximum : Z) : R (list Z) := λ src,
  if (status =? 204) || (status =? 304) then Some (Ok [], src)
  else
    match header_values headers "content-length", header_values headers "transfer-encoding" with
    | _ :: _, _ :: _ => raise protocol_error src
    | [], [value] => if is_chunked value then read_chunked (S (pending src)) maximum [] src else raise protocol_error src
    | [], _ :: _ => raise protocol_error src
    | [value], [] =>
      match trimmed_number 10 value with
      | None => raise protocol_error src
      | Some length => if maximum <? length then raise compressed_limit src else read_exact_body length src
      end
    | _ :: _, [] => raise protocol_error src
    | [], [] => read_until_close (S (pending src)) maximum [] src
    end.

