(* ===== verification/HttpFraming.v ===== *)
(** * The bodies of responses are framed exactly

    Whatever the segments in which a source delivers its bytes, [read_framed_body] ends,
    takes at most the maximum, and takes exactly the body that the headers announce. *)

From S2P Require Import Prelude.
From S2P Require Import Text.
From S2P Require Import JoshMessage.
From S2P Require Import ArtifactNames.
From S2P Require Import HttpPolicy.
From S2P Require Import HttpBroker.
From S2P Require Import HttpBody.
Open Scope list_scope.
Open Scope Z_scope.

(** ** Sources *)

Definition contents (src : Source) : list Z := concat (src_segments src).
(** A source that still delivers some bytes, in segments that are not empty, and then ends. *)
Definition delivers (src : Source) (bs : list Z) (e : option IoErrorKind) : Prop :=
  Forall (λ segment, segment ≠ []) (src_segments src) ∧ contents src = bs ∧ src_error src = e.

Lemma read_takes n src got src' : read n src = (Ok got, src') → contents src = got ++ contents src'.
Proof.
  unfold read, contents. destruct (src_segments src) as [|segment segments] eqn:E.
  - destruct (src_error src); [done|]. intros [= <- <-]. by rewrite E.
  - intros [= <- <-]. simpl. rewrite <- (take_drop n segment) at 1. rewrite <- app_assoc. f_equal. by destruct (drop n segment).
Qed.
Lemma read_delivers n src bs e : (0 < n)%nat → bs ≠ [] → delivers src bs e →
  ∃ got src', read n src = (Ok got, src') ∧ got ≠ [] ∧ (length got <= n)%nat
    ∧ bs = got ++ contents src' ∧ delivers src' (contents src') e.
Proof.
  intros Hn Hne (Hw & <- & <-). unfold read, contents in *. destruct (src_segments src) as [|segment segments] eqn:E; [done|].
  inversion Hw as [|?? Hs Hw']; subst. eexists _, _. split; [reflexivity|]. split_and!; cbn.
  - destruct segment, n; done || lia.
  - rewrite length_take. lia.
  - rewrite <- (take_drop n segment) at 1. rewrite <- app_assoc. f_equal. by destruct (drop n segment).
  - destruct (drop n segment) eqn:Ed; [done|]. split; [by constructor|done].
Qed.
Lemma read_ends n src e : delivers src [] e →
  read n src = (match e with None => Ok [] | Some kind => Err kind end, src).
Proof.
  intros (Hw & Hc & He). unfold read, contents in *. destruct (src_segments src) as [|segment segments]; [by rewrite He|].
  inversion Hw; subst. by destruct segment.
Qed.

(** [read_exact] takes its bytes from the front. *)
Lemma read_exact_takes fuel n output src out src' : read_exact fuel n output src = (Ok out, src') →
  ∃ got, out = output ++ got ∧ length got = n ∧ contents src = got ++ contents src'.
Proof.
  revert n output src. induction fuel as [|fuel IH]; intros [|n] output src H; cbn in H; try done.
  1, 2: injection H as <- <-; exists []; by rewrite app_nil_r.
  destruct (read (S n) src) as [[[|b got]|] src1] eqn:E; try done.
  assert (length (b :: got) <= S n)%nat as Hl.
  { unfold read in E. destruct (src_segments src); [by destruct (src_error src)|]. injection E as E _. rewrite <- E, length_take. lia. }
  apply read_takes in E. apply IH in H as (got' & -> & Hlen & Hc). exists ((b :: got) ++ got').
  split_and!; [by rewrite app_assoc|rewrite length_app; simpl in *; lia|]. by rewrite E, Hc, app_assoc.
Qed.
Lemma read_exact_delivers fuel n output src bs rest e : (n <= fuel)%nat → length bs = n → delivers src (bs ++ rest) e →
  ∃ src', read_exact fuel n output src = (Ok (output ++ bs), src') ∧ delivers src' rest e.
Proof.
  revert n output src bs. induction fuel as [|fuel IH]; intros n output src bs Hf Hl Hd.
  { destruct n; [|lia]. apply nil_length_inv in Hl as ->. exists src. by rewrite app_nil_r. }
  destruct n as [|n]. { apply nil_length_inv in Hl as ->. exists src. by rewrite app_nil_r. }
  destruct (read_delivers (S n) src (bs ++ rest) e) as (got & src1 & E & Hg & Hgl & Hb & Hd1); [lia|by destruct bs|done|].
  apply app_eq_inv in Hb as [(k & -> & Hk)|(k & -> & Hk)].
  - rewrite Hk in Hd1. rewrite length_app in Hl. assert (length got ≠ 0)%nat by (by destruct got).
    destruct (IH (length k) (output ++ got) src1 k) as (src' & E' & Hd'); [lia|done|done|]. exists src'. split; [|done].
    cbn [read_exact]. rewrite E. replace (S n - length got)%nat with (length k) by lia. rewrite app_assoc, <- E'. by destruct got.
  - rewrite length_app in Hgl. assert (k = []) as -> by (apply nil_length_inv; lia). rewrite app_nil_r in *. simpl in Hk. subst rest.
    exists src1. split; [|done]. cbn [read_exact]. rewrite E. replace (S n - length bs)%nat with 0%nat by lia.
    destruct bs; [done|]. by destruct fuel.
Qed.

(** ** The loops *)

Definition succeeds {A} (m : R A) (src : Source) (a : A) (rest : list Z) (e : option IoErrorKind) : Prop :=
  ∃ src', m src = Some (Ok a, src') ∧ delivers src' rest e.
Lemma succeeds_bind {A C} (m : R A) (f : A → R C) src a c rest rest' e : succeeds m src a rest e →
  (∀ src', delivers src' rest e → succeeds (f a) src' c rest' e) → succeeds (m ≫= f) src c rest' e.
Proof.
  intros (src1 & E & Hd) Hf. destruct (Hf src1 Hd) as (src2 & E2 & Hd2). exists src2. split; [|done].
  unfold mbind, R_bind. by rewrite E.
Qed.
Lemma succeeds_ret {A} (a : A) src rest e : delivers src rest e → succeeds (mret a) src a rest e.
Proof. intros Hd. by exists src. Qed.

Lemma read_bytes_succeeds n src bs rest e : length bs = n → delivers src (bs ++ rest) e → succeeds (read_bytes n) src bs rest e.
Proof.
  intros Hl Hd. destruct (read_exact_delivers n n [] src bs rest e) as (src' & E & Hd'); [lia|done|done|].
  exists src'. split; [|done]. unfold read_bytes. by rewrite E.
Qed.
Lemma read_exact_body_succeeds n src bs rest e : n <= u64_max → len bs = n → delivers src (bs ++ rest) e →
  succeeds (read_exact_body n) src bs rest e.
Proof.
  intros Hm Hl Hd. unfold read_exact_body. rewrite (proj2 (Z.ltb_ge _ _)) by done.
  apply read_bytes_succeeds; [unfold len in Hl; lia|done].
Qed.

(** No CR LF ends inside a line, also with the CR of its end. *)
Lemma strip_crlf_spec l line : strip_crlf l = Some line ↔ l = line ++ [13; 10].
Proof.
  unfold strip_crlf. split.
  - destruct (rev l) as [|x [|y r]] eqn:E; repeat case_match; try done; intros [= <-];
      apply (f_equal (@rev Z)) in E; rewrite rev_involutive in E; subst l; simpl; by rewrite <- app_assoc.
  - intros ->. rewrite rev_app_distr. simpl. by rewrite rev_involutive.
Qed.
Lemma read_crlf_line_succeeds fuel maximum output src todo line rest e : 10 ∉ line → (length line <= maximum)%nat →
  output ++ todo = line ++ [13; 10] → todo ≠ [] → (length todo <= fuel)%nat → delivers src (todo ++ rest) e →
  succeeds (read_crlf_line fuel maximum output) src line rest e.
Proof.
  intros Hno Hmax. revert output src todo. induction fuel as [|fuel IH]; intros output src [|b todo] Hfull Hne Hf Hd; simpl in Hf; try done; [lia|].
  cbn [read_crlf_line]. eapply succeeds_bind; [apply (read_bytes_succeeds 1 src [b] (todo ++ rest) e); done|]. intros src' Hd'. cbn zeta.
  destruct (strip_crlf (output ++ [b])) as [l|] eqn:E.
  - apply strip_crlf_spec in E. destruct todo as [|c todo].
    + assert (l = line) as -> by (rewrite E in Hfull; by apply app_inv_tail in Hfull). by apply succeeds_ret.
    + exfalso. replace (output ++ b :: c :: todo) with ((output ++ [b]) ++ c :: todo) in Hfull by (by rewrite <- app_assoc).
      rewrite E in Hfull. apply Hno.
      assert ((line ++ [13; 10]) !! (length l + 1)%nat = Some 10) as Hl.
      { rewrite <- Hfull, <- app_assoc, lookup_app_r by lia. by replace (length l + 1 - length l)%nat with 1%nat by lia. }
      assert (length l + length todo + 1 = length line)%nat as Hlen
        by (apply (f_equal length) in Hfull; rewrite !length_app in Hfull; simpl in Hfull; lia).
      apply lookup_app_Some in Hl as [Hl|[? Hl]]; [by eapply list_elem_of_lookup_2|].
      replace (length l + 1 - length line)%nat with 0%nat in Hl by lia. done.
  - destruct todo as [|c todo].
    { rewrite Hfull in E. assert (strip_crlf (line ++ [13; 10]) = Some line) by (by apply strip_crlf_spec). congruence. }
    assert (length output + S (S (length todo)) = length line + 2)%nat as Hl by (apply (f_equal length) in Hfull; rewrite !length_app in Hfull; done).
    destruct (Nat.ltb_spec (maximum + 2) (length (output ++ [b]))) as [Hlt|_]; [rewrite length_app in Hlt; simpl in Hlt; lia|].
    apply (IH _ _ (c :: todo)); [by rewrite <- app_assoc|done|simpl in *; lia|done].
Qed.
Lemma crlf_line_succeeds maximum src line rest e : 10 ∉ line → (length line <= maximum)%nat →
  delivers src (line ++ [13; 10] ++ rest) e → succeeds (crlf_line maximum) src line rest e.
Proof.
  intros. eapply (read_crlf_line_succeeds _ _ _ _ (line ++ [13; 10])); [done|done|done|by destruct line|rewrite length_app; simpl; lia|by rewrite <- app_assoc].
Qed.

(** Computations that end, and what they take when they succeed. *)
Definition ends {A} (m : R A) (src : Source) (Q : A → nat → Prop) : Prop :=
  ∃ r src', m src = Some (r, src') ∧ match r with Ok a => ∃ n, pending src = (n + pending src')%nat ∧ Q a n | Err _ => True end.
Lemma ends_bind {A C} (m : R A) (f : A → R C) src Q (P : C → nat → Prop) : ends m src Q →
  (∀ a n src', Q a n → pending src = (n + pending src')%nat → ends (f a) src' (λ c k, P c (n + k)%nat)) → ends (m ≫= f) src P.
Proof.
  intros (r & src1 & E & HQ) Hf. unfold mbind, R_bind, ends. rewrite E. destruct r as [a|err]; [|by exists (Err err), src1].
  destruct HQ as (n & Hn & HQ). destruct (Hf a n src1 HQ Hn) as (r & src2 & E2 & HP). exists r, src2. split; [done|].
  destruct r as [c|]; [|done]. destruct HP as (k & Hk & HP). exists (n + k)%nat. split; [lia|done].
Qed.
Lemma ends_ret {A} (a : A) src (Q : A → nat → Prop) : Q a 0%nat → ends (mret a) src Q.
Proof. intros HQ. exists (Ok a), src. split; [done|]. by exists 0%nat. Qed.
Lemma ends_raise {A} err src (Q : A → nat → Prop) : ends (raise err) src Q.
Proof. by exists (Err err), src. Qed.
Lemma ends_ok_or {A} (o : option A) err src (Q : A → nat → Prop) : (∀ a, o = Some a → Q a 0%nat) → ends (ok_or_raise o err) src Q.
Proof. destruct o; intros HQ; [by apply ends_ret, HQ|apply ends_raise]. Qed.

Lemma read_bytes_ends n src : ends (read_bytes n) src (λ bs k, length bs = n ∧ k = n).
Proof.
  unfold ends, read_bytes. destruct (read_exact n n [] src) as [[out|kind] src'] eqn:E; [|by eexists (Err _), src'].
  apply read_exact_takes in E as (got & -> & Hl & Hc). eexists (Ok _), src'. split; [done|]. exists n. split; [|done].
  unfold pending. fold (contents src) (contents src'). rewrite Hc, length_app. lia.
Qed.
Lemma crlf_line_ends fuel maximum output src : (maximum + 3 <= fuel + length output)%nat → (length output < maximum + 3)%nat →
  ends (read_crlf_line fuel maximum output) src (λ _ k, (0 < k)%nat).
Proof.
  revert output src. induction fuel as [|fuel IH]; intros output src Hf Ho; [lia|]. cbn [read_crlf_line].
  eapply ends_bind; [apply read_bytes_ends|]. intros byte n src' [Hb ->] _. cbn zeta.
  destruct (strip_crlf _); [apply ends_ret; lia|].
  destruct (Nat.ltb_spec (maximum + 2) (length (output ++ byte))) as [?|Hlt]; [apply ends_raise|]. rewrite length_app in Hlt.
  destruct (IH (output ++ byte) src') as (r & src2 & E & HQ); [rewrite length_app; lia|rewrite length_app; lia|].
  exists r, src2. split; [done|]. destruct r; [|done]. destruct HQ as (k & ? & ?). exists k. split; [done|lia].
Qed.
Lemma read_until_close_ends fuel maximum output src : (pending src < fuel)%nat → len output <= maximum →
  ends (read_until_close fuel maximum output) src (λ body _, len body <= maximum).
Proof.
  revert output src. induction fuel as [|fuel IH]; intros output src Hf Ho; [lia|].
  unfold ends. cbn [read_until_close]. destruct (read _ src) as [[[|b got]|kind] src1] eqn:E.
  - exists (Ok output), src1. split; [done|]. exists 0%nat. split; [|done]. apply read_takes in E. unfold pending. fold (contents src) (contents src1). by rewrite E.
  - apply read_takes in E. assert (pending src = length (b :: got) + pending src1)%nat as Hp.
    { unfold pending. fold (contents src) (contents src1). by rewrite E, length_app. }
    destruct (Z.ltb_spec maximum (len output + len (b :: got))); [by eexists (Err _), src1|].
    destruct (IH (output ++ b :: got) src1) as (r & src2 & E2 & HQ); [simpl in Hp; lia|unfold len in *; rewrite length_app; lia|].
    exists r, src2. split; [done|]. destruct r; [|done]. destruct HQ as (n & Hn & HQ). exists (length (b :: got) + n)%nat. split; [lia|done].
  - destruct kind; try (by eexists (Err _), src1). exists (Ok output), src1. split; [done|]. exists 0%nat. split; [|done].
    unfold read in E. destruct (src_segments src); [|done]. by injection E as _ <-.
Qed.
Lemma read_exact_body_ends n src : 0 <= n → ends (read_exact_body n) src (λ bs k, len bs = n).
Proof.
  intros Hn. unfold read_exact_body. destruct (_ <? _); [apply ends_raise|].
  destruct (read_bytes_ends (Z.to_nat n) src) as (r & src' & E & HQ). exists r, src'. split; [done|]. destruct r; [|done].
  destruct HQ as (k & Hk & Hl & ->). exists (Z.to_nat n). split; [done|]. unfold len. lia.
Qed.
Lemma digit_of_range radix b d : digit_of radix b = Some d → 0 <= d.
Proof.
  unfold digit_of, hex_digit. intros H. destruct (is_ascii_digit b) eqn:E1; [|destruct (between 97 102 b) eqn:E2; [|destruct (between 65 70 b) eqn:E3; [|done]]];
    [apply between_spec in E1|apply between_spec in E2|apply between_spec in E3]; destruct (_ <? _); simplify_eq; lia.
Qed.
Lemma radix_value_range radix value digits n : 0 <= radix → 0 <= value <= u64_max →
  radix_value radix value digits = Some n → 0 <= n <= u64_max.
Proof.
  intros Hr. revert value. induction digits as [|b digits IH]; intros value Hv H; simpl in H; [by injection H as <-|].
  destruct (digit_of radix b) as [d|] eqn:Ed; [|done]. simpl in H. apply digit_of_range in Ed.
  destruct (Z.ltb_spec u64_max (value * radix + d)); [done|]. apply (IH (value * radix + d)); [nia|done].
Qed.
Lemma trimmed_number_range radix text n : 0 <= radix → trimmed_number radix text = Some n → 0 <= n <= u64_max.
Proof.
  intros Hr. unfold trimmed_number, u64_from_str_radix. assert (0 <= 0 <= u64_max) as H0 by done.
  repeat case_match; try done; by apply (radix_value_range radix 0).
Qed.
Lemma chunk_size_range line n : chunk_size line = Some n → 0 <= n <= u64_max.
Proof. unfold chunk_size. case_match; [done|]. by apply trimmed_number_range. Qed.

Lemma read_chunked_ends fuel maximum output src : (pending src < fuel)%nat → len output <= maximum →
  ends (read_chunked fuel maximum output) src (λ body _, len body <= maximum).
Proof.
  revert output src. induction fuel as [|fuel IH]; intros output src Hf Ho; [lia|]. cbn [read_chunked].
  eapply ends_bind; [apply crlf_line_ends; simpl; lia|]. intros line n src1 Hn Hp.
  eapply ends_bind; [apply (ends_ok_or _ _ _ (λ size _, 0 <= size <= u64_max)), chunk_size_range|]. intros size k2 src2 Hs Hp2. cbn beta in Hs.
  destruct (Z.eqb_spec size 0).
  - eapply ends_bind; [apply crlf_line_ends; simpl; lia|]. intros [|] ????; [by apply ends_ret|apply ends_raise].
  - eapply ends_bind; [apply (ends_ok_or _ _ _ (λ next k, next = len output + size ∧ k = 0%nat))|].
    { intros next E%checked_Some. tauto. }
    intros next ? src3 [-> ->] Hp3. destruct (Z.ltb_spec maximum (len output + size)); [apply ends_raise|].
    eapply ends_bind; [apply read_exact_body_ends; lia|]. intros chunk k src4 Hc Hp4.
    eapply ends_bind; [apply crlf_line_ends; simpl; lia|]. intros [|] k5 src5 Hk5 Hp5; [|apply ends_raise].
    apply IH; [lia|]. unfold len in *. rewrite length_app. lia.
Qed.

(** ** Chunked bodies *)

(** A size in hexadecimal digits. *)
Definition hex_value (line : list Z) : Z := fold_left (λ v b, v * 16 + default 0 (digit_of 16 b)) line 0.
Definition size_line (line : list Z) (n : Z) : Prop :=
  line ≠ [] ∧ (length line <= MAX_CHUNK_LINE_BYTES)%nat ∧ Forall (λ b, is_hexdigit b = true) line ∧ hex_value line = n.
(** The chunks of a body on the wire. *)
Inductive chunked : list Z → list Z → Prop :=
| last_chunk line : size_line line 0 → chunked (line ++ [13; 10] ++ [13; 10]) []
| more_chunks line data wire body : size_line line (len data) → data ≠ [] → chunked wire body →
    chunked (line ++ [13; 10] ++ data ++ [13; 10] ++ wire) (data ++ body).

(** Visible ASCII text is not changed by [trim]. *)
Lemma scan_ascii l : Forall (λ b, 33 <= b <= 126) l → utf8_scan l = map (λ b, (Some b, 1%nat)) l.
Proof. induction 1 as [|b l Hb _ IH]; [done|]. simpl. rewrite (proj2 (Z.ltb_lt b 128)) by lia. by rewrite IH. Qed.
Lemma drop_while_visible l : Forall (λ b, 33 <= b <= 126) l → drop_while is_whitespace l = l.
Proof.
  destruct 1 as [|b l Hb _]; [done|]. simpl. assert (is_whitespace b = false) as ->; [|done].
  unfold is_whitespace. rewrite ?orb_false_iff, ?Z.eqb_neq. repeat split; try lia; try (apply between_false; lia).
Qed.
Lemma visible_bytes l : Forall (λ b, 33 <= b <= 126) l → bytes (string_of_bytes l) = l.
Proof. intros Hl. apply bytes_string_of_bytes. eapply Forall_impl; [done|]. intros b Hb. apply in_unsigned_spec. unfold u8_max. simpl in Hb. lia. Qed.
Lemma trim_visible l : Forall (λ b, 33 <= b <= 126) l → trim (string_of_bytes l) = string_of_bytes l.
Proof.
  intros Hl. unfold trim, chars. rewrite visible_bytes, scan_ascii, map_map by done. rewrite (map_ext _ (λ b, b)), map_id by done.
  rewrite (drop_while_visible l) by done.
  rewrite drop_while_visible by (by apply Forall_rev). rewrite rev_involutive. f_equal.
  induction Hl as [|b l Hb _ IH]; [done|]. simpl. rewrite IH. unfold utf8_encode. by rewrite (proj2 (Z.ltb_lt b 128)) by lia.
Qed.
Lemma hexdigit_of b : is_hexdigit b = true → ∃ d, digit_of 16 b = Some d ∧ 0 <= d < 16.
Proof.
  unfold is_hexdigit, digit_of, hex_digit. intros H. destruct (is_ascii_digit b) eqn:E1; [|destruct (between 97 102 b) eqn:E2; [|destruct (between 65 70 b) eqn:E3; [|done]]];
    [apply between_spec in E1|apply between_spec in E2|apply between_spec in E3]; eexists; (split; [rewrite (proj2 (Z.ltb_lt _ _)) by lia; reflexivity|lia]).
Qed.
Lemma hex_monotone l v : Forall (λ b, is_hexdigit b = true) l → 0 <= v →
  v <= fold_left (λ v b, v * 16 + default 0 (digit_of 16 b)) l v.
Proof.
  intros Hl. revert v. induction Hl as [|b l Hb _ IH]; intros v Hv; simpl; [lia|].
  destruct (hexdigit_of b Hb) as (d & -> & Hd). simpl. specialize (IH (v * 16 + d)). lia.
Qed.
Lemma radix_hex l v : Forall (λ b, is_hexdigit b = true) l → 0 <= v →
  fold_left (λ v b, v * 16 + default 0 (digit_of 16 b)) l v <= u64_max →
  radix_value 16 v l = Some (fold_left (λ v b, v * 16 + default 0 (digit_of 16 b)) l v).
Proof.
  intros Hl. revert v. induction Hl as [|b l Hb Hl IH]; intros v Hv; simpl; [done|].
  destruct (hexdigit_of b Hb) as (d & -> & Hd). simpl. intros Hm. pose proof (hex_monotone l (v * 16 + d) Hl ltac:(lia)).
  rewrite (proj2 (Z.ltb_ge _ _)) by lia. apply IH; [lia|done].
Qed.
Lemma hexdigit_visible b : is_hexdigit b = true → 48 <= b <= 102 ∧ b ≠ 59.
Proof. unfold is_hexdigit, is_ascii_digit. rewrite !orb_true_iff, !between_spec. lia. Qed.
Lemma size_line_chunk line n : size_line line n → n <= u64_max → chunk_size line = Some n ∧ 10 ∉ line.
Proof.
  intros (Hne & _ & Hx & Hv) Hn.
  assert (Forall (λ b, 33 <= b <= 126) line) as Hvis by (eapply Forall_impl; [done|]; intros b Hb%hexdigit_visible; simpl; lia).
  split.
  - unfold chunk_size. replace (existsb (Z.eqb 59) line) with false.
    2: { symmetry. apply not_true_iff_false. intros (b & Hin%list_elem_of_In & Hb%Z.eqb_eq)%existsb_exists. rewrite Forall_forall in Hx.
         apply Hx, hexdigit_visible in Hin. lia. }
    unfold trimmed_number. replace (utf8_valid line) with true.
    2: { symmetry. unfold utf8_valid. rewrite scan_ascii by done. apply forallb_forall. by intros ? (b & <- & _)%in_map_iff. }
    rewrite trim_visible, visible_bytes by done. transitivity (radix_value 16 0 line).
    + destruct line as [|b line]; [done|]. apply Forall_cons in Hx as [Hb%hexdigit_visible _].
      unfold u64_from_str_radix. repeat case_match; try done; lia.
    + subst n. by apply radix_hex.
  - intros Hin. rewrite Forall_forall in Hvis. specialize (Hvis 10 Hin). simpl in Hvis. lia.
Qed.
Lemma read_chunked_succeeds wire body fuel maximum output src rest e : chunked wire body → (length wire < fuel)%nat →
  maximum <= u64_max → len output + len body <= maximum → delivers src (wire ++ rest) e →
  succeeds (read_chunked fuel maximum output) src (output ++ body) rest e.
Proof.
  intros Hc. revert fuel output src. induction Hc as [line Hline|line data wire body Hline Hne _ IH]; intros fuel output src Hf Hm Hb Hd;
    (destruct fuel as [|fuel]; [lia|]); cbn [read_chunked].
  - destruct (size_line_chunk _ _ Hline) as [Es Hno]; [done|]. destruct Hline as (_ & Hl & _). rewrite <- !app_assoc in Hd.
    eapply succeeds_bind; [by apply crlf_line_succeeds|]. intros src1 Hd1. rewrite Es. cbn [ok_or_raise].
    eapply succeeds_bind; [by apply succeeds_ret|]. intros src2 Hd2. cbn [Z.eqb].
    eapply succeeds_bind; [apply (crlf_line_succeeds _ _ []); [by intros ?%not_elem_of_nil|simpl; lia|done]|].
    intros src3 Hd3. rewrite app_nil_r. by apply succeeds_ret.
  - assert (0 < len data) as Hpos by (destruct data; [done|unfold len; simpl; lia]).
    assert (len (data ++ body) = len data + len body) as Hlen by (unfold len; rewrite length_app; lia).
    assert (0 <= len output ∧ 0 <= len body) as [Ho Hbody] by (unfold len; lia).
    destruct (size_line_chunk _ _ Hline) as [Es Hno]; [lia|]. destruct Hline as (_ & Hl & _). rewrite <- !app_assoc in Hd.
    eapply succeeds_bind; [by apply crlf_line_succeeds|]. intros src1 Hd1. rewrite Es. cbn [ok_or_raise].
    eapply succeeds_bind; [by apply succeeds_ret|]. intros src2 Hd2. rewrite (proj2 (Z.eqb_neq _ _)) by lia.
    unfold u64_checked_add, checked. rewrite (proj2 (in_unsigned_spec _ _)) by lia. cbn [ok_or_raise].
    eapply succeeds_bind; [by apply succeeds_ret|]. intros src3 Hd3. rewrite (proj2 (Z.ltb_ge _ _)) by lia.
    eapply succeeds_bind; [apply (read_exact_body_succeeds _ _ data); [lia|done|done]|]. intros src4 Hd4.
    eapply succeeds_bind; [apply (crlf_line_succeeds _ _ []); [by intros ?%not_elem_of_nil|simpl; lia|done]|]. intros src5 Hd5.
    rewrite app_assoc. apply IH; [rewrite !length_app in Hf; simpl in Hf; lia|done|unfold len in *; rewrite !length_app in *; lia|done].
Qed.

Lemma read_until_close_succeeds fuel maximum output src bs e : (length bs < fuel)%nat → len output + len bs <= maximum →
  e = None ∨ e = Some UnexpectedEof → delivers src bs e → succeeds (read_until_close fuel maximum output) src (output ++ bs) [] e.
Proof.
  revert output src bs. induction fuel as [|fuel IH]; intros output src bs Hf Hm He Hd; [lia|].
  unfold succeeds. cbn [read_until_close]. destruct bs as [|b bs].
  - rewrite (read_ends _ _ _ Hd), app_nil_r. by destruct He as [-> | ->]; exists src.
  - destruct (read_delivers (8 * 1024) src (b :: bs) e) as (got & src1 & E & Hg & _ & Hb & Hd1); [lia|done|done|]. rewrite E.
    destruct got as [|c got]; [done|]. rewrite Hb in Hf, Hm. unfold len in Hm. rewrite length_app in Hf, Hm.
    rewrite (proj2 (Z.ltb_ge _ _)) by (unfold len; lia). rewrite Hb, app_assoc.
    apply IH; [simpl in Hf; lia|unfold len; rewrite length_app; lia|done|done].
Qed.

(** ** The body of a response *)

(** C26. Reading a body ends for every source, however it segments its bytes and wherever
    it fails, and never gives more than the maximum.  A source gives exactly the bytes
    that a single Content-Length announces, the body of a well-formed chunked encoding
    when that is the only framing, or all its bytes when there is no framing and it
    closes; the bytes after the body are left in the source.  Both framings at once are
    refused. *)
Theorem framed_body_exact status headers maximum src : 0 <= maximum <= u64_max →
  (∃ r src', read_framed_body status headers maximum src = Some (r, src')
     ∧ ∀ body, r = Ok body → Z.of_nat (length body) <= maximum)
  ∧ (status ≠ 204 → status ≠ 304 →
     match header_values headers "content-length", header_values headers "transfer-encoding" with
     | [value], [] => ∀ body rest e, delivers src (body ++ rest) e → trimmed_number 10 value = Some (len body) →
         len body <= maximum → succeeds (read_framed_body status headers maximum) src body rest e
     | [], [value] => ∀ wire body rest e, delivers src (wire ++ rest) e → is_chunked value = true → chunked wire body →
         len body <= maximum → succeeds (read_framed_body status headers maximum) src body rest e
     | [], [] => ∀ body e, delivers src body e → e = None ∨ e = Some UnexpectedEof → len body <= maximum →
         succeeds (read_framed_body status headers maximum) src body [] e
     | _, _ => read_framed_body status headers maximum src = Some (Err protocol_error, src)
     end).
Proof.
  intros Hmax. assert (∀ m, ends m src (λ body _, len body <= maximum) →
    ∃ r src', m src = Some (r, src') ∧ ∀ body : list Z, r = Ok body → Z.of_nat (length body) <= maximum) as Hends.
  { intros m (r & src' & E & H). exists r, src'. split; [done|]. intros body ->. by destruct H as (_ & _ & H). }
  split.
  - apply Hends. unfold ends, read_framed_body. destruct (_ || _); [exists (Ok []), src; split; [done|]; exists 0%nat; split; [done|apply Hmax]|].
    destruct (header_values headers "content-length") as [|value [|]], (header_values headers "transfer-encoding") as [|transfer [|]];
      try apply ends_raise.
    + apply read_until_close_ends; [lia|apply Hmax].
    + destruct (is_chunked transfer); [|apply ends_raise]. apply read_chunked_ends; [lia|apply Hmax].
    + destruct (trimmed_number 10 value) as [n|] eqn:E; [|apply ends_raise]. apply trimmed_number_range in E; [|done].
      destruct (Z.ltb_spec maximum n); [apply ends_raise|].
      destruct (read_exact_body_ends n src) as (r & src' & E' & HQ); [lia|]. exists r, src'. split; [done|]. destruct r; [|done].
      destruct HQ as (k & ? & HQ). exists k. split; [done|lia].
  - intros H1 H2. assert ((status =? 204) || (status =? 304) = false) as Es by (by rewrite !(proj2 (Z.eqb_neq _ _))).
    unfold succeeds, read_framed_body. rewrite Es.
    destruct (header_values headers "content-length") as [|value [|]], (header_values headers "transfer-encoding") as [|transfer [|]]; try done.
    + intros body e Hd He Hb. apply (read_until_close_succeeds _ _ []); [|done|done|done]. destruct Hd as (_ & <- & _). unfold pending, contents. lia.
    + intros wire body rest e Hd -> Hc Hb. apply (read_chunked_succeeds wire body _ _ [] _ rest); [done| |lia|done|done].
      destruct Hd as (_ & Hd & _). unfold pending. fold (contents src). rewrite Hd, length_app. lia.
    + intros body rest e Hd -> Hb. rewrite (proj2 (Z.ltb_ge _ _)) by lia. apply read_exact_body_succeeds; [lia|done|done].
Qed.

Example chunked_hello : chunked (bytes "3" ++ [13; 10] ++ bytes "hel" ++ [13; 10] ++ bytes "2" ++ [13; 10] ++ bytes "lo" ++ [13; 10] ++ bytes "0" ++ [13; 10; 13; 10]) (bytes "hello").
Proof.
  apply (more_chunks (bytes "3") (bytes "hel") _ (bytes "lo")); [by split_and!; [|unfold MAX_CHUNK_LINE_BYTES; simpl; lia|repeat constructor|]|done|].
  apply (more_chunks (bytes "2") (bytes "lo") _ []); [by split_and!; [|unfold MAX_CHUNK_LINE_BYTES; simpl; lia|repeat constructor|]|done|].
  apply (last_chunk (bytes "0")). by split_and!; [|unfold MAX_CHUNK_LINE_BYTES; simpl; lia|repeat constructor|].
Qed.
Definition hello_source : Source := {|
  src_segments := [bytes "3" ++ [13]; [10] ++ bytes "he"; bytes "l" ++ [13; 10] ++ bytes "2" ++ [13; 10] ++ bytes "lo" ++ [13; 10];
                   bytes "0" ++ [13; 10; 13]; [10] ++ bytes "next"];
  src_error := Some TimedOut |}.
Lemma framed_body_exact_witness :
  succeeds (read_framed_body 200 [("Transfer-Encoding"%string, bytes " Chunked")] 5) hello_source (bytes "hello") (bytes "next") (Some TimedOut).
Proof.
  destruct (framed_body_exact 200 [("Transfer-Encoding"%string, bytes " Chunked")] 5 hello_source) as [_ H]; [by vm_compute|].
  refine (H _ _ _ (bytes "hello") (bytes "next") (Some TimedOut) _ _ chunked_hello _); [done|done| |by vm_compute|by vm_compute].
  split_and!; [by repeat constructor|by vm_compute|done].
Defined.

(** A sign is accepted before the digits of a chunk's size. *)
Lemma signed_chunk_size : chunk_size (bytes "+2") = Some 2.
Proof. reflexivity. Qed.
