(* ===== verification/ExecPolicy.v ===== *)
(** * Commands that programs may run

    The command patterns of [crates/allen-exec/src/lib.rs], the requests of a package
    manifest for them ([crates/allen-package/src/manifest.rs]) and the host's grants,
    which may be narrower than a request and never broader. *)

From S2P Require Import Prelude.
From S2P Require Import Text.
From S2P Require Import VmOps.
From S2P Require Import ArtifactNames.
From S2P Require Import ArtifactTables.
From S2P Require Import HttpBroker.
Open Scope string_scope.
Open Scope list_scope.
Open Scope Z_scope.

(** ** Patterns *)

Record CommandPattern := { cp_canonical : string; cp_prefix : list string; cp_remaining_wildcard : bool }.

(** One token; the last one may be the wildcard. *)
Definition token_refused (is_last : bool) (token : string) : bool :=
  let final_wildcard := String.eqb token "*" && is_last in
  (str_is_empty token || (str_contains "*" token && negb final_wildcard))
  || (negb final_wildcard
      && existsb (λ b, negb (is_ascii_graphic b) || ((b =? 39) || (b =? 34) || (b =? 92))) (bytes token)).
Fixpoint tokens_refused (tokens : list string) : bool :=
  match tokens with
  | [] => false
  | token :: rest => token_refused (match rest with [] => true | _ => false end) token || tokens_refused rest
  end.
(** No answer is [CommandPatternError]. *)
Definition CommandPattern_parse (pattern : string) : option CommandPattern :=
  if str_is_empty pattern || starts_with " " pattern || ends_with " " pattern || str_contains "  " pattern then None
  else
    let tokens := split_char " "%char pattern in
    match tokens with
    | [] => None
    | binary :: _ =>
      if str_contains "/" binary || String.eqb binary "*" then None
      else if tokens_refused tokens then None
      else
        let remaining_wildcard := bool_decide (last tokens = Some "*") in
        Some {| cp_canonical := pattern; cp_prefix := if remaining_wildcard then removelast tokens else tokens;
                cp_remaining_wildcard := remaining_wildcard |}
    end.
Definition CommandPattern_as_str (self : CommandPattern) : string := cp_canonical self.
Definition CommandPattern_executable (self : CommandPattern) : string := default "" (head (cp_prefix self)).
Definition CommandPattern_matches (self : CommandPattern) (argv : list string) : bool :=
  if (cp_remaining_wildcard self && (length argv <? length (cp_prefix self))%nat)
     || (negb (cp_remaining_wildcard self) && negb (length argv =? length (cp_prefix self))%nat)
  then false
  else forallb (λ it : string * string, String.eqb it.1 it.2) (zip (cp_prefix self) argv).
(** [slice::starts_with] *)
Fixpoint slice_starts_with (l needle : list string) {struct needle} : bool :=
  match needle, l with
  | [], _ => true
  | x :: needle, y :: l => String.eqb x y && slice_starts_with l needle
  | _ :: _, [] => false
  end.
Definition CommandPattern_covers (self grant : CommandPattern) : bool :=
  if cp_remaining_wildcard self then slice_starts_with (cp_prefix grant) (cp_prefix self)
  else negb (cp_remaining_wildcard grant) && bool_decide (cp_prefix grant = cp_prefix self).

(** ** Requests of a manifest *)

Record ExecRequests := { er_commands : list string; er_environment : list string }.
Inductive PackageErrorCode :=
| PackageIo | InvalidManifest | InvalidLockfile | NonCanonicalLockfile | InvalidName | InvalidVersion
| InvalidLanguage | InvalidEntry | InvalidCapability | InvalidTool | InvalidLimit | InvalidDependency
| PathEscape | Symlink | SpecialFile | MissingSource | DependencyCycle | DuplicateIdentity | VersionConflict
| LanguageConflict | PackageLimit | DependencyDepthLimit | ModuleLimit | SourceBytesLimit | LockMismatch.
Record PackageError := { pe_code : PackageErrorCode; pe_path : option string; pe_message : string }.
Definition invalid_capability (message : string) : PackageError := {| pe_code := InvalidCapability; pe_path := None; pe_message := message |}.

Definition validate_exec_command (pattern : string) : result PackageError unit :=
  match CommandPattern_parse pattern with
  | Some _ => Ok tt
  | None => Err (invalid_capability ("exec command pattern '" ++ pattern ++ "' is not canonical"))
  end.
Definition is_environment_name (name : string) : bool :=
  match bytes name with
  | [] => false
  | first :: rest =>
    (is_ascii_alphabetic first || (first =? 95)) && forallb (λ b, is_ascii_alphanumeric b || (b =? 95)) rest
  end.
Definition validate_environment_name (name : string) : result PackageError unit :=
  if negb (is_environment_name name)
  then Err (invalid_capability ("exec environment name '" ++ name ++ "' is not canonical"))
  else if eq_ignore_ascii_case name "LC_ALL" || eq_ignore_ascii_case name "TZ"
  then Err (invalid_capability ("exec environment name '" ++ name ++ "' is reserved by the host"))
  else Ok tt.
Definition sort_dedup (names : list string) : list string := dedup (sort_by str_compare names).
Definition validate_exec (exec : ExecRequests) : result PackageError ExecRequests :=
  try? for_each validate_exec_command (er_commands exec) in
  let commands := sort_dedup (er_commands exec) in
  try? for_each validate_environment_name (er_environment exec) in
  Ok {| er_commands := commands; er_environment := sort_dedup (er_environment exec) |}.

Definition command_pattern_matches (pattern : string) (argv : list string) : bool :=
  match CommandPattern_parse pattern with Some pattern => CommandPattern_matches pattern argv | None => false end.
Definition command_pattern_covers (request grant : string) : bool :=
  match CommandPattern_parse request with
  | Some request =>
    match CommandPattern_parse grant with Some grant => CommandPattern_covers request grant | None => false end
  | None => false
  end.
Definition allows_exec_argv (exec : ExecRequests) (argv : list string) : bool :=
  existsb (λ pattern, command_pattern_matches pattern argv) (er_commands exec).
Definition allows_exec_grant (exec : ExecRequests) (grant : string) : bool :=
  match validate_exec_command grant with
  | Ok _ => existsb (λ request, command_pattern_covers request grant) (er_commands exec)
  | Err _ => false
  end.

(** ** What patterns accept *)

(** The argument vectors of a pattern: the prefix, and anything after it with a wildcard. *)
Lemma slice_starts_with_spec l needle : slice_starts_with l needle = true ↔ ∃ rest, l = needle ++ rest.
Proof.
  revert l. induction needle as [|x needle IH]; intros l; simpl; [split; [intros _; by exists l|done]|].
  destruct l as [|y l]; [split; [done|by intros [rest ?]]|]. rewrite andb_true_iff, IH.
  split; [intros [->%String.eqb_eq [rest ->]]; by exists rest|]. intros [rest [= -> ->]]. split; [apply String.eqb_refl|by exists rest].
Qed.
Lemma zip_prefix prefix argv : (length prefix <= length argv)%nat →
  forallb (λ it : string * string, String.eqb it.1 it.2) (zip prefix argv) = slice_starts_with argv prefix.
Proof.
  revert argv. induction prefix as [|x prefix IH]; intros [|y argv] Hl; simpl in *; try done; [lia|]. rewrite <- IH by lia. done.
Qed.
Lemma matches_spec self argv : CommandPattern_matches self argv = true ↔
  ∃ rest, argv = cp_prefix self ++ rest ∧ (cp_remaining_wildcard self = true ∨ rest = []).
Proof.
  unfold CommandPattern_matches. split.
  - destruct (cp_remaining_wildcard self); simpl.
    + destruct (Nat.ltb_spec (length argv) (length (cp_prefix self))); [done|]. cbn [orb]. rewrite zip_prefix by lia.
      intros [rest ->]%slice_starts_with_spec. exists rest. auto.
    + destruct (Nat.eqb_spec (length argv) (length (cp_prefix self))) as [Hl|]; [|done]. cbn [negb]. rewrite zip_prefix by lia.
      intros [rest ->]%slice_starts_with_spec. exists rest. rewrite length_app in Hl. split; [done|]. right. apply nil_length_inv. lia.
  - intros (rest & -> & Hr).
    assert (slice_starts_with (cp_prefix self ++ rest) (cp_prefix self) = true) as Hs by (apply slice_starts_with_spec; by exists rest).
    rewrite <- zip_prefix in Hs by (rewrite length_app; lia).
    destruct (cp_remaining_wildcard self); simpl.
    + rewrite (proj2 (Nat.ltb_ge _ _)) by (rewrite length_app; lia). done.
    + destruct Hr as [?| ->]; [done|]. rewrite app_nil_r in *. by rewrite Nat.eqb_refl.
Qed.
(** [covers] is inclusion. *)
Lemma covers_spec self grant : CommandPattern_covers self grant = true ↔
  ∀ argv, CommandPattern_matches grant argv = true → CommandPattern_matches self argv = true.
Proof.
  unfold CommandPattern_covers. setoid_rewrite matches_spec. split.
  - destruct (cp_remaining_wildcard self).
    + intros [more Hm]%slice_starts_with_spec argv (rest & -> & _). exists (more ++ rest). rewrite Hm, <- app_assoc. auto.
    + rewrite andb_true_iff, negb_true_iff. intros [Hw ->%bool_decide_eq_true] argv (rest & -> & [?| ->]); [congruence|]. exists []. auto.
  - intros H. destruct (H (cp_prefix grant)) as (rest & Hr & Hw); [exists []; rewrite app_nil_r; auto|].
    destruct (cp_remaining_wildcard self); [apply slice_starts_with_spec; by exists rest|].
    destruct Hw as [?| ->]; [done|]. rewrite app_nil_r in Hr. rewrite Hr. apply andb_true_iff. split; [|by apply bool_decide_eq_true].
    apply negb_true_iff. destruct (cp_remaining_wildcard grant) eqn:E; [|done].
    destruct (H (cp_prefix grant ++ [""])) as (rest & Hr' & [?| ->]); [exists [""]; auto|done|].
    rewrite Hr, app_nil_r in Hr'. apply (f_equal length) in Hr'. rewrite length_app in Hr'. simpl in Hr'. lia.
Qed.

(** The codec accepts exactly the patterns that parse. *)
Lemma tokens_agree tokens k : (forall count, count = (k + length tokens)%nat →
  forallb (λ it : nat * string, Names.exec_token count it.1 it.2) (zip (seq k (length tokens)) tokens) = negb (tokens_refused tokens)).
Proof.
  revert k. induction tokens as [|token tokens IH]; intros k count ->; [done|].
  cbn [length seq zip zip_with forallb tokens_refused fst snd]. rewrite (IH (S k)) by lia. rewrite negb_orb. f_equal.
  unfold Names.exec_token, token_refused.
  replace (S k =? k + S (length tokens))%nat with (match tokens with [] => true | _ => false end).
  2: { symmetry. destruct tokens as [|t tokens]; [apply Nat.eqb_eq|apply Nat.eqb_neq]; cbn [length]; lia. }
  set (w := String.eqb token "*" && _).
  replace (existsb (λ b, negb (is_ascii_graphic b) || ((b =? 39) || (b =? 34) || (b =? 92))) (bytes token))
    with (existsb (λ b, negb (is_ascii_graphic b) || (b =? 39) || (b =? 34) || (b =? 92)) (bytes token)).
  2: { induction (bytes token) as [|b bs IHb]; [done|]. simpl. rewrite IHb. by rewrite !orb_assoc. }
  by destruct w, (str_is_empty token), (str_contains "*" token), (existsb _ _).
Qed.
Lemma parse_canonical pattern : Names.is_canonical_exec_pattern pattern = true ↔ is_Some (CommandPattern_parse pattern).
Proof.
  unfold Names.is_canonical_exec_pattern, CommandPattern_parse. destruct (_ || _ || _ || _); [split; [done|by intros [? ?]]|].
  destruct (split_char _ _) as [|binary tokens]; [split; [done|by intros [? ?]]|].
  destruct (_ || _); [split; [done|by intros [? ?]]|]. rewrite (tokens_agree (binary :: tokens) 0) by done.
  destruct (tokens_refused _); split; try done; by intros [? ?].
Qed.

(** ** Sorted requests *)

Lemma dedup_after_elem {A} `{EqDecision A} (x y : A) l : y ∈ dedup_after x l ↔ y = x ∨ y ∈ l.
Proof.
  revert x. induction l as [|z l IH]; intros x; simpl; [rewrite list_elem_of_singleton, elem_of_nil; tauto|].
  destruct (decide (x = z)) as [->|Hne].
  - rewrite bool_decide_eq_true_2, IH, elem_of_cons by done. tauto.
  - rewrite bool_decide_eq_false_2, !elem_of_cons, IH by done. tauto.
Qed.
Lemma sort_dedup_elem y names : y ∈ sort_dedup names ↔ y ∈ names.
Proof.
  transitivity (y ∈ sort_by str_compare names); [|by rewrite sort_by_perm]. unfold sort_dedup.
  destruct (sort_by str_compare names) as [|x l]; [done|]. cbn [dedup]. by rewrite dedup_after_elem, elem_of_cons.
Qed.
Lemma dedup_after_sorted x l : Sorted (λ y z, str_compare y z ≠ Gt) (x :: l) → sorted_strings (dedup_after x l).
Proof.
  intros Hs. apply Sorted_StronglySorted; [exact str_ltb_trans|]. revert x Hs.
  assert (∀ l x y, Sorted (λ y z, str_compare y z ≠ Gt) (x :: l) → str_ltb y x = true →
    HdRel (λ s t, str_ltb s t = true) y (dedup_after x l)) as Hhd.
  { clear l. induction l as [|z l IH]; intros x y Hs Hy; simpl; [by constructor|]. destruct (bool_decide_reflect (x = z)) as [->|]; [|by constructor].
    apply IH; [|done]. by inversion Hs. }
  induction l as [|z l IH]; intros x Hs; simpl; [by repeat constructor|]. inversion Hs as [|?? Hs' Hd]; subst.
  destruct (bool_decide_reflect (x = z)) as [->|Hne]; [by apply IH|]. constructor; [by apply IH|].
  apply Hhd; [done|]. inversion Hd as [|?? Hle]; subst. apply str_compare_Lt.
  destruct (str_compare x z) eqn:E; [by apply str_compare_Eq in E|done|done].
Qed.
Lemma sort_dedup_sorted names : sorted_strings (sort_dedup names).
Proof.
  unfold sort_dedup. assert (Sorted (λ y z, str_compare y z ≠ Gt) (sort_by str_compare names)) as Hs.
  { apply sort_by_sorted_weak. intros y z. unfold str_compare. apply bytes_compare_antisym. }
  destruct (sort_by str_compare names) as [|x l]; [constructor|]. by apply dedup_after_sorted.
Qed.

(** ** Grants *)

Lemma parse_executable pattern p : CommandPattern_parse pattern = Some p →
  ∃ rest, cp_prefix p = CommandPattern_executable p :: rest ∧ str_contains "/" (CommandPattern_executable p) = false.
Proof.
  unfold CommandPattern_parse. destruct (_ || _ || _ || _); [done|]. destruct (split_char _ _) as [|binary tokens]; [done|].
  destruct (str_contains "/" binary) eqn:Es; [done|]. destruct (String.eqb_spec binary "*") as [|Hw]; [done|].
  destruct (tokens_refused _); [done|]. intros [= <-]. unfold CommandPattern_executable. cbn [cp_prefix].
  destruct tokens as [|t tokens].
  - rewrite bool_decide_eq_false_2 by (intros [= ?]; done). by exists [].
  - case_bool_decide; [|by exists (t :: tokens)]. by exists (removelast (t :: tokens)).
Qed.
Lemma validate_exec_command_ok grant : validate_exec_command grant = Ok tt ↔ is_Some (CommandPattern_parse grant).
Proof. unfold validate_exec_command. destruct (CommandPattern_parse grant); split; try done; by intros [? ?]. Qed.
Lemma command_covers_spec request grant : is_Some (CommandPattern_parse grant) → is_Some (CommandPattern_parse request) →
  command_pattern_covers request grant = true ↔
  ∀ argv, command_pattern_matches grant argv = true → command_pattern_matches request argv = true.
Proof. intros [g Hg] [r Hr]. unfold command_pattern_covers, command_pattern_matches. rewrite Hg, Hr. apply covers_spec. Qed.
Lemma validate_environment_name_ok name :
  validate_environment_name name = Ok tt → Names.is_canonical_exec_environment_name name = true.
Proof.
  unfold validate_environment_name, is_environment_name, Names.is_canonical_exec_environment_name.
  destruct (bytes name) as [|first rest]; [done|]. destruct (_ && _); [|done].
  by destruct (eq_ignore_ascii_case name "LC_ALL"), (eq_ignore_ascii_case name "TZ").
Qed.
Lemma Forall_forallb {A} (p : A → bool) l : Forall (λ x, p x = true) l → forallb p l = true.
Proof. intros H. apply forallb_forall. intros x Hx. rewrite Forall_forall in H. by apply H, list_elem_of_In. Qed.

Definition accepts (pattern : string) (argv : list string) : Prop := command_pattern_matches pattern argv = true.

(** C23. A manifest whose command requests are accepted keeps them, sorted and once each,
    and all of them, with the environment names, are ones that the artifact codec accepts.
    A host grant is allowed exactly when it is a canonical pattern and some request
    accepts every argument vector that the grant accepts; so whatever runs under an
    allowed grant was requested, and its first argument is the executable that a request
    names. *)
Theorem exec_grants_confined exec validated : validate_exec exec = Ok validated →
  (∀ c, c ∈ er_commands validated ↔ c ∈ er_commands exec)
  ∧ sorted_strings (er_commands validated) ∧ sorted_strings (er_environment validated)
  ∧ forallb Names.is_canonical_exec_pattern (er_commands validated) = true
  ∧ forallb Names.is_canonical_exec_environment_name (er_environment validated) = true
  ∧ (∀ grant, allows_exec_grant validated grant = true ↔
       Names.is_canonical_exec_pattern grant = true
       ∧ ∃ request, request ∈ er_commands exec ∧ ∀ argv, accepts grant argv → accepts request argv)
  ∧ (∀ grant argv, allows_exec_grant validated grant = true → accepts grant argv →
       allows_exec_argv validated argv = true
       ∧ ∃ request p, request ∈ er_commands exec ∧ CommandPattern_parse request = Some p
         ∧ head argv = Some (CommandPattern_executable p) ∧ str_contains "/" (CommandPattern_executable p) = false).
Proof.
  unfold validate_exec. destruct (for_each validate_exec_command (er_commands exec)) as [[]|] eqn:Ec; [|done].
  destruct (for_each validate_environment_name (er_environment exec)) as [[]|] eqn:Ee; [|done]. intros [= <-]. cbn [er_commands er_environment].
  apply for_each_ok in Ec, Ee. setoid_rewrite validate_exec_command_ok in Ec. rewrite Forall_forall in Ec.
  set (validated := {| er_commands := _; er_environment := _ |}).
  assert (∀ grant, allows_exec_grant validated grant = true ↔ Names.is_canonical_exec_pattern grant = true
    ∧ ∃ request, request ∈ er_commands exec ∧ ∀ argv, accepts grant argv → accepts request argv) as Hgrant.
  { intros grant. rewrite parse_canonical. unfold allows_exec_grant, accepts, validated. cbn [er_commands]. split.
    - destruct (validate_exec_command grant) as [[]|] eqn:E; [|done]. apply validate_exec_command_ok in E.
      intros (request & Hin & Hc)%existsb_exists. rewrite <- list_elem_of_In, sort_dedup_elem in Hin. split; [done|]. exists request. split; [done|].
      apply command_covers_spec; [done|by apply Ec|done].
    - intros [Hg (request & Hin & Hc)]. rewrite (proj2 (validate_exec_command_ok grant) Hg). apply existsb_exists. exists request.
      split; [by apply list_elem_of_In, sort_dedup_elem|]. by apply command_covers_spec; [|apply Ec|]. }
  split_and!; [intros c; apply sort_dedup_elem|apply sort_dedup_sorted|apply sort_dedup_sorted| | |exact Hgrant|].
  - apply Forall_forallb, Forall_forall. intros c Hc. rewrite sort_dedup_elem in Hc. by apply parse_canonical, Ec.
  - apply Forall_forallb, Forall_forall. intros n Hn. rewrite sort_dedup_elem in Hn. rewrite Forall_forall in Ee. by apply validate_environment_name_ok, Ee.
  - intros grant argv [_ (request & Hin & Hc)]%Hgrant Ha%Hc. split.
    + apply existsb_exists. exists request. split; [|done]. by apply list_elem_of_In, sort_dedup_elem.
    + unfold accepts, command_pattern_matches in Ha. destruct (CommandPattern_parse request) as [p|] eqn:Ep; [|done].
      exists request, p. apply matches_spec in Ha as (rest & -> & _). destruct (parse_executable request p Ep) as (more & -> & Hs).
      by split_and!.
Qed.

Lemma exec_grants_confined_witness :
  let exec := {| er_commands := ["git status"; "cargo test *"]; er_environment := ["HOME"] |} in
  let validated := {| er_commands := ["cargo test *"; "git status"]; er_environment := ["HOME"] |} in
  validate_exec exec = Ok validated ∧ allows_exec_grant validated "cargo test --release *" = true
  ∧ allows_exec_grant validated "cargo *" = false ∧ allows_exec_argv validated ["cargo"; "test"; "--release"; "x"] = true.
Proof.
  set (exec := {| er_commands := ["git status"; "cargo test *"]; er_environment := ["HOME"] |}).
  set (validated := {| er_commands := ["cargo test *"; "git status"]; er_environment := ["HOME"] |}).
  assert (validate_exec exec = Ok validated) as E by (vm_compute; reflexivity).
  destruct (exec_grants_confined exec validated E) as (_ & _ & _ & _ & _ & _ & H).
  split; [exact E|]. split; [vm_compute; reflexivity|]. split; [vm_compute; reflexivity|].
  apply (H "cargo test --release *" ["cargo"; "test"; "--release"; "x"]); vm_compute; reflexivity.
Defined.
