(* ===== verification/HostGrants.v ===== *)
(** * External grants and their revocation

    The registry between the host and the runtime ([crates/josh-host/src/grants.rs]) and
    the runtime's use of it ([refresh_external_state] and the issue of a grant in
    [crates/allen-runtime/src/lib.rs]).  The host allows a grant, the runtime issues a
    capability for it, and the host may revoke it at any time, also between the two.  The
    mutex of the registry is never poisoned, since no operation panics under it, so each
    operation is one step. *)

From stdpp Require Import strings gmap.
From S2P Require Import Prelude.
From S2P Require Import VmBudget.
Open Scope list_scope.
Open Scope Z_scope.

Record ExternalGrantId := { eg_generation : Z; eg_nonce : Z }.
#[global] Instance ExternalGrantId_eq_dec : EqDecision ExternalGrantId.
Proof. solve_decision. Defined.

(** ** The registry *)

Record GrantRegistryState := {
  gr_pending_host_ids : gmap Z string; gr_revoked_pending_targets : gset Z;
  gr_runtime_ids : gmap string ExternalGrantId; gr_revoked : list ExternalGrantId }.
Definition GrantRegistry_default : GrantRegistryState := {|
  gr_pending_host_ids := ∅; gr_revoked_pending_targets := ∅; gr_runtime_ids := ∅; gr_revoked := [] |}.

(** The entry is replaced before the error. *)
Definition allowed (pending_target_id : Z) (host_grant_id : string) (state : GrantRegistryState)
    : result VmError unit * GrantRegistryState :=
  let next := {|
    gr_pending_host_ids := <[pending_target_id := host_grant_id]> (gr_pending_host_ids state);
    gr_revoked_pending_targets := gr_revoked_pending_targets state;
    gr_runtime_ids := gr_runtime_ids state; gr_revoked := gr_revoked state |} in
  match gr_pending_host_ids state !! pending_target_id with
  | Some _ => (Err AgentUnavailable, next)
  | None => (Ok tt, next)
  end.
Definition issued (pending_target_id : Z) (runtime_id : ExternalGrantId) (state : GrantRegistryState) : GrantRegistryState :=
  if bool_decide (pending_target_id ∈ gr_revoked_pending_targets state) then {|
    gr_pending_host_ids := gr_pending_host_ids state;
    gr_revoked_pending_targets := gr_revoked_pending_targets state ∖ {[pending_target_id]};
    gr_runtime_ids := gr_runtime_ids state; gr_revoked := gr_revoked state ++ [runtime_id] |}
  else match gr_pending_host_ids state !! pending_target_id with
  | Some host_id => {|
    gr_pending_host_ids := delete pending_target_id (gr_pending_host_ids state);
    gr_revoked_pending_targets := gr_revoked_pending_targets state;
    gr_runtime_ids := <[host_id := runtime_id]> (gr_runtime_ids state); gr_revoked := gr_revoked state |}
  | None => state
  end.
(** [find_map] over the pending targets in order: the least one with the host's ID. *)
Definition pending_for (host_grant_id : string) (pending : gmap Z string) : option Z :=
  map_fold (λ target host_id found,
    if String.eqb host_id host_grant_id
    then Some (match found with Some least => Z.min target least | None => target end) else found) None pending.
Definition revoke (host_grant_id : string) (state : GrantRegistryState) : GrantRegistryState :=
  match gr_runtime_ids state !! host_grant_id with
  | Some runtime_id => {|
    gr_pending_host_ids := gr_pending_host_ids state;
    gr_revoked_pending_targets := gr_revoked_pending_targets state;
    gr_runtime_ids := delete host_grant_id (gr_runtime_ids state); gr_revoked := gr_revoked state ++ [runtime_id] |}
  | None =>
    match pending_for host_grant_id (gr_pending_host_ids state) with
    | Some pending_target => {|
      gr_pending_host_ids := delete pending_target (gr_pending_host_ids state);
      gr_revoked_pending_targets := {[pending_target]} ∪ gr_revoked_pending_targets state;
      gr_runtime_ids := gr_runtime_ids state; gr_revoked := gr_revoked state |}
    | None => state
    end
  end.
Definition take_revocations (state : GrantRegistryState) : result VmError (list ExternalGrantId) * GrantRegistryState :=
  (Ok (gr_revoked state), {|
    gr_pending_host_ids := gr_pending_host_ids state; gr_revoked_pending_targets := gr_revoked_pending_targets state;
    gr_runtime_ids := gr_runtime_ids state; gr_revoked := [] |}).
Definition clear (state : GrantRegistryState) : GrantRegistryState := GrantRegistry_default.

(** ** The capabilities of the runtime *)

Section Runtime.
Context {Broker : Type}.

Record CapabilityEntry := { ce_nonce : Z; ce_broker : option Broker; ce_external_id : option ExternalGrantId }.
(** The fields of [BrokerEffects] that the grants use. *)
Record BrokerEffects := {
  be_generation : Z; be_capabilities : list CapabilityEntry; be_provider_lost : bool;
  be_external_grants : option GrantRegistryState }.

Definition is_some {A} (o : option A) : bool := match o with Some _ => true | None => false end.
Definition without_broker (entry : CapabilityEntry) : CapabilityEntry := {|
  ce_nonce := ce_nonce entry; ce_broker := None; ce_external_id := ce_external_id entry |}.
Definition revoke_all_external (capabilities : list CapabilityEntry) : list CapabilityEntry :=
  map (λ entry, if is_some (ce_external_id entry) then without_broker entry else entry) capabilities.
Definition apply_revocations (revocations : list ExternalGrantId) (capabilities : list CapabilityEntry) : list CapabilityEntry :=
  map (λ entry, match ce_external_id entry with
                | Some id => if bool_decide (id ∈ revocations) then without_broker entry else entry
                | None => entry
                end) capabilities.
Definition refresh_external_state (self : BrokerEffects) : result VmError unit * BrokerEffects :=
  if be_provider_lost self then (Err AgentUnavailable, self)
  else if negb (existsb (λ entry, is_some (ce_external_id entry) && is_some (ce_broker entry)) (be_capabilities self))
  then (Ok tt, self)
  else match be_external_grants self with
  | None => (Err AgentUnavailable, {|
      be_generation := be_generation self; be_capabilities := revoke_all_external (be_capabilities self);
      be_provider_lost := true; be_external_grants := None |})
  | Some provider =>
    match take_revocations provider with
    | (Err error, provider) => (Err error, {|
        be_generation := be_generation self; be_capabilities := revoke_all_external (be_capabilities self);
        be_provider_lost := true; be_external_grants := Some provider |})
    | (Ok revocations, provider) => (Ok tt, {|
        be_generation := be_generation self; be_capabilities := apply_revocations revocations (be_capabilities self);
        be_provider_lost := be_provider_lost self; be_external_grants := Some provider |})
    end
  end.
(** The end of a decision that allows: the capability is pushed and the provider told. *)
Definition issue_grant (pending_target_id nonce : Z) (broker : Broker) (self : BrokerEffects) : BrokerEffects :=
  let grant_id := {| eg_generation := be_generation self; eg_nonce := nonce |} in {|
    be_generation := be_generation self;
    be_capabilities := be_capabilities self ++
      [{| ce_nonce := nonce; ce_broker := Some broker; ce_external_id := Some grant_id |}];
    be_provider_lost := be_provider_lost self;
    be_external_grants := issued pending_target_id grant_id <$> be_external_grants self |}.
End Runtime.
Arguments CapabilityEntry : clear implicits.
Arguments BrokerEffects : clear implicits.

(** ** The specification *)

(** What the registry and the capabilities stand for: the grants of an execution by their
    pending targets, each with the host's ID, the runtime's ID once it is issued, and
    whether the host has revoked it. *)
Record Grant := { g_host : string; g_runtime : option ExternalGrantId; g_revoked : bool }.
Abbreviation Grants := (gmap Z Grant).
Definition new_grant (host : string) : Grant := {| g_host := host; g_runtime := None; g_revoked := false |}.
Definition issue_id (id : ExternalGrantId) (g : Grant) : Grant := {|
  g_host := g_host g; g_runtime := Some id; g_revoked := g_revoked g |}.
Definition mark_revoked (host : string) (g : Grant) : Grant := {|
  g_host := g_host g; g_runtime := g_runtime g; g_revoked := String.eqb (g_host g) host || g_revoked g |}.

Section Spec.
Context {Broker : Type}.
Implicit Types (grants : Grants) (self : BrokerEffects Broker).

Definition with_registry (state : GrantRegistryState) self : BrokerEffects Broker := {|
  be_generation := be_generation self; be_capabilities := be_capabilities self;
  be_provider_lost := be_provider_lost self; be_external_grants := Some state |}.

(** One operation of the host or the runtime.  Pending targets are numbered, the host does
    not reuse a grant ID and nonces are drawn fresh; a revocation may name any ID. *)
Inductive step : Grants → BrokerEffects Broker → Grants → BrokerEffects Broker → Prop :=
| step_allow grants self state target host r state' :
    be_external_grants self = Some state → grants !! target = None → (∀ q g, grants !! q = Some g → g_host g ≠ host) →
    allowed target host state = (r, state') →
    step grants self (<[target := new_grant host]> grants) (with_registry state' self)
| step_issue grants self target g nonce broker :
    let id := {| eg_generation := be_generation self; eg_nonce := nonce |} in
    grants !! target = Some g → g_runtime g = None → (∀ q g', grants !! q = Some g' → g_runtime g' ≠ Some id) →
    step grants self (<[target := issue_id id g]> grants) (issue_grant target nonce broker self)
| step_revoke grants self state host :
    be_external_grants self = Some state →
    step grants self (mark_revoked host <$> grants) (with_registry (revoke host state) self)
| step_refresh grants self r self' :
    refresh_external_state self = (r, self') → step grants self grants self'.

(** Executions start with the workspace's own capabilities only. *)
Definition started self : Prop :=
  be_external_grants self = Some GrantRegistry_default ∧ be_provider_lost self = false
  ∧ Forall (λ entry, ce_external_id entry = None) (be_capabilities self).
Inductive reachable : Grants → BrokerEffects Broker → Prop :=
| reachable_start self : started self → reachable ∅ self
| reachable_step grants self grants' self' : reachable grants self → step grants self grants' self' → reachable grants' self'.

(** What holds between the two. *)
Record registry_inv grants (state : GrantRegistryState) : Prop := {
  hosts_distinct : ∀ p q g g', grants !! p = Some g → grants !! q = Some g' → g_host g = g_host g' → p = q;
  runtimes_distinct : ∀ p q g g' id, grants !! p = Some g → grants !! q = Some g' →
    g_runtime g = Some id → g_runtime g' = Some id → p = q;
  pending_exact : ∀ p h, gr_pending_host_ids state !! p = Some h ↔
    grants !! p = Some {| g_host := h; g_runtime := None; g_revoked := false |};
  revoked_pending_exact : ∀ p, p ∈ gr_revoked_pending_targets state ↔
    ∃ h, grants !! p = Some {| g_host := h; g_runtime := None; g_revoked := true |};
  runtime_exact : ∀ h id, gr_runtime_ids state !! h = Some id ↔
    ∃ p, grants !! p = Some {| g_host := h; g_runtime := Some id; g_revoked := false |};
  queue_revoked : ∀ id, id ∈ gr_revoked state →
    ∃ p h, grants !! p = Some {| g_host := h; g_runtime := Some id; g_revoked := true |} }.
(** A capability without its broker is one whose revocation was taken. *)
Record capability_inv grants (queue : list ExternalGrantId) (capabilities : list (CapabilityEntry Broker)) : Prop := {
  entry_grant : ∀ entry id, entry ∈ capabilities → ce_external_id entry = Some id →
    ∃ p g, grants !! p = Some g ∧ g_runtime g = Some id ∧ (ce_broker entry = None ↔ g_revoked g = true ∧ id ∉ queue);
  grant_entry : ∀ p g id, grants !! p = Some g → g_runtime g = Some id →
    ∃ entry, entry ∈ capabilities ∧ ce_external_id entry = Some id }.
Definition grants_inv grants self : Prop :=
  be_provider_lost self = false ∧ ∃ state, be_external_grants self = Some state ∧ registry_inv grants state
    ∧ capability_inv grants (gr_revoked state) (be_capabilities self).
End Spec.

Lemma pending_for_spec host (pending : gmap Z string) :
  match pending_for host pending with
  | Some target => pending !! target = Some host
  | None => ∀ target, pending !! target ≠ Some host
  end.
Proof.
  unfold pending_for. apply (map_fold_weak_ind (λ found pending, match found with
    | Some target => pending !! target = Some host | None => ∀ target, pending !! target ≠ Some host end)).
  - intros target. by rewrite lookup_empty.
  - intros target h m found Hm IH. destruct (String.eqb_spec h host) as [->|Hne].
    + destruct found as [least|]; [|apply lookup_insert_eq]. destruct (Z.min_spec target least) as [[_ ->]|[_ ->]]; [apply lookup_insert_eq|].
      destruct (decide (least = target)) as [->|]; [apply lookup_insert_eq|by rewrite lookup_insert_ne].
    + destruct found as [least|].
      * rewrite lookup_insert_ne; [done|]. intros ->. congruence.
      * intros q. destruct (decide (q = target)) as [->|]; [rewrite lookup_insert_eq; congruence|by rewrite lookup_insert_ne].
Qed.

(** ** The invariant *)

Section Invariant.
Context {Broker : Type}.
Implicit Types (grants : Grants) (self : BrokerEffects Broker) (state : GrantRegistryState).

Lemma grant_eta g h r v : g_host g = h → g_runtime g = r → g_revoked g = v → g = {| g_host := h; g_runtime := r; g_revoked := v |}.
Proof. destruct g. simpl. congruence. Qed.

Lemma registry_start : registry_inv ∅ GrantRegistry_default.
Proof.
  constructor; cbn; intros *; rewrite ?lookup_empty, ?elem_of_empty, ?elem_of_nil; try done; split; try done;
    (intros [? H] || intros H); rewrite ?lookup_empty in H; done.
Qed.

Lemma allow_inv grants state target host : grants !! target = None → (∀ q g, grants !! q = Some g → g_host g ≠ host) →
  registry_inv grants state → (allowed target host state).1 = Ok tt
  ∧ registry_inv (<[target := new_grant host]> grants) (allowed target host state).2.
Proof.
  intros Hnew Hhost [Hh Hr Hp Hrp Hrt Hq]. unfold allowed.
  destruct (gr_pending_host_ids state !! target) as [h|] eqn:E; [apply Hp in E; congruence|]. split; [done|]. cbn [snd].
  constructor; cbn.
  - intros p q g g' [[<- <-]|[? E1]]%lookup_insert_Some [[<- <-]|[? E2]]%lookup_insert_Some Hg; [done| | |by eapply Hh].
    + by apply Hhost in E2.
    + by apply Hhost in E1.
  - intros p q g g' id [[<- <-]|[? E1]]%lookup_insert_Some [[<- <-]|[? E2]]%lookup_insert_Some; [done..|by eapply Hr].
  - intros p h. rewrite !lookup_insert_Some, Hp. unfold new_grant. naive_solver.
  - intros p. rewrite Hrp. setoid_rewrite lookup_insert_Some. unfold new_grant. naive_solver.
  - intros h id. rewrite Hrt. setoid_rewrite lookup_insert_Some. unfold new_grant. naive_solver.
  - intros id (p & h & H)%Hq. exists p, h. rewrite lookup_insert_ne; [done|]. congruence.
Qed.

Lemma issued_inv grants state target g id : grants !! target = Some g → g_runtime g = None →
  (∀ q g', grants !! q = Some g' → g_runtime g' ≠ Some id) → registry_inv grants state →
  registry_inv (<[target := issue_id id g]> grants) (issued target id state)
  ∧ gr_revoked (issued target id state) = gr_revoked state ++ (if g_revoked g then [id] else []).
Proof.
  intros Hg Hn Hid [Hh Hr Hp Hrp Hrt Hq].
  assert (∀ p q g1 g2, <[target := issue_id id g]> grants !! p = Some g1 → <[target := issue_id id g]> grants !! q = Some g2 →
    g_host g1 = g_host g2 → p = q) as Hh'.
  { intros p q g1 g2 [[<- <-]|[? E1]]%lookup_insert_Some [[<- <-]|[? E2]]%lookup_insert_Some Hg'; [done|by eapply Hh..]. }
  assert (∀ p q g1 g2 id', <[target := issue_id id g]> grants !! p = Some g1 → <[target := issue_id id g]> grants !! q = Some g2 →
    g_runtime g1 = Some id' → g_runtime g2 = Some id' → p = q) as Hr'.
  { intros p q g1 g2 id' [[<- <-]|[? E1]]%lookup_insert_Some [[<- <-]|[? E2]]%lookup_insert_Some; simpl; [done| | |by eapply Hr].
    - intros [= <-] ?. by eapply Hid in E2.
    - intros ? [= <-]. by eapply Hid in E1. }
  unfold issued. destruct g as [h r v]. simpl in Hn. subst r. destruct v; cbn [g_revoked].
  - rewrite bool_decide_eq_true_2 by (apply Hrp; by exists h). split; [|done]. constructor; cbn; [done|done| | | |].
    + intros p h'. rewrite Hp, lookup_insert_Some. unfold issue_id. simpl. naive_solver.
    + intros p. rewrite elem_of_difference, Hrp, elem_of_singleton. setoid_rewrite lookup_insert_Some. unfold issue_id. simpl. naive_solver.
    + intros h' id'. rewrite Hrt. setoid_rewrite lookup_insert_Some. unfold issue_id. simpl. naive_solver.
    + intros id' [(p & h' & H)%Hq| ->%list_elem_of_singleton]%elem_of_app.
      * exists p, h'. rewrite lookup_insert_ne; [done|]. congruence.
      * exists target, h. by rewrite lookup_insert_eq.
  - rewrite bool_decide_eq_false_2 by (rewrite Hrp; intros [h' ?]; congruence). rewrite (proj2 (Hp target h) Hg).
    split; [|by rewrite app_nil_r]. constructor; cbn; [done|done| | | |].
    + intros p h'. rewrite lookup_delete_Some, Hp, lookup_insert_Some. unfold issue_id. simpl. naive_solver.
    + intros p. rewrite Hrp. setoid_rewrite lookup_insert_Some. unfold issue_id. simpl. naive_solver.
    + intros h' id'. rewrite lookup_insert_Some, Hrt. setoid_rewrite lookup_insert_Some. unfold issue_id. simpl. split.
      * intros [[<- <-]|[Hne (p & H)]]; [exists target; by left|]. exists p. right. split; [congruence|done].
      * intros (p & [[<- [= <- <-]]|[Hne H]]); [by left|]. right. split; [|by exists p]. intros <-. apply Hne. by apply (Hh target p _ _ Hg H).
    + intros id' (p & h' & H)%Hq. exists p, h'. rewrite lookup_insert_ne; [done|]. congruence.
Qed.

Lemma marked_live host grants p h r :
  (mark_revoked host <$> grants) !! p = Some {| g_host := h; g_runtime := r; g_revoked := false |} ↔
  grants !! p = Some {| g_host := h; g_runtime := r; g_revoked := false |} ∧ h ≠ host.
Proof.
  rewrite lookup_fmap_Some. split.
  - intros ([h' r' v] & Hm & Hg). unfold mark_revoked in Hm. simpl in Hm. injection Hm as -> -> [Hne%String.eqb_neq ->]%orb_false_iff. done.
  - intros [Hg Hne%String.eqb_neq]. eexists. split; [|exact Hg]. unfold mark_revoked. simpl. by rewrite Hne.
Qed.
Lemma marked_revoked host grants p h r :
  (mark_revoked host <$> grants) !! p = Some {| g_host := h; g_runtime := r; g_revoked := true |} ↔
  grants !! p = Some {| g_host := h; g_runtime := r; g_revoked := true |}
  ∨ (grants !! p = Some {| g_host := h; g_runtime := r; g_revoked := false |} ∧ h = host).
Proof.
  rewrite lookup_fmap_Some. split.
  - intros ([h' r' v] & Hm & Hg). unfold mark_revoked in Hm. simpl in Hm. injection Hm as -> -> Hv. destruct v; [by left|].
    rewrite orb_false_r in Hv. apply String.eqb_eq in Hv as ->. by right.
  - unfold mark_revoked. intros [Hg|[Hg ->]]; (eexists; split; [|exact Hg]); simpl; [by rewrite orb_true_r|by rewrite String.eqb_refl].
Qed.
Lemma marked_distinct host grants state : registry_inv grants state →
  (∀ p q g g', (mark_revoked host <$> grants) !! p = Some g → (mark_revoked host <$> grants) !! q = Some g' → g_host g = g_host g' → p = q)
  ∧ (∀ p q g g' id, (mark_revoked host <$> grants) !! p = Some g → (mark_revoked host <$> grants) !! q = Some g' →
      g_runtime g = Some id → g_runtime g' = Some id → p = q).
Proof.
  intros [Hh Hr _ _ _ _]. split.
  - intros p q g g' (x & <- & Hx)%lookup_fmap_Some (y & <- & Hy)%lookup_fmap_Some. exact (Hh p q x y Hx Hy).
  - intros p q g g' id (x & <- & Hx)%lookup_fmap_Some (y & <- & Hy)%lookup_fmap_Some. exact (Hr p q x y id Hx Hy).
Qed.

(** Of the three cases of [revoke], each leaves the registry of the marked grants. *)
Lemma revoke_inv grants state host : registry_inv grants state →
  registry_inv (mark_revoked host <$> grants) (revoke host state)
  ∧ (∀ id, id ∈ gr_revoked (revoke host state) ↔ id ∈ gr_revoked state
       ∨ ∃ p, grants !! p = Some {| g_host := host; g_runtime := Some id; g_revoked := false |}).
Proof.
  intros Hinv. destruct (marked_distinct host grants state Hinv) as [Hh' Hr']. destruct Hinv as [Hh Hr Hp Hrp Hrt Hq].
  unfold revoke. destruct (gr_runtime_ids state !! host) as [id|] eqn:E.
  - apply Hrt in E as [q E]. split.
    + constructor; cbn; [done|done| | | |].
      * intros p h. rewrite Hp, marked_live. split; [|tauto]. intros Hg. split; [done|]. intros ->. assert (p = q) by exact (Hh _ _ _ _ Hg E eq_refl). congruence.
      * intros p. rewrite Hrp. setoid_rewrite marked_revoked. split; [intros [h ?]; exists h; by left|]. intros [h [?|[Hg ->]]]; [by exists h|].
        assert (p = q) by exact (Hh _ _ _ _ Hg E eq_refl). congruence.
      * intros h id'. rewrite lookup_delete_Some, Hrt. setoid_rewrite marked_live. naive_solver.
      * intros id' [(p & h & Hg)%Hq| ->%list_elem_of_singleton]%elem_of_app.
        -- exists p, h. rewrite marked_revoked. by left.
        -- exists q, host. rewrite marked_revoked. by right.
    + intros id'. cbn. rewrite elem_of_app, list_elem_of_singleton. split; [intros [?| ->]; [by left|right; by exists q]|].
      intros [?|[p Hg]]; [by left|]. right. assert (p = q) as -> by exact (Hh _ _ _ _ Hg E eq_refl). congruence.
  - assert (∀ p id, grants !! p ≠ Some {| g_host := host; g_runtime := Some id; g_revoked := false |}) as Hno.
    { intros p id Hg. assert (gr_runtime_ids state !! host = Some id) by (apply Hrt; by exists p). congruence. }
    assert (∀ h id', gr_runtime_ids state !! h = Some id' ↔
      ∃ p, (mark_revoked host <$> grants) !! p = Some {| g_host := h; g_runtime := Some id'; g_revoked := false |}) as Hrt'.
    { intros h id'. rewrite Hrt. setoid_rewrite marked_live. split; intros [p Hg]; exists p; [|tauto]. split; [done|]. intros ->. by apply Hno in Hg. }
    assert (∀ id', id' ∈ gr_revoked state → ∃ p h, (mark_revoked host <$> grants) !! p =
      Some {| g_host := h; g_runtime := Some id'; g_revoked := true |}) as Hq'.
    { intros id' (p & h & Hg)%Hq. exists p, h. rewrite marked_revoked. by left. }
    assert (∀ id', id' ∈ gr_revoked state ↔ id' ∈ gr_revoked state
      ∨ ∃ p, grants !! p = Some {| g_host := host; g_runtime := Some id'; g_revoked := false |}) as Hqueue.
    { intros id'. split; [by left|]. intros [?|[p Hg]]; [done|]. by apply Hno in Hg. }
    pose proof (pending_for_spec host (gr_pending_host_ids state)) as Hf.
    destruct (pending_for host (gr_pending_host_ids state)) as [target|].
    + apply Hp in Hf. split; [|exact Hqueue]. constructor; cbn; [done|done| | |done|done].
      * intros p h. rewrite lookup_delete_Some, Hp, marked_live. split.
        -- intros [Hne Hg]. split; [done|]. intros ->. apply Hne. symmetry. exact (Hh _ _ _ _ Hg Hf eq_refl).
        -- intros [Hg Hne]. split; [|done]. intros <-. congruence.
      * intros p. rewrite elem_of_union, elem_of_singleton, Hrp. setoid_rewrite marked_revoked. split.
        -- intros [->|[h Hg]]; [exists host; by right|exists h; by left].
        -- intros [h [Hg|[Hg ->]]]; [right; by exists h|left]. exact (Hh _ _ _ _ Hg Hf eq_refl).
    + split; [|exact Hqueue]. constructor; cbn; [done|done| | |done|done].
      * intros p h. rewrite Hp, marked_live. split; [|tauto]. intros Hg. split; [done|]. intros ->. by apply (Hf p), Hp.
      * intros p. rewrite Hrp. setoid_rewrite marked_revoked. split; [intros [h ?]; exists h; by left|].
        intros [h [?|[Hg ->]]]; [by exists h|]. exfalso. by apply (Hf p), Hp.
Qed.

(** ** The capabilities *)

Lemma allow_capabilities grants queue (caps : list (CapabilityEntry Broker)) target host : grants !! target = None →
  capability_inv grants queue caps → capability_inv (<[target := new_grant host]> grants) queue caps.
Proof.
  intros Hnew [He Hg]. constructor.
  - intros entry id Hin Hid. destruct (He entry id Hin Hid) as (p & g & Hp & H). exists p, g. split; [|done].
    rewrite lookup_insert_ne; [done|congruence].
  - intros p g id [[<- <-]|[_ Hp]]%lookup_insert_Some Hid; [done|]. by apply (Hg p g id).
Qed.
Lemma issue_capabilities grants queue (caps : list (CapabilityEntry Broker)) target g id nonce broker :
  grants !! target = Some g → g_runtime g = None → (∀ q g', grants !! q = Some g' → g_runtime g' ≠ Some id) →
  id ∉ queue → capability_inv grants queue caps →
  capability_inv (<[target := issue_id id g]> grants) (queue ++ (if g_revoked g then [id] else []))
    (caps ++ [{| ce_nonce := nonce; ce_broker := Some broker; ce_external_id := Some id |}]).
Proof.
  intros Ht Hn Hid Hq [He Hg]. constructor.
  - intros entry id' [Hin| ->%list_elem_of_singleton]%elem_of_app; simpl; intros Hid'.
    + destruct (He entry id' Hin Hid') as (p & g' & Hp & Hr & Hb). exists p, g'. split; [rewrite lookup_insert_ne; [done|congruence]|].
      split; [done|]. rewrite Hb, elem_of_app. assert (id' ≠ id) as Hne by (intros ->; by apply (Hid p g' Hp)).
      destruct (g_revoked g); rewrite ?list_elem_of_singleton, ?elem_of_nil; naive_solver.
    + injection Hid' as <-. exists target, (issue_id id g). split; [by rewrite lookup_insert_eq|]. split; [done|]. simpl. split; [done|].
      intros [Hr Hnq]. exfalso. apply Hnq, elem_of_app. right. rewrite Hr. by left.
  - intros p g' id' [[<- <-]|[_ Hp]]%lookup_insert_Some Hid'.
    + eexists. split; [apply elem_of_app; right; by left|]. simpl in *. congruence.
    + destruct (Hg p g' id' Hp Hid') as (entry & Hin & Hentry). exists entry. split; [apply elem_of_app; by left|done].
Qed.
Lemma revoke_capabilities grants state (caps : list (CapabilityEntry Broker)) host : registry_inv grants state →
  capability_inv grants (gr_revoked state) caps →
  capability_inv (mark_revoked host <$> grants) (gr_revoked (revoke host state)) caps.
Proof.
  intros Hinv [He Hg]. destruct (revoke_inv grants state host Hinv) as [_ Hqueue]. destruct Hinv as [_ Hr _ _ _ _]. constructor.
  - intros entry id Hin Hid. destruct (He entry id Hin Hid) as (p & [h r v] & Hp & Hrt & Hb). simpl in *. subst r.
    exists p, (mark_revoked host {| g_host := h; g_runtime := Some id; g_revoked := v |}). split; [by rewrite lookup_fmap, Hp|].
    split; [done|]. rewrite Hb, Hqueue. unfold mark_revoked. simpl. split.
    + intros [-> Hnq]. rewrite orb_true_r. split; [done|]. intros [?|[q Hq]]; [done|].
      assert (p = q) as <- by exact (Hr _ _ _ _ id Hp Hq eq_refl eq_refl). congruence.
    + intros [Hv Hno]. destruct v; [split; [done|tauto]|]. rewrite orb_false_r in Hv. apply String.eqb_eq in Hv as ->.
      exfalso. apply Hno. right. by exists p.
  - intros p g id (x & <- & Hx)%lookup_fmap_Some Hid. by apply (Hg p x id).
Qed.

Lemma apply_revocations_entry revocations (caps : list (CapabilityEntry Broker)) entry : entry ∈ apply_revocations revocations caps →
  ∃ old, old ∈ caps ∧ ce_external_id entry = ce_external_id old
    ∧ (∀ id, ce_external_id old = Some id → ce_broker entry = None ↔ ce_broker old = None ∨ id ∈ revocations).
Proof.
  unfold apply_revocations. intros (old & -> & Hin)%list_elem_of_fmap. exists old. split; [done|].
  destruct (ce_external_id old) as [id|] eqn:E; [|by rewrite E]. case_bool_decide; (split; [done|]); intros id' [= <-]; simpl; tauto.
Qed.
Lemma refresh_capabilities grants queue (caps : list (CapabilityEntry Broker)) :
  (∀ id, id ∈ queue → ∃ p h, grants !! p = Some {| g_host := h; g_runtime := Some id; g_revoked := true |}) →
  (∀ p q g g' id, grants !! p = Some g → grants !! q = Some g' → g_runtime g = Some id → g_runtime g' = Some id → p = q) →
  capability_inv grants queue caps → capability_inv grants [] (apply_revocations queue caps).
Proof.
  intros Hq Hr [He Hg]. constructor.
  - intros entry id (old & Hin & Hext & Hb)%apply_revocations_entry Hid. rewrite Hext in Hid.
    destruct (He old id Hin Hid) as (p & g & Hp & Hrt & Hold). exists p, g. split_and!; [done|done|].
    rewrite (Hb id Hid), Hold, elem_of_nil. split.
    + intros [[? _]|(q & h & Hgq)%Hq]; [tauto|]. assert (p = q) as <- by exact (Hr _ _ _ _ id Hp Hgq Hrt eq_refl).
      rewrite Hp in Hgq. injection Hgq as ->. simpl. tauto.
    + intros [Hv _]. destruct (decide (id ∈ queue)); tauto.
  - intros p g id Hp Hid. destruct (Hg p g id Hp Hid) as (entry & Hin & Hext). unfold apply_revocations.
    eexists. split; [by apply list_elem_of_fmap_2|]. rewrite Hext. by case_bool_decide.
Qed.

(** A refresh answers, and then the capabilities without a broker are the revoked ones. *)
Lemma refresh_inv grants self : grants_inv grants self → ∃ self', refresh_external_state self = (Ok tt, self')
  ∧ grants_inv grants self' ∧ capability_inv grants [] (be_capabilities self')
  ∧ ∀ entry, entry ∈ be_capabilities self → ce_external_id entry = None → entry ∈ be_capabilities self'.
Proof.
  intros (Hlost & state & Hs & Hreg & Hcap). unfold refresh_external_state. rewrite Hlost.
  destruct (existsb _ (be_capabilities self)) eqn:Ex; cbn [negb].
  - rewrite Hs. cbn [take_revocations]. eexists. split; [reflexivity|]. cbn [be_capabilities].
    assert (capability_inv grants [] (apply_revocations (gr_revoked state) (be_capabilities self))) as Hcap'
      by (destruct Hreg; by apply refresh_capabilities).
    split_and!; [|done|].
    + split; [done|]. eexists. split; [reflexivity|]. split; [|done]. destruct Hreg. constructor; cbn; try done. by intros id ?%not_elem_of_nil.
    + intros entry Hin Hext. unfold apply_revocations. apply list_elem_of_fmap. exists entry. by rewrite Hext.
  - exists self. split; [done|]. split_and!; [split; [done|by exists state]| |done]. destruct Hcap as [He Hg]. constructor; [|done].
    intros entry id Hin Hid. destruct (He entry id Hin Hid) as (p & g & Hp & Hrt & Hb). exists p, g. split_and!; [done|done|].
    assert (ce_broker entry = None) as Hn.
    { destruct (ce_broker entry) as [b|] eqn:Eb; [|done]. rewrite <- Ex in *. exfalso. apply (not_true_iff_false (existsb _ _)) in Ex. apply Ex.
      apply existsb_exists. exists entry. split; [by apply list_elem_of_In|]. by rewrite Hid, Eb. }
    rewrite elem_of_nil. apply Hb in Hn as Hn'. tauto.
Qed.

Lemma grants_step_inv grants self grants' self' : grants_inv grants self → step grants self grants' self' → grants_inv grants' self'.
Proof.
  intros Hinv Hstep. pose proof Hinv as (Hlost & state0 & Hs0 & Hreg & Hcap).
  destruct Hstep as [grants self state target host r state' Hs Hnew Hhost E|grants self target g nonce broker id Ht Hn Hid|
    grants self state host Hs|grants self r self' E].
  - rewrite Hs in Hs0. injection Hs0 as ->. destruct (allow_inv grants state0 target host Hnew Hhost Hreg) as [_ H]. rewrite E in H.
    split; [done|]. exists state'. split; [done|]. split; [done|]. simpl in *.
    assert (gr_revoked state' = gr_revoked state0) as -> by (unfold allowed in E; case_match; by injection E as _ <-).
    by apply allow_capabilities.
  - destruct (issued_inv grants state0 target g id Ht Hn Hid Hreg) as [H Hqueue].
    split; [done|]. exists (issued target id state0). split; [simpl; by rewrite Hs0|]. split; [done|]. rewrite Hqueue.
    apply issue_capabilities; [done..| |done]. intros (p & h & Hp)%(queue_revoked _ _ Hreg). by apply (Hid p _ Hp).
  - rewrite Hs in Hs0. injection Hs0 as ->. split; [done|]. exists (revoke host state0). split; [done|].
    split; [by apply revoke_inv|by apply revoke_capabilities].
  - destruct (refresh_inv grants self Hinv) as (self2 & E2 & H & _). rewrite E in E2. by injection E2 as -> ->.
Qed.
Lemma grants_reachable_inv grants self : reachable grants self → grants_inv grants self.
Proof.
  induction 1 as [self (Hs & Hlost & Hall)|grants self grants' self' _ IH Hstep]; [|by eapply grants_step_inv].
  split; [done|]. eexists. split; [done|]. split; [apply registry_start|]. rewrite Forall_forall in Hall. constructor.
  - intros entry id Hin%Hall Hid. congruence.
  - intros p g id Hp. by rewrite lookup_empty in Hp.
Qed.
End Invariant.


(** A grant that is revoked between its decision and its capability. *)
Definition early_start : BrokerEffects unit := {|
  be_generation := 7; be_capabilities := []; be_provider_lost := false; be_external_grants := Some GrantRegistry_default |}.
Definition early_allowed : BrokerEffects unit := with_registry (allowed 1 "grant" GrantRegistry_default).2 early_start.
Definition early_revoked : BrokerEffects unit :=
  with_registry (revoke "grant" (allowed 1 "grant" GrantRegistry_default).2) early_allowed.
Definition early_issued : BrokerEffects unit := issue_grant 1 99 tt early_revoked.
Definition early_grants : gmap Z Grant :=
  <[1 := issue_id {| eg_generation := 7; eg_nonce := 99 |} (mark_revoked "grant" (new_grant "grant"))]>
    (mark_revoked "grant" <$> (<[1 := new_grant "grant"]> ∅)).
Lemma early_reachable : reachable early_grants early_issued.
Proof.
  eapply reachable_step; [eapply reachable_step; [eapply reachable_step; [apply (reachable_start early_start)|]|]|].
  - split_and!; [done|done|constructor].
  - apply (step_allow ∅ early_start GrantRegistry_default 1 "grant" (Ok tt) (allowed 1 "grant" GrantRegistry_default).2);
      [done|done|intros q g Hq; by rewrite lookup_empty in Hq|done].
  - apply (step_revoke _ early_allowed (allowed 1 "grant" GrantRegistry_default).2 "grant"). done.
  - apply (step_issue _ early_revoked 1 (mark_revoked "grant" (new_grant "grant")) 99 tt); [done|done|].
    intros q g' (x & <- & [[<- <-]|[_ Hx]]%lookup_insert_Some)%lookup_fmap_Some; [done|by rewrite lookup_empty in Hx].
Qed.
